(* ===== verification/_CoqProject ===== *)
-Q . S2P
Prelude.v
Text.v
Names.v
Prog.v
Sched.v
ObjStore.v
Lease.v
Ownership.v
App.v
Election.v
Beats.v
Grants.v
Fleet.v
Node.v
Routing.v
Router.v
Oci.v
BlobState.v
Pour.v
BlobPush.v
BlobGc.v
BlobWorld.v
BlobRules.v
BlobSafe.v
RegistryLocal.v
OciProps.v
RegistryAlone.v
Upload.v
UploadSafe.v
BlobWitness.v
UploadWitness.v
Pktline.v
Commits.v
Refs.v
RefsSafe.v
Walks.v
Receive.v
ReceiveSafe.v
Fetch.v
FetchSafe.v
FilterSafe.v
FetchWitness.v
Pulls.v
PullsSafe.v
PullsRules.v
PullsProps.v
PullsWitness.v
People.v
Mongo.v
Directory.v
Console.v
Credentials.v
DirWorld.v
DirRules.v
DirSafe.v
DirProps.v
DirOwners.v
DirAlone.v
KeysProps.v
DirWitness.v
Pool.v
PoolSafe.v
PoolOps.v
PoolEntries.v
PoolProps.v
PoolWitness.v
Cluster.v
Controller.v
Removal.v
ClusterInv.v
RemovalRules.v
ControllerRules.v
RemovalProps.v
RemovalAlone.v
RemovalWitness.v
Patch.v
PatchProps.v
PatchWitness.v
Merge.v
MergeProps.v
