(* ===== verification/Prelude.v ===== *)
(** * The kloudlite git, registry and console servers, modelled and verified

    This library models the parts of the repository in which state is shared, ordered or proved to
    a client: which node owns a repository, what the container registry keeps, what git's two
    protocols accept and serve, how changes are merged, what the tools of a workspace write, and what
    becomes of a team's people and of their data.  Definitions carry the names of the source and are
    meant to be read beside it; comments name the file of [src/] each comes from.

    ** How the parts interact

    Every server node runs the same binary.  One of them holds the lease [cluster/leader] in the
    object store and alone writes the ownership map, from which every node learns who serves which
    repository; requests are routed to the owner, by asking the leader when the map does not say.
    On the owner run the handlers: pushes and fetches against the repository's own database and
    packs, and the registry's uploads, manifests and sweeps against the object store.  Merges are
    jobs on a change's row, which a worker claims, performs with the git binary in a cache of its own,
    pushes like anybody else and reports.  The console
    server keeps people, teams, invitations, credentials and administrators in MongoDB, which knows
    no transaction over two documents: its handlers run against each other request by request.
    In a region's Kubernetes cluster the api marks what belongs to people the directory no longer has
    in a team, and the controller that holds the region's lease deletes what has been marked for long
    enough; the objects, their revisions and their annotations are all the two share.

    ** The files

    Shared: [Prelude] (results, machine integers, automation, finite-set weights), [Text] (strings,
    UTF-8, integer parsing as in Rust), [Names] (segments and owners, [storage/src/store.rs]), [Prog]
    (effectful code as programs, interleaving, the rely-guarantee logic), [Sched] (runs by a schedule,
    a program alone),
    [ObjStore] (the object store's interface and one store in memory).

    Ownership ([crates/storage/src/ownership], [crates/app/src], [bins/server/src/router]):
    - [Lease]: [lease.rs]; [Ownership]: the leader's decisions, [ownership/mod.rs];
    - [App], [Election]: a node's state and [election.rs]; [Grants]: the leader's writes, [routing.rs];
    - [Fleet]: all of them together, any number of nodes; [Beats]: single beats, and one flaw;
    - [Node], [Routing]: [route_for], claims, renewals, the drain; [Router]: [route.rs].

    Databases ([crates/storage/src/pool]):
    - [Pool]: the map of open databases, entries, handles and who holds them, every operation of
      [mod.rs], [lease.rs] and [evict.rs]; [PoolSafe]: the invariant; [PoolOps], [PoolEntries]: a
      rule per section and per operation, the entry points;
    - [PoolProps]: the theorems; [PoolWitness]: a machine, and the runs in which the pool errs.

    Registry ([crates/registry/src]):
    - [Oci]: digests, paths, manifests ([store.rs], [manifests.rs], [gc.rs]); [BlobState]:
      [blob_state.rs]; [Pour], [BlobPush], [BlobGc]: pushes of blobs and manifests, the sweep;
      [Upload]: [uploads.rs];
    - [BlobWorld], [BlobRules], [BlobSafe]: the shared state's invariant, a rule per function, the
      entry points; [UploadSafe]: sessions; [OciProps]: the pure part; [RegistryAlone]: operations
      with nobody else about; [RegistryLocal], [BlobWitness], [UploadWitness]: concrete runs.

    Git ([crates/core/src/pktline.rs], [crates/gitbase], [crates/storage/src/refmeta.rs],
    [crates/git/src/protocol]):
    - [Pktline]: packet lines; [Commits]: [merge_base.rs] and the fast-forward test;
    - [Refs], [RefsSafe]: repository rows, protection rules, the update of refs;
    - [Walks], [Receive], [ReceiveSafe]: a push; [Fetch], [FetchSafe], [FilterSafe]: a fetch;
    - [FetchWitness]: concrete repositories.

    Pull requests ([crates/pulls/src/pulls], [bins/server/src/browse_api/pulls.rs], two lanes of
    [bins/server/src/lanes.rs]):
    - [Pulls]: rows, numbers, the migration from the directory, merge jobs, the mergeability check,
      handlers and lanes; [PullsSafe]: a change's life cycle and what follows from it;
    - [PullsRules]: the shared state's invariant, a rule per operation, the entry points;
      [PullsProps]: the theorems; [PullsWitness]: a codec, a repository in memory, runs;
    - [Merge]: the worker's side ([merge_worker.rs], the events of [bins/worker/src/main.rs]): a merge
      and a trial merge as sequences of git commands; [MergeProps]: what git may answer, the theorems,
      and a git in memory whose commands fail, go unheard or are overtaken.

    Directory and console ([crates/pulls/src/directory], [crates/api/src/teams.rs],
    [credentials.rs], [passkeys.rs], [crates/core/src/jwt.rs]):
    - [People]: the documents, handles, pins and roles; [Mongo]: requests to a collection, what they
      do and how they fail; [Directory]: an operation per method; [Console]: who asks, and the
      requests about teams, sign-in and administrators; [Credentials]: tokens, keys, CLI logins and
      passkeys;
    - [DirWorld], [DirRules], [DirSafe]: the invariant over the database
      and the history of what was done and answered, a rule per event, per request and per handler,
      the entry points; [DirProps]: the theorems;
    - [DirOwners]: the owners of a team, with an invariant of its own; [DirAlone], [KeysProps]:
      requests with nobody else about, and the keys rendered for a team; [DirWitness]: a
      directory in memory, schedules of tasks, and the runs in which it does not do what it says.

    Member removal and the controller ([crates/workspaces/src/api/membership], [removals.rs],
    [keys/mod.rs], [bins/controller/src]):
    - [Cluster]: workspaces, spaces and leases behind the API server, the requests and what they do;
      [Controller]: the election ([lease.rs], [lib.rs]), the fence ([space.rs]) and the GC ([gc.rs]);
      [Removal]: the beat, the heartbeat, delete-now and the listings;
    - [ClusterInv]: the invariant over the cluster and the history of what was asked and answered;
      [RemovalRules], [ControllerRules]: a rule per function, the entry points; [RemovalProps]: the
      theorems for every interleaving; [RemovalAlone]: a cluster that executes, and
      the beat and the GC with nobody else about; [RemovalWitness]: a region, a week in it, and the
      runs in which it errs.

    Tools of a workspace ([crates/ide/src/tools/patch.rs], [tools/files.rs], [paths.rs], [trees.rs]):
    - [Patch]: unified diffs parsed and placed, exact edits, confinement, staged writes and their
      undoing; [PatchProps]: a printer of diffs and what a diff is, a file system of which one
      operation may fail, the theorems; [PatchWitness]: diffs applied in memory, and the flaws.

    ** What the theorems show

    - Ownership: an epoch has one leader, every write of the map is a decision of the leader's, an
      owner keeps what it was granted until its time is up, a node serves only what it was given
      evidence of owning, and the wire messages parse back.  These hold in every reachable state of
      every interleaving, with lost, failed and unacknowledged writes.
    - Databases: when all is quiet every open database is the one the map names, and a sweep closes
      none a request uses; but for an entry that a retire of an earlier handle, a failed open of its
      own, or a shutdown that had not collected it took out of the map.  A lease goes back after a
      close; a sweep picks exactly what is idle or over the bound.
    - Registry: a blob that resolves has the bytes of its digest; the sweep never takes a blob a
      stored manifest names, while a manifest's push ends within its window; an upload session holds
      exactly the bytes it accepted, and a chunk's answer says whether it took them; a push ends in
      a blob that pulls; a manifest that cannot be read stops the sweep; paths never collide.
    - Git: a batch of ref updates is one atomic step of a sequential specification and obeys the
      protection rules; a push that moved a ref left no object missing, and its report is true; a
      fetch serves only what the refs reach, without [deepen-relative] and where no submodule's commit
      is in the database; a filtered pack is complete for listings parents last;
      packet lines read back what was written; merge bases are common ancestors.
    - Pull requests: in every interleaving of handlers and lanes a change moves only by its life
      cycle and keeps what identifies it; numbers are not given twice; a migrated repository has all
      the directory gave; a merge has one worker per lease; the lane that announces merges finds
      exactly those that wait; a check's verdict is true of the tips it names.
    - Merges: whatever git answers and others push meanwhile, a job pushes at most once, the commit
      its strategy makes of tips both branches have had, from exactly the tip it merged.  Merged means
      the base has what was asked for; conflicts are git's, but for a rebase's, which say only that it
      failed; a refusal comes before any push, or in the words of a failed one, which may have landed.
      A trial merge's verdict is git's of the tips it names.
    - Tools: the printed diff of two texts, parsed and applied to the first, gives the second, with
      hunks shifted by those before them ([PatchProps.Diff] says which diffs); a patch, and an edit,
      change every file or none, when the disk's files are text and one of its operations fails.
    - Directory and console: in every interleaving a handle has one holder (while no write that was
      reported failed had been done), an invitation admits
      once and only whom it was sent to, a sign-in link and a CLI code work once, a handle and a
      region stay, the roster of administrators is not left empty, and a team keeps an active owner
      unless somebody is promoted meanwhile or [$] makes a demotion another's; alone, a role changes
      and a member goes only by the role table, a profile shows what is public, the keys rendered for
      a team are exactly its active members'.
    - Member removal: in every interleaving of api replicas, controllers, admins and others, what the
      GC deletes belongs to somebody the directory had said was away a full grace before (or an admin
      ordered it), every pair had been judged no more than two beats earlier, and a term has one
      holder; alone, a beat makes of each object what a table of the membership, the marks and the
      clock says ([RemovalAlone.ruled]), the GC takes exactly
      what is due, and the two together delete what a departed person left, not before its time.
    - Where the code does not do what it says, a theorem has the run: [promote_can_leave_a_writer],
      [git_route_yields_img_key], [shadowed_rule_deletes], [merge_base_forgets_errors],
      [relative_deepen_leaks], [filtered_misses_file], [filtered_sends_submodule],
      [head_answered_as_branch],
      [migration_forgets_the_rest], [empty_token_concludes]; and at the end of [DirWitness]: an admin demotes
      an owner, a promotion defeats the last-owner guard, a CLI token is given twice, a lost answer
      doubles a handle, failed counts empty the roster, an invitation is spent for nothing, demoting
      one owner demotes the other and two at once leave none; and of [PoolWitness]: a lease given back
      under a database opened again, a successor's entry removed, an open the shutdown forgets, one
      that an earlier failure forgets ([late_failure_forgets]), a node that fences its own request, a
      delete unguarded; in [UploadWitness]: [sidecar_without_multipart]; and in [RemovalWitness]: [returned_member_loses_workspace],
      [failed_clear_is_a_beat], [zero_term_is_kept]; in [MergeProps]: [landed_and_recorded_refused],
      [raced_rebase_is_refused], [unanswered_is_no_fast_forward], [failed_rebase_is_a_conflict]; and in
      [PatchWitness]: [insertion_lands_a_line_early], [unterminated_end_taken_away], [crlf_never_applies], [second_entry_overwrites_the_first],
      [restore_deletes_what_is_not_text].

    ** Assumptions and bounds

    - Dependencies are parameters with laws: the object store ([ObjectStore]: conditional writes),
      resumable multipart uploads ([MultipartStore]), the row store ([RowLaws]: serializable
      transactions), gix's commit walk and object counting ([WalkLaws], [CountLaws]), hashes, JSON
      and path encodings.  Each has an instance in a witness file.  Rows of pull requests are
      JSON and read back as written ([PullCodec]); the directory's numbers are unique and the
      counter stays inside its type; a repository is not deleted under its pull requests.  Nonces are assumed never drawn
      twice, and the ownership theorems read each node's clock from the environment: the safety of
      an epoch does not depend on clocks, the times of leases are compared as the code compares them.
    - A request to MongoDB takes effect on one document at once; it may fail, and in a collection
      said to be [Torn] a failed one may have been done.  The theorems on handles ask that people's
      and teams' rows are not torn, the one on the roster that its collection does not fail;
      [lost_answer_doubles_a_handle] and [failed_counts_empty_the_roster] show both are needed.
      Unicode's case tables are Rust's and a class ([Casing]); tokens are decoded by a parameter, as
      are the fingerprints of keys; random tokens are the environment's, so "once" reads: as often as
      one was issued.  Which member [$] names under a filter with two conditions is a parameter too; theorems on
      demotions ask that it is the member named, and say so ([dollar_is_the_member]).  The platform's
      private keys are kept by a store that gives what it holds or fails ([KeysProps.ksem]).
    - The pool's heap is explicit: slots, handles and a list of holds, each with a label that only
      proofs read; [strong_count] counts the holds.  A piece of code under one lock is one step, and
      the order a [HashMap] is iterated in is the environment's.  A request runs to its end: one
      cancelled at an await is not modelled.
    - The API server is the environment's: a write under a resourceVersion or with preconditions is
      done only on what it names, a forced server-side apply leaves its manager the owner of exactly
      its body, any request may fail, and one that is not answered may have been done.  Others may edit
      any object, but not as [kloudlite-membership]; a name belongs to one owner and team; the two
      leases are written by their programs alone.  Times are printed and parsed by libraries
      ([Rfc3339]); a clock shows a time from 1970 to 2262; one holder to a term asks that the count of
      terms fits the Lease's field ([counted]).
    - git's commands are the environment's ([git_sem]): each does what its manual says when it says it
      has, and may fail, be killed or go unheard; an ancestor relation, trees, and what tips merge and
      rebase to are a class with laws ([Git]).  The cache is one job's at a time: the worker's lock.
    - A workspace's disk keeps bytes under paths; paths that were resolved name files and not
      directories; the all-or-nothing theorems let one operation fail (an undoing that fails too is
      not undone), and ask that the files there are text, which the code relies on.
    - A compare-and-swap loop makes the code's eight attempts.  [read_lines_until_flush] and the
      command loop of [Fetch] take the input's length, and one, as fuel: each turn reads a packet.
      Walks over objects take fuel and answer [OutOfFuel] without it: [push_check_ends] and
      [filtered_complete] bound it by the objects and pointers there are, [peel_total] by the tags
      on a chain.
    - Requests the source runs up to a number at a time and takes in order ([buffered]) run in that
      order; a listing of the object store is one request.  Integers keep their width where they can
      reach it; release builds wrap on overflow, and so do [u64_add] and its like.

    ** What is not modelled

    HTTP plumbing, authentication, metrics and log lines; the encoding of packs and the local object
    files (gix), SlateDB's own settings; the caller's interrupt flag.  The registry's image rows and
    reads over HTTP, pull request listings, the worker's stream and lanes and the watchdog over its
    subprocesses, the console's repository, image and feed routes, platform key pairs, bench sessions,
    caches and rate limits, the rest of the workspaces' control plane, the controller's network
    policies, the node agent, the fleet's probes ([bins/slo]) and the workspace tools that read, search
    and run commands are left out: what they do is for the most part to build Kubernetes objects and
    to drive programs of the node.  The directory's
    in-memory arm is a test fixture; the web console and site are TypeScript.

    This file holds what every other file shares: the error and result types, machine integers,
    automation, and lemmas on lists, options and finite sets. *)

From stdpp Require Export base functions gmap sets list strings.
From Stdlib Require Export ZArith Lia.

Global Set Default Proof Using "Type".
Global Generalizable All Variables.

Declare Scope klo_scope.
Delimit Scope klo_scope with klo.
Global Open Scope klo_scope.
Global Open Scope Z_scope.

(** ** Errors and results

    [crate::Error] is a boxed [dyn Error].  The code tells errors apart in three ways: by
    downcasting ([pool::is_fenced], [pool::is_unowned_err], [directory::Invalid]), by the text ([ownership::is_stalled])
    and not at all; the constructors keep exactly these distinctions.  [EPanic] stands for a failed
    [assert!], which ends the process. *)
Inductive error : Type :=
| EMsg (msg : string)
| EFenced
| EUnowned
| EInvalid (msg : string)
| EPanic (msg : string)
| EStore (msg : string).

Global Instance error_eq_dec : EqDecision error.
Proof. solve_decision. Defined.

Inductive result (A : Type) : Type :=
| Ok (a : A)
| Err (e : error).
Arguments Ok {A} a.
Arguments Err {A} e.

Global Instance result_eq_dec `{EqDecision A} : EqDecision (result A).
Proof. solve_decision. Defined.

Definition rbind {A B} (r : result A) (k : A -> result B) : result B :=
  match r with Ok a => k a | Err e => Err e end.

Definition rmap {A B} (f : A -> B) (r : result A) : result B :=
  match r with Ok a => Ok (f a) | Err e => Err e end.

Definition ok_or {A} (o : option A) (e : error) : result A :=
  match o with Some a => Ok a | None => Err e end.

Definition is_ok {A} (r : result A) : bool :=
  match r with Ok _ => true | Err _ => false end.

Definition is_err {A} (r : result A) : bool := negb (is_ok r).

(** The [?] operator. *)
Notation "'let?' x ':=' r 'in' k" := (rbind r (fun x => k))
  (at level 10, x pattern, r at level 100, k at level 200) : klo_scope.

Lemma rbind_ok {A B} (r : result A) (k : A -> result B) b :
  rbind r k = Ok b <-> exists a, r = Ok a /\ k a = Ok b.
Proof. destruct r; naive_solver. Qed.

(** ** Machine integers

    Rust integers are kept as [Z] in the range of their width.  Release builds wrap on overflow
    ([profile.release] does not enable overflow checks). *)
Definition u64_max : Z := 2 ^ 64 - 1.
Definition wrap64 (z : Z) : Z := z mod 2 ^ 64.
Definition u64_add (a b : Z) : Z := wrap64 (a + b).
Definition sat_sub (a b : Z) : Z := Z.max 0 (a - b).
Definition sat_add64 (a b : Z) : Z := Z.min u64_max (a + b).
Definition u64 (z : Z) : Prop := 0 <= z <= u64_max.
Definition i64_max : Z := 2 ^ 63 - 1.
Definition i64_min : Z := - 2 ^ 63.

Lemma wrap64_small z : 0 <= z <= u64_max -> wrap64 z = z.
Proof. unfold wrap64, u64_max. intros. apply Z.mod_small. lia. Qed.

Lemma u64_add_small a b : 0 <= a -> 0 <= b -> a + b <= u64_max -> u64_add a b = a + b.
Proof. intros. apply wrap64_small. lia. Qed.

Lemma wrap64_range z : u64 (wrap64 z).
Proof. unfold u64, u64_max, wrap64. pose proof (Z.mod_pos_bound z (2 ^ 64)). lia. Qed.

Lemma u64_add_range a b : u64 (u64_add a b).
Proof. apply wrap64_range. Qed.

(** ** Automation *)

(** Case analysis on every [match] and [if] of the goal, or of the hypotheses. *)
Ltac cases_goal := repeat (case_match; simplify_eq/=).

(** Turn boolean comparisons of hypotheses and goal into propositions. *)
Ltac bools :=
  repeat match goal with
  | H : _ && _ = true |- _ => apply andb_true_iff in H as [? ?]
  | H : _ && _ = false |- _ => apply andb_false_iff in H
  | H : _ || _ = false |- _ => apply orb_false_iff in H as [? ?]
  | H : _ || _ = true |- _ => apply orb_true_iff in H
  | H : negb _ = true |- _ => apply negb_true_iff in H
  | H : negb _ = false |- _ => apply negb_false_iff in H
  | H : bool_decide _ = true |- _ => apply bool_decide_eq_true in H
  | H : bool_decide _ = false |- _ => apply bool_decide_eq_false in H
  | H : (_ <=? _) = true |- _ => apply Z.leb_le in H
  | H : (_ <=? _) = false |- _ => apply Z.leb_gt in H
  | H : (_ <? _) = true |- _ => apply Z.ltb_lt in H
  | H : (_ <? _) = false |- _ => apply Z.ltb_ge in H
  | H : (_ =? _) = true |- _ => apply Z.eqb_eq in H
  | H : (_ =? _) = false |- _ => apply Z.eqb_neq in H
  end.

Create HintDb klo discriminated.
#[export] Hint Resolve wrap64_range u64_add_range : klo.

(** ** Options and lists *)

Definition is_some_and {A} (o : option A) (p : A -> bool) : bool :=
  match o with Some a => p a | None => false end.
Definition is_none_or {A} (o : option A) (p : A -> bool) : bool :=
  match o with Some a => p a | None => true end.
Definition unwrap_or {A} (o : option A) (d : A) : A :=
  match o with Some a => a | None => d end.
Definition is_some {A} (o : option A) : bool :=
  match o with Some _ => true | None => false end.
Definition is_none {A} (o : option A) : bool := negb (is_some o).

(** [Iterator::any] and [Iterator::all]. *)
Definition any {A} (p : A -> bool) (l : list A) : bool := existsb p l.
Definition all {A} (p : A -> bool) (l : list A) : bool := forallb p l.

Lemma any_spec {A} (p : A -> bool) l : any p l = true <-> exists x, x ∈ l /\ p x = true.
Proof.
  unfold any. rewrite existsb_exists. split; intros (x & Hx & Hp); exists x; split; auto;
    by apply list_elem_of_In.
Qed.

Lemma any_false {A} (p : A -> bool) l : any p l = false <-> forall x, x ∈ l -> p x = false.
Proof.
  split.
  - intros Hf x Hx. destruct (p x) eqn:E; [|done].
    assert (any p l = true) by (apply any_spec; eauto). congruence.
  - intros H. destruct (any p l) eqn:E; [|done]. apply any_spec in E as (x & Hx & Hp).
    by rewrite H in Hp.
Qed.

Lemma all_spec {A} (p : A -> bool) l : all p l = true <-> forall x, x ∈ l -> p x = true.
Proof.
  unfold all. rewrite forallb_forall. split; intros H x Hx; apply H; by apply list_elem_of_In.
Qed.

(** ** Weights of finite sets, for loops that visit each element once *)
Section weight.
Context `{Countable A}.
Variable f : A -> nat.

Definition set_weight (s : gset A) : nat := sum_list_with (fun x => S (f x)) (elements s).

Lemma set_weight_remove s x : x ∈ s -> set_weight s = (S (f x) + set_weight (s ∖ {[ x ]}))%nat.
Proof.
  intros Hx. unfold set_weight. rewrite (union_difference_singleton_L x s Hx) at 1.
  rewrite elements_union_singleton by (rewrite elem_of_difference, elem_of_singleton; tauto). done.
Qed.

Lemma set_weight_mono s t : s ⊆ t -> (set_weight s <= set_weight t)%nat.
Proof.
  intros [l Hl]%elements_submseteq%submseteq_Permutation. unfold set_weight.
  rewrite Hl, sum_list_with_app. lia.
Qed.
End weight.
