(* ===== verification/Text.v ===== *)
(** * Text: Rust's [str], byte strings and integer parsing

    What the modelled sources use of Rust's standard library on strings.  A [String], a [&str]
    and a [Vec<u8>] are all a [string] (one [ascii] per byte); [from_utf8] is the validity test
    that separates the first two from the third. *)

From S2P Require Import Prelude.
From Stdlib Require DecimalString DecimalN DecimalPos Decimal.
From Stdlib Require Export Ascii String.
From stdpp Require Export base gmap sets list strings.
Local Open Scope klo_scope.
Local Open Scope Z_scope.

Definition byte_z (c : ascii) : Z := Z.of_N (N_of_ascii c).

#[global] Arguments String.append : simpl nomatch.

(** The newline byte. *)
Definition nl : ascii := "010"%char.

(** ** UTF-8 validity ([str::from_utf8]), by the table of the Unicode standard *)
Definition cont_byte (c : ascii) : bool := (0x80 <=? byte_z c) && (byte_z c <=? 0xBF).
Definition in_range (lo hi : Z) (c : ascii) : bool := (lo <=? byte_z c) && (byte_z c <=? hi).

Fixpoint utf8_valid (s : string) : bool :=
  match s with
  | EmptyString => true
  | String c s1 =>
    if byte_z c <? 0x80 then utf8_valid s1
    else match s1 with
    | EmptyString => false
    | String c1 s2 =>
      if in_range 0xC2 0xDF c then cont_byte c1 && utf8_valid s2
      else match s2 with
      | EmptyString => false
      | String c2 s3 =>
        if byte_z c =? 0xE0 then in_range 0xA0 0xBF c1 && cont_byte c2 && utf8_valid s3
        else if in_range 0xE1 0xEC c || in_range 0xEE 0xEF c
             then cont_byte c1 && cont_byte c2 && utf8_valid s3
        else if byte_z c =? 0xED then in_range 0x80 0x9F c1 && cont_byte c2 && utf8_valid s3
        else match s3 with
        | EmptyString => false
        | String c3 s4 =>
          if byte_z c =? 0xF0
          then in_range 0x90 0xBF c1 && cont_byte c2 && cont_byte c3 && utf8_valid s4
          else if in_range 0xF1 0xF3 c
          then cont_byte c1 && cont_byte c2 && cont_byte c3 && utf8_valid s4
          else if byte_z c =? 0xF4
          then in_range 0x80 0x8F c1 && cont_byte c2 && cont_byte c3 && utf8_valid s4
          else false
        end
      end
    end
  end.

Definition from_utf8 (bytes : string) : option string :=
  if utf8_valid bytes then Some bytes else None.

(** ** Searching and splitting *)
Fixpoint contains_char (c : ascii) (s : string) : bool :=
  match s with
  | EmptyString => false
  | String d s' => Ascii.eqb c d || contains_char c s'
  end.

(** [s.split_once(c)]: at the first [c]. *)
Fixpoint split_once (c : ascii) (s : string) : option (string * string) :=
  match s with
  | EmptyString => None
  | String d s' =>
    if Ascii.eqb d c then Some (EmptyString, s')
    else match split_once c s' with
         | Some (a, b) => Some (String d a, b)
         | None => None
         end
  end.

(** [s.rsplit_once(c)]: at the last [c]. *)
Fixpoint rsplit_once (c : ascii) (s : string) : option (string * string) :=
  match s with
  | EmptyString => None
  | String d s' =>
    match rsplit_once c s' with
    | Some (a, b) => Some (String d a, b)
    | None => if Ascii.eqb d c then Some (EmptyString, s') else None
    end
  end.

(** [s.split(c)]: never empty. *)
Fixpoint split (c : ascii) (s : string) : list string :=
  match s with
  | EmptyString => [EmptyString]
  | String d s' =>
    if Ascii.eqb d c then EmptyString :: split c s'
    else match split c s' with
         | x :: xs => String d x :: xs
         | [] => [String d EmptyString]
         end
  end.

(** A trailing carriage return, as [str::lines] drops it before a newline. *)
Fixpoint strip_cr (s : string) : string :=
  match s with
  | EmptyString => EmptyString
  | String "013" EmptyString => EmptyString
  | String c s' => String c (strip_cr s')
  end.

(** [s.lines()]: a final newline ends the last line rather than starting an empty one, and a last
    line without one keeps its carriage return. *)
Definition lines (s : string) : list string :=
  match List.rev (split nl s) with
  | [] => []
  | EmptyString :: r => map strip_cr (List.rev r)
  | last :: r => (map strip_cr (List.rev r) ++ [last])%list
  end.

Fixpoint strip_prefix (p s : string) : option string :=
  match p, s with
  | EmptyString, _ => Some s
  | String a p', String b s' => if Ascii.eqb a b then strip_prefix p' s' else None
  | String _ _, EmptyString => None
  end.

Definition starts_with (p s : string) : bool := is_some (strip_prefix p s).

(** Bytes last to first. *)
Definition string_rev (s : string) : string :=
  string_of_list_ascii (List.rev (list_ascii_of_string s)).

Definition strip_suffix (p s : string) : option string :=
  option_map string_rev (strip_prefix (string_rev p) (string_rev s)).

Definition ends_with (p s : string) : bool := is_some (strip_suffix p s).

Fixpoint contains_str (p s : string) : bool :=
  starts_with p s ||
  match s with EmptyString => false | String _ s' => contains_str p s' end.

Definition str_len (s : string) : Z := Z.of_nat (String.length s).

(** ** Integers *)
Inductive parse_int_error := PEmpty | PInvalidDigit | PPosOverflow | PNegOverflow.

Definition parse_int_error_msg (e : parse_int_error) : string :=
  match e with
  | PEmpty => "cannot parse integer from empty string"
  | PInvalidDigit => "invalid digit found in string"
  | PPosOverflow => "number too large to fit in target type"
  | PNegOverflow => "number too small to fit in target type"
  end.

Definition digit (c : ascii) : option Z :=
  if in_range 48 57 c then Some (byte_z c - 48) else None.

Fixpoint parse_digits (max acc : Z) (s : string) : Z + parse_int_error :=
  match s with
  | EmptyString => inl acc
  | String c s' =>
    match digit c with
    | None => inr PInvalidDigit
    | Some d => let v := 10 * acc + d in
                if v <=? max then parse_digits max v s' else inr PPosOverflow
    end
  end.

(** [s.parse::<uN>()] with [max] the largest value: an optional [+], then digits.  A sign alone
    is an invalid digit. *)
Definition parse_uint (max : Z) (s : string) : Z + parse_int_error :=
  match s with
  | EmptyString => inr PEmpty
  | String "+" EmptyString => inr PInvalidDigit
  | String "-" EmptyString => inr PInvalidDigit
  | String "+" s' => parse_digits max 0 s'
  | _ => parse_digits max 0 s
  end.

Definition parse_u64 (s : string) : Z + parse_int_error := parse_uint u64_max s.

(** [s.parse::<i64>()]: a [-] parses the magnitude downwards. *)
Definition parse_i64 (s : string) : Z + parse_int_error :=
  match s with
  | String "-" EmptyString => inr PInvalidDigit
  | String "-" s' =>
    match parse_digits (2 ^ 63) 0 s' with
    | inl v => inl (- v)
    | inr PPosOverflow => inr PNegOverflow
    | inr e => inr e
    end
  | _ => parse_uint i64_max s
  end.

Definition ok_parse {A B} (r : A + B) : option A :=
  match r with inl a => Some a | inr _ => None end.

(** [{}] on a non-negative integer. *)
Definition display (z : Z) : string := DecimalString.NilEmpty.string_of_uint (N.to_uint (Z.to_N z)).

(** [{}] on an [i64]. *)
Definition display_i (z : Z) : string :=
  if z <? 0 then String "-" (display (- z)) else display z.

(** ** Lemmas *)

Lemma append_nil_r s : (s +:+ "")%string = s.
Proof. induction s; simpl; congruence. Qed.

Lemma append_assoc a b c : ((a +:+ b) +:+ c = a +:+ (b +:+ c))%string.
Proof. induction a; simpl; congruence. Qed.

Lemma contains_char_app c a b :
  contains_char c (a +:+ b) = contains_char c a || contains_char c b.
Proof. induction a as [|d a IH]; simpl; [done|]. by rewrite IH, orb_assoc. Qed.

Lemma split_once_app c a b :
  contains_char c a = false -> split_once c (a +:+ String c b) = Some (a, b).
Proof.
  induction a as [|d a IH]; simpl; intros H.
  - by rewrite Ascii.eqb_refl.
  - apply orb_false_iff in H as [Hd Ha]. rewrite Ascii.eqb_sym in Hd.
    by rewrite Hd, (IH Ha).
Qed.

Lemma split_once_some c s a b :
  split_once c s = Some (a, b) -> s = (a +:+ String c b)%string /\ contains_char c a = false.
Proof.
  revert a. induction s as [|d s IH]; cbn; intros a; [done|].
  destruct (Ascii.eqb_spec d c) as [->|Hd]; [by intros [= <- <-]|].
  destruct (split_once c s) as [[a' b']|]; [|done]. intros [= <- <-].
  destruct (IH _ eq_refl) as [-> Hc]. split; [done|]. cbn. rewrite Hc.
  by destruct (Ascii.eqb_spec c d); [congruence|].
Qed.

Lemma split_once_none c s : split_once c s = None -> contains_char c s = false.
Proof.
  induction s as [|d s IH]; cbn; [done|]. destruct (Ascii.eqb_spec d c); [done|].
  destruct (split_once c s) as [[]|]; [done|]. intros _. rewrite IH by done.
  by destruct (Ascii.eqb_spec c d); [congruence|].
Qed.

Lemma rsplit_once_none c b : contains_char c b = false -> rsplit_once c b = None.
Proof.
  induction b as [|d b IH]; simpl; [done|]. intros [Hd Hb]%orb_false_iff.
  rewrite Ascii.eqb_sym in Hd. by rewrite (IH Hb), Hd.
Qed.

Lemma rsplit_once_app c a b :
  contains_char c b = false -> rsplit_once c (a +:+ String c b) = Some (a, b).
Proof.
  intros Hb. induction a as [|d a IH]; simpl.
  - by rewrite (rsplit_once_none _ _ Hb), Ascii.eqb_refl.
  - by rewrite IH.
Qed.

Lemma split_no c a : contains_char c a = false -> split c a = [a].
Proof.
  induction a as [|d a IH]; simpl; [done|]. intros [Hd Ha]%orb_false_iff.
  rewrite Ascii.eqb_sym in Hd. by rewrite Hd, (IH Ha).
Qed.

Lemma split_app c a b :
  contains_char c a = false -> split c (a +:+ String c b) = a :: split c b.
Proof.
  induction a as [|d a IH]; simpl; intros H.
  - by rewrite Ascii.eqb_refl.
  - apply orb_false_iff in H as [Hd Ha]. rewrite Ascii.eqb_sym in Hd.
    by rewrite Hd, (IH Ha).
Qed.

Lemma split_not_nil c s : split c s <> [].
Proof. destruct s as [|d s]; simpl; [done|]. by repeat case_match. Qed.

Lemma split_no_sep c s x : x ∈ split c s -> contains_char c x = false.
Proof.
  revert x. induction s as [|d s IH]; simpl; intros x Hx.
  - by apply list_elem_of_singleton in Hx as ->.
  - destruct (Ascii.eqb d c) eqn:E.
    + apply elem_of_cons in Hx as [->|Hx]; [done|auto].
    + destruct (split c s) as [|y ys] eqn:Es; [by apply split_not_nil in Es|].
      apply elem_of_cons in Hx as [->|Hx]; [|apply IH; by right].
      simpl. rewrite Ascii.eqb_sym, E. simpl. apply IH. by left.
Qed.

Lemma strip_prefix_app p s : strip_prefix p (p +:+ s) = Some s.
Proof. induction p; simpl; [done|]. by rewrite Ascii.eqb_refl. Qed.

Lemma strip_prefix_some p s r : strip_prefix p s = Some r <-> s = (p +:+ r)%string.
Proof.
  split; [|intros ->; apply strip_prefix_app].
  revert s. induction p as [|a p IH]; intros s; simpl.
  - by intros [= ->].
  - destruct s as [|b s]; [done|]. destruct (Ascii.eqb a b) eqn:E; [|done].
    apply Ascii.eqb_eq in E as ->. intros H. by rewrite (IH _ H).
Qed.

(** ** Printing and parsing integers *)

(** The value of a digit string read left to right from [acc]. *)
Fixpoint uint_val (d : Decimal.uint) (acc : Z) : Z :=
  match d with
  | Decimal.Nil => acc
  | Decimal.D0 d => uint_val d (10 * acc + 0)
  | Decimal.D1 d => uint_val d (10 * acc + 1)
  | Decimal.D2 d => uint_val d (10 * acc + 2)
  | Decimal.D3 d => uint_val d (10 * acc + 3)
  | Decimal.D4 d => uint_val d (10 * acc + 4)
  | Decimal.D5 d => uint_val d (10 * acc + 5)
  | Decimal.D6 d => uint_val d (10 * acc + 6)
  | Decimal.D7 d => uint_val d (10 * acc + 7)
  | Decimal.D8 d => uint_val d (10 * acc + 8)
  | Decimal.D9 d => uint_val d (10 * acc + 9)
  end.

Lemma uint_val_ge d : forall acc, 0 <= acc -> acc <= uint_val d acc.
Proof.
  induction d as [|d IH|d IH|d IH|d IH|d IH|d IH|d IH|d IH|d IH|d IH]; intros acc Ha; simpl;
    [lia|..]; (etrans; [|apply IH; lia]); lia.
Qed.

Lemma uint_val_pos d : forall p, uint_val d (Zpos p) = Zpos (Pos.of_uint_acc d p).
Proof.
  induction d; intros p; cbn -[Z.mul Z.add Pos.mul Pos.add]; [done|..];
    match goal with IH : forall p, uint_val _ _ = _ |- _ => rewrite <- IH end;
    f_equal; lia.
Qed.

Lemma uint_val_of_uint d : uint_val d 0 = Z.of_N (N.of_uint d).
Proof.
  unfold N.of_uint. induction d; simpl; try done;
    (etrans; [apply uint_val_pos|done]).
Qed.

Lemma parse_digits_string max d : forall acc,
  0 <= acc -> uint_val d acc <= max ->
  parse_digits max acc (DecimalString.NilEmpty.string_of_uint d) = inl (uint_val d acc).
Proof.
  induction d as [|d IH|d IH|d IH|d IH|d IH|d IH|d IH|d IH|d IH|d IH]; intros acc Ha Hm;
    [done|..];
    cbn [DecimalString.NilEmpty.string_of_uint parse_digits uint_val] in *;
    match goal with |- context [digit ?c] =>
      let v := eval vm_compute in (digit c) in change (digit c) with v end;
    cbv zeta iota beta;
    match goal with |- context [?v <=? max] =>
      pose proof (uint_val_ge d v ltac:(lia)); destruct (Z.leb_spec v max); [|lia] end;
    apply IH; lia.
Qed.

Lemma display_val z : 0 <= z -> uint_val (N.to_uint (Z.to_N z)) 0 = z.
Proof. intros. rewrite uint_val_of_uint, DecimalN.Unsigned.of_to. lia. Qed.

Lemma uint_no_char c d :
  digit c = None -> contains_char c (DecimalString.NilEmpty.string_of_uint d) = false.
Proof.
  intros Hc. induction d as [|d IH|d IH|d IH|d IH|d IH|d IH|d IH|d IH|d IH|d IH];
    cbn [DecimalString.NilEmpty.string_of_uint contains_char]; [done|..];
    rewrite IH; apply orb_false_iff; split; auto;
    apply Ascii.eqb_neq; intros ->; vm_compute in Hc; discriminate.
Qed.

Lemma display_no_char c z : digit c = None -> contains_char c (display z) = false.
Proof. apply uint_no_char. Qed.

Lemma to_uint_not_nil n : N.to_uint n <> Decimal.Nil.
Proof. destruct n; [done|]. apply DecimalPos.Unsigned.to_uint_nonnil. Qed.

(** Printing an unsigned integer and parsing it gives it back. *)
Lemma parse_display max z : 0 <= z <= max -> parse_uint max (display z) = inl z.
Proof.
  intros Hz. unfold display.
  pose proof (parse_digits_string max (N.to_uint (Z.to_N z)) 0 ltac:(lia)) as Hp.
  rewrite display_val in Hp by lia. specialize (Hp ltac:(lia)).
  pose proof (to_uint_not_nil (Z.to_N z)) as Hn.
  destruct (N.to_uint (Z.to_N z)); [done|..]; exact Hp.
Qed.

Lemma parse_i64_unsigned c s : c <> "-"%char -> parse_i64 (String c s) = parse_uint i64_max (String c s).
Proof. intros Hc. destruct c as [[] [] [] [] [] [] [] []]; try reflexivity. by destruct Hc. Qed.

Lemma parse_i64_display z : 0 <= z <= i64_max -> parse_i64 (display_i z) = inl z.
Proof.
  intros Hz. unfold display_i. destruct (Z.ltb_spec z 0); [lia|].
  rewrite <- (parse_display i64_max z Hz). destruct (display z) as [|c s] eqn:E; [done|].
  apply parse_i64_unsigned. intros ->. pose proof (display_no_char "-" z eq_refl) as H'.
  rewrite E in H'. done.
Qed.

Lemma parse_u64_display z : u64 z -> parse_u64 (display z) = inl z.
Proof. apply parse_display. Qed.

(** ASCII text is valid UTF-8, and validity is closed under concatenation. *)
Definition ascii_only (s : string) : Prop := forall c, contains_char c s = true -> byte_z c < 0x80.

Lemma utf8_cons_ascii c s : byte_z c < 0x80 -> utf8_valid (String c s) = utf8_valid s.
Proof. intros H. simpl. destruct (Z.ltb_spec (byte_z c) 0x80); [done|lia]. Qed.

(** One branch of the decoder: its tests hold, and the rest is shorter. *)
Ltac utf8_branch IH :=
  bools;
  repeat match goal with H : ?b = true |- context [?b] => rewrite H end;
  simpl andb; apply IH; [simpl in *; lia|done].

Lemma utf8_app_aux n : forall a b, (String.length a <= n)%nat ->
  utf8_valid a = true -> utf8_valid (a +:+ b) = utf8_valid b.
Proof.
  induction n as [|n IH]; intros a b Hl Ha; [by destruct a; simpl in *; [|lia]|].
  destruct a as [|c a1]; [done|]. cbn [utf8_valid String.append] in *.
  destruct (byte_z c <? 0x80); [apply IH; simpl in *; [lia|done]|].
  destruct a1 as [|c1 a2]; [done|]. cbn [String.append].
  destruct (in_range 0xC2 0xDF c); [utf8_branch IH|].
  destruct a2 as [|c2 a3]; [done|]. cbn [String.append].
  destruct (byte_z c =? 0xE0); [utf8_branch IH|].
  destruct (in_range 0xE1 0xEC c || in_range 0xEE 0xEF c); [utf8_branch IH|].
  destruct (byte_z c =? 0xED); [utf8_branch IH|].
  destruct a3 as [|c3 a4]; [done|]. cbn [String.append].
  destruct (byte_z c =? 0xF0); [utf8_branch IH|].
  destruct (in_range 0xF1 0xF3 c); [utf8_branch IH|].
  destruct (byte_z c =? 0xF4); [utf8_branch IH|done].
Qed.

Lemma utf8_app a b : utf8_valid a = true -> utf8_valid (a +:+ b) = utf8_valid b.
Proof. by apply (utf8_app_aux (String.length a)). Qed.

Lemma utf8_ascii s : ascii_only s -> utf8_valid s = true.
Proof.
  induction s as [|c s IH]; intros H; [done|].
  rewrite utf8_cons_ascii.
  - apply IH. intros d Hd. apply H. simpl. by rewrite Hd, orb_true_r.
  - apply H. simpl. by rewrite Ascii.eqb_refl.
Qed.

Lemma display_ascii z : ascii_only (display z).
Proof.
  intros c Hc. destruct (digit c) as [d|] eqn:E.
  - unfold digit, in_range in E. case_match; [|done]. bools. lia.
  - by rewrite display_no_char in Hc.
Qed.

Lemma utf8_display z : utf8_valid (display z) = true.
Proof. apply utf8_ascii, display_ascii. Qed.

(** ** Trimming *)

(** [char::is_whitespace], of the character at the head: one byte, two, or three. *)
Definition ws1 (c : ascii) : bool := in_range 0x09 0x0D c || (byte_z c =? 0x20).
Definition ws2 (c d : ascii) : bool :=
  (byte_z c =? 0xC2) && ((byte_z d =? 0x85) || (byte_z d =? 0xA0)).
Definition ws3 (c d e : ascii) : bool :=
  ((byte_z c =? 0xE1) && (byte_z d =? 0x9A) && (byte_z e =? 0x80)) ||
  ((byte_z c =? 0xE2) && (byte_z d =? 0x80) &&
     (in_range 0x80 0x8A e || (byte_z e =? 0xA8) || (byte_z e =? 0xA9) || (byte_z e =? 0xAF))) ||
  ((byte_z c =? 0xE2) && (byte_z d =? 0x81) && (byte_z e =? 0x9F)) ||
  ((byte_z c =? 0xE3) && (byte_z d =? 0x80) && (byte_z e =? 0x80)).

Fixpoint all_ws (s : string) : bool :=
  match s with
  | EmptyString => true
  | String c r =>
    if ws1 c then all_ws r
    else match r with
         | EmptyString => false
         | String d r2 =>
           if ws2 c d then all_ws r2
           else match r2 with
                | EmptyString => false
                | String e r3 => if ws3 c d e then all_ws r3 else false
                end
         end
  end.

(** [str::trim_end]. *)
Fixpoint trim_end (s : string) : string :=
  match s with
  | EmptyString => EmptyString
  | String c r => if all_ws s then EmptyString else String c (trim_end r)
  end.

(** [str::trim_start]. *)
Fixpoint trim_start (s : string) : string :=
  match s with
  | EmptyString => EmptyString
  | String c r =>
    if ws1 c then trim_start r
    else match r with
         | EmptyString => s
         | String d r2 =>
           if ws2 c d then trim_start r2
           else match r2 with
                | EmptyString => s
                | String e r3 => if ws3 c d e then trim_start r3 else s
                end
         end
  end.

Definition trim (s : string) : string := trim_end (trim_start s).

(** [trim_start_matches] of a character. *)
Fixpoint trim_start_char (c : ascii) (s : string) : string :=
  match s with
  | EmptyString => EmptyString
  | String d r => if Ascii.eqb c d then trim_start_char c r else s
  end.

(** [trim_start_matches] of a non-empty string; [n] bounds its repetitions. *)
Fixpoint trim_start_strn (n : nat) (p s : string) : string :=
  match n with
  | O => s
  | S n => match strip_prefix p s with Some r => trim_start_strn n p r | None => s end
  end.

Definition trim_start_str (p s : string) : string := trim_start_strn (String.length s) p s.

(** A byte below 0x80 is no part of a longer character. *)
Lemma all_ws_app_ascii c b : byte_z c < 0x80 -> forall n a, (String.length a <= n)%nat ->
  all_ws (a +:+ String c b) = true -> all_ws (String c b) = true.
Proof.
  intros Hc. induction n as [|n IH]; intros a Hn H; destruct a as [|x a]; cbn in Hn; try lia; try exact H.
  change (String x a +:+ String c b)%string with (String x (a +:+ String c b)) in H.
  cbn [all_ws] in H. destruct (ws1 x); [apply (IH a); [lia|exact H]|].
  destruct a as [|y a].
  { cbn [String.app] in H. exfalso. unfold ws2, ws3, in_range in H.
    destruct b as [|z b]; repeat case_match; bools; try done; lia. }
  cbn [String.app] in H. destruct (ws2 x y); [apply (IH a); [cbn in Hn; lia|exact H]|].
  destruct a as [|z a].
  { cbn [String.app] in H. exfalso. unfold ws3, in_range in H. repeat case_match; bools; try done; lia. }
  cbn [String.app] in H. destruct (ws3 x y z); [apply (IH a); [cbn in Hn; lia|exact H]|done].
Qed.

Lemma trim_end_app_ascii a c b : byte_z c < 0x80 -> all_ws (String c b) = false ->
  trim_end (a +:+ String c b) = (a +:+ trim_end (String c b))%string.
Proof.
  intros Hc Hb. induction a as [|x a IH]; [done|].
  change (String x a +:+ String c b)%string with (String x (a +:+ String c b)).
  cbn [trim_end]. destruct (all_ws (String x (a +:+ String c b))) eqn:E.
  - exfalso. apply (all_ws_app_ascii c b Hc _ (String x a) (le_n _)) in E. congruence.
  - cbn [String.app]. by rewrite IH.
Qed.

(** ** The lines of a text *)
Definition CR : ascii := "013"%char.


Lemma split_around c a b : Text.split c (a +:+ String c b) = (Text.split c a ++ Text.split c b)%list.
Proof.
  induction a as [|x a IH]; cbn.
  - by rewrite Ascii.eqb_refl.
  - destruct (Ascii.eqb x c); [by rewrite IH|]. rewrite IH. destruct (Text.split c a) eqn:E; [by apply split_not_nil in E|done].
Qed.

Definition unlines (ls : list string) : string := foldr (fun l acc => l +:+ String nl acc) "" ls.

Lemma strip_cr_none s : contains_char CR s = false -> strip_cr s = s.
Proof.
  induction s as [|c s IH]; [done|]. intros [Hc Hs]%orb_false_iff. specialize (IH Hs). cbn [strip_cr]. rewrite IH.
  destruct (ascii_dec c CR) as [->|Hne]; [by rewrite Ascii.eqb_refl in Hc|].
  destruct c as [[] [] [] [] [] [] [] []]; try reflexivity. by destruct Hne.
Qed.

Lemma lines_unlines ls : (forall l, l ∈ ls -> contains_char nl l = false /\ contains_char CR l = false) -> lines (unlines ls) = ls.
Proof.
  intros H. assert (Text.split nl (unlines ls) = ls ++ [""])%list as E.
  { induction ls as [|l ls IH]; [done|]. cbn [unlines foldr]. rewrite split_app by (apply H; left). fold (unlines ls). rewrite IH; [done|].
    intros l' Hl'. apply H. by right. }
  unfold lines. rewrite E, rev_app_distr. cbn [List.rev app]. rewrite rev_involutive.
  rewrite <- (map_id ls) at 2. apply map_ext_in. intros l Hl. apply strip_cr_none, H. by apply list_elem_of_In.
Qed.

