(* ===== verification/Names.v ===== *)
(** * Names: which path segments name an owner, a repository or an image

    [valid_segment] and the reserved names of [crates/storage/src/store.rs], and the parsing of a
    repository path by [crates/git/src/protocol/mod.rs].  Every key of the development is built
    from names these functions admitted, so the lemmas say what such a name cannot contain. *)

From S2P Require Import Prelude Text.
Local Open Scope string_scope.
Local Open Scope Z_scope.

(** ** Names, [crates/storage/src/store.rs] and [crates/git/src/protocol/mod.rs] *)
Definition ascii_alphanumeric (c : ascii) : bool :=
  in_range 48 57 c || in_range 65 90 c || in_range 97 122 c.

Definition segment_char (c : ascii) : bool :=
  ascii_alphanumeric c || Ascii.eqb c "." || Ascii.eqb c "_" || Ascii.eqb c "-".

Fixpoint all_chars (f : ascii -> bool) (s : string) : bool :=
  match s with EmptyString => true | String c s => f c && all_chars f s end.

Definition valid_segment (s : string) : bool :=
  negb (String.eqb s "") && negb (String.eqb s ".") && negb (String.eqb s "..") &&
  all_chars segment_char s.

Definition mem_str (s : string) (l : list string) : bool := existsb (String.eqb s) l.

Definition RESERVED_OWNERS : list string := ["api"; "v2"; "img"; "vol"; "superadmin"].

Definition valid_owner (s : string) : bool :=
  valid_segment s && negb (starts_with "." s) && negb (mem_str s RESERVED_OWNERS).

Definition ascii_lower (c : ascii) : ascii :=
  if in_range 65 90 c then ascii_of_N (N_of_ascii c + 32) else c.

Fixpoint map_chars (f : ascii -> ascii) (s : string) : string :=
  match s with EmptyString => EmptyString | String c s => String (f c) (map_chars f s) end.

Definition RESERVED_REPO_NAMES : list string :=
  ["activity"; "repos"; "settings"; "registries"; "workspaces"; "environments"; "snapshots"; "ci"].

Definition reserved_repo_name (name : string) : bool :=
  existsb (fun r => String.eqb (map_chars ascii_lower name) (map_chars ascii_lower r))
    RESERVED_REPO_NAMES.

Definition parse_repo_pair (owner name : string) : option (string * string) :=
  let n := default name (strip_suffix ".git" name) in
  if negb (valid_segment owner) || negb (valid_segment n) then None else Some (owner, n).

Definition parse_repo_path (p : string) : option (string * string) :=
  '(o, n) ← split_once "/" (trim_start_char "/" p); parse_repo_pair o n.

(** ** What an admitted name cannot contain *)
Definition slashless (s : string) : Prop := contains_char "/" s = false.

Lemma all_chars_no f c s : all_chars f s = true -> f c = false -> contains_char c s = false.
Proof.
  intros Hs Hc. induction s as [|d s IH]; [done|]. cbn in *. bools.
  destruct (Ascii.eqb_spec c d) as [->|Hd]; [congruence|]. destruct (Ascii.eqb_spec d c); [congruence|]. auto.
Qed.

Lemma valid_segment_slashless s : valid_segment s = true -> slashless s.
Proof. unfold valid_segment. intros H. bools. by eapply all_chars_no. Qed.
