(* ===== verification/Prog.v ===== *)
(** * Prog: effectful code as programs, and a rely-guarantee logic for their interleavings

    An [async fn] of the source is a [prog E A]: a value, or an effect of the signature [E]
    followed by the rest of the function.  Between two effects of one task any other task of any
    node may run, which is what [await] points (and separate machines) allow.

    - [sem] gives an effect's meaning as a relation, so that failures, clocks and random values are
      the environment's choice;
    - [pstep] interleaves a pool of tasks one effect at a time;
    - [wp] is the proof rule: each effect may assume the invariant and whatever the rely [R] says
      others did, and must preserve the invariant and stay inside [R] ([pool_invariant]);
    - [run] executes one task on its own, for functional statements and witnesses. *)

From S2P Require Import Prelude.

Section prog.
Context {E : Type -> Type}.

Inductive prog (A : Type) : Type :=
| Ret (a : A)
| Vis (X : Type) (e : E X) (k : X -> prog A).
Arguments Ret {A} a.
Arguments Vis {A} X e k.

Fixpoint bind {A B} (p : prog A) (f : A -> prog B) : prog B :=
  match p with
  | Ret a => f a
  | Vis X e k => Vis X e (fun x => bind (k x) f)
  end.

Definition trigger {X} (e : E X) : prog X := Vis X e Ret.

(** One program after another over a list, every answer kept, in order. *)
Fixpoint traverse {A B} (f : A -> prog B) (l : list A) : prog (list B) :=
  match l with
  | [] => Ret []
  | a :: l => bind (f a) (fun b => bind (traverse f l) (fun bs => Ret (b :: bs)))
  end.

(** [?] inside an async function: stop with the error. *)
Definition bind_res {A B} (p : prog (result A)) (f : A -> prog (result B)) : prog (result B) :=
  bind p (fun r => match r with Ok a => f a | Err e => Ret (Err e) end).
End prog.

Arguments prog E A : clear implicits.
Arguments Ret {E A} a.
Arguments Vis {E A} X e k.

Notation "'let!' x ':=' p 'in' k" := (bind p (fun x => k))
  (at level 10, x pattern, p at level 100, k at level 200) : klo_scope.
Notation "'let!?' x ':=' p 'in' k" := (bind_res p (fun x => k))
  (at level 10, x pattern, p at level 100, k at level 200) : klo_scope.
Notation "p ';;!' k" := (bind p (fun _ => k))
  (at level 10, k at level 200) : klo_scope.

(** ** Sequential execution *)

(** A deterministic meaning of the effects, for running one task to its end; [None] blocks (a lock
    that is taken, a future that never completes). *)
Class Exec (E : Type -> Type) (S : Type) := exec : forall X, E X -> S -> option (X * S).
#[global] Arguments exec {E S Exec} X e s.

Fixpoint run {E S A} `{Exec E S} (p : prog E A) (s : S) : option (A * S) :=
  match p with
  | Ret a => Some (a, s)
  | Vis X e k => '(x, s') ← exec X e s; run (k x) s'
  end.

Lemma run_bind {E S A B} `{Exec E S} (p : prog E A) (f : A -> prog E B) s :
  run (bind p f) s = '(a, s') ← run p s; run (f a) s'.
Proof.
  revert s. induction p as [a|X e k IH]; intros s; simpl; [done|].
  destruct (exec X e s) as [[x s']|]; simpl; auto.
Qed.

(** A program over fewer effects inside one over more. *)
Fixpoint lift {E E' : Type -> Type} {A} (h : forall X, E X -> E' X) (p : prog E A) : prog E' A :=
  match p with
  | Ret a => Ret a
  | Vis X e k => Vis X (h X e) (fun x => lift h (k x))
  end.

Section interleaving.
Context {E : Type -> Type} {T S : Type}.
(** What effect [e] of task [t] may do in state [s]: answer [x] and leave [s']. *)
Variable sem : T -> forall X, E X -> S -> X -> S -> Prop.
(** The tasks the system can start: the entry points of the code. *)
Variable entry : T -> prog E unit -> Prop.

(** A task alone, with nobody in between. *)
Inductive runs {A} (t : T) : prog E A -> S -> A -> S -> Prop :=
| runs_ret a s : runs t (Ret a) s a s
| runs_vis X e k s x s1 a s2 :
    sem t X e s x s1 -> runs t (k x) s1 a s2 -> runs t (Vis X e k) s a s2.

Definition task : Type := T * prog E unit.

(** Any task takes its next effect; an entry point starts as a fresh task. *)
Inductive pstep : S * list task -> S * list task -> Prop :=
| pstep_effect s s' l1 l2 t X (e : E X) k x :
    sem t X e s x s' ->
    pstep (s, l1 ++ (t, Vis X e k) :: l2) (s', l1 ++ (t, k x) :: l2)
| pstep_spawn s l t p :
    entry t p -> t ∉ l.*1 -> pstep (s, l) (s, (t, p) :: l).

(** ** Rely-guarantee *)
Variable I : S -> Prop.
(** What task [t] may rely on across the others' effects. *)
Variable R : T -> S -> S -> Prop.
Context `{HR : !forall t, PreOrder (R t)}.

Fixpoint wp {A} (t : T) (p : prog E A) (s : S) (Q : A -> S -> Prop) : Prop :=
  match p with
  | Ret a => Q a s
  | Vis X e k =>
    forall s1 x s2, R t s s1 -> I s1 -> sem t X e s1 x s2 ->
      I s2 /\ (forall t', t' <> t -> R t' s1 s2) /\ wp t (k x) s2 Q
  end.

Lemma wp_bind {A B} t (p : prog E A) (f : A -> prog E B) s Q :
  wp t p s (fun a s' => wp t (f a) s' Q) -> wp t (bind p f) s Q.
Proof using Type.
  revert s. induction p as [a|X e k IH]; intros s; simpl; [done|].
  intros H s1 x s2 HR1 HI He. destruct (H s1 x s2 HR1 HI He) as (?&?&?). auto.
Qed.

Lemma wp_mono {A} t (p : prog E A) s (Q Q' : A -> S -> Prop) :
  wp t p s Q -> (forall a s', Q a s' -> Q' a s') -> wp t p s Q'.
Proof using Type.
  revert s. induction p as [a|X e k IH]; intros s; simpl; [auto|].
  intros H HQ s1 x s2 HR1 HI He. destruct (H s1 x s2 HR1 HI He) as (?&?&?). eauto.
Qed.

Lemma wp_bind_res {A B} t (p : prog E (result A)) (f : A -> prog E (result B)) s Q :
  wp t p s (fun r s' => match r with Ok a => wp t (f a) s' Q | Err e => Q (Err e) s' end) ->
  wp t (bind_res p f) s Q.
Proof using Type.
  intros H. apply wp_bind. eapply wp_mono; [exact H|]. intros [a|e] s'; simpl; auto.
Qed.

(** A fact no step can undo survives a whole program. *)
Lemma wp_frame {A} t (p : prog E A) s (Q : A -> S -> Prop) (F : S -> Prop) :
  (forall s s', R t s s' -> F s -> F s') ->
  (forall X (e : E X) s x s', sem t X e s x s' -> F s -> F s') ->
  wp t p s Q -> F s -> wp t p s (fun a s' => Q a s' /\ F s').
Proof using Type.
  intros HRF HeF. revert s. induction p as [a|X e k IH]; intros s; simpl; [auto|].
  intros H HF s1 x s2 HR1 HI He. destruct (H s1 x s2 HR1 HI He) as (?&?&?).
  split; [done|]. split; [done|]. apply IH; [done|]. eauto.
Qed.

(** One effect. *)
Lemma wp_trigger t X (e : E X) s (Q : X -> S -> Prop) :
  (forall s1 x s2, R t s s1 -> I s1 -> sem t X e s1 x s2 ->
     I s2 /\ (forall t', t' <> t -> R t' s1 s2) /\ Q x s2) ->
  wp t (trigger e) s Q.
Proof using Type. intros H. exact H. Qed.

(** What a task finds before it starts ([N]) and has established at its end ([Q]), and others do not
    undo. *)
Section ends.
Variables N Q : T -> S -> Prop.
Hypothesis N_stable : forall t s s', R t s s' -> N t s -> N t s'.
Hypothesis Q_stable : forall t s s', R t s s' -> Q t s -> Q t s'.

Lemma wp_rely {A} t (p : prog E A) s s1 :
  wp t p s (fun _ => Q t) -> R t s s1 -> wp t p s1 (fun _ => Q t).
Proof using HR Q_stable.
  destruct p as [a|X e k]; simpl; [intros; by eapply Q_stable|]. intros H HR1 s2 x s3 HR' HI He.
  eapply H; eauto. by etrans.
Qed.

Definition safe_task (s : S) (tk : task) : Prop := wp tk.1 tk.2 s (fun _ => Q tk.1).

Definition pool_ok (c : S * list task) : Prop :=
  I c.1 /\ NoDup c.2.*1 /\ Forall (safe_task c.1) c.2 /\ forall t, t ∉ c.2.*1 -> N t c.1.

(** Every entry point is safe wherever the invariant holds. *)
Hypothesis entry_safe : forall t p s, entry t p -> I s -> N t s -> wp t p s (fun _ => Q t).

Lemma pstep_ok c c' : pool_ok c -> pstep c c' -> pool_ok c'.
Proof using HR N_stable Q_stable entry_safe.
  unfold pool_ok. intros (HI & Hnd & Hsafe & HN) Hstep.
  destruct Hstep as [s s' l1 l2 t X e k x He|s l t p Hent Hfresh]; cbn [fst snd] in *.
  - apply Forall_app in Hsafe as [H1 [Ht H2]%Forall_cons].
    destruct (Ht s x s' (reflexivity s) HI He) as (HI' & HG & Hk).
    split; [done|]. split; [rewrite fmap_app in Hnd |- *; exact Hnd|].
    assert (Hother : forall tk, tk ∈ l1 ++ l2 -> safe_task s tk -> safe_task s' tk).
    { intros tk Hin Hs. eapply wp_rely; [exact Hs|]. apply HG. intros Heq.
      rewrite fmap_app, fmap_cons in Hnd. apply NoDup_app in Hnd as (_ & Hd & Hnd2).
      cbn [fst snd] in *. apply NoDup_cons in Hnd2 as [Hn2 _]. apply elem_of_app in Hin as [Hin|Hin].
      - apply (Hd tk.1); [by apply list_elem_of_fmap_2|rewrite Heq; left].
      - apply Hn2. rewrite <- Heq. by apply list_elem_of_fmap_2. }
    rewrite Forall_forall in H1, H2. split.
    + apply Forall_app; split; [|apply Forall_cons; split; [exact Hk|]];
        apply Forall_forall; intros tk Hin; apply Hother; auto; apply elem_of_app; auto.
    + intros t' Hn. rewrite fmap_app, fmap_cons in Hn, HN. cbn [fst] in Hn, HN. apply (N_stable t' s); [|by apply HN].
      apply HG. intros ->. apply Hn. apply elem_of_app. right. left.
  - split; [done|]. rewrite fmap_cons. cbn [fst]. split; [by apply NoDup_cons|]. split.
    + apply Forall_cons; split; [|done]. apply entry_safe; auto.
    + intros t' Hn. apply HN. intros Hin. apply Hn. by right.
Qed.

Theorem reach_ok c c' : pool_ok c -> rtc pstep c c' -> pool_ok c'.
Proof using HR N_stable Q_stable entry_safe. intros H Hr. induction Hr; eauto using pstep_ok. Qed.

(** What every task has established by the time it has finished, and what those find that have not
    started. *)
Corollary reach_from s s' l' : I s -> (forall t, N t s) -> rtc pstep (s, []) (s', l') ->
  I s' /\ (forall t a, (t, Ret a) ∈ l' -> Q t s') /\ forall t, t ∉ l'.*1 -> N t s'.
Proof using HR N_stable Q_stable entry_safe.
  intros HI HN Hr. eapply reach_ok in Hr; [|split; [done|]; split; [by constructor|]; split; [by constructor|by intros t _; apply HN]].
  destruct Hr as (HI' & _ & Hs & HN'). split; [done|]. split; [|done]. intros t a Hin.
  rewrite Forall_forall in Hs. exact (Hs _ Hin).
Qed.
End ends.

Corollary reach_ends (Q : T -> S -> Prop) (HQ : forall t s s', R t s s' -> Q t s -> Q t s')
    (He : forall t p s, entry t p -> I s -> wp t p s (fun _ => Q t)) s s' l' : I s -> rtc pstep (s, []) (s', l') ->
  I s' /\ forall t a, (t, Ret a) ∈ l' -> Q t s'.
Proof using HR.
  intros HI Hr. destruct (reach_from (fun _ _ => True) Q ltac:(done) HQ ltac:(auto) s s' l' HI ltac:(done) Hr) as (? & ? & _). done.
Qed.

(** The invariant holds in every state any interleaving of the entry points reaches. *)
Corollary reach_invariant (He : forall t p s, entry t p -> I s -> wp t p s (fun _ _ => True)) s s' l' :
  I s -> rtc pstep (s, []) (s', l') -> I s'.
Proof using HR. intros HI Hr. by eapply (reach_ends (fun _ _ => True)). Qed.

(** A task running alone meets its postcondition. *)
Lemma runs_wp {A} t (p : prog E A) s a s' Q :
  runs t p s a s' -> I s -> wp t p s Q -> Q a s' /\ I s'.
Proof using HR.
  induction 1 as [a s|X e k s x s1 a s2 He Hr IH]; simpl; [done|].
  intros HI H. destruct (H s x s1 (reflexivity s) HI He) as (?&?&?). auto.
Qed.

(** A task running alone is one of the interleavings. *)
Lemma runs_pstep t (p : prog E unit) s a s' l :
  runs t p s a s' -> rtc pstep (s, (t, p) :: l) (s', (t, Ret a) :: l).
Proof using Type.
  induction 1 as [a s|X e k s x s1 a s2 He Hr IH]; [done|].
  eapply rtc_l; [|exact IH]. by apply (pstep_effect s s1 [] l t X e k x).
Qed.

Lemma runs_reach t (p : prog E unit) s a s' l :
  entry t p -> t ∉ l.*1 -> runs t p s a s' -> rtc pstep (s, l) (s', (t, Ret a) :: l).
Proof using Type.
  intros He Hn Hr. eapply rtc_l; [by apply pstep_spawn|by apply runs_pstep].
Qed.
End interleaving.
