(* ===== verification/Sched.v ===== *)
(** * Sched: interleavings by a schedule, for concrete runs

    A machine takes one effect of one task at a time; a schedule says whose turn it is, and where a
    step goes the other way the machine knows (an answer lost, a deadline passed).  What it does is an
    interleaving of [pstep]. *)

From S2P Require Import Prelude Prog.

Inductive move := Go (t n : nat) | Odd (t : nat).

Section sched.
Context {E : Type -> Type} {S : Type}.
Variable mstep : bool -> nat -> forall X, E X -> S -> option (X * S).
Abbreviation pool := (list (nat * prog E unit)).

(** The named task takes one effect. *)
Fixpoint step_task (odd : bool) (t : nat) (ps : pool) (s : S) : option (pool * S) :=
  match ps with
  | [] => None
  | (t', p) :: ps =>
    if Nat.eqb t' t
    then match p with
         | Ret _ => Some ((t', p) :: ps, s)
         | Vis X e k => '(x, s') ← mstep odd t X e s; Some ((t', k x) :: ps, s')
         end
    else '(ps', s') ← step_task odd t ps s; Some ((t', p) :: ps', s')
  end.

Fixpoint go (n : nat) (t : nat) (ps : pool) (s : S) : option (pool * S) :=
  match n with
  | 0%nat => Some (ps, s)
  | Datatypes.S n => '(ps', s') ← step_task false t ps s; go n t ps' s'
  end.

Fixpoint drive (sched : list move) (ps : pool) (s : S) : option (pool * S) :=
  match sched with
  | [] => Some (ps, s)
  | Go t n :: sched => '(ps', s') ← go n t ps s; drive sched ps' s'
  | Odd t :: sched => '(ps', s') ← step_task true t ps s; drive sched ps' s'
  end.

Definition odd_moves (sched : list move) : bool := existsb (fun m => match m with Odd _ => true | _ => false end) sched.

Variable sem : nat -> forall X, E X -> S -> X -> S -> Prop.
Variable entry : nat -> prog E unit -> Prop.
(** When the machine may go the other way. *)
Variable may : bool -> Prop.
Hypothesis may_false : may false.
Hypothesis mstep_sem : forall odd t X (e : E X) s x s', may odd -> mstep odd t X e s = Some (x, s') -> sem t X e s x s'.
Abbreviation steps := (rtc (pstep sem entry)).

Lemma step_task_steps odd t ps s ps' s' : may odd -> step_task odd t ps s = Some (ps', s') ->
  forall l0, steps (s, l0 ++ ps)%list (s', l0 ++ ps')%list.
Proof using mstep_sem.
  intros Hl. revert ps'. induction ps as [|[t' p] ps IH]; intros ps' He l0; cbn in He; [done|].
  destruct (Nat.eqb_spec t' t) as [->|].
  - destruct p as [a|X e k]; [by injection He as <- <-|].
    destruct (mstep odd t X e s) as [[x s1]|] eqn:Hm; [|done]. injection He as <- <-.
    apply rtc_once, pstep_effect. by eapply mstep_sem.
  - destruct (step_task odd t ps s) as [[ps1 s1]|]; [|done]. injection He as <- <-.
    specialize (IH ps1 eq_refl (l0 ++ [(t', p)])%list). by rewrite <- !app_assoc in IH.
Qed.

Lemma go_steps n t ps s ps' s' : go n t ps s = Some (ps', s') -> steps (s, ps) (s', ps').
Proof using may_false mstep_sem.
  revert ps s. induction n as [|n IH]; intros ps s; cbn; [by intros [= <- <-]|].
  destruct (step_task false t ps s) as [[ps1 s1]|] eqn:Hs; [|done]. intros He. etrans; [|by apply IH].
  by apply (step_task_steps false t ps s ps1 s1 may_false Hs []).
Qed.

Lemma drive_steps sched ps s ps' s' : may (odd_moves sched) -> (may true -> forall b, may b) ->
  drive sched ps s = Some (ps', s') -> steps (s, ps) (s', ps').
Proof using may_false mstep_sem.
  intros Hl Hm. revert ps s Hl. induction sched as [|[t n|t] sched IH]; intros ps s Hl; cbn; [by intros [= <- <-]| |].
  - destruct (go n t ps s) as [[ps1 s1]|] eqn:Hg; [|done]. intros He. etrans; [by eapply go_steps|]. by apply IH.
  - destruct (step_task true t ps s) as [[ps1 s1]|] eqn:Hs; [|done]. intros He. etrans.
    + apply (step_task_steps true t ps s ps1 s1 Hl Hs []).
    + apply IH; [|done]. by apply Hm.
Qed.

(** A pool of entry points, under numbers of their own. *)
Lemma pool_starts ps s : NoDup ps.*1 -> (forall tp, tp ∈ ps -> entry tp.1 tp.2) -> steps (s, []) (s, ps).
Proof using Type.
  induction ps as [|[t p] ps IH]; intros Hnd He; [done|]. rewrite fmap_cons in Hnd. apply NoDup_cons in Hnd as [Ht Hnd].
  eapply rtc_r; [apply IH; [done|]|apply pstep_spawn; [exact (He (t, p) ltac:(left))|done]].
  intros tp Htp. apply He. by right.
Qed.

(** Whether every task has ended. *)
Definition all_ended (ps : pool) : bool := forallb (fun tp => match tp.2 with Ret _ => true | Vis _ _ _ => false end) ps.

Lemma all_ended_spec ps : all_ended ps = true -> forall t p, (t, p) ∈ ps -> exists a, p = Ret a.
Proof using Type.
  unfold all_ended. rewrite forallb_forall. intros Hf t p Hin. apply list_elem_of_In in Hin. specialize (Hf (t, p) Hin).
  destruct p as [a|]; [by exists a|done].
Qed.
End sched.

(** * What holds when a program run alone ends *)

Section ends.
Context {E : Type -> Type} {S : Type}.
Variable sem : forall X, E X -> S -> X -> S -> Prop.

Fixpoint ends {A} (p : prog E A) (s : S) (Q : A -> S -> Prop) : Prop :=
  match p with
  | Ret a => Q a s
  | Vis X e k => forall x s', sem X e s x s' -> ends (k x) s' Q
  end.

Lemma ends_mono {A} (p : prog E A) s (Q Q' : A -> S -> Prop) :
  ends p s Q -> (forall a s', Q a s' -> Q' a s') -> ends p s Q'.
Proof using Type. revert s. induction p as [a|X e k IH]; cbn; eauto. Qed.

Lemma ends_bind {A B} (p : prog E A) (f : A -> prog E B) s Q :
  ends p s (fun a s' => ends (f a) s' Q) -> ends (bind p f) s Q.
Proof using Type. revert s. induction p as [a|X e k IH]; cbn; eauto. Qed.

(** Sequencing, with what is known in between. *)
Lemma ends_seq {A B} (p : prog E A) (f : A -> prog E B) s Q1 Q :
  ends p s Q1 -> (forall a s', Q1 a s' -> ends (f a) s' Q) -> ends (bind p f) s Q.
Proof using Type. intros Hp Hf. apply ends_bind. by eapply ends_mono. Qed.

Lemma ends_seq_res {A B} (p : prog E (result A)) (f : A -> prog E (result B)) s Q1 Q :
  ends p s Q1 ->
  (forall a s', Q1 (Ok a) s' -> ends (f a) s' Q) ->
  (forall e s', Q1 (Err e) s' -> Q (Err e) s') -> ends (bind_res p f) s Q.
Proof using Type. intros Hp Hf He. eapply ends_seq; [exact Hp|]. intros [a|e] s'; cbn; auto. Qed.

Lemma ends_effect {X} (e : E X) s Q : (forall x s', sem X e s x s' -> Q x s') -> ends (trigger e) s Q.
Proof using Type. intros H. exact H. Qed.

Lemma ends_true {A} (p : prog E A) s : ends p s (fun _ _ => True).
Proof using Type. revert s. induction p as [a|X e k IH]; cbn; auto. Qed.

(** A relation every effect of [p] keeps. *)
Lemma runs_ends {A T} (t : T) (p : prog E A) s a s' Q :
  runs (fun _ => sem) t p s a s' -> ends p s Q -> Q a s'.
Proof using Type. induction 1 as [a s|X e k s x s1 a s2 He Hr IH]; cbn; auto. Qed.
End ends.

Lemma ends_lift {E E' : Type -> Type} {S A} (h : forall X, E X -> E' X)
    (sem : forall X, E' X -> S -> X -> S -> Prop) (p : prog E A) s Q :
  ends (fun X e => sem X (h X e)) p s Q -> ends sem (lift h p) s Q.
Proof. revert s. induction p as [a|X e k IH]; cbn; eauto. Qed.
