(* ===== verification/ObjStore.v ===== *)
(** * ObjStore: the object store as an interface

    [slatedb::object_store] is a dependency, not code of the repository: here it is the class
    [ObjectStore], a relation for each request with the documented laws of conditional writes, and
    the code of the other files is a program over its effects.  [MemStore] is one store that
    satisfies the laws (the crate's [InMemory]), used by the witnesses. *)

From S2P Require Import Prelude Text Prog.

Abbreviation path := string (only parsing).

(** [PutMode]. *)
Inductive put_mode (V : Type) : Type :=
| PutOverwrite
| PutCreate
| PutUpdate (v : V).
Arguments PutOverwrite {V}.
Arguments PutCreate {V}.
Arguments PutUpdate {V} v.

(** Answers.  [NotFound], [AlreadyExists] and [Precondition] are the errors the code tells
    apart. *)
Inductive get_res (V : Type) : Type :=
| GetOk (b : string) (v : V)
| GetNotFound
| GetErr (e : error).
Arguments GetOk {V} b v.
Arguments GetNotFound {V}.
Arguments GetErr {V} e.

Inductive put_res (V : Type) : Type :=
| PutOk (v : V)
| PutAlreadyExists
| PutPrecondition
| PutErr (e : error).
Arguments PutOk {V} v.
Arguments PutAlreadyExists {V}.
Arguments PutPrecondition {V}.
Arguments PutErr {V} e.

Inductive head_res : Type :=
| HeadOk (last_modified : Z)
| HeadNotFound
| HeadErr (e : error).

Inductive del_res : Type :=
| DelOk
| DelNotFound
| DelErr (e : error).

Inductive os_eff (V : Type) : Type -> Type :=
| OGet (p : path) : os_eff V (get_res V)
| OPut (p : path) (b : string) (m : put_mode V) : os_eff V (put_res V)
| OHead (p : path) : os_eff V head_res
| ODelete (p : path) : os_eff V del_res
| OList (prefix : path) : os_eff V (result (list path)).
Arguments OGet {V} p.
Arguments OPut {V} p b m.
Arguments OHead {V} p.
Arguments ODelete {V} p.
Arguments OList {V} prefix.

(** [Path::from(s)].  Documented: [s] is split at slashes, empty segments are dropped, and a segment
    is percent-encoded where it holds a character outside the plain ones; so a string of plain
    segments is its own path, with or without a slash at its end. *)
Definition plain_segment (s : string) : bool :=
  negb (String.eqb s "") && negb (String.eqb s ".") && negb (String.eqb s "..") &&
  forallb (fun c => in_range 48 57 c || in_range 65 90 c || in_range 97 122 c ||
                    Ascii.eqb c "." || Ascii.eqb c "_" || Ascii.eqb c "-") (list_ascii_of_string s).
Definition plain (s : string) : bool := forallb plain_segment (split "/" s).

Class PathFrom := {
  path_from : string -> path;
  path_from_plain : forall s, plain s = true -> path_from s = s;
  path_from_slash : forall s, plain s = true -> path_from (s +:+ "/")%string = s;
}.

(** The paths a listing of [prefix] answers: those with [prefix] as their leading segments. *)
Definition under (prefix q : path) : bool := starts_with (prefix +:+ "/")%string q.

(** A conditional write is admitted against the object [o] now at its path. *)
Definition put_allowed {V} (m : put_mode V) (o : option (string * V)) : Prop :=
  match m with
  | PutOverwrite => True
  | PutCreate => o = None
  | PutUpdate v => exists b, o = Some (b, v)
  end.

(** What the code relies on.  [view s p] is the object at [p] with its version; [seen s p v b]
    says [b] is or was stored at [p] under version [v].  A version names one content ([seen_fun]):
    true of counters and of content hashes alike, so nothing here needs versions to be fresh. *)
Class ObjectStore (V S : Type) := {
  osem : forall X, os_eff V X -> S -> X -> S -> Prop;
  view : S -> path -> option (string * V);
  seen : S -> path -> V -> string -> Prop;
  view_seen : forall s p b v, view s p = Some (b, v) -> seen s p v b;
  seen_fun : forall s p v b b', seen s p v b -> seen s p v b' -> b = b';
  seen_mono : forall X (e : os_eff V X) s x s' p v b,
    osem X e s x s' -> seen s p v b -> seen s' p v b;
  get_law : forall s p r s', osem _ (OGet p) s r s' ->
    (forall q, view s' q = view s q) /\
    match r with
    | GetOk b v => view s p = Some (b, v)
    | GetNotFound => view s p = None
    | GetErr _ => True
    end;
  put_law : forall s p b m r s', osem _ (OPut p b m) s r s' ->
    (forall q, q <> p -> view s' q = view s q) /\
    match r with
    | PutOk v => put_allowed m (view s p) /\ view s' p = Some (b, v)
    | PutAlreadyExists | PutPrecondition => view s' p = view s p
    | PutErr _ => view s' p = view s p \/
                  (put_allowed m (view s p) /\ exists v, view s' p = Some (b, v))
    end;
  seen_inv : forall X (e : os_eff V X) s x s' p v b,
    osem X e s x s' -> seen s' p v b -> seen s p v b \/ view s' p = Some (b, v);
  head_law : forall s p r s', osem _ (OHead p) s r s' ->
    (forall q, view s' q = view s q) /\
    match r with
    | HeadOk _ => view s p <> None
    | HeadNotFound => view s p = None
    | HeadErr _ => True
    end;
  del_law : forall s p r s', osem _ (ODelete p) s r s' ->
    (forall q, q <> p -> view s' q = view s q) /\
    match r with
    | DelOk => view s' p = None
    | DelNotFound => view s p = None /\ view s' p = None
    | DelErr _ => view s' p = view s p \/ view s' p = None
    end;
  list_law : forall s p r s', osem _ (OList p) s r s' ->
    (forall q, view s' q = view s q) /\
    match r with
    | Ok l => forall q, q ∈ l <-> under p q = true /\ view s q <> None
    | Err _ => True
    end
}.

(** ** A store in memory *)
Module MemStore.
(** [log] is every object ever put, a version is its index; [objs] maps a path to the version it
    holds. *)
Record mem := Mem {
  objs : gmap path nat;
  log : list (path * string * Z);
  clock : Z;
}.

Definition empty (now : Z) : mem := Mem ∅ [] now.

Definition mview (s : mem) (p : path) : option (string * nat) :=
  v ← objs s !! p;
  match log s !! v with
  | Some (q, b, _) => if decide (q = p) then Some (b, v) else None
  | None => None
  end.

Definition mseen (s : mem) (p : path) (v : nat) (b : string) : Prop :=
  exists t, log s !! v = Some (p, b, t).

Definition admits (m : put_mode nat) (o : option (string * nat)) : option (put_res nat) :=
  match m, o with
  | PutOverwrite, _ => None
  | PutCreate, None => None
  | PutCreate, Some _ => Some PutAlreadyExists
  | PutUpdate v, Some (_, w) => if decide (v = w) then None else Some PutPrecondition
  | PutUpdate _, None => Some PutPrecondition
  end.

Definition mput (p : path) (b : string) (s : mem) : mem :=
  Mem (<[p := List.length (log s)]> (objs s)) (log s ++ [(p, b, clock s)]) (clock s).

#[global] Instance mem_exec : Exec (os_eff nat) mem := fun X e s =>
  Some match e in os_eff _ X return X * mem with
  | OGet p => (match mview s p with Some (b, v) => GetOk b v | None => GetNotFound end, s)
  | OPut p b m =>
    match admits m (mview s p) with
    | Some r => (r, s)
    | None => (PutOk (List.length (log s)), mput p b s)
    end
  | OHead p =>
    (match mview s p with
     | Some (_, v) => match log s !! v with Some (_, _, t) => HeadOk t | None => HeadNotFound end
     | None => HeadNotFound
     end, s)
  | ODelete p =>
    match mview s p with
    | Some _ => (DelOk, Mem (delete p (objs s)) (log s) (clock s))
    | None => (DelNotFound, s)
    end
  | OList prefix =>
    (Ok (filter (fun q => is_true (under prefix q) /\ is_Some (mview s q))
           (map_to_list (objs s)).*1), s)
  end.

Lemma mput_view p b s q :
  mview (mput p b s) q = if decide (p = q) then Some (b, List.length (log s)) else mview s q.
Proof.
  unfold mview, mput; cbn [objs log]. rewrite lookup_insert. case_decide as Hpq; cbn.
  - rewrite list_lookup_middle by done. by rewrite decide_True.
  - destruct (objs s !! q) as [v|]; cbn; [|done].
    destruct (log s !! v) as [[[q' b'] t]|] eqn:E.
    + by rewrite (lookup_app_l_Some _ _ _ _ E).
    + rewrite lookup_app, E. destruct (_ !! (_ - _)%nat) as [[[q' b'] t]|] eqn:E2; [|done].
      apply list_lookup_singleton_Some in E2 as [_ [= <- <- <-]]. by rewrite decide_False.
Qed.

Lemma mseen_mono p v b s l' : mseen s p v b -> (exists l2, log s ++ l2 = l') ->
  exists t, l' !! v = Some (p, b, t).
Proof. intros [t Ht] [l2 <-]. exists t. by apply lookup_app_l_Some. Qed.

Lemma exec_log X (e : os_eff nat X) s : exists l2, log s ++ l2 = from_option (fun r => log r.2) (log s) (exec X e s).
Proof.
  destruct e; cbn; repeat case_match; cbn; eauto; exists []; by rewrite app_nil_r.
Qed.

Lemma admits_none m o : admits m o = None -> put_allowed m o.
Proof. destruct m, o as [[b w]|]; cbn; try done. case_decide; naive_solver. Qed.

Lemma admits_some m o r : admits m o = Some r -> r = PutAlreadyExists \/ r = PutPrecondition.
Proof. destruct m, o as [[b w]|]; cbn; try done; try case_decide; naive_solver. Qed.

Lemma mdelete_view p s q :
  mview (Mem (delete p (objs s)) (log s) (clock s)) q = if decide (p = q) then None else mview s q.
Proof. unfold mview; cbn. rewrite lookup_delete. by case_decide. Qed.

(** An outage: the request is answered with the store's error and does nothing. *)
Definition outage {X} (q : os_eff nat X) : error -> X :=
  match q in os_eff _ X return error -> X with
  | OGet _ => GetErr
  | OPut _ _ _ => PutErr
  | OHead _ => HeadErr
  | ODelete _ => DelErr
  | OList _ => Err
  end.

Definition mem_sem (X : Type) (q : os_eff nat X) (s : mem) (x : X) (s' : mem) : Prop :=
  exec X q s = Some (x, s') \/ (exists e, x = outage q e) /\ s' = s.

#[global] Program Instance mem_store : ObjectStore nat mem := {|
  osem := mem_sem;
  view := mview;
  seen := mseen;
|}.
Next Obligation.
  unfold mview, mseen. intros s p b v. destruct (objs s !! p) as [w|]; cbn; [|done].
  destruct (log s !! w) as [[[q b'] t]|] eqn:E; [|done]. case_decide; naive_solver.
Qed.
Next Obligation. intros s p v b b' [t H] [t' H']. congruence. Qed.
Next Obligation.
  intros X e s x s' p v b [He|[_ ->]] Hs; [|done]. apply (mseen_mono _ _ _ _ _ Hs).
  pose proof (exec_log X e s) as H. by rewrite He in H.
Qed.
Next Obligation.
  unfold mem_sem, exec, mem_exec. intros s p r s' [[= <- <-]|[[e ->] ->]]; [|done].
  split; [done|]. by destruct (mview s p) as [[]|].
Qed.
Next Obligation.
  unfold mem_sem, exec, mem_exec. intros s p b m r s' [H|[[e ->] ->]]; [|by split; [|left]].
  revert H. destruct (admits m (mview s p)) as [r0|] eqn:E; intros [= <- <-].
  - split; [done|]. by destruct (admits_some _ _ _ E) as [-> | ->].
  - split; [intros q Hq; rewrite mput_view; by rewrite decide_False|].
    split; [by apply admits_none|]. rewrite mput_view. by rewrite decide_True.
Qed.
Next Obligation.
  intros X e s x s' p v b [He|[_ ->]] [t Ht]; [|left; by exists t]. unfold mseen.
  destruct e as [q|q b0 m|q|q|q]; unfold exec, mem_exec in He; try (injection He as <- <-; eauto).
  - destruct (admits m (mview s q)) eqn:E; injection He as <- <-; [eauto|].
    cbn in Ht. destruct (decide (v = List.length (log s))) as [->|Hv].
    + right. rewrite list_lookup_middle in Ht by done. injection Ht as <- <- <-.
      rewrite mput_view. by rewrite decide_True.
    + left. exists t. rewrite lookup_app in Ht. destruct (log s !! v) eqn:El; [congruence|].
      apply list_lookup_singleton_Some in Ht as [Hz _]. apply lookup_ge_None in El. lia.
  - destruct (mview s q); injection He as <- <-; eauto.
Qed.
Next Obligation.
  unfold mem_sem, exec, mem_exec. intros s p r s' [[= <- <-]|[[e ->] ->]]; [|done]. split; [done|].
  destruct (mview s p) as [[b v]|] eqn:E; [|done].
  destruct (log s !! v) as [[[]]|] eqn:E2; [done|]. unfold mview in E.
  destruct (objs s !! p) as [w|]; cbn in E; [|done].
  destruct (log s !! w) as [[[q b'] t]|] eqn:E3; [|done]. case_decide; naive_solver.
Qed.
Next Obligation.
  unfold mem_sem, exec, mem_exec. intros s p r s' [H|[[e ->] ->]]; [|by split; [|left]].
  revert H. destruct (mview s p) eqn:E; intros [= <- <-].
  - split; [intros q Hq|]; rewrite mdelete_view; by case_decide.
  - by split.
Qed.
Next Obligation.
  unfold mem_sem, exec, mem_exec. intros s p r s' [[= <- <-]|[[e ->] ->]]; [|done].
  split; [done|]. intros q. rewrite list_elem_of_filter, <- not_eq_None_Some. unfold is_true.
  split; [tauto|]. intros [Hu Hv]. split; [done|].
  destruct (objs s !! q) as [v|] eqn:E; [|by unfold mview in Hv; rewrite E in Hv].
  apply list_elem_of_fmap. exists (q, v). split; [done|]. by apply elem_of_map_to_list.
Qed.
End MemStore.
