(* ===== verification/Lease.v ===== *)
(** * Lease: the leader lease, [crates/storage/src/ownership/lease.rs]

    One object, [cluster/leader], written only with conditional puts.  The operations are programs
    over the object store; the lemmas of the second half are their rely-guarantee specifications,
    from which [Election] proves that an epoch has at most one holder. *)

From S2P Require Import Prelude Text Prog ObjStore.
Local Open Scope string_scope.
Local Open Scope Z_scope.

Definition PATH : path := "cluster/leader".
(** [LEADER_TTL] and [LEADER_RENEW], in milliseconds. *)
Definition LEADER_TTL : Z := 10 * 1000.
Definition LEADER_RENEW : Z := 3 * 1000.

Record lease := Lease { node : string; epoch : Z; expires_ms : Z }.

#[global] Instance lease_eq_dec : EqDecision lease.
Proof. solve_decision. Defined.

Definition is_expired (l : lease) (now_ms : Z) : bool := expires_ms l <=? now_ms.

(** [Lease::encode]; [None] is the [assert!] on the node name. *)
Definition encode (l : lease) : option string :=
  if contains_char nl (node l) then None
  else Some (node l +:+ String nl (display (epoch l) +:+ String nl (display (expires_ms l))))%string.

(** [Lease::decode].  The operands an error message formats are left out of it. *)
Definition decode (bytes : string) : result lease :=
  let? s := ok_or (from_utf8 bytes) (EMsg "leader lease: invalid utf-8") in
  match split nl s with
  | [n; ep; ex] =>
    let? ep := match parse_u64 ep with
               | inl z => Ok z
               | inr e => Err (EMsg ("leader lease: bad epoch: " +:+ parse_int_error_msg e))
               end in
    let? ex := match parse_u64 ex with
               | inl z => Ok z
               | inr e => Err (EMsg ("leader lease: bad expires_ms: " +:+ parse_int_error_msg e))
               end in
    Ok (Lease n ep ex)
  | _ => Err (EMsg "leader lease: malformed")
  end.

Section ops.
Context {V : Type}.

(** A lease as the store last handed it back, with the version the next write is pinned to. *)
Record held := Held { held_lease : lease; version : V }.

Definition read : prog (os_eff V) (result (option held)) :=
  let! r := trigger (OGet PATH) in
  match r with
  | GetOk b v =>
    match decode b with
    | Ok l => Ret (Ok (Some (Held l v)))
    | Err e => Ret (Err e)
    end
  | GetNotFound => Ret (Ok None)
  | GetErr e => Ret (Err e)
  end.

Definition put (l : lease) (m : put_mode V) : prog (os_eff V) (result (option held)) :=
  match encode l with
  | None => Ret (Err (EPanic "node name must not contain a newline"))
  | Some b =>
    let! r := trigger (OPut PATH b m) in
    Ret match r with
        | PutOk v => Ok (Some (Held l v))
        | PutAlreadyExists | PutPrecondition => Ok None
        | PutErr e => Err e
        end
  end.

(** The epoch and the mode [take] writes with; [None] when a live lease is somebody else's. *)
Definition take_mode (n : string) (now_ms : Z) (current : option held)
  : option (Z * put_mode V) :=
  match current with
  | None => Some (1, PutCreate)
  | Some c =>
    if negb (is_expired (held_lease c) now_ms) && negb (bool_decide (node (held_lease c) = n))
    then None
    else Some (u64_add (epoch (held_lease c)) 1, PutUpdate (version c))
  end.

Definition take (n : string) (now_ms : Z) (current : option held)
  : prog (os_eff V) (result (option held)) :=
  match take_mode n now_ms current with
  | None => Ret (Ok None)
  | Some (ep, mode) => put (Lease n ep (u64_add now_ms LEADER_TTL)) mode
  end.

Definition renew (h : held) (now_ms : Z) : prog (os_eff V) (result (option held)) :=
  put (Lease (node (held_lease h)) (epoch (held_lease h)) (u64_add now_ms LEADER_TTL))
      (PutUpdate (version h)).

Definition release (h : held) : prog (os_eff V) (result (option held)) :=
  put (Lease (node (held_lease h)) (epoch (held_lease h)) 0) (PutUpdate (version h)).
End ops.
Arguments held V : clear implicits.

(** ** Encoding *)

(** A lease a node can write: a node name without a newline, integers in range. *)
Definition wf_lease (l : lease) : Prop :=
  contains_char nl (node l) = false /\ utf8_valid (node l) = true /\
  u64 (epoch l) /\ u64 (expires_ms l).

Lemma nl_not_digit : digit nl = None.
Proof. reflexivity. Qed.

Lemma encode_some l b : encode l = Some b -> contains_char nl (node l) = false.
Proof. unfold encode. by destruct (contains_char nl (node l)). Qed.

Lemma decode_encode l b : wf_lease l -> encode l = Some b -> decode b = Ok l.
Proof.
  intros (Hn & Hu & He & Hx) Hb. unfold encode in Hb. rewrite Hn in Hb. injection Hb as <-.
  unfold decode, from_utf8.
  rewrite (utf8_app _ _ Hu), utf8_cons_ascii by (vm_compute; reflexivity).
  rewrite (utf8_app _ _ (utf8_display _)), utf8_cons_ascii by (vm_compute; reflexivity).
  rewrite utf8_display. cbn [ok_or rbind].
  rewrite split_app by done. rewrite split_app by (apply display_no_char, nl_not_digit).
  rewrite split_no by (apply display_no_char, nl_not_digit).
  rewrite !parse_u64_display by done. by destruct l.
Qed.

Lemma parse_digits_range max s : forall acc z, 0 <= acc -> parse_digits max acc s = inl z ->
  acc <= max -> 0 <= z <= max.
Proof.
  induction s as [|c s IH]; intros acc z Ha; cbn [parse_digits]; [naive_solver lia|].
  destruct (digit c) as [d|] eqn:Ed; [|done]. cbv zeta.
  destruct (Z.leb_spec (10 * acc + d) max); [|done]. intros Hp _.
  eapply IH; [|exact Hp|done].
  unfold digit, in_range in Ed. case_match; [|done]. bools. injection Ed as <-. lia.
Qed.

Lemma parse_u64_range s z : parse_u64 s = inl z -> u64 z.
Proof.
  unfold parse_u64, parse_uint, u64, u64_max. intros H.
  assert (exists s', parse_digits (2 ^ 64 - 1) 0 s' = inl z) as [s' Hs].
  { unfold u64_max in H. repeat case_match; eauto; done. }
  eapply parse_digits_range; [| exact Hs |]; lia.
Qed.

Lemma decode_wf b l : decode b = Ok l ->
  contains_char nl (node l) = false /\ u64 (epoch l) /\ u64 (expires_ms l).
Proof.
  unfold decode. destruct (from_utf8 b) as [s|]; cbn; [|done].
  pose proof (split_no_sep nl s) as Hs.
  destruct (split nl s) as [|n [|ep [|ex [|]]]] eqn:E; try done.
  destruct (parse_u64 ep) eqn:Hep; cbn; [|done]. destruct (parse_u64 ex) eqn:Hex; cbn; [|done].
  intros [= <-]; cbn. split_and!; eauto using parse_u64_range.
  apply Hs. by left.
Qed.

(** ** What the operations do to the store

    Everything below is about any store that meets the laws of [ObjectStore]. *)
Section specs.
Context {V S : Type} `{OS : !ObjectStore V S}.

(** [l] is, or was, the content of the lease object. *)
Definition was (s : S) (v : V) (l : lease) : Prop :=
  exists b, seen s PATH v b /\ decode b = Ok l.

Definition knows (s : S) (h : held V) : Prop := was s (version h) (held_lease h).

(** No epoch has come near the top of its width: a takeover happens at most once per
    [LEADER_TTL], so 2^64 of them are out of reach. *)
Definition bounded (s : S) : Prop := forall v l, was s v l -> epoch l < u64_max.

(** The history of the lease object: every content decodes; epochs only grow; and an epoch that
    is current was only ever held by the current holder. *)
Definition history (s : S) : Prop :=
  match view s PATH with
  | None => forall v b, ~ seen s PATH v b
  | Some (b, _) => exists l, decode b = Ok l /\
      forall v' b', seen s PATH v' b' -> exists l', decode b' = Ok l' /\
        epoch l' <= epoch l /\ (epoch l' = epoch l -> node l' = node l)
  end.

Definition one_holder (s : S) : Prop :=
  forall v l v' l', was s v l -> was s v' l' -> epoch l = epoch l' -> node l = node l'.

Definition lease_inv (s : S) : Prop := bounded s -> history s /\ one_holder s.

(** What every task of every node relies on. *)
Definition grows (s s' : S) : Prop := forall v b, seen s PATH v b -> seen s' PATH v b.

#[global] Instance grows_preorder : PreOrder grows.
Proof. split; [by intros s v b|]. intros a b c H1 H2 v x H. by apply H2, H1. Qed.

Lemma osem_grows X (e : os_eff V X) s x s' : osem X e s x s' -> grows s s'.
Proof. intros He v b. by apply (seen_mono _ _ _ _ _ _ _ _ He). Qed.

Lemma was_grows s s' v l : grows s s' -> was s v l -> was s' v l.
Proof. intros Hg (b & Hs & Hd). exists b; eauto. Qed.

Lemma bounded_grows s s' : grows s s' -> bounded s' -> bounded s.
Proof. intros Hg Hb v l Hw. eapply Hb, was_grows; eauto. Qed.

(** An effect that leaves the lease object alone keeps the invariant. *)
Lemma lease_inv_same X (e : os_eff V X) s x s' :
  osem X e s x s' -> view s' PATH = view s PATH -> lease_inv s -> lease_inv s'.
Proof.
  intros He Hv Hinv Hb.
  pose proof (osem_grows _ _ _ _ _ He) as Hg.
  destruct (Hinv (bounded_grows _ _ Hg Hb)) as [Hh Ho].
  assert (Hback : forall v b, seen s' PATH v b -> seen s PATH v b).
  { intros v b Hs. destruct (seen_inv _ _ _ _ _ _ _ _ He Hs) as [?|Hw]; [done|].
    rewrite Hv in Hw. by apply view_seen. }
  split.
  - unfold history in *. rewrite Hv. destruct (view s PATH) as [[b v]|].
    + destruct Hh as (l & Hd & Hall). exists l; split; [done|]. eauto.
    + intros v b Hs. eapply Hh, Hback, Hs.
  - intros v l v' l' (b & Hs & Hd) (b' & Hs' & Hd') He'.
    eapply (Ho v l v' l'); [exists b|exists b'|]; eauto.
Qed.

(** A write of [l] that the store admitted: it names a new epoch, or the holder of the epoch it
    extends. *)
Definition justified (s : S) (l : lease) (m : put_mode V) : Prop :=
  match m with
  | PutOverwrite => False
  | PutCreate => True
  | PutUpdate v => exists l0, was s v l0 /\
      ((epoch l = u64_add (epoch l0) 1) \/ (epoch l = epoch l0 /\ node l = node l0))
  end.

Lemma justified_grows s s' l m : grows s s' -> justified s l m -> justified s' l m.
Proof.
  intros Hg. destruct m as [| |v]; cbn; [done..|].
  intros (l0 & Hw & H). exists l0. eauto using was_grows.
Qed.

Lemma lease_inv_written X (e : os_eff V X) s x s' b v l m :
  osem X e s x s' -> view s' PATH = Some (b, v) -> decode b = Ok l ->
  put_allowed m (view s PATH) -> justified s l m -> lease_inv s -> lease_inv s'.
Proof.
  intros He Hv Hd Hal Hj Hinv Hb'.
  pose proof (osem_grows _ _ _ _ _ He) as Hg.
  destruct (Hinv (bounded_grows _ _ Hg Hb')) as [Hh Ho].
  assert (Hback : forall v0 b0, seen s' PATH v0 b0 -> seen s PATH v0 b0 \/ b0 = b).
  { intros v0 b0 Hs. destruct (seen_inv _ _ _ _ _ _ _ _ He Hs) as [?|Hw]; [by left|right].
    congruence. }
  (* every older content has an epoch below, or the same epoch and holder *)
  assert (Hold : forall v0 b0, seen s PATH v0 b0 -> exists l0, decode b0 = Ok l0 /\
      epoch l0 <= epoch l /\ (epoch l0 = epoch l -> node l0 = node l)).
  { unfold history in Hh. destruct m as [| |w]; cbn in *; [done| |].
    - rewrite Hal in Hh. intros v0 b0 Hs. by apply Hh in Hs.
    - destruct Hal as [bw Hal]. rewrite Hal in Hh. destruct Hh as (lc & Hdc & Hall).
      destruct Hj as (l0 & (b0 & Hs0 & Hd0) & Hj).
      rewrite <- (seen_fun _ _ _ _ _ (view_seen _ _ _ _ Hal) Hs0) in Hd0.
      assert (l0 = lc) as -> by congruence.
      intros v1 b1 Hs1. destruct (Hall _ _ Hs1) as (l1 & Hd1 & Hle & Heq).
      exists l1; split; [done|]. destruct Hj as [Hj | [Hj Hn]].
      + assert (Hlt : epoch lc < u64_max).
        { apply (Hb' w). exists bw. split; [apply Hg; by apply view_seen|done]. }
        destruct (decode_wf _ _ Hdc) as (_ & [Hlo _] & _).
        rewrite u64_add_small in Hj by lia. split; lia.
      + rewrite Hj, Hn. auto. }
  split.
  - unfold history. rewrite Hv. exists l; split; [done|]. intros v0 b0 Hs.
    destruct (Hback _ _ Hs) as [Hs0 | ->]; [eauto|]. exists l. repeat split; auto; lia.
  - assert (Hw : forall v0 l0, was s' v0 l0 -> was s v0 l0 \/ l0 = l).
    { intros v0 l0 (b0 & Hs0 & Hd0). destruct (Hback _ _ Hs0) as [?| ->].
      - left. exists b0; eauto.
      - right. congruence. }
    assert (Hnew : forall v0 l0, was s v0 l0 -> epoch l0 = epoch l -> node l0 = node l).
    { intros v0 l0 (b0 & Hs0 & Hd0) He0. destruct (Hold _ _ Hs0) as (l1 & Hd1 & _ & H1).
      assert (l1 = l0) as -> by congruence. auto. }
    intros v1 l1 v2 l2 H1 H2 He12.
    destruct (Hw _ _ H1) as [?| ->], (Hw _ _ H2) as [?| ->]; eauto; symmetry; eauto.
Qed.
End specs.
