(* ===== verification/Ownership.v ===== *)
(** * Ownership: who owns a repository, [crates/storage/src/ownership/mod.rs]

    The leader's decisions as functions of an optional current entry and an explicit clock, the
    entry's encoding, and the sequences of decisions the map goes through: [mop] is one request the
    leader serves, [mrun] a sequence of them.  [mrun_keeps] is the reason the map
    exists. *)

From S2P Require Import Prelude Text.
Local Open Scope string_scope.
Local Open Scope Z_scope.

Record entry := Entry { node : string; expires_ms : Z }.

#[global] Instance entry_eq_dec : EqDecision entry.
Proof. solve_decision. Defined.

(** Milliseconds. *)
Definition LEASE_TTL : Z := 10 * 1000.
Definition WRITE_BOUND : Z := 7 * 1000.
Definition RENEW_EVERY : Z := 3 * 1000.
Definition FORCE_MIN_AGE : Z := 1 * 1000.
Definition CLOCK_FLOOR_MS : Z := 1767225600000.

Definition decision_now_ms (now_ms : Z) : result Z :=
  if now_ms <? CLOCK_FLOOR_MS
  then Err (EMsg "ownership: this node's clock is before the floor, refusing to decide ownership")
  else Ok now_ms.

Definition STALLED : string := "ownership: map write stalled".

(** [Error::to_string]. *)
Definition error_text (e : error) : string :=
  match e with
  | EMsg m | EInvalid m | EPanic m | EStore m => m
  | EFenced => "fenced"
  | EUnowned => "no owner, not opened here"
  end.

Definition is_stalled (e : error) : bool := contains_str STALLED (error_text e).

(** [pool::is_fenced]: by type, never by text. *)
Definition is_fenced (e : error) : bool := bool_decide (e = EFenced).

(** [Peer], [Route] and [Grant]. *)
Record peer := Peer { peer_name : string; peer_addr : string }.

Inductive route :=
| RLocal
| RPeer (p : peer)
| RUnavailable
| RMissing.

Inductive grant :=
| Granted (e : entry)
| HeldBy (e : entry).

#[global] Instance grant_eq_dec : EqDecision grant.
Proof. solve_decision. Defined.

Definition is_expired (e : entry) (now_ms : Z) : bool := expires_ms e <=? now_ms.

(** [Entry::encode]; [None] is the [assert!]. *)
Definition encode (e : entry) : option string :=
  if contains_char nl (node e) then None
  else Some (node e +:+ String nl (display (expires_ms e)))%string.

Definition decode (bytes : string) : result entry :=
  let? s := ok_or (from_utf8 bytes) (EMsg "ownership entry: invalid utf-8") in
  let? (n, ex) := ok_or (split_once nl s) (EMsg "ownership entry: malformed") in
  match parse_u64 ex with
  | inl z => Ok (Entry n z)
  | inr e => Err (EMsg ("ownership entry: bad expires_ms: " +:+ parse_int_error_msg e))
  end.

Definition key (repo : string) : string := "own/" +:+ repo.

(** ** The decisions *)
Definition decide_claim (current : option entry) (asker : string) (now_ms : Z) : grant :=
  match current with
  | Some e =>
    if negb (is_expired e now_ms) && negb (bool_decide (node e = asker)) then HeldBy e
    else Granted (Entry asker (u64_add now_ms LEASE_TTL))
  | None => Granted (Entry asker (u64_add now_ms LEASE_TTL))
  end.

(** When the entry was written, as far as the entry tells. *)
Definition written_ms (e : entry) : Z := sat_sub (expires_ms e) LEASE_TTL.

Definition decide_force_claim (current : option entry) (asker : string) (now_ms : Z) : grant :=
  match current with
  | Some e =>
    if negb (bool_decide (node e = asker)) && negb (is_expired e now_ms) &&
       (now_ms <? u64_add (written_ms e) FORCE_MIN_AGE)
    then HeldBy e
    else Granted (Entry asker (u64_add now_ms LEASE_TTL))
  | None => Granted (Entry asker (u64_add now_ms LEASE_TTL))
  end.

Definition decide_renew (current : option entry) (asker : string) (now_ms : Z) : option entry :=
  match current with
  | Some e =>
    if negb (bool_decide (node e = asker)) then None
    else Some (Entry asker (u64_add now_ms LEASE_TTL))
  | None => Some (Entry asker (u64_add now_ms LEASE_TTL))
  end.

Definition may_release (current : option entry) (asker : string) : bool :=
  is_some_and current (fun e => bool_decide (node e = asker)).

(** ** Encoding *)
Definition wf_entry (e : entry) : Prop :=
  contains_char nl (node e) = false /\ utf8_valid (node e) = true /\ u64 (expires_ms e).

Lemma entry_decode_encode e b : wf_entry e -> encode e = Some b -> decode b = Ok e.
Proof.
  intros (Hn & Hu & He) Hb. unfold encode in Hb. rewrite Hn in Hb. injection Hb as <-.
  unfold decode, from_utf8.
  rewrite (utf8_app _ _ Hu), utf8_cons_ascii, utf8_display by (vm_compute; reflexivity).
  cbn [ok_or rbind]. rewrite split_once_app by done. cbn [ok_or rbind].
  rewrite parse_u64_display by done. by destruct e.
Qed.

Lemma entry_encode_some e : wf_entry e -> exists b, encode e = Some b.
Proof. intros (Hn & _). unfold encode. rewrite Hn. eauto. Qed.

(** ** Facts about single decisions *)
Lemma is_expired_spec e now : is_expired e now = true <-> expires_ms e <= now.
Proof. apply Z.leb_le. Qed.

Lemma fresh_entry_live asker now :
  0 <= now -> now + LEASE_TTL <= u64_max -> is_expired (Entry asker (u64_add now LEASE_TTL)) now = false.
Proof.
  intros. unfold is_expired; cbn. unfold LEASE_TTL in *. rewrite u64_add_small by lia.
  apply Z.leb_gt. lia.
Qed.

(** A claim is refused exactly when a live entry names another node, and the refusal names it. *)
Lemma decide_claim_held cur asker now e :
  decide_claim cur asker now = HeldBy e <->
  cur = Some e /\ node e <> asker /\ now < expires_ms e.
Proof.
  unfold decide_claim, is_expired. split.
  - destruct cur as [c|]; [|done]. case_match; [|done]. intros [= ->]. bools. by repeat split.
  - intros (-> & Hn & Hx). rewrite bool_decide_false by done.
    by destruct (Z.leb_spec (expires_ms e) now); [lia|].
Qed.

Lemma decide_force_held cur asker now e :
  decide_force_claim cur asker now = HeldBy e <->
  cur = Some e /\ node e <> asker /\ now < expires_ms e /\ now < u64_add (written_ms e) FORCE_MIN_AGE.
Proof.
  unfold decide_force_claim, is_expired. split.
  - destruct cur as [c|]; [|done]. case_match; [|done]. intros [= ->]. bools. by repeat split.
  - intros (-> & Hn & Hx & Hw). rewrite bool_decide_false by done.
    destruct (Z.leb_spec (expires_ms e) now); [lia|].
    by destruct (Z.ltb_spec now (u64_add (written_ms e) FORCE_MIN_AGE)); [|lia].
Qed.

Lemma decide_claim_granted cur asker now e :
  decide_claim cur asker now = Granted e -> e = Entry asker (u64_add now LEASE_TTL).
Proof. unfold decide_claim. destruct cur; [case_match|]; congruence. Qed.

Lemma decide_force_granted cur asker now e :
  decide_force_claim cur asker now = Granted e -> e = Entry asker (u64_add now LEASE_TTL).
Proof. unfold decide_force_claim. destruct cur; [case_match|]; congruence. Qed.

Lemma decide_renew_some cur asker now e :
  decide_renew cur asker now = Some e ->
  e = Entry asker (u64_add now LEASE_TTL) /\ (forall c, cur = Some c -> node c = asker).
Proof.
  unfold decide_renew. destruct cur as [c|]; [case_match; [done|]|]; intros [= <-];
    split; try done. intros ? [= <-]. by bools.
Qed.

(** ** Sequences of decisions

    Every request is decided and written under [App::leader_lock], so what the map goes through is
    a sequence of these steps; [Grants] proves that the handlers are exactly them. *)
Inductive mop :=
| OpClaim (asker repo : string) (force : bool)
| OpRenew (asker : string) (repos : list string)
| OpRelease (asker repo : string)
| OpPrune (repos : list string).

Abbreviation own_map := (gmap string entry).

Definition claim_grant (force : bool) (m : own_map) (repo asker : string) (now : Z) : grant :=
  if force then decide_force_claim (m !! repo) asker now else decide_claim (m !! repo) asker now.

(** The renewals of one beat, decided against the map before any of them is written. *)
Definition renewals (m : own_map) (asker : string) (repos : list string) (now : Z)
  : list (string * entry) :=
  omap (fun r => e ← decide_renew (m !! r) asker now; Some (r, e)) repos.

Definition lost_repos (m : own_map) (asker : string) (repos : list string) (now : Z) : list string :=
  filter (fun r => decide_renew (m !! r) asker now = None) repos.

Definition put_all (m : own_map) (l : list (string * entry)) : own_map :=
  foldl (fun m '(r, e) => <[r := e]> m) m l.

(** [prune_once] deletes the listed repositories whose entry has lapsed. *)
Definition prune_all (m : own_map) (now : Z) (repos : list string) : own_map :=
  foldl (fun m r => if is_some_and (m !! r) (fun e => is_expired e now) then delete r m else m) m repos.

Definition mstep (now : Z) (op : mop) (m : own_map) : own_map :=
  match op with
  | OpClaim asker repo force =>
    match claim_grant force m repo asker now with
    | Granted e => <[repo := e]> m
    | HeldBy _ => m
    end
  | OpRenew asker repos => put_all m (renewals m asker repos now)
  | OpRelease asker repo => if may_release (m !! repo) asker then delete repo m else m
  | OpPrune repos => prune_all m now repos
  end.

Fixpoint mrun (ops : list (Z * mop)) (m : own_map) : own_map :=
  match ops with
  | [] => m
  | (now, op) :: ops => mrun ops (mstep now op m)
  end.

Lemma put_all_lookup l : forall m r,
  put_all m l !! r = m !! r \/ exists e, (r, e) ∈ l /\ put_all m l !! r = Some e.
Proof.
  induction l as [|[r' e'] l IH]; intros m r; [by left|].
  change (put_all m ((r', e') :: l)) with (put_all (<[r' := e']> m) l).
  destruct (IH (<[r' := e']> m) r) as [H|(e & Hin & H)].
  - rewrite H. destruct (decide (r' = r)) as [->|Hne].
    + right. exists e'. rewrite lookup_insert_eq. split; [by left|done].
    + left. by apply lookup_insert_ne.
  - right. exists e. split; [by right|done].
Qed.

Lemma prune_all_lookup repos : forall m now r e,
  m !! r = Some e -> now < expires_ms e -> prune_all m now repos !! r = Some e.
Proof.
  induction repos as [|r' repos IH]; intros m now r e Hr Hx; [done|].
  unfold prune_all. cbn [foldl]. apply IH; [|done].
  destruct (decide (r' = r)) as [->|Hne].
  - rewrite Hr. cbn. unfold is_expired. by destruct (Z.leb_spec (expires_ms e) now); [lia|].
  - case_match; [|done]. by rewrite lookup_delete_ne.
Qed.

Lemma renewals_elem m asker repos now r e :
  (r, e) ∈ renewals m asker repos now -> decide_renew (m !! r) asker now = Some e.
Proof.
  unfold renewals. rewrite list_elem_of_omap. intros (r' & _ & H).
  destruct (decide_renew (m !! r') asker now) eqn:E; naive_solver.
Qed.

(** The operations that take [repo] from node [a] on purpose. *)
Definition takes_from (a repo : string) (op : mop) : Prop :=
  match op with
  | OpClaim _ r force => r = repo /\ force = true
  | OpRelease asker r => r = repo /\ asker = a
  | _ => False
  end.

(** [a] holds [repo] at least until [x]. *)
Definition holds_until (m : own_map) (a repo : string) (x : Z) : Prop :=
  exists e, m !! repo = Some e /\ node e = a /\ x <= expires_ms e.

(** The operations that read the clock. *)
Definition timed (op : mop) : Prop := match op with OpRelease _ _ => False | _ => True end.

Lemma mstep_keeps now op m a repo x :
  (timed op -> 0 <= now /\ now < x /\ x <= now + LEASE_TTL /\ now + LEASE_TTL <= u64_max) ->
  ~ takes_from a repo op -> holds_until m a repo x -> holds_until (mstep now op m) a repo x.
Proof.
  intros Htime Hno (e & Hm & Ha & He).
  assert (Hfresh : timed op -> x <= expires_ms (Entry a (u64_add now LEASE_TTL))).
  { intros Hop. destruct (Htime Hop) as (? & ? & ? & ?). cbn. unfold LEASE_TTL in *.
    rewrite u64_add_small; lia. }
  destruct op as [asker r force|asker repos|asker r|repos]; cbn in *;
    [specialize (Hfresh I); destruct (Htime I) as (H0 & Hnow & Hx & Hmax)..| |].
  - destruct (decide (r = repo)) as [->|Hne].
    + destruct force; [tauto|]. cbn. rewrite Hm.
      destruct (decide_claim (Some e) asker now) as [g|h] eqn:Eg; [|by exists e].
      pose proof (decide_claim_granted _ _ _ _ Eg) as ->.
      destruct (decide (node e = asker)) as [Hna|Hna].
      * exists (Entry asker (u64_add now LEASE_TTL)). rewrite lookup_insert_eq.
        split; [done|]. split; [cbn; congruence|]. cbn in *. done.
      * exfalso. assert (Hh : decide_claim (Some e) asker now = HeldBy e).
        { apply decide_claim_held. repeat split; auto; lia. }
        congruence.
    + destruct (claim_grant force m r asker now); exists e; [|done].
      by rewrite lookup_insert_ne.
  - destruct (put_all_lookup (renewals m asker repos now) m repo) as [Hk|(e' & Hin & Hk)].
    + exists e. by rewrite Hk.
    + apply renewals_elem in Hin. apply decide_renew_some in Hin as [-> Hn].
      exists (Entry asker (u64_add now LEASE_TTL)). rewrite Hk. split; [done|].
      split; [cbn; rewrite <- (Hn _ Hm); done|done].
  - destruct (may_release (m !! r) asker) eqn:Er; [|by exists e].
    destruct (decide (r = repo)) as [->|Hne].
    + rewrite Hm in Er. cbn in Er. apply bool_decide_eq_true in Er. naive_solver.
    + exists e. by rewrite lookup_delete_ne.
  - destruct (Htime I) as (H0 & Hnow & Hx & Hmax).
    exists e. split; [|done]. eapply prune_all_lookup; [done|lia].
Qed.

(** A granted lease keeps every other node out until it lapses: whatever claims, renewals,
    releases and prunes the leader serves before then, [repo] stays with [a], unless [a] itself
    releases it or somebody forces it. *)
Lemma mrun_keeps ops : forall m a repo x,
  holds_until m a repo x ->
  Forall (fun '(now, op) =>
    (timed op -> 0 <= now /\ now < x /\ x <= now + LEASE_TTL /\ now + LEASE_TTL <= u64_max) /\
    ~ takes_from a repo op) ops ->
  holds_until (mrun ops m) a repo x.
Proof.
  induction ops as [|[now op] ops IH]; intros m a repo x Hh Hall; [done|].
  apply Forall_cons in Hall as [[Ht Hno] Hall]. cbn. apply IH; [|done].
  by apply mstep_keeps.
Qed.

Lemma mrun_app l1 : forall l2 m, mrun (l1 ++ l2) m = mrun l2 (mrun l1 m).
Proof. induction l1 as [|[now op] l1 IH]; intros l2 m; [done|]. cbn. apply IH. Qed.
