(* ===== verification/App.v ===== *)
(** * App: a node's state and the effects of its tasks, [crates/app/src/lib.rs]

    The fields of [App] the election and the grants read and write, the [OwnershipStore]'s role
    among them.  A node is many tasks over this one record; its atomics are read and written one at
    a time ([AApp]), [leader_lock] is taken and given back ([ALock], [AUnlock]) and everything else
    a task awaits is the environment's. *)

From Stdlib Require Import FunctionalExtensionality.

From S2P Require Import Prelude Text Prog ObjStore.
From S2P Require Lease Ownership.
Local Open Scope string_scope.
Local Open Scope Z_scope.

(** [ownership::Role]; the follower's lazily opened reader is the environment's. *)
Inductive role := Solo | Reader | Writer.

#[global] Instance role_eq_dec : EqDecision role.
Proof. solve_decision. Defined.

Record app := App {
  self_name : string;
  os_present : bool;               (** [ownership.os.is_some()] *)
  map_role : role;
  leader : option string;
  leader_epoch : Z;
  lease_seen_ms : Z;
  lease_expires_ms : Z;
  held_expires_ms : Z;
  retiring : bool;
  draining : bool;
}.

(** [App::new] of these fields: a solo node leads by construction. *)
Definition app_new (name : string) (solo : bool) : app :=
  {| self_name := name; os_present := negb solo;
     map_role := if solo then Solo else Reader;
     leader := if solo then Some name else None;
     leader_epoch := if solo then 1 else 0;
     lease_seen_ms := 0; lease_expires_ms := 0; held_expires_ms := 0;
     retiring := false; draining := false |}.

Definition set_role (r : role) (a : app) : app :=
  App (self_name a) (os_present a) r (leader a) (leader_epoch a) (lease_seen_ms a)
      (lease_expires_ms a) (held_expires_ms a) (retiring a) (draining a).
Definition set_leader (l : option string) (a : app) : app :=
  App (self_name a) (os_present a) (map_role a) l (leader_epoch a) (lease_seen_ms a)
      (lease_expires_ms a) (held_expires_ms a) (retiring a) (draining a).
Definition set_leader_epoch (e : Z) (a : app) : app :=
  App (self_name a) (os_present a) (map_role a) (leader a) e (lease_seen_ms a)
      (lease_expires_ms a) (held_expires_ms a) (retiring a) (draining a).
Definition set_lease_seen (t : Z) (a : app) : app :=
  App (self_name a) (os_present a) (map_role a) (leader a) (leader_epoch a) t
      (lease_expires_ms a) (held_expires_ms a) (retiring a) (draining a).
Definition set_lease_expires (t : Z) (a : app) : app :=
  App (self_name a) (os_present a) (map_role a) (leader a) (leader_epoch a) (lease_seen_ms a)
      t (held_expires_ms a) (retiring a) (draining a).
Definition set_held_expires (t : Z) (a : app) : app :=
  App (self_name a) (os_present a) (map_role a) (leader a) (leader_epoch a) (lease_seen_ms a)
      (lease_expires_ms a) t (retiring a) (draining a).
Definition set_retiring (b : bool) (a : app) : app :=
  App (self_name a) (os_present a) (map_role a) (leader a) (leader_epoch a) (lease_seen_ms a)
      (lease_expires_ms a) (held_expires_ms a) b (draining a).
Definition set_draining (b : bool) (a : app) : app :=
  App (self_name a) (os_present a) (map_role a) (leader a) (leader_epoch a) (lease_seen_ms a)
      (lease_expires_ms a) (held_expires_ms a) (retiring a) b.

(** ** Reads of the record *)
Definition is_leader (a : app) : bool := negb (leader_epoch a =? 0).

Definition leader_live (a : app) (now : Z) : bool :=
  if is_leader a then true
  else (sat_sub now (lease_seen_ms a) <? Lease.LEADER_TTL) && (now <? lease_expires_ms a).

Definition leaderless_too_long (a : app) (now : Z) : bool :=
  let expired := lease_expires_ms a in
  negb (leader_live a now) && negb (expired =? 0) &&
  (2 * Lease.LEADER_TTL <? sat_sub now expired).

Definition is_writer (a : app) : bool := bool_decide (map_role a = Writer).

Definition writing_epoch (a : app) : result Z :=
  if leader_epoch a =? 0 then Err (EMsg "not the leader") else Ok (leader_epoch a).

Definition still_leading (a : app) (ep : Z) : result unit :=
  if leader_epoch a =? ep then Ok tt else Err (EMsg "no longer the leader").

(** ** Effects *)

(** One poll of a future that a timer races. *)
Inductive poll (A : Type) := Pending | Ready (a : A).
Arguments Pending {A}.
Arguments Ready {A} a.

(** Requests to the ownership map's database.  A batch lists its writes, [None] deleting. *)
Definition batch : Type := list (string * option string).

Inductive map_eff : Type -> Type :=
| MGet (k : string) : map_eff (result (option string))
| MScan (prefix : string) : map_eff (result (list (string * string)))
(** [None]: [WRITE_BOUND] passed first. *)
| MWrite (b : batch) : map_eff (option (result unit))
(** A follower's reads; [Ok None] and [Ok []] before its reader has opened. *)
| MFollowGet (k : string) : map_eff (result (option string))
| MFollowScan (prefix : string) : map_eff (result (list (string * string))).

Inductive app_eff (V : Type) : Type -> Type :=
| AOs {X} (e : os_eff V X) : app_eff V X
| ANow : app_eff V Z
| AApp {X} (f : app -> X * app) : app_eff V X
| ALock : app_eff V unit
| AUnlock : app_eff V unit
| AOpen : app_eff V (poll (result unit))
| ARetire : app_eff V (poll unit)
| AMap {X} (e : map_eff X) : app_eff V X
(** [Instant::now() >= deadline]. *)
| ATimeUp : app_eff V bool
| AHalt : app_eff V Empty_set.
Arguments AOs {V X} e.
Arguments ANow {V}.
Arguments AApp {V X} f.
Arguments ALock {V}.
Arguments AUnlock {V}.
Arguments AOpen {V}.
Arguments ARetire {V}.
Arguments AMap {V X} e.
Arguments ATimeUp {V}.
Arguments AHalt {V}.

Section effects.
Context {V : Type}.
Local Abbreviation P := (prog (app_eff V)).

Definition os_call {A} (p : prog (os_eff V) A) : P A := lift (fun X e => AOs e) p.
Definition load {X} (f : app -> X) : P X := trigger (AApp (fun a => (f a, a))).
Definition modify (f : app -> app) : P unit := trigger (AApp (fun a => (tt, f a))).
Definition now_ms : P Z := trigger ANow.
Definition time_up : P bool := trigger ATimeUp.
Definition map_call {X} (e : map_eff X) : P X := trigger (AMap e).
Definition halt {A} : P A := Vis Empty_set AHalt (fun x : Empty_set => match x with end).

(** [let _g = self.leader_lock.lock().await; ...]: given back on every path out. *)
Definition with_leader_lock {A} (p : P A) : P A :=
  trigger ALock ;;! let! r := p in trigger AUnlock ;;! Ret r.
End effects.

(** ** The fleet *)

(** A task is a node and a number. *)
Definition tid : Type := string * nat.

Section fleet.
Context {V S : Type} `{OS : !ObjectStore V S}.

(** [mapdb] is what the ownership map's database holds, [mapepoch] the epoch of its latest
    writer and [handles n] the epoch of the writer handle [n] opened last. *)
Record world := World {
  store : S;
  apps : string -> app;
  locks : string -> option tid;
  mapdb : gmap string string;
  mapepoch : nat;
  handles : string -> option nat;
}.

Definition set_app (n : string) (a : app) (w : world) : world :=
  World (store w) (<[n := a]> (apps w)) (locks w) (mapdb w) (mapepoch w) (handles w).
Definition set_wlock (n : string) (o : option tid) (w : world) : world :=
  World (store w) (apps w) (<[n := o]> (locks w)) (mapdb w) (mapepoch w) (handles w).
Definition set_wstore (s : S) (w : world) : world :=
  World s (apps w) (locks w) (mapdb w) (mapepoch w) (handles w).
Definition set_mapdb (d : gmap string string) (w : world) : world :=
  World (store w) (apps w) (locks w) d (mapepoch w) (handles w).
(** Building a [Db] fences every writer before it. *)
Definition fence_map (w : world) : world :=
  World (store w) (apps w) (locks w) (mapdb w) (Datatypes.S (mapepoch w)) (handles w).
Definition open_map (n : string) (w : world) : world :=
  World (store w) (apps w) (locks w) (mapdb w) (Datatypes.S (mapepoch w))
        (<[n := Some (Datatypes.S (mapepoch w))]> (handles w)).

Definition apply_batch (b : batch) (d : gmap string string) : gmap string string :=
  foldl (fun d '(k, o) => match o with Some v => <[k := v]> d | None => delete k d end) d b.

Definition scan (prefix : string) (d : gmap string string) : list (string * string) :=
  filter (fun kv => is_true (starts_with prefix kv.1)) (map_to_list d).

(** Node [n]'s writer handle has not been fenced. *)
Definition writes_map (n : string) (w : world) : Prop := handles w n = Some (mapepoch w).

(** A write that was not acknowledged may have been applied all the same; a fenced handle's reads
    may answer anything, and its writes never land.  A write that timed out and lands later lands
    before any other: its writer is closed at once and the next one fences it. *)
Definition msem (n : string) (X : Type) (e : map_eff X) (w : world) : X -> world -> Prop :=
  match e in map_eff X return X -> world -> Prop with
  | MGet k => fun r w' => w' = w /\
      (writes_map n w -> match r with Ok o => o = mapdb w !! k | Err _ => True end)
  | MScan p => fun r w' => w' = w /\
      (writes_map n w -> match r with Ok l => l ≡ₚ scan p (mapdb w) | Err _ => True end)
  | MWrite b => fun r w' =>
      match r with
      | Some (Ok _) => writes_map n w /\ w' = set_mapdb (apply_batch b (mapdb w)) w
      | _ => w' = w \/ (writes_map n w /\ w' = set_mapdb (apply_batch b (mapdb w)) w)
      end
  | MFollowGet _ => fun _ w' => w' = w
  | MFollowScan _ => fun _ w' => w' = w
  end.

(** The answers the clocks of the fleet may give. *)
Variable clock : Z -> Prop.

(** What an effect of task [t] may do.  Clocks and openings of the map are the environment's. *)
Definition asem (t : tid) (X : Type) (e : app_eff V X) (w : world) : X -> world -> Prop :=
  match e in app_eff _ X return X -> world -> Prop with
  | AOs e => fun x w' => exists s', osem _ e (store w) x s' /\ w' = set_wstore s' w
  | ANow => fun x w' => u64 x /\ clock x /\ w' = w
  | AApp f => fun x w' => (x, w') = let r := f (apps w t.1) in (r.1, set_app t.1 r.2 w)
  | ALock => fun _ w' => locks w t.1 = None /\ w' = set_wlock t.1 (Some t) w
  | AUnlock => fun _ w' => w' = set_wlock t.1 None w
  | AOpen => fun r w' =>
      match r with
      | Ready (Ok _) => w' = open_map t.1 w
      | _ => w' = w \/ w' = fence_map w
      end
  | ARetire => fun _ w' => w' = w
  | AMap e => fun x w' => msem t.1 _ e w x w'
  | ATimeUp => fun _ w' => w' = w
  | AHalt => fun _ _ => False
  end.
End fleet.
Arguments world S : clear implicits.

(** ** Running a node on the store in memory

    The clock stands still unless the script says otherwise, and the map opens at the polls the
    script lists. *)
Record sim := Sim {
  sworld : world MemStore.mem;
  snow : list Z;          (** the answers of the clock; the last one repeats *)
  sopen : list (poll (result unit));
  sretire : list (poll unit);
  sdown : bool;           (** the store is out of reach *)
}.

Definition pop {A} (l : list A) (d : A) : A * list A :=
  match l with
  | [] => (d, [])
  | [x] => (x, [x])
  | x :: l => (x, l)
  end.

Definition set_world (w : world MemStore.mem) (s : sim) : sim :=
  Sim w (snow s) (sopen s) (sretire s) (sdown s).

(** The database while this node's handle is the latest writer's. *)
Definition sim_map (n : string) (X : Type) (e : map_eff X) (w : world MemStore.mem)
  : X * world MemStore.mem :=
  let ok := bool_decide (handles w n = Some (mapepoch w)) in
  match e in map_eff X return X * world MemStore.mem with
  | MGet k => (if ok then Ok (mapdb w !! k) else Err EFenced, w)
  | MScan p => (if ok then Ok (scan p (mapdb w)) else Err EFenced, w)
  | MWrite b =>
    if ok then (Some (Ok tt), set_mapdb (apply_batch b (mapdb w)) w) else (Some (Err EFenced), w)
  | MFollowGet k => (Ok (mapdb w !! k), w)
  | MFollowScan p => (Ok (scan p (mapdb w)), w)
  end.

Definition sim_exec (t : tid) (X : Type) (e : app_eff nat X) (s : sim) : option (X * sim) :=
  match e in app_eff _ X return option (X * sim) with
  | AOs e =>
      if sdown s then Some (MemStore.outage e (EMsg "outage"), s)
      else '(x, m) ← exec _ e (store (sworld s)); Some (x, set_world (set_wstore m (sworld s)) s)
  | ANow => let '(z, l) := pop (snow s) 0 in
      if (0 <=? z) && (z <=? u64_max)
      then Some (z, Sim (sworld s) l (sopen s) (sretire s) (sdown s)) else None
  | AApp f => let r := f (apps (sworld s) t.1) in
      Some (r.1, set_world (set_app t.1 r.2 (sworld s)) s)
  | ALock =>
      match locks (sworld s) t.1 with
      | Some _ => None
      | None => Some (tt, set_world (set_wlock t.1 (Some t) (sworld s)) s)
      end
  | AUnlock => Some (tt, set_world (set_wlock t.1 None (sworld s)) s)
  | AOpen => let '(x, l) := pop (sopen s) (Ready (Ok tt)) in
      let w := match x with Ready (Ok _) => open_map t.1 (sworld s) | _ => sworld s end in
      Some (x, Sim w (snow s) l (sretire s) (sdown s))
  | ARetire => let '(x, l) := pop (sretire s) (Ready tt) in
      Some (x, Sim (sworld s) (snow s) (sopen s) l (sdown s))
  | AMap e => let r := sim_map t.1 _ e (sworld s) in Some (r.1, set_world r.2 s)
  | ATimeUp => Some (false, s)
  | AHalt => None
  end.

Lemma sim_map_sem n X (e : map_eff X) w : msem n X e w (sim_map n X e w).1 (sim_map n X e w).2.
Proof.
  unfold sim_map, msem. destruct e; cbn; try done; case_bool_decide; cbn; auto; done.
Qed.

(** A clock that stands at an answer [C] allows. *)
Definition clocked (C : Z -> Prop) (s : sim) : Prop := exists z, snow s = [z] /\ C z.

(** A run in the simulator is a run of the semantics. *)
Lemma sim_exec_sem C t X (e : app_eff nat X) s x s' :
  clocked C s -> sim_exec t X e s = Some (x, s') ->
  asem C t X e (sworld s) x (sworld s') /\ clocked C s'.
Proof.
  unfold clocked. intros (z & Hz & HC).
  destruct e as [X e| |X f| | | | |X e| |]; unfold sim_exec, asem.
  - destruct (sdown s).
    { intros [= <- <-]. split; [|eauto]. eexists; split; [right; eauto|by destruct (sworld s)]. }
    destruct (exec X e (store (sworld s))) as [[y m]|] eqn:E; cbn; [|done].
    intros [= <- <-]. split; [|eauto]. eexists; split; [by left|done].
  - rewrite Hz. cbn. destruct ((0 <=? z) && (z <=? u64_max)) eqn:E; [|done].
    intros [= <- <-]. bools. split; [|eauto]. by unfold u64.
  - cbn. intros [= <- <-]. split; [done|eauto].
  - destruct (locks (sworld s) t.1) eqn:E; [done|]. intros [= <- <-]. split; [done|eauto].
  - intros [= <- <-]. split; [done|eauto].
  - destruct (pop (sopen s) (Ready (Ok tt))) as [[|[]] l]; intros [= <- <-]; (split; [|eauto]); auto.
  - destruct (pop (sretire s) (Ready tt)). intros [= <- <-]. split; [done|eauto].
  - intros [= <- <-]. split; [apply sim_map_sem|eauto].
  - intros [= <- <-]. split; [done|eauto].
  - done.
Qed.

Fixpoint sim_run {A} (t : tid) (p : prog (app_eff nat) A) (s : sim) : option (A * sim) :=
  match p with
  | Ret a => Some (a, s)
  | Vis X e k => '(x, s') ← sim_exec t X e s; sim_run t (k x) s'
  end.

Lemma sim_run_runs {A} C t (p : prog (app_eff nat) A) : forall s a s',
  clocked C s -> sim_run t p s = Some (a, s') ->
  runs (asem C) t p (sworld s) a (sworld s') /\ clocked C s'.
Proof.
  induction p as [a|X e k IH]; intros s b s' Hc; cbn.
  - intros [= <- <-]. split; [constructor|done].
  - destruct (sim_exec t X e s) as [[x s1]|] eqn:E; cbn; [|done]. intros H.
    destruct (sim_exec_sem C _ _ _ _ _ _ Hc E) as [He Hc1]. apply IH in H as [Hr Hc2]; [|done].
    split; [by econstructor|done].
Qed.

(** *** Running the common effects *)
Definition me (t : tid) (s : sim) : app := apps (sworld s) t.1.

Definition upd (t : tid) (f : app -> app) (s : sim) : sim :=
  set_world (set_app t.1 (f (me t s)) (sworld s)) s.

Definition lock_free (t : tid) (s : sim) : Prop := locks (sworld s) t.1 = None.

Definition set_lock (t : tid) (o : option tid) (s : sim) : sim :=
  set_world (set_wlock t.1 o (sworld s)) s.

Definition set_store (m : MemStore.mem) (s : sim) : sim := set_world (set_wstore m (sworld s)) s.

Lemma fn_insert_id {A} (f : string -> A) n : <[n := f n]> f = f.
Proof.
  apply functional_extensionality. intros m. destruct (decide (m = n)) as [->|Hm].
  - by rewrite fn_lookup_insert.
  - by rewrite fn_lookup_insert_ne.
Qed.

Lemma set_app_id {S} n (w : world S) : set_app n (apps w n) w = w.
Proof. destruct w. unfold set_app; cbn. by rewrite fn_insert_id. Qed.

Lemma me_upd t f s : me t (upd t f s) = f (me t s).
Proof. unfold me, upd; cbn. by rewrite fn_lookup_insert. Qed.

Lemma me_set_lock t o s : me t (set_lock t o s) = me t s.
Proof. done. Qed.

Lemma me_set_store t m s : me t (set_store m s) = me t s.
Proof. done. Qed.

Lemma lock_free_unlock t s : lock_free t (set_lock t None s).
Proof. unfold lock_free, set_lock; cbn. by rewrite fn_lookup_insert. Qed.

Create Rewrite HintDb sim.
#[export] Hint Rewrite @me_upd me_set_lock me_set_store : sim.

Section sim_rules.
Context (t : tid) {A : Type}.

Lemma sim_ret (a : A) s : sim_run t (Ret a) s = Some (a, s).
Proof. done. Qed.

Lemma sim_bind {B} (p : prog (app_eff nat) A) (k : A -> prog (app_eff nat) B) s :
  sim_run t (bind p k) s = '(a, s') ← sim_run t p s; sim_run t (k a) s'.
Proof.
  revert s. induction p as [a|X e k' IH]; intros s; cbn; [done|].
  destruct (sim_exec t X e s) as [[x s']|]; cbn; auto.
Qed.

Lemma sim_load {X} (f : app -> X) (k : X -> prog (app_eff nat) A) s :
  sim_run t (bind (load f) k) s = sim_run t (k (f (me t s))) s.
Proof. cbn. rewrite set_app_id. by destruct s. Qed.

Lemma sim_modify f (k : unit -> prog (app_eff nat) A) s :
  sim_run t (bind (modify f) k) s = sim_run t (k tt) (upd t f s).
Proof. done. Qed.

Lemma sim_now z (k : Z -> prog (app_eff nat) A) s :
  snow s = [z] -> u64 z -> sim_run t (bind now_ms k) s = sim_run t (k z) s.
Proof.
  intros Hs [Hz Hm]. cbn. rewrite Hs; cbn.
  rewrite (proj2 (Z.leb_le _ _) Hz), (proj2 (Z.leb_le _ _) Hm). cbn. destruct s; cbn in *.
  by subst.
Qed.

Lemma sim_lock (p : prog (app_eff nat) A) s :
  lock_free t s ->
  sim_run t (with_leader_lock p) s =
    '(a, s') ← sim_run t p (set_lock t (Some t) s); Some (a, set_lock t None s').
Proof.
  unfold lock_free. intros Hl. unfold with_leader_lock. cbn. rewrite Hl. cbn. by rewrite sim_bind.
Qed.

(** The store, reachable or not. *)
Lemma sim_os_up {X} (e : os_eff nat X) (k : X -> prog (app_eff nat) A) s x m :
  sdown s = false -> exec X e (store (sworld s)) = Some (x, m) ->
  sim_run t (bind (trigger (AOs e)) k) s = sim_run t (k x) (set_store m s).
Proof.
  intros Hd He. cbn [bind trigger sim_run]. unfold sim_exec. rewrite Hd, He. cbn.
  by destruct s.
Qed.

Lemma sim_os_down {X} (e : os_eff nat X) (k : X -> prog (app_eff nat) A) s :
  sdown s = true ->
  sim_run t (bind (trigger (AOs e)) k) s = sim_run t (k (MemStore.outage e (EMsg "outage"))) s.
Proof. intros Hd. cbn. by rewrite Hd. Qed.
End sim_rules.
