(* ===== verification/Election.v ===== *)
(** * Election: who writes the ownership map, [crates/app/src/election.rs]

    [election_tick], [promote], [demote] and [resign] as programs, and the proof that each of them
    is safe in a fleet where any number of nodes run any tasks in any interleaving, with any clocks,
    any store failures and any timing of the map's opening: [inv] is the fleet's invariant, [rely]
    what a task may assume of the others, and [fleet_entry_safe] the proof for the election's own
    tasks.  [Fleet] states what follows. *)

From S2P Require Import Prelude Text Prog ObjStore App.
From S2P Require Lease Ownership.
Import Lease (held, Held, held_lease, version).
Local Open Scope string_scope.
Local Open Scope Z_scope.

Section code.
Context {V : Type}.
Local Abbreviation P := (prog (app_eff V)).

(** [note_live]. *)
Definition note_live (l : Lease.lease) : P unit :=
  modify (set_leader (Some (Lease.node l))) ;;!
  let! now := now_ms in
  modify (set_lease_seen now) ;;!
  modify (set_lease_expires (Lease.expires_ms l)).

(** [OwnershipStore::demote]: nothing to do for a solo node or a follower. *)
Definition map_demote : P unit :=
  let! os := load os_present in
  if negb os then Ret tt
  else
    let! w := load is_writer in
    if negb w then Ret tt
    else modify (set_role Reader) ;;! let! _ := trigger ARetire in Ret tt.

(** [demote_locked], for a caller that holds [leader_lock]. *)
Definition demote_locked : P unit :=
  let! leads := load is_leader in
  if negb leads then Ret tt
  else
    modify (set_leader_epoch 0) ;;!
    modify (set_held_expires 0) ;;!
    modify (set_leader None) ;;!
    map_demote.

Definition demote : P unit := with_leader_lock demote_locked.

(** [OwnershipStore::promote] as the future [promote] polls: where it stands, and one poll. *)
Inductive opening := OStart | OBuilding | ORetiring.

Definition poll_retiring : P (opening * poll (result unit)) :=
  let! r := trigger ARetire in
  match r with
  | Pending => Ret (ORetiring, Pending)
  | Ready _ => Ret (ORetiring, Ready (Ok tt))
  end.

Definition poll_building : P (opening * poll (result unit)) :=
  let! r := trigger AOpen in
  match r with
  | Pending => Ret (OBuilding, Pending)
  | Ready (Err e) => Ret (OBuilding, Ready (Err e))
  | Ready (Ok _) => modify (set_role Writer) ;;! poll_retiring
  end.

Definition poll_open (st : opening) : P (opening * poll (result unit)) :=
  match st with
  | OStart =>
    let! os := load os_present in
    if negb os then Ret (OStart, Ready (Ok tt))
    else
      let! w := load is_writer in
      if w then Ret (OStart, Ready (Ok tt)) else poll_building
  | OBuilding => poll_building
  | ORetiring => poll_retiring
  end.

(** The [select!] loop of [promote]: a poll that is still pending when [LEADER_RENEW] has passed
    renews the lease.  [fuel] bounds the renewals one opening waits through; past it the task is
    still waiting. *)
Fixpoint promote_wait (fuel : nat) (st : opening) (cur : held V)
  : P (result (option (held V))) :=
  match fuel with
  | O => halt
  | Datatypes.S fuel =>
    let! (st, r) := poll_open st in
    match r with
    | Ready (Ok _) => Ret (Ok (Some cur))
    | Ready (Err e) => Ret (Err e)
    | Pending =>
      let! os := load os_present in
      if negb os then promote_wait fuel st cur
      else
        let! now := now_ms in
        let! r := os_call (Lease.renew cur now) in
        match r with
        | Ok (Some h2) => promote_wait fuel st h2
        | Ok None => Ret (Ok None)
        | Err e => Ret (Err e)
        end
    end
  end.

(** [promote] behind its [let _g = self.leader_lock.lock().await]. *)
Definition promote_locked (fuel : nat) (h : held V) : P (result unit) :=
  let! going := load retiring in
  if going then
    let! os := load os_present in
    let! _ := (if os then os_call (Lease.release h) else Ret (Ok None)) in
    Ret (Ok tt)
  else
    let! outcome := promote_wait fuel OStart h in
    match outcome with
    | Ok None => demote_locked ;;! Ret (Ok tt)
    | Err e => demote_locked ;;! Ret (Err e)
    | Ok (Some cur) =>
      modify (set_leader_epoch (Lease.epoch (held_lease cur))) ;;!
      modify (set_held_expires (Lease.expires_ms (held_lease cur))) ;;!
      note_live (held_lease cur) ;;!
      Ret (Ok tt)
    end.

Definition promote (fuel : nat) (h : held V) : P (result unit) :=
  with_leader_lock (promote_locked fuel h).

(** The last arm of the tick: nobody holds a live lease, try for it. *)
Definition tick_take (fuel : nat) (now : Z) (cur : option (held V)) : P (result unit) :=
  let! me := load self_name in
  let!? r := os_call (Lease.take me now cur) in
  match r with
  | Some h => promote fuel h
  | None => Ret (Ok tt)
  end.

(** The tick on the lease as [read] found it. *)
Definition tick_on (fuel : nat) (now : Z) (cur : option (held V)) : P (result unit) :=
  let! me := load self_name in
  match cur with
  | Some c =>
    if bool_decide (Lease.node (held_lease c) = me) &&
       negb (Lease.is_expired (held_lease c) now)
    then
      let!? r := os_call (Lease.renew c now) in
      match r with
      | Some h => promote fuel h
      | None => demote ;;! Ret (Ok tt)
      end
    else if negb (Lease.is_expired (held_lease c) now) then
      let! leads := load is_leader in
      (if leads then demote else Ret tt) ;;!
      note_live (held_lease c) ;;!
      Ret (Ok tt)
    else tick_take fuel now cur
  | None => tick_take fuel now cur
  end.

Definition election_tick (fuel : nat) : P (result unit) :=
  let! os := load os_present in
  if negb os then Ret (Ok tt)
  else
  let! going := load retiring in
  let! drained := load draining in
  if going || drained then Ret (Ok tt)
  else
  let! now := now_ms in
  let! leads := load is_leader in
  let! held_until := load held_expires_ms in
  (if leads && (held_until <=? now) then demote else Ret tt) ;;!
  let!? cur := os_call Lease.read in
  tick_on fuel now cur.

(** The best-effort half of [resign]: give the lease back if it is ours. *)
Definition resign_lease : P unit :=
  let! r := os_call Lease.read in
  match r with
  | Ok (Some c) =>
    let! me := load self_name in
    if bool_decide (Lease.node (held_lease c) = me)
    then let! _ := os_call (Lease.release c) in Ret tt
    else Ret tt
  | _ => Ret tt
  end.

Definition resign : P unit :=
  modify (set_retiring true) ;;!
  let! leads := load is_leader in
  let! os := load os_present in
  (if leads && os then resign_lease else Ret tt) ;;!
  demote.

(** [begin_draining]: a swap; the answer says whether a drain had begun before. *)
Definition begin_draining : P bool := trigger (AApp (fun a => (draining a, set_draining true a))).
End code.

(** The tasks a node runs. *)
Inductive entry {V} : prog (app_eff V) unit -> Prop :=
| entry_tick fuel : entry (let! _ := election_tick fuel in Ret tt)
| entry_resign : entry resign
| entry_drain : entry (let! _ := begin_draining in Ret tt).

(** ** The fleet's invariant *)
Section fleet.
Context {V S : Type} `{OS : !ObjectStore V S}.
Local Abbreviation W := (world S).
Implicit Types w : W.
(** The clocks' answers, and what the tasks keep true of the map's contents. *)
Context (C : Z -> Prop) (MI : gmap string string -> Prop).

(** What a node starts: any entry point, on a node whose name is text. *)
Definition fleet_entry (t : tid) (p : prog (app_eff V) unit) : Prop :=
  utf8_valid t.1 = true /\ entry p.

(** A fleet that has just been started on a store where nobody ever led. *)
Definition fresh (w : W) : Prop :=
  (forall v b, ~ seen (store w) Lease.PATH v b) /\
  (forall n, handles w n = None) /\
  (forall n, exists solo, apps w n = app_new n solo).

(** [n] shows an epoch, and is a fleet node. *)
Definition leads (w : W) (n : string) : Prop :=
  os_present (apps w n) = true /\ leader_epoch (apps w n) <> 0.

(** [n]'s epoch is one the store handed to [n]. *)
Definition backed (w : W) (n : string) : Prop :=
  exists v l, Lease.was (store w) v l /\ Lease.epoch l = leader_epoch (apps w n) /\
    Lease.node l = n.

(** Every handle has an epoch of its own, handed out by the database. *)
Definition handles_ok (w : W) : Prop :=
  (forall n h, handles w n = Some h -> (h <= mapepoch w)%nat) /\
  (forall n m h, handles w n = Some h -> handles w m = Some h -> n = m).

Definition inv (w : W) : Prop :=
  (Lease.lease_inv (store w) /\ handles_ok w /\ MI (mapdb w)) /\
  forall n, self_name (apps w n) = n /\
    (leads w n -> map_role (apps w n) = Writer /\ backed w n).

(** The fields [leader_lock] protects. *)
Definition locked_fields (a : app) : (role * Z * Z)%type :=
  (map_role a, leader_epoch a, held_expires_ms a).

(** The fields nobody changes. *)
Definition fixed_fields (a : app) : (string * bool)%type := (self_name a, os_present a).

Definition has_lock (t : tid) (w : W) : Prop := locks w t.1 = Some t.

(** Nobody but the holder of a handle that is still the latest writes the map. *)
Definition map_kept (h : nat) (w w' : W) : Prop :=
  mapepoch w = h -> mapepoch w' = h -> mapdb w' = mapdb w.

Definition rely (t : tid) (w w' : W) : Prop :=
  Lease.grows (store w) (store w') /\
  (forall n, fixed_fields (apps w' n) = fixed_fields (apps w n)) /\
  (mapepoch w <= mapepoch w')%nat /\
  (has_lock t w ->
     has_lock t w' /\ locked_fields (apps w' t.1) = locked_fields (apps w t.1) /\
     handles w' t.1 = handles w t.1 /\
     forall h, handles w t.1 = Some h -> map_kept h w w').

#[global] Instance rely_preorder t : PreOrder (rely t).
Proof.
  split.
  - intros w. by repeat split.
  - intros a b c (G1 & F1 & E1 & L1) (G2 & F2 & E2 & L2). split; [by etrans|].
    split; [intros n; by rewrite F2|]. split; [lia|]. intros H.
    destruct (L1 H) as (Ha & Hb & Hh & Hm). destruct (L2 Ha) as (Hc & Hd & Hh' & Hm').
    split; [done|]. split; [by rewrite Hd|]. split; [by rewrite Hh'|].
    intros h Hs Ea Ec. assert (mapepoch b = h) as Eb by lia.
    etrans; [apply (Hm' h); congruence|by apply (Hm h)].
Qed.

Lemma set_app_eq n a w : apps (set_app n a w) n = a.
Proof. apply fn_lookup_insert. Qed.

Lemma set_app_ne n m a w : n <> m -> apps (set_app n a w) m = apps w m.
Proof. intros. by apply fn_lookup_insert_ne. Qed.

(** Changing one node's fields keeps the invariant if that node's clause survives. *)
Lemma inv_set_app n a w :
  self_name a = n ->
  (os_present a = true -> leader_epoch a <> 0 ->
     map_role a = Writer /\ exists v l, Lease.was (store w) v l /\
       Lease.epoch l = leader_epoch a /\ Lease.node l = n) ->
  inv w -> inv (set_app n a w).
Proof.
  intros Hn Hl [HL HA]. split; [done|]. intros m. destruct (decide (n = m)) as [<-|Hm].
  - unfold leads, backed. rewrite !set_app_eq. split; [done|]. intros [? ?]. auto.
  - unfold leads, backed. rewrite !set_app_ne by done. apply HA.
Qed.

Lemma rely_grows t w w' : rely t w w' -> Lease.grows (store w) (store w').
Proof using Type. by intros [? _]. Qed.

Lemma rely_lock t w w' : rely t w w' -> has_lock t w -> has_lock t w'.
Proof using Type. intros (_ & _ & _ & H) Hl. by apply H. Qed.

Lemma rely_set_app t n a w :
  fixed_fields a = fixed_fields (apps w n) ->
  (has_lock t w -> n = t.1 -> locked_fields a = locked_fields (apps w n)) ->
  rely t w (set_app n a w).
Proof using Type.
  intros Hfx Hlk. split; [done|]. split; [|split; [done|]].
  - intros m. destruct (decide (n = m)) as [<-|Hn];
      [by rewrite set_app_eq|by rewrite set_app_ne].
  - intros Hl. split; [done|]. split; [|by split]. destruct (decide (n = t.1)) as [->|Hn];
      [rewrite set_app_eq; auto|by rewrite set_app_ne].
Qed.

Lemma rely_set_wlock t n o w :
  (n = t.1 -> ~ has_lock t w) -> rely t w (set_wlock n o w).
Proof using Type.
  intros Hno. split; [done|]. split; [done|]. split; [done|]. intros Hl. split; [|by split].
  unfold has_lock; cbn. destruct (decide (n = t.1)) as [Heq|Hn]; [by destruct Hno|].
  by rewrite fn_lookup_insert_ne.
Qed.

(** *** Rules for the effects *)
Section rules.
Context (t : tid) {A : Type}.
Implicit Types Q : A -> W -> Prop.

Lemma wp_load {X} (f : app -> X) k w Q :
  (forall w1, rely t w w1 -> inv w1 -> wp (asem C) inv rely t (k (f (apps w1 t.1))) w1 Q) ->
  wp (asem C) inv rely t (bind (load f) k) w Q.
Proof.
  intros H. cbn. intros w1 x w2 HR HI [= -> ->]. rewrite set_app_id.
  split; [done|]. split; [intros; reflexivity|]. by apply H.
Qed.

Lemma wp_now k w Q :
  (forall w1 z, rely t w w1 -> inv w1 -> u64 z -> wp (asem C) inv rely t (k z) w1 Q) ->
  wp (asem C) inv rely t (bind now_ms k) w Q.
Proof.
  intros H. cbn. intros w1 x w2 HR HI (? & ? & ->).
  split; [done|]. split; [intros; reflexivity|]. by apply H.
Qed.

(** An update of fields no lock protects. *)
Lemma wp_modify f k w Q :
  (forall a, locked_fields (f a) = locked_fields a) ->
  (forall a, fixed_fields (f a) = fixed_fields a) ->
  (forall w1, rely t w w1 -> inv w1 -> wp (asem C) inv rely t (k tt) w1 Q) ->
  wp (asem C) inv rely t (bind (modify f) k) w Q.
Proof using Type.
  intros Hlk Hfx H. cbn. intros w1 x w2 HR HI [= -> ->].
  assert (Hr : forall t', rely t' w1 (set_app t.1 (f (apps w1 t.1)) w1)).
  { intros t'. apply rely_set_app; [done|]. intros. by rewrite Hlk. }
  assert (HI2 : inv (set_app t.1 (f (apps w1 t.1)) w1)).
  { destruct HI as [HL HA]. destruct (HA t.1) as [Hn Hl].
    pose proof (Hlk (apps w1 t.1)) as [= H1 H2 H3]. pose proof (Hfx (apps w1 t.1)) as [= H4 H5].
    apply inv_set_app; [congruence| |by split].
    rewrite H1, H2, H5. intros Ho He. by apply Hl. }
  split; [done|]. split; [by intros|]. apply H; [|done]. by etrans.
Qed.

(** An update of the fields the lock protects, by its holder. *)
Lemma wp_modify_locked f k w Q :
  has_lock t w ->
  (forall a, fixed_fields (f a) = fixed_fields a) ->
  (forall w1, rely t w w1 -> inv w1 -> inv (set_app t.1 (f (apps w1 t.1)) w1)) ->
  (forall w1, rely t w w1 -> inv w1 ->
     wp (asem C) inv rely t (k tt) (set_app t.1 (f (apps w1 t.1)) w1) Q) ->
  wp (asem C) inv rely t (bind (modify f) k) w Q.
Proof using Type.
  intros Hlk Hfx HI2 H. cbn. intros w1 x w2 HR HI [= -> ->].
  pose proof (rely_lock _ _ _ HR Hlk) as Hlk1.
  split; [by apply HI2|]. split; [|by apply H].
  intros t' Ht. apply rely_set_app; [done|]. intros Hl Heq. exfalso.
  unfold has_lock in *. rewrite Heq in Hlk1. congruence.
Qed.

(** An effect that changes nothing the others rely on, by the holder of the lock or not. *)
Lemma wp_env {X} (e : app_eff V X) k w Q :
  (forall w1 x w2, asem C t X e w1 x w2 -> w2 = w1) ->
  (forall x w1, rely t w w1 -> inv w1 -> wp (asem C) inv rely t (k x) w1 Q) ->
  wp (asem C) inv rely t (bind (trigger e) k) w Q.
Proof using Type.
  intros He H. cbn. intros w1 x w2 HR HI Hs. apply He in Hs as ->.
  split; [done|]. split; [intros; reflexivity|]. by apply H.
Qed.

(** The map opens: this node gets the newest handle, or only fences the others. *)
Lemma wp_open k w Q :
  has_lock t w ->
  (forall x w1 w2, rely t w w1 -> inv w1 -> apps w2 = apps w1 -> locks w2 = locks w1 ->
     store w2 = store w1 -> wp (asem C) inv rely t (k x) w2 Q) ->
  wp (asem C) inv rely t (bind (trigger AOpen) k) w Q.
Proof using Type.
  intros Hlk H. cbn. intros w1 x w2 HR HI Hs. pose proof (rely_lock _ _ _ HR Hlk) as Hlk1.
  destruct HI as [(HL & [Hle Huniq] & HM) HA].
  assert (Hf : inv (fence_map w1) /\ forall t', rely t' w1 (fence_map w1)).
  { split; [split; [split; [done|split; [split|done]]|done]|].
    - intros n h Hn. specialize (Hle _ _ Hn). cbn. lia.
    - done.
    - intros t'. split; [done|]. split; [done|]. split; [cbn; lia|]. by intros Hl. }
  assert (Ho : inv (open_map t.1 w1) /\ forall t', t' <> t -> rely t' w1 (open_map t.1 w1)).
  { split; [split; [split; [done|split; [split|done]]|done]|].
    - intros n h. cbn. destruct (decide (n = t.1)) as [->|Hn].
      + rewrite fn_lookup_insert. intros [= <-]. lia.
      + rewrite fn_lookup_insert_ne by done. intros Hh. specialize (Hle _ _ Hh). lia.
    - intros n m h. cbn. destruct (decide (n = t.1)) as [->|Hn], (decide (m = t.1)) as [->|Hm];
        rewrite ?fn_lookup_insert, ?fn_lookup_insert_ne by done; [done| | |apply Huniq].
      + intros [= <-] Hh. specialize (Hle _ _ Hh). lia.
      + intros Hh [= <-]. specialize (Hle _ _ Hh). lia.
    - intros t' Ht. split; [done|]. split; [done|]. split; [cbn; lia|]. intros Hl.
      assert (t.1 <> t'.1) by (intros E; unfold has_lock in *; rewrite E in Hlk1; congruence).
      split; [done|]. split; [done|]. cbn. by rewrite fn_lookup_insert_ne. }
  assert (HI1 : inv w1) by done.
  destruct x as [|[[]|err]]; [|subst w2|]; [destruct Hs as [-> | ->]| |destruct Hs as [-> | ->]];
    (split; [tauto|]; split; [try (intros; reflexivity); apply Ho || (intros; apply Hf)|by apply (H _ w1)]).
Qed.

(** A critical section: whatever state it is entered in, it ends with the lock still held. *)
Lemma wp_locked (p : prog (app_eff V) A) w Q :
  (forall w1, Lease.grows (store w) (store w1) ->
     (forall n, fixed_fields (apps w1 n) = fixed_fields (apps w n)) -> has_lock t w1 ->
     inv w1 -> wp (asem C) inv rely t p w1 (fun a w2 => has_lock t w2 /\ forall w3, Q a w3)) ->
  wp (asem C) inv rely t (with_leader_lock p) w Q.
Proof using Type.
  intros H. cbn. intros w1 x w2 HR HI [Hno ->].
  assert (Hl : has_lock t (set_wlock t.1 (Some t) w1)).
  { unfold has_lock; cbn. by rewrite fn_lookup_insert. }
  split; [done|]. split.
  - intros t' Ht. apply rely_set_wlock. intros Heq. unfold has_lock. rewrite <- Heq. congruence.
  - apply wp_bind. eapply wp_mono; [apply H|].
    + apply HR.
    + apply HR.
    + done.
    + done.
    + intros a w3 [Hl3 HQ]. cbn. intros w4 [] w5 HR4 HI4 ->.
      pose proof (rely_lock _ _ _ HR4 Hl3) as Hl4.
      split; [done|]. split; [|done].
      intros t' Ht. apply rely_set_wlock. intros Heq Hl'. unfold has_lock in *.
      rewrite Heq in Hl4. congruence.
Qed.
End rules.

(** *** Rules for the lease *)
Section lease_rules.
Context (t : tid) (Ht : utf8_valid t.1 = true) {A : Type}.
Implicit Types Q : A -> W -> Prop.

(** A lease of this node's, as the store handed it back. *)
Definition mine (w : W) (h : held V) : Prop :=
  Lease.knows (store w) h /\ Lease.node (held_lease h) = t.1.

Lemma mine_rely w w' h : rely t w w' -> mine w h -> mine w' h.
Proof using Type. intros [Hg _] [Hk Hn]. split; [by eapply Lease.was_grows|done]. Qed.

Lemma wp_os {X} (e : os_eff V X) k w Q :
  (forall w1 x w2, rely t w w1 -> inv w1 -> osem X e (store w1) x (store w2) ->
     Lease.lease_inv (store w2) /\ (rely t w w2 -> wp (asem C) inv rely t (k x) w2 Q)) ->
  wp (asem C) inv rely t (bind (trigger (AOs e)) k) w Q.
Proof using Type.
  intros H. cbn. intros w1 x w2 HR HI (s' & Hs & ->).
  destruct (H w1 x (set_wstore s' w1) HR HI Hs) as [HL Hk].
  pose proof (Lease.osem_grows _ _ _ _ _ Hs) as Hg.
  assert (Hr : forall t', rely t' w1 (set_wstore s' w1)) by done.
  assert (HI2 : inv (set_wstore s' w1)).
  { destruct HI as [(_ & Hh & HM) HA]. split; [by split; [|split]|]. intros n.
    destruct (HA n) as [Hn Hled]. split; [done|]. intros Hl0.
    destruct (Hled Hl0) as (? & v & l & Hw & ?). split; [done|]. exists v, l.
    split; [by eapply Lease.was_grows|done]. }
  split; [done|]. split; [by intros|]. apply Hk. by etrans.
Qed.

Lemma wp_lease_read k w Q :
  (forall w1 r, rely t w w1 ->
     (forall h, r = Ok (Some h) -> Lease.knows (store w1) h) ->
     wp (asem C) inv rely t (k r) w1 Q) ->
  wp (asem C) inv rely t (bind (os_call Lease.read) k) w Q.
Proof using Type.
  intros H. apply (wp_os (OGet Lease.PATH) (fun r => bind (lift _ (match r with
    GetOk b v => match Lease.decode b with Ok l => Ret (Ok (Some (Held l v))) | Err e => Ret (Err e) end
    | GetNotFound => Ret (Ok None) | GetErr e => Ret (Err e) end)) k)).
  intros w1 r w2 HR [(HL & _) HA] Hs. destruct (get_law _ _ _ _ Hs) as [Hv Hr].
  split; [by eapply Lease.lease_inv_same|]. intros HR2.
  destruct r as [b v| |e]; cbn.
  - destruct (Lease.decode b) as [l|e] eqn:Ed; cbn; apply H; try done.
    intros h [= <-]. exists b. split; [|done]. apply (seen_mono _ _ _ _ _ _ _ _ Hs).
    by apply view_seen.
  - by apply H.
  - by apply H.
Qed.

(** A put the protocol justifies keeps the history. *)
Lemma put_lease_inv s l m b r s' :
  Lease.wf_lease l -> Lease.encode l = Some b -> Lease.justified s l m ->
  osem _ (OPut Lease.PATH b m) s r s' -> Lease.lease_inv s -> Lease.lease_inv s'.
Proof using Type.
  intros Hwf Hb Hj Hs HL. pose proof (Lease.decode_encode _ _ Hwf Hb) as Hd.
  destruct (put_law _ _ _ _ _ _ Hs) as [_ Hr]. destruct r as [v| | |e].
  - destruct Hr. eapply Lease.lease_inv_written; eauto.
  - by eapply Lease.lease_inv_same.
  - by eapply Lease.lease_inv_same.
  - destruct Hr as [?|[? [v ?]]]; [by eapply Lease.lease_inv_same|].
    eapply Lease.lease_inv_written; eauto.
Qed.

Lemma wp_lease_put l m k w Q :
  Lease.node l = t.1 -> u64 (Lease.epoch l) -> u64 (Lease.expires_ms l) ->
  Lease.justified (store w) l m ->
  (forall w1 r, rely t w w1 -> (forall h, r = Ok (Some h) -> mine w1 h) ->
     wp (asem C) inv rely t (k r) w1 Q) ->
  wp (asem C) inv rely t (bind (os_call (Lease.put l m)) k) w Q.
Proof using Ht.
  intros Hn He Hx Hj H. unfold Lease.put. destruct (Lease.encode l) as [b|] eqn:Eb; [|by apply H].
  assert (Hwf : Lease.wf_lease l).
  { split; [by eapply Lease.encode_some|]. rewrite Hn. done. }
  apply (wp_os (OPut Lease.PATH b m) (fun r => k match r with
      | PutOk v => Ok (Some (Held l v))
      | PutAlreadyExists | PutPrecondition => Ok None
      | PutErr e => Err e end)).
  intros w1 r w2 HR [(HL & _) HA] Hs. split.
  - eapply put_lease_inv; [exact Hwf|exact Eb| |exact Hs|exact HL].
    eapply Lease.justified_grows; [eapply rely_grows, HR|done].
  - intros HR2. destruct (put_law _ _ _ _ _ _ Hs) as [_ Hr].
    apply H; [done|]. destruct r; intros h [= <-]. split; [|done]. exists b.
    split; [apply view_seen, Hr|by apply Lease.decode_encode].
Qed.

Lemma u64_add_u64 a b : u64 (u64_add a b).
Proof using Type. unfold u64, u64_add, wrap64, u64_max. pose proof (Z.mod_pos_bound (a + b) (2 ^ 64)). lia. Qed.

Lemma knows_u64 w h : Lease.knows (store w) h -> u64 (Lease.epoch (held_lease h)).
Proof using Type. intros (b & _ & Hd). by apply Lease.decode_wf in Hd as (_ & ? & _). Qed.

Lemma wp_lease_take now cur k w Q :
  (forall h, cur = Some h -> Lease.knows (store w) h) ->
  (forall w1 r, rely t w w1 -> (forall h, r = Ok (Some h) -> mine w1 h) ->
     wp (asem C) inv rely t (k r) w1 Q) ->
  wp (asem C) inv rely t (bind (os_call (Lease.take t.1 now cur)) k) w Q.
Proof using Ht.
  intros Hc H. unfold Lease.take, Lease.take_mode. destruct cur as [c|].
  - destruct (_ && _); [by apply H|]. apply wp_lease_put; cbn; auto using u64_add_u64.
    exists (held_lease c). split; [by apply Hc|by left].
  - apply wp_lease_put; cbn; auto using u64_add_u64. unfold u64, u64_max; lia.
Qed.

Lemma wp_lease_renew h now k w Q :
  mine w h ->
  (forall w1 r, rely t w w1 -> (forall h, r = Ok (Some h) -> mine w1 h) ->
     wp (asem C) inv rely t (k r) w1 Q) ->
  wp (asem C) inv rely t (bind (os_call (Lease.renew h now)) k) w Q.
Proof using Ht.
  intros [Hk Hn] H. apply wp_lease_put; cbn; eauto using u64_add_u64, knows_u64.
Qed.

Lemma wp_lease_release h k w Q :
  mine w h ->
  (forall w1 r, rely t w w1 -> wp (asem C) inv rely t (k r) w1 Q) ->
  wp (asem C) inv rely t (bind (os_call (Lease.release h)) k) w Q.
Proof using Ht.
  intros [Hk Hn] H. apply wp_lease_put; cbn; eauto using knows_u64.
  unfold u64, u64_max; lia.
Qed.
End lease_rules.

(** *** The operations, under the lock and outside it *)
Section operations.
Context (t : tid) (Ht : utf8_valid t.1 = true).
Local Abbreviation WP p w Q := (wp (asem C) inv rely t p w Q).

(** What survives even this task's own changes to the locked fields. *)
Definition later (w w' : W) : Prop :=
  Lease.grows (store w) (store w') /\
  forall n, fixed_fields (apps w' n) = fixed_fields (apps w n).

#[global] Instance later_preorder : PreOrder later.
Proof using Type.
  split; [by split|]. intros a b c [G1 F1] [G2 F2]. split; [by etrans|].
  intros n. by rewrite F2.
Qed.

Lemma rely_later w w' : rely t w w' -> later w w'.
Proof using Type. intros (? & ? & _). by split. Qed.

Lemma set_app_later f w :
  fixed_fields (f (apps w t.1)) = fixed_fields (apps w t.1) ->
  later w (set_app t.1 (f (apps w t.1)) w).
Proof using Type.
  intros Hf. split; [done|]. intros n. destruct (decide (t.1 = n)) as [<-|Hn];
    [by rewrite set_app_eq|by rewrite set_app_ne].
Qed.

Lemma mine_later w w' h : later w w' -> mine t w h -> mine t w' h.
Proof using Type. intros [Hg _] [Hk Hn]. split; [by eapply Lease.was_grows|done]. Qed.

(** The map is open for writing, if there is one to open. *)
Definition opened (w : W) : Prop :=
  os_present (apps w t.1) = true -> map_role (apps w t.1) = Writer.

Definition unlit (w : W) : Prop := leader_epoch (apps w t.1) = 0.

Lemma rely_opened w w' : rely t w w' -> has_lock t w -> opened w -> opened w'.
Proof using Type.
  intros (_ & Hf & _ & HL) Hl Ho Hp. destruct (HL Hl) as (_ & [= -> _ _] & _). apply Ho.
  by pose proof (Hf t.1) as [= _ <-].
Qed.

Lemma rely_unlit w w' : rely t w w' -> has_lock t w -> unlit w -> unlit w'.
Proof using Type.
  intros (_ & _ & _ & HL) Hl. unfold unlit. by destruct (HL Hl) as (_ & [= _ -> _] & _).
Qed.

Lemma set_app_lock a w : has_lock t w -> has_lock t (set_app t.1 a w).
Proof using Type. done. Qed.

(** Standing down keeps the invariant: the epoch goes before the writer does. *)
Lemma wp_map_demote w Q :
  has_lock t w -> unlit w -> (forall w1, has_lock t w1 -> Q tt w1) -> WP map_demote w Q.
Proof using Type.
  intros Hl Hu HQ. unfold map_demote. apply wp_load. intros w1 HR1 _.
  pose proof (rely_lock _ _ _ HR1 Hl) as Hl1. pose proof (rely_unlit _ _ HR1 Hl Hu) as Hu1.
  destruct (negb _); [by apply HQ|]. apply wp_load. intros w2 HR2 _.
  pose proof (rely_lock _ _ _ HR2 Hl1) as Hl2. pose proof (rely_unlit _ _ HR2 Hl1 Hu1) as Hu2.
  destruct (negb _); [by apply HQ|]. apply wp_modify_locked; [done|done| |].
  - intros w3 HR3 HI3. pose proof (rely_unlit _ _ HR3 Hl2 Hu2) as Hu3.
    apply inv_set_app; [apply HI3| |done]. cbn. intros _ []. exact Hu3.
  - intros w3 HR3 HI3. apply wp_env; [by cbn|]. intros _ w4 HR4 _. apply HQ.
    eapply rely_lock; [exact HR4|]. apply set_app_lock. by eapply rely_lock.
Qed.

Lemma wp_demote_locked w Q :
  has_lock t w -> (forall w1, has_lock t w1 -> Q tt w1) -> WP demote_locked w Q.
Proof using Type.
  intros Hl HQ. unfold demote_locked. apply wp_load. intros w1 HR1 _.
  pose proof (rely_lock _ _ _ HR1 Hl) as Hl1. destruct (negb _); [by apply HQ|].
  apply wp_modify_locked; [done|done| |].
  { intros w2 HR2 HI2. by apply inv_set_app; [apply HI2|cbn; intros _ []|]. }
  intros w2 HR2 HI2. pose proof (rely_lock _ _ _ HR2 Hl1) as Hl2.
  apply wp_modify_locked; [done|done| |].
  { intros w3 HR3 HI3. apply inv_set_app; [apply HI3| |done]. cbn. intros Hp He.
    destruct HI3 as [_ HA]. by apply HA. }
  intros w3 HR3 HI3. pose proof (rely_lock _ _ _ HR3 Hl2) as Hl3.
  assert (Hu3 : unlit w3).
  { eapply rely_unlit; [exact HR3|done|]. unfold unlit. by rewrite set_app_eq. }
  apply wp_modify; [done|done|]. intros w4 HR4 HI4.
  assert (Hu4 : unlit w4).
  { eapply rely_unlit; [exact HR4|done|]. unfold unlit. by rewrite set_app_eq. }
  apply wp_map_demote; [by eapply rely_lock|done|done].
Qed.

Lemma wp_demote w Q : (forall w1, Q tt w1) -> WP demote w Q.
Proof using Type.
  intros HQ. apply wp_locked. intros w1 _ _ Hl _. apply wp_demote_locked; auto.
Qed.

(** One poll of the opening. *)
Definition polled (w : W) (r : opening * poll (result unit)) (w' : W) : Prop :=
  later w w' /\ has_lock t w' /\
  (r.1 = ORetiring \/ r.2 = Ready (Ok tt) -> opened w').

Lemma wp_poll_retiring w0 w :
  later w0 w -> has_lock t w -> opened w -> WP poll_retiring w (polled w0).
Proof using Type.
  intros Hlt Hl Ho. unfold poll_retiring. apply wp_env; [by cbn|]. intros x w1 HR _.
  assert (forall r, polled w0 r w1).
  { intros r. split; [etrans; [exact Hlt|by apply rely_later]|].
    split; [by eapply rely_lock|]. intros _. by eapply rely_opened. }
  destruct x; by cbn.
Qed.

Lemma wp_poll_building w0 w :
  later w0 w -> has_lock t w -> WP poll_building w (polled w0).
Proof using Type.
  intros Hlt Hl. unfold poll_building. apply wp_open; [done|].
  intros x w1 w1' HR1 _ Ha Hk Hst.
  assert (Hl1 : has_lock t w1').
  { unfold has_lock. rewrite Hk. eapply rely_lock; [exact HR1|done]. }
  assert (Hlt1 : later w0 w1').
  { destruct Hlt as [G F], HR1 as (G1 & F1 & _). split.
    - rewrite Hst. by etrans.
    - intros n. by rewrite Ha, F1. }
  destruct x as [|[[]|e]]; cbn [wp].
  - split; [done|]. split; [done|]. by intros [|].
  - apply wp_modify_locked; [done|done| |].
    + intros w2 HR2 HI2. apply inv_set_app; [apply HI2| |done]. cbn. intros Hp He.
      split; [done|]. destruct HI2 as [_ HA]. by apply HA.
    + intros w2 HR2 HI2. apply wp_poll_retiring.
      * transitivity w1'; [exact Hlt1|]. transitivity w2; [by apply rely_later|].
        by apply (set_app_later (set_role Writer)).
      * apply set_app_lock. by eapply rely_lock.
      * unfold opened. by rewrite set_app_eq.
  - split; [done|]. split; [done|]. by intros [|].
Qed.

Lemma wp_poll_open st w :
  has_lock t w -> (st = ORetiring -> opened w) -> WP (poll_open st) w (polled w).
Proof using Type.
  intros Hl Ho. destruct st; cbn [poll_open].
  - apply wp_load. intros w1 HR1 _. pose proof (rely_lock _ _ _ HR1 Hl) as Hl1.
    destruct (os_present (apps w1 t.1)) eqn:Ep; cbn [negb].
    + apply wp_load. intros w2 HR2 _. pose proof (rely_lock _ _ _ HR2 Hl1) as Hl2.
      assert (later w w2) by (etrans; by apply rely_later).
      unfold is_writer. case_bool_decide as Hw; cbn [wp]; [|by apply wp_poll_building].
      split; [done|]. split; [done|]. by intros _ _.
    + cbn. split; [by apply rely_later|]. split; [done|]. intros _. unfold opened.
      by rewrite Ep.
  - by apply wp_poll_building.
  - apply wp_poll_retiring; auto. reflexivity.
Qed.

(** The wait of [promote] hands back a lease of ours with the map open, or fails. *)
Definition waited (w0 : W) (r : result (option (held V))) (w' : W) : Prop :=
  later w0 w' /\ has_lock t w' /\
  forall h, r = Ok (Some h) -> mine t w' h /\ opened w'.

Lemma wp_promote_wait fuel : forall st cur w0 w,
  later w0 w -> has_lock t w -> (st = ORetiring -> opened w) -> mine t w cur ->
  WP (promote_wait fuel st cur) w (waited w0).
Proof using Ht.
  induction fuel as [|fuel IH]; intros st cur w0 w Hlt Hl Ho Hm; [by intros w1 x w2 _ _ []|].
  cbn [promote_wait]. apply wp_bind. eapply wp_mono; [by apply wp_poll_open|].
  intros [st1 r] w1 (Hlt1 & Hl1 & Ho1).
  assert (Hlt01 : later w0 w1) by (by etrans).
  pose proof (mine_later _ _ _ Hlt1 Hm) as Hm1. cbn [fst snd] in Ho1.
  destruct r as [|[[]|e]]; cbn [wp]; [|split; [done|]; split; [done|]..].
  - apply wp_load. intros w2 HR2 _.
    assert (Hlt02 : later w0 w2) by (etrans; [exact Hlt01|by apply rely_later]).
    pose proof (rely_lock _ _ _ HR2 Hl1) as Hl2. pose proof (mine_rely _ _ _ _ HR2 Hm1) as Hm2.
    assert (Ho2 : st1 = ORetiring -> opened w2) by (intros Hs; eapply rely_opened; eauto).
    destruct (negb _); [by apply IH|]. apply wp_now. intros w3 z HR3 _ _.
    apply wp_lease_renew; [done|by eapply mine_rely|]. intros w4 r HR4 Hr.
    assert (HR24 : rely t w2 w4) by (by etrans).
    assert (Hlt04 : later w0 w4) by (etrans; [exact Hlt02|by apply rely_later]).
    pose proof (rely_lock _ _ _ HR24 Hl2) as Hl4.
    destruct r as [[h|]|e]; cbn [wp]; [|by split; [done|]; split; [done|]; intros h [=]..].
    apply IH; auto. intros Hs. eapply rely_opened; eauto.
  - intros h [= <-]. auto.
  - done.
Qed.

Lemma wp_note_live l k w (Q : result unit -> W -> Prop) :
  (forall w1, rely t w w1 -> WP (k tt) w1 Q) -> WP (bind (note_live l) k) w Q.
Proof using Type.
  intros H. unfold note_live. apply wp_modify; [done|done|]. intros w1 HR1 _.
  apply wp_now. intros w2 z HR2 _ _. apply wp_modify; [done|done|]. intros w3 HR3 _.
  apply wp_modify; [done|done|]. intros w4 HR4 _. apply H. by etrans; [|etrans; [|etrans]].
Qed.

Lemma wp_promote_locked fuel h w :
  has_lock t w -> mine t w h ->
  WP (promote_locked fuel h) w (fun _ w' => has_lock t w').
Proof using Ht.
  intros Hl Hm. unfold promote_locked. apply wp_load. intros w1 HR1 _.
  pose proof (rely_lock _ _ _ HR1 Hl) as Hl1. pose proof (mine_rely _ _ _ _ HR1 Hm) as Hm1.
  destruct (retiring _).
  - apply wp_load. intros w2 HR2 _. pose proof (rely_lock _ _ _ HR2 Hl1) as Hl2.
    pose proof (mine_rely _ _ _ _ HR2 Hm1) as Hm2. destruct (os_present _); [|done].
    apply (wp_lease_release t Ht); [done|]. intros w3 r HR3. by eapply rely_lock.
  - apply wp_bind. eapply wp_mono; [apply (wp_promote_wait fuel OStart h w1 w1); done|].
    intros r w2 (Hlt & Hl2 & Hw). destruct r as [[cur|]|e].
    + destruct (Hw _ eq_refl) as [Hm2 Ho2]. apply wp_modify_locked; [done|done| |].
      { intros w3 HR3 HI3. apply inv_set_app; [apply HI3| |done]. cbn. intros Hp _.
        destruct (mine_rely _ _ _ _ HR3 Hm2) as [Hk Hn].
        split; [by eapply rely_opened|]. by exists (version cur), (held_lease cur). }
      intros w3 HR3 HI3. pose proof (rely_lock _ _ _ HR3 Hl2) as Hl3.
      apply wp_modify_locked; [done|done| |].
      { intros w4 HR4 HI4. apply inv_set_app; [apply HI4| |done]. cbn. intros Hp He.
        destruct HI4 as [_ HA]. by apply HA. }
      intros w4 HR4 _. apply wp_note_live. intros w5 HR5. cbn.
      eapply rely_lock; [exact HR5|]. apply set_app_lock. by eapply rely_lock.
    + apply wp_bind. by apply wp_demote_locked.
    + apply wp_bind. by apply wp_demote_locked.
Qed.

Lemma wp_promote fuel h w : mine t w h -> WP (promote fuel h) w (fun _ _ => True).
Proof using Ht.
  intros Hm. apply wp_locked. intros w1 Hg _ Hl _.
  eapply wp_mono; [apply wp_promote_locked; [done|]|by intros; split].
  destruct Hm. split; [by eapply Lease.was_grows|done].
Qed.

Lemma inv_self_name w : inv w -> self_name (apps w t.1) = t.1.
Proof using Type. intros [_ HA]. apply HA. Qed.

Lemma wp_tick_take fuel now cur w :
  (forall h, cur = Some h -> Lease.knows (store w) h) ->
  WP (tick_take fuel now cur) w (fun _ _ => True).
Proof using Ht.
  intros Hc. unfold tick_take. apply wp_load. intros w1 HR1 HI1. rewrite inv_self_name by done.
  apply (wp_lease_take t Ht).
  - intros h Hh. eapply Lease.was_grows; [by eapply rely_grows|by apply Hc].
  - intros w2 r HR2 Hm. destruct r as [[h|]|e]; [|done..]. by apply wp_promote, Hm.
Qed.

Lemma wp_tick_on fuel now cur w :
  (forall h, cur = Some h -> Lease.knows (store w) h) ->
  WP (tick_on fuel now cur) w (fun _ _ => True).
Proof using Ht.
  intros Hc. unfold tick_on. apply wp_load. intros w1 HR1 HI1. rewrite inv_self_name by done.
  assert (Hc1 : forall h, cur = Some h -> Lease.knows (store w1) h).
  { intros h Hh. eapply Lease.was_grows; [by eapply rely_grows|by apply Hc]. }
  destruct cur as [c|]; [|by apply wp_tick_take].
  case_bool_decide as Hn; cbn [andb]; destruct (Lease.is_expired _ _); cbn [negb];
    try by apply wp_tick_take.
  - apply (wp_lease_renew t Ht); [by split; [apply Hc1|]|]. intros w2 r HR2 Hm.
    destruct r as [[h|]|e]; [|by apply wp_bind, wp_demote|done]. by apply wp_promote, Hm.
  - apply wp_load. intros w2 HR2 _. apply wp_bind.
    destruct (is_leader _); [apply wp_demote; intros w3|cbn [wp]]; by apply wp_note_live.
Qed.

Lemma wp_election_tick fuel w : WP (election_tick fuel) w (fun _ _ => True).
Proof using Ht.
  unfold election_tick. apply wp_load. intros w1 _ _. destruct (negb _); [done|].
  apply wp_load. intros w2 _ _. apply wp_load. intros w3 _ _. destruct (_ || _); [done|].
  apply wp_now. intros w4 z _ _ _. apply wp_load. intros w5 _ _. apply wp_load. intros w6 _ _.
  assert (forall w7, WP (bind_res (os_call Lease.read) (tick_on fuel z)) w7 (fun _ _ => True)).
  { intros w7. apply wp_lease_read. intros w8 r _ Hr. destruct r as [cur|e]; [|done].
    apply wp_tick_on. intros h ->. by apply Hr. }
  apply wp_bind. destruct (_ && _); [by apply wp_demote|by cbn [wp]].
Qed.

Lemma wp_resign_lease w Q : (forall w1, Q tt w1) -> WP resign_lease w Q.
Proof using Ht.
  intros HQ. unfold resign_lease. apply wp_lease_read. intros w1 r HR1 Hr.
  destruct r as [[c|]|e]; [|apply HQ..]. apply wp_load. intros w2 HR2 HI2.
  rewrite inv_self_name by done. case_bool_decide as Hn; [|apply HQ].
  apply (wp_lease_release t Ht); [|by intros; apply HQ].
  split; [|done]. eapply Lease.was_grows; [by eapply rely_grows|by apply Hr].
Qed.

Lemma wp_resign w : WP resign w (fun _ _ => True).
Proof using Ht.
  unfold resign. apply wp_modify; [done|done|]. intros w1 _ _. apply wp_load. intros w2 _ _.
  apply wp_load. intros w3 _ _. apply wp_bind.
  destruct (_ && _); [apply wp_resign_lease; intros|cbn [wp]]; by apply wp_demote.
Qed.

Lemma wp_begin_draining w : WP begin_draining w (fun _ _ => True).
Proof using Type.
  assert (WP (bind (modify (set_draining true)) (fun _ => Ret tt)) w (fun _ _ => True)) as H
    by (by apply wp_modify).
  intros w1 x w2 HR HI Hs. cbn in Hs. injection Hs as -> ->. exact (H w1 tt _ HR HI eq_refl).
Qed.
End operations.

(** The tasks of the election are safe in any fleet, whatever else runs in it. *)
Lemma fleet_entry_safe t p w : fleet_entry t p -> wp (asem C) inv rely t p w (fun _ _ => True).
Proof using Type.
  intros [Ht He]. destruct He as [fuel| |].
  - apply wp_bind. eapply wp_mono; [by apply wp_election_tick|done].
  - by apply wp_resign.
  - apply wp_bind. eapply wp_mono; [apply wp_begin_draining|done].
Qed.

Lemma fresh_inv w : fresh w -> MI (mapdb w) -> inv w.
Proof using Type.
  intros (Hs & Hh & Ha) HM. split.
  - split; [intros _; split|split; [split|done]].
    + unfold Lease.history. destruct (view _ _) as [[b v]|] eqn:E; [|done].
      exfalso. eapply Hs, view_seen, E.
    + intros v l v' l' (b & Hb & _). exfalso. by eapply Hs.
    + intros n h. by rewrite Hh.
    + intros n m h. by rewrite Hh.
  - intros n. destruct (Ha n) as [solo E]. split; [by rewrite E|].
    intros [Hp He]. destruct solo; rewrite E in *; done.
Qed.
End fleet.
