(* ===== verification/Beats.v ===== *)
(** * Beats: one beat of the election on its own, [crates/app/src/election.rs]

    What [election_tick] does when nobody runs in between, on the store in memory: an expired
    leader stands down even when the store is out of reach, an absent or expired lease is taken
    under the next epoch, a live lease of somebody else's is followed.  [promote_can_leave_a_writer]
    is the one run that does not do what its comment says. *)

From S2P Require Import Prelude Text Prog ObjStore App Election.
From S2P Require Lease.
Local Open Scope string_scope.
Local Open Scope Z_scope.

Section beat.
Context (t : tid).
Implicit Types s : sim.

Definition down_app (a : app) : app :=
  let a := set_leader None (set_held_expires 0 (set_leader_epoch 0 a)) in
  if os_present a && is_writer a then set_role Reader a else a.

(** Everything but the node's own record and the unused openings. *)
Definition same_env (s s' : sim) : Prop :=
  store (sworld s') = store (sworld s) /\ snow s' = snow s /\ sdown s' = sdown s /\
  sopen s' = sopen s /\ (sretire s = [Ready tt] -> sretire s' = [Ready tt]).

Lemma sim_demote_locked s :
  exists s', sim_run t demote_locked s = Some (tt, s') /\ same_env s s' /\
    locks (sworld s') = locks (sworld s) /\
    me t s' = if is_leader (me t s) then down_app (me t s) else me t s.
Proof.
  unfold demote_locked. rewrite sim_load. destruct (is_leader (me t s)); cbn [negb].
  2:{ exists s. by rewrite sim_ret. }
  rewrite !sim_modify. unfold map_demote. rewrite sim_load, !me_upd.
  change (os_present (set_leader None (set_held_expires 0 (set_leader_epoch 0 (me t s)))))
    with (os_present (me t s)).
  unfold down_app. cbv zeta.
  change (os_present (set_leader None (set_held_expires 0 (set_leader_epoch 0 (me t s)))))
    with (os_present (me t s)).
  destruct (os_present (me t s)); cbn [negb andb].
  2:{ rewrite sim_ret. eexists. split; [done|]. by rewrite !me_upd. }
  rewrite sim_load, !me_upd.
  destruct (is_writer _); cbn [negb].
  2:{ rewrite sim_ret. eexists. split; [done|]. by rewrite !me_upd. }
  rewrite sim_modify. cbn. destruct (sretire s) as [|p [|p2 r]] eqn:Er; eexists; (split; [reflexivity|]);
    (split; [by split_and!; cbn; rewrite ?Er|]); (split; [done|]);
    unfold me; cbn; by rewrite !fn_lookup_insert.
Qed.

Lemma sim_demote s :
  lock_free t s ->
  exists s', sim_run t demote s = Some (tt, s') /\ same_env s s' /\ lock_free t s' /\
    me t s' = if is_leader (me t s) then down_app (me t s) else me t s.
Proof.
  intros Hl. unfold demote. rewrite (sim_lock t _ s Hl).
  destruct (sim_demote_locked (set_lock t (Some t) s)) as (s' & -> & He & Hk & Hm). cbn.
  eexists. split; [reflexivity|]. split; [done|]. split; [apply lock_free_unlock|done].
Qed.

Lemma down_app_fields a :
  is_leader (down_app a) = false /\ self_name (down_app a) = self_name a /\
  os_present (down_app a) = os_present a /\ retiring (down_app a) = retiring a /\
  draining (down_app a) = draining a /\ leader (down_app a) = None /\
  (os_present a = true -> map_role (down_app a) <> Writer).
Proof.
  unfold down_app, is_writer. cbn. case_bool_decide as Hw; destruct (os_present a) eqn:Ho; cbn;
    split_and!; congruence || done.
Qed.

(** *** The start of a beat *)
Record ready (s : sim) (z : Z) : Prop := {
  ready_os : os_present (me t s) = true;
  ready_retiring : retiring (me t s) = false;
  ready_draining : draining (me t s) = false;
  ready_now : snow s = [z];
  ready_u64 : u64 z;
  ready_lock : lock_free t s;
  ready_retire : sretire s = [Ready tt];
}.

Definition lapsed (s : sim) (z : Z) : bool :=
  is_leader (me t s) && (held_expires_ms (me t s) <=? z).

(** The beat up to its read of the lease. *)
Lemma sim_tick_head fuel s z :
  ready s z ->
  exists s1, sim_run t (election_tick fuel) s =
      sim_run t (bind_res (os_call Lease.read) (tick_on fuel z)) s1 /\
    same_env s s1 /\ ready s1 z /\
    me t s1 = if lapsed s z then down_app (me t s) else me t s.
Proof.
  intros [Ho Hr Hd Hn Hu Hl Hre]. unfold election_tick.
  rewrite sim_load, Ho. cbn [negb]. rewrite !sim_load, Hr, Hd. cbn [orb].
  rewrite (sim_now t z) by done. rewrite !sim_load.
  change (is_leader (me t s) && (held_expires_ms (me t s) <=? z)) with (lapsed s z).
  destruct (lapsed s z) eqn:El.
  - rewrite sim_bind. destruct (sim_demote s Hl) as (s1 & -> & He & Hl1 & Hm). cbn [mbind option_bind].
    exists s1. split; [done|]. unfold lapsed in El. bools. rewrite H in Hm.
    split; [done|]. split; [|done].
    destruct He as (Hs1 & Hs2 & Hs3 & Hs4 & Hs5).
    pose proof (down_app_fields (me t s)) as (? & ? & ? & ? & ? & ? & ?).
    split; rewrite ?Hm; try congruence; auto.
  - exists s. done.
Qed.

Lemma sim_read_down k s :
  sdown s = true ->
  sim_run t (bind_res (os_call Lease.read) k) s = Some (Err (EMsg "outage") : result unit, s).
Proof. intros Hd. cbn. by rewrite Hd. Qed.

(** A leader whose own lease has run out stops leading before it asks the store anything, so
    an unreachable store cannot keep it granting. *)
Theorem lapsed_leader_stands_down fuel s z :
  ready s z -> sdown s = true -> is_leader (me t s) = true -> held_expires_ms (me t s) <= z ->
  exists e s', sim_run t (election_tick fuel) s = Some (Err e, s') /\
    is_leader (me t s') = false /\ map_role (me t s') <> Writer /\ leader (me t s') = None.
Proof.
  intros Hs Hd Hl Hx. destruct (sim_tick_head fuel s z Hs) as (s1 & -> & He & _ & Hm).
  rewrite sim_read_down by (by destruct He as (_ & _ & -> & _)).
  eexists _, s1. split; [done|]. unfold lapsed in Hm. rewrite Hl, (proj2 (Z.leb_le _ _) Hx) in Hm.
  rewrite Hm. pose proof (down_app_fields (me t s)) as (? & _ & _ & _ & _ & ? & Hw).
  split_and!; auto. apply Hw, Hs.
Qed.

(** *** Reading, following, taking *)
Definition lease_at (s : sim) : option (string * nat) := MemStore.mview (store (sworld s)) Lease.PATH.

Lemma sim_read_up {A} (k : option (Lease.held nat) -> prog (app_eff nat) (result A)) s :
  sdown s = false ->
  sim_run t (bind_res (os_call Lease.read) k) s =
    match lease_at s with
    | None => sim_run t (k None) s
    | Some (b, v) =>
      match Lease.decode b with
      | Ok l => sim_run t (k (Some (Lease.Held l v))) s
      | Err e => Some (Err e, s)
      end
    end.
Proof.
  intros Hd. unfold lease_at. cbn [bind_res bind os_call lift Lease.read trigger sim_run]. unfold sim_exec.
  rewrite Hd. cbn. destruct s as [w now op re dn]; cbn in *. subst dn. destruct w as [st ap lk]; cbn.
  destruct (MemStore.mview st Lease.PATH) as [[b v]|]; [|done]. by destruct (Lease.decode b).
Qed.

Lemma sim_put_up {A} l m (k : option (Lease.held nat) -> prog (app_eff nat) (result A)) s b :
  sdown s = false -> Lease.encode l = Some b -> MemStore.admits m (lease_at s) = None ->
  sim_run t (bind_res (os_call (Lease.put l m)) k) s =
    sim_run t (k (Some (Lease.Held l (List.length (MemStore.log (store (sworld s)))))))
      (set_store (MemStore.mput Lease.PATH b (store (sworld s))) s).
Proof.
  intros Hd Hb Ha. unfold Lease.put. rewrite Hb.
  unfold bind_res. cbn [bind os_call lift trigger sim_run]. unfold sim_exec. rewrite Hd.
  unfold exec, MemStore.mem_exec. unfold lease_at in Ha. rewrite Ha. cbn.
  done.
Qed.

Lemma sim_note_live {A} l (k : unit -> prog (app_eff nat) A) s z :
  snow s = [z] -> u64 z ->
  sim_run t (bind (note_live l) k) s =
    sim_run t (k tt) (upd t (set_lease_expires (Lease.expires_ms l)) (upd t (set_lease_seen z)
      (upd t (set_leader (Some (Lease.node l))) s))).
Proof.
  intros Hn Hz. rewrite sim_bind. unfold note_live. rewrite sim_modify, (sim_now t z), sim_modify by done.
  reflexivity.
Qed.

(** The record of a node that has just been promoted with [h] at [z]. *)
Definition lit (h : Lease.held nat) (z : Z) (a : app) : app :=
  let l := Lease.held_lease h in
  App (self_name a) (os_present a) Writer (Some (Lease.node l)) (Lease.epoch l) z
      (Lease.expires_ms l) (Lease.expires_ms l) (retiring a) (draining a).

Lemma sim_promote fuel h s z :
  ready s z -> sopen s = [Ready (Ok tt)] ->
  exists s', sim_run t (promote (Datatypes.S fuel) h) s = Some (Ok tt, s') /\
    store (sworld s') = store (sworld s) /\ me t s' = lit h z (me t s).
Proof.
  intros [Ho Hr Hd Hn Hu Hl Hre] Hop. unfold promote. rewrite (sim_lock t _ s Hl).
  unfold promote_locked. rewrite sim_load, me_set_lock, Hr. cbn [promote_wait poll_open].
  rewrite sim_bind, sim_bind, sim_load, me_set_lock, Ho. cbn [negb].
  rewrite sim_load, me_set_lock. unfold is_writer. case_bool_decide as Hw.
  - rewrite sim_ret. cbn [mbind option_bind]. rewrite sim_ret. cbn [mbind option_bind].
    rewrite !sim_modify, (sim_note_live _ _ _ z), sim_ret by done. cbn [mbind option_bind].
    eexists. split; [done|]. split; [done|]. rewrite me_set_lock, !me_upd, me_set_lock.
    destruct (me t s); cbn in *. by subst.
  - cbn. rewrite Hop; cbn. rewrite Hre; cbn. rewrite Hn; cbn. destruct Hu as [H1 H2].
    rewrite (proj2 (Z.leb_le _ _) H1), (proj2 (Z.leb_le _ _) H2). cbn.
    eexists. split; [reflexivity|]. split; [done|]. unfold me; cbn. by rewrite !fn_lookup_insert.
Qed.

(** A beat on a store that answers, when nobody holds a live lease, takes it under the next
    epoch and leads with the map open; the lease it leaves in the store is the one it leads
    under. *)
Theorem idle_lease_is_taken fuel s z cur :
  ready s z -> sdown s = false -> sopen s = [Ready (Ok tt)] ->
  contains_char nl (self_name (me t s)) = false ->
  match lease_at s with
  | None => cur = None
  | Some (b, _) => exists l, Lease.decode b = Ok l /\ Lease.is_expired l z = true /\ cur = Some l
  end ->
  let ep := match cur with None => 1 | Some l => u64_add (Lease.epoch l) 1 end in
  let l' := Lease.Lease (self_name (me t s)) ep (u64_add z Lease.LEADER_TTL) in
  exists s' b v, sim_run t (election_tick (Datatypes.S fuel)) s = Some (Ok tt, s') /\
    leader_epoch (me t s') = ep /\ map_role (me t s') = Writer /\
    held_expires_ms (me t s') = Lease.expires_ms l' /\ leader (me t s') = Some (Lease.node l') /\
    Lease.encode l' = Some b /\ lease_at s' = Some (b, v).
Proof.
  intros Hs Hd Hop Hnl Hcur ep l'.
  destruct (sim_tick_head (Datatypes.S fuel) s z Hs) as (s1 & -> & (Hst & _ & Hdn & Hop1 & _) & Hs1 & Hm).
  assert (Hself : self_name (me t s1) = self_name (me t s)).
  { rewrite Hm. destruct (lapsed s z); [|done]. by destruct (down_app_fields (me t s)) as (_ & -> & _). }
  assert (Hb : exists b, Lease.encode l' = Some b) by (unfold Lease.encode; cbn; rewrite Hnl; eauto).
  destruct Hb as [b Hb].
  assert (Htake : forall c,
    Lease.take_mode (self_name (me t s1)) z c = Some (ep, match c with None => PutCreate
                                   | Some c => PutUpdate (Lease.version c) end) ->
    MemStore.admits (match c with None => PutCreate | Some c => PutUpdate (Lease.version c) end)
      (lease_at s1) = None ->
    exists s' b v, sim_run t (tick_take (Datatypes.S fuel) z c) s1 = Some (Ok tt, s') /\
      leader_epoch (me t s') = ep /\ map_role (me t s') = Writer /\
      held_expires_ms (me t s') = Lease.expires_ms l' /\ leader (me t s') = Some (Lease.node l') /\
      Lease.encode l' = Some b /\ lease_at s' = Some (b, v)).
  { intros c Hmode Had. unfold tick_take, Lease.take. rewrite sim_load, Hmode. cbv beta iota zeta.
    rewrite (sim_put_up _ _ _ _ b); [|congruence|by rewrite Hself|done].
    set (h := Lease.Held _ _). set (s2 := set_store _ s1).
    destruct (sim_promote fuel h s2 z) as (s' & -> & Hst' & Hm').
    { by destruct Hs1; split. }
    { cbn. congruence. }
    eexists _, b, _. split; [reflexivity|]. rewrite Hm'. unfold lit. subst h; cbn. rewrite Hself.
    split_and!; try done. unfold lease_at. rewrite Hst'. cbn.
    rewrite MemStore.mput_view, decide_True; done. }
  rewrite sim_read_up by congruence.
  replace (lease_at s1) with (lease_at s) in * by (unfold lease_at; by rewrite Hst).
  destruct (lease_at s) as [[b0 v]|] eqn:Ev.
  - destruct Hcur as (l & -> & Hx & ->). unfold tick_on. rewrite sim_load. cbn [Lease.held_lease].
    rewrite Hx. rewrite andb_false_r. cbn [negb]. apply Htake; cbn.
    + by rewrite Hx.
    + by rewrite decide_True.
  - subst cur. unfold tick_on. rewrite sim_load. by apply Htake.
Qed.

(** A beat that reads a live lease of somebody else's follows it, and stops leading. *)
Theorem foreign_lease_is_followed fuel s z l b v :
  ready s z -> sdown s = false -> lease_at s = Some (b, v) -> Lease.decode b = Ok l ->
  Lease.is_expired l z = false -> Lease.node l <> self_name (me t s) ->
  exists s', sim_run t (election_tick fuel) s = Some (Ok tt, s') /\
    store (sworld s') = store (sworld s) /\ is_leader (me t s') = false /\
    leader (me t s') = Some (Lease.node l) /\ lease_seen_ms (me t s') = z /\
    lease_expires_ms (me t s') = Lease.expires_ms l /\
    (is_leader (me t s) = true -> map_role (me t s') <> Writer).
Proof.
  intros Hs Hd Hv Hdec Hx Hne.
  destruct (sim_tick_head fuel s z Hs) as (s1 & -> & (Hst & _ & Hdn & _ & _) & Hs1 & Hm).
  pose proof (down_app_fields (me t s)) as (Hdl & Hdn' & _ & _ & _ & _ & Hdw).
  assert (Hself : self_name (me t s1) = self_name (me t s)).
  { rewrite Hm. by destruct (lapsed s z). }
  rewrite sim_read_up by congruence.
  replace (lease_at s1) with (lease_at s) by (unfold lease_at; by rewrite Hst).
  rewrite Hv, Hdec. unfold tick_on. rewrite sim_load. cbn [Lease.held_lease].
  rewrite Hself, bool_decide_eq_false_2, Hx by done. cbn [andb negb]. rewrite sim_load, sim_bind.
  assert (exists s2, sim_run t (if is_leader (me t s1) then demote else Ret tt) s1 = Some (tt, s2) /\
      snow s2 = [z] /\ store (sworld s2) = store (sworld s) /\ is_leader (me t s2) = false /\
      (is_leader (me t s) = true -> map_role (me t s2) <> Writer)) as (s2 & -> & Hn2 & Hst2 & Hl2 & Hw2).
  { destruct (is_leader (me t s1)) eqn:El.
    - destruct (sim_demote s1 (ready_lock _ _ Hs1)) as (s2 & -> & (Hst2 & Hn2 & _) & _ & Hm2).
      rewrite El in Hm2. exists s2. split; [done|]. rewrite Hm2, Hn2, Hst2.
      pose proof (down_app_fields (me t s1)) as (Hd2 & _ & _ & _ & _ & _ & Hw2).
      split_and!; [apply Hs1|congruence|done|]. intros _. apply Hw2, Hs1.
    - exists s1. rewrite sim_ret. split_and!; try done; [apply Hs1|]. intros Hl.
      rewrite Hm in El |- *. destruct (lapsed s z); [apply Hdw, Hs|congruence]. }
  cbn [mbind option_bind]. rewrite (sim_note_live _ _ _ z), sim_ret by (done || apply Hs).
  eexists. split; [reflexivity|]. rewrite !me_upd. split_and!; done.
Qed.

End beat.

(** ** The runs the theorems apply to *)

(** A new fleet on the store in memory: the clock stands at [z], the map opens at its first poll. *)
Definition sim_start (z : Z) (d : gmap string string) : sim :=
  Sim (World (MemStore.empty 0) (fun n => app_new n false) (fun _ => None) d 0 (fun _ => None))
      [z] [Ready (Ok tt)] [Ready tt] false.

Definition sim_after {A} (t : tid) (p : prog (app_eff nat) A) (s : sim) : sim :=
  match sim_run t p s with Some (_, s') => s' | None => s end.

Definition one_tick : prog (app_eff nat) unit := let! _ := election_tick 1 in Ret tt.

(** Node [a] has ticked once, at 0. *)
Definition sim_led : sim := sim_after ("a", O) one_tick (sim_start 0 ∅).

Lemma sim_after_run (t : tid) (p : prog (app_eff nat) unit) s :
  is_some (sim_run t p s) = true -> sim_run t p s = Some (tt, sim_after t p s).
Proof. unfold sim_after. by destruct (sim_run t p s) as [[[] s']|]. Qed.

(** [n] leads at epoch 1 until 10000 and the clock stands at [z]. *)
Definition sim_at (z : Z) (down : bool) (s : sim) : sim :=
  Sim (sworld s) [z] [Ready (Ok tt)] [Ready tt] down.

Lemma sim_led_ready z down n : u64 z -> n = "a" \/ n = "b" ->
  ready (n, O) (sim_at z down sim_led) z.
Proof. intros Hz [-> | ->]; split; try exact Hz; vm_compute; reflexivity. Qed.

Definition a_lease : string := "a" +:+ String nl ("1" +:+ String nl "10000").

Lemma sim_led_lease z down : lease_at (sim_at z down sim_led) = Some (a_lease, O).
Proof. vm_compute. reflexivity. Qed.

Lemma sim_led_name n z down : n = "a" \/ n = "b" ->
  self_name (me (n, O) (sim_at z down sim_led)) = n.
Proof. intros [-> | ->]; vm_compute; reflexivity. Qed.

Lemma lapsed_leader_stands_down_witness :
  exists e s', sim_run ("a", O) (election_tick 1) (sim_at 10000 true sim_led) = Some (Err e, s') /\
    is_leader (me ("a", O) s') = false /\ map_role (me ("a", O) s') <> Writer /\
    leader (me ("a", O) s') = None.
Proof.
  apply (lapsed_leader_stands_down ("a", O) 1 (sim_at 10000 true sim_led) 10000).
  - apply sim_led_ready; [by vm_compute|by left].
  - reflexivity.
  - vm_compute. reflexivity.
  - vm_compute. discriminate.
Defined.

Lemma idle_lease_is_taken_witness :
  exists s' b v, sim_run ("b", O) (election_tick 1) (sim_at 10000 false sim_led) = Some (Ok tt, s') /\
    leader_epoch (me ("b", O) s') = 2 /\ map_role (me ("b", O) s') = Writer /\
    held_expires_ms (me ("b", O) s') = 20000 /\ leader (me ("b", O) s') = Some "b" /\
    Lease.encode (Lease.Lease "b" 2 20000) = Some b /\ lease_at s' = Some (b, v).
Proof.
  pose proof (idle_lease_is_taken ("b", O) 0 (sim_at 10000 false sim_led) 10000
           (Some (Lease.Lease "a" 1 10000))) as H.
  rewrite sim_led_lease, (sim_led_name "b") in H by (by right).
  apply H; [|reflexivity..|].
  - apply sim_led_ready; [by vm_compute|by right].
  - exists (Lease.Lease "a" 1 10000). split; [vm_compute; reflexivity|]. by split.
Defined.

Lemma foreign_lease_is_followed_witness :
  exists s', sim_run ("b", O) (election_tick 1) (sim_at 4000 false sim_led) = Some (Ok tt, s') /\
    store (sworld s') = store (sworld (sim_at 4000 false sim_led)) /\ is_leader (me ("b", O) s') = false /\
    leader (me ("b", O) s') = Some "a" /\ lease_seen_ms (me ("b", O) s') = 4000 /\
    lease_expires_ms (me ("b", O) s') = 10000 /\
    (is_leader (me ("b", O) (sim_at 4000 false sim_led)) = true -> map_role (me ("b", O) s') <> Writer).
Proof.
  apply (foreign_lease_is_followed ("b", O) 1 (sim_at 4000 false sim_led) 4000
           (Lease.Lease "a" 1 10000) (a_lease) O).
  - apply sim_led_ready; [by vm_compute|by right].
  - reflexivity.
  - apply sim_led_lease.
  - vm_compute. reflexivity.
  - reflexivity.
  - rewrite sim_led_name by (by right). discriminate.
Defined.

(** ** A promotion that leaves its writer open

    The opening has put the writer in place and waits for the old reader to retire; the renewal
    then fails (here: the store is away).  [demote_locked] finds epoch 0, returns at once, and the
    map stays open for writing on a node that does not lead. *)
Definition stuck_start : sim :=
  Sim (sworld (sim_start 0 ∅)) [0] [Ready (Ok tt)] [Pending] true.

Definition stuck_promotion : prog (app_eff nat) (result unit) :=
  promote 1 (Lease.Held (Lease.Lease "a" 1 10000) O).

Lemma stuck_run :
  option_map (fun r => (is_ok (fst r), map_role (me ("a", O) (snd r)), leader_epoch (me ("a", O) (snd r))))
    (sim_run ("a", O) stuck_promotion stuck_start) = Some (false, Writer, 0).
Proof. vm_compute. reflexivity. Qed.

(** [promote] can return its error with the map's writer open and no epoch published. *)
Theorem promote_can_leave_a_writer :
  exists s', (exists e, sim_run ("a", O) stuck_promotion stuck_start = Some (Err e, s')) /\
    map_role (me ("a", O) s') = Writer /\ is_leader (me ("a", O) s') = false.
Proof.
  pose proof stuck_run as H. destruct (sim_run ("a", O) stuck_promotion stuck_start) as [[[u|e] s']|];
    cbn [option_map fst snd is_ok] in H; [done| |done].
  injection H as Hw He. exists s'. split; [eauto|]. unfold is_leader. by rewrite He.
Qed.
