(* ===== verification/Grants.v ===== *)
(** * Grants: the leader's side of the three messages, [crates/app/src/routing.rs]

    [OwnershipStore]'s reads and writes and [grant_claim], [grant_renew], [grant_release] and
    [prune_once] as programs.  [Section safety] shows that every write one of them makes to the map
    is the effect of one of [Ownership]'s decisions on what the map held, whatever else the fleet
    does meanwhile: the lock keeps this node's other tasks out, the database's fence the other
    nodes. *)

From S2P Require Import Prelude Text Prog ObjStore App Election.
From S2P Require Lease Ownership.
Import Ownership (entry, grant, Granted, HeldBy, mop, OpClaim, OpRenew, OpRelease, OpPrune, key,
  own_map, mstep, mrun, renewals, lost_repos, claim_grant, wf_entry).
Local Open Scope string_scope.
Local Open Scope Z_scope.

Section code.
Context {V : Type}.
Local Abbreviation P := (prog (app_eff V)).

(** [bytes.as_deref().map(Entry::decode).transpose()]. *)
Definition decode_opt (o : option string) : result (option entry) :=
  match o with
  | None => Ok None
  | Some b => let? e := Ownership.decode b in Ok (Some e)
  end.

(** [OwnershipStore::get]. *)
Definition map_get (repo : string) : P (result (option entry)) :=
  let! r := load map_role in
  match r with
  | Writer => let! b := map_call (MGet (key repo)) in Ret (rbind b decode_opt)
  | Reader => let! b := map_call (MFollowGet (key repo)) in Ret (rbind b decode_opt)
  | Solo => Ret (Ok None)
  end.

(** [bounded]: [WRITE_BOUND] passing is the error [is_stalled] recognises. *)
Definition bounded (r : option (result unit)) : result unit :=
  match r with Some r => r | None => Err (EMsg Ownership.STALLED) end.

Definition map_write (b : batch) : P (result unit) :=
  let! r := map_call (MWrite b) in Ret (bounded r).

Definition map_put (repo : string) (e : entry) : P (result unit) :=
  let! r := load map_role in
  match r with
  | Writer =>
    match Ownership.encode e with
    | None => halt
    | Some b => map_write [(key repo, Some b)]
    end
  | Reader => Ret (Err (EMsg "ownership: put on a follower"))
  | Solo => Ret (Ok tt)
  end.

(** The batch of [put_many]; [None] when an entry does not encode. *)
Fixpoint encode_all (l : list (string * entry)) : option batch :=
  match l with
  | [] => Some []
  | (r, e) :: l =>
    b ← Ownership.encode e; l' ← encode_all l; Some ((key r, Some b) :: l')
  end.

Definition put_many (l : list (string * entry)) : P (result unit) :=
  let! r := load map_role in
  match r with
  | Writer =>
    match l with
    | [] => Ret (Ok tt)
    | _ =>
      match encode_all l with
      | None => halt
      | Some b => map_write b
      end
    end
  | Reader => Ret (Err (EMsg "ownership: put on a follower"))
  | Solo => Ret (Ok tt)
  end.

Definition map_delete (repo : string) : P (result unit) :=
  let! r := load map_role in
  match r with
  | Writer => map_write [(key repo, None)]
  | Reader => Ret (Err (EMsg "ownership: delete on a follower"))
  | Solo => Ret (Ok tt)
  end.

(** The rows of [OwnershipStore::all]. *)
Fixpoint decode_rows (l : list (string * string)) : result (list (string * entry)) :=
  match l with
  | [] => Ok []
  | (k, v) :: l =>
    let? k := ok_or (from_utf8 k) (EMsg "ownership key: invalid utf-8") in
    let? repo := ok_or (strip_prefix "own/" k) (EMsg "ownership key: missing own/ prefix") in
    let? e := Ownership.decode v in
    let? l' := decode_rows l in
    Ok ((repo, e) :: l')
  end.

Definition map_all : P (result (list (string * entry))) :=
  let! r := load map_role in
  match r with
  | Writer => let! l := map_call (MScan "own/") in Ret (rbind l decode_rows)
  | Reader => let! l := map_call (MFollowScan "own/") in Ret (rbind l decode_rows)
  | Solo => Ret (Ok [])
  end.

(** [fenced_check]: a fence or a stalled write turned into a demotion. *)
Definition fenced_check {A} (r : result A) : P (result A) :=
  match r with
  | Ok _ => Ret r
  | Err e =>
    (if Ownership.is_fenced e then demote_locked
     else if Ownership.is_stalled e then demote_locked
     else Ret tt) ;;! Ret r
  end.

Definition checked {A} (p : P (result A)) : P (result A) :=
  let! r := p in fenced_check r.

Definition load_writing_epoch : P (result Z) := load writing_epoch.
Definition load_still_leading (ep : Z) : P (result unit) := load (fun a => still_leading a ep).

Definition decision_now : P (result Z) :=
  let! now := now_ms in Ret (Ownership.decision_now_ms now).

Definition decide_grant (force : bool) (cur : option entry) (asker : string) (now : Z) : grant :=
  if force then Ownership.decide_force_claim cur asker now
  else Ownership.decide_claim cur asker now.

Definition claim_locked (repo asker : string) (force : bool) : P (result grant) :=
  let!? ep := load_writing_epoch in
  let!? now := decision_now in
  let!? cur := checked (map_get repo) in
  match decide_grant force cur asker now with
  | Granted e =>
    let!? _ := checked (map_put repo e) in
    let!? _ := load_still_leading ep in
    Ret (Ok (Granted e))
  | HeldBy e => Ret (Ok (HeldBy e))
  end.

Definition grant_claim (repo asker : string) (force : bool) : P (result grant) :=
  with_leader_lock (claim_locked repo asker force).

(** The reads of [grant_renew]: what is renewed and what is lost, in the order asked. *)
Fixpoint renew_reads (asker : string) (now : Z) (repos : list string)
    (renewed : list (string * entry)) (lost : list string)
  : P (result (list (string * entry) * list string)) :=
  match repos with
  | [] => Ret (Ok (renewed, lost))
  | repo :: repos =>
    let!? cur := checked (map_get repo) in
    match Ownership.decide_renew cur asker now with
    | Some e => renew_reads asker now repos (renewed ++ [(repo, e)]) lost
    | None => renew_reads asker now repos renewed (lost ++ [repo])
    end
  end.

Definition renew_locked (asker : string) (repos : list string) : P (result (list string)) :=
  let!? ep := load_writing_epoch in
  let!? now := decision_now in
  let!? (renewed, lost) := renew_reads asker now repos [] [] in
  let!? _ := checked (put_many renewed) in
  let!? _ := load_still_leading ep in
  Ret (Ok lost).

Definition grant_renew (asker : string) (repos : list string) : P (result (list string)) :=
  with_leader_lock (renew_locked asker repos).

Definition release_locked (repo asker : string) : P (result unit) :=
  let!? ep := load_writing_epoch in
  let!? cur := checked (map_get repo) in
  if Ownership.may_release cur asker then
    let!? _ := checked (map_delete repo) in
    let!? _ := load_still_leading ep in
    Ret (Ok tt)
  else Ret (Ok tt).

Definition grant_release (repo asker : string) : P (result unit) :=
  with_leader_lock (release_locked repo asker).

(** The sweep of [prune_once], until its deadline. *)
Fixpoint prune_sweep (ep now : Z) (all : list (string * entry)) : P (result unit) :=
  match all with
  | [] => Ret (Ok tt)
  | (repo, e) :: all =>
    if negb (Ownership.is_expired e now) then prune_sweep ep now all
    else
      let! up := time_up in
      if up then prune_sweep ep now all
      else
        let!? _ := checked (map_delete repo) in
        let!? _ := load_still_leading ep in
        prune_sweep ep now all
  end.

Definition prune_locked : P (result unit) :=
  let!? ep := load_writing_epoch in
  let!? now := decision_now in
  let!? all := checked map_all in
  prune_sweep ep now all.

Definition prune_once : P (result unit) := with_leader_lock prune_locked.
End code.

(** ** What the map's bytes stand for *)

Definition rep (d : gmap string string) (m : own_map) : Prop :=
  map_Forall (fun _ e => wf_entry e) m /\
  (forall r, d !! key r = e ← m !! r; Ownership.encode e).

Lemma key_inj r r' : key r = key r' -> r = r'.
Proof. unfold key. cbn. by intros [= ->]. Qed.

Lemma starts_key r : starts_with "own/" (key r) = true.
Proof. unfold starts_with. by rewrite strip_prefix_app. Qed.

Lemma rep_get d m r o :
  rep d m -> decode_opt (d !! key r) = Ok o -> m !! r = o.
Proof.
  intros [Hwf Hd]. rewrite Hd. destruct (m !! r) as [e|] eqn:E; cbn; [|congruence].
  destruct (Ownership.entry_encode_some e (Hwf _ _ E)) as [b Hb]. rewrite Hb. cbn.
  rewrite (Ownership.entry_decode_encode _ _ (Hwf _ _ E) Hb). cbn. congruence.
Qed.

Lemma rep_put d m r e b :
  rep d m -> wf_entry e -> Ownership.encode e = Some b -> rep (<[key r := b]> d) (<[r := e]> m).
Proof.
  intros [Hwf Hd] He Hb. split; [by apply map_Forall_insert_2|].
  intros r'. destruct (decide (r = r')) as [->|Hr].
  - by rewrite !lookup_insert_eq.
  - rewrite !lookup_insert_ne; [apply Hd|done|]. by intros ?%key_inj.
Qed.

Lemma rep_delete d m r : rep d m -> rep (delete (key r) d) (delete r m).
Proof.
  intros [Hwf Hd]. split.
  - intros r' e H. apply lookup_delete_Some in H as [_ H]. by eapply Hwf.
  - intros r'. destruct (decide (r = r')) as [->|Hr].
    + by rewrite !lookup_delete_eq.
    + rewrite !lookup_delete_ne; [apply Hd|done|]. by intros ?%key_inj.
Qed.

Lemma rep_put_all l : forall b d m,
  rep d m -> Forall (fun re => wf_entry re.2) l -> encode_all l = Some b ->
  rep (apply_batch b d) (Ownership.put_all m l).
Proof.
  induction l as [|[r e] l IH]; intros b d m Hrep Hwf; cbn; [by intros [= <-]|].
  apply Forall_cons_1 in Hwf as [He Hwf].
  destruct (Ownership.encode e) as [be|] eqn:Eb; cbn; [|done].
  destruct (encode_all l) as [b'|] eqn:El; cbn; [|done]. intros [= <-]. cbn.
  apply IH; [|done..]. by apply rep_put.
Qed.

(** A row of a scan is an entry of the map. *)
Lemma decode_rows_rows rows : forall (d : gmap string string) l,
  (forall k v, (k, v) ∈ rows -> d !! k = Some v) -> decode_rows rows = Ok l ->
  forall r e, (r, e) ∈ l -> decode_opt (d !! key r) = Ok (Some e).
Proof.
  induction rows as [|[k v] rows IH]; intros d l Hin; cbn [decode_rows].
  { intros [= <-] r e H. by apply not_elem_of_nil in H. }
  destruct (from_utf8 k) as [k'|] eqn:Ek; cbn [ok_or rbind]; [|done].
  destruct (strip_prefix "own/" k') as [repo|] eqn:Es; cbn [ok_or rbind]; [|done].
  destruct (Ownership.decode v) as [e|] eqn:Ev; cbn [rbind]; [|done].
  destruct (decode_rows rows) as [l'|] eqn:El; cbn [rbind]; [|done]. intros [= <-] r e' Hre.
  apply elem_of_cons in Hre as [[= -> ->]|Hre].
  - assert (k = key repo) as ->.
    { apply strip_prefix_some in Es. unfold from_utf8 in Ek. case_match; [|done].
      injection Ek as <-. exact Es. }
    rewrite (Hin (key repo) v) by left. cbn. by rewrite Ev.
  - eapply IH; [|done|done]. intros k1 v1 H1. apply Hin. by right.
Qed.

Lemma scan_lookup p d k v rows : rows ≡ₚ scan p d -> (k, v) ∈ rows -> d !! k = Some v.
Proof.
  intros Hp. rewrite Hp. unfold scan. rewrite list_elem_of_filter. intros [_ H].
  by apply elem_of_map_to_list.
Qed.

(** ** Safety *)
Section safety.
Context {V S : Type} `{OS : !ObjectStore V S}.
(** The clocks' answers, the requests that arrive, and the map to begin with. *)
Context (C : Z -> Prop) (req : mop -> Prop) (m0 : own_map).
Local Abbreviation W := (world S).
Implicit Types w : W.

(** A decision the leader may take: on a request that arrived, under a clock it believes. *)
Definition legal (now : Z) (op : mop) : Prop :=
  req op /\ (Ownership.timed op -> u64 now /\ C now /\ Ownership.CLOCK_FLOOR_MS <= now).

(** The map is what a sequence of such decisions makes of [m0]. *)
Definition decided (d : gmap string string) : Prop :=
  exists ops, Forall (fun '(now, op) => legal now op) ops /\ rep d (mrun ops m0).

Local Abbreviation INV := (Election.inv decided).
Local Abbreviation WP t p w Q := (wp (asem C) INV rely t p w Q).

Lemma decided_step d d' now op :
  legal now op -> (forall m, rep d m -> rep d' (mstep now op m)) -> decided d -> decided d'.
Proof using Type.
  intros Hl Hs (ops & Hops & Hrep). exists (ops ++ [(now, op)])%list. split.
  - apply Forall_app; split; [done|]. by constructor.
  - rewrite Ownership.mrun_app. cbn. by apply Hs.
Qed.

(** What task [t] knows of the map, as long as it writes and its handle has not been fenced. *)
Definition sees (t : tid) (w : W) (P : gmap string string -> Prop) : Prop :=
  map_role (apps w t.1) = Writer ->
  forall h, handles w t.1 = Some h -> (h <= mapepoch w)%nat /\ (mapepoch w = h -> P (mapdb w)).

Lemma rely_role t w w' :
  rely t w w' -> has_lock t w -> map_role (apps w' t.1) = map_role (apps w t.1).
Proof using Type. intros (_ & _ & _ & HL) Hl. by destruct (HL Hl) as (_ & [= -> _ _] & _). Qed.

Lemma sees_rely t w w' P : rely t w w' -> has_lock t w -> sees t w P -> sees t w' P.
Proof using Type.
  intros HR Hl Hs Hr h Hh. rewrite (rely_role _ _ _ HR Hl) in Hr.
  destruct HR as (_ & _ & He & HL). destruct (HL Hl) as (_ & _ & Hh' & Hk).
  rewrite Hh' in Hh. destruct (Hs Hr h Hh) as [Hle HP]. split; [lia|]. intros Ew.
  assert (mapepoch w = h) by lia. rewrite (Hk h Hh); auto.
Qed.

Lemma sees_mono t w (P P' : gmap string string -> Prop) :
  sees t w P -> (forall d, P d -> P' d) -> sees t w P'.
Proof using Type. intros Hs HP Hr h Hh. destruct (Hs Hr h Hh). auto. Qed.

Lemma sees_true t w : INV w -> sees t w (fun _ => True).
Proof using Type. intros [(_ & [Hle _] & _) _] _ h Hh. split; [by eapply Hle|done]. Qed.

Section rules.
Context (t : tid) {A : Type}.
Implicit Types Q : A -> W -> Prop.

Lemma wp_map_read {X} (e : map_eff (result X)) (P : gmap string string -> Prop)
    (ans : gmap string string -> X -> Prop) k w Q :
  (forall w1 r w2, msem t.1 _ e w1 r w2 -> w2 = w1 /\
     (writes_map t.1 w1 -> match r with Ok x => ans (mapdb w1) x | Err _ => True end)) ->
  has_lock t w -> sees t w P ->
  (forall r w1, rely t w w1 -> has_lock t w1 ->
     sees t w1 (fun d => P d /\ forall x, r = Ok x -> ans d x) ->
     WP t (k r) w1 Q) ->
  WP t (bind (map_call e) k) w Q.
Proof using Type.
  intros Hans Hl Hs H. apply wp_bind. intros w1 r w2 HR HI He.
  apply Hans in He as [-> Ha]. split; [done|]. split; [intros; reflexivity|].
  apply H; [done|by eapply rely_lock|]. intros Hr h Hh.
  destruct (sees_rely _ _ _ _ HR Hl Hs Hr h Hh) as [Hle HP]. split; [done|]. intros Hw.
  split; [by apply HP|]. intros x ->. apply Ha. unfold writes_map. by rewrite Hh, Hw.
Qed.

Lemma wp_map_write b (P : gmap string string -> Prop) w :
  has_lock t w -> map_role (apps w t.1) = Writer -> sees t w P ->
  (forall d, decided d -> P d -> decided (apply_batch b d)) ->
  WP t (map_write b) w (fun r w1 => has_lock t w1 /\
     (is_ok r = true -> sees t w1 (fun d' => exists d, P d /\ d' = apply_batch b d))).
Proof using Type.
  intros Hl Hr0 Hs Hb. unfold map_write. cbn. intros w1 r w2 HR HI He.
  pose proof (rely_lock _ _ _ HR Hl) as Hl1.
  pose proof (sees_rely _ _ _ _ HR Hl Hs) as Hs1.
  assert (Hr1 : map_role (apps w1 t.1) = Writer) by (by rewrite (rely_role _ _ _ HR Hl)).
  assert (Hsame : w2 = w1 \/
    (writes_map t.1 w1 /\ w2 = set_mapdb (apply_batch b (mapdb w1)) w1)).
  { destruct r as [[[]|err]|]; [|done..]. destruct He as [? ->]. auto. }
  destruct Hsame as [-> |[Hw ->]].
  - split; [done|]. split; [intros; reflexivity|]. split; [done|].
    intros Hok. destruct r as [[[]|err]|]; [|done..]. destruct He as [Hw Hw1].
    intros _ h Hh. destruct (Hs1 Hr1 h Hh) as [Hle HP]. split; [done|]. intros Hm.
    exists (mapdb w1). split; [by apply HP|]. exact (f_equal mapdb Hw1).
  - destruct (Hs1 Hr1 _ Hw) as [_ HP]. specialize (HP eq_refl).
    split; [|split; [|split]].
    + destruct HI as [(HL & Hh & HM) HA]. split; [|done]. split; [done|]. split; [done|].
      by apply Hb.
    + intros t' Ht. split; [done|]. split; [done|]. split; [done|]. intros Hl'.
      split; [done|]. split; [done|]. split; [done|]. intros h Hh Hm _. exfalso.
      destruct HI as [(_ & [_ Huniq] & _) _]. unfold writes_map in Hw.
      assert (t'.1 = t.1) as Heq by (eapply Huniq; [exact Hh|congruence]).
      unfold has_lock in *. rewrite Heq in Hl'. congruence.
    + done.
    + intros Hok _ h Hh. cbn in Hh. unfold writes_map in Hw.
      split; [cbn; rewrite Hh in Hw; injection Hw as ->; done|]. intros _.
      exists (mapdb w1). done.
Qed.
End rules.

(** *** The map's operations *)
Section operations.
Context (t : tid).
(** Every locked program ends with the lock still held. *)
Local Abbreviation keeps := (fun _ w' => has_lock t w').

Lemma wp_get repo P w :
  has_lock t w -> sees t w P ->
  WP t (map_get repo) w (fun r w1 => has_lock t w1 /\
    sees t w1 (fun d => P d /\ forall o, r = Ok o -> decode_opt (d !! key repo) = Ok o)).
Proof using Type.
  intros Hl Hs. unfold map_get. apply wp_load. intros w1 HR1 HI1.
  pose proof (rely_lock _ _ _ HR1 Hl) as Hl1. pose proof (sees_rely _ _ _ _ HR1 Hl Hs) as Hs1.
  destruct (map_role (apps w1 t.1)) eqn:Er; cbn [wp].
  - split; [done|]. intros Hw. congruence.
  - apply wp_env; [by cbn|]. intros b w2 HR2 HI2. cbn [wp].
    split; [by eapply rely_lock|]. intros Hw.
    rewrite (rely_role _ _ _ HR2 Hl1) in Hw. congruence.
  - apply (wp_map_read t _ P (fun d x => x = d !! key repo)); [by intros ? ? ? []|done|done|].
    intros r w2 HR2 Hl2 Hs2. cbn [wp]. split; [done|]. eapply sees_mono; [exact Hs2|].
    intros d [HP Hr]. split; [done|]. intros o Ho. destruct r as [x|]; [|done].
    cbn in Ho. by rewrite <- (Hr x eq_refl).
Qed.

Lemma wp_all P w :
  has_lock t w -> sees t w P ->
  WP t map_all w (fun r w1 => has_lock t w1 /\
    sees t w1 (fun d => P d /\ forall l, r = Ok l ->
      exists rows, rows ≡ₚ scan "own/" d /\ decode_rows rows = Ok l)).
Proof using Type.
  intros Hl Hs. unfold map_all. apply wp_load. intros w1 HR1 HI1.
  pose proof (rely_lock _ _ _ HR1 Hl) as Hl1. pose proof (sees_rely _ _ _ _ HR1 Hl Hs) as Hs1.
  destruct (map_role (apps w1 t.1)) eqn:Er; cbn [wp].
  - split; [done|]. intros Hw. congruence.
  - apply wp_env; [by cbn|]. intros b w2 HR2 HI2. cbn [wp].
    split; [by eapply rely_lock|]. intros Hw.
    rewrite (rely_role _ _ _ HR2 Hl1) in Hw. congruence.
  - apply (wp_map_read t _ P (fun d x => x ≡ₚ scan "own/" d)); [by intros ? ? ? []|done|done|].
    intros r w2 HR2 Hl2 Hs2. cbn [wp]. split; [done|]. eapply sees_mono; [exact Hs2|].
    intros d [HP Hr]. split; [done|]. intros o Ho. destruct r as [x|]; [|done].
    cbn in Ho. exists x. auto.
Qed.

Lemma wp_put repo e P w :
  has_lock t w -> sees t w P ->
  (forall d b, decided d -> P d -> Ownership.encode e = Some b ->
     decided (<[key repo := b]> d)) ->
  WP t (map_put repo e) w keeps.
Proof using Type.
  intros Hl Hs Hb. unfold map_put. apply wp_load. intros w1 HR1 HI1.
  pose proof (rely_lock _ _ _ HR1 Hl) as Hl1. pose proof (sees_rely _ _ _ _ HR1 Hl Hs) as Hs1.
  destruct (map_role (apps w1 t.1)) eqn:Er; [done..|].
  destruct (Ownership.encode e) as [b|] eqn:Eb; [|by intros ? []].
  eapply wp_mono; [by apply (wp_map_write t _ P); eauto|]. by intros ? ? [].
Qed.

Lemma wp_put_many l P w :
  has_lock t w -> sees t w P ->
  (forall d b, decided d -> P d -> encode_all l = Some b -> decided (apply_batch b d)) ->
  WP t (put_many l) w keeps.
Proof using Type.
  intros Hl Hs Hb. unfold put_many. apply wp_load. intros w1 HR1 HI1.
  pose proof (rely_lock _ _ _ HR1 Hl) as Hl1. pose proof (sees_rely _ _ _ _ HR1 Hl Hs) as Hs1.
  destruct (map_role (apps w1 t.1)) eqn:Er; [done..|]. destruct l as [|re l]; [done|].
  destruct (encode_all (re :: l)) as [b|] eqn:Eb; [|by intros ? []].
  eapply wp_mono; [by apply (wp_map_write t _ P); eauto|]. by intros ? ? [].
Qed.

Lemma wp_delete repo P w :
  has_lock t w -> sees t w P ->
  (forall d, decided d -> P d -> decided (delete (key repo) d)) ->
  WP t (map_delete repo) w (fun r w1 => has_lock t w1 /\
    (is_ok r = true -> sees t w1 (fun d' => exists d, P d /\ d' = delete (key repo) d))).
Proof using Type.
  intros Hl Hs Hb. unfold map_delete. apply wp_load. intros w1 HR1 HI1.
  pose proof (rely_lock _ _ _ HR1 Hl) as Hl1. pose proof (sees_rely _ _ _ _ HR1 Hl Hs) as Hs1.
  destruct (map_role (apps w1 t.1)) eqn:Er.
  - split; [done|]. intros _ Hw. congruence.
  - done.
  - by apply (wp_map_write t [(key repo, None)] P).
Qed.

Lemma wp_checked {A B} (p : prog (app_eff V) (result A)) (k : A -> prog (app_eff V) (result B))
    w (Q : result B -> W -> Prop) :
  WP t p w (fun r w1 => has_lock t w1 /\ forall a, r = Ok a -> WP t (k a) w1 Q) ->
  (forall e w2, has_lock t w2 -> Q (Err e) w2) ->
  WP t (bind_res (checked p) k) w Q.
Proof using Type.
  intros H HQ. unfold checked. apply wp_bind_res, wp_bind. eapply wp_mono; [exact H|].
  intros [a|e] w1 [Hl Hk]; cbn; [by apply Hk|]. apply wp_bind.
  destruct (Ownership.is_fenced e); [apply wp_demote_locked; cbn; auto|].
  destruct (Ownership.is_stalled e); [apply wp_demote_locked; cbn; auto|]. cbn. auto.
Qed.

Lemma wp_loaded {X A} (f : app -> result X) (k : X -> prog (app_eff V) (result A)) w P :
  has_lock t w -> sees t w P ->
  (forall x w1, has_lock t w1 -> sees t w1 P -> WP t (k x) w1 keeps) ->
  WP t (bind_res (load f) k) w keeps.
Proof using Type.
  intros Hl Hs Hk. apply (wp_load _ _ t f (fun r => match r with Ok a => k a | Err e => Ret (Err e) end)).
  intros w1 HR1 _. pose proof (rely_lock _ _ _ HR1 Hl) as Hl1.
  pose proof (sees_rely _ _ _ _ HR1 Hl Hs) as Hs1. destruct (f _); [by apply Hk|done].
Qed.

Lemma wp_decision {A} (k : Z -> prog (app_eff V) (result A)) w P :
  has_lock t w -> sees t w P ->
  (forall now w1, u64 now -> C now -> Ownership.CLOCK_FLOOR_MS <= now ->
     has_lock t w1 -> sees t w1 P -> WP t (k now) w1 keeps) ->
  WP t (bind_res decision_now k) w keeps.
Proof using Type.
  intros Hl Hs Hk w1 now w2 HR1 HI1 (Hu & HC & ->). split; [done|].
  split; [intros; reflexivity|].
  pose proof (rely_lock _ _ _ HR1 Hl) as Hl1. pose proof (sees_rely _ _ _ _ HR1 Hl Hs) as Hs1.
  cbn. unfold Ownership.decision_now_ms. destruct (Z.ltb_spec now Ownership.CLOCK_FLOOR_MS); [done|].
  by apply Hk.
Qed.

Lemma wp_loaded_end {X A} (f : app -> result X) (k : X -> result A) w :
  has_lock t w -> WP t (bind_res (load f) (fun x => Ret (k x))) w keeps.
Proof using Type.
  intros Hl. apply (wp_load _ _ t f (fun r => match r with Ok a => Ret (k a) | Err e => Ret (Err e) end)).
  intros w1 HR1 _. destruct (f _); by eapply rely_lock.
Qed.

(** *** The handlers *)
Lemma granted_wf asker now b :
  utf8_valid asker = true -> u64 now ->
  Ownership.encode (Ownership.Entry asker (u64_add now Ownership.LEASE_TTL)) = Some b ->
  wf_entry (Ownership.Entry asker (u64_add now Ownership.LEASE_TTL)).
Proof using Type.
  intros Hu Hn Hb. unfold Ownership.encode in Hb. cbn in Hb.
  destruct (contains_char nl asker) eqn:E; [done|]. split; [done|]. split; [done|].
  apply u64_add_u64.
Qed.

Lemma decide_grant_fresh force cur asker now e :
  decide_grant force cur asker now = Granted e ->
  e = Ownership.Entry asker (u64_add now Ownership.LEASE_TTL).
Proof using Type.
  destruct force; [apply Ownership.decide_force_granted|apply Ownership.decide_claim_granted].
Qed.

Lemma wp_claim_locked repo asker force w :
  req (OpClaim asker repo force) -> utf8_valid asker = true -> has_lock t w ->
  sees t w (fun _ => True) -> WP t (claim_locked repo asker force) w keeps.
Proof using Type.
  intros Hreq Hu Hl Hs. unfold claim_locked. apply (wp_loaded _ _ _ (fun _ => True)); [done..|].
  intros ep w1 Hl1 Hs1. apply (wp_decision _ _ (fun _ => True)); [done..|].
  intros now w2 Hn HC Hf Hl2 Hs2. apply wp_checked; [|done].
  eapply wp_mono; [by apply (wp_get _ (fun _ => True))|]. intros r w3 [Hl3 Hs3].
  split; [done|]. intros cur ->. destruct (decide_grant force cur asker now) as [e|e] eqn:Eg; [|done].
  apply wp_checked; [|done]. eapply wp_mono; [eapply (wp_put _ _ _ _ Hl3 Hs3)|].
  - intros d b Hd [_ Hcur] Hb. apply (decided_step d _ now (OpClaim asker repo force)); [done| |done].
    intros m Hrep. pose proof (rep_get _ _ _ _ Hrep (Hcur _ eq_refl)) as Hm.
    pose proof (decide_grant_fresh _ _ _ _ _ Eg) as ->.
    cbn. assert (claim_grant force m repo asker now =
      Granted (Ownership.Entry asker (u64_add now Ownership.LEASE_TTL))) as ->.
    { unfold claim_grant. rewrite Hm. exact Eg. }
    apply rep_put; [done| |done]. by eapply granted_wf.
  - intros r w4 Hl4. split; [done|]. intros [] ->. by apply wp_loaded_end.
Qed.

Lemma wp_release_locked repo asker w :
  req (OpRelease asker repo) -> has_lock t w -> sees t w (fun _ => True) ->
  WP t (release_locked repo asker) w keeps.
Proof using Type.
  intros Hreq Hl Hs. unfold release_locked. apply (wp_loaded _ _ _ (fun _ => True)); [done..|].
  intros ep w1 Hl1 Hs1. apply wp_checked; [|done].
  eapply wp_mono; [by apply (wp_get _ (fun _ => True))|]. intros r w3 [Hl3 Hs3].
  split; [done|]. intros cur ->. destruct (Ownership.may_release cur asker) eqn:Eg; [|done].
  apply wp_checked; [|done]. eapply wp_mono; [eapply (wp_delete _ _ _ Hl3 Hs3)|].
  - intros d Hd [_ Hcur]. apply (decided_step d _ 0 (OpRelease asker repo)); [by split| |done].
    intros m Hrep. pose proof (rep_get _ _ _ _ Hrep (Hcur _ eq_refl)) as Hm.
    cbn. rewrite Hm, Eg. by apply rep_delete.
  - intros r w4 [Hl4 _]. split; [done|]. intros [] ->. by apply wp_loaded_end.
Qed.

(** What the reads of a renewal have established. *)
Definition renew_seen (asker : string) (now : Z) (done : list string)
    (renewed : list (string * entry)) (lost : list string) (d : gmap string string) : Prop :=
  forall m, rep d m -> renewed = renewals m asker done now /\ lost = lost_repos m asker done now.

Lemma renew_seen_snoc asker now dn repo renewed lost cur d :
  renew_seen asker now dn renewed lost d -> decode_opt (d !! key repo) = Ok cur ->
  renew_seen asker now (dn ++ [repo])%list
    (match Ownership.decide_renew cur asker now with
     | Some e => renewed ++ [(repo, e)] | None => renewed end)%list
    (match Ownership.decide_renew cur asker now with
     | Some _ => lost | None => lost ++ [repo] end)%list d.
Proof using Type.
  intros Hd Hcur m Hrep. destruct (Hd m Hrep) as [-> ->].
  pose proof (rep_get _ _ _ _ Hrep Hcur) as Hm.
  unfold renewals, lost_repos. rewrite omap_app, list.filter_app.
  cbn [omap list_omap]. rewrite filter_cons, filter_nil, Hm.
  destruct (Ownership.decide_renew cur asker now) as [e|]; cbn; by rewrite ?app_nil_r.
Qed.

Lemma wp_renew_reads asker now repos : forall dn renewed lost w,
  has_lock t w -> sees t w (renew_seen asker now dn renewed lost) ->
  WP t (renew_reads asker now repos renewed lost) w (fun r w' => has_lock t w' /\
    forall x, r = Ok x -> sees t w' (renew_seen asker now (dn ++ repos)%list x.1 x.2)).
Proof using Type.
  induction repos as [|repo repos IH]; intros dn renewed lost w Hl Hs; cbn [renew_reads].
  { cbn. split; [done|]. intros x [= <-]. by rewrite app_nil_r. }
  apply wp_checked; [|by intros e w2]. eapply wp_mono; [by apply wp_get|].
  intros r w1 [Hl1 Hs1]. split; [done|]. intros cur ->.
  assert (Hs2 := sees_mono _ _ _ _ Hs1 (fun d H => renew_seen_snoc _ _ _ _ _ _ cur d (proj1 H) (proj2 H cur eq_refl))).
  replace (dn ++ repo :: repos)%list with ((dn ++ [repo]) ++ repos)%list by (by rewrite <- app_assoc).
  destruct (Ownership.decide_renew cur asker now) as [e|]; by apply IH.
Qed.

Lemma renewals_wf m asker repos now :
  utf8_valid asker = true -> contains_char nl asker = false ->
  Forall (fun re => wf_entry re.2) (renewals m asker repos now).
Proof using Type.
  intros Hu Hn. apply Forall_forall. intros [r e] He.
  apply Ownership.renewals_elem, Ownership.decide_renew_some in He as [-> _].
  split; [done|]. split; [done|]. apply u64_add_u64.
Qed.

(** An entry that encodes names a node without a newline. *)
Lemma renewals_asker m asker repos now b :
  encode_all (renewals m asker repos now) = Some b ->
  renewals m asker repos now = [] \/ contains_char nl asker = false.
Proof using Type.
  intros Hb. destruct (renewals m asker repos now) as [|[r e] l] eqn:E; [by left|right].
  assert ((r, e) ∈ renewals m asker repos now) as Hin by (rewrite E; left).
  apply Ownership.renewals_elem, Ownership.decide_renew_some in Hin as [-> _].
  cbn in Hb. unfold Ownership.encode in Hb. cbn in Hb. by destruct (contains_char nl asker).
Qed.

Lemma wp_renew_locked asker repos w :
  req (OpRenew asker repos) -> utf8_valid asker = true -> has_lock t w ->
  sees t w (fun _ => True) -> WP t (renew_locked asker repos) w keeps.
Proof using Type.
  intros Hreq Hu Hl Hs. unfold renew_locked. apply (wp_loaded _ _ _ (fun _ => True)); [done..|].
  intros ep w1 Hl1 Hs1. apply (wp_decision _ _ (fun _ => True)); [done..|].
  intros now w2 Hn HC Hf Hl2 Hs2. apply wp_bind_res.
  eapply wp_mono; [apply (wp_renew_reads asker now repos [] [] []); [done|]|].
  { eapply sees_mono; [exact Hs2|]. by intros d _ m _. }
  intros [[renewed lost]|e] w3 [Hl3 Hs3]; [|done]. specialize (Hs3 _ eq_refl). cbn [fst snd Datatypes.app] in Hs3.
  apply wp_checked; [|done]. eapply wp_mono; [apply (wp_put_many _ _ _ Hl3 Hs3)|].
  - intros d b Hd Hsn Hb. apply (decided_step d _ now (OpRenew asker repos)); [done| |done].
    intros m Hrep. destruct (Hsn m Hrep) as [-> _]. cbn.
    destruct (renewals_asker _ _ _ _ _ Hb) as [E|Hnl].
    + rewrite E in *. cbn in Hb. injection Hb as <-. exact Hrep.
    + apply rep_put_all; [done| |done]. by apply renewals_wf.
  - intros r w4 Hl4. split; [done|]. intros [] ->. by apply wp_loaded_end.
Qed.

(** The rows left to sweep: still in the map, or gone. *)
Definition prune_seen (all : list (string * entry)) (d : gmap string string) : Prop :=
  forall r e, (r, e) ∈ all -> exists o, decode_opt (d !! key r) = Ok o /\ (o = Some e \/ o = None).

Lemma prune_seen_delete repo all d : prune_seen all d -> prune_seen all (delete (key repo) d).
Proof using Type.
  intros Hd r e Hin. destruct (decide (repo = r)) as [->|Hne].
  - rewrite lookup_delete_eq. exists None. auto.
  - rewrite lookup_delete_ne by (by intros ?%key_inj). auto.
Qed.

Lemma wp_prune_sweep ep now all : forall w,
  (forall rs, req (OpPrune rs)) -> u64 now -> C now -> Ownership.CLOCK_FLOOR_MS <= now ->
  has_lock t w -> sees t w (prune_seen all) -> WP t (prune_sweep ep now all) w keeps.
Proof using Type.
  induction all as [|[repo e] all IH]; intros w Hreq Hn HC Hf Hl Hs; cbn [prune_sweep]; [done|].
  assert (Htail : forall d, prune_seen ((repo, e) :: all) d -> prune_seen all d).
  { intros d Hd r e' Hin. apply Hd. by right. }
  destruct (Ownership.is_expired e now) eqn:Ex; cbn [negb];
    [|apply IH; auto; by eapply sees_mono].
  apply wp_env; [by cbn|]. intros up w1 HR1 _.
  pose proof (rely_lock _ _ _ HR1 Hl) as Hl1. pose proof (sees_rely _ _ _ _ HR1 Hl Hs) as Hs1.
  destruct up; [apply IH; auto; by eapply sees_mono|].
  apply wp_checked; [|done]. eapply wp_mono; [apply (wp_delete _ _ _ Hl1 Hs1)|].
  - intros d Hd Hsn. apply (decided_step d _ now (OpPrune [repo])); [done| |done].
    intros m Hrep. cbn. destruct (Hsn repo e) as (o & Ho & Hor); [by left|].
    pose proof (rep_get _ _ _ _ Hrep Ho) as Hm. rewrite Hm.
    destruct Hor as [-> | ->]; cbn; [rewrite Ex; by apply rep_delete|].
    rewrite <- (delete_id m repo) by done. by apply rep_delete.
  - intros r w2 [Hl2 Hs2]. split; [done|]. intros [] ->. specialize (Hs2 eq_refl).
    apply (wp_loaded _ _ _ (prune_seen all)); [done| |].
    + eapply sees_mono; [exact Hs2|]. intros d (d0 & H0 & ->). auto using prune_seen_delete.
    + intros _ w3 Hl3 Hs3. by apply IH.
Qed.

Lemma wp_prune_locked w :
  (forall rs, req (OpPrune rs)) -> has_lock t w -> sees t w (fun _ => True) ->
  WP t prune_locked w keeps.
Proof using Type.
  intros Hreq Hl Hs. unfold prune_locked. apply (wp_loaded _ _ _ (fun _ => True)); [done..|].
  intros ep w1 Hl1 Hs1. apply (wp_decision _ _ (fun _ => True)); [done..|].
  intros now w2 Hn HC Hf Hl2 Hs2. apply wp_checked; [|done].
  eapply wp_mono; [by apply (wp_all (fun _ => True))|]. intros r w3 [Hl3 Hs3].
  split; [done|]. intros l ->. apply wp_prune_sweep; [done..|].
  eapply sees_mono; [exact Hs3|]. intros d [_ Hd]. destruct (Hd l eq_refl) as (rows & Hp & Hrows).
  intros r e Hin. exists (Some e). split; [|by left].
  eapply decode_rows_rows; [|exact Hrows|exact Hin]. intros k v. intros Hkv; eapply scan_lookup; eauto.
Qed.
End operations.
End safety.
