(* ===== verification/Fleet.v ===== *)
(** * Fleet: every node runs every task

    Elections, resignations, drains and the grants of [crates/app/src] together: what holds in every
    state any interleaving of them reaches, on any object store that meets its contract, with any
    answers of the clocks, any failed, lost or unacknowledged write and any timing of the map's
    opening. *)

From S2P Require Import Prelude Text Prog ObjStore App Election Beats Grants.
From S2P Require Lease Ownership.
Import Ownership (entry, mop, OpClaim, OpRenew, OpRelease, OpPrune, own_map, mrun, holds_until).
Local Open Scope string_scope.
Local Open Scope Z_scope.

Section fleet.
Context {V S : Type} `{OS : !ObjectStore V S}.
(** The clocks' answers, the requests the peers send, and the map to begin with. *)
Context (C : Z -> Prop) (req : mop -> Prop) (m0 : own_map).
Implicit Types w : world S.

(** What a node starts: a beat, a shutdown, a drain, or the answer to a request. *)
Inductive node_task (t : tid) : prog (app_eff V) unit -> Prop :=
| task_election p : Election.fleet_entry t p -> node_task t p
| task_claim repo asker force :
    req (OpClaim asker repo force) -> utf8_valid asker = true ->
    node_task t (let! _ := grant_claim repo asker force in Ret tt)
| task_renew asker repos :
    req (OpRenew asker repos) -> utf8_valid asker = true ->
    node_task t (let! _ := grant_renew asker repos in Ret tt)
| task_release repo asker :
    req (OpRelease asker repo) ->
    node_task t (let! _ := grant_release repo asker in Ret tt)
| task_prune :
    (forall repos, req (OpPrune repos)) -> node_task t (let! _ := prune_once in Ret tt).

Local Abbreviation INV := (Election.inv (decided C req m0)).

(** A fleet that has just been started, over a map that holds [m0]. *)
Definition started w : Prop := Election.fresh w /\ rep (mapdb w) m0.

Lemma wp_grant {A} t (p : prog (app_eff V) (result A)) w :
  (forall w1, has_lock t w1 -> sees t w1 (fun _ => True) ->
     wp (asem C) INV rely t p w1 (fun _ w' => has_lock t w')) ->
  wp (asem C) INV rely t (let! _ := with_leader_lock p in Ret tt) w (fun _ _ => True).
Proof using Type.
  intros Hp. apply wp_bind. apply (wp_mono _ _ _ _ _ _ (fun _ _ => True)); [|done]. apply wp_locked. intros w1 _ _ Hl HI.
  eapply wp_mono; [apply (Hp w1 Hl)|by intros; split]. eapply sees_true; exact HI.
Qed.

Lemma node_task_safe t p w : node_task t p -> wp (asem C) INV rely t p w (fun _ _ => True).
Proof using Type.
  intros [p' Hp|repo asker force Hr Hu|asker repos Hr Hu|repo asker Hr|Hr].
  - by apply fleet_entry_safe.
  - apply wp_grant. intros. by apply wp_claim_locked.
  - apply wp_grant. intros. by apply wp_renew_locked.
  - apply wp_grant. intros. by apply wp_release_locked.
  - apply wp_grant. intros. by apply wp_prune_locked.
Qed.

Definition reaches w w' : Prop := exists l, rtc (pstep (asem C) node_task) (w, []) (w', l).

Lemma started_inv w : started w -> INV w.
Proof using Type.
  intros [Hf Hr]. apply fresh_inv; [done|]. exists []. by split; [constructor|].
Qed.

Lemma fleet_invariant w w' : started w -> reaches w w' -> INV w'.
Proof using Type.
  intros Hs%started_inv [l Hr].
  apply (reach_invariant (asem C) node_task INV rely) with (s := w) (l' := l); [|done..].
  intros. by apply node_task_safe.
Qed.

(** C1: two fleet nodes that show the same epoch are one node. *)
Theorem epoch_has_one_leader w w' n m :
  started w -> reaches w w' -> Lease.bounded (store w') ->
  leads w' n -> leads w' m -> leader_epoch (apps w' n) = leader_epoch (apps w' m) -> n = m.
Proof using Type.
  intros Hs Hr Hb Hn Hm He. destruct (fleet_invariant _ _ Hs Hr) as [(HL & _) HA].
  destruct (HL Hb) as [_ Ho]. destruct (HA n) as [_ Hn'], (HA m) as [_ Hm'].
  destruct (Hn' Hn) as (_ & v & l1 & Hw & He1 & <-), (Hm' Hm) as (_ & v2 & l2 & Hw2 & He2 & <-).
  eapply Ho; eauto. congruence.
Qed.

(** C2: before its lease lapses nobody is granted a repository over its owner: if the map names
    [a] until [x], it still does in every state reached while the clocks read less than [x] (and
    no more than one lease before it), unless [a] releases the repository or it is forced. *)
Theorem owner_kept_until_expiry w w' a repo x :
  started w -> reaches w w' -> holds_until m0 a repo x ->
  (forall now, C now -> now < x /\ x <= now + Ownership.LEASE_TTL /\
                        now + Ownership.LEASE_TTL <= u64_max) ->
  (forall op, req op -> ~ Ownership.takes_from a repo op) ->
  exists m, rep (mapdb w') m /\ holds_until m a repo x.
Proof using Type.
  intros Hs Hr Hh HC Hreq. destruct (fleet_invariant _ _ Hs Hr) as [(_ & _ & ops & Hops & Hrep) _].
  exists (mrun ops m0). split; [done|]. apply Ownership.mrun_keeps; [done|].
  eapply Forall_impl; [exact Hops|]. intros [now op] [Hq Ht]. split; [|by apply Hreq].
  intros Htm. destruct (Ht Htm) as ([H0 _] & Hc & _). by apply HC in Hc as (? & ? & ?).
Qed.

(** C4: the map is always what a sequence of the leader's decisions, each on a request that
    arrived and under a clock past the floor, makes of the map to begin with. *)
Theorem map_is_decided w w' :
  started w -> reaches w w' ->
  exists ops, Forall (fun '(now, op) => legal C req now op) ops /\ rep (mapdb w') (mrun ops m0).
Proof using Type. intros Hs Hr. by destruct (fleet_invariant _ _ Hs Hr) as [(_ & _ & ?) _]. Qed.

(** A fleet node that shows an epoch has the map open for writing. *)
Theorem leading_has_a_writer w w' n :
  started w -> reaches w w' -> leads w' n -> map_role (apps w' n) = Writer.
Proof using Type.
  intros Hs Hr Hn. destruct (fleet_invariant _ _ Hs Hr) as [_ HA]. by apply HA.
Qed.
End fleet.

(** ** A fleet in which the theorems apply

    The map names [a] for [o/r] until 9 s past the floor.  At the floor [b] is elected, is refused
    [o/r] and is granted [o/q]. *)
Definition floor_now : Z := Ownership.CLOCK_FLOOR_MS.
Definition until : Z := floor_now + 9000.

Definition map_start : own_map := {[ "o/r" := Ownership.Entry "a" until ]}.
Definition db_start : gmap string string :=
  {[ Ownership.key "o/r" := ("a" +:+ String nl "1767225609000")%string ]}.

Definition at_floor (z : Z) : Prop := z = floor_now.
Definition two_claims (op : mop) : Prop :=
  op = OpClaim "b" "o/r" false \/ op = OpClaim "b" "o/q" false.

Definition claim_task (repo : string) : prog (app_eff nat) unit :=
  let! _ := grant_claim repo "b" false in Ret tt.

Definition sim_0 : sim := sim_start floor_now db_start.
Definition sim_1 : sim := sim_after ("b", 0%nat) one_tick sim_0.
Definition sim_2 : sim := sim_after ("b", 1%nat) (claim_task "o/r") sim_1.
Definition sim_3 : sim := sim_after ("b", 2%nat) (claim_task "o/q") sim_2.

Lemma sim_0_started : started map_start (sworld sim_0).
Proof.
  split; [split; [intros v b [t Ht]; done|split; [done|intros n; by exists false]]|].
  split.
  - apply map_Forall_singleton. split; [reflexivity|]. split; [reflexivity|]. by vm_compute.
  - intros r. cbn [sworld sim_0 sim_start mapdb]. unfold db_start, map_start.
    destruct (decide (r = "o/r")) as [->|Hr].
    + rewrite !lookup_singleton_eq. vm_compute. reflexivity.
    + rewrite !lookup_singleton_ne; [done|done|]. by intros ?%key_inj.
Qed.

Lemma sim_3_reached : reaches at_floor two_claims (sworld sim_0) (sworld sim_3).
Proof.
  assert (Hstep : forall t p s l,
    node_task two_claims t p -> t ∉ l.*1 -> is_some (sim_run t p s) = true -> clocked at_floor s ->
    rtc (pstep (asem at_floor) (node_task two_claims)) (sworld s, l)
      (sworld (sim_after t p s), (t, Ret tt) :: l) /\ clocked at_floor (sim_after t p s)).
  { intros t p s l Ht Hn Hs Hc.
    destruct (sim_run_runs at_floor t p s tt (sim_after t p s) Hc (sim_after_run t p s Hs)) as [Hr Hc'].
    split; [|done]. exact (runs_reach (asem at_floor) (node_task two_claims) t p _ tt _ l Ht Hn Hr). }
  destruct (Hstep ("b", 0%nat) one_tick sim_0 []) as [H1 C1].
  { apply task_election. split; [done|apply (entry_tick 1)]. }
  { apply not_elem_of_nil. }
  { vm_compute. reflexivity. }
  { exists floor_now. split; reflexivity. }
  destruct (Hstep ("b", 1%nat) (claim_task "o/r") sim_1 [(("b", 0%nat), Ret tt)]) as [H2 C2].
  { exact (task_claim two_claims _ "o/r" "b" false (or_introl eq_refl) eq_refl). }
  { set_solver. }
  { vm_compute. reflexivity. }
  { exact C1. }
  destruct (Hstep ("b", 2%nat) (claim_task "o/q") sim_2
              [(("b", 1%nat), Ret tt); (("b", 0%nat), Ret tt)]) as [H3 _].
  { exact (task_claim two_claims _ "o/q" "b" false (or_intror eq_refl) eq_refl). }
  { set_solver. }
  { vm_compute. reflexivity. }
  { exact C2. }
  eexists. etrans; [exact H1|]. etrans; [exact H2|exact H3].
Qed.

Lemma sim_3_leads : leads (sworld sim_3) "b".
Proof. split; vm_compute; [reflexivity|discriminate]. Qed.

Definition b_lease : string := ("b" +:+ String nl ("1" +:+ String nl "1767225610000"))%string.

Lemma sim_3_bounded : Lease.bounded (store (sworld sim_3)).
Proof.
  intros v l (b & [t Ht] & Hd).
  assert (MemStore.log (store (sworld sim_3)) = [(Lease.PATH, b_lease, 0)]) as E
    by (vm_compute; reflexivity).
  rewrite E in Ht. apply list_lookup_singleton_Some in Ht as [_ [= <- _]].
  assert (Lease.decode b_lease = Ok (Lease.Lease "b" 1 1767225610000)) as E2
    by (vm_compute; reflexivity).
  rewrite E2 in Hd. injection Hd as <-. done.
Qed.

(** What the run has done to the map. *)
Lemma sim_3_map :
  mapdb (sworld sim_3) !! Ownership.key "o/r" = db_start !! Ownership.key "o/r" /\
  mapdb (sworld sim_3) !! Ownership.key "o/q" = Some ("b" +:+ String nl "1767225610000")%string.
Proof. split; vm_compute; reflexivity. Qed.

Lemma epoch_has_one_leader_witness :
  leads (sworld sim_3) "b" /\ "b" = "b".
Proof.
  split; [exact sim_3_leads|].
  exact (epoch_has_one_leader _ _ _ _ _ "b" "b" sim_0_started sim_3_reached sim_3_bounded
           sim_3_leads sim_3_leads eq_refl).
Defined.

Lemma owner_kept_until_expiry_witness :
  exists m, rep (mapdb (sworld sim_3)) m /\ holds_until m "a" "o/r" until.
Proof.
  apply (owner_kept_until_expiry at_floor two_claims map_start (sworld sim_0) (sworld sim_3)
           "a" "o/r" until sim_0_started sim_3_reached).
  - exists (Ownership.Entry "a" until). split; [apply lookup_singleton_eq|]. by split.
  - intros now ->. by vm_compute.
  - intros op [-> | ->]; cbn; naive_solver.
Defined.

Lemma map_is_decided_witness :
  exists ops, Forall (fun '(now, op) => legal at_floor two_claims now op) ops /\
    rep (mapdb (sworld sim_3)) (mrun ops map_start).
Proof. exact (map_is_decided _ _ _ _ _ sim_0_started sim_3_reached). Defined.

Lemma leading_has_a_writer_witness :
  leads (sworld sim_3) "b" /\ map_role (apps (sworld sim_3) "b") = Writer.
Proof.
  split; [exact sim_3_leads|].
  exact (leading_has_a_writer _ _ _ _ _ "b" sim_0_started sim_3_reached sim_3_leads).
Defined.
