(* ===== verification/Node.v ===== *)
(** * Node: what a request handler of a node can do

    The tasks of [App] answer requests too: routing reads the pool and the negative caches, asks the
    leader over HTTP, forwards to peers and runs handlers.  [node_eff] is that signature; every
    answer is the environment's, so a program over it has the set of [traces] below and a theorem
    about all of them holds whatever the rest of the system does. *)

From S2P Require Import Prelude Text Prog ObjStore App.
Local Open Scope string_scope.
Local Open Scope Z_scope.

(** The two maps of [App] that remember when this node last asked. *)
Record caches := Caches {
  recovery_asked : gmap string Z;
  missing_seen : gmap string Z;
}.

(** A reply to a POST on the leader's peer port; the text of a success may fail to arrive. *)
Inductive post_res :=
| PostSuccess (text : result string)
| PostMisdirected
| PostStatus (code : Z)
| PostErr (e : error).

Record response := Response { status : Z; body : string }.

(** A forward that failed: could the peer not be reached at all? *)
Inductive forward_res :=
| Forwarded (r : response)
| ForwardErr (is_connect : bool).

Inductive node_eff (V : Type) : Type -> Type :=
| NApp {X} (e : app_eff V X) : node_eff V X
| NHealthy : node_eff V bool
| NClosed : node_eff V bool
| NExists (owner name : string) : node_eff V (result bool)
| NWarm : node_eff V (list string)
| NEvict (owner name : string) : node_eff V unit
| NEvictAfterDrain (owner name : string) : node_eff V unit
| NPermit : node_eff V bool
| NUnpermit : node_eff V unit
| NSleep (ms : Z) : node_eff V unit
| NPost (addr what body : string) : node_eff V post_res
| NCache {X} (f : caches -> X * caches) : node_eff V X
| NForward (addr owner : string) (hops : Z) : node_eff V forward_res
(** Run the handler; in the scope of [pool::unowned] when a key is given. *)
| NServe (unowned : option string) : node_eff V response
(** How many effects a timeout leaves its future. *)
| NBudget : node_eff V nat.
Arguments NApp {V X} e.
Arguments NHealthy {V}.
Arguments NClosed {V}.
Arguments NExists {V} owner name.
Arguments NWarm {V}.
Arguments NEvict {V} owner name.
Arguments NEvictAfterDrain {V} owner name.
Arguments NPermit {V}.
Arguments NUnpermit {V}.
Arguments NSleep {V} ms.
Arguments NPost {V} addr what body.
Arguments NCache {V X} f.
Arguments NForward {V} addr owner hops.
Arguments NServe {V} unowned.
Arguments NBudget {V}.

Section node.
Context {V : Type}.
Local Abbreviation N := (prog (node_eff V)).

Definition on_app {A} (p : prog (app_eff V) A) : N A := lift (fun X e => NApp e) p.
Definition healthy : N bool := trigger NHealthy.
Definition is_closed : N bool := trigger NClosed.
Definition exists_prefix (o n : string) : N (result bool) := trigger (NExists o n).
Definition warm_repos : N (list string) := trigger NWarm.
Definition node_now : N Z := on_app now_ms.
Definition post (addr what body : string) : N post_res := trigger (NPost addr what body).
Definition with_caches {X} (f : caches -> X * caches) : N X := trigger (NCache f).
Definition forward (addr owner : string) (hops : Z) : N forward_res :=
  trigger (NForward addr owner hops).
Definition serve (u : option string) : N response := trigger (NServe u).

(** [tokio::time::timeout]: the future is dropped at the await where its time ran out. *)
Fixpoint cut {A} (n : nat) (p : N A) : N (option A) :=
  match p with
  | Ret a => Ret (Some a)
  | Vis X e k =>
    match n with
    | O => Ret None
    | Datatypes.S n => Vis X e (fun x => cut n (k x))
    end
  end.

Definition timeout {A} (p : N A) : N (option A) := let! n := trigger NBudget in cut n p.
End node.

(** ** Traces *)
Section traces.
Context {E : Type -> Type}.

Inductive event := Event (X : Type) (e : E X) (x : X).

(** [p] can perform the effects of [tr], with the answers there, and return [a]. *)
Fixpoint traces {A} (p : prog E A) (tr : list event) (a : A) : Prop :=
  match p with
  | Ret b => tr = [] /\ a = b
  | Vis X e k => exists x tr', tr = Event X e x :: tr' /\ traces (k x) tr' a
  end.

Lemma traces_bind {A B} (p : prog E A) (f : A -> prog E B) : forall tr b,
  traces (bind p f) tr b <->
  exists tr1 a tr2, tr = (tr1 ++ tr2)%list /\ traces p tr1 a /\ traces (f a) tr2 b.
Proof.
  induction p as [a|X e k IH]; intros tr b; cbn.
  - split.
    + intros H. by exists [], a, tr.
    + by intros (tr1 & a' & tr2 & -> & [-> ->] & H).
  - split.
    + intros (x & tr' & -> & H). apply IH in H as (tr1 & a & tr2 & -> & H1 & H2).
      exists (Event X e x :: tr1), a, tr2. split; [done|]. split; [|done]. by exists x, tr1.
    + intros (tr1 & a & tr2 & -> & (x & tr' & -> & H1) & H2). exists x, (tr' ++ tr2)%list.
      split; [done|]. apply IH. by exists tr', a, tr2.
Qed.

Lemma traces_ret {A} (b : A) tr a : traces (Ret b) tr a -> tr = [] /\ a = b.
Proof. done. Qed.

Lemma traces_trigger {X} (e : E X) tr x : traces (trigger e) tr x <-> tr = [Event X e x].
Proof.
  cbn. split; [by intros (y & tr' & -> & -> & ->)|]. intros ->. by exists x, [].
Qed.

(** [tr] contains a whole run of [p] that answered [a]. *)
Definition calls {A} (p : prog E A) (tr : list event) (a : A) : Prop :=
  exists tr1 tr2 tr3, tr = (tr1 ++ tr2 ++ tr3)%list /\ traces p tr2 a.

Lemma calls_here {A} (p : prog E A) tr1 tr2 a : traces p tr1 a -> calls p (tr1 ++ tr2)%list a.
Proof. intros H. by exists [], tr1, tr2. Qed.

Lemma calls_later {A} (p : prog E A) tr1 tr2 a : calls p tr2 a -> calls p (tr1 ++ tr2)%list a.
Proof.
  intros (t1 & t2 & t3 & -> & H). exists (tr1 ++ t1)%list, t2, t3. split; [|done].
  by rewrite <- app_assoc.
Qed.

Lemma calls_app_l {A} (p : prog E A) tr1 tr2 a : calls p tr1 a -> calls p (tr1 ++ tr2)%list a.
Proof.
  intros (t1 & t2 & t3 & -> & H). exists t1, t2, (t3 ++ tr2)%list. split; [|done].
  by rewrite <- !app_assoc.
Qed.

Lemma calls_self {A} (p : prog E A) tr a : traces p tr a -> calls p tr a.
Proof. intros H. exists [], tr, []. by rewrite app_nil_r. Qed.

Lemma traces_bind_res {A B} (p : prog E (result A)) (f : A -> prog E (result B)) tr b :
  traces (bind_res p f) tr b <->
  (exists e, b = Err e /\ traces p tr (Err e)) \/
  exists tr1 a tr2, tr = (tr1 ++ tr2)%list /\ traces p tr1 (Ok a) /\ traces (f a) tr2 b.
Proof.
  unfold bind_res. rewrite traces_bind. split.
  - intros (tr1 & [a|e] & tr2 & -> & H1 & H2); [by right; exists tr1, a, tr2|].
    left. destruct H2 as [-> ->]. rewrite app_nil_r. by exists e.
  - intros [(e & -> & H)|(tr1 & a & tr2 & -> & H1 & H2)].
    + exists tr, (Err e), []. rewrite app_nil_r. done.
    + by exists tr1, (Ok a), tr2.
Qed.
End traces.
Arguments event E : clear implicits.

(** Find the call a trace contains. *)
Ltac tr_calls :=
  first [ by apply calls_self | by apply calls_here | apply calls_later; tr_calls | eassumption ].

(** Take a run of a program apart. *)
Ltac tr_step :=
  match goal with
  | H : traces (bind_res _ _) _ _ |- _ => rewrite traces_bind_res in H;
      destruct H as [(?e & ? & H)|(?tr & ?a & ?tr & -> & ? & H)]
  | H : traces (bind _ _) _ _ |- _ => rewrite traces_bind in H;
      destruct H as (?tr & ?a & ?tr & -> & ? & H)
  | H : traces (Ret _) _ _ |- _ => apply traces_ret in H as [-> H]
  end; simplify_eq.

(** *** What a program can emit at all *)
Section emits.
Context {E : Type -> Type} (P : forall X, E X -> Prop).

Fixpoint emits {A} (p : prog E A) : Prop :=
  match p with
  | Ret _ => True
  | Vis X e k => P X e /\ forall x, emits (k x)
  end.

Definition ev_ok (ev : event E) : Prop := match ev with Event X e _ => P X e end.

Lemma emits_bind {A B} (p : prog E A) (f : A -> prog E B) :
  emits p -> (forall a, emits (f a)) -> emits (bind p f).
Proof using Type. intros Hp Hf. induction p as [a|X e k IH]; cbn in *; [auto|]. naive_solver. Qed.

Lemma emits_bind_res {A B} (p : prog E (result A)) (f : A -> prog E (result B)) :
  emits p -> (forall a, emits (f a)) -> emits (bind_res p f).
Proof using Type. intros Hp Hf. apply emits_bind; [done|]. intros [a|e]; [apply Hf|done]. Qed.

Lemma emits_traces {A} (p : prog E A) tr a : emits p -> traces p tr a -> Forall ev_ok tr.
Proof using Type.
  revert tr. induction p as [b|X e k IH]; intros tr Hp; cbn; [by intros [-> _]|].
  intros (x & tr' & -> & H). destruct Hp as [He Hk]. constructor; [done|]. by apply (IH x).
Qed.
End emits.

Lemma emits_lift {E E' : Type -> Type} {A} (P : forall X, E' X -> Prop) (h : forall X, E X -> E' X)
    (p : prog E A) : (forall X e, P X (h X e)) -> emits P (lift h p).
Proof. intros Hh. induction p as [a|X e k IH]; cbn; auto. Qed.

Lemma emits_lift' {E E' : Type -> Type} {A} (P : forall X, E' X -> Prop) (h : forall X, E X -> E' X)
    (p : prog E A) : emits (fun X e => P X (h X e)) p -> emits P (lift h p).
Proof. induction p as [a|X e k IH]; cbn; [done|]. naive_solver. Qed.

(** *** A run in which every effect has one answer *)
Section follow.
Context {E : Type -> Type} (ans : forall X, E X -> option X).

Fixpoint follow {A} (p : prog E A) : option (list (event E) * A) :=
  match p with
  | Ret a => Some ([], a)
  | Vis X e k =>
    x ← ans X e; '(tr, a) ← follow (k x); Some (Event X e x :: tr, a)
  end.

Lemma follow_traces {A} (p : prog E A) : forall tr a, follow p = Some (tr, a) -> traces p tr a.
Proof using Type.
  induction p as [b|X e k IH]; intros tr a; cbn; [by intros [= <- <-]|].
  destruct (ans X e) as [x|]; cbn; [|done].
  destruct (follow (k x)) as [[tr' a']|] eqn:Ek; cbn; [|done]. intros [= <- <-]. eauto.
Qed.

Lemma follow_some {A} (p : prog E A) a : option_map snd (follow p) = Some a -> exists tr, traces p tr a.
Proof using Type.
  destruct (follow p) as [[tr b]|] eqn:Ef; cbn; [|done]. intros [= ->]. exists tr.
  by apply follow_traces.
Qed.
Definition trace_of {A} (p : prog E A) : list (event E) := from_option fst [] (follow p).

Lemma trace_of_traces {A} (p : prog E A) a :
  option_map snd (follow p) = Some a -> traces p (trace_of p) a.
Proof using Type.
  unfold trace_of. destruct (follow p) as [[tr b]|] eqn:Ef; cbn; [|done]. intros [= ->].
  by apply follow_traces.
Qed.
End follow.

(** A healthy node whose record is [a], whose follower handle holds [d], and whose clock stands. *)
Definition plain_answers (a : app) (d : gmap string string) (now : Z)
    (X : Type) (e : node_eff nat X) : option X :=
  match e in node_eff _ X return option X with
  | NApp e =>
    match e in app_eff _ X return option X with
    | AOs e => Some (MemStore.outage e (EMsg "outage"))
    | ANow => Some now
    | AApp f => Some (f a).1
    | ALock | AUnlock => Some tt
    | AOpen => Some Pending
    | ARetire => Some Pending
    | AMap e =>
      Some match e in map_eff X return X with
           | MGet k => Ok (d !! k)
           | MScan p => Ok (scan p d)
           | MWrite _ => Some (Ok tt)
           | MFollowGet k => Ok (d !! k)
           | MFollowScan p => Ok (scan p d)
           end
    | ATimeUp => Some false
    | AHalt => None
    end
  | NHealthy => Some true
  | NClosed => Some false
  | NExists _ _ => Some (Ok true)
  | NWarm => Some []
  | NEvict _ _ | NEvictAfterDrain _ _ | NUnpermit | NSleep _ => Some tt
  | NPermit => Some true
  | NPost _ _ _ => Some (PostErr (EMsg "unreachable"))
  | NCache f => Some (f (Caches ∅ ∅)).1
  | NForward _ _ _ => Some (ForwardErr true)
  | NServe _ => Some (Response 200 "")
  | NBudget => Some 0%nat
  end.
