(* ===== verification/Routing.v ===== *)
(** * Routing: where a request for a repository belongs, [crates/app/src/routing.rs]

    [route_for] answers from the map, asks the leader or claims; the claims, renewals and releases a
    follower sends to the leader; the drain's handover.  [local_is_owned] is the safety property:
    this node serves a repository itself only on an owner's evidence. *)

From S2P Require Import Prelude Text Prog ObjStore App Election Grants Node.
From S2P Require Lease Ownership.
Import Ownership (entry, grant, Granted, HeldBy, route, RLocal, RPeer, RUnavailable, RMissing).
Local Open Scope string_scope.
Local Open Scope Z_scope.

(** [Patience] and the attempts and pauses it stands for, [crates/core/src/peer.rs]. *)
Inductive patience := PClaim | PRecover | PRelease | PNone.

Definition CLAIM_ATTEMPTS : nat := 20.
Definition RECOVER_ATTEMPTS : nat := 2.
Definition RELEASE_ATTEMPTS : nat := 4.
Definition CLAIM_BACKOFF : Z := 1500.
Definition RECOVER_BACKOFF : Z := 250.
Definition RELEASE_BACKOFF : Z := 400.

Definition attempts (p : patience) : nat :=
  match p with
  | PClaim => CLAIM_ATTEMPTS
  | PRecover => RECOVER_ATTEMPTS
  | PRelease => RELEASE_ATTEMPTS
  | PNone => 1
  end.

Definition backoff (p : patience) : Z :=
  match p with
  | PClaim => CLAIM_BACKOFF
  | PRecover => RECOVER_BACKOFF
  | _ => RELEASE_BACKOFF
  end.

Definition default_patience (what : string) : patience :=
  if String.eqb what "claim" then PClaim
  else if String.eqb what "release" then PRelease
  else PNone.

Definition RECOVERY_ASK_EVERY : Z := 1 * 1000.
Definition MISSING_ASK_EVERY : Z := 3 * 1000.
Definition MISSING_CACHE_MAX : nat := 4096.

(** ** The caches that throttle the asks *)
Definition recent (every now t : Z) : bool := sat_sub now t <? every.

Definition note_recovery (repo : string) (now : Z) (c : caches) : bool * caches :=
  if is_some_and (recovery_asked c !! repo) (recent RECOVERY_ASK_EVERY now) then (false, c)
  else (true, Caches (<[repo := now]> (recovery_asked c)) (missing_seen c)).

(** The sweep on a full cache: what has aged out first, then everything. *)
Definition sweep_missing (now : Z) (m : gmap string Z) : gmap string Z :=
  if (MISSING_CACHE_MAX <=? size m)%nat then
    let m' := filter (fun kv => is_true (recent MISSING_ASK_EVERY now kv.2)) m in
    if (MISSING_CACHE_MAX <=? size m')%nat then ∅ else m'
  else m.

Definition check_missing (repo : string) (now : Z) (c : caches) : bool * caches :=
  if is_some_and (missing_seen c !! repo) (recent MISSING_ASK_EVERY now) then (false, c)
  else (true, Caches (recovery_asked c) (sweep_missing now (missing_seen c))).

Definition note_missing (repo : string) (now : Z) (c : caches) : unit * caches :=
  (tt, Caches (recovery_asked c) (<[repo := now]> (missing_seen c))).

(** ** Choosing a peer for a handover *)

(** [str]'s order: by bytes. *)
Fixpoint str_leb (a b : string) : bool :=
  match a, b with
  | EmptyString, _ => true
  | String _ _, EmptyString => false
  | String x a, String y b =>
    (byte_z x <? byte_z y) || ((byte_z x =? byte_z y) && str_leb a b)
  end.

Fixpoint insert_str (s : string) (l : list string) : list string :=
  match l with
  | [] => [s]
  | x :: l' => if str_leb s x then s :: l else x :: insert_str s l'
  end.

Definition sort_strs (l : list string) : list string := foldr insert_str [] l.

(** [Vec::dedup]. *)
Fixpoint dedup (l : list string) : list string :=
  match l with
  | [] => []
  | x :: l' =>
    match l' with
    | [] => [x]
    | y :: _ => if String.eqb x y then dedup l' else x :: dedup l'
    end
  end.

(** [Iterator::max_by_key]: the last of the greatest. *)
Definition max_by_key (key : string -> Z) (l : list string) : option string :=
  foldl (fun best x =>
    match best with
    | None => Some x
    | Some b => if key b <=? key x then Some x else Some b
    end) None l.

Section code.
Context {V : Type}.
Local Abbreviation N := (prog (node_eff V)).
(** [self_name] (never written), [addr_of], and [DefaultHasher] over a repository and a node. *)
Context (self : string) (addr_of : string -> string) (hash : string -> string -> Z).

Definition leads_now : N bool := on_app (load is_leader).
Definition is_draining : N bool := on_app (load draining).
Definition owner (repo : string) : N (result (option entry)) := on_app (map_get repo).

Definition may_ask_to_recover (repo : string) : N bool :=
  let! now := node_now in with_caches (note_recovery repo now).

Definition may_ask_who_owns (repo : string) : N bool :=
  let! now := node_now in with_caches (check_missing repo now).

Definition note_no_owner (repo : string) : N unit :=
  let! now := node_now in with_caches (note_missing repo now).

(** The lease as the store has it, for an ask that failed. *)
Definition refresh_leader : N (option string) :=
  let! os := on_app (load os_present) in
  if negb os then Ret None
  else
    let! r := on_app (os_call Lease.read) in
    match r with
    | Ok (Some h) =>
      let! now := node_now in
      if negb (Lease.is_expired (Lease.held_lease h) now) then
        on_app (note_live (Lease.held_lease h)) ;;!
        Ret (Some (Lease.node (Lease.held_lease h)))
      else on_app (modify (set_leader None)) ;;! Ret None
    | Ok None => on_app (modify (set_leader None)) ;;! Ret None
    | Err _ => on_app (load leader)
    end.

(** The attempts of [ask_leader_with]: [n] are left, [known] is the cached name, trusted once. *)
Fixpoint ask_loop (n : nat) (first : bool) (what body : string) (p : patience)
    (known : option string) (last : error) : N (result string) :=
  match n with
  | O => Ret (Err last)
  | Datatypes.S n =>
    (if first then Ret tt else trigger (NSleep (backoff p))) ;;!
    let! name := match known with Some x => Ret (Some x) | None => refresh_leader end in
    match name with
    | None => ask_loop n false what body p None (EMsg "no live leader")
    | Some name =>
      let! res := post (addr_of name) what body in
      match res with
      | PostSuccess t => Ret t
      | PostMisdirected =>
        ask_loop n false what body p None (EMsg "own: the node asked is not the leader")
      | PostStatus _ => Ret (Err (EMsg "own: leader answered"))
      | PostErr e => ask_loop n false what body p None e
      end
    end
  end.

Definition ask_from_cache (what body : string) (p : patience) : N (result string) :=
  let! known := on_app (load leader) in
  ask_loop (attempts p) true what body p known (EMsg "the leader was unreachable").

Definition ask_leader_with (what body : string) (p : patience) : N (result string) :=
  match p with
  | PClaim =>
    let! ok := trigger NPermit in
    match ok with
    | true => let! r := ask_from_cache what body p in trigger NUnpermit ;;! Ret r
    | false => Ret (Err (EMsg "too many claims already waiting on the leader; retry"))
    end
  | _ => ask_from_cache what body p
  end.

Definition ask_leader (what body : string) : N (result string) :=
  ask_leader_with what body (default_patience what).

Definition nth_line (n : nat) (s : string) : string := default "" (lines s !! n).

Definition claim_body (repo asker : string) (force : bool) : string :=
  (repo +:+ String nl (asker +:+ if force then String nl "force" else ""))%string.

(** The reply to a claim. *)
Definition parse_claim_reply (reply : string) : result grant :=
  match parse_u64 (nth_line 2 reply) with
  | inr _ => Err (EMsg "claim reply: bad expiry")
  | inl x =>
    let e := Ownership.Entry (nth_line 1 reply) x in
    if String.eqb (nth_line 0 reply) "granted" then Ok (Granted e)
    else if String.eqb (nth_line 0 reply) "heldby" then Ok (HeldBy e)
    else Err (EMsg "claim reply: unknown verb")
  end.

Definition claim_as (repo asker : string) (force : bool) (p : patience) : N (result grant) :=
  let! leads := leads_now in
  if leads then on_app (grant_claim repo asker force)
  else
    let!? reply := ask_leader_with "claim" (claim_body repo asker force) p in
    Ret (parse_claim_reply reply).

Definition claim_inner (repo : string) (force : bool) (p : patience) : N (result grant) :=
  claim_as repo self force p.

Definition claim_for (repo node : string) : N (result grant) :=
  claim_as repo node false PRecover.

Definition claim (repo : string) : N (result grant) := claim_inner repo false PClaim.

(** [!self.store.healthy() || self.store.pool.is_closed() || self.is_draining()], left to right. *)
Definition may_not_take : N bool :=
  let! h := healthy in
  if negb h then Ret true
  else let! c := is_closed in if c then Ret true else is_draining.

Definition claim_to_recover (repo : string) : N (result grant) :=
  let! no := may_not_take in
  match no with
  | true => Ret (Err (EMsg "this node may not take a repo over right now"))
  | false => claim_inner repo false PRecover
  end.

(** [pool.exists(o, n).await.unwrap_or(true)] of a key that names a pair. *)
Definition prefix_exists (repo : string) : N bool :=
  match split_once "/" repo with
  | Some (o, n) => let! r := exists_prefix o n in Ret (match r with Ok b => b | Err _ => true end)
  | None => Ret true
  end.

Definition force_claim (repo : string) : N (result grant) :=
  let! no := may_not_take in
  match no with
  | true => Ret (Err (EMsg "this node may not take a repo over right now"))
  | false =>
    let! there := prefix_exists repo in
    if there then claim_inner repo true PRecover
    else Ret (Err (EMsg "no such repository"))
  end.

Definition parse_owner_reply (reply : string) : result (option entry) :=
  match lines reply with
  | node :: expires :: _ =>
    if String.eqb node "" then Ok None
    else match parse_u64 expires with
         | inl x => Ok (Some (Ownership.Entry node x))
         | inr _ => Err (EMsg "owner reply: bad expiry")
         end
  | _ => Ok None
  end.

Definition ask_owner (repo : string) : N (result (option entry)) :=
  let! leads := leads_now in
  if leads then owner repo
  else
    let!? reply := ask_leader_with "owner" repo PRecover in
    Ret (parse_owner_reply reply).

Definition route_to (node : string) : N route :=
  if String.eqb node self then
    let! h := healthy in
    if negb h then Ret RUnavailable
    else let! c := is_closed in Ret (if c then RUnavailable else RLocal)
  else Ret (RPeer (Ownership.Peer node (addr_of node))).

(** The nodes a drain can see: owners of live entries and the leader, but this one. *)
Definition candidates (all : list (string * entry)) (lead : option string) (now : Z) : list string :=
  dedup (sort_strs (filter (fun n => n <> self)
    (map (fun re => Ownership.node re.2)
         (filter (fun re => Ownership.is_expired re.2 now = false) all) ++
     match lead with Some l => [l] | None => [] end)))%list.

Definition handover_target (repo : string) : N (option string) :=
  let! now := node_now in
  let! all := on_app map_all in
  let! lead := on_app (load leader) in
  Ret (max_by_key (hash repo)
         (candidates (match all with Ok l => l | Err _ => [] end) lead now)).

(** [route_for] once the map has named nobody live: [entry] is what it did name. *)
Definition route_unnamed (repo : string) (may_create : bool) (named : option entry) : N route :=
  let! h := healthy in
  if negb h then Ret RUnavailable
  else
  let! c := is_closed in
  let! leaving := (if c then Ret true else is_draining) in
  match leaving with
  | true =>
    let! target := handover_target repo in
    match target with
    | Some peer => route_to peer
    | None => Ret RUnavailable
    end
  | false =>
  let! there := (if may_create then Ret true else prefix_exists repo) in
  match there with
  | false =>
    let! ask := may_ask_who_owns repo in
    match ask with
    | false => Ret RMissing
    | true =>
    let! answer := ask_owner repo in
    match answer with
    | Ok (Some e) =>
      let! now := node_now in
      if negb (Ownership.is_expired e now) then route_to (Ownership.node e)
      else note_no_owner repo ;;! Ret RMissing
    | _ => note_no_owner repo ;;! Ret RMissing
    end
    end
  | true =>
  let! g := claim repo in
  match g with
  | Ok (Granted e) | Ok (HeldBy e) => route_to (Ownership.node e)
  | Err _ =>
    if is_some_and named (fun e => String.eqb (Ownership.node e) self) then
      let! warm := warm_repos in
      if existsb (String.eqb repo) warm then route_to self else Ret RUnavailable
    else Ret RUnavailable
  end
  end
  end.

Definition route_for (repo : string) (may_create : bool) : N route :=
  let! now := node_now in
  let! r := owner repo in
  match r with
  | Err _ => Ret RUnavailable
  | Ok named =>
    match named with
    | Some e =>
      if negb (Ownership.is_expired e now) then route_to (Ownership.node e)
      else route_unnamed repo may_create named
    | None => route_unnamed repo may_create named
    end
  end.

Definition route_git (repo : string) : N route := route_for repo false.

(** ** Renewals, releases and the drain *)
Definition renew_body (repos : list string) : string :=
  foldl (fun b r => (b +:+ String nl r)%string) self repos.

Definition renew_all (repos : list string) : N (result (list string)) :=
  let! leads := leads_now in
  if leads then on_app (grant_renew self repos)
  else
    let!? reply := ask_leader "renew" (renew_body repos) in
    Ret (Ok (filter (fun l => l <> "") (lines reply))).

Fixpoint evict_all (lost : list string) : N unit :=
  match lost with
  | [] => Ret tt
  | repo :: lost =>
    match split_once "/" repo with
    | Some (o, n) => trigger (NEvict o n)
    | None => Ret tt
    end ;;! evict_all lost
  end.

Definition renew_once : N (result unit) :=
  let! warm := warm_repos in
  let!? lost := renew_all warm in
  evict_all lost ;;! Ret (Ok tt).

Definition release (repo : string) : N (result unit) :=
  let! leads := leads_now in
  if leads then on_app (grant_release repo self)
  else
    let!? _ := ask_leader "release" (repo +:+ String nl self)%string in Ret (Ok tt).

Definition close_local (repo : string) : N unit :=
  match split_once "/" repo with
  | Some (o, n) => trigger (NEvictAfterDrain o n)
  | None => Ret tt
  end.

Definition hand_over (repo : string) : N bool :=
  let! target := handover_target repo in
  let! r := release repo in
  match r with
  | Err _ => close_local repo ;;! Ret false
  | Ok _ =>
    close_local repo ;;!
    match target with
    | None => Ret false
    | Some target =>
      let! g := claim_for repo target in
      match g with
      | Ok (Granted _) => Ret true
      | _ => let! _ := claim_for repo self in Ret false
      end
    end
  end.

(** The leader's name, polled until its deadline. [fuel] bounds the polls the deadline allows. *)
Fixpoint await_new_leader (fuel : nat) : N unit :=
  match fuel with
  | O => Ret tt
  | Datatypes.S fuel =>
    let! os := on_app (load os_present) in
    let! up := on_app time_up in
    if negb os || up then Ret tt
    else
      let! r := on_app (os_call Lease.read) in
      let! live := match r with
                   | Ok (Some c) =>
                     if String.eqb (Lease.node (Lease.held_lease c)) self then Ret false
                     else
                       let! now := node_now in
                       if Lease.is_expired (Lease.held_lease c) now then Ret false
                       else on_app (note_live (Lease.held_lease c)) ;;! Ret true
                   | _ => Ret false
                   end in
      match live with
      | true => Ret tt
      | false => trigger (NSleep 200) ;;! await_new_leader fuel
      end
  end.

Fixpoint drain_repos (repos : list string) (moved kept : nat) : N (nat * nat) :=
  match repos with
  | [] => Ret (moved, kept)
  | repo :: repos =>
    let! up := on_app time_up in
    match up with
    | true => Ret (moved, kept)
    | false =>
      let! r := timeout (hand_over repo) in
      match r with
      | Some true => drain_repos repos (Datatypes.S moved) kept
      | Some false => drain_repos repos moved (Datatypes.S kept)
      | None => let! _ := timeout (release repo) in drain_repos repos moved kept
      end
    end
  end.

Definition drain (fuel : nat) : N (nat * nat) :=
  on_app begin_draining ;;!
  let! was_leader := leads_now in
  on_app resign ;;!
  (if was_leader then await_new_leader fuel else Ret tt) ;;!
  let! warm := warm_repos in
  drain_repos warm 0 0.

(** A fence on a repository this node may still own: routing decides, and a handle routing says
    is ours is evicted so that the next open is fresh. *)
Definition on_fenced (o n : string) : N bool :=
  let! r := route_for (o +:+ "/" +:+ n) true in
  match r with
  | RLocal => trigger (NEvict o n) ;;! Ret true
  | _ => Ret false
  end.
End code.

(** ** The asks are throttled *)

(** Within the window after an ask that was let through, and nothing else noted, no other is. *)
Lemma note_recovery_again repo now1 now2 c c1 :
  note_recovery repo now1 c = (true, c1) -> now1 <= now2 < now1 + RECOVERY_ASK_EVERY ->
  note_recovery repo now2 c1 = (false, c1).
Proof.
  unfold note_recovery. destruct (is_some_and (recovery_asked c !! repo) _); [done|].
  intros [= <-] Hw. cbn. rewrite lookup_insert_eq. cbn. unfold recent, sat_sub, RECOVERY_ASK_EVERY in *.
  rewrite (proj2 (Z.ltb_lt _ _)); [done|lia].
Qed.

Lemma sweep_missing_size now m : (size (sweep_missing now m) < MISSING_CACHE_MAX)%nat.
Proof.
  unfold sweep_missing. destruct (Nat.leb_spec MISSING_CACHE_MAX (size m)) as [H|H]; [|done].
  case_match eqn:E; [|by apply Nat.leb_gt in E]. rewrite map_size_empty. unfold MISSING_CACHE_MAX. lia.
Qed.

(** One ask about a repository per window: once an ask was let through and answered with nobody,
    the next is refused until the window has passed, and the cache stays within its bound. *)
Theorem missing_asks_are_throttled repo now1 now2 now3 c c1 :
  check_missing repo now1 c = (true, c1) -> now2 <= now3 < now2 + MISSING_ASK_EVERY ->
  let c2 := (note_missing repo now2 c1).2 in
  (size (missing_seen c2) <= MISSING_CACHE_MAX)%nat /\ check_missing repo now3 c2 = (false, c2).
Proof.
  unfold check_missing. destruct (is_some_and (missing_seen c !! repo) _); [done|].
  intros [= <-] Hw. cbn. split.
  - pose proof (sweep_missing_size now1 (missing_seen c)) as Hs.
    rewrite map_size_insert. case_match; unfold id; lia.
  - rewrite lookup_insert_eq. cbn. unfold recent, sat_sub, MISSING_ASK_EVERY in *.
    rewrite (proj2 (Z.ltb_lt _ _)); [done|lia].
Qed.

Lemma missing_asks_are_throttled_witness :
  let c2 := (note_missing "o/r" 10 (Caches ∅ ∅)).2 in
  (size (missing_seen c2) <= MISSING_CACHE_MAX)%nat /\ check_missing "o/r" 2000 c2 = (false, c2).
Proof.
  apply (missing_asks_are_throttled "o/r" 5 10 2000 (Caches ∅ ∅)); [reflexivity|].
  unfold MISSING_ASK_EVERY. lia.
Defined.

(** ** A handover never names the node that drains *)
Lemma insert_str_elem s l x : x ∈ insert_str s l -> x = s \/ x ∈ l.
Proof.
  induction l as [|y l IH]; cbn; [set_solver|]. destruct (str_leb s y); [set_solver|].
  intros [->|Hx]%elem_of_cons; [set_solver|]. apply IH in Hx. set_solver.
Qed.

Lemma sort_strs_elem l x : x ∈ sort_strs l -> x ∈ l.
Proof.
  induction l as [|y l IH]; cbn; [done|]. intros [->|H]%insert_str_elem; [left|right; auto].
Qed.

Lemma dedup_elem l x : x ∈ dedup l -> x ∈ l.
Proof.
  induction l as [|y l IH]; cbn [dedup]; [done|]. destruct l as [|z l]; [done|].
  destruct (String.eqb y z); [intros H; right; auto|].
  intros [->|H]%elem_of_cons; [left|right; auto].
Qed.

Lemma max_by_key_elem key l x : max_by_key key l = Some x -> x ∈ l.
Proof.
  unfold max_by_key.
  assert (H : forall best, foldl (fun best x => match best with None => Some x
      | Some b => if key b <=? key x then Some x else Some b end) best l = Some x ->
      x ∈ l \/ best = Some x).
  { induction l as [|y l IH]; intros best; cbn; [by right|]. intros Hf. apply IH in Hf as [Hf|Hf].
    - left. by right.
    - destruct best as [b|]; [|left; set_solver]. destruct (key b <=? key y); [left; set_solver|by right]. }
  intros Hf. destruct (H _ Hf) as [?|?]; [done|done].
Qed.

Lemma candidates_not_self self all lead now x : x ∈ candidates self all lead now -> x <> self.
Proof.
  unfold candidates. intros H%dedup_elem%sort_strs_elem. by apply list_elem_of_filter in H as [? _].
Qed.

(** ** Who serves, and on what evidence *)
Section evidence.
Context {V : Type} (self : string) (addr_of : string -> string) (hash : string -> string -> Z).
Local Abbreviation EV := (event (node_eff V)).
Implicit Types tr : list EV.

(** This node was healthy and its pool open when it decided. *)
Definition fit tr : Prop := calls healthy tr true /\ calls is_closed tr false.

Lemma fit_later tr1 tr2 : fit tr2 -> fit (tr1 ++ tr2).
Proof using Type. intros [H1 H2]. split; by apply calls_later. Qed.

Lemma route_to_local node tr :
  traces (route_to (V:=V) self addr_of node) tr RLocal -> node = self /\ fit tr.
Proof using Type.
  unfold route_to. destruct (String.eqb_spec node self) as [->|Hn]; [|by intros [_ ?]].
  intros H. tr_step. destruct a; cbn [negb] in H; [|by tr_step].
  tr_step. destruct a; [by tr_step|]. apply traces_ret in H as [-> _].
  split; [done|]. split; [by apply calls_here|]. apply calls_later. rewrite app_nil_r.
  by apply calls_self.
Qed.

Lemma handover_target_other repo tr n :
  traces (handover_target (V:=V) self hash repo) tr (Some n) -> n <> self.
Proof using Type.
  unfold handover_target. intros H. do 3 tr_step. destruct H as [_ H]. symmetry in H.
  by apply max_by_key_elem, candidates_not_self in H.
Qed.

(** Why this node may serve [repo]. *)
Inductive evidence (repo : string) tr : Prop :=
| ev_map e now :
    calls (owner repo) tr (Ok (Some e)) -> calls node_now tr now ->
    Ownership.is_expired e now = false -> Ownership.node e = self -> evidence repo tr
| ev_claim g e :
    calls (claim self addr_of repo) tr (Ok g) -> g = Granted e \/ g = HeldBy e ->
    Ownership.node e = self -> evidence repo tr
| ev_leader e now :
    calls (ask_owner addr_of repo) tr (Ok (Some e)) -> calls node_now tr now ->
    Ownership.is_expired e now = false -> Ownership.node e = self -> evidence repo tr
| ev_warm e err warm :
    calls (owner repo) tr (Ok (Some e)) -> Ownership.node e = self ->
    calls (claim self addr_of repo) tr (Err err) ->
    calls warm_repos tr warm -> repo ∈ warm -> evidence repo tr.

Lemma route_unnamed_local repo mc named tr0 tr1 :
  (forall e, named = Some e -> calls (E:=node_eff V) (owner repo) tr0 (Ok (Some e))) ->
  traces (route_unnamed self addr_of hash repo mc named) tr1 RLocal ->
  fit tr1 /\ evidence repo (tr0 ++ tr1).
Proof using Type.
  intros Hnamed. unfold route_unnamed. intros H.
  tr_step. destruct a; cbn [negb] in H; [|by tr_step].
  tr_step. tr_step. destruct a0.
  { tr_step. destruct a0 as [peer|]; [|by tr_step].
    apply route_to_local in H as [-> _].
    match goal with H : traces (handover_target _ _ _) _ _ |- _ =>
      by apply handover_target_other in H end. }
  tr_step. destruct a0.
  - tr_step. destruct a0 as [[e|e]|err].
    + apply route_to_local in H as [Hn Hf]. split; [by repeat apply fit_later|].
      eapply (ev_claim _ _ (Granted e) e); [tr_calls|by left|done].
    + apply route_to_local in H as [Hn Hf]. split; [by repeat apply fit_later|].
      eapply (ev_claim _ _ (HeldBy e) e); [tr_calls|by right|done].
    + destruct named as [e|]; cbn [is_some_and] in H; [|by tr_step].
      destruct (String.eqb_spec (Ownership.node e) self) as [Hn|Hn]; [|by tr_step].
      tr_step. destruct (existsb _ _) eqn:Ew; [|by tr_step].
      apply route_to_local in H as [_ Hf]. split; [by repeat apply fit_later|].
      apply existsb_exists in Ew as (r & Hr & ->%String.eqb_eq). apply list_elem_of_In in Hr.
      eapply (ev_warm _ _ e err); [|done|tr_calls|tr_calls|done].
      apply calls_app_l. by apply Hnamed.
  - tr_step. destruct a0; [|by tr_step].
    tr_step. destruct a0 as [[e|]|err]; [|by repeat tr_step..].
    tr_step. destruct (Ownership.is_expired e a0) eqn:Ex; cbn [negb] in H; [by repeat tr_step|].
    apply route_to_local in H as [Hn Hf]. split; [by repeat apply fit_later|].
    eapply (ev_leader _ _ e a0); [tr_calls|tr_calls|done|done].
Qed.

(** C3: this node serves a repository only while it is healthy and its pool open, and only because
    the map or the leader names it, because it was granted the repository, or because it was its
    last owner, still holds the database open and nobody could be asked.  A claim that failed is
    never by itself a reason to serve. *)
Theorem local_is_owned repo mc tr :
  traces (route_for self addr_of hash repo mc) tr RLocal -> fit tr /\ evidence repo tr.
Proof using Type.
  unfold route_for. intros H. tr_step. tr_step. destruct a0 as [[e|]|err]; [| |by tr_step].
  - destruct (Ownership.is_expired e a) eqn:Ex; cbn [negb] in H.
    + match goal with |- fit (?x ++ ?y ++ _) /\ _ =>
        apply (route_unnamed_local repo mc (Some e) (x ++ y)) in H as [Hf He] end.
      * split; [by repeat apply fit_later|]. by rewrite <- app_assoc in He.
      * intros ? [= <-]. tr_calls.
    + apply route_to_local in H as [Hn Hf]. split; [by repeat apply fit_later|].
      eapply (ev_map _ _ e a); [tr_calls|tr_calls|done|done].
  - match goal with |- fit (?x ++ ?y ++ _) /\ _ =>
      apply (route_unnamed_local repo mc None (x ++ y)) in H as [Hf He]; [|done] end.
    split; [by repeat apply fit_later|]. by rewrite <- app_assoc in He.
Qed.
End evidence.

(** A follower's copy of the map names this node: it serves. *)
Lemma local_is_owned_witness :
  exists tr : list (event (node_eff nat)),
    traces (route_for "me" id (fun _ _ => 0) "o/r" false) tr RLocal /\
    fit tr /\ evidence "me" id "o/r" tr.
Proof.
  destruct (follow_some (plain_answers (app_new "me" false)
      {[ Ownership.key "o/r" := ("me" +:+ String nl "100")%string ]} 5)
    (route_for "me" id (fun _ _ => 0) "o/r" false) RLocal) as [tr H]; [vm_compute; reflexivity|].
  exists tr. split; [exact H|]. exact (local_is_owned "me" id (fun _ _ => 0) "o/r" false tr H).
Defined.

(** ** What an anonymous request can make this node write *)
Section quiet.
Context {V : Type} (self : string) (addr_of : string -> string) (hash : string -> string -> Z).

(** A write to the map, here or at the leader: a batch, or a message other than a question. *)
Definition loud (X : Type) (e : node_eff V X) : Prop :=
  match e with
  | NPost _ what _ => what <> "owner"
  | NApp (AMap (MWrite _)) => True
  | _ => False
  end.

Definition soft (X : Type) (e : node_eff V X) : Prop := ~ loud X e.
Local Abbreviation quiet := (emits soft).

Lemma quiet_trigger {X} (e : node_eff V X) : soft X e -> quiet (trigger e).
Proof using Type. by intros He. Qed.

Lemma quiet_load {X} (f : app -> X) : quiet (on_app (load f)).
Proof using Type. apply (quiet_trigger (NApp (AApp _))). by intros []. Qed.

Lemma quiet_modify f : quiet (on_app (modify f)).
Proof using Type. apply (quiet_trigger (NApp (AApp _))). by intros []. Qed.

Lemma quiet_now : quiet node_now.
Proof using Type. apply (quiet_trigger (NApp ANow)). by intros []. Qed.

Lemma quiet_map_read {X} (e : map_eff X) : ~ loud X (NApp (AMap e)) -> quiet (on_app (map_call e)).
Proof using Type. intros H. by apply (quiet_trigger (NApp (AMap e))). Qed.

Lemma on_app_bind {A B} (p : prog (app_eff V) A) (f : A -> prog (app_eff V) B) :
  (quiet (on_app p) -> (forall a, quiet (on_app (f a))) -> quiet (on_app (bind p f))).
Proof using Type.
  intros Hp Hf. induction p as [a|X e k IH]; cbn in *; [apply Hf|].
  destruct Hp as [He Hp]. split; [exact He|]. intros x. apply IH, Hp.
Qed.

Lemma quiet_map_get repo : quiet (owner repo).
Proof using Type.
  apply on_app_bind; [apply quiet_load|]. intros [| |]; [done| |];
    (apply on_app_bind; [apply quiet_map_read; by intros []|done]).
Qed.

Lemma quiet_map_all : quiet (on_app map_all).
Proof using Type.
  apply on_app_bind; [apply quiet_load|]. intros [| |]; [done| |];
    (apply on_app_bind; [apply quiet_map_read; by intros []|done]).
Qed.

Lemma quiet_os {A} (p : prog (os_eff V) A) : quiet (on_app (os_call p)).
Proof using Type.
  induction p as [a|X e k IH]; cbn; [done|]. split; [by intros []|]. intros x. apply IH.
Qed.

Lemma quiet_note_live l : quiet (on_app (note_live l)).
Proof using Type.
  unfold note_live. apply on_app_bind; [apply quiet_modify|intros _].
  apply on_app_bind; [apply quiet_now|intros now].
  apply on_app_bind; [apply quiet_modify|intros _]. apply quiet_modify.
Qed.

Lemma quiet_refresh : quiet refresh_leader.
Proof using Type.
  apply emits_bind; [apply quiet_load|]. intros [|]; cbn [negb]; [|done].
  apply emits_bind; [apply quiet_os|]. intros [[h|]|e].
  - apply emits_bind; [apply quiet_now|]. intros now. destruct (negb _).
    + apply emits_bind; [apply quiet_note_live|done].
    + apply emits_bind; [apply quiet_modify|done].
  - apply emits_bind; [apply quiet_modify|done].
  - apply quiet_load.
Qed.

Lemma quiet_ask_loop n : forall first body p known last,
  quiet (ask_loop addr_of n first "owner" body p known last).
Proof using Type.
  induction n as [|n IH]; intros first body p known last; [done|]. cbn [ask_loop].
  apply emits_bind; [destruct first; [done|apply quiet_trigger; by intros []]|]. intros _.
  apply emits_bind; [destruct known; [done|apply quiet_refresh]|]. intros [name|]; [|apply IH].
  apply emits_bind; [apply quiet_trigger; intros H; by apply H|].
  intros [t| |c|e]; [done|apply IH|done|apply IH].
Qed.

Lemma quiet_ask_owner repo : quiet (ask_owner addr_of repo).
Proof using Type.
  apply emits_bind; [apply quiet_load|]. intros [|]; [apply quiet_map_get|].
  apply emits_bind_res; [|done]. apply emits_bind; [apply quiet_load|].
  intros known. apply quiet_ask_loop.
Qed.

Lemma quiet_route_to node : quiet (route_to self addr_of node).
Proof using Type.
  unfold route_to. destruct (String.eqb node self); [|done].
  apply emits_bind; [apply quiet_trigger; by intros []|]. intros []; cbn [negb]; [|done].
  apply emits_bind; [apply quiet_trigger; by intros []|done].
Qed.

Lemma quiet_handover repo : quiet (handover_target self hash repo).
Proof using Type.
  apply emits_bind; [apply quiet_now|]. intros now. apply emits_bind; [apply quiet_map_all|].
  intros all. apply emits_bind; [apply quiet_load|done].
Qed.

Lemma quiet_cache {X} (f : Z -> caches -> X * caches) :
  quiet (let! now := node_now in with_caches (f now)).
Proof using Type.
  apply emits_bind; [apply quiet_now|]. intros now. apply quiet_trigger. by intros [].
Qed.

Lemma quiet_prefix repo : quiet (prefix_exists repo).
Proof using Type.
  unfold prefix_exists. destruct (split_once _ _) as [[o n]|]; [|done].
  apply emits_bind; [apply quiet_trigger; by intros []|done].
Qed.

Lemma quiet_silent {A} (p : prog (node_eff V) A) t a :
  Exists (ev_ok loud) t -> traces p t a -> quiet p -> False.
Proof using Type.
  intros He Ht Hp. eapply emits_traces in Ht; [|exact Hp].
  apply Exists_exists in He as (ev & Hin & Hl). rewrite Forall_forall in Ht.
  specialize (Ht _ Hin). by destruct ev.
Qed.

(** The part of routing that follows a claim; everything before it is quiet. *)
Lemma quiet_unnamed_head repo mc named tr r :
  traces (route_unnamed self addr_of hash repo mc named) tr r -> Exists (ev_ok loud) tr ->
  mc = true \/ calls (prefix_exists repo) tr true.
Proof using Type.
  intros H Hloud. destruct mc; [by left|right].
  unfold route_unnamed in H.
  tr_step. apply Exists_app in Hloud as [Hl|Hloud].
  { exfalso. eapply (quiet_silent _ _ _ Hl); [eassumption|apply quiet_trigger; by intros []]. }
  destruct a; cbn [negb] in H; [|tr_step; by apply Exists_nil in Hloud].
  tr_step. apply Exists_app in Hloud as [Hl|Hloud].
  { exfalso. eapply (quiet_silent _ _ _ Hl); [eassumption|apply quiet_trigger; by intros []]. }
  tr_step. apply Exists_app in Hloud as [Hl|Hloud].
  { exfalso. eapply (quiet_silent _ _ _ Hl); [eassumption|]. destruct a; [done|apply quiet_load]. }
  destruct a0.
  { exfalso. eapply (quiet_silent _ _ _ Hloud); [exact H|]. apply emits_bind; [apply quiet_handover|].
    intros [peer|]; [apply quiet_route_to|done]. }
  tr_step. apply Exists_app in Hloud as [Hl|Hloud].
  { exfalso. eapply (quiet_silent _ _ _ Hl); [eassumption|apply quiet_prefix]. }
  destruct a0; [tr_calls|].
  exfalso. eapply (quiet_silent _ _ _ Hloud); [exact H|].
  apply emits_bind; [apply quiet_cache|]. intros []; [|done].
  apply emits_bind; [apply quiet_ask_owner|]. intros [[e|]|err];
    [|apply emits_bind; [apply quiet_cache|done]..].
  apply emits_bind; [apply quiet_now|]. intros now.
  destruct (negb _); [apply quiet_route_to|apply emits_bind; [apply quiet_cache|done]].
Qed.

(** A request makes this node write to the map, or ask the leader for anything but an answer,
    only if its route can create the database or there may be something under the repository's
    prefix already: a name nobody ever pushed to costs no write, whoever asks for it. *)
Theorem empty_names_write_nothing repo mc tr r :
  traces (route_for self addr_of hash repo mc) tr r -> Exists (ev_ok loud) tr ->
  mc = true \/ calls (prefix_exists repo) tr true.
Proof using Type.
  intros H Hloud.
  unfold route_for in H. tr_step. apply Exists_app in Hloud as [Hl|Hloud].
  { exfalso. eapply (quiet_silent _ _ _ Hl); [eassumption|apply quiet_now]. }
  tr_step. apply Exists_app in Hloud as [Hl|Hloud].
  { exfalso. eapply (quiet_silent _ _ _ Hl); [eassumption|apply quiet_map_get]. }
  destruct a0 as [[e|]|err]; [destruct (negb _)| |].
  - exfalso. eapply (quiet_silent _ _ _ Hloud); [exact H|apply quiet_route_to].
  - apply quiet_unnamed_head in H as [?|?]; [by left|right; tr_calls|done].
  - apply quiet_unnamed_head in H as [?|?]; [by left|right; tr_calls|done].
  - tr_step. by apply Exists_nil in Hloud.
Qed.
End quiet.

Definition loudb {V} (ev : event (node_eff V)) : bool :=
  match ev with
  | Event X e _ =>
    match e with
    | NPost _ what _ => negb (String.eqb what "owner")
    | NApp (AMap (MWrite _)) => true
    | _ => false
    end
  end.

Lemma loudb_loud {V} (tr : list (event (node_eff V))) :
  existsb loudb tr = true -> Exists (ev_ok loud) tr.
Proof.
  intros (ev & Hin & Hl)%existsb_exists. apply Exists_exists. exists ev.
  split; [by apply list_elem_of_In|]. destruct ev as [X e x]. cbn in *.
  destruct e as [X e| | | | | | | | | |a w b| | | |]; try done.
  - by destruct e as [| | | | | | |X []| |].
  - apply negb_true_iff in Hl. by apply String.eqb_neq.
Qed.

(** A cold repository with something under its prefix is claimed from the leader. *)
Definition cold_answers := plain_answers (set_leader (Some "lead") (app_new "me" false)) ∅ 5.
Definition cold_trace : list (event (node_eff nat)) :=
  trace_of cold_answers (route_for "me" id (fun _ _ => 0) "o/r" false).

Lemma empty_names_write_nothing_witness :
  existsb loudb cold_trace = true /\ (false = true \/ calls (prefix_exists "o/r") cold_trace true).
Proof.
  assert (Hl : existsb loudb cold_trace = true) by (vm_compute; reflexivity).
  split; [exact Hl|].
  apply (empty_names_write_nothing "me" id (fun _ _ => 0) "o/r" false cold_trace RUnavailable).
  - apply trace_of_traces. vm_compute. reflexivity.
  - by apply loudb_loud.
Defined.
