(* ===== verification/Router.v ===== *)
(** * Router: the middleware in front of every handler, [bins/server/src/router/route.rs]

    What a path alone decides ([classify], [repo_of] and the key derivations of [crates/registry],
    [crates/workspaces] and [crates/git]), the middleware [route_inner] with its recovery after a
    failed forward, and the leader's wire protocol ([own_claim] and its siblings).
    [only_owned_is_opened] says when a handler may run here. *)

From S2P Require Import Prelude Text Names Prog ObjStore App Election Grants Node Routing.
From S2P Require Ownership.
Import Ownership (entry, grant, Granted, HeldBy, route, RLocal, RPeer, RUnavailable, RMissing).
Local Open Scope string_scope.
Local Open Scope Z_scope.

(** ** Paths *)
Definition IMAGE_TAILS : list string := ["blobs"; "manifests"; "tags"; "referrers"].
Definition LOCAL_V2 : list string := [""; "token"; "_catalog"].
Definition GIT_ROUTE_TAILS : list string := ["info"; "git-upload-pack"; "git-receive-pack"].
Definition BROWSE_TAILS : list string :=
  ["refs"; "tree"; "blob"; "log"; "commit"; "files"; "lastmod"; "compare"; "signature";
   "visibility"; "create"; "description"; "delete"; "protect"; "branchdelete"; "merge"; "patch";
   "images"; "imagetags"; "imagetagdelete"; "imagedelete"; "imagevisibility";
   "volumes"; "volumehistory"; "pulls"].

Definition is_v2_path (path : string) : bool :=
  let p := trim_start_char "/" path in String.eqb p "v2" || starts_with "v2/" p.

Definition image_route (path : string) : option (string * string) :=
  rest ← strip_prefix "v2/" (trim_start_char "/" path);
  match split "/" rest with
  | owner :: name :: tail :: _ =>
    if negb (mem_str tail IMAGE_TAILS) then None
    else if valid_owner owner && valid_segment name then Some (owner, name) else None
  | _ => None
  end.

(** [registry::routing_key] and [kloudlite_workspaces::registry::routing_key]. *)
Definition image_key (owner name : string) : string := "img/" +:+ owner +:+ "/" +:+ name.
Definition volume_key (owner name : string) : string := "vol/" +:+ owner +:+ "/" +:+ name.
Definition repo_key (owner name : string) : string := owner +:+ "/" +:+ name.

Definition api_prefixed (path : string) : bool :=
  let p := trim_start_char "/" path in String.eqb p "api" || starts_with "api/" p.

Definition git_shape (path : string) : bool :=
  if api_prefixed path then false
  else match split "/" (trim_start_char "/" path) with
       | _ :: _ :: tail :: _ => mem_str tail GIT_ROUTE_TAILS
       | _ => false
       end.

Definition api_route (path : string) : option (string * string * string) :=
  rest ← strip_prefix "api/" (trim_start_char "/" path);
  match split "/" rest with
  | owner :: second :: tail :: _ =>
    if mem_str tail BROWSE_TAILS then Some (owner, second, tail) else None
  | [owner; second] => if mem_str second BROWSE_TAILS then Some (owner, "", "") else None
  | _ => None
  end.

Definition may_create (method path : string) : bool :=
  match api_route (trim_start_char "/" path) with
  | Some (_, name, tail) => negb (String.eqb name "") && String.eqb tail "create"
  | None => false
  end ||
  (is_some (image_route (trim_start_char "/" path)) && mem_str method ["POST"; "PUT"; "PATCH"]).

Definition repo_of (path0 : string) : option string :=
  let path := trim_start_char "/" path0 in
  if is_v2_path path then
    '(owner, name) ← image_route path; Some (image_key owner name)
  else if api_prefixed path then
    '(owner, name, tail) ← api_route path;
    if String.eqb name "" then None
    else if mem_str tail ["imagetags"; "imagetagdelete"; "imagedelete"; "imagevisibility"]
    then Some (image_key owner name)
    else if String.eqb tail "volumehistory" then Some (volume_key owner name)
    else '(owner, name) ← parse_repo_pair owner name; Some (repo_key owner name)
  else
    match split "/" path with
    | owner :: name :: rest :: _ =>
      if negb (mem_str rest GIT_ROUTE_TAILS) then None
      else '(owner, name) ← parse_repo_pair owner name; Some (repo_key owner name)
    | _ => None
    end.

Definition is_git_route (path : string) : bool :=
  git_shape path ||
  match api_route path with Some (_, name, _) => negb (String.eqb name "") | None => false end ||
  is_some (image_route path).

Inductive routing :=
| Local_
| NotFound
| NoSuchImage
| BadRepoPath
| Repo (key : string).

Definition classify (path : string) (peer : bool) : routing :=
  if negb peer && api_prefixed path then NotFound
  else if mem_str (trim_start_char "/" path) ["api/admin/settings"; "api/admin/settings/revert"]
  then Local_
  else if api_prefixed path && is_none (api_route path) then NotFound
  else if is_v2_path path && is_none (image_route path) then
    if mem_str (trim_start_char "/" (trim_start_str "v2" (trim_start_char "/" path))) LOCAL_V2
    then Local_ else NoSuchImage
  else match repo_of path with
       | Some r => Repo r
       | None => if is_git_route path then BadRepoPath else Local_
       end.

Definition MAX_HOPS : Z := 2.

(** The hop header: [None] absent, [Some None] not text. *)
Definition hops_of (h : option (option string)) : Z :=
  match h with
  | None => 0
  | Some v =>
    match v with
    | Some s => match parse_uint (2 ^ 32 - 1) s with inl z => z | inr _ => MAX_HOPS end
    | None => MAX_HOPS
    end
  end.

(** ** Recovery after a forward that could not connect *)
Inductive recovery :=
| ServeHere
| ForwardTo (node : string)
| Force
| GiveUp.

Definition granted_entry (g : grant) : entry := match g with Granted e | HeldBy e => e end.

Definition decide_recovery (asked : option grant) (unreachable me : string) : recovery :=
  match asked with
  | Some g =>
    let e := granted_entry g in
    if String.eqb (Ownership.node e) me then ServeHere
    else if negb (String.eqb (Ownership.node e) unreachable) then ForwardTo (Ownership.node e)
    else Force
  | None => GiveUp
  end.

(** ** The middleware *)

(** What the middleware reads of a request. *)
Record request := Request {
  method : string;
  path_ : string;
  hops_header : option (option string);
  trusted : option string;
}.

Definition UNAVAILABLE : response :=
  Response 503 "no node may safely serve this repository right now; retry".

Section code.
Context {V : Type}.
Local Abbreviation N := (prog (node_eff V)).
Context (self : string) (addr_of : string -> string) (hash : string -> string -> Z).

(** The last steps of [recover_after_forward]. *)
Definition recover_act (owner : string) (hops : Z) (next : recovery) : N response :=
  let bad := Ret (Response 502 "peer error") in
  match next with
  | ServeHere => serve None
  | ForwardTo node =>
    let! r := forward (addr_of node) owner hops in
    match r with Forwarded res => Ret res | ForwardErr _ => bad end
  | Force | GiveUp => bad
  end.

(** [replay]: a [GET], which can be sent again. *)
Definition recover_after_forward (repo : string) (peer : Ownership.peer) (owner : string)
    (hops : Z) (replay is_connect : bool) : N response :=
  if replay && is_connect then
    let! ask := may_ask_to_recover repo in
    match ask with
    | false => Ret (Response 502 "peer error")
    | true =>
      let! asked := claim_to_recover self addr_of repo in
      match decide_recovery (match asked with Ok g => Some g | Err _ => None end)
              (Ownership.peer_name peer) self with
      | Force =>
        let! again := forward (addr_of (Ownership.peer_name peer)) owner hops in
        match again with
        | Forwarded res => Ret res
        | ForwardErr false => Ret (Response 502 "peer error")
        | ForwardErr true =>
          let! forced := force_claim self addr_of repo in
          match forced with
          | Ok g => recover_act owner hops
                      (decide_recovery (Some (Granted (granted_entry g)))
                         (Ownership.peer_name peer) self)
          | Err _ => recover_act owner hops GiveUp
          end
        end
      | next => recover_act owner hops next
      end
    end
  else Ret (Response 502 "peer error").

Definition route_inner (req : request) (peer : bool) : N response :=
  match classify (path_ req) peer with
  | Local_ => serve None
  | NotFound => Ret (Response 404 "not found")
  | NoSuchImage => Ret (Response 404 "no such image")
  | BadRepoPath => Ret (Response 400 "invalid repository path")
  | Repo repo =>
    let hops := hops_of (hops_header req) in
    let! r := route_for self addr_of hash repo (may_create (method req) (path_ req)) in
    match r with
    | RMissing => serve (Some repo)
    | _ =>
      if MAX_HOPS <=? hops then
        match r with
        | RLocal => serve None
        | _ => Ret (Response 503 "routing disagreement at hop limit; retry")
        end
      else
        match r with
        | RLocal | RMissing => serve None
        | RUnavailable => Ret UNAVAILABLE
        | RPeer p =>
          let owner := default "" (trusted req) in
          let! f := forward (Ownership.peer_addr p) owner hops in
          match f with
          | Forwarded res => Ret res
          | ForwardErr c => recover_after_forward repo p owner hops (String.eqb (method req) "GET") c
          end
        end
    end
  end.

(** ** The leader's side of the wire *)
Definition not_the_leader : response := Response 421 "not the leader; read cluster/leader".

Definition internal (e : error) : response :=
  match e with EUnowned => Response 404 "not found" | _ => Response 500 "internal error" end.

Definition own_err (e : error) : N response :=
  let! leads := leads_now in Ret (if leads then internal e else not_the_leader).

(** The body of a claim: two lines, or three when the third is [force]. *)
Definition claim_request (body : string) : option (string * string * bool) :=
  match split nl (trim_end body) with
  | [repo; node] =>
    if String.eqb repo "" || String.eqb node "" then None else Some (repo, node, false)
  | [repo; node; f] =>
    if String.eqb repo "" || String.eqb node "" || negb (String.eqb f "force") then None
    else Some (repo, node, true)
  | _ => None
  end.

Definition entry_lines (e : entry) : string :=
  (Ownership.node e +:+ String nl (display (Ownership.expires_ms e)))%string.

Definition claim_reply (g : grant) : string :=
  match g with
  | Granted e => ("granted" +:+ String nl (entry_lines e))%string
  | HeldBy e => ("heldby" +:+ String nl (entry_lines e))%string
  end.

Definition own_claim (body : string) : N response :=
  let! leads := leads_now in
  if negb leads then Ret not_the_leader
  else match claim_request body with
       | None => Ret (Response 400 "repo node [force]")
       | Some (repo, node, force) =>
         let! r := on_app (grant_claim repo node force) in
         match r with
         | Ok g => Ret (Response 200 (claim_reply g))
         | Err e => own_err e
         end
       end.

Definition owner_reply (o : option entry) : string :=
  match o with Some e => entry_lines e | None => "" end.

Definition own_owner (body : string) : N response :=
  let! leads := leads_now in
  if negb leads then Ret not_the_leader
  else
    let repo := trim_end body in
    if String.eqb repo "" || contains_char nl repo then Ret (Response 400 "repo")
    else
      let! r := ask_owner addr_of repo in
      match r with
      | Ok o => Ret (Response 200 (owner_reply o))
      | Err e => own_err e
      end.

Definition renew_request (body : string) : option (string * list string) :=
  match split nl (trim_end body) with
  | node :: repos =>
    if String.eqb node "" then None else Some (node, filter (fun l => l <> "") repos)
  | [] => None
  end.

Definition join_lines (l : list string) : string := String.concat (String nl "") l.

Definition own_renew (body : string) : N response :=
  let! leads := leads_now in
  if negb leads then Ret not_the_leader
  else match renew_request body with
       | None => Ret (Response 400 "node repo...")
       | Some (node, repos) =>
         let! r := on_app (grant_renew node repos) in
         match r with
         | Ok lost => Ret (Response 200 (join_lines lost))
         | Err e => own_err e
         end
       end.

Definition two_lines (body : string) : option (string * string) :=
  match split nl (trim_end body) with
  | [repo; node] =>
    if negb (String.eqb repo "") && negb (String.eqb node "") then Some (repo, node) else None
  | _ => None
  end.

Definition own_release (body : string) : N response :=
  let! leads := leads_now in
  if negb leads then Ret not_the_leader
  else match two_lines body with
       | None => Ret (Response 400 "repo node")
       | Some (repo, node) =>
         let! r := on_app (grant_release repo node) in
         match r with
         | Ok _ => Ret (Response 200 "")
         | Err e => own_err e
         end
       end.

(** Readiness and liveness. *)
Definition healthz : N response :=
  let! ok := healthy in
  if negb ok then Ret (Response 503 "object store unreachable")
  else
    let! leaving := is_draining in
    if leaving then Ret (Response 503 "draining")
    else
      let! leads := leads_now in
      let! live := (if leads then Ret true
                    else let! now := node_now in on_app (load (fun a => leader_live a now))) in
      if negb live then Ret (Response 503 "no live leader") else Ret (Response 200 "ok").

Definition livez : N response :=
  let! ok := healthy in
  Ret (if ok then Response 200 "ok" else Response 503 "object store unreachable").

(** [POST /peer/v1/drain]. *)
Definition drain_handler (fuel : nat) : N response :=
  let! already := on_app begin_draining in
  match already with
  | true => Ret (Response 200 "draining")
  | false =>
    let! r := timeout (drain self addr_of hash fuel) in
    Ret (match r with Some _ => Response 200 "drained" | None => Response 200 "drain timed out" end)
  end.
End code.

(** ** When a handler runs here *)
Section opened.
Context {V : Type} (self : string) (addr_of : string -> string) (hash : string -> string -> Z).

Definition no_serve (X : Type) (e : node_eff V X) : Prop :=
  match e with NServe _ => False | _ => True end.

Lemma no_serve_app {A} (p : prog (app_eff V) A) : emits no_serve (on_app p).
Proof using Type. by apply emits_lift. Qed.

Lemma no_serve_trigger {X} (e : node_eff V X) : no_serve X e -> emits no_serve (trigger e).
Proof using Type. done. Qed.

Ltac no_serve_step :=
  lazymatch goal with
  | |- emits _ (Ret _) => exact I
  | |- emits _ (on_app _) => apply no_serve_app
  | |- emits _ (trigger _) => apply no_serve_trigger; exact I
  | |- emits _ (bind _ _) => apply emits_bind; [|intros ?]
  | |- emits _ (bind_res _ _) => apply emits_bind_res; [|intros ?]
  | |- emits _ (match ?x with _ => _ end) => destruct x
  end.
Ltac no_serve := repeat no_serve_step.

Lemma no_serve_ask_loop n : forall first what body p known last,
  emits no_serve (ask_loop addr_of n first what body p known last).
Proof using Type.
  induction n as [|n IH]; intros first what body p known last; cbn [ask_loop]; [exact I|].
  unfold refresh_leader, node_now, post. no_serve; try apply IH.
Qed.

Lemma no_serve_ask what body p : emits no_serve (ask_leader_with addr_of what body p).
Proof using Type.
  unfold ask_leader_with, ask_from_cache. destruct p; no_serve; apply no_serve_ask_loop.
Qed.

Lemma no_serve_claim repo asker force p : emits no_serve (claim_as addr_of repo asker force p).
Proof using Type. unfold claim_as, leads_now. no_serve; apply no_serve_ask. Qed.

Lemma no_serve_recover repo : emits no_serve (claim_to_recover self addr_of repo).
Proof using Type.
  unfold claim_to_recover, may_not_take, healthy, is_closed, is_draining, claim_inner.
  no_serve; apply no_serve_claim.
Qed.

Lemma no_serve_force repo : emits no_serve (force_claim self addr_of repo).
Proof using Type.
  unfold force_claim, may_not_take, prefix_exists, exists_prefix, healthy, is_closed, is_draining,
    claim_inner.
  no_serve; apply no_serve_claim.
Qed.

Lemma no_serve_route_to n : emits no_serve (route_to self addr_of n).
Proof using Type. unfold route_to, healthy, is_closed. no_serve. Qed.

Lemma no_serve_ask_owner repo : emits no_serve (ask_owner addr_of repo).
Proof using Type. unfold ask_owner, leads_now, owner. no_serve. apply no_serve_ask. Qed.

Lemma no_serve_handover repo : emits no_serve (handover_target self hash repo).
Proof using Type. unfold handover_target, node_now. no_serve. Qed.

Lemma no_serve_note repo :
  emits no_serve (may_ask_who_owns (V:=V) repo) /\ emits no_serve (note_no_owner (V:=V) repo).
Proof using Type. unfold may_ask_who_owns, note_no_owner, node_now, with_caches. split; no_serve. Qed.

Lemma no_serve_prefix repo : emits no_serve (prefix_exists (V:=V) repo).
Proof using Type. unfold prefix_exists, exists_prefix. no_serve. Qed.

Lemma no_serve_route repo mc : emits no_serve (route_for self addr_of hash repo mc).
Proof using Type.
  unfold route_for, route_unnamed, owner, node_now, healthy, is_closed, is_draining, warm_repos,
    claim, claim_inner.
  no_serve;
    lazymatch goal with
    | |- emits _ (route_to _ _ _) => apply no_serve_route_to
    | |- emits _ (claim_as _ _ _ _ _) => apply no_serve_claim
    | |- emits _ (ask_owner _ _) => apply no_serve_ask_owner
    | |- emits _ (handover_target _ _ _) => apply no_serve_handover
    | |- emits _ (may_ask_who_owns _) => apply no_serve_note
    | |- emits _ (note_no_owner _) => apply no_serve_note
    | |- emits _ (prefix_exists _) => apply no_serve_prefix
    end.
Qed.

(** A handler ran, outside the scope in which nothing can be opened. *)
Definition served (tr : list (event (node_eff V))) : Prop :=
  exists x, Event _ (NServe None) x ∈ tr.

Lemma served_app tr1 tr2 : served (tr1 ++ tr2) -> served tr1 \/ served tr2.
Proof using Type. intros [x [H|H]%elem_of_app]; [left|right]; by exists x. Qed.

Lemma not_served {A} (p : prog (node_eff V) A) tr a :
  traces p tr a -> emits no_serve p -> ~ served tr.
Proof using Type.
  intros Ht Hp [x Hx]. eapply emits_traces in Ht; [|exact Hp].
  rewrite Forall_forall in Ht. exact (Ht _ Hx).
Qed.

Lemma forward_not_served addr o hops tr a :
  traces (forward (V:=V) addr o hops) tr a -> ~ served tr.
Proof using Type. intros H. eapply not_served; [exact H|]. by apply no_serve_trigger. Qed.

Lemma recover_act_served o hops next tr r :
  traces (recover_act (V:=V) addr_of o hops next) tr r -> served tr -> next = ServeHere.
Proof using Type.
  destruct next; [done|..]; cbn [recover_act]; intros H Hs; exfalso.
  - tr_step. apply served_app in Hs as [Hs|Hs]; [by eapply forward_not_served in Hs|].
    destruct a; tr_step; by destruct Hs as [? []%elem_of_nil].
  - tr_step. by destruct Hs as [? []%elem_of_nil].
  - tr_step. by destruct Hs as [? []%elem_of_nil].
Qed.

Lemma recovery_serves asked unreachable :
  decide_recovery asked unreachable self = ServeHere ->
  exists g, asked = Some g /\ Ownership.node (granted_entry g) = self.
Proof using Type.
  unfold decide_recovery. destruct asked as [g|]; [|done].
  destruct (String.eqb_spec (Ownership.node (granted_entry g)) self) as [Hn|Hn];
    [by exists g|]. by destruct (negb _).
Qed.

(** The leader gave this node the repository after the forward failed. *)
Definition recovered (repo : string) tr : Prop :=
  exists g, (calls (claim_to_recover (V:=V) self addr_of repo) tr (Ok g) \/
             calls (force_claim self addr_of repo) tr (Ok g)) /\
    Ownership.node (granted_entry g) = self.

Lemma recovered_later repo tr1 tr2 : recovered repo tr2 -> recovered repo (tr1 ++ tr2).
Proof using Type.
  intros (g & [H|H] & Hn); exists g; (split; [|done]); [left|right]; by apply calls_later.
Qed.

Lemma recover_served repo peer o hops replay c tr r :
  traces (recover_after_forward (V:=V) self addr_of repo peer o hops replay c) tr r ->
  served tr -> recovered repo tr.
Proof using Type.
  unfold recover_after_forward. intros H Hs.
  destruct (replay && c); [|tr_step; by destruct Hs as [? []%elem_of_nil]].
  tr_step. apply served_app in Hs as [Hs|Hs].
  { exfalso. eapply not_served in Hs; [done|eassumption|].
    unfold may_ask_to_recover, node_now, with_caches. no_serve. }
  destruct a; [|tr_step; by destruct Hs as [? []%elem_of_nil]].
  tr_step. apply served_app in Hs as [Hs|Hs].
  { exfalso. eapply not_served in Hs; [done|eassumption|apply no_serve_recover]. }
  destruct (decide_recovery _ _ _) eqn:Ed.
  - apply recovery_serves in Ed as (g & Hg & Hn). destruct a as [g'|]; [|done]. injection Hg as ->.
    exists g. split; [left; tr_calls|done].
  - exfalso. by apply recover_act_served in H.
  - tr_step. apply served_app in Hs as [Hs|Hs]; [exfalso; by eapply forward_not_served in Hs|].
    destruct a0 as [res|[|]]; [tr_step; by destruct Hs as [? []%elem_of_nil]|
      |tr_step; by destruct Hs as [? []%elem_of_nil]].
    tr_step. apply served_app in Hs as [Hs|Hs].
    { exfalso. eapply not_served in Hs; [done|eassumption|apply no_serve_force]. }
    destruct a0 as [g|e]; apply recover_act_served in H; try done.
    apply recovery_serves in H as (g' & [= <-] & Hn). exists g. split; [right; tr_calls|done].
  - exfalso. by apply recover_act_served in H.
Qed.

(** C5: a handler that can open a database runs on this node only if the path names none, or
    routing found the repository to be this node's, or the leader handed it over after its owner
    could not be reached.  Past the hop limit, only the first two. *)
Theorem only_owned_is_opened req peer tr resp :
  traces (route_inner self addr_of hash req peer) tr resp -> served tr ->
  classify (path_ req) peer = Local_ \/
  exists repo, classify (path_ req) peer = Repo repo /\
    (calls (route_for self addr_of hash repo (may_create (method req) (path_ req))) tr RLocal \/
     (hops_of (hops_header req) < MAX_HOPS /\ recovered repo tr)).
Proof using Type.
  unfold route_inner. intros H Hs.
  assert (Hnil : ~ served []) by (by intros [? []%elem_of_nil]).
  destruct (classify (path_ req) peer) as [| | | |repo]; [by left|by tr_step..|].
  right. exists repo. split; [done|].
  tr_step. apply served_app in Hs as [Hs|Hs].
  { exfalso. eapply not_served in Hs; [done|eassumption|apply no_serve_route]. }
  destruct a as [|p| |].
  - left. tr_calls.
  - destruct (Z.leb_spec MAX_HOPS (hops_of (hops_header req))); [by tr_step|].
    right. split; [done|].
    tr_step. apply served_app in Hs as [Hs|Hs]; [exfalso; by eapply forward_not_served in Hs|].
    destruct a as [res|c]; [by tr_step|]. eapply recover_served in H; [|done].
    by do 2 apply recovered_later.
  - by destruct (MAX_HOPS <=? _); tr_step.
  - exfalso. destruct H as (x & tr' & -> & -> & _). destruct Hs as [y Hy].
    apply list_elem_of_singleton in Hy. done.
Qed.
End opened.

(** The map names this node, so the handler runs. *)
Definition get_info (path : string) : request := Request "GET" path None None.
Definition mine_answers := plain_answers (app_new "me" false)
  {[ Ownership.key "o/r" := ("me" +:+ String nl "100")%string ]} 5.
Definition mine_trace : list (event (node_eff nat)) :=
  trace_of mine_answers (route_inner "me" id (fun _ _ => 0) (get_info "/o/r.git/info/refs") false).

Lemma only_owned_is_opened_witness :
  classify "/o/r.git/info/refs" false = Repo "o/r" /\
  (classify (path_ (get_info "/o/r.git/info/refs")) false = Local_ \/
   exists repo, classify (path_ (get_info "/o/r.git/info/refs")) false = Repo repo /\
     (calls (route_for "me" id (fun _ _ => 0) repo
        (may_create (method (get_info "/o/r.git/info/refs")) (path_ (get_info "/o/r.git/info/refs"))))
        mine_trace RLocal \/
      (hops_of (hops_header (get_info "/o/r.git/info/refs")) < MAX_HOPS /\
       recovered "me" id repo mine_trace))).
Proof.
  split; [vm_compute; reflexivity|].
  apply (only_owned_is_opened "me" id (fun _ _ => 0) (get_info "/o/r.git/info/refs") false
           mine_trace (Response 200 "")).
  - apply trace_of_traces. vm_compute. reflexivity.
  - exists (Response 200 ""). apply list_elem_of_In. vm_compute. tauto.
Defined.

(** ** The wire *)

(** A name that survives the line protocol. *)
Definition wire_name (s : string) : Prop :=
  contains_char nl s = false /\ s <> "" /\ trim_end s = s /\ all_ws s = false.

Lemma all_ws_nl s : all_ws (String nl s) = all_ws s.
Proof. reflexivity. Qed.

Lemma trim_end_nl a s : all_ws s = false -> trim_end s = s ->
  trim_end (a +:+ String nl s) = (a +:+ String nl s)%string.
Proof.
  intros Ha Ht. rewrite trim_end_app_ascii; [|by vm_compute|by rewrite all_ws_nl].
  cbn [trim_end]. by rewrite all_ws_nl, Ha, Ht.
Qed.

(** What a follower asks is what the leader reads: the body of a claim parses back to the
    repository, the node and the force it was written from, and the leader's reply to the grant it
    was written from. *)
Theorem claim_wire_roundtrip repo asker force g :
  contains_char nl repo = false -> repo <> "" -> wire_name asker ->
  contains_char nl (Ownership.node (granted_entry g)) = false ->
  strip_cr (Ownership.node (granted_entry g)) = Ownership.node (granted_entry g) ->
  u64 (Ownership.expires_ms (granted_entry g)) ->
  claim_request (claim_body repo asker force) = Some (repo, asker, force) /\
  parse_claim_reply (claim_reply g) = Ok g.
Proof.
  intros Hr Hr0 (Ha & Ha0 & Hat & Haw) Hn Hcr Hx. split.
  - unfold claim_request, claim_body. destruct force.
    + rewrite append_assoc || idtac.
      replace (repo +:+ String nl (asker +:+ String nl "force"))%string
        with ((repo +:+ String nl asker) +:+ String nl "force")%string by (by rewrite append_assoc).
      rewrite trim_end_nl by reflexivity. rewrite append_assoc.
      change (String nl asker +:+ String nl "force")%string with (String nl (asker +:+ String nl "force")).
      rewrite split_app by done. rewrite split_app by done. cbn [split].
      destruct (String.eqb_spec repo ""); [done|]. by destruct (String.eqb_spec asker "").
    + rewrite append_nil_r, trim_end_nl by done. rewrite split_app by done.
      rewrite split_no by done.
      destruct (String.eqb_spec repo ""); [done|]. by destruct (String.eqb_spec asker "").
  - assert (Hl : forall verb, contains_char nl verb = false -> strip_cr verb = verb ->
      lines (verb +:+ String nl (entry_lines (granted_entry g))) =
      [verb; Ownership.node (granted_entry g); display (Ownership.expires_ms (granted_entry g))]).
    { intros verb Hv Hvc. unfold lines, entry_lines.
      rewrite split_app by done. rewrite split_app by done.
      rewrite split_no by (by apply display_no_char). cbn [List.rev Datatypes.app].
      assert (display (Ownership.expires_ms (granted_entry g)) <> "") as Hd.
      { intros E. pose proof (parse_u64_display _ Hx) as Hp. rewrite E in Hp. done. }
      destruct (display _) eqn:Ed; [done|]. cbn [map List.rev Datatypes.app]. by rewrite Hvc, Hcr. }
    pose proof (parse_u64_display _ Hx) as Hp.
    assert (Hg : forall verb, lines (claim_reply g) = [verb; Ownership.node (granted_entry g);
        display (Ownership.expires_ms (granted_entry g))] ->
      parse_claim_reply (claim_reply g) =
        let e := granted_entry g in
        if String.eqb verb "granted" then Ok (Granted e)
        else if String.eqb verb "heldby" then Ok (HeldBy e)
        else Err (EMsg "claim reply: unknown verb")).
    { intros verb Hv. unfold parse_claim_reply, nth_line. rewrite Hv.
      generalize dependent (display (Ownership.expires_ms (granted_entry g))). intros d Hl Hp Hv.
      change (default "" ([verb; Ownership.node (granted_entry g); d] !! 2%nat)) with d.
      rewrite Hp. by destruct (granted_entry g). }
    destruct g as [e|e]; cbn [granted_entry claim_reply] in *;
      [rewrite (Hg "granted") by (by apply Hl)|rewrite (Hg "heldby") by (by apply Hl)]; done.
Qed.

Lemma claim_wire_roundtrip_witness :
  claim_request (claim_body "o/r" "kloudlite-1" true) = Some ("o/r", "kloudlite-1", true) /\
  parse_claim_reply (claim_reply (HeldBy (Ownership.Entry "kloudlite-2" 12))) =
    Ok (HeldBy (Ownership.Entry "kloudlite-2" 12)).
Proof.
  apply (claim_wire_roundtrip "o/r" "kloudlite-1" true (HeldBy (Ownership.Entry "kloudlite-2" 12)));
    try reflexivity; try done.
Defined.

(** ** Keys *)
Inductive keyspace := KRepo | KImage | KVolume.

(** The database a key of the ownership map names. *)
Definition key_database (k : string) : option (keyspace * string * string) :=
  match split "/" k with
  | [o; n] => Some (KRepo, o, n)
  | [p; o; n] =>
    if String.eqb p "img" then Some (KImage, o, n)
    else if String.eqb p "vol" then Some (KVolume, o, n) else None
  | _ => None
  end.

Lemma repo_key_database o n :
  slashless o -> slashless n -> key_database (repo_key o n) = Some (KRepo, o, n).
Proof.
  intros Ho Hn. unfold key_database, repo_key.
  change (o +:+ "/" +:+ n)%string with (o +:+ String "/" n)%string.
  by rewrite split_app, split_no.
Qed.

Lemma image_key_database o n :
  slashless o -> slashless n -> key_database (image_key o n) = Some (KImage, o, n).
Proof.
  intros Ho Hn. unfold key_database, image_key.
  change ("img/" +:+ o +:+ "/" +:+ n)%string with ("img" +:+ String "/" (o +:+ String "/" n))%string.
  by rewrite split_app, split_app, split_no.
Qed.

Lemma volume_key_database o n :
  slashless o -> slashless n -> key_database (volume_key o n) = Some (KVolume, o, n).
Proof.
  intros Ho Hn. unfold key_database, volume_key.
  change ("vol/" +:+ o +:+ "/" +:+ n)%string with ("vol" +:+ String "/" (o +:+ String "/" n))%string.
  by rewrite split_app, split_app, split_no.
Qed.

Lemma parse_repo_pair_valid o n o' n' :
  parse_repo_pair o n = Some (o', n') -> valid_segment o' = true /\ valid_segment n' = true.
Proof.
  unfold parse_repo_pair. intros H. case_match eqn:E; [done|]. injection H as <- <-. by bools.
Qed.

(** Segments of a split path. *)
Lemma split_slashless path l x : split "/" path = l -> x ∈ l -> slashless x.
Proof. intros <-. apply split_no_sep. Qed.

Lemma image_route_slashless p o n : image_route p = Some (o, n) -> slashless o /\ slashless n.
Proof.
  unfold image_route. destruct (strip_prefix _ _) as [rest|]; cbn -[mem_str split]; [|done].
  destruct (split "/" rest) as [|x [|y [|z l]]] eqn:E; try done.
  destruct (negb _); [done|]. destruct (valid_owner x && valid_segment y); [|done]. intros [= <- <-].
  split; apply (split_slashless _ _ _ E); [by left|right; by left].
Qed.

Lemma api_route_slashless p o n t : api_route p = Some (o, n, t) -> slashless o /\ slashless n.
Proof.
  unfold api_route. destruct (strip_prefix _ _) as [rest|]; cbn -[mem_str split]; [|done].
  destruct (split "/" rest) as [|x [|y [|z l]]] eqn:E; try done.
  - destruct (mem_str y BROWSE_TAILS); [|done]. intros [= <- <- <-].
    split; [|done]. apply (split_slashless _ _ _ E). by left.
  - destruct (mem_str z BROWSE_TAILS); [|done]. intros [= <- <- <-].
    split; apply (split_slashless _ _ _ E); [by left|right; by left].
Qed.

(** The key a path routes by names exactly one database: a [/v2/] path's the image it names, a
    git path's the repository it parses to, a browse path's the repository, image or volume of its
    two segments.  No two of the three keyspaces share a key. *)
Theorem route_key_names_one_database path k :
  repo_of path = Some k ->
  exists space o n, key_database k = Some (space, o, n) /\
    let p := trim_start_char "/" path in
    if is_v2_path p then space = KImage /\ image_route p = Some (o, n)
    else if api_prefixed p then exists tail o' n', api_route p = Some (o', n', tail) /\
      match space with
      | KRepo => parse_repo_pair o' n' = Some (o, n)
      | KImage => (o, n) = (o', n') /\ tail <> "volumehistory"
      | KVolume => (o, n) = (o', n') /\ tail = "volumehistory"
      end
    else space = KRepo /\ valid_segment o = true /\ valid_segment n = true.
Proof.
  unfold repo_of. set (p := trim_start_char "/" path). destruct (is_v2_path p).
  - destruct (image_route p) as [[o n]|] eqn:E; cbn [mbind option_bind]; [|done]. intros [= <-].
    destruct (image_route_slashless _ _ _ E). exists KImage, o, n.
    by rewrite image_key_database.
  - destruct (api_prefixed p).
    + destruct (api_route p) as [[[o n] tail]|] eqn:E; cbn [mbind option_bind]; [|done].
      destruct (api_route_slashless _ _ _ _ E) as [Ho Hn].
      destruct (String.eqb n ""); [done|].
      destruct (mem_str tail ["imagetags"; "imagetagdelete"; "imagedelete"; "imagevisibility"]) eqn:Et.
      { intros [= <-]. exists KImage, o, n. rewrite image_key_database by done.
        split; [done|]. exists tail, o, n. split; [done|]. split; [done|]. by intros ->. }
      destruct (String.eqb_spec tail "volumehistory") as [->|Hv].
      { intros [= <-]. exists KVolume, o, n. rewrite volume_key_database by done.
        split; [done|]. by exists "volumehistory", o, n. }
      destruct (parse_repo_pair o n) as [[o' n']|] eqn:Ep; cbn [mbind option_bind]; [|done]. intros [= <-].
      destruct (parse_repo_pair_valid _ _ _ _ Ep).
      exists KRepo, o', n'. rewrite repo_key_database by (by apply valid_segment_slashless).
      split; [done|]. by exists tail, o, n.
    + destruct (split "/" p) as [|o [|n [|t l]]]; try done.
      destruct (negb _); [done|]. destruct (parse_repo_pair o n) as [[o' n']|] eqn:Ep; cbn [mbind option_bind]; [|done].
      intros [= <-]. destruct (parse_repo_pair_valid _ _ _ _ Ep).
      exists KRepo, o', n'. by rewrite repo_key_database by (by apply valid_segment_slashless).
Qed.

Lemma route_key_names_one_database_witness :
  exists space o n, key_database "img/alice/web" = Some (space, o, n) /\
    let p := trim_start_char "/" "/v2/alice/web/manifests/latest" in
    if is_v2_path p then space = KImage /\ image_route p = Some (o, n)
    else if api_prefixed p then exists tail o' n', api_route p = Some (o', n', tail) /\
      match space with
      | KRepo => parse_repo_pair o' n' = Some (o, n)
      | KImage => (o, n) = (o', n') /\ tail <> "volumehistory"
      | KVolume => (o, n) = (o', n') /\ tail = "volumehistory"
      end
    else space = KRepo /\ valid_segment o = true /\ valid_segment n = true.
Proof.
  apply (route_key_names_one_database "/v2/alice/web/manifests/latest" "img/alice/web").
  vm_compute. reflexivity.
Defined.

(** A git path of the reserved owner [img] routes by a key that begins with [img/]: [repo_of]
    parses the owner with [valid_segment], which reserves nothing. *)
Theorem git_route_yields_img_key :
  valid_owner "img" = false /\ git_shape "/img/web/info/refs" = true /\
  repo_of "/img/web/info/refs" = Some "img/web" /\
  classify "/img/web/info/refs" false = Repo "img/web".
Proof. by vm_compute. Qed.
