(* ===== verification/Oci.v ===== *)
(** * Oci: digests, object paths and what a manifest names, [crates/registry]

    - [Digest], its strict parser and its printer ([store.rs]), and the object paths built from it;
    - JSON values as [serde_json::Value] has them (the parser itself is a dependency, the class
      [Serde]), and the walks over a manifest: [collect] ([gc.rs]), [declared_digests_parse],
      [declared_size], [prune_external] and [reference] ([manifests.rs]).

    [collect_names] is the specification of the walk; [pushed_digests_kept] relates the digests a
    push protects to the digests a sweep keeps. *)

From S2P Require Import Prelude Text Names ObjStore.
Local Open Scope string_scope.
Local Open Scope Z_scope.

(** ** Digests *)
Record Digest := mkDigest { algo : string; hex : string }.

#[global] Instance digest_eq_dec : EqDecision Digest.
Proof. solve_decision. Defined.

#[global] Program Instance digest_countable : Countable Digest :=
  inj_countable' (fun d => (algo d, hex d)) (fun p => mkDigest p.1 p.2) _.
Next Obligation. by intros []. Qed.

Definition hex_char (c : ascii) : bool := in_range 48 57 c || in_range 97 102 c.

Definition want_len (algo : string) : option Z :=
  if String.eqb algo "sha256" then Some 64
  else if String.eqb algo "sha512" then Some 128
  else None.

Module Digests.
Definition parse (s : string) : option Digest :=
  '(algo, hex) ← split_once ":" s;
  want ← want_len algo;
  if negb (str_len hex =? want) then None
  else if negb (all_chars hex_char hex) then None
  else Some (mkDigest algo hex).

Definition display (d : Digest) : string := algo d +:+ ":" +:+ hex d.
End Digests.

(** The hash functions, of the [sha2] crate; [crate::hex] prints lower-case. *)
Class Sha := {
  sha : string -> string -> string;
  sha_shape : forall a b n, want_len a = Some n ->
    str_len (sha a b) = n /\ all_chars hex_char (sha a b) = true;
}.

(** [Digest::of_algo] ([Hasher::new], [update] and [finish]) and [Digest::of]. *)
Definition of_algo `{Sha} (a bytes : string) : option Digest :=
  match want_len a with
  | Some _ => Some (mkDigest a (sha a bytes))
  | None => None
  end.

Definition of_bytes `{Sha} (bytes : string) : Digest := mkDigest "sha256" (sha "sha256" bytes).

(** ** Object paths *)
Section paths.
Context `{PathFrom}.

Definition blob_path (owner : string) (d : Digest) : path :=
  path_from ("blobs/" +:+ owner +:+ "/" +:+ algo d +:+ "/" +:+ hex d).

Definition manifest_prefix (owner name : string) : path :=
  path_from ("manifests/" +:+ owner +:+ "/" +:+ name).

Definition manifest_path (owner name : string) (d : Digest) : path :=
  path_from (manifest_prefix owner name +:+ "/" +:+ algo d +:+ "/" +:+ hex d).
End paths.

(** [gc::digest_from_path]: the last two segments. *)
Definition digest_from_path (p : path) : option string :=
  match List.rev (split "/" p) with
  | hex :: algo :: _ => Some (algo +:+ ":" +:+ hex)
  | _ => None
  end.

(** ** JSON *)
Inductive number : Type :=
| PosInt (n : Z)
| NegInt (n : Z)
| Float (bits : Z).

Inductive json : Type :=
| JNull
| JBool (b : bool)
| JNumber (n : number)
| JString (s : string)
| JArray (l : list json)
| JObject (m : list (string * json)).

(** [serde_json::from_slice]. *)
Class Serde := from_slice : string -> option json.

Fixpoint assoc {A} (k : string) (m : list (string * A)) : option A :=
  match m with
  | [] => None
  | (k', v) :: m => if String.eqb k' k then Some v else assoc k m
  end.

(** [Value::get], [as_str], [as_u64], [as_array], [is_object]. *)
Definition jget (k : string) (v : json) : option json :=
  match v with JObject m => assoc k m | _ => None end.
Definition as_str (v : json) : option string :=
  match v with JString s => Some s | _ => None end.
Definition as_u64 (v : json) : option Z :=
  match v with JNumber (PosInt n) => Some n | _ => None end.
Definition as_array (v : json) : option (list json) :=
  match v with JArray l => Some l | _ => None end.
Definition is_object (v : json) : bool :=
  match v with JObject _ => true | _ => false end.

(** [gc::collect]: every string under a key [digest], anywhere. *)
Fixpoint collect (v : json) (out : gset string) : gset string :=
  match v with
  | JObject m =>
    fold_left (fun out kv =>
      let '(k, v) := kv in
      let out := if String.eqb k "digest"
                 then match as_str v with Some s => {[ s ]} ∪ out | None => out end
                 else out in
      collect v out) m out
  | JArray l => fold_left (fun out v => collect v out) l out
  | _ => out
  end.

Definition declared_size `{Serde} (bytes : string) : Z :=
  match from_slice bytes with
  | None => 0
  | Some v =>
    let total := unwrap_or (c ← jget "config" v; s ← jget "size" c; as_u64 s) 0 in
    fold_left (fun total key =>
      match l ← jget key v; as_array l with
      | Some items =>
        fold_left sat_add64 (omap (fun l => s ← jget "size" l; as_u64 s) items) total
      | None => total
      end) ["layers"; "manifests"] total
  end.

Definition declared_digests_parse (v : json) : bool :=
  let ok := fun d => match jget "digest" d with
                     | Some s => is_some_and (as_str s) (fun s => is_some (Digests.parse s))
                     | None => true
                     end in
  is_none_or (jget "config" v) ok &&
  all (fun k => is_none_or (l ← jget k v; as_array l) (fun l => all ok l)) ["layers"; "manifests"].

(** A layer fetched from elsewhere, which this registry never holds. *)
Definition external (l : json) : bool :=
  let elsewhere := is_some_and (u ← jget "urls" l; as_array u) (fun u => negb (bool_decide (u = []))) in
  let foreign := is_some_and (t ← jget "mediaType" l; as_str t)
                   (fun t => contains_str ".foreign." t || contains_str ".nondistributable." t) in
  elsewhere || foreign.

(** What [put_manifest] walks: the object without its [subject], its layers without the external
    ones. *)
Definition prune_external (v : json) : json :=
  match v with
  | JObject m =>
    JObject (map (fun kv =>
      let '(k, v) := kv in
      (k, if String.eqb k "layers"
          then match v with
               | JArray l => JArray (List.filter (fun l => negb (external l)) l)
               | v => v
               end
          else v))
      (List.filter (fun kv => negb (String.eqb kv.1 "subject")) m))
  | v => v
  end.

(** ** References *)
Inductive Reference : Type :=
| RefDigest (d : Digest)
| RefTag (t : string).

Definition tag_start (c : ascii) : bool := ascii_alphanumeric c || Ascii.eqb c "_".
Definition tag_char (c : ascii) : bool :=
  ascii_alphanumeric c || Ascii.eqb c "." || Ascii.eqb c "_" || Ascii.eqb c "-".

Definition reference (s : string) : option Reference :=
  match Digests.parse s with
  | Some d => Some (RefDigest d)
  | None =>
    let ok := (str_len s <=? 128) &&
              match s with EmptyString => false | String c _ => tag_start c end &&
              all_chars tag_char s in
    if ok then Some (RefTag s) else None
  end.

(** ** Properties of digests *)
Definition valid_digest (d : Digest) : Prop :=
  exists n, want_len (algo d) = Some n /\ str_len (hex d) = n /\ all_chars hex_char (hex d) = true.

Lemma want_len_algo a n : want_len a = Some n -> a = "sha256" \/ a = "sha512".
Proof.
  unfold want_len. destruct (String.eqb_spec a "sha256"); [auto|].
  destruct (String.eqb_spec a "sha512"); [auto|done].
Qed.

Lemma digest_algo_no_colon d : valid_digest d -> contains_char ":" (algo d) = false.
Proof. intros (n & [-> | ->]%want_len_algo & _); reflexivity. Qed.

Lemma digest_algo_no_slash d : valid_digest d -> slashless (algo d).
Proof. intros (n & [-> | ->]%want_len_algo & _); reflexivity. Qed.

Lemma digest_hex_no_slash d : valid_digest d -> slashless (hex d).
Proof. intros (n & _ & _ & Hh). by eapply all_chars_no. Qed.

Lemma digest_parse_some s d :
  Digests.parse s = Some d <-> s = Digests.display d /\ valid_digest d.
Proof.
  unfold Digests.parse, Digests.display, valid_digest. split.
  - destruct (split_once ":" s) as [[a h]|] eqn:Es; [cbn|done].
    destruct (want_len a) as [n|] eqn:Ew; [cbn|done].
    destruct (str_len h =? n) eqn:El; [cbn|done].
    destruct (all_chars hex_char h) eqn:Eh; [cbn|done]. intros [= <-]. bools.
    apply split_once_some in Es as [-> _]. cbn [algo hex]. split; [done|]. by exists n.
  - intros (-> & Hv). pose proof (digest_algo_no_colon d Hv) as Hc. destruct Hv as (n & Hw & Hl & Hh).
    change (":" +:+ hex d)%string with (String ":" (hex d)).
    rewrite (split_once_app _ _ _ Hc). cbn. rewrite Hw. cbn. rewrite Hl, Z.eqb_refl, Hh. cbn.
    by destruct d.
Qed.

Lemma digest_parse_valid s d : Digests.parse s = Some d -> valid_digest d.
Proof. by intros [_ H]%digest_parse_some. Qed.

Lemma of_algo_valid `{Sha} a bytes d : of_algo a bytes = Some d -> valid_digest d.
Proof.
  unfold of_algo. destruct (want_len a) as [n|] eqn:E; [|done]. intros [= <-].
  exists n. cbn. split; [done|]. by apply sha_shape.
Qed.

Lemma of_bytes_valid `{Sha} body : valid_digest (of_bytes body).
Proof. exists 64. split; [done|]. by apply sha_shape. Qed.

(** ** Properties of paths *)
Definition plain_name (s : string) : Prop := plain_segment s = true /\ slashless s.

Lemma all_chars_list f s : all_chars f s = forallb f (list_ascii_of_string s).
Proof. induction s as [|c s IH]; [done|]. cbn. by rewrite IH. Qed.

Lemma valid_segment_plain s : valid_segment s = true -> plain_name s.
Proof.
  intros H. split; [|by apply valid_segment_slashless].
  unfold valid_segment in H. unfold plain_segment. rewrite all_chars_list in H. exact H.
Qed.

Lemma hex_plain s : s <> "" -> all_chars hex_char s = true -> plain_name s.
Proof.
  intros Hne Hs. split; [|by eapply all_chars_no]. unfold plain_segment.
  destruct (String.eqb_spec s ""); [done|]. cbn.
  destruct (String.eqb_spec s ".") as [->|]; [done|].
  destruct (String.eqb_spec s "..") as [->|]; [done|]. cbn.
  rewrite <- all_chars_list. clear -Hs. induction s as [|c s IH]; [done|]. cbn in *. bools.
  apply andb_true_iff. split; [|by apply IH]. unfold hex_char in *.
  destruct (in_range 48 57 c); [done|]. cbn in *. unfold in_range in *. bools.
  replace ((97 <=? byte_z c) && (byte_z c <=? 122)) with true; [by rewrite !orb_true_r|].
  symmetry. apply andb_true_iff. split; apply Z.leb_le; lia.
Qed.

Lemma digest_plain d : valid_digest d -> plain_name (algo d) /\ plain_name (hex d).
Proof.
  intros (n & Hw & Hl & Hh). split; [by destruct (want_len_algo _ _ Hw) as [-> | ->]|].
  apply hex_plain; [|done]. intros He. rewrite He in Hl. cbn in Hl. subst n.
  unfold want_len in Hw. by repeat case_match.
Qed.

(** Segments joined with slashes. *)
Fixpoint join_path (l : list string) : string :=
  match l with
  | [] => ""
  | [x] => x
  | x :: l => x +:+ "/" +:+ join_path l
  end.

Lemma split_join l : l <> [] -> Forall slashless l -> split "/" (join_path l) = l.
Proof.
  intros Hl. induction 1 as [|x [|y l] Hx Hf IH]; [done| |].
  - by apply split_no.
  - change (join_path (x :: y :: l)) with (x +:+ String "/" (join_path (y :: l)))%string.
    rewrite split_app by done. f_equal. by apply IH.
Qed.

Lemma plain_join l : l <> [] -> Forall plain_name l -> plain (join_path l) = true.
Proof.
  intros Hl Hf. unfold plain. rewrite split_join; [|done|by eapply Forall_impl; [exact Hf|by intros ? []]].
  apply forallb_forall. intros x Hx%list_elem_of_In. rewrite Forall_forall in Hf. by apply Hf.
Qed.

Lemma path_from_join `{PathFrom} l :
  l <> [] -> Forall plain_name l -> path_from (join_path l) = join_path l.
Proof. intros. by apply path_from_plain, plain_join. Qed.

Lemma join_inj l l' :
  l <> [] -> l' <> [] -> Forall plain_name l -> Forall plain_name l' ->
  join_path l = join_path l' -> l = l'.
Proof.
  intros Hl Hl' Hf Hf' E. rewrite <- (split_join l), <- (split_join l'); try done.
  - by rewrite E.
  - eapply Forall_impl; [exact Hf'|by intros ? []].
  - eapply Forall_impl; [exact Hf|by intros ? []].
Qed.

Lemma join_split s : join_path (split "/" s) = s.
Proof.
  induction s as [|c s IH]; [done|]. cbn [split]. destruct (Ascii.eqb_spec c "/") as [->|Hc].
  - destruct (split "/" s) eqn:E; [by apply split_not_nil in E|]. cbn. by rewrite <- IH.
  - destruct (split "/" s) as [|x [|y xs]] eqn:E; [by apply split_not_nil in E|..]; cbn in *; congruence.
Qed.

(** A parsed digest has the two halves it was parsed from, wherever else a colon might be. *)
Lemma digest_parse_halves a h d :
  Digests.parse (a +:+ ":" +:+ h) = Some d -> a = algo d /\ h = hex d.
Proof.
  intros [E Hv]%digest_parse_some. unfold Digests.display in E.
  pose proof (split_once_app ":" (algo d) (hex d) (digest_algo_no_colon d Hv)) as Hs.
  change (String ":" (hex d)) with (":" +:+ hex d)%string in Hs. rewrite <- E in Hs.
  change (":" +:+ h)%string with (String ":" h) in Hs.
  destruct (split_once ":" a) as [[x y]|] eqn:Ea.
  - apply split_once_some in Ea as [-> Hx].
    rewrite append_assoc in Hs. cbn [append] in Hs. rewrite split_once_app in Hs by done.
    injection Hs as _ Hh. destruct Hv as (n & _ & _ & Hc).
    assert (Hcol : contains_char ":" (hex d) = false) by (by eapply all_chars_no).
    rewrite <- Hh, contains_char_app in Hcol. cbn in Hcol. by rewrite orb_true_r in Hcol.
  - rewrite split_once_app in Hs by (by apply split_once_none). by injection Hs.
Qed.

(** ** What a manifest names *)
Inductive names : json -> string -> Prop :=
| names_here m s : ("digest", JString s) ∈ m -> names (JObject m) s
| names_field m k v s : (k, v) ∈ m -> names v s -> names (JObject m) s
| names_elem l v s : v ∈ l -> names v s -> names (JArray l) s.

Fixpoint json_nested (P : json -> Prop)
    (Hnull : P JNull) (Hbool : forall b, P (JBool b)) (Hnum : forall n, P (JNumber n))
    (Hstr : forall s, P (JString s)) (Harr : forall l, Forall P l -> P (JArray l))
    (Hobj : forall m, Forall (fun kv => P kv.2) m -> P (JObject m)) (v : json) : P v :=
  match v with
  | JNull => Hnull
  | JBool b => Hbool b
  | JNumber n => Hnum n
  | JString s => Hstr s
  | JArray l =>
    Harr l ((fix go l := match l return Forall P l with
                         | [] => Forall_nil_2 P
                         | v :: l => Forall_cons_2 P v l
                             (json_nested P Hnull Hbool Hnum Hstr Harr Hobj v) (go l)
                         end) l)
  | JObject m =>
    Hobj m ((fix go m := match m return Forall (fun kv => P kv.2) m with
                         | [] => Forall_nil_2 _
                         | kv :: m => Forall_cons_2 (fun kv => P kv.2) kv m
                             (json_nested P Hnull Hbool Hnum Hstr Harr Hobj kv.2) (go m)
                         end) m)
  end.

Lemma names_array l s : names (JArray l) s <-> exists v, v ∈ l /\ names v s.
Proof. split; [inversion 1; eauto|intros (v & ? & ?); by econstructor]. Qed.

Lemma names_object m s :
  names (JObject m) s <-> exists k v, (k, v) ∈ m /\ (k = "digest" /\ v = JString s \/ names v s).
Proof.
  split; [inversion 1; subst; eauto 6|].
  intros (k & v & Hin & [[-> ->]|Hn]); [by constructor|by econstructor].
Qed.

(** The walk collects exactly what the manifest names. *)
Lemma collect_names v : forall out s, s ∈ collect v out <-> s ∈ out \/ names v s.
Proof.
  induction v as [| | | |l IH|m IH] using json_nested; intros out x;
    try (cbn; split; [by left|by intros [?|Hn]; [|inversion Hn]]).
  - rewrite names_array. cbn [collect]. revert out. induction IH as [|v l Hv _ IHl]; intros out.
    + cbn. split; [by left|]. intros [?|(v & Hv & _)]; [done|]. by apply not_elem_of_nil in Hv.
    + cbn [fold_left]. rewrite IHl, Hv. setoid_rewrite elem_of_cons. naive_solver.
  - rewrite names_object. cbn [collect]. revert out. induction IH as [|[k v] m Hv _ IHm]; intros out.
    + cbn. split; [by left|]. intros [?|(k & v & Hv & _)]; [done|]. by apply not_elem_of_nil in Hv.
    + cbn [fold_left fst snd] in *. rewrite IHm, Hv. setoid_rewrite elem_of_cons.
      destruct (String.eqb_spec k "digest") as [->|Hk].
      * destruct v; cbn [as_str]; rewrite ?elem_of_union, ?elem_of_singleton; naive_solver.
      * naive_solver.
Qed.

(** Pruning names nothing new. *)
Lemma prune_names v s : names (prune_external v) s -> names v s.
Proof.
  destruct v as [| | | | |m]; cbn [prune_external]; try done. rewrite !names_object.
  intros (k & v & Hin%list_elem_of_In & Hs). apply in_map_iff in Hin as ([k' v'] & [= <- <-] & Hin).
  apply filter_In in Hin as [Hin%list_elem_of_In _]. exists k', v'. split; [done|].
  destruct (String.eqb_spec k' "layers") as [->|]; [|done].
  destruct v' as [| | | |l|]; try done. right.
  destruct Hs as [[? _]|(v & Hv%list_elem_of_In & Hn)%names_array]; [done|].
  apply filter_In in Hv as [Hv%list_elem_of_In _]. apply names_array. eauto.
Qed.

(** The digests a push of [bytes] has to find here, and the strings a sweep keeps for it. *)
Definition pushed_digests `{Serde} (bytes : string) : option (list Digest) :=
  v ← from_slice bytes;
  if negb (is_object v) then None
  else let v := prune_external v in
       if negb (declared_digests_parse v) then None
       else Some (omap Digests.parse (elements (collect v ∅))).

Lemma pushed_digests_kept `{Serde} bytes v ds d :
  from_slice bytes = Some v -> pushed_digests bytes = Some ds -> d ∈ ds ->
  Digests.display d ∈ collect v ∅ /\ valid_digest d.
Proof.
  unfold pushed_digests. intros -> Hp Hd. cbn in Hp. destruct (is_object v); [|done]. cbn in Hp.
  destruct (declared_digests_parse _); [|done]. injection Hp as <-.
  apply list_elem_of_omap in Hd as (s & Hs%elem_of_elements & Hp).
  apply digest_parse_some in Hp as [-> Hv]. split; [|done].
  rewrite collect_names in Hs |- *. destruct Hs as [?|Hs]; [by left|]. right. by apply prune_names.
Qed.
