(* ===== verification/BlobState.v ===== *)
(** * BlobState: one record per blob, [crates/registry/src/blob_state.rs]

    A blob of an owner is named by its digest; where its bytes are is said by a record at
    [state_path], changed only by conditional writes: the [active] generation with the pins that
    protect it, and the [retired] generations waiting to be deleted.  Each function of the file is a
    program over the object store, a clock, and a source of random nonces; [BlobSafe] proves what
    they guarantee together. *)

From S2P Require Import Prelude Text Names Prog ObjStore Oci.
Local Open Scope string_scope.
Local Open Scope Z_scope.

(** ** Records *)
Record BlobGeneration := mkGeneration {
  physical_key : string;
  pins : list string;
  installed_at : Z;
}.

Record RetiredGeneration := mkRetired {
  r_physical_key : string;
  retired_at : Z;
}.

Record BlobRecord := mkRecord {
  nonce : string;
  active : option BlobGeneration;
  retired : list RetiredGeneration;
}.

#[global] Instance generation_eq_dec : EqDecision BlobGeneration.
Proof. solve_decision. Defined.
#[global] Instance retired_eq_dec : EqDecision RetiredGeneration.
Proof. solve_decision. Defined.
#[global] Instance record_eq_dec : EqDecision BlobRecord.
Proof. solve_decision. Defined.

Definition with_nonce (n : string) (r : BlobRecord) : BlobRecord := mkRecord n (active r) (retired r).

(** [serde_json] on a record: what is written is read back. *)
Class RecordSerde := {
  to_vec : BlobRecord -> string;
  record_from_slice : string -> option BlobRecord;
  from_to : forall r, record_from_slice (to_vec r) = Some r;
}.

(** ** Pins *)
Definition pin_is_live (pin : string) (cutoff_millis : Z) : bool :=
  is_none_or (p ← rsplit_once "@" pin; ok_parse (parse_i64 p.2)) (fun t => cutoff_millis <=? t).

Definition has_live_pin (generation : BlobGeneration) (cutoff_millis : Z) : bool :=
  any (fun p => pin_is_live p cutoff_millis) (pins generation).

(** ** Effects: the object store, the clock, randomness and sleep

    [RCall] is a call of a dependency that may fail and leaves no object behind: opening a multipart
    upload, waiting for its parts, joining a blocking task. *)
Inductive reg_eff (V : Type) : Type -> Type :=
| ROs (X : Type) (e : os_eff V X) : reg_eff V X
| RNow : reg_eff V Z
| RNonce : reg_eff V string
| RRandom : reg_eff V Z
| RSleep (ms : Z) : reg_eff V unit
| RCall (what : string) : reg_eff V (result unit).
Arguments ROs {V} X e.
Arguments RNow {V}.
Arguments RNonce {V}.
Arguments RRandom {V}.
Arguments RSleep {V} ms.
Arguments RCall {V} what.

Section programs.
Context {V : Type} `{EqDecision V} `{PathFrom} `{RecordSerde}.
Abbreviation P := (prog (reg_eff V)).
Abbreviation os e := (trigger (ROs _ e)).

Definition state_path (owner : string) (d : Digest) : path :=
  path_from ("blob-state/" +:+ owner +:+ "/" +:+ algo d +:+ "/" +:+ hex d).

Definition generation_path (owner : string) (d : Digest) (generation : string) : path :=
  path_from ("blob-generations/" +:+ owner +:+ "/" +:+ algo d +:+ "/" +:+ hex d +:+ "/" +:+ generation).

Definition canonical_path (owner : string) (d : Digest) : path := blob_path owner d.

Definition owner_prefix (owner : string) : path := path_from ("blob-state/" +:+ owner +:+ "/").

Definition fresh_nonce : P string := trigger RNonce.
Definition now_millis : P Z := trigger RNow.

Definition manifest_publication (owner name : string) (d : Digest) : P string :=
  let! n := fresh_nonce in
  let! t := now_millis in
  Ret ("manifest/" +:+ owner +:+ "/" +:+ name +:+ "/" +:+ Digests.display d +:+ "#" +:+ n +:+ "@" +:+ display_i t).

Definition backoff (attempt : Z) : P unit :=
  let! r := trigger RRandom in
  trigger (RSleep (5 + r mod (20 * (attempt + 1)))).

(** ** Reading and writing a record *)
Record Loaded := mkLoaded { record : BlobRecord; version : V }.

Definition create (p : path) (r : BlobRecord) : P (result bool) :=
  let! x := os (OPut p (to_vec r) PutCreate) in
  Ret match x with
      | PutOk _ => Ok true
      | PutAlreadyExists | PutPrecondition => Ok false
      | PutErr e => Err e
      end.

Definition update (p : path) (r : BlobRecord) (current : V) : P (result bool) :=
  let! x := os (OPut p (to_vec r) (PutUpdate current)) in
  Ret match x with
      | PutOk _ => Ok true
      | PutPrecondition | PutAlreadyExists => Ok false
      | PutErr e => Err e
      end.

Definition read (p : path) : P (result (option Loaded)) :=
  let! x := os (OGet p) in
  Ret match x with
      | GetOk b v =>
        match record_from_slice b with
        | Some r => Ok (Some (mkLoaded r v))
        | None => Err (EMsg "json")
        end
      | GetNotFound => Ok None
      | GetErr e => Err e
      end.

Definition load (owner : string) (d : Digest) : P (result (option Loaded)) :=
  let path := state_path owner d in
  let!? found := read path in
  match found with
  | Some found => Ret (Ok (Some found))
  | None =>
    let! h := os (OHead (canonical_path owner d)) in
    match h with
    | HeadNotFound => Ret (Ok None)
    | HeadErr e => Ret (Err e)
    | HeadOk installed_at =>
      let! n := fresh_nonce in
      let record := mkRecord n (Some (mkGeneration (canonical_path owner d) [] installed_at)) [] in
      let!? _ := create path record in
      read path
    end
  end.

Definition resolve (owner : string) (d : Digest) : P (result (option path)) :=
  let!? l := load owner d in
  Ret (Ok (l ← l; a ← active (record l); Some (path_from (physical_key a)))).

Definition exists_ (owner : string) (d : Digest) : P (result bool) :=
  let!? p := resolve owner d in
  match p with
  | None => Ret (Ok false)
  | Some p =>
    let! h := os (OHead p) in
    Ret match h with
        | HeadOk _ => Ok true
        | HeadNotFound => Ok false
        | HeadErr e => Err e
        end
  end.

Definition new_generation (owner : string) (d : Digest) : P (string * path) :=
  let! id := fresh_nonce in
  Ret (id, generation_path owner d id).

(** [for attempt in 0..8]: a body that answers [None] backs off and goes again. *)
Fixpoint attempts {A} (n : nat) (attempt : Z) (body : P (result (option A))) (exhausted : string) :
    P (result A) :=
  match n with
  | O => Ret (Err (EMsg exhausted))
  | S n =>
    let!? r := body in
    match r with
    | Some a => Ret (Ok a)
    | None => backoff attempt ;;! attempts n (attempt + 1) body exhausted
    end
  end.

(** The end of each body: write the record under a new nonce, against the version read. *)
Definition store_record {A} (p : path) (r : BlobRecord) (v : V) (done : A) : P (result (option A)) :=
  let! n := fresh_nonce in
  let!? landed := update p (with_nonce n r) v in
  Ret (Ok (if landed then Some done else None)).

(** ** The operations *)
Definition install_once (owner : string) (d : Digest) (key : string) : P (result (option unit)) :=
  let path := state_path owner d in
  let!? current := load owner d in
  match current with
  | Some loaded =>
    let rec := record loaded in
    if is_some_and (active rec) (fun a => String.eqb (physical_key a) key) then Ret (Ok (Some tt))
    else
      match active rec with
      | Some old =>
        let! retired_at := now_millis in
        let! installed_at := now_millis in
        store_record path
          (mkRecord (nonce rec) (Some (mkGeneration key (pins old) installed_at))
             (retired rec ++ [mkRetired (physical_key old) retired_at])%list)
          (version loaded) tt
      | None =>
        let! installed_at := now_millis in
        store_record path
          (mkRecord (nonce rec) (Some (mkGeneration key [] installed_at)) (retired rec))
          (version loaded) tt
      end
  | None =>
    let! n := fresh_nonce in
    let! installed_at := now_millis in
    let!? landed := create path (mkRecord n (Some (mkGeneration key [] installed_at)) []) in
    Ret (Ok (if landed then Some tt else None))
  end.

Definition install (owner : string) (d : Digest) (key : string) : P (result unit) :=
  attempts 8 0 (install_once owner d key) "blob state CAS retries exhausted".

Definition add_pin (publication : string) (a : BlobGeneration) : BlobGeneration :=
  if any (fun p => String.eqb p publication) (pins a) then a
  else mkGeneration (physical_key a) (pins a ++ [publication])%list (installed_at a).

Definition pin_once (owner : string) (d : Digest) (publication : string) : P (result (option bool)) :=
  let!? loaded := load owner d in
  match loaded with
  | None => Ret (Ok (Some false))
  | Some loaded =>
    match active (record loaded) with
    | None => Ret (Ok (Some false))
    | Some a =>
      store_record (state_path owner d)
        (mkRecord (nonce (record loaded)) (Some (add_pin publication a)) (retired (record loaded)))
        (version loaded) true
    end
  end.

Definition pin (owner : string) (d : Digest) (publication : string) : P (result bool) :=
  attempts 8 0 (pin_once owner d publication) "blob pin CAS retries exhausted".

Definition drop_pin (publication : string) (a : BlobGeneration) : BlobGeneration :=
  mkGeneration (physical_key a) (List.filter (fun p => negb (String.eqb p publication)) (pins a))
    (installed_at a).

Definition unpin_once (owner : string) (d : Digest) (publication : string) : P (result (option unit)) :=
  let!? loaded := load owner d in
  match loaded with
  | None => Ret (Ok (Some tt))
  | Some loaded =>
    match active (record loaded) with
    | None => Ret (Ok (Some tt))
    | Some a =>
      store_record (state_path owner d)
        (mkRecord (nonce (record loaded)) (Some (drop_pin publication a)) (retired (record loaded)))
        (version loaded) tt
    end
  end.

Definition unpin (owner : string) (d : Digest) (publication : string) : P (result unit) :=
  attempts 8 0 (unpin_once owner d publication) "blob unpin CAS retries exhausted".

Definition retire_once (owner : string) (d : Digest) : P (result (option (option string))) :=
  let!? loaded := load owner d in
  match loaded with
  | None => Ret (Ok (Some None))
  | Some loaded =>
    match active (record loaded) with
    | None => Ret (Ok (Some None))
    | Some a =>
      let! retired_at := now_millis in
      store_record (state_path owner d)
        (mkRecord (nonce (record loaded)) None
           (retired (record loaded) ++ [mkRetired (physical_key a) retired_at])%list)
        (version loaded) (Some (physical_key a))
    end
  end.

Definition retire (owner : string) (d : Digest) : P (result (option string)) :=
  attempts 8 0 (retire_once owner d) "blob retire CAS retries exhausted".

(** The digest a state object's location names, or nothing for a location of another shape. *)
Definition state_digest (owner : string) (location : path) : option Digest :=
  rest ← strip_prefix ("blob-state/" +:+ owner +:+ "/") location;
  match split "/" rest with
  | [algo; hex] => Digests.parse (algo +:+ ":" +:+ hex)
  | _ => None
  end.

Fixpoint read_candidates (owner : string) (listing : list path) (out : list (Digest * BlobRecord * V)) :
    P (result (list (Digest * BlobRecord * V))) :=
  match listing with
  | [] => Ret (Ok out)
  | location :: listing =>
    match state_digest owner location with
    | None => read_candidates owner listing out
    | Some d =>
      let!? loaded := read location in
      match loaded with
      | None => read_candidates owner listing out
      | Some l => read_candidates owner listing (out ++ [(d, record l, version l)])%list
      end
    end
  end.

Definition candidates (owner : string) : P (result (list (Digest * BlobRecord * V))) :=
  let!? listing := os (OList (owner_prefix owner)) in
  read_candidates owner listing [].

Definition retire_if_unpinned (owner : string) (d : Digest) (expected : V) (cutoff_millis : Z) :
    P (result (option string)) :=
  let path := state_path owner d in
  let!? loaded := read path in
  match loaded with
  | None => Ret (Ok None)
  | Some loaded =>
    if negb (bool_decide (version loaded = expected)) then Ret (Ok None)
    else match active (record loaded) with
    | None => Ret (Ok None)
    | Some a =>
      if has_live_pin a cutoff_millis then Ret (Ok None)
      else
        let! retired_at := now_millis in
        let! n := fresh_nonce in
        let!? landed := update path
          (mkRecord n None (retired (record loaded) ++ [mkRetired (physical_key a) retired_at])%list)
          expected in
        Ret (Ok (if landed then Some (physical_key a) else None))
    end
  end.

Definition delete_retired_once (owner : string) (d : Digest) (key : string) : P (result (option unit)) :=
  let!? loaded := read (state_path owner d) in
  match loaded with
  | None => Ret (Ok (Some tt))
  | Some loaded =>
    let rec := record loaded in
    store_record (state_path owner d)
      (mkRecord (nonce rec) (active rec)
         (List.filter (fun r => negb (String.eqb (r_physical_key r) key)) (retired rec)))
      (version loaded) tt
  end.

Definition delete_retired (owner : string) (d : Digest) (key : string) : P (result unit) :=
  let! x := os (ODelete (path_from key)) in
  match x with
  | DelErr e => Ret (Err e)
  | DelOk | DelNotFound =>
    attempts 8 0 (delete_retired_once owner d key) "retired blob cleanup CAS retries exhausted"
  end.

(** The first retired entry of that key, stamped; [None] when there is none or it has a time. *)
Fixpoint stamp_first (key : string) (t : Z) (l : list RetiredGeneration) : option (list RetiredGeneration) :=
  match l with
  | [] => None
  | r :: l =>
    if String.eqb (r_physical_key r) key
    then if negb (retired_at r =? 0) then None else Some (mkRetired (r_physical_key r) t :: l)
    else l' ← stamp_first key t l; Some (r :: l')
  end.

Definition stamp_retired_once (owner : string) (d : Digest) (key : string) (t : Z) :
    P (result (option unit)) :=
  let!? loaded := read (state_path owner d) in
  match loaded with
  | None => Ret (Ok (Some tt))
  | Some loaded =>
    let rec := record loaded in
    match stamp_first key t (retired rec) with
    | None => Ret (Ok (Some tt))
    | Some l => store_record (state_path owner d) (mkRecord (nonce rec) (active rec) l) (version loaded) tt
    end
  end.

Definition stamp_retired (owner : string) (d : Digest) (key : string) (t : Z) : P (result unit) :=
  attempts 8 0 (stamp_retired_once owner d key t) "retired blob stamp CAS retries exhausted".

Definition delete_active (owner : string) (d : Digest) : P (result (option string)) :=
  let!? physical_key := retire owner d in
  match physical_key with
  | Some key => let!? _ := delete_retired owner d key in Ret (Ok physical_key)
  | None => Ret (Ok physical_key)
  end.
End programs.
