(* ===== verification/Pour.v ===== *)
(** * Pour: streaming a blob to its place, [crates/registry/src/uploads.rs] and [blobs.rs]

    [pour] streams a body into a multipart upload and hashes it on the way; the object appears at
    [finish] or not at all.  [finish_blob] is the single-shot push: pour at a fresh generation,
    then install it.  What the upload holds before [finish] is not readable, so it is a value of
    the loop; its parts, their number in flight and the metrics are left out. *)

From S2P Require Import Prelude Text Names Prog ObjStore Oci BlobState.
Local Open Scope string_scope.
Local Open Scope Z_scope.

Definition MIN_PART : Z := 5 * 1024 * 1024.

Inductive Refused : Type :=
| TooLarge
| WrongDigest
| Failed (e : error).

(** [BlockingHasher]: what the hasher has been fed, and what waits in [buf]. *)
Record BlockingHasher := mkHasher { h_algo : string; hashed : string; h_buf : string }.

Section pour.
Context {V : Type} `{EqDecision V} `{PathFrom} `{RecordSerde} `{Sha}.
Abbreviation P := (prog (reg_eff V)).
Abbreviation os e := (trigger (ROs _ e)).

(** [Hasher::new]: only the two algorithms have one. *)
Definition hasher_new (algo : string) : option BlockingHasher :=
  match want_len algo with Some _ => Some (mkHasher algo "" "") | None => None end.

Definition hasher_flush (h : BlockingHasher) : P (result BlockingHasher) :=
  if String.eqb (h_buf h) "" then Ret (Ok h)
  else
    let!? _ := trigger (RCall "spawn_blocking") in
    Ret (Ok (mkHasher (h_algo h) (hashed h +:+ h_buf h) "")).

Definition hasher_update (chunk : string) (h : BlockingHasher) : P (result BlockingHasher) :=
  let h := mkHasher (h_algo h) (hashed h) (h_buf h +:+ chunk) in
  if MIN_PART <=? str_len (h_buf h) then hasher_flush h else Ret (Ok h).

Definition hasher_finish (h : BlockingHasher) : P (result Digest) :=
  let!? h := hasher_flush h in
  let!? _ := trigger (RCall "spawn_blocking") in
  Ret (Ok (mkDigest (h_algo h) (sha (h_algo h) (hashed h)))).

(** [w.abort()], whose answer nobody reads, then the refusal. *)
Definition abort (r : Refused) : P (Z + Refused) :=
  trigger (RCall "abort") ;;! Ret (inr r).

Definition pour_end (dest : path) (expect : option Digest) (hasher : option BlockingHasher)
    (w : string) (n : Z) : P (Z + Refused) :=
  let finish :=
    let! x := os (OPut dest w PutOverwrite) in
    Ret match x with
        | PutOk _ => inl n
        | PutErr e => inr (Failed e)
        | PutAlreadyExists | PutPrecondition => inr (Failed (EStore "precondition"))
        end in
  match expect with
  | None => finish
  | Some want =>
    match hasher with
    | None => abort WrongDigest
    | Some h =>
      let! got := hasher_finish h in
      match got with
      | Err e => abort (Failed e)
      | Ok got => if bool_decide (got = want) then finish else abort WrongDigest
      end
    end
  end.

Fixpoint pour_loop (dest : path) (expect : option Digest) (src : list (result string)) (cap : Z)
    (hasher : option BlockingHasher) (w : string) (n : Z) : P (Z + Refused) :=
  match src with
  | [] => pour_end dest expect hasher w n
  | Err e :: _ => abort (Failed e)
  | Ok chunk :: src =>
    let n := u64_add n (str_len chunk) in
    if cap <? n then abort TooLarge
    else
      let! h := match hasher with
                | Some h => let!? h := hasher_update chunk h in Ret (Ok (Some h))
                | None => Ret (Ok None)
                end in
      match h with
      | Err e => abort (Failed e)
      | Ok hasher =>
        let! room := trigger (RCall "wait_for_capacity") in
        match room with
        | Err e => abort (Failed e)
        | Ok _ => pour_loop dest expect src cap hasher (w +:+ chunk) n
        end
      end
  end.

Definition pour (dest : path) (expect : option Digest) (src : list (result string)) (cap : Z) :
    P (Z + Refused) :=
  let! upload := trigger (RCall "put_multipart") in
  match upload with
  | Err e => Ret (inr (Failed e))
  | Ok _ => pour_loop dest expect src cap (d ← expect; hasher_new (algo d)) "" 0
  end.

(** What a single-shot push answers when it does not go on to the image's rows. *)
Inductive blob_refusal : Type :=
| BlobTooLarge
| BlobDigestInvalid
| BlobInternal (e : error).

Definition blob_refused (r : Refused) : blob_refusal :=
  match r with
  | TooLarge => BlobTooLarge
  | WrongDigest => BlobDigestInvalid
  | Failed e => BlobInternal e
  end.

(** [finish_blob] up to [hold_blob], the image's row. *)
Definition finish_blob (owner digest : string) (body : list (result string)) (max_layer : Z) :
    P (Digest + blob_refusal) :=
  match Digests.parse digest with
  | None => Ret (inr BlobDigestInvalid)
  | Some d =>
    let! generation := new_generation owner d in
    let generation_key := generation.2 in
    let! poured := pour generation.2 (Some d) body max_layer in
    match poured with
    | inr r => Ret (inr (blob_refused r))
    | inl _ =>
      let! installed := install owner d generation_key in
      Ret match installed with
          | Err e => inr (BlobInternal e)
          | Ok _ => inl d
          end
    end
  end.
End pour.
