(* ===== verification/BlobPush.v ===== *)
(** * BlobPush: pushing a manifest, [crates/registry/src/manifests.rs]

    [pin_probe_write] is everything between the first pin and the last release: it pins every blob
    the manifest names, checks that each is here, writes the manifest and releases the pins on
    every exit.  The source runs the pins, the probes and the releases of one push up to sixteen at
    a time and takes their answers in order ([buffered]); here they run in that order one after
    another, interleaved with every other task.  Log lines are left out. *)

From S2P Require Import Prelude Text Names Prog ObjStore Oci BlobState.
Local Open Scope string_scope.
Local Open Scope Z_scope.

Definition MAX_MANIFEST : Z := 4 * 1024 * 1024.
Definition DRAIN_CEILING : Z := 64 * 1024 * 1024.

(** The body as the client sends it: chunks, one of which may be a failure.  [go] is the loop, with
    the bytes kept and the bytes seen. *)
Definition read_manifest (body : list (result string)) : option string :=
  (fix go (body : list (result string)) (buf : string) (seen : Z) : option string :=
    match body with
    | [] => if seen <=? MAX_MANIFEST then Some buf else None
    | Err _ :: _ => None
    | Ok chunk :: body =>
      let seen := seen + str_len chunk in
      if DRAIN_CEILING <? seen then None
      else go body (if seen <=? MAX_MANIFEST then buf +:+ chunk else buf) seen
    end) body "" 0.

Inductive PinFailure : Type :=
| FailPin (e : error)
| FailProbe (e : error)
| BlobUnknown
| FailWrite (e : error).

Section push.
Context {V : Type} `{EqDecision V} `{PathFrom} `{RecordSerde} `{Serde} `{Sha}.
Abbreviation P := (prog (reg_eff V)).
Abbreviation os e := (trigger (ROs _ e)).

(** A release that fails is only logged. *)
Definition release_pins (owner : string) (pinned : list Digest) (publication : string) : P unit :=
  match pinned with
  | [] => Ret tt
  | _ => traverse (fun bd => unpin owner bd publication) pinned ;;! Ret tt
  end.

(** A digest this push pinned is probed at its active generation, any other as a manifest. *)
Definition probe (owner name : string) (pinned : list Digest) (bd : Digest) : P (result bool) :=
  let head := fun p =>
    let! h := os (OHead p) in
    Ret match h with
        | HeadOk _ => Ok true
        | HeadNotFound => Ok false
        | HeadErr e => Err e
        end in
  if any (fun p => bool_decide (p = bd)) pinned
  then let!? p := resolve owner bd in
       match p with None => Ret (Ok false) | Some p => head p end
  else head (manifest_path owner name bd).

Definition ok_true (r : result bool) : bool := match r with Ok b => b | Err _ => false end.
Definition ok_false (r : result bool) : bool := match r with Ok b => negb b | Err _ => false end.
Definition err_of {A} (r : result A) : option error := match r with Ok _ => None | Err e => Some e end.

Fixpoint first_err {A} (l : list (result A)) : option error :=
  match l with
  | [] => None
  | r :: l => match err_of r with Some e => Some e | None => first_err l end
  end.

Definition pin_probe_write (owner name : string) (d : Digest) (digests : list Digest) (body : string) :
    P (unit + PinFailure) :=
  let! publication := manifest_publication owner name d in
  let! pin_results := traverse (fun bd =>
    let! r := pin owner bd publication in Ret (bd, r)) digests in
  let pinned := (List.filter (fun br => ok_true br.2) pin_results).*1 in
  match first_err pin_results.*2 with
  | Some e => release_pins owner pinned publication ;;! Ret (inr (FailPin e))
  | None =>
    let! present := traverse (probe owner name pinned) digests in
    match first_err present with
    | Some e => release_pins owner pinned publication ;;! Ret (inr (FailProbe e))
    | None =>
      if any ok_false present
      then release_pins owner pinned publication ;;! Ret (inr BlobUnknown)
      else
        let! w := os (OPut (manifest_path owner name d) body PutOverwrite) in
        match w with
        | PutErr e => release_pins owner pinned publication ;;! Ret (inr (FailWrite e))
        | PutAlreadyExists | PutPrecondition =>
          release_pins owner pinned publication ;;! Ret (inr (FailWrite (EStore "precondition")))
        | PutOk _ => release_pins owner pinned publication ;;! Ret (inl tt)
        end
    end
  end.

(** ** The handler around it *)
Definition has_sha512_manifest (owner name : string) : P bool :=
  let! l := os (OList (manifest_prefix owner name +:+ "/sha512")) in
  Ret match l with Ok (_ :: _) => true | _ => false end.

Definition head_ok (p : path) : P bool :=
  let! h := os (OHead p) in
  Ret match h with HeadOk _ => true | _ => false end.

(** The digest a push is stored under: the one its reference claims, checked; for a tag, the
    algorithm these bytes are already stored under. *)
Definition manifest_digest (owner name : string) (r : Reference) (body : string) : P (option Digest) :=
  match r with
  | RefDigest asked =>
    Ret match of_algo (algo asked) body with
        | Some actual => if bool_decide (actual = asked) then Some actual else None
        | None => None
        end
  | RefTag _ =>
    let sha256 := of_bytes body in
    let! here := head_ok (manifest_path owner name sha256) in
    if here then Ret (Some sha256)
    else
      let! has := has_sha512_manifest owner name in
      if has
      then match of_algo "sha512" body with
           | Some sha512 =>
             let! here := head_ok (manifest_path owner name sha512) in
             Ret (Some (if here then sha512 else sha256))
           | None => Ret (Some sha256)
           end
      else Ret (Some sha256)
  end.

(** Why [put_manifest] answers something else than going on to its rows. *)
Inductive refusal : Type :=
| SizeInvalid
| ManifestInvalid
| DigestInvalid
| TagInvalid
| ManifestBlobUnknown
| InternalError (e : error).

(** The tags a push sets: its own, or those of its query when it is by digest. *)
Definition push_tags (r : Reference) (query : list (string * string)) : option (list string) :=
  match r with
  | RefTag t => Some [t]
  | RefDigest _ =>
    fold_left (fun tags kv =>
      tags ← tags;
      if negb (String.eqb kv.1 "tag") then Some tags
      else match reference kv.2 with
           | Some (RefTag _) => Some (tags ++ [kv.2])%list
           | _ => None
           end) query (Some [])
  end.

(** [put_manifest] up to the rows of the image's database: the digest and tags they are written
    for. *)
Definition put_manifest (owner name reference_str : string) (query : list (string * string))
    (body : list (result string)) : P ((Digest * list Digest * list string) + refusal) :=
  match read_manifest body with
  | None => Ret (inr SizeInvalid)
  | Some body =>
    match from_slice body with
    | None => Ret (inr ManifestInvalid)
    | Some v =>
      if negb (is_object v) then Ret (inr ManifestInvalid)
      else match reference reference_str with
      | None => Ret (inr ManifestInvalid)
      | Some r =>
        let! d := manifest_digest owner name r body in
        match d with
        | None => Ret (inr DigestInvalid)
        | Some d =>
          let v := prune_external v in
          if negb (declared_digests_parse v) then Ret (inr ManifestInvalid)
          else
            let digests := omap Digests.parse (elements (collect v ∅)) in
            match push_tags r query with
            | None => Ret (inr TagInvalid)
            | Some tags =>
              let! w := pin_probe_write owner name d digests body in
              Ret match w with
                  | inl _ => inl (d, digests, tags)
                  | inr (FailPin e) | inr (FailProbe e) | inr (FailWrite e) => inr (InternalError e)
                  | inr BlobUnknown => inr ManifestBlobUnknown
                  end
            end
        end
      end
    end
  end.
End push.
