(* ===== verification/BlobGc.v ===== *)
(** * BlobGc: sweeping blobs no manifest references, [crates/registry/src/gc.rs]

    [referenced] reads every manifest of an owner and keeps whatever any of them names; a manifest
    that cannot be read or parsed aborts the sweep.  [sweep_owner] collects the blobs that are old,
    unpinned and not kept, and deletes what earlier rounds retired.  [chrono]'s range is the
    parameter [representable]; times are milliseconds, which compare with the cutoff as the
    source's timestamps do.  A listing is one answer of the store. *)

From S2P Require Import Prelude Text Names Prog ObjStore Oci BlobState.
Local Open Scope string_scope.
Local Open Scope Z_scope.

Definition BLOB_GRACE : Z := 3600 * 1000.

Section gc.
Context {V : Type} `{EqDecision V} `{PathFrom} `{RecordSerde} `{Serde}.
(** [DateTime::from_timestamp_millis(t).is_some()]. *)
Variable representable : Z -> bool.
Abbreviation P := (prog (reg_eff V)).
Abbreviation os e := (trigger (ROs _ e)).

Definition get_bytes (p : path) : P (result string) :=
  let! x := os (OGet p) in
  Ret match x with
      | GetOk b _ => Ok b
      | GetNotFound => Err (EStore "not found")
      | GetErr e => Err e
      end.

Fixpoint read_references (paths : list path) (out : gset string) : P (result (gset string)) :=
  match paths with
  | [] => Ret (Ok out)
  | p :: paths =>
    let!? bytes := get_bytes p in
    let out := match digest_from_path p with Some digest => {[ digest ]} ∪ out | None => out end in
    match from_slice bytes with
    | None => Ret (Err (EMsg "json"))
    | Some v => read_references paths (collect v out)
    end
  end.

Definition referenced (owner : string) : P (result (gset string)) :=
  let!? paths := os (OList (path_from ("manifests/" +:+ owner))) in
  read_references paths ∅.

Definition installed_before (a : BlobGeneration) (cutoff : Z) : P (result (option bool)) :=
  if 0 <? installed_at a
  then Ret (Ok (Some (if representable (installed_at a) then installed_at a <=? cutoff else false)))
  else
    let! h := os (OHead (path_from (physical_key a))) in
    Ret match h with
        | HeadOk last_modified => Ok (Some (last_modified <=? cutoff))
        | HeadNotFound => Ok None
        | HeadErr e => Err e
        end.

Definition sweep_retired (owner : string) (d : Digest) (r : RetiredGeneration)
    (cutoff_millis now_millis : Z) : P (result unit) :=
  if 0 <? retired_at r
  then if retired_at r <=? cutoff_millis
       then delete_retired owner d (r_physical_key r)
       else Ret (Ok tt)
  else stamp_retired owner d (r_physical_key r) now_millis.

Fixpoint for_each {A} (f : A -> P (result unit)) (l : list A) : P (result unit) :=
  match l with
  | [] => Ret (Ok tt)
  | a :: l => let!? _ := f a in for_each f l
  end.

(** Legacy blobs with no record yet get one. *)
Fixpoint adopt_legacy (owner : string) (listing : list path) (known : gset string) (adopted : bool) :
    P (result bool) :=
  match listing with
  | [] => Ret (Ok adopted)
  | location :: listing =>
    match s ← digest_from_path location; Digests.parse s with
    | None => adopt_legacy owner listing known adopted
    | Some digest =>
      if bool_decide (Digests.display digest ∈ known) then adopt_legacy owner listing known adopted
      else
        let!? _ := resolve owner digest in
        adopt_legacy owner listing ({[ Digests.display digest ]} ∪ known) true
    end
  end.

Abbreviation candidate := (Digest * BlobRecord * V)%type.

Fixpoint find_old (cutoff_millis : Z) (candidates : list candidate) (old : gset string) :
    P (result (gset string)) :=
  match candidates with
  | [] => Ret (Ok old)
  | (digest, rec, _) :: candidates =>
    match active rec with
    | Some a =>
      if has_live_pin a cutoff_millis then find_old cutoff_millis candidates old
      else
        let!? before := installed_before a cutoff_millis in
        find_old cutoff_millis candidates
          (if bool_decide (before = Some true) then {[ Digests.display digest ]} ∪ old else old)
    | None => find_old cutoff_millis candidates old
    end
  end.

Definition sweep_all_retired (owner : string) (cutoff_millis now_millis : Z) (c : candidate) :
    P (result unit) :=
  for_each (fun r => sweep_retired owner c.1.1 r cutoff_millis now_millis) (retired c.1.2).

Fixpoint sweep_candidates (owner : string) (cutoff_millis now_millis : Z) (keep old : gset string)
    (candidates : list candidate) (n : Z) : P (result Z) :=
  let continue := sweep_candidates owner cutoff_millis now_millis keep old in
  match candidates with
  | [] => Ret (Ok n)
  | (digest, rec, version) :: candidates =>
    let!? _ := sweep_all_retired owner cutoff_millis now_millis (digest, rec, version) in
    if bool_decide (Digests.display digest ∈ keep) ||
       is_none_or (active rec) (fun a => has_live_pin a cutoff_millis)
    then continue candidates n
    else if negb (bool_decide (Digests.display digest ∈ old)) then continue candidates n
    else match active rec with
    | None => continue candidates n
    | Some a =>
      let!? before := installed_before a cutoff_millis in
      if negb (bool_decide (before = Some true)) then continue candidates n
      else
        let!? retired := retire_if_unpinned owner digest version cutoff_millis in
        match retired with
        | None => continue candidates n
        | Some retired =>
          let!? _ := delete_retired owner digest retired in
          continue candidates (n + 1)
        end
    end
  end.

Definition sweep_owner (owner : string) (grace : Z) : P (result Z) :=
  let! t := now_millis in
  let cutoff_millis := t - grace in
  let! now := now_millis in
  let!? first := candidates owner in
  let known := list_to_set (map (fun c : candidate => Digests.display c.1.1) first) in
  let!? legacy := os (OList (path_from ("blobs/" +:+ owner))) in
  let!? adopted := adopt_legacy owner legacy known false in
  let!? candidates := (if adopted then candidates owner else Ret (Ok first)) in
  let!? old := find_old cutoff_millis candidates ∅ in
  if bool_decide (old = ∅)
  then
    let!? _ := for_each (sweep_all_retired owner cutoff_millis now) candidates in
    Ret (Ok 0)
  else
    let!? keep := referenced owner in
    sweep_candidates owner cutoff_millis now keep old candidates 0.
End gc.
