(* ===== verification/BlobWorld.v ===== *)
(** * BlobWorld: the registry's shared state, its invariant and what tasks may rely on

    The state the functions of [BlobState], [Pour], [BlobPush] and [BlobGc] share for one owner: the
    object store, the time and the nonces drawn so far.  [inv] is what every step of every task
    keeps; [rely t] is what the steps of others respect for task [t], nonce by nonce: a generation
    key nobody but [t] knows yet, a nonce [t] has not written yet, a pin of [t] that is still
    live.  [BlobSafe] shows that the code is made of such steps. *)

From S2P Require Import Prelude Text Names Prog ObjStore Oci BlobState.
Local Open Scope string_scope.
Local Open Scope Z_scope.

(** ** Places: the paths of one owner *)
Inductive place : Type :=
| PState (d : Digest)
| PGeneration (d : Digest) (i : string)
| PCanonical (d : Digest)
| PManifest (name : string) (d : Digest).

Definition nonce_ok (i : string) : Prop := str_len i = 32 /\ all_chars hex_char i = true.

Lemma nonce_plain i : nonce_ok i -> plain_name i.
Proof. intros [Hl Hh]. apply hex_plain; [|done]. by intros ->. Qed.

Definition place_ok (k : place) : Prop :=
  match k with
  | PState d | PCanonical d => valid_digest d
  | PGeneration d i => valid_digest d /\ nonce_ok i
  | PManifest name d => plain_name name /\ valid_digest d
  end.

Definition place_segments (o : string) (k : place) : list string :=
  match k with
  | PState d => ["blob-state"; o; algo d; hex d]
  | PGeneration d i => ["blob-generations"; o; algo d; hex d; i]
  | PCanonical d => ["blobs"; o; algo d; hex d]
  | PManifest name d => ["manifests"; o; name; algo d; hex d]
  end.

Section places.
Context `{PathFrom}.
Variable o : string.
Hypothesis o_plain : plain_name o.

Definition place_path (k : place) : path :=
  match k with
  | PState d => state_path o d
  | PGeneration d i => generation_path o d i
  | PCanonical d => canonical_path o d
  | PManifest name d => manifest_path o name d
  end.

Lemma segments_plain k : place_ok k -> Forall plain_name (place_segments o k).
Proof using o_plain.
  destruct k; cbn; intros Hk; repeat match goal with H : _ /\ _ |- _ => destruct H end;
    match goal with H : valid_digest _ |- _ => destruct (digest_plain _ H) end;
    repeat apply Forall_cons_2; auto using nonce_plain; try done.
Qed.

Lemma place_path_eq k : place_ok k -> place_path k = join_path (place_segments o k).
Proof using o_plain.
  intros Hk. pose proof (segments_plain k Hk) as Hp.
  destruct k as [d|d i|d|name d]; [by apply (path_from_join (place_segments o (PState d)))
    |by apply (path_from_join (place_segments o (PGeneration d i)))
    |by apply (path_from_join (place_segments o (PCanonical d)))|].
  cbn [place_path]. unfold manifest_path, manifest_prefix.
  change (path_from ("manifests/" +:+ o +:+ "/" +:+ name)) with (path_from (join_path ["manifests"; o; name])).
  rewrite path_from_join; [|done|].
  - replace (join_path ["manifests"; o; name] +:+ "/" +:+ algo d +:+ "/" +:+ hex d)%string
      with (join_path (place_segments o (PManifest name d))); [by apply path_from_join|].
    cbn [join_path place_segments]. by rewrite !append_assoc.
  - cbn in Hp. repeat (apply Forall_cons_1 in Hp as [? Hp]). by repeat apply Forall_cons_2.
Qed.

Lemma place_inj k k' : place_ok k -> place_ok k' -> place_path k = place_path k' -> k = k'.
Proof using o_plain.
  intros Hk Hk'. rewrite !place_path_eq by done. intros E.
  apply join_inj in E; [|by destruct k|by destruct k'|by apply segments_plain..].
  destruct k as [[]|[] i|[]|n []], k' as [[]|[] i'|[]|n' []]; cbn in E; congruence.
Qed.

Lemma place_path_from k : place_ok k -> path_from (place_path k) = place_path k.
Proof using o_plain.
  intros Hk. rewrite place_path_eq by done. apply path_from_join; [by destruct k|by apply segments_plain].
Qed.
End places.

(** ** The state *)
Record rworld (S T : Type) := RWorld { rstore : S; rnow : Z; minted : gmap string T }.
Arguments RWorld {S T} rstore rnow minted.
Arguments rstore {S T} r.
Arguments rnow {S T} r.
Arguments minted {S T} r.

(** The nonce a pin carries, whoever wrote it. *)
Definition pub_nonce (p : string) : option string :=
  x ← rsplit_once "@" p; y ← rsplit_once "#" x.1; Some y.2.

Section world.
Context {V S T : Type} `{HP : PathFrom} `{HR : RecordSerde} `{HJ : Serde} `{HA : Sha}.
Context `{HO : ObjectStore V S}.
(** The owner whose blobs these are, and the window of the sweep. *)
Variable o : string.
Hypothesis o_plain : plain_name o.
Variable grace : Z.
(** The digests no client deletes. *)
Variable kept : Digest -> Prop.
(** A task with a starting time does all its effects within [grace] of it. *)
Variable started : T -> option Z.

Abbreviation world := (rworld S T).
Abbreviation sp d := (place_path o (PState d)).
Abbreviation gp d i := (place_path o (PGeneration d i)).
Abbreviation cp d := (place_path o (PCanonical d)).
Abbreviation mp name d := (place_path o (PManifest name d)).

Definition rsem (t : T) (X : Type) (e : reg_eff V X) (w : world) (x : X) (w' : world) : Prop :=
  rnow w <= rnow w' /\ 0 <= rnow w' <= i64_max /\
  (forall z, started t = Some z -> z <= rnow w' <= z + grace) /\
  match e in reg_eff _ X return X -> Prop with
  | ROs X e => fun x => osem X e (rstore w) x (rstore w') /\ minted w' = minted w
  | RNow => fun x => x = rnow w' /\ rstore w' = rstore w /\ minted w' = minted w
  | RNonce => fun x => nonce_ok x /\ minted w !! x = None /\
                       minted w' = <[x := t]> (minted w) /\ rstore w' = rstore w
  | RRandom => fun x => u64 x /\ rstore w' = rstore w /\ minted w' = minted w
  | RSleep _ => fun _ => rstore w' = rstore w /\ minted w' = minted w
  | RCall _ => fun _ => rstore w' = rstore w /\ minted w' = minted w
  end x.

(** ** What the store says *)
Definition content (w : world) (p : path) : option string := fst <$> view (rstore w) p.
Definition had (w : world) (p : path) (b : string) : Prop := exists v, seen (rstore w) p v b.

Definition cur (w : world) (d : Digest) : option BlobRecord :=
  b ← content w (sp d); record_from_slice b.
Definition was (w : world) (d : Digest) (r : BlobRecord) : Prop :=
  exists b, had w (sp d) b /\ record_from_slice b = Some r.

Definition retired_keys (r : BlobRecord) : list string := map r_physical_key (retired r).
Definition keys (r : BlobRecord) : list string :=
  (match active r with Some a => [physical_key a] | None => [] end ++ retired_keys r)%list.

Definition dead (w : world) (d : Digest) (k : string) : Prop :=
  exists r, was w d r /\ k ∈ retired_keys r.
Definition mentioned (w : world) (d : Digest) (k : string) : Prop :=
  exists r, was w d r /\ k ∈ keys r.
(** Bytes that are what the digest promises. *)
Definition holds (w : world) (d : Digest) (k : path) : Prop :=
  exists b, content w k = Some b /\ of_algo (algo d) b = Some d.
Definition held (w : world) (d : Digest) : Prop :=
  exists r a, cur w d = Some r /\ active r = Some a.
Definition pinned (w : world) (d : Digest) (p : string) : Prop :=
  exists r a, cur w d = Some r /\ active r = Some a /\ p ∈ pins a.
Definition was_manifest (w : world) (name : string) (d : Digest) : Prop :=
  exists b, had w (mp name d) b.
(** The manifest [b] names [d], as a push of it checked. *)
Definition named_by (b : string) (d : Digest) : Prop :=
  exists ds, pushed_digests b = Some ds /\ d ∈ ds.

(** ** The invariant *)
Record inv (w : world) : Prop := {
  inv_decodes : forall d b, valid_digest d -> had w (sp d) b -> is_Some (record_from_slice b);
  inv_persists : forall d b, valid_digest d -> had w (sp d) b -> content w (sp d) <> None;
  inv_keys : forall d r k, valid_digest d -> was w d r -> k ∈ keys r ->
    k = cp d \/ exists i, is_Some (minted w !! i) /\ nonce_ok i /\ k = gp d i;
  (** The active generation was never retired and its bytes are there, and right. *)
  inv_active : forall d r a, valid_digest d -> cur w d = Some r -> active r = Some a ->
    ~ dead w d (physical_key a) /\ holds w d (physical_key a);
  inv_nonces : forall d r, valid_digest d -> was w d r -> is_Some (minted w !! nonce r);
  inv_canonical : forall d b, valid_digest d -> content w (cp d) = Some b -> of_algo (algo d) b = Some d;
  (** A blob a stored manifest names is held, unless the push took it for a manifest. *)
  inv_named : forall name dm b d, plain_name name -> valid_digest dm -> kept d ->
    content w (mp name dm) = Some b -> named_by b d -> held w d \/ was_manifest w name d
}.

(** ** The rely *)
(** Steps of anybody. *)
Record advance (w w' : world) : Prop := {
  adv_now : rnow w <= rnow w';
  adv_minted : forall i t, minted w !! i = Some t -> minted w' !! i = Some t;
  adv_seen : forall p v b, seen (rstore w) p v b -> seen (rstore w') p v b;
  adv_present : forall d, valid_digest d -> content w (sp d) <> None -> content w' (sp d) <> None;
  (** A record that changed holds what it never held. *)
  adv_fresh : forall d b, valid_digest d -> content w (sp d) <> content w' (sp d) ->
    content w' (sp d) = Some b -> ~ had w (sp d) b;
  adv_canonical : forall d, valid_digest d -> content w (cp d) <> None ->
    content w' (sp d) = None -> content w' (cp d) <> None;
  (** A manifest written while a sweep runs had its blobs pinned, or changes their records. *)
  adv_named : forall name dm b d, plain_name name -> valid_digest dm -> kept d ->
    content w' (mp name dm) = Some b -> named_by b d ->
    content w (mp name dm) = Some b \/ content w' (sp d) <> content w (sp d) \/
    (exists p, pinned w d p /\ pin_is_live p (rnow w - grace) = true) \/ was_manifest w' name d
}.

(** Steps that leave what nonce [i] stands for alone. *)
Record respects (i : string) (w w' : world) : Prop := {
  resp_key : forall d, valid_digest d -> nonce_ok i -> mentioned w' d (gp d i) -> mentioned w d (gp d i);
  resp_bytes : forall d, valid_digest d -> nonce_ok i -> ~ mentioned w d (gp d i) ->
    content w' (gp d i) = content w (gp d i);
  resp_nonce : forall d r, valid_digest d -> was w' d r -> nonce r = i -> was w d r;
  resp_pin : forall d p, valid_digest d -> kept d -> pub_nonce p = Some i -> pinned w d p ->
    pin_is_live p (rnow w' - grace) = true -> pinned w' d p
}.

Definition rely (t : T) (w w' : world) : Prop :=
  advance w w' /\ forall i, minted w !! i = Some t -> respects i w w'.

Lemma pin_is_live_mono p c c' : c <= c' -> pin_is_live p c' = true -> pin_is_live p c = true.
Proof using Type.
  unfold pin_is_live. destruct (p ← _; _) as [t|]; cbn; [|done]. intros ? ?%Z.leb_le. apply Z.leb_le. lia.
Qed.

Lemma content_had w p b : content w p = Some b -> had w p b.
Proof using Type.
  unfold content. destruct (view (rstore w) p) as [[b' v]|] eqn:E; [|done]. intros [= <-].
  exists v. by apply view_seen.
Qed.

Lemma cur_was w d r : cur w d = Some r -> was w d r.
Proof using Type.
  unfold cur. destruct (content w (sp d)) as [b|] eqn:E; [|done]. cbn. intros Hr.
  exists b. split; [by apply content_had|done].
Qed.

Lemma adv_had w w' p b : advance w w' -> had w p b -> had w' p b.
Proof using Type. intros H [v Hv]. exists v. by apply (adv_seen _ _ H). Qed.

Lemma named_valid b d : named_by b d -> valid_digest d.
Proof using Type.
  intros (ds & Hds & Hd). destruct (from_slice b) as [v|] eqn:E.
  - by eapply (pushed_digests_kept b v ds d).
  - unfold pushed_digests in Hds. by rewrite E in Hds.
Qed.

(** A record that changed never changes back. *)
Lemma changed_stays w w1 w2 d :
  valid_digest d -> advance w w1 -> advance w1 w2 ->
  content w1 (sp d) <> content w (sp d) -> content w2 (sp d) <> content w (sp d).
Proof using Type.
  intros Hd H1 H2 Hne Heq. destruct (decide (content w1 (sp d) = content w2 (sp d))) as [E|E]; [congruence|].
  destruct (content w (sp d)) as [b|] eqn:Eb.
  - eapply (adv_fresh _ _ H2 d b); [done..|]. apply (adv_had w w1); [done|]. by apply content_had.
  - by apply (adv_present _ _ H2 d).
Qed.

Lemma pinned_back w w1 d p : content w1 (sp d) = content w (sp d) -> pinned w1 d p -> pinned w d p.
Proof using Type. unfold pinned, cur. by intros ->. Qed.

#[global] Instance advance_preorder : PreOrder advance.
Proof using Type.
  split.
  - intros w. constructor; [lia|naive_solver..].
  - intros w w1 w2 H1 H2. constructor.
    + pose proof (adv_now _ _ H1). pose proof (adv_now _ _ H2). lia.
    + intros i t Hi. eauto using adv_minted.
    + eauto using adv_seen.
    + eauto using adv_present.
    + intros d b Hd Hne Hb Hw.
      destruct (decide (content w1 (sp d) = content w2 (sp d))) as [E|E].
      * apply (adv_fresh _ _ H1 d b); [done| |by rewrite E|done]. by rewrite E.
      * apply (adv_fresh _ _ H2 d b Hd E Hb). by apply (adv_had w w1).
    + intros d Hd Hc Hn. apply (adv_canonical _ _ H2 d Hd); [|done].
      apply (adv_canonical _ _ H1 d Hd Hc). destruct (content w1 (sp d)) eqn:E; [|done].
      exfalso. apply (adv_present _ _ H2 d Hd); [congruence|done].
    + intros name dm b d Hn Hdm Hk Hb Hnb. pose proof (named_valid _ _ Hnb) as Hd.
      destruct (decide (content w1 (sp d) = content w (sp d))) as [E|E];
        [|right; left; by apply (changed_stays w w1 w2)].
      destruct (adv_named _ _ H2 name dm b d Hn Hdm Hk Hb Hnb) as [Hb1|[Hc|[(p & Hp & Hl)|Hm]]].
      * destruct (adv_named _ _ H1 name dm b d Hn Hdm Hk Hb1 Hnb) as [?|[?|[?|(b' & Hb')]]];
          [by left|done|by right; right; left|].
        right; right; right. exists b'. by apply (adv_had w1 w2).
      * right; left. by rewrite <- E.
      * right; right; left. exists p. split; [by eapply pinned_back|].
        eapply pin_is_live_mono; [|exact Hl]. pose proof (adv_now _ _ H1). lia.
      * by right; right; right.
Qed.

Lemma respects_refl i w : respects i w w.
Proof using Type. constructor; naive_solver. Qed.

Lemma respects_trans i w w1 w2 :
  advance w1 w2 -> respects i w w1 -> respects i w1 w2 -> respects i w w2.
Proof using Type.
  intros A2 H1 H2. constructor.
  - intros d Hd Hi Hm. apply (resp_key _ _ _ H1); [done..|]. by apply (resp_key _ _ _ H2).
  - intros d Hd Hi Hm. rewrite (resp_bytes _ _ _ H2); [by apply (resp_bytes _ _ _ H1)|done..|].
    intros Hm'. by apply Hm, (resp_key _ _ _ H1 d).
  - intros d r Hd Hr Hn. apply (resp_nonce _ _ _ H1); [done| |done]. by apply (resp_nonce _ _ _ H2).
  - intros d p Hd Hk Hp Hpin Hl. apply (resp_pin _ _ _ H2); try done.
    apply (resp_pin _ _ _ H1); try done. eapply pin_is_live_mono; [|exact Hl].
    pose proof (adv_now _ _ A2). lia.
Qed.

#[global] Instance rely_preorder t : PreOrder (rely t).
Proof using Type.
  split.
  - intros w. split; [reflexivity|]. intros i _. apply respects_refl.
  - intros w w1 w2 [A1 H1] [A2 H2]. split; [by etrans|]. intros i Hi.
    apply (respects_trans i w w1 w2); eauto using adv_minted.
Qed.

(** ** Steps that leave the records alone *)
Definition same_records (w w' : world) : Prop :=
  forall d, valid_digest d -> content w' (sp d) = content w (sp d) /\
    forall b, had w' (sp d) b <-> had w (sp d) b.

Lemma same_cur w w' d : same_records w w' -> valid_digest d -> cur w' d = cur w d.
Proof using Type. intros H Hd. unfold cur. by destruct (H d Hd) as [-> _]. Qed.

Lemma same_was w w' d r : same_records w w' -> valid_digest d -> was w' d r <-> was w d r.
Proof using Type. intros H Hd. unfold was. destruct (H d Hd) as [_ Hb]. by setoid_rewrite Hb. Qed.

Lemma same_dead w w' d k : same_records w w' -> valid_digest d -> dead w' d k <-> dead w d k.
Proof using Type. intros H Hd. unfold dead. setoid_rewrite (fun r => same_was w w' d r H Hd). done. Qed.

Lemma same_mentioned w w' d k :
  same_records w w' -> valid_digest d -> mentioned w' d k <-> mentioned w d k.
Proof using Type. intros H Hd. unfold mentioned. setoid_rewrite (fun r => same_was w w' d r H Hd). done. Qed.

Lemma same_pinned w w' d p : same_records w w' -> valid_digest d -> pinned w' d p <-> pinned w d p.
Proof using Type. intros H Hd. unfold pinned. by rewrite (same_cur w w' d H Hd). Qed.

Lemma same_held w w' d : same_records w w' -> valid_digest d -> held w' d <-> held w d.
Proof using Type. intros H Hd. unfold held. by rewrite (same_cur w w' d H Hd). Qed.

Lemma pinned_held w d p : pinned w d p -> held w d.
Proof using Type. intros (r & a & ? & ? & _). by exists r, a. Qed.

Definition later (w w' : world) : Prop :=
  rnow w <= rnow w' /\ (forall i t, minted w !! i = Some t -> minted w' !! i = Some t) /\
  (forall p v b, seen (rstore w) p v b -> seen (rstore w') p v b).

Lemma later_had w w' p b : later w w' -> had w p b -> had w' p b.
Proof using Type. intros (_ & _ & H) [v Hv]. exists v. by apply H. Qed.

Lemma side_step w w' (touched : string -> Prop) :
  inv w -> later w w' -> same_records w w' ->
  (forall d r a, valid_digest d -> cur w d = Some r -> active r = Some a ->
    content w' (physical_key a) = content w (physical_key a)) ->
  (forall d, valid_digest d -> content w' (cp d) = content w (cp d) \/
    content w' (cp d) = None /\ content w (sp d) <> None) ->
  (forall name dm b d, plain_name name -> valid_digest dm -> kept d ->
    content w' (mp name dm) = Some b -> named_by b d ->
    content w (mp name dm) = Some b \/
    (exists p, pinned w d p /\ pin_is_live p (rnow w - grace) = true) \/ was_manifest w' name d) ->
  (forall i d, valid_digest d -> nonce_ok i -> ~ touched i -> ~ mentioned w d (gp d i) ->
    content w' (gp d i) = content w (gp d i)) ->
  inv w' /\ advance w w' /\ forall i, ~ touched i -> respects i w w'.
Proof using Type.
  intros HI Hl Hrec Hact Hcan Hman Hgen. pose proof (fun p b => later_had w w' p b Hl) as Hhad.
  destruct Hl as (Hnow & Hmint & Hseen). split; [|split].
  - constructor.
    + intros d b Hd Hb. apply (inv_decodes _ HI d b Hd). by apply (Hrec d Hd).
    + intros d b Hd Hb. destruct (Hrec d Hd) as [-> Hh]. apply (inv_persists _ HI d b Hd). by apply Hh.
    + intros d r k Hd Hr Hk. rewrite (same_was w w') in Hr by done.
      destruct (inv_keys _ HI d r k Hd Hr Hk) as [?|(i & [t Hi] & ?)]; [by left|].
      right. exists i. eauto.
    + intros d r a Hd Hr Ha. rewrite (same_cur w w') in Hr by done.
      destruct (inv_active _ HI d r a Hd Hr Ha) as [Hdead (b & Hb & Hsha)].
      split; [by rewrite (same_dead w w')|]. exists b. by rewrite (Hact d r a).
    + intros d r Hd Hr. rewrite (same_was w w') in Hr by done. destruct (inv_nonces _ HI d r Hd Hr) as [t Ht]. eauto.
    + intros d b Hd Hb. apply (inv_canonical _ HI d b Hd). destruct (Hcan d Hd) as [<-|[? _]]; congruence.
    + intros name dm b d Hn Hdm Hk Hb Hnb. pose proof (named_valid _ _ Hnb) as Hd.
      rewrite (same_held w w') by done.
      destruct (Hman name dm b d Hn Hdm Hk Hb Hnb) as [Hb0|[(p & Hp & _)|?]]; [|left; by eapply pinned_held|by right].
      destruct (inv_named _ HI name dm b d Hn Hdm Hk Hb0 Hnb) as [?|(b' & ?)]; [by left|right; exists b'; auto].
  - constructor; try done.
    + intros d Hd. by destruct (Hrec d Hd) as [-> _].
    + intros d b Hd Hne. destruct (Hrec d Hd) as [E _]. congruence.
    + intros d Hd Hc Hn. destruct (Hrec d Hd) as [E _]. rewrite E in Hn.
      destruct (Hcan d Hd) as [->|[_ ?]]; congruence.
    + intros name dm b d Hn Hdm Hk Hb Hnb.
      destruct (Hman name dm b d Hn Hdm Hk Hb Hnb) as [?|[?|?]]; tauto.
  - intros i Hi. constructor.
    + intros d Hd _ Hm. by apply (same_mentioned w w').
    + intros d Hd Hok Hm. by apply Hgen.
    + intros d r Hd Hr _. by apply (same_was w w').
    + intros d p Hd _ _ Hp _. by apply (same_pinned w w').
Qed.

(** Answers that change no object. *)
Lemma quiet_step w w' :
  inv w -> later w w' -> (forall p, content w' p = content w p) ->
  (forall p b, had w' p b -> had w p b) ->
  inv w' /\ advance w w' /\ forall i, respects i w w'.
Proof using Type.
  intros HI Hl Hc Hh.
  destruct (side_step w w' (fun _ => False)) as (? & ? & Hr); try done; auto.
  - intros d Hd. split; [apply Hc|]. intros b. split; [apply Hh|by apply later_had].
  - intros name dm b d ????. left. by rewrite <- Hc.
Qed.

(** ** The effects as steps *)
Lemma rsem_later t X (e : reg_eff V X) w x w' : rsem t X e w x w' -> later w w'.
Proof using Type.
  intros (Hn & _ & _ & He). split; [done|].
  assert (Hh : rstore w' = rstore w -> forall p v b, seen (rstore w) p v b -> seen (rstore w') p v b)
    by by intros ->.
  destruct e; cbn in He;
    [destruct He as [Ho Hm]|destruct He as (_ & Hs & Hm)|destruct He as (_ & Hf & Hm & Hs)
    |destruct He as (_ & Hs & Hm)|destruct He as [Hs Hm]|destruct He as [Hs Hm]];
    rewrite Hm; (split; [|try by apply Hh]); try done.
  - intros p v b Hv. by eapply seen_mono.
  - intros i t' Hi. rewrite lookup_insert_ne; [done|congruence].
Qed.

(** Every effect but a write or a deletion. *)
Definition quiet_eff {X} (e : reg_eff V X) : bool :=
  match e with
  | ROs _ (OPut _ _ _) => false
  | ROs _ (ODelete _) => false
  | _ => true
  end.

Lemma quiet_sem t X (e : reg_eff V X) w x w' :
  quiet_eff e = true -> inv w -> rsem t X e w x w' ->
  inv w' /\ advance w w' /\ forall i, respects i w w'.
Proof using Type.
  intros Hq HI He. pose proof (rsem_later _ _ _ _ _ _ He) as Hl. destruct He as (_ & _ & _ & He).
  assert (Hv : (forall p, view (rstore w') p = view (rstore w) p) /\
               (rstore w' = rstore w \/ exists Y (e : os_eff V Y) y, osem Y e (rstore w) y (rstore w'))).
  { assert (Hs : rstore w' = rstore w -> (forall p, view (rstore w') p = view (rstore w) p) /\
      (rstore w' = rstore w \/ exists Y (e : os_eff V Y) y, osem Y e (rstore w) y (rstore w')))
      by (intros ->; auto).
    destruct e as [X e| | | | |]; cbn in He; [|apply Hs; tauto..].
    destruct He as [Ho _]. split; [|right; eauto].
    destruct e; try done; [by apply get_law in Ho as [? _]|by apply head_law in Ho as [? _]
      |by apply list_law in Ho as [? _]]. }
  destruct Hv as [Hv Hs]. apply quiet_step; [done|done| |].
  - intros p. unfold content. by rewrite Hv.
  - intros p b [v Hb]. destruct Hs as [E|(Y & e' & y & Ho)]; [exists v; by rewrite <- E|].
    destruct (seen_inv _ _ _ _ _ _ _ _ Ho Hb) as [?|Hb']; [by exists v|].
    apply content_had. unfold content. by rewrite <- Hv, Hb'.
Qed.

Lemma put_sem t p b m x w w' :
  rsem t _ (ROs _ (OPut p b m)) w x w' ->
  later w w' /\ minted w' = minted w /\
  (forall q, q <> p -> content w' q = content w q /\ forall c, had w' q c -> had w q c) /\
  (forall c, had w' p c -> had w p c \/ content w' p = Some c) /\
  match x with
  | PutOk _ => put_allowed m (view (rstore w) p) /\ content w' p = Some b
  | PutAlreadyExists | PutPrecondition => content w' p = content w p
  | PutErr _ => content w' p = content w p \/
                put_allowed m (view (rstore w) p) /\ content w' p = Some b
  end.
Proof using Type.
  intros He. split; [by eapply rsem_later|]. destruct He as (_ & _ & _ & Ho & Hm). split; [done|].
  destruct (put_law _ _ _ _ _ _ Ho) as [Hq Hp]. split; [|split].
  - intros q Hne. unfold content. rewrite Hq by done. split; [done|]. intros c [v Hc].
    destruct (seen_inv _ _ _ _ _ _ _ _ Ho Hc) as [?|Hc']; [by exists v|].
    apply content_had. unfold content. by rewrite <- (Hq q Hne), Hc'.
  - intros c [v Hc]. destruct (seen_inv _ _ _ _ _ _ _ _ Ho Hc) as [?|Hc']; [left; by exists v|].
    right. unfold content. by rewrite Hc'.
  - unfold content. destruct x; [destruct Hp as [? ->]; done|by rewrite Hp..|].
    destruct Hp as [->|(? & v' & ->)]; auto.
Qed.

Lemma delete_sem t p x w w' :
  rsem t _ (ROs _ (ODelete p)) w x w' ->
  later w w' /\ minted w' = minted w /\
  (forall q, q <> p -> content w' q = content w q) /\
  (forall q c, had w' q c -> had w q c) /\
  (content w' p = content w p \/ content w' p = None).
Proof using Type.
  intros He. split; [by eapply rsem_later|]. destruct He as (_ & _ & _ & Ho & Hm). split; [done|].
  destruct (del_law _ _ _ _ Ho) as [Hq Hp].
  assert (Hor : view (rstore w') p = view (rstore w) p \/ view (rstore w') p = None)
    by (destruct x; naive_solver).
  split; [|split].
  - intros q Hne. unfold content. by rewrite Hq.
  - intros q c [v Hc]. destruct (seen_inv _ _ _ _ _ _ _ _ Ho Hc) as [?|Hc']; [by exists v|].
    destruct (decide (q = p)) as [->|Hne]; [|rewrite Hq in Hc' by done].
    + destruct Hor as [E|E]; [|congruence]. apply content_had. unfold content. by rewrite <- E, Hc'.
    + apply content_had. unfold content. by rewrite Hc'.
  - unfold content. by destruct Hor as [-> | ->]; auto.
Qed.

(** ** Writes beside the records *)
Definition key_place (d : Digest) (pl : place) : Prop :=
  pl = PCanonical d \/ exists i, pl = PGeneration d i /\ nonce_ok i.

Lemma key_place_ok d pl : valid_digest d -> key_place d pl -> place_ok pl.
Proof using Type. intros Hd [->|(i & -> & Hi)]; [done|by split]. Qed.

Lemma keys_place w d r k :
  inv w -> valid_digest d -> was w d r -> k ∈ keys r ->
  exists pl, k = place_path o pl /\ key_place d pl.
Proof using Type.
  intros HI Hd Hr Hk. destruct (inv_keys _ HI d r k Hd Hr Hk) as [->|(i & _ & Hi & ->)].
  - exists (PCanonical d). split; [done|by left].
  - exists (PGeneration d i). split; [done|right; eauto].
Qed.

Lemma active_key r a : active r = Some a -> physical_key a ∈ keys r.
Proof using Type. unfold keys. intros ->. by left. Qed.

Lemma retired_key r k : k ∈ retired_keys r -> k ∈ keys r.
Proof using Type. intros H. apply elem_of_app. by right. Qed.

(** Two places are two paths. *)
Ltac place_neq :=
  let E := fresh in
  intros E; apply (place_inj o o_plain) in E;
    [try congruence|cbn; by eauto using key_place_ok..].

Lemma generation_put t d i b m x w w' :
  inv w -> valid_digest d -> nonce_ok i -> ~ mentioned w d (gp d i) ->
  rsem t _ (ROs _ (OPut (gp d i) b m)) w x w' ->
  inv w' /\ advance w w' /\ forall j, j <> i -> respects j w w'.
Proof using o_plain.
  intros HI Hd Hi Hm He. destruct (put_sem _ _ _ _ _ _ _ He) as (Hl & _ & Hq & _).
  apply side_step; [done|done| | | | |].
  - intros d' Hd'. destruct (Hq (sp d')) as [-> Hh]; [place_neq|]. split; [done|].
    intros c. split; [apply Hh|by apply later_had].
  - intros d' r a Hd' Hr Ha. apply Hq. intros Hk. apply Hm.
    destruct (keys_place w d' r (physical_key a)) as (pl & Hpl & Hkp); [done|done|by apply cur_was|by apply active_key|].
    rewrite Hpl in Hk. apply (place_inj o o_plain) in Hk; [|by eauto using key_place_ok|by split].
    destruct Hkp as [->|(i' & -> & _)]; [done|]. injection Hk as -> ->.
    exists r. split; [by apply cur_was|]. rewrite <- Hpl. by apply active_key.
  - intros d' Hd'. left. apply Hq. place_neq.
  - intros name dm c d' Hn Hdm _ Hc _. left. destruct (Hq (mp name dm)) as [<- _]; [place_neq|done].
  - intros j d' Hd' Hj Hne _. apply Hq. place_neq.
Qed.

Lemma manifest_put t name dm b m x w w' :
  inv w -> plain_name name -> valid_digest dm ->
  (forall d, kept d -> named_by b d ->
    (exists p, pinned w d p /\ pin_is_live p (rnow w - grace) = true) \/ was_manifest w name d) ->
  rsem t _ (ROs _ (OPut (mp name dm) b m)) w x w' ->
  inv w' /\ advance w w' /\ forall j, respects j w w'.
Proof using o_plain.
  intros HI Hn Hdm Hnamed He. destruct (put_sem _ _ _ _ _ _ _ He) as (Hl & _ & Hq & _ & Hx).
  destruct (side_step w w' (fun _ => False)) as (? & ? & Hr); [done|done|..|by eauto].
  - intros d' Hd'. destruct (Hq (sp d')) as [-> Hh]; [place_neq|]. split; [done|].
    intros c. split; [apply Hh|by apply later_had].
  - intros d' r a Hd' Hr Ha. apply Hq.
    destruct (keys_place w d' r (physical_key a)) as (pl & -> & Hkp); [done|done|by apply cur_was|by apply active_key|].
    intros E. apply (place_inj o o_plain) in E; [|by eauto using key_place_ok|by split].
    destruct Hkp as [->|(i' & -> & _)]; done.
  - intros d' Hd'. left. apply Hq. place_neq.
  - intros name' dm' c d' Hn' Hdm' Hk Hc Hnb.
    destruct (decide (mp name' dm' = mp name dm)) as [E|E].
    + apply (place_inj o o_plain) in E; [|by split..]. injection E as -> ->.
      assert (Hor : content w (mp name dm) = Some c \/ c = b).
      { rewrite <- Hc. destruct x; [right; destruct Hx as [_ Hx]; congruence|left; congruence..|].
        destruct Hx as [Hx|[_ Hx]]; [left|right]; congruence. }
      destruct Hor as [? | ->]; [by left|]. right.
      destruct (Hnamed d' Hk Hnb) as [?|(b' & ?)]; [by left|right; exists b'; by apply (later_had w w')].
    + left. destruct (Hq (mp name' dm')) as [<- _]; done.
  - intros j d' Hd' Hj _ _. apply Hq. place_neq.
Qed.

Lemma manifest_delete t name dm x w w' :
  inv w -> plain_name name -> valid_digest dm ->
  rsem t _ (ROs _ (ODelete (mp name dm))) w x w' ->
  inv w' /\ advance w w' /\ forall j, respects j w w'.
Proof using o_plain.
  intros HI Hn Hdm He. destruct (delete_sem _ _ _ _ _ He) as (Hl & _ & Hq & Hh & Hx).
  destruct (side_step w w' (fun _ => False)) as (? & ? & Hr); [done|done|..|by eauto].
  - intros d' Hd'. split; [apply Hq; place_neq|]. intros c. split; [apply Hh|by apply later_had].
  - intros d' r a Hd' Hr Ha. apply Hq.
    destruct (keys_place w d' r (physical_key a)) as (pl & -> & Hkp); [done|done|by apply cur_was|by apply active_key|].
    intros E. apply (place_inj o o_plain) in E; [|by eauto using key_place_ok|by split].
    destruct Hkp as [->|(i' & -> & _)]; done.
  - intros d' Hd'. left. apply Hq. place_neq.
  - intros name' dm' c d' Hn' Hdm' Hk Hc Hnb. left.
    destruct (decide (mp name' dm' = mp name dm)) as [E|E].
    + rewrite E in *. destruct Hx as [Hx|Hx]; congruence.
    + by rewrite <- Hq.
  - intros j d' Hd' Hj _ _. apply Hq. place_neq.
Qed.

(** Bytes of a retired generation may go: no record leads to them. *)
Lemma dead_delete t d k x w w' :
  inv w -> valid_digest d -> dead w d k -> rsem t _ (ROs _ (ODelete (path_from k))) w x w' ->
  inv w' /\ advance w w' /\ forall j, respects j w w'.
Proof using o_plain.
  intros HI Hd (r0 & Hr0 & Hk0) He.
  destruct (keys_place w d r0 k) as (pl & -> & Hpl); [done..|by apply retired_key|].
  rewrite place_path_from in He by eauto using key_place_ok.
  destruct (delete_sem _ _ _ _ _ He) as (Hl & _ & Hq & Hh & Hx).
  destruct (side_step w w' (fun _ => False)) as (? & ? & Hr); [done|done|..|by eauto].
  - intros d' Hd'. split; [apply Hq|intros c; split; [apply Hh|by apply later_had]].
    destruct Hpl as [->|(i & -> & ?)]; place_neq.
  - intros d' r a Hd' Hr Ha. apply Hq.
    destruct (keys_place w d' r (physical_key a)) as (pl' & Hpl' & Hkp); [done|done|by apply cur_was|by apply active_key|].
    intros E. destruct (inv_active _ HI d' r a Hd' Hr Ha) as [Hnd _]. apply Hnd.
    assert (pl' = pl) as ->.
    { apply (place_inj o o_plain); [by eauto using key_place_ok|by eauto using key_place_ok|congruence]. }
    assert (d' = d) as -> by (destruct Hkp as [->|(? & -> & _)], Hpl as [E'|(? & E' & _)]; congruence).
    exists r0. by rewrite E.
  - intros d' Hd'. destruct (decide (cp d' = place_path o pl)) as [E|E]; [|left; by apply Hq].
    rewrite E. destruct Hx as [Hx|Hx]; [by left|]. right. split; [done|].
    apply (place_inj o o_plain) in E; [|done|by eauto using key_place_ok].
    assert (d' = d) as -> by (destruct Hpl as [->|(? & -> & _)]; congruence).
    destruct Hr0 as (b & Hb & _). by eapply inv_persists.
  - intros name dm c d' Hn Hdm _ Hc _. left. rewrite <- Hq; [done|].
    destruct Hpl as [->|(i & -> & ?)]; place_neq.
  - intros j d' Hd' Hj _ Hm. apply Hq. intros E.
    apply (place_inj o o_plain) in E; [|by split|by eauto using key_place_ok].
    destruct Hpl as [->|(i & -> & _)]; [done|]. injection E as -> ->.
    apply Hm. exists r0. split; [done|by apply retired_key].
Qed.

(** ** Writing a record *)
Definition unnamed (w : world) (d : Digest) : Prop :=
  forall name dm b, plain_name name -> valid_digest dm -> content w (mp name dm) = Some b ->
    named_by b d -> was_manifest w name d.

(** What a write of [r'] over the record of [d] may be, [tk] the nonces it may touch. *)
Record legit (tk : string -> Prop) (w : world) (d : Digest) (r' : BlobRecord) : Prop := {
  lg_keys : forall k, k ∈ keys r' -> mentioned w d k \/ k = cp d \/
    (exists i, k = gp d i /\ nonce_ok i /\ tk i /\ is_Some (minted w !! i));
  lg_active : forall a, active r' = Some a ->
    ~ dead w d (physical_key a) /\ (physical_key a ∉ retired_keys r') /\ holds w d (physical_key a);
  lg_pins : forall p, kept d -> pinned w d p -> pin_is_live p (rnow w - grace) = true ->
    (exists i, pub_nonce p = Some i /\ tk i) \/ (exists a, active r' = Some a /\ (p ∈ pins a));
  lg_named : kept d -> held w d -> is_Some (active r') \/ unnamed w d;
  lg_nonce : tk (nonce r') /\ is_Some (minted w !! nonce r') /\
    (forall d r, valid_digest d -> was w d r -> nonce r <> nonce r')
}.

Section landed.
Variables (tk : string -> Prop) (w w' : world) (d : Digest) (r' : BlobRecord).
Hypothesis HI : inv w.
Hypothesis Hd : valid_digest d.
Hypothesis Hlegit : legit tk w d r'.
Hypothesis Hlater : later w w'.
Hypothesis Hminted : minted w' = minted w.
Hypothesis Helse : forall q, q <> sp d -> content w' q = content w q /\ forall c, had w' q c -> had w q c.
Hypothesis Hhere : content w' (sp d) = Some (to_vec r').
Hypothesis Hhad : forall c, had w' (sp d) c -> had w (sp d) c \/ c = to_vec r'.

Lemma landed_cur d' : valid_digest d' -> cur w' d' = if decide (d' = d) then Some r' else cur w d'.
Proof using o_plain Helse Hhere Hd.
  intros Hd'. unfold cur. case_decide as E; [subst; rewrite Hhere; cbn; apply from_to|].
  destruct (Helse (sp d')) as [-> _]; [place_neq|done].
Qed.

Lemma landed_was d' r : valid_digest d' -> was w' d' r -> was w d' r \/ d' = d /\ r = r'.
Proof using o_plain Hhad Helse Hd.
  intros Hd' (b & Hb & Hr). destruct (decide (d' = d)) as [->|E].
  - destruct (Hhad b Hb) as [? | ->]; [left; by exists b|right].
    split; [done|]. rewrite from_to in Hr. congruence.
  - left. exists b. split; [|done]. apply (Helse (sp d')); [place_neq|done].
Qed.

Lemma landed_beside pl : place_ok pl -> pl <> PState d -> content w' (place_path o pl) = content w (place_path o pl).
Proof using o_plain Helse Hd.
  intros Hpl Hne. apply Helse. intros E. by apply (place_inj o o_plain) in E.
Qed.

Lemma landed_holds d' k : valid_digest d' -> (exists pl, k = place_path o pl /\ key_place d' pl) ->
  holds w d' k -> holds w' d' k.
Proof using o_plain Helse Hd.
  intros Hd' (pl & -> & Hpl) (b & Hb & Ho). exists b. split; [|done]. rewrite landed_beside; [done|eauto using key_place_ok|].
  by destruct Hpl as [->|(? & -> & _)].
Qed.

Lemma legit_place k : k ∈ keys r' -> exists pl, k = place_path o pl /\ key_place d pl.
Proof using HI Hd Hlegit.
  intros Hk. destruct (lg_keys _ _ _ _ Hlegit k Hk) as [(r & Hr & Hkr)|[->|(i & -> & Hi & _)]].
  - by apply (keys_place w d r).
  - exists (PCanonical d). split; [done|by left].
  - exists (PGeneration d i). split; [done|right; eauto].
Qed.

Lemma landed_inv : inv w'.
Proof using All.
  constructor.
  - intros d' b Hd' Hb. destruct (decide (d' = d)) as [->|E].
    + destruct (Hhad b Hb) as [? | ->]; [by eapply inv_decodes|]. rewrite from_to. eauto.
    + apply (inv_decodes _ HI d'); [done|]. apply (Helse (sp d')); [place_neq|done].
  - intros d' b Hd' Hb. destruct (decide (d' = d)) as [->|E]; [by rewrite Hhere|].
    destruct (Helse (sp d')) as [-> Hh]; [place_neq|]. apply (inv_persists _ HI d' b Hd'), Hh, Hb.
  - intros d' r k Hd' Hr Hk. rewrite Hminted. destruct (landed_was d' r Hd' Hr) as [?|[-> ->]];
      [by apply (inv_keys _ HI d' r)|].
    destruct (lg_keys _ _ _ _ Hlegit k Hk) as [(r & Hr0 & Hkr)|[->|(i & -> & Hi & _ & ?)]];
      [by apply (inv_keys _ HI d r)|by left|right; eauto].
  - intros d' r a Hd' Hr Ha. rewrite landed_cur in Hr by done. case_decide as E.
    + subst d'. injection Hr as <-. destruct (lg_active _ _ _ _ Hlegit a Ha) as (Hnd & Hnr & Hh). split.
      * intros (r0 & Hr0 & Hk). destruct (landed_was d r0 Hd Hr0) as [?|[_ ->]]; [|done].
        apply Hnd. by exists r0.
      * apply landed_holds; [done| |done]. by apply legit_place, active_key.
    + destruct (inv_active _ HI d' r a Hd' Hr Ha) as [Hnd Hh]. split.
      * intros (r0 & Hr0 & Hk). destruct (landed_was d' r0 Hd' Hr0) as [?|[-> _]]; [|done].
        apply Hnd. by exists r0.
      * apply landed_holds; [done| |done]. eapply keys_place; [done|done|by apply cur_was|by apply active_key].
  - intros d' r Hd' Hr. rewrite Hminted. destruct (landed_was d' r Hd' Hr) as [?|[-> ->]];
      [by eapply inv_nonces|]. apply (lg_nonce _ _ _ _ Hlegit).
  - intros d' b Hd'. rewrite (landed_beside (PCanonical d')) by done. by apply inv_canonical.
  - intros name dm b d' Hn Hdm Hk. rewrite (landed_beside (PManifest name dm)) by done. intros Hb Hnb.
    pose proof (named_valid _ _ Hnb) as Hd'.
    assert (Hm : was_manifest w name d' -> was_manifest w' name d').
    { intros (c & Hc). exists c. by apply (later_had w w'). }
    destruct (inv_named _ HI name dm b d' Hn Hdm Hk Hb Hnb) as [Hheld|?]; [|by auto].
    unfold held. rewrite landed_cur by done. case_decide as E; [|by left]. subst d'.
    destruct (lg_named _ _ _ _ Hlegit Hk Hheld) as [[a Ha]|Hu]; [left; eauto|right; eauto].
Qed.

Lemma landed_advance : advance w w'.
Proof using All.
  destruct Hlater as (Hnow & Hmint & Hh). constructor; try done.
  - intros d' Hd' Hc. destruct (decide (d' = d)) as [->|E]; [by rewrite Hhere|].
    rewrite (landed_beside (PState d')); [done..|]. congruence.
  - intros d' b Hd' Hne Hb Hw. destruct (decide (d' = d)) as [->|E].
    + rewrite Hhere in Hb. injection Hb as <-. destruct (lg_nonce _ _ _ _ Hlegit) as (_ & _ & Hf).
      apply (Hf d r'); [done| |done]. exists (to_vec r'). split; [done|apply from_to].
    + apply Hne. rewrite (landed_beside (PState d')); [done..|]. congruence.
  - intros d' Hd' Hc _. by rewrite (landed_beside (PCanonical d')).
  - intros name dm b d' Hn Hdm _. rewrite (landed_beside (PManifest name dm)) by done. by left.
Qed.

Lemma landed_respects j : ~ tk j -> respects j w w'.
Proof using All.
  intros Hj. constructor.
  - intros d' Hd' Hok (r & Hr & Hk). destruct (landed_was d' r Hd' Hr) as [?|[-> ->]]; [by exists r|].
    destruct (lg_keys _ _ _ _ Hlegit _ Hk) as [?|[E|(i & E & Hi & Hti & _)]]; [done|exfalso..];
      apply (place_inj o o_plain) in E; try done; try by split.
    by injection E as ->.
  - intros d' Hd' Hok _. by apply (landed_beside (PGeneration d' j)).
  - intros d' r Hd' Hr Hn. destruct (landed_was d' r Hd' Hr) as [?|[-> ->]]; [done|].
    subst j. by destruct (lg_nonce _ _ _ _ Hlegit).
  - intros d' p Hd' Hk Hp Hpin Hl. destruct (decide (d' = d)) as [->|E].
    + assert (Hl' : pin_is_live p (rnow w - grace) = true).
      { eapply pin_is_live_mono; [|exact Hl]. destruct Hlater. lia. }
      destruct (lg_pins _ _ _ _ Hlegit p Hk Hpin Hl') as [(i & Hi & Hti)|(a & Ha & Hpa)]; [congruence|].
      exists r', a. rewrite landed_cur by done. by rewrite decide_True.
    + unfold pinned. rewrite landed_cur by done. by rewrite decide_False.
Qed.
End landed.

Definition refused (x : put_res V) : bool :=
  match x with PutAlreadyExists | PutPrecondition => true | _ => false end.

Lemma record_put t tk d r' m x w w' :
  inv w -> valid_digest d ->
  (put_allowed m (view (rstore w) (sp d)) -> legit tk w d r') ->
  rsem t _ (ROs _ (OPut (sp d) (to_vec r') m)) w x w' ->
  inv w' /\ advance w w' /\ (forall j, ~ tk j -> respects j w w') /\
  (forall v, x = PutOk v -> cur w' d = Some r') /\
  (refused x = true -> forall j, respects j w w').
Proof using o_plain.
  intros HI Hd Hleg He. destruct (put_sem _ _ _ _ _ _ _ He) as (Hl & Hm & Hq & Hh & Hx).
  assert (Hcase : content w' (sp d) = content w (sp d) /\ (forall v, x <> PutOk v) \/
    put_allowed m (view (rstore w) (sp d)) /\ content w' (sp d) = Some (to_vec r') /\ refused x = false).
  { destruct x; [right; naive_solver|by left..|]. destruct Hx as [?|[? ?]]; [by left|by right]. }
  destruct Hcase as [[Hs Hno]|(Ha & Hc & Href)].
  - destruct (quiet_step w w') as (? & ? & ?); [done..| | |].
    + intros p. destruct (decide (p = sp d)) as [->|]; [done|by apply Hq].
    + intros p b Hb. destruct (decide (p = sp d)) as [->|]; [|by apply Hq].
      destruct (Hh b Hb) as [?|Hb']; [done|]. apply content_had. congruence.
    + split; [done|]. split; [done|]. split; [done|].
      split; [|done]. intros v Hv. by destruct (Hno v).
  - specialize (Hleg Ha).
    assert (Hh' : forall c, had w' (sp d) c -> had w (sp d) c \/ c = to_vec r').
    { intros c Hcc. destruct (Hh c Hcc) as [?|?]; [by left|right; congruence]. }
    split; [by eapply landed_inv|]. split; [by eapply landed_advance|].
    split; [intros j Hj; by eapply landed_respects|]. split; [|by rewrite Href]. intros v _.
    rewrite (landed_cur w w' d r' Hd Hq Hc d Hd). by rewrite decide_True.
Qed.
End world.
