(* ===== verification/BlobRules.v ===== *)
(** * BlobRules: the functions of [BlobState] as steps of [BlobWorld]

    [wpb t B p w Q]: run by task [t] from [w] among any other tasks, [p] keeps the invariant, gives
    the others what they rely on, leaves alone every nonce of [t] outside [B], and ends with [Q].
    One rule per function of [BlobState]; [BlobSafe] composes them into the entry points. *)

From S2P Require Import Prelude Text Names Prog ObjStore Oci BlobState BlobWorld.
Local Open Scope string_scope.
Local Open Scope Z_scope.

Section rules.
Context {V S T : Type} `{EqDecision V} `{HP : PathFrom} `{HR : RecordSerde} `{HJ : Serde} `{HA : Sha}.
Context `{HO : ObjectStore V S}.
Variable o : string.
Hypothesis o_plain : plain_name o.
Variable grace : Z.
Variable kept : Digest -> Prop.
Variable started : T -> option Z.

Abbreviation world := (rworld S T).
Abbreviation P := (prog (reg_eff V)).
Abbreviation sp d := (place_path o (PState d)).
Abbreviation gp d i := (place_path o (PGeneration d i)).
Abbreviation cp d := (place_path o (PCanonical d)).
Abbreviation mp name d := (place_path o (PManifest name d)).
Abbreviation Inv := (inv o kept).
Abbreviation Rely := (rely o grace kept).
Abbreviation Sem := (rsem grace started).
Abbreviation Advance := (advance o grace kept).
Abbreviation Respects := (respects o grace kept).

Implicit Types (w : world) (B : string -> Prop).

Definition but (t : T) B w w' : Prop :=
  Advance w w' /\ forall i, minted w !! i = Some t -> ~ B i -> Respects i w w'.

Lemma rely_but t B w w' : Rely t w w' -> but t B w w'.
Proof using Type. intros [? Hr]. split; auto. Qed.

Lemma but_trans t B B' w w1 w2 :
  but t B w w1 -> but t B' w1 w2 -> (forall i, minted w !! i = Some t -> B' i -> B i) ->
  but t B w w2.
Proof using Type.
  intros [A1 H1] [A2 H2] HB. split; [by etrans|]. intros i Hi Hn.
  apply (respects_trans o grace kept i w w1 w2); auto. apply H2; [|eauto]. by apply (adv_minted _ _ _ _ _ A1).
Qed.

#[global] Instance but_preorder t B : PreOrder (but t B).
Proof using Type.
  split; [|intros ? ? ? H1 H2; by eapply but_trans].
  intros w. split; [reflexivity|]. intros i _ _. by apply respects_refl.
Qed.

Definition wpb {A} (t : T) B (p : P A) w (Q : A -> world -> Prop) : Prop :=
  wp Sem Inv Rely t p w (fun a w' => Inv w' /\ but t B w w' /\ Q a w').

Lemma wpb_ret {A} t B (a : A) w (Q : A -> world -> Prop) : Inv w -> Q a w -> wpb t B (Ret a) w Q.
Proof using Type. intros. split; [done|]. split; [reflexivity|done]. Qed.

Lemma wpb_mono {A} t B (p : P A) w (Q Q' : A -> world -> Prop) :
  wpb t B p w Q -> (forall a w', Inv w' -> but t B w w' -> Q a w' -> Q' a w') -> wpb t B p w Q'.
Proof using Type. intros H HQ. eapply wp_mono; [exact H|]. intros a w' (? & ? & ?). auto. Qed.

Lemma wpb_weaken {A} t B B' (p : P A) w Q :
  wpb t B' p w Q -> (forall i, minted w !! i = Some t -> B' i -> B i) -> wpb t B p w Q.
Proof using Type.
  intros H HB. eapply wp_mono; [exact H|]. intros a w' (? & Hb & ?). split; [done|]. split; [|done].
  by apply (but_trans t B B' w w); [reflexivity|..].
Qed.

(** The continuation may touch nonces drawn since the start. *)
Lemma wpb_bind {A C} t B (p : P A) (f : A -> P C) w Q :
  wpb t B p w (fun a w1 => exists B', (forall i, minted w !! i = Some t -> B' i -> B i) /\
    wpb t B' (f a) w1 Q) ->
  wpb t B (bind p f) w Q.
Proof using Type.
  intros H. apply wp_bind. eapply wp_mono; [exact H|]. intros a w1 (HI & Hb & B' & HB & Hf).
  eapply wp_mono; [exact Hf|]. intros c w2 (? & Hb' & ?). split; [done|]. split; [|done].
  by eapply but_trans.
Qed.

Lemma wpb_seq {A C} t B (p : P A) (f : A -> P C) w Q1 Q :
  wpb t B p w Q1 ->
  (forall a w1, Inv w1 -> but t B w w1 -> Q1 a w1 -> wpb t B (f a) w1 Q) ->
  wpb t B (bind p f) w Q.
Proof using Type.
  intros Hp Hf. apply wpb_bind. eapply wpb_mono; [exact Hp|]. intros a w1 HI Hb HQ. exists B. auto.
Qed.

Lemma wpb_seq_res {A C} t B (p : P (result A)) (f : A -> P (result C)) w Q1 Q :
  wpb t B p w Q1 ->
  (forall a w1, Inv w1 -> but t B w w1 -> Q1 (Ok a) w1 -> wpb t B (f a) w1 Q) ->
  (forall e w1, Inv w1 -> but t B w w1 -> Q1 (Err e) w1 -> Q (Err e) w1) ->
  wpb t B (bind_res p f) w Q.
Proof using Type.
  intros Hp Hf He. eapply wpb_seq; [exact Hp|]. intros [a|e] w1 HI Hb HQ; [by apply Hf|].
  apply wpb_ret; auto.
Qed.

(** One effect that touches the nonces [tk] of its own task. *)
Lemma wpb_effect X (e : reg_eff V X) t tk B w Q :
  (forall i, tk i -> minted w !! i = Some t /\ B i) ->
  (forall w1 x w2, Rely t w w1 -> Inv w1 -> Sem t X e w1 x w2 ->
    Inv w2 /\ Advance w1 w2 /\ (forall j, ~ tk j -> Respects j w1 w2) /\
    (but t B w w2 -> Q x w2)) ->
  wpb t B (trigger e) w Q.
Proof using Type.
  intros Htk H. apply wp_trigger. intros w1 x w2 Hr HI He.
  destruct (H w1 x w2 Hr HI He) as (HI2 & HA2 & Hresp & HQ).
  assert (Hb : but t B w1 w2).
  { split; [done|]. intros i Hi Hn. apply Hresp. intros Hti. by destruct (Htk i Hti). }
  assert (but t B w w2) by (etrans; [by apply rely_but|done]).
  split; [done|]. split; [|auto].
  intros t' Hne. split; [done|]. intros i Hi. apply Hresp. intros Hti.
  destruct (Htk i Hti) as [Hm _]. apply (adv_minted _ _ _ _ _ (proj1 Hr)) in Hm. congruence.
Qed.

Lemma wpb_quiet X (e : reg_eff V X) t B w Q :
  quiet_eff e = true ->
  (forall w1 x w2, Rely t w w1 -> Inv w1 -> Sem t X e w1 x w2 -> Inv w2 -> Rely t w1 w2 -> Q x w2) ->
  wpb t B (trigger e) w Q.
Proof using o_plain.
  intros Hq H. apply (wpb_effect X e t (fun _ => False)); [done|].
  intros w1 x w2 Hr HI He. destruct (quiet_sem o grace kept started t X e w1 x w2) as (HI2 & HA2 & Hresp); [done..|].
  split; [done|]. split; [done|]. split; [auto|]. intros _. by apply (H w1).
Qed.

Lemma wpb_any X (e : reg_eff V X) t B w :
  quiet_eff e = true -> wpb t B (trigger e) w (fun _ _ => True).
Proof using o_plain. intros Hq. by apply wpb_quiet. Qed.

(** ** Facts others leave alone *)
Definition has_version w d (r : BlobRecord) (v : V) : Prop :=
  exists b, seen (rstore w) (sp d) v b /\ record_from_slice b = Some r.

Definition nonce_free w n : Prop := forall d r, valid_digest d -> was o w d r -> nonce r <> n.

Lemma nonce_free_rely t w w' n :
  minted w !! n = Some t -> Rely t w w' -> nonce_free w n -> nonce_free w' n.
Proof using Type.
  intros Hn [_ Hr] Hf d r Hd Hw E. apply (Hf d r Hd); [|done]. by apply (resp_nonce _ _ _ _ _ _ (Hr n Hn)).
Qed.

Lemma wpb_nonce t B w :
  wpb t B (trigger (RNonce : reg_eff V string)) w
    (fun n w' => nonce_ok n /\ minted w !! n = None /\ minted w' !! n = Some t /\ nonce_free w' n /\
                 forall d, valid_digest d -> ~ mentioned o w' d (gp d n)).
Proof using o_plain.
  apply wpb_quiet; [done|]. intros w1 n w2 Hr HI (_ & _ & _ & Hn & Hnew & Hm & Hs) HI2 Hr2.
  assert (Hno : minted w !! n = None).
  { destruct (minted w !! n) as [t'|] eqn:E; [|done].
    apply (adv_minted _ _ _ _ _ (proj1 Hr)) in E. congruence. }
  split; [done|]. split; [done|]. split; [by rewrite Hm, lookup_insert_eq|].
  assert (Hwas : forall d r, was o w2 d r -> was o w1 d r) by (unfold was, had; by rewrite Hs).
  split.
  - intros d r Hd Hw E. destruct (inv_nonces _ _ _ HI d r Hd (Hwas d r Hw)) as [t' Ht]. congruence.
  - intros d Hd (r & Hw & Hk). destruct (inv_keys _ _ _ HI d r _ Hd (Hwas d r Hw) Hk) as [E|(i & [t' Hi] & Hok & E)];
      apply (place_inj o o_plain) in E; try done; try by split. injection E as <-. congruence.
Qed.

Lemma wpb_now t B w :
  wpb t B (trigger (RNow : reg_eff V Z)) w
    (fun z w' => z = rnow w' /\ 0 <= z <= i64_max /\ rnow w <= z /\ forall s, started t = Some s -> s <= z <= s + grace).
Proof using o_plain.
  apply wpb_quiet; [done|]. intros w1 z w2 Hr HI (Hn & Hb & Hst & -> & _) _ _.
  split; [done|]. split; [done|]. split; [|done]. pose proof (adv_now _ _ _ _ _ (proj1 Hr)). lia.
Qed.

(** ** Reading a record *)
Lemma rely_of_but t w w' : but t (fun _ => False) w w' -> Rely t w w'.
Proof using Type. intros [? Hr]. split; auto. Qed.

(** A first part that touches nothing. *)
Abbreviation nothing := (fun _ : string => False).

Lemma wpb_then {A C} t B (p : P A) (f : A -> P C) w Q1 Q :
  wpb t nothing p w Q1 ->
  (forall a w1, Inv w1 -> Rely t w w1 -> Q1 a w1 -> wpb t B (f a) w1 Q) ->
  wpb t B (bind p f) w Q.
Proof using Type.
  intros Hp Hf. apply wpb_bind. apply (wpb_weaken t B nothing); [|done].
  eapply wpb_mono; [exact Hp|]. intros a w1 HI Hb%rely_of_but HQ. exists B. auto.
Qed.

Lemma wpb_then_res {A C} t B (p : P (result A)) (f : A -> P (result C)) w Q1 Q :
  wpb t nothing p w Q1 ->
  (forall a w1, Inv w1 -> Rely t w w1 -> Q1 (Ok a) w1 -> wpb t B (f a) w1 Q) ->
  (forall e w1, Q (Err e) w1) ->
  wpb t B (bind_res p f) w Q.
Proof using Type.
  intros Hp Hf He. eapply wpb_then; [exact Hp|]. intros [a|e] w1 HI Hr HQ; [by apply Hf|].
  by apply wpb_ret.
Qed.

Lemma wpb_read t B d w :
  valid_digest d ->
  wpb t B (read (sp d)) w (fun r w' =>
    match r with
    | Ok (Some l) => has_version w' d (record l) (version l) /\ cur o w' d = Some (record l)
    | Ok None => content w' (sp d) = None
    | Err _ => True
    end).
Proof using o_plain.
  intros Hd. unfold read.
  eapply wpb_seq.
  - apply (wpb_quiet _ _ t B w (fun x w' => match x with
      | GetOk b v => view (rstore w') (sp d) = Some (b, v)
      | GetNotFound => view (rstore w') (sp d) = None
      | GetErr _ => True end)); [done|].
    intros w1 x w2 _ _ (_ & _ & _ & Ho & _) _ _. apply get_law in Ho as [Hq Hx].
    rewrite Hq. exact Hx.
  - intros x w1 HI _ Hx. apply wpb_ret; [done|]. unfold has_version, cur, content. destruct x as [b v| |]; cbn in Hx |- *; [|by rewrite Hx|done].
    destruct (record_from_slice b) as [r|] eqn:Er; [|done]. cbn. split; [|by rewrite Hx].
    exists b. split; [by apply view_seen|done].
Qed.

(** ** Writing a record *)
Lemma wpb_put_record t B d r' m w :
  valid_digest d -> minted w !! nonce r' = Some t -> nonce_free w (nonce r') -> B (nonce r') ->
  (forall w1, Rely t w w1 -> Inv w1 -> put_allowed m (view (rstore w1) (sp d)) ->
    nonce_free w1 (nonce r') -> minted w1 !! nonce r' = Some t ->
    legit o grace kept (fun i => minted w !! i = Some t /\ B i) w1 d r') ->
  wpb t B (trigger (ROs _ (OPut (sp d) (to_vec r') m))) w (fun x w' =>
    match x with
    | PutOk _ => cur o w' d = Some r'
    | PutErr _ => True
    | _ => Rely t w w'
    end).
Proof using o_plain.
  intros Hd Hn Hf HB Hleg. apply (wpb_effect _ _ t (fun i => minted w !! i = Some t /\ B i)); [done|].
  intros w1 x w2 Hr HI He.
  destruct (record_put o o_plain grace kept started t (fun i => minted w !! i = Some t /\ B i) d r' m x w1 w2)
    as (HI2 & Hadv & Hresp & Hok & Href); [done|done| |done|].
  { intros Ha. apply Hleg; try done; [by eapply nonce_free_rely|]. by apply (adv_minted _ _ _ _ _ (proj1 Hr)). }
  split; [done|]. split; [done|]. split; [done|]. intros _.
  destruct x; [by eapply Hok| | |done];
    (etrans; [exact Hr|]; split; [done|]; intros i _; by apply Href).
Qed.

Lemma legit_nonce w t n (r : BlobRecord) (tk : string -> Prop) :
  tk n -> minted w !! n = Some t -> nonce_free w n ->
  tk (nonce (with_nonce n r)) /\ is_Some (minted w !! nonce (with_nonce n r)) /\
  (forall d r', valid_digest d -> was o w d r' -> nonce r' <> nonce (with_nonce n r)).
Proof using Type. intros Ht Hm Hf. cbn. eauto. Qed.

(** A version names one content, so a write it admits is over the record that was read. *)
Lemma version_current w d r v :
  has_version w d r v -> put_allowed (PutUpdate v) (view (rstore w) (sp d)) -> cur o w d = Some r.
Proof using Type.
  intros (b & Hb & Hr) [c Hc]. unfold cur, content. rewrite Hc. cbn.
  apply view_seen in Hc. by rewrite (seen_fun _ _ _ _ _ Hc Hb).
Qed.

Lemma has_version_advance w w' d r v : Advance w w' -> has_version w d r v -> has_version w' d r v.
Proof using Type. intros Hadv (b & Hb & Hr). exists b. split; [by apply (adv_seen _ _ _ _ _ Hadv)|done]. Qed.

Lemma wpb_store {A} t B d r0 r1 v (x : A) w :
  valid_digest d -> has_version w d r0 v ->
  (forall n w1 (tk : string -> Prop), Rely t w w1 -> Inv w1 -> cur o w1 d = Some r0 ->
    nonce_free w1 n -> minted w1 !! n = Some t -> tk n ->
    (forall i, minted w !! i = Some t -> B i -> tk i) ->
    legit o grace kept tk w1 d (with_nonce n r1)) ->
  wpb t B (store_record (sp d) r1 v x) w (fun r w' =>
    match r with
    | Ok (Some y) => y = x /\ exists n, cur o w' d = Some (with_nonce n r1)
    | Ok None => Rely t w w'
    | Err _ => True
    end).
Proof using o_plain.
  intros Hd Hv Hleg. unfold store_record.
  apply wpb_bind. apply (wpb_weaken t B (fun _ => False)); [|done].
  eapply wpb_mono; [apply wpb_nonce|].
  intros n w1 HI Hb%rely_of_but (Hok & Hnew & Hn & Hf & _).
  exists (fun i => B i \/ i = n). split; [intros i Hi [? | ->]; congruence|].
  eapply (wpb_seq_res t _ _ _ w1 (fun r w' =>
    match r with Ok true => cur o w' d = Some (with_nonce n r1) | Ok false => Rely t w1 w' | Err _ => True end)).
  - unfold update. eapply wpb_seq; [apply (wpb_put_record t _ d (with_nonce n r1) (PutUpdate v) w1); auto|].
    + intros w2 Hr2 HI2 Hal Hf2 Hn2.
      assert (Hver : has_version w2 d r0 v).
      { apply (has_version_advance w); [|done]. etrans; [apply Hb|apply Hr2]. }
      pose proof (version_current _ _ _ _ Hver Hal) as Hcur.
      apply Hleg; auto; [by etrans|]. intros i Hi HBi. split; [|by left].
      by apply (adv_minted _ _ _ _ _ (proj1 Hb)).
    + intros x0 w2 HI2 _ Hx. apply wpb_ret; [done|]. by destruct x0.
  - intros landed w2 HI2 _ Hl. apply wpb_ret; [done|]. destruct landed; [eauto|]. by etrans.
  - done.
Qed.

(** ** Loading, adopting a legacy blob *)
Lemma legit_adopt w d n t tk (installed_at : Z) :
  Inv w -> valid_digest d -> content w (sp d) = None -> content w (cp d) <> None ->
  nonce_free w n -> minted w !! n = Some t -> tk n ->
  legit o grace kept tk w d (mkRecord n (Some (mkGeneration (cp d) [] installed_at)) []).
Proof using o_plain.
  intros HI Hd Hno Hcp Hf Hn Htk.
  assert (Hcur : cur o w d = None) by (unfold cur; by rewrite Hno).
  constructor; cbn.
  - intros k Hk. apply list_elem_of_singleton in Hk as ->. right. by left.
  - intros a [= <-]. cbn. split; [|split].
    + intros (r & (b & Hb & _) & _). by apply (inv_persists _ _ _ HI d b).
    + apply not_elem_of_nil.
    + destruct (content w (cp d)) as [b|] eqn:E; [|done]. exists b. split; [done|].
      by apply (inv_canonical _ _ _ HI d b).
  - intros p _ (r & a & Hr & _). congruence.
  - eauto.
  - eauto.
Qed.

Lemma wpb_load t B d w :
  valid_digest d ->
  wpb t B (load o d) w (fun r w' => Rely t w w' /\
    match r with
    | Ok (Some l) => has_version w' d (record l) (version l) /\ cur o w' d = Some (record l)
    | _ => True
    end).
Proof using o_plain.
  intros Hd. apply (wpb_weaken t B (fun _ => False)); [|done].
  eapply wpb_mono; [|intros r w' _ Hb HQ; split; [by apply rely_of_but|exact HQ]].
  unfold load.
  eapply wpb_seq_res; [by apply wpb_read| |done]. intros [l|] w1 HI1 _ H1; cbn in H1; [by apply wpb_ret|].
  eapply wpb_seq.
  - apply (wpb_quiet _ _ t _ w1 (fun x w' => match x with HeadOk _ => content w' (cp d) <> None | _ => True end)); [done|].
    intros w2 x w3 _ _ (_ & _ & _ & Ho & _) _ _. apply head_law in Ho as [Hq Hx].
    destruct x; [|done..]. unfold content. rewrite Hq. cbn in Hx |- *.
    by destruct (view (rstore w2) (canonical_path o d)).
  - intros x w2 HI2 _ Hcp. destruct x as [at_| |e]; [|by apply wpb_ret..].
    apply wpb_bind. eapply wpb_mono; [apply wpb_nonce|].
    intros n w3 HI3 Hb3%rely_of_but (_ & Hnew & Hn & Hf & _).
    exists (fun i => i = n). split; [intros i Hi ->; congruence|].
    eapply (wpb_seq_res t _ _ _ w3 (fun _ _ => True)); [| |done];
      [|intros _ w4 HI4 _ _; eapply wpb_mono; [by apply wpb_read|by intros [[l|]|e]]].
    unfold create. eapply wpb_seq; [|intros x w4 HI4 _ _; by apply wpb_ret].
    eapply wpb_mono; [apply (wpb_put_record t _ d (mkRecord n _ []) PutCreate w3); auto|done].
    intros w4 Hr4 HI4 Hal Hf4 Hn4. assert (Hno : content w4 (sp d) = None).
    { unfold content. cbn in Hal |- *. by rewrite Hal. }
    apply (legit_adopt w4 d n t); try done.
    apply (adv_canonical o grace kept w2 w4); [etrans; [apply Hb3|apply Hr4]|done..].
Qed.

(** ** Retrying *)
Lemma wpb_backoff t B a w : wpb t B (backoff a) w (fun _ _ => True).
Proof using o_plain.
  unfold backoff. eapply wpb_seq; [by apply wpb_any|]. intros r w1 HI _ _. by apply wpb_any.
Qed.

Lemma wpb_attempts {A} t B (body : P (result (option A))) (Pre : world -> Prop) Q exhausted n : forall a w,
  (forall w w', Rely t w w' -> Inv w' -> Pre w -> Pre w') ->
  (forall w, Inv w -> Pre w -> wpb t B body w (fun r w' =>
    match r with Ok (Some x) => Q x w' | Ok None => Pre w' | Err _ => True end)) ->
  Inv w -> Pre w ->
  wpb t B (attempts n a body exhausted) w (fun r w' => match r with Ok x => Q x w' | Err _ => True end).
Proof using o_plain.
  induction n as [|n IH]; intros a w Hstable Hbody HI Hpre; cbn [attempts]; [by apply wpb_ret|].
  eapply wpb_seq_res; [by apply Hbody| |done]. intros [x|] w1 HI1 _ H1; [by apply wpb_ret|].
  cbn in H1. apply wpb_bind. apply (wpb_weaken t B (fun _ => False)); [|done].
  eapply wpb_mono; [apply wpb_backoff|]. intros _ w2 HI2 Hb%rely_of_but _.
  exists B. split; [done|]. apply IH; eauto.
Qed.

(** ** What each operation writes is legitimate *)
Section legitimate.
Variables (w : world) (d : Digest) (n : string) (t : T) (tk : string -> Prop).
Hypothesis HI : Inv w.
Hypothesis Hd : valid_digest d.
Hypothesis Hf : nonce_free w n.
Hypothesis Hn : minted w !! n = Some t.
Hypothesis Htk : tk n.

Lemma cur_mentioned r k : cur o w d = Some r -> k ∈ keys r -> mentioned o w d k.
Proof using Type. intros Hr Hk. exists r. split; [by apply cur_was|done]. Qed.

(** The same generation, active or not. *)
Lemma legit_keep r0 r1 :
  cur o w d = Some r0 ->
  (forall k, k ∈ retired_keys r1 -> k ∈ retired_keys r0) ->
  match active r1, active r0 with
  | Some a1, Some a0 => physical_key a1 = physical_key a0 /\
    forall p, p ∈ pins a0 -> p ∈ pins a1 \/ exists i, pub_nonce p = Some i /\ tk i
  | None, None => True
  | _, _ => False
  end ->
  legit o grace kept tk w d (with_nonce n r1).
Proof using HI Hd Hf Hn Htk o_plain.
  intros Hr0 Hret Hact. constructor; [| | | |by eapply legit_nonce].
  - unfold keys. cbn. intros k [Hk|Hk]%elem_of_app; left; apply (cur_mentioned r0); try done.
    + destruct (active r1) as [a1|], (active r0) as [a0|] eqn:E0; try done; [|by apply not_elem_of_nil in Hk].
      apply list_elem_of_singleton in Hk as ->. destruct Hact as [-> _]. by apply active_key.
    + apply retired_key, Hret, Hk.
  - cbn. intros a1 Ha1. rewrite Ha1 in Hact. destruct (active r0) as [a0|] eqn:E0; [|done].
    destruct Hact as [-> _]. destruct (inv_active _ _ _ HI d r0 a0 Hd Hr0 E0) as [Hnd Hh].
    split; [done|]. split; [|done]. intros Hk. apply Hnd. exists r0. split; [by apply cur_was|by apply Hret].
  - cbn. intros p _ (r & a & Hr & Ha & Hp) _. rewrite Hr0 in Hr. injection Hr as <-. rewrite Ha in Hact.
    destruct (active r1) as [a1|]; [|done]. destruct Hact as [_ Hpin].
    destruct (Hpin p Hp) as [?|?]; [right; eauto|by left].
  - cbn. intros _ (r & a & Hr & Ha). rewrite Hr0 in Hr. injection Hr as <-. rewrite Ha in Hact.
    left. destruct (active r1); [eauto|done].
Qed.

(** The active generation retired: nobody's live pin, and no manifest, is on it. *)
Lemma legit_retire r0 a0 at_ :
  cur o w d = Some r0 -> active r0 = Some a0 ->
  (kept d -> has_live_pin a0 (rnow w - grace) = false /\ unnamed o w d) ->
  legit o grace kept tk w d
    (mkRecord n None (retired r0 ++ [mkRetired (physical_key a0) at_])%list).
Proof using HI Hd Hf Hn Htk.
  intros Hr0 Ha0 Hk. constructor; cbn; [| | | |by eauto].
  - unfold keys, retired_keys. cbn. rewrite map_app. cbn. intros k Hkk. left. apply (cur_mentioned r0); [done|].
    apply elem_of_app in Hkk as [Hkk|Hkk]; [by apply retired_key|].
    apply list_elem_of_singleton in Hkk as ->. by apply active_key.
  - done.
  - intros p Hkept (r & a & Hr & Ha & Hp) Hl. rewrite Hr0 in Hr. injection Hr as <-. rewrite Ha0 in Ha.
    injection Ha as <-. destruct (Hk Hkept) as [Hno _]. unfold has_live_pin in Hno.
    rewrite any_false in Hno. by rewrite Hno in Hl.
  - intros Hkept _. right. by apply Hk.
Qed.

(** A fresh generation installed, over whatever was there. *)
Lemma legit_install i rets ps at_ :
  nonce_ok i -> tk i -> is_Some (minted w !! i) -> ~ mentioned o w d (gp d i) -> holds w d (gp d i) ->
  (forall k, k ∈ map r_physical_key rets -> exists r0, cur o w d = Some r0 /\ k ∈ keys r0) ->
  (forall r0 a0 p, cur o w d = Some r0 -> active r0 = Some a0 -> p ∈ pins a0 -> p ∈ ps) ->
  legit o grace kept tk w d (mkRecord n (Some (mkGeneration (gp d i) ps at_)) rets).
Proof using HI Hd Hf Hn Htk.
  intros Hi Hti Hmi Hm Hh Hrets Hps. constructor; cbn; [| | | |by eauto].
  - unfold keys, retired_keys. cbn. intros k [->|Hk]%elem_of_cons; [by right; right; eauto|].
    destruct (Hrets k Hk) as (r0 & Hr0 & Hk0). left. by apply (cur_mentioned r0).
  - intros a [= <-]. cbn. split; [|split; [|done]].
    + intros (r & Hr & Hk). apply Hm. exists r. split; [done|by apply retired_key].
    + intros Hk. destruct (Hrets _ Hk) as (r0 & Hr0 & Hk0). apply Hm. by apply (cur_mentioned r0).
  - intros p _ (r & a & Hr & Ha & Hp) _. right. eauto.
  - eauto.
Qed.
End legitimate.

(** ** The operations *)
Definition fresh_key (t : T) w d i : Prop :=
  minted w !! i = Some t /\ nonce_ok i /\ ~ mentioned o w d (gp d i) /\ holds w d (gp d i).

Lemma fresh_key_rely t w w' d i :
  valid_digest d -> Rely t w w' -> fresh_key t w d i -> fresh_key t w' d i.
Proof using Type.
  intros Hd [Hadv Hr] (Hm & Hi & Hno & b & Hb & Hsha). specialize (Hr i Hm).
  split; [by apply (adv_minted _ _ _ _ _ Hadv)|]. split; [done|]. split.
  - intros Hm'. by apply Hno, (resp_key _ _ _ _ _ _ Hr d).
  - exists b. split; [|done]. by rewrite (resp_bytes _ _ _ _ _ _ Hr d).
Qed.

Definition install_post (t : T) d i (r : result (option unit)) w : Prop :=
  match r with Ok None => fresh_key t w d i | _ => True end.

Lemma wpb_install_over t d i r0 v m rets ps at_ w :
  valid_digest d -> fresh_key t w d i -> has_version w d r0 v ->
  (forall k, k ∈ map r_physical_key rets -> k ∈ keys r0) ->
  (forall a0 p, active r0 = Some a0 -> p ∈ pins a0 -> p ∈ ps) ->
  wpb t (fun j => j = i)
    (store_record (sp d) (mkRecord m (Some (mkGeneration (gp d i) ps at_)) rets) v tt) w
    (install_post t d i).
Proof using o_plain.
  intros Hd Hk Hver Hrets Hps.
  eapply wpb_mono; [apply (wpb_store t _ d r0); [done|done|]|].
  - intros n w4 tk Hr4 HI4 Hc4 Hf4 Hn4 Htn Htk. unfold with_nonce. cbn [active retired].
    destruct (fresh_key_rely t w w4 d i Hd Hr4 Hk) as (Hm & Hi & Hno & Hh).
    destruct Hk as (Hmw & _). apply (legit_install w4 d n t); try done; eauto.
    intros r a0 p Hr Ha0 Hp. apply (Hps a0); congruence.
  - intros [[[]|]|e] w4 _ _ Hs; [done| |done]. by apply (fresh_key_rely t w).
Qed.

Lemma wpb_install_new t d i w :
  valid_digest d -> fresh_key t w d i ->
  wpb t (fun j => j = i)
    (let! n := fresh_nonce in
     let! installed_at := now_millis in
     let!? landed := create (sp d) (mkRecord n (Some (mkGeneration (gp d i) [] installed_at)) []) in
     Ret (Ok (if landed then Some tt else None))) w (install_post t d i).
Proof using o_plain.
  intros Hd Hk. apply wpb_bind. apply (wpb_weaken t _ nothing); [|done].
  eapply wpb_mono; [apply wpb_nonce|]. intros n w1 HI1 Hb1%rely_of_but (_ & Hnew & Hn & Hf & _).
  exists (fun j => j = i \/ j = n). split; [intros j Hj [? | ->]; [done|congruence]|].
  eapply wpb_then; [apply wpb_now|]. intros tb w2 HI3 Hr _.
  assert (Hr2 : Rely t w w2) by (etrans; [exact Hb1|exact Hr]).
  apply (fresh_key_rely t w w2) in Hk; [|done..].
  eapply (wpb_seq_res t _ _ _ w2 (fun r w' => match r with Ok false => Rely t w2 w' | _ => True end)); [| |done].
  - unfold create. eapply wpb_seq; [apply (wpb_put_record t _ d (mkRecord n _ []) PutCreate w2); cbn; auto|].
    + by apply (adv_minted _ _ _ _ _ (proj1 Hr)).
    + by eapply nonce_free_rely.
    + intros w4 Hr4 HI4 Hal Hf4 Hn4.
      assert (Hcur : cur o w4 d = None) by (unfold cur, content; cbn; by rewrite Hal).
      destruct (fresh_key_rely t w2 w4 d i Hd Hr4 Hk) as (Hm & Hi & Hno & Hh).
      destruct Hk as (Hmw & _). apply (legit_install w4 d n t); try done; eauto.
      * split; [|by right]. by apply (adv_minted _ _ _ _ _ (proj1 Hr)).
      * intros k Hkk. by apply not_elem_of_nil in Hkk.
      * intros r0 a0 p Hr0. congruence.
    + intros x w4 HI4 _ Hx. apply wpb_ret; [done|]. by destruct x.
  - intros landed w4 HI4 _ Hl4. apply wpb_ret; [done|]. destruct landed; [done|]. by apply (fresh_key_rely t w2).
Qed.

Lemma wpb_install t d i w :
  valid_digest d -> Inv w -> fresh_key t w d i ->
  wpb t (fun j => j = i) (install o d (gp d i)) w (fun _ _ => True).
Proof using o_plain.
  intros Hd HI Hk. unfold install.
  eapply wpb_mono; [apply (wpb_attempts t _ _ (fun w => fresh_key t w d i) (fun _ _ => True)); try done|done].
  { intros w1 w2 Hr _. by apply fresh_key_rely. }
  clear w HI Hk. intros w HI Hk. unfold install_once.
  apply (wpb_mono _ _ _ _ (install_post t d i)); [|by intros [[]|]].
  eapply wpb_then_res; [by apply wpb_load| |done]. intros l w1 HI1 Hr1 [_ Hl].
  apply (fresh_key_rely t w w1) in Hk; [|done..].
  destruct l as [l|]; [|by apply wpb_install_new].
  destruct Hl as [Hver _]. destruct (is_some_and _ _); [by apply wpb_ret|].
  destruct (active (record l)) as [old|] eqn:Eold.
  - eapply wpb_then; [apply wpb_now|]. intros ta w2 HI2 Hr2 _.
    eapply wpb_then; [apply wpb_now|]. intros tb w3 HI3 Hr3 _.
    assert (Hr : Rely t w1 w3) by (etrans; [exact Hr2|exact Hr3]).
    apply (wpb_install_over t d i (record l)); [done|by eapply fresh_key_rely|by eapply has_version_advance; [apply Hr|]| |].
    + rewrite map_app. intros k [Hkk|Hkk]%elem_of_app; [by apply retired_key|].
      apply list_elem_of_singleton in Hkk as ->. by apply active_key.
    + intros a0 p Ha0 Hp. congruence.
  - eapply wpb_then; [apply wpb_now|]. intros tb w3 HI3 Hr _.
    apply (wpb_install_over t d i (record l)); [done|by eapply fresh_key_rely|by eapply has_version_advance; [apply Hr|]| |].
    + intros k Hkk. by apply retired_key.
    + intros a0 p Ha0 Hp. congruence.
Qed.

(** Writes that keep the active generation, as pins come and go and retired ones are dropped. *)
Definition keeps (t : T) B w (r0 r1 : BlobRecord) : Prop :=
  (forall k, k ∈ retired_keys r1 -> k ∈ retired_keys r0) /\
  match active r1, active r0 with
  | Some a1, Some a0 => physical_key a1 = physical_key a0 /\
    forall p, p ∈ pins a0 -> p ∈ pins a1 \/
      exists i, pub_nonce p = Some i /\ minted w !! i = Some t /\ B i
  | None, None => True
  | _, _ => False
  end.

Lemma wpb_store_keep {A} t B d r0 r1 v (x : A) w :
  valid_digest d -> has_version w d r0 v -> keeps t B w r0 r1 ->
  wpb t B (store_record (sp d) r1 v x) w (fun r w' =>
    match r with Ok (Some y) => y = x /\ exists n, cur o w' d = Some (with_nonce n r1) | _ => True end).
Proof using o_plain.
  intros Hd Hver [Hret Hact]. eapply wpb_mono; [apply (wpb_store t B d r0); [done|done|]|by intros [[y|]|e]].
  intros n w1 tk Hr HI Hcur Hf Hn Htn Htk. apply (legit_keep w1 d n t tk HI Hd Hf Hn Htn r0); [done|done|].
  destruct (active r1) as [a1|], (active r0) as [a0|]; try done. destruct Hact as [Hk Hp].
  split; [done|]. intros p Hpp. destruct (Hp p Hpp) as [?|(i & ? & ? & ?)]; [by left|right; eauto].
Qed.

Lemma wpb_pin t B d p w :
  valid_digest d -> Inv w ->
  wpb t B (pin o d p) w (fun r w' => r = Ok true -> pinned o w' d p).
Proof using o_plain.
  intros Hd HI. unfold pin.
  eapply wpb_mono; [apply (wpb_attempts t B _ (fun _ => True) (fun b w' => b = true -> pinned o w' d p)); try done|].
  2: { intros [b|e] w' _ _ H Heq; [|done]. injection Heq as ->. by apply H. }
  clear w HI. intros w HI _. unfold pin_once.
  eapply wpb_then_res; [by apply wpb_load| |done]. intros [l|] w1 HI1 _ [_ Hl]; [|by apply wpb_ret].
  destruct Hl as [Hver _]. destruct (active (record l)) as [a|] eqn:Ea; [|by apply wpb_ret].
  eapply wpb_mono; [apply (wpb_store_keep t B d (record l)); [done|done|]|].
  - split; [done|]. cbn. rewrite Ea. unfold add_pin.
    destruct (any _ _); cbn; (split; [done|]); intros q Hq; left; [done|].
    apply elem_of_app. by left.
  - intros [[b|]|e] w2 _ _ Hs; [|done..]. destruct Hs as [-> (n & Hcur)]. intros _.
    exists (with_nonce n (mkRecord (nonce (record l)) (Some (add_pin p a)) (retired (record l)))), (add_pin p a).
    split; [done|]. split; [done|]. unfold add_pin. destruct (any _ _) eqn:E.
    + apply any_spec in E as (q & Hq & ->%String.eqb_eq). done.
    + cbn. apply elem_of_app. right. by left.
Qed.

Lemma wpb_unpin t B d p i w :
  valid_digest d -> Inv w -> pub_nonce p = Some i -> minted w !! i = Some t -> B i ->
  wpb t B (unpin o d p) w (fun _ _ => True).
Proof using o_plain.
  intros Hd HI Hp Hi HB. unfold unpin.
  eapply wpb_mono; [apply (wpb_attempts t B _ (fun w => minted w !! i = Some t) (fun _ _ => True)); try done|done].
  { intros w1 w2 [Hadv _] _. by apply (adv_minted _ _ _ _ _ Hadv). }
  clear w HI Hi. intros w HI Hi. unfold unpin_once.
  eapply (wpb_mono _ _ _ _ (fun r w' => minted w' !! i = Some t)); [|by intros [[[]|]|]].
  apply (wpb_mono _ _ _ _ (fun _ _ => True)); [|intros r w' _ Hb _; apply (adv_minted _ _ _ _ _ (proj1 Hb)); exact Hi].
  eapply wpb_then_res; [by apply wpb_load| |done]. intros [l|] w1 HI1 Hr [_ Hl]; [|by apply wpb_ret].
  destruct Hl as [Hver _]. destruct (active (record l)) as [a|] eqn:Ea; [|by apply wpb_ret].
  eapply wpb_mono; [apply (wpb_store_keep t B d (record l)); [done|done|]|done].
  split; [done|]. cbn. rewrite Ea. split; [done|]. intros q Hq.
  destruct (String.eqb_spec q p) as [->|Hne].
  - right. exists i. split; [done|]. split; [|done]. by apply (adv_minted _ _ _ _ _ (proj1 Hr)).
  - left. cbn. apply list_elem_of_In, filter_In. split; [by apply list_elem_of_In|].
    by destruct (String.eqb_spec q p).
Qed.

Lemma wpb_retire t B d w :
  valid_digest d -> ~ kept d -> Inv w ->
  wpb t B (retire o d) w (fun r w' => forall k, r = Ok (Some k) -> dead o w' d k).
Proof using o_plain.
  intros Hd Hk HI. unfold retire.
  eapply wpb_mono; [apply (wpb_attempts t B _ (fun _ => True) (fun x w' => forall k, x = Some k -> dead o w' d k)); try done|].
  2: { intros [b|e] w' _ _ H k Heq; [|done]. injection Heq as ->. by apply H. }
  clear w HI. intros w HI _. unfold retire_once.
  eapply wpb_then_res; [by apply wpb_load| |done]. intros [l|] w1 HI1 _ [_ Hl]; [|by apply wpb_ret].
  destruct Hl as [Hver _]. destruct (active (record l)) as [a|] eqn:Ea; [|by apply wpb_ret].
  eapply wpb_then; [apply wpb_now|]. intros ta w2 HI2 Hr2 _.
  eapply wpb_mono; [apply (wpb_store t B d (record l)); [done|by eapply has_version_advance; [apply Hr2|]|]|].
  - intros n w3 tk Hr3 HI3 Hcur Hf Hn Htn _. by apply (legit_retire w3 d n t tk HI3 Hd Hf Hn Htn (record l) a).
  - intros [[b|]|e] w3 _ _ Hs; [|done..]. destruct Hs as [-> (n & Hcur)]. intros k [= <-].
    eexists. split; [by apply cur_was|]. unfold retired_keys. cbn. rewrite map_app. apply elem_of_app. right. by left.
Qed.

Lemma dead_advance w w' d k : Advance w w' -> dead o w d k -> dead o w' d k.
Proof using Type.
  intros Hadv (r & (b & Hb & Hr) & Hk). exists r. split; [|done]. exists b. split; [|done].
  by eapply adv_had.
Qed.

Lemma wpb_delete_retired t B d k w :
  valid_digest d -> Inv w -> dead o w d k ->
  wpb t B (delete_retired o d k) w (fun _ _ => True).
Proof using o_plain.
  intros Hd HI Hdead. unfold delete_retired. eapply wpb_seq.
  - apply (wpb_effect _ _ t nothing B w (fun _ _ => True)); [done|]. intros w1 x w2 [Hadv _] HI1 He.
    pose proof (dead_advance _ _ _ _ Hadv Hdead) as Hdead1.
    destruct (dead_delete o o_plain grace kept started t d k x w1 w2 HI1 Hd Hdead1 He) as (? & ? & ?).
    split; [done|]. split; [done|]. split; auto.
  - intros x w1 HI1 _ _.
    assert (Hloop : wpb t B (attempts 8 0 (delete_retired_once o d k)
      "retired blob cleanup CAS retries exhausted") w1 (fun _ _ => True)).
    { eapply wpb_mono; [apply (wpb_attempts t B _ (fun _ => True) (fun _ _ => True)); try done|done].
      clear w w1 x HI HI1 Hdead. intros w HI _. unfold delete_retired_once.
      eapply wpb_then_res; [by apply wpb_read| |done]. intros [l|] w1 HI1 _ Hl; [|by apply wpb_ret].
      destruct Hl as [Hver _].
      eapply wpb_mono; [apply (wpb_store_keep t B d (record l)); [done|done|]|by intros [[[]|]|]].
      split.
      - unfold retired_keys. cbn. intros q (r & -> & Hr)%list_elem_of_fmap.
        apply list_elem_of_In, filter_In in Hr as [Hr _]. apply list_elem_of_fmap. exists r.
        split; [done|by apply list_elem_of_In].
      - cbn. destruct (active (record l)); [|done]. split; [done|]. auto. }
    destruct x; [done|done|by apply wpb_ret].
Qed.

Lemma stamp_first_keys key ts l l' : stamp_first key ts l = Some l' -> map r_physical_key l' = map r_physical_key l.
Proof using Type.
  revert l'. induction l as [|r l IH]; cbn; intros l'; [done|].
  destruct (String.eqb _ _).
  - destruct (negb _); [done|]. by intros [= <-].
  - destruct (stamp_first key ts l) as [l1|]; [|done]. cbn. intros [= <-]. cbn. by rewrite (IH l1).
Qed.

Lemma wpb_stamp_retired t B d k ts w :
  valid_digest d -> Inv w -> wpb t B (stamp_retired o d k ts) w (fun _ _ => True).
Proof using o_plain.
  intros Hd HI. unfold stamp_retired.
  eapply wpb_mono; [apply (wpb_attempts t B _ (fun _ => True) (fun _ _ => True)); try done|done].
  clear w HI. intros w HI _. unfold stamp_retired_once.
  eapply wpb_then_res; [by apply wpb_read| |done]. intros [l|] w1 HI1 _ Hl; [|by apply wpb_ret].
  destruct Hl as [Hver _]. destruct (stamp_first _ _ _) as [l'|] eqn:Es; [|by apply wpb_ret].
  eapply wpb_mono; [apply (wpb_store_keep t B d (record l)); [done|done|]|by intros [[[]|]|]].
  split.
  - unfold retired_keys. cbn. by rewrite (stamp_first_keys _ _ _ _ Es).
  - cbn. destruct (active (record l)); [|done]. split; [done|]. auto.
Qed.

Lemma wpb_retire_if_unpinned t B d r0 b0 v cutoff w :
  valid_digest d -> Inv w -> seen (rstore w) (sp d) v b0 -> record_from_slice b0 = Some r0 ->
  cutoff <= rnow w - grace ->
  (forall w1 a, Rely t w w1 -> Inv w1 -> content w1 (sp d) = Some b0 -> active r0 = Some a ->
    has_live_pin a cutoff = false -> kept d -> unnamed o w1 d) ->
  wpb t B (retire_if_unpinned o d v cutoff) w (fun r w' => forall k, r = Ok (Some k) -> dead o w' d k).
Proof using o_plain.
  intros Hd HI Hb0 Hr0 Hcut Hun. assert (Hver : has_version w d r0 v) by by exists b0.
  unfold retire_if_unpinned.
  eapply wpb_then_res; [by apply wpb_read| |done]. intros [l|] w1 HI1 Hr1 Hl; [|by apply wpb_ret].
  destruct Hl as [Hverl _]. destruct (bool_decide (version l = v)) eqn:Ev; [|by apply wpb_ret].
  cbn [negb].
  apply bool_decide_eq_true in Ev. rewrite Ev in Hverl.
  assert (record l = r0) as ->.
  { destruct Hverl as (b' & Hb' & Hr'). apply (adv_seen _ _ _ _ _ (proj1 Hr1)) in Hb0.
    rewrite (seen_fun _ _ _ _ _ Hb' Hb0) in Hr'. congruence. }
  destruct (active r0) as [a|] eqn:Ea; [|by apply wpb_ret].
  destruct (has_live_pin a cutoff) eqn:Ep; [by apply wpb_ret|].
  eapply wpb_then; [apply wpb_now|]. intros ta w2 HI2 Hr2 _.
  apply wpb_bind. apply (wpb_weaken t B nothing); [|done].
  eapply wpb_mono; [apply wpb_nonce|]. intros n w3 HI3 Hr3%rely_of_but (_ & Hnew & Hn & Hf & _).
  exists (fun j => B j \/ j = n). split; [intros j Hj [? | ->]; [done|congruence]|].
  set (r1 := mkRecord n None _).
  eapply (wpb_seq_res t _ _ _ w3 (fun r w' => match r with Ok true => cur o w' d = Some r1 | _ => True end)); [| |done].
  - unfold update. eapply wpb_seq; [apply (wpb_put_record t _ d r1 (PutUpdate v) w3); cbn; auto|].
    + intros w4 Hr4 HI4 Hal Hf4 Hn4.
      assert (Hr : Rely t w w4) by (etrans; [exact Hr1|]; etrans; [exact Hr2|]; etrans; [exact Hr3|exact Hr4]).
      assert (Hcur : cur o w4 d = Some r0).
      { eapply version_current; [eapply has_version_advance; [apply Hr|exact Hver]|done]. }
      assert (Hc4 : content w4 (sp d) = Some b0).
      { destruct Hal as [c Hc]. unfold content. cbn [place_path]. rewrite Hc. cbn. f_equal. apply view_seen in Hc.
        eapply seen_fun; [exact Hc|]. by apply (adv_seen _ _ _ _ _ (proj1 Hr)). }
      apply (legit_retire w4 d n t); try done; [split; [done|by right]|]. intros Hk. split; [|by eapply Hun].
      unfold has_live_pin in Ep |- *. rewrite any_false in Ep |- *. intros p Hp. specialize (Ep p Hp).
      destruct (pin_is_live p (rnow w4 - grace)) eqn:El; [|done].
      rewrite (pin_is_live_mono p cutoff (rnow w4 - grace)) in Ep; [done| |done].
      pose proof (adv_now _ _ _ _ _ (proj1 Hr)). lia.
    + intros x w4 HI4 _ Hx. apply wpb_ret; [done|]. by destruct x.
  - intros landed w4 HI4 _ Hl4. apply wpb_ret; [done|]. intros k Hk. destruct landed; [|done]. injection Hk as <-.
    exists r1. split; [by apply cur_was|]. unfold retired_keys, r1. cbn. rewrite map_app. apply elem_of_app. right. by left.
Qed.

(** ** A list of programs, each answer about a fact that lasts *)
Lemma wpb_traverse {A C} t B (f : A -> P C) (K : world -> Prop) (Q : A -> C -> world -> Prop) l : forall w,
  (forall w w', but t B w w' -> Inv w' -> K w -> K w') ->
  (forall a c w w', but t B w w' -> Inv w' -> Q a c w -> Q a c w') ->
  (forall a w, a ∈ l -> Inv w -> K w -> wpb t B (f a) w (Q a)) ->
  Inv w -> K w ->
  wpb t B (traverse f l) w (fun cs w' => Forall2 (fun a c => Q a c w') l cs).
Proof using Type.
  induction l as [|a l IH]; intros w HK HQ Hf HI Hw; cbn [traverse]; [by apply wpb_ret|].
  eapply wpb_seq; [apply Hf; [by left|done..]|]. intros c w1 HI1 Hb1 Hc.
  eapply wpb_seq; [apply IH; eauto; intros a' w' Ha'; apply Hf; by right|].
  intros cs w2 HI2 Hb2 Hcs. apply wpb_ret; [done|]. constructor; [by eapply HQ|done].
Qed.
End rules.
