(* ===== verification/BlobSafe.v ===== *)
(** * BlobSafe: what the registry promises about a blob, whoever runs

    The entry points of the registry, pushes of blobs and manifests, pulls, client deletions and the
    garbage collector, run interleaved by any number of tasks on one object store.
    [active_bytes_right]: a blob that resolves has its bytes, and they are what the digest says.
    [named_blob_held]: the sweep never takes a blob that a stored manifest names from under it. *)

From S2P Require Import Prelude Text Names Prog ObjStore Oci BlobState Pour BlobPush BlobGc BlobWorld BlobRules.
Local Open Scope string_scope.
Local Open Scope Z_scope.

(** ** Publications *)
Lemma publication_pin_live n t x c :
  0 <= t <= i64_max ->
  pin_is_live (x +:+ "#" +:+ n +:+ "@" +:+ display_i t) c = (c <=? t).
Proof.
  intros Ht. unfold pin_is_live.
  replace (x +:+ "#" +:+ n +:+ "@" +:+ display_i t)%string
    with ((x +:+ "#" +:+ n) +:+ String "@" (display_i t))%string by (by rewrite !append_assoc).
  rewrite rsplit_once_app; cbn; [by rewrite parse_i64_display|].
  unfold display_i. destruct (Z.ltb_spec t 0); [lia|]. by apply display_no_char.
Qed.

Lemma publication_nonce n t x :
  0 <= t <= i64_max -> nonce_ok n ->
  pub_nonce (x +:+ "#" +:+ n +:+ "@" +:+ display_i t) = Some n.
Proof.
  intros Ht [_ Hn]. unfold pub_nonce.
  replace (x +:+ "#" +:+ n +:+ "@" +:+ display_i t)%string
    with ((x +:+ "#" +:+ n) +:+ String "@" (display_i t))%string by (by rewrite !append_assoc).
  rewrite rsplit_once_app; cbn.
  - change ("#" +:+ n)%string with (String "#" n). rewrite rsplit_once_app; [done|].
    by eapply all_chars_no.
  - unfold display_i. destruct (Z.ltb_spec t 0); [lia|]. by apply display_no_char.
Qed.

Section safe.
Context {V S T : Type} `{EqDecision V} `{HP : PathFrom} `{HR : RecordSerde} `{HJ : Serde} `{HA : Sha}.
Context `{HO : ObjectStore V S}.
Variable o : string.
Hypothesis o_plain : plain_name o.
Variable grace : Z.
Variable kept : Digest -> Prop.
Variable started : T -> option Z.
Variable representable : Z -> bool.

Abbreviation world := (rworld S T).
Abbreviation P := (prog (reg_eff V)).
Abbreviation sp d := (place_path o (PState d)).
Abbreviation gp d i := (place_path o (PGeneration d i)).
Abbreviation cp d := (place_path o (PCanonical d)).
Abbreviation mp name d := (place_path o (PManifest name d)).
Abbreviation Inv := (inv o kept).
Abbreviation Rely := (rely o grace kept).
Abbreviation Sem := (rsem grace started).
Abbreviation Advance := (advance o grace kept).
Abbreviation Wpb := (wpb o grace kept started).
Abbreviation nothing := (fun _ : string => False).

Implicit Types (w : world) (B : string -> Prop).

(** ** Pushing a blob *)
Definition own_key (t : T) w d i : Prop :=
  minted w !! i = Some t /\ nonce_ok i /\ ~ mentioned o w d (gp d i).

Lemma own_key_rely t w w' d i : valid_digest d -> Rely t w w' -> own_key t w d i -> own_key t w' d i.
Proof using Type.
  intros Hd [Hadv Hr] (Hm & Hi & Hno). split; [by apply (adv_minted _ _ _ _ _ Hadv)|]. split; [done|].
  intros Hm'. by apply Hno, (resp_key _ _ _ _ _ _ (Hr i Hm) d).
Qed.

Definition hashing (d : Digest) (bytes : string) (h : BlockingHasher) : Prop :=
  h_algo h = algo d /\ hashed h +:+ h_buf h = bytes.

Lemma wpb_call t B what w :
  Wpb t B (trigger (RCall what)) w (fun _ _ => True).
Proof using o_plain. by apply wpb_any. Qed.

Lemma wpb_hasher_flush t B d bytes h w :
  Inv w -> hashing d bytes h ->
  Wpb t B (hasher_flush h) w (fun r _ => forall h', r = Ok h' -> hashing d bytes h' /\ h_buf h' = "").
Proof using o_plain.
  intros HI [Ha Hb]. unfold hasher_flush. destruct (String.eqb_spec (h_buf h) "") as [E|E].
  - apply wpb_ret; [done|]. intros h' [= <-]. by split.
  - eapply wpb_seq_res; [apply wpb_call| |done]. intros _ w1 HI1 _ _. apply wpb_ret; [done|].
    intros h' [= <-]. split; [|done]. split; [done|]. cbn. by rewrite append_nil_r.
Qed.

Lemma wpb_hasher_update t B d bytes chunk h w :
  Inv w -> hashing d bytes h ->
  Wpb t B (hasher_update chunk h) w (fun r _ => forall h', r = Ok h' -> hashing d (bytes +:+ chunk) h').
Proof using o_plain.
  intros HI [Ha Hb]. unfold hasher_update. cbv zeta.
  assert (Hh : hashing d (bytes +:+ chunk) (mkHasher (h_algo h) (hashed h) (h_buf h +:+ chunk))).
  { split; [done|]. cbn. by rewrite <- append_assoc, Hb. }
  destruct (_ <=? _).
  - eapply wpb_mono; [by apply (wpb_hasher_flush t B d)|]. intros r w' _ _ H h' Hr. by apply H.
  - apply wpb_ret; [done|]. by intros h' [= <-].
Qed.

Lemma wpb_hasher_finish t B d bytes h w :
  Inv w -> hashing d bytes h ->
  Wpb t B (hasher_finish h) w (fun r _ => forall x, r = Ok x -> x = mkDigest (algo d) (sha (algo d) bytes)).
Proof using o_plain.
  intros HI Hh. unfold hasher_finish.
  eapply wpb_seq_res; [by apply (wpb_hasher_flush t B d bytes)| |done]. intros h' w1 HI1 _ Hf.
  destruct (Hf h' eq_refl) as [[Ha Hb] Hbuf]. rewrite Hbuf, append_nil_r in Hb.
  eapply wpb_seq_res; [apply wpb_call| |done]. intros _ w2 HI2 _ _. apply wpb_ret; [done|].
  intros x [= <-]. by rewrite Ha, Hb.
Qed.

(** The object that [pour] leaves behind when it succeeds. *)
Definition poured (t : T) (d : Digest) (i : string) (r : Z + Refused) w : Prop :=
  forall n, r = inl n -> fresh_key o t w d i.

Lemma wpb_abort t B r d i w : Inv w -> Wpb t B (abort r) w (poured t d i).
Proof using o_plain.
  intros HI. unfold abort. eapply wpb_seq; [apply wpb_call|]. intros _ w1 HI1 _ _. by apply wpb_ret.
Qed.

Lemma wpb_pour_end t d i h bytes n w :
  valid_digest d -> Inv w -> own_key t w d i -> hashing d bytes h ->
  Wpb t (fun j => j = i) (pour_end (gp d i) (Some d) (Some h) bytes n) w (poured t d i).
Proof using o_plain.
  intros Hd HI Hk Hh. unfold pour_end.
  eapply (wpb_then o grace kept started); [by apply (wpb_hasher_finish t _ d bytes)|]. intros [got|e] w1 HI1 Hr1 Hgot;
    [|by apply wpb_abort].
  rewrite (Hgot got eq_refl). destruct (bool_decide _) eqn:E; [|by apply wpb_abort].
  apply bool_decide_eq_true in E.
  apply (own_key_rely t w w1) in Hk; [|done..]. clear w HI Hr1.
  eapply wpb_seq.
  - apply (wpb_effect o grace kept started _ _ t (fun j => j = i) _ w1 (fun x w' => match x with
      | PutOk _ => fresh_key o t w' d i | _ => True end)); [intros j ->; by destruct Hk|].
    intros w2 x w3 Hr HI2 He. destruct (own_key_rely t w1 w2 d i Hd Hr Hk) as (Hm & Hi & Hno).
    destruct (generation_put o o_plain grace kept started t d i bytes PutOverwrite x w2 w3) as (HI3 & Hadv & Hresp); try done.
    destruct (put_sem grace started _ _ _ _ _ _ _ He) as (Hl & Hmm & Hq & _ & Hx).
    split; [done|]. split; [done|]. split; [done|]. intros _. destruct x as [v| | |]; try done.
    split; [by rewrite Hmm|]. split; [done|]. split.
    + intros (r & (b & Hb & Hr3) & Hkk). apply Hno. exists r. split; [|done]. exists b. split; [|done].
      apply (Hq (sp d)); [|done]. intros Ep. by apply (place_inj o o_plain) in Ep.
    + exists bytes. split; [apply Hx|]. unfold of_algo. destruct Hd as (? & -> & _). by rewrite E.
  - intros x w2 HI2 _ Hx. apply wpb_ret; [done|]. destruct x; try done. by intros k [= <-].
Qed.

Lemma wpb_pour_loop t d i cap src : forall h bytes n w,
  valid_digest d -> Inv w -> own_key t w d i -> hashing d bytes h ->
  Wpb t (fun j => j = i) (pour_loop (gp d i) (Some d) src cap (Some h) bytes n) w (poured t d i).
Proof using o_plain.
  induction src as [|[chunk|e] src IH]; intros h bytes n w Hd HI Hk Hh; cbn [pour_loop].
  - by apply wpb_pour_end.
  - cbv zeta. destruct (_ <? _); [by apply wpb_abort|].
    eapply (wpb_then o grace kept started _ _ _ _ _ (fun r w' => forall h', r = Ok h' ->
      exists h'', h' = Some h'' /\ hashing d (bytes +:+ chunk) h'')).
    + eapply wpb_seq_res; [by apply (wpb_hasher_update t _ d bytes)| |by intros].
      intros h' w1 HI1 _ Hh'. apply wpb_ret; [done|]. intros h'' [= <-]. eauto.
    + intros [h'|e] w1 HI1 Hr1 Hh'; [|by apply wpb_abort].
      destruct (Hh' h' eq_refl) as (h'' & -> & Hh'').
      eapply (wpb_then o grace kept started); [apply wpb_call|]. intros [[]|e] w2 HI2 Hr2 _; [|by apply wpb_abort].
      apply IH; [done|done| |done]. apply (own_key_rely t w1); [done|done|]. by apply (own_key_rely t w).
  - by apply wpb_abort.
Qed.

Lemma wpb_finish_blob t digest body max w :
  Inv w -> Wpb t nothing (finish_blob o digest body max) w (fun _ _ => True).
Proof using o_plain.
  intros HI. unfold finish_blob. destruct (Digests.parse digest) as [d|] eqn:Ed; [|by apply wpb_ret].
  apply digest_parse_valid in Ed as Hd. unfold new_generation.
  apply wpb_bind. apply wpb_bind. eapply wpb_mono; [by apply wpb_nonce|].
  intros i w1 HI1 Hb1 (Hok & Hnew & Hm & Hf & Hno). exists nothing. split; [done|]. apply wpb_ret; [done|].
  exists (fun j => j = i). split; [intros j Hj ->; congruence|]. cbn [fst snd].
  assert (Hk : own_key t w1 d i) by (split; [done|]; split; [done|by apply Hno]).
  eapply (wpb_seq _ _ _ _ t _ _ _ w1 (poured t d i)).
  - unfold pour. eapply (wpb_then o grace kept started); [apply wpb_call|]. intros [[]|e] w2 HI2 Hr2 _; [|by apply wpb_ret].
    cbn [mbind option_bind]. unfold hasher_new. destruct (want_len (algo d)) eqn:Ew.
    + apply wpb_pour_loop; [done|done|by apply (own_key_rely t w1)|by split].
    + by destruct Hd as (k & Hk' & _); congruence.
  - intros [n|r] w2 HI2 _ Hp; [|by apply wpb_ret].
    eapply wpb_seq; [apply wpb_install; [done|done|done|by eapply Hp]|].
    intros r w3 HI3 _ _. by apply wpb_ret.
Qed.

(** ** Pushing a manifest *)
Section push.
Variables (t : T) (n : string) (tp s : Z).
Hypothesis Hstart : started t = Some s.
Hypothesis Hs : s <= tp.

(** The pin [p] of this push is on [d] for as long as the push may run. *)
Definition pin_stays (p : string) w d : Prop :=
  minted w !! n = Some t /\ (rnow w <= s + grace -> pinned o w d p).

Lemma pin_stays_but B p w w' d :
  valid_digest d -> kept d -> pub_nonce p = Some n -> (forall c, pin_is_live p c = (c <=? tp)) ->
  ~ B n -> but o grace kept t B w w' -> pin_stays p w d -> pin_stays p w' d.
Proof using Hs.
  intros Hd Hk Hp Hl HB [Hadv Hr] [Hm Hpin]. split; [by apply (adv_minted _ _ _ _ _ Hadv)|].
  intros Hnow. apply (resp_pin _ _ _ _ _ _ (Hr n Hm HB) d p); try done.
  - apply Hpin. pose proof (adv_now _ _ _ _ _ Hadv). lia.
  - rewrite Hl. apply Z.leb_le. lia.
Qed.

Lemma wpb_release_pins B p pinned_ w :
  Inv w -> Forall valid_digest pinned_ -> pub_nonce p = Some n -> minted w !! n = Some t -> B n ->
  Wpb t B (release_pins o pinned_ p) w (fun _ _ => True).
Proof using o_plain.
  intros HI Hds Hp Hm HB. unfold release_pins. destruct pinned_ as [|d0 ds]; [by apply wpb_ret|].
  eapply wpb_seq; [|intros ? ? ? _ _; by apply wpb_ret].
  eapply wpb_mono; [apply (wpb_traverse o grace kept started t B _ (fun w => minted w !! n = Some t) (fun _ _ _ => True)); auto|done].
  - intros w1 w2 [Hadv _] _. by apply (adv_minted _ _ _ _ _ Hadv).
  - intros d w1 Hd HI1 Hm1. rewrite Forall_forall in Hds. apply (wpb_unpin o o_plain grace kept started t B d p n); auto.
Qed.

Lemma wpb_head_manifest B p w (Q : head_res -> world -> Prop) :
  (forall w' x, Inv w' -> match x with HeadOk _ => exists b, had w' p b | _ => True end -> Q x w') ->
  Wpb t B (trigger (ROs _ (OHead p))) w Q.
Proof using o_plain.
  intros HQ. apply wpb_quiet; [done|done|]. intros w1 x w2 _ _ (_ & _ & _ & Ho & _) HI2 _.
  apply HQ; [done|]. apply head_law in Ho as [Hq Hx]. destruct x; try done.
  destruct (view (rstore w1) p) as [[b v]|] eqn:E; [|done]. exists b, v. apply view_seen. by rewrite Hq.
Qed.

Lemma wpb_probe B name pinned_ bd w :
  valid_digest bd -> Inv w ->
  Wpb t B (probe o name pinned_ bd) w
    (fun r w' => r = Ok true -> bd ∈ pinned_ \/ was_manifest o w' name bd).
Proof using o_plain.
  intros Hd HI. unfold probe. destruct (any _ _) eqn:E.
  - apply any_spec in E as (x & Hx & ->%bool_decide_eq_true).
    apply (wpb_mono _ _ _ _ _ _ _ _ (fun _ _ => True)); [|by left].
    apply (wpb_seq_res _ _ _ _ _ _ _ _ _ (fun _ _ => True)); [| |done].
    + unfold resolve. eapply wpb_seq_res; [by apply wpb_load| |done].
      intros l w1 HI1 _ _. by apply wpb_ret.
    + intros [q|] w1 HI1 _ _; [|by apply wpb_ret].
      eapply wpb_seq; [by apply wpb_any|]. intros x' w2 HI2 _ _. by apply wpb_ret.
  - eapply wpb_seq; [by apply (wpb_head_manifest B _ w (fun x w' =>
      match x with HeadOk _ => was_manifest o w' name bd | _ => True end))|].
    intros x w1 HI1 _ Hx. apply wpb_ret; [done|]. destruct x; try done. intros _. by right.
Qed.
End push.

Lemma wpb_publication t s name d w :
  started t = Some s -> Inv w ->
  Wpb t nothing (manifest_publication o name d) w (fun p w' => exists n tp,
    pub_nonce p = Some n /\ (forall c, pin_is_live p c = (c <=? tp)) /\ s <= tp /\
    minted w !! n = None /\ minted w' !! n = Some t).
Proof using o_plain.
  intros Hs HI. unfold manifest_publication.
  eapply (wpb_seq _ _ _ _ t); [by apply wpb_nonce|]. intros n w1 HI1 Hb1 (Hok & Hnew & Hm & _).
  eapply (wpb_seq _ _ _ _ t); [by apply wpb_now|]. intros tp w2 HI2 Hb2 (_ & Hr & _ & Hst).
  apply wpb_ret; [done|]. exists n, tp.
  assert (E : exists x, ("manifest/" +:+ o +:+ "/" +:+ name +:+ "/" +:+ Digests.display d +:+ "#" +:+ n +:+ "@" +:+ display_i tp
    = x +:+ "#" +:+ n +:+ "@" +:+ display_i tp)%string).
  { exists ("manifest/" +:+ o +:+ "/" +:+ name +:+ "/" +:+ Digests.display d)%string. by rewrite !append_assoc. }
  destruct E as [x ->]. split; [by apply publication_nonce|]. split; [intros c; by apply publication_pin_live|].
  split; [by apply Hst|]. split; [done|]. by apply (adv_minted _ _ _ _ _ (proj1 Hb2)).
Qed.

Definition pin_answer (t : T) n s p (bd : Digest) (br : Digest * result bool) w : Prop :=
  br.1 = bd /\ valid_digest bd /\ (br.2 = Ok true -> kept bd -> pin_stays t n s p w bd).

Lemma wpb_pin_all t n tp s p digests w :
  s <= tp -> pub_nonce p = Some n -> (forall c, pin_is_live p c = (c <=? tp)) ->
  minted w !! n = Some t -> Forall valid_digest digests -> Inv w ->
  Wpb t nothing (traverse (fun bd => let! r := pin o bd p in Ret (bd, r)) digests) w
    (fun rs w' => Forall2 (fun bd br => pin_answer t n s p bd br w') digests rs).
Proof using o_plain.
  intros Hs Hp Hl Hm Hds HI.
  apply (wpb_traverse o grace kept started t nothing _ (fun w => minted w !! n = Some t)); try done.
  - intros w1 w2 [Hadv _] _. by apply (adv_minted _ _ _ _ _ Hadv).
  - intros bd br w1 w2 Hb _ (H1 & H2 & H3). split; [done|]. split; [done|]. intros Hr Hk.
    by apply (pin_stays_but t n tp s Hs nothing p w1 w2 bd); auto.
  - intros bd w1 Hbd HI1 Hm1. rewrite Forall_forall in Hds. specialize (Hds bd Hbd).
    eapply wpb_seq; [by apply wpb_pin|]. intros r w2 HI2 Hb2 Hpin. apply wpb_ret; [done|].
    split; [done|]. split; [done|]. intros Hr _. split; [by apply (adv_minted _ _ _ _ _ (proj1 Hb2))|auto].
Qed.

Lemma pin_answers_pinned t n s p digests rs w bd :
  Forall2 (fun bd br => pin_answer t n s p bd br w) digests rs ->
  bd ∈ (List.filter (fun br => ok_true br.2) rs).*1 ->
  valid_digest bd /\ (kept bd -> pin_stays t n s p w bd).
Proof using Type.
  intros Hall ([x r] & -> & Hin%list_elem_of_In)%list_elem_of_fmap. apply filter_In in Hin as [Hin%list_elem_of_In Hr].
  apply list_elem_of_lookup in Hin as [k Hk]. destruct (Forall2_lookup_r _ _ _ _ _ Hall Hk) as (bd & Hbd & H1 & H2 & H3).
  cbn in *. subst x. split; [done|]. apply H3. destruct r as [[]|]; [done|discriminate Hr..].
Qed.

Lemma all_present l : first_err l = None -> any ok_false l = false -> Forall (fun r => r = Ok true) l.
Proof using Type.
  induction l as [|[b|e] l IH]; cbn; [constructor| |done]. intros He Ha. bools.
  constructor; [|by apply IH]. f_equal. by destruct b.
Qed.

Lemma wpb_pin_probe_write t s name d digests body w :
  started t = Some s -> plain_name name -> valid_digest d -> pushed_digests body = Some digests -> Inv w ->
  Wpb t nothing (pin_probe_write o name d digests body) w (fun _ _ => True).
Proof using o_plain.
  intros Hst Hname Hd Hds HI. unfold pin_probe_write.
  assert (Hval : Forall valid_digest digests).
  { apply Forall_forall. intros x Hx. eapply (named_valid body x). by exists digests. }
  apply wpb_bind. eapply wpb_mono; [by apply (wpb_publication t s)|].
  intros p w1 HI1 _ (n & tp & Hp & Hl & Hs & Hnew & Hm). exists (fun j => j = n).
  split; [intros i Hi ->; congruence|].
  eapply (wpb_then o grace kept started); [by apply (wpb_pin_all t n tp s p)|]. intros rs w2 HI2 Hr2 Hrs.
  set (pinned_ := (List.filter (fun br => ok_true br.2) rs).*1).
  pose proof (fun bd => pin_answers_pinned t n s p digests rs w2 bd Hrs) as Hpinned. fold pinned_ in Hpinned.
  assert (Hpv : Forall valid_digest pinned_) by (apply Forall_forall; intros x Hx; by apply Hpinned).
  apply (adv_minted _ _ _ _ _ (proj1 Hr2)) in Hm. clear Hrs HI1 Hr2.
  assert (Hrel : forall w' (x : unit + PinFailure), Inv w' -> Advance w2 w' ->
    Wpb t (fun j => j = n) (release_pins o pinned_ p ;;! Ret x) w' (fun _ _ => True)).
  { intros w' x HI' Hadv. eapply wpb_seq; [|intros ? ? ? _ _; by apply wpb_ret].
    apply (wpb_release_pins t n); try done. by apply (adv_minted _ _ _ _ _ Hadv). }
  destruct (first_err rs.*2); [apply Hrel; [done|reflexivity]|].
  eapply (wpb_then o grace kept started).
  { apply (wpb_traverse o grace kept started t nothing _ (fun _ => True)
      (fun bd r w' => r = Ok true -> bd ∈ pinned_ \/ was_manifest o w' name bd)); try done.
    - intros bd r w3 w4 [Hadv _] _ Hr E. destruct (Hr E) as [?|[b Hb]]; [by left|right]. exists b. by eapply adv_had.
    - intros bd w3 Hbd HI3 _. apply wpb_probe; [|done]. rewrite Forall_forall in Hval. by apply Hval. }
  intros present w3 HI3 Hr3 Hpres.
  destruct (first_err present) eqn:Efe; [apply Hrel; [done|apply Hr3]|].
  destruct (any ok_false present) eqn:Eany; [apply Hrel; [done|apply Hr3]|].
  pose proof (all_present present Efe Eany) as Hall.
  eapply (wpb_then o grace kept started _ _ _ _ _ (fun _ _ => True)).
  - apply (wpb_effect o grace kept started _ _ t nothing); [done|]. intros w4 x w5 Hr4 HI4 He.
    assert (Hnow : rnow w4 <= s + grace).
    { destruct He as (Hn & _ & Hb & _). specialize (Hb s Hst). lia. }
    assert (Hr24 : Rely t w2 w4) by (etrans; [exact Hr3|exact Hr4]).
    destruct (manifest_put o o_plain grace kept started t name d body PutOverwrite x w4 w5) as (? & ? & ?); auto.
    intros bd Hk (ds & Hds' & Hbd). rewrite Hds in Hds'. injection Hds' as <-.
    apply list_elem_of_lookup in Hbd as [k Hbd].
    destruct (Forall2_lookup_l _ _ _ _ _ Hpres Hbd) as (r & Hr & Hq).
    rewrite Forall_lookup in Hall. specialize (Hall k r Hr).
    destruct (Hq Hall) as [Hpin|[b Hb]].
    + left. exists p. destruct (Hpinned bd Hpin) as [Hbv Hst4]. specialize (Hst4 Hk).
      apply (pin_stays_but t n tp s Hs nothing p w2 w4) in Hst4; auto; [|by apply rely_but].
      split; [by apply Hst4|]. rewrite Hl. apply Z.leb_le. lia.
    + right. exists b. eapply adv_had; [apply Hr4|done].
  - intros x w4 HI4 Hr4 _.
    assert (Advance w2 w4) by (etrans; [apply Hr3|apply Hr4]). destruct x; by apply Hrel.
Qed.

Lemma wpb_head_ok t B p w : Inv w -> Wpb t B (head_ok p) w (fun _ _ => True).
Proof using o_plain.
  intros HI. unfold head_ok. eapply wpb_seq; [by apply wpb_any|]. intros x w1 HI1 _ _. by apply wpb_ret.
Qed.

Lemma wpb_manifest_digest t B name r body w :
  Inv w -> Wpb t B (manifest_digest o name r body) w (fun d _ => forall d', d = Some d' -> valid_digest d').
Proof using o_plain.
  intros HI. unfold manifest_digest. destruct r as [asked|tag].
  - apply wpb_ret; [done|]. intros d'. destruct (of_algo (algo asked) body) as [x|] eqn:E; [|done].
    destruct (bool_decide _); [|done]. intros [= <-]. by eapply of_algo_valid.
  - eapply wpb_seq; [by apply wpb_head_ok|]. intros [] w1 HI1 _ _.
    { apply wpb_ret; [done|]. intros d' [= <-]. apply of_bytes_valid. }
    eapply (wpb_seq _ _ _ _ t _ _ _ w1 (fun _ _ => True)).
    { unfold has_sha512_manifest. eapply wpb_seq; [by apply wpb_any|]. intros x w2 HI2 _ _. by apply wpb_ret. }
    intros [] w2 HI2 _ _; [|apply wpb_ret; [done|]; intros d' [= <-]; apply of_bytes_valid].
    destruct (of_algo "sha512" body) as [x|] eqn:E;
      [|apply wpb_ret; [done|]; intros d' [= <-]; apply of_bytes_valid].
    eapply wpb_seq; [by apply wpb_head_ok|]. intros b w3 HI3 _ _. apply wpb_ret; [done|].
    intros d' [= <-]. destruct b; [by eapply of_algo_valid|apply of_bytes_valid].
Qed.

Lemma wpb_put_manifest t s name ref query body w :
  started t = Some s -> plain_name name -> Inv w ->
  Wpb t nothing (put_manifest o name ref query body) w (fun _ _ => True).
Proof using o_plain.
  intros Hst Hn HI. unfold put_manifest.
  destruct (read_manifest body) as [b|]; [|by apply wpb_ret].
  destruct (from_slice b) as [v|] eqn:Ev; [|by apply wpb_ret].
  destruct (is_object v) eqn:Eo; [|by apply wpb_ret]. cbn [negb].
  destruct (reference ref) as [r|]; [|by apply wpb_ret].
  eapply wpb_seq; [by apply wpb_manifest_digest|]. intros [d|] w1 HI1 _ Hd; [|by apply wpb_ret].
  destruct (declared_digests_parse (prune_external v)) eqn:Ed; [|by apply wpb_ret]. cbn [negb].
  destruct (push_tags r query) as [tags|]; [|by apply wpb_ret].
  eapply wpb_seq; [apply (wpb_pin_probe_write t s); auto|].
  - unfold pushed_digests. rewrite Ev. cbn. by rewrite Eo, Ed.
  - intros x w2 HI2 _ _. by apply wpb_ret.
Qed.

(** ** The sweep *)
Section sweep.
Variables (t : T) (cutoff : Z).

(** A candidate: a digest with the bytes its record had when it was read. *)
Definition known_record (d : Digest) (b0 : string) (r0 : BlobRecord) (v : V) w : Prop :=
  valid_digest d /\ seen (rstore w) (sp d) v b0 /\ record_from_slice b0 = Some r0.

Lemma known_record_advance d b0 r0 v w w' : Advance w w' -> known_record d b0 r0 v w -> known_record d b0 r0 v w'.
Proof using Type. intros Hadv (? & Hs & ?). split; [done|]. split; [|done]. by apply (adv_seen _ _ _ _ _ Hadv). Qed.

(** What the path [q] holds gives no reason to keep the blob [d], whose record was [b0], except those
    the sweep looks at: it is kept, the record changed, a live pin, or it went as a manifest. *)
Definition accounted (keep : gset string) d b0 r0 (q : path) w : Prop :=
  forall name dm b, plain_name name -> valid_digest dm -> q = mp name dm ->
    content w q = Some b -> named_by b d ->
    Digests.display d ∈ keep \/ content w (sp d) <> Some b0 \/
    (exists a, active r0 = Some a /\ has_live_pin a cutoff = true) \/ was_manifest o w name d.

Lemma changed_stays_from d b0 w w' :
  valid_digest d -> had w (sp d) b0 -> Advance w w' -> content w (sp d) <> Some b0 -> content w' (sp d) <> Some b0.
Proof using Type.
  intros Hd Hb Hadv Hne Heq. destruct (decide (content w (sp d) = content w' (sp d))) as [E|E]; [congruence|].
  by apply (adv_fresh _ _ _ _ _ Hadv d b0).
Qed.

Lemma accounted_advance keep d b0 r0 v q w w' :
  kept d -> cutoff <= rnow w - grace -> known_record d b0 r0 v w -> Advance w w' ->
  accounted keep d b0 r0 q w -> accounted keep d b0 r0 q w'.
Proof using Type.
  intros Hk Hcut (Hd & Hs & Hr0) Hadv Hacc name dm b Hn Hdm -> Hc Hnb.
  assert (Hb0 : had w (sp d) b0) by (by exists v).
  destruct (decide (content w (sp d) = Some b0)) as [E|E];
    [|right; left; by eapply changed_stays_from].
  destruct (adv_named _ _ _ _ _ Hadv name dm b d Hn Hdm Hk Hc Hnb) as [Hc0|[Hch|[(p & Hp & Hl)|Hm]]].
  - destruct (Hacc name dm b Hn Hdm eq_refl Hc0 Hnb) as [?|[?|[?|[c Hcc]]]]; [by left|done|by right; right; left|].
    right; right; right. exists c. by eapply adv_had.
  - right; left. congruence.
  - right; right; left. destruct Hp as (r & a & Hr & Ha & Hpa). unfold cur in Hr. rewrite E in Hr. cbn in Hr.
    rewrite Hr0 in Hr. injection Hr as <-. exists a. split; [done|]. apply any_spec. exists p. split; [done|].
    by eapply pin_is_live_mono.
  - by right; right; right.
Qed.

Lemma accounted_mono keep keep' d b0 r0 q w :
  keep ⊆ keep' -> accounted keep d b0 r0 q w -> accounted keep' d b0 r0 q w.
Proof using Type.
  intros Hsub Hacc name dm b Hn Hdm Hq Hc Hnb. destruct (Hacc name dm b Hn Hdm Hq Hc Hnb) as [Hin|?]; [left; by apply Hsub|by right].
Qed.

(** Once every path is accounted for, a blob that is not kept, unchanged and without a live pin is
    named by nothing. *)
Lemma accounted_unnamed keep d b0 r0 a w :
  (forall q, accounted keep d b0 r0 q w) -> Digests.display d ∉ keep -> content w (sp d) = Some b0 ->
  active r0 = Some a -> has_live_pin a cutoff = false -> unnamed o w d.
Proof using Type.
  intros Hacc Hkeep Hb0 Ha Hl name dm b Hn Hdm Hc Hnb.
  destruct (Hacc (mp name dm) name dm b Hn Hdm eq_refl Hc Hnb) as [?|[?|[(a' & Ha' & Hl')|?]]]; [done|done| |done].
  congruence.
Qed.

(** Everything the sweep knows about its candidates while the manifests at [ps] are unread. *)
Definition accounted_for keep (ps : list path) (cs : list (Digest * BlobRecord * V)) w : Prop :=
  Forall (fun c => exists b0, known_record c.1.1 b0 c.1.2 c.2 w /\
    (kept c.1.1 -> forall q, q ∉ ps -> accounted keep c.1.1 b0 c.1.2 q w)) cs.

Definition candidates_known (cs : list (Digest * BlobRecord * V)) w : Prop :=
  Forall (fun c => exists b0, known_record c.1.1 b0 c.1.2 c.2 w) cs.

Lemma candidates_known_advance cs w w' : Advance w w' -> candidates_known cs w -> candidates_known cs w'.
Proof using Type.
  intros Hadv Hcs. eapply Forall_impl; [exact Hcs|]. intros c (b0 & Hb). exists b0. by eapply known_record_advance.
Qed.

Lemma accounted_for_advance keep ps cs w w' :
  cutoff <= rnow w - grace -> Advance w w' -> accounted_for keep ps cs w -> accounted_for keep ps cs w'.
Proof using Type.
  intros Hcut Hadv Hcs. eapply Forall_impl; [exact Hcs|]. intros c (b0 & Hb & Hq). exists b0.
  split; [by eapply known_record_advance|]. intros Hk q Hqp. eapply accounted_advance; eauto.
Qed.

Lemma wpb_get_bytes B p w :
  Wpb t B (get_bytes p) w (fun r w' => forall b, r = Ok b -> content w' p = Some b).
Proof using o_plain.
  unfold get_bytes. eapply wpb_seq.
  - apply (wpb_quiet o o_plain grace kept started _ _ t B w (fun x w' => forall b v, x = GetOk b v -> content w' p = Some b)); [done|].
    intros w1 x w2 _ _ (_ & _ & _ & Ho & _) _ _ b v ->. apply get_law in Ho as [Hq Hx].
    unfold content. by rewrite Hq, Hx.
  - intros x w1 HI1 _ Hx. apply wpb_ret; [done|]. intros b. destruct x as [b' v| |]; [|done..].
    intros [= <-]. by eapply Hx.
Qed.

Lemma wpb_read_references B cs paths : forall out w,
  Inv w -> cutoff <= rnow w - grace -> accounted_for out paths cs w ->
  Wpb t B (read_references paths out) w (fun r w' => forall keep, r = Ok keep -> accounted_for keep [] cs w').
Proof using o_plain.
  induction paths as [|p paths IH]; intros out w HI Hcut Hacc; cbn [read_references].
  { apply wpb_ret; [done|]. by intros keep [= <-]. }
  eapply wpb_seq_res; [by apply wpb_get_bytes| |done]. intros bytes w1 HI1 [Hadv _] Hb.
  specialize (Hb bytes eq_refl). destruct (from_slice bytes) as [v|] eqn:Ev; [|by apply wpb_ret].
  set (out1 := match digest_from_path p with Some s => _ | None => out end).
  pose proof (adv_now _ _ _ _ _ Hadv) as Hnow.
  apply IH; [done|lia|]. apply (accounted_for_advance _ _ _ _ w1) in Hacc; [|done..].
  eapply Forall_impl; [exact Hacc|]. intros c (b0 & Hk & Hq). exists b0. split; [done|].
  intros Hkept q Hqp. destruct (decide (q = p)) as [->|Hne].
  - intros name dm b Hn Hdm _ Hc Hnb. left. rewrite Hb in Hc. injection Hc as <-.
    destruct Hnb as (ds & Hds & Hd). apply collect_names.
    destruct (pushed_digests_kept bytes v ds c.1.1 Ev Hds Hd) as [Hin _].
    apply collect_names in Hin as [Hin|Hin]; [by apply elem_of_empty in Hin|by right].
  - apply (accounted_mono out); [|apply Hq; [done|intros [?|?]%elem_of_cons; done]].
    intros s Hs. apply collect_names. left. unfold out1.
    destruct (digest_from_path p); [apply elem_of_union; by right|done].
Qed.

Lemma manifest_under name dm :
  plain_name name -> valid_digest dm -> under (path_from ("manifests/" +:+ o)) (mp name dm) = true.
Proof using o_plain.
  intros Hn Hdm. rewrite (place_path_eq o o_plain (PManifest name dm)) by done.
  change (path_from ("manifests/" +:+ o)) with (path_from (join_path ["manifests"; o])).
  rewrite path_from_join; [|done|repeat apply Forall_cons_2; done].
  unfold under, starts_with. cbn [join_path place_segments].
  replace ("manifests" +:+ "/" +:+ o +:+ "/" +:+ name +:+ "/" +:+ algo dm +:+ "/" +:+ hex dm)%string
    with ((("manifests" +:+ "/" +:+ o) +:+ "/") +:+ (name +:+ "/" +:+ algo dm +:+ "/" +:+ hex dm))%string
    by (by rewrite !append_assoc).
  by rewrite strip_prefix_app.
Qed.

Lemma wpb_referenced B cs w :
  Inv w -> cutoff <= rnow w - grace -> candidates_known cs w ->
  Wpb t B (referenced o) w (fun r w' => forall keep, r = Ok keep -> accounted_for keep [] cs w').
Proof using o_plain.
  intros HI Hcut Hcs. unfold referenced.
  eapply wpb_seq_res; [| |done].
  - apply (wpb_quiet o o_plain grace kept started _ _ t B w (fun x w' => forall l, x = Ok l ->
      forall name dm, plain_name name -> valid_digest dm -> mp name dm ∉ l -> content w' (mp name dm) = None)); [done|].
    intros w1 x w2 _ _ (_ & _ & _ & Ho & _) _ _ l -> name dm Hn Hdm Hl. apply list_law in Ho as [Hq Hx].
    unfold content. rewrite Hq. destruct (view (rstore w1) (mp name dm)) eqn:E; [|done].
    exfalso. apply Hl, Hx. split; [by apply manifest_under|]. by rewrite E.
  - intros l w1 HI1 [Hadv _] Hl. pose proof (adv_now _ _ _ _ _ Hadv) as Hnow.
    apply wpb_read_references; [done|lia|].
    eapply Forall_impl; [exact Hcs|]. intros c (b0 & Hk). exists b0. split; [by eapply known_record_advance|].
    intros _ q Hq name dm b Hn Hdm -> Hc _. by rewrite (Hl l eq_refl) in Hc.
Qed.

Lemma state_digest_place d location :
  state_digest o location = Some d -> valid_digest d /\ location = sp d.
Proof using o_plain.
  unfold state_digest. destruct (strip_prefix _ location) as [rest|] eqn:Er; [|done]. cbn [mbind option_bind].
  apply strip_prefix_some in Er as ->.
  destruct (split "/" rest) as [|a [|h [|]]] eqn:Es; try done. intros Hp.
  pose proof (digest_parse_valid _ _ Hp) as Hd. apply digest_parse_halves in Hp as [-> ->].
  split; [done|]. rewrite (place_path_eq o o_plain (PState d)) by done.
  rewrite <- (join_split rest), Es. cbn [join_path place_segments]. cbn. by rewrite append_assoc.
Qed.

Lemma wpb_read_candidates B listing : forall out w,
  Inv w -> candidates_known out w ->
  Wpb t B (read_candidates o listing out) w (fun r w' => forall cs, r = Ok cs -> candidates_known cs w').
Proof using o_plain.
  induction listing as [|q listing IH]; intros out w HI Hout; cbn [read_candidates].
  { apply wpb_ret; [done|]. by intros cs [= <-]. }
  destruct (state_digest o q) as [d|] eqn:Ed; [|by apply IH].
  apply state_digest_place in Ed as [Hd ->].
  eapply wpb_seq_res; [by apply wpb_read| |done]. intros [l|] w1 HI1 [Hadv _] Hl;
    (apply (candidates_known_advance _ w w1) in Hout; [|done]); [|by apply IH].
  apply IH; [done|]. apply Forall_app_2; [done|]. apply Forall_cons_2; [|done].
  destruct Hl as [(b & Hs & Hr) _]. by exists b.
Qed.

Lemma wpb_candidates B w :
  Inv w -> Wpb t B (candidates o) w (fun r w' => forall cs, r = Ok cs -> candidates_known cs w').
Proof using o_plain.
  intros HI. unfold candidates. eapply wpb_seq_res; [by apply wpb_any| |done].
  intros l w1 HI1 _ _. apply wpb_read_candidates; [done|constructor].
Qed.

Lemma wpb_adopt_legacy B listing : forall known adopted w,
  Inv w -> Wpb t B (adopt_legacy o listing known adopted) w (fun _ _ => True).
Proof using o_plain.
  induction listing as [|q listing IH]; intros known adopted w HI; cbn [adopt_legacy]; [by apply wpb_ret|].
  destruct (s ← digest_from_path q; Digests.parse s) as [d|] eqn:Ed; [|by apply IH].
  assert (Hd : valid_digest d).
  { destruct (digest_from_path q) as [s|]; [|done]. cbn in Ed. by eapply digest_parse_valid. }
  destruct (bool_decide _); [by apply IH|].
  apply (wpb_seq_res _ _ _ _ _ _ _ _ _ (fun _ _ => True)); [| |done].
  - unfold resolve. eapply wpb_seq_res; [by apply wpb_load| |done]. intros l w1 HI1 _ _. by apply wpb_ret.
  - intros _ w1 HI1 _ _. by apply IH.
Qed.

Lemma wpb_installed_before B a c w :
  Inv w -> Wpb t B (installed_before representable a c) w (fun _ _ => True).
Proof using o_plain.
  intros HI. unfold installed_before. destruct (_ <? _); [by apply wpb_ret|].
  eapply wpb_seq; [by apply wpb_any|]. intros x w1 HI1 _ _. by apply wpb_ret.
Qed.

Lemma wpb_find_old B c cs : forall old w, Inv w -> Wpb t B (find_old representable c cs old) w (fun _ _ => True).
Proof using o_plain.
  induction cs as [|[[d r] v] cs IH]; intros old w HI; cbn [find_old]; [by apply wpb_ret|].
  destruct (active r) as [a|]; [|by apply IH]. destruct (has_live_pin _ _); [by apply IH|].
  eapply wpb_seq_res; [by apply wpb_installed_before| |done]. intros x w1 HI1 _ _. by apply IH.
Qed.

Lemma wpb_for_each {A} B (f : A -> P (result unit)) (K : world -> Prop) l : forall w,
  (forall w w', Advance w w' -> K w -> K w') ->
  (forall a w, a ∈ l -> Inv w -> K w -> Wpb t B (f a) w (fun _ _ => True)) ->
  Inv w -> K w -> Wpb t B (for_each f l) w (fun _ _ => True).
Proof using Type.
  induction l as [|a l IH]; intros w HK Hf HI Hw; cbn [for_each]; [by apply wpb_ret|].
  eapply wpb_seq_res; [apply Hf; [by left|done..]| |done]. intros _ w1 HI1 [Hadv _] _.
  apply IH; [done| |done|by eapply HK]. intros a' w' Ha'. apply Hf. by right.
Qed.

Lemma known_dead d b0 r0 v w k :
  known_record d b0 r0 v w -> k ∈ retired_keys r0 -> dead o w d k.
Proof using Type. intros (_ & Hs & Hr) Hk. exists r0. split; [|done]. exists b0. split; [by exists v|done]. Qed.

Lemma wpb_sweep_all_retired B c b0 now w :
  Inv w -> known_record c.1.1 b0 c.1.2 c.2 w ->
  Wpb t B (sweep_all_retired o cutoff now c) w (fun _ _ => True).
Proof using o_plain.
  intros HI Hk. unfold sweep_all_retired.
  apply (wpb_for_each B _ (known_record c.1.1 b0 c.1.2 c.2)); [| |done|done].
  - intros w1 w2 Hadv. by apply known_record_advance.
  - intros r w1 Hr HI1 Hk1. pose proof Hk1 as (Hd & _ & _). unfold sweep_retired.
    destruct (_ <? _); [|by apply wpb_stamp_retired]. destruct (_ <=? _); [|by apply wpb_ret].
    apply wpb_delete_retired; [done..|]. eapply known_dead; [done|]. apply list_elem_of_fmap. eauto.
Qed.

Lemma wpb_sweep_candidates B keep old now cs : forall n w,
  Inv w -> cutoff <= rnow w - grace -> accounted_for keep [] cs w ->
  Wpb t B (sweep_candidates representable o cutoff now keep old cs n) w (fun _ _ => True).
Proof using o_plain.
  induction cs as [|[[d r0] v] cs IH]; intros n w HI Hcut Hacc; cbn [sweep_candidates]; [by apply wpb_ret|].
  apply Forall_cons in Hacc as [Hc Hacc].
  pose proof (Hc) as (b0 & Hknown & _). cbn [fst snd] in *.
  eapply wpb_seq_res; [by apply (wpb_sweep_all_retired B (d, r0, v) b0)| |done]. intros _ w1 HI1 [Hadv1 _] _.
  pose proof (adv_now _ _ _ _ _ Hadv1) as Hnow1.
  assert (Hnext : forall w' m, Inv w' -> Advance w1 w' ->
    Wpb t B (sweep_candidates representable o cutoff now keep old cs m) w' (fun _ _ => True)).
  { intros w' m HI' Hadv'. pose proof (adv_now _ _ _ _ _ Hadv'). apply IH; [done|lia|].
    apply (accounted_for_advance _ _ _ w); [done| |done]. by etrans. }
  destruct (_ || _) eqn:Eskip; [apply Hnext; [done|reflexivity]|].
  apply orb_false_iff in Eskip as [Hkeep%bool_decide_eq_false _].
  destruct (negb _); [apply Hnext; [done|reflexivity]|].
  destruct (active r0) as [a|] eqn:Ea; [|apply Hnext; [done|reflexivity]].
  eapply wpb_seq_res; [by apply wpb_installed_before| |done]. intros before w2 HI2 [Hadv2 _] _.
  pose proof (adv_now _ _ _ _ _ Hadv2) as Hnow2.
  destruct (negb _); [by apply Hnext|].
  assert (Hc2 : Advance w w2) by (by etrans).
  destruct Hc as (b1 & Hk1 & Hacc1). apply (known_record_advance _ _ _ _ w w2) in Hk1 as Hk2; [|done].
  pose proof Hk2 as (Hd & Hs2 & Hr2).
  eapply wpb_seq_res; [apply (wpb_retire_if_unpinned o o_plain grace kept started t B d r0 b1 v cutoff w2); try done; [lia|]| |done].
  - intros w3 a' Hr3 HI3 Hcont Ha' Hlive Hkept.
    apply (accounted_unnamed keep d b1 r0 a'); try done. intros q.
    apply (accounted_advance keep d b1 r0 v q w w3); [done|done|done| |].
    + etrans; [exact Hc2|apply Hr3].
    + apply Hacc1; [done|]. apply not_elem_of_nil.
  - intros [k|] w3 HI3 [Hadv3 _] Hdead; [|apply Hnext; [done|by etrans]].
    eapply wpb_seq_res; [apply wpb_delete_retired; [done|done|done|by apply Hdead]| |done].
    intros _ w4 HI4 [Hadv4 _] _. apply Hnext; [done|]. etrans; [exact Hadv2|]. by etrans.
Qed.
End sweep.

Lemma wpb_sweep_owner t B w :
  Inv w -> Wpb t B (sweep_owner representable o grace) w (fun _ _ => True).
Proof using o_plain.
  intros HI. unfold sweep_owner.
  eapply (wpb_seq _ _ _ _ t); [by apply wpb_now|]. intros t0 w1 HI1 _ (-> & _ & _).
  eapply (wpb_seq _ _ _ _ t); [by apply wpb_now|]. intros now w2 HI2 [Hadv2 _] _.
  pose proof (adv_now _ _ _ _ _ Hadv2) as Hnow2. set (cutoff := rnow w1 - grace).
  eapply wpb_seq_res; [by apply wpb_candidates| |done]. intros first w3 HI3 [Hadv3 _] Hfirst.
  specialize (Hfirst first eq_refl). pose proof (adv_now _ _ _ _ _ Hadv3) as Hnow3.
  eapply wpb_seq_res; [by apply wpb_any| |done]. intros legacy w4 HI4 [Hadv4 _] _.
  pose proof (adv_now _ _ _ _ _ Hadv4) as Hnow4.
  eapply wpb_seq_res; [by apply wpb_adopt_legacy| |done]. intros adopted w5 HI5 [Hadv5 _] _.
  pose proof (adv_now _ _ _ _ _ Hadv5) as Hnow5.
  apply (wpb_seq_res _ _ _ _ _ _ _ _ _ (fun r w' => forall cs, r = Ok cs -> candidates_known cs w')); [| |done].
  { destruct adopted; [by apply wpb_candidates|]. apply wpb_ret; [done|]. intros cs [= <-].
    apply (candidates_known_advance _ w3); [|done]. by etrans. }
  intros cs w6 HI6 [Hadv6 _] Hcs. specialize (Hcs cs eq_refl). pose proof (adv_now _ _ _ _ _ Hadv6) as Hnow6.
  eapply wpb_seq_res; [by apply wpb_find_old| |done]. intros old w7 HI7 [Hadv7 _] _.
  pose proof (adv_now _ _ _ _ _ Hadv7) as Hnow7. apply (candidates_known_advance _ w6 w7) in Hcs; [|done].
  destruct (bool_decide _).
  - eapply wpb_seq_res; [| |done]; [|intros _ w8 HI8 _ _; by apply wpb_ret].
    apply (wpb_for_each t B _ (candidates_known cs)); [|intros c w8 Hc HI8 Hk8|done|done].
    + intros w8 w9 Hadv. by apply candidates_known_advance.
    + unfold candidates_known in Hk8. rewrite Forall_forall in Hk8. destruct (Hk8 c Hc) as (b0 & Hb).
      by apply (wpb_sweep_all_retired t cutoff B c b0).
  - eapply wpb_seq_res; [apply (wpb_referenced t cutoff B cs); [done|unfold cutoff; lia|done]| |done].
    intros keep w8 HI8 [Hadv8 _] Hacc. pose proof (adv_now _ _ _ _ _ Hadv8) as Hnow8.
    apply wpb_sweep_candidates; [done|unfold cutoff; lia|by apply Hacc].
Qed.

(** ** Every task of the registry *)
Definition done {A} (p : P A) : P unit := p ;;! Ret tt.

(** What a node, a worker or a client's request starts.  A client may delete a blob only if it is not
    one of the [kept], and a manifest push ends within the sweep's window. *)
Inductive registry_task (t : T) : P unit -> Prop :=
| TaskPushBlob digest body max_layer :
    registry_task t (done (finish_blob o digest body max_layer))
| TaskPull d : valid_digest d -> registry_task t (done (resolve o d))
| TaskExists d : valid_digest d -> registry_task t (done (exists_ o d))
| TaskPushManifest s name ref query body :
    started t = Some s -> plain_name name ->
    registry_task t (done (put_manifest o name ref query body))
| TaskDeleteBlob d : valid_digest d -> ~ kept d -> registry_task t (done (delete_active o d))
| TaskDeleteManifest name dm : plain_name name -> valid_digest dm ->
    registry_task t (done (trigger (ROs _ (ODelete (manifest_path o name dm)))))
| TaskSweep : registry_task t (done (sweep_owner representable o grace)).

Lemma wpb_done {A} t (p : P A) w Q : Wpb t nothing p w Q -> wp Sem Inv Rely t (done p) w (fun _ _ => True).
Proof using Type. intros H. apply wp_bind. by eapply wp_mono; [exact H|]. Qed.

Lemma wpb_resolve t B d w : valid_digest d -> Wpb t B (resolve o d) w (fun _ _ => True).
Proof using o_plain.
  intros Hd. unfold resolve. eapply wpb_seq_res; [by apply wpb_load| |auto]. intros l w1 HI1 _ _. by apply wpb_ret.
Qed.

Lemma registry_task_safe t p w : registry_task t p -> Inv w -> wp Sem Inv Rely t p w (fun _ _ => True).
Proof using o_plain.
  intros Ht HI. destruct Ht as [digest body max_layer|d Hd|d Hd|s name ref query body Hs Hn|d Hd Hk|name dm Hn Hdm|].
  - eapply wpb_done. by apply wpb_finish_blob.
  - eapply wpb_done. by apply wpb_resolve.
  - eapply (wpb_done _ _ _ (fun _ _ => True)). unfold exists_. eapply wpb_seq_res; [by apply wpb_resolve| |done].
    intros [q|] w1 HI1 _ _; [|by apply wpb_ret]. eapply wpb_seq; [by apply wpb_any|].
    intros x w2 HI2 _ _. by apply wpb_ret.
  - eapply wpb_done. by eapply wpb_put_manifest.
  - eapply (wpb_done _ _ _ (fun _ _ => True)). unfold delete_active.
    eapply wpb_seq_res; [by apply wpb_retire| |done]. intros [k|] w1 HI1 _ Hdead; [|by apply wpb_ret].
    eapply wpb_seq_res; [apply wpb_delete_retired; [done|done|done|by apply Hdead]| |done].
    intros _ w2 HI2 _ _. by apply wpb_ret.
  - eapply (wpb_done _ _ _ (fun _ _ => True)).
    apply (wpb_effect o grace kept started _ _ t nothing); [done|]. intros w1 x w2 _ HI1 He.
    destruct (manifest_delete o o_plain grace kept started t name dm x w1 w2) as (? & ? & ?); auto.
  - eapply wpb_done. by apply wpb_sweep_owner.
Qed.

(** States any interleaving of registry tasks reaches. *)
Definition registry_reaches w w' : Prop :=
  exists l, rtc (pstep Sem registry_task) (w, []) (w', l).

Lemma registry_invariant w w' : Inv w -> registry_reaches w w' -> Inv w'.
Proof using o_plain.
  intros HI [l Hl]. eapply (reach_invariant Sem registry_task Inv Rely registry_task_safe); [exact HI|exact Hl].
Qed.

(** C11: Whatever pushes, deletions and sweeps run at once, the generation a blob's record calls
    active has its bytes in the store, and they hash to the blob's digest: a pull that resolves is
    served what the digest promises. *)
Theorem active_bytes_right w w' d r a :
  Inv w -> registry_reaches w w' ->
  valid_digest d -> cur o w' d = Some r -> active r = Some a ->
  exists b, content w' (physical_key a) = Some b /\ of_algo (algo d) b = Some d.
Proof using o_plain.
  intros HI Hr Hd Hcur Ha. apply registry_invariant in Hr; [|done].
  by destruct (inv_active _ _ _ Hr d r a Hd Hcur Ha).
Qed.

(** C12: A blob that a stored manifest names, and that no client deletes ([kept]), keeps an active
    generation with its bytes, however sweeps interleave with pushes and deletions, as long as every
    push of a manifest ends within the sweep's window; a digest that the push found as a manifest
    counts as one.  So it is between the push's look at the blob and its write of the manifest, where
    the comment in [put_manifest] says a sweep can still delete it: the blob is pinned by then. *)
Theorem named_blob_held w w' name dm b d :
  Inv w -> registry_reaches w w' ->
  plain_name name -> valid_digest dm -> content w' (manifest_path o name dm) = Some b ->
  named_by b d -> kept d ->
  (exists r a bytes, cur o w' d = Some r /\ active r = Some a /\
     content w' (physical_key a) = Some bytes /\ of_algo (algo d) bytes = Some d) \/
  was_manifest o w' name d.
Proof using o_plain.
  intros HI Hr Hn Hdm Hb Hnb Hk. apply registry_invariant in Hr; [|done].
  destruct (inv_named _ _ _ Hr name dm b d Hn Hdm Hk Hb Hnb) as [(r & a & Hcur & Ha)|?]; [left|by right].
  destruct (inv_active _ _ _ Hr d r a) as [_ (bytes & ? & ?)]; [by eapply named_valid|done|done|].
  by exists r, a, bytes.
Qed.
End safe.
