(* ===== verification/RegistryLocal.v ===== *)
(** * RegistryLocal: the registry on a store in memory

    Concrete parameters for the registry's model: [MemStore], paths that keep their non-empty
    segments, a printer and a parser of records, a hash of the right shape.  [local] runs one task
    on the shared state of [BlobWorld] and is one of the behaviours its semantics allows
    ([local_runs]); [calm] runs a program with nobody else about and no failure, for statements
    about what an operation does on its own. *)

From S2P Require Import Prelude Text Names Prog ObjStore Oci BlobState BlobWorld.
Local Open Scope string_scope.
Local Open Scope Z_scope.

(** ** Paths *)
Definition kept_segments (s : string) : list string :=
  List.filter (fun x => negb (String.eqb x "")) (split "/" s).

Lemma kept_segments_plain s : plain s = true -> kept_segments s = split "/" s.
Proof.
  unfold plain, kept_segments. generalize (split "/" s). intros l. induction l as [|x l IH]; [done|].
  cbn. intros [Hx Hl]%andb_true_iff. rewrite IH by done.
  unfold plain_segment in Hx. by destruct (String.eqb x "").
Qed.

Lemma split_slash_end s : split "/" (s +:+ "/") = (split "/" s ++ [""])%list.
Proof.
  induction s as [|c s IH]; [done|]. cbn [append split]. destruct (Ascii.eqb c "/").
  - by rewrite IH.
  - rewrite IH. destruct (split "/" s) eqn:E; [by apply split_not_nil in E|done].
Qed.

Definition local_path (s : string) : path := join_path (kept_segments s).

#[global] Program Instance local_paths : PathFrom := {| path_from := local_path |}.
Next Obligation. intros s Hs. unfold local_path. rewrite kept_segments_plain by done. apply join_split. Qed.
Next Obligation.
  intros s Hs. unfold local_path, kept_segments. rewrite split_slash_end, List.filter_app. cbn.
  rewrite app_nil_r. fold (kept_segments s). rewrite kept_segments_plain by done. apply join_split.
Qed.

(** ** Records *)
#[global] Program Instance generation_countable : Countable BlobGeneration :=
  inj_countable' (fun g => (physical_key g, pins g, installed_at g))
    (fun x => mkGeneration x.1.1 x.1.2 x.2) _.
Next Obligation. by intros []. Qed.
#[global] Program Instance retired_countable : Countable RetiredGeneration :=
  inj_countable' (fun g => (r_physical_key g, retired_at g)) (fun x => mkRetired x.1 x.2) _.
Next Obligation. by intros []. Qed.
#[global] Program Instance record_countable : Countable BlobRecord :=
  inj_countable' (fun g => (nonce g, active g, retired g)) (fun x => mkRecord x.1.1 x.1.2 x.2) _.
Next Obligation. by intros []. Qed.

Fixpoint bits (p : positive) : string :=
  match p with
  | xH => ""
  | xO p => String "0" (bits p)
  | xI p => String "1" (bits p)
  end.

Fixpoint unbits (s : string) : option positive :=
  match s with
  | "" => Some 1%positive
  | String c s =>
    p ← unbits s;
    if Ascii.eqb c "0" then Some (xO p) else if Ascii.eqb c "1" then Some (xI p) else None
  end.

Lemma unbits_bits p : unbits (bits p) = Some p.
Proof. induction p as [p IH|p IH|]; cbn; by rewrite ?IH. Qed.

#[global] Program Instance local_records : RecordSerde := {|
  to_vec r := bits (encode r);
  record_from_slice s := p ← unbits s; decode p;
|}.
Next Obligation. intros r. cbn. rewrite unbits_bits. cbn. apply decode_encode. Qed.

(** ** Hashes *)
Fixpoint copies (n : nat) (c : ascii) : string :=
  match n with O => "" | S n => String c (copies n c) end.

Definition hex_digit (n : Z) : ascii :=
  ascii_of_N (Z.to_N (if n <? 10 then 48 + n else 87 + n)).

Definition local_sha (a b : string) : string :=
  copies (Z.to_nat (default 0 (want_len a))) (hex_digit (str_len b mod 16)).

Lemma hex_digit_ok n : 0 <= n < 16 -> hex_char (hex_digit n) = true.
Proof.
  intros Hn. assert (Hin : n ∈ seqZ 0 16) by (apply elem_of_seqZ; lia). revert n Hn Hin.
  assert (H : all (fun n => hex_char (hex_digit n)) (seqZ 0 16) = true) by (vm_compute; reflexivity).
  rewrite all_spec in H. auto.
Qed.

Lemma copies_len n c : str_len (copies n c) = Z.of_nat n.
Proof. unfold str_len. f_equal. induction n as [|n IH]; [done|]. cbn. by rewrite IH. Qed.

Lemma copies_all f n c : f c = true -> all_chars f (copies n c) = true.
Proof. intros H. induction n as [|n IH]; [done|]. cbn. by rewrite H. Qed.

#[global] Program Instance local_hash : Sha := {| sha := local_sha |}.
Next Obligation.
  intros a b n Hn. unfold local_sha. rewrite Hn. cbn. split.
  - rewrite copies_len. destruct (want_len_algo a n Hn) as [-> | ->]; by injection Hn as <-.
  - apply copies_all, hex_digit_ok, Z.mod_pos_bound. lia.
Qed.

(** ** Running the programs *)
Abbreviation lworld := (rworld MemStore.mem nat).

(** The [n]th nonce. *)
Definition nth_nonce (n : nat) : string :=
  copies (32 - n) "0" +:+ copies n "a".

Definition nonce_okb (i : string) : bool := (str_len i =? 32) && all_chars hex_char i.

(** Task [t], from time [at_] on. *)
Definition local (started : nat -> option Z) (grace : Z) (t : nat) (at_ : Z) :
    Exec (reg_eff nat) lworld := fun X e w =>
  let now := Z.max (rnow w) at_ in
  if negb ((0 <=? now) && (now <=? i64_max) &&
           match started t with Some z => (z <=? now) && (now <=? z + grace) | None => true end)
  then None
  else match e in reg_eff _ X return option (X * lworld) with
       | ROs X e => '(x, s) ← exec X e (rstore w); Some (x, RWorld s now (minted w))
       | RNow => Some (now, RWorld (rstore w) now (minted w))
       | RNonce =>
         let i := nth_nonce (size (minted w)) in
         if nonce_okb i && bool_decide (minted w !! i = None)
         then Some (i, RWorld (rstore w) now (<[i := t]> (minted w)))
         else None
       | RRandom => Some (0, RWorld (rstore w) now (minted w))
       | RSleep _ => Some (tt, RWorld (rstore w) now (minted w))
       | RCall _ => Some (Ok tt, RWorld (rstore w) now (minted w))
       end.

Lemma local_sem started grace t at_ X (e : reg_eff nat X) w x w' :
  local started grace t at_ X e w = Some (x, w') -> rsem grace started t X e w x w'.
Proof.
  unfold local, rsem. set (now := Z.max (rnow w) at_).
  destruct (negb _) eqn:Eg; [done|]. apply negb_false_iff in Eg.
  apply andb_true_iff in Eg as [[H1 H2]%andb_true_iff H3].
  apply Z.leb_le in H1, H2.
  assert (Hst : forall z, started t = Some z -> z <= now <= z + grace).
  { intros z Hz. rewrite Hz in H3. apply andb_true_iff in H3 as [?%Z.leb_le ?%Z.leb_le]. lia. }
  destruct e as [X e| | | | |]; intros He.
  - destruct (exec X e (rstore w)) as [[y s]|] eqn:E; [|done]. cbn in He. injection He as <- <-. cbn.
    split; [lia|]. split; [done|]. split; [done|]. split; [by left|done].
  - injection He as <- <-. cbn. split; [lia|]. done.
  - destruct (nonce_okb _ && _) eqn:En; [|done]. injection He as <- <-. cbn.
    apply andb_true_iff in En as [[?%Z.eqb_eq ?]%andb_true_iff ?%bool_decide_eq_true].
    split; [lia|]. done.
  - injection He as <- <-. cbn. split; [lia|]. split; [done|]. split; [done|]. by vm_compute.
  - injection He as <- <-. cbn. split; [lia|]. done.
  - injection He as <- <-. cbn. split; [lia|]. done.
Qed.

Lemma local_runs started grace t at_ {A} (p : prog (reg_eff nat) A) : forall w a w',
  @run _ _ _ (local started grace t at_) p w = Some (a, w') -> runs (rsem grace started) t p w a w'.
Proof.
  induction p as [a|X e k IH]; cbn; intros w b w' Hr; [injection Hr as <- <-; constructor|].
  unfold exec in Hr. destruct (local started grace t at_ X e w) as [[x s]|] eqn:E; [|done]. cbn in Hr.
  econstructor; [by eapply local_sem|by apply IH].
Qed.

(** A registry before its first push. *)
Definition fresh_world (now : Z) : lworld := RWorld (MemStore.empty now) now ∅.

Lemma fresh_registry_inv `{Serde} o (o_plain : plain_name o) kept now : inv o kept (fresh_world now).
Proof.
  assert (Hno : forall p b, ~ had (fresh_world now) p b) by (by intros p b (v & t & Ht)).
  constructor.
  - intros d b _ Hb. by apply Hno in Hb.
  - intros d b _ Hb. by apply Hno in Hb.
  - intros d r k _ (b & Hb & _). by apply Hno in Hb.
  - done.
  - intros d r _ (b & Hb & _). by apply Hno in Hb.
  - done.
  - done.
Qed.

(** ** Nobody else, no failure *)
Record calm_state := Calm { c_store : MemStore.mem; c_now : Z; c_drawn : nat }.

Section calm.
(** The nonces in the order they are drawn. *)
Variable nonces : nat -> string.

#[global] Instance calm : Exec (reg_eff nat) calm_state := fun X e w =>
  Some match e in reg_eff _ X return X * calm_state with
       | ROs X e =>
         match exec X e (c_store w) with
         | Some (x, s) => (x, Calm s (c_now w) (c_drawn w))
         | None => (MemStore.outage e (EStore "blocked"), w)
         end
       | RNow => (c_now w, w)
       | RNonce => (nonces (c_drawn w), Calm (c_store w) (c_now w) (S (c_drawn w)))
       | RRandom => (0, w)
       | RSleep ms => (tt, Calm (c_store w) (c_now w + ms) (c_drawn w))
       | RCall _ => (Ok tt, w)
       end.
End calm.
