(* ===== verification/OciProps.v ===== *)
(** * OciProps: digests, references, manifests and paths read back what was written

    The theorems about the pure part of the registry ([Oci], [read_manifest]) and about the names
    of objects ([BlobWorld]'s places). *)

From S2P Require Import Prelude Text Names Prog ObjStore Oci BlobState Pour BlobPush BlobGc BlobWorld RegistryLocal.
Local Open Scope string_scope.
Local Open Scope Z_scope.

(** ** References *)
Lemma tag_char_plain c : tag_char c = true ->
  in_range 48 57 c || in_range 65 90 c || in_range 97 122 c ||
  Ascii.eqb c "." || Ascii.eqb c "_" || Ascii.eqb c "-" = true.
Proof. destruct c as [[] [] [] [] [] [] [] []]; vm_compute; auto. Qed.

Lemma tag_start_not_dot c s : tag_start c = true -> plain_segment (String c s) =
  forallb (fun c => in_range 48 57 c || in_range 65 90 c || in_range 97 122 c ||
                    Ascii.eqb c "." || Ascii.eqb c "_" || Ascii.eqb c "-") (list_ascii_of_string (String c s)).
Proof.
  intros H. unfold plain_segment. replace (String.eqb (String c s) ".") with false.
  - replace (String.eqb (String c s) "..") with false; [done|].
    symmetry. apply String.eqb_neq. intros [= -> _]. done.
  - symmetry. apply String.eqb_neq. intros [= -> _]. done.
Qed.

(** C37: A reference is a digest exactly when it is the text of a valid one; otherwise it is a tag,
    which is kept as it is, has between 1 and 128 bytes, and is a plain segment: no slash, never
    [.] or [..]. *)
Theorem reference_shape s r : reference s = Some r ->
  match r with
  | RefDigest d => s = Digests.display d /\ valid_digest d
  | RefTag t => t = s /\ Digests.parse s = None /\ 1 <= str_len s <= 128 /\ plain_name s
  end.
Proof.
  unfold reference. destruct (Digests.parse s) as [d|] eqn:E; [intros [= <-]; by apply digest_parse_some|].
  destruct (_ && _) eqn:Eo; [|done]. intros [= <-].
  apply andb_true_iff in Eo as [[Hl Hc]%andb_true_iff Ha]. apply Z.leb_le in Hl.
  destruct s as [|c s]; [done|]. split; [done|]. split; [done|].
  split; [unfold str_len in *; cbn in *; lia|]. split.
  - rewrite tag_start_not_dot by done. rewrite all_chars_list in Ha. rewrite forallb_forall in Ha |- *.
    intros x Hx. by apply tag_char_plain, Ha.
  - by eapply all_chars_no.
Qed.

Lemma reference_shape_witness :
  reference "v1.2" = Some (RefTag "v1.2") /\
  ("v1.2" = "v1.2" /\ Digests.parse "v1.2" = None /\ 1 <= str_len "v1.2" <= 128 /\ plain_name "v1.2").
Proof.
  assert (H : reference "v1.2" = Some (RefTag "v1.2")) by reflexivity.
  split; [exact H|]. exact (reference_shape "v1.2" (RefTag "v1.2") H).
Defined.

(** ** Digests in paths *)
Lemma digest_from_join l a h : Forall slashless l -> slashless a -> slashless h ->
  digest_from_path (join_path (l ++ [a; h])%list) = Some (a +:+ ":" +:+ h).
Proof.
  intros Hl Ha Hh. unfold digest_from_path. rewrite split_join.
  - by rewrite List.rev_app_distr.
  - by destruct l.
  - apply Forall_app. split; [done|]. by repeat apply Forall_cons_2.
Qed.

Section paths.
Context `{PathFrom}.

(** Where an object of a digest is stored, the digest is read back from the path alone: a blob
    at its legacy place, a manifest, and a blob's record, as the sweep reads them in its
    listings. *)
Theorem digest_found_again o name d :
  plain_name o -> plain_name name -> valid_digest d ->
  digest_from_path (blob_path o d) ≫= Digests.parse = Some d /\
  digest_from_path (manifest_path o name d) ≫= Digests.parse = Some d /\
  state_digest o (state_path o d) = Some d.
Proof.
  intros Ho Hn Hd. pose proof (digest_algo_no_slash d Hd) as Ha. pose proof (digest_hex_no_slash d Hd) as Hh.
  assert (Hp : Digests.parse (algo d +:+ ":" +:+ hex d) = Some d) by (by apply digest_parse_some).
  destruct Ho as [Ho1 Ho2], Hn as [Hn1 Hn2].
  change (blob_path o d) with (place_path o (PCanonical d)).
  change (manifest_path o name d) with (place_path o (PManifest name d)).
  change (state_path o d) with (place_path o (PState d)).
  rewrite !place_path_eq by (cbn; auto; by split). cbn [place_segments].
  split; [|split].
  - pose proof (digest_from_join ["blobs"; o] (algo d) (hex d)) as E. cbn [app] in E.
    rewrite E; [exact Hp| |done|done]. by repeat apply Forall_cons_2.
  - pose proof (digest_from_join ["manifests"; o; name] (algo d) (hex d)) as E. cbn [app] in E.
    rewrite E; [exact Hp| |done|done]. by repeat apply Forall_cons_2.
  - unfold state_digest.
    replace (join_path ["blob-state"; o; algo d; hex d])
      with (("blob-state/" +:+ o +:+ "/") +:+ join_path [algo d; hex d])%string
      by (cbn [join_path]; by rewrite !append_assoc).
    rewrite strip_prefix_app. cbn [mbind option_bind]. rewrite split_join; [exact Hp|done|].
    by repeat apply Forall_cons_2.
Qed.

(** No two objects share a path: of any two owners, the paths of records, generations, legacy
    blobs and manifests are equal only for the same owner and the same object. *)
Theorem paths_never_collide o o' k k' :
  plain_name o -> plain_name o' -> place_ok k -> place_ok k' ->
  place_path o k = place_path o' k' -> o = o' /\ k = k'.
Proof.
  intros Ho Ho' Hk Hk'. rewrite !place_path_eq by done. intros E.
  apply join_inj in E; [|by destruct k|by destruct k'|by apply segments_plain..].
  destruct k as [[]|[] i|[]|n []], k' as [[]|[] i'|[]|n' []]; cbn in E; split; congruence.
Qed.
End paths.

Definition a_digest : Digest := of_bytes "a blob".

Lemma digest_found_again_witness :
  digest_from_path (blob_path "acme" a_digest) ≫= Digests.parse = Some a_digest /\
  digest_from_path (manifest_path "acme" "web" a_digest) ≫= Digests.parse = Some a_digest /\
  state_digest "acme" (state_path "acme" a_digest) = Some a_digest.
Proof.
  apply (digest_found_again "acme" "web" a_digest); [split; reflexivity|split; reflexivity|].
  exists 64. by vm_compute.
Defined.

Lemma paths_never_collide_witness :
  "acme" = "acme" /\ PManifest "web" a_digest = PManifest "web" (of_bytes "a blob").
Proof.
  assert (Hd : valid_digest a_digest) by (exists 64; by vm_compute).
  apply (paths_never_collide "acme" "acme"); [split; reflexivity|split; reflexivity| | |reflexivity];
    (split; [split; reflexivity|exact Hd]).
Defined.

(** ** What a manifest declares *)

Definition sizes_under (key : string) (v : json) : list Z :=
  match l ← jget key v; as_array l with
  | Some items => omap (fun l => s ← jget "size" l; as_u64 s) items
  | None => []
  end.

(** The sizes a manifest declares: its config's, its layers', its manifests'. *)
Definition declared_sizes (v : json) : list Z :=
  (match c ← jget "config" v; s ← jget "size" c; as_u64 s with Some n => [n] | None => [] end ++
   sizes_under "layers" v ++ sizes_under "manifests" v)%list.

Definition sum_z (l : list Z) : Z := fold_right Z.add 0 l.

Lemma sum_z_app l l' : sum_z (l ++ l') = sum_z l + sum_z l'.
Proof. induction l as [|x l IH]; cbn; [done|]. fold (sum_z (l ++ l')) (sum_z l). lia. Qed.

Lemma sum_z_pos l : Forall u64 l -> 0 <= sum_z l.
Proof. induction 1 as [|x l [Hx _] _ IH]; cbn; [lia|]. fold (sum_z l). lia. Qed.

Lemma fold_sat l : Forall u64 l -> forall t, fold_left sat_add64 l (Z.min u64_max t) = Z.min u64_max (t + sum_z l).
Proof.
  induction 1 as [|x l [Hx _] Hl IH]; intros t; cbn [fold_left sum_z fold_right]; [f_equal; lia|].
  fold (sum_z l). replace (sat_add64 (Z.min u64_max t) x) with (Z.min u64_max (t + x)).
  - rewrite IH. f_equal. lia.
  - unfold sat_add64. lia.
Qed.

Lemma declared_size_sum `{Serde} bytes v :
  from_slice bytes = Some v -> Forall u64 (declared_sizes v) ->
  declared_size bytes = Z.min u64_max (sum_z (declared_sizes v)).
Proof.
  intros Hv. unfold declared_size, declared_sizes. rewrite Hv.
  intros [Hc [Hl Hm]%Forall_app]%Forall_app. rewrite !sum_z_app. cbn [fold_left].
  set (c := (c ← jget "config" v; s ← jget "size" c; as_u64 s)) in *.
  replace (unwrap_or c 0) with (Z.min u64_max (sum_z (match c with Some n => [n] | None => [] end))).
  2:{ destruct c as [n|]; cbn; [|done]. apply Forall_cons_1 in Hc as [[? ?] _]. lia. }
  unfold sizes_under in *.
  destruct (l ← jget "layers" v; as_array l) as [items|]; rewrite ?fold_sat by done;
    destruct (l ← jget "manifests" v; as_array l) as [items'|]; rewrite ?fold_sat by done;
    f_equal; cbn [sum_z fold_right]; lia.
Qed.

(** The size a manifest shows is the sum of the sizes it declares for its config, layers and
    manifests, clamped at the largest [u64]: hostile sizes never wrap it. *)
Theorem declared_size_saturates `{Serde} bytes v :
  from_slice bytes = Some v -> Forall u64 (declared_sizes v) ->
  u64 (declared_size bytes) /\ declared_size bytes = Z.min u64_max (sum_z (declared_sizes v)).
Proof.
  intros Hv Hs. rewrite (declared_size_sum bytes v) by done. split; [|done].
  pose proof (sum_z_pos _ Hs). unfold u64, u64_max in *. lia.
Qed.

Definition hostile_json : json :=
  JObject [("config", JObject [("size", JNumber (PosInt 100))]);
           ("layers", JArray [JObject [("size", JNumber (PosInt u64_max))];
                              JObject [("size", JNumber (PosInt 7))]; JNull])].

Lemma declared_size_saturates_witness :
  Forall u64 (declared_sizes hostile_json) /\
  u64 (@declared_size (fun _ => Some hostile_json) "hostile") /\
  @declared_size (fun _ => Some hostile_json) "hostile" = Z.min u64_max (sum_z (declared_sizes hostile_json)).
Proof.
  assert (Hs : Forall u64 (declared_sizes hostile_json)).
  { cbn. unfold u64, u64_max. repeat apply Forall_cons_2; [lia..|constructor]. }
  split; [exact Hs|].
  exact (@declared_size_saturates (fun _ => Some hostile_json) "hostile" hostile_json eq_refl Hs).
Defined.

(** ** The body of a push *)
Fixpoint all_ok (body : list (result string)) : option string :=
  match body with
  | [] => Some ""
  | Ok chunk :: body => rest ← all_ok body; Some (chunk +:+ rest)
  | Err _ :: _ => None
  end.

Lemma str_len_app a b : str_len (a +:+ b) = str_len a + str_len b.
Proof. unfold str_len. induction a as [|c a IH]; [done|]. cbn [append String.length]. lia. Qed.

Lemma str_len_pos s : 0 <= str_len s.
Proof. unfold str_len. lia. Qed.

(** C36: The body of a manifest push is accepted exactly when every chunk of it arrives and the whole
    has at most [MAX_MANIFEST] bytes, and then it is all of its bytes in order. *)
Theorem read_manifest_exact body b :
  read_manifest body = Some b <-> all_ok body = Some b /\ str_len b <= MAX_MANIFEST.
Proof.
  unfold read_manifest.
  match goal with |- ?f body "" 0 = _ <-> _ => set (go := f) end.
  assert (Hgo : forall body buf seen, (seen <= MAX_MANIFEST -> seen = str_len buf) -> 0 <= seen ->
    (go body buf seen = Some b <->
     exists rest, all_ok body = Some rest /\ seen + str_len rest <= MAX_MANIFEST /\ b = (buf +:+ rest)%string)).
  { clear body. intros body. induction body as [|[chunk|e] body IH]; intros buf seen Hbuf Hpos; cbn.
    - destruct (Z.leb_spec seen MAX_MANIFEST) as [Hle|Hgt].
      + split; [intros [= <-]; exists ""; rewrite append_nil_r; unfold str_len; cbn; split; [done|split; [lia|done]]|].
        intros (rest & [= <-] & _ & ->). by rewrite append_nil_r.
      + split; [done|]. intros (rest & [= <-] & Hr & _). unfold str_len in Hr. cbn in Hr. lia.
    - fold go. pose proof (str_len_pos chunk) as Hc.
      destruct (Z.ltb_spec DRAIN_CEILING (seen + str_len chunk)) as [Hdr|Hdr].
      + split; [done|]. intros (rest & Hr & Hle & _). destruct (all_ok body) as [r|]; [|done].
        injection Hr as <-. rewrite str_len_app in Hle. pose proof (str_len_pos r).
        unfold DRAIN_CEILING, MAX_MANIFEST in *. lia.
      + rewrite IH; [|intros Hle; destruct (Z.leb_spec (seen + str_len chunk) MAX_MANIFEST);
                      [rewrite str_len_app; lia|lia]|lia].
        split.
        * intros (r & -> & Hle & ->). exists (chunk +:+ r)%string. rewrite str_len_app. split; [done|].
          split; [lia|]. pose proof (str_len_pos r).
          destruct (Z.leb_spec (seen + str_len chunk) MAX_MANIFEST); [by rewrite append_assoc|lia].
        * intros (rest & Hr & Hle & ->). destruct (all_ok body) as [r|]; [|done].
          injection Hr as <-. rewrite str_len_app in Hle. pose proof (str_len_pos r).
          exists r. split; [done|]. split; [lia|].
          destruct (Z.leb_spec (seen + str_len chunk) MAX_MANIFEST); [by rewrite append_assoc|lia].
    - split; [done|]. by intros (? & ? & _). }
  rewrite Hgo; [|unfold str_len; cbn; lia|lia]. cbn [append]. split.
  - intros (rest & -> & Hle & ->). split; [done|lia].
  - intros [-> Hle]. exists b. split; [done|]. split; [lia|done].
Qed.
