(* ===== verification/RegistryAlone.v ===== *)
(** * RegistryAlone: what an operation of the registry does with nobody else about

    Programs run on [RegistryLocal.calm]: the store in memory, no failure, whatever nonces.  Every
    program ends ([calm_total]), so each statement here is total correctness: the push of a blob
    ends in a blob that pulls, the walk of an owner's manifests is exact, and a sweep that meets a
    manifest it cannot read collects nothing. *)

From S2P Require Import Prelude Text Names Prog ObjStore Oci BlobState Pour BlobPush BlobGc BlobWorld RegistryLocal OciProps.
Local Open Scope string_scope.
Local Open Scope Z_scope.

Section alone.
Variable nonces : nat -> string.
Context `{HP : PathFrom} `{HR : RecordSerde} `{HA : Sha} `{HJ : Serde}.
#[local] Existing Instance calm.
Abbreviation run p w := (@run _ _ _ (calm nonces) p w).
Abbreviation view w p := (MemStore.mview (c_store w) p).

Definition put_at (p : path) (b : string) (w : calm_state) : calm_state :=
  Calm (MemStore.mput p b (c_store w)) (c_now w) (c_drawn w).

Lemma calm_total {A} (p : prog (reg_eff nat) A) : forall w, exists a w', run p w = Some (a, w').
Proof.
  induction p as [a|X e k IH]; intros w; [by exists a, w|].
  assert (He : exists x s, @exec _ _ (calm nonces) X e w = Some (x, s)).
  { unfold exec, calm. destruct (match e in reg_eff _ X return X * calm_state with _ => _ end) as [x s]; eauto. }
  destruct He as (x & s & He). cbn [Prog.run]. rewrite He. apply IH.
Qed.

(** ** Effects *)
Lemma run_get p w : run (trigger (ROs _ (OGet p))) w =
  Some (match view w p with Some (b, v) => GetOk b v | None => GetNotFound end, w).
Proof. cbn. destruct (view w p) as [[b v]|]; by destruct w. Qed.

Lemma run_put p b m w : run (trigger (ROs _ (OPut p b m))) w =
  match MemStore.admits m (view w p) with
  | Some r => Some (r, w)
  | None => Some (PutOk (List.length (MemStore.log (c_store w))), put_at p b w)
  end.
Proof. cbn. destruct (MemStore.admits m (view w p)); by destruct w. Qed.

Lemma run_list p w : run (trigger (ROs _ (OList p))) w =
  Some (Ok (filter (fun q => is_true (under p q) /\ is_Some (view w q)) (map_to_list (MemStore.objs (c_store w))).*1), w).
Proof. by destruct w. Qed.

Lemma run_nonce w : run (trigger RNonce) w =
  Some (nonces (c_drawn w), Calm (c_store w) (c_now w) (S (c_drawn w))).
Proof. done. Qed.

Lemma run_now w : run now_millis w = Some (c_now w, w).
Proof. done. Qed.

Lemma run_bind_res {A B} (p : prog (reg_eff nat) (result A)) (f : A -> prog (reg_eff nat) (result B)) w :
  run (bind_res p f) w =
  match run p w with
  | Some (Ok a, w') => run (f a) w'
  | Some (Err e, w') => Some (Err e, w')
  | None => None
  end.
Proof. unfold bind_res. rewrite run_bind. by destruct (run p w) as [[[a|e] w']|]. Qed.

Lemma run_head p w : exists r, run (trigger (ROs _ (OHead p))) w = Some (r, w) /\
  match r with HeadOk _ => is_Some (view w p) | HeadNotFound => view w p = None | HeadErr _ => False end.
Proof.
  cbn. destruct (view w p) as [[b v]|] eqn:E; [|exists HeadNotFound; by destruct w].
  unfold MemStore.mview in E. destruct (MemStore.objs (c_store w) !! p) as [x|]; cbn in E; [|done].
  destruct (MemStore.log (c_store w) !! x) as [[[q b'] t]|] eqn:El; [|done].
  case_decide; [|done]. injection E as -> ->. rewrite El. exists (HeadOk t). by destruct w.
Qed.

Lemma view_put p b w q :
  view (put_at p b w) q = if decide (p = q) then Some (b, List.length (MemStore.log (c_store w))) else view w q.
Proof. apply MemStore.mput_view. Qed.

(** ** Records *)
Definition record_at (w : calm_state) (p : path) (r : BlobRecord) (v : nat) : Prop :=
  exists b, view w p = Some (b, v) /\ record_from_slice b = Some r.

Lemma calm_record_put p r w : record_at (put_at p (to_vec r) w) p r (List.length (MemStore.log (c_store w))).
Proof. exists (to_vec r). rewrite view_put, decide_True by done. split; [done|apply from_to]. Qed.

Lemma run_read w p r v : record_at w p r v -> run (read p) w = Some (Ok (Some (mkLoaded r v)), w).
Proof.
  intros (b & Hb & Hr). unfold read. rewrite run_bind, run_get, Hb. cbn. by rewrite Hr.
Qed.

Lemma run_read_none w p : view w p = None -> run (read p) w = Some (Ok None, w).
Proof. intros Hb. unfold read. by rewrite run_bind, run_get, Hb. Qed.

Lemma run_update w p r v b : view w p = Some (b, v) ->
  run (update p r v) w = Some (Ok true, put_at p (to_vec r) w).
Proof.
  intros Hb. unfold update. rewrite run_bind, run_put, Hb. cbn. by rewrite decide_True.
Qed.

Lemma run_create w p r : view w p = None -> run (create p r) w = Some (Ok true, put_at p (to_vec r) w).
Proof. intros Hb. unfold create. by rewrite run_bind, run_put, Hb. Qed.

(** Only the object at [p] differs. *)
Definition beside (p : path) (w w' : calm_state) : Prop := forall q, q <> p -> view w' q = view w q.

Lemma beside_put p b w : beside p w (put_at p b w).
Proof. intros q Hq. by rewrite view_put, decide_False. Qed.

Lemma beside_trans p w1 w2 w3 : beside p w1 w2 -> beside p w2 w3 -> beside p w1 w3.
Proof. intros H1 H2 q Hq. by rewrite H2, H1. Qed.

Lemma run_store_record {A} p r v (a : A) w r0 : record_at w p r0 v ->
  exists n w', run (store_record p r v a) w = Some (Ok (Some a), w') /\
    (exists v', record_at w' p (with_nonce n r) v') /\ beside p w w'.
Proof.
  intros (b & Hb & _). exists (nonces (c_drawn w)). eexists. unfold store_record, fresh_nonce.
  rewrite run_bind, run_nonce. cbn [mbind option_bind]. rewrite run_bind_res.
  rewrite (run_update (Calm (c_store w) (c_now w) (S (c_drawn w))) p _ v b Hb). cbn. split; [done|]. split; [|apply (beside_put p _ w)].
  eexists. apply calm_record_put.
Qed.

(** ** Installing *)
Section blob.
Variables (o : string) (d : Digest).
Hypothesis o_plain : plain_name o.
Hypothesis d_valid : valid_digest d.
Abbreviation sp := (state_path o d).

(** The record of [d], if there is one, can be read. *)
Definition readable (w : calm_state) : Prop :=
  forall b v, view w sp = Some (b, v) -> is_Some (record_from_slice b).

Lemma readable_cases w : readable w -> view w sp = None \/ exists r v, record_at w sp r v.
Proof using Type.
  intros H. destruct (view w sp) as [[b v]|] eqn:E; [right|by left].
  destruct (H b v E) as [r Hr]. exists r, v, b. done.
Qed.

(** With no record, the legacy object is adopted when there is one. *)
Lemma run_load w : readable w ->
  exists l w', run (load o d) w = Some (Ok l, w') /\ beside sp w w' /\
    match l with
    | Some l => record_at w' sp (record l) (version l) /\
                forall r v, record_at w sp r v -> record l = r /\ version l = v
    | None => view w' sp = None
    end.
Proof using o_plain d_valid.
  intros [Hn|(r & v & Hr)]%readable_cases; unfold load; rewrite run_bind_res.
  - rewrite run_read_none by done. rewrite run_bind.
    destruct (run_head (canonical_path o d) w) as (h & -> & Hh). cbn [mbind option_bind].
    destruct h as [t| |]; [|by exists None, w|done].
    unfold fresh_nonce. rewrite run_bind, run_nonce. cbn [mbind option_bind]. rewrite run_bind_res.
    rewrite run_create by (cbn; exact Hn).
    match goal with |- context [put_at sp (to_vec ?r0) ?w0] =>
      pose proof (calm_record_put sp r0 w0) as Hrec; rewrite (run_read _ _ _ _ Hrec);
      eexists _, (put_at sp (to_vec r0) w0) end.
    split; [done|]. split; [intros q Hq; by rewrite (beside_put sp _ _ q Hq)|].
    split; [exact Hrec|]. intros r v (b & Hb & _). rewrite Hn in Hb. done.
  - rewrite (run_read w sp r v) by done. eexists _, w. split; [done|]. split; [done|]. cbn. split; [done|].
    intros r' v' (b' & Hb' & Hr'). destruct Hr as (b & Hb & Hr). rewrite Hb in Hb'. injection Hb' as <- <-.
    rewrite Hr in Hr'. by injection Hr'.
Qed.

Definition active_at (w : calm_state) (key : string) : Prop :=
  exists r v a, record_at w sp r v /\ active r = Some a /\ physical_key a = key.

Lemma run_resolve w key : active_at w key ->
  run (resolve o d) w = Some (Ok (Some (path_from key)), w).
Proof using Type.
  intros (r & v & a & Hr & Ha & Hk). unfold resolve, load. rewrite !run_bind_res.
  rewrite (run_read w sp r v) by done. cbn. by rewrite Ha; cbn; rewrite Hk.
Qed.

(** The first attempt is enough. *)
Lemma run_attempts {A} n m (body : prog (reg_eff nat) (result (option A))) s w a w' :
  run body w = Some (Ok (Some a), w') -> run (attempts (S n) m body s) w = Some (Ok a, w').
Proof using Type. intros H. cbn [attempts]. by rewrite run_bind_res, H. Qed.

Lemma run_install w key : readable w ->
  exists w', run (install o d key) w = Some (Ok tt, w') /\ active_at w' key /\ beside sp w w'.
Proof using o_plain d_valid.
  intros Hw. destruct (run_load w Hw) as (l & w1 & Hl & Hb & Hrec).
  assert (Hbody : exists w', run (install_once o d key) w = Some (Ok (Some tt), w') /\
    active_at w' key /\ beside sp w w').
  { unfold install_once. rewrite run_bind_res, Hl. destruct l as [l|].
    - destruct Hrec as [Hrec _]. destruct (is_some_and _ _) eqn:Eact.
      + exists w1. split; [done|]. split; [|done]. unfold is_some_and in Eact.
        destruct (active (record l)) as [a|] eqn:Ea; [|done]. apply String.eqb_eq in Eact.
        by exists (record l), (version l), a.
      + destruct (active (record l)) as [a|]; repeat (rewrite run_bind, run_now; cbn [mbind option_bind]).
        * match goal with |- context [store_record _ ?r _ _] =>
            destruct (run_store_record sp r (version l) tt w1 (record l) Hrec) as (n & w2 & Hs & (v' & Hr) & Hb2) end.
          exists w2. split; [exact Hs|]. split; [|by eapply beside_trans].
          eexists _, v', _. split; [exact Hr|done].
        * match goal with |- context [store_record _ ?r _ _] =>
            destruct (run_store_record sp r (version l) tt w1 (record l) Hrec) as (n & w2 & Hs & (v' & Hr) & Hb2) end.
          exists w2. split; [exact Hs|]. split; [|by eapply beside_trans].
          eexists _, v', _. split; [exact Hr|done].
    - unfold fresh_nonce. rewrite run_bind, run_nonce. cbn [mbind option_bind].
      rewrite run_bind, run_now. cbn [mbind option_bind]. rewrite run_bind_res.
      rewrite run_create by (cbn; exact Hrec). eexists. split; [done|]. split.
      + eexists _, _, _. split; [apply calm_record_put|done].
      + eapply beside_trans; [exact Hb|]. intros q Hq. by rewrite (beside_put sp _ _ q Hq). }
  destruct Hbody as (w' & Hrun & Hact & Hbes). exists w'. split; [|done]. by apply run_attempts.
Qed.
End blob.

(** ** Pouring *)
Lemma run_call s w : run (trigger (RCall s)) w = Some (Ok tt, w).
Proof. done. Qed.

Definition fed (a bytes : string) (h : BlockingHasher) : Prop :=
  h_algo h = a /\ (hashed h +:+ h_buf h = bytes)%string.

Lemma run_hasher_flush a bytes h w : fed a bytes h ->
  exists h', run (hasher_flush h) w = Some (Ok h', w) /\ fed a bytes h' /\ h_buf h' = "".
Proof using Type.
  intros [Ha Hb]. unfold hasher_flush. destruct (String.eqb_spec (h_buf h) "") as [E|E].
  - exists h. by split.
  - eexists. rewrite run_bind_res, run_call. split; [done|]. split; [|done]. split; [done|].
    cbn. by rewrite append_nil_r.
Qed.

Lemma run_hasher_update a bytes chunk h w : fed a bytes h ->
  exists h', run (hasher_update chunk h) w = Some (Ok h', w) /\ fed a (bytes +:+ chunk) h'.
Proof using Type.
  intros [Ha Hb]. unfold hasher_update.
  assert (Hf : fed a (bytes +:+ chunk) (mkHasher (h_algo h) (hashed h) (h_buf h +:+ chunk))).
  { split; [done|]. cbn. by rewrite <- append_assoc, Hb. }
  destruct (_ <=? _); [|eexists; by split].
  destruct (run_hasher_flush _ _ _ w Hf) as (h' & Hr & Hf' & _). exists h'. by split.
Qed.

Lemma run_hasher_finish a bytes h w : fed a bytes h ->
  run (hasher_finish h) w = Some (Ok (mkDigest a (sha a bytes)), w).
Proof using Type.
  intros Hf. unfold hasher_finish. rewrite run_bind_res.
  destruct (run_hasher_flush _ _ _ w Hf) as (h' & -> & [Ha Hb] & He).
  rewrite run_bind_res, run_call. cbn. rewrite He, append_nil_r in Hb. by rewrite Ha, Hb.
Qed.

(** The bytes before the first failure of the body. *)
Definition prefix_of (body : list (result string)) (bytes : string) : Prop :=
  exists l rest, body = (map Ok l ++ rest)%list /\ bytes = fold_right append "" l.

Lemma prefix_cons chunk body bytes : prefix_of body bytes -> prefix_of (Ok chunk :: body) (chunk +:+ bytes).
Proof using Type. intros (l & rest & -> & ->). by exists (chunk :: l), rest. Qed.

Definition poured_alone (dest : path) (d : Digest) (body : list (result string)) (w0 : string) (cap : Z)
    (w : calm_state) (r : Z + Refused) (w' : calm_state) : Prop :=
  match r with
  | inl n => exists bytes, all_ok body = Some bytes /\ n = str_len (w0 +:+ bytes) /\ n <= cap /\
      of_algo (algo d) (w0 +:+ bytes) = Some d /\ w' = put_at dest (w0 +:+ bytes) w
  | inr TooLarge => w' = w /\ exists bytes, prefix_of body bytes /\ cap < str_len (w0 +:+ bytes)
  | inr WrongDigest => w' = w /\ exists bytes, all_ok body = Some bytes /\ of_algo (algo d) (w0 +:+ bytes) <> Some d
  | inr (Failed e) => w' = w /\ Err e ∈ body
  end.

Lemma run_pour_end dest d h bytes n cap w :
  valid_digest d -> fed (algo d) bytes h -> n = str_len bytes -> n <= cap ->
  exists r w', run (pour_end dest (Some d) (Some h) bytes n) w = Some (r, w') /\
    poured_alone dest d [] bytes cap w r w'.
Proof using Type.
  intros (k & Hk & _) Hf Hn Hcap. unfold pour_end. rewrite run_bind, (run_hasher_finish (algo d) bytes) by done.
  assert (Ho : of_algo (algo d) bytes = Some (mkDigest (algo d) (sha (algo d) bytes))).
  { unfold of_algo. by rewrite Hk. }
  cbn [mbind option_bind]. destruct (bool_decide _) eqn:E.
  - apply bool_decide_eq_true in E. rewrite run_bind, run_put. cbn. eexists _, _. split; [done|].
    exists "". rewrite append_nil_r. split; [done|]. split; [done|]. split; [done|]. by rewrite Ho, E.
  - apply bool_decide_eq_false in E. unfold abort. rewrite run_bind, run_call. cbn. eexists _, w. split; [done|].
    split; [done|]. exists "". rewrite append_nil_r. split; [done|]. rewrite Ho. by intros [= ?].
Qed.

Lemma run_pour_loop dest d cap body : forall h w0 n w,
  valid_digest d -> Forall (fun c => match c with Ok b => str_len b <= i64_max | Err _ => True end) body ->
  cap <= i64_max -> fed (algo d) w0 h -> n = str_len w0 -> n <= cap ->
  exists r w', run (pour_loop dest (Some d) body cap (Some h) w0 n) w = Some (r, w') /\
    poured_alone dest d body w0 cap w r w'.
Proof using Type.
  induction body as [|[chunk|e] body IH]; intros h w0 n w Hd Hlen Hi Hf Hn Hcap; cbn [pour_loop].
  - by apply run_pour_end.
  - apply Forall_cons_1 in Hlen as [Hc Hlen]. pose proof (str_len_pos chunk). pose proof (str_len_pos w0).
    rewrite u64_add_small by (unfold u64_max, i64_max in *; lia).
    destruct (Z.ltb_spec cap (n + str_len chunk)) as [Hover|Hfit].
    + unfold abort. rewrite run_bind, run_call. cbn. eexists _, w. split; [done|]. split; [done|].
      exists chunk. split; [|rewrite str_len_app; lia]. exists [chunk], body. cbn. by rewrite append_nil_r.
    + rewrite run_bind, run_bind_res. destruct (run_hasher_update _ _ chunk _ w Hf) as (h' & -> & Hf').
      cbn [mbind option_bind Prog.run]. rewrite run_bind, run_call. cbn [mbind option_bind].
      destruct (IH h' (w0 +:+ chunk)%string (n + str_len chunk) w) as (r & w' & Hrun & Hp); try done.
      { by rewrite str_len_app, Hn. }
      exists r, w'. split; [exact Hrun|]. unfold poured_alone in *. destruct r as [m|[| |e]].
      * destruct Hp as (bytes & Hb & Hm & Hle & Ho & Hw). exists (chunk +:+ bytes)%string. cbn [all_ok].
        rewrite Hb. cbn. rewrite <- append_assoc. done.
      * destruct Hp as (Hw & bytes & Hb & Hle). split; [done|]. exists (chunk +:+ bytes)%string.
        rewrite <- append_assoc. split; [by apply prefix_cons|done].
      * destruct Hp as (Hw & bytes & Hb & Hle). split; [done|]. exists (chunk +:+ bytes)%string.
        rewrite <- append_assoc. cbn [all_ok]. by rewrite Hb.
      * destruct Hp as [Hw He]. split; [done|]. by right.
  - unfold abort. rewrite run_bind, run_call. cbn. eexists _, w. split; [done|]. split; [done|]. left.
Qed.

Definition small_chunks (body : list (result string)) : Prop :=
  Forall (fun c => match c with Ok b => str_len b <= i64_max | Err _ => True end) body.

Lemma run_pour dest d body cap w :
  valid_digest d -> small_chunks body -> 0 <= cap <= i64_max ->
  exists r w', run (pour dest (Some d) body cap) w = Some (r, w') /\ poured_alone dest d body "" cap w r w'.
Proof using Type.
  intros Hd Hlen [Hc Hi]. unfold pour. rewrite run_bind, run_call. cbn [mbind option_bind].
  assert (Hh : hasher_new (algo d) = Some (mkHasher (algo d) "" "")).
  { destruct Hd as (n & Hn & _). unfold hasher_new. by rewrite Hn. }
  rewrite Hh.
  destruct (run_pour_loop dest d cap body (mkHasher (algo d) "" "") "" 0 w) as (r & w' & Hr & Hp); try done.
  exists r, w'. split; [exact Hr|]. by destruct r as [n|[| |e]].
Qed.

(** A pour is all or nothing.  It stores the body exactly when every chunk arrives, the whole is
    within the cap and hashes to the digest expected of it; otherwise the store is as it was, and the
    refusal says why: the cap is exceeded by the bytes received, a chunk failed, or the hash is
    another one. *)
Theorem pour_all_or_nothing dest d body cap w :
  valid_digest d -> small_chunks body ->
  0 <= cap <= i64_max ->
  exists r w', run (pour dest (Some d) body cap) w = Some (r, w') /\
  match r with
  | inl n => exists bytes, all_ok body = Some bytes /\ n = str_len bytes /\ n <= cap /\
      of_algo (algo d) bytes = Some d /\ w' = put_at dest bytes w
  | inr TooLarge => w' = w /\ exists bytes, prefix_of body bytes /\ cap < str_len bytes
  | inr WrongDigest => w' = w /\ exists bytes, all_ok body = Some bytes /\ of_algo (algo d) bytes <> Some d
  | inr (Failed e) => w' = w /\ Err e ∈ body
  end.
Proof using Type.
  intros Hd Hl Hc. destruct (run_pour dest d body cap w) as (r & w' & Hr & Hp); [done..|].
  exists r, w'. split; [exact Hr|]. by destruct r as [n|[| |e]].
Qed.

Lemma prefix_len body x bytes : prefix_of body x -> all_ok body = Some bytes -> str_len x <= str_len bytes.
Proof using Type.
  intros (l & rest & -> & ->). revert bytes. induction l as [|c l IH]; cbn; intros bytes Hb; [apply str_len_pos|].
  destruct (all_ok (map Ok l ++ rest)) as [x|]; [|done]. injection Hb as <-. rewrite !str_len_app.
  specialize (IH x eq_refl). lia.
Qed.

Lemma all_ok_no_err body bytes e : all_ok body = Some bytes -> Err e ∉ body.
Proof using Type.
  revert bytes. induction body as [|[c|e'] body IH]; cbn; intros bytes Hb He; [by apply not_elem_of_nil in He| |done].
  apply elem_of_cons in He as [?|He]; [done|]. destruct (all_ok body) as [x|]; [|done]. by eapply IH.
Qed.

(** C13: A push of a blob pulls.  Alone and with no failure, a push whose bytes are within the cap and
    hash to its digest succeeds, whatever the blob's record was, and the blob then resolves to an
    object that holds exactly those bytes. *)
Theorem pushed_blob_pulls o d body cap bytes w :
  plain_name o -> valid_digest d -> readable o d w -> nonce_ok (nonces (c_drawn w)) ->
  small_chunks body -> 0 <= cap <= i64_max ->
  all_ok body = Some bytes -> str_len bytes <= cap -> of_algo (algo d) bytes = Some d ->
  exists w' p v, run (finish_blob o (Digests.display d) body cap) w = Some (inl d, w') /\
    run (resolve o d) w' = Some (Ok (Some p), w') /\ view w' p = Some (bytes, v).
Proof using Type.
  intros Ho Hd Hrd Hn Hl Hc Hb Hle Hh. unfold finish_blob.
  rewrite (proj2 (digest_parse_some (Digests.display d) d)) by done.
  unfold new_generation, fresh_nonce. rewrite run_bind, run_bind, run_nonce. cbn [mbind option_bind Prog.run fst snd].
  set (i := nonces (c_drawn w)) in *. set (w0 := Calm (c_store w) (c_now w) (S (c_drawn w))).
  set (g := generation_path o d i). rewrite run_bind.
  destruct (run_pour g d body cap w0) as (r & w1 & -> & Hp); [done..|]. cbn [mbind option_bind].
  destruct r as [n|[| |e]]; cbn [poured_alone append] in Hp.
  - destruct Hp as (bytes' & Hb' & _ & _ & _ & ->). rewrite Hb in Hb'. injection Hb' as <-.
    assert (Hne : g <> state_path o d).
    { intros E. by pose proof (place_inj o Ho (PGeneration d i) (PState d) (conj Hd Hn) Hd E). }
    rewrite run_bind. destruct (run_install o d Ho Hd (put_at g bytes w0) g) as (w2 & -> & Hact & Hbes).
    { intros b v. rewrite view_put, decide_False by done. apply Hrd. }
    cbn [mbind option_bind Prog.run]. eexists w2, _, _. split; [done|].
    rewrite (run_resolve o d _ g) by done.
    change g with (place_path o (PGeneration d i)). rewrite place_path_from by (done || by split).
    split; [done|]. change (place_path o (PGeneration d i)) with g.
    rewrite Hbes by done. rewrite view_put. by rewrite decide_True.
  - destruct Hp as (_ & x & Hx & Hlt). pose proof (prefix_len body x bytes Hx Hb). lia.
  - destruct Hp as (_ & x & Hx & Hne). rewrite Hb in Hx. by injection Hx as <-.
  - destruct Hp as [_ He]. by destruct (all_ok_no_err body bytes e).
Qed.

(** ** The walk of an owner's manifests *)
Abbreviation manifests o := (path_from ("manifests/" +:+ o)).

Definition listed (w : calm_state) (prefix : path) : list path :=
  filter (fun q => is_true (under prefix q) /\ is_Some (view w q)) (map_to_list (MemStore.objs (c_store w))).*1.

Lemma listed_spec w prefix q : q ∈ listed w prefix <-> under prefix q = true /\ is_Some (view w q).
Proof using Type.
  unfold listed. rewrite list_elem_of_filter. unfold is_true. split; [tauto|]. intros [Hu Hv]. split; [done|].
  destruct (MemStore.objs (c_store w) !! q) as [v|] eqn:E; [|unfold MemStore.mview in Hv; rewrite E in Hv; by destruct Hv].
  apply list_elem_of_fmap. exists (q, v). split; [done|]. by apply elem_of_map_to_list.
Qed.

(** Some manifest of [ps] cannot be parsed. *)
Definition unreadable (w : calm_state) (ps : list path) : Prop :=
  exists p b v, p ∈ ps /\ view w p = Some (b, v) /\ from_slice b = None.

(** What the manifests at [ps] name or are. *)
Definition mentions (w : calm_state) (ps : list path) (s : string) : Prop :=
  exists p b v j, p ∈ ps /\ view w p = Some (b, v) /\ from_slice b = Some j /\
    (digest_from_path p = Some s \/ names j s).

Lemma run_read_references w ps : (forall p, p ∈ ps -> is_Some (view w p)) -> forall out,
  exists r, run (read_references ps out) w = Some (r, w) /\
    match r with
    | Ok keep => ~ unreadable w ps /\ forall s, s ∈ keep <-> s ∈ out \/ mentions w ps s
    | Err _ => unreadable w ps
    end.
Proof using Type.
  induction ps as [|p ps IH]; intros Hps out; cbn [read_references].
  - exists (Ok out). split; [done|]. split; [by intros (? & ? & ? & ?%not_elem_of_nil & _)|].
    intros s. split; [by left|]. by intros [?|(? & ? & ? & ? & ?%not_elem_of_nil & _)].
  - destruct (Hps p (list_elem_of_here _ _)) as [[b v] Hv].
    unfold get_bytes. rewrite run_bind_res, run_bind, run_get, Hv. cbn [mbind option_bind Prog.run].
    destruct (from_slice b) as [j|] eqn:Ej.
    + set (out' := match digest_from_path p with Some digest => {[ digest ]} ∪ out | None => out end).
      destruct (IH (fun q Hq => Hps q (list_elem_of_further _ _ _ Hq)) (collect j out')) as (r & Hr & Hpost).
      exists r. split; [exact Hr|]. destruct r as [keep|e].
      * destruct Hpost as [Hu Hs]. split.
        -- intros (q & b' & v' & [->|Hq]%elem_of_cons & Hv' & Hn); [|by apply Hu; exists q, b', v'].
           rewrite Hv in Hv'. injection Hv' as <- <-. by rewrite Ej in Hn.
        -- intros s. rewrite Hs, collect_names. unfold out', mentions. split.
           ++ intros [[Ho|Hn]|(q & b' & v' & j' & Hq & ?)].
              ** destruct (digest_from_path p) as [x|] eqn:Ex; [|by left].
                 apply elem_of_union in Ho as [->%elem_of_singleton|Ho]; [right|by left].
                 exists p, b, v, j. rewrite Ex. split; [left|]. auto.
              ** right. exists p, b, v, j. split; [left|]. auto.
              ** right. exists q, b', v', j'. split; [by right|done].
           ++ intros [Ho|(q & b' & v' & j' & [->|Hq]%elem_of_cons & Hv' & Hj' & Hor)].
              ** left. left. destruct (digest_from_path p); [|done]. apply elem_of_union. by right.
              ** rewrite Hv in Hv'. injection Hv' as <- <-. rewrite Ej in Hj'. injection Hj' as <-.
                 left. destruct Hor as [-> |Hn]; [left|by right]. apply elem_of_union. left. by apply elem_of_singleton.
              ** right. by exists q, b', v', j'.
      * destruct Hpost as (q & b' & v' & Hq & ?). exists q, b', v'. split; [by right|done].
    + eexists. split; [done|]. exists p, b, v. split; [left|done].
Qed.

Lemma run_referenced o w :
  exists r, run (referenced o) w = Some (r, w) /\
    match r with
    | Ok keep => ~ unreadable w (listed w (manifests o)) /\
                 forall s, s ∈ keep <-> mentions w (listed w (manifests o)) s
    | Err _ => unreadable w (listed w (manifests o))
    end.
Proof using Type.
  unfold referenced. rewrite run_bind_res, run_list.
  destruct (run_read_references w (listed w (manifests o))) with (out := ∅ : gset string) as (r & Hr & Hp).
  { intros p Hp. by apply listed_spec in Hp as [_ ?]. }
  exists r. split; [exact Hr|]. destruct r as [keep|e]; [|done]. destruct Hp as [Hu Hs]. split; [done|].
  intros s. rewrite Hs. split; [|by right]. intros [He|?]; [by apply not_elem_of_empty in He|done].
Qed.

(** What a sweep keeps is exact: a manifest under the owner that cannot be parsed makes the walk
    an error, and otherwise its answer holds a string exactly when one of the owner's manifests
    names it, at any depth and under any key [digest], or is stored under it. *)
Theorem referenced_exact o w :
  exists r, run (referenced o) w = Some (r, w) /\
    match r with
    | Ok keep =>
      (forall p b v, under (manifests o) p = true -> view w p = Some (b, v) -> is_Some (from_slice b)) /\
      forall s, s ∈ keep <->
        exists p b v j, under (manifests o) p = true /\ view w p = Some (b, v) /\
          from_slice b = Some j /\ (digest_from_path p = Some s \/ names j s)
    | Err _ => exists p b v, under (manifests o) p = true /\ view w p = Some (b, v) /\ from_slice b = None
    end.
Proof using Type.
  destruct (run_referenced o w) as (r & Hr & Hp). exists r. split; [exact Hr|]. destruct r as [keep|e].
  - destruct Hp as [Hu Hs]. split.
    + intros p b v Hpu Hv. destruct (from_slice b) as [j|] eqn:E; [done|]. exfalso. apply Hu.
      exists p, b, v. split; [apply listed_spec; by rewrite Hv|done].
    + intros s. rewrite Hs. split; intros (p & b & v & j & Hx & Hv & ?); exists p, b, v, j; (split; [|done]).
      * by apply listed_spec in Hx as [? _].
      * apply listed_spec. by rewrite Hv.
  - destruct Hp as (p & b & v & Hx & ?). exists p, b, v. split; [|done]. by apply listed_spec in Hx as [? _].
Qed.

(** ** A sweep that cannot read a manifest *)
Section sweep.
Variable o : string.
Hypothesis o_plain : plain_name o.
Abbreviation rp d := (state_path o d).

(** The active generation of [d]'s record. *)
Definition act (w : calm_state) (d : Digest) : option BlobGeneration :=
  bv ← view w (rp d); r ← record_from_slice bv.1; active r.

(** The key of a retired generation is no record's path and no manifest's. *)
Definition key_ok (k : string) : Prop :=
  (forall d, valid_digest d -> path_from k <> rp d) /\ under (manifests o) (path_from k) = false.

Definition keys_ok (w : calm_state) : Prop :=
  forall d r v k, valid_digest d -> record_at w (rp d) r v -> k ∈ retired_keys r -> key_ok k.

(** Active generations and manifests stay, and retired keys stay in their place. *)
Definition spares (w w' : calm_state) : Prop :=
  (forall d a, valid_digest d -> act w d = Some a -> act w' d = Some a) /\
  (forall p, under (manifests o) p = true -> view w' p = view w p) /\
  (keys_ok w -> keys_ok w').

Definition sparing {A} (p : prog (reg_eff nat) A) : Prop :=
  forall w r w', run p w = Some (r, w') -> spares w w'.

#[local] Instance spares_preorder : PreOrder spares.
Proof using Type.
  split; [by intros w|]. intros w1 w2 w3 (H1 & H2 & H3) (H1' & H2' & H3').
  split; [auto|]. split; [|auto]. intros p Hp. by rewrite H2', H2.
Qed.

Lemma spares_same w w' : (forall p, view w' p = view w p) -> spares w w'.
Proof using Type.
  intros H. split; [unfold act; intros d a Hd; by rewrite H|]. split; [auto|].
  intros Hk d r v k Hd (b & Hb & Hr). rewrite H in Hb. eapply Hk; [exact Hd|]. by exists b.
Qed.

Lemma sparing_ret {A} (a : A) : sparing (Ret a).
Proof using Type. intros w r w' [= _ <-]. reflexivity. Qed.

Lemma sparing_bind {A B} (p : prog (reg_eff nat) A) (f : A -> prog (reg_eff nat) B) :
  sparing p -> (forall a, sparing (f a)) -> sparing (bind p f).
Proof using Type.
  intros Hp Hf w r w'. rewrite run_bind. destruct (run p w) as [[a w1]|] eqn:E; [|done].
  intros H. etrans; [by eapply Hp|by eapply Hf].
Qed.

Lemma sparing_res {A B} (p : prog (reg_eff nat) (result A)) (f : A -> prog (reg_eff nat) (result B)) :
  sparing p -> (forall a, sparing (f a)) -> sparing (bind_res p f).
Proof using Type. intros Hp Hf. apply sparing_bind; [done|]. intros [a|e]; [apply Hf|apply sparing_ret]. Qed.

(** Effects that write nothing. *)
Definition silent {X} (e : reg_eff nat X) : bool :=
  match e with ROs _ (OPut _ _ _) | ROs _ (ODelete _) => false | _ => true end.

Lemma sparing_silent {X} (e : reg_eff nat X) : silent e = true -> sparing (trigger e).
Proof using Type.
  intros He w r w' H. apply spares_same. intros p. revert H.
  destruct e as [X [| | | |]| | | | |]; try done; cbn; intros [= _ <-]; done.
Qed.

Lemma record_path_inj d d' : valid_digest d -> valid_digest d' -> rp d = rp d' -> d = d'.
Proof using o_plain.
  intros Hd Hd' E. by pose proof (place_inj o o_plain (PState d) (PState d') Hd Hd' E) as [= ->].
Qed.

Lemma record_not_manifest d : valid_digest d -> under (manifests o) (rp d) = false.
Proof using o_plain.
  intros Hd. change (rp d) with (place_path o (PState d)). rewrite place_path_eq by done.
  change ("manifests/" +:+ o)%string with (join_path ["manifests"; o]).
  rewrite path_from_join; [|done|]; [reflexivity|]. repeat apply Forall_cons_2; [by split|done|constructor].
Qed.

(** Writing a record whose active generation is the one there, and whose retired ones are some of
    those there. *)
Lemma spares_record d r w :
  valid_digest d ->
  (forall a, act w d = Some a -> active r = Some a) ->
  (keys_ok w -> forall k, k ∈ retired_keys r -> key_ok k) ->
  spares w (put_at (rp d) (to_vec r) w).
Proof using o_plain.
  intros Hd Ha Hk. split; [|split].
  - intros d' a Hd' Hact. unfold act. rewrite view_put. case_decide as E.
    + apply record_path_inj in E; [|done..]. subst d'. cbn. rewrite from_to. cbn. by apply Ha.
    + exact Hact.
  - intros p Hp. rewrite view_put. case_decide as E; [|done]. subst p.
    by rewrite record_not_manifest in Hp.
  - intros Hw d' r' v' k Hd' (b & Hb & Hr) Hin. rewrite view_put in Hb. case_decide as E.
    + injection Hb as <- <-. rewrite from_to in Hr. injection Hr as <-. by apply Hk.
    + eapply Hw; [exact Hd'|by exists b|exact Hin].
Qed.

Lemma sparing_create d r : valid_digest d -> retired r = [] -> sparing (create (rp d) r).
Proof using o_plain.
  intros Hd Hr w x w'. unfold create. rewrite run_bind, run_put.
  destruct (view w (rp d)) as [[b v]|] eqn:E; cbn; intros [= _ <-]; [reflexivity|].
  apply spares_record; [done|unfold act; by rewrite E|].
  intros _ k. unfold retired_keys. rewrite Hr. by intros ?%not_elem_of_nil.
Qed.

Lemma sparing_read p : sparing (read p).
Proof using Type. apply sparing_bind; [by apply sparing_silent|]. intros x. apply sparing_ret. Qed.

Lemma sparing_load d : valid_digest d -> sparing (load o d).
Proof using o_plain.
  intros Hd. apply sparing_res; [apply sparing_read|]. intros [l|]; [apply sparing_ret|].
  apply sparing_bind; [by apply sparing_silent|]. intros [t| |e]; try apply sparing_ret.
  apply sparing_bind; [by apply sparing_silent|]. intros n.
  apply sparing_res; [by apply sparing_create|]. intros _. apply sparing_read.
Qed.

(** A record read and written back with its active generation and some of its retired ones. *)
Lemma sparing_rewrite {A} d (k : option Loaded -> prog (reg_eff nat) (result (option A))) :
  valid_digest d -> sparing (k None) ->
  (forall l, sparing (k (Some l)) \/
    exists r a, k (Some l) = store_record (rp d) r (version l) a /\ active r = active (record l) /\
      forall x, x ∈ retired_keys r -> x ∈ retired_keys (record l)) ->
  sparing (let!? loaded := read (rp d) in k loaded).
Proof using o_plain.
  intros Hd Hnone Hsome w x w'. rewrite run_bind_res.
  destruct (view w (rp d)) as [[b v]|] eqn:E; [|rewrite run_read_none by done; apply Hnone].
  destruct (record_from_slice b) as [r|] eqn:Er.
  2:{ unfold read. rewrite run_bind, run_get, E. cbn. rewrite Er. intros [= _ <-]. reflexivity. }
  rewrite (run_read w (rp d) r v) by (by exists b).
  destruct (Hsome (mkLoaded r v)) as [Hk|(r' & a & -> & Ha & Hk)]; [by apply Hk|]. cbn [record version] in *.
  unfold store_record, fresh_nonce. rewrite run_bind, run_nonce. cbn [mbind option_bind].
  rewrite run_bind_res. set (w0 := Calm (c_store w) (c_now w) (S (c_drawn w))).
  rewrite (run_update w0 (rp d) _ v b E). cbn. intros [= _ <-].
  apply (spares_record d _ w0); [done| |].
  - unfold act. intros a0. change (view w0 (rp d)) with (view w (rp d)). rewrite E. cbn. rewrite Er. cbn. by rewrite Ha.
  - intros Hw y Hin. eapply (Hw d r v); [done|by exists b|by apply Hk].
Qed.

Lemma sparing_attempts {A} (body : prog (reg_eff nat) (result (option A))) s n : forall m,
  sparing body -> sparing (attempts n m body s).
Proof using Type.
  induction n as [|n IH]; intros m Hb; [apply sparing_ret|]. cbn [attempts].
  apply sparing_res; [done|]. intros [a|]; [apply sparing_ret|].
  apply sparing_bind; [|intros _; by apply IH].
  apply sparing_bind; [by apply sparing_silent|]. intros r. by apply sparing_silent.
Qed.

Lemma sparing_delete p : (forall d, valid_digest d -> p <> rp d) -> under (manifests o) p = false ->
  sparing (trigger (ROs _ (ODelete p))).
Proof using Type.
  intros Hd Hm w r w'. cbn. destruct (view w p) as [[b v]|] eqn:E; cbn; intros [= _ <-];
    [|apply spares_same; by destruct w].
  assert (Hv : forall q, q <> p -> view (Calm (MemStore.Mem (delete p (MemStore.objs (c_store w)))
    (MemStore.log (c_store w)) (MemStore.clock (c_store w))) (c_now w) (c_drawn w)) q = view w q).
  { intros q Hq. cbn [c_store]. rewrite MemStore.mdelete_view. by rewrite decide_False. }
  split; [|split].
  - intros d a Hv' Ha. unfold act. rewrite Hv; [done|]. intros Heq. by apply (Hd d).
  - intros q Hq. apply Hv. intros ->. by rewrite Hm in Hq.
  - intros Hw d r0 v0 k Hv' (b0 & Hb & Hr). rewrite Hv in Hb; [|intros Heq; by apply (Hd d)].
    eapply Hw; [exact Hv'|by exists b0].
Qed.

Lemma sparing_delete_retired d k : valid_digest d -> key_ok k -> sparing (delete_retired o d k).
Proof using o_plain.
  intros Hd [Hk Hm]. unfold delete_retired. apply sparing_bind; [by apply sparing_delete|].
  intros [| |e]; [| |apply sparing_ret]; (apply sparing_attempts, sparing_rewrite; [done|apply sparing_ret|];
    intros l; right; eexists _, _; split; [reflexivity|]; split; [done|];
    unfold retired_keys; cbn [retired]; intros x (r & -> & Hr%list_elem_of_In)%list_elem_of_fmap;
    apply filter_In in Hr as [Hr%list_elem_of_In _]; apply list_elem_of_fmap; eauto).
Qed.

Lemma stamp_first_same key t l : forall l', stamp_first key t l = Some l' ->
  map r_physical_key l' = map r_physical_key l.
Proof using Type.
  induction l as [|r l IH]; cbn; intros l'; [done|]. destruct (String.eqb _ key).
  - destruct (negb _); [done|]. by intros [= <-].
  - destruct (stamp_first key t l) as [l0|]; [|done]. intros [= <-]. cbn. by rewrite (IH l0).
Qed.

Lemma sparing_stamp d k t : valid_digest d -> sparing (stamp_retired o d k t).
Proof using o_plain.
  intros Hd. apply sparing_attempts, sparing_rewrite; [done|apply sparing_ret|]. intros l. cbv zeta.
  destruct (stamp_first k t (retired (record l))) as [l'|] eqn:E; [right|left; apply sparing_ret].
  eexists _, _. split; [reflexivity|]. split; [done|]. intros x. unfold retired_keys. cbn [retired].
  by rewrite (stamp_first_same _ _ _ _ E).
Qed.

(** What a listing of the candidates holds. *)
Definition listed_candidates (w : calm_state) (cs : list (Digest * BlobRecord * nat)) : Prop :=
  Forall (fun c => valid_digest c.1.1 /\ record_at w (rp c.1.1) c.1.2 c.2) cs.

Lemma listed_keys w cs : keys_ok w -> listed_candidates w cs ->
  Forall (fun c => valid_digest c.1.1 /\ Forall (fun r => key_ok (r_physical_key r)) (retired c.1.2)) cs.
Proof using Type.
  intros Hw H. eapply Forall_impl; [exact H|]. intros c [Hd Hr]. split; [done|].
  rewrite Forall_forall. intros r Hin. eapply Hw; [exact Hd|exact Hr|]. apply list_elem_of_fmap. eauto.
Qed.

Lemma state_digest_at d p : state_digest o p = Some d -> valid_digest d /\ p = rp d.
Proof using o_plain.
  unfold state_digest. destruct (strip_prefix _ p) as [rest|] eqn:Er; [|done]. cbn [mbind option_bind].
  apply strip_prefix_some in Er as ->.
  destruct (split "/" rest) as [|a [|h [|]]] eqn:Es; try done. intros Hp.
  pose proof (digest_parse_valid _ _ Hp) as Hd. apply digest_parse_halves in Hp as [-> ->].
  split; [done|]. change (rp d) with (place_path o (PState d)).
  rewrite (place_path_eq o o_plain (PState d)) by done.
  rewrite <- (join_split rest), Es. cbn [join_path place_segments]. cbn. by rewrite append_assoc.
Qed.

Lemma run_read_candidates w ps : forall out r w', listed_candidates w out ->
  run (read_candidates o ps out) w = Some (r, w') ->
  w' = w /\ match r with Ok cs => listed_candidates w cs | Err _ => True end.
Proof using o_plain.
  induction ps as [|p ps IH]; intros out r w' Hout; cbn [read_candidates]; [by intros [= <- <-]|].
  destruct (state_digest o p) as [d|] eqn:Ed; [|by apply IH]. apply state_digest_at in Ed as [Hd ->].
  rewrite run_bind_res. destruct (view w (rp d)) as [[b v]|] eqn:E.
  - destruct (record_from_slice b) as [x|] eqn:Ex.
    + rewrite (run_read w (rp d) x v) by (by exists b). apply IH. apply Forall_app. split; [done|].
      apply Forall_singleton. split; [done|]. by exists b.
    + unfold read. rewrite run_bind, run_get, E. cbn. rewrite Ex. by intros [= <- <-].
  - rewrite run_read_none by done. by apply IH.
Qed.

Lemma run_candidates w r w' : run (candidates o) w = Some (r, w') ->
  w' = w /\ match r with Ok cs => listed_candidates w cs | Err _ => True end.
Proof using o_plain.
  unfold candidates. rewrite run_bind_res, run_list. apply run_read_candidates. constructor.
Qed.

Lemma sparing_for_each {A} (f : A -> prog (reg_eff nat) (result unit)) l :
  (forall a, a ∈ l -> sparing (f a)) -> sparing (for_each f l).
Proof using Type.
  induction l as [|a l IH]; intros Hf; [apply sparing_ret|]. cbn [for_each].
  apply sparing_res; [apply Hf; left|]. intros _. apply IH. intros x Hx. apply Hf. by right.
Qed.

Lemma sparing_sweep_all c0 t (c : Digest * BlobRecord * nat) :
  valid_digest c.1.1 -> Forall (fun r => key_ok (r_physical_key r)) (retired c.1.2) ->
  sparing (sweep_all_retired o c0 t c).
Proof using o_plain.
  intros Hd Hk. apply sparing_for_each. intros r Hr. rewrite Forall_forall in Hk. unfold sweep_retired.
  destruct (0 <? retired_at r); [destruct (retired_at r <=? c0)|]; [|apply sparing_ret|by apply sparing_stamp].
  apply sparing_delete_retired; [done|by apply Hk].
Qed.

Lemma sparing_adopt ps : forall known adopted, sparing (adopt_legacy o ps known adopted).
Proof using o_plain.
  induction ps as [|p ps IH]; intros known adopted; cbn [adopt_legacy]; [apply sparing_ret|].
  destruct (s ← digest_from_path p; Digests.parse s) as [d|] eqn:Ed; [|apply IH].
  destruct (bool_decide _); [apply IH|].
  destruct (digest_from_path p) as [s|]; [|done]. apply digest_parse_valid in Ed.
  apply sparing_res; [|intros _; apply IH]. apply sparing_res; [by apply sparing_load|].
  intros l. apply sparing_ret.
Qed.

Lemma sparing_find_old representable c0 cs : forall old, sparing (find_old representable c0 cs old).
Proof using Type.
  induction cs as [|[[d r] v] cs IH]; intros old; cbn [find_old]; [apply sparing_ret|].
  destruct (active r) as [a|]; [|apply IH]. destruct (has_live_pin a c0); [apply IH|].
  apply sparing_res; [|intros b; apply IH]. unfold installed_before.
  destruct (0 <? installed_at a); [apply sparing_ret|].
  apply sparing_bind; [by apply sparing_silent|]. intros [t| |e]; apply sparing_ret.
Qed.

(** A sweep that meets a manifest it cannot parse collects nothing: it ends with an error or
    with nothing collected, every blob keeps its active generation, and the manifests stay. *)
Theorem unreadable_manifest_stops_sweep representable grace w p b v :
  keys_ok w -> under (manifests o) p = true -> view w p = Some (b, v) -> from_slice b = None ->
  exists r w', run (sweep_owner representable o grace) w = Some (r, w') /\
    (r = Ok 0 \/ exists e, r = Err e) /\
    (forall d a, valid_digest d -> act w d = Some a -> act w' d = Some a) /\
    (forall q, under (manifests o) q = true -> view w' q = view w q).
Proof using o_plain.
  intros Hw Hp Hv Hb. destruct (calm_total (sweep_owner representable o grace) w) as (r & w' & Hr).
  exists r, w'. split; [done|]. enough (spares w w' /\ (r = Ok 0 \/ exists e, r = Err e)) as [(?&?&?) ?] by done.
  revert Hr. unfold sweep_owner. do 2 (rewrite run_bind, run_now; cbn [mbind option_bind]).
  set (c0 := c_now w - grace). rewrite run_bind_res.
  destruct (run (candidates o) w) as [[first w1]|] eqn:E1; [|done]. apply run_candidates in E1 as [-> Hf].
  destruct first as [first|e]; [|intros [= <- <-]; split; [reflexivity|by right; exists e]].
  rewrite run_bind_res, run_list, run_bind_res.
  match goal with |- context [adopt_legacy o ?l ?k false] => set (ps := l); set (kn := k) end.
  destruct (run (adopt_legacy o ps kn false) w) as [[ad w1]|] eqn:E2; [|done].
  assert (S1 : spares w w1) by (by eapply sparing_adopt).
  destruct ad as [ad|e]; [|intros [= <- <-]; split; [done|by right; exists e]].
  rewrite run_bind_res.
  destruct (run (if ad then candidates o else Ret (Ok first)) w1) as [[cs w2]|] eqn:E3; [|done].
  assert (S2 : spares w w2 /\ match cs with
    | Ok cs => Forall (fun c => valid_digest c.1.1 /\ Forall (fun r => key_ok (r_physical_key r)) (retired c.1.2)) cs
    | Err _ => True end).
  { destruct ad.
    - apply run_candidates in E3 as [-> Hc]. split; [done|]. destruct cs as [cs|e]; [|done].
      eapply listed_keys; [by apply S1|exact Hc].
    - injection E3 as <- <-. split; [done|]. by apply (listed_keys w). }
  destruct S2 as [S2 Hcs]. clear E3.
  destruct cs as [cs|e]; [|intros [= <- <-]; split; [done|by right; exists e]].
  rewrite run_bind_res.
  destruct (run (find_old representable c0 cs ∅) w2) as [[old w3]|] eqn:E4; [|done].
  assert (S3 : spares w w3) by (etrans; [exact S2|by eapply sparing_find_old]).
  destruct old as [old|e]; [|intros [= <- <-]; split; [done|by right; exists e]].
  destruct (bool_decide (old = ∅)).
  - rewrite run_bind_res.
    destruct (run (for_each (sweep_all_retired o c0 (c_now w)) cs) w3) as [[x w4]|] eqn:E5; [|done].
    assert (S4 : spares w w4).
    { etrans; [exact S3|]. eapply sparing_for_each; [|exact E5]. intros c Hc.
      rewrite Forall_forall in Hcs. apply Hcs in Hc as [? ?]. by apply sparing_sweep_all. }
    destruct x as [[]|e]; cbn; intros [= <- <-]; (split; [done|]); [by left|right; by exists e].
  - rewrite run_bind_res. destruct (run_referenced o w3) as (x & -> & Hx).
    destruct x as [keep|e]; [|intros [= <- <-]; split; [done|right; by exists e]].
    exfalso. destruct Hx as [Hx _]. apply Hx. destruct S3 as (_ & Hm & _).
    exists p, b, v. rewrite Hm by done. split; [|done]. apply listed_spec. split; [done|]. rewrite Hm by done. by rewrite Hv.
Qed.
End sweep.
End alone.
