(* ===== verification/Upload.v ===== *)
(** * Upload: resumable uploads, [crates/registry/src/uploads.rs]

    A session is a staging object and, on a backend with resumable multipart uploads, a sidecar
    beside it with the upload's id, the parts accepted so far and the tail that is too short for a
    part.  Each handler is a program over the registry's effects and the multipart store's; the
    per-session lock is why a handler runs alone on its session.  Authentication, and the HTTP
    headers of the answers, are left out; the image's rows are calls ([RCall]). *)

From S2P Require Import Prelude Text Names Prog ObjStore Oci BlobState Pour.
Local Open Scope string_scope.
Local Open Scope Z_scope.

(** ** Effects of the multipart store, and of the object store where sizes and streams matter *)
Inductive mp_eff : Type -> Type :=
| MSize (p : path) : mp_eff (result (option Z))
| MStream (p : path) : mp_eff (result (option (Z * list (result string))))
| MCopy (p q : path) : mp_eff (result unit)
| MCreate (p : path) : mp_eff (result string)
| MPart (p : path) (id : string) (idx : nat) (b : string) : mp_eff (result string)
| MComplete (p : path) (id : string) (parts : list string) : mp_eff (result unit)
| MAbort (p : path) (id : string) : mp_eff (result unit)
(** A listing with the time of each object, or an error in its place. *)
| MTimes (prefix : path) : mp_eff (list (result (path * Z))).

Inductive up_eff (V : Type) : Type -> Type :=
| UReg (X : Type) (e : reg_eff V X) : up_eff V X
| UMp (X : Type) (e : mp_eff X) : up_eff V X.
Arguments UReg {V} X e.
Arguments UMp {V} X e.

(** ** The sidecar *)
Record Meta := mkMeta { m_id : string; m_parts : list string; m_len : Z }.
Record Sidecar := mkSidecar { meta : Meta; tail : string }.

(** [serde_json] on [Meta]: read back what was written, on one line. *)
Class MetaSerde := {
  meta_to_vec : Meta -> string;
  meta_from_slice : string -> option Meta;
  meta_from_to : forall m, meta_from_slice (meta_to_vec m) = Some m;
  meta_one_line : forall m, contains_char nl (meta_to_vec m) = false;
}.

Module Sidecars.
Definition received (s : Sidecar) : Z := u64_add (m_len (meta s)) (str_len (tail s)).

Section serde.
Context `{MetaSerde}.

Definition encode (s : Sidecar) : string := meta_to_vec (meta s) +:+ String nl (tail s).

Definition decode (raw : string) : result Sidecar :=
  match split_once nl raw with
  | None => Err (EMsg "upload sidecar has no header")
  | Some (header, tail) =>
    match meta_from_slice header with
    | Some m => Ok (mkSidecar m tail)
    | None => Err (EMsg "json")
    end
  end.
End serde.
End Sidecars.

Definition valid_uuid (s : string) : bool :=
  negb (String.eqb s "") && (str_len s <=? 64) &&
  all_chars (fun c => ascii_alphanumeric c || Ascii.eqb c "-") s.

(** ** Answers *)
Inductive up_answer : Type :=
| Accepted (len : Z)
| Created (d : Digest)
| Progress (len : Z)
| Cancelled
| UploadUnknown
| RangeNotSatisfiable (have : Z)
| RangeInvalid
| LengthMismatch
| LayerTooLarge
| DigestRefused
| UploadInternal (e : error).

Definition refused (r : Refused) : up_answer :=
  match r with
  | TooLarge => LayerTooLarge
  | WrongDigest => UploadInternal (EMsg "digest refused on a chunk")
  | Failed e => UploadInternal e
  end.

(** The length a [Content-Range] declares, or the answer that refuses it. *)
Definition declared_chunk (content_range : option string) (have : Z) : option Z + up_answer :=
  match content_range with
  | None => inl None
  | Some cr =>
    let cr := trim_start_str "bytes " cr in
    let cr := match split_once "/" cr with Some (range, _) => range | None => cr end in
    let parts := split "-" cr in
    let start := unwrap_or (s ← List.nth_error parts 0; ok_parse (parse_u64 s)) u64_max in
    let end_ := s ← List.nth_error parts 1; ok_parse (parse_u64 s) in
    if negb (start =? have) then inr (RangeNotSatisfiable have)
    else match end_ with
         | None => inl None
         | Some end_ =>
           if (end_ + 1 <=? u64_max) && (have <=? end_ + 1) then inl (Some (end_ + 1 - have))
           else inr RangeInvalid
         end
  end.

Definition content_length (h : option string) : option Z := v ← h; ok_parse (parse_u64 v).

(** A declared length that is not the [Content-Length]. *)
Definition lengths_differ (declared content_length : option Z) : bool :=
  match declared, content_length with
  | Some d, Some cl => negb (d =? cl)
  | _, _ => false
  end.

(** What is answered once the session holds [len] bytes, where it held [have]. *)
Definition advanced (have : Z) (declared : option Z) (len : Z) (done : up_answer) : up_answer :=
  if have <=? len
  then if is_some_and declared (fun d => negb (d =? len - have)) then LengthMismatch else done
  else UploadUnknown.

Definition tail_then (tail : string) (body : list (result string)) : list (result string) := Ok tail :: body.

Section programs.
Context {V : Type} `{EqDecision V} `{PathFrom} `{RecordSerde} `{Sha} `{MetaSerde}.
Abbreviation P := (prog (up_eff V)).
Abbreviation os e := (trigger (UReg _ (ROs _ e))).
Abbreviation mp e := (trigger (UMp _ e)).
Abbreviation reg p := (lift (E' := up_eff V) (fun X e => UReg X e) p).

(** The image's coordinates, whether there is a multipart store, and the layer cap. *)
Variables (owner name : string) (has_mp : bool) (max_layer : Z).

Definition staging (uuid : string) : path := path_from ("uploads/" +:+ owner +:+ "/" +:+ name +:+ "/" +:+ uuid).
Definition sidecar_path (uuid : string) : path :=
  path_from ("uploads/" +:+ owner +:+ "/" +:+ name +:+ "/" +:+ uuid +:+ ".parts").

(** The staging object says a session exists; the sidecar, if any, what it holds. *)
Definition session (uuid : string) : P (result (option (Z * option Sidecar))) :=
  let!? staged_len := mp (MSize (staging uuid)) in
  match staged_len with
  | None => Ret (Ok None)
  | Some staged_len =>
    let! x := os (OGet (sidecar_path uuid)) in
    Ret match x with
        | GetOk raw _ => rbind (Sidecars.decode raw) (fun sc => Ok (Some (Sidecars.received sc, Some sc)))
        | GetNotFound => Ok (Some (staged_len, None))
        | GetErr e => Err e
        end
  end.

Definition received (uuid : string) : P (result (option Z)) :=
  let!? s := session uuid in Ret (Ok (fst <$> s)).

(** The parts accepted, the bytes they hold, and what is left for a tail. *)
Fixpoint put_parts (p : path) (id : string) (next_idx : nat) (src : list (result string)) (last : bool)
    (room : Z) (ids : list string) (parted : Z) (buf : string) : P ((list string * Z * string) + Refused) :=
  match src with
  | [] =>
    if last && negb (String.eqb buf "") then
      let! part := mp (MPart p id next_idx buf) in
      Ret match part with
          | Ok c => inl ((ids ++ [c])%list, u64_add parted (str_len buf), "")
          | Err e => inr (Failed e)
          end
    else Ret (inl (ids, parted, buf))
  | Err e :: _ => Ret (inr (Failed e))
  | Ok chunk :: src =>
    if room <? str_len chunk then Ret (inr TooLarge)
    else
      let room := room - str_len chunk in
      let buf := buf +:+ chunk in
      if MIN_PART <=? str_len buf then
        let! part := mp (MPart p id next_idx buf) in
        match part with
        | Ok c => put_parts p id (S next_idx) src last room (ids ++ [c])%list (u64_add parted (str_len buf)) ""
        | Err e => Ret (inr (Failed e))
        end
      else put_parts p id next_idx src last room ids parted buf
  end.

(** Staging object first. *)
Definition discard (uuid : string) (sc : option Sidecar) : P unit :=
  os (ODelete (staging uuid)) ;;!
  match sc with
  | Some sc => if has_mp then mp (MAbort (staging uuid) (m_id (meta sc))) ;;! Ret tt else Ret tt
  | None => Ret tt
  end ;;!
  os (ODelete (sidecar_path uuid)) ;;! Ret tt.

(** [put_opts] of an overwrite, for its error only. *)
Definition overwrite (p : path) (b : string) : P (result unit) :=
  let! x := os (OPut p b PutOverwrite) in
  Ret match x with
      | PutOk _ => Ok tt
      | PutErr e => Err e
      | PutAlreadyExists | PutPrecondition => Err (EStore "precondition")
      end.

Definition open_session : P up_answer :=
  let! uuid := reg fresh_nonce in
  let! touched := reg (trigger (RCall "touch_image")) in
  match touched with
  | Err e => Ret (UploadInternal e)
  | Ok _ =>
    let! x := overwrite (staging uuid) "" in
    Ret match x with Ok _ => Accepted 0 | Err e => UploadInternal e end
  end.

(** ** PATCH *)
Definition sat_room (len : Z) : Z := sat_sub max_layer len.

Definition patch_part (uuid : string) (sc : option Sidecar) (body : list (result string)) : P (Z + up_answer) :=
  let path := staging uuid in
  let fresh := is_none sc in
  let! opened := match sc with
                 | Some s => Ret (Ok (meta s, tail s))
                 | None => let!? id := mp (MCreate path) in Ret (Ok (mkMeta id [] 0, ""))
                 end in
  match opened with
  | Err e => Ret (inr (UploadInternal e))
  | Ok (m, tail) =>
    let! put := put_parts path (m_id m) (List.length (m_parts m)) (tail_then tail body) false
                  (sat_room (m_len m)) [] 0 "" in
    match put with
    | inr e =>
      (if fresh then mp (MAbort path (m_id m)) ;;! Ret tt else Ret tt) ;;! Ret (inr (refused e))
    | inl (ids, parted, tail) =>
      let sc := mkSidecar (mkMeta (m_id m) (m_parts m ++ ids)%list (u64_add (m_len m) parted)) tail in
      let! x := overwrite (sidecar_path uuid) (Sidecars.encode sc) in
      Ret match x with Ok _ => inl (Sidecars.received sc) | Err e => inr (UploadInternal e) end
    end
  end.

(** The session's bytes so far, as a stream. *)
Definition staged (p : path) : P (result (option (Z * list (result string)))) := mp (MStream p).

Definition patch_append (uuid : string) (body : list (result string)) : P (Z + up_answer) :=
  let! src := staged (staging uuid) in
  match src with
  | Err e => Ret (inr (UploadInternal e))
  | Ok None => Ret (inr UploadUnknown)
  | Ok (Some (_, s)) =>
    let! x := reg (pour (staging uuid) None (s ++ body)%list max_layer) in
    Ret match x with inl len => inl len | inr e => inr (refused e) end
  end.

Definition patch (uuid : string) (content_range length_header : option string) (body : list (result string)) :
    P up_answer :=
  if negb (valid_uuid uuid) then Ret UploadUnknown
  else
    let! s := session uuid in
    match s with
    | Err e => Ret (UploadInternal e)
    | Ok None => Ret UploadUnknown
    | Ok (Some (have, sc)) =>
      match declared_chunk content_range have with
      | inr a => Ret a
      | inl declared =>
        if lengths_differ declared (content_length length_header) then Ret LengthMismatch
        else
          let! len := if has_mp && (is_some sc || (have =? 0)) then patch_part uuid sc body
                      else patch_append uuid body in
          Ret match len with
              | inr a => a
              | inl len => advanced have declared len (Accepted len)
              end
      end
    end.

Definition status (uuid : string) : P up_answer :=
  if negb (valid_uuid uuid) then Ret UploadUnknown
  else
    let! n := received uuid in
    Ret match n with
        | Ok (Some n) => Progress n
        | Ok None => UploadUnknown
        | Err e => UploadInternal e
        end.

Definition cancel (uuid : string) : P up_answer :=
  if negb (valid_uuid uuid) then Ret UploadUnknown
  else
    let! s := session uuid in
    discard uuid (match s with Ok (Some (_, sc)) => sc | _ => None end) ;;! Ret Cancelled.

(** ** PUT: completion *)
Fixpoint hash_all (src : list (result string)) (h : BlockingHasher) : P (result BlockingHasher) :=
  match src with
  | [] => Ret (Ok h)
  | Err e :: _ => Ret (Err e)
  | Ok chunk :: src => let!? h := reg (hasher_update chunk h) in hash_all src h
  end.

(** The assembled object is verified where it was staged, then copied to its generation. *)
Definition verify_copy (uuid : string) (d : Digest) : P (Z + up_answer) :=
  let! src := staged (staging uuid) in
  match src with
  | Err e => Ret (inr (UploadInternal e))
  | Ok None => Ret (inr UploadUnknown)
  | Ok (Some (size, src)) =>
    if max_layer <? size then Ret (inr LayerTooLarge)
    else match hasher_new (algo d) with
    | None => Ret (inr DigestRefused)
    | Some h =>
      let! got := (let!? h := hash_all src h in reg (hasher_finish h)) in
      match got with
      | Err e => Ret (inr (UploadInternal e))
      | Ok got =>
        if negb (bool_decide (got = d)) then Ret (inr DigestRefused)
        else
          let! generation := reg (new_generation owner d) in
          let! copied := mp (MCopy (staging uuid) generation.2) in
          match copied with
          | Err e => Ret (inr (UploadInternal e))
          | Ok _ =>
            let! installed := reg (install owner d generation.2) in
            Ret match installed with Err e => inr (UploadInternal e) | Ok _ => inl size end
          end
      end
    end
  end.

Definition complete_parts (uuid : string) (d : Digest) (sc : Sidecar) (body : list (result string)) :
    P (Z + up_answer) :=
  let path := staging uuid in
  if negb has_mp then Ret (inr (UploadInternal (EMsg "upload session needs a multipart store")))
  else
    let m := meta sc in
    let! put := put_parts path (m_id m) (List.length (m_parts m)) (tail_then (tail sc) body) true
                  (sat_room (m_len m)) [] 0 "" in
    match put with
    | inr e => Ret (inr (refused e))
    | inl (ids, _, _) =>
      match (m_parts m ++ ids)%list with
      | [] =>
        mp (MAbort path (m_id m)) ;;! os (ODelete (sidecar_path uuid)) ;;! Ret (inr DigestRefused)
      | parts =>
        let! assembled := mp (MComplete path (m_id m) parts) in
        match assembled with
        | Err e => Ret (inr (UploadInternal e))
        | Ok _ => os (ODelete (sidecar_path uuid)) ;;! verify_copy uuid d
        end
      end
    end.

(** With no sidecar the staged bytes and the body are poured at the generation. *)
Definition complete_staged (uuid : string) (d : Digest) (body : list (result string)) : P (Z + up_answer) :=
  let! src := staged (staging uuid) in
  match src with
  | Err e => Ret (inr (UploadInternal e))
  | Ok None => Ret (inr UploadUnknown)
  | Ok (Some (_, s)) =>
    let! generation := reg (new_generation owner d) in
    let! len := reg (pour generation.2 (Some d) (s ++ body)%list max_layer) in
    match len with
    | inr TooLarge => Ret (inr LayerTooLarge)
    | inr WrongDigest => Ret (inr DigestRefused)
    | inr (Failed e) => Ret (inr (UploadInternal e))
    | inl len =>
      let! installed := reg (install owner d generation.2) in
      Ret match installed with Err e => inr (UploadInternal e) | Ok _ => inl len end
    end
  end.

Definition complete (uuid digest : string) (content_range length_header : option string)
    (body : list (result string)) : P up_answer :=
  if negb (valid_uuid uuid) then Ret UploadUnknown
  else match Digests.parse digest with
  | None => Ret DigestRefused
  | Some d =>
    let! s := session uuid in
    match s with
    | Err e => Ret (UploadInternal e)
    | Ok None => Ret UploadUnknown
    | Ok (Some (have, sc)) =>
      match declared_chunk content_range have with
      | inr a => Ret a
      | inl declared =>
        if lengths_differ declared (content_length length_header) then Ret LengthMismatch
        else
          let! len := match sc with
                      | Some sc => complete_parts uuid d sc body
                      | None => complete_staged uuid d body
                      end in
          match len with
          | inr a => Ret a
          | inl len =>
            match advanced have declared len (Created d) with
            | Created _ =>
              let! held := reg (trigger (RCall "hold_blob")) in
              match held with
              | Err e => Ret (UploadInternal e)
              | Ok _ => discard uuid None ;;! Ret (Created d)
              end
            | a => Ret a
            end
          end
      end
    end
  end.
End programs.

(** ** Abandoned sessions *)

(** [trim_end_matches(".parts")]; [n] bounds its repetitions. *)
Fixpoint trim_parts (n : nat) (s : string) : string :=
  match n with
  | O => s
  | S n => match strip_suffix ".parts" s with Some r => trim_parts n r | None => s end
  end.

Definition session_of (location : path) : string := trim_parts (String.length location) location.

(** When each session was last active, of a listing with the times of its objects. *)
Definition last_activity (objects : list (path * Z)) : gmap string Z :=
  fold_left (fun m x =>
    let s := session_of x.1 in
    <[s := match m !! s with Some t => Z.max t x.2 | None => x.2 end]> m) objects ∅.

Definition stale (activity : gmap string Z) (cutoff : Z) (x : path * Z) : bool :=
  negb (is_some_and (activity !! session_of x.1) (fun t => cutoff <? t)).

Section sweep.
Context {V : Type} `{PathFrom} `{MetaSerde}.
Abbreviation P := (prog (up_eff V)).
Abbreviation os e := (trigger (UReg _ (ROs _ e))).
Abbreviation mp e := (trigger (UMp _ e)).
Variable has_mp : bool.

(** One object of an abandoned session: a sidecar's upload is aborted if the sidecar can be read. *)
Definition sweep_object (location : path) : P bool :=
  (if ends_with ".parts" location && has_mp
   then
     let! x := os (OGet location) in
     match x with
     | GetOk raw _ =>
       match Sidecars.decode raw with
       | Ok sc => mp (MAbort (path_from (session_of location)) (m_id (meta sc))) ;;! Ret tt
       | Err _ => Ret tt
       end
     | _ => Ret tt
     end
   else Ret tt) ;;!
  let! x := os (ODelete location) in
  Ret match x with DelOk => true | DelNotFound | DelErr _ => false end.

Fixpoint sweep_objects (activity : gmap string Z) (cutoff : Z) (objects : list (path * Z)) (n : Z) : P Z :=
  match objects with
  | [] => Ret n
  | x :: objects =>
    if negb (stale activity cutoff x) then sweep_objects activity cutoff objects n
    else let! deleted := sweep_object x.1 in
         sweep_objects activity cutoff objects (if deleted then n + 1 else n)
  end.

Definition read_entries (listing : list (result (path * Z))) : list (path * Z) :=
  omap (fun r => match r with Ok x => Some x | Err _ => None end) listing.

(** An entry that cannot be read is skipped. *)
Definition sweep_stale_uploads (owner : string) (now grace : Z) : P Z :=
  let! listing := mp (MTimes (path_from ("uploads/" +:+ owner))) in
  let objects := read_entries listing in
  sweep_objects (last_activity objects) (now - grace) objects 0.
End sweep.
