(* ===== verification/UploadSafe.v ===== *)
(** * UploadSafe: an upload session keeps exactly the bytes it accepted

    [holds s uuid bytes] says the store stands for a session of [bytes]: in the staging object, or in
    accepted parts and a tail.  [patch_appends]: a chunk is appended whole or not at all, and the
    answer tells which.  [completed_bytes_right]: a completed upload is installed with exactly the
    session's bytes, checked against the digest.  What the multipart store promises is the class
    [MultipartStore]: a part goes to its slot, and completion assembles the slots it is given. *)

From S2P Require Import Prelude Text Names Prog Sched ObjStore Oci BlobState Pour BlobWorld RegistryLocal OciProps RegistryAlone Upload.
Local Open Scope string_scope.
Local Open Scope Z_scope.

Fixpoint concat_all (bs : list string) : string :=
  match bs with [] => "" | b :: bs => b +:+ concat_all bs end.

Lemma concat_all_app a b : concat_all (a ++ b) = (concat_all a +:+ concat_all b)%string.
Proof. induction a as [|x a IH]; cbn; [done|]. by rewrite IH, append_assoc. Qed.

Definition total (bs : list string) : Z := sum_z (map str_len bs).

#[local] Arguments total : simpl never.

Lemma total_cons b bs : total (b :: bs) = str_len b + total bs.
Proof. done. Qed.

Lemma total_concat bs : total bs = str_len (concat_all bs).
Proof.
  unfold total. induction bs as [|b bs IH]; [done|]. cbn [map sum_z fold_right concat_all].
  fold (sum_z (map str_len bs)). rewrite str_len_app, IH. done.
Qed.

(** ** The multipart store *)
Section laws.
Context {V S : Type} `{HO : ObjectStore V S}.
(** The part an upload has at an index: its content id and its bytes. *)
Variable slot : S -> string -> nat -> option (string * string).

Definition same_views (s s' : S) : Prop := forall q, view s' q = view s q.
Definition same_slots (s s' : S) : Prop := forall id i, slot s' id i = slot s id i.

(** The slots from [k] on hold these parts, with these bytes. *)
Fixpoint slots_hold (s : S) (id : string) (k : nat) (parts bs : list string) : Prop :=
  match parts, bs with
  | [], [] => True
  | c :: parts, b :: bs => slot s id k = Some (c, b) /\ slots_hold s id (Datatypes.S k) parts bs
  | _, _ => False
  end.

Lemma slots_hold_app s id k parts bs parts' bs' :
  slots_hold s id k parts bs -> slots_hold s id (k + List.length parts) parts' bs' ->
  slots_hold s id k (parts ++ parts') (bs ++ bs').
Proof using Type.
  revert k bs. induction parts as [|c parts IH]; intros k [|b bs]; cbn; try done.
  - by rewrite Nat.add_0_r.
  - intros [? ?] ?. split; [done|]. apply IH; [done|]. by rewrite <- Nat.add_succ_comm in *.
Qed.

Lemma slots_hold_same s s' id k parts bs :
  (forall i, (k <= i < k + List.length parts)%nat -> slot s' id i = slot s id i) ->
  slots_hold s id k parts bs -> slots_hold s' id k parts bs.
Proof using Type.
  revert k bs. induction parts as [|c parts IH]; intros k [|b bs] Hs; cbn; try done.
  intros [? ?]. split; [rewrite Hs; [done|cbn; lia]|]. apply IH; [|done]. intros i Hi. apply Hs. cbn. lia.
Qed.
End laws.

Class MultipartStore (V S : Type) `{HO : ObjectStore V S} := {
  msem : forall X, mp_eff X -> S -> X -> S -> Prop;
  slot : S -> string -> nat -> option (string * string);
  os_slots : forall X (e : os_eff V X) s x s', osem X e s x s' -> same_slots slot s s';
  size_law : forall p s r s', msem _ (MSize p) s r s' ->
    same_views s s' /\ same_slots slot s s' /\
    match r with
    | Ok (Some n) => exists b v, view s p = Some (b, v) /\ n = str_len b
    | Ok None => view s p = None
    | Err _ => True
    end;
  (** A stream that does not fail is the object. *)
  stream_law : forall p s r s', msem _ (MStream p) s r s' ->
    same_views s s' /\ same_slots slot s s' /\
    match r with
    | Ok (Some (n, src)) => exists b v, view s p = Some (b, v) /\ n = str_len b /\
                            Forall (fun c => match c with Ok x => str_len x <= str_len b | Err _ => True end) src /\
                            forall x, all_ok src = Some x -> x = b
    | Ok None => view s p = None
    | Err _ => True
    end;
  copy_law : forall p q s r s', msem _ (MCopy p q) s r s' ->
    (forall x, x <> q -> view s' x = view s x) /\ same_slots slot s s' /\
    match r with
    | Ok _ => exists b v v', view s p = Some (b, v) /\ view s' q = Some (b, v')
    | Err _ => True
    end;
  create_law : forall p s r s', msem _ (MCreate p) s r s' -> same_views s s' /\ same_slots slot s s';
  part_law : forall p id idx b s r s', msem _ (MPart p id idx b) s r s' ->
    same_views s s' /\
    (forall id' i, (id', i) <> (id, idx) -> slot s' id' i = slot s id' i) /\
    match r with Ok c => slot s' id idx = Some (c, b) | Err _ => True end;
  complete_law : forall p id parts s r s', msem _ (MComplete p id parts) s r s' ->
    (forall q, q <> p -> view s' q = view s q) /\
    match r with
    | Ok _ => forall bs, slots_hold slot s id 0 parts bs -> exists v, view s' p = Some (concat_all bs, v)
    | Err _ => True
    end;
  abort_law : forall p id s r s', msem _ (MAbort p id) s r s' ->
    same_views s s' /\ (forall id' i, id' <> id -> slot s' id' i = slot s id' i);
  times_law : forall p s r s', msem _ (MTimes p) s r s' -> same_views s s' /\ same_slots slot s s'
}.

(** ** Paths of a session *)
Lemma list_ascii_app a b :
  list_ascii_of_string (a +:+ b) = (list_ascii_of_string a ++ list_ascii_of_string b)%list.
Proof. induction a as [|c a IH]; [done|]. cbn. by rewrite IH. Qed.

Lemma uuid_plain u : valid_uuid u = true -> plain_name u /\ plain_name (u +:+ ".parts").
Proof.
  unfold valid_uuid. intros [[Hne%negb_true_iff%String.eqb_neq _]%andb_true_iff Ha]%andb_true_iff.
  assert (Hc : forall c, ascii_alphanumeric c || Ascii.eqb c "-" = true ->
    in_range 48 57 c || in_range 65 90 c || in_range 97 122 c ||
    Ascii.eqb c "." || Ascii.eqb c "_" || Ascii.eqb c "-" = true).
  { intros [[] [] [] [] [] [] [] []]; vm_compute; auto. }
  assert (Hs : slashless u) by (by eapply all_chars_no).
  assert (Hd : forall t, u +:+ t <> "." /\ u +:+ t <> ".." /\ u +:+ t <> "").
  { intros t. destruct u as [|c u]; [done|]. cbn in Ha. apply andb_true_iff in Ha as [Hc0 _].
    split; [|split; [|done]]; intros [= -> _]; done. }
  assert (Hp : forall t, all_chars tag_char t = true -> plain_segment (u +:+ t) = true).
  { intros t Ht. unfold plain_segment. destruct (Hd t) as (H1 & H2 & H3).
    apply String.eqb_neq in H1, H2, H3. rewrite H1, H2, H3. cbn [negb andb].
    rewrite list_ascii_app, forallb_app. apply andb_true_iff. split; apply forallb_forall.
    - intros x Hx. apply Hc. rewrite all_chars_list, forallb_forall in Ha. by apply Ha.
    - intros x Hx. apply tag_char_plain. rewrite all_chars_list, forallb_forall in Ht. by apply Ht. }
  split; split; [| |by apply Hp|].
  - pose proof (Hp "" eq_refl) as H. by rewrite append_nil_r in H.
  - done.
  - unfold slashless in *. by rewrite contains_char_app, Hs.
Qed.

(** ** Sessions *)
Section safe.
Context {V S : Type} `{EqDecision V} `{HP : PathFrom} `{HR : RecordSerde} `{HA : Sha} `{HM : MetaSerde}.
Context `{HO : ObjectStore V S} `{HU : !MultipartStore V S}.
Variables (o name : string).
Hypothesis o_plain : plain_name o.
Hypothesis name_plain : plain_name name.
Variables (has_mp : bool) (max_layer : Z).
Hypothesis cap_ok : 0 <= max_layer <= i64_max.

(** One task with the session's lock: the store is all it shares. *)
Definition reg_sem (X : Type) (e : reg_eff V X) (s : S) (x : X) (s' : S) : Prop :=
  match e in reg_eff _ X return X -> Prop with
  | ROs X e => fun x => osem X e s x s'
  | RNonce => fun x => nonce_ok x /\ s' = s
  | RNow => fun _ => s' = s
  | RRandom => fun _ => s' = s
  | RSleep _ => fun _ => s' = s
  | RCall _ => fun _ => s' = s
  end x.

Definition up_sem (X : Type) (e : up_eff V X) (s : S) (x : X) (s' : S) : Prop :=
  match e in up_eff _ X return X -> Prop with
  | UReg X e => fun x => reg_sem X e s x s'
  | UMp X e => fun x => msem X e s x s'
  end x.

Abbreviation Ends := (ends up_sem).
Abbreviation EndsR := (ends reg_sem).
Abbreviation stg u := (staging o name u).
Abbreviation scp u := (sidecar_path o name u).

Definition content (s : S) (p : path) : option string := fst <$> view s p.

(** Parts accepted with their bytes, none too short, and a tail too short for one. *)
Record sidecar_holds (s : S) (sc : Sidecar) (bytes : string) : Prop := {
  sh_parts : exists bs, slots_hold slot s (m_id (meta sc)) 0 (m_parts (meta sc)) bs /\
    Forall (fun b => MIN_PART <= str_len b) bs /\ m_len (meta sc) = total bs /\
    bytes = (concat_all bs +:+ tail sc)%string;
  sh_tail : str_len (tail sc) < MIN_PART
}.

(** The session [u] stands for [bytes]. *)
Definition holds (s : S) (u bytes : string) : Prop :=
  str_len bytes <= max_layer /\
  exists st, content s (stg u) = Some st /\
  match content s (scp u) with
  | None => st = bytes
  | Some raw => has_mp = true /\ exists sc, Sidecars.decode raw = Ok sc /\ sidecar_holds s sc bytes
  end.

Lemma path_of_segments l : l <> [] -> Forall plain_name l -> path_from (join_path l) = join_path l.
Proof using Type. apply path_from_join. Qed.

Lemma session_paths u : valid_uuid u = true ->
  stg u = join_path ["uploads"; o; name; u] /\ scp u = join_path ["uploads"; o; name; (u +:+ ".parts")%string].
Proof using o_plain name_plain.
  intros [Hu Hp]%uuid_plain. unfold staging, sidecar_path. split.
  - apply (path_of_segments ["uploads"; o; name; u]); [done|]. repeat apply Forall_cons_2; auto. by split.
  - apply (path_of_segments ["uploads"; o; name; (u +:+ ".parts")%string]); [done|].
    repeat apply Forall_cons_2; auto. by split.
Qed.

Lemma append_same_length a b : (a +:+ b = a)%string -> b = "".
Proof using Type.
  intros H. assert (Hl : str_len (a +:+ b) = str_len a) by (by rewrite H). rewrite str_len_app in Hl.
  destruct b as [|c b]; [done|]. unfold str_len in Hl. cbn [String.length] in Hl. lia.
Qed.

Lemma staging_not_sidecar u : valid_uuid u = true -> stg u <> scp u.
Proof using o_plain name_plain.
  intros Hu. destruct (session_paths u Hu) as [-> ->]. destruct (uuid_plain u Hu) as [Hp1 Hp2].
  assert (Hup : plain_name "uploads") by (by split). intros E.
  apply join_inj in E; try done; try (repeat apply Forall_cons_2; done).
  injection E as E. symmetry in E. by apply append_same_length in E.
Qed.

Lemma session_not_place u k : valid_uuid u = true -> place_ok k ->
  place_path o k <> stg u /\ place_path o k <> scp u.
Proof using o_plain name_plain.
  intros Hu Hk. destruct (session_paths u Hu) as [-> ->]. destruct (uuid_plain u Hu) as [Hp1 Hp2].
  rewrite (place_path_eq o o_plain k) by done.
  assert (Hup : plain_name "uploads") by (by split).
  split; intros E; apply join_inj in E; try done; try (by destruct k); try (by apply segments_plain);
    try (repeat apply Forall_cons_2; done).
Qed.

(** What a session stands for depends on its two objects and its upload's committed slots. *)
Lemma holds_same u bytes s s' :
  content s' (stg u) = content s (stg u) -> content s' (scp u) = content s (scp u) ->
  (forall raw sc i, content s (scp u) = Some raw -> Sidecars.decode raw = Ok sc ->
     (i < List.length (m_parts (meta sc)))%nat -> slot s' (m_id (meta sc)) i = slot s (m_id (meta sc)) i) ->
  holds s u bytes -> holds s' u bytes.
Proof using Type.
  intros H1 H2 H3 (Hle & st & Hst & Hx). split; [done|]. exists st. rewrite H1, H2. split; [done|].
  destruct (content s (scp u)) as [raw|] eqn:E; [|done]. destruct Hx as (Hmp & sc & Hd & Hs).
  split; [done|]. exists sc. split; [done|]. destruct Hs as [(bs & Hb & ?) Ht]. split; [|done]. exists bs. split; [|done].
  eapply slots_hold_same; [|exact Hb]. intros i Hi. apply (H3 raw sc i); [done..|lia].
Qed.

Lemma content_same s s' : same_views s s' -> forall q, content s' q = content s q.
Proof using Type. intros H q. unfold content. by rewrite H. Qed.

Lemma holds_quiet u bytes s s' : same_views s s' -> same_slots slot s s' -> holds s u bytes -> holds s' u bytes.
Proof using Type.
  intros Hv Hs. apply holds_same; [by apply content_same..|]. intros raw sc i _ _ _. apply Hs.
Qed.

(** ** Parts *)

(** What [put_parts] leaves: nothing but slots from [k] on of this upload. *)
Definition slots_below (id : string) (k : nat) (s s' : S) : Prop :=
  same_views s s' /\ (forall id' i, id' <> id \/ (i < k)%nat -> slot s' id' i = slot s id' i).

Lemma slots_below_trans id k k' s1 s2 s3 :
  (k <= k')%nat -> slots_below id k s1 s2 -> slots_below id k' s2 s3 -> slots_below id k s1 s3.
Proof using Type.
  intros Hk [H1 H2] [H3 H4]. split; [intros q; by rewrite H3|].
  intros id' i Hi. rewrite H4, H2; [done|done|]. destruct Hi; [by left|right; lia].
Qed.

Definition parts_put (s' : S) (id : string) (k : nat) (src : list (result string)) (last : bool)
    (room : Z) (ids : list string) (parted : Z) (buf : string)
    (r : (list string * Z * string) + Refused) : Prop :=
  match r with
  | inl (ids', parted', rest) =>
    exists new bs got, all_ok src = Some got /\ ids' = (ids ++ new)%list /\ slots_hold slot s' id k new bs /\
      (buf +:+ got)%string = (concat_all bs +:+ rest)%string /\ parted' = parted + total bs /\ str_len got <= room /\
      if last then rest = "" /\ (forall b init, bs = (init ++ [b])%list -> Forall (fun b => MIN_PART <= str_len b) init)
      else str_len rest < MIN_PART /\ Forall (fun b => MIN_PART <= str_len b) bs
  | inr _ => True
  end.

Lemma ends_part p id idx b s (Q : result string -> S -> Prop) :
  (forall r s', slots_below id idx s s' -> (forall i, i <> idx -> slot s' id i = slot s id i) ->
     match r with Ok c => slot s' id idx = Some (c, b) | Err _ => True end -> Q r s') ->
  Ends (trigger (UMp _ (MPart p id idx b))) s Q.
Proof using Type.
  intros HQ. apply ends_effect. intros r s' Hm. destruct (part_law _ _ _ _ _ _ _ Hm) as (Hv & Hs & Hr).
  apply HQ; [|intros i Hi; apply Hs; congruence|done]. split; [done|].
  intros id' i Hi. apply Hs. intros [= -> ->]. destruct Hi; [done|lia].
Qed.

Lemma ends_put_parts p id last src : forall k room ids parted buf s,
  str_len buf < MIN_PART -> 0 <= room -> 0 <= parted -> parted + str_len buf + room <= u64_max ->
  Ends (put_parts p id k src last room ids parted buf) s
    (fun r s' => slots_below id k s s' /\ parts_put s' id k src last room ids parted buf r).
Proof using Type.
  induction src as [|[chunk|e] src IH]; intros k room ids parted buf s Hbuf Hroom Hp Hsum; cbn [put_parts].
  - destruct (last && negb (String.eqb buf "")) eqn:El.
    + apply andb_true_iff in El as [-> _]. apply ends_bind, ends_part.
      intros [c|e] s' Hb _ Hc; cbn; (split; [done|]); [|done].
      pose proof (str_len_pos buf). rewrite u64_add_small by lia.
      exists [c], [buf], "". cbn. rewrite !append_nil_r, total_cons. change (total []) with 0.
      split; [done|]. split; [done|]. split; [done|]. split; [done|]. split; [lia|]. split; [unfold str_len; cbn; lia|].
      split; [done|]. intros b init E. destruct init as [|x [|]]; [constructor|done..].
    + cbn. split; [by split|]. exists [], [], "". cbn. rewrite append_nil_r, app_nil_r. change (total []) with 0.
      split; [done|]. split; [done|]. split; [done|]. split; [done|]. split; [lia|]. split; [unfold str_len; cbn; lia|].
      destruct last; [|by split]. cbn in El. apply negb_false_iff, String.eqb_eq in El. split; [done|].
      intros b init E. by destruct init.
  - destruct (Z.ltb_spec room (str_len chunk)) as [|Hr]; [by cbn; split; [split|]|]. cbv zeta.
    pose proof (str_len_pos chunk) as Hc0. pose proof (str_len_pos buf) as Hb0.
    assert (Hl : str_len (buf +:+ chunk) = str_len buf + str_len chunk) by apply str_len_app.
    destruct (Z.leb_spec MIN_PART (str_len (buf +:+ chunk))) as [Hfull|Hshort].
    + apply ends_bind, ends_part. intros [c|e] s1 Hb1 _ Hc; [|by cbn; split].
      rewrite u64_add_small by lia.
      assert (H0 : str_len "" = 0) by done.
      eapply ends_mono; [apply IH; rewrite ?H0; unfold MIN_PART in *; lia|].
      intros r s2 [Hb2 Hput]. split; [by eapply (slots_below_trans _ k (Datatypes.S k)); [lia|..]|].
      destruct r as [[[ids' parted'] rest]|e]; [|done].
      destruct Hput as (new & bs & got & Hg & -> & Hsl & Hcat & -> & Hle & Hend).
      exists (c :: new), ((buf +:+ chunk) :: bs)%string, (chunk +:+ got)%string. cbn [all_ok]. rewrite Hg. cbn.
      split; [done|]. split; [by rewrite <- app_assoc|]. split.
      { split; [|done]. destruct Hb2 as [_ Hb2]. rewrite Hb2; [done|right; lia]. }
      cbn in Hcat. split; [by rewrite append_assoc, <- Hcat, append_assoc|].
      split; [rewrite total_cons; lia|]. split; [rewrite str_len_app; lia|].
      destruct last.
      * destruct Hend as [-> Hend]. split; [done|]. intros b init E.
        destruct init as [|x init]; [constructor|]. injection E as <- E. constructor; [done|]. by eapply Hend.
      * destruct Hend as [? ?]. split; [done|]. by constructor.
    + eapply ends_mono; [apply IH; lia|]. intros r s2 [Hb2 Hput]. split; [done|].
      destruct r as [[[ids' parted'] rest]|e]; [|done].
      destruct Hput as (new & bs & got & Hg & -> & Hsl & Hcat & -> & Hle & Hend).
      exists new, bs, (chunk +:+ got)%string. cbn [all_ok]. rewrite Hg. cbn.
      split; [done|]. split; [done|]. split; [done|]. rewrite <- append_assoc.
      split; [done|]. split; [done|]. split; [rewrite str_len_app; lia|done].
  - by cbn; split; [split|].
Qed.

(** ** Objects *)
Lemma ends_os {X} (e : os_eff V X) s (Q : X -> S -> Prop) :
  (forall x s', osem X e s x s' -> same_slots slot s s' -> Q x s') -> Ends (trigger (UReg _ (ROs _ e))) s Q.
Proof using Type. intros HQ. apply ends_effect. intros x s' He. apply HQ; [exact He|]. by eapply os_slots. Qed.

Definition beside (p : path) (s s' : S) : Prop :=
  (forall q, q <> p -> content s' q = content s q) /\ same_slots slot s s'.

Lemma beside_refl p s : beside p s s.
Proof using Type. by split. Qed.

Lemma aside_trans p s1 s2 s3 : beside p s1 s2 -> beside p s2 s3 -> beside p s1 s3.
Proof using Type.
  intros [H1 H2] [H3 H4]. split; [intros q Hq; by rewrite H3, H1|]. intros id i. by rewrite H4.
Qed.

Lemma same_beside p s s' : same_views s s' -> same_slots slot s s' -> beside p s s'.
Proof using Type. intros Hv Hs. split; [|done]. intros q _. by apply content_same. Qed.

Lemma ends_overwrite p b s :
  Ends (overwrite p b) s (fun r s' => beside p s s' /\
    match r with
    | Ok _ => content s' p = Some b
    | Err _ => content s' p = content s p \/ content s' p = Some b
    end).
Proof using Type.
  unfold overwrite. apply ends_bind, ends_os. intros x s' He Hs.
  destruct (put_law _ _ _ _ _ _ He) as [Ho Hx].
  assert (Hb : beside p s s') by (split; [intros q Hq; unfold content; by rewrite Ho|done]).
  unfold content in *. destruct x as [v| | |e]; cbn; (split; [done|]).
  - destruct Hx as [_ Hx]. by rewrite Hx.
  - left. by rewrite Hx.
  - left. by rewrite Hx.
  - destruct Hx as [Hx|(_ & v & Hx)]; rewrite Hx; [by left|by right].
Qed.

Lemma ends_delete p s (Q : del_res -> S -> Prop) :
  (forall x s', beside p s s' -> Q x s') -> Ends (trigger (UReg _ (ROs _ (ODelete p)))) s Q.
Proof using Type.
  intros HQ. apply ends_os. intros x s' He Hs. destruct (del_law _ _ _ _ He) as [Ho _]. apply HQ.
  split; [|done]. intros q Hq. unfold content. by rewrite Ho.
Qed.

(** ** Reading a session *)
Definition read_as (s : S) (u bytes : string) (sc : option Sidecar) : Prop :=
  match sc with
  | Some sc => has_mp = true /\ exists raw, content s (scp u) = Some raw /\ Sidecars.decode raw = Ok sc /\ sidecar_holds s sc bytes
  | None => content s (scp u) = None /\ content s (stg u) = Some bytes
  end.

Lemma received_len s sc bytes : sidecar_holds s sc bytes -> str_len bytes <= i64_max ->
  Sidecars.received sc = str_len bytes.
Proof using Type.
  intros [(bs & _ & _ & Hl & ->) _]. rewrite str_len_app, <- total_concat, <- Hl. intros Hle.
  unfold Sidecars.received. apply u64_add_small; [|apply str_len_pos|].
  - rewrite Hl, total_concat. apply str_len_pos.
  - unfold i64_max, u64_max in *. lia.
Qed.

Lemma ends_session u bytes s : holds s u bytes ->
  Ends (session o name u) s (fun r s' => same_views s s' /\ holds s' u bytes /\
    match r with
    | Err _ => True
    | Ok None => False
    | Ok (Some (have, sc)) => have = str_len bytes /\ read_as s' u bytes sc
    end).
Proof using cap_ok.
  intros Hh. unfold session.
  eapply (ends_seq_res _ _ _ _ (fun r s1 => same_views s s1 /\ holds s1 u bytes /\
    match r with Ok None => False | Ok (Some n) => exists st, content s1 (stg u) = Some st /\ n = str_len st | Err _ => True end)).
  - apply ends_effect. intros r s1 Hm. destruct (size_law _ _ _ _ Hm) as (Hv & Hs & Hr).
    split; [done|]. split; [by eapply holds_quiet|].
    destruct Hh as (_ & st & Hst & _). unfold content in *. destruct r as [[n|]|e]; [| |done].
    + destruct Hr as (b & v & Hb & ->). exists b. by rewrite Hv, Hb.
    + by rewrite Hr in Hst.
  - intros [n|] s1 (Hv1 & Hh1 & Hn); [|by cbn]. apply ends_bind, ends_os. intros x s2 He Hs2.
    destruct (get_law _ _ _ _ He) as [Ho Hx].
    assert (Hh2 : holds s2 u bytes) by (by eapply holds_quiet).
    assert (Hv2 : same_views s s2) by (intros q; by rewrite Ho, Hv1).
    cbn [ends]. split; [done|]. split; [done|].
    destruct Hh1 as (Hle & st & Hst & Hx1). destruct Hn as (st' & Hst' & ->). rewrite Hst in Hst'. injection Hst' as <-.
    destruct x as [raw v| |e]; [| |done].
    + unfold content in Hx1 at 1. rewrite Hx in Hx1. cbn in Hx1. destruct Hx1 as (Hmp & sc & Hd & Hsc). rewrite Hd. cbn.
      split; [eapply received_len; [exact Hsc|lia]|]. split; [done|]. exists raw. unfold content. rewrite Ho, Hx. split; [done|].
      split; [done|]. destruct Hsc as [(bs & Hb & ?) ?]. split; [|done]. exists bs. split; [|done].
      eapply slots_hold_same; [|exact Hb]. intros i _. apply Hs2.
    + unfold content in Hx1 at 1. rewrite Hx in Hx1. cbn in Hx1. subst st. split; [done|].
      unfold read_as, content in *. by rewrite !Ho, Hx.
  - intros e s1 (? & ? & _). done.
Qed.

Lemma sidecar_decode_encode sc : Sidecars.decode (Sidecars.encode sc) = Ok sc.
Proof using Type.
  unfold Sidecars.decode, Sidecars.encode. rewrite split_once_app by apply meta_one_line.
  rewrite meta_from_to. by destruct sc.
Qed.

(** ** A chunk *)

(** The session took [got] after [bytes]: nothing, or the whole body. *)
Definition took (s' : S) (u bytes : string) (body : list (result string)) (got : string) : Prop :=
  holds s' u (bytes +:+ got) /\ (got = "" \/ all_ok body = Some got).

Lemma took_nothing s' u bytes body : holds s' u bytes -> took s' u bytes body "".
Proof using Type. intros H. split; [by rewrite append_nil_r|by left]. Qed.

(** What a failure says of the bytes the session took: only an error of the store leaves it open
    whether the chunk is there. *)
Definition failing (a : up_answer) (got : string) : Prop :=
  match a with
  | LayerTooLarge | UploadUnknown => got = ""
  | UploadInternal _ => True
  | _ => False
  end.

(** How a chunk ends: the new length, or an answer that is not [Accepted]. *)
Definition chunk_done (u bytes : string) (body : list (result string)) (r : Z + up_answer) (s' : S) : Prop :=
  exists got, took s' u bytes body got /\
    match r with
    | inl len => all_ok body = Some got /\ len = str_len (bytes +:+ got)
    | inr a => failing a got
    end.

Lemma refused_failing e : failing (refused e) "".
Proof using Type. by destruct e. Qed.
Lemma refused_took e got : e <> TooLarge -> failing (refused e) got.
Proof using Type. by destruct e. Qed.

Lemma holds_content u bytes s s' :
  content s' (stg u) = content s (stg u) -> content s' (scp u) = content s (scp u) -> same_slots slot s s' ->
  holds s u bytes -> holds s' u bytes.
Proof using Type. intros H1 H2 H3. apply holds_same; [done..|]. intros; apply H3. Qed.

(** Parts put under an upload whose committed slots end at [k] leave the session alone. *)
Lemma holds_parts u bytes s s' sc :
  read_as s u bytes (Some sc) ->
  slots_below (m_id (meta sc)) (List.length (m_parts (meta sc))) s s' -> holds s u bytes -> holds s' u bytes.
Proof using Type.
  intros (_ & raw & Hraw & Hd & _) [Hv Hs]. apply holds_same; [by apply content_same..|].
  intros raw' sc' i Hr' Hd' Hi. rewrite Hraw in Hr'. injection Hr' as <-. rewrite Hd in Hd'. injection Hd' as <-.
  apply Hs. by right.
Qed.

(** A session with no sidecar does not depend on any slot. *)
Lemma holds_no_sidecar u bytes s s' : same_views s s' -> content s (scp u) = None -> holds s u bytes -> holds s' u bytes.
Proof using Type.
  intros Hv Hn. apply holds_same; [by apply content_same..|]. intros raw sc i Hr. by rewrite Hn in Hr.
Qed.

(** Writing the sidecar commits the parts. *)
Lemma ends_commit u bytes got body sc' s :
  valid_uuid u = true -> has_mp = true -> holds s u bytes -> str_len (bytes +:+ got) <= max_layer ->
  all_ok body = Some got -> sidecar_holds s sc' (bytes +:+ got) ->
  Ends (let! x := overwrite (scp u) (Sidecars.encode sc') in
        Ret match x with Ok _ => inl (Sidecars.received sc') | Err e => inr (UploadInternal e) end) s
    (chunk_done u bytes body).
Proof using cap_ok o_plain name_plain.
  intros Hu Hmp Hh Hle Hall Hsc.
  pose proof (staging_not_sidecar u Hu) as Hne.
  eapply ends_seq; [apply ends_overwrite|]. intros x s' [[Hq Hs] Hx]. cbn [ends].
  assert (Hnew : content s' (scp u) = Some (Sidecars.encode sc') -> took s' u bytes body got).
  { intros Hc. split; [|by right]. split; [done|]. destruct Hh as (_ & st & Hst & _). exists st.
    rewrite Hq by done. split; [done|]. rewrite Hc. split; [done|]. exists sc'. split; [apply sidecar_decode_encode|].
    destruct Hsc as [(bs & Hb & ?) ?]. split; [|done]. exists bs. split; [|done].
    eapply slots_hold_same; [|exact Hb]. intros i _. apply Hs. }
  destruct x as [[]|e].
  - exists got. split; [by apply Hnew|]. split; [done|]. eapply received_len; [exact Hsc|lia].
  - destruct Hx as [Hx|Hx].
    + exists "". split; [|done]. apply took_nothing. eapply holds_content; [by apply Hq|done|done|done].
    + exists got. split; [by apply Hnew|done].
Qed.

Lemma ends_patch_part u sc body bytes s :
  valid_uuid u = true -> has_mp = true -> holds s u bytes -> read_as s u bytes sc -> (sc = None -> bytes = "") ->
  Ends (patch_part o name max_layer u sc body) s (chunk_done u bytes body).
Proof using cap_ok o_plain name_plain.
  intros Hu Hmp Hh Hread Hfresh. unfold patch_part.
  apply (ends_seq _ _ _ _ (fun r s1 => same_views s s1 /\ holds s1 u bytes /\
    match r with
    | Err _ => True
    | Ok (m, t) => sidecar_holds s1 (mkSidecar m t) bytes /\
        (sc = None -> m_parts m = []) /\ (forall x, sc = Some x -> x = mkSidecar m t)
    end)).
  { destruct sc as [sc|].
    - cbn. split; [done|]. split; [done|]. destruct Hread as (_ & raw & _ & _ & Hsc). destruct sc as [m t].
      split; [exact Hsc|]. split; [done|]. intros x Hx. by injection Hx.
    - eapply ends_seq_res; [apply ends_effect; intros id s1 Hm; exact (create_law _ _ _ _ Hm)| |].
      + intros id s1 [Hv Hs]. cbn. split; [done|]. split; [by eapply holds_quiet|]. split; [|by split].
        split; [|done]. exists []. cbn. rewrite Hfresh by done. by split.
      + intros e s1 [Hv Hs]. cbn. split; [done|]. split; [by eapply holds_quiet|done]. }
  intros [[m t]|e] s1 (Hv1 & Hh1 & Hm); [|cbn; exists ""; by split; [apply took_nothing|]].
  destruct Hm as (Hsc & Hnone & Hsome). cbv beta iota zeta.
  destruct Hh1 as (Hle & Hrest). assert (Hh1 : holds s1 u bytes) by done. clear Hrest.
  pose proof Hsc as [(bs & Hb & Hbig & Hlen & Hbytes) Ht]. cbn [meta tail m_id m_parts m_len] in *.
  assert (Hmt : m_len m + str_len t = str_len bytes) by (by rewrite Hlen, Hbytes, total_concat, str_len_app).
  assert (Hl0 : 0 <= m_len m) by (rewrite Hlen, total_concat; apply str_len_pos).
  pose proof (str_len_pos t). assert (H0 : str_len "" = 0) by done.
  eapply ends_seq; [apply ends_put_parts; unfold sat_room, sat_sub, MIN_PART, u64_max, i64_max in *; rewrite ?H0; lia|].
  intros r s2 [Hb2 Hput]. assert (Hh2 : holds s2 u bytes).
  { destruct sc as [sc|].
    - apply (holds_parts u bytes s1 s2 (mkSidecar m t)); [|exact Hb2|exact Hh1].
      destruct Hread as (_ & raw & Hraw & Hd & _). split; [done|]. exists raw. rewrite (content_same s s1) by done.
      split; [done|]. rewrite (Hsome sc eq_refl) in Hd. by split.
    - destruct Hread as [Hn _]. eapply holds_no_sidecar; [apply Hb2| |exact Hh1]. by rewrite (content_same s s1). }
  destruct r as [[[ids parted] rest]|e].
  - destruct Hput as (new & bs' & got0 & Hg & -> & Hsl & Hcat & Hpar & Hroom & Hrest & Hbig').
    cbn [app] in *. cbn [append] in Hcat. unfold tail_then in Hg. cbn [all_ok] in Hg.
    destruct (all_ok body) as [got|] eqn:Eb; [|done]. injection Hg as <-.
    rewrite str_len_app in Hroom. unfold sat_room, sat_sub in Hroom. pose proof (str_len_pos got).
    assert (Hbound : str_len (bytes +:+ got) <= max_layer).
    { rewrite str_len_app. lia. }
    assert (Hpl : 0 <= total bs') by (rewrite total_concat; apply str_len_pos).
    assert (Hsum : m_len m + total bs' + str_len rest = str_len (bytes +:+ got)).
    { rewrite str_len_app. apply (f_equal str_len) in Hcat. rewrite !str_len_app, <- total_concat in Hcat. lia. }
    pose proof (str_len_pos rest).
    eapply ends_commit; [done|done|done|exact Hbound|done|]. rewrite Hpar. split; [|done]. cbn [meta tail m_id m_parts m_len].
    exists (bs ++ bs')%list. split; [|split; [|split]].
    + apply slots_hold_app; [|by rewrite Nat.add_0_l]. eapply slots_hold_same; [|exact Hb].
      intros i Hi. destruct Hb2 as [_ Hb2]. apply Hb2. right. lia.
    + by apply Forall_app.
    + rewrite Z.add_0_l, u64_add_small by (unfold u64_max, i64_max in *; lia).
      rewrite Hlen. rewrite !total_concat, concat_all_app. by rewrite str_len_app.
    + rewrite concat_all_app, append_assoc, <- Hcat, Hbytes. by rewrite append_assoc.
  - destruct sc as [sc|]; cbn [is_none is_some negb].
    + cbn. exists "". split; [by apply took_nothing|]. apply refused_failing.
    + apply ends_bind, ends_bind, ends_effect. intros x s3 Ha. destruct (abort_law _ _ _ _ _ Ha) as [Hv3 _]. cbn.
      exists "". split; [|apply refused_failing]. apply took_nothing.
      destruct Hread as [Hn _]. eapply holds_no_sidecar; [exact Hv3| |exact Hh2].
      rewrite (content_same s1 s2) by apply Hb2. by rewrite (content_same s s1).
Qed.

(** ** Pouring *)
Lemma ends_call what s : EndsR (trigger (RCall what)) s (fun _ s' => s' = s).
Proof using Type. apply ends_effect. by intros x s' ->. Qed.

Definition fed_or_failed (a bytes : string) (s : S) (r : result BlockingHasher) (s' : S) : Prop :=
  s' = s /\ match r with Ok h => fed a bytes h | Err _ => True end.

Lemma ends_hasher_flush a bytes h s : fed a bytes h ->
  EndsR (hasher_flush h) s (fun r s' => s' = s /\
    match r with Ok h => fed a bytes h /\ h_buf h = "" | Err _ => True end).
Proof using Type.
  intros [Ha Hb]. unfold hasher_flush. destruct (String.eqb_spec (h_buf h) "") as [E|E]; [by cbn|].
  eapply ends_seq_res; [apply ends_call| |]; [|by intros e s' ->].
  intros _ s' ->. cbn. split; [done|]. split; [|done]. split; [done|]. cbn. by rewrite append_nil_r.
Qed.

Lemma ends_hasher_update a bytes chunk h s : fed a bytes h ->
  EndsR (hasher_update chunk h) s (fed_or_failed a (bytes +:+ chunk) s).
Proof using Type.
  intros [Ha Hb]. unfold hasher_update.
  assert (Hf : fed a (bytes +:+ chunk) (mkHasher (h_algo h) (hashed h) (h_buf h +:+ chunk))).
  { split; [done|]. cbn. by rewrite <- append_assoc, Hb. }
  destruct (_ <=? _); [|by cbn; split]. eapply ends_mono; [by apply ends_hasher_flush|].
  intros [h'|e] s' [-> Hh]; split; [done|by destruct Hh|done|done].
Qed.

Lemma ends_hasher_finish a bytes h s : fed a bytes h ->
  EndsR (hasher_finish h) s (fun r s' => s' = s /\
    match r with Ok d => d = mkDigest a (sha a bytes) | Err _ => True end).
Proof using Type.
  intros Hf. unfold hasher_finish. eapply ends_seq_res; [by apply ends_hasher_flush| |by intros e s' [-> _]].
  intros h' s' (-> & [Ha Hb] & Hbuf). eapply ends_seq_res; [apply ends_call| |by intros e s' ->].
  intros _ s' ->. cbn. split; [done|]. rewrite Hbuf, append_nil_r in Hb. by rewrite Ha, Hb.
Qed.

(** The bytes are what was expected. *)
Definition fits (expect : option Digest) (bytes : string) : Prop :=
  match expect with Some d => of_algo (algo d) bytes = Some d | None => True end.

Definition hashing_for (expect : option Digest) (bytes : string) (hasher : option BlockingHasher) : Prop :=
  match expect, hasher with
  | Some d, Some h => fed (algo d) bytes h
  | _, Some _ => False
  | _, None => True
  end.

Definition poured (dest : path) (expect : option Digest) (bytes : option string) (cap : Z) (s : S)
    (r : Z + Refused) (s' : S) : Prop :=
  beside dest s s' /\
  match r with
  | inl n => exists x, bytes = Some x /\ content s' dest = Some x /\ n = str_len x /\ n <= cap /\ fits expect x
  | inr e => content s' dest = content s dest \/ e <> TooLarge /\
      exists x, bytes = Some x /\ content s' dest = Some x /\ str_len x <= cap /\ fits expect x
  end.

Lemma ends_abort dest expect bytes cap r s : EndsR (abort r) s (poured dest expect bytes cap s).
Proof using Type.
  eapply ends_seq; [apply ends_call|]. intros _ s' ->. cbn. split; [apply beside_refl|by left].
Qed.

Lemma ends_pour_end dest expect hasher w n cap s :
  hashing_for expect w hasher -> n = str_len w -> n <= cap -> (forall d, expect = Some d -> valid_digest d) ->
  EndsR (pour_end dest expect hasher w n) s (poured dest expect (Some w) cap s).
Proof using Type.
  intros Hf Hn Hcap Hd.
  assert (Hfinish : fits expect w ->
    EndsR (let! x := trigger (ROs _ (OPut dest w PutOverwrite)) in
           Ret match x with
               | PutOk _ => inl n
               | PutErr e => inr (Failed e)
               | PutAlreadyExists | PutPrecondition => inr (Failed (EStore "precondition"))
               end) s (poured dest expect (Some w) cap s)).
  { intros Hfit. apply ends_bind, ends_effect. intros x s' He. cbn [ends].
    destruct (put_law _ _ _ _ _ _ He) as [Ho Hx].
    assert (Hb : beside dest s s').
    { split; [intros q Hq; unfold content; by rewrite Ho|]. by eapply os_slots. }
    destruct x as [v| | |e]; (split; [exact Hb|]); unfold content.
    - destruct Hx as [_ Hx]. exists w. rewrite Hx. done.
    - left. by rewrite Hx.
    - left. by rewrite Hx.
    - destruct Hx as [Hx|(_ & v & Hx)]; rewrite Hx; [by left|right]. split; [done|]. exists w. split; [done|]. split; [done|].
      split; [lia|done]. }
  unfold pour_end. destruct expect as [want|]; [|by apply Hfinish].
  destruct hasher as [h|]; [|apply ends_abort]. cbn in Hf.
  eapply ends_seq; [by apply ends_hasher_finish|]. intros [got|e] s' [-> Hg]; [|apply ends_abort].
  destruct (bool_decide _) eqn:E; [|apply ends_abort]. apply bool_decide_eq_true in E. apply Hfinish.
  cbn. unfold of_algo. destruct (Hd want eq_refl) as (k & -> & _). by rewrite <- Hg, E.
Qed.

Lemma all_ok_cons chunk src : all_ok (Ok chunk :: src) = option_map (append chunk) (all_ok src).
Proof using Type. cbn. by destruct (all_ok src). Qed.

Lemma ends_pour_loop dest expect src cap : forall hasher w n s,
  small_chunks src -> cap <= i64_max -> hashing_for expect w hasher -> n = str_len w -> n <= cap ->
  (forall d, expect = Some d -> valid_digest d) ->
  EndsR (pour_loop dest expect src cap hasher w n) s (poured dest expect (option_map (append w) (all_ok src)) cap s).
Proof using Type.
  induction src as [|[chunk|e] src IH]; intros hasher w n s Hsm Hcap Hf Hn Hle Hd; cbn [pour_loop].
  - cbn [all_ok option_map]. rewrite append_nil_r. by apply ends_pour_end.
  - apply Forall_cons_1 in Hsm as [Hc Hsm]. pose proof (str_len_pos chunk). pose proof (str_len_pos w).
    rewrite u64_add_small by (unfold u64_max, i64_max in *; lia). cbv zeta.
    destruct (Z.ltb_spec cap (n + str_len chunk)); [apply ends_abort|].
    apply (ends_seq _ _ _ _ (fun r s' => s' = s /\ match r with Ok h => hashing_for expect (w +:+ chunk) h | Err _ => True end)).
    { destruct hasher as [h|]; [|by cbn; split; [|destruct expect]]. destruct expect as [d|]; [|done]. cbn in Hf.
      eapply ends_seq_res; [by apply ends_hasher_update| |by intros e s' [-> _]].
      intros h' s' [-> Hf']. by cbn. }
    intros [h'|e] s' [-> Hf']; [|apply ends_abort].
    eapply ends_seq; [apply ends_call|]. intros [[]|e] s' ->; [|apply ends_abort].
    eapply ends_mono; [apply IH; try done; rewrite str_len_app; lia|]. intros r s' Hp.
    rewrite all_ok_cons. replace (option_map (append w) (option_map (append chunk) (all_ok src)))
      with (option_map (append (w +:+ chunk)) (all_ok src)); [exact Hp|].
    destruct (all_ok src); cbn; [by rewrite append_assoc|done].
  - apply ends_abort.
Qed.

Lemma ends_pour dest expect src cap s :
  small_chunks src -> 0 <= cap <= i64_max -> (forall d, expect = Some d -> valid_digest d) ->
  EndsR (pour dest expect src cap) s (poured dest expect (all_ok src) cap s).
Proof using Type.
  intros Hsm [Hc Hi] Hd. unfold pour. eapply ends_seq; [apply ends_call|].
  intros [[]|e] s' ->; [|cbn; split; [apply beside_refl|by left]].
  replace (all_ok src) with (option_map (append "") (all_ok src)) by (by destruct (all_ok src)).
  apply ends_pour_loop; try done. destruct expect as [d|]; [|done]. cbn.
  unfold hasher_new. by destruct (want_len (algo d)).
Qed.

(** ** Appending *)
Definition streams (s : S) (p : path) (r : result (option (Z * list (result string)))) : Prop :=
  match r with
  | Ok (Some (n, src)) => exists b, content s p = Some b /\ n = str_len b /\
      (str_len b <= i64_max -> small_chunks src) /\ forall x, all_ok src = Some x -> x = b
  | Ok None => content s p = None
  | Err _ => True
  end.

Lemma ends_staged p s : Ends (staged p) s (fun r s' => same_views s s' /\ same_slots slot s s' /\ streams s' p r).
Proof using Type.
  apply ends_effect. intros r s' Hm. destruct (stream_law _ _ _ _ Hm) as (Hv & Hs & Hr).
  split; [done|]. split; [done|]. destruct r as [[[n src]|]|e]; cbn; unfold content; rewrite ?Hv; [| |done].
  - destruct Hr as (b & v & Hb & -> & Hc & Hx). exists b. rewrite Hb. split; [done|]. split; [done|].
    split; [|done]. intros Hle. eapply Forall_impl; [exact Hc|]. intros [x|e]; cbn; [lia|done].
  - by rewrite Hr.
Qed.

Lemma all_ok_app a b : all_ok (a ++ b) = (x ← all_ok a; y ← all_ok b; Some (x +:+ y)).
Proof using Type.
  induction a as [|[c|e] a IH]; cbn; [by destruct (all_ok b)| |done].
  rewrite IH. destruct (all_ok a) as [x|]; [|done]. cbn. destruct (all_ok b) as [y|]; [|done]. cbn.
  by rewrite append_assoc.
Qed.

(** What a stream of [bytes] and then a body add up to. *)
Lemma streamed_then src body bytes x :
  (forall x, all_ok src = Some x -> x = bytes) -> all_ok (src ++ body)%list = Some x ->
  exists got, all_ok body = Some got /\ x = (bytes +:+ got)%string.
Proof using Type.
  intros Hs. rewrite all_ok_app. destruct (all_ok src) as [y|] eqn:E; [|done]. cbn.
  rewrite (Hs y eq_refl). destruct (all_ok body) as [got|]; [|done]. cbn. intros [= <-]. by exists got.
Qed.

Lemma ends_reg {A} (p : prog (reg_eff V) A) s Q :
  EndsR p s Q -> Ends (lift (fun X e => UReg X e) p) s Q.
Proof using Type. intros H. by apply ends_lift. Qed.

Lemma ends_patch_append u body bytes s :
  valid_uuid u = true -> small_chunks body -> holds s u bytes -> read_as s u bytes None ->
  Ends (patch_append o name max_layer u body) s (chunk_done u bytes body).
Proof using cap_ok o_plain name_plain.
  intros Hu Hsm Hh [Hn Hst]. unfold patch_append.
  pose proof (staging_not_sidecar u Hu) as Hne.
  eapply ends_seq; [apply ends_staged|]. intros r s1 (Hv & Hs & Hr).
  assert (Hh1 : holds s1 u bytes) by (by eapply holds_quiet).
  assert (Hno : forall a : up_answer, failing a "" ->
    chunk_done u bytes body (inr a) s1) by (intros a Ha; exists ""; split; [by apply took_nothing|done]).
  destruct r as [[[n src]|]|e]; [|by apply Hno..].
  destruct Hr as (b & Hb & _ & Hchunks & Hx). rewrite (content_same s s1 Hv), Hst in Hb. injection Hb as <-.
  destruct Hh as [Hle _].
  eapply ends_seq; [apply ends_reg, (ends_pour (stg u) None)|].
  - apply Forall_app. split; [apply Hchunks; lia|done].
  - done.
  - done.
  - intros r s2 [[Hq Hs2] Hr].
    assert (Htook : forall x, all_ok (src ++ body)%list = Some x -> content s2 (stg u) = Some x -> str_len x <= max_layer ->
      exists got, took s2 u bytes body got /\ all_ok body = Some got /\ x = (bytes +:+ got)%string).
    { intros x Hall Hc Hlx. destruct (streamed_then src body bytes x Hx Hall) as (got & Hg & ->).
      exists got. split; [|done]. split; [|by right]. split; [done|]. exists (bytes +:+ got)%string.
      split; [done|]. by rewrite Hq, (content_same s s1 Hv), Hn. }
    destruct r as [len|e]; cbn [ends].
    + destruct Hr as (x & Hall & Hc & -> & Hlx & _).
      destruct (Htook x Hall Hc Hlx) as (got & Ht & Hg & ->). by exists got.
    + destruct Hr as [Hr|(He & x & Hall & Hc & Hlx & _)].
      * exists "". split; [|by apply refused_failing]. apply took_nothing.
        eapply holds_content; [exact Hr|by apply Hq|done|done].
      * destruct (Htook x Hall Hc Hlx) as (got & Ht & Hg & ->). exists got. split; [done|]. by apply refused_took.
Qed.

(** What the answer to a PATCH says of the bytes the session took: an acceptance, that they are the
    whole body, of the length that was declared; a refusal, that there are none; a mismatch, none if
    the declaration and the [Content-Length] differ, else the whole body.  An error of the store says
    nothing: the write that failed may have been done. *)
Definition says (content_range length_header : option string) (body : list (result string)) (bytes got : string)
    (a : up_answer) : Prop :=
  let declared := declared_chunk content_range (str_len bytes) in
  match a with
  | Accepted len => all_ok body = Some got /\ len = str_len (bytes +:+ got) /\
      forall d, declared = inl (Some d) -> d = str_len got
  | RangeNotSatisfiable have => got = "" /\ have = str_len bytes
  | UploadUnknown | RangeInvalid | LayerTooLarge => got = ""
  | LengthMismatch => exists d, declared = inl (Some d) /\
      (got = "" /\ (exists cl, content_length length_header = Some cl /\ cl <> d) \/
       all_ok body = Some got /\ d <> str_len got)
  | UploadInternal _ => True
  | Created _ | Progress _ | Cancelled | DigestRefused => False
  end.


(** ** Installing *)
Abbreviation rp d := (state_path o d).

(** The record of [d] names [key] as its active generation. *)
Definition active_at (s : S) (d : Digest) (key : string) : Prop :=
  exists raw r a, content s (rp d) = Some raw /\ record_from_slice raw = Some r /\
    active r = Some a /\ physical_key a = key.

Lemma ends_quiet_os {X} (e : os_eff V X) p s :
  match e with OGet _ | OHead _ | OList _ => True | _ => False end ->
  EndsR (trigger (ROs _ e)) s (fun _ s' => beside p s s').
Proof using Type.
  intros He. apply ends_effect. intros x s' Hx. pose proof (os_slots _ _ _ _ _ Hx) as Hs. cbn in Hx.
  destruct e as [q|q b m|q|q|q]; try done.
  - destruct (get_law _ _ _ _ Hx) as [Hv _]. by apply same_beside.
  - destruct (head_law _ _ _ _ Hx) as [Hv _]. by apply same_beside.
  - destruct (list_law _ _ _ _ Hx) as [Hv _]. by apply same_beside.
Qed.

Lemma ends_put_record p r m s :
  EndsR (trigger (ROs _ (OPut p (to_vec r) m))) s (fun x s' => beside p s s' /\
    match x with PutOk _ => content s' p = Some (to_vec r) | _ => True end).
Proof using Type.
  apply ends_effect. intros x s' Hx. pose proof (os_slots _ _ _ _ _ Hx) as Hs. cbn in Hx.
  destruct (put_law _ _ _ _ _ _ Hx) as [Ho Hr]. split.
  - split; [intros q Hq; unfold content; by rewrite Ho|done].
  - destruct x as [v| | |e]; try done. destruct Hr as [_ Hr]. unfold content. by rewrite Hr.
Qed.

Lemma ends_read p s :
  EndsR (read p) s (fun r s' => beside p s s' /\
    match r with
    | Ok (Some l) => exists raw, content s' p = Some raw /\ record_from_slice raw = Some (record l)
    | _ => True
    end).
Proof using Type.
  unfold read. apply ends_bind, ends_effect. intros x s' Hx. pose proof (os_slots _ _ _ _ _ Hx) as Hs. cbn in Hx.
  destruct (get_law _ _ _ _ Hx) as [Hv Hr]. cbn [ends]. split; [by apply same_beside|].
  destruct x as [b v| |e]; [|done|done]. destruct (record_from_slice b) as [r|] eqn:E; [|done].
  exists b. unfold content. rewrite Hv, Hr. by split.
Qed.

Lemma ends_load d s :
  EndsR (load o d) s (fun r s' => beside (rp d) s s' /\
    match r with
    | Ok (Some l) => exists raw, content s' (rp d) = Some raw /\ record_from_slice raw = Some (record l)
    | _ => True
    end).
Proof using Type.
  unfold load. eapply ends_seq_res; [apply ends_read| |by intros e s' [? _]].
  intros [l|] s1 [Hb1 Hl]; [by cbn|].
  eapply ends_seq; [by apply (ends_quiet_os _ (rp d))|]. intros h s2 Hb2.
  assert (Hb12 : beside (rp d) s s2) by (by eapply aside_trans). destruct h as [t| |e]; [|by cbn..].
  eapply (ends_seq _ _ _ _ (fun _ s' => s' = s2)); [apply ends_effect; by intros n s' [_ ->]|]. intros n s3 ->.
  eapply (ends_seq_res _ _ _ _ (fun _ s' => beside (rp d) s s')).
  - unfold create. eapply ends_seq; [apply ends_put_record|]. intros x s3 [Hb3 _]. cbn. by eapply aside_trans.
  - intros _ s3 Hb3. eapply ends_mono; [apply ends_read|]. intros r s4 [Hb4 Hr]. split; [by eapply aside_trans|done].
  - intros e s3 Hb3. by split.
Qed.

Lemma ends_now s : EndsR now_millis s (fun _ s' => s' = s).
Proof using Type. apply ends_effect. by intros x s' ->. Qed.

Lemma ends_nonce s : EndsR fresh_nonce s (fun i s' => nonce_ok i /\ s' = s).
Proof using Type. apply ends_effect. by intros x s' [? ->]. Qed.

Lemma ends_store_record {A} p r v (a : A) s key :
  (exists g, active r = Some g /\ physical_key g = key) ->
  EndsR (store_record p r v a) s (fun x s' => beside p s s' /\
    match x with
    | Ok (Some _) => exists raw r' g, content s' p = Some raw /\ record_from_slice raw = Some r' /\
        active r' = Some g /\ physical_key g = key
    | _ => True
    end).
Proof using Type.
  intros (g & Hg & Hk). unfold store_record. eapply ends_seq; [apply ends_nonce|]. intros n s1 [_ ->].
  unfold update. eapply (ends_seq_res _ _ _ _ (fun x s' => beside p s s' /\
    match x with Ok true => content s' p = Some (to_vec (with_nonce n r)) | _ => True end)).
  - eapply ends_seq; [apply ends_put_record|]. intros x s2 [Hb Hx]. cbn. split; [done|]. by destruct x.
  - intros landed s2 [Hb Hx]. cbn. split; [done|]. destruct landed; [|done].
    exists (to_vec (with_nonce n r)), (with_nonce n r), g. rewrite from_to. done.
  - intros e s2 [Hb _]. by split.
Qed.

Lemma ends_attempts {A} (body : prog (reg_eff V) (result (option A))) p msg (R : A -> S -> Prop) n : forall m s,
  (forall s, EndsR body s (fun r s' => beside p s s' /\ match r with Ok (Some a) => R a s' | _ => True end)) ->
  EndsR (attempts n m body msg) s (fun r s' => beside p s s' /\ match r with Ok a => R a s' | Err _ => True end).
Proof using Type.
  induction n as [|n IH]; intros m s Hb; cbn [attempts]; [by cbn; split; [apply beside_refl|]|].
  eapply ends_seq_res; [apply Hb| |by intros e s' [? _]].
  intros [a|] s1 [H1 Ha]; [by cbn|].
  eapply (ends_seq _ _ _ _ (fun _ s' => s' = s1)).
  - unfold backoff. eapply (ends_seq _ _ _ _ (fun _ s' => s' = s1)); [by apply ends_effect; intros x s' ->|].
    intros x s' ->. apply ends_effect. by intros y s' ->.
  - intros _ s' ->. eapply ends_mono; [by apply IH|]. intros r s2 [H2 Hr]. split; [by eapply aside_trans|done].
Qed.

Lemma ends_install d key s :
  EndsR (install o d key) s (fun r s' => beside (rp d) s s' /\
    match r with Ok _ => active_at s' d key | Err _ => True end).
Proof using Type.
  apply (ends_attempts _ (rp d) _ (fun _ s' => active_at s' d key)). clear s. intros s. unfold install_once.
  eapply ends_seq_res; [apply ends_load| |by intros e s' [? _]].
  intros [l|] s1 [Hb1 Hl].
  - destruct (is_some_and _ _) eqn:Eact.
    + cbn. split; [done|]. destruct Hl as (raw & Hraw & Hr). unfold is_some_and in Eact.
      destruct (active (record l)) as [a|] eqn:Ea; [|done]. apply String.eqb_eq in Eact. by exists raw, (record l), a.
    + destruct (active (record l)) as [a|]; repeat (eapply ends_seq; [apply ends_now|]; intros ? ? ->);
        (eapply ends_mono; [apply (ends_store_record _ _ _ _ _ key); eexists; split; reflexivity|]);
        intros r s2 [Hb2 Hr]; (split; [by eapply aside_trans|]); by destruct r as [[]|].
  - eapply ends_seq; [apply ends_nonce|]. intros n s2 [_ ->]. eapply ends_seq; [apply ends_now|]. intros t s2 ->.
    unfold create. eapply (ends_seq_res _ _ _ _ (fun x s' => beside (rp d) s s' /\
      match x with Ok true => active_at s' d key | _ => True end)).
    + eapply ends_seq; [apply ends_put_record|]. intros x s2 [Hb2 Hx]. cbn. split; [by eapply aside_trans|].
      destruct x; try done. eexists _, _, _. split; [exact Hx|]. split; [apply from_to|]. by split.
    + intros landed s2 [Hb2 Hx]. cbn. split; [done|]. by destruct landed.
    + intros e s2 [Hb2 _]. by split.
Qed.

(** ** Completing *)

(** The blob [d] is installed at [key], which holds [x], and [x] is what [d] promises. *)
Definition installed (s : S) (d : Digest) (x : string) : Prop :=
  exists i, nonce_ok i /\ active_at s d (generation_path o d i) /\
    content s (generation_path o d i) = Some x /\ of_algo (algo d) x = Some d.

Definition completed (d : Digest) (bytes : string) (body : list (result string)) (r : Z + up_answer) (s' : S) : Prop :=
  match r with
  | inl len => exists got, all_ok body = Some got /\ len = str_len (bytes +:+ got) /\ installed s' d (bytes +:+ got)
  | inr a => forall d', a <> Created d'
  end.

Lemma generation_not_record d i : valid_digest d -> nonce_ok i -> generation_path o d i <> rp d.
Proof using o_plain.
  intros Hd Hi E. by pose proof (place_inj o o_plain (PGeneration d i) (PState d) (conj Hd Hi) Hd E).
Qed.

(** Once the bytes are at a fresh generation, installing it completes the push. *)
Lemma ends_install_done d i x len s (Q : Z + up_answer -> S -> Prop) :
  valid_digest d -> nonce_ok i -> content s (generation_path o d i) = Some x -> of_algo (algo d) x = Some d ->
  (forall s', installed s' d x -> Q (inl len) s') -> (forall e s', Q (inr (UploadInternal e)) s') ->
  Ends (let! r := lift (fun X e => UReg X e) (install o d (generation_path o d i)) in
        Ret match r with Err e => inr (UploadInternal e) | Ok _ => inl len end) s Q.
Proof using o_plain.
  intros Hd Hi Hc Hf Hok Herr. eapply ends_seq; [apply ends_reg, ends_install|].
  intros [[]|e] s' [[Hq _] Hr]; cbn [ends]; [|apply Herr]. apply Hok. exists i. split; [done|]. split; [done|].
  split; [|done]. rewrite Hq; [done|]. by apply generation_not_record.
Qed.

Lemma ends_complete_staged u d body bytes s :
  valid_digest d -> small_chunks body -> str_len bytes <= max_layer -> content s (stg u) = Some bytes ->
  Ends (complete_staged o name max_layer u d body) s (completed d bytes body).
Proof using cap_ok o_plain.
  intros Hd Hsm Hle Hst. unfold complete_staged. eapply ends_seq; [apply ends_staged|].
  intros r s1 (Hv & Hs & Hr). destruct r as [[[n src]|]|e]; [|by cbn..].
  destruct Hr as (b & Hb & _ & Hchunks & Hx). rewrite (content_same s s1 Hv), Hst in Hb. injection Hb as <-.
  unfold new_generation. eapply (ends_seq _ _ _ _ (fun g s' => nonce_ok g.1 /\ g.2 = generation_path o d g.1)).
  { apply ends_reg. eapply ends_seq; [apply ends_nonce|]. intros i s' [Hi ->]. by cbn. }
  intros [i g] s2 [Hi Hg]. cbn [fst snd] in *. subst g.
  eapply ends_seq; [apply ends_reg, (ends_pour _ (Some d))|].
  - apply Forall_app. split; [apply Hchunks; lia|done].
  - done.
  - by intros ? [= <-].
  - intros r s3 [_ Hr]. destruct r as [len|[| |e]]; [|by cbn..].
    destruct Hr as (x & Hall & Hc & -> & Hlx & Hf). destruct (streamed_then src body bytes x Hx Hall) as (got & Hgot & ->).
    apply (ends_install_done d i (bytes +:+ got)); try done. intros s4 Hinst. by exists got.
Qed.

Lemma ends_hash_all a src : forall bytes h s, fed a bytes h ->
  Ends (hash_all src h) s (fun r s' => s' = s /\
    match r with Ok h => exists x, all_ok src = Some x /\ fed a (bytes +:+ x) h | Err _ => True end).
Proof using Type.
  induction src as [|[chunk|e] src IH]; intros bytes h s Hf; cbn [hash_all].
  - cbn. split; [done|]. exists "". by rewrite append_nil_r.
  - eapply ends_seq_res; [by apply ends_reg, ends_hasher_update| |by intros e s' [-> _]].
    intros h' s' [-> Hf']. eapply ends_mono; [by apply IH|]. intros r s2 [-> Hr]. split; [done|].
    destruct r as [h2|e]; [|done]. destruct Hr as (x & Hx & Hf2). exists (chunk +:+ x)%string. cbn [all_ok].
    rewrite Hx. split; [done|]. by rewrite <- append_assoc.
  - by cbn.
Qed.

Lemma ends_verify_copy u d x s :
  valid_digest d -> content s (stg u) = Some x ->
  Ends (verify_copy o name max_layer u d) s (fun r s' =>
    match r with inl len => len = str_len x /\ installed s' d x | inr a => forall d', a <> Created d' end).
Proof using o_plain.
  intros Hd Hst. unfold verify_copy. eapply ends_seq; [apply ends_staged|].
  intros r s1 (Hv & Hs & Hr). destruct r as [[[n src]|]|e]; [|by cbn..].
  destruct Hr as (b & Hb & -> & Hchunks & Hx). rewrite (content_same s s1 Hv), Hst in Hb. injection Hb as <-.
  destruct (max_layer <? str_len x); [by cbn|].
  assert (Hh : hasher_new (algo d) = Some (mkHasher (algo d) "" "")).
  { destruct Hd as (k & Hk & _). unfold hasher_new. by rewrite Hk. }
  rewrite Hh.
  eapply (ends_seq _ _ _ _ (fun r s' => s' = s1 /\
    match r with Ok got => exists y, all_ok src = Some y /\ got = mkDigest (algo d) (sha (algo d) y) | Err _ => True end)).
  { eapply ends_seq_res; [by apply (ends_hash_all (algo d) src "")| |by intros e s' [-> _]].
    intros h' s' [-> (y & Hy & Hf)]. eapply ends_mono; [by apply ends_reg, ends_hasher_finish|].
    intros r s' [-> Hr]. split; [done|]. destruct r as [got|e]; [|done]. by exists y. }
  intros [got|e] s2 [-> Hgot]; [|by cbn]. destruct (bool_decide (got = d)) eqn:E; [|by cbn].
  apply bool_decide_eq_true in E. destruct Hgot as (y & Hy & Hg). rewrite (Hx y Hy) in Hg. cbn [negb].
  assert (Hf : of_algo (algo d) x = Some d).
  { unfold of_algo. destruct Hd as (k & -> & _). by rewrite <- Hg, E. }
  unfold new_generation. eapply (ends_seq _ _ _ _ (fun g s' => s' = s1 /\ nonce_ok g.1 /\ g.2 = generation_path o d g.1)).
  { apply ends_reg. eapply ends_seq; [apply ends_nonce|]. intros i s' [Hi ->]. by cbn. }
  intros [i g] s3 (-> & Hi & ->). cbn [fst snd].
  apply ends_bind, ends_effect. intros r s3 Hm. destruct (copy_law _ _ _ _ _ Hm) as (_ & _ & Hr).
  destruct r as [[]|e]; [|by cbn]. destruct Hr as (b & v & v' & Hb & Hb').
  assert (Hc : content s3 (generation_path o d i) = Some x).
  { unfold content in *. rewrite Hb'. rewrite <- Hv, Hb in Hst. exact Hst. }
  apply (ends_install_done d i x); try done.
Qed.

Lemma ends_complete_parts u d sc body bytes s :
  valid_uuid u = true -> valid_digest d -> str_len bytes <= max_layer -> sidecar_holds s sc bytes ->
  Ends (complete_parts o name has_mp max_layer u d sc body) s (completed d bytes body).
Proof using cap_ok o_plain name_plain.
  intros Hu Hd Hle [(bs & Hb & _ & Hlen & Hbytes) Ht]. unfold complete_parts. destruct has_mp; [|by cbn].
  cbn [negb]. cbv zeta. assert (H0 : str_len "" = 0) by done.
  assert (Hl0 : 0 <= m_len (meta sc)) by (rewrite Hlen, total_concat; apply str_len_pos).
  eapply ends_seq; [apply ends_put_parts; unfold sat_room, sat_sub, MIN_PART, u64_max, i64_max in *; rewrite ?H0; lia|].
  intros r s1 [[Hv Hb1] Hput]. destruct r as [[[ids parted] rest]|e]; [|by destruct e].
  destruct Hput as (new & bs' & got0 & Hg & -> & Hsl & Hcat & _ & _ & -> & _).
  cbn [app append] in *. unfold tail_then in Hg. cbn [all_ok] in Hg.
  destruct (all_ok body) as [got|] eqn:Eb; [|done]. injection Hg as <-.
  assert (Hslots : slots_hold slot s1 (m_id (meta sc)) 0 (m_parts (meta sc) ++ new) (bs ++ bs')).
  { apply slots_hold_app; [|by rewrite Nat.add_0_l]. eapply slots_hold_same; [|exact Hb].
    intros i Hi. apply Hb1. right. lia. }
  assert (Hall : concat_all (bs ++ bs') = (bytes +:+ got)%string).
  { rewrite concat_all_app. rewrite append_nil_r in Hcat. rewrite <- Hcat, Hbytes. by rewrite append_assoc. }
  destruct (m_parts (meta sc) ++ new)%list as [|c parts] eqn:Eparts.
  - apply ends_bind, ends_effect. intros x s2 _. apply ends_bind, ends_effect. intros y s3 _. by cbn.
  - apply ends_bind, ends_effect. intros r s2 Hm. destruct (complete_law _ _ _ _ _ _ Hm) as [_ Hr].
    destruct r as [[]|e]; [|by cbn]. destruct (Hr _ Hslots) as (v & Hv2).
    apply ends_bind, ends_delete. intros x s3 [Hq _].
    eapply ends_mono; [apply (ends_verify_copy u d (bytes +:+ got)); [done|]|].
    + rewrite Hq by (by apply staging_not_sidecar). unfold content. by rewrite Hv2, Hall.
    + intros [len|a] s4; [|done]. intros [-> Hi]. by exists got.
Qed.

(** A completed upload is right.  When a PUT answers that a blob was created, the digest it was
    sent is the blob's, the blob's record names a generation, and that generation holds exactly the
    bytes of the session followed by the body, which hash to the digest. *)
Theorem completed_bytes_right u digest content_range length_header body bytes s :
  holds s u bytes -> small_chunks body ->
  Ends (complete o name has_mp max_layer u digest content_range length_header body) s (fun a s' =>
    match a with
    | Created d => Digests.parse digest = Some d /\ exists got i, all_ok body = Some got /\
        active_at s' d (generation_path o d i) /\
        content s' (generation_path o d i) = Some (bytes +:+ got) /\ of_algo (algo d) (bytes +:+ got) = Some d
    | _ => True
    end).
Proof using cap_ok o_plain name_plain.
  intros Hh Hsm. unfold complete. destruct (valid_uuid u) eqn:Hu; [|by cbn]. cbn [negb].
  destruct (Digests.parse digest) as [d|] eqn:Ed; [|by cbn]. pose proof (digest_parse_valid _ _ Ed) as Hd.
  eapply ends_seq; [by apply ends_session|]. intros r s1 (Hv & Hh1 & Hr).
  destruct r as [[[have sc]|]|e]; [|by cbn..]. destruct Hr as [-> Hread].
  destruct (declared_chunk content_range (str_len bytes)) as [declared|a] eqn:Edc.
  2:{ cbn. unfold declared_chunk in Edc. destruct content_range; [|done]. cbv zeta in Edc.
      destruct (negb _); [by injection Edc as <-|].
      destruct (_ ← _; _) as [e|]; [|done]. destruct (_ && _); [done|]. by injection Edc as <-. }
  destruct (lengths_differ _ _); [by cbn|].
  eapply (ends_seq _ _ _ _ (completed d bytes body)).
  { destruct Hh1 as [Hle _]. destruct sc as [sc|].
    - destruct Hread as (_ & raw & _ & _ & Hsc). by apply ends_complete_parts.
    - destruct Hread as [_ Hst]. by apply ends_complete_staged. }
  intros [len|a] s2 Hr; [|cbn; destruct a; try done; by destruct (Hr d0)].
  destruct Hr as (got & Hgot & -> & i & Hi & Hact & Hc & Hf).
  destruct (advanced _ _ _ _) as [| d'| | | | | | | | |] eqn:Ea; try done.
  assert (d' = d) as ->.
  { unfold advanced in Ea. destruct (_ <=? _); [|done]. destruct (is_some_and _ _); [done|]. by injection Ea. }
  eapply ends_seq; [apply ends_reg, ends_call|]. intros [[]|e] s3 ->; [|by cbn].
  unfold discard. eapply (ends_seq _ _ _ _ (fun _ s' => active_at s' d (generation_path o d i) /\
    content s' (generation_path o d i) = Some (bytes +:+ got))).
  - destruct (session_not_place u (PGeneration d i) Hu (conj Hd Hi)) as [Hg1 Hg2].
    destruct (session_not_place u (PState d) Hu Hd) as [Hp1 Hp2]. cbn [place_path] in *.
    apply ends_bind, ends_delete. intros x s3 [Hq _]. cbn [bind].
    apply ends_bind, ends_delete. intros y s4 [Hq' _]. cbn [ends]. unfold active_at in *.
    rewrite !Hq', !Hq by done. by split.
  - intros _ s3 [Hact3 Hc3]. cbn. split; [done|]. by exists got, i.
Qed.
End safe.

(** ** Abandoned sessions *)
Lemma last_activity_app objects x :
  last_activity (objects ++ [x]) =
  <[session_of x.1 := match last_activity objects !! session_of x.1 with Some t => Z.max t x.2 | None => x.2 end]>
    (last_activity objects).
Proof. unfold last_activity. by rewrite fold_left_app. Qed.

Lemma last_activity_spec objects k :
  match last_activity objects !! k with
  | Some m => (forall q t, (q, t) ∈ objects -> session_of q = k -> t <= m) /\
              exists q, (q, m) ∈ objects /\ session_of q = k
  | None => forall q t, (q, t) ∈ objects -> session_of q <> k
  end.
Proof.
  induction objects as [|[q0 t0] objects IH] using rev_ind.
  - unfold last_activity. cbn [fold_left]. rewrite lookup_empty. intros q t Hin. by apply not_elem_of_nil in Hin.
  - assert (Hin : forall y, y ∈ (objects ++ [(q0, t0)])%list <-> y ∈ objects \/ y = (q0, t0)).
    { intros y. by rewrite elem_of_app, list_elem_of_singleton. }
    rewrite last_activity_app. cbn [fst snd]. destruct (decide (session_of q0 = k)) as [Hk|Hne].
    + subst k. rewrite lookup_insert_eq. destruct (last_activity objects !! session_of q0) as [m|].
      * destruct IH as [Hm (q & Hq & Hs)]. split.
        -- intros q' t [Hx|[= -> ->]]%Hin Hs'; [|lia]. specialize (Hm q' t Hx Hs'). lia.
        -- destruct (Z.max_spec m t0) as [[_ ->]|[_ ->]]; [exists q0|exists q]; rewrite Hin; auto.
      * split; [|exists q0; rewrite Hin; auto].
        intros q t [Hx|[= -> ->]]%Hin Hs; [by destruct (IH q t)|lia].
    + rewrite lookup_insert_ne by done. destruct (last_activity objects !! k) as [m|].
      * destruct IH as [Hm (q & Hq & Hs)]. split; [|exists q; rewrite Hin; auto].
        intros q' t [Hx|[= -> ->]]%Hin Hs'; [by eapply Hm|done].
      * intros q t [Hx|[= -> ->]]%Hin; [by eapply IH|done].
Qed.

(** An abandoned session is one with no recent activity: of a listing, the sweep deletes exactly
    the objects all of whose session's objects, staging and sidecar alike, are older than the
    cutoff. *)
Theorem stale_is_abandoned objects cutoff p t :
  (p, t) ∈ objects ->
  stale (last_activity objects) cutoff (p, t) = true <->
  forall q t', (q, t') ∈ objects -> session_of q = session_of p -> t' <= cutoff.
Proof.
  intros Hp. unfold stale. cbn [fst]. pose proof (last_activity_spec objects (session_of p)) as Hs.
  destruct (last_activity objects !! session_of p) as [m|]; [|by destruct (Hs p t)].
  cbn. rewrite negb_true_iff, Z.ltb_ge. destruct Hs as [Hm (q & Hq & Heq)]. split.
  - intros Hle q' t' Hin Hs. specialize (Hm q' t' Hin Hs). lia.
  - intros H. by apply (H q).
Qed.

Lemma stale_is_abandoned_witness :
  ("uploads/acme/web/7.parts", 50) ∈ [("uploads/acme/web/7", 10); ("uploads/acme/web/7.parts", 50)] /\
  (stale (last_activity [("uploads/acme/web/7", 10); ("uploads/acme/web/7.parts", 50)]) 20
     ("uploads/acme/web/7.parts", 50) = true <->
   forall q t', (q, t') ∈ [("uploads/acme/web/7", 10); ("uploads/acme/web/7.parts", 50)] ->
     session_of q = session_of "uploads/acme/web/7.parts" -> t' <= 20).
Proof.
  assert (H : ("uploads/acme/web/7.parts", 50) ∈ [("uploads/acme/web/7", 10); ("uploads/acme/web/7.parts", 50)])
    by (right; left).
  split; [exact H|]. exact (stale_is_abandoned _ 20 "uploads/acme/web/7.parts" 50 H).
Defined.
