(* ===== verification/BlobWitness.v ===== *)
(** * BlobWitness: a run of the registry

    [scenario] pushes two blobs, then a manifest that names the first, then sweeps two days later,
    on the store in memory of [RegistryLocal]; the theorems of [BlobSafe] are applied to the state
    it ends in, and those of [RegistryAlone] to the same layer and store. *)

From S2P Require Import Prelude Text Names Prog ObjStore Oci BlobState Pour BlobPush BlobGc BlobWorld BlobRules BlobSafe RegistryLocal OciProps RegistryAlone.
Local Open Scope string_scope.
Local Open Scope Z_scope.

(** ** A scenario *)
Module Scenario.
Definition owner : string := "acme".
Definition grace : Z := BLOB_GRACE.
Definition layer : string := "layer".
Definition orphan : string := "an orphan".
Definition layer_digest : Digest := of_bytes layer.
Definition orphan_digest : Digest := of_bytes orphan.

Definition manifest_text : string := "{layers: [{digest: the layer, size: 5}]}".
Definition manifest_json : json :=
  JObject [("layers", JArray [JObject [("digest", JString (Digests.display layer_digest));
                                       ("size", JNumber (PosInt 5))]])].

#[global] Instance one_manifest : Serde := fun s =>
  if String.eqb s manifest_text then Some manifest_json else None.

Definition manifest_digest : Digest := of_bytes manifest_text.
(** The push of the manifest starts at 2000. *)
Definition started (t : nat) : option Z := if Nat.eqb t 2 then Some 2000 else None.
Definition kept (d : Digest) : Prop := d = layer_digest.

Definition two_days : Z := 48 * 3600 * 1000.

(** The tasks in the order they run, with the time each starts from. *)
Definition tasks : list (nat * Z * prog (reg_eff nat) unit) :=
  [(0%nat, 1000, done (finish_blob owner (Digests.display layer_digest) [Ok "lay"; Ok "er"] 100));
   (1%nat, 1500, done (finish_blob owner (Digests.display orphan_digest) [Ok orphan] 100));
   (2%nat, 2000, done (put_manifest owner "web" "v1" [] [Ok manifest_text]));
   (3%nat, two_days, done (sweep_owner (fun _ => true) owner grace))].

Definition go (acc : option lworld) (x : nat * Z * prog (reg_eff nat) unit) : option lworld :=
  w ← acc; '(_, w) ← @run _ _ _ (local started grace x.1.1 x.1.2) x.2 w; Some w.

Definition final : option lworld := fold_left go tasks (Some (fresh_world 0)).

Definition end_world : lworld := default (fresh_world 0) final.

Abbreviation reaches := (registry_reaches owner grace kept started (fun _ => true)).

Lemma owner_plain : plain_name owner.
Proof. split; reflexivity. Qed.

Lemma task_entry t at_ p : (t, at_, p) ∈ tasks ->
  registry_task owner grace kept started (fun _ => true) t p.
Proof.
  intros H. repeat (apply elem_of_cons in H as [[= -> -> ->]|H]); [..|by apply not_elem_of_nil in H].
  - apply TaskPushBlob.
  - apply TaskPushBlob.
  - by apply (TaskPushManifest _ _ _ _ _ _ 2000); [|split].
  - apply TaskSweep.
Qed.

(** Tasks run one after another are one interleaving. *)
Lemma go_reaches ts : forall w l w', NoDup ts.*1.*1 -> (forall t, t ∈ ts.*1.*1 -> t ∉ l.*1) ->
  (forall x, x ∈ ts -> x ∈ tasks) ->
  fold_left go ts (Some w) = Some w' ->
  exists l', rtc (pstep (rsem grace started) (registry_task owner grace kept started (fun _ => true)))
    (w, l) (w', l').
Proof.
  induction ts as [|[[t at_] p] ts IH]; intros w l w' Hnd Hf Hin; cbn [fold_left]; [by intros [= ->]; exists l|].
  unfold go at 2. cbn [fst snd mbind option_bind].
  destruct (@run _ _ _ (local started grace t at_) p w) as [[[] w1]|] eqn:E.
  - cbn [mbind option_bind]. intros Hgo. rewrite !fmap_cons in Hnd. cbn in Hnd. apply NoDup_cons in Hnd as [Hn Hnd].
    destruct (IH w1 ((t, Ret tt) :: l) w' Hnd) as [l' Hl'].
    + intros t' Ht'. rewrite fmap_cons. cbn. intros [->|Hl]%elem_of_cons; [done|].
      eapply Hf; [|exact Hl]. rewrite !fmap_cons. by right.
    + intros x Hx. apply Hin. by right.
    + exact Hgo.
    + exists l'. etrans; [|exact Hl']. eapply runs_reach; [| |by apply (local_runs _ _ _ at_)].
      * eapply task_entry, Hin. left.
      * apply Hf. rewrite !fmap_cons. left.
  - cbn [mbind option_bind]. clear. induction ts as [|x ts IH]; [done|]. exact IH.
Qed.

Lemma final_end : final = Some end_world.
Proof.
  assert (H : is_some final = true) by (vm_compute; reflexivity).
  unfold end_world. by destruct final.
Qed.

Lemma reached : reaches (fresh_world 0) end_world.
Proof.
  pose proof final_end as H. apply (go_reaches tasks (fresh_world 0) [] end_world); [|by intros ? _ ?%not_elem_of_nil|auto|exact H].
  apply (bool_decide_unpack _). by vm_compute.
Qed.

Lemma start_inv : inv owner kept (fresh_world 0).
Proof. apply fresh_registry_inv, owner_plain. Qed.

(** The active generation at the end of the scenario. *)
Definition end_active : BlobGeneration :=
  mkGeneration (generation_path owner layer_digest (nth_nonce 0)) [] 1000.

Lemma active_bytes_right_witness :
  cur owner end_world layer_digest = Some (mkRecord (nth_nonce 6) (Some end_active) []) /\
  exists b, content end_world (physical_key end_active) = Some b /\
    of_algo (algo layer_digest) b = Some layer_digest.
Proof.
  assert (Hc : cur owner end_world layer_digest = Some (mkRecord (nth_nonce 6) (Some end_active) []))
    by (vm_compute; reflexivity).
  split; [exact Hc|].
  apply (active_bytes_right owner owner_plain grace kept started (fun _ => true)
    (fresh_world 0) end_world layer_digest (mkRecord (nth_nonce 6) (Some end_active) []) end_active).
  - exact start_inv.
  - exact reached.
  - apply of_bytes_valid.
  - exact Hc.
  - reflexivity.
Defined.

Lemma named_blob_held_witness :
  (cur owner end_world orphan_digest ≫= active) = None /\
  ((exists r a bytes, cur owner end_world layer_digest = Some r /\ active r = Some a /\
     content end_world (physical_key a) = Some bytes /\ of_algo (algo layer_digest) bytes = Some layer_digest) \/
   was_manifest owner end_world "web" layer_digest).
Proof.
  split; [vm_compute; reflexivity|].
  apply (named_blob_held owner owner_plain grace kept started (fun _ => true)
    (fresh_world 0) end_world "web" manifest_digest manifest_text layer_digest).
  - exact start_inv.
  - exact reached.
  - split; reflexivity.
  - apply of_bytes_valid.
  - vm_compute. reflexivity.
  - exists [layer_digest]. split; [vm_compute; reflexivity|left].
  - reflexivity.
Defined.

(** ** The same layer, pushed alone *)
Definition before : calm_state := Calm (MemStore.empty 0) 1000 0.
Definition body : list (result string) := [Ok "lay"; Ok "er"].

Lemma layer_valid : valid_digest layer_digest.
Proof. apply of_bytes_valid. Qed.

Lemma body_small : small_chunks body.
Proof. repeat apply Forall_cons_2; try constructor; by vm_compute. Qed.

Lemma pour_all_or_nothing_witness :
  exists r w', @run _ _ _ (calm nth_nonce) (pour "a/place" (Some layer_digest) body 100) before = Some (r, w') /\
  match r with
  | inl n => exists bytes, all_ok body = Some bytes /\ n = str_len bytes /\ n <= 100 /\
      of_algo (algo layer_digest) bytes = Some layer_digest /\ w' = put_at "a/place" bytes before
  | inr TooLarge => w' = before /\ exists bytes, prefix_of body bytes /\ 100 < str_len bytes
  | inr WrongDigest => w' = before /\ exists bytes, all_ok body = Some bytes /\
      of_algo (algo layer_digest) bytes <> Some layer_digest
  | inr (Failed e) => w' = before /\ Err e ∈ body
  end.
Proof.
  apply (pour_all_or_nothing nth_nonce "a/place" layer_digest body 100 before).
  - apply layer_valid.
  - apply body_small.
  - vm_compute. split; discriminate.
Defined.

Lemma pushed_blob_pulls_witness :
  exists w' p v, @run _ _ _ (calm nth_nonce) (finish_blob owner (Digests.display layer_digest) body 100) before
      = Some (inl layer_digest, w') /\
    @run _ _ _ (calm nth_nonce) (resolve owner layer_digest) w' = Some (Ok (Some p), w') /\
    MemStore.mview (c_store w') p = Some (layer, v).
Proof.
  apply (pushed_blob_pulls nth_nonce owner layer_digest body 100 layer before).
  - apply owner_plain.
  - apply layer_valid.
  - intros b v [=].
  - split; reflexivity.
  - apply body_small.
  - vm_compute. split; discriminate.
  - reflexivity.
  - vm_compute. discriminate.
  - vm_compute. reflexivity.
Defined.

(** A store with a manifest that is no JSON. *)
Definition broken_manifest : path := manifest_path owner "web" manifest_digest.
Definition broken : calm_state := put_at broken_manifest "no json" before.

Lemma unreadable_manifest_stops_sweep_witness :
  exists r w', @run _ _ _ (calm nth_nonce) (sweep_owner (fun _ => true) owner grace) broken = Some (r, w') /\
    (r = Ok 0 \/ exists e, r = Err e) /\
    (forall d a, valid_digest d -> act owner broken d = Some a -> act owner w' d = Some a) /\
    (forall q, under (path_from ("manifests/" +:+ owner)) q = true ->
       MemStore.mview (c_store w') q = MemStore.mview (c_store broken) q).
Proof.
  apply (unreadable_manifest_stops_sweep nth_nonce owner owner_plain (fun _ => true) grace broken
    broken_manifest "no json" 0).
  - intros d r v k Hd (b & Hb & _). exfalso. unfold broken in Hb. rewrite view_put in Hb.
    case_decide as E; [|done].
    change (broken_manifest) with (place_path owner (PManifest "web" manifest_digest)) in E.
    change (state_path owner d) with (place_path owner (PState d)) in E.
    apply place_inj in E; [done|exact owner_plain| |exact Hd].
    split; [split; reflexivity|apply of_bytes_valid].
  - vm_compute. reflexivity.
  - vm_compute. reflexivity.
  - vm_compute. reflexivity.
Defined.
End Scenario.
