(* ===== verification/UploadWitness.v ===== *)
(** * UploadWitness: an upload session on a store in memory

    [MemStore] with the slots of multipart uploads beside it satisfies the laws of [MultipartStore];
    a session is opened, a chunk put, and the upload completed on it. *)

From S2P Require Import Prelude Text Names Prog Sched ObjStore Oci BlobState Pour BlobWorld RegistryLocal OciProps RegistryAlone Upload UploadSafe.
Local Open Scope string_scope.
Local Open Scope Z_scope.

Record ustore := UStore { umem : MemStore.mem; uslots : gmap (string * nat) (string * string) }.

#[global] Program Instance up_store : ObjectStore nat ustore := {|
  osem X e s x s' := MemStore.mem_sem X e (umem s) x (umem s') /\ uslots s' = uslots s;
  view s := MemStore.mview (umem s);
  seen s := MemStore.mseen (umem s);
|}.
Next Obligation. intros s. exact (@view_seen nat MemStore.mem MemStore.mem_store (umem s)). Qed.
Next Obligation. intros s. exact (@seen_fun nat MemStore.mem MemStore.mem_store (umem s)). Qed.
Next Obligation. cbn. intros X e s x s' p v b [He _]. by eapply (@seen_mono nat MemStore.mem MemStore.mem_store X e). Qed.
Next Obligation. cbn. intros s p r s' [He _]. by apply (@get_law nat MemStore.mem MemStore.mem_store (umem s)). Qed.
Next Obligation. cbn. intros s p b m r s' [He _]. by apply (@put_law nat MemStore.mem MemStore.mem_store (umem s)). Qed.
Next Obligation. cbn. intros X e s x s' p v b [He _]. by eapply (@seen_inv nat MemStore.mem MemStore.mem_store X e). Qed.
Next Obligation. cbn. intros s p r s' [He _]. by apply (@head_law nat MemStore.mem MemStore.mem_store (umem s)). Qed.
Next Obligation. cbn. intros s p r s' [He _]. by apply (@del_law nat MemStore.mem MemStore.mem_store (umem s)). Qed.
Next Obligation. cbn. intros s p r s' [He _]. by apply (@list_law nat MemStore.mem MemStore.mem_store (umem s)). Qed.

(** The bytes of these parts, from slot [k] on, if they are the ones the slots have. *)
Fixpoint assemble (s : ustore) (id : string) (k : nat) (parts : list string) : option string :=
  match parts with
  | [] => Some ""
  | c :: parts =>
    '(c', b) ← uslots s !! (id, k);
    if String.eqb c' c then rest ← assemble s id (S k) parts; Some (b +:+ rest) else None
  end.

Definition uput (p : path) (b : string) (s : ustore) : ustore := UStore (MemStore.mput p b (umem s)) (uslots s).

Definition mexec (X : Type) (e : mp_eff X) (s : ustore) : X * ustore :=
  match e in mp_eff X return X * ustore with
  | MSize p => (Ok (option_map (fun x => str_len x.1) (MemStore.mview (umem s) p)), s)
  | MStream p => (Ok (option_map (fun x => (str_len x.1, [Ok x.1])) (MemStore.mview (umem s) p)), s)
  | MCopy p q =>
    match MemStore.mview (umem s) p with
    | Some (b, _) => (Ok tt, uput q b s)
    | None => (Err (EStore "not found"), s)
    end
  | MCreate _ => (Ok "an upload", s)
  | MPart _ id idx b =>
    let c := display (Z.of_nat idx) in (Ok c, UStore (umem s) (<[(id, idx) := (c, b)]> (uslots s)))
  | MComplete p id parts =>
    match assemble s id 0 parts with
    | Some b => (Ok tt, uput p b s)
    | None => (Err (EStore "invalid part"), s)
    end
  | MAbort _ _ => (Ok tt, s)
  | MTimes prefix =>
    (map (fun q => Ok (q, 0)) (filter (fun q => is_true (under prefix q)) (map_to_list (MemStore.objs (umem s))).*1), s)
  end.

Definition mfail {X} (e : mp_eff X) : error -> X :=
  match e in mp_eff X return error -> X with
  | MSize _ => Err | MStream _ => Err | MCopy _ _ => Err | MCreate _ => Err
  | MPart _ _ _ _ => Err | MComplete _ _ _ => Err | MAbort _ _ => Err
  | MTimes _ => fun e => [Err e]
  end.

Definition mem_multipart (X : Type) (e : mp_eff X) (s : ustore) (x : X) (s' : ustore) : Prop :=
  mexec X e s = (x, s') \/ (exists err, x = mfail e err) /\ s' = s.

Lemma assemble_slots s id parts : forall k bs,
  slots_hold (fun s id i => uslots s !! (id, i)) s id k parts bs -> assemble s id k parts = Some (concat_all bs).
Proof.
  induction parts as [|c parts IH]; intros k [|b bs]; cbn; try done. intros [-> H]. cbn.
  rewrite String.eqb_refl, (IH _ _ H). done.
Qed.

#[global] Program Instance up_multipart : MultipartStore nat ustore := {|
  msem := mem_multipart;
  slot s id i := uslots s !! (id, i);
|}.
Next Obligation. cbn. intros X e s x s' [_ Hs] id i. by rewrite Hs. Qed.
Next Obligation.
  intros p s r s' [[= <- <-]|[[e ->] ->]]; cbn; [|done]. split; [done|]. split; [done|].
  destruct (MemStore.mview (umem s) p) as [[b v]|]; cbn; [|done]. by exists b, v.
Qed.
Next Obligation.
  intros p s r s' [[= <- <-]|[[e ->] ->]]; cbn; [|done]. split; [done|]. split; [done|].
  destruct (MemStore.mview (umem s) p) as [[b v]|]; cbn; [|done]. exists b, v. split; [done|]. split; [done|].
  split; [by constructor|]. intros x. rewrite append_nil_r. by intros [= <-].
Qed.
Next Obligation.
  intros p q s r s' [H|[[e ->] ->]]; cbn; [|done]. cbn in H.
  destruct (MemStore.mview (umem s) p) as [[b v]|] eqn:E; injection H as <- <-; [|done]. split.
  - intros x Hx. cbn. rewrite MemStore.mput_view. by rewrite decide_False.
  - split; [done|]. exists b, v, (List.length (MemStore.log (umem s))). split; [done|]. cbn.
    rewrite MemStore.mput_view. by rewrite decide_True.
Qed.
Next Obligation. by intros p s r s' [[= <- <-]|[[e ->] ->]]. Qed.
Next Obligation.
  intros p id idx b s r s' [[= <- <-]|[[e ->] ->]]; cbn; [|done]. split; [done|]. split.
  - intros id' i Hi. by rewrite lookup_insert_ne by congruence.
  - by rewrite lookup_insert_eq.
Qed.
Next Obligation.
  intros p id parts s r s' [H|[[e ->] ->]]; cbn; [|done]. cbn in H.
  destruct (assemble s id 0 parts) as [b|] eqn:E; injection H as <- <-; [|done]. split.
  - intros q Hq. cbn. rewrite MemStore.mput_view. by rewrite decide_False.
  - intros bs Hbs. apply assemble_slots in Hbs. rewrite E in Hbs. injection Hbs as ->.
    eexists. cbn. rewrite MemStore.mput_view. by rewrite decide_True.
Qed.
Next Obligation. by intros p id s r s' [[= <- <-]|[[e ->] ->]]. Qed.
Next Obligation. by intros p s r s' [[= <- <-]|[[e ->] ->]]. Qed.

(** [Meta] in bits, as records are. *)
#[global] Instance meta_eq_dec : EqDecision Meta.
Proof. solve_decision. Defined.
#[global] Program Instance meta_countable : Countable Meta :=
  inj_countable' (fun m => (m_id m, m_parts m, m_len m)) (fun x => mkMeta x.1.1 x.1.2 x.2) _.
Next Obligation. by intros []. Qed.

Lemma bits_one_line p : contains_char nl (bits p) = false.
Proof. by induction p. Qed.

#[global] Program Instance local_meta : MetaSerde := {|
  meta_to_vec m := bits (encode m);
  meta_from_slice s := p ← unbits s; decode p;
|}.
Next Obligation. intros m. cbn. rewrite unbits_bits. apply decode_encode. Qed.
Next Obligation. intros m. apply bits_one_line. Qed.

(** ** Running a session *)
Record urun := URun { u_store : ustore; u_drawn : nat }.

#[global] Instance up_exec : Exec (up_eff nat) urun := fun X e w =>
  match e in up_eff _ X return option (X * urun) with
  | UReg X e =>
    match e in reg_eff _ X return option (X * urun) with
    | ROs X e => '(x, m) ← exec X e (umem (u_store w)); Some (x, URun (UStore m (uslots (u_store w))) (u_drawn w))
    | RNow => Some (0, w)
    | RNonce => Some (nth_nonce (u_drawn w), URun (u_store w) (S (u_drawn w)))
    | RRandom => Some (0, w)
    | RSleep _ => Some (tt, w)
    | RCall _ => Some (Ok tt, w)
    end
  | UMp X e => let '(x, s) := mexec X e (u_store w) in Some (x, URun s (u_drawn w))
  end.

Module Session.
Definition owner : string := "acme".
Definition name : string := "web".
Definition cap : Z := 1000.
Definition uuid : string := nth_nonce 0.
Definition opened : ustore :=
  UStore (MemStore.mput (staging owner name uuid) "" (MemStore.empty 0)) ∅.
Definition chunk : list (result string) := [Ok "lay"].
Definition rest : list (result string) := [Ok "er"].
Definition digest : Digest := of_bytes "layer".

(** Open, one chunk, completion with the last bytes: the blob is created. *)
Definition answers : option (up_answer * up_answer * up_answer) :=
  '(a, w) ← run (open_session owner name) (URun (UStore (MemStore.empty 0) ∅) 0);
  '(b, w) ← run (patch owner name true cap uuid (Some "0-2") (Some "3") chunk) w;
  '(c, _) ← run (complete owner name true cap uuid (Digests.display digest) None None rest) w;
  Some (a, b, c).

Example session_runs : answers = Some (Accepted 0, Accepted 3, Created digest).
Proof. vm_compute. reflexivity. Qed.

Lemma session_owner_plain : plain_name owner.
Proof. split; reflexivity. Qed.
Lemma name_plain : plain_name name.
Proof. split; reflexivity. Qed.

Lemma cap_ok : 0 <= cap <= i64_max.
Proof. split; vm_compute; discriminate. Qed.

Lemma opened_holds : holds owner name true cap opened uuid "".
Proof.
  split; [vm_compute; discriminate|]. exists "". split; [vm_compute; reflexivity|].
  assert (E : content opened (sidecar_path owner name uuid) = None) by (vm_compute; reflexivity).
  rewrite E. reflexivity.
Qed.


(** A chunk put by a node with a multipart store, one put by a node without, and the session's length. *)
Definition mixed : option (up_answer * up_answer * up_answer) :=
  '(_, w) ← run (open_session owner name) (URun (UStore (MemStore.empty 0) ∅) 0);
  '(a, w) ← run (patch owner name true cap uuid None None chunk) w;
  '(b, w) ← run (patch owner name false cap uuid None None [Ok "second"]) w;
  '(c, _) ← run (status owner name uuid) w;
  Some (a, b, c).

(** The second chunk is accepted as the first six bytes, and the session still has three. *)
Theorem sidecar_without_multipart : mixed = Some (Accepted 3, Accepted 6, Progress 3).
Proof. vm_compute. reflexivity. Qed.

Lemma completed_bytes_right_witness :
  ends up_sem (complete owner name true cap uuid (Digests.display digest) None None [Ok "layer"]) opened (fun a s' =>
    match a with
    | Created d => Digests.parse (Digests.display digest) = Some d /\ exists got i, all_ok [Ok "layer"] = Some got /\
        active_at owner s' d (generation_path owner d i) /\
        content s' (generation_path owner d i) = Some ("" +:+ got) /\ of_algo (algo d) ("" +:+ got) = Some d
    | _ => True
    end).
Proof.
  apply (completed_bytes_right owner name session_owner_plain name_plain true cap cap_ok uuid
    (Digests.display digest) None None [Ok "layer"] "" opened).
  - exact opened_holds.
  - repeat constructor. vm_compute. discriminate.
Defined.
End Session.
