(* ===== verification/Pktline.v ===== *)
(** * Pktline: git's packet lines, [crates/core/src/pktline.rs]

    A reader is the bytes not yet read; a writer is the bytes written, which only the length check
    of [write_pkt] can refuse.  [read_lines_until_flush] loops on a fuel its input always covers. *)

From S2P Require Import Prelude Text.
Local Open Scope string_scope.
Local Open Scope Z_scope.

Inductive Pkt : Type :=
| Data (d : string)
| Flush
| Delim.

(** [read_exact]: [None] is the end of the input before [n] bytes. *)
Fixpoint take_exact (n : nat) (s : string) : option (string * string) :=
  match n with
  | O => Some ("", s)
  | S n =>
    match s with
    | EmptyString => None
    | String c s => '(a, b) ← take_exact n s; Some (String c a, b)
    end
  end.

Definition hex_val (c : ascii) : option Z :=
  if in_range 48 57 c then Some (byte_z c - 48)
  else if in_range 97 102 c then Some (byte_z c - 87)
  else if in_range 65 70 c then Some (byte_z c - 55)
  else None.

Fixpoint hex_digits (acc : Z) (s : string) : option Z :=
  match s with
  | EmptyString => Some acc
  | String c s => d ← hex_val c; hex_digits (16 * acc + d) s
  end.

(** [usize::from_str_radix(s, 16)] of at most four bytes: an optional [+], then digits. *)
Definition from_str_radix_16 (s : string) : option Z :=
  match s with
  | EmptyString => None
  | String "+" EmptyString => None
  | String "+" s => hex_digits 0 s
  | _ => hex_digits 0 s
  end.

Definition read_pkt (s : string) : result (option Pkt) * string :=
  match take_exact 4 s with
  | None => (Ok None, "")
  | Some (len, s) =>
    match l ← from_utf8 len; from_str_radix_16 l with
    | None => (Err (EMsg "bad pkt len"), s)
    | Some n =>
      if n =? 0 then (Ok (Some Flush), s)
      else if n =? 1 then (Ok (Some Delim), s)
      else if n <? 4 then (Err (EMsg "bad pkt len"), s)
      else match take_exact (Z.to_nat (n - 4)) s with
           | None => (Err (EMsg "unexpected eof"), "")
           | Some (d, s) => (Ok (Some (Data d)), s)
           end
    end
  end.

Definition hex_nibble (n : Z) : ascii := ascii_of_N (Z.to_N (if n <? 10 then 48 + n else 87 + n)).

(** [{:04x}] of a number below [2 ^ 16]. *)
Definition hex4 (n : Z) : string :=
  String (hex_nibble (n / 4096 mod 16)) (String (hex_nibble (n / 256 mod 16))
    (String (hex_nibble (n / 16 mod 16)) (String (hex_nibble (n mod 16)) ""))).

Definition write_pkt (data : string) : result string :=
  if 0xffff <? str_len data + 4 then Err (EMsg "pkt too long")
  else Ok (hex4 (str_len data + 4) +:+ data).

Definition write_text (s : string) : result string := write_pkt (s +:+ String nl "").
Definition write_flush : string := "0000".
Definition write_delim : string := "0001".

Definition MAX_BAND : Z := 65515.

(** [data.chunks(n)]; [fuel] is the length of the data. *)
Fixpoint chunks (fuel n : nat) (data : string) : list string :=
  match fuel, data with
  | O, _ | _, EmptyString => []
  | S fuel, _ =>
    match take_exact n data with
    | Some (c, rest) => c :: chunks fuel n rest
    | None => [data]
    end
  end.

Definition write_band (band : ascii) (data : string) : result string :=
  fold_left (fun out chunk => rbind out (fun out =>
    rbind (write_pkt (String band chunk)) (fun p => Ok (out +:+ p))))
    (chunks (String.length data) (Z.to_nat MAX_BAND) data) (Ok "").

Fixpoint pop_newline (d : string) : string :=
  match d with
  | EmptyString => ""
  | String c EmptyString => if Ascii.eqb c nl then "" else d
  | String c d => String c (pop_newline d)
  end.

Definition MAX_LINES : Z := 100000.
Definition MAX_BYTES : Z := 32 * 1024 * 1024.

Fixpoint read_lines (fuel : nat) (s : string) (out : list string) (total : Z) : result (list string) * string :=
  match fuel with
  | O => (Err (EMsg "fuel"), s)
  | S fuel =>
    match read_pkt s with
    | (Err e, s) => (Err e, s)
    | (Ok (Some (Data d)), s) =>
      let d := pop_newline d in
      let total := sat_add64 total (str_len d) in
      if MAX_BYTES <? total then (Err (EMsg "pkt-line stream too large"), s)
      else
        let out := (out ++ [d])%list in
        if MAX_LINES <? Z.of_nat (List.length out) then (Err (EMsg "too many pkt-lines"), s)
        else read_lines fuel s out total
    | (Ok (Some Flush), s) => (Ok out, s)
    | (Ok None, s) => (Err (EMsg "truncated pkt-line stream (no flush)"), s)
    | (Ok (Some Delim), s) => read_lines fuel s out total
    end
  end.

Definition read_lines_until_flush (s : string) : result (list string) * string :=
  read_lines (S (String.length s)) s [] 0.

(** [str::is_char_boundary]. *)
Definition is_char_boundary (s : string) (i : nat) : bool :=
  Nat.eqb i 0 || Nat.eqb i (String.length s) ||
  match String.get i s with Some c => negb (cont_byte c) | None => false end.

Fixpoint floor_boundary (s : string) (i : nat) : nat :=
  if is_char_boundary s i then i else match i with O => O | S i => floor_boundary s i end.

Definition MAX_MSG : Z := 0xffff - 4 - 5.

Definition write_err (msg : string) : string :=
  let end_ := floor_boundary msg (Nat.min (String.length msg) (Z.to_nat MAX_MSG)) in
  let body := "ERR " +:+ substring 0 end_ msg +:+ String nl "" in
  hex4 (str_len body + 4) +:+ body.

(** ** Lengths *)
Lemma take_exact_app a b : take_exact (String.length a) (a +:+ b) = Some (a, b).
Proof. induction a as [|c a IH]; [done|]. cbn. by rewrite IH. Qed.

Lemma take_exact_some n s a b : take_exact n s = Some (a, b) -> s = (a +:+ b)%string /\ String.length a = n.
Proof.
  revert s a b. induction n as [|n IH]; intros s a b; cbn; [by intros [= <- <-]|].
  destruct s as [|c s]; [done|]. destruct (take_exact n s) as [[x y]|] eqn:E; [|done].
  cbn. intros [= <- <-]. apply IH in E as [-> <-]. by split.
Qed.

Lemma nibble_ok d : 0 <= d < 16 ->
  hex_val (hex_nibble d) = Some d /\ Ascii.eqb (hex_nibble d) "+" = false /\ (byte_z (hex_nibble d) <? 0x80) = true.
Proof.
  intros Hd. assert (Hin : d ∈ seqZ 0 16) by (apply elem_of_seqZ; lia). clear Hd. revert d Hin.
  assert (H : all (fun d => bool_decide (hex_val (hex_nibble d) = Some d) && negb (Ascii.eqb (hex_nibble d) "+") &&
                            (byte_z (hex_nibble d) <? 0x80)) (seqZ 0 16) = true) by (vm_compute; reflexivity).
  rewrite all_spec in H. intros d Hd. specialize (H d Hd).
  apply andb_true_iff in H as [[H1%bool_decide_eq_true H2%negb_true_iff]%andb_true_iff H3]. done.
Qed.

Lemma hex4_reads n : 0 <= n <= 0xffff -> (l ← from_utf8 (hex4 n); from_str_radix_16 l) = Some n.
Proof.
  intros Hn. unfold hex4.
  assert (Hm : forall x, 0 <= x mod 16 < 16) by (intros x; apply Z.mod_pos_bound; lia).
  destruct (nibble_ok _ (Hm (n / 4096))) as (H1 & Hp & Hu1). destruct (nibble_ok _ (Hm (n / 256))) as (H2 & _ & Hu2).
  destruct (nibble_ok _ (Hm (n / 16))) as (H3 & _ & Hu3). destruct (nibble_ok _ (Hm n)) as (H4 & _ & Hu4).
  set (c1 := hex_nibble (n / 4096 mod 16)) in *. set (c2 := hex_nibble (n / 256 mod 16)) in *.
  set (c3 := hex_nibble (n / 16 mod 16)) in *. set (c4 := hex_nibble (n mod 16)) in *.
  unfold from_utf8. cbn [utf8_valid]. rewrite Hu1, Hu2, Hu3, Hu4. cbn [mbind option_bind].
  assert (Hr : from_str_radix_16 (String c1 (String c2 (String c3 (String c4 "")))) =
               hex_digits 0 (String c1 (String c2 (String c3 (String c4 ""))))).
  { unfold from_str_radix_16. destruct c1 as [[] [] [] [] [] [] [] []]; try done. }
  rewrite Hr. cbn [hex_digits]. rewrite H1. cbn [mbind option_bind]. rewrite H2. cbn [mbind option_bind].
  rewrite H3. cbn [mbind option_bind]. rewrite H4. cbn [mbind option_bind]. f_equal.
  Z.to_euclidean_division_equations. lia.
Qed.

Lemma hex4_length n : String.length (hex4 n) = 4%nat.
Proof. done. Qed.

Lemma read_frame n s : 4 <= n <= 0xffff ->
  read_pkt (hex4 n +:+ s) =
  match take_exact (Z.to_nat (n - 4)) s with
  | None => (Err (EMsg "unexpected eof"), "")
  | Some (d, s) => (Ok (Some (Data d)), s)
  end.
Proof.
  intros Hn. unfold read_pkt. rewrite <- (hex4_length n) at 1. rewrite take_exact_app, hex4_reads by lia.
  destruct (Z.eqb_spec n 0); [lia|]. destruct (Z.eqb_spec n 1); [lia|]. destruct (Z.ltb_spec n 4); [lia|done].
Qed.

Lemma read_written data s rest : write_pkt data = Ok s -> read_pkt (s +:+ rest) = (Ok (Some (Data data)), rest).
Proof.
  unfold write_pkt. destruct (Z.ltb_spec 0xffff (str_len data + 4)) as [|Hle]; [done|]. intros Hs.
  assert (s = hex4 (str_len data + 4) +:+ data)%string as -> by congruence.
  assert (Hp : 0 <= str_len data) by (unfold str_len; lia).
  rewrite append_assoc, read_frame by lia.
  replace (Z.to_nat (str_len data + 4 - 4)) with (String.length data) by (unfold str_len; lia).
  by rewrite take_exact_app.
Qed.

Lemma pop_newline_app l : pop_newline (l +:+ String nl "") = l.
Proof.
  induction l as [|c l IH]; [done|]. change (String c l +:+ String nl "")%string with (String c (l +:+ String nl "")).
  assert (Hne : exists x y, (l +:+ String nl "")%string = String x y) by (destruct l; eauto).
  destruct Hne as (x & y & E). cbn [pop_newline]. rewrite E. rewrite <- E. by rewrite IH.
Qed.

(** ** Streams of lines *)
Fixpoint write_lines (ls : list string) : result string :=
  match ls with
  | [] => Ok write_flush
  | l :: ls => rbind (write_text l) (fun a => rbind (write_lines ls) (fun b => Ok (a +:+ b)))
  end.

Definition bytes_of (ls : list string) : Z := fold_right (fun l n => str_len l + n) 0 ls.

Lemma bytes_of_app a b : bytes_of (a ++ b) = bytes_of a + bytes_of b.
Proof. induction a as [|x a IH]; cbn; [done|]. fold (bytes_of (a ++ b)) (bytes_of a). lia. Qed.

Lemma bytes_of_pos a : 0 <= bytes_of a.
Proof. induction a as [|x a IH]; cbn; [lia|]. fold (bytes_of a). unfold str_len. lia. Qed.

Lemma read_pkt_flush rest : read_pkt (write_flush +:+ rest) = (Ok (Some Flush), rest).
Proof. reflexivity. Qed.

Lemma written_length data s : write_pkt data = Ok s -> (0 < String.length s)%nat.
Proof. unfold write_pkt. destruct (_ <? _); [done|]. intros [= <-]. cbn. lia. Qed.

Lemma app_length_str a b : String.length (a +:+ b) = (String.length a + String.length b)%nat.
Proof. induction a as [|c a IH]; [done|]. cbn. by rewrite IH. Qed.

Lemma read_lines_written ls : forall s rest fuel out,
  write_lines ls = Ok s -> (String.length (s +:+ rest) < fuel)%nat ->
  Z.of_nat (List.length (out ++ ls)) <= MAX_LINES -> bytes_of (out ++ ls) <= MAX_BYTES ->
  read_lines fuel (s +:+ rest) out (bytes_of out) = (Ok (out ++ ls)%list, rest).
Proof.
  induction ls as [|l ls IH]; intros s rest fuel out Hw Hf Hn Hb.
  - injection Hw as <-. destruct fuel as [|fuel]; [lia|]. cbn [read_lines]. rewrite read_pkt_flush.
    by rewrite app_nil_r.
  - cbn [write_lines] in Hw. destruct (write_text l) as [a|] eqn:Ea; [|done]. cbn [rbind] in Hw.
    destruct (write_lines ls) as [b|]; [|done]. injection Hw as <-.
    destruct fuel as [|fuel]; [lia|]. cbn [read_lines]. rewrite append_assoc, (read_written _ _ _ Ea).
    rewrite pop_newline_app. pose proof (written_length _ _ Ea) as Hl.
    rewrite bytes_of_app in Hb. cbn [bytes_of fold_right] in Hb. fold (bytes_of ls) in Hb.
    pose proof (bytes_of_pos ls). pose proof (bytes_of_pos out). assert (0 <= str_len l) by (unfold str_len; lia).
    assert (Hsat : sat_add64 (bytes_of out) (str_len l) = bytes_of (out ++ [l])).
    { rewrite bytes_of_app. cbn. unfold sat_add64, u64_max, MAX_BYTES in *. lia. }
    rewrite Hsat. destruct (Z.ltb_spec MAX_BYTES (bytes_of (out ++ [l]))) as [Hx|_].
    { rewrite bytes_of_app in Hx. cbn in Hx. lia. }
    rewrite !length_app in Hn. cbn [List.length] in Hn.
    destruct (Z.ltb_spec MAX_LINES (Z.of_nat (List.length (out ++ [l])))) as [Hx|_].
    { rewrite length_app in Hx. cbn in Hx. lia. }
    rewrite (IH b rest fuel (out ++ [l])%list); [by rewrite <- app_assoc|done| | |].
    + rewrite append_assoc, app_length_str in Hf. lia.
    + rewrite !length_app. cbn. lia.
    + rewrite !bytes_of_app. cbn. fold (bytes_of ls). lia.
Qed.

(** What a client writes is what the server reads: lines written one packet each and closed by a
    flush come back as they were, in order and with nothing of what follows read, as long as they
    are within the limits. *)
Theorem lines_roundtrip ls s rest :
  write_lines ls = Ok s -> Z.of_nat (List.length ls) <= MAX_LINES -> bytes_of ls <= MAX_BYTES ->
  read_lines_until_flush (s +:+ rest) = (Ok ls, rest).
Proof. intros Hw Hn Hb. by apply (read_lines_written ls s rest _ []); [|lia|..]. Qed.

Lemma lines_roundtrip_witness :
  read_lines_until_flush ("000ahello
0008a b
00000000 a pack follows") = (Ok ["hello"; "a b"], "0000 a pack follows").
Proof.
  apply (lines_roundtrip ["hello"; "a b"] "000ahello
0008a b
0000" "0000 a pack follows"); vm_compute; [reflexivity|discriminate|discriminate].
Defined.

Lemma read_pkt_suffix s r rest : read_pkt s = (Ok (Some r), rest) ->
  exists pre, s = (pre +:+ rest)%string /\ (0 < String.length pre)%nat.
Proof.
  unfold read_pkt. destruct (take_exact 4 s) as [[len s1]|] eqn:E; [|done]. apply take_exact_some in E as [-> Hl].
  destruct (_ ← _; _) as [n|]; [|done].
  destruct (n =? 0); [intros [= _ <-]; exists len; split; [done|lia]|].
  destruct (n =? 1); [intros [= _ <-]; exists len; split; [done|lia]|]. destruct (n <? 4); [done|].
  destruct (take_exact _ s1) as [[d s2]|] eqn:E; [|done]. apply take_exact_some in E as [-> _].
  intros [= _ <-]. exists (len +:+ d)%string. rewrite append_assoc, app_length_str. split; [done|lia].
Qed.

(** What is said of the rest of a stream is said of the stream. *)
Lemma read_lines_later pre s (r : result (list string) * string) :
  match r with
  | (Ok ls, rest) => Z.of_nat (List.length ls) <= MAX_LINES /\ bytes_of ls <= MAX_BYTES /\
      exists pre s0, s = (pre +:+ s0)%string /\ read_pkt s0 = (Ok (Some Flush), rest)
  | (Err e, _) => e <> EMsg "fuel"
  end ->
  match r with
  | (Ok ls, rest) => Z.of_nat (List.length ls) <= MAX_LINES /\ bytes_of ls <= MAX_BYTES /\
      exists pre' s0, (pre +:+ s)%string = (pre' +:+ s0)%string /\ read_pkt s0 = (Ok (Some Flush), rest)
  | (Err e, _) => e <> EMsg "fuel"
  end.
Proof.
  destruct r as [[ls|e] rest]; [|done]. intros (? & ? & pre' & s0 & -> & ?). split; [done|]. split; [done|].
  exists (pre +:+ pre')%string, s0. by rewrite append_assoc.
Qed.

Lemma read_lines_bounded fuel : forall s out total,
  (String.length s < fuel)%nat -> Z.of_nat (List.length out) <= MAX_LINES -> total = bytes_of out -> total <= MAX_BYTES ->
  match read_lines fuel s out total with
  | (Ok ls, rest) => Z.of_nat (List.length ls) <= MAX_LINES /\ bytes_of ls <= MAX_BYTES /\
      exists pre s0, s = (pre +:+ s0)%string /\ read_pkt s0 = (Ok (Some Flush), rest)
  | (Err e, _) => e <> EMsg "fuel"
  end.
Proof.
  induction fuel as [|fuel IH]; intros s out total Hf Hn Ht Hb; [lia|]. cbn [read_lines].
  destruct (read_pkt s) as [[[[d| |]|]|e] s1] eqn:E.
  - destruct (read_pkt_suffix _ _ _ E) as (pre & -> & Hpre). rewrite app_length_str in Hf. set (l := pop_newline d).
    assert (Hl : 0 <= str_len l) by (unfold str_len; lia). pose proof (bytes_of_pos out).
    destruct (Z.ltb_spec MAX_BYTES (sat_add64 total (str_len l))) as [|Hle]; [done|].
    destruct (Z.ltb_spec MAX_LINES (Z.of_nat (List.length (out ++ [l])))) as [|Hc]; [done|].
    apply read_lines_later, IH; [lia|done| |done].
    rewrite bytes_of_app. cbn. unfold sat_add64, u64_max, MAX_BYTES in *. lia.
  - split; [done|]. split; [lia|]. by exists "", s.
  - destruct (read_pkt_suffix _ _ _ E) as (pre & -> & Hpre). rewrite app_length_str in Hf.
    by apply read_lines_later, IH; [lia|..].
  - done.
  - revert E. unfold read_pkt. destruct (take_exact 4 s) as [[? ?]|]; [|done]. repeat case_match; congruence.
Qed.

(** Reading lines always ends, and within bounds: on any input it answers, an answer has at most
    [MAX_LINES] lines and [MAX_BYTES] bytes and was closed by a flush, so a stream that is cut off
    is an error and never a shorter list. *)
Theorem lines_bounded s :
  match read_lines_until_flush s with
  | (Ok ls, rest) => Z.of_nat (List.length ls) <= MAX_LINES /\ bytes_of ls <= MAX_BYTES /\
      exists pre s0, s = (pre +:+ s0)%string /\ read_pkt s0 = (Ok (Some Flush), rest)
  | (Err e, _) => e <> EMsg "fuel"
  end.
Proof. by apply read_lines_bounded; [lia|..]. Qed.

(** ** Errors *)
Lemma boundary_cons c s i : is_char_boundary (String c s) (S i) = true -> is_char_boundary s i = true.
Proof. destruct i as [|i]; [done|exact id]. Qed.

Lemma boundary_after c c1 s : is_char_boundary (String c (String c1 s)) 1 = true -> cont_byte c1 = true -> False.
Proof. intros H Hc. change (negb (cont_byte c1) = true) in H. by rewrite Hc in H. Qed.

Lemma in_range_cont lo hi c : 0x80 <= lo -> hi <= 0xBF -> in_range lo hi c = true -> cont_byte c = true.
Proof.
  unfold in_range, cont_byte. intros Hl Hh [?%Z.leb_le ?%Z.leb_le]%andb_true_iff.
  apply andb_true_iff. split; apply Z.leb_le; lia.
Qed.

(** One continuation byte taken along. *)
Ltac step_over i Hb :=
  destruct i as [|i];
  [exfalso; eapply boundary_after; [exact Hb|first [assumption|eapply in_range_cont; [..|eassumption]; lia]]|
   apply boundary_cons in Hb].

Lemma utf8_prefix n : forall s i, (String.length s <= n)%nat ->
  utf8_valid s = true -> is_char_boundary s i = true -> utf8_valid (substring 0 i s) = true.
Proof.
  induction n as [|n IH]; intros s i Hn Hv Hb; (destruct s as [|c s1]; [by destruct i|]); [cbn in Hn; lia|].
  destruct i as [|i]; [done|]. cbn [substring]. cbn in Hn. cbn [utf8_valid] in *.
  destruct (byte_z c <? 0x80); [apply IH; [lia|done|by eapply boundary_cons]|].
  destruct s1 as [|c1 s2]; [done|]. cbn in Hn.
  destruct (in_range 0xC2 0xDF c).
  { apply andb_true_iff in Hv as [H1 Hv]. step_over i Hb. cbn [substring]. rewrite H1. cbn.
    apply IH; [lia|done|by eapply boundary_cons]. }
  destruct s2 as [|c2 s3]; [done|]. cbn in Hn.
  destruct (byte_z c =? 0xE0).
  { apply andb_true_iff in Hv as [[H1 H2]%andb_true_iff Hv]. step_over i Hb. step_over i Hb. cbn [substring].
    rewrite H1, H2. cbn. apply IH; [lia|done|by eapply boundary_cons]. }
  destruct (in_range 0xE1 0xEC c || in_range 0xEE 0xEF c).
  { apply andb_true_iff in Hv as [[H1 H2]%andb_true_iff Hv]. step_over i Hb. step_over i Hb. cbn [substring].
    rewrite H1, H2. cbn. apply IH; [lia|done|by eapply boundary_cons]. }
  destruct (byte_z c =? 0xED).
  { apply andb_true_iff in Hv as [[H1 H2]%andb_true_iff Hv]. step_over i Hb. step_over i Hb. cbn [substring].
    rewrite H1, H2. cbn. apply IH; [lia|done|by eapply boundary_cons]. }
  destruct s3 as [|c3 s4]; [done|]. cbn in Hn.
  destruct (byte_z c =? 0xF0); [|destruct (in_range 0xF1 0xF3 c); [|destruct (byte_z c =? 0xF4); [|done]]];
    apply andb_true_iff in Hv as [[[H1 H2]%andb_true_iff H3]%andb_true_iff Hv];
    step_over i Hb; step_over i Hb; step_over i Hb; cbn [substring]; rewrite H1, H2, H3; cbn;
    (apply IH; [lia|done|by eapply boundary_cons]).
Qed.

Lemma floor_boundary_ok s i : is_char_boundary s (floor_boundary s i) = true /\ (floor_boundary s i <= i)%nat.
Proof.
  induction i as [|i [IH1 IH2]]; [done|]. cbn [floor_boundary].
  destruct (is_char_boundary s (S i)) eqn:E; [by split|]. split; [done|lia].
Qed.

Lemma substring_split s : forall i, exists rest, s = (substring 0 i s +:+ rest)%string /\
  String.length (substring 0 i s) = Nat.min i (String.length s).
Proof.
  induction s as [|c s IH]; intros i; [exists ""; by destruct i|].
  destruct i as [|i]; [by exists (String c s)|]. destruct (IH i) as (rest & E & Hl). exists rest. cbn [substring].
  split; [cbn; by rewrite <- E|]. cbn. by rewrite Hl.
Qed.

(** An error always reaches the client: whatever the message, what is written is one packet whose
    length fits its header, and it reads back as [ERR] and the message, cut, if it is too long, at a
    character boundary. *)
Theorem write_err_reads msg : utf8_valid msg = true ->
  exists m rest, msg = (m +:+ rest)%string /\ utf8_valid m = true /\
    read_pkt (write_err msg) = (Ok (Some (Data ("ERR " +:+ m +:+ String nl ""))), "") /\
    str_len (write_err msg) <= 0xffff /\ (str_len msg <= MAX_MSG -> rest = "").
Proof.
  intros Hv. unfold write_err. cbv zeta. set (i0 := Nat.min (String.length msg) (Z.to_nat MAX_MSG)).
  destruct (floor_boundary_ok msg i0) as [Hb Hle]. set (i := floor_boundary msg i0) in *.
  destruct (substring_split msg i) as (rest & E & Hl). set (m := substring 0 i msg) in *.
  exists m, rest. split; [done|]. split; [by eapply utf8_prefix|].
  assert (Hm : str_len m <= MAX_MSG) by (unfold str_len, MAX_MSG in *; lia).
  set (body := ("ERR " +:+ m +:+ String nl "")%string).
  assert (Hlen : str_len body = str_len m + 5).
  { unfold body, str_len. rewrite !app_length_str. cbn [String.length]. lia. }
  assert (Hp : 0 <= str_len m) by (unfold str_len; lia). unfold MAX_MSG in *. split.
  - rewrite <- (append_nil_r (hex4 _ +:+ body)). apply read_written. unfold write_pkt.
    destruct (Z.ltb_spec 0xffff (str_len body + 4)); [lia|done].
  - assert (Hh : str_len (hex4 (str_len body + 4) +:+ body) = str_len body + 4).
    { unfold str_len. rewrite app_length_str, hex4_length. lia. }
    split; [lia|]. intros Hmsg. assert (Hi : i = String.length msg).
    { unfold i, i0, str_len in *. rewrite Nat.min_l by lia. destruct (String.length msg) as [|k] eqn:Ek; [done|].
      cbn [floor_boundary]. unfold is_char_boundary. rewrite Ek, Nat.eqb_refl. by rewrite orb_true_r. }
    apply (f_equal String.length) in E. rewrite app_length_str, Hl, Hi in E.
    destruct rest as [|c rest]; [done|]. cbn in E. lia.
Qed.

Lemma write_err_reads_witness :
  utf8_valid "not found" = true /\
  exists m rest, "not found" = (m +:+ rest)%string /\ utf8_valid m = true /\
    read_pkt (write_err "not found") = (Ok (Some (Data ("ERR " +:+ m +:+ String nl ""))), "") /\
    str_len (write_err "not found") <= 0xffff /\ (str_len "not found" <= MAX_MSG -> rest = "").
Proof. split; [reflexivity|]. apply (write_err_reads "not found"). reflexivity. Defined.
