(* ===== verification/Commits.v ===== *)
(** * Commits: history walks, [crates/gitbase/src/merge_base.rs] and [refs.rs]

    Objects and the commit walk are gix's: [find] reads and decodes an object, [simple] is the walk
    of [gix_traverse::commit::Simple], whose items are commits with their parents or errors.
    [WalkLaws] is what it documents: every commit it yields is reachable, and a walk without an
    error yields every commit that is. *)

From S2P Require Import Prelude.
Local Open Scope Z_scope.

(** What [find] can fail with: the object is not there, or reading it failed. *)
Inductive find_error : Type :=
| NotFound
| ReadFailed (e : error).

Inductive entry_kind : Type :=
| EntryTree
| EntryBlob
| EntryCommit.

#[export] Instance entry_kind_eq_dec : EqDecision entry_kind.
Proof. solve_decision. Defined.

Inductive object (oid : Type) : Type :=
| OCommit (tree : oid) (parents : list oid)
| OTree (entries : list (string * oid * entry_kind))
| OTag (target : oid)
| OBlob.
Arguments OCommit {oid} tree parents.
Arguments OTree {oid} entries.
Arguments OTag {oid} target.
Arguments OBlob {oid}.

Inductive MergeBase (oid : Type) : Type :=
| Found (m : oid)
| Unrelated
| Exhausted.
Arguments Found {oid} m.
Arguments Unrelated {oid}.
Arguments Exhausted {oid}.

Section commits.
Context {oid : Type} `{EqDecision oid}.
Variable find : oid -> object oid + find_error.
(** The walk from tips, without what is reachable from the hidden ones. *)
Variable simple : list oid -> list oid -> list ((oid * list oid) + find_error).

Definition ok_ids (items : list ((oid * list oid) + find_error)) : list oid :=
  omap (fun i => match i with inl (id, _) => Some id | inr _ => None end) items.

Definition merge_base (a b : oid) (budget : nat) : MergeBase oid :=
  if bool_decide (a = b) then Found a
  else
    let walked_a := take budget (simple [a] []) in
    let seen := ok_ids walked_a in
    if bool_decide (b ∈ seen) then Found b
    else
      let walked_b := take budget (simple [b] []) in
      match List.find (fun id => bool_decide (id ∈ seen)) (ok_ids walked_b) with
      | Some m => Found m
      | None =>
        if Nat.ltb (List.length walked_a) budget && Nat.ltb (List.length walked_b) budget
        then Unrelated else Exhausted
      end.

Definition ANCESTRY_BUDGET : nat := Z.to_nat 50000.

Definition is_ancestor (old new : oid) (budget : nat) : bool :=
  bool_decide (old = new) ||
  any (fun i => match i with inl (id, _) => bool_decide (id = old) | inr _ => false end)
    (take budget (simple [new] [])).

(** ** What a walk promises *)
Definition parents_of (id : oid) : option (list oid) :=
  match find id with inl (OCommit _ ps) => Some ps | _ => None end.

Inductive reach (tips : list oid) : oid -> Prop :=
| reach_tip id : id ∈ tips -> reach tips id
| reach_parent c ps p : reach tips c -> parents_of c = Some ps -> p ∈ ps -> reach tips p.

Definition no_errors (items : list ((oid * list oid) + find_error)) : Prop := forall e, inr e ∉ items.

Record WalkLaws : Prop := {
  walk_sound : forall tips hide id ps, inl (id, ps) ∈ simple tips hide ->
    reach tips id /\ parents_of id = Some ps /\ ~ reach hide id;
  walk_complete : forall tips hide id, no_errors (simple tips hide) -> reach tips id ->
    reach hide id \/ exists ps, inl (id, ps) ∈ simple tips hide;
}.

Hypothesis laws : WalkLaws.

Lemma ok_ids_in items id : id ∈ ok_ids items <-> exists ps, inl (id, ps) ∈ items.
Proof using Type.
  unfold ok_ids. rewrite list_elem_of_omap. split.
  - intros ([[i ps]|e] & Hin & Hi); [|done]. injection Hi as ->. by exists ps.
  - intros [ps Hin]. by exists (inl (id, ps)).
Qed.

Lemma take_in {A} n (l : list A) x : x ∈ take n l -> x ∈ l.
Proof using Type. rewrite <- (take_drop n l) at 2. rewrite elem_of_app. by left. Qed.

Lemma walked_reach n a id : id ∈ ok_ids (take n (simple [a] [])) -> reach [a] id.
Proof using laws. rewrite ok_ids_in. intros [ps Hin]. by eapply (walk_sound laws), take_in. Qed.

Lemma reach_nil id : ~ reach [] id.
Proof using Type. induction 1 as [id Hin|]; [by apply not_elem_of_nil in Hin|done]. Qed.

(** A walk shorter than its budget, with no error, is the whole history. *)
Lemma short_walk n a id :
  (List.length (take n (simple [a] [])) < n)%nat -> no_errors (simple [a] []) ->
  reach [a] id -> id ∈ ok_ids (take n (simple [a] [])).
Proof using laws.
  intros Hlen Hno Hr. rewrite length_take in Hlen. rewrite firstn_all2 by lia. rewrite ok_ids_in.
  destruct (walk_complete laws [a] [] id Hno Hr) as [Hn|]; [by apply reach_nil in Hn|done].
Qed.

(** A merge base is a common ancestor: [Found] answers a commit that both sides reach;
    [Unrelated], where neither walk met an error, that they reach no commit in common; [Exhausted],
    that a history is at least as long as the budget. *)
Theorem merge_base_right a b budget :
  match merge_base a b budget with
  | Found m => reach [a] m /\ reach [b] m
  | Unrelated => no_errors (simple [a] []) -> no_errors (simple [b] []) ->
                 forall m, ~ (reach [a] m /\ reach [b] m)
  | Exhausted => (budget <= List.length (simple [a] []))%nat \/ (budget <= List.length (simple [b] []))%nat
  end.
Proof using laws.
  unfold merge_base. destruct (bool_decide _) eqn:E.
  { apply bool_decide_eq_true in E as <-. split; apply reach_tip; left. }
  clear E. cbv zeta. destruct (bool_decide (b ∈ _)) eqn:E.
  { apply bool_decide_eq_true, walked_reach in E. split; [done|]. apply reach_tip. left. }
  clear E. destruct (List.find _ _) as [m|] eqn:Ef.
  - apply List.find_some in Ef as [Hb%list_elem_of_In Ha%bool_decide_eq_true].
    apply walked_reach in Ha, Hb. done.
  - destruct (_ && _) eqn:El.
    + apply andb_true_iff in El as [Ha%Nat.ltb_lt Hb%Nat.ltb_lt]. intros Hea Heb m [Hra Hrb].
      apply (short_walk budget) in Hra; [|done..]. apply (short_walk budget) in Hrb; [|done..].
      apply list_elem_of_In in Hrb. pose proof (List.find_none _ _ Ef m Hrb) as Hn.
      by apply bool_decide_eq_false in Hn.
    + apply andb_false_iff in El as [H%Nat.ltb_ge|H%Nat.ltb_ge]; rewrite length_take in H; lia.
Qed.

(** An error is not counted as unread history: with a tip that cannot be read the answer is
    [Unrelated], as if both histories had been walked to their roots. *)
Theorem merge_base_forgets_errors a b budget e :
  a <> b -> b ∉ ok_ids (simple [a] []) -> (List.length (simple [a] []) < budget)%nat -> (1 < budget)%nat ->
  simple [b] [] = [inr e] -> merge_base a b budget = Unrelated.
Proof using Type.
  intros Hab Hb Hl Hn Hs. unfold merge_base. rewrite bool_decide_false by done. cbv zeta.
  rewrite (firstn_all2 (simple [a] [])) by lia. rewrite bool_decide_false by done. rewrite Hs.
  destruct budget as [|n]; [lia|]. cbn [take ok_ids omap list_omap List.find].
  rewrite firstn_nil. cbn [List.find omap list_omap List.length].
  destruct (Nat.ltb_spec (List.length (simple [a] [])) (S n)); [|lia].
  destruct (Nat.ltb_spec 1 (S n)); [done|lia].
Qed.

Lemma is_ancestor_reach old new budget : is_ancestor old new budget = true -> reach [new] old.
Proof using laws.
  unfold is_ancestor. intros [E%bool_decide_eq_true|(i & Hin & Hi)%any_spec]%orb_true_iff.
  - subst new. apply reach_tip. left.
  - destruct i as [[id ps]|e]; [|done]. apply bool_decide_eq_true in Hi as ->.
    by eapply (walk_sound laws), take_in.
Qed.
End commits.

(** ** A history to walk *)
Module Sample.
(** [K2] on [K1] on [K0], with one file in one tree; [K3] beside them, its tree [Gone], as nothing
    else is there. *)
Inductive hash := K0 | K1 | K2 | K3 | Tree0 | Blob0 | Gone.
#[export] Instance hash_eq : EqDecision hash.
Proof. solve_decision. Defined.

Definition hash_code (h : hash) : nat :=
  match h with K0 => 0 | K1 => 1 | K2 => 2 | K3 => 3 | Tree0 => 4 | Blob0 => 5 | Gone => 6 end%nat.
Definition hash_decode (n : nat) : hash :=
  match n with 0 => K0 | 1 => K1 | 2 => K2 | 3 => K3 | 4 => Tree0 | 5 => Blob0 | _ => Gone end%nat.
#[export] Instance hash_countable : Countable hash.
Proof. apply (inj_countable' hash_code hash_decode). by intros []. Defined.

Definition find (id : hash) : object hash + find_error :=
  match id with
  | K0 => inl (OCommit Tree0 [])
  | K1 => inl (OCommit Tree0 [K0])
  | K2 => inl (OCommit Tree0 [K1])
  | K3 => inl (OCommit Gone [])
  | Tree0 => inl (OTree [("README", Blob0, EntryBlob)])
  | Blob0 => inl OBlob
  | Gone => inr NotFound
  end.

Definition ancestors (id : hash) : list hash :=
  match id with K1 => [K1; K0] | K2 => [K2; K1; K0] | id => [id] end.

Definition walk (tips hide : list hash) : list ((hash * list hash) + find_error) :=
  map (fun id => match parents_of find id with Some ps => inl (id, ps) | None => inr NotFound end)
    (List.filter (fun id => negb (any (fun h => bool_decide (id ∈ ancestors h)) hide)) (flat_map ancestors tips)).

Lemma reach_ancestors tips id : reach find tips id <-> exists t, t ∈ tips /\ id ∈ ancestors t.
Proof.
  split.
  - induction 1 as [id Hin|c ps p _ (t & Ht & Hc) Hps Hp].
    + exists id. split; [done|]. destruct id; cbn; left.
    + exists t. split; [done|]. unfold parents_of in Hps.
      destruct c; cbn in Hps; try done; injection Hps as <-;
        try (by apply not_elem_of_nil in Hp); apply list_elem_of_singleton in Hp as ->;
        destruct t; cbn in Hc |- *; set_solver.
  - intros (t & Ht & Hid). assert (Hr : reach find tips t) by (by apply reach_tip).
    assert (Hstep : forall c p, reach find tips c -> parents_of find c = Some [p] -> reach find tips p)
      by (intros c p Hc Hp; eapply reach_parent; [exact Hc|exact Hp|left]).
    pose proof (Hstep K2 K1). pose proof (Hstep K1 K0).
    destruct t; cbn in Hid; repeat (apply elem_of_cons in Hid as [->|Hid]); try (by apply not_elem_of_nil in Hid); auto.
Qed.

Lemma walk_in tips hide i : i ∈ walk tips hide <->
  exists id, reach find tips id /\ ~ reach find hide id /\
    i = match parents_of find id with Some ps => inl (id, ps) | None => inr NotFound end.
Proof.
  unfold walk. rewrite list_elem_of_fmap. split.
  - intros (id & -> & [Hf%list_elem_of_In Hn]%list_elem_of_In%filter_In).
    apply list_elem_of_In, in_flat_map in Hf as (t & Ht%list_elem_of_In & Hid%list_elem_of_In).
    exists id. split; [apply reach_ancestors; by exists t|]. split; [|done].
    rewrite reach_ancestors. intros (h & Hh & Hin). apply negb_true_iff in Hn.
    rewrite any_false in Hn. specialize (Hn h Hh). by apply bool_decide_eq_false in Hn.
  - intros (id & (t & Ht & Hid)%reach_ancestors & Hn & ->). exists id. split; [done|].
    apply list_elem_of_In, filter_In. split.
    + apply in_flat_map. exists t. by rewrite <- !list_elem_of_In.
    + apply negb_true_iff, any_false. intros h Hh. apply bool_decide_eq_false. intros Hin. apply Hn.
      apply reach_ancestors. by exists h.
Qed.

Lemma sample_laws : WalkLaws find walk.
Proof.
  constructor.
  - intros tips hide id ps (i & Hr & Hn & Hi)%walk_in. destruct (parents_of find i) as [qs|] eqn:E; [|done].
    injection Hi as -> ->. done.
  - intros tips hide id Hno Hr. destruct (any (fun h => bool_decide (id ∈ ancestors h)) hide) eqn:E.
    + left. apply any_spec in E as (h & Hh & Hin%bool_decide_eq_true). apply reach_ancestors. by exists h.
    + assert (Hn : ~ reach find hide id).
      { rewrite reach_ancestors. intros (h & Hh & Hin). rewrite any_false in E. specialize (E h Hh).
        by apply bool_decide_eq_false in E. }
      right. destruct (parents_of find id) as [ps|] eqn:Ep.
      * exists ps. apply walk_in. exists id. by rewrite Ep.
      * exfalso. apply (Hno NotFound), walk_in. exists id. by rewrite Ep.
Qed.

Lemma merge_base_right_witness :
  merge_base walk K2 K1 50 = Found K1 /\ (reach find [K2] K1 /\ reach find [K1] K1).
Proof.
  assert (E : merge_base walk K2 K1 50 = Found K1) by (vm_compute; reflexivity).
  split; [exact E|]. pose proof (merge_base_right find walk sample_laws K2 K1 50) as H. rewrite E in H. exact H.
Defined.

Lemma merge_base_forgets_errors_witness : merge_base walk K2 Gone 50 = Unrelated.
Proof.
  apply (merge_base_forgets_errors walk K2 Gone 50 NotFound); [done| |cbn; lia|lia|reflexivity].
  vm_compute. intros H. repeat (apply elem_of_cons in H as [?|H]; [done|]). by apply not_elem_of_nil in H.
Defined.
End Sample.
