(* ===== verification/Refs.v ===== *)
(** * Refs: a repository's refs and rules, [crates/storage/src/refmeta.rs] and [crates/gitbase/src/refs.rs]

    Each repository has a database of its own (SlateDB): rows, and serializable transactions.  A
    transaction is a value here, the snapshot it reads and what it has read and written; [RowLaws]
    in [RefsSafe] says when a commit is admitted.  Opening the database is part of each
    request and fails with it; [DUpload] puts a pack and its index in the object store, and what else
    is done to objects, packs and caches is a call ([DCall]).  Keys are UTF-8, as
    every writer here makes them. *)

From stdpp Require Import sorting.
From S2P Require Import Prelude Text Names Prog Commits.
Local Open Scope string_scope.
Local Open Scope Z_scope.

(** [gix_hash::ObjectId] in hexadecimal. *)
Class Hex (oid : Type) := {
  to_hex : oid -> string;
  from_hex : string -> option oid;
  from_to_hex : forall o, from_hex (to_hex o) = Some o;
  to_hex_shape : forall o, str_len (to_hex o) = 40 /\ contains_char " " (to_hex o) = false;
}.

(** ** Transactions and effects *)
Abbreviation repo_id := (string * string)%type.
Abbreviation rows := (gmap string string).

Record Txn := mkTxn {
  t_repo : repo_id;
  t_snapshot : rows;
  t_reads : list string;
  t_writes : list (string * option string);
}.

Inductive commit_res : Type :=
| Committed
| Conflict (msg : string)
| CommitErr (e : error).

Inductive row_eff : Type -> Type :=
| DExists (r : repo_id) : row_eff (result bool)
| DGet (r : repo_id) (k : string) : row_eff (result (option string))
| DWrite (r : repo_id) (batch : list (string * option string)) : row_eff (result unit)
| DScan (r : repo_id) (prefix : string) : row_eff (result (list (string * string)))
| DBegin (r : repo_id) : row_eff (result Txn)
| DTxGet (t : Txn) (k : string) : row_eff (result (option string * Txn))
| DCommit (t : Txn) : row_eff commit_res
| DUpload (r : repo_id) (pack : string) : row_eff (result unit)
| DCall (what : string) : row_eff (result unit).

Abbreviation P := (prog row_eff).

(** ** Keys *)
Definition ref_key (r : repo_id) (name : string) : string := "ref/" +:+ r.1 +:+ "/" +:+ r.2 +:+ "/" +:+ name.
Definition ref_prefix (r : repo_id) : string := "ref/" +:+ r.1 +:+ "/" +:+ r.2 +:+ "/".
Definition repo_key (r : repo_id) : string := "repo/" +:+ r.1 +:+ "/" +:+ r.2.
Definition PUBLIC_KEY : string := "meta/public".
Definition DESCRIPTION_KEY : string := "meta/description".
Definition CREATED_BY_KEY : string := "meta/created_by".
Definition CREATED_AT_KEY : string := "meta/created_at".
Definition PROTECT_PREFIX : string := "meta/protect/".
Definition protect_key (r : repo_id) (pattern : string) : string :=
  PROTECT_PREFIX +:+ r.1 +:+ "/" +:+ r.2 +:+ "/" +:+ pattern.
Definition protect_scan (r : repo_id) : string := PROTECT_PREFIX +:+ r.1 +:+ "/" +:+ r.2 +:+ "/".

(** ** Protection rules *)
Record Protection := mkProtection { pattern : string; no_force : bool; no_delete : bool }.

Module Protections.
Definition encode (p : Protection) : string :=
  (if no_force p then "f" else "") +:+ (if no_delete p then "d" else "").

Definition decode (pattern value : string) : Protection :=
  mkProtection pattern (contains_char "f" value) (contains_char "d" value).

Definition matches (p : Protection) (branch : string) : bool :=
  match strip_suffix "*" (pattern p) with
  | Some prefix => starts_with prefix branch
  | None => String.eqb (pattern p) branch
  end.
End Protections.

Definition check_pattern (pattern : string) : result unit :=
  if String.eqb (trim pattern) "" then Err (EMsg "a branch pattern is required")
  else if contains_str "//" pattern || starts_with "/" pattern then Err (EMsg "that is not a branch pattern")
  else
    let stem := match strip_suffix "*" pattern with Some s => s | None => pattern end in
    if contains_char "*" stem then Err (EMsg "only a trailing * is supported in a branch pattern")
    else Ok tt.

(** ** Names *)
Definition valid_ref_name (name : string) : bool :=
  if negb (starts_with "refs/" name) || (512 <? str_len name) || ends_with "/" name ||
     ends_with ".lock" name || Nat.ltb (List.length (split "/" name)) 3 then false
  else if contains_str ".." name || contains_str "//" name || contains_str "@{" name || contains_str "\" name
  then false
  else if any (fun c => String.eqb c "" || starts_with "." c || ends_with ".lock" c) (split "/" name)
  then false
  else forallb (fun b => (0x20 <? byte_z b) && negb (byte_z b =? 0x7f) && negb (contains_char b "~^:?*["))
         (list_ascii_of_string name).

(** [{:?}] on a [str]: quoted, with quotes, backslashes and control bytes escaped.  Bytes of
    non-ASCII characters are kept. *)
Definition debug_hex (n : Z) : string :=
  match String.get (Z.to_nat n) "0123456789abcdef" with Some c => String c "" | None => "" end.
Definition debug_byte (c : ascii) : string :=
  let b := byte_z c in
  if b =? 0x22 then "\" +:+ String c ""
  else if b =? 0x5c then "\\"
  else if b =? 0 then "\0"
  else if b =? 9 then "\t"
  else if b =? 10 then "\n"
  else if b =? 13 then "\r"
  else if (b <? 0x20) || (b =? 0x7f)
  then "\u{" +:+ (if b <? 16 then "" else debug_hex (b / 16)) +:+ debug_hex (b mod 16) +:+ "}"
  else String c "".
Definition debug_str (s : string) : string :=
  let q := String (ascii_of_N 0x22) "" in
  q +:+ String.concat "" (map debug_byte (list_ascii_of_string s)) +:+ q.

Definition branch_of (refname : string) : option string := strip_prefix "refs/heads/" refname.

(** [sort] and [sort_by] of strings: byte order. *)
Definition key_le {A} (key : A -> string) (a b : A) : Prop := String.leb (key a) (key b) = true.
#[export] Instance key_le_dec {A} (key : A -> string) : RelDecision (key_le key).
Proof. intros a b. unfold key_le. apply _. Defined.

Definition sort_by {A} (key : A -> string) (l : list A) : list A := merge_sort (key_le key) l.

Section refs.
Context {oid : Type} `{EqDecision oid} `{Hex oid}.

Record RefUpdate := mkUpdate { u_name : string; u_old : option oid; u_new : option oid }.

Record RepoMeta := mkRepoMeta { description : string; created_by : string; created_at_ms : Z; public : bool }.

Definition parse_oid (b : string) : result oid :=
  match from_hex b with Some o => Ok o | None => Err (EMsg "oid") end.

Definition db_get (r : repo_id) (k : string) : P (result (option string)) := trigger (DGet r k).
Definition db_write (r : repo_id) (batch : list (string * option string)) : P (result unit) := trigger (DWrite r batch).
Definition db_put (r : repo_id) (k v : string) : P (result unit) := db_write r [(k, Some v)].

(** ** Repositories *)
Definition repo_exists (r : repo_id) : P (result bool) :=
  let!? there := trigger (DExists r) in
  if negb there then Ret (Ok false)
  else let!? row := db_get r (repo_key r) in Ret (Ok (is_some row)).

Definition is_one (v : option string) : bool := bool_decide (v = Some "1").

Definition is_public (r : repo_id) : P (result bool) :=
  let!? v := db_get r PUBLIC_KEY in Ret (Ok (is_one v)).

(** Both rows are asked for before either answer is looked at. *)
Definition repo_public (r : repo_id) : P (result bool) :=
  let!? there := trigger (DExists r) in
  if negb there then Ret (Ok false)
  else
    let! exists_ := db_get r (repo_key r) in
    let! public := db_get r PUBLIC_KEY in
    Ret (rbind exists_ (fun e => if is_some e then rbind public (fun p => Ok (is_one p)) else Ok false)).

Definition create_repo (r : repo_id) : P (result unit) :=
  if negb (valid_owner r.1) || negb (valid_segment r.2) then Ret (Err (EMsg "invalid repo path"))
  else
    let!? there := repo_exists r in
    if there then Ret (Err (EMsg "repository already exists"))
    else db_put r (repo_key r) "".

Definition bump_generation : P (result unit) := trigger (DCall "bump_generation").

Definition set_public (r : repo_id) (public : bool) : P (result unit) :=
  let!? _ := db_put r PUBLIC_KEY (if public then "1" else "0") in bump_generation.

Definition set_repo_meta (r : repo_id) (description created_by : string) (created_at_ms : Z) : P (result unit) :=
  db_write r [(DESCRIPTION_KEY, Some description); (CREATED_BY_KEY, Some created_by);
              (CREATED_AT_KEY, Some (display_i created_at_ms))].

Definition set_repo_description (r : repo_id) (description : string) : P (result unit) :=
  db_put r DESCRIPTION_KEY description.

Definition repo_meta (r : repo_id) : P (result (option RepoMeta)) :=
  let!? at_ := db_get r CREATED_AT_KEY in
  match at_ with
  | None => Ret (Ok None)
  | Some at_ =>
    match ok_parse (parse_i64 at_) with
    | None => Ret (Err (EMsg "bad meta/created_at"))
    | Some at_ =>
      let!? description := db_get r DESCRIPTION_KEY in
      let!? created_by := db_get r CREATED_BY_KEY in
      let!? public := db_get r PUBLIC_KEY in
      Ret (Ok (Some (mkRepoMeta (default "" description) (default "" created_by) at_ (is_one public))))
    end
  end.

(** ** Refs *)
Definition get_ref (r : repo_id) (name : string) : P (result (option oid)) :=
  let!? v := db_get r (ref_key r name) in
  Ret match v with
      | Some v => rbind (parse_oid v) (fun o => Ok (Some o))
      | None => Ok None
      end.

Fixpoint read_refs (prefix : string) (kvs : list (string * string)) (out : list (string * oid)) :
    result (list (string * oid)) :=
  match kvs with
  | [] => Ok out
  | (k, v) :: kvs =>
    rbind (parse_oid v) (fun o =>
      read_refs prefix kvs (out ++ [(unwrap_or (strip_prefix prefix k) "", o)])%list)
  end.

Definition list_refs (r : repo_id) : P (result (list (string * oid))) :=
  let!? kvs := trigger (DScan r (ref_prefix r)) in
  Ret (rbind (read_refs (ref_prefix r) kvs []) (fun out => Ok (sort_by fst out))).

Definition fork (src dst : repo_id) : P (result unit) :=
  if negb (valid_owner dst.1) || negb (valid_segment dst.2) then Ret (Err (EMsg "invalid repo path"))
  else
    let!? there := repo_exists dst in
    if there then Ret (Err (EMsg "repository already exists"))
    else
      let!? refs := list_refs src in
      let!? _ := trigger (DCall "copy_packs") in
      db_write dst ((repo_key dst, Some "") :: map (fun x => (ref_key dst x.1, Some (to_hex x.2))) refs).

Definition delete_repo (r : repo_id) : P (result unit) :=
  let!? there := repo_exists r in
  if negb there then Ret (Err (EMsg "repository not found"))
  else
    let!? kvs := trigger (DScan r (ref_prefix r)) in
    let!? _ := db_write r (map (fun kv => (kv.1, None)) kvs ++ [(repo_key r, None)])%list in
    let!? _ := trigger (DCall "delete_objects") in
    let!? _ := trigger (DCall "delete_repo_db") in
    bump_generation.

(** ** Protection *)
Definition rules_of (r : repo_id) (kvs : list (string * string)) : list Protection :=
  sort_by pattern (omap (fun kv =>
    option_map (fun p => Protections.decode p kv.2) (strip_prefix (protect_scan r) kv.1)) kvs).

Definition protections (r : repo_id) : P (result (list Protection)) :=
  let!? kvs := trigger (DScan r (protect_scan r)) in Ret (Ok (rules_of r kvs)).

Definition set_protection (r : repo_id) (p : Protection) : P (result unit) :=
  match check_pattern (pattern p) with
  | Err e => Ret (Err e)
  | Ok _ => db_put r (protect_key r (pattern p)) (Protections.encode p)
  end.

Definition remove_protection (r : repo_id) (pattern : string) : P (result unit) :=
  match check_pattern pattern with
  | Err e => Ret (Err e)
  | Ok _ => db_write r [(protect_key r pattern, None)]
  end.

(** The walk of the repository's history; [None] when its objects could not be opened. *)
Variable odb : option (list oid -> list oid -> list ((oid * list oid) + find_error)).

Definition protection_verdict (rules : list Protection) (u : RefUpdate) : option string :=
  branch ← branch_of (u_name u);
  rule ← List.find (fun p => Protections.matches p branch) rules;
  match u_new u with
  | None => if no_delete rule then Some (branch +:+ " is protected: it cannot be deleted") else None
  | Some new =>
    match u_old u with
    | None => None
    | Some old =>
      if negb (no_force rule) then None
      else match odb with
           | None => Some (branch +:+ " is protected: its history could not be verified")
           | Some walk =>
             if is_ancestor walk old new ANCESTRY_BUDGET then None
             else Some (branch +:+ " is protected: force pushes are not allowed")
           end
    end
  end.

(** ** Updating refs *)
Fixpoint txn_updates (r : repo_id) (t : Txn) (us : list (RefUpdate * option string)) (results : list (option string))
    (any_rejected : bool) : P (result (Txn * list (option string) * bool)) :=
  match us with
  | [] => Ret (Ok (t, results, any_rejected))
  | (u, Some reason) :: us => txn_updates r t us (results ++ [Some reason])%list true
  | (u, None) :: us =>
    let key := ref_key r (u_name u) in
    let!? got := trigger (DTxGet t key) in
    let '(v, t) := got in
    match match v with Some v => rbind (parse_oid v) (fun o => Ok (Some o)) | None => Ok None end with
    | Err e => Ret (Err e)
    | Ok cur =>
      if negb (bool_decide (cur = u_old u))
      then txn_updates r t us (results ++ [Some "fetch first"])%list true
      else
        let t := mkTxn (t_repo t) (t_snapshot t) (t_reads t)
                   (t_writes t ++ [(key, option_map to_hex (u_new u))])%list in
        txn_updates r t us (results ++ [None])%list any_rejected
    end
  end.

Definition update_refs_txn (r : repo_id) (updates : list RefUpdate) (verdicts : list (option string)) :
    P (result (list (option string))) :=
  let!? t := trigger (DBegin r) in
  let!? done := txn_updates r t (combine updates verdicts) [] false in
  let '(t, results, any_rejected) := done in
  if (any_rejected : bool) then Ret (Ok results)
  else
    let! c := trigger (DCommit t) in
    match c with
    | Committed => trigger (DCall "drop_refs") ;;! Ret (Ok results)
    | Conflict msg => Ret (Ok (map (fun _ => Some ("conflict: " +:+ msg)) updates))
    | CommitErr e => Ret (Err e)
    end.

(** A bad name overrides whatever the rules say. *)
Definition name_verdict (v : option string) (u : RefUpdate) : option string :=
  if negb (valid_ref_name (u_name u)) then Some (debug_str (u_name u) +:+ " is not a valid ref name") else v.

Definition batch_verdicts (rules : list Protection) (updates : list RefUpdate) : list (option string) :=
  let verdicts := match rules with
                  | [] => map (fun _ => None) updates
                  | _ => map (protection_verdict rules) updates
                  end in
  map (fun vu => name_verdict vu.1 vu.2) (combine verdicts updates).

Definition update_refs (r : repo_id) (updates : list RefUpdate) : P (result (list (option string))) :=
  let!? rules := protections r in update_refs_txn r updates (batch_verdicts rules updates).
End refs.

Arguments RefUpdate oid : clear implicits.
Arguments mkUpdate {oid} u_name u_old u_new.
Arguments u_name {oid} r.
Arguments u_old {oid} r.
Arguments u_new {oid} r.
