(* ===== verification/RefsSafe.v ===== *)
(** * RefsSafe: ref updates are atomic and follow the rules

    A request is a run of its program in which any other request may change any table between two
    of its effects: [steps] records what each effect of its own found and left.  [RowLaws] is what
    the row store documents: reads answer the current rows, a batch is one write, a transaction
    reads its snapshot under its own writes and commits, all at once, only if nothing it read has
    changed since; a failed write may still have been applied.

    [judge] is the sequential specification of a batch of ref updates; a run of [update_refs_txn]
    is one atomic step of it ([update_refs_atomic]). *)

From stdpp Require Import sorting.
From S2P Require Import Prelude Text Names Prog Commits Refs.
Local Open Scope string_scope.
Local Open Scope Z_scope.

(** ** Sorted rules *)
Lemma leb_cons a s b t :
  String.leb (String a s) (String b t) =
  match Ascii.compare a b with Eq => String.leb s t | Lt => true | Gt => false end.
Proof. unfold String.leb. simpl. by destruct (Ascii.compare a b). Qed.

Lemma leb_trans a b c : String.leb a b = true -> String.leb b c = true -> String.leb a c = true.
Proof.
  revert b c. induction a as [|x a IH]; intros [|y b] [|z c]; try done.
  rewrite !leb_cons. unfold Ascii.compare.
  destruct (N.compare_spec (N_of_ascii x) (N_of_ascii y)) as [Hxy|Hxy|Hxy];
    destruct (N.compare_spec (N_of_ascii y) (N_of_ascii z)) as [Hyz|Hyz|Hyz]; try done;
    destruct (N.compare_spec (N_of_ascii x) (N_of_ascii z)) as [Hxz|Hxz|Hxz]; try done; try lia. eauto.
Qed.

#[export] Instance key_le_trans {A} (key : A -> string) : Transitive (key_le key).
Proof. intros a b c. apply leb_trans. Qed.
#[export] Instance key_le_total {A} (key : A -> string) : Total (key_le key).
Proof. intros a b. apply String.leb_total. Qed.

(** The first match of a sorted list is below every match. *)
Lemma find_sorted {A} (R : A -> A -> Prop) f l x y :
  StronglySorted R l -> List.find f l = Some x -> y ∈ l -> f y = true -> x = y \/ R x y.
Proof.
  induction 1 as [|a l Hs IH Hall]; simpl; [done|]. intros Hf Hy Hfy.
  destruct (f a) eqn:Ea; simplify_eq.
  - apply elem_of_cons in Hy as [->|Hy]; [by left|]. right. by eapply Forall_forall in Hall.
  - apply elem_of_cons in Hy as [->|Hy]; [congruence|auto].
Qed.

Section rows.
(** The tables' state, what each repository's table holds in it, and the row store. *)
Context {St : Type}.
Variable tbl : St -> repo_id -> rows.
(** The packs the object store holds for it. *)
Variable stored : St -> repo_id -> string -> Prop.
Variable dsem : forall X, row_eff X -> St -> X -> St -> Prop.

Definition put_row (T : rows) (w : string * option string) : rows :=
  match w.2 with Some v => <[w.1 := v]> T | None => delete w.1 T end.

Definition put_rows (T : rows) (ws : list (string * option string)) : rows := foldl put_row T ws.

(** The state moved only by one batch on one repository's table. *)
Definition quiet (s s' : St) : Prop := forall r, tbl s' r = tbl s r.
Definition wrote (r : repo_id) (ws : list (string * option string)) (s s' : St) : Prop :=
  tbl s' r = put_rows (tbl s r) ws /\ forall r', r' <> r -> tbl s' r' = tbl s r'.

Definition unread (t : Txn) (s : St) : Prop :=
  forall k, k ∈ t_reads t -> tbl s (t_repo t) !! k = t_snapshot t !! k.

Record RowLaws : Prop := {
  law_exists : forall r s x s', dsem _ (DExists r) s x s' -> quiet s s';
  law_upload : forall r pack s x s', dsem _ (DUpload r pack) s x s' ->
    quiet s s' /\ (x = Ok tt -> stored s' r pack);
  law_call : forall c s x s', dsem _ (DCall c) s x s' -> quiet s s';
  law_get : forall r k s x s', dsem _ (DGet r k) s x s' ->
    quiet s s' /\ forall v, x = Ok v -> v = tbl s r !! k;
  law_scan : forall r p s x s', dsem _ (DScan r p) s x s' ->
    quiet s s' /\ forall kvs, x = Ok kvs ->
      forall k v, (k, v) ∈ kvs <-> starts_with p k = true /\ tbl s r !! k = Some v;
  law_write : forall r ws s x s', dsem _ (DWrite r ws) s x s' ->
    wrote r ws s s' \/ (quiet s s' /\ is_ok x = false);
  law_begin : forall r s x s', dsem _ (DBegin r) s x s' ->
    quiet s s' /\ forall t, x = Ok t -> t = mkTxn r (tbl s r) [] [];
  law_txget : forall t k s x s', dsem _ (DTxGet t k) s x s' ->
    quiet s s' /\ forall v t', x = Ok (v, t') ->
      v = put_rows (t_snapshot t) (t_writes t) !! k /\
      t' = mkTxn (t_repo t) (t_snapshot t) (k :: t_reads t) (t_writes t);
  law_commit : forall t s x s', dsem _ (DCommit t) s x s' ->
    (unread t s /\ wrote (t_repo t) (t_writes t) s s' /\ forall m, x <> Conflict m) \/
    (quiet s s' /\ x <> Committed);
}.

(** ** Runs *)
Fixpoint steps {A} (p : P A) (log : list (St * St)) (a : A) : Prop :=
  match p with
  | Ret a' => log = [] /\ a = a'
  | Vis X e k => exists s x s' rest, log = ((s, s') :: rest)%list /\ dsem X e s x s' /\ steps (k x) rest a
  end.

Lemma steps_bind {A B} (p : P A) (f : A -> P B) log b :
  steps (bind p f) log b <->
  exists l1 l2 a, log = (l1 ++ l2)%list /\ steps p l1 a /\ steps (f a) l2 b.
Proof.
  revert log. induction p as [a|X e k IH]; intros log; simpl.
  - split; [intros Hs; by exists [], log, a|]. by intros (l1 & l2 & a' & -> & [-> ->] & Hf).
  - split.
    + intros (s & x & s' & rest & -> & He & Hk). apply IH in Hk as (l1 & l2 & a & -> & Hp & Hf).
      exists ((s, s') :: l1)%list, l2, a. repeat split; [|done]. by exists s, x, s', l1.
    + intros (l1 & l2 & a & -> & (s & x & s' & rest & -> & He & Hk) & Hf).
      exists s, x, s', (rest ++ l2)%list. repeat split; [done|]. apply IH. by exists rest, l2, a.
Qed.

Lemma steps_trigger {A} (e : row_eff A) log a :
  steps (trigger e) log a <-> exists s s', log = [(s, s')] /\ dsem A e s a s'.
Proof.
  simpl. split.
  - intros (s & x & s' & rest & -> & He & -> & ->). by exists s, s'.
  - intros (s & s' & -> & He). by exists s, a, s', [].
Qed.

(** An error ends the run; an answer goes on. *)
Lemma steps_res {A B} (p : P (result A)) (f : A -> P (result B)) log b :
  steps (bind_res p f) log b ->
  (exists e, b = Err e /\ steps p log (Err e)) \/
  exists l1 l2 a, log = (l1 ++ l2)%list /\ steps p l1 (Ok a) /\ steps (f a) l2 b.
Proof.
  unfold bind_res. rewrite steps_bind. intros (l1 & l2 & [a|e] & -> & Hp & Hf).
  - right. by exists l1, l2, a.
  - left. destruct Hf as [-> ->]. exists e. by rewrite app_nil_r.
Qed.

Definition all_quiet (log : list (St * St)) : Prop := Forall (fun x => quiet x.1 x.2) log.

(** The run changed nothing, but for one step. *)
Definition one_step (log : list (St * St)) (s s' : St) : Prop :=
  exists pre post, log = (pre ++ (s, s') :: post)%list /\ all_quiet pre /\ all_quiet post.

Lemma one_step_app l1 l2 s s' : all_quiet l1 -> one_step l2 s s' -> one_step (l1 ++ l2) s s'.
Proof.
  intros H1 (pre & post & -> & Hpre & Hpost). exists (l1 ++ pre)%list, post.
  rewrite app_assoc. repeat split; [|done]. by apply Forall_app.
Qed.

Lemma one_step_tail l1 l2 s s' : one_step l1 s s' -> all_quiet l2 -> one_step (l1 ++ l2) s s'.
Proof.
  intros (pre & post & -> & Hpre & Hpost) H2. exists pre, (post ++ l2)%list.
  rewrite <- app_assoc. repeat split; [done|]. by apply Forall_app.
Qed.

Lemma put_rows_app T ws w : put_rows T (ws ++ [w]) = put_row (put_rows T ws) w.
Proof. unfold put_rows. by rewrite foldl_app. Qed.

(** A row read through a transaction's own writes depends on nothing else below them. *)
Lemma put_rows_agree T T' ws k : T !! k = T' !! k -> put_rows T ws !! k = put_rows T' ws !! k.
Proof.
  induction ws as [|w ws IH] using rev_ind; intros Hk; [done|]. rewrite !put_rows_app.
  unfold put_row. destruct (w.2) as [v|]; destruct (decide (w.1 = k)) as [<-|Hn].
  - by rewrite !lookup_insert_eq.
  - rewrite !lookup_insert_ne by done. auto.
  - by rewrite !lookup_delete_eq.
  - rewrite !lookup_delete_ne by done. auto.
Qed.

(** ** The sequential specification *)
Section spec.
Context {oid : Type} `{EqDecision oid} `{Hex oid}.

Definition cur_of (T : rows) (k : string) : result (option oid) :=
  match T !! k with Some v => rbind (parse_oid v) (fun o => Ok (Some o)) | None => Ok None end.

Definition ref_write (r : repo_id) (u : RefUpdate oid) : string * option string :=
  (ref_key r (u_name u), option_map to_hex (u_new u)).

Fixpoint judge (r : repo_id) (T : rows) (us : list (RefUpdate oid * option string)) :
    result (rows * list (option string)) :=
  match us with
  | [] => Ok (T, [])
  | (u, Some reason) :: us => let? res := judge r T us in Ok (res.1, Some reason :: res.2)
  | (u, None) :: us =>
    let? cur := cur_of T (ref_key r (u_name u)) in
    if bool_decide (cur = u_old u)
    then let? res := judge r (put_row T (ref_write r u)) us in Ok (res.1, None :: res.2)
    else let? res := judge r T us in Ok (res.1, Some "fetch first" :: res.2)
  end.

(** All of the batch, or none of it. *)
Definition update_spec (r : repo_id) (us : list (RefUpdate oid * option string)) (T : rows) :
    result (rows * list (option string)) :=
  let? res := judge r T us in
  Ok (if any is_some res.2 then T else res.1, res.2).

(** The run is one step of the specification. *)
Definition applied (r : repo_id) (us : list (RefUpdate oid * option string)) (log : list (St * St))
    (rs : list (option string)) : Prop :=
  exists s s', one_step log s s' /\ update_spec r us (tbl s r) = Ok (tbl s' r, rs) /\
    forall r', r' <> r -> tbl s' r' = tbl s r'.

Hypothesis laws : RowLaws.

Lemma txn_updates_judge r T0 us : forall reads ws results rej log res,
  steps (txn_updates r (mkTxn r T0 reads ws) us results rej) log res ->
  all_quiet log /\
  match res with
  | Ok (t', results', rej') => exists reads' ws' rs,
      t' = mkTxn r T0 reads' ws' /\ results' = (results ++ rs)%list /\ rej' = rej || any is_some rs /\
      (forall k, k ∈ reads -> k ∈ reads') /\
      forall T, (forall k, k ∈ reads' -> T !! k = T0 !! k) ->
        judge r (put_rows T ws) us = Ok (put_rows T ws', rs)
  | Err _ => True
  end.
Proof using laws.
  induction us as [|[u [reason|]] us IH]; intros reads ws results rej log res Hs; cbn [txn_updates] in Hs.
  - destruct Hs as [-> ->]. split; [constructor|]. exists reads, ws, [].
    rewrite app_nil_r, orb_false_r. by repeat split.
  - apply IH in Hs as [Hq Hres]. split; [done|]. destruct res as [[[t' results'] rej']|]; [|done].
    destruct Hres as (reads' & ws' & rs & -> & -> & -> & Hsub & Hj). exists reads', ws', (Some reason :: rs).
    rewrite <- app_assoc. simpl. rewrite orb_true_r. repeat split; [done|].
    intros T HT. by rewrite (Hj T HT).
  - apply steps_res in Hs as [(e & -> & Hs)|(l1 & l2 & [v t'] & -> & Hg & Hs)].
    { apply steps_trigger in Hs as (s & s' & -> & Hd). split; [|done].
      apply (law_txget laws) in Hd as [Hq _]. by repeat constructor. }
    apply steps_trigger in Hg as (s & s' & -> & Hd). apply (law_txget laws) in Hd as [Hq Hv].
    destruct (Hv _ _ eq_refl) as [-> ->]. clear Hv. cbn [t_repo t_snapshot t_writes t_reads] in Hs.
    set (k := ref_key r (u_name u)) in *.
    assert (Hcur : forall T, T !! k = T0 !! k ->
      cur_of (put_rows T ws) k = cur_of (put_rows T0 ws) k)
      by (intros T HT; unfold cur_of; by rewrite (put_rows_agree T T0)).
    change (match put_rows T0 ws !! k with Some v => _ | None => _ end) with (cur_of (put_rows T0 ws) k) in Hs.
    destruct (cur_of (put_rows T0 ws) k) as [cur|e] eqn:Ec.
    2:{ destruct Hs as [-> ->]. split; [by repeat constructor|done]. }
    destruct (bool_decide (cur = u_old u)) eqn:Eb; cbn [negb] in Hs;
      apply IH in Hs as [Hq2 Hres]; (split; [by constructor|]);
      (destruct res as [[[t' results'] rej']|]; [|done]);
      destruct Hres as (reads' & ws' & rs & -> & -> & -> & Hsub & Hj).
    + exists reads', ws', (None :: rs). rewrite <- app_assoc. repeat split.
      { intros k' Hk'. apply Hsub. by right. }
      intros T HT. cbn [judge]. fold k. rewrite Hcur by (apply HT, Hsub; left). cbn [rbind].
      rewrite Eb. rewrite <- put_rows_app. unfold ref_write. fold k. by rewrite (Hj T HT).
    + exists reads', ws', (Some "fetch first" :: rs). rewrite <- app_assoc. simpl. rewrite orb_true_r. repeat split.
      { intros k' Hk'. apply Hsub. by right. }
      intros T HT. fold k. rewrite Hcur by (apply HT, Hsub; left). cbn [rbind].
      rewrite Eb. by rewrite (Hj T HT).
Qed.

Lemma steps_call {A} what (k : result unit -> P A) log a :
  steps (bind (trigger (DCall what)) k) log a ->
  exists x s s' rest, log = ((s, s') :: rest)%list /\ quiet s s' /\ steps (k x) rest a.
Proof using laws.
  rewrite steps_bind. intros (l1 & l2 & x & -> & Hc & Hk). apply steps_trigger in Hc as (s & s' & -> & Hd).
  apply (law_call laws) in Hd. by exists x, s, s', l2.
Qed.

Lemma txn_one_step r us vs log res :
  steps (update_refs_txn r us vs) log res ->
  match res with
  | Ok rs => applied r (combine us vs) log rs \/
             all_quiet log /\ exists m, rs = map (fun _ => Some ("conflict: " +:+ m)) us
  | Err _ => all_quiet log \/ exists rs, applied r (combine us vs) log rs /\ any is_some rs = false
  end.
Proof using laws.
  intros Hs. apply steps_res in Hs as [(e & -> & Hs)|(l1 & l2 & t & -> & Hb & Hs)].
  { apply steps_trigger in Hs as (s & s' & -> & Hd). left. apply (law_begin laws) in Hd as [Hq _].
    by repeat constructor. }
  apply steps_trigger in Hb as (s & s0 & -> & Hd). apply (law_begin laws) in Hd as [Hq Ht].
  rewrite (Ht _ eq_refl) in Hs. clear Ht.
  apply steps_res in Hs as [(e & -> & Hs)|(l3 & l4 & [[t2 results] rej] & -> & Hu & Hs)].
  { left. apply txn_updates_judge in Hs as [Hq2 _]. by constructor. }
  apply txn_updates_judge in Hu as [Hq2 (reads & ws & rs & -> & -> & -> & _ & Hj)].
  cbn [app orb] in Hs. destruct (any is_some rs) eqn:Hr.
  { destruct Hs as [-> ->]. left. exists s, s0. split; [|split].
    - exists [], l3. rewrite app_nil_r. by repeat split; [constructor|].
    - unfold update_spec. specialize (Hj (tbl s r) (fun _ _ => eq_refl)). change (put_rows (tbl s r) []) with (tbl s r) in Hj.
      rewrite Hj. cbn [rbind]. cbn [snd fst]. rewrite Hr. by rewrite (Hq r).
    - intros r' _. apply Hq. }
  rewrite steps_bind in Hs. destruct Hs as (l5 & l6 & c & -> & Hc & Hs).
  apply steps_trigger in Hc as (s1 & s2 & -> & Hd). apply (law_commit laws) in Hd.
  assert (Happ : unread (mkTxn r (tbl s r) reads ws) s1 -> wrote r ws s1 s2 ->
    forall l, all_quiet l -> applied r (combine us vs) ((s, s0) :: l3 ++ (s1, s2) :: l) rs).
  { intros Hun [Hw Hw'] l Hl. exists s1, s2. split; [|split; [|done]].
    - exists ((s, s0) :: l3)%list, l. split; [done|]. split; [by constructor|done].
    - unfold update_spec. specialize (Hj (tbl s1 r) Hun). change (put_rows (tbl s1 r) []) with (tbl s1 r) in Hj.
      rewrite Hj. cbn [rbind]. cbn [snd fst]. rewrite Hr. by rewrite Hw. }
  assert (Hquiet : quiet s1 s2 -> all_quiet ((s, s0) :: l3 ++ [(s1, s2)])).
  { intros Hq3. constructor; [done|]. apply Forall_app. by repeat constructor. }
  cbn [t_repo t_writes] in Hd.
  destruct c as [|m|e].
  - apply steps_call in Hs as (x & s3 & s4 & l7 & -> & Hq3 & [-> ->]).
    destruct Hd as [(Hun & Hw & _)|[_ Hn]]; [|done]. left. apply Happ; [done..|]. by repeat constructor.
  - destruct Hs as [-> ->]. destruct Hd as [(_ & _ & Hn)|[Hq3 _]]; [by destruct (Hn m)|].
    right. split; [auto|by exists m].
  - destruct Hs as [-> ->]. destruct Hd as [(Hun & Hw & _)|[Hq3 _]]; [|left; auto].
    right. exists rs. split; [|done]. apply Happ; [done..|constructor].
Qed.

(** ** The rules *)

(** The rule a table keeps for a pattern, and the one that governs a branch: among those that
    match, the one whose pattern is first in byte order. *)
Definition rule_at (r : repo_id) (T : rows) (p : Protection) : Prop :=
  exists v, T !! protect_key r (pattern p) = Some v /\ p = Protections.decode (pattern p) v.

Definition governs (r : repo_id) (T : rows) (branch : string) (p : Protection) : Prop :=
  rule_at r T p /\ Protections.matches p branch = true /\
  forall p', rule_at r T p' -> Protections.matches p' branch = true -> key_le pattern p p'.

Lemma strip_prefix_key p s k : strip_prefix p s = Some k <-> s = p +:+ k.
Proof.
  revert s. induction p as [|a p IH]; intros s; simpl; [naive_solver|].
  destruct s as [|b s]; [done|]. destruct (Ascii.eqb_spec a b) as [->|Hn]; [|naive_solver].
  rewrite IH. naive_solver.
Qed.

Lemma protect_key_scan r pat : protect_key r pat = protect_scan r +:+ pat.
Proof. unfold protect_key, protect_scan. by rewrite !append_assoc. Qed.

Lemma rules_of_at r T kvs p :
  (forall k v, (k, v) ∈ kvs <-> starts_with (protect_scan r) k = true /\ T !! k = Some v) ->
  p ∈ rules_of r kvs <-> rule_at r T p.
Proof.
  intros Hk. unfold rules_of, sort_by. rewrite merge_sort_Permutation, list_elem_of_omap. split.
  - intros ([k v] & Hin & Hp). apply Hk in Hin as [_ Hv]. cbn [fst snd] in Hp.
    destruct (strip_prefix (protect_scan r) k) as [pat|] eqn:E; cbn [option_map] in Hp; [|done].
    apply strip_prefix_key in E as ->. injection Hp as <-. exists v. cbn [pattern Protections.decode]. by rewrite protect_key_scan.
  - intros (v & Hv & Hp). exists (protect_key r (pattern p), v).
    assert (Hs : strip_prefix (protect_scan r) (protect_key r (pattern p)) = Some (pattern p))
      by (by rewrite strip_prefix_key, protect_key_scan).
    rewrite Hk. unfold starts_with. cbn [fst snd]. rewrite Hs. cbn [option_map is_some]. by rewrite <- Hp.
Qed.

Lemma governs_found r T kvs branch p :
  (forall k v, (k, v) ∈ kvs <-> starts_with (protect_scan r) k = true /\ T !! k = Some v) ->
  governs r T branch p ->
  List.find (fun p => Protections.matches p branch) (rules_of r kvs) = Some p.
Proof.
  intros Hk (Hat & Hm & Hfirst). pose proof (proj2 (rules_of_at r T kvs p Hk) Hat) as Hin.
  destruct (List.find _ _) as [q|] eqn:Ef.
  - pose proof (List.find_some _ _ Ef) as [Hq%list_elem_of_In Hqm]. f_equal.
    assert (Hqat : rule_at r T q) by (by apply (rules_of_at r T kvs q Hk)).
    eapply find_sorted in Ef as [->|Hle]; [done| |apply (StronglySorted_merge_sort (key_le pattern))|exact Hin|done].
    pose proof (String.leb_antisym _ _ Hle (Hfirst q Hqat Hqm)) as Hpat.
    destruct Hat as (v & Hv & Hpv), Hqat as (w & Hw & Hqw). rewrite Hpv, Hqw, Hpat. congruence.
  - apply list_elem_of_In in Hin. by rewrite (List.find_none _ _ Ef p Hin) in Hm.
Qed.

(** What a rule permits: keeping a branch it protects from deletion, and moving one it protects from
    rewriting to a commit that descends from the old one. *)
Variable find : oid -> object oid + find_error.
Definition permits (p : Protection) (u : RefUpdate oid) : Prop :=
  match u_new u, u_old u with
  | None, _ => no_delete p = false
  | Some new, Some old => no_force p = true -> reach find [new] old
  | Some _, None => True
  end.

Variable odb : option (list oid -> list oid -> list ((oid * list oid) + find_error)).
Hypothesis walks : forall walk, odb = Some walk -> WalkLaws find walk.

Lemma verdict_permits rules u branch p :
  branch_of (u_name u) = Some branch ->
  List.find (fun p => Protections.matches p branch) rules = Some p ->
  protection_verdict odb rules u = None -> permits p u.
Proof using walks.
  intros Hb Hf. unfold protection_verdict, permits. rewrite Hb. cbn [mbind option_bind]. rewrite Hf.
  cbn [mbind option_bind]. destruct (u_new u) as [new|]; [|by destruct (no_delete p)].
  destruct (u_old u) as [old|]; [|done]. destruct (no_force p); [|done]. cbn [negb].
  destruct odb as [walk|] eqn:Eo; [|done]. destruct (is_ancestor _ _ _ _) eqn:Ea; [|done].
  intros _ _. eapply is_ancestor_reach; [by apply walks|exact Ea].
Qed.

Lemma batch_verdicts_none rules us u :
  u ∈ us -> Forall (fun uv => uv.2 = None) (combine us (batch_verdicts odb rules us)) ->
  valid_ref_name (u_name u) = true /\ (rules = [] \/ protection_verdict odb rules u = None).
Proof using Type.
  unfold batch_verdicts. intros Hin.
  enough (Hv : forall g : RefUpdate oid -> option string,
    Forall (fun uv => uv.2 = None) (combine us (map (fun vu => name_verdict vu.1 vu.2) (combine (map g us) us))) ->
    valid_ref_name (u_name u) = true /\ g u = None).
  { destruct rules as [|p rules]; intros Hall; apply Hv in Hall as [Hn Hg]; auto. }
  intros g. induction us as [|u' us IH]; [by apply not_elem_of_nil in Hin|]. simpl. intros Hall.
  apply Forall_cons in Hall as [Hu Hall]. apply elem_of_cons in Hin as [->|Hin]; [|auto].
  unfold name_verdict in Hu. simpl in Hu. by destruct (valid_ref_name _).
Qed.

Lemma judge_none r us T T' rs :
  judge r T us = Ok (T', rs) -> any is_some rs = false -> Forall (fun uv => uv.2 = None) us.
Proof using Type.
  revert T T' rs. induction us as [|[u [reason|]] us IH]; intros T T' rs Hj Hr; [constructor|..]; simpl in Hj.
  - apply rbind_ok in Hj as ([T1 rs1] & Hj & Heq). simplify_eq.
  - apply rbind_ok in Hj as (cur & _ & Hj). destruct (bool_decide _);
      apply rbind_ok in Hj as ([T1 rs1] & Hj & Heq); simplify_eq/=. constructor; [done|eauto].
Qed.

Lemma applied_rejected r us log rs : applied r us log rs -> any is_some rs = true -> all_quiet log.
Proof using Type.
  intros (s & s' & (pre & post & -> & Hpre & Hpost) & Hspec & Hother) Hr.
  apply rbind_ok in Hspec as (res & _ & Hres). injection Hres as HT Hrs. rewrite Hrs, Hr in HT.
  apply Forall_app. split; [done|]. apply Forall_cons. split; [|done].
  intros r'. destruct (decide (r' = r)) as [->|]; [done|auto].
Qed.

Lemma applied_none r us log rs s s' :
  applied r us log rs -> (s, s') ∈ log -> ~ quiet s s' -> any is_some rs = false.
Proof using Type.
  intros Ha Hin Hn. destruct (any is_some rs) eqn:Er; [|done]. destruct Hn.
  exact (proj1 (Forall_forall _ _) (applied_rejected _ _ _ _ Ha Er) _ Hin).
Qed.

Lemma protections_steps r log res :
  steps (protections r) log res ->
  exists s s', log = [(s, s')] /\ quiet s s' /\
    forall rules, res = Ok rules -> exists kvs, rules = rules_of r kvs /\
      forall k v, (k, v) ∈ kvs <-> starts_with (protect_scan r) k = true /\ tbl s r !! k = Some v.
Proof using laws.
  intros Hs. apply steps_res in Hs as [(e & -> & Hs)|(l1 & l2 & kvs & -> & Hd & [-> ->])].
  - apply steps_trigger in Hs as (s & s' & -> & Hd). exists s, s'.
    apply (law_scan laws) in Hd as [Hq _]. by repeat split.
  - apply steps_trigger in Hd as (s & s' & -> & Hd). exists s, s'.
    apply (law_scan laws) in Hd as [Hq Hk]. repeat split; [done|]. intros rules [= <-]. eauto.
Qed.

Lemma update_one_step r us log res :
  steps (update_refs odb r us) log res ->
  match res with
  | Ok rs => (exists rules, applied r (combine us (batch_verdicts odb rules us)) log rs) \/
             all_quiet log /\ exists m, rs = map (fun _ => Some ("conflict: " +:+ m)) us
  | Err _ => all_quiet log \/
             exists rules rs, applied r (combine us (batch_verdicts odb rules us)) log rs /\ any is_some rs = false
  end.
Proof using laws.
  intros Hs. apply steps_res in Hs as [(e & -> & Hs)|(l1 & l2 & rules & -> & Hp & Hs)].
  { apply protections_steps in Hs as (s & s' & -> & Hq & _). left. by repeat constructor. }
  apply protections_steps in Hp as (s & s' & -> & Hq & _).
  assert (Hl : all_quiet [(s, s')]) by (by repeat constructor).
  assert (Happ : forall rs, applied r (combine us (batch_verdicts odb rules us)) l2 rs ->
    applied r (combine us (batch_verdicts odb rules us)) ([(s, s')] ++ l2) rs).
  { intros rs (s1 & s2 & H1 & H2). exists s1, s2. split; [by apply one_step_app|done]. }
  apply txn_one_step in Hs. destruct res as [rs|e].
  - destruct Hs as [Ha|[Hq2 Hm]]; [left; eauto|right; split; [by constructor|done]].
  - destruct Hs as [Hq2|(rs & Ha & Hr)]; [left; by constructor|right; eauto].
Qed.

Lemma judge_length r us T T' rs : judge r T us = Ok (T', rs) -> List.length rs = List.length us.
Proof using Type.
  revert T T' rs. induction us as [|[u [reason|]] us IH]; intros T T' rs Hj; simpl in Hj; [by injection Hj as _ <-|..].
  - apply rbind_ok in Hj as ([T1 rs1] & Hj & Heq). injection Heq as _ <-. cbn. f_equal. eauto.
  - apply rbind_ok in Hj as (cur & _ & Hj). destruct (bool_decide _);
      apply rbind_ok in Hj as ([T1 rs1] & Hj & Heq); injection Heq as _ <-; cbn; f_equal; eauto.
Qed.

Lemma batch_length rules (us : list (RefUpdate oid)) :
  List.length (combine us (batch_verdicts odb rules us)) = List.length us.
Proof using Type.
  unfold batch_verdicts. rewrite length_combine, length_map, length_combine.
  destruct rules; rewrite length_map; lia.
Qed.

Lemma applied_length r rules us log rs :
  applied r (combine us (batch_verdicts odb rules us)) log rs -> List.length rs = List.length us.
Proof using Type.
  intros (s & s' & _ & Hspec & _). apply rbind_ok in Hspec as ([T rs'] & Hj & Heq). injection Heq as _ ->.
  by rewrite (judge_length _ _ _ _ _ Hj), batch_length.
Qed.

(** C14: A batch of ref updates is atomic: whatever else runs meanwhile, it is one step of the
    sequential specification, which applies every update where each is allowed and finds the old
    value it names, and none otherwise, and answers for each.  The exceptions are a reported
    conflict or error, where nothing was changed, and a commit that failed with its outcome unknown. *)
Theorem update_refs_atomic r us log res :
  steps (update_refs odb r us) log res ->
  match res with
  | Ok rs => (exists rules, applied r (combine us (batch_verdicts odb rules us)) log rs) \/
             all_quiet log /\ exists m, rs = map (fun _ => Some ("conflict: " +:+ m)) us
  | Err _ => all_quiet log \/
             exists rules rs, applied r (combine us (batch_verdicts odb rules us)) log rs /\ any is_some rs = false
  end.
Proof using laws. apply update_one_step. Qed.

(** C15: A push changes nothing the rules forbid: if a batch of updates changed any row, every ref
    name in it is valid, and the rule governing each branch, as the request read the rules, permits
    its update; in particular a branch under a no-force rule moved only to a descendant. *)
Theorem update_refs_permitted r us log res s s' :
  steps (update_refs odb r us) log res -> (s, s') ∈ log -> ~ quiet s s' ->
  exists s0 s0', (s0, s0') ∈ log /\ forall u, u ∈ us ->
    valid_ref_name (u_name u) = true /\
    forall branch p, branch_of (u_name u) = Some branch -> governs r (tbl s0 r) branch p -> permits p u.
Proof using laws walks.
  intros Hs Hin Hn. apply steps_res in Hs as [(e & -> & Hs)|(l1 & l2 & rules & -> & Hp & Hs)].
  { apply protections_steps in Hs as (s1 & s1' & -> & Hq & _). apply list_elem_of_singleton in Hin. injection Hin as -> ->. by destruct Hn. }
  apply protections_steps in Hp as (s0 & s0' & -> & Hq & Hk). destruct (Hk _ eq_refl) as (kvs & -> & Hkvs).
  assert (Hin2 : (s, s') ∈ l2) by (apply elem_of_cons in Hin as [Heq|Hin]; [injection Heq as -> ->; by destruct Hn|done]).
  assert (Hquiet : ~ all_quiet l2) by (intros Ha; by apply Hn, (proj1 (Forall_forall _ _) Ha _ Hin2)).
  assert (Happ : exists rs, applied r (combine us (batch_verdicts odb (rules_of r kvs) us)) l2 rs).
  { apply txn_one_step in Hs. destruct res; naive_solver. }
  destruct Happ as [rs Happ]. pose proof (applied_none _ _ _ _ _ _ Happ Hin2 Hn) as Hr.
  destruct Happ as (s1 & s2 & _ & Hspec & _). unfold update_spec in Hspec.
  apply rbind_ok in Hspec as ([T' rs'] & Hj & Heq). injection Heq as _ ->.
  pose proof (judge_none _ _ _ _ _ Hj Hr) as Hall.
  exists s0, s0'. split; [by left|]. intros u Hu.
  destruct (batch_verdicts_none _ us u Hu Hall) as [Hname Hverdict]. split; [done|].
  intros branch p Hb Hg. apply (governs_found _ _ _ _ _ Hkvs) in Hg.
  destruct Hverdict as [Hnil|Hv]; [by rewrite Hnil in Hg|by eapply verdict_permits].
Qed.
End spec.
End rows.
