(* ===== verification/Walks.v ===== *)
(** * Walks: which objects a push or a fetch needs, [crates/git/src/protocol/upload/walk.rs] and [mod.rs]

    Objects are read through [find] and commits walked by [simple] ([Commits]); [tree_contents] is
    gix's object counting ([pack::count_objects] with [TreeContents]): what the trees under the given
    objects contain.  Loops that follow objects carry fuel and say when it runs out. *)

From S2P Require Import Prelude Text Names Prog Commits Refs.
Local Open Scope string_scope.
Local Open Scope Z_scope.

(** A walk's answer, its error, or fuel spent. *)
Inductive outcome (A : Type) : Type :=
| Done (a : A)
| Fails (e : find_error)
| OutOfFuel.
Arguments Done {A} a.
Arguments Fails {A} e.
Arguments OutOfFuel {A}.

Definition obind {A B} (o : outcome A) (f : A -> outcome B) : outcome B :=
  match o with Done a => f a | Fails e => Fails e | OutOfFuel => OutOfFuel end.
Notation "'let~' x ':=' o 'in' k" := (obind o (fun x => k))
  (at level 10, x pattern, o at level 100, k at level 200) : klo_scope.

Definition of_sum {A} (x : A + find_error) : outcome A :=
  match x with inl a => Done a | inr e => Fails e end.

Lemma obind_done {A B} (o : outcome A) (f : A -> outcome B) b :
  obind o f = Done b <-> exists a, o = Done a /\ f a = Done b.
Proof. destruct o; simpl; naive_solver. Qed.

(** ** Filters *)
Inductive Filter : Type :=
| NoBlobs
| BlobLimit (max : Z)
| NoTrees.

#[export] Instance filter_eq_dec : EqDecision Filter.
Proof. solve_decision. Defined.

(** [s.chars().last()] and the text before it, for a last character that is one byte. *)
Fixpoint split_last (s : string) : option (string * ascii) :=
  match s with
  | "" => None
  | String c s' => match split_last s' with
                   | Some (a, l) => Some (String c a, l)
                   | None => Some ("", c)
                   end
  end.

Definition checked_mul (a b : Z) : option Z := if a * b <=? u64_max then Some (a * b) else None.

Definition parse_size (s : string) : option Z :=
  let s := trim s in
  '(init, last) ← split_last s;
  let '(digits, mult) :=
    if Ascii.eqb last "k" || Ascii.eqb last "K" then (init, 1024)
    else if Ascii.eqb last "m" || Ascii.eqb last "M" then (init, 1024 * 1024)
    else if Ascii.eqb last "g" || Ascii.eqb last "G" then (init, 1024 * 1024 * 1024)
    else (s, 1) in
  n ← ok_parse (parse_u64 (trim digits)); checked_mul n mult.

Module Filters.
Definition parse (spec : string) : option Filter :=
  let other := trim spec in
  if String.eqb other "blob:none" then Some NoBlobs
  else if String.eqb other "tree:0" then Some NoTrees
  else max ← strip_prefix "blob:limit=" other ≫= parse_size; Some (BlobLimit max).
End Filters.

Record Peeled (oid : Type) := mkPeeled { p_commits : list oid; p_tags : list oid; p_leaves : list oid }.
Arguments mkPeeled {oid} p_commits p_tags p_leaves.
Arguments p_commits {oid} p.
Arguments p_tags {oid} p.
Arguments p_leaves {oid} p.

Record Range (oid : Type) := mkRange
  { ids : list oid; leaves : list oid; merges : list oid; boundary : list oid }.
Arguments mkRange {oid} ids leaves merges boundary.
Arguments ids {oid} r.
Arguments leaves {oid} r.
Arguments merges {oid} r.
Arguments boundary {oid} r.

Section objects.
Context {oid : Type} `{Countable oid}.
Variable find : oid -> object oid + find_error.

(** ** Peeling tags *)
Fixpoint peel (fuel : nat) (id : oid) (p : Peeled oid) : outcome (Peeled oid) :=
  match fuel with
  | O => OutOfFuel
  | S fuel =>
    match find id with
    | inr e => Fails e
    | inl (OCommit _ _) => Done (mkPeeled (p_commits p ++ [id])%list (p_tags p) (p_leaves p))
    | inl (OTag target) => peel fuel target (mkPeeled (p_commits p) (p_tags p ++ [id])%list (p_leaves p))
    | inl _ => Done (mkPeeled (p_commits p) (p_tags p) (p_leaves p ++ [id])%list)
    end
  end.

Fixpoint peel_all (fuel : nat) (wants : list oid) (p : Peeled oid) : outcome (Peeled oid) :=
  match wants with
  | [] => Done p
  | w :: wants => let~ p := peel fuel w p in peel_all fuel wants p
  end.

Definition peel_wants (fuel : nat) (wants : list oid) : outcome (Peeled oid) :=
  peel_all fuel wants (mkPeeled [] [] []).

(** ** What a commit needs *)

(** What an object points at, a submodule's commit apart; a commit's parents are history. *)
Definition children (id : oid) : list oid :=
  match find id with
  | inl (OCommit tree _) => [tree]
  | inl (OTag target) => [target]
  | inl (OTree entries) =>
    map (fun e => e.1.2) (List.filter (fun e => match e.2 with EntryCommit => false | _ => true end) entries)
  | _ => []
  end.

Definition child (a b : oid) : Prop := b ∈ children a.

(** The tips' history, through tags, and everything under it. *)
Inductive hist (tips : list oid) : oid -> Prop :=
| hist_tip id : id ∈ tips -> hist tips id
| hist_tag id target : hist tips id -> find id = inl (OTag target) -> hist tips target
| hist_parent id ps p : hist tips id -> parents_of find id = Some ps -> p ∈ ps -> hist tips p.

Definition has (tips : list oid) (id : oid) : Prop := exists h, hist tips h /\ rtc child h id.

Lemma hist_app_mono tips tips' x : (forall t, t ∈ tips -> hist tips' t) -> hist tips x -> hist tips' x.
Proof using Type.
  intros Hsub. induction 1 as [id Hin|id target _ IH Ht|id ps p _ IH Hp Hin]; [auto|..].
  - by eapply hist_tag.
  - by eapply hist_parent.
Qed.

Lemma reach_hist tips x : reach find tips x -> hist tips x.
Proof using Type. induction 1; [by apply hist_tip|by eapply hist_parent]. Qed.

Lemma has_hist tips x : hist tips x -> has tips x.
Proof using Type. intros Hh. by exists x. Qed.

Lemma has_child tips x y : has tips x -> rtc child x y -> has tips y.
Proof using Type. intros (h & Hh & Hx) Hy. exists h. split; [done|]. by etrans. Qed.

(** *** Peeling *)
Definition peeled (p : Peeled oid) (x : oid) : Prop := x ∈ p_tags p \/ x ∈ p_commits p \/ x ∈ p_leaves p.

(** Every part is of its kind, came from the wants, and no tag's target is missing, but for the one
    still being followed. *)
Record peel_ok (wants : list oid) (open : oid -> Prop) (p : Peeled oid) : Prop := {
  peel_from : forall x, peeled p x -> hist wants x;
  peel_tag : forall t, t ∈ p_tags p -> exists target, find t = inl (OTag target) /\ (peeled p target \/ open target);
  peel_commit : forall c, c ∈ p_commits p -> is_Some (parents_of find c);
  peel_leaf : forall l o, l ∈ p_leaves p -> find l = inl o ->
    match o with OCommit _ _ | OTag _ => False | _ => True end;
}.

Lemma peel_spec wants fuel : forall id p p',
  hist wants id -> peel_ok wants (eq id) p -> peel fuel id p = Done p' ->
  peel_ok wants (fun _ => False) p' /\ peeled p' id /\ forall x, peeled p x -> peeled p' x.
Proof using Type.
  induction fuel as [|fuel IH]; intros id p p' Hid Hp; simpl; [done|].
  destruct (find id) as [o|e] eqn:Ef; [|done].
  assert (Hclose : forall q, q = p' -> peeled q id -> (forall x, peeled q x <-> peeled p x \/ x = id) ->
    p_tags q = p_tags p -> (forall c, c ∈ p_commits q -> is_Some (parents_of find c)) ->
    (forall l o, l ∈ p_leaves q -> find l = inl o -> match o with OCommit _ _ | OTag _ => False | _ => True end) ->
    peel_ok wants (fun _ => False) p' /\ peeled p' id /\ forall x, peeled p x -> peeled p' x).
  { intros q <- Hq Hiff Ht Hc Hl. split; [|split; [done|]; intros x Hx; apply Hiff; by left].
    constructor; [|intros t Hin|done|done].
    - intros x [Hx|Heq]%Hiff; [by apply (peel_from _ _ _ Hp)|by rewrite Heq].
    - rewrite Ht in Hin. destruct (peel_tag _ _ _ Hp t Hin) as (target & Hf & Ho). exists target.
      split; [done|]. left. apply Hiff. destruct Ho as [|Ho]; [by left|by right]. }
  destruct o as [tree ps|entries|target|]; intros Heq.
  - injection Heq as Heq. eapply Hclose; [exact Heq|..]; cbn [p_tags p_commits p_leaves] in *.
    + right. left. set_solver.
    + intros x. unfold peeled. cbn [p_tags p_commits p_leaves]. set_solver.
    + done.
    + intros c [Hc|Hc%list_elem_of_singleton]%elem_of_app; [by apply (peel_commit _ _ _ Hp)|].
      unfold parents_of. rewrite Hc, Ef. eauto.
    + apply (peel_leaf _ _ _ Hp).
  - injection Heq as Heq. eapply Hclose; [exact Heq|..]; cbn [p_tags p_commits p_leaves] in *.
    + right. right. set_solver.
    + intros x. unfold peeled. cbn [p_tags p_commits p_leaves]. set_solver.
    + done.
    + apply (peel_commit _ _ _ Hp).
    + intros l o [Hl|Hl%list_elem_of_singleton]%elem_of_app Hf; [by eapply (peel_leaf _ _ _ Hp)|].
      rewrite Hl, Ef in Hf. by injection Hf as <-.
  - apply IH in Heq as (Hok & Ht & Hsub).
    + split; [done|]. split; [apply Hsub; left; cbn; set_solver|].
      intros x Hx. apply Hsub. unfold peeled in *. cbn [p_tags p_commits p_leaves]. set_solver.
    + by eapply hist_tag.
    + constructor; cbn [p_tags p_commits p_leaves].
      * intros x Hx. unfold peeled in Hx. cbn [p_tags p_commits p_leaves] in Hx.
        assert (Hx' : peeled p x \/ x = id) by (unfold peeled; set_solver).
        destruct Hx' as [Hx'| ->]; [by apply (peel_from _ _ _ Hp)|done].
      * intros t [Hin|Hin%list_elem_of_singleton]%elem_of_app.
        -- destruct (peel_tag _ _ _ Hp t Hin) as (u & Hf & Ho). exists u. split; [done|].
           left. unfold peeled in *. cbn [p_tags p_commits p_leaves]. set_solver.
        -- exists target. rewrite Hin. split; [done|by right].
      * apply (peel_commit _ _ _ Hp).
      * apply (peel_leaf _ _ _ Hp).
  - injection Heq as Heq. eapply Hclose; [exact Heq|..]; cbn [p_tags p_commits p_leaves] in *.
    + right. right. set_solver.
    + intros x. unfold peeled. cbn [p_tags p_commits p_leaves]. set_solver.
    + done.
    + apply (peel_commit _ _ _ Hp).
    + intros l o [Hl|Hl%list_elem_of_singleton]%elem_of_app Hf; [by eapply (peel_leaf _ _ _ Hp)|].
      rewrite Hl, Ef in Hf. by injection Hf as <-.
Qed.

Lemma peel_all_spec wants fuel : forall ws p p',
  (forall w, w ∈ ws -> w ∈ wants) -> peel_ok wants (fun _ => False) p -> peel_all fuel ws p = Done p' ->
  peel_ok wants (fun _ => False) p' /\ (forall w, w ∈ ws -> peeled p' w) /\ forall x, peeled p x -> peeled p' x.
Proof using Type.
  induction ws as [|w ws IH]; intros p p' Hws Hp; simpl.
  { intros [= <-]. split; [done|]. split; [|done]. intros w Hw. by apply not_elem_of_nil in Hw. }
  intros (p1 & Hp1 & Hrest)%obind_done. apply (peel_spec wants) in Hp1 as (Hok & Hw & Hsub).
  - apply IH in Hrest as (Hok' & Hws' & Hsub'); [|intros v Hv; apply Hws; by right|done].
    split; [done|]. split; [|auto]. intros v [->|Hv]%elem_of_cons; auto.
  - apply hist_tip, Hws. left.
  - destruct Hp as [H1 H2 H3 H4]. constructor; auto. intros t Ht. destruct (H2 t Ht) as (u & Hu & [|[]]). eauto.
Qed.

Lemma peel_wants_spec fuel wants p :
  peel_wants fuel wants = Done p -> peel_ok wants (fun _ => False) p /\ forall w, w ∈ wants -> peeled p w.
Proof using Type.
  intros Hp. apply (peel_all_spec wants) in Hp as (Hok & Hw & _); [done|auto|].
  constructor; cbn; intros x Hx.
  - destruct Hx as [Hx|[Hx|Hx]]; by apply not_elem_of_nil in Hx.
  - by apply not_elem_of_nil in Hx.
  - by apply not_elem_of_nil in Hx.
  - intros Hx'. by apply not_elem_of_nil in Hx'.
Qed.

(** A chain of tags no longer than the fuel is followed to its end. *)
Inductive tagged : nat -> oid -> Prop :=
| tagged_here n id : (forall target, find id <> inl (OTag target)) -> tagged (S n) id
| tagged_more n id target : find id = inl (OTag target) -> tagged n target -> tagged (S n) id.

Lemma peel_total fuel id p : tagged fuel id -> peel fuel id p <> OutOfFuel.
Proof using Type.
  intros Ht. revert p. induction Ht as [n id Hn|n id target Hf _ IH]; intros p; simpl.
  - destruct (find id) as [[| |target|]|] eqn:Ef; try done. by destruct (Hn target).
  - rewrite Hf. apply IH.
Qed.
End objects.

Section lists.
Context {oid : Type} `{EqDecision oid}.

(** [info?] on every item. *)
Fixpoint all_ok (items : list ((oid * list oid) + find_error)) : outcome (list (oid * list oid)) :=
  match items with
  | [] => Done []
  | inr e :: _ => Fails e
  | inl i :: items => let~ rest := all_ok items in Done (i :: rest)
  end.

(** [Vec::dedup]: neighbours that are equal. *)
Fixpoint dedup (l : list oid) : list oid :=
  match l with
  | [] => []
  | a :: l => match dedup l with
              | [] => [a]
              | b :: r => if bool_decide (a = b) then b :: r else a :: b :: r
              end
  end.

Lemma all_ok_done items infos :
  all_ok items = Done infos -> no_errors items /\ forall i, i ∈ infos <-> inl i ∈ items.
Proof.
  revert infos. induction items as [|[i|e] items IH]; intros infos; simpl; [| |done].
  - intros [= <-]. split; [intros e He; by apply not_elem_of_nil in He|].
    intros i. split; intros Hi; by apply not_elem_of_nil in Hi.
  - intros (rest & Hr & [= <-])%obind_done. destruct (IH _ Hr) as [Hno Hiff]. split.
    + intros e [He|He]%elem_of_cons; [done|by apply (Hno e)].
    + intros j. rewrite !elem_of_cons, Hiff. naive_solver.
Qed.

Lemma dedup_in l x : x ∈ dedup l <-> x ∈ l.
Proof.
  induction l as [|a l IH]; simpl; [done|]. rewrite elem_of_cons, <- IH. destruct (dedup l) as [|b r].
  - rewrite list_elem_of_singleton, elem_of_nil. tauto.
  - destruct (bool_decide (a = b)) eqn:E; [apply bool_decide_eq_true in E as ->|]; rewrite !elem_of_cons; tauto.
Qed.

End lists.

Section walks.
Context {oid : Type} `{Countable oid} `{Hex oid}.
Variable find : oid -> object oid + find_error.
Variable simple : list oid -> list oid -> list ((oid * list oid) + find_error).
Variable tree_contents : list oid -> list oid + find_error.

(** ** Walks over commits *)

(** An error of [hide] is an error of the walk. *)
Definition commit_range (fuel : nat) (wants haves : list oid) : outcome (Range oid) :=
  let~ p := peel_wants find fuel wants in
  let~ infos := all_ok (simple (p_commits p) haves) in
  let ids := (p_tags p ++ map fst infos)%list in
  let merges := omap (fun i => if Nat.ltb 1 (List.length i.2) then Some i.1 else None) infos in
  let parents := List.concat (map snd infos) in
  let in_range : gset oid := list_to_set ids in
  let boundary := List.filter (fun p => negb (bool_decide (p ∈ in_range))) parents in
  Done (mkRange ids (p_leaves p) merges (dedup (sort_by to_hex boundary))).

Definition reachable_set (fuel : nat) (tips : list oid) : outcome (gset oid) :=
  let~ p := peel_wants find fuel tips in
  let~ infos := all_ok (simple (p_commits p) []) in
  let ids := (p_tags p ++ p_leaves p ++ map fst infos)%list in
  let~ counts := of_sum (tree_contents ids) in
  Done (list_to_set ids ∪ list_to_set counts).

Definition MAX_WALK : nat := Z.to_nat 2000000.

Definition over_budget (walked : Z) (what : string) : error :=
  EMsg ("upload-pack: " +:+ what +:+ " walked more than " +:+ display walked +:+ " commits").

(** The walk stops once every target is found. *)
Fixpoint reach_loop (items : list ((oid * list oid) + find_error)) (want found : gset oid) (walked : nat) :
    outcome (gset oid) :=
  match items with
  | [] => Done found
  | item :: items =>
    if bool_decide (want = ∅) then Done found
    else match item with
         | inr e => Fails e
         | inl (id, _) =>
           let walked := S walked in
           if Nat.ltb MAX_WALK walked then Fails (ReadFailed (over_budget (Z.of_nat walked) "want"))
           else if bool_decide (id ∈ want) then reach_loop items (want ∖ {[ id ]}) ({[ id ]} ∪ found) walked
           else reach_loop items want found walked
         end
  end.

Definition reachable_commits (fuel : nat) (tips targets : list oid) : outcome (gset oid) :=
  let want : gset oid := list_to_set targets in
  let~ p := peel_wants find fuel tips in
  let tags := List.filter (fun t => bool_decide (t ∈ want)) (p_tags p) in
  reach_loop (simple (p_commits p) []) (want ∖ list_to_set tags) (list_to_set tags) 0.

(** Counting the contents of trees finds only what is under them. *)
Definition CountLaws : Prop := forall ids counts x,
  tree_contents ids = inl counts -> x ∈ counts -> exists i, i ∈ ids /\ rtc (child find) i x.


(** ** Ranges *)
Hypothesis laws : WalkLaws find simple.
Hypothesis counted : CountLaws.

(** The commits a walk yields, without an error, are those of its history that are not hidden. *)
Lemma walked_iff tips hide infos c :
  all_ok (simple tips hide) = Done infos ->
  (c ∈ map fst infos <-> exists ps, (c, ps) ∈ infos) /\
  (forall ps, (c, ps) ∈ infos -> reach find tips c /\ parents_of find c = Some ps /\ ~ reach find hide c) /\
  (reach find tips c -> reach find hide c \/ c ∈ map fst infos).
Proof using laws.
  intros [Hno Hiff]%all_ok_done.
  assert (Hmap : c ∈ map fst infos <-> exists ps, (c, ps) ∈ infos).
  { rewrite list_elem_of_In, in_map_iff. split.
    - intros ([c' ps] & <- & Hin%list_elem_of_In). by exists ps.
    - intros [ps Hin%list_elem_of_In]. by exists (c, ps). }
  split; [done|]. split.
  - intros ps Hin%Hiff. by eapply (walk_sound _ _ laws).
  - intros Hr. destruct (walk_complete _ _ laws tips hide c Hno Hr) as [|[ps Hin%Hiff]]; [by left|].
    right. apply Hmap. by exists ps.
Qed.

(** A range and the history hidden from it are the whole history of the wants, and the boundary is
    history hidden from it. *)
Lemma range_spec fuel wants haves r :
  commit_range fuel wants haves = Done r ->
  (forall x, hist find wants x -> x ∈ ids r \/ x ∈ leaves r \/ hist find haves x) /\
  (forall c, c ∈ boundary r -> hist find haves c).
Proof using laws.
  unfold commit_range. intros (p & Hp & (infos & Hi & [= <-])%obind_done)%obind_done.
  apply peel_wants_spec in Hp as [Hok Hwants]. cbn [ids leaves boundary].
  assert (Hcommit : forall c, reach find (p_commits p) c -> c ∈ map fst infos \/ hist find haves c).
  { intros c Hc. destruct (walked_iff _ _ _ c Hi) as (_ & _ & Hall).
    destruct (Hall Hc) as [Hh|]; [right; by apply reach_hist|by left]. }
  assert (Hpeeled : forall x, peeled p x ->
    x ∈ (p_tags p ++ map fst infos)%list \/ x ∈ p_leaves p \/ hist find haves x).
  { intros x [Hx|[Hx|Hx]]; rewrite elem_of_app; [tauto| |tauto].
    destruct (Hcommit x); [by apply reach_tip|tauto..]. }
  split.
  - induction 1 as [x Hx|x target _ IH Ht|x ps y _ IH Hps Hy]; [by apply Hpeeled, Hwants|..].
    + destruct IH as [[Hx|Hx]%elem_of_app|[Hx|Hx]].
      * destruct (peel_tag _ _ _ _ Hok x Hx) as (t' & Ht' & [Ho|[]]). apply Hpeeled. congruence.
      * exfalso. destruct (walked_iff _ _ _ x Hi) as ([Hps _] & Hs & _).
        destruct (Hps Hx) as [ps Hin]. destruct (Hs ps Hin) as (_ & Hc & _).
        unfold parents_of in Hc. by rewrite Ht in Hc.
      * exfalso. exact (peel_leaf _ _ _ _ Hok x _ Hx Ht).
      * right. right. by eapply hist_tag.
    + destruct IH as [[Hx|Hx]%elem_of_app|[Hx|Hx]].
      * exfalso. destruct (peel_tag _ _ _ _ Hok x Hx) as (t' & Ht' & _).
        unfold parents_of in Hps. by rewrite Ht' in Hps.
      * destruct (walked_iff _ _ _ x Hi) as ([Hqs _] & Hs & _).
        destruct (Hqs Hx) as [qs Hin]. destruct (Hs qs Hin) as (Hr & Hc & _).
        assert (Hry : reach find (p_commits p) y) by (eapply reach_parent; [exact Hr|exact Hps|exact Hy]).
        rewrite elem_of_app. destruct (Hcommit y Hry); tauto.
      * exfalso. unfold parents_of in Hps. destruct (find x) as [o|] eqn:Ef; [|done].
        pose proof (peel_leaf _ _ _ _ Hok x _ Hx Ef) as Hl. by destruct o.
      * right. right. by eapply hist_parent.
  - intros c Hc. unfold sort_by in Hc. rewrite dedup_in, sorting.merge_sort_Permutation in Hc.
    apply list_elem_of_In, filter_In in Hc as [Hin%in_concat Hn].
    destruct Hin as (ps & Hps%in_map_iff & Hin%list_elem_of_In).
    destruct Hps as ([x qs] & <- & Hx%list_elem_of_In). cbn [snd] in Hin.
    destruct (walked_iff _ _ _ x Hi) as (_ & Hs & _). destruct (Hs qs Hx) as (Hr & Hqs & _).
    assert (Hrc : reach find (p_commits p) c) by (eapply reach_parent; [exact Hr|exact Hqs|exact Hin]).
    destruct (Hcommit c Hrc) as [Hw|]; [|done]. apply negb_true_iff, bool_decide_eq_false in Hn.
    destruct Hn. apply elem_of_list_to_set, elem_of_app. by right.
Qed.

Lemma reachable_set_has fuel tips s x : reachable_set fuel tips = Done s -> x ∈ s -> has find tips x.
Proof using laws counted.
  unfold reachable_set. intros (p & Hp & (infos & Hi & (counts & Hc & [= <-])%obind_done)%obind_done)%obind_done Hx.
  apply peel_wants_spec in Hp as [Hok _].
  assert (Hids : forall i, i ∈ (p_tags p ++ p_leaves p ++ map fst infos)%list -> hist find tips i).
  { intros i [Ht|[Hl|Hw]%elem_of_app]%elem_of_app.
    - apply (peel_from _ _ _ _ Hok). by left.
    - apply (peel_from _ _ _ _ Hok). by right; right.
    - destruct (walked_iff _ _ _ i Hi) as ([Hps _] & Hs & _). destruct (Hps Hw) as [ps Hin].
      destruct (Hs ps Hin) as (Hr%reach_hist & _ & _). eapply hist_app_mono; [|exact Hr].
      intros t Ht. apply (peel_from _ _ _ _ Hok). by right; left. }
  apply elem_of_union in Hx as [Hx|Hx]; apply elem_of_list_to_set in Hx; [by apply has_hist, Hids|].
  destruct (tree_contents _) as [l|] eqn:Et; [|done]. cbn in Hc. injection Hc as ->.
  destruct (counted _ _ _ Et Hx) as (i & Hin & Hix). exists i. auto.
Qed.

Lemma reach_loop_sound items want found walked s x :
  reach_loop items want found walked = Done s -> x ∈ s -> x ∈ found \/ exists ps, inl (x, ps) ∈ items.
Proof using Type.
  revert want found walked. induction items as [|[[id ps]|e] items IH]; intros want found walked; simpl.
  - intros [= <-]. by left.
  - destruct (bool_decide (want = ∅)); [intros [= <-]; by left|].
    destruct (Nat.ltb _ _); [done|].
    intros Hs Hx. destruct (bool_decide (id ∈ want)); apply IH in Hs as [Hf|[qs Hin]]; try done.
    + apply elem_of_union in Hf as [->%elem_of_singleton|Hf]; [right; exists ps; left|by left].
    + right. exists qs. by right.
    + by left.
    + right. exists qs. by right.
  - destruct (bool_decide (want = ∅)); [intros [= <-]; by left|done].
Qed.

Lemma reachable_commits_hist fuel tips targets s x :
  reachable_commits fuel tips targets = Done s -> x ∈ s -> hist find tips x.
Proof using laws.
  unfold reachable_commits. intros (p & Hp & Hs)%obind_done Hx. apply peel_wants_spec in Hp as [Hok _].
  eapply reach_loop_sound in Hs as [Hf|[ps Hin]]; [| |exact Hx].
  - apply elem_of_list_to_set, list_elem_of_In, filter_In in Hf as [Ht%list_elem_of_In _].
    apply (peel_from _ _ _ _ Hok). by left.
  - apply (walk_sound _ _ laws) in Hin as (Hr%reach_hist & _ & _). eapply hist_app_mono; [|exact Hr].
    intros t Ht. apply (peel_from _ _ _ _ Hok). by right; left.
Qed.
End walks.
