(* ===== verification/Receive.v ===== *)
(** * Receive: a push, [crates/git/src/protocol/receive.rs]

    The commands a client sends, the check that what it pushed is connected, the upload of the pack
    and the update of the refs, and the report.  The local object database, indexing the pack
    ([write_pack]) and listing its objects are gix's and parameters; a pack is the name of its file
    pair.  Text of the client is bytes: [from_utf8_lossy] is only ever compared with ASCII words,
    or trimmed and logged. *)

From S2P Require Import Prelude Text Names Prog Ownership Pktline Commits Refs Walks.
Local Open Scope string_scope.
Local Open Scope Z_scope.

Definition CAPS : string :=
  "report-status report-status-v2 delete-refs side-band-64k ofs-delta atomic push-options quiet".
Definition AGENT : string := "agent=kloudlite/0.1".
Definition zero : string := "0000000000000000000000000000000000000000".
Definition nul : ascii := "000"%char.

(** Whose fault a failed push is: the bytes the client sent, or this node's. *)
Inductive push_error : Type :=
| ClientPack (m : string)
| Internal (e : error).

(** The error a walk leaves, and the one spent fuel would. *)
Definition walk_error (e : find_error) : error :=
  match e with NotFound => EMsg "object not found" | ReadFailed e => e end.
Definition no_fuel : error := EMsg "out of fuel".

Section receive.
Context {oid : Type} `{Countable oid} `{Hex oid}.
Variable find : oid -> object oid + find_error.
Variable simple : list oid -> list oid -> list ((oid * list oid) + find_error).
Variable tree_contents : list oid -> list oid + find_error.
Variable fuel : nat.

(** ** Commands *)
Definition parse_id (h : string) : result (option oid) :=
  if String.eqb h zero then Ok None else rmap Some (parse_oid h).

Definition parse_command (line : string) : result (RefUpdate oid * option string) :=
  let '(cmd, caps) := match split_once nul line with
                      | Some (cmd, caps) => (cmd, Some caps)
                      | None => (line, None)
                      end in
  let? s := ok_or (from_utf8 cmd) (EMsg "bad ref name") in
  match split " " s with
  | old :: new :: name :: _ =>
    if negb (valid_ref_name name) then Err (EMsg "bad ref name")
    else
      let? old := parse_id old in
      let? new := parse_id new in
      Ok (mkUpdate name old new, caps)
  | _ => Err (EMsg "bad cmd")
  end.

(** The last capabilities sent are the ones kept. *)
Fixpoint parse_commands (lines : list string) (updates : list (RefUpdate oid)) (client_caps : string) :
    result (list (RefUpdate oid) * string) :=
  match lines with
  | [] => Ok (updates, client_caps)
  | line :: lines =>
    let? uc := parse_command line in
    parse_commands lines (updates ++ [uc.1])%list (unwrap_or uc.2 client_caps)
  end.

(** ** Connectivity *)
Record Known := mkKnown {
  pushed : gset oid;
  k_boundary : gset oid;
  expanded : gset oid;
  verified : gset oid;
  ours : option (gset oid);
}.

Definition find_commit_tree (c : oid) : outcome oid :=
  match find c with
  | inl (OCommit tree _) => Done tree
  | inl _ => Fails (ReadFailed (EMsg "expected a commit"))
  | inr e => Fails e
  end.

Fixpoint expand (k : Known) (cs : list oid) : outcome Known :=
  match cs with
  | [] => Done k
  | c :: cs =>
    if bool_decide (c ∈ expanded k) then expand k cs
    else
      let~ tree := find_commit_tree c in
      let~ counts := of_sum (tree_contents [tree]) in
      expand (mkKnown (pushed k) (k_boundary k ∪ list_to_set counts) ({[ c ]} ∪ expanded k) (verified k) (ours k)) cs
  end.

Definition verify (k : Known) (id : oid) : Known :=
  mkKnown (pushed k) (k_boundary k) (expanded k) ({[ id ]} ∪ verified k) (ours k).

(** [self.ours], filled on first use. *)
Definition fill_ours (old_tips : list oid) (k : Known) : outcome (gset oid * Known) :=
  match ours k with
  | Some s => Done (s, k)
  | None =>
    let~ s := reachable_set find simple tree_contents fuel old_tips in
    Done (s, mkKnown (pushed k) (k_boundary k) (expanded k) (verified k) (Some s))
  end.

(** [todo] is a stack, its top first. *)
Fixpoint check (fuel : nat) (old_tips : list oid) (todo : list oid) (k : Known) : outcome (bool * Known) :=
  match fuel with
  | O => OutOfFuel
  | S fuel =>
    match todo with
    | [] => Done (true, k)
    | id :: todo =>
      if bool_decide (id ∈ verified k) then check fuel old_tips todo k
      else
        let k := verify k id in
        if bool_decide (id ∈ pushed k) then
          let~ _ := of_sum (find id) in
          check fuel old_tips (List.rev (children find id) ++ todo)%list k
        else if negb (bool_decide (id ∈ k_boundary k)) then
          let~ sk := fill_ours old_tips k in
          if negb (bool_decide (id ∈ sk.1)) then Done (false, sk.2) else check fuel old_tips todo sk.2
        else check fuel old_tips todo k
    end
  end.

Definition explains (k : Known) (range : Range oid) (old_tips : list oid) : outcome (bool * Known) :=
  let~ k := expand k (boundary range) in
  check fuel old_tips (List.rev (ids range ++ leaves range)) k.

(** Every ref in turn; a tip that passed is hidden from the walks after it. *)
Fixpoint connect (us : list (RefUpdate oid)) (old_tips hide : list oid) (k : Known) : result (list (option string)) :=
  match us with
  | [] => Ok []
  | u :: us =>
    match u_new u with
    | None => rmap (cons None) (connect us old_tips hide k)
    | Some n =>
      match commit_range find simple fuel [n] hide with
      | Fails NotFound => rmap (cons (Some "missing necessary objects")) (connect us old_tips hide k)
      | Fails (ReadFailed e) => Err e
      | OutOfFuel => Err no_fuel
      | Done range =>
        match explains k range old_tips with
        | Fails e => Err (walk_error e)
        | OutOfFuel => Err no_fuel
        | Done (true, k) => rmap (cons None) (connect us old_tips (hide ++ [n])%list k)
        | Done (false, k) => rmap (cons (Some "missing necessary objects")) (connect us old_tips hide k)
        end
      end
    end
  end.

(** ** Applying a push *)

(** Opening the local objects, whether pack bytes follow the commands, indexing them, and the
    objects in a pack. *)
Variable odb_opens : result unit.
Variable has_data : result bool.
Variable write_pack : option string + push_error.
Variable pack_object_ids : string -> result (gset oid).
Variable rules_odb : option (list oid -> list oid -> list ((oid * list oid) + find_error)).

(** [Drop for PackGuard]: an indexed pack that was not uploaded leaves the local objects. *)
Definition drop_guard (pack : option string) : P unit :=
  match pack with
  | Some p => bind (trigger (DCall ("remove local " +:+ p))) (fun _ => Ret tt)
  | None => Ret tt
  end.

Definition fail_push {A} (pack : option string) (e : push_error) : P (A + push_error) :=
  drop_guard pack ;;! Ret (inr e).

(** The pack of this push, if it brings one, and its objects. *)
Definition take_pack (updates : list (RefUpdate oid)) : P ((option string * gset oid) + push_error) :=
  if any (fun u => is_some (u_new u)) updates then
    match has_data with
    | Err e => Ret (inr (Internal e))
    | Ok false => Ret (inl (None, ∅))
    | Ok true =>
      match write_pack with
      | inr e => Ret (inr e)
      | inl None => Ret (inl (None, ∅))
      | inl (Some pack) =>
        match pack_object_ids pack with
        | Err e => fail_push (Some pack) (Internal e)
        | Ok ids => Ret (inl (Some pack, ids))
        end
      end
    end
  else Ret (inl (None, ∅)).

(** [results.iter_mut().zip(r)]. *)
Fixpoint answer (atomic_fail : bool) (results r : list (option string)) : list (option string) :=
  match results, r with
  | _ :: results, v :: r =>
    match v with
    | Some m => Some m
    | None => if atomic_fail then Some "atomic push failed" else None
    end :: answer atomic_fail results r
  | results, _ => results
  end.

Definition fail_atomic (r : option string) : option string :=
  match r with Some m => Some m | None => Some "atomic push failed" end.

Definition apply (repo : repo_id) (updates : list (RefUpdate oid)) : P (list (option string) + push_error) :=
  let! got := take_pack updates in
  match got with
  | inr e => Ret (inr e)
  | inl (pack, ids) =>
    match odb_opens with
    | Err e => fail_push pack (Internal e)
    | Ok _ =>
      let! refs := list_refs repo in
      match refs with
      | Err e => fail_push pack (Internal e)
      | Ok refs =>
        let old_tips := map snd refs in
        match connect updates old_tips old_tips (mkKnown ids ∅ ∅ ∅ None) with
        | Err e => fail_push pack (Internal e)
        | Ok results =>
          if any is_some results
          then drop_guard pack ;;! Ret (inl (map fail_atomic results))
          else
            let! up := match pack with Some p => trigger (DUpload repo p) | None => Ret (Ok tt) end in
            match up with
            | Err e => fail_push pack (Internal e)
            | Ok _ =>
              let! r := update_refs rules_odb repo updates in
              match r with
              | Err e => Ret (inr (Internal e))
              | Ok r =>
                let atomic_fail := any is_some r in
                match pack with
                | Some p => if atomic_fail then bind (trigger (DCall ("delete pack " +:+ p))) (fun _ => Ret tt) else Ret tt
                | None => Ret tt
                end ;;! Ret (inl (answer atomic_fail results r))
              end
            end
        end
      end
    end
  end.

(** ** The session *)
Definition cap (client_caps c : string) : bool := any (fun x => String.eqb x c) (split " " client_caps).

(** [m.replace('\n', " ")]. *)
Fixpoint unline (s : string) : string :=
  match s with
  | "" => ""
  | String c s => String (if Ascii.eqb c nl then " "%char else c) (unline s)
  end.

Definition message (e : push_error) : string :=
  match e with ClientPack c => unline c | Internal _ => "internal error" end.

Definition report_line (v2 : bool) (u : RefUpdate oid) (r : option string) : result string :=
  match r with
  | None =>
    let? ok := write_text ("ok " +:+ u_name u) in
    match u_new u with
    | Some new =>
      if v2 then let? line := write_text ("option new-oid " +:+ to_hex new) in Ok (ok +:+ line) else Ok ok
    | None => Ok ok
    end
  | Some m => write_text ("ng " +:+ u_name u +:+ " " +:+ m)
  end.

Fixpoint report_lines (v2 : bool) (us : list (RefUpdate oid)) (rs : list (option string)) : result string :=
  match us, rs with
  | u :: us, r :: rs =>
    let? line := report_line v2 u r in
    let? rest := report_lines v2 us rs in Ok (line +:+ rest)
  | _, _ => Ok ""
  end.

(** What goes out once the push was applied or failed. *)
Definition report (client_caps : string) (us : list (RefUpdate oid)) (res : list (option string) + push_error) :
    result string :=
  let sideband := cap client_caps "side-band-64k" in
  let v2 := cap client_caps "report-status-v2" in
  let rs := match res with inl rs => rs | inr e => map (fun _ => Some (message e)) us end in
  let status := match res with inl _ => "ok" | inr e => "error " +:+ message e end in
  let? fatal := match res with
                | inr e => if sideband then write_band "003"%char ("unpack failed: " +:+ message e) else Ok ""
                | inl _ => Ok ""
                end in
  if v2 || cap client_caps "report-status" then
    let? head := write_text ("unpack " +:+ status) in
    let? lines := report_lines v2 us rs in
    let body := head +:+ lines +:+ write_flush in
    if sideband then let? out := write_band "001"%char body in Ok (fatal +:+ out +:+ write_flush)
    else Ok (fatal +:+ body)
  else Ok fatal.

Definition serve (repo : repo_id) (input : string) : P (result string) :=
  let '(lines, input) := read_lines_until_flush input in
  match (let? lines := lines in parse_commands lines [] "") with
  | Err e => Ret (Err e)
  | Ok (updates, client_caps) =>
    if bool_decide (updates = []) then Ret (Ok "")
    else
      match (if cap client_caps "push-options" then (read_lines_until_flush input).1 else Ok []) with
      | Err e => Ret (Err e)
      | Ok _ =>
        let! res := apply repo updates in
        match res with
        | inr (Internal e) => if is_fenced e then Ret (Err e) else Ret (report client_caps updates res)
        | _ => Ret (report client_caps updates res)
        end
      end
  end.

(** ** The reference advertisement *)
Fixpoint advertise_rest (refs : list (string * oid)) : result string :=
  match refs with
  | [] => Ok ""
  | (name, o) :: refs =>
    let? line := write_text (to_hex o +:+ " " +:+ name) in
    let? rest := advertise_rest refs in Ok (line +:+ rest)
  end.

Definition advertise (repo : repo_id) : P (result string) :=
  let!? refs := list_refs repo in
  let caps := CAPS +:+ " " +:+ AGENT in
  Ret (match refs with
       | [] =>
         let? line := write_pkt (zero +:+ " capabilities^{}" +:+ String nul (caps +:+ String nl "")) in
         Ok (line +:+ write_flush)
       | (name, o) :: refs =>
         let? line := write_pkt (to_hex o +:+ " " +:+ name +:+ String nul (caps +:+ String nl "")) in
         let? rest := advertise_rest refs in Ok (line +:+ rest +:+ write_flush)
       end).
End receive.

(** ** The size cap on a pack *)
Module Capped.
(** [fill_buf]: what may be read of the [b] buffered bytes with [left] to go, or the error. *)
Definition fill_buf (left : Z) (b : string) : result string :=
  if (left =? 0) && negb (String.eqb b "") then Err (EMsg "pack exceeds the size limit")
  else Ok (substring 0 (Z.to_nat (Z.min (str_len b) left)) b).

Definition consume (left n : Z) : Z := sat_sub left n.
End Capped.
