(* ===== verification/ReceiveSafe.v ===== *)
(** * ReceiveSafe: a push is connected, and all or nothing

    What a push's check accepts: every object a new tip needs, through its history and everything
    under it, was sent with the push or is what the repository's refs already had
    ([connect_spec]); the check ends ([check_total]).  Around it, a ref moves only once that holds
    and the pack is in the object store, and the report tells what happened. *)

From S2P Require Import Prelude Text Names Prog Ownership Commits Refs RefsSafe Walks Receive.
Local Open Scope string_scope.
Local Open Scope Z_scope.

Section connected.
Context {oid : Type} `{Countable oid} `{Hex oid}.
Variable find : oid -> object oid + find_error.
Variable simple : list oid -> list oid -> list ((oid * list oid) + find_error).
Variable tree_contents : list oid -> list oid + find_error.
Hypothesis laws : WalkLaws find simple.
Hypothesis counted : CountLaws find tree_contents.

Lemma hist_app a b x : hist find (a ++ b) x -> hist find a x \/ hist find b x.
Proof using Type.
  induction 1 as [x Hx|x target _ [IH|IH] Ht|x ps p _ [IH|IH] Hps Hp].
  - apply elem_of_app in Hx as [Hx|Hx]; [left|right]; by apply hist_tip.
  - left. by eapply hist_tag.
  - right. by eapply hist_tag.
  - left. by eapply hist_parent.
  - right. by eapply hist_parent.
Qed.

(** ** The check *)
Section push.
Variable sent : gset oid.
Variable old_tips : list oid.
Variable fuel : nat.

Definition good (x : oid) : Prop := x ∈ sent \/ has find old_tips x.
Definition fine (x : oid) : Prop := forall y, rtc (child find) x y -> good y.

Record known_ok (k : Known (oid:=oid)) : Prop := {
  ok_pushed : pushed k = sent;
  ok_boundary : forall x, x ∈ k_boundary k -> fine x;
  ok_ours : forall s x, ours k = Some s -> x ∈ s -> has find old_tips x;
}.

(** What was verified is explained, but for what is still to do. *)
Definition verified_ok (k : Known (oid:=oid)) (todo : list oid) : Prop := forall x, x ∈ verified k ->
  fine x \/ (x ∈ sent /\ forall c, child find x c -> c ∈ verified k \/ c ∈ todo).

Definition hidden_ok (hide : list oid) : Prop := forall x, hist find hide x -> fine x.

Lemma fine_trans x y : fine x -> rtc (child find) x y -> fine y.
Proof using Type. intros Hx Hxy z Hz. apply Hx. by etrans. Qed.

Lemma has_fine x : has find old_tips x -> fine x.
Proof using Type. intros Hx y Hy. right. by eapply has_child. Qed.

Lemma verified_fine k x : verified_ok k [] -> x ∈ verified k -> fine x.
Proof using Type.
  intros Hv Hx y Hy. revert Hx. induction Hy as [x|x z y Hxz Hzy IH]; intros Hx.
  - destruct (Hv x Hx) as [Hf|[Hs _]]; [by apply Hf|by left].
  - destruct (Hv x Hx) as [Hf|[_ Hc]]; [apply Hf; by eapply rtc_l|].
    destruct (Hc z Hxz) as [Hz|Hz]; [auto|by apply not_elem_of_nil in Hz].
Qed.

Lemma expand_spec k cs k' :
  known_ok k -> (forall c, c ∈ cs -> fine c) -> expand find tree_contents k cs = Done k' ->
  known_ok k' /\ verified k' = verified k.
Proof using counted.
  revert k. induction cs as [|c cs IH]; intros k Hk Hcs; simpl; [by intros [= <-]|].
  assert (Hcs' : forall d, d ∈ cs -> fine d) by (intros d Hd; apply Hcs; by right).
  destruct (bool_decide _); [by apply IH|].
  intros (tree & Ht & (counts & Hc & Hrest)%obind_done)%obind_done. apply IH in Hrest; [done| |done].
  constructor; cbn; [by apply (ok_pushed k)| |apply (ok_ours k Hk)].
  intros x [Hx|Hx]%elem_of_union; [by apply (ok_boundary k)|]. apply elem_of_list_to_set in Hx.
  destruct (tree_contents [tree]) as [l|e] eqn:Et; [|done]. cbn in Hc. injection Hc as ->.
  destruct (counted _ _ _ Et Hx) as (i & ->%list_elem_of_singleton & Hix).
  eapply fine_trans; [apply Hcs; left|]. eapply rtc_l; [|exact Hix].
  unfold child, children. unfold find_commit_tree in Ht. destruct (find c) as [[] |]; try done.
  injection Ht as ->. by left.
Qed.

Lemma verified_more k x todo todo' :
  verified_ok k (x :: todo) ->
  (forall c, c ∈ todo -> c ∈ todo') ->
  fine x \/ (x ∈ sent /\ forall c, child find x c -> c ∈ todo') ->
  verified_ok (verify k x) todo'.
Proof using Type.
  intros Hv Hsub Hx y Hy. unfold verify in *. cbn [verified] in *.
  apply elem_of_union in Hy as [->%elem_of_singleton|Hy].
  - destruct Hx as [Hx|[Hx Hc]]; [by left|right]. split; [done|]. intros c Hcc. right. auto.
  - destruct (Hv y Hy) as [Hf|[Hs Hc]]; [by left|right]. split; [done|]. intros c Hcc.
    destruct (Hc c Hcc) as [Hin|[->|Hin]%elem_of_cons].
    + left. apply elem_of_union. by right.
    + left. apply elem_of_union. left. by apply elem_of_singleton.
    + right. auto.
Qed.

Lemma verified_again k x todo : x ∈ verified k -> verified_ok k (x :: todo) -> verified_ok k todo.
Proof using Type.
  intros Hx Hv y Hy. destruct (Hv y Hy) as [Hf|[Hs Hc]]; [by left|right]. split; [done|].
  intros c Hcc. destruct (Hc c Hcc) as [Hin|[->|Hin]%elem_of_cons]; [by left|by left|by right].
Qed.

Lemma fill_ours_spec k s k' :
  known_ok k -> fill_ours find simple tree_contents fuel old_tips k = Done (s, k') ->
  known_ok k' /\ verified k' = verified k /\ forall x, x ∈ s -> has find old_tips x.
Proof using laws counted.
  intros Hk. unfold fill_ours. destruct (ours k) as [s0|] eqn:Eo.
  - intros [= -> ->]. split; [done|]. split; [done|]. intros x Hx. by eapply (ok_ours _ Hk).
  - intros (s0 & Hs & [= -> <-])%obind_done.
    assert (Hin : forall x, x ∈ s -> has find old_tips x)
      by (intros x Hx; eapply (reachable_set_has find simple tree_contents laws counted); eauto).
    split; [|done]. constructor; cbn; [apply (ok_pushed _ Hk)|apply (ok_boundary _ Hk)|].
    intros s1 x [= <-]. auto.
Qed.

Lemma check_spec n : forall todo k b k',
  known_ok k -> verified_ok k todo ->
  check find simple tree_contents fuel n old_tips todo k = Done (b, k') ->
  known_ok k' /\ (b = true -> verified_ok k' [] /\
    (forall x, x ∈ verified k -> x ∈ verified k') /\ forall x, x ∈ todo -> x ∈ verified k').
Proof using laws counted.
  induction n as [|n IH]; intros todo k b k' Hk Hv; cbn [check]; [done|].
  destruct todo as [|x todo].
  { intros [= <- <-]. split; [done|]. intros _. split; [done|]. split; [done|].
    intros x Hx. by apply not_elem_of_nil in Hx. }
  destruct (bool_decide (x ∈ verified k)) eqn:Ex.
  { apply bool_decide_eq_true in Ex. intros Hc. apply IH in Hc as [Hk' Hb]; [|done|by eapply verified_again].
    split; [done|]. intros Hbt. destruct (Hb Hbt) as (Hv' & Hsub & Htodo). repeat split; [done..|].
    intros y [->|Hy]%elem_of_cons; auto. }
  assert (Hkv : known_ok (verify k x)) by (destruct Hk; by constructor).
  assert (Hnext : forall todo' k1,
    known_ok k1 -> verified k1 = verified (verify k x) -> (forall c, c ∈ todo -> c ∈ todo') ->
    fine x \/ (x ∈ sent /\ forall c, child find x c -> c ∈ todo') ->
    check find simple tree_contents fuel n old_tips todo' k1 = Done (b, k') ->
    known_ok k' /\ (b = true -> verified_ok k' [] /\
      (forall y, y ∈ verified k -> y ∈ verified k') /\ forall y, y ∈ x :: todo -> y ∈ verified k')).
  { intros todo' k1 Hk1 Hvk Hsub Hx Hc. apply IH in Hc as [Hk' Hb]; [|done|].
    - split; [done|]. intros Hbt. destruct (Hb Hbt) as (Hv' & Hvs & Htodo). rewrite Hvk in Hvs.
      unfold verify in Hvs. cbn [verified] in Hvs. repeat split; [done| |].
      + intros y Hy. apply Hvs, elem_of_union. by right.
      + intros y [->|Hy]%elem_of_cons; [|auto]. apply Hvs, elem_of_union. left. by apply elem_of_singleton.
    - intros y Hy. rewrite Hvk in *. by apply (verified_more k x todo todo'). }
  cbn [verify pushed k_boundary]. destruct (bool_decide (x ∈ pushed k)) eqn:Ep.
  - apply bool_decide_eq_true in Ep. rewrite (ok_pushed _ Hk) in Ep. intros (o & _ & Hc)%obind_done.
    eapply Hnext; [| | | |exact Hc]; [done|done| |].
    + intros c Hcc. apply elem_of_app. by right.
    + right. split; [done|]. intros c Hcc. apply elem_of_app. left.
      apply list_elem_of_In, in_rev. rewrite rev_involutive. by apply list_elem_of_In.
  - destruct (bool_decide (x ∈ k_boundary k)) eqn:Eb; cbn [negb].
    + apply bool_decide_eq_true in Eb. apply Hnext; [done|done|done|]. left. by apply (ok_boundary _ Hk).
    + intros ([s k1] & Hf & Hc)%obind_done. cbn [fst snd] in Hc.
      apply (fill_ours_spec _ _ _ Hkv) in Hf as (Hk1 & Hv1 & Hs).
      destruct (bool_decide (x ∈ s)) eqn:Es; cbn [negb] in Hc.
      * apply bool_decide_eq_true in Es. eapply Hnext; [| | | |exact Hc]; [done|done|done|].
        left. by apply has_fine, Hs.
      * injection Hc as <- <-. by split.
Qed.

Lemma verified_weaken k k' todo :
  verified k' = verified k -> verified_ok k [] -> verified_ok k' todo.
Proof using Type.
  intros Hv Hk x Hx. rewrite Hv in Hx. destruct (Hk x Hx) as [Hf|[Hs Hc]]; [by left|right].
  split; [done|]. intros c Hcc. destruct (Hc c Hcc) as [Hin|Hin]; [left; by rewrite Hv|by apply not_elem_of_nil in Hin].
Qed.

Lemma explains_spec k range n hide k' b :
  known_ok k -> verified_ok k [] -> hidden_ok hide ->
  commit_range find simple fuel [n] hide = Done range ->
  explains find simple tree_contents fuel k range old_tips = Done (b, k') ->
  known_ok k' /\ (b = true -> verified_ok k' [] /\ forall x, hist find [n] x -> fine x).
Proof using laws counted.
  intros Hk Hv Hh Hr. apply (range_spec find simple laws) in Hr as [Hall Hb].
  unfold explains. intros (k1 & He & Hc)%obind_done.
  apply expand_spec in He as [Hk1 Hv1]; [|done|intros c Hcb; apply Hh; auto].
  apply check_spec in Hc as [Hk' Ht]; [|done|by apply (verified_weaken k)].
  split; [done|]. intros Hbt. destruct (Ht Hbt) as (Hv' & _ & Htodo). split; [done|].
  assert (Hin : forall x, x ∈ (ids range ++ leaves range)%list -> fine x).
  { intros x Hx. apply (verified_fine k'); [done|]. apply Htodo, list_elem_of_In, (proj1 (in_rev _ _)).
    by apply list_elem_of_In. }
  intros x Hx. destruct (Hall x Hx) as [Hi|[Hl|Hd]]; [apply Hin, elem_of_app; by left|
    apply Hin, elem_of_app; by right|auto].
Qed.

Lemma connect_length us : forall hide k rs,
  connect find simple tree_contents fuel us old_tips hide k = Ok rs -> List.length rs = List.length us.
Proof using Type.
  induction us as [|u us IH]; intros hide k rs; cbn [connect]; [by intros [= <-]|].
  assert (Hcons : forall hide k r,
    rmap (cons r) (connect find simple tree_contents fuel us old_tips hide k) = Ok rs ->
    List.length rs = S (List.length us)).
  { intros hide' k' r. destruct (connect _ _ _ _ _ _ _ _) eqn:Ec; [|done]. intros [= <-]. cbn. f_equal. eauto. }
  destruct (u_new u); [|apply Hcons]. destruct (commit_range _ _ _ _ _) as [|[|]|]; try done; [|apply Hcons].
  destruct (explains _ _ _ _ _ _ _) as [[[] ?]| |]; try done; apply Hcons.
Qed.

(** If every ref passes, every object each tip needs was sent or was already the repository's. *)
Lemma connect_spec us : forall hide k rs,
  known_ok k -> verified_ok k [] -> hidden_ok hide ->
  connect find simple tree_contents fuel us old_tips hide k = Ok rs -> any is_some rs = false ->
  forall u n, u ∈ us -> u_new u = Some n -> forall x, has find [n] x -> good x.
Proof using laws counted.
  induction us as [|u us IH]; intros hide k rs Hk Hv Hh; cbn [connect].
  { intros _ _ u n Hu. by apply not_elem_of_nil in Hu. }
  assert (Hrest : forall hide k r, rmap (cons r) (connect find simple tree_contents fuel us old_tips hide k) = Ok rs ->
    any is_some rs = false -> r = None /\ exists rs',
      connect find simple tree_contents fuel us old_tips hide k = Ok rs' /\ any is_some rs' = false).
  { intros hide' k' r. destruct (connect _ _ _ _ _ _ _ _) as [rs'|] eqn:Ec; [|done].
    intros [= <-] [Hn Hs]%orb_false_iff. split; [by destruct r|eauto]. }
  assert (Hboth : (forall n, u_new u = Some n -> forall x, has find [n] x -> good x) ->
    (forall u' n, u' ∈ us -> u_new u' = Some n -> forall x, has find [n] x -> good x) ->
    forall u' n, u' ∈ u :: us -> u_new u' = Some n -> forall x, has find [n] x -> good x).
  { intros H1 H2 u' n [->|Hu]%elem_of_cons; eauto. }
  destruct (u_new u) as [n|] eqn:Eu.
  - destruct (commit_range _ _ _ _ _) as [range|[|e]|] eqn:Er;
      [|by intros Hc Hs; destruct (Hrest _ _ _ Hc Hs)|done|done].
    destruct (explains _ _ _ _ _ _ _) as [[b k']|e|] eqn:Ee; [|done|done].
    destruct (explains_spec _ _ _ _ _ _ Hk Hv Hh Er Ee) as [Hk' Hb].
    destruct b; intros Hc Hs; destruct (Hrest _ _ _ Hc Hs) as (Hn & rs' & Ec & Hs'); [|done].
    destruct (Hb eq_refl) as [Hv' Hfine]. apply Hboth.
    + intros m [= <-] x (h & Hh' & Hx). by apply (Hfine h).
    + eapply IH; [exact Hk'|exact Hv'| |exact Ec|exact Hs'].
      intros x [Hx|Hx]%hist_app; auto.
  - intros Hc Hs. destruct (Hrest _ _ _ Hc Hs) as (_ & rs' & Ec & Hs'). apply Hboth; [done|].
    eapply IH; [exact Hk|exact Hv|exact Hh|exact Ec|exact Hs'].
Qed.

(** ** The check ends *)
Definition weight : gset oid -> nat := set_weight (fun x => List.length (children find x)).

Hypothesis chains : forall t, t ∈ old_tips -> tagged find fuel t.

Lemma fill_ours_ends k : fill_ours find simple tree_contents fuel old_tips k <> OutOfFuel.
Proof using chains.
  unfold fill_ours, reachable_set. destruct (ours k); [done|].
  destruct (peel_wants find fuel old_tips) as [p| |] eqn:Ep; simpl; [|done|].
  - assert (Ha : forall items : list ((oid * list oid) + find_error), all_ok items <> OutOfFuel).
    { induction items as [|[|] items IH]; simpl; try done. by destruct (all_ok items). }
    destruct (all_ok _) eqn:Ea; simpl; [|done|by destruct (Ha _ Ea)]. by destruct (tree_contents _).
  - exfalso. revert Ep. unfold peel_wants. generalize (mkPeeled (oid:=oid) [] [] []).
    induction old_tips as [|t ts IH]; intros p; simpl; [done|].
    pose proof (peel_total find fuel t p (chains t ltac:(by left))) as Ht.
    destruct (peel find fuel t p); simpl; try done. apply IH. intros u Hu. apply chains. by right.
Qed.

(** Each step takes an object from [todo] or verifies one more of the universe. *)
Lemma check_total universe : (forall x, x ∈ universe -> forall c, child find x c -> c ∈ universe) ->
  forall n todo k, (forall x, x ∈ todo -> x ∈ universe) ->
  (List.length todo + weight (universe ∖ verified k) < n)%nat ->
  check find simple tree_contents fuel n old_tips todo k <> OutOfFuel.
Proof using chains.
  intros Hclosed. induction n as [|n IH]; intros todo k Htodo Hn; [lia|]. cbn [check].
  destruct todo as [|x todo]; [done|]. cbn [List.length] in Hn.
  assert (Htodo' : forall y, y ∈ todo -> y ∈ universe) by (intros y Hy; apply Htodo; by right).
  destruct (bool_decide (x ∈ verified k)) eqn:Ex; [apply IH; [done|lia]|]. apply bool_decide_eq_false in Ex.
  assert (Hx : x ∈ universe ∖ verified k) by (apply elem_of_difference; split; [apply Htodo; by left|done]).
  unfold weight in Hn. rewrite (set_weight_remove _ _ x Hx) in Hn. fold weight in Hn.
  assert (Hw : forall k1, verified k1 = verified (verify k x) -> universe ∖ verified k1 = universe ∖ verified k ∖ {[ x ]}).
  { intros k1 ->. cbn [verify verified]. set_solver +. }
  cbn [verify pushed k_boundary]. destruct (bool_decide (x ∈ pushed k)).
  - destruct (find x); simpl; [|done]. apply IH.
    + intros y [Hy|Hy]%elem_of_app; [|auto]. apply (Hclosed x); [by apply Htodo; left|].
      apply list_elem_of_In, in_rev. by apply list_elem_of_In.
    + rewrite Hw by done. rewrite length_app, length_rev. lia.
  - destruct (bool_decide (x ∈ k_boundary k)); cbn [negb]; [apply IH; [done|rewrite Hw by done; lia]|].
    pose proof (fill_ours_ends (verify k x)) as Hf. destruct (fill_ours _ _ _ _ _ _) as [[s k1]| |] eqn:Ef; simpl; try done.
    destruct (bool_decide (x ∈ s)); simpl; [|done]. apply IH; [done|]. rewrite Hw; [lia|].
    unfold fill_ours in Ef. destruct (ours _); [by injection Ef as <- <-|].
    apply obind_done in Ef as (s' & _ & [= <- <-]). done.
Qed.

(** C39: The connectivity check of a push ends: over finitely many objects, closed under what they
    point at, its loop never needs more steps than there are objects and pointers. *)
Theorem push_check_ends k range universe :
  (forall x, x ∈ universe -> forall c, child find x c -> c ∈ universe) ->
  (forall x, x ∈ (ids range ++ leaves range)%list -> x ∈ universe) ->
  (List.length (ids range ++ leaves range) + weight universe < fuel)%nat ->
  explains find simple tree_contents fuel k range old_tips <> OutOfFuel.
Proof using chains.
  intros Hclosed Hin Hn. unfold explains.
  assert (He : forall cs k, expand find tree_contents k cs <> OutOfFuel).
  { clear. induction cs as [|c cs IH]; intros k; simpl; [done|]. destruct (bool_decide _); [apply IH|].
    unfold find_commit_tree. destruct (find c) as [[]|]; simpl; try done.
    destruct (tree_contents _); simpl; [apply IH|done]. }
  destruct (expand _ _ _ _) as [k1| |] eqn:Ek; simpl; [|done|by destruct (He _ _ Ek)].
  apply (check_total universe Hclosed).
  - intros x Hx. apply Hin, list_elem_of_In, in_rev. by apply list_elem_of_In.
  - rewrite length_rev.
    assert (Hs : universe ∖ verified k1 ⊆ universe) by (intros z [Hz _]%elem_of_difference; exact Hz).
    pose proof (set_weight_mono (fun x => List.length (children find x)) _ _ Hs). unfold weight in *. lia.
Qed.
End push.

(** ** Runs of a push *)
Context {St : Type}.
Variable tbl : St -> repo_id -> rows.
Variable stored : St -> repo_id -> string -> Prop.
Variable dsem : forall X, row_eff X -> St -> X -> St -> Prop.
Hypothesis row_laws : RowLaws tbl stored dsem.
Variable fuel : nat.
Variable odb_opens : result unit.
Variable has_data : result bool.
Variable write_pack : option string + push_error.
Variable pack_object_ids : string -> result (gset oid).
Variable rules_odb : option (list oid -> list oid -> list ((oid * list oid) + find_error)).

Abbreviation runs := (steps dsem).
Abbreviation calm := (all_quiet tbl).
Abbreviation apply_push :=
  (apply find simple tree_contents fuel odb_opens has_data write_pack pack_object_ids rules_odb).
Abbreviation take := (take_pack has_data write_pack pack_object_ids).

Lemma call_calm what log a : runs (trigger (DCall what)) log a -> calm log.
Proof using row_laws.
  intros Hs. apply steps_trigger in Hs as (s & s' & -> & Hd). apply (law_call _ _ _ row_laws) in Hd.
  by repeat constructor.
Qed.

Lemma drop_guard_calm pack log a : runs (drop_guard pack) log a -> calm log.
Proof using row_laws.
  destruct pack as [p|]; unfold drop_guard; [|intros [-> _]; constructor].
  rewrite steps_bind. intros (l1 & l2 & x & -> & Hc & [-> _]). rewrite app_nil_r. by eapply call_calm.
Qed.

Lemma fail_push_calm {A} pack e log (a : A + push_error) : runs (fail_push pack e) log a -> calm log /\ a = inr e.
Proof using row_laws.
  unfold fail_push. rewrite steps_bind. intros (l1 & l2 & x & -> & Hc & [-> ->]). rewrite app_nil_r.
  split; [by eapply drop_guard_calm|done].
Qed.

Lemma take_pack_calm us log a : runs (take us) log a -> calm log /\ forall pack sent, a = inl (pack, sent) ->
  pack = None /\ sent = ∅ \/ exists p, pack = Some p /\ write_pack = inl (Some p) /\ pack_object_ids p = Ok sent.
Proof using row_laws.
  unfold take_pack. destruct (any _ us); [|intros [-> ->]; split; [constructor|intros ? ? [= <- <-]; by left]].
  destruct has_data as [[]|e]; [|intros [-> ->]; split; [constructor|intros ? ? [= <- <-]; by left]
    |intros [-> ->]; split; [constructor|done]].
  destruct write_pack as [[p|]|e] eqn:Ew; [|intros [-> ->]; split; [constructor|intros ? ? [= <- <-]; by left]
    |intros [-> ->]; split; [constructor|done]].
  destruct (pack_object_ids p) as [got|e] eqn:Ei.
  - intros [-> ->]. split; [constructor|]. intros pack sent [= <- <-]. right. by exists p.
  - intros [Hc ->]%fail_push_calm. by split.
Qed.

Lemma ref_key_prefix r name : ref_key r name = ref_prefix r +:+ name.
Proof using Type. unfold ref_key, ref_prefix. by rewrite !append_assoc. Qed.

Lemma read_refs_rows r (T : rows) kvs (out refs : list (string * oid)) :
  (forall k v, (k, v) ∈ kvs -> starts_with (ref_prefix r) k = true /\ T !! k = Some v) ->
  read_refs (ref_prefix r) kvs out = Ok refs ->
  forall x, x ∈ refs -> x ∈ out \/ exists v, T !! ref_key r x.1 = Some v /\ parse_oid v = Ok x.2.
Proof using Type.
  revert out. induction kvs as [|[k v] kvs IH]; intros out Hk; cbn [read_refs].
  - intros [= <-] x Hx. by left.
  - intros (o & Ho & Hrest)%rbind_ok x Hx. eapply IH in Hrest as [Hin|Hin]; [| |intros k' v' Hin; apply Hk; by right|exact Hx].
    + apply elem_of_app in Hin as [Hin| ->%list_elem_of_singleton]; [by left|]. right. exists v. cbn [fst snd].
      destruct (Hk k v ltac:(left)) as [Hp HT]. unfold starts_with in Hp.
      destruct (strip_prefix (ref_prefix r) k) as [name|] eqn:Es; [|done]. apply strip_prefix_key in Es as ->.
      cbn [unwrap_or]. by rewrite ref_key_prefix.
    + by right.
Qed.

Definition old_refs (r : repo_id) (T : rows) (tips : list oid) : Prop :=
  forall tip, tip ∈ tips -> exists name v, T !! ref_key r name = Some v /\ parse_oid v = Ok tip.

Lemma list_refs_runs r log res : runs (list_refs r) log res ->
  exists s s', log = [(s, s')] /\ quiet tbl s s' /\ forall refs, res = Ok refs -> old_refs r (tbl s r) (map snd refs).
Proof using row_laws.
  intros Hs. apply steps_res in Hs as [(e & -> & Hs)|(l1 & l2 & kvs & -> & Hd & [-> ->])];
    [apply steps_trigger in Hs as (s & s' & -> & Hd)|apply steps_trigger in Hd as (s & s' & -> & Hd)];
    apply (law_scan _ _ _ row_laws) in Hd as [Hq Hk]; exists s, s'; [by repeat split|].
  repeat split; [done|]. intros refs (out & Hr & [= <-])%rbind_ok tip Htip.
  apply list_elem_of_In, in_map_iff in Htip as ([name o] & <- & Hin%list_elem_of_In).
  unfold sort_by in Hin. rewrite sorting.merge_sort_Permutation in Hin.
  eapply read_refs_rows in Hr as [Hn|(v & HT & Ho)]; [by apply not_elem_of_nil in Hn| | |exact Hin].
  - by exists name, v.
  - intros k v Hkv. by apply (Hk _ eq_refl).
Qed.

Lemma upload_runs r pack log up :
  runs (match pack with Some p => trigger (DUpload r p) | None => Ret (Ok tt) end) log up ->
  calm log /\ (up = Ok tt -> forall p, pack = Some p -> exists s s', (s, s') ∈ log /\ stored s' r p).
Proof using row_laws.
  destruct pack as [p|]; [|by intros [-> ->]; split; [constructor|]].
  intros Hs. apply steps_trigger in Hs as (s & s' & -> & Hd). apply (law_upload _ _ _ row_laws) in Hd as [Hq Hst].
  split; [by repeat constructor|]. intros Hok p' [= <-]. exists s, s'. split; [left|auto].
Qed.

Lemma delete_pack_runs (pack : option string) (b : bool) log x :
  runs (match pack with
        | Some p => if b then bind (trigger (DCall ("delete pack " +:+ p))) (fun _ => Ret tt) else Ret tt
        | None => Ret tt
        end) log x -> calm log.
Proof using row_laws.
  destruct pack; [|intros [-> _]; constructor]. destruct b; [|intros [-> _]; constructor].
  rewrite steps_bind. intros (l1 & l2 & y & -> & Hd & [-> _]). rewrite app_nil_r. by eapply call_calm.
Qed.

(** A push is refused, nothing changed and each ref with a reason, or it is an update of the refs
    with the pack's upload and the check before it. *)
Definition refused (us : list (RefUpdate oid)) (log : list (St * St)) (res : list (option string) + push_error) : Prop :=
  calm log /\ forall rs, res = inl rs -> List.length rs = List.length us /\ all is_some rs = true.

Lemma fail_push_refused us l log pack e res :
  calm l -> runs (fail_push pack e) log res -> refused us (l ++ log) res.
Proof using row_laws. intros Hl [Hc ->]%fail_push_calm. split; [by apply Forall_app|done]. Qed.

Record accepted (r : repo_id) (us : list (RefUpdate oid)) (before : list (St * St)) (sent : gset oid)
    (tips : list oid) (results : list (option string)) : Prop := {
  acc_calm : calm before;
  acc_tips : exists s s', (s, s') ∈ before /\ old_refs r (tbl s r) tips;
  acc_pack : sent = ∅ \/ exists pack, write_pack = inl (Some pack) /\ pack_object_ids pack = Ok sent /\
                            exists s s', (s, s') ∈ before /\ stored s' r pack;
  acc_check : connect find simple tree_contents fuel us tips tips (mkKnown sent ∅ ∅ ∅ None) = Ok results;
  acc_passed : any is_some results = false;
}.

Lemma apply_runs r us log res : runs (apply_push r us) log res ->
  refused us log res \/
  exists before own after sent tips results answers, log = (before ++ own ++ after)%list /\ calm after /\
    accepted r us before sent tips results /\ runs (update_refs rules_odb r us) own answers /\
    res = match answers with Ok rs => inl (answer (any is_some rs) results rs) | Err e => inr (Internal e) end.
Proof using row_laws.
  unfold apply. rewrite steps_bind. intros (l1 & l2 & got & -> & Ht & Hs).
  apply take_pack_calm in Ht as [Hc1 Hpack].
  destruct got as [[pack sent]|e]; [|destruct Hs as [-> ->]; left; rewrite app_nil_r; by split].
  specialize (Hpack _ _ eq_refl).
  destruct odb_opens as [[]|e]; [|left; by eapply fail_push_refused].
  rewrite steps_bind in Hs. destruct Hs as (l3 & l4 & refs & -> & Hl & Hs).
  apply list_refs_runs in Hl as (s & s' & -> & Hq & Hrefs).
  assert (Hc2 : calm (l1 ++ [(s, s')])) by (apply Forall_app; by repeat constructor).
  rewrite app_assoc. destruct refs as [refs|e]; [|left; by eapply fail_push_refused].
  specialize (Hrefs _ eq_refl). set (tips := map snd refs) in *.
  destruct (connect _ _ _ _ _ _ _ _) as [results|e] eqn:Ec; [|left; by eapply fail_push_refused].
  destruct (any is_some results) eqn:Er.
  { left. rewrite steps_bind in Hs. destruct Hs as (l5 & l6 & x & -> & Hd & [-> ->]).
    split; [apply Forall_app; split; [done|]; rewrite app_nil_r; by eapply drop_guard_calm|].
    intros rs [= <-]. split; [rewrite length_map; by eapply connect_length|]. apply all_spec. intros x' Hx'.
    apply list_elem_of_In, in_map_iff in Hx' as (y & <- & _). by destruct y. }
  rewrite steps_bind in Hs. destruct Hs as (l5 & l6 & up & -> & Hu & Hs).
  apply upload_runs in Hu as [Hc5 Hup]. rewrite app_assoc.
  assert (Hc3 : calm ((l1 ++ [(s, s')]) ++ l5)) by (by apply Forall_app).
  destruct up as [[]|e]; [|left; by eapply fail_push_refused].
  rewrite steps_bind in Hs. destruct Hs as (l7 & l8 & answers & -> & Hr & Hs). right.
  exists ((l1 ++ [(s, s')]) ++ l5)%list, l7, l8, sent, tips, results, answers. split; [done|].
  assert (Hend : calm l8 /\ res = match answers with Ok rs => inl (answer (any is_some rs) results rs) | Err e => inr (Internal e) end).
  { destruct answers as [rs|e]; [|destruct Hs as [-> ->]; by split; [constructor|]].
    rewrite steps_bind in Hs. destruct Hs as (l9 & l10 & x & -> & Hd & [-> ->]). rewrite app_nil_r.
    split; [by eapply delete_pack_runs|done]. }
  destruct Hend as [Hc8 ->]. split; [done|]. split; [|done]. constructor; [done| | |done|done].
  - exists s, s'. split; [|done]. rewrite !elem_of_app. left. right. left.
  - destruct Hpack as [[-> ->]|(p & -> & Hw & Hi)]; [by left|right]. exists p. split; [done|]. split; [done|].
    destruct (Hup eq_refl p eq_refl) as (s1 & s1' & Hin & Hst). exists s1, s1'. split; [|done].
    apply elem_of_app. by right.
Qed.

(** C16: A push that changed a ref was connected: each object its new tips need, through their
    history and everything under it, was in the pack the push sent, by then in the object store, or
    was reachable from the refs the repository already had. *)
Theorem receive_connected r us log res s s' :
  runs (apply_push r us) log res -> (s, s') ∈ log -> ~ quiet tbl s s' ->
  exists before after sent tips, log = (before ++ after)%list /\ (s, s') ∈ after /\
    (exists s0 s0', (s0, s0') ∈ before /\ old_refs r (tbl s0 r) tips) /\
    (sent = ∅ \/ exists pack s1 s1', pack_object_ids pack = Ok sent /\ (s1, s1') ∈ before /\ stored s1' r pack) /\
    forall u n, u ∈ us -> u_new u = Some n -> forall x, has find [n] x -> x ∈ sent \/ has find tips x.
Proof using laws counted row_laws.
  intros Hs Hin Hn. apply apply_runs in Hs as [[Hc _]|(before & own & after & sent & tips & results & answers &
    -> & Hafter & Hacc & Hr & ->)].
  { exfalso. apply Hn, (proj1 (Forall_forall _ _) Hc _ Hin). }
  exists before, (own ++ after)%list, sent, tips. split; [done|]. split; [|split; [|split]].
  - apply elem_of_app in Hin as [Hin|Hin]; [|done].
    exfalso. apply Hn, (proj1 (Forall_forall _ _) (acc_calm _ _ _ _ _ _ Hacc) _ Hin).
  - apply (acc_tips _ _ _ _ _ _ Hacc).
  - destruct (acc_pack _ _ _ _ _ _ Hacc) as [Hs|(pack & _ & Hi & s1 & s1' & H1 & H2)]; [by left|right].
    by exists pack, s1, s1'.
  - intros u n Hu Hun x Hx.
    eapply (connect_spec sent tips fuel us tips _ results); [| | |apply (acc_check _ _ _ _ _ _ Hacc)
      |apply (acc_passed _ _ _ _ _ _ Hacc)|exact Hu|exact Hun|exact Hx].
    + constructor; [done|intros y Hy; by apply not_elem_of_empty in Hy|done].
    + intros y Hy. by apply not_elem_of_empty in Hy.
    + intros y Hy. apply has_fine. by apply has_hist.
Qed.

(** What [update_refs] answers, written over the results. *)
Lemma answer_all rs results :
  List.length results = List.length rs -> any is_some rs = false -> any is_some results = false ->
  answer (any is_some rs) results rs = map (fun _ => None) rs.
Proof using Type.
  intros Hlen Hr _. rewrite Hr. revert results Hlen Hr. induction rs as [|v rs IH]; intros [|w results]; cbn; try done.
  intros [= Hlen] [Hv Hr]%orb_false_iff. destruct v; [done|]. by rewrite IH.
Qed.

Lemma answer_fail rs results :
  List.length results = List.length rs -> any is_some rs = true ->
  all is_some (answer (any is_some rs) results rs) = true /\
  List.length (answer (any is_some rs) results rs) = List.length rs.
Proof using Type.
  intros Hlen Hr. rewrite Hr. revert results Hlen. clear Hr. induction rs as [|v rs IH]; intros [|w results]; cbn; try done.
  intros [= Hlen]. destruct (IH results Hlen) as [Ha Hl]. rewrite Hl. by destruct v.
Qed.

Lemma applied_around r us before own after rs :
  calm before -> calm after -> applied tbl r us own rs -> applied tbl r us (before ++ own ++ after) rs.
Proof using Type.
  intros Hb Ha (s & s' & H1 & H2). exists s, s'. split; [|done]. apply one_step_app; [done|by apply one_step_tail].
Qed.

(** C17: A push is all or nothing and its report is true: either every ref is reported updated, and
    the run made the one change of the refs that the specification asks for, or each is reported
    with a reason and nothing changed.  A push that fails as a whole changed nothing, but where the
    commit itself failed with its outcome unknown. *)
Theorem receive_atomic r us log res : runs (apply_push r us) log res ->
  match res with
  | inl rs => List.length rs = List.length us /\
      ((any is_some rs = false /\ exists rules, applied tbl r (combine us (batch_verdicts rules_odb rules us)) log rs) \/
       (all is_some rs = true /\ calm log))
  | inr _ => calm log \/
      exists rules rs, applied tbl r (combine us (batch_verdicts rules_odb rules us)) log rs /\ any is_some rs = false
  end.
Proof using row_laws.
  intros Hs. apply apply_runs in Hs as [[Hc Hrs]|(before & own & after & sent & tips & results & answers &
    -> & Hafter & Hacc & Hr & ->)].
  { destruct res as [rs|e]; [|by left]. destruct (Hrs rs eq_refl) as [Hlen Hall]. split; [done|by right]. }
  pose proof (acc_calm _ _ _ _ _ _ Hacc) as Hbefore.
  pose proof (connect_length _ _ _ _ _ _ (acc_check _ _ _ _ _ _ Hacc)) as Hres.
  assert (Hcalm : calm own -> calm (before ++ own ++ after)).
  { intros Ho. repeat (apply Forall_app; split); done. }
  apply (update_one_step tbl stored dsem row_laws) in Hr. destruct answers as [rs|e].
  - assert (Hlen : List.length rs = List.length us).
    { destruct Hr as [[rules Ha]|[_ [m ->]]]; [by eapply applied_length|by rewrite length_map]. }
    destruct (any is_some rs) eqn:Ers.
    + destruct (answer_fail rs results ltac:(congruence) Ers) as [Hall Hl]. rewrite Ers in Hall, Hl.
      split; [congruence|]. right. split; [done|]. apply Hcalm.
      destruct Hr as [[rules Ha]|[Hq _]]; [by eapply applied_rejected|done].
    + pose proof (answer_all rs results ltac:(congruence) Ers (acc_passed _ _ _ _ _ _ Hacc)) as Hans.
      rewrite Ers in Hans. rewrite Hans.
      assert (Hnone : map (fun _ => None) rs = rs).
      { clear -Ers. induction rs as [|v rs IH]; [done|]. apply orb_false_iff in Ers as [Hv Hr].
        destruct v; [done|]. cbn. by rewrite IH. }
      rewrite Hnone. split; [done|]. destruct Hr as [[rules Ha]|[Hq [m ->]]].
      * left. split; [done|]. exists rules. by apply applied_around.
      * right. split; [|by apply Hcalm]. by destruct us.
  - destruct Hr as [Hq|(rules & rs & Ha & Hn)]; [left; by apply Hcalm|right].
    exists rules, rs. split; [by apply applied_around|done].
Qed.
End connected.
