(* ===== verification/Fetch.v ===== *)
(** * Fetch: serving objects, [crates/git/src/protocol/upload/]

    The commands of protocol 2: listing refs, negotiating, deciding which objects a client may have
    and which the pack carries.  gix's object counting ([count]) and the sizes and times in objects
    are parameters; a pack is the list of its objects.  The caller's interrupt flag is not modelled:
    a fetch here is one nobody abandons. *)

From S2P Require Import Prelude Text Names Prog Pktline Commits Refs Walks.
Local Open Scope string_scope.
Local Open Scope Z_scope.

Definition AGENT : string := "agent=kloudlite/0.1".
Definition DEFAULT_BRANCH : string := "main".
Definition MAX_LOOSE_WANTS : nat := 64.

Inductive expansion : Type :=
| AsIs
| TreeContents
| TreeAdditions.

Record Deepen (oid : Type) := mkDeepen {
  d_depth : option Z;
  d_since : option Z;
  d_not : list oid;
  d_client_shallow : list oid;
  d_relative : bool;
}.
Arguments mkDeepen {oid} d_depth d_since d_not d_client_shallow d_relative.
Arguments d_depth {oid} d.
Arguments d_since {oid} d.
Arguments d_not {oid} d.
Arguments d_client_shallow {oid} d.
Arguments d_relative {oid} d.

Record Shallow (oid : Type) := mkShallow { s_commits : list oid; s_boundary : list oid; s_unshallow : list oid }.
Arguments mkShallow {oid} s_commits s_boundary s_unshallow.
Arguments s_commits {oid} s.
Arguments s_boundary {oid} s.
Arguments s_unshallow {oid} s.

(** What [fetch] collects from its arguments. *)
Record Req (oid : Type) := mkReq {
  q_wants : list oid;
  q_haves : list oid;
  q_done : bool;
  q_wait_for_done : bool;
  q_deepen : Deepen oid;
  q_want_refs : list string;
  q_include_tag : bool;
  q_filter : option Filter;
}.
Arguments mkReq {oid} q_wants q_haves q_done q_wait_for_done q_deepen q_want_refs q_include_tag q_filter.
Arguments q_wants {oid} r.
Arguments q_haves {oid} r.
Arguments q_done {oid} r.
Arguments q_wait_for_done {oid} r.
Arguments q_deepen {oid} r.
Arguments q_want_refs {oid} r.
Arguments q_include_tag {oid} r.
Arguments q_filter {oid} r.

(** A fetch that ends early: with a refusal on the wire, or failing. *)
Inductive stop : Type :=
| Refused (text : string)
| Failed (e : error).

Definition sbind {A B} (x : A + stop) (f : A -> B + stop) : B + stop :=
  match x with inl a => f a | inr e => inr e end.
Notation "'let^' x ':=' s 'in' k" := (sbind s (fun x => k))
  (at level 10, x pattern, s at level 100, k at level 200) : klo_scope.

Section fetch.
Context {oid : Type} `{Countable oid} `{Hex oid}.
Variable find : oid -> object oid + find_error.
Variable simple : list oid -> list oid -> list ((oid * list oid) + find_error).
Variable count : expansion -> list oid -> list oid + find_error.
(** The size in an object's header, and a commit's time, where they can be read. *)
Variable header : oid -> option Z.
Variable commit_time : oid -> option Z.
Variable fuel : nat.

(** ** Filtered packs *)
Definition keep_blob (id : oid) (filter : Filter) : bool :=
  match filter with
  | NoBlobs | NoTrees => false
  | BlobLimit max => is_some_and (header id) (fun size => size <=? max)
  end.

Definition find_tree (id : oid) : outcome (list (string * oid * entry_kind)) :=
  match find id with
  | inl (OTree entries) => Done entries
  | inl _ => Fails (ReadFailed (EMsg "expected a tree"))
  | inr e => Fails e
  end.

Definition is_tree (k : entry_kind) : bool := match k with EntryTree => true | _ => false end.

(** [collect] into a map: the last entry of a name. *)
Definition base_entry (base : list (string * oid * entry_kind)) (name : string) : option oid :=
  option_map (fun e => e.1.2) (List.find (fun e => String.eqb e.1.1 name) (List.rev base)).

(** One tree's entries: the stack grows by its subtrees, [out] by its blobs. *)
Fixpoint walk_entries (entries base : list (string * oid * entry_kind)) (filter : Filter)
    (trees : list (oid * option oid)) (seen : gset oid) (out : list oid) :
    list (oid * option oid) * gset oid * list oid :=
  match entries with
  | [] => (trees, seen, out)
  | (name, child, kind) :: entries =>
    let same := base_entry base name in
    if is_tree kind then walk_entries entries base filter ((child, same) :: trees) seen out
    else if negb (bool_decide (same = Some child)) && negb (bool_decide (child ∈ seen)) then
      walk_entries entries base filter trees ({[ child ]} ∪ seen)
        (if keep_blob child filter then out ++ [child] else out)%list
    else walk_entries entries base filter trees seen out
  end.

Fixpoint walk_trees (fuel : nat) (filter : Filter) (trees : list (oid * option oid)) (seen : gset oid) (out : list oid) :
    outcome (list oid) :=
  match fuel with
  | O => OutOfFuel
  | S fuel =>
    match trees with
    | [] => Done out
    | (id, base) :: trees =>
      if bool_decide (base = Some id) || bool_decide (id ∈ seen) then walk_trees fuel filter trees seen out
      else
        let~ entries := find_tree id in
        let~ base_entries := match base with Some b => find_tree b | None => Done [] end in
        let '(trees, seen, out) :=
          walk_entries entries base_entries filter trees ({[ id ]} ∪ seen) (out ++ [id])%list in
        walk_trees fuel filter trees seen out
    end
  end.

(** The tree to compare a commit's with: its first parent's, if the client has or gets it. *)
Definition base_tree (have sending : gset oid) (parents : list oid) : option oid :=
  match parents with
  | [] => None
  | p :: _ =>
    if bool_decide (p ∈ have) || bool_decide (p ∈ sending) then
      match find p with inl (OCommit tree _) => Some tree | _ => None end
    else None
  end.

Fixpoint start_trees (commits : list oid) (have sending : gset oid) (filter : Filter)
    (trees : list (oid * option oid)) (seen : gset oid) (out : list oid) :
    outcome (list (oid * option oid) * gset oid * list oid) :=
  match commits with
  | [] => Done (trees, seen, out)
  | c :: commits =>
    if bool_decide (c ∈ seen) then start_trees commits have sending filter trees seen out
    else
      let seen := {[ c ]} ∪ seen in
      let out := (out ++ [c])%list in
      if bool_decide (filter = NoTrees) then start_trees commits have sending filter trees seen out
      else
        let~ o := of_sum (find c) in
        let trees := match o with
                     | OCommit tree parents => (tree, base_tree have sending parents) :: trees
                     | _ => trees
                     end in
        start_trees commits have sending filter trees seen out
  end.

Definition filtered_objects (commits : list oid) (have : gset oid) (filter : Filter) : outcome (list oid) :=
  let~ st := start_trees commits have (list_to_set commits) filter [] ∅ [] in
  let '(trees, seen, out) := st in walk_trees fuel filter trees seen out.

(** ** Shallow fetches *)
Definition asked (d : Deepen oid) : bool :=
  is_some (d_depth d) || is_some (d_since d) || negb (bool_decide (d_not d = [])).

Definition too_old (d : Deepen oid) (p : oid) : bool :=
  is_some_and (d_since d) (fun since => is_some_and (commit_time p) (fun t => t <? since)).

(** The parents of one commit: those beyond a cut mark it as boundary, the others are queued. *)
Fixpoint queue_parents (d : Deepen oid) (cut : gset oid) (id : oid) (depth : Z) (parents : list oid)
    (queue : list (oid * Z)) (boundary : list oid) : list (oid * Z) * list oid :=
  match parents with
  | [] => (queue, boundary)
  | p :: parents =>
    if bool_decide (p ∈ cut) || too_old d p
    then queue_parents d cut id depth parents queue (boundary ++ [id])%list
    else queue_parents d cut id depth parents (queue ++ [(p, depth + 1)])%list boundary
  end.

(** The times read are cached by the code; a time is [commit_time] either way. *)
Fixpoint shallow_loop (fuel : nat) (d : Deepen oid) (cut : gset oid) (queue : list (oid * Z)) (depth_of : gmap oid Z)
    (boundary : list oid) (walked : nat) : outcome (gmap oid Z * list oid) :=
  match fuel with
  | O => OutOfFuel
  | S fuel =>
    match queue with
    | [] => Done (depth_of, boundary)
    | (id, depth) :: queue =>
      if is_some_and (depth_of !! id) (fun prev => prev <=? depth)
      then shallow_loop fuel d cut queue depth_of boundary walked
      else
        let walked := S walked in
        if Nat.ltb MAX_WALK walked then Fails (ReadFailed (over_budget (Z.of_nat walked) "shallow"))
        else match find id with
             | inl (OCommit _ parents) =>
               let depth_of := <[id := depth]> depth_of in
               let deep_enough := is_some_and (d_depth d) (fun max => max <=? depth) in
               if bool_decide (parents = []) then shallow_loop fuel d cut queue depth_of boundary walked
               else if deep_enough || bool_decide (id ∈ cut)
               then shallow_loop fuel d cut queue depth_of (boundary ++ [id])%list walked
               else
                 let '(queue, boundary) := queue_parents d cut id depth parents queue boundary in
                 shallow_loop fuel d cut queue depth_of boundary walked
             | _ => shallow_loop fuel d cut queue depth_of boundary walked
             end
    end
  end.

(** The commits are a map's keys, in no particular order. *)
Definition shallow_walk (wants : list oid) (d : Deepen oid) : outcome (Shallow oid) :=
  let cut : gset oid := list_to_set (d_not d) in
  let queue := ((if d_relative d then map (fun c => (c, 0)) (d_client_shallow d) else []) ++
                map (fun w => (w, 1)) wants)%list in
  let~ res := shallow_loop fuel d cut queue ∅ [] 0 in
  let '(depth_of, boundary) := res in
  let boundary_set : gset oid := list_to_set boundary in
  let unshallow := List.filter (fun c => is_some (depth_of !! c) && negb (bool_decide (c ∈ boundary_set)))
                     (d_client_shallow d) in
  Done (mkShallow (map fst (map_to_list depth_of)) (dedup (sort_by to_hex boundary)) unshallow).

(** ** Refs *)
Definition ref_at (refs : list (string * oid)) (name : string) : option oid :=
  option_map snd (List.find (fun r => String.eqb r.1 name) refs).

(** The name as given, then under each of git's prefixes. *)
Fixpoint resolve_under (prefixes : list string) (refs : list (string * oid)) (r : string) : option oid :=
  match prefixes with
  | [] => None
  | p :: prefixes =>
    match ref_at refs (p +:+ r) with Some o => Some o | None => resolve_under prefixes refs r end
  end.
Definition resolve_shorthand (refs : list (string * oid)) (r : string) : option oid :=
  resolve_under [""; "refs/"; "refs/tags/"; "refs/heads/"; "refs/remotes/"] refs r.

Definition head_target (refs : list (string * oid)) : string :=
  let has b := any (fun r => String.eqb r.1 ("refs/heads/" +:+ b)) refs in
  if has DEFAULT_BRANCH || negb (any (fun r => starts_with "refs/heads/" r.1) refs)
  then "refs/heads/" +:+ DEFAULT_BRANCH
  else if has "master" then "refs/heads/master"
  else match List.find (fun r => starts_with "refs/heads/" r.1) refs with
       | Some r => r.1
       | None => "refs/heads/" +:+ DEFAULT_BRANCH
       end.

(** Sixteen tags at most. *)
Fixpoint peel_chain (n : nat) (id : oid) (peeled : option oid) : option oid :=
  match n with
  | O => peeled
  | S n =>
    match find id with
    | inl (OTag target) => peel_chain n target (Some target)
    | inl _ => peeled
    | inr _ => None
    end
  end.
Definition peel_to_object (id : oid) : option oid := peel_chain 16 id None.

Definition ls_line (peel : bool) (r : string * oid) : result string :=
  let peeled := if peel && starts_with "refs/tags/" r.1 then peel_to_object r.2 else None in
  write_text (to_hex r.2 +:+ " " +:+ r.1 +:+
    match peeled with Some p => " peeled:" +:+ to_hex p | None => "" end).

Fixpoint concat_ok (l : list (result string)) : result string :=
  match l with
  | [] => Ok ""
  | r :: l => let? a := r in let? b := concat_ok l in Ok (a +:+ b)
  end.

(** [odb] says whether the objects could be opened for peeling. *)
Definition ls_refs (odb : bool) (repo : repo_id) (args : list string) : P (result string) :=
  let symrefs := any (String.eqb "symrefs") args in
  let peel := any (String.eqb "peel") args in
  let unborn := any (String.eqb "unborn") args in
  let prefixes := omap (strip_prefix "ref-prefix ") args in
  let want name := bool_decide (prefixes = []) || any (fun p => starts_with p name) prefixes in
  let!? refs := list_refs repo in
  let target := head_target refs in
  let head := if want "HEAD" then
      match ref_at refs target with
      | Some o => write_text (to_hex o +:+ " HEAD" +:+ if symrefs then " symref-target:" +:+ target else "")
      | None => if unborn then write_text ("unborn HEAD symref-target:" +:+ target) else Ok ""
      end
    else Ok "" in
  Ret (let? head := head in
       let? lines := concat_ok (map (ls_line (peel && odb)) (List.filter (fun r => want r.1) refs)) in
       Ok (head +:+ lines +:+ write_flush)).

(** ** Arguments *)
Definition refuse (m : string) : stop :=
  match write_text m with Ok t => Refused t | Err e => Failed e end.

Definition hex_arg (h : string) : oid + stop :=
  match parse_oid h with Ok o => inl o | Err e => inr (Failed e) end.

Definition sum_map {A B} (f : A -> B) (x : A + stop) : B + stop :=
  match x with inl a => inl (f a) | inr e => inr e end.

Definition with_deepen (q : Req oid) (d : Deepen oid) : Req oid :=
  mkReq (q_wants q) (q_haves q) (q_done q) (q_wait_for_done q) d (q_want_refs q) (q_include_tag q) (q_filter q).

Definition deepen_not (refs : list (string * oid)) (r : string) : oid + stop :=
  match from_hex r with
  | Some o => inl o
  | None => match resolve_shorthand refs r with
            | Some o => inl o
            | None => inr (refuse ("ERR deepen-not: no such ref " +:+ r))
            end
  end.

Definition parse_arg (refs : list (string * oid)) (q : Req oid) (a : string) : Req oid + stop :=
  let d := q_deepen q in
  match strip_prefix "want " a with
  | Some h => sum_map (fun o => mkReq (q_wants q ++ [o])%list (q_haves q) (q_done q) (q_wait_for_done q) d
                (q_want_refs q) (q_include_tag q) (q_filter q)) (hex_arg h)
  | None =>
  match strip_prefix "have " a with
  | Some h => sum_map (fun o => mkReq (q_wants q) (q_haves q ++ [o])%list (q_done q) (q_wait_for_done q) d
                (q_want_refs q) (q_include_tag q) (q_filter q)) (hex_arg h)
  | None =>
  if String.eqb a "done" then inl (mkReq (q_wants q) (q_haves q) true (q_wait_for_done q) d
    (q_want_refs q) (q_include_tag q) (q_filter q))
  else if String.eqb a "wait-for-done" then inl (mkReq (q_wants q) (q_haves q) (q_done q) true d
    (q_want_refs q) (q_include_tag q) (q_filter q))
  else match strip_prefix "want-ref " a with
  | Some r => inl (mkReq (q_wants q) (q_haves q) (q_done q) (q_wait_for_done q) d
      (q_want_refs q ++ [trim r])%list (q_include_tag q) (q_filter q))
  | None =>
  if String.eqb a "include-tag" then inl (mkReq (q_wants q) (q_haves q) (q_done q) (q_wait_for_done q) d
    (q_want_refs q) true (q_filter q))
  else match strip_prefix "deepen " a with
  | Some n =>
    match ok_parse (parse_u64 (trim n)) with
    | None => inr (Failed (EMsg "bad deepen"))
    | Some n => inl (with_deepen q (mkDeepen (Some (Z.max n 1)) (d_since d) (d_not d) (d_client_shallow d) (d_relative d)))
    end
  | None =>
  if String.eqb a "deepen-relative"
  then inl (with_deepen q (mkDeepen (d_depth d) (d_since d) (d_not d) (d_client_shallow d) true))
  else match strip_prefix "deepen-since " a with
  | Some t =>
    match ok_parse (parse_i64 (trim t)) with
    | None => inr (Failed (EMsg "bad deepen-since"))
    | Some t => inl (with_deepen q (mkDeepen (d_depth d) (Some t) (d_not d) (d_client_shallow d) (d_relative d)))
    end
  | None =>
  match strip_prefix "deepen-not " a with
  | Some r => sum_map (fun o => with_deepen q (mkDeepen (d_depth d) (d_since d) (d_not d ++ [o])%list
                (d_client_shallow d) (d_relative d))) (deepen_not refs (trim r))
  | None =>
  match strip_prefix "shallow " a with
  | Some h => sum_map (fun o => with_deepen q (mkDeepen (d_depth d) (d_since d) (d_not d)
                (d_client_shallow d ++ [o])%list (d_relative d))) (hex_arg (trim h))
  | None =>
  match strip_prefix "filter " a with
  | Some spec =>
    match Filters.parse spec with
    | Some f => inl (mkReq (q_wants q) (q_haves q) (q_done q) (q_wait_for_done q) d
        (q_want_refs q) (q_include_tag q) (Some f))
    | None => inr (refuse ("ERR filter " +:+ spec +:+ " not supported"))
    end
  | None => inl q
  end end end end end end end end.

Fixpoint parse_args (refs : list (string * oid)) (q : Req oid) (args : list string) : Req oid + stop :=
  match args with
  | [] => inl q
  | a :: args => match parse_arg refs q a with inl q => parse_args refs q args | inr e => inr e end
  end.

Definition empty_req : Req oid := mkReq [] [] false false (mkDeepen None None [] [] false) [] false None.

(** ** Negotiation *)

(** The refs wanted by name, answered with their tips. *)
Fixpoint want_named (refs : list (string * oid)) (names : list string) : list (string * oid) + stop :=
  match names with
  | [] => inl []
  | name :: names =>
    let name := if String.eqb name "HEAD" then head_target refs else name in
    match ref_at refs name with
    | Some o => sum_map (cons (name, o)) (want_named refs names)
    | None => inr (refuse ("ERR upload-pack: not our ref " +:+ name))
    end
  end.

Definition stop_of {A} (o : outcome A) : A + stop :=
  match o with
  | Done a => inl a
  | Fails NotFound => inr (Failed (EMsg "object not found"))
  | Fails (ReadFailed e) => inr (Failed e)
  | OutOfFuel => inr (Failed (EMsg "out of fuel"))
  end.

Definition stop_res {A} (r : result A) : A + stop :=
  match r with Ok a => inl a | Err e => inr (Failed e) end.

(** A commit's place is found by the commit walk; only what is not on it asks for everything the
    refs reach, and only for a few. *)
Definition gate (tips wants : list oid) : unit + stop :=
  let unknown := List.filter (fun w => negb (bool_decide (w ∈ tips))) wants in
  if bool_decide (unknown = []) then inl tt
  else
    let^ commits := stop_of (reachable_commits find simple fuel tips unknown) in
    let rest := List.filter (fun w => negb (bool_decide (w ∈ commits))) unknown in
    if bool_decide (rest = []) then inl tt
    else if Nat.ltb MAX_LOOSE_WANTS (List.length rest) then
      inr (refuse ("ERR upload-pack: too many wants that are not tips (" +:+
        display (Z.of_nat (List.length rest)) +:+ " > " +:+ display (Z.of_nat MAX_LOOSE_WANTS) +:+ ")"))
    else
      let^ ours := stop_of (reachable_set find simple (count TreeContents) fuel tips) in
      match List.find (fun w => negb (bool_decide (w ∈ ours))) rest with
      | Some w => inr (refuse ("ERR upload-pack: not our ref " +:+ to_hex w))
      | None => inl tt
      end.

Definition common_haves (tips haves : list oid) : list oid + stop :=
  if bool_decide (haves = []) then inl []
  else
    let^ ours := stop_of (reachable_commits find simple fuel tips haves) in
    inl (List.filter (fun h => bool_decide (h ∈ ours)) haves).

(** The acknowledgments, and whether the fetch goes on to a pack. *)
Definition acknowledge (q : Req oid) (common : list oid) : result (string * bool) :=
  if q_done q then Ok ("", true)
  else
    let? head := write_text "acknowledgments" in
    if bool_decide (common = []) then let? nak := write_text "NAK" in Ok (head +:+ nak +:+ write_flush, false)
    else
      let? acks := concat_ok (map (fun c => write_text ("ACK " +:+ to_hex c)) common) in
      if q_wait_for_done q then Ok (head +:+ acks +:+ write_flush, false)
      else let? ready := write_text "ready" in Ok (head +:+ acks +:+ ready +:+ write_delim, true).

Definition shallow_info (shallow : option (Shallow oid)) : result string :=
  match shallow with
  | None => Ok ""
  | Some s =>
    if bool_decide (s_boundary s = []) && bool_decide (s_unshallow s = []) then Ok ""
    else
      let? head := write_text "shallow-info" in
      let? cuts := concat_ok (map (fun c => write_text ("shallow " +:+ to_hex c)) (s_boundary s)) in
      let? whole := concat_ok (map (fun c => write_text ("unshallow " +:+ to_hex c)) (s_unshallow s)) in
      Ok (head +:+ cuts +:+ whole +:+ write_delim)
  end.

Definition wanted_refs (wanted : list (string * oid)) : result string :=
  if bool_decide (wanted = []) then Ok ""
  else
    let? head := write_text "wanted-refs" in
    let? lines := concat_ok (map (fun w => write_text (to_hex w.2 +:+ " " +:+ w.1)) wanted) in
    Ok (head +:+ lines +:+ write_delim).

(** The tags whose object is being sent. *)
Definition tags_along (refs : list (string * oid)) (wants sending : list oid) : list oid :=
  let set : gset oid := list_to_set sending in
  omap (fun r : string * oid =>
    if negb (starts_with "refs/tags/" r.1) || bool_decide (r.2 ∈ wants) then None
    else if bool_decide (default r.2 (peel_to_object r.2) ∈ set) then Some r.2 else None) refs.

(** [filter(|c| seen.insert(c.id))]. *)
Fixpoint unseen (seen : gset oid) (l : list oid) : list oid :=
  match l with
  | [] => []
  | x :: l => if bool_decide (x ∈ seen) then unseen seen l else x :: unseen ({[ x ]} ∪ seen) l
  end.

Definition counts_with_leaves (ids : list oid) (e : expansion) (leaves : list oid) : outcome (list oid) :=
  let~ counts := of_sum (count e ids) in
  if bool_decide (leaves = []) then Done counts
  else
    let~ more := of_sum (count TreeContents leaves) in
    Done (counts ++ unseen (list_to_set counts) more)%list.

Definition write_pack_of (commits haves : list oid) : outcome (list oid) :=
  of_sum (count TreeContents (List.filter (fun c => negb (bool_decide (c ∈ haves))) commits)).

(** Merges get their whole trees. *)
Definition write_pack_range (r : Range oid) : outcome (list oid) :=
  counts_with_leaves (ids r) TreeAdditions (leaves r ++ merges r).

(** The objects the pack carries.  [inl] is decided before the pack's header and fails the fetch;
    within the outcome, an error is reported on the error band. *)
Definition pack_objects (refs : list (string * oid)) (q : Req oid) (wants common : list oid)
    (shallow : option (Shallow oid)) : outcome (list oid) + stop :=
  let tags sending := if q_include_tag q then tags_along refs wants sending else [] in
  match shallow with
  | Some s =>
    let extra := tags (s_commits s) in
    match q_filter q with
    | Some f =>
      let^ objs := stop_of (filtered_objects (s_commits s) (list_to_set common) f) in
      inl (counts_with_leaves (List.filter (fun id => negb (bool_decide (id ∈ common))) (objs ++ extra)) AsIs [])
    | None => inl (write_pack_of (s_commits s ++ extra) common)
    end
  | None =>
    let^ r := stop_of (commit_range find simple fuel wants common) in
    let extra := tags (ids r) in
    match q_filter q with
    | Some f =>
      let^ objs := stop_of (filtered_objects (ids r) (list_to_set common) f) in
      inl (counts_with_leaves (List.filter (fun id => negb (bool_decide (id ∈ common))) (objs ++ extra)) AsIs (leaves r))
    | None => inl (write_pack_range (mkRange (ids r ++ extra)%list (leaves r) (merges r) (boundary r)))
    end
  end.

(** What a fetch writes before its pack, and the pack if it comes to one. *)
Definition reply : Type := string * option (outcome (list oid)).

Definition after (text : string) (x : reply + stop) : reply + stop :=
  match x with
  | inl (t, p) => inl (text +:+ t, p)
  | inr (Refused t) => inr (Refused (text +:+ t))
  | inr (Failed e) => inr (Failed e)
  end.

Definition fetch_pack (refs : list (string * oid)) (q : Req oid) (wanted : list (string * oid))
    (wants common : list oid) : reply + stop :=
  let^ _ := gate (map snd refs) wants in
  let d := q_deepen q in
  let^ shallow := if asked d || negb (bool_decide (d_client_shallow d = []))
                  then sum_map Some (stop_of (shallow_walk wants d)) else inl None in
  let^ info := stop_res (shallow_info shallow) in
  let^ named := stop_res (wanted_refs wanted) in
  let^ pack := pack_objects refs q wants common shallow in
  let^ head := stop_res (write_text "packfile") in
  inl (info +:+ named +:+ head, Some pack).

Definition fetch_with (odb : result unit) (refs : list (string * oid)) (args : list string) : reply + stop :=
  let^ q := parse_args refs empty_req args in
  let^ _ := stop_res odb in
  let^ wanted := want_named refs (q_want_refs q) in
  let wants := (q_wants q ++ map snd wanted)%list in
  let^ common := common_haves (map snd refs) (q_haves q) in
  let^ ack := stop_res (acknowledge q common) in
  if negb ack.2 then inl (ack.1, None)
  else after ack.1 (fetch_pack refs q wanted wants common).

(** [interrupted] packs apart, the bytes after the reply: the pack's own, or why there is none. *)
Definition fetch (odb : result unit) (repo : repo_id) (args : list string) : P (result reply) :=
  let!? refs := list_refs repo in
  Ret (match fetch_with odb refs args with
       | inl r => Ok r
       | inr (Refused t) => Ok (t, None)
       | inr (Failed e) => Err e
       end).

Definition advertise : result string :=
  concat_ok [write_text "version 2"; write_text AGENT; write_text "ls-refs=unborn symrefs peel";
             write_text "fetch=shallow filter wait-for-done ref-in-want"; write_text "object-format=sha1";
             Ok write_flush].

(** ** The command loop *)

(** Capability lines, then the arguments after a delimiter; without one there are none. *)
Fixpoint read_command (n : nat) (input : string) : result (list string) * string :=
  match n with
  | O => (Err (EMsg "fuel"), input)
  | S n =>
    match read_pkt input with
    | (Err e, rest) => (Err e, rest)
    | (Ok (Some Delim), rest) => read_lines_until_flush rest
    | (Ok (Some (Data _)), rest) => read_command n rest
    | (Ok _, rest) => (Ok [], rest)
    end
  end.

(** What one session answers: listings are text, a fetch a reply. *)
Inductive answer : Type :=
| Listing (text : string)
| Fetched (r : reply)
| Unknown (text : string).

(** Each turn reads at least one packet, so the input's length bounds the turns. *)
Fixpoint serve_loop (n : nat) (odb : result unit) (repo : repo_id) (input : string) (out : list answer) :
    P (result (list answer)) :=
  match n with
  | O => Ret (Err (EMsg "fuel"))
  | S n =>
    match read_pkt input with
    | (Err e, _) => Ret (Err e)
    | (Ok (Some Flush), input) => serve_loop n odb repo input out
    | (Ok (Some (Data d)), input) =>
      match strip_prefix "command=" (trim_end d) with
      | None => Ret (Err (EMsg "expected command="))
      | Some cmd =>
        match read_command (S (String.length input)) input with
        | (Err e, _) => Ret (Err e)
        | (Ok args, input) =>
          if String.eqb cmd "ls-refs" then
            let!? t := ls_refs (is_ok odb) repo args in serve_loop n odb repo input (out ++ [Listing t])%list
          else if String.eqb cmd "fetch" then
            let!? r := fetch odb repo args in serve_loop n odb repo input (out ++ [Fetched r])%list
          else Ret (let? t := write_text ("ERR unknown command " +:+ cmd) in
                    Ok (out ++ [Unknown (t +:+ write_flush)])%list)
        end
      end
    | (Ok _, _) => Ret (Ok out)
    end
  end.

Definition serve (odb : result unit) (repo : repo_id) (input : string) : P (result (list answer)) :=
  serve_loop (S (String.length input)) odb repo input [].
End fetch.
