(* ===== verification/FetchSafe.v ===== *)
(** * FetchSafe: what a fetch may send

    A pack holds only what the repository's refs reach, whatever the client asks
    ([fetch_only_reachable]), where the client does not deepen from boundaries of its own and trees
    hold what their modes say.  [FetchWitness] shows what happens otherwise. *)

From S2P Require Import Prelude Text Names Prog Pktline Commits Refs Walks Fetch.
Local Open Scope string_scope.
Local Open Scope Z_scope.

Section fetch.
Context {oid : Type} `{Countable oid} `{Hex oid}.
Variable find : oid -> object oid + find_error.
Variable simple : list oid -> list oid -> list ((oid * list oid) + find_error).
Variable count : expansion -> list oid -> list oid + find_error.
Variable header : oid -> option Z.
Variable commit_time : oid -> option Z.
Variable fuel : nat.
Hypothesis laws : WalkLaws find simple.
(** Counting finds only what is under the objects asked for. *)
Hypothesis counted : forall e, CountLaws find (count e).

(** Trees and commits name what they should: no commit or tag stands where a tree or a file does,
    and no submodule's commit is among this repository's objects. *)
Record kinded : Prop := {
  kinded_child : forall a b, child find a b -> (exists t, find a = inl (OTag t)) \/
    (parents_of find b = None /\ forall t, find b <> inl (OTag t));
  kinded_link : forall a entries name b, find a = inl (OTree entries) -> (name, b, EntryCommit) ∈ entries ->
    header b = None;
}.
Hypothesis kinds : kinded.

(** ** What the refs reach *)
Section tips.
Variable tips : list oid.

Lemma has_history x : has find tips x -> is_Some (parents_of find x) \/ (exists t, find x = inl (OTag t)) -> hist find tips x.
Proof using kinds.
  intros (h & Hh & Hx). revert x Hx.
  apply (rtc_ind_r (fun x => is_Some (parents_of find x) \/ (exists t, find x = inl (OTag t)) -> hist find tips x) h);
    [done|]. intros y x Hhy Hyx IH Hkind.
  destruct (kinded_child kinds _ _ Hyx) as [[t Ht]|[Hp Hn]].
  - assert (t = x) as ->.
    { unfold child, children in Hyx. rewrite Ht in Hyx. by apply list_elem_of_singleton in Hyx. }
    eapply hist_tag; [apply IH; eauto|done].
  - exfalso. destruct Hkind as [[ps Hps]|[t Ht]]; [congruence|by apply (Hn t)].
Qed.

Lemma hist_has wants x : (forall w, w ∈ wants -> has find tips w) -> hist find wants x -> has find tips x.
Proof using kinds.
  intros Hw. induction 1 as [x Hx|x t _ IH Ht|x ps p _ IH Hps Hp]; [auto|..].
  - eapply has_child; [exact IH|]. apply rtc_once. unfold child, children. rewrite Ht. left.
  - apply has_hist. eapply hist_parent; [apply has_history; [exact IH|left; eauto]|done|done].
Qed.

Lemma under_has (l : list oid) x : (forall i, i ∈ l -> has find tips i) -> (exists i, i ∈ l /\ rtc (child find) i x) -> has find tips x.
Proof using Type. intros Hl (i & Hi & Hx). eapply has_child; eauto. Qed.

Lemma stop_of_inl {A} (o : outcome A) a : stop_of o = inl a -> o = Done a.
Proof using Type. destruct o as [|[|]|]; simpl; congruence. Qed.

Lemma sbind_inl {A B} (x : A + stop) (f : A -> B + stop) b : sbind x f = inl b <-> exists a, x = inl a /\ f a = inl b.
Proof using Type. destruct x; simpl; naive_solver. Qed.

Lemma gate_has wants : gate find simple count fuel tips wants = inl tt -> forall w, w ∈ wants -> has find tips w.
Proof using laws counted.
  unfold gate. intros Hg w Hw. destruct (decide (w ∈ tips)) as [Ht|Ht]; [apply has_hist; by apply hist_tip|].
  set (unknown := List.filter _ wants) in Hg.
  assert (Hu : w ∈ unknown).
  { apply list_elem_of_In, filter_In. split; [by apply list_elem_of_In|]. by rewrite bool_decide_false. }
  destruct (bool_decide (unknown = [])) eqn:E1.
  { apply bool_decide_eq_true in E1. rewrite E1 in Hu. by apply not_elem_of_nil in Hu. }
  apply sbind_inl in Hg as (commits & Hc%stop_of_inl & Hg).
  destruct (decide (w ∈ commits)) as [Hwc|Hwc].
  { apply has_hist. by eapply (reachable_commits_hist find simple laws). }
  set (rest := List.filter _ unknown) in Hg.
  assert (Hr : w ∈ rest).
  { apply list_elem_of_In, filter_In. split; [by apply list_elem_of_In|]. by rewrite bool_decide_false. }
  destruct (bool_decide (rest = [])) eqn:E2.
  { apply bool_decide_eq_true in E2. rewrite E2 in Hr. by apply not_elem_of_nil in Hr. }
  destruct (Nat.ltb _ _); [done|]. apply sbind_inl in Hg as (ours & Ho%stop_of_inl & Hg).
  destruct (List.find _ rest) eqn:Ef; [done|]. apply list_elem_of_In in Hr.
  pose proof (List.find_none _ _ Ef w Hr) as Hin. apply negb_false_iff, bool_decide_eq_true in Hin.
  by eapply (reachable_set_has find simple (count TreeContents) laws (counted TreeContents)).
Qed.

Lemma common_has haves common h : common_haves find simple fuel tips haves = inl common -> h ∈ common -> has find tips h.
Proof using laws.
  unfold common_haves. destruct (bool_decide _); [intros [= <-] Hh; by apply not_elem_of_nil in Hh|].
  intros (ours & Ho%stop_of_inl & [= <-])%sbind_inl Hh. apply list_elem_of_In, filter_In in Hh as [_ Hh].
  apply bool_decide_eq_true in Hh. apply has_hist. by eapply (reachable_commits_hist find simple laws).
Qed.

Lemma range_has wants haves r x :
  (forall w, w ∈ wants -> has find tips w) -> commit_range find simple fuel wants haves = Done r ->
  x ∈ ids r \/ x ∈ leaves r \/ x ∈ merges r -> has find tips x.
Proof using laws kinds.
  unfold commit_range. intros Hw (p & Hp & (infos & Hi & [= <-])%obind_done)%obind_done.
  apply peel_wants_spec in Hp as [Hok _]. cbn [ids leaves merges]. intros Hx.
  assert (Hc : forall c ps, (c, ps) ∈ infos -> hist find wants c).
  { intros c ps Hin. destruct (walked_iff find simple laws _ _ _ c Hi) as (_ & Hs & _).
    destruct (Hs ps Hin) as (Hr%reach_hist & _ & _). eapply hist_app_mono; [|exact Hr].
    intros t Ht. apply (peel_from _ _ _ _ Hok). by right; left. }
  apply (hist_has wants); [done|]. destruct Hx as [[Hx|Hx]%elem_of_app|[Hx|Hx]].
  - apply (peel_from _ _ _ _ Hok). by left.
  - apply list_elem_of_In, in_map_iff in Hx as ([c ps] & <- & Hin%list_elem_of_In). by eapply Hc.
  - apply (peel_from _ _ _ _ Hok). by right; right.
  - apply list_elem_of_omap in Hx as ([c ps] & Hin & Hx). cbn in Hx.
    destruct ps as [|? [|]]; simplify_eq/=. by eapply Hc.
Qed.

Abbreviation all_has l := (forall x : oid, x ∈ l%list -> has find tips x).

Lemma all_has_snoc (l : list oid) x : all_has l -> has find tips x -> all_has (l ++ [x])%list.
Proof using Type. intros Hl Hx y [Hy|Hy%list_elem_of_singleton]%elem_of_app; [auto|by rewrite Hy]. Qed.

Lemma counts_has e l counts : all_has l -> of_sum (count e l) = Done counts -> all_has counts.
Proof using counted.
  intros Hl Hc x Hx. destruct (count e l) as [l'|] eqn:Ec; [|done]. cbn in Hc. injection Hc as ->.
  apply (under_has l); [done|]. by apply (counted e l counts).
Qed.

(** *** Filtered packs *)
Lemma walk_entries_has entries base f : forall trees seen out,
  (forall name x k, (name, x, k) ∈ entries -> k = EntryCommit /\ header x = None \/ has find tips x) ->
  all_has (map fst trees) -> all_has out ->
  all_has (map fst (walk_entries header entries base f trees seen out).1.1) /\
  all_has (walk_entries header entries base f trees seen out).2.
Proof using Type.
  induction entries as [|[[name x] k] entries IH]; intros trees seen out He Ht Ho; [done|]. cbn [walk_entries].
  assert (He' : forall name x k, (name, x, k) ∈ entries -> k = EntryCommit /\ header x = None \/ has find tips x)
    by (intros n y k' Hin; apply (He n y k'); by right).
  specialize (He name x k ltac:(left)). destruct (is_tree k) eqn:Ek.
  - destruct He as [[-> _]|He]; [done|]. apply IH; [done| |done]. cbn. intros y [->|Hy]%elem_of_cons; auto.
  - destruct (_ && _); [|by apply IH]. apply IH; [done|done|]. destruct (keep_blob header x f) eqn:Eb; [|done].
    destruct He as [[_ Hn]|He]; [|by apply all_has_snoc]. destruct f; try done. unfold keep_blob in Eb. by rewrite Hn in Eb.
Qed.

Lemma tree_entries_has id entries : has find tips id -> find id = inl (OTree entries) ->
  forall name x k, (name, x, k) ∈ entries -> k = EntryCommit /\ header x = None \/ has find tips x.
Proof using kinds.
  intros Hid Hf name x k Hin. destruct (decide (k = EntryCommit)) as [->|Hk].
  - left. split; [done|]. by eapply (kinded_link kinds).
  - right. eapply has_child; [exact Hid|]. apply rtc_once. unfold child, children. rewrite Hf.
    apply list_elem_of_In, in_map_iff. exists (name, x, k). split; [done|]. apply filter_In.
    split; [by apply list_elem_of_In|]. by destruct k.
Qed.

Lemma walk_trees_has n f : forall trees seen out objs,
  all_has (map fst trees) -> all_has out -> walk_trees find header n f trees seen out = Done objs -> all_has objs.
Proof using kinds.
  induction n as [|n IH]; intros trees seen out objs Ht Ho; cbn [walk_trees]; [done|].
  destruct trees as [|[id base] trees]; [by intros [= <-]|]. cbn in Ht.
  assert (Ht' : all_has (map fst trees)) by (intros y Hy; apply Ht; by right).
  assert (Hid : has find tips id) by (apply Ht; left).
  destruct (_ || _); [by apply IH|].
  intros (entries & He & (bases & _ & Hrest)%obind_done)%obind_done.
  unfold find_tree in He. destruct (find id) as [[]|] eqn:Ef; try done. injection He as ->.
  pose proof (walk_entries_has entries bases f trees ({[ id ]} ∪ seen) (out ++ [id])%list
    (tree_entries_has id entries Hid Ef) Ht' (all_has_snoc _ _ Ho Hid)) as [H1 H2].
  destruct (walk_entries _ _ _ _ _ _ _) as [[trees' seen'] out']. eapply IH; [exact H1|exact H2|exact Hrest].
Qed.

Lemma start_trees_has have sending f commits : forall trees seen out res,
  all_has commits -> all_has (map fst trees) -> all_has out ->
  start_trees find commits have sending f trees seen out = Done res ->
  all_has (map fst res.1.1) /\ all_has res.2.
Proof using Type.
  induction commits as [|c commits IH]; intros trees seen out res Hc Ht Ho; cbn [start_trees]; [by intros [= <-]|].
  assert (Hc' : all_has commits) by (intros y Hy; apply Hc; by right).
  assert (Hcc : has find tips c) by (apply Hc; left).
  destruct (bool_decide (c ∈ seen)); [by apply IH|].
  destruct (bool_decide (f = NoTrees)); [apply IH; [done|done|by apply all_has_snoc]|].
  intros (o & Hf & Hrest)%obind_done. destruct (find c) as [o'|] eqn:Ef; [|done]. cbn in Hf. injection Hf as ->.
  eapply IH in Hrest; [done|done| |by apply all_has_snoc].
  destruct o as [tree ps| | |]; try done. cbn. intros y [->|Hy]%elem_of_cons; [|auto].
  eapply has_child; [exact Hcc|]. apply rtc_once. unfold child, children. rewrite Ef. left.
Qed.

Lemma filtered_has commits have f objs :
  all_has commits -> filtered_objects find header fuel commits have f = Done objs -> all_has objs.
Proof using kinds.
  unfold filtered_objects. intros Hc ([[trees seen] out] & Hs & Hw)%obind_done.
  apply start_trees_has in Hs as [H1 H2]; [|done|intros y Hy; by apply not_elem_of_nil in Hy..].
  eapply walk_trees_has; [exact H1|exact H2|exact Hw].
Qed.

(** *** Shallow walks *)
Lemma queue_parents_in d cut id depth parents queue boundary x k :
  (x, k) ∈ (queue_parents commit_time d cut id depth parents queue boundary).1 -> (x, k) ∈ queue \/ x ∈ parents.
Proof using Type.
  revert queue boundary. induction parents as [|p parents IH]; intros queue boundary; cbn [queue_parents]; [by left|].
  destruct (_ || _); intros [Hq|Hp]%IH; try (right; by right); [by left|].
  apply elem_of_app in Hq as [Hq|Hq%list_elem_of_singleton]; [by left|]. injection Hq as -> _. right. left.
Qed.

Lemma shallow_loop_has n d cut : forall queue depth_of boundary walked res,
  all_has (map fst queue) -> (forall x, is_Some (depth_of !! x) -> has find tips x) ->
  shallow_loop find commit_time n d cut queue depth_of boundary walked = Done res ->
  forall x, is_Some (res.1 !! x) -> has find tips x.
Proof using kinds.
  induction n as [|n IH]; intros queue depth_of boundary walked res Hq Hd; cbn [shallow_loop]; [done|].
  destruct queue as [|[id depth] queue]; [by intros [= <-]|]. cbn in Hq.
  assert (Hq' : all_has (map fst queue)) by (intros y Hy; apply Hq; by right).
  assert (Hid : has find tips id) by (apply Hq; left).
  destruct (is_some_and _ _); [by apply IH|]. destruct (Nat.ltb _ _); [done|].
  destruct (find id) as [[tree parents| | |]|] eqn:Ef; [|by apply IH..].
  assert (Hd' : forall x, is_Some (<[id:=depth]> depth_of !! x) -> has find tips x).
  { intros x. destruct (decide (id = x)) as [->|Hn]; [done|]. rewrite lookup_insert_ne by done. apply Hd. }
  destruct (bool_decide (parents = [])); [by apply IH|]. destruct (_ || _); [by apply IH|].
  pose proof (queue_parents_in d cut id depth parents queue boundary) as Hqp.
  destruct (queue_parents _ _ _ _ _ _ _ _) as [queue' boundary']. apply IH; [|done].
  intros y Hy. apply list_elem_of_In, in_map_iff in Hy as ([z k] & <- & Hin%list_elem_of_In).
  assert (Hp : parents_of find id = Some parents) by (unfold parents_of; by rewrite Ef).
  destruct (Hqp z k Hin) as [Hz|Hz].
  - apply Hq'. apply list_elem_of_In, in_map_iff. exists (z, k). by split; [|apply list_elem_of_In].
  - apply has_hist. eapply hist_parent; [apply has_history; [exact Hid|left; eauto]|exact Hp|exact Hz].
Qed.

Lemma shallow_has wants d s :
  all_has wants -> d_relative d = false -> shallow_walk find commit_time fuel wants d = Done s -> all_has (s_commits s).
Proof using kinds.
  unfold shallow_walk. intros Hw -> ([depth_of boundary] & Hl & [= <-])%obind_done x Hx. cbn [s_commits] in Hx.
  apply list_elem_of_In, in_map_iff in Hx as ([y k] & <- & Hin%list_elem_of_In). apply elem_of_map_to_list in Hin.
  eapply (shallow_loop_has _ _ _ _ _ _ _ _ _ _ Hl); [cbn; by eauto|..].
  Unshelve.
  - cbn [app]. rewrite map_map. cbn. by rewrite map_id.
  - intros z [k' Hz]. by rewrite lookup_empty in Hz.
Qed.

(** *** The pack *)
Lemma unseen_in (seen : gset oid) l x : x ∈ unseen seen l -> x ∈ l.
Proof using Type.
  revert seen. induction l as [|y l IH]; intros seen; cbn [unseen]; [done|].
  destruct (bool_decide _); [intros Hx; right; eauto|]. intros [->|Hx]%elem_of_cons; [left|right; eauto].
Qed.

Lemma leaves_has l e more counts :
  all_has l -> all_has more -> counts_with_leaves count l e more = Done counts -> all_has counts.
Proof using counted.
  unfold counts_with_leaves. intros Hl Hm (c1 & Hc1 & Hc)%obind_done.
  pose proof (counts_has _ _ _ Hl Hc1) as H1. destruct (bool_decide _); [by injection Hc as <-|].
  apply obind_done in Hc as (c2 & Hc2 & [= <-]). pose proof (counts_has _ _ _ Hm Hc2) as H2.
  intros x [Hx|Hx%unseen_in]%elem_of_app; auto.
Qed.

Lemma all_has_filter (f : oid -> bool) l : all_has l -> all_has (List.filter f l).
Proof using Type. intros Hl x Hx. apply list_elem_of_In, filter_In in Hx as [Hx%list_elem_of_In _]. auto. Qed.

Lemma all_has_app (l1 l2 : list oid) : all_has l1 -> all_has l2 -> all_has (l1 ++ l2)%list.
Proof using Type. intros H1 H2 x [Hx|Hx]%elem_of_app; auto. Qed.

Lemma pack_has refs q wants common shallow objs :
  tips = map snd refs -> all_has wants -> (forall s, shallow = Some s -> all_has (s_commits s)) ->
  pack_objects find simple count header fuel refs q wants common shallow = inl (Done objs) -> all_has objs.
Proof using laws counted kinds.
  intros Htips Hw Hs. unfold pack_objects.
  assert (Htags : forall sending, all_has (if q_include_tag q then tags_along find refs wants sending else [])).
  { intros sending x Hx. destruct (q_include_tag q); [|by apply not_elem_of_nil in Hx].
    apply list_elem_of_omap in Hx as (r & Hr & Hx). destruct (_ || _); [done|].
    destruct (bool_decide _); [|done]. injection Hx as <-. apply has_hist, hist_tip. rewrite Htips.
    apply list_elem_of_In, in_map. by apply list_elem_of_In. }
  destruct shallow as [s|].
  - specialize (Hs s eq_refl). destruct (q_filter q) as [f|].
    + intros (l & Hl%stop_of_inl & [= Hc])%sbind_inl. eapply leaves_has; [|intros x Hx; by apply not_elem_of_nil in Hx|exact Hc].
      apply all_has_filter, all_has_app; [eapply filtered_has; [|exact Hl]; done|apply Htags].
    + intros [= Hc]. unfold write_pack_of in Hc. eapply counts_has; [|exact Hc].
      apply all_has_filter, all_has_app; [exact Hs|apply Htags].
  - intros (r & Hr%stop_of_inl & Hrest)%sbind_inl.
    assert (Hrange : forall x, x ∈ ids r \/ x ∈ leaves r \/ x ∈ merges r -> has find tips x)
      by (intros x Hx; by eapply range_has).
    assert (Hids : all_has (ids r)) by auto. assert (Hleaves : all_has (leaves r)) by auto.
    assert (Hmerges : all_has (merges r)) by auto. destruct (q_filter q) as [f|].
    + apply sbind_inl in Hrest as (l & Hl%stop_of_inl & [= Hc]). eapply leaves_has; [|exact Hleaves|exact Hc].
      apply all_has_filter, all_has_app; [eapply filtered_has; [|exact Hl]; done|apply Htags].
    + injection Hrest as Hc. unfold write_pack_range in Hc. cbn in Hc.
      eapply leaves_has; [| |exact Hc]; apply all_has_app; try done; apply Htags.
Qed.
End tips.

(** *** The arguments *)
Lemma parse_arg_relative refs q a q' : parse_arg refs q a = inl q' -> a <> "deepen-relative" ->
  d_relative (q_deepen q') = d_relative (q_deepen q).
Proof using Type.
  assert (Hmap : forall {A} (f : A -> Req oid) x, sum_map f x = inl q' ->
    (forall y, d_relative (q_deepen (f y)) = d_relative (q_deepen q)) ->
    d_relative (q_deepen q') = d_relative (q_deepen q)).
  { intros A f [y|] Hx Hf; [|done]. injection Hx as <-. apply Hf. }
  unfold parse_arg. intros Hp Ha. repeat case_match; simplify_eq; try done;
    try (eapply Hmap; [exact Hp|by intros]).
  match goal with E : String.eqb a "deepen-relative" = true |- _ => by apply String.eqb_eq in E end.
Qed.

Lemma parse_args_relative refs args : forall q q', parse_args refs q args = inl q' -> "deepen-relative" ∉ args ->
  d_relative (q_deepen q') = d_relative (q_deepen q).
Proof using Type.
  induction args as [|a args IH]; intros q q'; cbn [parse_args]; [by intros [= <-]|].
  destruct (parse_arg refs q a) as [q1|] eqn:Ea; [|done]. intros Hp [Hn Ha]%not_elem_of_cons.
  rewrite (IH _ _ Hp Ha). by eapply parse_arg_relative.
Qed.

Lemma want_named_tips (refs : list (string * oid)) names wanted : want_named refs names = inl wanted ->
  forall w, w ∈ map snd wanted -> w ∈ map snd refs.
Proof using Type.
  revert wanted. induction names as [|name names IH]; intros wanted; cbn [want_named].
  { intros [= <-] w Hw. by apply not_elem_of_nil in Hw. }
  cbv zeta. destruct (ref_at refs _) as [o|] eqn:Eo; [|done]. destruct (want_named refs names) as [ws|]; [|done].
  intros [= <-] w [->|Hw]%elem_of_cons; [|by eapply IH].
  unfold ref_at in Eo. destruct (List.find _ refs) as [r|] eqn:Ef; [|done]. injection Eo as <-.
  apply List.find_some in Ef as [Hin _]. cbn [snd]. apply list_elem_of_In, in_map. exact Hin.
Qed.

(** C22: A fetch without [deepen-relative] serves only what the refs reach, in a database where no
    submodule entry names an object of its own and kinds are as the entries say ([kinded]): whatever
    the client wants, has or names, every object of the pack it gets is in the history of the refs
    listed for it or under it; an object that a force push left behind, though still in the database,
    is not.  Without the two conditions it fails ([FetchWitness.Plain.relative_deepen_leaks],
    [FetchWitness.Merged.filtered_sends_submodule]). *)
Theorem fetch_only_reachable odb refs args text objs :
  "deepen-relative" ∉ args ->
  fetch_with find simple count header commit_time fuel odb refs args = inl (text, Some (Done objs)) ->
  forall x, x ∈ objs -> has find (map snd refs) x.
Proof using laws counted kinds.
  intros Hargs. unfold fetch_with.
  intros (q & Hq & (u & _ & (wanted & Hwanted & (common & Hcommon & (ack & _ & Hf)%sbind_inl)%sbind_inl)%sbind_inl)%sbind_inl)%sbind_inl.
  destruct (negb ack.2); [done|].
  assert (Hp : exists t, fetch_pack find simple count header commit_time fuel refs q wanted
    (q_wants q ++ map snd wanted)%list common = inl (t, Some (Done objs))).
  { destruct (fetch_pack _ _ _ _ _ _ _ _ _ _ _) as [[t p]|[]]; try done. exists t. cbn in Hf.
    injection Hf as _ ->. done. }
  clear Hf. destruct Hp as [t Hf]. unfold fetch_pack in Hf.
  apply sbind_inl in Hf as ([] & Hgate & (shallow & Hshallow & (i & _ & (n & _ & (pack & Hpack & (h & _ & [= _ ->])%sbind_inl)%sbind_inl)%sbind_inl)%sbind_inl)%sbind_inl).
  assert (Hw := gate_has _ _ Hgate).
  apply (pack_has (map snd refs) refs q _ common shallow objs eq_refl Hw); [|exact Hpack].
  intros s ->. destruct (_ || _); [|done]. destruct (stop_of _) as [s'|] eqn:Es; [|done].
  injection Hshallow as ->. apply stop_of_inl in Es. eapply shallow_has; [exact Hw| |exact Es].
  by rewrite (parse_args_relative _ _ _ _ Hq Hargs).
Qed.
End fetch.
