(* ===== verification/FilterSafe.v ===== *)
(** * FilterSafe: a filtered pack misses nothing the filter keeps

    [filtered_objects] walks each commit's tree against its first parent's and skips what is the
    same on both sides.  Where each commit is listed before its first parent, as a history without
    merges is, that is sound ([filtered_complete]): the stack takes the parent's tree first.
    [FetchWitness] has a listing of another order from which a file is missing. *)

From S2P Require Import Prelude Text Names Prog Commits Refs Walks Fetch.
Local Open Scope string_scope.
Local Open Scope Z_scope.

Section filter.
Context {oid : Type} `{Countable oid} `{Hex oid}.
Variable find : oid -> object oid + find_error.
Variable header : oid -> option Z.
Variable filter : Filter.

(** [b] stands in tree [a], a submodule's commit included. *)
Definition entry (a b : oid) : Prop := exists entries name k,
  find a = inl (OTree entries) /\ (name, b, k) ∈ entries.

Definition tree_at (x : oid) : Prop := exists entries, find x = inl (OTree entries).

(** An entry is a tree exactly if its mode says so. *)
Definition modes_right : Prop := forall a entries name b k,
  find a = inl (OTree entries) -> (name, b, k) ∈ entries -> is_tree k = true <-> tree_at b.
Hypothesis modes : modes_right.

Variable have : gset oid.
(** What a client with the commits [have] holds of their trees. *)
Definition held (x : oid) : Prop := exists h tree ps,
  h ∈ have /\ find h = inl (OCommit tree ps) /\ rtc entry tree x.

Definition cov (seen : gset oid) (x : oid) : Prop := x ∈ seen \/ held x.
Definition full (seen : gset oid) (b : oid) : Prop := forall x, rtc entry b x -> cov seen x.

(** What is in a seen tree is seen, held, or still on the stack, whose bases are covered. *)
Record stack_ok (seg : list (oid * option oid)) (seen : gset oid) : Prop := {
  stack_entries : forall t x, t ∈ seen -> entry t x -> cov seen x \/ exists b, (x, b) ∈ seg;
  stack_bases : forall x b, (x, Some b) ∈ seg -> full seen b;
}.

(** What was seen goes out, but for the files the filter drops. *)
Definition out_ok (seen : gset oid) (out : list oid) : Prop := forall x, x ∈ seen ->
  x ∈ out \/ ~ tree_at x /\ keep_blob header x filter = false.

Lemma cov_mono seen seen' x : seen ⊆ seen' -> cov seen x -> cov seen' x.
Proof using Type. intros Hs [Hx|Hx]; [left; by apply Hs|by right]. Qed.

Lemma full_mono seen seen' b : seen ⊆ seen' -> full seen b -> full seen' b.
Proof using Type. intros Hs Hb x Hx. by eapply cov_mono, Hb. Qed.

Lemma full_entry seen b x : full seen b -> entry b x -> full seen x.
Proof using Type. intros Hb Hx y Hy. apply Hb. by eapply rtc_l. Qed.

Lemma held_entry x y : held x -> entry x y -> held y.
Proof using Type. intros (h & tree & ps & Hh & Hf & Hx) Hy. exists h, tree, ps. repeat split; [done..|]. by eapply rtc_r. Qed.

Lemma closed_full seen x : stack_ok [] seen -> cov seen x -> full seen x.
Proof using Type.
  intros Hc Hx y Hy. revert Hx. induction Hy as [x|x z y Hxz _ IH]; intros Hx; [done|]. apply IH.
  destruct Hx as [Hx|Hx]; [|right; by eapply held_entry].
  destruct (stack_entries _ _ Hc x z Hx Hxz) as [Hz|[b Hb]]; [done|by apply not_elem_of_nil in Hb].
Qed.

(** *** One tree's entries *)
Lemma base_entry_in (base : list (string * oid * entry_kind)) name x : base_entry base name = Some x -> exists k, (name, x, k) ∈ base.
Proof using Type.
  unfold base_entry. destruct (List.find _ _) as [[[n y] k]|] eqn:Ef; [|done]. intros [= <-].
  apply List.find_some in Ef as [Hin Hn]. apply String.eqb_eq in Hn. cbn in Hn. subst n.
  apply in_rev in Hin. exists k. by apply list_elem_of_In.
Qed.

Lemma new_later (new : list (oid * option oid)) (base entries : list (string * oid * entry_kind)) e :
  (forall x b, (x, b) ∈ new -> exists name k, b = base_entry base name /\ (name, x, k) ∈ entries) ->
  forall x b, (x, b) ∈ new -> exists name k, b = base_entry base name /\ (name, x, k) ∈ e :: entries.
Proof using Type. intros Hn x b Hx. destruct (Hn x b Hx) as (n & k & Hb & Hin). exists n, k. split; [done|by right]. Qed.

Lemma walk_entries_spec id all_entries entries (base : list (string * oid * entry_kind)) : forall trees seen out,
  find id = inl (OTree all_entries) -> (forall e, e ∈ entries -> e ∈ all_entries) ->
  let '(trees', seen', out') := walk_entries header entries base filter trees seen out in
  exists new, trees' = (new ++ trees)%list /\
    (List.length new <= List.length entries)%nat /\
    (forall x b, (x, b) ∈ new -> exists name k, b = base_entry base name /\ (name, x, k) ∈ entries) /\
    seen ⊆ seen' /\
    (forall x, x ∈ seen' -> x ∈ seen \/ ~ tree_at x) /\
    (forall name x k, (name, x, k) ∈ entries ->
      (exists b, (x, b) ∈ new) \/ x ∈ seen' \/ base_entry base name = Some x) /\
    (out_ok seen out -> out_ok seen' out').
Proof using modes.
  intros trees seen out Hid. revert trees seen out.
  induction entries as [|[[name x] k] entries IH]; intros trees seen out Hsub; cbn [walk_entries].
  { exists []. split; [done|]. split; [done|]. split; [intros ? ? Hn; by apply not_elem_of_nil in Hn|].
    split; [done|]. split; [by left|]. split; [intros ? ? ? Hn; by apply not_elem_of_nil in Hn|done]. }
  assert (Hsub' : forall e, e ∈ entries -> e ∈ all_entries) by (intros e He; apply Hsub; by right).
  assert (Hmode := modes id all_entries name x k Hid (Hsub _ ltac:(left))).
  destruct (is_tree k) eqn:Ek.
  - specialize (IH ((x, base_entry base name) :: trees) seen out Hsub').
    destruct (walk_entries _ _ _ _ _ _ _) as [[trees' seen'] out'].
    destruct IH as (new & -> & Hlen & Hnew & Hseen & Hadd & Heach & Hout).
    exists (new ++ [(x, base_entry base name)])%list. split; [by rewrite <- app_assoc|].
    split; [rewrite length_app; cbn; lia|].
    split.
    { intros y b [Hy|Hy%list_elem_of_singleton]%elem_of_app.
      - destruct (Hnew y b Hy) as (n & k' & Hb & Hin). exists n, k'. split; [done|by right].
      - injection Hy as -> ->. exists name, k. split; [done|left]. }
    split; [done|]. split; [done|]. split; [|done].
    intros n y k' [Heq|Hin]%elem_of_cons.
    + injection Heq as -> -> ->. left. eexists. apply elem_of_app. right. by apply list_elem_of_singleton.
    + destruct (Heach n y k' Hin) as [[b Hb]|Hr]; [left; exists b; apply elem_of_app; by left|by right].
  - assert (Hnt : ~ tree_at x) by (intros Ht; apply Hmode in Ht; congruence).
    destruct (negb _ && negb _) eqn:En.
    + apply andb_true_iff in En as [_ Hx%negb_true_iff%bool_decide_eq_false].
      specialize (IH trees ({[ x ]} ∪ seen) (if keep_blob header x filter then out ++ [x] else out)%list Hsub').
      destruct (walk_entries _ _ _ _ _ _ _) as [[trees' seen'] out'].
      destruct IH as (new & -> & Hlen & Hnew & Hseen & Hadd & Heach & Hout).
      exists new. split; [done|]. split; [cbn; lia|]. split; [by eapply new_later|]. split; [set_solver|].
      split; [intros y Hy; destruct (Hadd y Hy) as [[->%elem_of_singleton|Hs]%elem_of_union|Hs]; auto|].
      split.
      * intros n y k' [Heq|Hin]%elem_of_cons; [|eauto]. injection Heq as -> -> ->. right. left. set_solver.
      * intros Ho. apply Hout. intros y [->%elem_of_singleton|Hy]%elem_of_union.
        -- destruct (keep_blob header x filter) eqn:Eb; [left; apply elem_of_app; right; left|by right].
        -- destruct (Ho y Hy) as [Hyo|Hyo]; [left|by right].
           destruct (keep_blob header x filter); [apply elem_of_app; by left|done].
    + specialize (IH trees seen out Hsub'). destruct (walk_entries _ _ _ _ _ _ _) as [[trees' seen'] out'].
      destruct IH as (new & -> & Hlen & Hnew & Hseen & Hadd & Heach & Hout).
      exists new. split; [done|]. split; [cbn; lia|]. split; [by eapply new_later|].
      repeat (split; [done|]). split; [|done].
      intros n y k' [Heq|Hin]%elem_of_cons; [|eauto]. injection Heq as -> -> ->. right.
      apply andb_false_iff in En as [En|En]; apply negb_false_iff, bool_decide_eq_true in En; [by right|left; by apply Hseen].
Qed.

Lemma entry_of base b name x : find b = inl (OTree base) -> base_entry base name = Some x -> entry b x.
Proof using Type. intros Hb [k Hk]%base_entry_in. by exists base, name, k. Qed.

(** One tree, and then its subtrees. *)
Lemma stack_ok_step id b base entries new seg seen seen' :
  find id = inl (OTree entries) -> (forall b', b = Some b' -> find b' = inl (OTree base)) -> (b = None -> base = []) ->
  stack_ok ((id, b) :: seg) seen -> {[ id ]} ∪ seen ⊆ seen' ->
  (forall x b, (x, b) ∈ new -> exists name k, b = base_entry base name /\ (name, x, k) ∈ entries) ->
  (forall x, x ∈ seen' -> x ∈ {[ id ]} ∪ seen \/ ~ tree_at x) ->
  (forall name x k, (name, x, k) ∈ entries -> (exists b, (x, b) ∈ new) \/ x ∈ seen' \/ base_entry base name = Some x) ->
  stack_ok (new ++ seg) seen'.
Proof using modes header.
  intros Hid Hb Hnone Hst Hsub Hnew Hadd Heach.
  assert (Hsub1 : seen ⊆ seen') by set_solver. assert (Hids : id ∈ seen') by set_solver.
  assert (Hbase : forall name x, base_entry base name = Some x -> exists b', b = Some b' /\ entry b' x).
  { intros name x Hx. destruct b as [b'|]; [exists b'; split; [done|]; by eapply entry_of; [apply Hb|]|].
    rewrite Hnone in Hx by done. done. }
  assert (Hfull : forall b', b = Some b' -> full seen b') by (intros b' ->; apply (stack_bases _ _ Hst id); left).
  constructor.
  - intros t x Ht Htx. destruct (Hadd t Ht) as [[->%elem_of_singleton|Hs]%elem_of_union|Hn].
    + destruct Htx as (entries' & name & k & Hf & Hin). rewrite Hid in Hf. injection Hf as <-.
      destruct (Heach name x k Hin) as [[b' Hb']|[Hx|Hx]].
      * right. exists b'. apply elem_of_app. by left.
      * left. by left.
      * left. destruct (Hbase _ _ Hx) as (b' & -> & Hbx). eapply cov_mono; [exact Hsub1|].
        by apply (Hfull b' eq_refl), rtc_once.
    + destruct (stack_entries _ _ Hst t x Hs Htx) as [Hc|[b' Hb']]; [left; by eapply cov_mono|].
      apply elem_of_cons in Hb' as [Heq|Hb']; [injection Heq as -> ->; left; by left|].
      right. exists b'. apply elem_of_app. by right.
    + exfalso. apply Hn. destruct Htx as (entries' & name & k & Hf & _). by exists entries'.
  - intros x b' [Hx|Hx]%elem_of_app; (eapply full_mono; [exact Hsub1|]).
    + destruct (Hnew _ _ Hx) as (name & k & Heq & _). symmetry in Heq. destruct (Hbase _ _ Heq) as (b1 & -> & Hbx).
      by eapply full_entry; [apply Hfull|].
    + apply (stack_bases _ _ Hst x). by right.
Qed.

Lemma segment_done n : forall seg rest seen out objs,
  stack_ok seg seen -> out_ok seen out ->
  walk_trees find header n filter (seg ++ rest) seen out = Done objs ->
  exists n' seen' out', walk_trees find header n' filter rest seen' out' = Done objs /\
    seen ⊆ seen' /\ stack_ok [] seen' /\ out_ok seen' out' /\ forall x b, (x, b) ∈ seg -> cov seen' x.
Proof using modes.
  induction n as [|n IH]; intros seg rest seen out objs Hst Ho Hw; [done|].
  destruct seg as [|[id b] seg].
  { exists (S n), seen, out. repeat split; try done; [apply Hst..|]. intros x b Hx. by apply not_elem_of_nil in Hx. }
  cbn [app walk_trees] in Hw. destruct (bool_decide (b = Some id) || bool_decide (id ∈ seen)) eqn:Es.
  - assert (Hcov : cov seen id).
    { apply orb_true_iff in Es as [Es|Es]; apply bool_decide_eq_true in Es; [subst b|by left].
      apply (stack_bases _ _ Hst id id); [left|done]. }
    assert (Hst' : stack_ok seg seen).
    { constructor; [|intros x b' Hx; apply (stack_bases _ _ Hst x); by right].
      intros t x Ht Htx. destruct (stack_entries _ _ Hst t x Ht Htx) as [Hc|[b' Hb']]; [by left|].
      apply elem_of_cons in Hb' as [Heq|Hb']; [injection Heq as -> _; by left|right; eauto]. }
    destruct (IH _ _ _ _ _ Hst' Ho Hw) as (n' & seen' & out' & Hr & Hsub & Hst2 & Ho2 & Hseg).
    exists n', seen', out'. repeat (split; [done|]). intros x b' [Heq|Hx]%elem_of_cons; [|eauto].
    injection Heq as -> _. by eapply cov_mono.
  - apply obind_done in Hw as (entries & He & (base & Hbase & Hw)%obind_done).
    unfold find_tree in He. destruct (find id) as [[]|] eqn:Ef; try done. injection He as ->.
    assert (Hb : forall b', b = Some b' -> find b' = inl (OTree base)).
    { intros b' ->. unfold find_tree in Hbase. by destruct (find b') as [[]|]; simplify_eq. }
    assert (Hnone : b = None -> base = []) by (intros ->; by injection Hbase as <-).
    pose proof (walk_entries_spec id entries entries base (seg ++ rest)%list ({[ id ]} ∪ seen) (out ++ [id])%list Ef
      (fun e He => He)) as Hspec.
    destruct (walk_entries _ _ _ _ _ _ _) as [[trees' seen1] out1].
    destruct Hspec as (new & -> & _ & Hnew & Hsub1 & Hadd & Heach & Hout). rewrite app_assoc in Hw.
    apply IH in Hw as (n' & seen' & out' & Hr & Hsub & Hst2 & Ho2 & Hseg).
    + exists n', seen', out'. split; [done|]. split; [set_solver|]. split; [done|]. split; [done|].
      intros x b' [Heq|Hx]%elem_of_cons; [injection Heq as -> _; left; set_solver|].
      apply (Hseg x b'), elem_of_app. by right.
    + by eapply stack_ok_step.
    + apply Hout. intros x [->%elem_of_singleton|Hx]%elem_of_union; [left; apply elem_of_app; right; left|].
      destruct (Ho x Hx) as [Hxo|Hxo]; [left; apply elem_of_app; by left|by right].
Qed.

(** *** The commits *)
Definition pair_of (sending : gset oid) (c : oid) : option (oid * option oid) :=
  match find c with
  | inl (OCommit tree parents) => Some (tree, base_tree find have sending parents)
  | _ => None
  end.

Lemma start_trees_spec sending commits : forall trees seen out res,
  filter <> NoTrees -> NoDup commits -> (forall c, c ∈ commits -> c ∉ seen) ->
  start_trees find commits have sending filter trees seen out = Done res ->
  res = ((List.rev (omap (pair_of sending) commits) ++ trees)%list, list_to_set commits ∪ seen, (out ++ commits)%list).
Proof using modes header.
  induction commits as [|c commits IH]; intros trees seen out res Hf Hnd Hns; cbn [start_trees].
  { intros [= <-]. cbn. rewrite app_nil_r. do 2 f_equal. set_solver. }
  apply NoDup_cons in Hnd as [Hc Hnd].
  rewrite bool_decide_false by (apply Hns; left). rewrite bool_decide_false by done.
  intros (o & Ho & Hrest)%obind_done. destruct (find c) as [o'|] eqn:Ef; [|done]. cbn in Ho. injection Ho as ->.
  apply IH in Hrest as ->; [|done|done|].
  - assert (Hset : list_to_set commits ∪ ({[ c ]} ∪ seen) = list_to_set (c :: commits) ∪ seen) by set_solver.
    rewrite Hset, <- app_assoc. f_equal. f_equal.
    assert (Hp : pair_of sending c = match o with
      | OCommit tree parents => Some (tree, base_tree find have sending parents) | _ => None end)
      by (unfold pair_of; by rewrite Ef).
    cbn [omap list_omap]. rewrite Hp. destruct o; cbn [List.rev]; rewrite <- ?app_assoc; done.
  - intros d Hd [->%elem_of_singleton|Hs]%elem_of_union; [done|]. apply (Hns d); [by right|done].
Qed.

(** Each commit's first parent, if it is sent too, is listed after it. *)
Definition parents_later (commits : list oid) : Prop := forall l1 c l2 p ps,
  commits = (l1 ++ c :: l2)%list -> parents_of find c = Some (p :: ps) -> p ∈ commits -> p ∈ l2.

(** The stack holds the listed commits, the last on top; those taken from it are done. *)
Lemma listed_done sending done_ : forall commits n seen out objs,
  (forall p, p ∈ sending -> p ∈ (commits ++ done_)%list) ->
  parents_later (commits ++ done_) ->
  stack_ok [] seen -> out_ok seen out ->
  (forall c tree ps, c ∈ done_ -> find c = inl (OCommit tree ps) -> cov seen tree) ->
  walk_trees find header n filter (List.rev (omap (pair_of sending) commits)) seen out = Done objs ->
  exists seen', stack_ok [] seen' /\ out_ok seen' objs /\
    forall c tree ps, c ∈ (commits ++ done_)%list -> find c = inl (OCommit tree ps) -> cov seen' tree.
Proof using modes.
  intros commits. revert done_. induction commits as [|c commits IH] using rev_ind;
    intros done_ n seen out objs Hsend Hlater Hst Ho Hdone Hw.
  { destruct n; [done|]. injection Hw as <-. by exists seen. }
  rewrite omap_app, rev_app_distr in Hw.
  assert (Hseg : exists seg, List.rev (omap (pair_of sending) [c]) = seg /\
    (forall x b, (x, b) ∈ seg -> Some (x, b) = pair_of sending c) /\
    forall x, pair_of sending c = Some x -> x ∈ seg).
  { eexists. split; [reflexivity|]. cbn [omap list_omap]. destruct (pair_of sending c) as [pr|]; cbn; split.
    - intros x b ->%list_elem_of_singleton. done.
    - intros x [= <-]. left.
    - intros x b Hx. by apply not_elem_of_nil in Hx.
    - done. }
  destruct Hseg as (seg & Heq & Hseg1 & Hseg2). rewrite Heq in Hw.
  apply segment_done in Hw as (n' & seen' & out' & Hw & Hsub & Hst' & Ho' & Hcov); [| |done].
  - apply (IH (c :: done_)) in Hw as (seen2 & H1 & H2 & H3).
    + exists seen2. split; [done|]. split; [done|]. rewrite <- app_assoc. exact H3.
    + intros p Hp. specialize (Hsend p Hp). by rewrite <- app_assoc in Hsend.
    + by rewrite <- app_assoc in Hlater.
    + done.
    + done.
    + intros d tree ps [->|Hd]%elem_of_cons Hf; [|eapply cov_mono; [exact Hsub|eauto]].
      apply (Hcov tree (base_tree find have sending ps)), Hseg2. unfold pair_of. by rewrite Hf.
  - constructor; [intros t x Ht Htx; destruct (stack_entries _ _ Hst t x Ht Htx) as [|[b Hb]];
      [by left|by apply not_elem_of_nil in Hb]|].
    intros x b Hx. apply Hseg1 in Hx. unfold pair_of in Hx.
    destruct (find c) as [[tree ps| | |]|] eqn:Ef; try done. injection Hx as -> Hbase.
    unfold base_tree in Hbase. destruct ps as [|p ps]; [done|].
    destruct (bool_decide (p ∈ have) || bool_decide (p ∈ sending)) eqn:Ep; [|done].
    destruct (find p) as [[ptree pps| | |]|] eqn:Efp; try done. injection Hbase as ->.
    apply closed_full; [done|]. apply orb_true_iff in Ep as [Ep|Ep]; apply bool_decide_eq_true in Ep.
    + right. exists p, ptree, pps. by repeat split.
    + assert (Hp : p ∈ ((commits ++ [c]) ++ done_)%list) by auto.
      assert (Hpd : p ∈ done_).
      { rewrite <- app_assoc in Hlater, Hp. eapply (Hlater commits c done_ p ps); [done| |done].
        unfold parents_of. by rewrite Ef. }
      by eapply Hdone.
Qed.

(** The commits apart, whose parts are not entries, nothing seen at the start is a tree. *)
Lemma start_ok commits : (forall c, c ∈ commits -> ~ tree_at c) ->
  stack_ok [] (list_to_set commits ∪ ∅) /\ out_ok (list_to_set commits ∪ ∅) commits.
Proof using Type.
  intros Hc. split.
  - constructor; [|intros x b Hx; by apply not_elem_of_nil in Hx].
    intros t x Ht (entries & name & k & Hf & _). exfalso.
    apply elem_of_union in Ht as [Ht%elem_of_list_to_set|Ht]; [|by apply not_elem_of_empty in Ht].
    apply (Hc t Ht). by exists entries.
  - intros x [Hx%elem_of_list_to_set|Hx]%elem_of_union; [by left|by apply not_elem_of_empty in Hx].
Qed.

(** *** The walk ends *)
Definition entries_of (x : oid) : nat :=
  match find x with inl (OTree entries) => List.length entries | _ => 0%nat end.

Lemma walk_trees_ends universe : (forall x y, x ∈ universe -> entry x y -> y ∈ universe) ->
  forall n trees seen out, (forall x b, (x, b) ∈ trees -> x ∈ universe) ->
  (List.length trees + set_weight entries_of (universe ∖ seen) < n)%nat ->
  walk_trees find header n filter trees seen out <> OutOfFuel.
Proof using modes.
  intros Hclosed. induction n as [|n IH]; intros trees seen out Htrees Hn; [lia|]. cbn [walk_trees].
  destruct trees as [|[id b] trees]; [done|]. cbn [List.length] in Hn.
  assert (Htrees' : forall x b, (x, b) ∈ trees -> x ∈ universe) by (intros x b' Hx; apply (Htrees x b'); by right).
  destruct (bool_decide (b = Some id) || bool_decide (id ∈ seen)) eqn:Es; [apply IH; [done|lia]|].
  apply orb_false_iff in Es as [_ Hid%bool_decide_eq_false].
  assert (Hu : id ∈ universe ∖ seen) by (apply elem_of_difference; split; [by eapply Htrees; left|done]).
  rewrite (set_weight_remove _ _ id Hu) in Hn.
  unfold find_tree at 1. destruct (find id) as [[|entries| |]|] eqn:Ef; cbn [obind]; try done.
  assert (Hbase : forall b, find_tree find b <> OutOfFuel) by (intros b'; unfold find_tree; by destruct (find b') as [[]|]).
  destruct (match b with Some b => find_tree find b | None => Done [] end) as [base| |] eqn:Eb; cbn [obind];
    [|done|by destruct b as [b|]; [destruct (Hbase b)|]].
  pose proof (walk_entries_spec id entries entries base trees ({[ id ]} ∪ seen) (out ++ [id])%list Ef
    (fun e He => He)) as Hspec.
  destruct (walk_entries _ _ _ _ _ _ _) as [[trees' seen1] out1].
  destruct Hspec as (new & -> & Hlen & Hnew & Hsub & _). apply IH.
  - intros x b' [Hx|Hx]%elem_of_app; [|by eapply Htrees'].
    destruct (Hnew x b' Hx) as (name & k & _ & Hin). apply (Hclosed id); [by apply elem_of_difference in Hu as [Hu _]|].
    by exists entries, name, k.
  - rewrite length_app. assert (Hle : (set_weight entries_of (universe ∖ seen1) <= set_weight entries_of (universe ∖ seen ∖ {[ id ]}))%nat).
    { apply set_weight_mono. intros x Hx. apply elem_of_difference in Hx as [Hxu Hxs].
      apply elem_of_difference. split; [apply elem_of_difference; split; [done|]|]; intros Hin; apply Hxs, Hsub, elem_of_union; [by right|by left]. }
    unfold entries_of at 1 in Hn. rewrite Ef in Hn. lia.
Qed.

(** C38: A filtered pack misses nothing the filter keeps, for every filter but the one that keeps no
    trees: in a database whose tree entries have the mode of what they name, and for commits listed
    once each and each before its first parent, every tree under a listed commit, and every file the
    filter keeps, is in the pack or under a commit the client has; and the walk ends, within as many
    steps as there are trees and entries.  In another order it misses files
    ([FetchWitness.Merged.filtered_misses_file]). *)
Theorem filtered_complete universe fuel commits :
  filter <> NoTrees -> NoDup commits -> parents_later commits -> (forall c, c ∈ commits -> ~ tree_at c) ->
  (forall x y, x ∈ universe -> entry x y -> y ∈ universe) ->
  (forall c tree ps, c ∈ commits -> find c = inl (OCommit tree ps) -> tree ∈ universe) ->
  (List.length commits + set_weight entries_of universe < fuel)%nat ->
  match filtered_objects find header fuel commits have filter with
  | Done objs => forall c tree ps x, c ∈ commits -> find c = inl (OCommit tree ps) -> rtc entry tree x ->
      tree_at x \/ keep_blob header x filter = true -> x ∈ objs \/ held x
  | Fails _ => True
  | OutOfFuel => False
  end.
Proof using modes.
  intros Hf Hnd Hlater Hnt Hclosed Htrees Hfuel. unfold filtered_objects.
  assert (Hs : forall cs trees seen out, start_trees find cs have (list_to_set commits) filter trees seen out <> OutOfFuel).
  { clear -find. induction cs as [|c cs IH]; intros trees seen out; cbn [start_trees]; [done|].
    destruct (bool_decide _); [apply IH|]. destruct (bool_decide _); [apply IH|]. destruct (find c); [apply IH|done]. }
  destruct (start_trees _ _ _ _ _ _ _ _) as [[[trees seen] out]| |] eqn:Est; cbn [obind]; [|done|by apply Hs in Est].
  apply start_trees_spec in Est; [|done|done|intros c _ Hc; by apply not_elem_of_empty in Hc].
  injection Est as -> -> ->. rewrite app_nil_r. cbn [app].
  destruct (walk_trees _ _ _ _ _ _ _) as [objs| |] eqn:Ew; [|done|].
  - destruct (start_ok commits Hnt) as [Hst Hout].
    assert (Hsend : forall p, p ∈ (list_to_set commits : gset oid) -> p ∈ (commits ++ [])%list)
      by (intros p Hp; rewrite app_nil_r; by apply elem_of_list_to_set in Hp).
    assert (Hl : parents_later (commits ++ [])) by (by rewrite app_nil_r).
    destruct (listed_done (list_to_set commits) [] commits fuel _ _ objs Hsend Hl Hst Hout) as (seen' & Hst' & Ho' & Hall);
      [intros c tree ps Hc; by apply not_elem_of_nil in Hc|exact Ew|]. rewrite app_nil_r in Hall. intros c tree ps x Hc Hfc Hx Hkeep.
    destruct (closed_full seen' tree Hst' (Hall c tree ps Hc Hfc) x Hx) as [Hxs|Hxh]; [|by right].
    destruct (Ho' x Hxs) as [Hxo|[Hn Hk]]; [by left|]. destruct Hkeep as [Ht|Ht]; [done|congruence].
  - revert Ew. apply (walk_trees_ends universe Hclosed).
    + intros x b Hx. apply list_elem_of_In, in_rev, list_elem_of_In, list_elem_of_omap in Hx as (c & Hc & Hp).
      unfold pair_of in Hp. destruct (find c) as [[tree ps| | |]|] eqn:Ef; try done. injection Hp as -> _. by eapply Htrees.
    + rewrite length_rev. assert (Hlen : forall l, (List.length (omap (pair_of (list_to_set commits)) l) <= List.length l)%nat).
      { clear. induction l as [|c l IH]; cbn; [done|]. destruct (pair_of _ c); cbn; lia. }
      specialize (Hlen commits).
      assert (Hle : (set_weight entries_of (universe ∖ (list_to_set commits ∪ ∅)) <= set_weight entries_of universe)%nat)
        by (apply set_weight_mono; intros z [Hz _]%elem_of_difference; exact Hz). lia.
Qed.
End filter.
