(* ===== verification/FetchWitness.v ===== *)
(** * FetchWitness: repositories in memory

    A row store on which ref updates and pushes run, and fetches from it.  The theorems of [FetchSafe] and [FilterSafe] at concrete fetches of the sample history, and what
    happens outside their hypotheses: a client that deepens from a boundary it names itself, a
    submodule's commit that is in the database, a listing in which a parent comes before its child. *)

From S2P Require Import Prelude Text Names Prog Ownership Pktline Commits Refs RefsSafe Walks Receive ReceiveSafe Fetch FetchSafe FilterSafe.
Local Open Scope string_scope.
Local Open Scope Z_scope.

(** * A row store in memory, and ref updates run on it *)

Import Sample.

(** Forty digits for each hash of the sample history. *)
Definition hash_digit (h : hash) : ascii :=
  match h with K0 => "0" | K1 => "1" | K2 => "2" | K3 => "3" | Tree0 => "a" | Blob0 => "b" | Gone => "f" end%char.
Fixpoint repeat_char (n : nat) (c : ascii) : string :=
  match n with O => "" | S n => String c (repeat_char n c) end.
Definition hash_hex (h : hash) : string := repeat_char 40 (hash_digit h).
Definition hash_from (s : string) : option hash :=
  List.find (fun h => String.eqb (hash_hex h) s) [K0; K1; K2; K3; Tree0; Blob0; Gone].

#[export] Instance hash_is_hex : Hex hash.
Proof.
  refine {| to_hex := hash_hex; from_hex := hash_from |}.
  - intros []; reflexivity.
  - intros []; split; reflexivity.
Defined.

(** ** The row store *)
Abbreviation store := (gmap repo_id rows).
Definition tbl (s : store) (r : repo_id) : rows := default ∅ (s !! r).

Definition local (X : Type) (e : row_eff X) (s : store) : X * store :=
  match e in row_eff X return X * store with
  | DExists r => (Ok (is_some (s !! r)), s)
  | DGet r k => (Ok (tbl s r !! k), s)
  | DWrite r ws => (Ok tt, <[r := put_rows (tbl s r) ws]> s)
  | DScan r p => (Ok (List.filter (fun kv => starts_with p kv.1) (map_to_list (tbl s r))), s)
  | DBegin r => (Ok (mkTxn r (tbl s r) [] []), s)
  | DTxGet t k =>
    (Ok (put_rows (t_snapshot t) (t_writes t) !! k, mkTxn (t_repo t) (t_snapshot t) (k :: t_reads t) (t_writes t)), s)
  | DCommit t =>
    if all (fun k => bool_decide (tbl s (t_repo t) !! k = t_snapshot t !! k)) (t_reads t)
    then (Committed, <[t_repo t := put_rows (tbl s (t_repo t)) (t_writes t)]> s)
    else (Conflict "changed since", s)
  | DUpload _ _ => (Ok tt, s)
  | DCall _ => (Ok tt, s)
  end.

Definition local_sem (X : Type) (e : row_eff X) (s : store) (x : X) (s' : store) : Prop := local X e s = (x, s').

Lemma local_wrote r ws s : wrote tbl r ws s (<[r := put_rows (tbl s r) ws]> s).
Proof.
  split; unfold tbl.
  - by rewrite lookup_insert_eq.
  - intros r' Hr. by rewrite lookup_insert_ne.
Qed.

Lemma local_laws : RowLaws tbl (fun _ _ _ => True) local_sem.
Proof.
  constructor; unfold local_sem; cbn [local].
  - intros r s x s' [= <- <-]. by intros r'.
  - intros r pack s x s' [= <- <-]. split; [by intros r'|done].
  - intros c s x s' [= <- <-]. by intros r'.
  - intros r k s x s' [= <- <-]. split; [by intros r'|]. by intros v [= <-].
  - intros r p s x s' [= <- <-]. split; [by intros r'|]. intros kvs [= <-] k v.
    rewrite list_elem_of_In, filter_In, <- list_elem_of_In, elem_of_map_to_list. cbn [fst]. tauto.
  - intros r ws s x s' [= <- <-]. left. apply local_wrote.
  - intros r s x s' [= <- <-]. split; [by intros r'|]. by intros t [= <-].
  - intros t k s x s' [= <- <-]. split; [by intros r'|]. by intros v t' [= <- <-].
  - intros t s x s'. destruct (all _ _) eqn:E; intros [= <- <-].
    + left. split; [|split; [apply local_wrote|done]].
      intros k Hk. rewrite all_spec in E. by apply E, bool_decide_eq_true in Hk.
    + right. split; [by intros r'|done].
Qed.

(** A run alone. *)
Fixpoint run_log {A} (p : P A) (s : store) : list (store * store) * A :=
  match p with
  | Ret a => ([], a)
  | Vis X e k => let res := local X e s in let rest := run_log (k res.1) res.2 in ((s, res.2) :: rest.1, rest.2)
  end.

Lemma run_steps {A} (p : P A) s : steps local_sem p (run_log p s).1 (run_log p s).2.
Proof.
  revert s. induction p as [a|X e k IH]; intros s; simpl; [done|].
  exists s, (local X e s).1, (local X e s).2, (run_log (k (local X e s).1) (local X e s).2).1.
  repeat split; [unfold local_sem; by destruct (local X e s)|apply IH].
Qed.

(** ** A protected branch *)
Definition repo : repo_id := ("kloudlite", "web").
Definition main_rule : Protection := mkProtection "main" true true.
Definition start : store :=
  {[ repo := {[ ref_key repo "refs/heads/main" := hash_hex K1;
                protect_key repo "main" := Protections.encode main_rule ]} ]}.
Definition ff : RefUpdate hash := mkUpdate "refs/heads/main" (Some K1) (Some K2).
Definition rewrite_main : RefUpdate hash := mkUpdate "refs/heads/main" (Some K1) (Some K3).
Definition fresh : RefUpdate hash := mkUpdate "refs/heads/dev" None (Some K3).

(** The budget is a numeral too large to unfold. *)
Definition run_update (us : list (RefUpdate hash)) (s : store) := run_log (update_refs (Some walk) repo us) s.

Lemma some_walk w : Some walk = Some w -> WalkLaws find w.
Proof. intros [= <-]. apply sample_laws. Qed.

(** The fast-forward is applied with the branch beside it, the rewrite is refused with it. *)
Example ff_applied : (run_update [ff; fresh] start).2 = Ok [None; None].
Proof. vm_compute. reflexivity. Qed.

Example rewrite_refused :
  (run_update [rewrite_main; fresh] start).2 = Ok [Some "main is protected: force pushes are not allowed"; None].
Proof. vm_compute. reflexivity. Qed.

Lemma update_refs_atomic_witness :
  exists log, steps local_sem (update_refs (Some walk) repo [ff; fresh]) log (Ok [None; None]) /\
    ((exists rules, applied tbl repo (combine [ff; fresh] (batch_verdicts (Some walk) rules [ff; fresh])) log [None; None]) \/
     all_quiet tbl log /\ exists m, [None; None] = map (fun _ => Some ("conflict: " +:+ m)) [ff; fresh]).
Proof.
  exists (run_update [ff; fresh] start).1.
  assert (Hs : steps local_sem (update_refs (Some walk) repo [ff; fresh]) (run_update [ff; fresh] start).1 (Ok [None; None])).
  { rewrite <- ff_applied. exact (run_steps (update_refs (Some walk) repo [ff; fresh]) start). }
  split; [exact Hs|].
  exact (update_refs_atomic tbl _ local_sem local_laws (Some walk) repo _ _ _ Hs).
Defined.

(** The commit is the step that changed the branch. *)
Definition committed : store * store :=
  List.last (List.removelast (run_update [ff] start).1) (∅, ∅).

Lemma update_refs_permitted_witness :
  ~ quiet tbl committed.1 committed.2 /\
  exists s0 s0', (s0, s0') ∈ (run_update [ff] start).1 /\ forall u, u ∈ [ff] ->
    valid_ref_name (u_name u) = true /\
    forall branch p, branch_of (u_name u) = Some branch -> governs repo (tbl s0 repo) branch p -> permits find p u.
Proof.
  assert (Hn : ~ quiet tbl committed.1 committed.2).
  { intros Hq. specialize (Hq repo). apply (f_equal (fun T => T !! ref_key repo "refs/heads/main")) in Hq.
    vm_compute in Hq. discriminate Hq. }
  split; [exact Hn|].
  assert (Hs : steps local_sem (update_refs (Some walk) repo [ff]) (run_update [ff] start).1 (run_update [ff] start).2)
    by exact (run_steps (update_refs (Some walk) repo [ff]) start).
  eapply (update_refs_permitted tbl _ local_sem local_laws find (Some walk) some_walk repo _ _ _ _ _ Hs);
    [|exact Hn].
  assert (Hin : existsb (fun x => bool_decide (x = committed)) (run_update [ff] start).1 = true)
    by (vm_compute; reflexivity).
  apply List.existsb_exists in Hin as (x & Hin & Hx). apply bool_decide_eq_true in Hx as ->.
  apply list_elem_of_In in Hin. by destruct committed.
Defined.

(** ** A rule that hides another *)
Definition any_rule : Protection := mkProtection "*" true false.
Definition shadowed : store :=
  {[ repo := {[ ref_key repo "refs/heads/main" := hash_hex K1;
                protect_key repo "*" := Protections.encode any_rule;
                protect_key repo "main" := Protections.encode main_rule ]} ]}.
Definition delete_main : RefUpdate hash := mkUpdate "refs/heads/main" (Some K1) None.

(** Only the first matching rule is consulted: with a rule on every branch that permits deletion,
    the rule that keeps [main] from being deleted is not, and the deletion is applied. *)
Theorem shadowed_rule_deletes :
  rule_at repo (tbl shadowed repo) main_rule /\ Protections.matches main_rule "main" = true /\
  no_delete main_rule = true /\
  protection_verdict (Some walk) [main_rule] delete_main = Some "main is protected: it cannot be deleted" /\
  (run_update [delete_main] shadowed).2 = Ok [None].
Proof.
  repeat split; [|vm_compute; reflexivity..].
  exists (Protections.encode main_rule). split; vm_compute; reflexivity.
Qed.

(** * Pushes to a repository in memory *)

Import Sample.

(** What gix counts under an object. *)
Definition under (id : hash) : list hash :=
  match id with
  | K0 | K1 | K2 => [id; Tree0; Blob0]
  | Tree0 => [id; Blob0]
  | _ => [id]
  end.
Definition contents (ids : list hash) : list hash + find_error := inl (flat_map under ids).

Lemma sample_counts : CountLaws find contents.
Proof.
  intros ids counts x [= <-] Hx. apply list_elem_of_In, in_flat_map in Hx as (i & Hi & Hx).
  apply list_elem_of_In in Hi, Hx. exists i. split; [done|].
  assert (Ht : rtc (child find) Tree0 Blob0) by (apply rtc_once; left).
  assert (Hc : forall k, children find k = [Tree0] -> rtc (child find) k Blob0)
    by (intros k Hk; eapply rtc_l; [unfold child; rewrite Hk; left|done]).
  assert (Hd : forall k, children find k = [Tree0] -> rtc (child find) k Tree0)
    by (intros k Hk; apply rtc_once; unfold child; rewrite Hk; left).
  destruct i; cbn in Hx; repeat (apply elem_of_cons in Hx as [->|Hx]); try done;
    try (by apply not_elem_of_nil in Hx); auto.
Qed.

Definition one_pack (sent : list hash) (pack : string) : result (gset hash) := Ok (list_to_set sent).
Definition FUEL : nat := 50.
Definition push (sent : list hash) (us : list (RefUpdate hash)) :=
  apply find walk contents FUEL (Ok tt) (Ok true) (inl (Some "pack-1")) (one_pack sent) (Some walk) repo us.

Example push_one : (run_log (push [K2] [ff]) start).2 = inl [None].
Proof. vm_compute. reflexivity. Qed.

Example push_hole : (run_log (push [K3] [ff; fresh]) start).2 =
  inl [Some "missing necessary objects"; Some "missing necessary objects"].
Proof. vm_compute. reflexivity. Qed.

Lemma push_steps sent us : steps local_sem (push sent us) (run_log (push sent us) start).1 (run_log (push sent us) start).2.
Proof. exact (run_steps (push sent us) start). Qed.

(** The step that committed the update. *)
Definition moved : store * store := List.last (List.removelast (run_log (push [K2] [ff]) start).1) (∅, ∅).

Lemma moved_in : moved ∈ (run_log (push [K2] [ff]) start).1.
Proof.
  assert (Hin : existsb (fun x => bool_decide (x = moved)) (run_log (push [K2] [ff]) start).1 = true)
    by (vm_compute; reflexivity).
  apply List.existsb_exists in Hin as (x & Hin & Hx). apply bool_decide_eq_true in Hx as ->.
  by apply list_elem_of_In.
Qed.

Lemma moved_row : ~ quiet tbl moved.1 moved.2.
Proof.
  intros Hq. specialize (Hq repo). apply (f_equal (fun T => T !! ref_key repo "refs/heads/main")) in Hq.
  vm_compute in Hq. discriminate Hq.
Qed.

Lemma receive_connected_witness :
  exists before after (sent : gset hash) tips, (run_log (push [K2] [ff]) start).1 = (before ++ after)%list /\ (moved.1, moved.2) ∈ after /\
    (exists s0 s0', (s0, s0') ∈ before /\ old_refs repo (tbl s0 repo) tips) /\
    (sent = ∅ \/ exists pack s1 s1', one_pack [K2] pack = Ok sent /\ (s1, s1') ∈ before /\ True) /\
    forall u n, u ∈ [ff] -> u_new u = Some n -> forall x, has find [n] x -> x ∈ sent \/ has find tips x.
Proof.
  assert (Hin : (moved.1, moved.2) ∈ (run_log (push [K2] [ff]) start).1) by (rewrite <- surjective_pairing; exact moved_in).
  exact (receive_connected find walk contents sample_laws sample_counts tbl (fun _ _ _ => True) local_sem local_laws
    FUEL (Ok tt) (Ok true) (inl (Some "pack-1")) (one_pack [K2]) (Some walk) repo [ff] _ _ _ _
    (push_steps [K2] [ff]) Hin moved_row).
Defined.

Lemma receive_atomic_witness :
  exists log, steps local_sem (push [K2] [ff]) log (inl [None]) /\
    List.length [@None string] = List.length [ff] /\
    ((any is_some [@None string] = false /\
      exists rules, applied tbl repo (combine [ff] (batch_verdicts (Some walk) rules [ff])) log [None]) \/
     (all is_some [@None string] = true /\ all_quiet tbl log)).
Proof.
  exists (run_log (push [K2] [ff]) start).1.
  assert (Hs : steps local_sem (push [K2] [ff]) (run_log (push [K2] [ff]) start).1 (inl [None]))
    by (rewrite <- push_one; exact (push_steps [K2] [ff])).
  split; [exact Hs|].
  exact (receive_atomic find walk contents tbl (fun _ _ _ => True) local_sem local_laws
    FUEL (Ok tt) (Ok true) (inl (Some "pack-1")) (one_pack [K2]) (Some walk) repo [ff] _ _ Hs).
Defined.

Definition everything : gset hash := list_to_set [K0; K1; K2; K3; Tree0; Blob0; Gone].
Definition new_range : Range hash := mkRange [K2] [] [] [K1].

Lemma push_check_ends_witness :
  commit_range find walk FUEL [K2] [K1] = Done new_range /\
  explains find walk contents FUEL (mkKnown {[ K2 ]} ∅ ∅ ∅ None) new_range [K1] <> OutOfFuel.
Proof.
  split; [vm_compute; reflexivity|].
  apply (push_check_ends find walk contents [K1] FUEL) with (universe := everything).
  - intros t ->%list_elem_of_singleton. by apply tagged_here.
  - intros x _ c Hc. unfold everything. apply elem_of_list_to_set. destruct c; set_solver.
  - intros x Hx. unfold everything. apply elem_of_list_to_set. destruct x; set_solver.
  - assert (Hw : (weight find everything <= 20)%nat) by (vm_compute; lia). cbn [ids leaves new_range List.length app]. unfold FUEL. lia.
Defined.

(** * Fetches *)

(** ** The sample history *)
Module Plain.
Import Sample.

Definition count (e : expansion) (l : list hash) : list hash + find_error :=
  match e with AsIs => inl l | _ => contents l end.

Lemma plain_counts e : CountLaws find (count e).
Proof.
  destruct e; [|apply sample_counts..]. intros ids counts x [= <-] Hx. by exists x.
Qed.

(** Files are small. *)
Definition header (h : hash) : option Z := match h with Gone => None | _ => Some 100 end.
Definition time (h : hash) : option Z := None.

Lemma plain_kinds : kinded find header.
Proof.
  constructor.
  - intros a b Hab. right. unfold child, children in Hab.
    destruct a; cbn in Hab; try (by apply not_elem_of_nil in Hab);
      apply list_elem_of_singleton in Hab as ->; split; try done; intros t; done.
  - intros a entries name b Hf Hin. destruct a; try done. injection Hf as <-.
    apply list_elem_of_singleton in Hin. congruence.
Qed.

Definition refs : list (string * hash) := [("refs/heads/main", K2)].
Definition fetch_plain (args : list string) := fetch_with find walk count header time FUEL (Ok tt) refs args.
Definition clone : list string := ["want " +:+ hash_hex K2; "done"].

Definition clone_text : string :=
  match fetch_plain clone with inl (t, _) => t | inr _ => "" end.
Definition clone_pack : list hash := [K2; Tree0; Blob0; K1; Tree0; Blob0; K0; Tree0; Blob0].

Lemma fetch_only_reachable_witness :
  fetch_plain clone = inl (clone_text, Some (Done clone_pack)) /\
  forall x, x ∈ clone_pack -> has find (map snd refs) x.
Proof.
  assert (Hf : fetch_plain clone = inl (clone_text, Some (Done clone_pack))) by (vm_compute; reflexivity).
  split; [exact Hf|].
  refine (fetch_only_reachable find walk count header time FUEL sample_laws plain_counts plain_kinds
    (Ok tt) refs clone clone_text clone_pack _ Hf).
  apply (bool_decide_unpack _). vm_compute. exact I.
Defined.

(** [K3] was left behind by a force push: no ref reaches it, and naming it is refused. *)
Lemma k3_gone : ~ has find (map snd refs) K3.
Proof.
  intros (h & Hh & Hx).
  assert (Hhist : forall x, hist find [K2] x -> x = K2 \/ x = K1 \/ x = K0).
  { induction 1 as [x Hx'|x t _ [->|[->| ->]] Ht|x ps p _ [->|[->| ->]] Hps Hp]; try done.
    - apply list_elem_of_singleton in Hx'. auto.
    - injection Hps as <-. apply list_elem_of_singleton in Hp. auto.
    - injection Hps as <-. apply list_elem_of_singleton in Hp. auto.
    - injection Hps as <-. by apply not_elem_of_nil in Hp. }
  assert (Hunder : forall a b, rtc (child find) a b -> a <> K3 -> b <> K3).
  { induction 1 as [|a c b Hac _ IH]; [done|]. intros _. apply IH. intros ->. unfold child, children in Hac.
    destruct a; cbn in Hac; try (by apply not_elem_of_nil in Hac); by apply list_elem_of_singleton in Hac. }
  apply (Hunder h K3 Hx); [|done]. destruct (Hhist h Hh) as [->|[->| ->]]; done.
Qed.

Definition ask_k3 : list string := ["want " +:+ hash_hex K3; "done"].
Example k3_refused : exists t, fetch_plain ask_k3 = inr (Refused t).
Proof. eexists. vm_compute. reflexivity. Qed.

Definition deepen_k3 : list string :=
  ["want " +:+ hash_hex K2; "shallow " +:+ hash_hex K3; "deepen-relative"; "deepen 1"; "done"].

(** But a client that deepens relative to boundaries of its own is served from the boundaries it
    names, which nothing checks: it gets the object the refs no longer reach. *)
Theorem relative_deepen_leaks : ~ has find (map snd refs) K3 /\
  exists text objs, fetch_plain deepen_k3 = inl (text, Some (Done objs)) /\ K3 ∈ objs.
Proof.
  split; [exact k3_gone|]. eexists _, [K2; Tree0; Blob0; K3]. split; [vm_compute; reflexivity|].
  apply (bool_decide_unpack _). vm_compute. exact I.
Qed.

(** The ref wanted as [HEAD] is answered under another name. *)
Theorem head_answered_as_branch : want_named refs ["HEAD"] = inl [("refs/heads/main", K2)].
Proof. vm_compute. reflexivity. Qed.

(** A filtered clone. *)
Definition all_objects : gset hash := list_to_set [K0; K1; K2; K3; Tree0; Blob0; Gone].

Lemma plain_modes : modes_right find.
Proof.
  intros a entries name b k Hf Hin. destruct a; try done. injection Hf as <-.
  apply list_elem_of_singleton in Hin. injection Hin as -> -> ->. split; [done|]. by intros [es Hes].
Qed.

Lemma filtered_complete_witness :
  filtered_objects find header FUEL [K2; K1; K0] ∅ (BlobLimit 1000) = Done [K2; K1; K0; Tree0; Blob0] /\
  forall c tree ps x, c ∈ [K2; K1; K0] -> find c = inl (OCommit tree ps) -> rtc (entry find) tree x ->
    tree_at find x \/ keep_blob header x (BlobLimit 1000) = true -> x ∈ [K2; K1; K0; Tree0; Blob0] \/ held find ∅ x.
Proof.
  assert (Hf : filtered_objects find header FUEL [K2; K1; K0] ∅ (BlobLimit 1000) = Done [K2; K1; K0; Tree0; Blob0])
    by (vm_compute; reflexivity).
  split; [exact Hf|].
  assert (Hc := filtered_complete find header (BlobLimit 1000) plain_modes ∅ all_objects FUEL [K2; K1; K0]).
  rewrite Hf in Hc. apply Hc.
  - done.
  - apply (bool_decide_unpack _). vm_compute. exact I.
  - intros l1 c l2 p ps Hl Hp Hin.
    destruct l1 as [|a [|a' [|a'' l1]]]; cbn in Hl; injection Hl; intros; subst; cbn in Hp; try done.
    + injection Hp as <- <-. left.
    + injection Hp as <- <-. left.
    + by destruct l1.
  - intros c Hcin [es Hes]. repeat (apply elem_of_cons in Hcin as [->|Hcin]; [done|]). by apply not_elem_of_nil in Hcin.
  - intros x y _ _. unfold all_objects. apply elem_of_list_to_set. destruct y; set_solver.
  - intros c tree ps _ _. unfold all_objects. apply elem_of_list_to_set. destruct tree; set_solver.
  - assert (Hw : (set_weight (entries_of find) all_objects <= 10)%nat) by (vm_compute; lia). cbn [List.length]. unfold FUEL. lia.
Defined.
End Plain.

(** ** A merged branch that took back a change *)
Module Merged.

(** [M] merges [R] into [C]; [P], the commit before [R], changed file [g] of one directory and [R]
    changed it back.  [Sub] is a tree with a submodule, whose commit [Lost] is in the database. *)
Inductive obj := M | C | R | P | TreeC | TreeP | DirC | DirP | FileF | FileG | FileG' | Sub | Lost.
#[export] Instance obj_eq : EqDecision obj.
Proof. solve_decision. Defined.

Definition objs : list obj := [M; C; R; P; TreeC; TreeP; DirC; DirP; FileF; FileG; FileG'; Sub; Lost].
Definition obj_code (o : obj) : nat :=
  match o with M => 0 | C => 1 | R => 2 | P => 3 | TreeC => 4 | TreeP => 5 | DirC => 6 | DirP => 7 | FileF => 8
  | FileG => 9 | FileG' => 10 | Sub => 11 | Lost => 12 end%nat.
#[export] Instance obj_countable : Countable obj.
Proof. apply (inj_countable' obj_code (fun n => default M (objs !! n))). by intros []. Defined.

Definition find (o : obj) : object obj + find_error :=
  match o with
  | M => inl (OCommit TreeC [C; R])
  | R => inl (OCommit TreeC [P])
  | P => inl (OCommit TreeP [C])
  | C => inl (OCommit TreeC [])
  | TreeC => inl (OTree [("d", DirC, EntryTree)])
  | TreeP => inl (OTree [("d", DirP, EntryTree)])
  | DirC => inl (OTree [("f", FileF, EntryBlob); ("g", FileG, EntryBlob)])
  | DirP => inl (OTree [("f", FileF, EntryBlob); ("g", FileG', EntryBlob)])
  | Sub => inl (OTree [("lib", Lost, EntryCommit)])
  | Lost => inl (OCommit DirP [])
  | _ => inl OBlob
  end.
Definition header (o : obj) : option Z := Some 100.
Definition filtered (commits : list obj) : outcome (list obj) :=
  filtered_objects find header FUEL commits ∅ (BlobLimit 1000).

(** In the order of a breadth-first walk from the merge, its first parent comes before the branch:
    file [f], which every commit has and no filter drops, is in the pack of a new clone only if the
    commits are listed parents last. *)
Theorem filtered_misses_file :
  (exists out, filtered [M; C; R; P] = Done out /\ FileF ∉ out) /\
  rtc (entry find) TreeC FileF /\ keep_blob header FileF (BlobLimit 1000) = true /\
  exists out, filtered [M; R; P; C] = Done out /\ FileF ∈ out.
Proof.
  split; [|split; [|split; [reflexivity|]]].
  - eexists. split; [vm_compute; reflexivity|]. apply (bool_decide_unpack _). vm_compute. exact I.
  - eapply rtc_l; [|apply rtc_once].
    + exists [("d", DirC, EntryTree)], "d", EntryTree. split; [reflexivity|left].
    + exists [("f", FileF, EntryBlob); ("g", FileG, EntryBlob)], "f", EntryBlob. split; [reflexivity|left].
  - eexists. split; [vm_compute; reflexivity|]. apply (bool_decide_unpack _). vm_compute. exact I.
Qed.

(** A submodule's commit is nobody's to send, but the filtered walk takes it for a file and sends
    it where the database happens to hold it. *)
Theorem filtered_sends_submodule :
  walk_trees find header FUEL (BlobLimit 1000) [(Sub, None)] ∅ [] = Done [Sub; Lost] /\
  children find Sub = [].
Proof. split; vm_compute; reflexivity. Qed.
End Merged.
