(* ===== verification/Pulls.v ===== *)
(** * Pulls: pull requests, [crates/pulls/src/pulls] and [bins/server/src/browse_api/pulls.rs]

    A repository's changes are rows of its own database, beside its refs: [pull/<number>], the next
    number to hand out, and a mark that the rows the directory held have been copied in.  Whoever
    modifies a change holds the repository's pull lock from the read to the write; the rest is
    handlers over [modify], the mergeability check and the lanes.

    Rows are JSON ([PullCodec], serde's part).  Opening the database fails with the first request to
    it, as in [Refs]; the event stream takes an event or loses it. *)

From S2P Require Import Prelude Text Names Prog Commits Refs.
Local Open Scope string_scope.
Local Open Scope Z_scope.

(** ** Data, [model.rs] and [directory/mod.rs] *)
Inductive PullState := Open | Merged | Closed.
Inductive MergeState := Queued | Running | Conflicts | Failed.
Inductive MergeableState := Clean | Behind | Dirty | Unknown.

#[export] Instance PullState_eq_dec : EqDecision PullState.
Proof. solve_decision. Defined.
#[export] Instance MergeState_eq_dec : EqDecision MergeState.
Proof. solve_decision. Defined.
#[export] Instance MergeableState_eq_dec : EqDecision MergeableState.
Proof. solve_decision. Defined.

Record Comment := mkComment { c_author : string; c_body : string; at_ms : Z }.

Record MergeJob := mkMergeJob {
  job_state : MergeState;
  strategy : string;
  requested_by : string;
  requested_at_ms : Z;
  claimed_at_ms : option Z;
  claimed_by : option string;
  job_detail : option string;
  announced_at_ms : option Z;
}.

Record Mergeability := mkMergeability {
  m_state : MergeableState;
  base_oid : string;
  head_oid : string;
  checked_at_ms : Z;
  m_detail : option string;
  fast_forward : bool;
}.

Record PullRequest := mkPull {
  pr_id : string;
  pr_repo : string;
  number : Z;
  title : string;
  body : string;
  base : string;
  head : string;
  pr_state : PullState;
  author : string;
  pr_created_at_ms : Z;
  merged_at_ms : option Z;
  comments : list Comment;
  merge : option MergeJob;
  mergeability : option Mergeability;
  check_at_ms : option Z;
}.

Definition set_state (pr : PullRequest) (s : PullState) : PullRequest :=
  mkPull (pr_id pr) (pr_repo pr) (number pr) (title pr) (body pr) (base pr) (head pr) s (author pr)
    (pr_created_at_ms pr) (merged_at_ms pr) (comments pr) (merge pr) (mergeability pr) (check_at_ms pr).
Definition set_merged_at (pr : PullRequest) (t : option Z) : PullRequest :=
  mkPull (pr_id pr) (pr_repo pr) (number pr) (title pr) (body pr) (base pr) (head pr) (pr_state pr) (author pr)
    (pr_created_at_ms pr) t (comments pr) (merge pr) (mergeability pr) (check_at_ms pr).
Definition set_comments (pr : PullRequest) (cs : list Comment) : PullRequest :=
  mkPull (pr_id pr) (pr_repo pr) (number pr) (title pr) (body pr) (base pr) (head pr) (pr_state pr) (author pr)
    (pr_created_at_ms pr) (merged_at_ms pr) cs (merge pr) (mergeability pr) (check_at_ms pr).
Definition set_merge (pr : PullRequest) (m : option MergeJob) : PullRequest :=
  mkPull (pr_id pr) (pr_repo pr) (number pr) (title pr) (body pr) (base pr) (head pr) (pr_state pr) (author pr)
    (pr_created_at_ms pr) (merged_at_ms pr) (comments pr) m (mergeability pr) (check_at_ms pr).
Definition set_mergeability (pr : PullRequest) (m : option Mergeability) : PullRequest :=
  mkPull (pr_id pr) (pr_repo pr) (number pr) (title pr) (body pr) (base pr) (head pr) (pr_state pr) (author pr)
    (pr_created_at_ms pr) (merged_at_ms pr) (comments pr) (merge pr) m (check_at_ms pr).
Definition set_check_at (pr : PullRequest) (t : option Z) : PullRequest :=
  mkPull (pr_id pr) (pr_repo pr) (number pr) (title pr) (body pr) (base pr) (head pr) (pr_state pr) (author pr)
    (pr_created_at_ms pr) (merged_at_ms pr) (comments pr) (merge pr) (mergeability pr) t.

(** What serde does for a row.  [merge] is left out of a row without a job, and is a field of one
    with a job. *)
Definition MERGE_FIELD : string :=
  let q := String (ascii_of_N 0x22) "" in q +:+ "merge" +:+ q +:+ ":".

Class PullCodec := {
  encode_pull : PullRequest -> string;
  decode_pull : string -> option PullRequest;
  decode_encode_pull : forall pr, decode_pull (encode_pull pr) = Some pr;
  encode_merge_field : forall pr, is_some (merge pr) = true -> contains_str MERGE_FIELD (encode_pull pr) = true;
}.

Record Deep := mkDeep { d_number : Z; d_base : string; d_head : string }.

Inductive Checked :=
| Unchanged
| Answered
| DeepCheck (d : Deep).

(** ** The worker's side, [merge_worker.rs] *)
Record Job := mkJob {
  w_owner : string; w_name : string; w_number : Z; w_strategy : string;
  w_base : string; w_head : string; w_title : string; w_requested_by : string;
}.

Inductive OutcomeState := OMerged | OConflicts | ORefused.
#[export] Instance OutcomeState_eq_dec : EqDecision OutcomeState.
Proof. solve_decision. Defined.

Record Outcome := mkOutcome { o_state : OutcomeState; o_detail : option string; new_tip : option string }.

Record Verdict := mkVerdict {
  v_state : MergeableState; v_detail : option string; v_fast_forward : bool;
  v_base_oid : string; v_head_oid : string;
}.

(** ** Events, [crates/storage/src/events.rs] *)
Inductive EventKind := PullOpened | PullCommented | MergeRequested | PullMerged | PullClosed | HeadMoved.

Record Event := mkEvent {
  ev_kind : EventKind; ev_repo : string; ev_number : Z; ev_actor : string; ev_at_ms : Z;
  ev_title : string; ev_base : string; ev_head : string;
}.

(** ** Answers *)
Inductive Response :=
| Reply (code : Z) (text : string)
| ReplyPull (code : Z) (pr : PullRequest)
| ReplyJob (j : Job)
| ReplyDeep (l : list Deep)
| Internal (e : error).

Definition hidden : Response := Reply 404 "not found".

(** ** Keys *)

(** [{:08}]: the sign counts. *)
Fixpoint zeros (n : nat) : string := match n with O => "" | S n => String "0" (zeros n) end.
Definition pad8 (z : Z) : string :=
  let sign := if z <? 0 then "-" else "" in
  let digits := display (Z.abs z) in
  sign +:+ zeros (8 - (String.length sign + String.length digits)) +:+ digits.

Definition PULL_PREFIX : string := "pull/".
Definition pull_key (number : Z) : string := PULL_PREFIX +:+ pad8 number.
Definition NEXT_PULL_KEY : string := "meta/next_pull".
Definition MIGRATED_KEY : string := "meta/pulls_migrated".
Definition LISTING_LIMIT : nat := 500.

Definition i64_wrap (z : Z) : Z := (z + 2 ^ 63) mod 2 ^ 64 - 2 ^ 63.

Section pulls.
Context {oid : Type} `{EqDecision oid} `{Hex oid} `{PullCodec}.

Abbreviation walker := (list oid -> list oid -> list ((oid * list oid) + find_error)).

Inductive pull_eff : Type -> Type :=
| PRow X (e : row_eff X) : pull_eff X
| PLock (r : repo_id) : pull_eff unit
| PUnlock (r : repo_id) : pull_eff unit
| PNow : pull_eff Z
(** The directory's rows of a repository, newest first, at most so many. *)
| PFind (repo : string) (limit : nat) : pull_eff (result (list PullRequest))
| PPublish (ev : Event) : pull_eff unit
(** [Store::open_repo]: is there such a repository? *)
| POpenRepo (r : repo_id) : pull_eff (result bool)
| POdb (r : repo_id) : pull_eff (result walker).

Abbreviation PP := (prog pull_eff).

Definition row {A} (p : prog row_eff A) : PP A := lift PRow p.
Definition now_ms : PP Z := trigger PNow.

(** The guard is dropped on every way out. *)
Definition with_lock {A} (r : repo_id) (p : PP A) : PP A :=
  trigger (PLock r) ;;! let! a := p in trigger (PUnlock r) ;;! Ret a.

(** ** Rows, [model.rs] *)
Definition get (r : repo_id) (n : Z) : PP (result (option PullRequest)) :=
  let!? v := row (db_get r (pull_key n)) in
  Ret match v with
      | Some v => rmap Some (ok_or (decode_pull v) (EMsg "json"))
      | None => Ok None
      end.

Definition put (r : repo_id) (pr : PullRequest) : PP (result unit) :=
  row (db_put r (pull_key (number pr)) (encode_pull pr)).

Definition scan (r : repo_id) : PP (result (list (string * string))) := row (trigger (DScan r PULL_PREFIX)).

Fixpoint list_rows (kvs : list (string * string)) (out : list PullRequest) : result (list PullRequest) :=
  match kvs with
  | [] => Ok out
  | (_, v) :: kvs =>
    match decode_pull v with
    | None => Err (EMsg "json")
    | Some pr => list_rows kvs (out ++ [pr])%list
    end
  end.

Definition pulls_list (r : repo_id) : PP (result (list PullRequest)) :=
  let!? kvs := scan r in Ret (list_rows kvs []).

Fixpoint merge_rows (kvs : list (string * string)) (out : list PullRequest) : result (list PullRequest) :=
  match kvs with
  | [] => Ok out
  | (_, v) :: kvs =>
    if negb (contains_str MERGE_FIELD v) then merge_rows kvs out
    else match decode_pull v with
         | None => Err (EMsg "json")
         | Some pr => merge_rows kvs (if is_some (merge pr) then out ++ [pr] else out)%list
         end
  end.

Definition with_merge_jobs (r : repo_id) : PP (result (list PullRequest)) :=
  let!? kvs := scan r in Ret (merge_rows kvs []).

Fixpoint open_rows (limit : nat) (kvs : list (string * string)) (out : list PullRequest) : result (list PullRequest) :=
  if Nat.ltb (List.length out) limit then
    match kvs with
    | [] => Ok out
    | (_, v) :: kvs =>
      match decode_pull v with
      | None => Err (EMsg "json")
      | Some pr => open_rows limit kvs (if bool_decide (pr_state pr = Open) then out ++ [pr] else out)%list
      end
    end
  else Ok out.

Definition open_only (r : repo_id) (limit : nat) : PP (result (list PullRequest)) :=
  let!? kvs := scan r in Ret (open_rows limit kvs []).

Definition next_number (r : repo_id) : PP (result Z) :=
  with_lock r
    (let!? v := row (db_get r NEXT_PULL_KEY) in
     match match v with
           | Some v => ok_or (ok_parse (parse_i64 v)) (EMsg "bad meta/next_pull")
           | None => Ok 1
           end with
     | Err e => Ret (Err e)
     | Ok n =>
       let!? _ := row (db_put r NEXT_PULL_KEY (display_i (i64_wrap (n + 1)))) in
       Ret (Ok n)
     end).

(** ** Migration *)
Inductive Source := Absent | Directory | Unavailable.

Definition pulls_for (repo : string) : PP (result (list PullRequest)) := trigger (PFind repo LISTING_LIMIT).

Definition is_migrated (r : repo_id) : PP (result bool) :=
  let!? v := row (db_get r MIGRATED_KEY) in Ret (Ok (is_one v)).

Fixpoint put_rows (r : repo_id) (rows : list PullRequest) (next : Z) : PP (result Z) :=
  match rows with
  | [] => Ret (Ok next)
  | pr :: rows => let!? _ := put r pr in put_rows r rows (Z.max next (i64_wrap (number pr + 1)))
  end.

Definition migrate_locked (r : repo_id) (rows : PP (result (list PullRequest))) : PP (result unit) :=
  let!? done := is_migrated r in
  if (done : bool) then Ret (Ok tt)
  else
    let!? rows := rows in
    let!? next := put_rows r rows 1 in
    let!? v := row (db_get r NEXT_PULL_KEY) in
    let next := match v with
                | Some v => Z.max next (unwrap_or (ok_parse (parse_i64 v)) 1)
                | None => next
                end in
    let!? _ := row (db_put r NEXT_PULL_KEY (display_i next)) in
    row (db_put r MIGRATED_KEY "1").

Definition migrate_from (r : repo_id) (rows : PP (result (list PullRequest))) : PP (result unit) :=
  let!? done := is_migrated r in
  if (done : bool) then Ret (Ok tt) else with_lock r (migrate_locked r rows).

Definition source_rows (src : Source) (r : repo_id) : PP (result (list PullRequest)) :=
  match src with
  | Directory => pulls_for (r.1 +:+ "/" +:+ r.2)
  | Absent => Ret (Ok [])
  | Unavailable => Ret (Err (EMsg "directory configured but unreachable"))
  end.

Definition ensure_migrated (src : Source) (r : repo_id) : PP (result unit) := migrate_from r (source_rows src r).

(** ** Jobs, [jobs.rs] *)

(** [f] leaves the change alone with what its closure captured ([inr]), or gives what to write. *)
Definition modify {R} (r : repo_id) (n : Z) (f : PullRequest -> PP (PullRequest + R)) :
    PP (result (option (PullRequest + R))) :=
  with_lock r
    (let!? got := get r n in
     match got with
     | None => Ret (Ok None)
     | Some pr =>
       let! o := f pr in
       match o with
       | inr kept => Ret (Ok (Some (inr kept)))
       | inl pr => let!? _ := put r pr in Ret (Ok (Some (inl pr)))
       end
     end).

Definition takeable (pr : PullRequest) (now lease_ms : Z) : bool :=
  match merge pr with
  | Some j =>
    match job_state j with
    | Queued => true
    | Running => is_none_or (claimed_at_ms j) (fun t => lease_ms <? now - t)
    | _ => false
    end
  | None => false
  end.

Definition claimed (j : MergeJob) (now : Z) (me : string) : MergeJob :=
  mkMergeJob Running (strategy j) (requested_by j) (requested_at_ms j) (Some now) (Some me) (job_detail j)
    (announced_at_ms j).

Definition claim_merge_number (r : repo_id) (n lease_ms : Z) (me : string) : PP (result (option PullRequest)) :=
  let! now := now_ms in
  let!? done := modify r n (fun pr =>
    Ret (if negb (bool_decide (pr_state pr = Open)) || negb (takeable pr now lease_ms) then inr tt
         else inl (set_merge pr (option_map (fun j => claimed j now me) (merge pr))))) in
  Ret (Ok match done with Some (inl pr) => Some pr | _ => None end).

Definition ANNOUNCE_EVERY : Z := 30000.

Definition is_stranded (now lease_ms : Z) (pr : PullRequest) : bool :=
  if negb (bool_decide (pr_state pr = Open)) || negb (takeable pr now lease_ms) then false
  else match merge pr with
       | None => false
       | Some j => ANNOUNCE_EVERY <? now - unwrap_or (announced_at_ms j) (requested_at_ms j)
       end.

Definition stranded_merges (r : repo_id) (lease_ms : Z) : PP (result (list PullRequest)) :=
  let! now := now_ms in
  let!? prs := with_merge_jobs r in
  Ret (Ok (List.filter (is_stranded now lease_ms) prs)).

Definition announced (j : MergeJob) (now : Z) : MergeJob :=
  mkMergeJob (job_state j) (strategy j) (requested_by j) (requested_at_ms j) (claimed_at_ms j) (claimed_by j)
    (job_detail j) (Some now).

Definition mark_announced (r : repo_id) (n : Z) : PP (result unit) :=
  let!? _ := modify r n (fun pr =>
    match merge pr with
    | Some j => let! now := now_ms in Ret (inl (set_merge pr (Some (announced j now))))
    | None => Ret (inr tt)
    end) in
  Ret (Ok tt).

(** ** Mergeability, [check.rs] *)
Definition CHECK_LIMIT : nat := 25.
Definition SCAN_LIMIT : nat := CHECK_LIMIT * 20.
Definition BUDGET : nat := Z.to_nat 50000.

Definition hex (o : option oid) : string := unwrap_or (option_map to_hex o) "".

(** The state, whether the base can move to the head, the sentence, and whether the worker has to
    try. *)
Definition ancestry_verdict (pr : PullRequest) (b h : oid) (mb : MergeBase oid) :
    MergeableState * bool * option string * bool :=
  match mb with
  | Found m =>
    if bool_decide (m = b) then (Clean, true, None, false)
    else if bool_decide (m = h)
         then (Behind, false, Some ("this branch is already in " +:+ base pr), false)
         else (Unknown, false, Some "checking…", true)
  | Unrelated => (Dirty, false, Some "these branches share no history", false)
  | Exhausted => (Unknown, false, Some "checking…", true)
  end.

Definition record_check (r : repo_id) (n : Z) (m : Mergeability) (deep : bool) : PP (result Checked) :=
  with_lock r
    (let!? got := get r n in
     match got with
     | None => Ret (Ok Unchanged)
     | Some fresh =>
       let fresh := set_mergeability (set_check_at fresh (Some (checked_at_ms m))) (Some m) in
       let!? _ := put r fresh in
       Ret (Ok (if deep then DeepCheck (mkDeep n (base fresh) (head fresh)) else Answered))
     end).

Definition check_with (r : repo_id) (n : Z) : PP (result Checked) :=
  let!? got := get r n in
  match got with
  | None => Ret (Ok Unchanged)
  | Some pr =>
    if negb (bool_decide (pr_state pr = Open)) then Ret (Ok Unchanged)
    else
      let!? b := row (get_ref r ("refs/heads/" +:+ base pr)) in
      let!? h := row (get_ref r ("refs/heads/" +:+ head pr)) in
      if is_some_and (mergeability pr) (fun old =>
           String.eqb (base_oid old) (hex b) && String.eqb (head_oid old) (hex h))
      then Ret (Ok Unchanged)
      else match b, h with
           | Some bo, Some ho =>
             let!? walk := trigger (POdb r) in
             let '(state, ff, detail, deep) := ancestry_verdict pr bo ho (merge_base walk bo ho BUDGET) in
             let! now := now_ms in
             record_check r n (mkMergeability state (hex b) (hex h) now detail ff) deep
           | _, _ =>
             let! now := now_ms in
             record_check r n
               (mkMergeability Unknown (hex b) (hex h) now (Some "one of the branches is gone") false) false
           end
  end.

Definition check (r : repo_id) (n : Z) : PP (result Checked) :=
  let!? there := trigger (POpenRepo r) in
  if negb there then Ret (Ok Unchanged) else check_with r n.

Fixpoint check_each (r : repo_id) (open : list PullRequest) (walked : nat) (deep : list Deep) :
    PP (result (list Deep)) :=
  match open with
  | [] => Ret (Ok deep)
  | pr :: open =>
    if Nat.leb CHECK_LIMIT walked then Ret (Ok deep)
    else
      let!? c := check_with r (number pr) in
      match c with
      | Unchanged => check_each r open walked deep
      | Answered => check_each r open (S walked) deep
      | DeepCheck d => check_each r open (S walked) (deep ++ [d])%list
      end
  end.

Definition check_repo (r : repo_id) : PP (result (list Deep)) :=
  let!? open := open_only r SCAN_LIMIT in
  match open with
  | [] => Ret (Ok [])
  | _ =>
    let!? there := trigger (POpenRepo r) in
    if negb there then Ret (Ok []) else check_each r open 0 []
  end.

(** ** The lanes, [bins/server/src/lanes.rs] *)

(** Over the repositories the node holds open. *)
Fixpoint check_owned_pulls (warm : list repo_id) : PP unit :=
  match warm with
  | [] => Ret tt
  | r :: warm => check_repo r ;;! check_owned_pulls warm
  end.

Definition MERGE_LEASE : Z := 600000.

Fixpoint announce_each (r : repo_id) (stranded : list PullRequest) : PP unit :=
  match stranded with
  | [] => Ret tt
  | pr :: stranded =>
    let by_ := unwrap_or (option_map requested_by (merge pr)) "" in
    let! now := now_ms in
    trigger (PPublish (mkEvent MergeRequested (r.1 +:+ "/" +:+ r.2) (number pr) by_ now (title pr) (base pr)
                         (head pr))) ;;!
    mark_announced r (number pr) ;;!
    announce_each r stranded
  end.

Fixpoint announce_stranded_merges (warm : list repo_id) : PP unit :=
  match warm with
  | [] => Ret tt
  | r :: warm =>
    let! stranded := stranded_merges r MERGE_LEASE in
    announce_each r (match stranded with Ok v => v | Err _ => [] end) ;;!
    announce_stranded_merges warm
  end.

(** ** Handlers, [browse_api/pulls.rs] *)
Variable src : Source.
(** [serde_json] on the worker's reports. *)
Variable parse_outcome : string -> option Outcome.
Variable parse_verdict : string -> option Verdict.

(** Stop with a response. *)
Definition or_reply {A} (p : PP (A + Response)) (k : A -> PP Response) : PP Response :=
  let! x := p in match x with inl a => k a | inr rsp => Ret rsp end.

Definition ready (r : repo_id) : PP (unit + Response) :=
  let! done := ensure_migrated src r in
  Ret match done with Ok _ => inl tt | Err e => inr (Internal e) end.

Definition writable (owner name : string) : PP (repo_id + Response) :=
  match parse_repo_path (owner +:+ "/" +:+ name) with
  | None => Ret (inr (Reply 400 "invalid repository path"))
  | Some r =>
    let! there := row (repo_exists r) in
    Ret (if match there with Ok b => b | Err _ => false end then inl r else inr hidden)
  end.

Definition emit (kind : EventKind) (pr : PullRequest) (actor : string) : PP unit :=
  let! now := now_ms in
  trigger (PPublish (mkEvent kind (pr_repo pr) (number pr) actor now (title pr) (base pr) (head pr))).

(** [s.chars().take(n)]: every byte that does not continue a character starts one. *)
Fixpoint take_chars (n : nat) (s : string) : string :=
  match s with
  | EmptyString => EmptyString
  | String c s =>
    if cont_byte c then String c (take_chars n s)
    else match n with O => EmptyString | S n => String c (take_chars n s) end
  end.

Definition valid_branch (b : string) : bool :=
  negb (String.eqb b "") && (str_len b <=? 255) && negb (starts_with "-" b) && negb (contains_str ".." b) &&
  negb (ends_with ".lock" b) &&
  negb (any (fun c => (byte_z c <? 32) || (byte_z c =? 127) || Ascii.eqb c " " || contains_char c "~^:?*[\")
          (list_ascii_of_string b)).

Record NewPull := mkNewPull { n_title : string; n_body : string; n_base : string; n_head : string; n_author : string }.

Definition new_pull (r : repo_id) (n : Z) (title : string) (new : NewPull) (now : Z) : PullRequest :=
  let repo := r.1 +:+ "/" +:+ r.2 in
  mkPull (repo +:+ "#" +:+ display_i n) repo n title (trim (n_body new)) (trim (n_base new)) (trim (n_head new))
    Open (n_author new) now None [] None None None.

Definition api_pull_open (owner name : string) (new : NewPull) : PP Response :=
  or_reply (writable owner name) (fun r =>
    let title := take_chars 200 (trim (n_title new)) in
    if String.eqb title "" then Ret (Reply 400 "a title is required")
    else if String.eqb (trim (n_base new)) (trim (n_head new))
         then Ret (Reply 400 "a change has to come from a different branch")
    else if negb (valid_branch (trim (n_base new))) || negb (valid_branch (trim (n_head new)))
         then Ret (Reply 400 "that is not a branch name git will accept")
    else
      or_reply (ready r) (fun _ =>
        let! n := next_number r in
        match n with
        | Err e => Ret (Internal e)
        | Ok n =>
          let! now := now_ms in
          let pr := new_pull r n title new now in
          let! done := put r pr in
          match done with
          | Err e => Ret (Internal e)
          | Ok _ => emit PullOpened pr (n_author new) ;;! Ret (ReplyPull 201 pr)
          end
        end)).

Definition update (r : repo_id) (n : Z) (f : PullRequest -> PP (PullRequest + Response)) : PP (PullRequest + Response) :=
  let! got := ready r in
  match got with
  | inr rsp => Ret (inr rsp)
  | inl _ =>
    let! done := modify r n f in
    Ret match done with
        | Err e => inr (Internal e)
        | Ok None => inr (Reply 404 "no such change")
        | Ok (Some x) => x
        end
  end.

Definition api_pull_comment (owner name : string) (n : Z) (new_body new_author : string) : PP Response :=
  or_reply (writable owner name) (fun r =>
    let body := take_chars (Z.to_nat 10000) (trim new_body) in
    if String.eqb body "" then Ret (Reply 400 "say something")
    else
      or_reply (update r n (fun pr =>
        let! now := now_ms in
        Ret (inl (set_comments pr (comments pr ++ [mkComment new_author body now])%list)))) (fun pr =>
      emit PullCommented pr new_author ;;! Ret (Reply 204 ""))).

Definition STRATEGIES : list string := ["fast-forward"; "squash"; "merge"; "rebase"].

Definition in_flight (pr : PullRequest) : bool :=
  match option_map job_state (merge pr) with Some Queued | Some Running => true | _ => false end.

Definition queued (strategy who : string) (now : Z) : MergeJob :=
  mkMergeJob Queued strategy who now None None None None.

Definition request_merge (strategy who : string) (pr : PullRequest) : PP (PullRequest + Response) :=
  if negb (bool_decide (pr_state pr = Open)) || in_flight pr
  then Ret (inr (Reply 409 "this change is not open, or a merge is already under way"))
  else
    let! now := now_ms in
    Ret (inl (set_merge pr (Some (queued strategy who now)))).

Definition api_pull_merge (owner name : string) (n : Z) (q_strategy q_by : option string) : PP Response :=
  or_reply (writable owner name) (fun r =>
    let s := unwrap_or q_strategy "fast-forward" in
    if negb (mem_str s STRATEGIES) then Ret (Reply 400 "strategy must be fast-forward, squash, merge or rebase")
    else
      let who := unwrap_or q_by "" in
      or_reply (update r n (request_merge s who)) (fun pr =>
      emit MergeRequested pr who ;;! Ret (Reply 202 "merging"))).

Definition close_pull (pr : PullRequest) : PP (PullRequest + Response) :=
  Ret (if negb (bool_decide (pr_state pr = Open)) then inr (Reply 409 "this change is not open")
       else inl (set_state pr Closed)).

Definition api_pull_close (owner name : string) (n : Z) (q_by : option string) : PP Response :=
  or_reply (writable owner name) (fun r =>
    or_reply (update r n close_pull) (fun pr =>
    emit PullClosed pr (unwrap_or q_by "") ;;! Ret (Reply 204 ""))).

(** [trusted]: who the peer says it acts as. *)
Definition as_owner (trusted : option string) (owner : string) : unit + Response :=
  match trusted with
  | Some o => if String.eqb o owner then inl tt else inr (Reply 403 "not this repository's owner")
  | None => inr (Reply 400 "caller identity required")
  end.

Definition api_pull_check (trusted : option string) (owner name : string) (n : Z) : PP Response :=
  or_reply (writable owner name) (fun r =>
    or_reply (Ret (as_owner trusted r.1)) (fun _ =>
    or_reply (ready r) (fun _ =>
      let! done :=
        if n =? 0 then check_repo r
        else let!? c := check r n in Ret (Ok match c with DeepCheck d => [d] | _ => [] end) in
      Ret match done with Ok deep => ReplyDeep deep | Err e => Internal e end))).

Definition job_of (r : repo_id) (pr : PullRequest) : Job :=
  mkJob r.1 r.2 (number pr) (unwrap_or (option_map strategy (merge pr)) "") (base pr) (head pr) (title pr)
    (unwrap_or (option_map requested_by (merge pr)) "").

Definition api_pull_claim (trusted : option string) (owner name : string) (n : Z) (q_by : option string) : PP Response :=
  or_reply (writable owner name) (fun r =>
    or_reply (Ret (as_owner trusted r.1)) (fun _ =>
    or_reply (ready r) (fun _ =>
      let! done := claim_merge_number r n MERGE_LEASE (unwrap_or q_by "worker") in
      Ret match done with
          | Ok (Some pr) => ReplyJob (job_of r pr)
          | Ok None => Reply 409 "no merge to claim"
          | Err e => Internal e
          end))).

Definition stopped (j : MergeJob) (s : OutcomeState) (detail : option string) : MergeJob :=
  mkMergeJob (if bool_decide (s = OConflicts) then Conflicts else Failed) (strategy j) (requested_by j)
    (requested_at_ms j) (claimed_at_ms j) (claimed_by j) detail (announced_at_ms j).

Definition out_detail (out : Outcome) : option string :=
  match option_map trim (o_detail out) with
  | Some d => if String.eqb d "" then None else Some d
  | None => None
  end.

Definition conclude (by_ : string) (out : Outcome) (pr : PullRequest) : PP (PullRequest + Response) :=
  if negb (bool_decide (match merge pr with Some j => claimed_by j | None => None end = Some by_))
  then Ret (inr (Reply 409 "this merge is claimed by someone else"))
  else match o_state out with
       | OMerged =>
         let pr := set_state pr Merged in
         let! pr := match merged_at_ms pr with
                    | None => let! now := now_ms in Ret (set_merged_at pr (Some now))
                    | Some _ => Ret pr
                    end in
         Ret (inl (set_merge pr None))
       | s => Ret (inl (set_merge pr (option_map (fun j => stopped j s (out_detail out)) (merge pr))))
       end.

Definition api_pull_outcome (trusted : option string) (owner name : string) (n : Z) (q_by : option string)
    (body : string) : PP Response :=
  or_reply (writable owner name) (fun r =>
    or_reply (Ret (as_owner trusted r.1)) (fun _ =>
      match parse_outcome body with
      | None => Ret (Reply 400 "json")
      | Some out =>
        or_reply (update r n (conclude (unwrap_or q_by "") out)) (fun pr =>
          if bool_decide (o_state out = OMerged) then
            emit PullMerged pr (author pr) ;;!
            (let! now := now_ms in trigger (PPublish (mkEvent HeadMoved (pr_repo pr) 0 "" now "" "" ""))) ;;!
            Ret (Reply 204 "")
          else Ret (Reply 204 ""))
      end)).

Definition judge_pull (v : Verdict) (pr : PullRequest) : PP (PullRequest + Response) :=
  Ret match mergeability pr with
      | None => inr (Reply 204 "")
      | Some m =>
        if negb (String.eqb (v_base_oid v) "") &&
           (negb (String.eqb (v_base_oid v) (base_oid m)) || negb (String.eqb (v_head_oid v) (head_oid m)))
        then inr (Reply 409 "this verdict was computed from other tips")
        else inl (set_mergeability pr
               (Some (mkMergeability (v_state v) (base_oid m) (head_oid m) (checked_at_ms m) (v_detail v)
                        (v_fast_forward v))))
      end.

Definition api_pull_mergeability (trusted : option string) (owner name : string) (n : Z) (body : string) : PP Response :=
  or_reply (writable owner name) (fun r =>
    or_reply (Ret (as_owner trusted r.1)) (fun _ =>
      match parse_verdict body with
      | None => Ret (Reply 400 "json")
      | Some v =>
        let! done := update r n (judge_pull v) in
        Ret match done with inl _ => Reply 204 "" | inr rsp => rsp end
      end)).
End pulls.
