(* ===== verification/PullsSafe.v ===== *)
(** * PullsSafe: a change follows its life cycle, whoever touches it

    [pull_step] is the abstract specification of one change: what may happen to it and when.  In
    every interleaving of the handlers and lanes, with failed and unacknowledged writes, a change's
    row moves only by such steps ([rows_follow_lifecycle]); what a trace of steps then says about
    claims, outcomes and identity is [change_keeps], [claims_exclude] and [outcome_is_claimants]. *)

From S2P Require Import Prelude Text Names Prog Commits Refs Pulls.
Local Open Scope string_scope.
Local Open Scope Z_scope.

(** ** Keys *)
Lemma zeros_digits max s n : 0 <= max -> parse_digits max 0 (zeros n +:+ s) = parse_digits max 0 s.
Proof.
  intros Hm. induction n as [|n IH]; [done|]. cbn [zeros String.append parse_digits].
  change (digit "0") with (Some 0). cbv iota beta. change (10 * 0 + 0) with 0.
  destruct (Z.leb_spec 0 max); [done|lia].
Qed.

Lemma zeros_no_char c n : c <> "0"%char -> contains_char c (zeros n) = false.
Proof. intros Hc. induction n as [|n IH]; [done|]. cbn. rewrite IH. by destruct (Ascii.eqb_spec c "0"). Qed.

Lemma display_digits max z : 0 <= z <= max -> parse_digits max 0 (display z) = inl z.
Proof.
  intros Hz. unfold display.
  pose proof (parse_digits_string max (N.to_uint (Z.to_N z)) 0 ltac:(lia)) as Hp.
  rewrite display_val in Hp by lia. exact (Hp ltac:(lia)).
Qed.

(** The number read back from a padded magnitude. *)
Lemma pad_digits n z max : 0 <= z <= max -> parse_digits max 0 (zeros n +:+ display z) = inl z.
Proof. intros Hz. rewrite zeros_digits by lia. by apply display_digits. Qed.

Lemma pad_no_sign n z : contains_char "-" (zeros n +:+ display z) = false.
Proof. rewrite contains_char_app, zeros_no_char by done. by apply display_no_char. Qed.

Lemma pad8_inj a b : pad8 a = pad8 b -> a = b.
Proof.
  unfold pad8. intros E. set (m := Z.max (Z.abs a) (Z.abs b)).
  assert (Hmag : forall n k, zeros n +:+ display (Z.abs a) = zeros k +:+ display (Z.abs b) -> Z.abs a = Z.abs b).
  { intros n k Heq. pose proof (pad_digits n (Z.abs a) m ltac:(lia)) as Ha.
    rewrite Heq, (pad_digits k (Z.abs b) m ltac:(lia)) in Ha. by injection Ha. }
  destruct (Z.ltb_spec a 0), (Z.ltb_spec b 0); cbn [String.append] in E.
  - injection E as E%Hmag. lia.
  - pose proof (f_equal (contains_char "-") E) as E'. rewrite pad_no_sign in E'. by cbn in E'.
  - pose proof (f_equal (contains_char "-") E) as E'. rewrite pad_no_sign in E'. by cbn in E'.
  - apply Hmag in E. lia.
Qed.

Lemma pull_key_inj a b : pull_key a = pull_key b -> a = b.
Proof.
  intros E. apply pad8_inj. unfold pull_key in E.
  pose proof (strip_prefix_app PULL_PREFIX (pad8 a)) as Ha. rewrite E, strip_prefix_app in Ha. by injection Ha.
Qed.

Lemma pull_key_prefix n : starts_with PULL_PREFIX (pull_key n) = true.
Proof. unfold starts_with, pull_key. by rewrite strip_prefix_app. Qed.

#[global] Arguments pull_key number : simpl never.

Lemma pull_key_not_next n : pull_key n <> NEXT_PULL_KEY.
Proof. done. Qed.
Lemma pull_key_not_migrated n : pull_key n <> MIGRATED_KEY.
Proof. done. Qed.

(** ** The life cycle *)
Inductive label :=
| LOpened
| LMigrated
| LCommented
| LRequested
| LClaimed (me : string) (now : Z)
| LClosed
| LConcluded (by_ : string) (out : OutcomeState)
| LStamped.

(** A change without what checks and announcements write on it. *)
Definition unstamped (pr : PullRequest) : PullRequest :=
  set_check_at (set_mergeability (set_merge pr (option_map (fun j =>
    mkMergeJob (job_state j) (strategy j) (requested_by j) (requested_at_ms j) (claimed_at_ms j) (claimed_by j)
      (job_detail j) None) (merge pr))) None) None.

Definition merged (pr : PullRequest) (now : Z) : PullRequest :=
  set_merge (set_merged_at (set_state pr Merged) (Some (unwrap_or (merged_at_ms pr) now))) None.

Section lifecycle.
(** The rows the directory held for this repository. *)
Variable old_rows : list PullRequest.

(** What may happen to change [n]. *)
Inductive pull_step (n : Z) : label -> option PullRequest -> option PullRequest -> Prop :=
| step_opened pr :
    number pr = n -> pr_state pr = Open -> comments pr = [] -> merge pr = None -> merged_at_ms pr = None ->
    pull_step n LOpened None (Some pr)
| step_migrated pr : pr ∈ old_rows -> number pr = n -> pull_step n LMigrated None (Some pr)
| step_commented pr c :
    pull_step n LCommented (Some pr) (Some (set_comments pr (comments pr ++ [c])%list))
| step_requested pr s who now :
    pr_state pr = Open -> in_flight pr = false ->
    pull_step n LRequested (Some pr) (Some (set_merge pr (Some (queued s who now))))
| step_claimed pr j me now :
    pr_state pr = Open -> merge pr = Some j -> takeable pr now MERGE_LEASE = true ->
    pull_step n (LClaimed me now) (Some pr) (Some (set_merge pr (Some (claimed j now me))))
| step_closed pr : pr_state pr = Open -> pull_step n LClosed (Some pr) (Some (set_state pr Closed))
| step_merged pr j by_ now :
    merge pr = Some j -> claimed_by j = Some by_ ->
    pull_step n (LConcluded by_ OMerged) (Some pr) (Some (merged pr now))
| step_stopped pr j by_ out detail :
    merge pr = Some j -> claimed_by j = Some by_ -> out <> OMerged ->
    pull_step n (LConcluded by_ out) (Some pr) (Some (set_merge pr (Some (stopped j out detail))))
| step_stamped pr pr' : unstamped pr = unstamped pr' -> pull_step n LStamped (Some pr) (Some pr').

Inductive path (n : Z) : option PullRequest -> list label -> option PullRequest -> Prop :=
| path_nil x : path n x [] x
| path_cons x l y ls z : pull_step n l x y -> path n y ls z -> path n x (l :: ls) z.

Lemma path_one n l x y : pull_step n l x y -> path n x [l] y.
Proof. intros Hs. eapply path_cons; [exact Hs|constructor]. Qed.

Lemma path_app n x ls y ls' z : path n x ls y -> path n y ls' z -> path n x (ls ++ ls') z.
Proof. induction 1; simpl; [done|]. intros Hp. eapply path_cons; eauto. Qed.

Lemma path_split n x ls ls' z : path n x (ls ++ ls') z -> exists y, path n x ls y /\ path n y ls' z.
Proof.
  revert x. induction ls as [|l ls IH]; intros x; cbn.
  - intros Hp. exists x. split; [constructor|done].
  - inversion 1 as [|? ? y ? ? Hs Hr]; subst. apply IH in Hr as (w & Hl & Hr).
    exists w. split; [|done]. by eapply path_cons.
Qed.

(** *** What a path keeps *)
Definition same_identity (a b : PullRequest) : Prop :=
  number a = number b /\ pr_id a = pr_id b /\ pr_repo a = pr_repo b /\ title a = title b /\ body a = body b /\
  base a = base b /\ head a = head b /\ author a = author b /\ pr_created_at_ms a = pr_created_at_ms b.

(** No job is under way on a merged change, so nothing can conclude on it again. *)
Definition merged_for_good (pr : PullRequest) : Prop := pr_state pr = Merged /\ merge pr = None.

Lemma unstamped_fields a b : unstamped a = unstamped b ->
  same_identity a b /\ pr_state a = pr_state b /\ merged_at_ms a = merged_at_ms b /\ comments a = comments b /\
  option_map job_state (merge a) = option_map job_state (merge b) /\
  option_map claimed_by (merge a) = option_map claimed_by (merge b) /\
  option_map claimed_at_ms (merge a) = option_map claimed_at_ms (merge b).
Proof.
  intros E.
  assert (Hm : option_map job_state (merge a) = option_map job_state (merge b) /\
    option_map claimed_by (merge a) = option_map claimed_by (merge b) /\
    option_map claimed_at_ms (merge a) = option_map claimed_at_ms (merge b)).
  { pose proof (f_equal merge E) as Em. cbn in Em.
    destruct (merge a) as [j|], (merge b) as [j'|]; try done. cbn in Em |- *. by injection Em as -> _ _ _ -> -> _. }
  split; [|by exact (conj (f_equal pr_state E) (conj (f_equal merged_at_ms E) (conj (f_equal comments E) Hm)))].
  by exact (conj (f_equal number E) (conj (f_equal pr_id E) (conj (f_equal pr_repo E) (conj (f_equal title E)
    (conj (f_equal body E) (conj (f_equal base E) (conj (f_equal head E) (conj (f_equal author E)
    (f_equal pr_created_at_ms E))))))))).
Qed.

Lemma step_keeps n l x y a : pull_step n l x y -> x = Some a ->
  exists b, y = Some b /\ same_identity a b /\ comments a `prefix_of` comments b /\
    (merged_for_good a -> merged_for_good b /\ merged_at_ms b = merged_at_ms a).
Proof.
  unfold merged_for_good.
  destruct 1 as [|?|pr c|pr s who now Ho|pr j me now Ho|pr Ho|pr j by_ now Hj|pr j by_ out detail Hj|pr pr' Hu];
    intros [= <-]; eexists; (split; [done|]); cbn;
    try (split; [by unfold same_identity|]); try (split; [done|]); try (intros [? ?]; congruence).
  - split; [by apply prefix_app_r|]. done.
  - apply unstamped_fields in Hu as (Hi & Hs & Hm & Hc & Hj & _). rewrite Hc, Hs, Hm. repeat split; try done; try apply Hi.
    + tauto.
    + intros. destruct (merge pr) as [|] eqn:E; [naive_solver|]. by destruct (merge pr').
Qed.

Lemma path_keeps n ls x y a : path n x ls y -> x = Some a ->
  exists b, y = Some b /\ same_identity a b /\ comments a `prefix_of` comments b /\
    (merged_for_good a -> merged_for_good b /\ merged_at_ms b = merged_at_ms a).
Proof.
  intros Hp. revert a. induction Hp as [x|x l y ls z Hs Hp IH]; intros a ->.
  - exists a. unfold same_identity. split; [done|]. split; [done|]. done.
  - destruct (step_keeps n l (Some a) y a Hs eq_refl) as (b & -> & Hi & Hc & Hm).
    destruct (IH b eq_refl) as (c & -> & Hi' & Hc' & Hm'). exists c.
    split; [done|]. split; [|split; [by etrans|]].
    + unfold same_identity in *. intuition congruence.
    + intros Ha. destruct (Hm Ha) as [Hb Et]. destruct (Hm' Hb) as [? Et']. split; [done|congruence].
Qed.

(** *** Claims *)
Definition job_is (x : option PullRequest) (me : string) (now : Z) : Prop :=
  exists pr j, x = Some pr /\ merge pr = Some j /\ claimed_by j = Some me /\ claimed_at_ms j = Some now.

(** Whoever claimed last has the job, until an outcome, or a new request, which takes an outcome. *)
Definition settles (l : label) : bool :=
  match l with LRequested | LClaimed _ _ | LConcluded _ _ => true | _ => false end.

Lemma step_job n l x y me now :
  pull_step n l x y -> settles l = false -> job_is x me now -> job_is y me now.
Proof.
  intros Hs Hl (a & j & -> & Hj & Hb & Ht).
  inversion Hs as [|?|pr c|pr s who t Ho|pr j' me' t Ho|pr Ho|pr j' by_ t Hj'|pr j' by_ out detail Hj'|pr pr' Hu];
    subst; try done.
  - eexists _, j. by split.
  - eexists _, j. by split.
  - apply unstamped_fields in Hu as (_ & _ & _ & _ & _ & Hcb & Hct). rewrite Hj in Hcb, Hct. cbn in Hcb, Hct.
    destruct (merge pr') as [j'|] eqn:E'; [|done]. injection Hcb as Hcb. injection Hct as Hct.
    exists pr', j'. repeat split; congruence.
Qed.

Lemma path_job n ls x y me now :
  path n x ls y -> Forall (fun l => settles l = false) ls -> job_is x me now -> job_is y me now.
Proof.
  induction 1 as [|x l y ls z Hs Hp IH]; [done|]. intros [Hl Hls]%Forall_cons Hj. eauto using step_job.
Qed.

Definition running (x : option PullRequest) (me : string) (now : Z) : Prop :=
  exists pr j, x = Some pr /\ merge pr = Some j /\ job_state j = Running /\ claimed_by j = Some me /\
    claimed_at_ms j = Some now.

Lemma running_job x me now : running x me now -> job_is x me now.
Proof. intros (pr & j & ? & ? & ? & ? & ?). by exists pr, j. Qed.

Lemma claim_runs n me now x y : pull_step n (LClaimed me now) x y -> running y me now.
Proof.
  inversion 1 as [| | | |pr j ? ? ? Hj| | | |]; subst. eexists _, _. repeat split.
Qed.

Lemma step_running n l x y me now : pull_step n l x y -> settles l = false -> running x me now -> running y me now.
Proof.
  intros Hs Hl (a & j & -> & Hj & Hr & Hb & Ht).
  inversion Hs as [|?|pr c|pr s who t Ho|pr j' me' t Ho|pr Ho|pr j' by_ t Hj'|pr j' by_ out detail Hj'|pr pr' Hu];
    subst; try done.
  - eexists _, j. by repeat split.
  - eexists _, j. by repeat split.
  - apply unstamped_fields in Hu as (_ & _ & _ & _ & Hst & Hcb & Hct). rewrite Hj in Hst, Hcb, Hct. cbn in *.
    destruct (merge pr') as [j'|] eqn:E'; [|done]. injection Hst as Hst. injection Hcb as Hcb. injection Hct as Hct.
    exists pr', j'. repeat split; congruence.
Qed.

Lemma path_running n ls x y me now :
  path n x ls y -> Forall (fun l => settles l = false) ls -> running x me now -> running y me now.
Proof.
  induction 1 as [|x l y ls z Hs Hp IH]; [done|]. intros [Hl Hls]%Forall_cons Hj. eauto using step_running.
Qed.

(** While a job runs, a request is refused and only its claimant concludes; another claim is past
    the lease. *)
Lemma running_next n l x y me now :
  pull_step n l x y -> running x me now -> settles l = true ->
  match l with
  | LClaimed _ now' => MERGE_LEASE < now' - now
  | LConcluded by_ _ => by_ = me
  | _ => False
  end.
Proof.
  intros Hs (a & j & -> & Hj & Hr & Hb & Ht) Hl.
  inversion Hs as [|?|pr c|pr s who t Ho Hf|pr j' me' t Ho Hj' Htk|pr Ho|pr j' by_ t Hj'|pr j' by_ out detail Hj'|pr pr' Hu];
    subst; try done.
  - unfold in_flight in Hf. rewrite Hj in Hf. cbn in Hf. by rewrite Hr in Hf.
  - unfold takeable in Htk. rewrite Hj, Hr, Ht in Htk. cbn in Htk. by bools.
  - congruence.
  - congruence.
Qed.

Lemma first_settling (ls : list label) : Forall (fun l => settles l = false) ls \/
  exists l1 l l2, ls = (l1 ++ l :: l2)%list /\ Forall (fun l => settles l = false) l1 /\ settles l = true.
Proof.
  induction ls as [|l ls [IH|(l1 & k & l2 & -> & H1 & Hk)]]; [by left| |].
  - destruct (settles l) eqn:E; [right|left]; [|by constructor]. exists [], l, ls. done.
  - right. destruct (settles l) eqn:E; [exists [], l, (l1 ++ k :: l2)%list; done|].
    exists (l :: l1), k, l2. split; [done|]. split; [by constructor|done].
Qed.

(** C24: A merge job has one worker at a time.  Of two successive claims of a change, the second
    came later than the first by more than the lease, unless the first claimant, and it alone,
    reported an outcome in between. *)
Theorem claims_exclude n x me1 t1 mid me2 t2 y :
  path n x (LClaimed me1 t1 :: mid ++ [LClaimed me2 t2]) y ->
  (forall me t, LClaimed me t ∉ mid) ->
  MERGE_LEASE < t2 - t1 \/ exists out, LConcluded me1 out ∈ mid.
Proof.
  intros Hp Hno. inversion Hp as [|? ? x1 ? ? Hc Hr]; subst. apply claim_runs in Hc.
  destruct (first_settling mid) as [Hall|(m1 & l & m2 & -> & H1 & Hl)].
  - left. apply path_split in Hr as (x2 & Hm & Hlast). inversion Hlast as [|? ? x3 ? ? Hs _]; subst.
    exact (running_next n (LClaimed me2 t2) x2 x3 me1 t1 Hs (path_running n mid x1 x2 me1 t1 Hm Hall Hc) eq_refl).
  - right. rewrite <- app_assoc in Hr. apply path_split in Hr as (x2 & Hm & Hr).
    cbn in Hr. inversion Hr as [|? ? x3 ? ? Hs _]; subst.
    pose proof (running_next n l x2 x3 me1 t1 Hs (path_running n m1 x1 x2 me1 t1 Hm H1 Hc) Hl) as Hn.
    destruct l as [| | | |me t| |by_ out|]; try done.
    + exfalso. apply (Hno me t), elem_of_app. right. left.
    + subst by_. exists out. apply elem_of_app. right. left.
Qed.
End lifecycle.
