(* ===== verification/PullsRules.v ===== *)
(** * PullsRules: the pull requests' shared state, its invariant, and that every handler and lane keeps it

    [psem] is what the row store, the pull locks and the directory document.  [Inv] says that rows
    are changes under their own numbers, that a migrated repository has every row the directory
    gave and numbers to come that are all free, and that every change came by its life cycle.
    [Rely] is what a task keeps across the others' steps: under the pull lock the changes there
    are stay as they are, and a number drawn is nobody else's.
    The database's deletion with its repository is left out.

    Then a rule per operation, and the entry points: the handlers, the lanes, and everything else that
    writes the same database under keys of its own. *)

From S2P Require Import Prelude Text Names Prog Commits Refs Pulls PullsSafe.
Local Open Scope string_scope.
Local Open Scope Z_scope.

(** * The shared state *)

Record World := mkWorld {
  tbl : repo_id -> gmap string string;
  lock : repo_id -> option nat;
  (** Who raised the next number to this one, of a migrated repository. *)
  raised : repo_id -> Z -> option nat;
}.

Definition write_row (T : gmap string string) (w : string * option string) : gmap string string :=
  match w.2 with Some v => <[w.1 := v]> T | None => delete w.1 T end.
Definition write_rows (T : gmap string string) (ws : list (string * option string)) : gmap string string :=
  foldl write_row T ws.

(** Keys the pull requests keep for themselves. *)
Definition ours (k : string) : bool :=
  starts_with PULL_PREFIX k || String.eqb k NEXT_PULL_KEY || String.eqb k MIGRATED_KEY.

Section world.
Context {oid : Type} `{EqDecision oid} `{Hex oid} `{PullCodec}.
Abbreviation eff := (pull_eff (oid := oid)).
Abbreviation PP := (prog eff).

Variable src : Source.
(** What the directory holds of each repository, newest first. *)
Variable held : string -> list PullRequest.

Definition next_of (s : World) (r : repo_id) : option Z :=
  match tbl s r !! NEXT_PULL_KEY with Some v => ok_parse (parse_i64 v) | None => None end.
Definition next (s : World) (r : repo_id) : Z := unwrap_or (next_of s r) 1.
Definition migrated_in (s : World) (r : repo_id) : bool := is_one (tbl s r !! MIGRATED_KEY).
Definition row_of (s : World) (r : repo_id) (n : Z) : option PullRequest := tbl s r !! pull_key n ≫= decode_pull.

(** ** What the effects do *)
Definition written (t : nat) (r : repo_id) (ws : list (string * option string)) (s : World) : World :=
  let T := write_rows (tbl s r) ws in
  let s' := mkWorld (fun r' => if bool_decide (r' = r) then T else tbl s r') (lock s) (raised s) in
  mkWorld (tbl s') (lock s) (fun r' m =>
    if bool_decide (r' = r) && migrated_in s r && negb (bool_decide (tbl s r !! NEXT_PULL_KEY = T !! NEXT_PULL_KEY)) &&
       bool_decide (next_of s' r = Some m)
    then Some t else raised s r' m).

Definition set_lock (s : World) (r : repo_id) (h : option nat) : World :=
  mkWorld (tbl s) (fun r' => if bool_decide (r' = r) then h else lock s r') (raised s).

(** No counter gets to the end of its type. *)
Definition fits (s : World) : Prop := forall r n, next_of s r = Some n -> n < i64_max.

(** A write may fail, and a failed one may still have been applied. *)
Definition rsem (t : nat) (X : Type) (e : row_eff X) (s : World) : X -> World -> Prop :=
  match e in row_eff X return X -> World -> Prop with
  | DGet r k => fun x s' => s' = s /\ forall v, x = Ok v -> v = tbl s r !! k
  | DScan r p => fun x s' => s' = s /\ forall kvs, x = Ok kvs ->
      kvs = sort_by fst (List.filter (fun kv => starts_with p kv.1) (map_to_list (tbl s r)))
  | DWrite r ws => fun x s' => (s' = written t r ws s /\ fits s') \/ (s' = s /\ is_ok x = false)
  | DCommit tx => fun x s' => (s' = written t (t_repo tx) (t_writes tx) s /\ fits s') \/ (s' = s /\ x <> Committed)
  | _ => fun x s' => s' = s
  end.

Definition psem (t : nat) (X : Type) (e : eff X) (s : World) : X -> World -> Prop :=
  match e in pull_eff X return X -> World -> Prop with
  | PRow X e => fun x s' => rsem t X e s x s'
  | PLock r => fun _ s' => lock s r = None /\ s' = set_lock s r (Some t)
  | PUnlock r => fun _ s' => lock s r = Some t /\ s' = set_lock s r None
  | PFind repo limit => fun x s' => s' = s /\ forall l, x = Ok l -> l = take limit (held repo)
  | _ => fun _ s' => s' = s
  end.

(** ** The invariant *)
Definition old_rows (r : repo_id) : list PullRequest :=
  match src with Directory => take LISTING_LIMIT (held (r.1 +:+ "/" +:+ r.2)) | _ => [] end.

(** A directory's [_id]s are unique, and are made of the numbers. *)
Record HeldLaws : Prop := {
  held_unique : forall repo, NoDup (map number (held repo));
  held_fits : forall repo pr, pr ∈ held repo -> i64_min <= number pr < i64_max - 1;
}.

Record RepoInv (s : World) (r : repo_id) : Prop := {
  inv_rows : forall k v, tbl s r !! k = Some v -> starts_with PULL_PREFIX k = true ->
    exists pr, v = encode_pull pr /\ k = pull_key (number pr);
  inv_next : forall v, tbl s r !! NEXT_PULL_KEY = Some v ->
    exists n, parse_i64 v = inl n /\ 1 <= n < i64_max;
  inv_free : migrated_in s r = true -> forall n pr, row_of s r n = Some pr -> n < next s r;
  inv_old : migrated_in s r = false -> forall n pr, row_of s r n = Some pr ->
    exists old, old ∈ old_rows r /\ unstamped old = unstamped pr;
  inv_raised : forall m t, raised s r m = Some t -> migrated_in s r = true /\ m <= next s r;
}.

(** Every directory row is among the changes, with at least the comments it had. *)
Definition all_copied (s : World) (r : repo_id) : Prop :=
  forall old, old ∈ old_rows r ->
    exists pr, row_of s r (number old) = Some pr /\ same_identity old pr /\ comments old `prefix_of` comments pr.

Definition evolves (s s' : World) : Prop :=
  forall r n, exists ls, path (old_rows r) n (row_of s r n) ls (row_of s' r n).

Variable s0 : World.

Record Inv (s : World) : Prop := {
  inv_repo : forall r, RepoInv s r;
  inv_copied : forall r, migrated_in s r = true -> migrated_in s0 r = true \/ all_copied s r;
  inv_evolves : evolves s0 s;
}.

(** ** The rely *)
Record keeps (t : nat) (s s' : World) (r : repo_id) : Prop := {
  keeps_migrated : migrated_in s r = true -> migrated_in s' r = true;
  keeps_locked : lock s r = Some t -> lock s' r = Some t /\
    tbl s' r !! NEXT_PULL_KEY = tbl s r !! NEXT_PULL_KEY /\ migrated_in s' r = migrated_in s r /\
    forall n pr, row_of s r n = Some pr -> row_of s' r n = Some pr;
  keeps_raised : forall m, raised s r m = Some t -> raised s' r m = Some t /\
    (row_of s r (m - 1) = None -> row_of s' r (m - 1) = None);
}.

Definition Rely (t : nat) (s s' : World) : Prop := evolves s s' /\ forall r, keeps t s s' r.

Lemma evolves_refl s : evolves s s.
Proof. intros r n. exists []. constructor. Qed.

Lemma evolves_trans a b c : evolves a b -> evolves b c -> evolves a c.
Proof.
  intros Hab Hbc r n. destruct (Hab r n) as [ls Hl], (Hbc r n) as [ls' Hl']. exists (ls ++ ls')%list.
  by eapply path_app.
Qed.

#[export] Instance Rely_preorder t : PreOrder (Rely t).
Proof.
  split.
  - intros s. split; [apply evolves_refl|]. intros r. by split.
  - intros a b c [He Hk] [He' Hk']. split; [by eapply evolves_trans|]. intros r. destruct (Hk r), (Hk' r). split.
    + auto.
    + intros Hl. destruct (keeps_locked0 Hl) as (Hl' & Hn & Hm & Hr). destruct (keeps_locked1 Hl') as (? & Hn' & Hm' & Hr').
      split; [done|]. split; [congruence|]. split; [congruence|]. eauto.
    + intros m Hm. destruct (keeps_raised0 m Hm) as [Hm' ?]. destruct (keeps_raised1 m Hm') as [? ?]. auto.
Qed.

Abbreviation wpp := (wp psem Inv Rely).

(** ** Reading programs *)
Definition reads_row {X} (e : row_eff X) : Prop :=
  match e with DWrite _ _ | DCommit _ => False | _ => True end.
Definition is_read {X} (e : eff X) : Prop :=
  match e with PRow _ e => reads_row e | PLock _ | PUnlock _ => False | _ => True end.

Fixpoint readonly {A} (p : PP A) : Prop :=
  match p with
  | Ret _ => True
  | Vis X e k => is_read e /\ forall x, readonly (k x)
  end.

Lemma read_quiet t X (e : eff X) s x s' : is_read e -> psem t X e s x s' -> s' = s.
Proof. destruct e as [X [] | | | | | | |]; simpl; naive_solver. Qed.

Lemma readonly_bind {A B} (p : PP A) (f : A -> PP B) :
  readonly p -> (forall a, readonly (f a)) -> readonly (bind p f).
Proof. induction p as [a|X e k IH]; cbn; [auto|]. intros [He Hk] Hf. split; [done|]. eauto. Qed.

Lemma readonly_res {A B} (p : PP (result A)) (f : A -> PP (result B)) :
  readonly p -> (forall a, readonly (f a)) -> readonly (bind_res p f).
Proof. intros Hp Hf. apply readonly_bind; [done|]. intros [a|e]; [apply Hf|done]. Qed.

(** A program that only reads leaves its task with the rely and nothing else. *)
Lemma wp_read {A} t (p : PP A) s Q :
  readonly p -> (forall a s', Rely t s s' -> Q a s') -> wpp t p s Q.
Proof.
  revert s. induction p as [a|X e k IH]; intros s; cbn.
  - intros _ HQ. apply HQ. reflexivity.
  - intros [He Hk] HQ s1 x s2 HR HI Hs. apply read_quiet in Hs as ->; [|done].
    split; [done|]. split; [intros; reflexivity|]. apply IH; [done|]. intros a s' HR'. apply HQ. by etrans.
Qed.

Lemma wp_weaken {A} t (p : PP A) s Q : wpp t p s Q -> wpp t p s (fun _ _ => True).
Proof. intros Hp. eapply wp_mono; [exact Hp|done]. Qed.

(** ** Moves *)
Lemma evolves_row s s' r n pr : evolves s s' -> row_of s r n = Some pr ->
  exists pr', row_of s' r n = Some pr' /\ same_identity pr pr' /\ comments pr `prefix_of` comments pr' /\
    (merged_for_good pr -> merged_for_good pr' /\ merged_at_ms pr' = merged_at_ms pr).
Proof.
  intros He Hr. destruct (He r n) as [ls Hp]. rewrite Hr in Hp. exact (path_keeps (old_rows r) n ls _ _ pr Hp eq_refl).
Qed.

Lemma all_copied_evolves s s' r : evolves s s' -> all_copied s r -> all_copied s' r.
Proof.
  intros He Ha old Hold. destruct (Ha old Hold) as (pr & Hpr & Hi & Hc).
  destruct (evolves_row s s' r _ pr He Hpr) as (b & Hb & Hi' & Hc' & _). exists b.
  split; [done|]. split; [unfold same_identity in *; intuition congruence|by etrans].
Qed.

(** Nothing of a repository that its invariant sees has changed. *)
Record same_repo (s s' : World) (r : repo_id) : Prop := {
  same_tbl : tbl s' r = tbl s r;
  same_raised : forall m, raised s' r m = raised s r m;
}.

Lemma same_repo_next s s' r : same_repo s s' r -> next s' r = next s r.
Proof. intros [E _]. unfold next, next_of. by rewrite E. Qed.
Lemma same_repo_migrated s s' r : same_repo s s' r -> migrated_in s' r = migrated_in s r.
Proof. intros [E _]. unfold migrated_in. by rewrite E. Qed.
Lemma same_repo_row s s' r n : same_repo s s' r -> row_of s' r n = row_of s r n.
Proof. intros [E _]. unfold row_of. by rewrite E. Qed.

Lemma same_repo_inv s s' r : same_repo s s' r -> RepoInv s r -> RepoInv s' r.
Proof.
  intros Hs [Hr Hn Hf Ho Hra]. pose proof (same_repo_next s s' r Hs) as En.
  pose proof (same_repo_migrated s s' r Hs) as Em. destruct Hs as [E Er]. split.
  - by rewrite E.
  - by rewrite E.
  - rewrite Em, En. unfold row_of. rewrite E. exact Hf.
  - rewrite Em. unfold row_of. rewrite E. exact Ho.
  - intros m t. rewrite Er, Em, En. apply Hra.
Qed.

Lemma same_repo_keeps t s s' r : same_repo s s' r -> lock s' r = lock s r -> keeps t s s' r.
Proof.
  intros Hs Hl. pose proof (same_repo_migrated s s' r Hs) as Em. split.
  - by rewrite Em.
  - intros Hh. split; [congruence|]. split; [by destruct Hs as [-> _]|]. split; [done|]. intros n pr.
    by rewrite (same_repo_row s s' r n Hs).
  - intros m Hm. split; [by rewrite (same_raised s s' r Hs)|]. by rewrite (same_repo_row s s' r _ Hs).
Qed.

(** A step of task [t] on one repository. *)
Lemma move t r s s' :
  Inv s ->
  (forall r', r' <> r -> same_repo s s' r') -> (forall r', lock s' r' = lock s r') ->
  RepoInv s' r -> (migrated_in s' r = true -> migrated_in s r = true \/ all_copied s' r) ->
  (forall n, exists ls, path (old_rows r) n (row_of s r n) ls (row_of s' r n)) ->
  (forall t', t' <> t -> keeps t' s s' r) ->
  Inv s' /\ forall t', t' <> t -> Rely t' s s'.
Proof.
  intros [Hi Hc He] Ho Hl Hr Hm Hp Hk.
  assert (Hev : evolves s s').
  { intros r' n. destruct (decide (r' = r)) as [->|Hne]; [apply Hp|].
    exists []. rewrite (same_repo_row s s' r' n (Ho r' Hne)). constructor. }
  split.
  - split.
    + intros r'. destruct (decide (r' = r)) as [->|Hne]; [done|]. by apply (same_repo_inv s); auto.
    + intros r' Hr'. destruct (decide (r' = r)) as [->|Hne].
      * destruct (Hm Hr') as [Hm'|]; [|by right]. destruct (Hc r Hm') as [|]; [by left|right].
        by eapply all_copied_evolves.
      * rewrite (same_repo_migrated s s' r' (Ho r' Hne)) in Hr'. destruct (Hc r' Hr') as [|]; [by left|right].
        by eapply all_copied_evolves.
    + by eapply evolves_trans.
  - intros t' Ht. split; [done|]. intros r'. destruct (decide (r' = r)) as [->|Hne]; [by apply Hk|].
    apply same_repo_keeps; auto.
Qed.

(** *** Writes *)
Lemma written_other t r ws s r' : r' <> r -> same_repo s (written t r ws s) r'.
Proof.
  intros Hne. unfold written. cbn. split; cbn; [by rewrite bool_decide_false|].
  intros m. by rewrite (bool_decide_false (r' = r)).
Qed.

Lemma written_tbl t r ws s : tbl (written t r ws s) r = write_rows (tbl s r) ws.
Proof. unfold written. cbn. by rewrite bool_decide_true. Qed.

(** The next number untouched, so is who raised it. *)
Lemma written_raised_same t r ws s m :
  tbl (written t r ws s) r !! NEXT_PULL_KEY = tbl s r !! NEXT_PULL_KEY ->
  raised (written t r ws s) r m = raised s r m.
Proof.
  rewrite written_tbl. intros E. unfold written. cbn [raised].
  rewrite (bool_decide_true (tbl s r !! NEXT_PULL_KEY = _)) by done. cbn [negb].
  by rewrite andb_false_r.
Qed.

Lemma written_raised_unmigrated t r ws s m :
  migrated_in s r = false -> raised (written t r ws s) r m = raised s r m.
Proof. intros E. unfold written. cbn [raised]. by rewrite E, andb_false_r. Qed.

(** A write of keys that are not ours. *)
Lemma write_rows_other T ws k : Forall (fun w => ours w.1 = false) ws -> ours k = true ->
  write_rows T ws !! k = T !! k.
Proof.
  intros Hws Hk. revert T. induction Hws as [|[k' o] ws Hw Hws IH]; intros T; [done|]. cbn in *.
  rewrite IH. unfold write_row; cbn. assert (k' <> k) by (intros ->; congruence).
  destruct o; [by rewrite lookup_insert_ne|by rewrite lookup_delete_ne].
Qed.

Lemma ours_pull k : starts_with PULL_PREFIX k = true -> ours k = true.
Proof. intros E. unfold ours. by rewrite E. Qed.

Lemma foreign_move t r ws s :
  Inv s -> Forall (fun w => ours w.1 = false) ws ->
  Inv (written t r ws s) /\ forall t', t' <> t -> Rely t' s (written t r ws s).
Proof.
  intros HI Hws. set (s' := written t r ws s).
  assert (Hk : forall k, ours k = true -> tbl s' r !! k = tbl s r !! k).
  { intros k Hk. unfold s'. rewrite written_tbl. by apply write_rows_other. }
  assert (Hn : tbl s' r !! NEXT_PULL_KEY = tbl s r !! NEXT_PULL_KEY) by by apply Hk.
  assert (Em : migrated_in s' r = migrated_in s r) by (unfold migrated_in; by rewrite Hk).
  assert (En : next s' r = next s r) by (unfold next, next_of; by rewrite Hn).
  assert (Er : forall n, row_of s' r n = row_of s r n).
  { intros n. unfold row_of. by rewrite Hk by apply ours_pull, pull_key_prefix. }
  assert (Era : forall m, raised s' r m = raised s r m) by (intros m; by apply written_raised_same).
  destruct (inv_repo s HI r) as [Ir In If Io Ira].
  apply (move t r); [done|intros; by apply written_other|done| |rewrite Em; by left| |].
  - split.
    + intros k v Hv Hp. rewrite Hk in Hv by by apply ours_pull. eauto.
    + by rewrite Hn.
    + intros Hm n pr. rewrite Er, En. apply If. by rewrite <- Em.
    + intros Hm n pr. rewrite Er. apply Io. by rewrite <- Em.
    + intros m t'. rewrite Era, Em, En. apply Ira.
  - intros n. exists []. rewrite Er. constructor.
  - intros t' _. split.
    + by rewrite Em.
    + intros Hl. split; [done|]. split; [done|]. split; [done|]. intros n pr. by rewrite Er.
    + intros m. by rewrite Era, Er.
Qed.

(** Who may write a change, and what the invariant asks of it. *)
Record may_put (t : nat) (r : repo_id) (n : Z) (pr : PullRequest) (s : World) : Prop := {
  put_number : number pr = n;
  put_step : exists l, pull_step (old_rows r) n l (row_of s r n) (Some pr);
  put_right : (lock s r = Some t /\ (is_Some (row_of s r n) \/ migrated_in s r = false)) \/
              (row_of s r n = None /\ raised s r (n + 1) = Some t);
  put_free : migrated_in s r = true -> n < next s r;
  put_old : migrated_in s r = false -> exists old, old ∈ old_rows r /\ unstamped old = unstamped pr;
}.

Abbreviation put_world t r pr s := (written t r [(pull_key (number pr), Some (encode_pull pr))] s).

Lemma put_row t r pr s n :
  row_of (put_world t r pr s) r n = if decide (n = number pr) then Some pr else row_of s r n.
Proof.
  unfold row_of. rewrite written_tbl. cbn. unfold write_row. cbn. destruct (decide (n = number pr)) as [->|Hne].
  - rewrite lookup_insert_eq. cbn. apply decode_encode_pull.
  - rewrite lookup_insert_ne; [done|]. intros E%pull_key_inj. congruence.
Qed.

Lemma put_move t r n pr s : Inv s -> may_put t r n pr s ->
  Inv (put_world t r pr s) /\ forall t', t' <> t -> Rely t' s (put_world t r pr s).
Proof.
  intros HI [En (l & Hst) Hright Hfree Hold]. pose proof (put_row t r pr s) as Er. set (s' := put_world t r pr s) in *.
  assert (Hnx : tbl s' r !! NEXT_PULL_KEY = tbl s r !! NEXT_PULL_KEY).
  { unfold s'. rewrite written_tbl. cbn. unfold write_row. cbn. by rewrite lookup_insert_ne. }
  assert (Em : migrated_in s' r = migrated_in s r).
  { unfold migrated_in, s'. rewrite written_tbl. cbn. unfold write_row. cbn. by rewrite lookup_insert_ne. }
  assert (Ex : next s' r = next s r) by (unfold next, next_of; by rewrite Hnx).
  assert (Era : forall m, raised s' r m = raised s r m) by (intros m; by apply written_raised_same).
  destruct (inv_repo s HI r) as [Ir In If Io Ira].
  apply (move t r); [done|intros; by apply written_other|done| |rewrite Em; by left| |].
  - split.
    + intros k v. unfold s'. rewrite written_tbl. cbn. unfold write_row. cbn.
      destruct (decide (k = pull_key (number pr))) as [->|Hne].
      * rewrite lookup_insert_eq. intros [= <-] _. by exists pr.
      * rewrite lookup_insert_ne by done. apply Ir.
    + by rewrite Hnx.
    + intros Hm n' pr'. rewrite Er, Ex. rewrite Em in Hm. destruct (decide _) as [->|]; [|by apply If].
      intros _. rewrite En. by apply Hfree.
    + intros Hm n' pr'. rewrite Er. rewrite Em in Hm. destruct (decide _) as [->|]; [|by apply Io].
      intros [= <-]. by apply Hold.
    + intros m t'. rewrite Era, Em, Ex. apply Ira.
  - intros n'. rewrite Er. destruct (decide _) as [->|]; [|by exists []; constructor].
    exists [l]. apply path_one. by rewrite En.
  - intros t' Ht. split.
    + by rewrite Em.
    + intros Hl. split; [done|]. split; [done|]. split; [done|]. intros n' pr' Hr. rewrite Er.
      destruct (decide _) as [->|]; [|done]. exfalso. rewrite En in Hr. destruct Hright as [[? _]|[? _]]; congruence.
    + intros m Hm. rewrite Era. split; [done|]. intros Hr. rewrite Er. destruct (decide _) as [E|]; [|done].
      exfalso. rewrite En in E. subst n.
      destruct Hright as [[_ [[? Hs]|Hu]]|[_ Ht']]; [congruence| |].
      * destruct (Ira m t' Hm) as [? _]. congruence.
      * replace (number pr + 1) with m in Ht' by lia. congruence.
Qed.

(** The counter, of a repository that is migrated and one that is not. *)
Abbreviation next_world t r m s := (written t r [(NEXT_PULL_KEY, Some (display_i m))] s).

Lemma next_row t r m s n : row_of (next_world t r m s) r n = row_of s r n.
Proof. unfold row_of. rewrite written_tbl. cbn. unfold write_row. cbn. by rewrite lookup_insert_ne. Qed.

Lemma next_migrated t r m s : migrated_in (next_world t r m s) r = migrated_in s r.
Proof. unfold migrated_in. rewrite written_tbl. cbn. unfold write_row. cbn. by rewrite lookup_insert_ne. Qed.

Lemma next_lookup t r m s : tbl (next_world t r m s) r !! NEXT_PULL_KEY = Some (display_i m).
Proof. rewrite written_tbl. cbn. unfold write_row. cbn. by rewrite lookup_insert_eq. Qed.

Lemma next_set t r m s : 0 <= m <= i64_max -> next_of (next_world t r m s) r = Some m.
Proof. intros Hm. unfold next_of. rewrite next_lookup, parse_i64_display; done. Qed.

Lemma next_raised t r m s : 0 <= m <= i64_max -> migrated_in s r = true -> next s r < m ->
  forall m', raised (next_world t r m s) r m' = if decide (m' = m) then Some t else raised s r m'.
Proof.
  intros Hm Hmig Hlt m'. pose proof (next_set t r m s Hm) as Hn. pose proof (next_lookup t r m s) as Hl.
  unfold written in *. cbn [raised tbl lock next_of] in *. rewrite bool_decide_true in Hl by done.
  rewrite (bool_decide_true (r = r)), Hmig by done. cbn [andb]. rewrite Hl.
  rewrite bool_decide_false.
  - cbn [negb andb]. unfold next_of in *. cbn [tbl] in *. rewrite Hn.
    destruct (decide (m' = m)) as [->|Hne]; [by rewrite bool_decide_true|by rewrite bool_decide_false by congruence].
  - intros E. unfold next, next_of in Hlt. rewrite E, parse_i64_display in Hlt by done. cbn in Hlt. lia.
Qed.

Lemma next_move t r m s :
  Inv s -> lock s r = Some t -> 1 <= m -> fits (next_world t r m s) -> m <= i64_max ->
  (migrated_in s r = true -> next s r < m) ->
  Inv (next_world t r m s) /\ forall t', t' <> t -> Rely t' s (next_world t r m s).
Proof.
  intros HI Hlock Hm Hfits Hmax Hlt.
  pose proof (next_row t r m s) as Er. pose proof (next_migrated t r m s) as Em.
  pose proof (next_set t r m s ltac:(lia)) as Hn. pose proof (next_lookup t r m s) as Hl.
  assert (Era : forall m' t', raised s r m' = Some t' -> m' <= next s r /\ raised (next_world t r m s) r m' = Some t').
  { intros m' t' Hr. destruct (inv_raised s r (inv_repo s HI r) m' t' Hr) as [Hmig Hle]. split; [done|].
    rewrite next_raised by (lia || auto). rewrite decide_False; [done|]. specialize (Hlt Hmig). lia. }
  assert (Era' : forall m' t', raised (next_world t r m s) r m' = Some t' ->
    migrated_in s r = true /\ m' <= m).
  { intros m' t' Hr. destruct (migrated_in s r) eqn:Hmig.
    - rewrite next_raised in Hr by (lia || auto). destruct (decide _); [split; [done|lia]|].
      apply Era in Hr. specialize (Hlt eq_refl). split; [done|lia].
    - rewrite written_raised_unmigrated in Hr by done.
      destruct (inv_raised s r (inv_repo s HI r) m' t' Hr). congruence. }
  set (s' := next_world t r m s) in *.
  assert (Ex : next s' r = m) by (unfold next; by rewrite Hn).
  destruct (inv_repo s HI r) as [Ir In If Io Ira].
  apply (move t r); [done|intros; by apply written_other|done| |rewrite Em; by left| |].
  - split.
    + intros k v. unfold s'. rewrite written_tbl. cbn. unfold write_row. cbn.
      destruct (decide (k = NEXT_PULL_KEY)) as [->|Hne]; [done|]. rewrite lookup_insert_ne by done. apply Ir.
    + intros v. rewrite Hl. intros [= <-]. exists m. split; [apply parse_i64_display; lia|]. split; [done|].
      apply (Hfits r m), Hn.
    + intros Hmg n pr. rewrite Er, Ex. rewrite Em in Hmg. intros Hr. specialize (If Hmg n pr Hr). specialize (Hlt Hmg). lia.
    + intros Hmg n pr. rewrite Er. rewrite Em in Hmg. by apply Io.
    + intros m' t' Hr. rewrite Em, Ex. by apply (Era' m' t').
  - intros n. exists []. rewrite Er. constructor.
  - intros t' Ht. split.
    + by rewrite Em.
    + intros Hl'. congruence.
    + intros m' Hr. rewrite Er. split; [|done]. by apply Era.
Qed.

Abbreviation mark_world t r s := (written t r [(MIGRATED_KEY, Some "1")] s).

Lemma mark_move t r s :
  Inv s -> lock s r = Some t -> migrated_in s r = false -> all_copied s r ->
  (forall n pr, row_of s r n = Some pr -> n < next s r) ->
  Inv (mark_world t r s) /\ forall t', t' <> t -> Rely t' s (mark_world t r s).
Proof.
  intros HI Hlock Hm Hall Hfree. set (s' := mark_world t r s).
  assert (Er : forall n, row_of s' r n = row_of s r n).
  { intros n. unfold row_of, s'. rewrite written_tbl. cbn. unfold write_row. cbn. by rewrite lookup_insert_ne. }
  assert (Hnx : tbl s' r !! NEXT_PULL_KEY = tbl s r !! NEXT_PULL_KEY).
  { unfold s'. rewrite written_tbl. cbn. unfold write_row. cbn. by rewrite lookup_insert_ne. }
  assert (Ex : next s' r = next s r) by (unfold next, next_of; by rewrite Hnx).
  assert (Em : migrated_in s' r = true).
  { unfold migrated_in, s'. rewrite written_tbl. cbn. unfold write_row. cbn. by rewrite lookup_insert_eq. }
  destruct (inv_repo s HI r) as [Ir In If Io Ira].
  apply (move t r); [done|intros; by apply written_other|done| | | |].
  - split.
    + intros k v. unfold s'. rewrite written_tbl. cbn. unfold write_row. cbn.
      destruct (decide (k = MIGRATED_KEY)) as [->|Hne]; [done|]. rewrite lookup_insert_ne by done. apply Ir.
    + by rewrite Hnx.
    + intros _ n pr. rewrite Er, Ex. apply Hfree.
    + intros. congruence.
    + intros m t'. unfold s'. rewrite written_raised_same by done. fold s'. intros Hr.
      destruct (Ira m t' Hr). congruence.
  - intros _. right. intros old Ho. destruct (Hall old Ho) as (pr & Hpr). exists pr. by rewrite Er.
  - intros n. exists []. rewrite Er. constructor.
  - intros t' Ht. split; [done|congruence|]. intros m Hr. destruct (Ira m t' Hr). congruence.
Qed.

(** *** Locks *)
Lemma lock_move t r h s :
  Inv s -> (lock s r = None \/ lock s r = Some t) ->
  Inv (set_lock s r h) /\ forall t', t' <> t -> Rely t' s (set_lock s r h).
Proof.
  intros HI Hl. assert (Hs : forall r', same_repo s (set_lock s r h) r') by done.
  assert (He : evolves s (set_lock s r h)).
  { intros r' n. exists []. rewrite (same_repo_row s (set_lock s r h) r' n (Hs r')). constructor. }
  destruct HI as [Hi Hc Hev]. split.
  - split.
    + intros r'. by apply (same_repo_inv s).
    + intros r' Hr'. destruct (Hc r' Hr'); [by left|right; by eapply all_copied_evolves].
    + by eapply evolves_trans.
  - intros t' Ht. split; [done|]. intros r'. split; [done| |done]. intros Hl'. split; [|done].
    unfold set_lock. cbn. rewrite bool_decide_false; [done|]. intros ->. destruct Hl; congruence.
Qed.
End world.

(** * Handlers and lanes *)

Section rules.
Context {oid : Type} `{EqDecision oid} `{Hex oid} `{PullCodec}.
Abbreviation eff := (pull_eff (oid := oid)).
Abbreviation PP := (prog eff).

Variable src : Source.
Variable held : string -> list PullRequest.
Variable s0 : World.
Hypothesis held_laws : HeldLaws held.

Abbreviation wpp := (wp (psem (oid := oid) held) (Inv src held s0) (Rely src held)).
Abbreviation Inv := (Inv src held s0).
Abbreviation Rely := (Rely src held).
Abbreviation old_rows := (old_rows src held).

(** What stays known to a task when it lets go of the lock. *)
Definition Stay (t : nat) (s s' : World) : Prop := forall r,
  (migrated_in s r = true -> migrated_in s' r = true) /\
  forall m, raised s r m = Some t -> raised s' r m = Some t /\ (row_of s r (m - 1) = None -> row_of s' r (m - 1) = None).

Lemma rely_stay t s s' : Rely t s s' -> Stay t s s'.
Proof. intros [_ Hk] r. destruct (Hk r). auto. Qed.

Lemma stay_trans t a b c : Stay t a b -> Stay t b c -> Stay t a c.
Proof.
  intros Hab Hbc r. destruct (Hab r) as [Hm Hr], (Hbc r) as [Hm' Hr']. split; [auto|].
  intros m Hrm. destruct (Hr m Hrm) as [Hrm' ?]. destruct (Hr' m Hrm'). auto.
Qed.

Lemma stay_refl t s : Stay t s s.
Proof. by intros r. Qed.

Lemma take_lock_rely t r s : lock s r = None -> Rely t s (set_lock s r (Some t)).
Proof.
  intros Hl. split.
  - intros r' n. exists []. constructor.
  - intros r'. split; [done| |done]. intros Hl'. split; [|done]. unfold set_lock. cbn.
    rewrite bool_decide_false; [done|]. intros ->. congruence.
Qed.

Lemma wp_with_lock {A} t r (p : PP A) s (Q : A -> World -> Prop) :
  (forall s1, Stay t s s1 -> lock s1 r = Some t -> wpp t p s1 (fun a s2 => forall s3, Stay t s2 s3 -> Q a s3)) ->
  wpp t (with_lock r p) s Q.
Proof.
  intros Hp. unfold with_lock. apply wp_bind. intros s1 x s2 HR HI [Hl ->].
  destruct (lock_move src held s0 t r (Some t) s1 HI (or_introl Hl)) as [HI2 HG].
  split; [done|]. split; [done|]. cbn. apply wp_bind.
  assert (Hs : Stay t s (set_lock s1 r (Some t))).
  { eapply stay_trans; [apply rely_stay, HR|]. by apply rely_stay, take_lock_rely. }
  eapply wp_mono; [apply Hp; [done|]; cbn; by rewrite bool_decide_true|]. intros a s3 HQ. cbn.
  intros s4 [] s5 HR4 HI4 [Hl4 ->]. destruct (lock_move src held s0 t r None s4 HI4 (or_intror Hl4)) as [HI5 HG5].
  split; [done|]. split; [done|]. apply HQ. eapply stay_trans; [apply rely_stay, HR4|].
  intros r'. split; [exact id|]. intros m Hm. by split; [|exact id].
Qed.

(** ** Reads *)
Fixpoint row_reads {A} (p : prog row_eff A) : Prop :=
  match p with
  | Ret _ => True
  | Vis X e k => reads_row e /\ forall x, row_reads (k x)
  end.

Lemma readonly_row {A} (p : prog row_eff A) : row_reads p -> readonly (row (oid := oid) p).
Proof. induction p as [a|X e k IH]; cbn; [done|]. intros [He Hk]. split; [done|]. intros x. by apply IH. Qed.

Lemma get_readonly r n : readonly (get (oid := oid) r n).
Proof. cbn. split; [done|]. by intros []. Qed.

Lemma wp_get_pull t r n s Q :
  (forall s1, Rely t s s1 -> Inv s1 -> Q (Ok (row_of s1 r n)) s1) ->
  (forall e s1, Rely t s s1 -> Q (Err e) s1) ->
  wpp t (get r n) s Q.
Proof.
  intros Hok Herr. cbn. intros s1 x s2 HR HI [-> Hx]. split; [done|]. split; [intros; reflexivity|].
  destruct x as [v|e]; [|by apply Herr]. cbn. specialize (Hx v eq_refl). pose proof (Hok s1 HR HI) as Hq.
  unfold row_of in Hq. rewrite <- Hx in Hq. destruct v as [v|]; [|exact Hq].
  destruct (inv_rows _ _ s1 r (inv_repo _ _ _ s1 HI r) _ v (eq_sym Hx) (pull_key_prefix n)) as (pr & -> & _).
  cbn in Hq |- *. by rewrite decode_encode_pull in Hq |- *.
Qed.

Lemma wp_db_get t r k s (Q : result (option string) -> World -> Prop) :
  (forall s1, Rely t s s1 -> Inv s1 -> Q (Ok (tbl s1 r !! k)) s1) ->
  (forall e s1, Rely t s s1 -> Q (Err e) s1) ->
  wpp t (row (db_get r k)) s Q.
Proof.
  intros Hok Herr. cbn. intros s1 x s2 HR HI [-> Hx]. split; [done|]. split; [intros; reflexivity|].
  destruct x as [v|e]; [|by apply Herr]. rewrite (Hx v eq_refl). by apply Hok.
Qed.

(** ** Writes *)
Lemma wp_db_put t r k v s (Q : result unit -> World -> Prop) :
  (forall s1, Rely t s s1 -> Inv s1 -> let s2 := written t r [(k, Some v)] s1 in
     (fits s2 -> Inv s2 /\ forall t', t' <> t -> Rely t' s1 s2) /\ (Inv s2 -> Q (Ok tt) s2 /\ forall e, Q (Err e) s2) /\
     forall e, Q (Err e) s1) ->
  wpp t (row (db_put r k v)) s Q.
Proof.
  intros Hw. cbn. intros s1 x s2 HR HI Hs. destruct (Hw s1 HR HI) as (Hm & Hq & He).
  destruct Hs as [[-> Hf]|[-> Hx]].
  - destruct (Hm Hf) as [HI2 HG]. split; [done|]. split; [done|]. destruct (Hq HI2). by destruct x as [[]|].
  - split; [done|]. split; [intros; reflexivity|]. by destruct x as [[]|].
Qed.

Lemma wp_put_pull t r pr s (Q : result unit -> World -> Prop) :
  (forall s1, Rely t s s1 -> Inv s1 -> may_put src held t r (number pr) pr s1) ->
  (forall s1, Rely t s s1 -> Inv s1 -> let s2 := written t r [(pull_key (number pr), Some (encode_pull pr))] s1 in
     Inv s2 -> Q (Ok tt) s2) ->
  (forall e s2, Q (Err e) s2) ->
  wpp t (put r pr) s Q.
Proof.
  intros Hmay Hq He. apply wp_db_put. intros s1 HR HI s2. split; [|split; [|done]].
  - intros _. by apply (put_move src held s0 t r (number pr)); [|apply Hmay].
  - intros HI2. split; [by apply Hq|done].
Qed.

(** ** Programs that only look at the clock *)
Fixpoint now_only {A} (Q : A -> Prop) (p : PP A) : Prop :=
  match p with
  | Ret a => Q a
  | Vis X e k =>
    match e in pull_eff Y return (Y -> PP A) -> (forall y : Y, Prop) -> Prop with
    | PNow => fun _ rec => forall x, rec x
    | _ => fun _ _ => False
    end k (fun x => now_only Q (k x))
  end.

Lemma wp_now_only {A} (Q : A -> Prop) t (p : PP A) s :
  now_only Q p -> wpp t p s (fun a s' => Q a /\ Rely t s s').
Proof using Type.
  revert s. induction p as [a|X e k IH]; intros s; cbn; [by split|].
  intros Hn s1 x s2 HR HI Hs. destruct e; try done. cbn in *. subst s2.
  split; [done|]. split; [intros; reflexivity|]. eapply wp_mono; [by apply IH|].
  intros a s' [? ?]. split; [done|]. by etrans.
Qed.

(** ** Modifying a change *)
Definition modifies {R} (r : repo_id) (n : Z) (ready : bool) (f : PullRequest -> PP (PullRequest + R)) : Prop :=
  forall pr, number pr = n -> now_only (fun o => match o with
    | inl pr' => exists l, pull_step (old_rows r) n l (Some pr) (Some pr') /\ (ready = true \/ unstamped pr = unstamped pr')
    | inr _ => True
    end) (f pr).

Lemma row_number s r n pr : Inv s -> row_of s r n = Some pr -> number pr = n.
Proof.
  intros HI Hr. unfold row_of in Hr. destruct (tbl s r !! pull_key n) as [v|] eqn:E; [|done]. cbn in Hr.
  destruct (inv_rows _ _ s r (inv_repo _ _ _ s HI r) _ v E (pull_key_prefix n)) as (pr' & -> & Hk).
  apply pull_key_inj in Hk. rewrite decode_encode_pull in Hr. congruence.
Qed.

Lemma locked_row t s s' r n pr : Rely t s s' -> lock s r = Some t -> row_of s r n = Some pr ->
  lock s' r = Some t /\ row_of s' r n = Some pr.
Proof. intros [_ Hk] Hl Hr. destruct (keeps_locked _ _ _ _ (Hk r) Hl) as (? & _ & _ & Hrow). eauto. Qed.

Lemma rely_migrated t s s' r : Rely t s s' -> migrated_in s r = true -> migrated_in s' r = true.
Proof. intros [_ Hk]. apply (keeps_migrated _ _ _ _ (Hk r)). Qed.

Lemma step_may_put t r n l pr pr' s :
  Inv s -> lock s r = Some t -> row_of s r n = Some pr ->
  pull_step (old_rows r) n l (Some pr) (Some pr') ->
  (migrated_in s r = true \/ unstamped pr = unstamped pr') ->
  may_put src held t r (number pr') pr' s.
Proof.
  intros HI Hl Hr Hst Hu. pose proof (row_number s r n pr HI Hr) as En.
  destruct (step_keeps (old_rows r) n l (Some pr) (Some pr') pr Hst eq_refl) as (b & [= <-] & [Hn _] & _).
  rewrite <- Hn, En. destruct (inv_repo _ _ _ s HI r) as [Ir In If Io Ira]. split.
  - congruence.
  - rewrite Hr. by exists l.
  - left. split; [done|]. left. by rewrite Hr.
  - intros Hm. by apply (If Hm n pr).
  - intros Hm. destruct Hu as [|Hu]; [congruence|]. destruct (Io Hm n pr Hr) as (old & Ho & Eo).
    exists old. split; [done|congruence].
Qed.

Lemma wp_modify_pull {R} t r n (f : PullRequest -> PP (PullRequest + R)) ready s :
  modifies r n ready f -> (ready = true -> migrated_in s r = true) ->
  wpp t (modify r n f) s (fun _ _ => True).
Proof.
  intros Hf Hready. unfold modify. apply wp_with_lock. intros s1 Hs Hl.
  assert (Hm1 : ready = true -> migrated_in s1 r = true) by (intros E; apply (Hs r); auto).
  apply wp_bind_res. apply wp_get_pull; [|done]. intros s2 HR2 HI2.
  destruct (row_of s2 r n) as [pr|] eqn:Hr; [|done].
  destruct (keeps_locked _ _ _ _ (proj2 HR2 r) Hl) as (Hl2 & _).
  apply wp_bind. eapply wp_mono; [apply wp_now_only, Hf; by apply (row_number s2 r)|].
  intros [pr'|x] s3 [Ho HR3]; [|done]. destruct Ho as (l & Hst & Hu).
  apply wp_bind_res. apply wp_put_pull; [|done..]. intros s4 HR4 HI4.
  destruct (locked_row t s2 s3 r n pr HR3 Hl2 Hr) as [Hl3 Hr3].
  destruct (locked_row t s3 s4 r n pr HR4 Hl3 Hr3) as [Hl4 Hr4].
  apply (step_may_put t r n l pr pr'); try done. destruct Hu as [E|]; [left|by right].
  apply (rely_migrated t s3), (rely_migrated t s2), (rely_migrated t s1); auto.
Qed.

(** ** Numbers *)
Lemma locked_next t s s' r : Rely t s s' -> lock s r = Some t ->
  lock s' r = Some t /\ next s' r = next s r /\ migrated_in s' r = migrated_in s r.
Proof.
  intros [_ Hk] Hl. destruct (keeps_locked _ _ _ _ (Hk r) Hl) as (? & Hn & Hm & _). split; [done|].
  split; [unfold next, next_of; by rewrite Hn|done].
Qed.

Lemma next_bounds s r : Inv s -> 1 <= next s r < i64_max.
Proof.
  intros HI. unfold next, next_of. destruct (tbl s r !! NEXT_PULL_KEY) as [v|] eqn:E.
  - destruct (inv_next _ _ s r (inv_repo _ _ _ s HI r) v E) as (n & -> & Hn). done.
  - cbn. unfold i64_max. lia.
Qed.

Lemma next_parse s r v : Inv s -> tbl s r !! NEXT_PULL_KEY = Some v -> parse_i64 v = inl (next s r).
Proof.
  intros HI E. destruct (inv_next _ _ s r (inv_repo _ _ _ s HI r) v E) as (n & Hp & Hn).
  unfold next, next_of. by rewrite E, Hp.
Qed.

Lemma i64_wrap_small z : i64_min <= z <= i64_max -> i64_wrap z = z.
Proof. unfold i64_wrap, i64_min, i64_max. intros Hz. rewrite Z.mod_small by lia. lia. Qed.

(** A number drawn is one no change has, and stays the drawer's. *)
Lemma wp_next_number t r s (Q : result Z -> World -> Prop) :
  migrated_in s r = true ->
  (forall n s', raised s' r (n + 1) = Some t -> row_of s' r n = None -> Q (Ok n) s') ->
  (forall e s', Q (Err e) s') ->
  wpp t (next_number r) s Q.
Proof.
  intros Hm Hok Herr. unfold next_number. apply wp_with_lock. intros s1 Hs Hl.
  apply (proj1 (Hs r)) in Hm. apply wp_bind_res. apply wp_db_get; [|by intros]. intros s2 HR2 HI2.
  destruct (locked_next t s1 s2 r HR2 Hl) as (Hl2 & En2 & Em2).
  assert (Hn : match tbl s2 r !! NEXT_PULL_KEY with
               | Some v => ok_or (ok_parse (parse_i64 v)) (EMsg "bad meta/next_pull")
               | None => Ok 1
               end = Ok (next s2 r)).
  { destruct (tbl s2 r !! NEXT_PULL_KEY) as [v|] eqn:E; [by rewrite (next_parse s2 r v HI2 E)|].
    unfold next, next_of. by rewrite E. }
  rewrite Hn. pose proof (next_bounds s2 r HI2) as Hb. set (n := next s2 r) in *.
  rewrite i64_wrap_small by (unfold i64_min, i64_max in *; lia).
  apply wp_bind_res, wp_db_put. intros s3 HR3 HI3 s4.
  destruct (locked_next t s2 s3 r HR3 Hl2) as (Hl3 & En3 & Em3). fold n in En3.
  assert (Hm3 : migrated_in s3 r = true) by congruence.
  split; [|split; [|by intros]].
  - intros Hf. by apply next_move; auto; lia.
  - intros HI4. split; [|by intros]. cbn. intros s5 Hs5.
    destruct (proj2 (Hs5 r) (n + 1)) as [Hr5 Hrow].
    { unfold s4. rewrite next_raised by (lia || auto). by rewrite decide_True. }
    apply Hok; [done|]. replace (n + 1 - 1) with n in Hrow by lia. apply Hrow.
    destruct (row_of s4 r n) as [pr|] eqn:E; [|done]. exfalso. unfold s4 in E. rewrite next_row in E.
    pose proof (inv_free _ _ s3 r (inv_repo _ _ _ s3 HI3 r) Hm3 n pr E). lia.
Qed.

(** ** Migration *)
Lemma old_rows_held r pr : pr ∈ old_rows r -> pr ∈ held (r.1 +:+ "/" +:+ r.2).
Proof.
  unfold PullsRules.old_rows. destruct src; try (by intros ?%elem_of_nil).
  rewrite <- (take_drop LISTING_LIMIT (held _)) at 2. intros Hp. apply elem_of_app. by left.
Qed.

Lemma old_rows_unique r a b : a ∈ old_rows r -> b ∈ old_rows r -> number a = number b -> a = b.
Proof using held_laws.
  intros Ha%old_rows_held Hb%old_rows_held E. pose proof (held_unique held held_laws (r.1 +:+ "/" +:+ r.2)) as Hnd.
  revert Ha Hb. induction (held (r.1 +:+ "/" +:+ r.2)) as [|x l IH]; [by intros ?%elem_of_nil|].
  cbn in Hnd. apply NoDup_cons in Hnd as [Hx Hnd].
  assert (Hin : forall y, y ∈ l -> number y = number x -> False).
  { intros y Hy Ey. apply Hx. rewrite <- Ey. by apply list_elem_of_fmap_2. }
  intros [->|Ha]%elem_of_cons [->|Hb]%elem_of_cons; [done|exfalso; eauto..|auto].
Qed.

(** Copying a directory row again only takes stamps off the change. *)
Lemma migrate_may_put t r pr s :
  Inv s -> lock s r = Some t -> migrated_in s r = false -> pr ∈ old_rows r -> may_put src held t r (number pr) pr s.
Proof using held_laws.
  intros HI Hl Hm Hin. split; [done| |left; split; [done|by right]|congruence|by exists pr].
  destruct (row_of s r (number pr)) as [cur|] eqn:Hr.
  - exists LStamped. apply step_stamped.
    destruct (inv_old _ _ s r (inv_repo _ _ _ s HI r) Hm _ cur Hr) as (old & Ho & Eu).
    assert (old = pr) as ->; [|done]. apply (old_rows_unique r); [done..|].
    destruct (unstamped_fields old cur Eu) as [[En _] _]. rewrite En. by apply (row_number s r).
  - exists LMigrated. by apply step_migrated.
Qed.

Lemma wp_put_rows t r rows : forall nx s,
  (forall pr, pr ∈ rows -> pr ∈ old_rows r) -> lock s r = Some t -> migrated_in s r = false -> 1 <= nx < i64_max ->
  wpp t (put_rows r rows nx) s (fun x s' => match x with
    | Err _ => True
    | Ok m => lock s' r = Some t /\ migrated_in s' r = false /\ nx <= m < i64_max /\
        (forall pr, pr ∈ rows -> number pr < m /\ is_Some (row_of s' r (number pr))) /\
        (forall n, is_Some (row_of s r n) -> is_Some (row_of s' r n))
    end).
Proof using held_laws.
  induction rows as [|pr rows IH]; intros nx s Hin Hl Hm Hnx.
  { cbn. split; [done|]. split; [done|]. split; [lia|]. split; [by intros pr ?%elem_of_nil|done]. }
  cbn [put_rows].
  assert (Hb : i64_min <= number pr < i64_max - 1).
  { apply (held_fits held held_laws (r.1 +:+ "/" +:+ r.2)), old_rows_held, Hin. left. }
  rewrite i64_wrap_small by lia. apply wp_bind_res. apply wp_put_pull; [| |by intros].
  - intros s1 HR HI. destruct (locked_next t s s1 r HR Hl) as (Hl1 & _ & Em).
    apply migrate_may_put; [done..|congruence|]. apply Hin. left.
  - intros s1 HR HI s2 HI2. destruct (locked_next t s s1 r HR Hl) as (Hl1 & _ & Em).
    assert (Em2 : migrated_in s2 r = false).
    { rewrite <- Hm, <- Em. unfold migrated_in, s2. rewrite written_tbl. cbn. unfold write_row. cbn.
      by rewrite lookup_insert_ne. }
    assert (Hrow : forall n, row_of s2 r n = if decide (n = number pr) then Some pr else row_of s1 r n) by apply put_row.
    eapply wp_mono; [apply (IH (Z.max nx (number pr + 1)) s2); try done; [set_solver +Hin|lia]|].
    intros [m|e] s3; [|done]. intros (Hl3 & Hm3 & Hle & Hall & Hkeep).
    split; [done|]. split; [done|]. split; [lia|]. split.
    + intros x [->|Hx]%elem_of_cons; [|by apply Hall]. split; [lia|]. apply Hkeep. rewrite Hrow, decide_True by done. done.
    + intros n [y Hy]. apply Hkeep. rewrite Hrow. destruct (decide _); [done|].
      destruct (keeps_locked _ _ _ _ (proj2 HR r) Hl) as (_ & _ & _ & Hk). by rewrite (Hk n y Hy).
Qed.

Lemma wp_source_rows t r s (Q : result (list PullRequest) -> World -> Prop) :
  (forall x s', Rely t s s' -> (forall l, x = Ok l -> l = old_rows r) -> Q x s') -> wpp t (source_rows src r) s Q.
Proof.
  intros HQ. destruct src; cbn.
  - apply HQ; [reflexivity|]. by intros l [= <-].
  - intros s1 x s2 HR HI [-> Hx]. split; [done|]. split; [intros; reflexivity|]. by apply HQ.
  - apply HQ; [reflexivity|done].
Qed.

Lemma wp_is_migrated t r s (Q : result bool -> World -> Prop) :
  (forall x s', Rely t s s' -> (forall b, x = Ok b -> b = migrated_in s' r) -> Q x s') -> wpp t (is_migrated r) s Q.
Proof.
  intros HQ. apply wp_bind_res, wp_db_get.
  - intros s1 HR HI. cbn. apply HQ; [done|]. by intros b [= <-].
  - intros e s1 HR. by apply HQ.
Qed.

(** The rows are all there before the mark is. *)
Lemma wp_migrate_locked t r s :
  lock s r = Some t ->
  wpp t (migrate_locked r (source_rows src r)) s (fun x s' => x = Ok tt -> migrated_in s' r = true).
Proof using held_laws.
  intros Hl. unfold migrate_locked. apply wp_bind_res, wp_is_migrated. intros [b|e] s1 HR1 Hd; [|done].
  rewrite (Hd b eq_refl). destruct (locked_next t s s1 r HR1 Hl) as (Hl1 & _ & _).
  destruct (migrated_in s1 r) eqn:Hm1; [by intros _|].
  apply wp_bind_res, wp_source_rows. intros [rows|e] s2 HR2 Hrows; [|done]. rewrite (Hrows rows eq_refl).
  destruct (locked_next t s1 s2 r HR2 Hl1) as (Hl2 & _ & Em2). rewrite Hm1 in Em2.
  apply wp_bind_res. eapply wp_mono; [apply wp_put_rows; try done; unfold i64_max; lia|].
  intros [m|e] s3; [|done]. intros (Hl3 & Hm3 & Hle & Hall & _).
  apply wp_bind_res, wp_db_get; [|done]. intros s4 HR4 HI4.
  destruct (locked_next t s3 s4 r HR4 Hl3) as (Hl4 & _ & Em4). rewrite Hm3 in Em4.
  set (nx := match tbl s4 r !! NEXT_PULL_KEY with Some v => _ | None => m end).
  assert (Hnx : m <= nx < i64_max).
  { unfold nx. destruct (tbl s4 r !! NEXT_PULL_KEY) as [v|] eqn:E; [|lia].
    rewrite (next_parse s4 r v HI4 E). cbn. pose proof (next_bounds s4 r HI4). lia. }
  apply wp_bind_res, wp_db_put. intros s5 HR5 HI5 s6.
  destruct (locked_next t s4 s5 r HR5 Hl4) as (Hl5 & _ & Em5). rewrite Em4 in Em5.
  split; [|split; [|done]].
  { intros Hf. apply next_move; try done; try lia. congruence. }
  intros HI6. split; [|done]. apply wp_db_put. intros s7 HR7 HI7 s8.
  assert (Hl6 : lock s6 r = Some t) by done.
  destruct (locked_next t s6 s7 r HR7 Hl6) as (Hl7 & En7 & Em7).
  assert (Em6 : migrated_in s6 r = false) by (unfold s6; rewrite next_migrated; exact Em5).
  assert (En6 : next s6 r = nx) by (unfold s6, next; rewrite next_set by lia; done).
  rewrite Em6 in Em7. rewrite En6 in En7.
  assert (Hkeep : forall n, is_Some (row_of s3 r n) -> is_Some (row_of s7 r n)).
  { intros n [y Hy].
    destruct (keeps_locked _ _ _ _ (proj2 HR4 r) Hl3) as (_ & _ & _ & Hk4).
    destruct (keeps_locked _ _ _ _ (proj2 HR5 r) Hl4) as (_ & _ & _ & Hk5).
    destruct (keeps_locked _ _ _ _ (proj2 HR7 r) Hl6) as (_ & _ & _ & Hk7).
    exists y. apply Hk7. unfold s6. rewrite next_row. auto. }
  split; [|split; [|done]].
  - intros _. apply mark_move; try done.
    + intros old Ho. destruct (Hkeep (number old) (proj2 (Hall old Ho))) as [pr Hpr]. exists pr.
      destruct (inv_old _ _ s7 r (inv_repo _ _ _ s7 HI7 r) Em7 _ pr Hpr) as (old' & Ho' & Eu).
      destruct (unstamped_fields old' pr Eu) as (Hi & _ & _ & Ec & _).
      assert (old' = old) as ->; [|by rewrite Ec].
      apply (old_rows_unique r); [done..|]. destruct Hi as [-> _]. by apply (row_number s7 r).
    + intros n pr Hr. destruct (inv_old _ _ s7 r (inv_repo _ _ _ s7 HI7 r) Em7 n pr Hr) as (old & Ho & Eu).
      destruct (Hall old Ho) as [Hlt _]. destruct (unstamped_fields old pr Eu) as [[En _] _].
      rewrite En, (row_number s7 r n pr HI7 Hr) in Hlt. lia.
  - intros HI8. split; [|done]. intros _. unfold migrated_in, s8. rewrite written_tbl. cbn. unfold write_row. cbn.
    by rewrite lookup_insert_eq.
Qed.

Lemma wp_ensure_migrated t r s :
  wpp t (ensure_migrated src r) s (fun x s' => x = Ok tt -> migrated_in s' r = true).
Proof using held_laws.
  unfold ensure_migrated, migrate_from. apply wp_bind_res, wp_is_migrated. intros [b|e] s1 HR1 Hd; [|done].
  rewrite (Hd b eq_refl). destruct (migrated_in s1 r) eqn:Hm; [by intros _|].
  apply wp_with_lock. intros s2 Hs Hl. eapply wp_mono; [by apply wp_migrate_locked|].
  intros x s3 Hx s4 Hs4 E. apply (Hs4 r). auto.
Qed.

Lemma wp_ready t r s (Q : unit + Response -> World -> Prop) :
  (forall s', migrated_in s' r = true -> Q (inl tt) s') -> (forall rsp s', Q (inr rsp) s') -> wpp t (ready src r) s Q.
Proof using held_laws.
  intros Hok Herr. apply wp_bind. eapply wp_mono; [apply wp_ensure_migrated|].
  intros [[]|e] s' Hx; cbn; [|apply Herr]. by apply Hok, Hx.
Qed.

(** ** Checks *)
Abbreviation safe t p s := (wpp t p s (fun _ _ => True)).

Lemma wp_record_check t r n m deep s : safe t (record_check r n m deep) s.
Proof.
  apply wp_with_lock. intros s1 Hs Hl. apply wp_bind_res, wp_get_pull; [|done]. intros s2 HR2 HI2.
  destruct (row_of s2 r n) as [pr|] eqn:Hr; [|done].
  destruct (locked_next t s1 s2 r HR2 Hl) as (Hl2 & _ & _).
  apply wp_bind_res, wp_put_pull; [|done..]. intros s3 HR3 HI3.
  destruct (locked_row t s2 s3 r n pr HR3 Hl2 Hr) as [Hl3 Hr3].
  apply (step_may_put t r n LStamped pr); [done..|by apply step_stamped|by right].
Qed.

Lemma get_ref_readonly r name : readonly (row (oid := oid) (get_ref r name)).
Proof. apply readonly_row. cbn. split; [done|]. by intros []. Qed.

Lemma safe_bind_read {A B} t (p : PP A) (f : A -> PP B) s :
  readonly p -> (forall a s', safe t (f a) s') -> safe t (bind p f) s.
Proof. intros Hp Hf. apply wp_bind, wp_read; [done|]. auto. Qed.

Lemma safe_res_read {A B} t (p : PP (result A)) (f : A -> PP (result B)) s :
  readonly p -> (forall a s', safe t (f a) s') -> safe t (bind_res p f) s.
Proof. intros Hp Hf. apply safe_bind_read; [done|]. by intros [a|e] s'. Qed.

Lemma safe_bind {A B} t (p : PP A) (f : A -> PP B) s :
  safe t p s -> (forall a s', safe t (f a) s') -> safe t (bind p f) s.
Proof. intros Hp Hf. apply wp_bind. eapply wp_mono; [exact Hp|]. auto. Qed.

Lemma safe_res {A B} t (p : PP (result A)) (f : A -> PP (result B)) s :
  safe t p s -> (forall a s', safe t (f a) s') -> safe t (bind_res p f) s.
Proof. intros Hp Hf. apply safe_bind; [done|]. by intros [a|e] s'. Qed.

Lemma wp_check_with t r n s : safe t (check_with r n) s.
Proof.
  apply safe_res_read; [apply get_readonly|]. intros [pr|] s1; [|done].
  destruct (negb _); [done|]. apply safe_res_read; [apply get_ref_readonly|]. intros b s2.
  apply safe_res_read; [apply get_ref_readonly|]. intros h s3. destruct (is_some_and _ _); [done|].
  assert (Hgone : safe t (let! now := now_ms in record_check r n
    (mkMergeability Unknown (hex b) (hex h) now (Some "one of the branches is gone") false) false) s3)
    by (apply safe_bind_read; [done|]; intros; apply wp_record_check).
  destruct b as [b|]; [|exact Hgone]. destruct h as [h|]; [|exact Hgone].
  apply safe_res_read; [done|]. intros walk s4.
  destruct (ancestry_verdict _ _ _ _) as [[[st ff] detail] deep].
  apply safe_bind_read; [done|]. intros now s5. apply wp_record_check.
Qed.

Lemma wp_check t r n s : safe t (check r n) s.
Proof.
  apply safe_res_read; [done|]. intros [|] s1; [|done]. apply wp_check_with.
Qed.

Lemma wp_check_each t r open : forall walked deep s, safe t (check_each r open walked deep) s.
Proof.
  induction open as [|pr open IH]; intros walked deep s; [done|]. cbn [check_each]. destruct (Nat.leb _ _); [done|].
  apply safe_res; [apply wp_check_with|]. intros [| |d] s1; apply IH.
Qed.

Lemma scan_readonly r : readonly (scan (oid := oid) r).
Proof. done. Qed.

Lemma wp_check_repo t r s : safe t (check_repo r) s.
Proof.
  apply safe_res_read; [by apply readonly_res; [apply scan_readonly|]|]. intros [|pr open] s1; [done|].
  apply safe_res_read; [done|]. intros [|] s2; [|done]. apply wp_check_each.
Qed.

(** ** Lanes *)
Lemma wp_check_owned_pulls t warm : forall s, safe t (check_owned_pulls warm) s.
Proof.
  induction warm as [|r warm IH]; intros s; [done|]. apply safe_bind; [apply wp_check_repo|]. intros; apply IH.
Qed.

Lemma wp_mark_announced t r n s : safe t (mark_announced r n) s.
Proof.
  apply safe_res; [|done]. apply (wp_modify_pull t r n _ false); [|done]. intros pr En.
  destruct (merge pr) as [j|] eqn:Hj; [|done]. cbn. intros now. exists LStamped.
  assert (E : unstamped pr = unstamped (set_merge pr (Some (announced j now)))) by (unfold unstamped; cbn; by rewrite Hj).
  split; [by apply step_stamped|by right].
Qed.

Lemma wp_announce_each t r prs : forall s, safe t (announce_each r prs) s.
Proof.
  induction prs as [|pr prs IH]; intros s; [done|]. cbn [announce_each]. cbv zeta.
  apply safe_bind_read; [done|]. intros now s1. apply safe_bind_read; [done|]. intros [] s2.
  apply safe_bind; [apply wp_mark_announced|]. intros; apply IH.
Qed.

Lemma wp_announce_stranded_merges t warm : forall s, safe t (announce_stranded_merges warm) s.
Proof.
  induction warm as [|r warm IH]; intros s; [done|]. cbn [announce_stranded_merges].
  apply safe_bind_read.
  - apply readonly_bind; [done|]. intros now. apply readonly_res; [|done]. by apply readonly_res; [apply scan_readonly|].
  - intros prs s1. apply safe_bind; [apply wp_announce_each|]. intros; apply IH.
Qed.

(** ** Handlers *)
Variable parse_outcome : string -> option Outcome.
Variable parse_verdict : string -> option Verdict.

Lemma safe_or_reply {A} t (p : PP (A + Response)) k s :
  safe t p s -> (forall a s', safe t (k a) s') -> safe t (or_reply p k) s.
Proof. intros Hp Hk. apply safe_bind; [done|]. by intros [a|rsp] s'; [apply Hk|]. Qed.

Lemma wp_writable t owner name s : safe t (writable owner name) s.
Proof.
  unfold writable. destruct (parse_repo_path _) as [r|]; [|done]. apply wp_weaken with (Q := fun _ _ => True).
  apply wp_read; [|done]. apply readonly_bind; [|done]. apply readonly_row. cbn. split; [done|].
  intros [[|]|]; try done. cbn. split; [done|]. by intros [].
Qed.

Lemma safe_ready t r s : safe t (ready src r) s.
Proof using held_laws. by apply wp_ready. Qed.

Lemma emit_readonly kind pr actor : readonly (emit (oid := oid) kind pr actor).
Proof. done. Qed.

Lemma wp_update t r n f s : modifies r n true f -> safe t (update src r n f) s.
Proof using held_laws.
  intros Hf. apply wp_bind, wp_ready; [|done]. intros s1 Hm. apply wp_bind. eapply wp_mono; [by apply (wp_modify_pull t r n f true)|].
  done.
Qed.

Lemma modifies_step {R} r n (f : PullRequest -> PP (PullRequest + R)) :
  (forall pr, number pr = n -> now_only (fun o => match o with
    | inl pr' => exists l, pull_step (old_rows r) n l (Some pr) (Some pr')
    | inr _ => True
    end) (f pr)) -> modifies r n true f.
Proof.
  intros Hf pr En. specialize (Hf pr En). induction (f pr) as [[pr'|x]|X e k IH]; cbn in *; [|done|].
  - destruct Hf as [l Hl]. exists l. by split; [|left].
  - destruct e; try done. cbn in *. auto.
Qed.

Lemma comment_modifies r n who text :
  modifies r n true (fun pr => (let! now := now_ms in
    Ret (inl (set_comments pr (comments pr ++ [mkComment who text now])%list) : PullRequest + Response))).
Proof. apply modifies_step. intros pr En. cbn. intros now. eexists. apply step_commented. Qed.

Lemma request_modifies r n s who : modifies r n true (request_merge s who).
Proof.
  apply modifies_step. intros pr En. unfold request_merge. destruct (negb _ || _) eqn:E; [done|].
  cbn. intros now. eexists. bools. by apply step_requested.
Qed.

Lemma close_modifies r n : modifies r n true close_pull.
Proof.
  apply modifies_step. intros pr En. unfold close_pull. cbn. destruct (negb _) eqn:E; [done|].
  eexists. bools. by apply step_closed.
Qed.

Lemma judge_modifies r n v : modifies r n true (judge_pull v).
Proof.
  apply modifies_step. intros pr En. cbn. destruct (mergeability pr); [|done]. destruct (_ && _); [done|].
  exists LStamped. by apply step_stamped.
Qed.

Lemma conclude_modifies r n by_ out : modifies r n true (conclude by_ out).
Proof.
  apply modifies_step. intros pr En. unfold conclude. destruct (negb _) eqn:E; [done|]. bools.
  destruct (merge pr) as [j|] eqn:Hj; [|done]. destruct (o_state out) eqn:Eo.
  - cbn. destruct (merged_at_ms pr) as [at_|] eqn:Em; cbn.
    + exists (LConcluded by_ OMerged).
      replace (set_merge _ None) with (merged pr at_) by (unfold merged, set_merge, set_merged_at, set_state; cbn; by rewrite Em).
      by apply (step_merged _ n pr j).
    + intros now. exists (LConcluded by_ OMerged).
      replace (set_merge _ None) with (merged pr now) by (unfold merged, set_merge, set_merged_at, set_state; cbn; by rewrite Em).
      by apply (step_merged _ n pr j).
  - cbn. exists (LConcluded by_ OConflicts). by apply (step_stopped _ n pr j).
  - cbn. exists (LConcluded by_ ORefused). by apply (step_stopped _ n pr j).
Qed.

Lemma wp_claim t r n me s : migrated_in s r = true -> safe t (claim_merge_number r n MERGE_LEASE me) s.
Proof.
  intros Hm. apply wp_bind. apply wp_read; [done|]. intros now s1 HR. apply safe_res; [|done].
  apply (wp_modify_pull t r n _ true); [|by intros _; apply (rely_migrated t s)].
  apply modifies_step. intros pr En. cbn. destruct (negb _ || _) eqn:E; [done|]. bools.
  unfold takeable in *. destruct (merge pr) as [j|] eqn:Hj; [|done]. cbn. exists (LClaimed me now).
  apply step_claimed; [done..|]. unfold takeable. by rewrite Hj.
Qed.

Lemma wp_open_pull t owner name new s : safe t (api_pull_open src owner name new) s.
Proof using held_laws.
  apply safe_or_reply; [apply wp_writable|]. intros r s1. cbv zeta. destruct (String.eqb _ ""); [done|].
  destruct (String.eqb (trim _) _); [done|]. destruct (_ || _); [done|].
  apply wp_bind, wp_ready; [|done]. intros s2 Hm. apply wp_bind, wp_next_number; [done| |done].
  intros n s3 Hra Hrow. apply wp_bind. apply wp_read; [done|]. intros now s4 HR4.
  apply wp_bind. assert (Hput : forall s5, Rely t s4 s5 -> raised s5 r (n + 1) = Some t /\ row_of s5 r n = None).
  { intros s5 HR5. assert (HR : Rely t s3 s5) by by etrans.
    destruct (keeps_raised _ _ _ _ (proj2 HR r) (n + 1) Hra) as [Hra5 Hrow5].
    replace (n + 1 - 1) with n in Hrow5 by lia. auto. }
  apply wp_put_pull; [| |done].
  - intros s5 HR5 HI5. destruct (Hput s5 HR5) as [Hra5 Hrow5]. cbn [number new_pull].
    destruct (inv_raised _ _ s5 r (inv_repo _ _ _ s5 HI5 r) (n + 1) t Hra5) as [Hm5 Hle].
    split; [done| |by right|intros _; lia|congruence].
    rewrite Hrow5. exists LOpened. by apply step_opened.
  - intros s5 HR5 HI5 s6 HI6. apply safe_bind_read; [apply emit_readonly|done].
Qed.

Lemma wp_comment t owner name n body author s : safe t (api_pull_comment src owner name n body author) s.
Proof using held_laws.
  apply safe_or_reply; [apply wp_writable|]. intros r s1. cbv zeta. destruct (String.eqb _ ""); [done|].
  apply safe_or_reply; [by apply wp_update, comment_modifies|]. intros pr s2.
  apply safe_bind_read; [apply emit_readonly|done].
Qed.

Lemma wp_merge t owner name n q_strategy q_by s : safe t (api_pull_merge src owner name n q_strategy q_by) s.
Proof using held_laws.
  apply safe_or_reply; [apply wp_writable|]. intros r s1. cbv zeta. destruct (negb _); [done|].
  apply safe_or_reply; [by apply wp_update, request_modifies|]. intros pr s2.
  apply safe_bind_read; [apply emit_readonly|done].
Qed.

Lemma wp_close t owner name n q_by s : safe t (api_pull_close src owner name n q_by) s.
Proof using held_laws.
  apply safe_or_reply; [apply wp_writable|]. intros r s1.
  apply safe_or_reply; [by apply wp_update, close_modifies|]. intros pr s2.
  apply safe_bind_read; [apply emit_readonly|done].
Qed.

Lemma wp_owner t trusted owner s : safe t (Ret (as_owner trusted owner)) s.
Proof. done. Qed.

Lemma wp_api_check t trusted owner name n s : safe t (api_pull_check src trusted owner name n) s.
Proof using held_laws.
  apply safe_or_reply; [apply wp_writable|]. intros r s1. apply safe_or_reply; [done|]. intros [] s2.
  apply safe_or_reply; [apply safe_ready|]. intros [] s3. apply safe_bind; [|done].
  destruct (n =? 0); [apply wp_check_repo|]. apply safe_res; [apply wp_check|done].
Qed.

Lemma wp_api_claim t trusted owner name n q_by s : safe t (api_pull_claim src trusted owner name n q_by) s.
Proof using held_laws.
  apply safe_or_reply; [apply wp_writable|]. intros r s1. apply safe_or_reply; [done|]. intros [] s2.
  apply wp_bind, wp_ready; [|done]. intros s3 Hm. apply safe_bind; [by apply wp_claim|done].
Qed.

Lemma wp_outcome t trusted owner name n q_by body s :
  safe t (api_pull_outcome src parse_outcome trusted owner name n q_by body) s.
Proof using held_laws.
  apply safe_or_reply; [apply wp_writable|]. intros r s1. apply safe_or_reply; [done|]. intros [] s2.
  destruct (parse_outcome body) as [out|]; [|done].
  apply safe_or_reply; [by apply wp_update, conclude_modifies|]. intros pr s3. destruct (bool_decide _); [|done].
  apply safe_bind_read; [apply emit_readonly|]. intros [] s4. by apply safe_bind_read.
Qed.

Lemma wp_mergeability t trusted owner name n body s :
  safe t (api_pull_mergeability src parse_verdict trusted owner name n body) s.
Proof using held_laws.
  apply safe_or_reply; [apply wp_writable|]. intros r s1. apply safe_or_reply; [done|]. intros [] s2.
  destruct (parse_verdict body) as [v|]; [|done]. apply safe_bind; [by apply wp_update, judge_modifies|done].
Qed.

(** ** Entry points *)
Inductive entry : nat -> prog eff unit -> Prop :=
| entry_open t owner name new : entry t (api_pull_open src owner name new ;;! Ret tt)
| entry_comment t owner name n body author : entry t (api_pull_comment src owner name n body author ;;! Ret tt)
| entry_merge t owner name n s by_ : entry t (api_pull_merge src owner name n s by_ ;;! Ret tt)
| entry_close t owner name n by_ : entry t (api_pull_close src owner name n by_ ;;! Ret tt)
| entry_check t trusted owner name n : entry t (api_pull_check src trusted owner name n ;;! Ret tt)
| entry_claim t trusted owner name n by_ : entry t (api_pull_claim src trusted owner name n by_ ;;! Ret tt)
| entry_outcome t trusted owner name n by_ body :
    entry t (api_pull_outcome src parse_outcome trusted owner name n by_ body ;;! Ret tt)
| entry_mergeability t trusted owner name n body :
    entry t (api_pull_mergeability src parse_verdict trusted owner name n body ;;! Ret tt)
| entry_checks t warm : entry t (check_owned_pulls warm)
| entry_announcements t warm : entry t (announce_stranded_merges warm)
(** Reads come first: the listing and the page of a change. *)
| entry_read t r : entry t (ready src r ;;! Ret tt)
(** Pushes, settings, protection: rows under other keys. *)
| entry_write t r ws : Forall (fun w => ours w.1 = false) ws -> entry t (row (trigger (DWrite r ws)) ;;! Ret tt)
| entry_commit t tx : Forall (fun w => ours w.1 = false) (t_writes tx) ->
    entry t (row (trigger (DCommit tx)) ;;! Ret tt).

Lemma entry_safe t p s : entry t p -> Inv s -> safe t p s.
Proof using held_laws.
  intros He HI. destruct He.
  1-8: apply safe_bind; [|done].
  - apply wp_open_pull.
  - apply wp_comment.
  - apply wp_merge.
  - apply wp_close.
  - apply wp_api_check.
  - apply wp_api_claim.
  - apply wp_outcome.
  - apply wp_mergeability.
  - apply wp_check_owned_pulls.
  - apply wp_announce_stranded_merges.
  - apply safe_bind; [apply safe_ready|done].
  - cbn. intros s1 x s2 HR HI1 [[-> Hf]|[-> Hx]]; [|by split; [|split; [intros; reflexivity|]]].
    by destruct (foreign_move src held s0 t r ws s1 HI1).
  - cbn. intros s1 x s2 HR HI1 [[-> Hf]|[-> Hx]]; [|by split; [|split; [intros; reflexivity|]]].
    by destruct (foreign_move src held s0 t (t_repo tx) (t_writes tx) s1 HI1).
Qed.

Lemma reach_inv s l : Inv s0 -> rtc (pstep (psem held) entry) (s0, []) (s, l) -> Inv s.
Proof using held_laws.
  intros HI Hr. apply (reach_invariant (psem held) entry Inv Rely entry_safe s0 s l HI Hr).
Qed.
End rules.
