(* ===== verification/PullsProps.v ===== *)
(** * PullsProps: what pull requests promise

    For every interleaving of the entry points of [PullsRules]: changes move by their life cycle,
    keep what they were opened with, and migration leaves nothing behind of what the directory
    gave.  For one operation: which merges are announced again, and what a check records. *)

From S2P Require Import Prelude Text Names Prog Sched Commits Refs RefsSafe Pulls PullsSafe PullsRules.
Local Open Scope string_scope.
Local Open Scope Z_scope.

#[local] Arguments ref_key r name : simpl never.

(** ** Reading rows *)
Section reading.
Context `{PullCodec}.

Lemma merge_rows_in kvs : forall out l, merge_rows kvs out = Ok l ->
  forall pr, pr ∈ l <-> pr ∈ out \/ (is_some (merge pr) = true /\ exists kv, kv ∈ kvs /\
    contains_str MERGE_FIELD kv.2 = true /\ decode_pull kv.2 = Some pr).
Proof.
  induction kvs as [|[k v] kvs IH]; intros out l Hl pr; cbn [merge_rows] in Hl.
  - injection Hl as ->. split; [by left|]. intros [|(_ & kv & Hk & _)]; [done|by apply elem_of_nil in Hk].
  - assert (Hcons : forall P : string * string -> Prop, (exists kv, kv ∈ (k, v) :: kvs /\ P kv) <-> P (k, v) \/ exists kv, kv ∈ kvs /\ P kv).
    { intros P. split.
      - intros (kv & [->|Hk]%elem_of_cons & Hp); [by left|right; eauto].
      - intros [Hp|(kv & Hk & Hp)]; eexists; (split; [|exact Hp]); [left|by right]. }
    rewrite Hcons. cbn [snd]. destruct (contains_str MERGE_FIELD v) eqn:Ec; cbn [negb] in Hl.
    + destruct (decode_pull v) as [row|] eqn:Ed; [|done]. rewrite (IH _ _ Hl pr).
      destruct (is_some (merge row)) eqn:Em.
      * rewrite elem_of_app, list_elem_of_singleton. split; [|naive_solver].
        intros [[Hin| ->]|Hin]; [by left|right; split; [done|by left]|naive_solver].
      * split; [naive_solver|]. intros [|(Hm & [[_ [= ->]]|])]; [by left|congruence|naive_solver].
    + rewrite (IH _ _ Hl pr). naive_solver.
Qed.

Lemma scan_in s r kv : kv ∈ sort_by fst (List.filter (fun kv => starts_with PULL_PREFIX kv.1) (map_to_list (tbl s r))) <->
  starts_with PULL_PREFIX kv.1 = true /\ tbl s r !! kv.1 = Some kv.2.
Proof.
  unfold sort_by. rewrite sorting.merge_sort_Permutation. destruct kv as [k v]. cbn.
  rewrite list_elem_of_In, filter_In, <- list_elem_of_In, elem_of_map_to_list. tauto.
Qed.

Lemma takeable_spec pr now : takeable pr now MERGE_LEASE = true <->
  exists j, merge pr = Some j /\
    (job_state j = Queued \/ job_state j = Running /\ forall at_, claimed_at_ms j = Some at_ -> MERGE_LEASE < now - at_).
Proof.
  unfold takeable. destruct (merge pr) as [j|]; [|naive_solver].
  destruct (job_state j) eqn:Ej; cbn.
  - split; [|done]. intros _. exists j. auto.
  - destruct (claimed_at_ms j) as [at_|] eqn:Ec; cbn.
    + rewrite Z.ltb_lt. split; [intros Hl; exists j|intros (j' & [= <-] & [?|[_ Hl]])]; [|congruence|by apply Hl].
      split; [done|]. right. split; [done|]. intros t Et. rewrite Ec in Et. by injection Et as <-.
    + split; [|done]. intros _. exists j. split; [done|]. right. split; [done|]. by rewrite Ec.
  - split; [done|]. intros (j' & [= <-] & [?|[? _]]); congruence.
  - split; [done|]. intros (j' & [= <-] & [?|[? _]]); congruence.
Qed.

End reading.

Section props.
Context {oid : Type} `{EqDecision oid} `{Hex oid} `{PullCodec}.
Abbreviation eff := (pull_eff (oid := oid)).

Variable src : Source.
Variable held : string -> list PullRequest.
Variable parse_outcome : string -> option Outcome.
Variable parse_verdict : string -> option Verdict.
Hypothesis held_laws : HeldLaws held.

Abbreviation reaches := (rtc (pstep (psem (oid := oid) held) (entry src parse_outcome parse_verdict))).
Abbreviation old_rows := (old_rows src held).

(** Rows as [put] writes them, and counters past them. *)
Definition well_formed (s : World) : Prop := forall r, RepoInv src held s r.

Lemma well_formed_inv s : well_formed s -> Inv src held s s.
Proof. intros Hw. split; [exact Hw|by left|]. intros r n. exists []. constructor. Qed.

Lemma change_reached s s' l : well_formed s -> reaches (s, []) (s', l) -> Inv src held s s'.
Proof using held_laws.
  intros Hw Hr. eapply (reach_inv src held s held_laws parse_outcome parse_verdict); [by apply well_formed_inv|exact Hr].
Qed.

(** C18: In every interleaving of the handlers, the lanes and the rest of the database's writers,
    with failed and unacknowledged writes, each change moves only by steps of its life cycle:
    opened or copied in, commented, asked to merge while open with no job under way, claimed while
    its job is free, closed while open, concluded by who claimed it, or stamped by a check or an
    announcement.  No write is lost to another's stale read, and no change is opened over another. *)
Theorem rows_follow_lifecycle s s' l r n :
  well_formed s -> reaches (s, []) (s', l) ->
  exists ls, path (old_rows r) n (row_of s r n) ls (row_of s' r n).
Proof using held_laws. intros Hw Hr. apply (inv_evolves _ _ _ _ (change_reached s s' l Hw Hr)). Qed.

(** C19: Whatever the handlers and lanes do, and in whatever order, a change that is there stays,
    with its number, title, text, branches, author and date; its comments are only added to; and
    merged without a job it stays merged, at the time it was. *)
Theorem change_kept s s' l r n pr :
  well_formed s -> reaches (s, []) (s', l) -> row_of s r n = Some pr ->
  exists pr', row_of s' r n = Some pr' /\ same_identity pr pr' /\ comments pr `prefix_of` comments pr' /\
    (pr_state pr = Merged -> merge pr = None ->
       pr_state pr' = Merged /\ merge pr' = None /\ merged_at_ms pr' = merged_at_ms pr).
Proof using held_laws.
  intros Hw Hr Hrow. pose proof (inv_evolves _ _ _ _ (change_reached s s' l Hw Hr)) as He.
  destruct (evolves_row src held s s' r n pr He Hrow) as (pr' & ? & ? & ? & Hm). exists pr'.
  split; [done|]. split; [done|]. split; [done|]. intros Hs Hj. destruct (Hm (conj Hs Hj)) as [[? ?] ?]. done.
Qed.

(** C23: A repository never believes it migrated when it did not: once the mark is there, set by
    whichever first touch got that far after any number of failed ones, every change the directory
    gave is there, with what identifies it and at least the comments it had, and every number still
    to come is above all of them. *)
Theorem migrated_is_whole s s' l r :
  well_formed s -> migrated_in s r = false -> reaches (s, []) (s', l) -> migrated_in s' r = true ->
  (forall old, old ∈ old_rows r ->
     exists pr, row_of s' r (number old) = Some pr /\ same_identity old pr /\ comments old `prefix_of` comments pr) /\
  forall n pr, row_of s' r n = Some pr -> n < next s' r.
Proof using held_laws.
  intros Hw Hm Hr Hm'. pose proof (change_reached s s' l Hw Hr) as HI. split.
  - destruct (inv_copied _ _ _ _ HI r Hm') as [|Ha]; [congruence|exact Ha].
  - apply (inv_free _ _ s' r (inv_repo _ _ _ _ HI r) Hm').
Qed.

End props.

(** ** Announcements *)
Section alone.
Context {oid : Type} `{EqDecision oid} `{Hex oid} `{PullCodec}.
Abbreviation eff := (pull_eff (oid := oid)).
Variable src : Source.
Variable held : string -> list PullRequest.

(** An operation alone, its clock reading [now], over histories that [find] reads. *)
Variable find : oid -> object oid + find_error.
Definition psem_at (now : Z) (t : nat) (X : Type) (e : eff X) (s : World) (x : X) (s' : World) : Prop :=
  psem held t X e s x s' /\
  match e in pull_eff Y return Y -> Prop with
  | PNow => fun x => x = now
  | POdb _ => fun x => forall walk, x = Ok walk -> WalkLaws find walk
  | _ => fun _ => True
  end x.

(** The announcing lane finds exactly the merges that wait: the changes of the repository that
    are open and whose job is queued, or was claimed longer ago than the lease, and was not
    announced or asked for within the last half minute.  So a job whose nudge or worker was lost is
    announced at the first pass after its lease, for as long as nobody takes it. *)
Theorem waiting_is_announced now t s r :
  well_formed src held s ->
  ends (psem_at now t) (stranded_merges r MERGE_LEASE) s (fun x _ => forall prs, x = Ok prs -> forall pr,
    pr ∈ prs <-> (exists n, row_of s r n = Some pr) /\ pr_state pr = Open /\
      exists j, merge pr = Some j /\
        (job_state j = Queued \/
         job_state j = Running /\ forall at_, claimed_at_ms j = Some at_ -> MERGE_LEASE < now - at_) /\
        ANNOUNCE_EVERY < now - unwrap_or (announced_at_ms j) (requested_at_ms j)).
Proof.
  intros Hw. unfold stranded_merges. cbn. intros now' s1 [-> ->] x s2 [[-> Hx] _].
  destruct x as [kvs|e]; [|done]. cbn. specialize (Hx kvs eq_refl).
  destruct (merge_rows kvs []) as [l|e] eqn:El; [|done]. cbn. intros prs [= <-] pr.
  rewrite list_elem_of_In, filter_In, <- list_elem_of_In, (merge_rows_in kvs [] l El pr).
  assert (Hrow : (is_some (merge pr) = true /\ exists kv, kv ∈ kvs /\ contains_str MERGE_FIELD kv.2 = true /\
      decode_pull kv.2 = Some pr) <-> is_some (merge pr) = true /\ exists n, row_of s r n = Some pr).
  { subst kvs. split; intros [Hm (y & Hy)]; (split; [done|]).
    - destruct Hy as (Hin%scan_in & _ & Hd). destruct Hin as [Hp Hl].
      destruct (inv_rows _ _ s r (Hw r) _ _ Hl Hp) as (pr' & Ev & Ek). rewrite Ev, decode_encode_pull in Hd.
      injection Hd as ->. exists (number pr). unfold row_of. rewrite <- Ek, Hl, Ev. apply decode_encode_pull.
    - unfold row_of in Hy. destruct (tbl s r !! pull_key y) as [v|] eqn:El'; [|done]. cbn in Hy.
      exists (pull_key y, v). split; [apply scan_in; split; [apply pull_key_prefix|done]|]. cbn. split; [|done].
      destruct (inv_rows _ _ s r (Hw r) _ _ El' (pull_key_prefix y)) as (pr' & -> & _).
      rewrite decode_encode_pull in Hy. injection Hy as ->. by apply encode_merge_field. }
  rewrite Hrow. unfold is_stranded. split.
  - intros [[Hn|[_ Hn]] Hs]; [by apply elem_of_nil in Hn|]. destruct (_ || _) eqn:E; [done|]. bools.
    split; [done|]. split; [done|]. apply takeable_spec in H2 as (j & Hj & Hst). rewrite Hj in Hs. bools.
    by exists j.
  - intros (Hn & Ho & j & Hj & Hst & Ha). split; [right; split; [by rewrite Hj|done]|].
    rewrite bool_decide_true by done. replace (takeable pr now MERGE_LEASE) with true; [|symmetry; apply takeable_spec; by exists j].
    cbn. rewrite Hj. by apply Z.ltb_lt.
Qed.

(** ** Checks *)
Definition tip (s : World) (r : repo_id) (branch : string) : option oid :=
  tbl s r !! ref_key r ("refs/heads/" +:+ branch) ≫= from_hex.

(** A recorded verdict is true of the tips it names. *)
Definition true_of (b h : option oid) (m : Mergeability) (deep : bool) : Prop :=
  match b, h with
  | Some b, Some h =>
    (fast_forward m = true <-> m_state m = Clean) /\ (deep = true <-> m_state m = Unknown) /\
    match m_state m with
    | Clean => reach find [h] b
    | Behind => reach find [b] h
    | Dirty => exists walk, WalkLaws find walk /\
        (no_errors (walk [b] []) -> no_errors (walk [h] []) -> forall c, ~ (reach find [b] c /\ reach find [h] c))
    | Unknown => True
    end
  | _, _ => m_state m = Unknown /\ fast_forward m = false /\ deep = false
  end.

Lemma verdict_true pr b h walk now :
  WalkLaws find walk ->
  let '(state, ff, detail, deep) := ancestry_verdict pr b h (merge_base walk b h BUDGET) in
  true_of (Some b) (Some h) (mkMergeability state (to_hex b) (to_hex h) now detail ff) deep.
Proof.
  intros Hlaws. pose proof (merge_base_right find walk Hlaws b h BUDGET) as Hmb.
  destruct (merge_base walk b h BUDGET) as [m| |]; cbn.
  - destruct Hmb as [Hb Hh]. destruct (decide (m = b)) as [->|Hb'].
    + by rewrite bool_decide_true.
    + rewrite bool_decide_false by done. destruct (decide (m = h)) as [->|Hh'].
      * by rewrite bool_decide_true.
      * by rewrite bool_decide_false.
  - split; [done|]. split; [done|]. by exists walk.
  - done.
Qed.

Abbreviation Ends now t := (ends (psem_at now t)).

Lemma ends_get now t r n pr s (Q : result (option PullRequest) -> World -> Prop) :
  row_of s r n = Some pr -> Q (Ok (Some pr)) s -> (forall e, Q (Err e) s) -> Ends now t (get r n) s Q.
Proof using Type.
  intros Hr Hok He. cbn. intros x s' [[-> Hx] _]. destruct x as [v|e]; [|apply He]. cbn.
  specialize (Hx v eq_refl). unfold row_of in Hr. rewrite <- Hx in Hr. destruct v as [v|]; [|done].
  cbn in Hr. by rewrite Hr.
Qed.

Lemma ends_get_ref now t r name s (Q : result (option oid) -> World -> Prop) :
  (forall x, (forall o, x = Ok o -> o = tbl s r !! ref_key r name ≫= from_hex) -> Q x s) ->
  Ends now t (row (get_ref r name)) s Q.
Proof using Type.
  intros HQ. cbn. intros x s' [[-> Hx] _]. destruct x as [v|e]; cbn; [|by apply HQ].
  rewrite <- (Hx v eq_refl) in HQ. apply HQ. intros o. destruct v as [v|]; cbn; [|by intros [= <-]].
  unfold parse_oid. destruct (from_hex v); [|done]. by intros [= <-].
Qed.

Lemma set_lock_row s r h r' n : row_of (set_lock s r h) r' n = row_of s r' n.
Proof using Type. done. Qed.

(** The change as the check leaves it, and nothing else. *)
Definition checked (s s' : World) (r : repo_id) (pr : PullRequest) (m : Mergeability) : Prop :=
  row_of s' r (number pr) = Some (set_mergeability (set_check_at pr (Some (checked_at_ms m))) (Some m)) /\
  forall branch, tip s' r branch = tip s r branch.

Lemma ends_record_check now t r pr m deep s :
  row_of s r (number pr) = Some pr ->
  Ends now t (record_check r (number pr) m deep) s (fun x s' => forall c, x = Ok c ->
    checked s s' r pr m /\ c = if deep then DeepCheck (mkDeep (number pr) (base pr) (head pr)) else Answered).
Proof using Type.
  intros Hr. unfold record_check, with_lock. cbn [bind trigger]. intros [] s1 [[Hl ->] _]. apply ends_bind.
  eapply ends_seq_res with (Q1 := fun x s2 => s2 = set_lock s r (Some t) /\ forall o, x = Ok o -> o = Some pr).
  - apply (ends_get now t r (number pr) pr); [by rewrite set_lock_row|by split; [|intros o [= <-]]|by intros].
  - intros [pr'|] s2 [-> Ho]; [|by specialize (Ho _ eq_refl)]. injection (Ho _ eq_refl) as ->.
    set (fresh := set_mergeability _ _). cbn. intros x s3 [[[-> _]|[-> Hx]] _]; cbn.
    + destruct x as [[]|e]; cbn; [|by intros]. intros [] s4 [[_ ->] _]. intros c [= <-]. split; [|done]. split.
      * unfold row_of. cbn. rewrite bool_decide_true by done. unfold write_row. cbn.
        change (number fresh) with (number pr). rewrite lookup_insert_eq. apply decode_encode_pull.
      * intros branch. unfold tip. cbn. rewrite bool_decide_true by done. unfold write_row. cbn.
        by rewrite lookup_insert_ne.
    + destruct x as [[]|e]; [done|]. cbn. by intros.
  - intros e s2 _. cbn. by intros.
Qed.

(** A check that finds the recorded tips unmoved does nothing. *)
Lemma ends_unmoved now t r n s pr m :
  row_of s r n = Some pr -> mergeability pr = Some m ->
  base_oid m = hex (tip s r (base pr)) -> head_oid m = hex (tip s r (head pr)) ->
  Ends now t (check_with r n) s (fun x s' => s' = s /\ forall c, x = Ok c -> c = Unchanged).
Proof using Type.
  intros Hr Hm Hb Hh. unfold check_with.
  eapply ends_seq_res with (Q1 := fun x s1 => s1 = s /\ forall o, x = Ok o -> o = Some pr).
  - apply (ends_get now t r n pr); [done|by split; [|intros o [= <-]]|by intros].
  - intros [pr'|] s1 [-> Ho]; [|by specialize (Ho _ eq_refl)]. injection (Ho _ eq_refl) as ->.
    destruct (negb _); [by split; [|intros c [= <-]]|].
    apply ends_bind, ends_get_ref. intros [b|e] Hx; [|by split]. rewrite (Hx b eq_refl).
    apply ends_bind, ends_get_ref. intros [h|e] Hy; [|by split]. rewrite (Hy h eq_refl).
    rewrite Hm. cbn [is_some_and]. unfold tip in Hb, Hh. rewrite Hb, Hh, !String.eqb_refl. cbn.
    by split; [|intros c [= <-]].
  - intros e s1 [-> _]. by split.
Qed.

(** Past the test for moved tips. *)
Lemma check_moved now t r s pr (P : result Checked -> World -> Prop) :
  (forall m deep, base_oid m = hex (tip s r (base pr)) -> head_oid m = hex (tip s r (head pr)) ->
     true_of (tip s r (base pr)) (tip s r (head pr)) m deep -> Ends now t (record_check r (number pr) m deep) s P) ->
  (forall e, P (Err e) s) ->
  Ends now t (match tip s r (base pr), tip s r (head pr) with
    | Some bo, Some ho =>
      let!? walk := trigger (POdb r) in
      let '(state, ff, detail, deep) := ancestry_verdict pr bo ho (merge_base walk bo ho BUDGET) in
      let! now := now_ms in
      record_check r (number pr)
        (mkMergeability state (hex (tip s r (base pr))) (hex (tip s r (head pr))) now detail ff) deep
    | _, _ =>
      let! now := now_ms in
      record_check r (number pr)
        (mkMergeability Unknown (hex (tip s r (base pr))) (hex (tip s r (head pr))) now
           (Some "one of the branches is gone") false) false
    end) s P.
Proof using Type.
  intros Hrec He.
  assert (Hgone : forall b h, b = None \/ h = None -> b = tip s r (base pr) -> h = tip s r (head pr) ->
    Ends now t (let! now := now_ms in record_check r (number pr) (mkMergeability Unknown (hex b) (hex h) now
      (Some "one of the branches is gone") false) false) s P).
  { intros b h Hbh -> ->. apply ends_bind, ends_effect. intros x s' [-> ->]. apply Hrec; [done..|]. unfold true_of.
    destruct (tip s r (base pr)), (tip s r (head pr)); try done. by destruct Hbh. }
  destruct (tip s r (base pr)) as [b|] eqn:Eb; [|by apply Hgone; auto].
  destruct (tip s r (head pr)) as [h|] eqn:Eh; [|by apply Hgone; auto].
  apply ends_bind, ends_effect. intros [walk|e] s1 [-> Hlaws]; [|apply He]. specialize (Hlaws walk eq_refl).
  pose proof (fun now => verdict_true pr b h walk now Hlaws) as Hv.
  destruct (ancestry_verdict pr b h _) as [[[st ff] detail] deep]. apply ends_bind, ends_effect. intros now' s2 [-> ->].
  by apply Hrec.
Qed.

(** A check that answers leaves on the change a verdict naming the tips it read, and the
    verdict is true of them: clean and able to fast-forward when the base is in the head's history,
    behind when the head is in the base's, dirty only when the two histories, read without an
    error, share no commit, and unknown, with no promise, when a branch is gone or when a trial
    merge has to decide, which the answer then asks for.  Checked again before a tip moves, the
    change is left alone, its branches there or not. *)
Theorem check_is_true now t r n s pr :
  row_of s r n = Some pr -> number pr = n -> pr_state pr = Open ->
  Ends now t (check_with r n) s (fun x s' => forall c, x = Ok c -> exists pr' m,
    row_of s' r n = Some pr' /\ mergeability pr' = Some m /\
    base_oid m = hex (tip s r (base pr)) /\ head_oid m = hex (tip s r (head pr)) /\
    (c <> Unchanged -> true_of (tip s r (base pr)) (tip s r (head pr)) m
       (match c with DeepCheck _ => true | _ => false end)) /\
    (forall now' t', Ends now' t' (check_with r n) s' (fun y s'' => s'' = s' /\ forall c', y = Ok c' -> c' = Unchanged))).
Proof using Type.
  intros Hr <- Ho. unfold check_with at 1.
  set (P := fun (x : result Checked) s' => forall c, x = Ok c -> _).
  assert (Hrec : forall m deep, base_oid m = hex (tip s r (base pr)) -> head_oid m = hex (tip s r (head pr)) ->
    true_of (tip s r (base pr)) (tip s r (head pr)) m deep -> Ends now t (record_check r (number pr) m deep) s P).
  { intros m deep Hb Hh Ht. eapply ends_mono; [by apply ends_record_check|]. intros x s' Hx c Ec.
    destruct (Hx c Ec) as [[Hrow Htip] ->]. eexists _, m. split; [exact Hrow|]. split; [done|].
    split; [done|]. split; [done|]. split; [by destruct deep|]. intros now' t'.
    apply (ends_unmoved now' t' r (number pr) s' _ m Hrow); [done|..]; cbn; by rewrite Htip. }
  eapply ends_seq_res with (Q1 := fun x s1 => s1 = s /\ forall o, x = Ok o -> o = Some pr); [| |by intros].
  { apply (ends_get now t r _ pr); [done|by split; [|intros o [= <-]]|by intros]. }
  intros [pr'|] s1 [-> Hx]; [|by specialize (Hx _ eq_refl)]. injection (Hx _ eq_refl) as ->.
  rewrite (bool_decide_true (pr_state pr = Open)) by done. cbn [negb].
  apply ends_bind, ends_get_ref. intros [b|e] Hb; [|by intros]. specialize (Hb b eq_refl).
  apply ends_bind, ends_get_ref. intros [h|e] Hh; [|by intros]. specialize (Hh h eq_refl).
  change (b = tip s r (base pr)) in Hb. change (h = tip s r (head pr)) in Hh. subst b h.
  destruct (mergeability pr) as [old|] eqn:Eold; cbn [is_some_and]; [destruct (_ && _) eqn:Esame|].
  - apply andb_true_iff in Esame as [E1%String.eqb_eq E2%String.eqb_eq]. intros c [= <-]. exists pr, old.
    split; [done|]. split; [done|]. split; [done|]. split; [done|]. split; [by intros []|].
    intros now' t'. by apply (ends_unmoved now' t' r (number pr) s pr old).
  - by apply (check_moved now t r s pr P Hrec).
  - by apply (check_moved now t r s pr P Hrec).
Qed.
End alone.
