(* ===== verification/PullsWitness.v ===== *)
(** * PullsWitness: pull requests run on a repository in memory

    A codec for rows, a directory, and [local_exec], which runs operations one after another.  On it
    the statements of [PullsProps] are applied, and the runs where the code does not do what it
    says: [migration_forgets_the_rest], [empty_token_concludes]. *)

From stdpp Require Import countable.
From S2P Require Import Prelude Text Names Prog Sched Commits Refs RefsSafe FetchWitness.
From S2P Require Import Pulls PullsSafe PullsRules PullsProps.
Local Open Scope string_scope.
Local Open Scope Z_scope.
Import Sample.

(** ** Rows as text *)
Module Codec.
(** Bits, least significant first. *)
Fixpoint bits (p : positive) : string :=
  match p with xH => "" | xO p => String "0" (bits p) | xI p => String "1" (bits p) end.
Fixpoint of_bits (s : string) : positive :=
  match s with
  | EmptyString => xH
  | String c s => if Ascii.eqb c "0" then xO (of_bits s) else xI (of_bits s)
  end.

Lemma of_bits_bits p : of_bits (bits p) = p.
Proof. induction p; cbn; congruence. Qed.

Definition field {A} `{Countable A} (l : list positive) : option (A * list positive) :=
  match l with p :: l => a ← decode p; Some (a, l) | [] => None end.

Definition state_code (s : PullState) : nat := match s with Open => 0 | Merged => 1 | Closed => 2 end.
Definition state_of (n : nat) : PullState := match n with 0%nat => Open | 1%nat => Merged | _ => Closed end.
#[export] Instance state_countable : Countable PullState.
Proof. apply (inj_countable' state_code state_of). by intros []. Defined.

Definition job_code (s : MergeState) : nat :=
  match s with Queued => 0 | Running => 1 | Conflicts => 2 | Failed => 3 end.
Definition job_of (n : nat) : MergeState :=
  match n with 0%nat => Queued | 1%nat => Running | 2%nat => Conflicts | _ => Failed end.
#[export] Instance job_countable : Countable MergeState.
Proof. apply (inj_countable' job_code job_of). by intros []. Defined.

Definition able_code (s : MergeableState) : nat :=
  match s with Clean => 0 | Behind => 1 | Dirty => 2 | Unknown => 3 end.
Definition able_of (n : nat) : MergeableState :=
  match n with 0%nat => Clean | 1%nat => Behind | 2%nat => Dirty | _ => Unknown end.
#[export] Instance able_countable : Countable MergeableState.
Proof. apply (inj_countable' able_code able_of). by intros []. Defined.

#[export] Instance comment_eq : EqDecision Comment.
Proof. solve_decision. Defined.
#[export] Instance comment_countable : Countable Comment.
Proof.
  apply (inj_countable' (fun c => (c_author c, c_body c, at_ms c)) (fun x => mkComment x.1.1 x.1.2 x.2)). by intros [].
Defined.

Definition job_fields (j : MergeJob) : list positive :=
  [encode (job_state j); encode (strategy j); encode (requested_by j); encode (requested_at_ms j);
   encode (claimed_at_ms j); encode (claimed_by j); encode (job_detail j); encode (announced_at_ms j)].

Definition job_of_fields (l : list positive) : option MergeJob :=
  '(a, l) ← field l; '(b, l) ← field l; '(c, l) ← field l; '(d, l) ← field l; '(e, l) ← field l;
  '(f, l) ← field l; '(g, l) ← field l; '(h, _) ← field l; Some (mkMergeJob a b c d e f g h).

Definition able_fields (m : Mergeability) : list positive :=
  [encode (m_state m); encode (base_oid m); encode (head_oid m); encode (checked_at_ms m); encode (m_detail m);
   encode (fast_forward m)].

Definition able_of_fields (l : list positive) : option Mergeability :=
  '(a, l) ← field l; '(b, l) ← field l; '(c, l) ← field l; '(d, l) ← field l; '(e, l) ← field l;
  '(f, _) ← field l; Some (mkMergeability a b c d e f).

Definition pull_fields (pr : PullRequest) : list positive :=
  [encode (pr_id pr); encode (pr_repo pr); encode (number pr); encode (title pr); encode (body pr); encode (base pr);
   encode (head pr); encode (pr_state pr); encode (author pr); encode (pr_created_at_ms pr);
   encode (merged_at_ms pr); encode (comments pr); encode (job_fields <$> merge pr);
   encode (able_fields <$> mergeability pr); encode (check_at_ms pr)].

Definition both {A} (f : list positive -> option A) (o : option (list positive)) : option (option A) :=
  match o with Some l => Some <$> f l | None => Some None end.

Definition pull_of_fields (l : list positive) : option PullRequest :=
  '(a, l) ← field l; '(b, l) ← field l; '(c, l) ← field l; '(d, l) ← field l; '(e, l) ← field l;
  '(f, l) ← field l; '(g, l) ← field l; '(h, l) ← field l; '(i, l) ← field l; '(j, l) ← field l;
  '(k, l) ← field l; '(m, l) ← field l; '(jf, l) ← field l; '(af, l) ← field l; '(o, _) ← field l;
  job ← both job_of_fields jf; able ← both able_of_fields af;
  Some (mkPull a b c d e f g h i j k m job able o).

Lemma field_encode {A} `{Countable A} (a : A) l : field (encode a :: l) = Some (a, l).
Proof. unfold field. by rewrite decode_encode. Qed.

Lemma job_fields_of j : job_of_fields (job_fields j) = Some j.
Proof. unfold job_of_fields, job_fields. repeat (rewrite field_encode; cbn [mbind option_bind]). by destruct j. Qed.

Lemma able_fields_of m : able_of_fields (able_fields m) = Some m.
Proof. unfold able_of_fields, able_fields. repeat (rewrite field_encode; cbn [mbind option_bind]). by destruct m. Qed.

Lemma pull_fields_of pr : pull_of_fields (pull_fields pr) = Some pr.
Proof.
  unfold pull_of_fields, pull_fields. repeat (rewrite field_encode; cbn [mbind option_bind]).
  replace (both job_of_fields (job_fields <$> merge pr)) with (Some (merge pr)).
  2:{ destruct (merge pr) as [j|]; [|done]. change (Some (Some j) = (Some <$> job_of_fields (job_fields j))).
      by rewrite job_fields_of. }
  replace (both able_of_fields (able_fields <$> mergeability pr)) with (Some (mergeability pr)).
  2:{ destruct (mergeability pr) as [m|]; [|done].
      change (Some (Some m) = (Some <$> able_of_fields (able_fields m))). by rewrite able_fields_of. }
  by destruct pr.
Qed.

Definition write (pr : PullRequest) : string :=
  (if is_some (merge pr) then MERGE_FIELD else "") +:+ bits (encode (pull_fields pr)).

Definition read (s : string) : option PullRequest :=
  l ← decode (of_bits (match strip_prefix MERGE_FIELD s with Some r => r | None => s end)); pull_of_fields l.

Lemma bits_plain p : strip_prefix MERGE_FIELD (bits p) = None.
Proof. by destruct p. Qed.

Lemma read_write pr : read (write pr) = Some pr.
Proof.
  unfold read, write. destruct (is_some (merge pr)).
  - rewrite strip_prefix_app, of_bits_bits, decode_encode. cbn [mbind option_bind]. apply pull_fields_of.
  - change ("" +:+ ?s) with s. rewrite bits_plain, of_bits_bits, decode_encode. cbn [mbind option_bind]. apply pull_fields_of.
Qed.

Lemma contains_app p s : contains_str p (p +:+ s) = true.
Proof. destruct (p +:+ s) eqn:E; cbn; rewrite <- E; unfold starts_with; by rewrite strip_prefix_app. Qed.

#[export] Instance codec : PullCodec.
Proof.
  refine {| encode_pull := write; decode_pull := read; decode_encode_pull := read_write |}.
  intros pr Hm. unfold write. rewrite Hm. apply contains_app.
Defined.
End Codec.

(** ** A repository in memory *)
Module Local.
Export Codec.

Abbreviation eff := (pull_eff (oid := hash)).
Abbreviation PP := (prog eff).

Definition clock : Z := 1000000.

Definition row_exec (t : nat) (X : Type) (e : row_eff X) (s : World) : option (X * World) :=
  match e in row_eff X return option (X * World) with
  | DExists _ => Some (Ok true, s)
  | DGet r k => Some (Ok (tbl s r !! k), s)
  | DWrite r ws =>
    let s' := written t r ws s in
    if match next_of s' r with Some n => n <? i64_max | None => true end then Some (Ok tt, s') else None
  | DScan r p => Some (Ok (sort_by fst (List.filter (fun kv => starts_with p kv.1) (map_to_list (tbl s r)))), s)
  | DBegin _ => Some (Err (EMsg "none"), s)
  | DTxGet _ _ => Some (Err (EMsg "none"), s)
  | DCommit _ => Some (CommitErr (EMsg "none"), s)
  | DUpload _ _ => Some (Ok tt, s)
  | DCall _ => Some (Ok tt, s)
  end.

Section local.
Variable held : string -> list PullRequest.

Definition local (t : nat) (X : Type) (e : eff X) (s : World) : option (X * World) :=
  match e in pull_eff X return option (X * World) with
  | PRow X e => row_exec t X e s
  | PLock r => if is_some (lock s r) then None else Some (tt, set_lock s r (Some t))
  | PUnlock r => if bool_decide (lock s r = Some t) then Some (tt, set_lock s r None) else None
  | PNow => Some (clock, s)
  | PFind repo limit => Some (Ok (take limit (held repo)), s)
  | PPublish _ => Some (tt, s)
  | POpenRepo _ => Some (Ok true, s)
  | POdb _ => Some (Ok walk, s)
  end.

Lemma local_sound t X (e : eff X) s x s' :
  fits s -> local t X e s = Some (x, s') -> psem held t X e s x s' /\ fits s'.
Proof.
  intros Hf. destruct e as [X e|r|r| |repo limit|ev|r|r]; cbn.
  - destruct e as [r|r k|r ws|r p|r|tx k|tx|r p|c]; cbn; try (by intros [= <- <-]).
    + intros [= <- <-]. split; [|done]. split; [done|]. by intros v [= <-].
    + destruct (match _ with Some n => _ | None => _ end) eqn:E; [|done]. intros [= <- <-].
      assert (Hf' : fits (written t r ws s)); [|split; [by left|done]].
      intros r' n Hn. destruct (decide (r' = r)) as [->|Hne].
      * rewrite Hn in E. by apply Z.ltb_lt.
      * apply (Hf r'). revert Hn. unfold next_of.
        by rewrite (same_tbl _ _ _ (written_other t r ws s r' Hne)).
    + intros [= <- <-]. split; [|done]. split; [done|]. by intros kvs [= <-].
    + intros [= <- <-]. split; [|done]. by right.
  - destruct (lock s r) eqn:E; cbn; [done|]. by intros [= <- <-].
  - destruct (bool_decide _) eqn:E; [|done]. bools. by intros [= <- <-].
  - by intros [= <- <-].
  - intros [= <- <-]. split; [|done]. split; [done|]. by intros l [= <-].
  - by intros [= <- <-].
  - by intros [= <- <-].
  - by intros [= <- <-].
Qed.

Definition run_local {A} (t : nat) (p : PP A) (s : World) : option (A * World) := run (H := local t) p s.

Lemma run_local_runs {A} t (p : PP A) s a s' :
  fits s -> run_local t p s = Some (a, s') -> runs (psem held) t p s a s' /\ fits s'.
Proof.
  unfold run_local. revert s. induction p as [a0|X e k IH]; intros s Hf; cbn.
  - intros [= -> ->]. by split; [constructor|].
  - unfold exec. destruct (local t X e s) as [[x s1]|] eqn:E; cbn; [|done]. intros Hr.
    destruct (local_sound t X e s x s1 Hf E) as [Hs Hf1]. destruct (IH x s1 Hf1 Hr) as [? ?].
    split; [|done]. by eapply runs_vis.
Qed.

Definition after {A} (t : nat) (p : PP A) (s : World) : World :=
  match run_local t p s with Some (_, s') => s' | None => s end.

Variable parse_outcome : string -> option Outcome.
Variable parse_verdict : string -> option Verdict.

Abbreviation reaches := (rtc (pstep (psem (oid := hash) held) (entry Directory parse_outcome parse_verdict))).

(** One entry point, run to its end. *)
Lemma after_reaches t p s l :
  fits s -> entry Directory parse_outcome parse_verdict t p -> t ∉ l.*1 -> is_some (run_local t p s) = true ->
  reaches (s, l) (after t p s, (t, Ret tt) :: l) /\ fits (after t p s).
Proof.
  intros Hf He Ht Hr. unfold after. destruct (run_local t p s) as [[[] s']|] eqn:E; [|done].
  destruct (run_local_runs t p s tt s' Hf E) as [Hruns Hf']. split; [|done].
  exact (runs_reach _ _ t p s tt s' l He Ht Hruns).
Qed.
End local.

(** A repository with its row, and nothing else. *)
Definition web : repo_id := ("alice", "web").
Definition empty : World :=
  mkWorld (fun r => if bool_decide (r = web) then {[ repo_key web := "" ]} else ∅) (fun _ => None) (fun _ _ => None).

Lemma empty_lookup r k v : tbl empty r !! k = Some v -> k = repo_key web /\ v = "".
Proof.
  unfold empty. cbn [tbl]. case_bool_decide; [|by rewrite lookup_empty].
  intros [<- <-]%lookup_singleton_Some. done.
Qed.

Lemma empty_fits : fits empty.
Proof.
  intros r n. unfold next_of. destruct (tbl empty r !! NEXT_PULL_KEY) eqn:E; [|done].
  by destruct (empty_lookup _ _ _ E).
Qed.

Lemma empty_row r n : row_of empty r n = None.
Proof.
  unfold row_of. destruct (tbl empty r !! pull_key n) eqn:E; [|done].
  by destruct (empty_lookup _ _ _ E).
Qed.

Lemma empty_well_formed src held : well_formed src held empty.
Proof.
  intros r. split.
  - intros k v [-> ->]%empty_lookup. done.
  - intros v E. by destruct (empty_lookup _ _ _ E).
  - intros _ n pr. by rewrite empty_row.
  - intros _ n pr. by rewrite empty_row.
  - done.
Qed.

Definition change (n : Z) : PullRequest :=
  mkPull ("alice/web#" +:+ display_i n) "alice/web" n "t" "" "main" "fix" Open "bob" 5 None
    [mkComment "carol" "hm" 6] None None None.

(** The directory's changes [n], ..., 1, newest first. *)
Fixpoint changes (n : nat) : list PullRequest :=
  match n with O => [] | S n => change (Z.of_nat (S n)) :: changes n end.

Lemma changes_in n pr : pr ∈ changes n -> exists i, (1 <= i <= n)%nat /\ pr = change (Z.of_nat i).
Proof.
  induction n as [|n IH]; [by intros ?%elem_of_nil|]. cbn [changes]. intros [->|Hp]%elem_of_cons.
  - exists (S n). split; [lia|done].
  - destruct (IH Hp) as (i & Hi & ->). exists i. split; [lia|done].
Qed.

Lemma changes_laws n : Z.of_nat n < 2 ^ 32 -> HeldLaws (fun _ => changes n).
Proof.
  intros Hn. split; intros _.
  - clear Hn. induction n as [|n IH]; cbn [changes map]; [constructor|]. apply NoDup_cons. split; [|done].
    intros (pr & E & Hp)%list_elem_of_fmap. destruct (changes_in n pr Hp) as (i & Hi & ->). cbn in E. lia.
  - intros pr Hp. destruct (changes_in n pr Hp) as (i & Hi & ->). cbn. unfold i64_min, i64_max. lia.
Qed.
End Local.

(** ** Runs *)
Module Runs.
Export Local.

Definition no_outcome (s : string) : option Outcome :=
  if String.eqb s "merged" then Some (mkOutcome OMerged None None) else None.
Definition no_verdict (s : string) : option Verdict := None.
Definition held3 (repo : string) : list PullRequest := changes 3.

Lemma held3_laws : HeldLaws held3.
Proof. by apply changes_laws. Qed.

Abbreviation Entry := (entry (oid := hash) Directory no_outcome no_verdict).
Abbreviation reaches := (rtc (pstep (psem (oid := hash) held3) Entry)).
Abbreviation After := (after held3).

(** First a page is read, which migrates; then a comment, a merge request, a claim, its report. *)
Definition reading : PP unit := ready Directory web ;;! Ret tt.
Definition commenting : PP unit := api_pull_comment Directory "alice" "web" 3 "yes" "dan" ;;! Ret tt.
Definition w1 : World := After 1%nat reading empty.
Definition w2 : World := After 2%nat commenting w1.

Lemma w1_reached : reaches (empty, []) (w1, [(1%nat, Ret tt)]) /\ fits w1.
Proof.
  apply (after_reaches held3 no_outcome no_verdict 1%nat reading empty []);
    [apply empty_fits|apply entry_read|by apply not_elem_of_nil|vm_compute; reflexivity].
Qed.

Lemma w1_well_formed : well_formed Directory held3 w1.
Proof.
  destruct w1_reached as [Hr _]. intros r. apply (inv_repo Directory held3 empty).
  exact (change_reached Directory held3 no_outcome no_verdict held3_laws empty w1 _ (empty_well_formed _ _) Hr).
Qed.

Lemma w2_reached : reaches (w1, []) (w2, [(2%nat, Ret tt)]).
Proof.
  apply (after_reaches held3 no_outcome no_verdict 2%nat commenting w1 []);
    [apply w1_reached|apply entry_comment|by apply not_elem_of_nil|vm_compute; reflexivity].
Qed.

Lemma w1_row : row_of w1 web 3 = Some (change 3).
Proof. vm_compute. reflexivity. Qed.

Lemma w2_row : row_of w2 web 3 = Some (set_comments (change 3) [mkComment "carol" "hm" 6; mkComment "dan" "yes" clock]).
Proof. vm_compute. reflexivity. Qed.

Lemma rows_follow_lifecycle_witness :
  exists ls, path (old_rows Directory held3 web) 3 (row_of empty web 3) ls (row_of w1 web 3).
Proof.
  exact (rows_follow_lifecycle Directory held3 no_outcome no_verdict held3_laws empty w1 _ web 3
    (empty_well_formed _ _) (proj1 w1_reached)).
Defined.

Lemma change_kept_witness :
  exists pr', row_of w2 web 3 = Some pr' /\ same_identity (change 3) pr' /\
    comments (change 3) `prefix_of` comments pr'.
Proof.
  destruct (change_kept Directory held3 no_outcome no_verdict held3_laws w1 w2 _ web 3 (change 3) w1_well_formed
    w2_reached w1_row) as (pr' & Hr & Hi & Hc & _).
  exact (ex_intro _ pr' (conj Hr (conj Hi Hc))).
Defined.

Lemma migrated_is_whole_witness :
  (forall old, old ∈ old_rows Directory held3 web ->
     exists pr, row_of w1 web (number old) = Some pr /\ same_identity old pr /\ comments old `prefix_of` comments pr) /\
  forall n pr, row_of w1 web n = Some pr -> n < next w1 web.
Proof.
  exact (migrated_is_whole Directory held3 no_outcome no_verdict held3_laws empty w1 _ web (empty_well_formed _ _)
    ltac:(vm_compute; reflexivity) (proj1 w1_reached) ltac:(vm_compute; reflexivity)).
Defined.

(** Two workers, the second after the first reported conflicts and the merge was asked for again. *)
Definition conflicted : list label :=
  [LClaimed "a" 1; LConcluded "a" OConflicts; LRequested; LClaimed "b" 3].

Lemma claims_exclude_witness :
  exists x y, path [] 1 x conflicted y /\
    (MERGE_LEASE < 3 - 1 \/ exists out, LConcluded "a" out ∈ [LConcluded "a" OConflicts; LRequested]).
Proof.
  set (q := queued "merge" "dan" 0). set (pr := set_merge (change 1) (Some q)).
  set (pr1 := set_merge pr (Some (claimed q 1 "a"))).
  set (pr2 := set_merge pr1 (Some (stopped (claimed q 1 "a") OConflicts None))).
  set (pr3 := set_merge pr2 (Some (queued "merge" "dan" 2))).
  set (pr4 := set_merge pr3 (Some (claimed (queued "merge" "dan" 2) 3 "b"))).
  assert (Hp : path [] 1 (Some pr) conflicted (Some pr4)).
  { apply (path_cons _ _ _ _ (Some pr1)); [by apply step_claimed|].
    apply (path_cons _ _ _ _ (Some pr2)); [by apply (step_stopped _ _ _ (claimed q 1 "a"))|].
    apply (path_cons _ _ _ _ (Some pr3)); [by apply step_requested|].
    apply path_one. by apply step_claimed. }
  exists (Some pr), (Some pr4). split; [exact Hp|].
  apply (claims_exclude [] 1 (Some pr) "a" 1 [LConcluded "a" OConflicts; LRequested] "b" 3 (Some pr4) Hp).
  intros me t [?|[?|?%elem_of_nil]%elem_of_cons]%elem_of_cons; done.
Defined.

Lemma waiting_is_announced_witness :
  ends (psem_at (oid := hash) held3 find 7 1) (stranded_merges web MERGE_LEASE) w1 (fun x _ => forall prs, x = Ok prs -> forall pr,
    pr ∈ prs <-> (exists n, row_of w1 web n = Some pr) /\ pr_state pr = Open /\
      exists j, merge pr = Some j /\
        (job_state j = Queued \/
         job_state j = Running /\ forall at_, claimed_at_ms j = Some at_ -> MERGE_LEASE < 7 - at_) /\
        ANNOUNCE_EVERY < 7 - unwrap_or (announced_at_ms j) (requested_at_ms j)).
Proof. exact (waiting_is_announced Directory held3 find 7 1 w1 web w1_well_formed). Defined.

Lemma check_is_true_witness :
  ends (psem_at held3 find 7 1) (check_with web 3) w1 (fun x s' => forall c, x = Ok c -> exists pr' m,
    row_of s' web 3 = Some pr' /\ mergeability pr' = Some m /\ base_oid m = hex (tip w1 web "main") /\
    head_oid m = hex (tip w1 web "fix")).
Proof.
  eapply ends_mono; [exact (check_is_true held3 find 7 1 web 3 w1 (change 3) w1_row eq_refl eq_refl)|].
  intros x s' Hx c Ec. destruct (Hx c Ec) as (pr' & m & Hr & Hm & Hb & Hh & _). exists pr', m.
  exact (conj Hr (conj Hm (conj Hb Hh))).
Defined.

(** ** A directory with more changes than a listing *)
Definition held501 (repo : string) : list PullRequest := changes 501.
Definition w501 : World := after held501 1%nat reading empty.

Lemma w501_state :
  is_some (run_local held501 1%nat reading empty) = true /\ migrated_in w501 web = true /\
  row_of w501 web 1 = None /\ is_some (row_of w501 web 2) = true /\ next w501 web = 502.
Proof. vm_compute. done. Qed.

Lemma migrated_asks_nobody held t r s : migrated_in s r = true ->
  ends (psem (oid := hash) held t) (ensure_migrated Directory r) s (fun _ s' => s' = s).
Proof.
  unfold migrated_in. intros Hm. apply ends_bind, ends_bind, ends_effect. intros x s' [-> Hx].
  destruct x as [v|e]; [|done]. rewrite <- (Hx v eq_refl) in Hm. cbn. by rewrite Hm.
Qed.

(** A repository with more than five hundred changes in the directory loses the oldest: one
    first touch copies the page a listing answers, records the repository as migrated, and no later
    touch asks the directory again.  Every part of it succeeds. *)
Theorem migration_forgets_the_rest :
  exists s' l, rtc (pstep (psem (oid := hash) held501) (entry Directory no_outcome no_verdict)) (empty, []) (s', l) /\
    change 1 ∈ held501 "alice/web" /\ migrated_in s' web = true /\ row_of s' web (number (change 1)) = None /\
    forall t, ends (psem (oid := hash) held501 t) (ensure_migrated Directory web) s' (fun _ s'' => s'' = s').
Proof.
  destruct w501_state as (Hrun & Hm & Hrow & _). exists w501, [(1%nat, Ret tt)]. split; [|split; [|split; [|split]]].
  - apply (after_reaches held501 no_outcome no_verdict 1%nat reading empty []);
      [apply empty_fits|apply entry_read|by apply not_elem_of_nil|exact Hrun].
  - unfold held501. assert (Hin : forall n, change 1 ∈ changes (S n)); [|apply Hin].
    intros n. induction n as [|n IH]; [left|right; exact IH].
  - exact Hm.
  - exact Hrow.
  - intros t. by apply migrated_asks_nobody.
Qed.

(** ** A token that is empty *)
Definition asking : PP unit := api_pull_merge Directory "alice" "web" 3 None (Some "dan") ;;! Ret tt.
Definition claiming : PP unit := api_pull_claim Directory (Some "alice") "alice" "web" 3 (Some "") ;;! Ret tt.
Definition reporting : PP Response := api_pull_outcome Directory no_outcome (Some "alice") "alice" "web" 3 None "merged".
Definition w3 : World := After 4%nat claiming (After 3%nat asking w1).

(** A report without a token concludes the job of a claim whose token is empty. *)
Theorem empty_token_concludes :
  option_map fst (run_local held3 5%nat reporting w3) = Some (Reply 204 "") /\
  option_map pr_state (row_of (After 5%nat reporting w3) web 3) = Some Merged.
Proof. vm_compute. done. Qed.
End Runs.
