(* ===== verification/People.v ===== *)
(** * People: the directory's documents, and the rules that need no database

    The documents of [crates/pulls/src/directory] (people, teams and their members, handles,
    invitations, sign-in links, CLI logins, administrators, credentials, passkeys) as records with
    the source's fields, the collections they live in, and the pure rules: what a handle may be, the
    pins of a profile, roles read off a team.  A [DateTime] is its milliseconds. *)

From S2P Require Import Prelude Text Names.
Local Open Scope string_scope.
Local Open Scope Z_scope.

(** ** Case, as Rust's standard library has it

    Beyond ASCII the case tables are Unicode's and stay abstract. *)
Class Casing := {
  to_lowercase : string -> string;
  to_uppercase : string -> string;
  lowercase_ascii : forall s, ascii_only s -> to_lowercase s = map_chars ascii_lower s;
}.

Definition eq_ignore_ascii_case (a b : string) : bool :=
  String.eqb (map_chars ascii_lower a) (map_chars ascii_lower b).

(** Characters: the bytes that do not continue one. *)
Fixpoint chars_count (s : string) : Z :=
  match s with EmptyString => 0 | String c s => (if cont_byte c then 0 else 1) + chars_count s end.

(** [s.chars().take(n).collect()]. *)
Fixpoint take_chars (n : nat) (s : string) : string :=
  match s with
  | EmptyString => EmptyString
  | String c s =>
    if cont_byte c then String c (take_chars n s)
    else match n with 0%nat => EmptyString | S n => String c (take_chars n s) end
  end.

(** [s.contains(char::is_whitespace)]; the first byte of a character is no other's second. *)
Fixpoint contains_ws (s : string) : bool :=
  match s with
  | EmptyString => false
  | String c r =>
    ws1 c || contains_ws r ||
    match r with
    | String d r2 => ws2 c d || match r2 with String e _ => ws3 c d e | EmptyString => false end
    | EmptyString => false
    end
  end.

(** ** The documents *)
Inductive Role := Owner | Admin | Member_.
Inductive MemberState := Active | Paused.
Inductive HandleKind := User_ | Team_.
Inductive CredentialKind := Token | SshKey | SigningKey | CliToken.

#[export] Instance role_eq : EqDecision Role. Proof. solve_decision. Defined.
#[export] Instance member_state_eq : EqDecision MemberState. Proof. solve_decision. Defined.
#[export] Instance handle_kind_eq : EqDecision HandleKind. Proof. solve_decision. Defined.
#[export] Instance credential_kind_eq : EqDecision CredentialKind. Proof. solve_decision. Defined.

Record Member := mkMember {
  m_user : string;
  m_role : Role;
  joined_at : Z;
  m_state : MemberState;
  paused_at : option Z;
  paused_by : option string;
}.

Record User := mkUser {
  u_email : string;
  u_name : string;
  username : option string;
  u_region : string;
  u_created_at : Z;
  last_seen_at : Z;
}.

Record SuperAdmin := mkSuperAdmin { sa_user : string; added_at : Z; added_by : string }.

Record Handle := mkHandle { handle : string; h_kind : HandleKind; held_by : string; h_created_at : Z }.

(** What of an old repository row the directory still reads. *)
Record RepoRow := mkRepoRow { repo_id : string; repo_owner : string }.

Record Credential := mkCredential {
  cr_id : string;
  cr_kind : CredentialKind;
  cr_owner : string;
  cr_created_by : string;
  cr_name : string;
  material : string;
  fingerprints : list string;
  cr_created_at : Z;
}.

Record Passkey := mkPasskey {
  pk_id : string;
  pk_user : string;
  public_key : string;
  counter : Z;
  transports : list string;
  pk_name : string;
  pk_created_at : Z;
}.

Record SignInLink := mkSignInLink { si_id : string; si_email : string; si_created_at : Z; si_expires_at : Z }.

Record CliLogin := mkCliLogin {
  code : string;
  poll : string;
  device : string;
  cl_expires_at : Z;
  token : option string;
  token_exp : Z;
}.

Record Team := mkTeam {
  slug : string;
  t_name : string;
  description : string;
  public : bool;
  tagline : string;
  location : string;
  website : string;
  t_email : string;
  pins : list string;
  t_region : string;
  created_by : string;
  t_created_at : Z;
  members : list Member;
}.

Record Invite := mkInvite {
  i_id : string;
  i_team : string;
  i_email : string;
  i_role : Role;
  invited_by : string;
  i_created_at : Z;
  i_expires_at : Z;
}.

Record TeamProfile := mkTeamProfile {
  p_public : bool;
  p_tagline : string;
  p_location : string;
  p_website : string;
  p_email : string;
  p_pins : list string;
}.

(** A marker of a migration that has run. *)
Record Meta := mkMeta { meta_id : string; meta_at : Z }.

(** ** Handles *)
Definition RESERVED : list string :=
  ["admin"; "api"; "app"; "assets"; "auth"; "billing"; "blog"; "dashboard"; "docs"; "help";
   "invite"; "invites"; "verify"; "cli";
   "kloudlite"; "login"; "logout"; "new"; "root"; "settings"; "signup"; "static"; "status";
   "support"; "system"; "team"; "teams"; "user"; "users"; "www"].

Definition invalid (msg : string) : error := EInvalid msg.

Definition handle_char (c : ascii) : bool :=
  in_range 97 122 c || in_range 48 57 c || Ascii.eqb c "-".

Definition check_handle `{Casing} (h : string) : result unit :=
  if str_len h <? 3 then Err (invalid "handle must be at least 3 characters")
  else if 39 <? str_len h then Err (invalid "handle must be 39 characters or fewer")
  else if negb (String.eqb h (to_lowercase h)) then Err (invalid "handle must be lowercase")
  else if negb (all_chars handle_char h) then Err (invalid "handle may use letters, digits and dashes only")
  else if starts_with "-" h || ends_with "-" h then Err (invalid "handle may not start or end with a dash")
  else if mem_str h RESERVED then Err (invalid "that handle is reserved")
  else if negb (valid_owner h) then Err (invalid "that handle cannot be used")
  else Ok ().

(** ** Pins *)
Definition MAX_PINS : nat := 6.

Fixpoint pins_loop (pins repos out : list string) : result (list string) :=
  match pins with
  | [] => Ok out
  | p :: rest =>
    let p := trim p in
    if String.eqb p "" || any (fun o => String.eqb o p) out then pins_loop rest repos out
    else if negb (any (fun r => String.eqb r p) repos) then Err (EMsg ("no such repo to pin: " +:+ p))
    else pins_loop rest repos (out ++ [p])%list
  end.

Definition check_pins (pins repos : list string) : result (list string) :=
  let? out := pins_loop pins repos [] in
  if (MAX_PINS <? length out)%nat then Err (EMsg "at most 6 pins") else Ok out.

(** ** Roles, as a team's members give them *)
Definition is_active (m : Member) : bool := bool_decide (m_state m = Active).
Definition is_owner (m : Member) : bool := bool_decide (m_role m = Owner).
Definition active_owner (m : Member) : bool := is_owner m && is_active m.
Definition named (email : string) (m : Member) : bool := String.eqb (m_user m) email.
Definition named_ci (email : string) (m : Member) : bool := eq_ignore_ascii_case (m_user m) email.

Definition role_of (team : Team) (email : string) : option Role :=
  m_role <$> List.find (named_ci email) (members team).

Definition active_role_of (team : Team) (email : string) : option Role :=
  m_role <$> List.find (fun m => named_ci email m && is_active m) (members team).

Definition owner_count (team : Team) : nat := length (List.filter active_owner (members team)).

(** Fingerprints in the one spelling lookups find, when they are not yet. *)
Definition lowercased `{Casing} (fps : list string) : option (list string) :=
  let lower := map to_lowercase fps in
  if bool_decide (lower = fps) then None else Some lower.

Lemma NoDup_map_filter {A B} (f : A -> B) (p : A -> bool) l : NoDup (map f l) -> NoDup (map f (List.filter p l)).
Proof.
  induction l as [|a l IH]; [done|]. cbn. intros [Hn Hd]%NoDup_cons. destruct (p a); [|auto].
  cbn. apply NoDup_cons. split; [|auto]. rewrite list_elem_of_In, in_map_iff in *. intros (b & Hb & Hin). apply Hn.
  exists b. split; [done|]. by apply filter_In in Hin as [? _].
Qed.

(** Changing one member in place. *)
Lemma alter_users (f : Member -> Member) (i : nat) (ms : list Member) : (forall m, m_user (f m) = m_user m) ->
  map m_user (alter f i ms) = map m_user ms.
Proof.
  intros Hf. revert i. induction ms as [|m ms IH]; intros [|i]; [done..| |]; cbn; [by rewrite Hf|]. f_equal. apply IH.
Qed.

(** ** The collections *)
Inductive coll :=
| CTeams | CUsers | CHandles | CInvites | CSignins | CCliLogins | CSuperadmins | CRepos
| CCredentials | CPasskeys | CMeta.

#[export] Instance coll_eq : EqDecision coll. Proof. solve_decision. Defined.

Definition doc (c : coll) : Type :=
  match c with
  | CTeams => Team | CUsers => User | CHandles => Handle | CInvites => Invite | CSignins => SignInLink
  | CCliLogins => CliLogin | CSuperadmins => SuperAdmin | CRepos => RepoRow
  | CCredentials => Credential | CPasskeys => Passkey | CMeta => Meta
  end.

(** A document's [_id]. *)
Definition id_of (c : coll) : doc c -> string :=
  match c return doc c -> string with
  | CTeams => slug | CUsers => u_email | CHandles => handle | CInvites => i_id | CSignins => si_id
  | CCliLogins => code | CSuperadmins => sa_user | CRepos => repo_id
  | CCredentials => cr_id | CPasskeys => pk_id | CMeta => meta_id
  end.

(** [createdAt], where a listing is sorted by it. *)
Definition created_of (c : coll) : doc c -> Z :=
  match c return doc c -> Z with
  | CTeams => t_created_at | CUsers => u_created_at | CInvites => i_created_at
  | CCredentials => cr_created_at | CPasskeys => pk_created_at | _ => fun _ => 0
  end.
