(* ===== verification/Mongo.v ===== *)
(** * Mongo: collections of documents, one document at a time

    What the directory asks of its database.  A request touches one collection and takes effect at
    once; what it changed is a list of [event]s.  A request may fail, and unless the collection is
    known better a failed one may have taken effect ([works], [msem]). *)

From Stdlib Require Import Sorting.Sorted.
From S2P Require Import Prelude Text Names People.
Local Open Scope string_scope.
Local Open Scope Z_scope.

(** ** Requests *)
Inductive coll_eff : Type -> Type :=
(** [insert_one]: [Ok false] is a duplicate key. *)
| InsertOne (c : coll) (d : doc c) : coll_eff (result bool)
| FindOne (c : coll) (q : doc c -> bool) : coll_eff (result (option (doc c)))
(** [find], with [sort(createdAt: -1)] and [limit] where they are given. *)
| FindMany (c : coll) (q : doc c -> bool) (newest : bool) (limit : option nat) : coll_eff (result (list (doc c)))
(** [update_one]: whether one matched. *)
| UpdateOne (c : coll) (q : doc c -> bool) (u : doc c -> doc c) : coll_eff (result bool)
(** [update_one({_id})] with [upsert(true)]. *)
| UpsertOne (c : coll) (fresh : doc c) (u : doc c -> doc c) : coll_eff (result unit)
(** [delete_one]: whether one was deleted. *)
| DeleteOne (c : coll) (q : doc c -> bool) : coll_eff (result bool)
| DeleteMany (c : coll) (q : doc c -> bool) : coll_eff (result Z)
| FindOneAndDelete (c : coll) (q : doc c -> bool) : coll_eff (result (option (doc c)))
(** [find_one_and_update]: the document as it was. *)
| FindOneAndUpdate (c : coll) (q : doc c -> bool) (u : doc c -> doc c) : coll_eff (result (option (doc c)))
| CountDocuments (c : coll) (q : doc c -> bool) : coll_eff (result Z).

Definition coll_of {X} (e : coll_eff X) : coll :=
  match e with
  | InsertOne c _ | FindOne c _ | FindMany c _ _ _ | UpdateOne c _ _ | UpsertOne c _ _ | DeleteOne c _
  | DeleteMany c _ | FindOneAndDelete c _ | FindOneAndUpdate c _ _ | CountDocuments c _ => c
  end.

(** A request that fails answers with the driver's error. *)
Definition fail_with {X} (e : coll_eff X) (msg : string) : X :=
  match e with
  | InsertOne _ _ => Err (EStore msg)
  | FindOne _ _ => Err (EStore msg)
  | FindMany _ _ _ _ => Err (EStore msg)
  | UpdateOne _ _ _ => Err (EStore msg)
  | UpsertOne _ _ _ => Err (EStore msg)
  | DeleteOne _ _ => Err (EStore msg)
  | DeleteMany _ _ => Err (EStore msg)
  | FindOneAndDelete _ _ => Err (EStore msg)
  | FindOneAndUpdate _ _ _ => Err (EStore msg)
  | CountDocuments _ _ => Err (EStore msg)
  end.

(** ** The database *)
Definition database : Type := forall c, gmap string (doc c).

Definition alter_coll (c : coll) (f : gmap string (doc c) -> gmap string (doc c)) (w : database) : database :=
  fun c' => match decide (c = c') with
            | left e => eq_rect c (fun c => gmap string (doc c)) (f (w c)) c' e
            | right _ => w c'
            end.

Lemma alter_coll_same c f w : alter_coll c f w c = f (w c).
Proof. unfold alter_coll. destruct (decide (c = c)) as [e|n]; [|done]. by rewrite (proof_irrel e eq_refl). Qed.

Lemma alter_coll_other c c' f w : c <> c' -> alter_coll c f w c' = w c'.
Proof. unfold alter_coll. by destruct (decide (c = c')). Qed.

(** What a request did. *)
Inductive event :=
| Added (c : coll) (d : doc c)
| Changed (c : coll) (k : string) (old new : doc c)
| Removed (c : coll) (k : string) (d : doc c)
(** Nothing, but the answer tells that the collection holds something. *)
| Met (c : coll).

Definition apply_event (w : database) (e : event) : database :=
  match e with
  | Added c d => alter_coll c (<[id_of c d := d]>) w
  | Changed c k _ d => alter_coll c (<[k := d]>) w
  | Removed c k _ => alter_coll c (delete k) w
  | Met _ => w
  end.

Definition apply_events (w : database) (es : list event) : database := foldl apply_event w es.

(** The documents of a collection that a query selects. *)
Definition selected {c} (w : database) (q : doc c -> bool) : list (string * doc c) :=
  List.filter (fun kd => q kd.2) (map_to_list (w c)).

Lemma elem_of_selected {c} (w : database) (q : doc c -> bool) k d :
  (k, d) ∈ selected w q <-> w c !! k = Some d /\ q d = true.
Proof.
  unfold selected. rewrite list_elem_of_In, filter_In, <- list_elem_of_In, elem_of_map_to_list. done.
Qed.

Definition none_selected {c} (w : database) (q : doc c -> bool) : Prop :=
  forall k d, w c !! k = Some d -> q d = false.

Lemma selected_keys {c} (w : database) (q : doc c -> bool) : NoDup (map fst (selected w q)).
Proof. apply NoDup_map_filter. apply (NoDup_fst_map_to_list (w c)). Qed.

(** A listing: all that are selected, newest first when asked so, up to the limit. *)
Definition lists {c} (w : database) (q : doc c -> bool) (newest : bool) (limit : option nat) (l : list (doc c)) : Prop :=
  exists all, all ≡ₚ map snd (selected w q) /\
    (newest = true -> StronglySorted (fun a b => created_of c b <= created_of c a) all) /\
    l = match limit with Some n => take n all | None => all end.

(** ** What a request does when it works *)
Definition works {X} (e : coll_eff X) (w : database) : X -> list event -> Prop :=
  match e in coll_eff X return X -> list event -> Prop with
  | InsertOne c d => fun x es =>
      (x = Ok true /\ w c !! id_of c d = None /\ es = [Added c d]) \/
      (x = Ok false /\ (exists d', w c !! id_of c d = Some d') /\ es = [Met c])
  | FindOne c q => fun x es => es = [] /\
      ((exists k d, w c !! k = Some d /\ q d = true /\ x = Ok (Some d)) \/ (none_selected w q /\ x = Ok None))
  | FindMany c q newest limit => fun x es => es = [] /\ exists l, x = Ok l /\ lists w q newest limit l
  | UpdateOne c q u => fun x es =>
      (exists k d, w c !! k = Some d /\ q d = true /\ x = Ok true /\ es = [Changed c k d (u d)]) \/
      (none_selected w q /\ x = Ok false /\ es = [])
  | UpsertOne c fresh u => fun x es => x = Ok () /\
      ((exists d, w c !! id_of c fresh = Some d /\ es = [Changed c (id_of c fresh) d (u d)]) \/
       (w c !! id_of c fresh = None /\ es = [Added c fresh]))
  | DeleteOne c q => fun x es =>
      (exists k d, w c !! k = Some d /\ q d = true /\ x = Ok true /\ es = [Removed c k d]) \/
      (none_selected w q /\ x = Ok false /\ es = [])
  | DeleteMany c q => fun x es => exists l, l ≡ₚ selected w q /\
      x = Ok (Z.of_nat (length l)) /\ es = map (fun kd => Removed c kd.1 kd.2) l
  | FindOneAndDelete c q => fun x es =>
      (exists k d, w c !! k = Some d /\ q d = true /\ x = Ok (Some d) /\ es = [Removed c k d]) \/
      (none_selected w q /\ x = Ok None /\ es = [])
  | FindOneAndUpdate c q u => fun x es =>
      (exists k d, w c !! k = Some d /\ q d = true /\ x = Ok (Some d) /\ es = [Changed c k d (u d)]) \/
      (none_selected w q /\ x = Ok None /\ es = [])
  | CountDocuments c q => fun x es =>
      let n := Z.of_nat (length (selected w q)) in x = Ok n /\ es = if 0 <? n then [Met c] else []
  end.

(** How a collection fails: not at all, cleanly, or so that a failed request may have been done. *)
Inductive failing := Reliable | Clean | Torn.

#[export] Instance failing_eq : EqDecision failing. Proof. solve_decision. Defined.

Definition msem (mode : coll -> failing) {X} (e : coll_eff X) (w : database) (x : X) (es : list event) : Prop :=
  works e w x es \/
  exists msg, x = fail_with e msg /\ mode (coll_of e) <> Reliable /\
    (es = [] \/ (mode (coll_of e) = Torn /\ exists y, works e w y es)).

(** ** One database in memory, which never fails and takes the first document that matches *)
Definition newest_first {c} (l : list (doc c)) : list (doc c) :=
  let fix insert d l := match l with
    | [] => [d]
    | e :: r => if created_of c e <? created_of c d then d :: l else e :: insert d r
    end in
  foldr insert [] l.

Definition exec_coll {X} (e : coll_eff X) (w : database) : X * list event :=
  match e in coll_eff X return X * list event with
  | InsertOne c d => match w c !! id_of c d with None => (Ok true, [Added c d]) | Some _ => (Ok false, [Met c]) end
  | FindOne c q => (Ok (head (map snd (selected w q))), [])
  | FindMany c q newest limit =>
    let all := map snd (selected w q) in
    let all := if newest then newest_first all else all in
    (Ok (match limit with Some n => take n all | None => all end), [])
  | UpdateOne c q u =>
    match selected w q with [] => (Ok false, []) | (k, d) :: _ => (Ok true, [Changed c k d (u d)]) end
  | UpsertOne c fresh u =>
    match w c !! id_of c fresh with
    | Some d => (Ok (), [Changed c (id_of c fresh) d (u d)])
    | None => (Ok (), [Added c fresh])
    end
  | DeleteOne c q => match selected w q with [] => (Ok false, []) | (k, d) :: _ => (Ok true, [Removed c k d]) end
  | DeleteMany c q =>
    let l := selected w q in (Ok (Z.of_nat (length l)), map (fun kd => Removed c kd.1 kd.2) l)
  | FindOneAndDelete c q =>
    match selected w q with [] => (Ok None, []) | (k, d) :: _ => (Ok (Some d), [Removed c k d]) end
  | FindOneAndUpdate c q u =>
    match selected w q with [] => (Ok None, []) | (k, d) :: _ => (Ok (Some d), [Changed c k d (u d)]) end
  | CountDocuments c q => let n := Z.of_nat (length (selected w q)) in (Ok n, if 0 <? n then [Met c] else [])
  end.

Lemma selected_none {c} (w : database) (q : doc c -> bool) : selected w q = [] -> none_selected w q.
Proof.
  intros Hn k d Hk. destruct (q d) eqn:Hq; [|done].
  assert (Hin : (k, d) ∈ selected w q) by by apply elem_of_selected. by rewrite Hn in Hin; apply not_elem_of_nil in Hin.
Qed.

Lemma selected_head {c} (w : database) (q : doc c -> bool) k d l :
  selected w q = (k, d) :: l -> w c !! k = Some d /\ q d = true.
Proof. intros H. apply elem_of_selected. rewrite H. left. Qed.

Lemma newest_first_sorted {c} (l : list (doc c)) :
  newest_first l ≡ₚ l /\ StronglySorted (fun a b => created_of c b <= created_of c a) (newest_first l).
Proof.
  unfold newest_first. induction l as [|d l [IHp IHs]]; [split; [done|constructor]|]. cbn [foldr].
  set (r := foldr _ [] l) in *. clearbody r. split.
  - trans (d :: r); [clear|by rewrite IHp]. induction r as [|e r IH]; [done|].
    cbn. destruct (_ <? _); [done|]. rewrite IH. by rewrite Permutation_swap.
  - clear IHp. induction IHs as [|e r Hs IH Hall]; [repeat constructor|].
    cbn. destruct (Z.ltb_spec (created_of c e) (created_of c d)).
    + constructor; [by constructor|]. constructor; [lia|]. eapply Forall_impl; [exact Hall|]. cbn. lia.
    + constructor; [done|].
      assert (Hp : forall r', (fix insert d l := match l with
        | [] => [d] | e :: r => if created_of c e <? created_of c d then d :: l else e :: insert d r end) d r' ≡ₚ d :: r').
      { clear. induction r' as [|e r IH]; [done|]. destruct (_ <? _); [done|]. rewrite IH. by rewrite Permutation_swap. }
      rewrite Hp. by constructor.
Qed.

(** It is one of the databases [works] describes. *)
Lemma exec_coll_works {X} (e : coll_eff X) w : works e w (exec_coll e w).1 (exec_coll e w).2.
Proof.
  destruct e as [c d|c q|c q newest limit|c q u|c fresh u|c q|c q|c q|c q u|c q]; cbn.
  1: destruct (w c !! _) eqn:E; eauto.
  1:{ split; [done|]. destruct (selected w q) as [|[k d] l] eqn:E; cbn.
      - right. split; [by apply selected_none|done].
      - left. apply selected_head in E as [??]. by exists k, d. }
  1:{ split; [done|]. eexists. split; [done|]. exists (if newest then newest_first (map snd (selected w q)) else map snd (selected w q)).
      destruct newest; [|done]. by destruct (newest_first_sorted (map snd (selected w q))). }
  2: destruct (w c !! _) eqn:E; eauto.
  3: eauto.
  all: try (destruct (selected w q) as [|[k d] l] eqn:E; cbn;
    [right; split; [by apply selected_none|done]|left; apply selected_head in E as [??]; by exists k, d]).
  done.
Qed.
