(* ===== verification/Directory.v ===== *)
(** * Directory: people, teams, invitations, sign-in and administrators

    [crates/pulls/src/directory], on the database every deployment has: a function per operation,
    requests to a collection as effects.  An answer's error text is the driver's behind [mongo:]. *)

From S2P Require Import Prelude Text Names Prog People Mongo.
Local Open Scope string_scope.
Local Open Scope Z_scope.

(** ** What operations ask of the world *)
Inductive dir_eff : Type -> Type :=
| DColl {X} (e : coll_eff X) : dir_eff X
(** [DateTime::now()]. *)
| DNow : dir_eff Z.

Abbreviation DD := (prog dir_eff).

Definition coll_op {X} (e : coll_eff X) : DD X := trigger (DColl e).
Definition now : DD Z := trigger DNow.

(** [map_err(|e| err(format!("mongo: {e}")))]. *)
Definition mongo {A} (r : result A) : result A :=
  match r with Err (EStore m) => Err (EMsg ("mongo: " +:+ m)) | r => r end.

Definition ask {A} (e : coll_eff (result A)) : DD (result A) :=
  let! r := coll_op e in Ret (mongo r).

(** [insert_one] where a duplicate key is one more error. *)
Definition insert_new (c : coll) (d : doc c) : DD (result unit) :=
  let!? fresh := ask (InsertOne c d) in
  Ret (if fresh : bool then Ok () else Err (EMsg "mongo: duplicate key")).

(** [add_credential] and [add_passkey]: [None] is a duplicate key. *)
Definition insert_or_none (c : coll) (d : doc c) : DD (result (option unit)) :=
  let!? fresh := ask (InsertOne c d) in Ret (Ok (if fresh : bool then Some () else None)).

Definition LISTING_LIMIT : nat := 500.

(** A document by its [_id]. *)
Definition by_id {c} (k : string) (d : doc c) : bool := String.eqb (id_of c d) k.

Section directory.
Context `{Casing}.
(** The position [$] stands for when a filter names both the member addressed and, by [$elemMatch],
    another: the database decides between the two. *)
Variable dollar : nat -> nat -> nat.

Definition lower_trim (s : string) : string := to_lowercase (trim s).

(** ** People, [users.rs] *)
Definition user (email : string) : DD (result (option User)) :=
  ask (FindOne CUsers (by_id (c := CUsers) (lower_trim email))).

Definition set_seen (name : string) (now : Z) (u : User) : User :=
  mkUser (u_email u) name (username u) (u_region u) (u_created_at u) now.

Definition upsert_user (email name : string) : DD (result User) :=
  let email := lower_trim email in
  if negb (contains_char "@" email) then Ret (Err (invalid "a valid email is required"))
  else
    let name := if String.eqb (trim name) "" then unwrap_or (head (split "@" email)) email else trim name in
    let! t := now in
    let!? _ := ask (UpsertOne CUsers (mkUser email name None "" t t) (set_seen name t)) in
    let!? u := user email in
    Ret (match u with Some u => Ok u | None => Err (EMsg "user vanished immediately after upsert") end).

Definition reserve (h : string) (kind : HandleKind) (held_by : string) : DD (result bool) :=
  let! t := now in ask (InsertOne CHandles (mkHandle h kind held_by t)).

Definition release (h : string) : DD (result unit) :=
  let!? _ := ask (DeleteOne CHandles (by_id (c := CHandles) h)) in Ret (Ok ()).

Definition set_username (h : string) (u : User) : User :=
  mkUser (u_email u) (u_name u) (Some h) (u_region u) (u_created_at u) (last_seen_at u).

Definition claim_username (email handle : string) : DD (result (option User)) :=
  let email := lower_trim email in
  let handle := lower_trim handle in
  match check_handle handle with
  | Err e => Ret (Err e)
  | Ok _ =>
    let!? existing := user email in
    match existing with
    | None => Ret (Err (invalid "no such user"))
    | Some existing =>
      match username existing with
      | Some current =>
        Ret (if String.eqb current handle then Ok (Some existing) else Err (invalid "username already set"))
      | None =>
        let!? mine := reserve handle User_ email in
        if negb mine then Ret (Ok None)
        else
          let! set := coll_op (UpdateOne CUsers
            (fun u => by_id (c := CUsers) email u && is_none (username u)) (set_username handle)) in
          match set with
          | Ok true => user email
          | Ok false => let! _ := release handle in Ret (Err (invalid "username already set"))
          | Err e => let! _ := release handle in Ret (mongo (Err e))
          end
      end
    end
  end.

Definition has_username (h : string) (u : User) : bool := bool_decide (username u = Some h).

Definition user_by_handle (handle : string) : DD (result (option User)) :=
  ask (FindOne CUsers (has_username (lower_trim handle))).

Definition set_user_region (region : string) (u : User) : User :=
  mkUser (u_email u) (u_name u) (username u) region (u_created_at u) (last_seen_at u).

Definition bind_user_region (email region : string) : DD (result (option string)) :=
  let email := lower_trim email in
  let!? _ := ask (UpdateOne CUsers (fun u => by_id (c := CUsers) email u && String.eqb (u_region u) "")
                            (set_user_region region)) in
  let!? u := user email in Ret (Ok (u_region <$> u)).

Definition unbound_users : DD (result (list string)) :=
  let!? users := ask (FindMany CUsers (fun u => is_some (username u) && String.eqb (u_region u) "") false None) in
  Ret (Ok (omap username users)).

(** ** Teams, [teams.rs] *)
Definition new_team (s name creator region : string) (t : Z) : Team :=
  mkTeam s name "" false "" "" "" "" [] region creator t [mkMember creator Owner t Active None None].

Definition create (s name creator region : string) : DD (result (option Team)) :=
  match check_handle s with
  | Err e => Ret (Err e)
  | Ok _ =>
    let name := trim name in
    if String.eqb name "" then Ret (Err (invalid "team name required"))
    else
      let!? mine := reserve s Team_ creator in
      if negb mine then Ret (Ok None)
      else
        let! t := now in
        let team := new_team s name creator region t in
        let! r := coll_op (InsertOne CTeams team) in
        match r with
        | Ok true => Ret (Ok (Some team))
        | Ok false => let! _ := release s in Ret (Ok None)
        | Err e => let! _ := release s in Ret (mongo (Err e))
        end
  end.

Definition unbound_teams : DD (result (list string)) :=
  let!? teams := ask (FindMany CTeams (fun t => String.eqb (t_region t) "") false None) in
  Ret (Ok (map slug teams)).

Definition get (s : string) : DD (result (option Team)) := ask (FindOne CTeams (by_id (c := CTeams) s)).

Definition is_member (email s : string) : DD (result bool) :=
  let!? t := get s in Ret (Ok (is_some_and t (fun t => is_some (active_role_of t email)))).

Definition for_user (user : string) : DD (result (list Team)) :=
  ask (FindMany CTeams (fun t => any (named user) (members t)) true (Some LISTING_LIMIT)).

Definition slugs_for (user : string) : DD (result (list string)) :=
  let!? teams := ask (FindMany CTeams (fun t => any (fun m => named user m && negb (bool_decide (m_state m = Paused))) (members t))
                               false (Some LISTING_LIMIT)) in
  Ret (Ok (map slug teams)).

Definition describe (s : string) : DD (result (option (Team * list User))) :=
  let!? team := get s in
  match team with
  | None => Ret (Ok None)
  | Some team =>
    let emails := map m_user (members team) in
    let!? users := ask (FindMany CUsers (fun u => mem_str (u_email u) emails) false None) in
    Ret (Ok (Some (team, users)))
  end.

Definition set_about (name description : string) (t : Team) : Team :=
  mkTeam (slug t) name description (public t) (tagline t) (location t) (website t) (t_email t) (pins t)
         (t_region t) (created_by t) (t_created_at t) (members t).

Definition update_team (s name description : string) : DD (result bool) :=
  let name := trim name in
  if String.eqb name "" then Ret (Err (invalid "team name required"))
  else ask (UpdateOne CTeams (by_id (c := CTeams) s) (set_about name (trim description))).

Definition set_region (region : string) (t : Team) : Team :=
  mkTeam (slug t) (t_name t) (description t) (public t) (tagline t) (location t) (website t) (t_email t)
         (pins t) region (created_by t) (t_created_at t) (members t).

Definition bind_region (s region : string) : DD (result (option string)) :=
  let handle := lower_trim s in
  let!? _ := ask (UpdateOne CTeams (fun t => by_id (c := CTeams) s t && String.eqb (t_region t) "") (set_region region)) in
  let!? t := get s in
  match t with
  | Some t => Ret (Ok (Some (t_region t)))
  | None =>
    let!? _ := ask (UpdateOne CUsers (fun u => has_username handle u && String.eqb (u_region u) "")
                              (set_user_region region)) in
    let!? u := user_by_handle handle in Ret (Ok (u_region <$> u))
  end.

Inductive DeleteTeam := Deleted | StillOwns (repos : Z) | NoSuchTeam_.

Definition delete_team (s : string) : DD (result DeleteTeam) :=
  let!? repos := ask (CountDocuments CRepos (fun r => String.eqb (repo_owner r) s)) in
  if 0 <? repos then Ret (Ok (StillOwns repos))
  else
    let!? deleted := ask (DeleteOne CTeams (by_id (c := CTeams) s)) in
    if negb deleted then Ret (Ok NoSuchTeam_)
    else let!? _ := release s in Ret (Ok Deleted).

Definition set_profile (p : TeamProfile) (t : Team) : Team :=
  mkTeam (slug t) (t_name t) (description t) (p_public p) (trim (p_tagline p)) (trim (p_location p))
         (trim (p_website p)) (trim (p_email p)) (p_pins p) (t_region t) (created_by t) (t_created_at t) (members t).

Definition update_profile (s : string) (p : TeamProfile) : DD (result bool) :=
  ask (UpdateOne CTeams (by_id (c := CTeams) s) (set_profile p)).

(** ** Membership, [members.rs] *)
Inductive AddMember := Added_ | AlreadyMember | NoSuchUser | NoSuchTeam.
Inductive Membership := Done | NotAMember | LastOwner | NoTeam.
Inductive MembershipErr := ENoSuchTeam | ERead (msg : error).

Definition set_members (f : list Member -> list Member) (t : Team) : Team :=
  mkTeam (slug t) (t_name t) (description t) (public t) (tagline t) (location t) (website t) (t_email t)
         (pins t) (t_region t) (created_by t) (t_created_at t) (f (members t)).

Definition add_member (s email : string) (role : Role) : DD (result AddMember) :=
  let email := lower_trim email in
  let!? u := user email in
  if is_none u then Ret (Ok NoSuchUser)
  else
    let! t := now in
    let member := mkMember email role t Active None None in
    let!? matched := ask (UpdateOne CTeams
      (fun t => by_id (c := CTeams) s t && negb (any (named email) (members t)))
      (set_members (fun ms => ms ++ [member])%list)) in
    if matched : bool then Ret (Ok Added_)
    else
      let!? t := get s in Ret (Ok (match t with Some _ => AlreadyMember | None => NoSuchTeam end)).

(** The [$elemMatch] of the guards: an active owner other than [email]. *)
Definition other_owner (email : string) (m : Member) : bool := active_owner m && negb (named email m).

(** The place of the first member a condition holds of. *)
Fixpoint index_of (p : Member -> bool) (ms : list Member) : option nat :=
  match ms with
  | [] => None
  | m :: ms => if p m then Some 0%nat else S <$> index_of p ms
  end.

Definition with_role (role : Role) (m : Member) : Member :=
  mkMember (m_user m) role (joined_at m) (m_state m) (paused_at m) (paused_by m).

(** [members.$.role] under the filter [set_role] builds. *)
Definition set_role_at (demoting : bool) (email : string) (role : Role) (ms : list Member) : list Member :=
  match index_of (named email) ms with
  | None => ms
  | Some i =>
    let at_ := match (if demoting then index_of (other_owner email) ms else None) with
               | Some j => dollar i j
               | None => i
               end in
    alter (with_role role) at_ ms
  end.

Definition set_role (s email : string) (role : Role) : DD (result Membership) :=
  let email := lower_trim email in
  let!? team := get s in
  match team with
  | None => Ret (Ok NoTeam)
  | Some team =>
    match role_of team email with
    | None => Ret (Ok NotAMember)
    | Some current =>
      let demoting := bool_decide (current = Owner) && negb (bool_decide (role = Owner)) &&
                      is_some (active_role_of team email) in
      if demoting && (owner_count team =? 1)%nat then Ret (Ok LastOwner)
      else
        let!? matched := ask (UpdateOne CTeams
          (fun t => by_id (c := CTeams) s t && any (named email) (members t) &&
                    (negb demoting || any (other_owner email) (members t)))
          (set_members (set_role_at demoting email role))) in
        Ret (Ok (if matched : bool then Done else LastOwner))
    end
  end.

Definition with_state (state : MemberState) (t : Z) (by_ : string) (m : Member) : Member :=
  match state with
  | Paused => mkMember (m_user m) (m_role m) (joined_at m) Paused (Some t) (Some by_)
  | Active => mkMember (m_user m) (m_role m) (joined_at m) Active None None
  end.

Definition set_member_state (s email : string) (state : MemberState) (by_ : string) : DD (result Membership) :=
  let email := lower_trim email in
  let!? team := get s in
  match team with
  | None => Ret (Ok NoTeam)
  | Some team =>
    match List.find (named email) (members team) with
    | None => Ret (Ok NotAMember)
    | Some current =>
      if bool_decide (m_state current = state) then Ret (Ok Done)
      else
        let guarded := bool_decide (state = Paused) && active_owner current in
        if guarded && (owner_count team =? 1)%nat then Ret (Ok LastOwner)
        else
          let! t := now in
          let!? matched := ask (UpdateOne CTeams
            (fun t => by_id (c := CTeams) s t && any (named email) (members t) &&
                      (negb guarded || any (other_owner email) (members t)))
            (set_members (map (fun m => if named email m then with_state state t by_ m else m)))) in
          if matched : bool then Ret (Ok Done)
          else
            let!? t := get s in
            Ret (Ok (if is_none_or t (fun t => negb (any (named email) (members t))) then NotAMember else LastOwner))
    end
  end.

Definition membership (s email : string) : DD (option MemberState + MembershipErr) :=
  let! r := get s in
  Ret (match r with
       | Err e => inr (ERead e)
       | Ok None => inr ENoSuchTeam
       | Ok (Some team) => inl (m_state <$> List.find (named_ci (trim email)) (members team))
       end).

Definition remove_member (s email : string) : DD (result Membership) :=
  let email := lower_trim email in
  let!? team := get s in
  match team with
  | None => Ret (Ok NoTeam)
  | Some team =>
    match role_of team email with
    | None => Ret (Ok NotAMember)
    | Some current =>
      let last_owner_risk := bool_decide (current = Owner) && is_some (active_role_of team email) in
      if last_owner_risk && (owner_count team =? 1)%nat then Ret (Ok LastOwner)
      else
        let!? matched := ask (UpdateOne CTeams
          (fun t => by_id (c := CTeams) s t && (negb last_owner_risk || any (other_owner email) (members t)))
          (set_members (List.filter (fun m => negb (named email m))))) in
        Ret (Ok (if matched : bool then Done else LastOwner))
    end
  end.

(** ** Invitations, [teams.rs] *)
Inductive AcceptInvite := Joined (team : string) | WrongEmail | NoUser | Gone.

Definition create_invite (i : Invite) : DD (result unit) := insert_new CInvites i.

Definition invites_for (team : string) : DD (result (list Invite)) :=
  let! t := now in
  ask (FindMany CInvites (fun i => String.eqb (i_team i) team && (t <? i_expires_at i)) true (Some LISTING_LIMIT)).

Definition revoke_invite (team id : string) : DD (result bool) :=
  ask (DeleteOne CInvites (fun i => by_id (c := CInvites) id i && String.eqb (i_team i) team)).

Definition invite (id : string) : DD (result (option Invite)) :=
  let! t := now in ask (FindOne CInvites (fun i => by_id (c := CInvites) id i && (t <? i_expires_at i))).

Definition accept_invite (id email : string) : DD (result AcceptInvite) :=
  let email := lower_trim email in
  let!? inv := invite id in
  match inv with
  | None => Ret (Ok Gone)
  | Some inv =>
    if negb (eq_ignore_ascii_case (i_email inv) email) then Ret (Ok WrongEmail)
    else
      let!? spent := ask (DeleteOne CInvites (by_id (c := CInvites) id)) in
      if negb spent then Ret (Ok Gone)
      else
        let!? r := add_member (i_team inv) email (i_role inv) in
        Ret (Ok (match r with
                 | Added_ | AlreadyMember => Joined (i_team inv)
                 | NoSuchUser => NoUser
                 | NoSuchTeam => Gone
                 end))
  end.

(** ** Sign-in links and CLI logins, [signin.rs] *)
Definition sweep_expired : DD (result Z) :=
  let! t := now in
  let!? a := ask (DeleteMany CSignins (fun l => si_expires_at l <? t)) in
  let!? b := ask (DeleteMany CCliLogins (fun l => cl_expires_at l <? t)) in
  let!? c := ask (DeleteMany CInvites (fun i => i_expires_at i <? t)) in
  Ret (Ok (a + b + c)).

Definition create_signin (l : SignInLink) : DD (result unit) := insert_new CSignins l.

Definition redeem_signin (id : string) : DD (result (option string)) :=
  let! t := now in
  let!? l := ask (FindOneAndDelete CSignins (fun l => by_id (c := CSignins) id l && (t <? si_expires_at l))) in
  Ret (Ok (si_email <$> l)).

Definition create_cli_login (l : CliLogin) : DD (result unit) := insert_new CCliLogins l.

(** Waiting for approval. *)
Definition pending (code : string) (t : Z) (l : CliLogin) : bool :=
  by_id (c := CCliLogins) code l && (t <? cl_expires_at l) && is_none (token l).

Definition cli_login_pending (code : string) : DD (result (option CliLogin)) :=
  let! t := now in ask (FindOne CCliLogins (pending code t)).

Definition with_token (tok : string) (exp : Z) (l : CliLogin) : CliLogin :=
  mkCliLogin (code l) (poll l) (device l) (cl_expires_at l) (Some tok) exp.

Definition approve_cli_login (code tok : string) (exp : Z) : DD (result bool) :=
  let! t := now in
  let!? r := ask (FindOneAndUpdate CCliLogins (pending code t) (with_token tok exp)) in
  Ret (Ok (is_some r)).

Definition live (poll_ : string) (t : Z) (l : CliLogin) : bool :=
  String.eqb (poll l) poll_ && (t <? cl_expires_at l).

Definition take_cli_login (poll : string) : DD (result (option CliLogin)) :=
  let! t := now in
  let!? row := ask (FindOneAndDelete CCliLogins (fun l => live poll t l && is_some (token l))) in
  match row with
  | Some row => Ret (Ok (Some row))
  | None => ask (FindOne CCliLogins (live poll t))
  end.

(** ** Administrators, [superadmins.rs] *)
Definition is_superadmin (user : string) : DD (result bool) :=
  let!? r := ask (FindOne CSuperadmins (by_id (c := CSuperadmins) (lower_trim user))) in Ret (Ok (is_some r)).

Definition superadmins : DD (result (list SuperAdmin)) :=
  ask (FindMany CSuperadmins (fun _ => true) false (Some LISTING_LIMIT)).

Definition add_superadmin (user by_ : string) : DD (result unit) :=
  let user := lower_trim user in
  let! t := now in
  ask (UpsertOne CSuperadmins (mkSuperAdmin user t by_) (fun row => row)).

Definition remove_superadmin (user : string) : DD (result bool) :=
  let user := lower_trim user in
  let!? row := ask (FindOneAndDelete CSuperadmins (by_id (c := CSuperadmins) user)) in
  match row with
  | None => Ret (Ok true)
  | Some row =>
    let!? remaining := ask (CountDocuments CSuperadmins (fun _ => true)) in
    if remaining =? 0
    then let!? _ := insert_new CSuperadmins row in Ret (Ok false)
    else Ret (Ok true)
  end.

Fixpoint ensure_superadmins (emails : list string) (n : Z) : DD (result Z) :=
  match emails with
  | [] => Ret (Ok n)
  | e :: rest =>
    let!? there := is_superadmin e in
    if there : bool then ensure_superadmins rest n
    else let!? _ := add_superadmin e "bootstrap" in ensure_superadmins rest (n + 1)
  end.

(** ** Credentials, [credentials.rs] *)
Definition add_credential (c : Credential) : DD (result (option unit)) := insert_or_none CCredentials c.

Definition of_kind (k : CredentialKind) (c : Credential) : bool := bool_decide (cr_kind c = k).

Definition credentials_for (owner : string) (kind : CredentialKind) : DD (result (list Credential)) :=
  ask (FindMany CCredentials (fun c => String.eqb (cr_owner c) owner && of_kind kind c) true (Some LISTING_LIMIT)).

Definition credential (id : string) : DD (result (option Credential)) :=
  ask (FindOne CCredentials (by_id (c := CCredentials) id)).

Definition signer_by_any (candidates : list string) : DD (result (option Credential)) :=
  match candidates with
  | [] => Ret (Ok None)
  | _ =>
    let lower := map to_lowercase candidates in
    let full := List.filter (fun c => 40 <=? str_len c) lower in
    let wanted := match full with [] => lower | _ => full end in
    let!? found := ask (FindMany CCredentials
      (fun c => of_kind SigningKey c && any (fun f => mem_str f wanted) (fingerprints c)) false (Some LISTING_LIMIT)) in
    Ret (Ok (match found with [c] => Some c | _ => None end))
  end.

Definition cli_tokens_with_device_suffix (suffix : string) : DD (result (list Credential)) :=
  ask (FindMany CCredentials (fun c => of_kind CliToken c && ends_with suffix (cr_name c)) false None).

Definition forget_credential (id : string) : DD (result unit) :=
  let!? _ := ask (DeleteOne CCredentials (by_id (c := CCredentials) id)) in Ret (Ok ()).

Definition KEYS_V2 : string := "keys_v2".
Definition FPS_LOWERCASED : string := "fingerprints_lowercased".

Definition person (s : string) : bool := contains_char "@" s.

Definition set_owner (owner : string) (c : Credential) : Credential :=
  mkCredential (cr_id c) (cr_kind c) owner (cr_created_by c) (cr_name c) (material c) (fingerprints c) (cr_created_at c).

Fixpoint migrate_rows (rows : list Credential) (keys : list (string * string)) : DD (result (list (string * string))) :=
  match rows with
  | [] => Ret (Ok keys)
  | c :: rest =>
    let!? owner :=
      if negb (person (cr_owner c)) && person (cr_created_by c)
      then let!? _ := ask (UpdateOne CCredentials (by_id (c := CCredentials) (cr_id c)) (set_owner (cr_created_by c))) in
           Ret (Ok (cr_created_by c))
      else Ret (Ok (cr_owner c)) in
    migrate_rows rest (if of_kind SshKey c && person owner then keys ++ [(owner, cr_id c)] else keys)%list
  end.

Definition migrate_keys_to_people : DD (result (list (string * string))) :=
  let!? marked := ask (FindOne CMeta (by_id (c := CMeta) KEYS_V2)) in
  if is_some marked then Ret (Ok [])
  else
    let!? rows := ask (FindMany CCredentials (fun c => of_kind SshKey c || of_kind SigningKey c) false None) in
    migrate_rows rows [].

Definition mark_keys_migrated : DD (result unit) :=
  let! t := now in ask (UpsertOne CMeta (mkMeta KEYS_V2 t) (fun _ => mkMeta KEYS_V2 t)).

Definition set_fingerprints (fps : list string) (c : Credential) : Credential :=
  mkCredential (cr_id c) (cr_kind c) (cr_owner c) (cr_created_by c) (cr_name c) (material c) fps (cr_created_at c).

Definition upper_ascii (s : string) : bool := negb (all_chars (fun c => negb (in_range 65 90 c)) s).

Fixpoint lowercase_rows (rows : list Credential) (fixed : Z) : DD (result Z) :=
  match rows with
  | [] => Ret (Ok fixed)
  | c :: rest =>
    match lowercased (fingerprints c) with
    | None => lowercase_rows rest fixed
    | Some lower =>
      let!? _ := ask (UpdateOne CCredentials (by_id (c := CCredentials) (cr_id c)) (set_fingerprints lower)) in
      lowercase_rows rest (fixed + 1)
    end
  end.

Definition lowercase_signing_fingerprints : DD (result Z) :=
  let!? rows := ask (FindMany CCredentials (fun c => of_kind SigningKey c && any upper_ascii (fingerprints c)) false None) in
  lowercase_rows rows 0.

Definition lowercase_signing_fingerprints_once : DD (result Z) :=
  let!? marked := ask (FindOne CMeta (by_id (c := CMeta) FPS_LOWERCASED)) in
  if is_some marked then Ret (Ok 0)
  else
    let!? fixed := lowercase_signing_fingerprints in
    let! t := now in
    let!? _ := ask (UpsertOne CMeta (mkMeta FPS_LOWERCASED t) (fun _ => mkMeta FPS_LOWERCASED t)) in
    Ret (Ok fixed).

(** ** Passkeys, [passkeys.rs] *)
Definition add_passkey (p : Passkey) : DD (result (option unit)) := insert_or_none CPasskeys p.

Definition passkey (id : string) : DD (result (option Passkey)) :=
  ask (FindOne CPasskeys (by_id (c := CPasskeys) id)).

Definition passkeys_for (user : string) : DD (result (list Passkey)) :=
  ask (FindMany CPasskeys (fun p => String.eqb (pk_user p) (lower_trim user)) true (Some LISTING_LIMIT)).

Definition set_counter (n : Z) (p : Passkey) : Passkey :=
  mkPasskey (pk_id p) (pk_user p) (public_key p) n (transports p) (pk_name p) (pk_created_at p).

Definition advance_passkey (id : string) (n : Z) : DD (result unit) :=
  let!? _ := ask (UpdateOne CPasskeys (by_id (c := CPasskeys) id) (set_counter n)) in Ret (Ok ()).

Definition forget_passkey (id : string) : DD (result unit) :=
  let!? _ := ask (DeleteOne CPasskeys (by_id (c := CPasskeys) id)) in Ret (Ok ()).
End directory.
