(* ===== verification/Console.v ===== *)
(** * Console: who asks, and the team routes

    The api server's requests about teams and people: [crates/api/src/teams.rs] and
    [teams/pause.rs], the identity of a caller ([lib.rs], [crates/core/src/jwt.rs],
    [crates/core/src/peer.rs]) and [may_act_under] ([repos.rs]).  A handler is a function of its
    parts of the request; the audit log, the hooks into the cluster, the listing of repositories and
    the signing of tokens are requests to the world. *)

From S2P Require Import Prelude Text Names Prog People Mongo Directory.
Local Open Scope string_scope.
Local Open Scope Z_scope.

(** ** What a request carries, what it is answered *)

(** A session's or a CLI login's claims; only the latter has a [jti]. *)
Record Claims := mkClaims {
  sub : string;
  c_name : string;
  c_username : option string;
  typ : string;
  superadmin : bool;
  jti : option string;
  iat : Z;
  exp : Z;
}.

Record Headers := mkHeaders {
  bearer_token : option string;
  (** [x-kloudlite-peer], empty when absent. *)
  peer : string;
  (** [x-kloudlite-owner]. *)
  owner_header : option string;
}.

(** What of the server's configuration the routes read. *)
Record Api := mkApi {
  jwt : bool;
  has_directory : bool;
  secret : string;
  region_check : bool;
  active_regions : bool;
  on_keys_changed : bool;
  on_member_state : bool;
}.

Record RepoOut := mkRepoOut {
  r_id : string; r_owner : string; r_name : string; r_public : bool; r_description : string;
  r_created_by : string; r_created_at : Z;
}.

Record MemberDoc := mkMemberDoc {
  md_email : string; md_name : string; md_username : option string; md_role : Role; md_joined_at : Z;
  md_state : MemberState;
}.

Record InviteDoc := mkInviteDoc {
  id_id : string; id_email : string; id_role : Role; id_invited_by : string; id_expires_at : Z;
}.

(** The team as its page shows it: the row's own fields, the caller's role, people and invitations. *)
Record TeamDoc := mkTeamDoc {
  td_team : Team; your_role : Role; td_members : list MemberDoc; td_invites : list InviteDoc;
}.

Record PublicRepo := mkPublicRepo { pr_name : string; pr_description : string; pr_public : bool; pr_created_at : Z }.

Record ProfileDoc := mkProfileDoc {
  pd_slug : string; pd_name : string; pd_description : string; pd_tagline : string; pd_location : string;
  pd_website : string; pd_email : string; member_count : nat; pd_pins : list string; pd_repos : list PublicRepo;
}.

Inductive Response :=
| Reply (status : Z) (text : string)
| Status (status : Z)
| TeamMade (t : Team)
| TeamList (rows : list (Team * MemberState))
| SignedIn (u : User) (token : option string) (expires_in : Z)
| TeamPage (d : TeamDoc)
| ProfilePage (d : ProfileDoc)
| InviteIssued (id token email : string) (role : Role) (team_name : string)
| InvitePreview (team team_name email : string) (role : Role) (invited_by : string)
| JoinedTeam (team : string)
| SignInIssued (token email : string)
| Email (email : string)
| AdminList (rows : list SuperAdmin)
| TokenIssued (token : string) (meta : Credential)
| CredentialMade (meta : Credential)
| CredentialList (rows : list Credential)
| DeviceCode (code poll : string) (expires_in : Z)
| PendingCode (device : string) (expires_at : Z)
| CliTokenGiven (token : string) (expires_at : Z)
| LoginList (rows : list (string * string * Z * Z))
| BenchSweep (found revoked : Z) (digests : list string)
| PasskeyMade (p : Passkey)
| PasskeyFound (p : Passkey)
| PasskeyList (rows : list Passkey).

(** What was asked, of the requests whose answers matter later. *)
Inductive asked :=
| AskAccept (api : Api) (headers : Headers) (token : string)
| AskRedeem (token : string)
| AskApprove (code : string)
| AskPoll (poll : string)
| AskRevokeAdmin (user : string)
| AskOther.

Inductive console_eff : Type -> Type :=
| CDir {X} (e : dir_eff X) : console_eff X
(** [jsonwebtoken::decode], and [encode]. *)
| CDecode (token : string) : console_eff (option Claims)
| CEncode (c : Claims) : console_eff (result string)
(** Random bytes as hexadecimal, and a random index. *)
| CRandom (bytes : nat) : console_eff string
| CRange (below : nat) : console_eff nat
| CRegionCheck (region : string) : console_eff (result bool)
| CActiveRegions : console_eff (result (list string))
| CRepoListing (owner : string) (include_private : bool) : console_eff (result (list RepoOut))
| CKeysChanged (email : string) : console_eff unit
| CMemberState (handle team : string) : console_eff unit
| CForget (email team : string) : console_eff unit
| CAudit (actor action target reason outcome : string) : console_eff (result unit)
(** [Store]'s tokens and key index, and a person's platform key. *)
| CCreateToken (owner : string) : console_eff (result string)
| CRevokeDigest (id : string) : console_eff (result unit)
| CAddSshKey (owner fingerprint : string) : console_eff (result unit)
| CRemoveSshKey (id : string) : console_eff (result unit)
| CUserKey (owner : string) : console_eff (result (option string))
(** A request arrives, or a job starts, under a number of its own; it is answered. *)
| CBegin : console_eff unit
| CAnswer (a : asked) (r : Response) : console_eff unit.

Abbreviation CC := (prog console_eff).

(** A call of the directory. *)
Definition dir {A} (p : DD A) : CC A := lift (@CDir) p.
Definition cnow : CC Z := dir now.

(** A step that may end the request with its answer. *)
Definition or_reply {A} (p : CC (A + Response)) (k : A -> CC Response) : CC Response :=
  bind p (fun r => match r with inl a => k a | inr resp => Ret resp end).
Definition or_end {A B} (p : CC (A + Response)) (k : A -> CC (B + Response)) : CC (B + Response) :=
  bind p (fun r => match r with inl a => k a | inr resp => Ret (inr resp) end).

Notation "'let!>' x ':=' p 'in' k" := (or_reply p (fun x => k))
  (at level 10, x pattern, p at level 100, k at level 200) : klo_scope.
Notation "'let!>?' x ':=' p 'in' k" := (or_end p (fun x => k))
  (at level 10, x pattern, p at level 100, k at level 200) : klo_scope.

(** [IntoResponse] of a failure that is the caller's to fix, or ours. *)
Definition is_invalid (e : error) : bool := match e with EInvalid _ => true | _ => false end.
Definition text_of (e : error) : string :=
  match e with EMsg m | EInvalid m | EPanic m | EStore m => m | EFenced => "fenced" | EUnowned => "no owner" end.

Section console.
Context `{Casing}.
Variable dollar : nat -> nat -> nat.
(** Hex SHA-256. *)
Variable sha256_hex : string -> string.
Variable api : Api.

(** ** Tokens, [jwt.rs] *)
Definition TTL_SECS : Z := 12 * 60 * 60.
Definition CLI_TTL_SECS : Z := 30 * 24 * 60 * 60.

Definition clock_secs : CC (result Z) :=
  let! t := cnow in Ret (if t <? 0 then Err (EMsg "clock before epoch") else Ok (t / 1000)).

Definition mint_admin (email name : string) (username : option string) (admin : bool) : CC (result string) :=
  let!? t := clock_secs in
  trigger (CEncode (mkClaims (lower_trim email) name username "session" admin None t (t + TTL_SECS))).

Definition mint_cli (email name : string) (username : option string) : CC (result (string * (string * Z))) :=
  let!? t := clock_secs in
  let! j := trigger (CRandom 16) in
  let!? tok := trigger (CEncode (mkClaims (lower_trim email) name username "cli" false (Some j) t (t + CLI_TTL_SECS))) in
  Ret (Ok (tok, (j, t + CLI_TTL_SECS))).

Definition verify (token : string) : CC (result Claims) :=
  let! c := trigger (CDecode token) in
  Ret (match c with
       | None => Err (EMsg "invalid token")
       | Some c => if String.eqb (typ c) "session" then Ok c else Err (EMsg "invalid token: not a session")
       end).

Definition verify_any_user (token : string) : CC (result (Claims * option string)) :=
  let! s := verify token in
  match s with
  | Ok c => Ret (Ok (c, None))
  | Err _ =>
    let! c := trigger (CDecode token) in
    Ret (match c with
         | None => Err (EMsg "invalid token")
         | Some c =>
           if negb (String.eqb (typ c) "cli") then Err (EMsg "invalid token: not a cli")
           else match jti c with
                | Some j => Ok (mkClaims (sub c) (c_name c) (c_username c) (typ c) false None (iat c) (exp c), Some j)
                | None => Err (EMsg "invalid token: missing field")
                end
         end)
  end.

(** ** Who asks, [lib.rs] *)
Record Identity := mkIdentity { email : string; name : option string; id_username : option string }.

(** Compared byte by byte in constant time; equality is all it decides. *)
Definition secret_eq (presented expected : string) : bool :=
  if String.eqb presented "" || String.eqb expected "" then false else String.eqb presented expected.

Definition peer_only (h : Headers) : string + Response :=
  if negb (secret_eq (peer h) (secret api)) then inr (Reply 401 "peer secret required")
  else match owner_header h with
       | Some u => if String.eqb (trim u) "" then inr (Reply 400 "caller identity required") else inl (lower_trim u)
       | None => inr (Reply 400 "caller identity required")
       end.

Definition identify (h : Headers) : CC (Identity + Response) :=
  match bearer_token h with
  | Some bearer =>
    if negb (jwt api) then Ret (inr (Reply 503 "tokens not configured"))
    else
      let! v := verify (trim bearer) in
      Ret (match v with
           | Ok c => inl (mkIdentity (sub c) (Some (c_name c)) (c_username c))
           | Err _ => inr (Reply 401 "invalid or expired token")
           end)
  | None =>
    Ret (match peer_only h with inl e => inl (mkIdentity e None None) | inr r => inr r end)
  end.

Definition directory : unit + Response :=
  if has_directory api then inl () else inr (Reply 503 "teams database not configured").

Definition user_identity (h : Headers) : CC (Identity + Response) :=
  match bearer_token h with
  | None => identify h
  | Some bearer =>
    if negb (jwt api) then Ret (inr (Reply 503 "tokens not configured"))
    else
      let! v := verify_any_user (trim bearer) in
      match v with
      | Err _ => Ret (inr (Reply 401 "invalid or expired token"))
      | Ok (c, j) =>
        let who := mkIdentity (sub c) (Some (c_name c)) (c_username c) in
        match j with
        | None => Ret (inl who)
        | Some j =>
          match directory with
          | inr r => Ret (inr r)
          | inl _ =>
            let! row := dir (credential j) in
            Ret (match row with
                 | Ok (Some row) => if of_kind CliToken row then inl who
                                    else inr (Reply 401 "this CLI login was revoked")
                 | Ok None => inr (Reply 401 "this CLI login was revoked")
                 | Err _ => inr (Reply 502 "could not check the login")
                 end)
          end
        end
      end
  end.

Definition caller (h : Headers) : CC (string + Response) :=
  let!>? i := identify h in Ret (inl (email i)).

(** [caller], then [directory]. *)
Definition caller_db (h : Headers) : CC (string + Response) :=
  let!>? u := caller h in Ret (match directory with inl _ => inl u | inr r => inr r end).

(** [peer_only], then [directory]. *)
Definition peer_db (h : Headers) : CC (string + Response) :=
  Ret (match peer_only h with inr r => inr r | inl u => match directory with inl _ => inl u | inr r => inr r end end).

Definition db_err (what : string) : Response := Reply 502 ("could not " +:+ what).

(** [may_act_under], [repos.rs]. *)
Definition may_act_under (user owner : string) : CC (result bool) :=
  let!? u := dir (Directory.user user) in
  if is_some_and u (fun u => bool_decide (username u = Some owner)) then Ret (Ok true)
  else
    let!? t := dir (get owner) in
    Ret (Ok (is_some_and t (fun t => any (fun m => named_ci user m && is_active m) (members t)))).

(** ** Roles *)
Definition rank (r : Role) : Z := match r with Owner => 2 | Admin => 1 | Member_ => 0 end.

Definition may_grant (by_ role : Role) : bool :=
  match role with
  | Member_ | Admin => rank Admin <=? rank by_
  | Owner => bool_decide (by_ = Owner)
  end.

(** The team and the caller's role in it, or the answer that ends the request. *)
Definition team_for (h : Headers) (s : string) (min : option Role) : CC ((string * Team * Role) + Response) :=
  let!>? user := caller_db h in
  let! r := dir (get s) in
  match r with
  | Err _ => Ret (inr (Reply 502 "could not read team"))
  | Ok None => Ret (inr (Reply 404 "no such team"))
  | Ok (Some team) =>
    match active_role_of team user with
    | None =>
      Ret (inr (if is_some (role_of team user) then Reply 403 "your access to this team is paused"
                else Reply 404 "no such team"))
    | Some role =>
      if is_some_and min (fun min => rank role <? rank min)
      then Ret (inr (Reply 403 "your role does not allow that"))
      else Ret (inl (user, team, role))
    end
  end.

(** ** Teams *)
Definition create_team (h : Headers) (slug name region : string) : CC Response :=
  let!> user := caller_db h in
  let region := trim region in
  if String.eqb region "" then Ret (Reply 422 "region required")
  else if negb (region_check api) then Ret (Reply 503 "regions unavailable")
  else
    let! known := trigger (CRegionCheck region) in
    match known with
    | Err _ => Ret (Reply 502 "could not read regions")
    | Ok false => Ret (Reply 422 ("unknown region: " +:+ region))
    | Ok true =>
      let! made := dir (create (trim slug) name user region) in
      Ret (match made with
           | Ok (Some team) => TeamMade team
           | Ok None => Reply 409 "handle already taken"
           | Err e => if is_invalid e then Reply 400 (text_of e) else Reply 502 "could not create team"
           end)
    end.

Definition list_teams (h : Headers) : CC Response :=
  let!> user := caller_db h in
  let! r := dir (for_user user) in
  Ret (match r with
       | Err _ => Reply 502 "could not list teams"
       | Ok teams => TeamList (map (fun t => (t, unwrap_or (m_state <$> List.find (named_ci user) (members t)) Active)) teams)
       end).

Definition member_doc (users : list User) (m : Member) : MemberDoc :=
  let u := List.find (fun u => eq_ignore_ascii_case (u_email u) (m_user m)) users in
  mkMemberDoc (m_user m) (unwrap_or (u_name <$> u) (m_user m)) (u ≫= username) (m_role m) (joined_at m) (m_state m).

Definition invite_doc (i : Invite) : InviteDoc :=
  mkInviteDoc (i_id i) (i_email i) (i_role i) (invited_by i) (i_expires_at i).

Definition get_team (h : Headers) (s : string) : CC Response :=
  let!> (_, _, role) := team_for h s None in
  let! r := dir (describe s) in
  match r with
  | Err _ => Ret (db_err "read team")
  | Ok None => Ret (Reply 404 "no such team")
  | Ok (Some (team, users)) =>
    let! invites := if rank Admin <=? rank role then dir (invites_for s) else Ret (Ok []) in
    Ret (match invites with
         | Err _ => db_err "read invitations"
         | Ok l => TeamPage (mkTeamDoc team role (map (member_doc users) (members team)) (map invite_doc l))
         end)
  end.

(** What a stranger may see. *)
Definition public_face (repos : list RepoOut) (pins : list string) : list RepoOut * list string :=
  let repos := List.filter r_public repos in
  (repos, List.filter (fun p => any (fun r => String.eqb (r_name r) p) repos) pins).

Definition team_profile (s : string) : CC Response :=
  match directory with
  | inr r => Ret r
  | inl _ =>
    let! r := dir (get s) in
    match r with
    | Err _ => Ret (db_err "read team")
    | Ok None => Ret (Reply 404 "no such team")
    | Ok (Some team) =>
      if negb (public team) then Ret (Reply 404 "no such team")
      else
        let! repos := trigger (CRepoListing s false) in
        match repos with
        | Err _ => Ret (Reply 502 "could not read the team")
        | Ok repos =>
          let '(repos, pins) := public_face repos (pins team) in
          let repos := map (fun r => mkPublicRepo (r_name r) (r_description r) (r_public r) (r_created_at r)) repos in
          Ret (ProfilePage (mkProfileDoc (slug team) (t_name team) (description team) (tagline team) (location team)
                                         (website team) (t_email team) (length (members team)) pins repos))
        end
    end
  end.

(** [char::is_control]: C0, DEL and C1 (in UTF-8, [C2 80] to [C2 9F]). *)
Fixpoint contains_control (s : string) : bool :=
  match s with
  | EmptyString => false
  | String c r =>
    (byte_z c <? 0x20) || (byte_z c =? 0x7F) || contains_control r ||
    match r with String d _ => (byte_z c =? 0xC2) && in_range 0x80 0x9F d | EmptyString => false end
  end.

Definition check_website (w : string) : unit + string :=
  if String.eqb w "" then inl ()
  else if 2048 <? str_len w then inr "website is too long"
  else
    match (match strip_prefix "https://" w with Some r => Some r | None => strip_prefix "http://" w end) with
    | None => inr "website must start with http:// or https://"
    | Some rest =>
      if String.eqb rest "" || contains_ws w || contains_control w
      then inr "website must be a valid http:// or https:// URL" else inl ()
    end.

(** The checks of a profile, all before any write. *)
Definition checked_profile (s : string) (profile : option TeamProfile) : CC (option (list string) + Response) :=
  match profile with
  | None => Ret (inl None)
  | Some p =>
    let! repos := trigger (CRepoListing s true) in
    Ret (match repos with
         | Err _ => inr (Reply 502 "could not read the team")
         | Ok repos =>
           match check_pins (p_pins p) (map r_name repos) with
           | Err e => inr (Reply 400 (text_of e))
           | Ok pins => match check_website (p_website p) with inr msg => inr (Reply 400 msg) | inl _ => inl (Some pins) end
           end
         end)
  end.

Definition update_team (h : Headers) (s name description : string) (profile : option TeamProfile) : CC Response :=
  let!> (_, _, role) := team_for h s None in
  if is_some profile && (rank role <? rank Admin) then Ret (Reply 403 "owner or admin only")
  else
    let!> checked := checked_profile s profile in
    let! r := dir (Directory.update_team s name description) in
    match r with
    | Err e => Ret (if is_invalid e then Reply 400 (text_of e) else db_err "update team")
    | Ok false => Ret (Reply 404 "no such team")
    | Ok true =>
      match profile, checked with
      | Some p, Some pins =>
        let! r := dir (update_profile s (mkTeamProfile (p_public p) (p_tagline p) (p_location p) (p_website p) (p_email p) pins)) in
        Ret (match r with Ok true => Status 204 | Ok false => Reply 404 "no such team" | Err _ => db_err "update team" end)
      | _, _ => Ret (Status 204)
      end
    end.

Definition delete_team (h : Headers) (s : string) : CC Response :=
  let!> (_, _, _) := team_for h s (Some Owner) in
  let! r := dir (Directory.delete_team s) in
  Ret (match r with
       | Ok Deleted => Status 204
       | Ok (StillOwns n) =>
         Reply 409 (s +:+ " still owns " +:+ display n +:+ (if n =? 1 then " repository" else " repositories") +:+
                    "; delete or move them first")
       | Ok NoSuchTeam_ => Reply 404 "no such team"
       | Err _ => db_err "delete team"
       end).

(** ** Invitations *)
Definition INVITE_TTL_DAYS : Z := 7.

Definition invite_id (token : string) : string := sha256_hex token.

Definition create_invite (h : Headers) (s email : string) (role : Role) : CC Response :=
  let!> (user, team, by_role) := team_for h s (Some Admin) in
  if negb (may_grant by_role role) then Ret (Reply 403 "only an owner can invite an owner")
  else
    let email := lower_trim email in
    if negb (contains_char "@" email) then Ret (Reply 400 "a valid email is required")
    else if is_some (role_of team email) then Ret (Reply 409 "already a member")
    else
      let! token := trigger (CRandom 32) in
      let! t := cnow in
      let i := mkInvite (invite_id token) s email role user t (t + INVITE_TTL_DAYS * 86400000) in
      let! r := dir (Directory.create_invite i) in
      Ret (match r with
           | Ok _ => InviteIssued (i_id i) token email role (t_name team)
           | Err _ => db_err "create invitation"
           end).

Definition revoke_invite (h : Headers) (s id : string) : CC Response :=
  let!> (_, _, _) := team_for h s (Some Admin) in
  let! r := dir (Directory.revoke_invite s id) in
  Ret (match r with Ok true => Status 204 | Ok false => Reply 404 "no such invitation" | Err _ => db_err "revoke invitation" end).

Definition preview_invite (h : Headers) (token : string) : CC Response :=
  let! who := caller h in
  match who with
  | inr _ => Ret (Reply 401 "unauthorized")
  | inl _ =>
    match directory with
    | inr r => Ret r
    | inl _ =>
      let! i := dir (invite (invite_id token)) in
      match i with
      | Err _ => Ret (db_err "read invitation")
      | Ok None => Ret (Reply 404 "no such invitation")
      | Ok (Some i) =>
        let! t := dir (get (i_team i)) in
        Ret (match t with
             | Err _ => db_err "read invitation"
             | Ok None => Reply 404 "no such invitation"
             | Ok (Some t) => InvitePreview (i_team i) (t_name t) (i_email i) (i_role i) (invited_by i)
             end)
      end
    end
  end.

(** [spawn_keys_changed], [credentials.rs]: off the request's path. *)
Definition spawn_keys_changed (email : string) : CC unit :=
  if on_keys_changed api then trigger (CKeysChanged email) else Ret ().

Definition reconcile_member (email s : string) : CC unit :=
  if negb (on_member_state api) then Ret ()
  else
    let! u := dir (Directory.user email) in
    match u with
    | Ok (Some u) => match username u with Some handle => trigger (CMemberState handle s) | None => Ret () end
    | _ => Ret ()
    end.

Definition accept_invite (h : Headers) (token : string) : CC Response :=
  let!> user := caller_db h in
  let! r := dir (Directory.accept_invite (invite_id token) user) in
  match r with
  | Ok (Joined team) =>
    let! _ := spawn_keys_changed user in
    let! _ := reconcile_member user team in
    Ret (JoinedTeam team)
  | Ok WrongEmail => Ret (Reply 403 "this invitation was sent to a different email address")
  | Ok NoUser => Ret (Reply 409 "sign in first")
  | Ok Gone => Ret (Reply 404 "no such invitation")
  | Err _ => Ret (db_err "accept invitation")
  end.

(** ** Members *)
Definition set_role (h : Headers) (s email : string) (new_role : Role) : CC Response :=
  let!> (_, team, role) := team_for h s (Some Admin) in
  let target := role_of team email in
  if negb (may_grant role new_role && is_none_or target (may_grant role))
  then Ret (Reply 403 "your role does not allow that change")
  else
    let! r := dir (Directory.set_role dollar s email new_role) in
    Ret (match r with
         | Ok Done => Status 204
         | Ok NotAMember => Reply 404 "not a member"
         | Ok LastOwner => Reply 409 "a team must keep at least one owner"
         | Ok NoTeam => Reply 404 "no such team"
         | Err _ => db_err "change role"
         end).

Definition remove_member (h : Headers) (s email : string) : CC Response :=
  let!> (user, team, role) := team_for h s None in
  let leaving := eq_ignore_ascii_case user email in
  let target := role_of team email in
  if negb leaving && negb (is_some_and target (may_grant role)) then Ret (Reply 403 "your role does not allow that")
  else
    let! r := dir (Directory.remove_member s email) in
    match r with
    | Ok Done =>
      let! _ := trigger (CForget email s) in
      let! _ := spawn_keys_changed email in
      Ret (Status 204)
    | Ok NotAMember => Ret (Reply 404 "not a member")
    | Ok LastOwner =>
      Ret (Reply 409 (if leaving then "transfer ownership before leaving" else "a team must keep at least one owner"))
    | Ok NoTeam => Ret (Reply 404 "no such team")
    | Err _ => Ret (db_err "remove member")
    end.

Definition write_audit (actor action target reason outcome : string) : CC (unit + Response) :=
  let! r := trigger (CAudit actor action target reason outcome) in
  Ret (match r with Ok _ => inl () | Err _ => inr (Reply 502 "could not record the audit entry") end).

(** [set_state], [teams/pause.rs]. *)
Definition set_state (h : Headers) (s email : string) (state : MemberState) : CC Response :=
  let!> user := caller_db h in
  let! r := dir (get s) in
  match r with
  | Err _ => Ret (db_err "read team")
  | Ok None => Ret (Reply 404 "no such team")
  | Ok (Some team) =>
    let! a := dir (is_superadmin user) in
    match a with
    | Err _ => Ret (db_err "check admin")
    | Ok admin =>
      if negb admin && is_none (role_of team user) then Ret (Reply 404 "no such team")
      else if eq_ignore_ascii_case user (trim email)
      then Ret (Reply 403 ("you cannot " +:+ (match state with Paused => "pause" | Active => "unpause" end) +:+ " yourself"))
      else
        let me := match List.find (named_ci user) (members team) with
                  | Some m => if is_active m then Some m else None
                  | None => None
                  end in
        let reach := is_some_and me (fun me => is_some_and (role_of team email) (may_grant (m_role me))) in
        if negb admin && negb reach then Ret (Reply 403 "your role does not allow that")
        else if any (fun m => named_ci (trim email) m && bool_decide (m_state m = state)) (members team)
        then Ret (Status 204)
        else
          let action := match state with Paused => "pause-member" | Active => "unpause-member" end in
          let! r := dir (set_member_state s email state user) in
          match r with
          | Ok Done =>
            let email := lower_trim email in
            let! _ := trigger (CForget email s) in
            let! _ := spawn_keys_changed email in
            let! _ := reconcile_member email s in
            let!> _ := write_audit user action (s +:+ "/" +:+ email) "" "ok" in
            Ret (Status 204)
          | Ok NotAMember => Ret (Reply 404 "not a member")
          | Ok LastOwner => Ret (Reply 409 "a team must keep at least one active owner")
          | Ok NoTeam => Ret (Reply 404 "no such team")
          | Err _ => Ret (db_err "change member state")
          end
    end
  end.

Definition pause_member (h : Headers) (s email : string) : CC Response := set_state h s email Paused.
Definition unpause_member (h : Headers) (s email : string) : CC Response := set_state h s email Active.

(** ** Signing in *)
Definition place_new_user (u : User) : CC User :=
  if negb (active_regions api) then Ret u
  else if negb (String.eqb (u_region u) "") || negb (u_created_at u =? last_seen_at u) then Ret u
  else
    let! l := trigger CActiveRegions in
    match l with
    | Ok [region] =>
      let! r := dir (bind_user_region (u_email u) region) in
      Ret (match r with Ok (Some r) => set_user_region r u | _ => u end)
    | _ => Ret u
    end.

(** The token of a sign-in, with the administrator's claim read now. *)
Definition sign_in (u : User) : CC Response :=
  let! admin := dir (is_superadmin (u_email u)) in
  match admin with
  | Err _ => Ret (Reply 502 "could not read the directory")
  | Ok admin =>
    if negb (jwt api) then Ret (SignedIn u None TTL_SECS)
    else
      let! t := mint_admin (u_email u) (u_name u) (username u) admin in
      Ret (match t with Ok t => SignedIn u (Some t) TTL_SECS | Err _ => Reply 502 "could not issue a token" end)
  end.

Definition upsert_user (h : Headers) (email name : string) : CC Response :=
  match peer_only h with
  | inr r => Ret r
  | inl asserted =>
    if negb (String.eqb (to_lowercase asserted) (lower_trim email))
    then Ret (Reply 400 "caller identity does not match the body")
    else match directory with
    | inr r => Ret r
    | inl _ =>
      let! u := dir (Directory.upsert_user email name) in
      match u with
      | Ok u => let! u := place_new_user u in sign_in u
      | Err e => Ret (if is_invalid e then Reply 400 (text_of e) else Reply 502 "could not record user")
      end
    end
  end.

Definition claim_username (h : Headers) (name : string) : CC Response :=
  let!> user := caller_db h in
  let! u := dir (Directory.claim_username user name) in
  match u with
  | Ok (Some u) => sign_in u
  | Ok None => Ret (Reply 409 "that handle is taken")
  | Err e => Ret (if is_invalid e then Reply 400 (text_of e) else Reply 502 "could not claim that handle")
  end.

Definition SIGNIN_TTL_MINUTES : Z := 15.

Definition create_signin_link (h : Headers) (email : string) : CC Response :=
  let!> _ := peer_db h in
  let email := lower_trim email in
  if negb (contains_char "@" email) || contains_ws email then Ret (Reply 400 "a valid email is required")
  else
    let! token := trigger (CRandom 32) in
    let! t := cnow in
    let! r := dir (create_signin (mkSignInLink (invite_id token) email t (t + SIGNIN_TTL_MINUTES * 60000))) in
    Ret (match r with Ok _ => SignInIssued token email | Err _ => db_err "create sign-in link" end).

Definition redeem_signin_link (h : Headers) (token : string) : CC Response :=
  let!> _ := peer_db h in
  let! r := dir (redeem_signin (invite_id token)) in
  Ret (match r with
       | Ok (Some email) => Email email
       | Ok None => Reply 404 "that link is no longer valid"
       | Err _ => db_err "redeem sign-in link"
       end).

(** ** Administrators *)
Definition require_superadmin (h : Headers) : CC (string + Response) :=
  let!>? who := caller_db h in
  let! r := dir (is_superadmin who) in
  Ret (match r with
       | Ok true => inl who
       | Ok false => inr (Reply 403 "admin only")
       | Err _ => inr (db_err "check admin")
       end).

Definition is_same_user (a b : string) : bool := eq_ignore_ascii_case (trim a) (trim b).

Definition is_last_superadmin (admins : list SuperAdmin) (target : string) : bool :=
  match admins with [only] => is_same_user (sa_user only) target | _ => false end.

Definition require_note (note : string) : string + Response :=
  if String.eqb (trim note) "" then inr (Reply 422 "note is required") else inl (trim note).

Definition add_superadmin (h : Headers) (user note : string) : CC Response :=
  let!> by_ := require_superadmin h in
  let!> note := Ret (require_note note) in
  let! account := dir (Directory.user user) in
  match account with
  | Err _ => Ret (db_err "check account")
  | Ok None => Ret (Reply 422 "that email has no account")
  | Ok (Some _) =>
    let!> _ := write_audit by_ "add-superadmin" user note "ok" in
    let! r := dir (Directory.add_superadmin user by_) in
    Ret (match r with Ok _ => Status 204 | Err _ => db_err "grant admin" end)
  end.

Definition remove_superadmin (h : Headers) (user note : string) : CC Response :=
  let!> by_ := require_superadmin h in
  let!> note := Ret (require_note note) in
  if is_same_user by_ user then Ret (Reply 409 "you cannot remove your own administrator claim")
  else
    let! admins := dir superadmins in
    match admins with
    | Err _ => Ret (db_err "list admins")
    | Ok admins =>
      if is_last_superadmin admins user then Ret (Reply 409 "the last administrator cannot be removed")
      else
        let!> _ := write_audit by_ "remove-superadmin" user note "ok" in
        let! r := dir (Directory.remove_superadmin user) in
        Ret (match r with
             | Ok true => Status 204
             | Ok false => Reply 409 "the last administrator cannot be removed"
             | Err _ => db_err "revoke admin"
             end)
    end.

Definition list_superadmins (h : Headers) : CC Response :=
  let!> _ := require_superadmin h in
  let! r := dir superadmins in
  Ret (match r with Ok rows => AdminList rows | Err _ => db_err "list admins" end).
End console.
