(* ===== verification/Credentials.v ===== *)
(** * Credentials: tokens, keys, CLI logins and passkeys over HTTP

    [crates/api/src/credentials.rs] and [passkeys.rs] but for the platform's own key pairs.  Parsing
    a key is the libraries'; its answer is a parameter. *)

From Stdlib Require Import Sorting.Sorted.
From S2P Require Import Prelude Text Names Prog People Mongo Directory Console.
Local Open Scope string_scope.
Local Open Scope Z_scope.

(** The words of a line between whitespace; [cur] is the word at hand, last character first. *)
Fixpoint words_from (s cur : string) : list string :=
  let flush := if String.eqb cur "" then [] else [string_rev cur] in
  match s with
  | EmptyString => flush
  | String c r =>
    if ws1 c then (flush ++ words_from r "")%list
    else
      let plain := words_from r (String c cur) in
      match r with
      | EmptyString => plain
      | String d r2 =>
        if ws2 c d then (flush ++ words_from r2 "")%list
        else match r2 with
             | EmptyString => plain
             | String e r3 => if ws3 c d e then (flush ++ words_from r3 "")%list else plain
             end
      end
  end.

(** [str::split_whitespace]. *)
Definition split_whitespace (s : string) : list string := words_from s "".

Definition join (sep : string) (l : list string) : string :=
  match l with [] => "" | x :: r => foldl (fun acc y => acc +:+ sep +:+ y) x r end.

(** [sort_unstable] and [dedup] on lines, byte by byte. *)
Fixpoint str_leb (a b : string) : bool :=
  match a, b with
  | EmptyString, _ => true
  | String _ _, EmptyString => false
  | String c a, String d b => if byte_z c =? byte_z d then str_leb a b else byte_z c <? byte_z d
  end.

Fixpoint insert_line (x : string) (l : list string) : list string :=
  match l with
  | [] => [x]
  | y :: r => if str_leb x y then x :: l else y :: insert_line x r
  end.

Definition sort_lines (l : list string) : list string := foldr insert_line [] l.

Fixpoint dedup (l : list string) : list string :=
  match l with
  | x :: (y :: _) as r => if String.eqb x y then dedup r else x :: dedup r
  | l => l
  end.

Definition newline : string := String nl "".

(** Every line ended. *)
Definition unlines (l : list string) : string := foldr (fun x acc => x +:+ newline +:+ acc) "" l.

(** [key_material], [authorized_keys_union], [render_authorized_keys]. *)
Definition key_material (key : string) (is_gpg : bool) : string :=
  if is_gpg then key else join " " (take 3 (split_whitespace key)).

Definition authorized_keys_union (sets : list (list Credential)) : string :=
  unlines (dedup (sort_lines (List.filter (fun m => negb (String.eqb m ""))
    (map (fun c => trim (material c)) (concat sets))))).

Definition render_authorized_keys (union : string) (platform_keys : list string) : string :=
  unlines (dedup (sort_lines (lines union ++ List.filter (fun k => negb (String.eqb k "")) (map trim platform_keys))))%list.

Section credentials.
Context `{Casing}.
Variable sha256_hex : string -> string.
Variable api : Api.
(** [ssh_fingerprint], the OpenPGP reading of [add_key] (fingerprints, and the first verified
    address), [public_of_private] and [Store::token_digest]. *)
Variable ssh_fingerprint : string -> result string.
Variable gpg_key : string -> option (list string * option string).
Variable public_of_private : string -> option string.
Variable token_digest : string -> string.

Definition public_of (private : option string) : option string :=
  match private with Some k => public_of_private k | None => None end.

(** ** Whose credentials *)
Definition credential_caller_as (user owner : string) : CC (string + Response) :=
  match directory api with
  | inr r => Ret (inr r)
  | inl _ =>
    let! r := may_act_under user owner in
    Ret (match r with
         | Ok true => inl user
         | Ok false => inr (Reply 404 "no such owner")
         | Err _ => inr (Reply 502 "could not read credentials")
         end)
  end.

Definition credential_caller (h : Headers) (owner : string) : CC (string + Response) :=
  let!>? i := user_identity api h in credential_caller_as (email i) owner.

Definition owner_param (q_owner : option string) : string + Response :=
  match q_owner with
  | Some s => if String.eqb (trim s) "" then inr (Reply 400 "owner is required") else inl (trim s)
  | None => inr (Reply 400 "owner is required")
  end.

(** [user_identity], then [directory]. *)
Definition user_db (h : Headers) : CC (Identity + Response) :=
  let!>? i := user_identity api h in Ret (match directory api with inl _ => inl i | inr r => inr r end).

(** ** Tokens *)
Definition create_token (h : Headers) (owner name : string) : CC Response :=
  let owner := trim owner in
  let!> user := credential_caller h owner in
  let name := trim name in
  if String.eqb name "" then Ret (Reply 400 "give the token a name")
  else if 60 <? chars_count name then Ret (Reply 400 "that name is too long")
  else
    let! made := trigger (CCreateToken owner) in
    match made with
    | Err _ => Ret (Reply 502 "could not create the token")
    | Ok token =>
      let! t := cnow in
      let meta := mkCredential (token_digest token) Token owner user name "" [] t in
      let! r := dir (add_credential meta) in
      match r with
      | Ok (Some _) => Ret (TokenIssued token meta)
      | _ =>
        let! _ := trigger (CRevokeDigest (cr_id meta)) in
        Ret (Reply 502 "could not create the token")
      end
    end.

Definition list_tokens (h : Headers) (q_owner : option string) : CC Response :=
  let!> owner := Ret (owner_param q_owner) in
  let!> _ := credential_caller h owner in
  let! r := dir (credentials_for owner Token) in
  Ret (match r with Ok l => CredentialList l | Err _ => Reply 502 "could not list tokens" end).

(** ** Revoking *)
Definition revoke (h : Headers) (id : string) (kind : CredentialKind) : CC Response :=
  let!> who := user_db h in
  let user := email who in
  let! found := dir (credential id) in
  match found with
  | Err _ => Ret (Reply 502 "could not revoke")
  | Ok None => Ret (Reply 404 "no such credential")
  | Ok (Some found) =>
    if negb (of_kind kind found) then Ret (Reply 404 "no such credential")
    else
      let! authorized := match kind with
        | SshKey | SigningKey => Ret (Ok (eq_ignore_ascii_case (cr_owner found) user))
        | _ => may_act_under user (cr_owner found)
        end in
      match authorized with
      | Err _ => Ret (Reply 502 "could not revoke")
      | Ok false => Ret (Reply 404 "no such credential")
      | Ok true =>
        let! gone := match kind with
          | Token => trigger (CRevokeDigest id)
          | SshKey => trigger (CRemoveSshKey id)
          | _ => Ret (Ok ())
          end in
        match gone with
        | Err _ => Ret (Reply 502 "could not revoke")
        | Ok _ =>
          let! _ := dir (forget_credential id) in
          let! _ := if bool_decide (kind = SshKey) then spawn_keys_changed api (cr_owner found) else Ret () in
          Ret (Status 204)
        end
      end
  end.

Definition revoke_token (h : Headers) (id : string) : CC Response := revoke h id Token.
Definition revoke_cli_token (h : Headers) (id : string) : CC Response := revoke h id CliToken.
Definition remove_key (h : Headers) (id : string) : CC Response :=
  revoke h id (if starts_with "sign:" id then SigningKey else SshKey).

(** ** Keys *)
Definition ssh_signing_fingerprints (key_line : string) : result (string * list string) :=
  let? f := ssh_fingerprint key_line in Ok (f, [to_lowercase f]).

(** What a key parses to: its own fingerprint, all it answers to, an address found in it. *)
Definition parse_key (key : string) (is_gpg : bool) : (string * list string * option string) + Response :=
  if is_gpg
  then match gpg_key key with
       | Some (f :: fps, email) => inl (f, f :: fps, email)
       | _ => inr (Reply 400 "that is not an OpenPGP public key")
       end
  else match ssh_signing_fingerprints key with
       | Ok (f, fps) => inl (f, fps, None)
       | Err e => inr (Reply 400 (text_of e))
       end.

Definition add_key (h : Headers) (owner name key : string) (signing : bool) : CC Response :=
  let!> who := user_identity api h in
  let user := email who in
  if negb (String.eqb (trim owner) "") then Ret (Reply 400 "keys belong to you, not to a namespace")
  else match directory api with
  | inr r => Ret r
  | inl _ =>
    let is_gpg := contains_str "BEGIN PGP PUBLIC KEY BLOCK" key in
    if is_gpg && negb signing then Ret (Reply 400 "a GPG key can only be added as a signing key")
    else
      let!> (fingerprint, fps, gpg_email) := Ret (parse_key key is_gpg) in
      let name := if negb (String.eqb (trim name) "") then trim name
                  else if is_gpg then unwrap_or gpg_email "GPG key"
                  else unwrap_or (nth_error (split_whitespace key) 2) "ssh key" in
      let! t := cnow in
      let meta := mkCredential (if signing then "sign:" +:+ fingerprint else fingerprint)
                    (if signing then SigningKey else SshKey) user user name (key_material key is_gpg) fps t in
      let! r := dir (add_credential meta) in
      match r with
      | Ok None => Ret (Reply 409 "that key is already added")
      | Err _ => Ret (Reply 502 "could not add the key")
      | Ok (Some _) =>
        if negb signing && negb is_gpg then
          let! r := trigger (CAddSshKey user fingerprint) in
          match r with
          | Err _ => let! _ := dir (forget_credential (cr_id meta)) in Ret (Reply 502 "could not add the key")
          | Ok _ => let! _ := spawn_keys_changed api user in Ret (CredentialMade meta)
          end
        else Ret (CredentialMade meta)
      end
  end.

Definition list_keys (h : Headers) (q_kind : option string) : CC Response :=
  let!> who := user_db h in
  let kind := match q_kind with Some "signing" => SigningKey | _ => SshKey end in
  let! r := dir (credentials_for (email who) kind) in
  Ret (match r with Ok l => CredentialList l | Err _ => Reply 502 "could not list keys" end).

Definition handle_of (u : option User) : option string := match u with Some u => username u | None => None end.

(** The keys of a team's active members, and their platform keys. *)
Fixpoint members_keys (ms : list Member) (sets : list (list Credential)) (platform : list string)
    : CC (result (list (list Credential) * list string)) :=
  match ms with
  | [] => Ret (Ok (sets, platform))
  | m :: rest =>
    if negb (is_active m) then members_keys rest sets platform
    else
      let!? keys := dir (credentials_for (m_user m) SshKey) in
      let!? u := dir (Directory.user (m_user m)) in
      match handle_of u with
      | None => members_keys rest (sets ++ [keys])%list platform
      | Some handle =>
        let!? private := trigger (CUserKey handle) in
        members_keys rest (sets ++ [keys])%list
          (match public_of private with Some public => platform ++ [public] | None => platform end)%list
      end
  end.

Definition authorized_keys_for (owner : string) : CC (result string) :=
  let!? u := dir (user_by_handle owner) in
  match u with
  | Some u =>
    let!? keys := dir (credentials_for (u_email u) SshKey) in
    let!? private := trigger (CUserKey owner) in
    Ret (Ok (render_authorized_keys (authorized_keys_union [keys])
               (match public_of private with Some public => [public] | None => [] end)))
  | None =>
    let!? team := dir (get owner) in
    match team with
    | None => Ret (Ok (render_authorized_keys "" []))
    | Some team =>
      let!? (sets, platform) := members_keys (members team) [] [] in
      Ret (Ok (render_authorized_keys (authorized_keys_union sets) platform))
    end
  end.

Definition git_identity_for (owner : string) : CC (result (string * string)) :=
  let!? u := dir (user_by_handle owner) in
  Ret (Ok (match u with Some u => (u_name u, u_email u) | None => ("", "") end)).

(** ** The CLI's device login *)
Definition CLI_CODE_TTL_MS : Z := 600 * 1000.

Definition CODE_ALPHABET : string := "BCDFGHJKLMNPQRSTVWXYZ23456789".

Fixpoint draw_code (n : nat) : CC string :=
  match n with
  | 0%nat => Ret ""
  | S n =>
    let! i := trigger (CRange (String.length CODE_ALPHABET)) in
    let! rest := draw_code n in
    Ret (match String.get i CODE_ALPHABET with Some c => String c rest | None => rest end)
  end.

Definition random_code : CC string :=
  let! a := draw_code 4 in let! b := draw_code 4 in Ret (a +:+ "-" +:+ b).

Definition cli_code (device : string) : CC Response :=
  let device := if String.eqb (trim device) "" then "a computer" else take_chars 60 (trim device) in
  let! code := random_code in
  let! poll := trigger (CRandom 16) in
  match directory api with
  | inr r => Ret r
  | inl _ =>
    let! t := cnow in
    let! r := dir (create_cli_login (mkCliLogin code poll device (t + CLI_CODE_TTL_MS) None 0)) in
    Ret (match r with Ok _ => DeviceCode code poll 600 | Err _ => Reply 502 "could not start a login" end)
  end.

Definition cli_approve (h : Headers) (body_code : string) : CC Response :=
  let!> who := identify api h in
  let code := to_uppercase (trim body_code) in
  match id_username who with
  | None => Ret (Reply 400 "pick a handle before signing in from the CLI")
  | Some username =>
    if String.eqb (trim username) "" then Ret (Reply 400 "pick a handle before signing in from the CLI")
    else if negb (jwt api) then Ret (Reply 503 "tokens not configured")
    else match directory api with
    | inr r => Ret r
    | inl _ =>
      let! p := dir (cli_login_pending code) in
      match p with
      | Err _ => Ret (Reply 502 "could not sign you in")
      | Ok None => Ret (Reply 404 "no such code")
      | Ok (Some p) =>
        let! minted := mint_cli (email who) (unwrap_or (name who) "") (Some username) in
        match minted with
        | Err _ => Ret (Reply 502 "could not sign you in")
        | Ok (tok, (j, e)) =>
          let! t := cnow in
          let row := mkCredential j CliToken username (email who) (device p) "" [] t in
          let! r := dir (add_credential row) in
          match r with
          | Ok (Some _) =>
            let! stored := dir (approve_cli_login code tok e) in
            match stored with
            | Ok true => Ret (Status 204)
            | _ =>
              let! _ := dir (forget_credential (cr_id row)) in
              Ret (Reply 409 "that code was already used")
            end
          | _ => Ret (Reply 502 "could not sign you in")
          end
        end
      end
    end
  end.

Definition cli_pending_code (h : Headers) (code : string) : CC Response :=
  let!> _ := identify api h in
  match directory api with
  | inr r => Ret r
  | inl _ =>
    let! p := dir (cli_login_pending (to_uppercase (trim code))) in
    Ret (match p with
         | Ok (Some p) => PendingCode (device p) (cl_expires_at p)
         | Ok None => Reply 404 "no such code"
         | Err _ => Reply 502 "could not look that up"
         end)
  end.

(** [q_poll]: the [poll] of the query, empty when absent. *)
Definition cli_token (q_poll : string) : CC Response :=
  if String.eqb q_poll "" then Ret (Reply 410 "that login expired")
  else match directory api with
  | inr r => Ret r
  | inl _ =>
    let! r := dir (take_cli_login q_poll) in
    Ret (match r with
         | Ok None => Reply 410 "that login expired"
         | Ok (Some l) => match token l with
                          | None => Status 202
                          | Some tok => CliTokenGiven tok (token_exp l * 1000)
                          end
         | Err _ => Reply 502 "could not sign you in"
         end)
  end.

Definition list_cli_tokens (h : Headers) (q_owner : option string) : CC Response :=
  let!> who := user_identity api h in
  let!> owner := Ret (match owner_param q_owner with
    | inl o => inl o
    | inr _ => match id_username who with
               | Some u => if String.eqb (trim u) "" then inr (Reply 400 "owner is required") else inl u
               | None => inr (Reply 400 "owner is required")
               end
    end) in
  let!> _ := credential_caller_as (email who) owner in
  let! r := dir (credentials_for owner CliToken) in
  Ret (match r with
       | Ok l => LoginList (map (fun c => (cr_id c, cr_name c, cr_created_at c, cr_created_at c + CLI_TTL_SECS * 1000)) l)
       | Err _ => Reply 502 "could not list logins"
       end).

Definition jti_digest (j : string) : string := sha256_hex j.

Fixpoint sweep_logins (by_ : string) (found : list Credential) (revoked : list string) : CC (list string + Response) :=
  match found with
  | [] => Ret (inl revoked)
  | c :: rest =>
    let digest := jti_digest (cr_id c) in
    let target := cr_owner c +:+ " jti8=" +:+ substring 0 8 digest in
    let! r := dir (forget_credential (cr_id c)) in
    match r with
    | Err _ =>
      let! _ := write_audit by_ "bench.login.revoked" target "bench login sweep" "failed" in
      Ret (inr (Reply 502 "could not revoke"))
    | Ok _ =>
      let!>? _ := write_audit by_ "bench.login.revoked" target "bench login sweep" "ok" in
      sweep_logins by_ rest (revoked ++ [digest])%list
    end
  end.

Definition revoke_bench_logins (h : Headers) (q_dry_run : option string) : CC Response :=
  let!> by_ := require_superadmin api h in
  let dry_run := match q_dry_run with Some v => negb (String.eqb v "false") | None => true end in
  let! found := dir (cli_tokens_with_device_suffix "(bench)") in
  match found with
  | Err _ => Ret (Reply 502 "could not list logins")
  | Ok found =>
    let!> revoked := if dry_run then Ret (inl []) else sweep_logins by_ found [] in
    Ret (BenchSweep (Z.of_nat (length found)) (Z.of_nat (length revoked)) revoked)
  end.

(** ** Passkeys, [passkeys.rs] *)
Definition add_passkey (h : Headers) (id public_key : string) (counter : Z) (transports : list string) (name : string) : CC Response :=
  let!> user := caller_db api h in
  if String.eqb (trim id) "" || String.eqb (trim public_key) ""
  then Ret (Reply 400 "a credential id and public key are required")
  else
    let name := if String.eqb (trim name) "" then "Passkey" else take_chars 60 (trim name) in
    let! t := cnow in
    let key := mkPasskey (trim id) (to_lowercase user) (trim public_key) counter transports name t in
    let! r := dir (Directory.add_passkey key) in
    Ret (match r with
         | Ok (Some _) => PasskeyMade key
         | Ok None => Reply 409 "that passkey is already registered"
         | Err _ => Reply 502 "could not add the passkey"
         end).

Definition list_passkeys (h : Headers) : CC Response :=
  let!> user := caller_db api h in
  let! r := dir (passkeys_for user) in
  Ret (match r with Ok l => PasskeyList l | Err _ => Reply 502 "could not list passkeys" end).

Definition remove_passkey (h : Headers) (id : string) : CC Response :=
  let!> user := caller_db api h in
  let! p := dir (passkey id) in
  match p with
  | Err _ => Ret (Reply 502 "could not remove the passkey")
  | Ok None => Ret (Reply 404 "no such passkey")
  | Ok (Some p) =>
    if negb (eq_ignore_ascii_case (pk_user p) user) then Ret (Reply 404 "no such passkey")
    else
      let! r := dir (forget_passkey id) in
      Ret (match r with Ok _ => Status 204 | Err _ => Reply 502 "could not remove the passkey" end)
  end.

Definition lookup_passkey (h : Headers) (id : string) : CC Response :=
  let!> _ := peer_db api h in
  let! p := dir (passkey (trim id)) in
  Ret (match p with
       | Ok (Some p) => PasskeyFound p
       | Ok None => Reply 404 "no such passkey"
       | Err _ => Reply 502 "could not look up the passkey"
       end).

Definition passkey_used (h : Headers) (id : string) (counter : Z) : CC Response :=
  let!> _ := peer_db api h in
  let! r := dir (advance_passkey id counter) in
  Ret (match r with Ok _ => Status 204 | Err _ => Reply 502 "could not record the sign-in" end).
End credentials.
