(* ===== verification/DirWorld.v ===== *)
(** * DirWorld: the directory's shared state and its invariant

    The database and the history, newest first, of what was done to it and what was answered.  [Inv]
    ties them: who may give a reserved handle back ([holder]), that names are held once, that nothing
    is removed more often than it was stored, that the roster is empty only while a removal is
    unfinished, and what each answer stands on.  [event_ok] is the one rule every request rests on. *)

From S2P Require Import Prelude Text Names Prog People Mongo Directory Console.
Local Open Scope string_scope.
Local Open Scope Z_scope.

Inductive act := Did (e : event) | Said (a : asked) (r : Response).

Record World := mkWorld { docs : database; hist : list (nat * act) }.

Definition step1 (t : nat) (s : World) (e : event) : World :=
  mkWorld (apply_event (docs s) e) ((t, Did e) :: hist s).
Definition did (t : nat) (es : list event) (s : World) : World := foldl (step1 t) s es.
Definition answered (t : nat) (a : asked) (r : Response) (s : World) : World :=
  mkWorld (docs s) ((t, Said a r) :: hist s).

(** ** Reading the history *)

Fixpoint evs (l : list (nat * act)) : list (nat * event) :=
  match l with
  | [] => []
  | (t, Did e) :: l => (t, e) :: evs l
  | (_, Said _ _) :: l => evs l
  end.

(** Who may give handle [h] back: who reserved it, until a person or a team carries it; who deleted
    the team that did. *)
Definition holder_step (h : string) (te : nat * event) (o : option nat) : option nat :=
  match te.2 with
  | Added c d =>
    match c return doc c -> option nat with
    | CHandles => fun d => if String.eqb (handle d) h then Some te.1 else o
    | CTeams => fun d => if String.eqb (slug d) h then None else o
    | _ => fun _ => o
    end d
  | Changed c _ old new =>
    match c return doc c -> doc c -> option nat with
    | CUsers => fun old new => if has_username h new && negb (has_username h old) then None else o
    | _ => fun _ _ => o
    end old new
  | Removed c k _ =>
    match c with
    | CHandles => if String.eqb k h then None else o
    | CTeams => if String.eqb k h then Some te.1 else o
    | _ => o
    end
  | Met _ => o
  end.
Definition holder (h : string) (l : list (nat * event)) : option nat := foldr (holder_step h) None l.

(** Whether [t] has taken an administrator out and not yet seen another. *)
Definition holding_step (t : nat) (te : nat * event) (b : bool) : bool :=
  if negb (Nat.eqb te.1 t) then b
  else match te.2 with
       | Removed CSuperadmins _ _ => true
       | Added CSuperadmins _ | Met CSuperadmins => false
       | _ => b
       end.
Definition holding (t : nat) (l : list (nat * event)) : bool := foldr (holding_step t) false l.

(** What a document is known by: its [_id], and of a CLI login what it is polled with. *)
Definition tags (c : coll) : doc c -> string * string :=
  match c return doc c -> string * string with
  | CCliLogins => fun l => (code l, poll l)
  | c => fun d => (id_of c d, "")
  end.

Definition cast {c c'} (e : c = c') (d : doc c) : doc c' := eq_rect c doc d c' e.

Definition added_of (c : coll) (e : event) : list (doc c) :=
  match e with Added c' d => match decide (c' = c) with left e => [cast e d] | right _ => [] end | _ => [] end.
Definition removed_of (c : coll) (e : event) : list (doc c) :=
  match e with Removed c' _ d => match decide (c' = c) with left e => [cast e d] | right _ => [] end | _ => [] end.

Definition all_docs (c : coll) (w : database) : list (doc c) := map snd (map_to_list (w c)).
Definition count {A} (P : A -> bool) (l : list A) : nat := length (List.filter P l).

(** Every document of a collection there was at first or was stored since; every one removed. *)
Definition stored (w0 : database) (c : coll) (l : list (nat * event)) : list (doc c) :=
  (concat (map (fun te => added_of c te.2) l) ++ all_docs c w0)%list.
Definition removals (c : coll) (l : list (nat * event)) : list (doc c) :=
  concat (map (fun te => removed_of c te.2) l).

(** Approvals of a CLI login: a waiting one got its token. *)
Definition approved_of (e : event) : list CliLogin :=
  match e with
  | Changed c _ old new =>
    match c return doc c -> doc c -> list CliLogin with
    | CCliLogins => fun old new => if is_none (token old) && is_some (token new) then [old] else []
    | _ => fun _ _ => []
    end old new
  | _ => []
  end.
Definition approvals (l : list (nat * event)) : list CliLogin := concat (map (fun te => approved_of te.2) l).

Section world.
Context `{Casing}.
Variable sha256_hex : string -> string.
Variable mode : coll -> failing.
(** The tokens there are, and their claims. *)
Variable genuine : string -> Claims -> Prop.

(** ** What the effects do *)
Definition dsem (t : nat) (X : Type) (e : dir_eff X) (s : World) : X -> World -> Prop :=
  match e in dir_eff X return X -> World -> Prop with
  | DColl e => fun x s' => exists es, msem mode e (docs s) x es /\ s' = did t es s
  | DNow => fun _ s' => s' = s
  end.

Definition csem (t : nat) (X : Type) (e : console_eff X) (s : World) : X -> World -> Prop :=
  match e in console_eff X return X -> World -> Prop with
  | CDir e => fun x s' => dsem t _ e s x s'
  | CDecode tok => fun x s' => s' = s /\ forall c, x = Some c -> genuine tok c
  | CBegin => fun _ s' => s' = s /\ Forall (fun te => te.1 <> t) (hist s)
  | CAnswer a r => fun _ s' => s' = answered t a r s
  | _ => fun _ s' => s' = s
  end.

(** ** Who a request proves its sender to be *)
Definition proves (api : Api) (h : Headers) (who : string) : Prop :=
  match bearer_token h with
  | Some b => exists c, genuine (trim b) c /\ typ c = "session" /\ who = sub c
  | None => exists o, owner_header h = Some o /\ secret_eq (peer h) (secret api) = true /\ who = lower_trim o
  end.

(** ** The invariant *)
Definition users (s : World) : gmap string User := docs s CUsers.
Definition teams (s : World) : gmap string Team := docs s CTeams.
Definition handles (s : World) : gmap string Handle := docs s CHandles.

Definition once (old new : string) : Prop := old = "" \/ new = old.

(** People stay, with the handle and the region they have; a team stays in its region. *)
Record kept (s0 s : World) : Prop := {
  kept_users : forall k u, users s0 !! k = Some u -> exists u', users s !! k = Some u' /\
    (username u = None \/ username u' = username u) /\ once (u_region u) (u_region u');
  kept_teams : forall k x, teams s0 !! k = Some x ->
    (exists x', teams s !! k = Some x' /\ once (t_region x) (t_region x')) \/
    exists t d, (t, Removed CTeams k d) ∈ evs (hist s);
}.

(** A person or a team carries [h]. *)
Definition carried (s : World) (h : string) : Prop :=
  (exists k u, users s !! k = Some u /\ username u = Some h) \/ is_Some (teams s !! h).

Record Wf (s : World) : Prop := {
  wf_ids : forall c k d, docs s c !! k = Some d -> id_of c d = k;
  wf_members : forall k x, teams s !! k = Some x -> NoDup (map m_user (members x));
  wf_carried : forall h, carried s h -> is_Some (handles s !! h);
  wf_person : forall k1 k2 u1 u2 h, users s !! k1 = Some u1 -> users s !! k2 = Some u2 ->
    username u1 = Some h -> username u2 = Some h -> k1 = k2;
  wf_apart : forall k u h, users s !! k = Some u -> username u = Some h -> teams s !! h = None;
}.

(** A CLI login has the token an approval gave it. *)
Definition granted (w0 : database) (l : list (nat * event)) (d : CliLogin) : Prop :=
  d ∈ all_docs CCliLogins w0 \/ exists t k old, (t, Changed CCliLogins k old d) ∈ l /\ token old = None.

(** What an answer of [t]'s stands on, given what had happened. *)
Definition backed (w0 : database) (t : nat) (a : asked) (r : Response) (l : list (nat * event)) : Prop :=
  match a, r with
  | AskAccept api h tok, JoinedTeam team => exists who i d,
      (t, Removed CInvites (sha256_hex tok) d) ∈ l /\ i_id d = sha256_hex tok /\
      i ∈ stored w0 CInvites l /\ i_id i = sha256_hex tok /\
      proves api h who /\ eq_ignore_ascii_case (i_email i) (lower_trim who) = true /\ team = i_team i
  | AskRedeem tok, Email e => exists d,
      (t, Removed CSignins (sha256_hex tok) d) ∈ l /\ si_id d = sha256_hex tok /\ e = si_email d
  | AskApprove body, Status n => exists k old new,
      (t, Changed CCliLogins k old new) ∈ l /\ code old = to_uppercase (trim body) /\
      token old = None /\ is_some (token new) = true
  | AskPoll p, CliTokenGiven tok _ => exists d, poll d = p /\ token d = Some tok /\ granted w0 l d
  | AskRevokeAdmin _, _ => mode CSuperadmins = Reliable -> holding t l = false
  | _, _ => True
  end.

Fixpoint all_backed (w0 : database) (l : list (nat * act)) : Prop :=
  match l with
  | [] => True
  | (t, Said a r) :: l => backed w0 t a r (evs l) /\ all_backed w0 l
  | _ :: l => all_backed w0 l
  end.

Variable s0 : World.

Record Inv (s : World) : Prop := {
  inv_wf : Wf s;
  inv_held : forall h t, holder h (evs (hist s)) = Some t -> is_Some (handles s !! h) /\ ~ carried s h;
  inv_kept : kept s0 s;
  inv_stored : forall c (P : string * string -> bool),
    count (fun d => P (tags c d)) (stored (docs s0) c (evs (hist s))) =
    (count (fun d => P (tags c d)) (removals c (evs (hist s))) + count (fun d => P (tags c d)) (all_docs c (docs s)))%nat;
  inv_invites : forall k d, docs s CInvites !! k = Some d -> d ∈ stored (docs s0) CInvites (evs (hist s));
  inv_approved : forall P : string * string -> bool,
    (count (fun d => P (tags CCliLogins d)) (approvals (evs (hist s))) +
     count (fun d => P (tags CCliLogins d) && is_none (token d)) (all_docs CCliLogins (docs s)) <=
     count (fun d => P (tags CCliLogins d)) (stored (docs s0) CCliLogins (evs (hist s))))%nat;
  inv_granted : forall k d, docs s CCliLogins !! k = Some d -> token d = None \/ granted (docs s0) (evs (hist s)) d;
  inv_roster : (exists k a, docs s0 CSuperadmins !! k = Some a) ->
    (exists k a, docs s CSuperadmins !! k = Some a) \/ exists t, holding t (evs (hist s)) = true;
  inv_backed : all_backed (docs s0) (hist s);
}.

(** ** The rely *)
Record Rely (t : nat) (s s' : World) : Prop := {
  rely_hist : exists l, hist s' = (l ++ hist s)%list /\ Forall (fun te => te.1 <> t) l;
  rely_held : forall h, holder h (evs (hist s)) = Some t -> holder h (evs (hist s')) = Some t;
}.

#[export] Instance Rely_preorder t : PreOrder (Rely t).
Proof.
  split.
  - intros s. split; [|done]. exists []. by split.
  - intros a b c [(l1 & H1 & F1) Hh1] [(l2 & H2 & F2) Hh2]. split; [|auto].
    exists (l2 ++ l1)%list. rewrite H2, H1, app_assoc. split; [done|]. by apply Forall_app.
Qed.
End world.

(** * One change to the directory keeps its invariant *)

(** ** Counting *)
#[export] Instance count_perm {A} (P : A -> bool) : Proper ((≡ₚ) ==> eq) (count P).
Proof.
  unfold count. intros l l' Hp. induction Hp as [|x l l' _ IH|x y l|l1 l2 l3 _ IH1 _ IH2]; cbn; try done.
  - destruct (P x); cbn; by rewrite IH.
  - by destruct (P x), (P y).
  - by rewrite IH1.
Qed.

Lemma count_cons {A} (P : A -> bool) x l : count P (x :: l) = ((if P x then 1 else 0) + count P l)%nat.
Proof. unfold count. cbn. by destruct (P x). Qed.

Lemma count_app {A} (P : A -> bool) l l' : count P (l ++ l') = (count P l + count P l')%nat.
Proof. unfold count. rewrite List.filter_app, length_app. done. Qed.

Lemma count_pos {A} (P : A -> bool) x l : x ∈ l -> P x = true -> (1 <= count P l)%nat.
Proof. intros (l1 & l2 & ->)%list_elem_of_split HP. rewrite count_app, count_cons, HP. lia. Qed.

(** ** The documents of a collection after a change *)
Lemma all_docs_other c c' f w : c' <> c -> all_docs c (alter_coll c' f w) = all_docs c w.
Proof. intros Hc. unfold all_docs. by rewrite alter_coll_other. Qed.

Lemma all_docs_insert c k d w : w c !! k = None -> all_docs c (alter_coll c (<[k := d]>) w) ≡ₚ d :: all_docs c w.
Proof. intros Hk. unfold all_docs. rewrite alter_coll_same, map_to_list_insert by done. done. Qed.

Lemma all_docs_delete c k d w : w c !! k = Some d -> all_docs c w ≡ₚ d :: all_docs c (alter_coll c (delete k) w).
Proof.
  intros Hk. unfold all_docs. rewrite alter_coll_same. rewrite <- (map_to_list_delete _ k d) by done. done.
Qed.

Lemma all_docs_change c k d d' w : w c !! k = Some d ->
  all_docs c (alter_coll c (<[k := d']>) w) ≡ₚ d' :: all_docs c (alter_coll c (delete k) w).
Proof.
  intros Hk. unfold all_docs. rewrite !alter_coll_same, <- insert_delete_eq.
  rewrite map_to_list_insert by apply lookup_delete_eq. done.
Qed.

Lemma added_of_same c d : added_of c (Added c d) = [d].
Proof. cbn. destruct (decide (c = c)) as [e|]; [|done]. by rewrite (proof_irrel e eq_refl). Qed.
Lemma added_of_other c c' d : c' <> c -> added_of c (Added c' d) = [].
Proof. intros Hc. cbn. by destruct (decide (c' = c)). Qed.
Lemma removed_of_same c k d : removed_of c (Removed c k d) = [d].
Proof. cbn. destruct (decide (c = c)) as [e|]; [|done]. by rewrite (proof_irrel e eq_refl). Qed.
Lemma removed_of_other c c' k d : c' <> c -> removed_of c (Removed c' k d) = [].
Proof. intros Hc. cbn. by destruct (decide (c' = c)). Qed.

(** The collection an event is of. *)
Definition event_coll (e : event) : coll :=
  match e with Added c _ | Changed c _ _ _ | Removed c _ _ | Met c => c end.

Lemma apply_event_other e w c : event_coll e <> c -> apply_event w e c = w c.
Proof. destruct e; cbn; intros; by rewrite ?alter_coll_other. Qed.

(** ** What an event must meet *)
Definition fresh_ok (t : nat) (s : World) (c : coll) : doc c -> Prop :=
  match c return doc c -> Prop with
  | CTeams => fun x => holder (slug x) (evs (hist s)) = Some t /\ NoDup (map m_user (members x))
  | CUsers => fun u => username u = None
  | CCliLogins => fun l => token l = None
  | _ => fun _ => True
  end.

Definition change_ok (t : nat) (s : World) (c : coll) : doc c -> doc c -> Prop :=
  match c return doc c -> doc c -> Prop with
  | CTeams => fun x x' => (NoDup (map m_user (members x)) -> NoDup (map m_user (members x'))) /\ once (t_region x) (t_region x')
  | CUsers => fun u u' => once (u_region u) (u_region u') /\
      (username u' = username u \/
       username u = None /\ exists h, username u' = Some h /\ holder h (evs (hist s)) = Some t)
  | CInvites => fun _ _ => False
  | CCliLogins => fun l l' => token l = None /\ token l' <> None
  | _ => fun _ _ => True
  end.

Definition removal_ok (t : nat) (s : World) (c : coll) (k : string) : Prop :=
  match c with
  | CHandles => holder k (evs (hist s)) = Some t
  | CUsers => False
  | _ => True
  end.

Definition allowed (t : nat) (s : World) (e : event) : Prop :=
  match e with
  | Added c d => docs s c !! id_of c d = None /\ fresh_ok t s c d
  | Changed c k d d' => docs s c !! k = Some d /\ tags c d' = tags c d /\ change_ok t s c d d'
  | Removed c k d => docs s c !! k = Some d /\ removal_ok t s c k
  | Met c => exists k d, docs s c !! k = Some d
  end.

Lemma once_trans a b c : once a b -> once b c -> once a c.
Proof. unfold once. intros [->| ->] [->| ->]; auto. Qed.

Lemma tags_id c d d' : tags c d' = tags c d -> id_of c d' = id_of c d.
Proof. destruct c; cbn; congruence. Qed.

Section events.
Context `{Casing}.
Variable sha256_hex : string -> string.
Variable mode : coll -> failing.
Variable genuine : string -> Claims -> Prop.
Variable s0 : World.
Abbreviation Inv := (Inv sha256_hex mode genuine s0).

Ltac look := unfold users, teams, handles in *; cbn [docs step1 apply_event] in *;
  rewrite ?alter_coll_same in *; rewrite ?alter_coll_other in * by done; cbn [doc] in *.

Ltac same_or_other := repeat match goal with
  | Hl : <[?i := ?x]> ?m !! ?j = Some ?y |- _ =>
    apply lookup_insert_Some in Hl as [[? ?]|[? ?]]; subst
  | Hl : delete ?i ?m !! ?j = Some ?y |- _ => apply lookup_delete_Some in Hl as [? ?]
  end.

Ltac before Hc := apply Hc; first
  [ right; eassumption | right; eexists; eassumption | left; do 2 eexists; split; eassumption |
    left; do 2 eexists; eassumption | left; eassumption ].

(** Of the collections the names live in, an event of another changes nothing. *)
Lemma wf_same s s' : (forall c k d, docs s' c !! k = Some d -> id_of c d = k) ->
  docs s' CUsers = docs s CUsers -> docs s' CTeams = docs s CTeams -> docs s' CHandles = docs s CHandles -> Wf s -> Wf s'.
Proof using Type.
  intros Hids HU HT HH [_ H2 H3 H4 H5]. unfold carried, users, teams, handles in *.
  split; unfold carried, users, teams, handles; rewrite ?HU, ?HT, ?HH; auto.
Qed.

Lemma event_ids t s e : Wf s -> allowed t s e -> forall c k d, docs (step1 t s e) c !! k = Some d -> id_of c d = k.
Proof using Type.
  intros [Hids _ _ _ _] Hal c k d. cbn [docs step1].
  destruct (decide (event_coll e = c)) as [<-|Hc]; [|rewrite apply_event_other by done; apply Hids].
  destruct e as [c d'|c k' d1 d2|c k' d'|c]; cbn [apply_event event_coll] in *; rewrite ?alter_coll_same.
  - intros [[<- <-]|[_ ?]]%lookup_insert_Some; auto.
  - destruct Hal as (Hk & Ht & _). intros [[<- <-]|[_ ?]]%lookup_insert_Some; [|auto].
    rewrite (tags_id _ _ _ Ht). auto.
  - intros [_ ?]%lookup_delete_Some. auto.
  - apply Hids.
Qed.

Lemma event_wf t s e : Inv s -> allowed t s e -> Wf (step1 t s e).
Proof using Type.
  intros HI Hal. pose proof (event_ids t s e (inv_wf _ _ _ _ _ HI) Hal) as Hids.
  destruct HI as [HW Hheld _ _ _ _ _ _ _]. pose proof HW as [_ Hm Hc Hp Ha].
  unfold carried in Hc.
  destruct e as [c d|c k d d'|c k d|c]; cbn [allowed] in Hal; [| | |by apply (wf_same s)];
    destruct c; try (apply (wf_same s); [exact Hids|look; done..|exact HW]); split; try exact Hids; clear Hids;
    unfold carried; look; cbn [id_of fresh_ok change_ok removal_ok] in Hal.
  (* a team *)
  - destruct Hal as (Hn & Hho & Hnd). intros k x Hx. same_or_other; eauto.
  - destruct Hal as (Hn & Hho & Hnd). apply Hheld in Hho as [Hin _].
    intros h [(k & u & Hu)|[x Hx]]; [before Hc|]. same_or_other; [done|before Hc].
  - first [exact Hm|exact Hp|exact Ha|exact Hc].
  - destruct Hal as (Hn & Hho & Hnd). apply Hheld in Hho as [_ Hnc].
    intros k u h Hu Hun. rewrite lookup_insert_None. split; [by eapply Ha|]. intros <-. apply Hnc. left. eauto.
  (* a person *)
  - first [exact Hm|exact Hp|exact Ha|exact Hc].
  - destruct Hal as [Hn Hun]. intros h [(k & u & Hu & Huh)|?]; [|before Hc]. same_or_other; [congruence|before Hc].
  - destruct Hal as [Hn Hun]. intros k1 k2 u1 u2 h H1 H2 E1 E2. same_or_other; try congruence. by eapply Hp.
  - destruct Hal as [Hn Hun]. intros k u h Hu Huh. same_or_other; [congruence|by eapply Ha].
  (* a handle *)
  - first [exact Hm|exact Hp|exact Ha|exact Hc].
  - intros h Hh. apply lookup_insert_is_Some. destruct (decide (handle d = h)); [by left|right]. split; [done|by apply Hc].
  - first [exact Hm|exact Hp|exact Ha|exact Hc].
  - first [exact Hm|exact Hp|exact Ha|exact Hc].
  (* a team's change *)
  - destruct Hal as (Hk & Ht & Hnd & _). intros k' x Hx. same_or_other; eauto.
  - destruct Hal as (Hk & Ht & _). intros h [?|[x Hx]]; [before Hc|]. same_or_other; before Hc.
  - first [exact Hm|exact Hp|exact Ha|exact Hc].
  - destruct Hal as (Hk & Ht & _). intros k' u h Hu Huh. rewrite lookup_insert_None. split; [by eapply Ha|].
    intros ->. specialize (Ha _ _ _ Hu Huh). unfold teams in *. congruence.
  (* a person's change *)
  - first [exact Hm|exact Hp|exact Ha|exact Hc].
  - destruct Hal as (Hk & Ht & _ & Hun). intros h [(k' & u & Hu & Huh)|?]; [|before Hc]. same_or_other; [|before Hc].
    destruct Hun as [Hun|(Hun & h' & Hh' & Hho)]; [apply Hc; left; exists k', d; split; [done|congruence]|].
    apply Hheld in Hho as [Hin _]. by simplify_eq/=.
  - destruct Hal as (Hk & Ht & _ & Hun). intros k1 k2 u1 u2 h H1 H2 E1 E2.
    assert (Hold : forall k' u, users s !! k' = Some u -> username u = Some h -> username d' = Some h -> k' = k).
    { intros k' u Hu Hu1 Hu2. destruct Hun as [Hun|(Hun & h' & Hh' & Hho)]; [apply (Hp k' k u d h); [done..|congruence]|].
      apply Hheld in Hho as [_ Hnc]. exfalso. apply Hnc. left. exists k', u. split; [done|congruence]. }
    same_or_other; try done; try (symmetry; eauto; fail); eauto.
  - destruct Hal as (Hk & Ht & _ & Hun). intros k' u h Hu Huh. same_or_other; [|by eapply Ha].
    destruct Hun as [Hun|(Hun & h' & Hh' & Hho)]; [apply (Ha k' d); [done|congruence]|].
    apply Hheld in Hho as [_ Hnc]. destruct (teams s !! h) as [x|] eqn:Ex; [|done].
    exfalso. apply Hnc. right. simplify_eq/=. eauto.
  (* a handle's change *)
  - exact Hm.
  - intros h Hh. apply lookup_insert_is_Some. destruct (decide (k = h)); [by left|right]. split; [done|by apply Hc].
  - exact Hp.
  - exact Ha.
  (* a team's end *)
  - intros k' x [_ ?]%lookup_delete_Some. eauto.
  - intros h [?|[x [_ ?]%lookup_delete_Some]]; before Hc.
  - first [exact Hm|exact Hp|exact Ha|exact Hc].
  - intros k' u h Hu Huh. apply lookup_delete_None. right. by eapply Ha.
  (* nobody is removed *)
  - by destruct Hal.
  - by destruct Hal.
  - by destruct Hal.
  - by destruct Hal.
  (* a handle given back *)
  - first [exact Hm|exact Hp|exact Ha|exact Hc].
  - destruct Hal as [Hk Hho]. apply Hheld in Hho as [_ Hnc]. intros h Hh.
    rewrite lookup_delete_is_Some. split; [|by apply Hc]. intros ->. by apply Hnc.
  - first [exact Hm|exact Hp|exact Ha|exact Hc].
  - first [exact Hm|exact Hp|exact Ha|exact Hc].
Qed.

(** Nobody else's right to give a handle back is touched. *)
Lemma event_rely t s e t' : Inv s -> allowed t s e -> t' <> t -> Rely t' s (step1 t s e).
Proof using Type.
  intros [HW Hheld _ _ _ _ _ _ _] Hal Hne. split; [exists [(t, Did e)]; split; [done|]; by repeat constructor|].
  intros h Hh. cbn [hist step1 evs holder foldr]. fold (holder h (evs (hist s))). rewrite Hh.
  apply Hheld in Hh as Hh'. destruct Hh' as [[x Hx] Hnc]. unfold carried, handles, teams, users in *.
  destruct e as [c d|c k d d'|c k d|c]; cbn [holder_step snd]; [| | |done]; destruct c; try done;
    cbn [allowed id_of fresh_ok change_ok removal_ok doc] in Hal.
  - destruct Hal as (Hn & Hho & _). destruct (String.eqb_spec (slug d) h) as [<-|]; [congruence|done].
  - destruct Hal as (Hn & _). destruct (String.eqb_spec (handle d) h) as [<-|]; [|done]. by rewrite Hx in Hn.
  - destruct Hal as (Hk & Ht & _ & Hun). destruct (has_username h d') eqn:E1; [|done].
    destruct (has_username h d) eqn:E2; [done|]. unfold has_username in *. bools.
    exfalso. destruct Hun as [?|(_ & h' & Hh' & Hho)]; [congruence|]. assert (h' = h) as -> by congruence. congruence.
  - destruct Hal as (Hk & _). destruct (String.eqb_spec k h) as [<-|]; [|done]. exfalso. apply Hnc. right. eauto.
  - destruct Hal as (Hk & Hho). destruct (String.eqb_spec k h) as [<-|]; [congruence|done].
Qed.

Lemma event_held t s e : Inv s -> allowed t s e -> forall h t', holder h (evs (hist (step1 t s e))) = Some t' ->
  is_Some (handles (step1 t s e) !! h) /\ ~ carried (step1 t s e) h.
Proof using Type.
  intros [[_ _ Hc _ Ha] Hheld _ _ _ _ _ _ _] Hal h t'. cbn [hist step1 evs holder foldr]. fold (holder h (evs (hist s))).
  unfold carried in *.
  destruct e as [c d|c k d d'|c k d|c]; cbn [holder_step snd fst]; [| | |apply Hheld]; destruct c;
    try (look; apply Hheld); look; cbn [allowed id_of fresh_ok change_ok removal_ok doc] in Hal.
  - destruct Hal as (Hn & Hho & _). destruct (String.eqb_spec (slug d) h) as [<-|Hs]; [done|].
    intros Hh. apply Hheld in Hh as [? Hnc]. split; [done|]. by rewrite lookup_insert_ne.
  - destruct Hal as (Hn & Hun). intros Hh. apply Hheld in Hh as [? Hnc]. split; [done|].
    intros [(k & u & Hu & Huh)|?]; [|by apply Hnc; right]. same_or_other; [congruence|]. apply Hnc. left. eauto.
  - destruct Hal as (Hn & _). destruct (String.eqb_spec (handle d) h) as [<-|Hs].
    + intros _. split; [by rewrite lookup_insert_eq|]. intros Hcar. apply Hc in Hcar. rewrite Hn in Hcar. by destruct Hcar.
    + intros Hh. apply Hheld in Hh. by rewrite lookup_insert_ne.
  - destruct Hal as (Hk & Ht & _). intros Hh. apply Hheld in Hh as [? Hnc]. split; [done|].
    intros [?|[x Hx]]; [by apply Hnc; left|]. same_or_other; apply Hnc; right; eauto.
  - destruct Hal as (Hk & Ht & _ & Hun). destruct (has_username h d' && negb (has_username h d)) eqn:E1; [done|].
    intros Hh. apply Hheld in Hh as [? Hnc]. split; [done|].
    intros [(k' & u & Hu & Huh)|?]; [|by apply Hnc; right]. apply Hnc. left. same_or_other; [|eauto].
    destruct (has_username h d) eqn:E2; [unfold has_username in E2; bools; eauto|].
    unfold has_username in E1. by rewrite bool_decide_eq_true_2 in E1.
  - destruct Hal as (Hk & _). intros Hh. apply Hheld in Hh as [? ?]. split; [|done].
    destruct (decide (k = h)) as [<-|]; [by rewrite lookup_insert_eq|by rewrite lookup_insert_ne].
  - destruct Hal as (Hk & _). destruct (String.eqb_spec k h) as [<-|Hs].
    + intros _. split; [apply Hc; right; eauto|]. intros [(k' & u & Hu & Huh)|[x Hx]].
      * specialize (Ha _ _ _ Hu Huh). congruence.
      * by rewrite lookup_delete_eq in Hx.
    + intros Hh. apply Hheld in Hh as [? Hnc]. split; [done|]. by rewrite lookup_delete_ne.
  - by destruct Hal.
  - destruct Hal as (Hk & Hho). destruct (String.eqb_spec k h) as [<-|Hs]; [done|].
    intros Hh. apply Hheld in Hh. by rewrite lookup_delete_ne.
Qed.

Lemma event_kept t s e : Inv s -> allowed t s e -> kept s0 (step1 t s e).
Proof using Type.
  intros [_ _ [HU HT] _ _ _ _ _ _] Hal. unfold step1.
  assert (Hrm : forall k, (exists t d, (t, Removed CTeams k d) ∈ evs (hist s)) -> exists t' d, (t', Removed CTeams k d) ∈ evs ((t, Did e) :: hist s)).
  { intros k (t' & d & Hin). exists t', d. by right. }
  split.
  - intros k u Hu. destruct (HU k u Hu) as (u' & Hu' & Hn & Hr). unfold users in *. cbn [docs hist].
    destruct (decide (event_coll e = CUsers)) as [He|He]; [|rewrite apply_event_other by done; eauto].
    destruct e as [c d|c k' d d'|c k' d|c]; cbn in He; subst c; cbn [apply_event]; rewrite ?alter_coll_same; cbn in Hal; [| |by destruct Hal|eauto].
    + destruct Hal as [Hf _]. exists u'. split; [|done]. rewrite lookup_insert_ne; [done|]. intros <-. cbn in Hu'. by rewrite Hu' in Hf.
    + destruct Hal as (Hk & _ & Hro & Hun). destruct (decide (k' = k)) as [->|]; [|exists u'; by rewrite lookup_insert_ne].
      exists d'. split; [by rewrite lookup_insert_eq|]. injection (eq_trans (eq_sym Hk) Hu') as ->.
      split; [|by eapply once_trans].
      destruct Hn as [?|Hn]; [by left|]. destruct Hun as [Hun|(Hun & _)]; [right; congruence|left; congruence].
  - intros k x Hx. destruct (HT k x Hx) as [(x' & Hx' & Hr)|Hgone]; [|right; by apply Hrm]. unfold teams in *. cbn [docs hist].
    destruct (decide (event_coll e = CTeams)) as [He|He]; [|left; rewrite apply_event_other by done; eauto].
    destruct e as [c d|c k' d d'|c k' d|c]; cbn in He; subst c; cbn [apply_event]; rewrite ?alter_coll_same; cbn in Hal.
    + destruct Hal as [Hf _]. left. exists x'. split; [|done]. rewrite lookup_insert_ne; [done|]. intros <-. cbn in Hx'. by rewrite Hx' in Hf.
    + destruct Hal as (Hk & _ & _ & Hro). left. destruct (decide (k' = k)) as [->|]; [|exists x'; by rewrite lookup_insert_ne].
      exists d'. split; [by rewrite lookup_insert_eq|]. injection (eq_trans (eq_sym Hk) Hx') as ->.
      by eapply once_trans.
    + destruct (decide (k' = k)) as [->|]; [right; exists t, d; left|]. left. exists x'. by rewrite lookup_delete_ne.
    + left. eauto.
Qed.
(** ** What was stored and what was removed *)
Lemma event_stored t s e : Inv s -> allowed t s e -> forall c (P : string * string -> bool),
  count (fun d => P (tags c d)) (stored (docs s0) c ((t, e) :: evs (hist s))) =
  (count (fun d => P (tags c d)) (removals c ((t, e) :: evs (hist s))) +
   count (fun d => P (tags c d)) (all_docs c (apply_event (docs s) e)))%nat.
Proof using Type.
  intros HI Hal c P. pose proof (inv_stored _ _ _ _ _ HI c P) as Hst.
  unfold stored, removals in *. cbn [map concat snd]. rewrite !count_app in *.
  destruct e as [c' d|c' k d d'|c' k d|c']; cbn [allowed] in Hal; destruct (decide (c' = c)) as [->|Hc];
    cbn [apply_event]; try (rewrite all_docs_other by done); try (rewrite added_of_other by done);
    try (rewrite removed_of_other by done); rewrite ?added_of_same, ?removed_of_same; try (cbn in *; lia).
  - destruct Hal as [Hf _]. rewrite (all_docs_insert c _ d _ Hf), !count_cons. cbn. lia.
  - destruct Hal as (Hk & Ht & _). rewrite (all_docs_change c k d d' _ Hk).
    rewrite (all_docs_delete c k d _ Hk) in Hst. rewrite count_cons, Ht in *. cbn. lia.
  - destruct Hal as (Hk & _). rewrite (all_docs_delete c k d _ Hk) in Hst. rewrite count_cons in Hst.
    rewrite count_cons. cbn. lia.
Qed.

Lemma event_invites t s e : Inv s -> allowed t s e -> forall k d, apply_event (docs s) e CInvites !! k = Some d ->
  d ∈ stored (docs s0) CInvites ((t, e) :: evs (hist s)).
Proof using Type.
  intros HI Hal k d. pose proof (inv_invites _ _ _ _ _ HI) as Hin.
  assert (Hmore : forall d, d ∈ stored (docs s0) CInvites (evs (hist s)) -> d ∈ stored (docs s0) CInvites ((t, e) :: evs (hist s))).
  { intros d'. unfold stored. rewrite !elem_of_app. cbn. rewrite elem_of_app. intuition. }
  destruct (decide (event_coll e = CInvites)) as [He|He]; [|rewrite apply_event_other by done; eauto].
  destruct e as [c d'|c k' d1 d2|c k' d'|c]; cbn in He; subst c; cbn [apply_event]; rewrite ?alter_coll_same.
  - intros [[_ <-]|[_ ?]]%lookup_insert_Some; [|eauto].
    unfold stored. cbn [map concat snd]. rewrite added_of_same, !elem_of_app. left. left. left.
  - by destruct Hal as (_ & _ & []).
  - intros [_ ?]%lookup_delete_Some. eauto.
  - eauto.
Qed.

Lemma event_approved t s e : Inv s -> allowed t s e -> forall P : string * string -> bool,
  (count (fun d => P (tags CCliLogins d)) (approvals ((t, e) :: evs (hist s))) +
   count (fun d => P (tags CCliLogins d) && is_none (token d)) (all_docs CCliLogins (apply_event (docs s) e)) <=
   count (fun d => P (tags CCliLogins d)) (stored (docs s0) CCliLogins ((t, e) :: evs (hist s))))%nat.
Proof using Type.
  intros HI Hal P. pose proof (inv_approved _ _ _ _ _ HI P) as Hap.
  unfold stored, approvals in *. cbn [map concat snd]. rewrite !count_app in *.
  destruct (decide (event_coll e = CCliLogins)) as [He|He].
  2:{ unfold all_docs in *. rewrite apply_event_other by done.
      destruct e as [c' d|c' k d d'|c' k d|c']; cbn in He; rewrite ?added_of_other by done;
        try destruct c'; cbn; try done; lia. }
  destruct e as [c' d|c' k d d'|c' k d|c']; cbn in He; subst c'; cbn [apply_event allowed] in *.
  - destruct Hal as [Hf _]. rewrite added_of_same, (all_docs_insert _ _ d _ Hf), !count_cons. cbn [approved_of added_of count List.filter length].
    destruct (P (tags CCliLogins d)), (is_none (token d)); cbn [andb]; lia.
  - destruct Hal as (Hk & Ht & Htok). rewrite (all_docs_change _ k d d' _ Hk).
    rewrite (all_docs_delete _ k d _ Hk) in Hap. rewrite !count_cons, Ht in *. cbn [approved_of added_of].
    cbn [change_ok] in Htok.
    destruct (token d) as [x|], (token d') as [y|]; try (by destruct Htok as [? []]);
      cbn [is_none is_some negb andb] in *; rewrite ?count_cons, ?andb_true_r, ?andb_false_r in *;
      try change (count (fun d => P (tags CCliLogins d)) []) with 0%nat; destruct (P (tags CCliLogins d)); lia.
  - destruct Hal as (Hk & _). rewrite (all_docs_delete _ k d _ Hk) in Hap. rewrite count_cons in Hap.
    cbn [approved_of added_of]. change (count (fun d => P (tags CCliLogins d)) []) with 0%nat. lia.
  - cbn [approved_of added_of]. change (count (fun d => P (tags CCliLogins d)) []) with 0%nat. lia.
Qed.

Lemma event_granted t s e : Inv s -> allowed t s e -> forall k d, apply_event (docs s) e CCliLogins !! k = Some d ->
  token d = None \/ granted (docs s0) ((t, e) :: evs (hist s)) d.
Proof using Type.
  intros HI Hal k d. pose proof (inv_granted _ _ _ _ _ HI) as Hgr.
  assert (Hold : docs s CCliLogins !! k = Some d -> token d = None \/ granted (docs s0) ((t, e) :: evs (hist s)) d).
  { intros Hd. destruct (Hgr k d Hd) as [?|[?|(t' & k' & old & Hin & Hn)]]; [by left|by right; left|right; right].
    exists t', k', old. split; [by right|done]. }
  destruct (decide (event_coll e = CCliLogins)) as [He|He]; [|rewrite apply_event_other by done; exact Hold].
  destruct e as [c d'|c k' d1 d2|c k' d'|c]; cbn in He; subst c; cbn [apply_event]; rewrite ?alter_coll_same.
  - destruct Hal as [_ Hn]. intros [[_ <-]|[_ Hd]]%lookup_insert_Some; [by left|by apply Hold].
  - destruct Hal as (_ & _ & Hn & _). intros [[_ <-]|[_ Hd]]%lookup_insert_Some; [|by apply Hold].
    right. right. exists t, k', d1. split; [left|done].
  - intros [_ Hd]%lookup_delete_Some. by apply Hold.
  - exact Hold.
Qed.

Lemma event_roster t s e : Inv s -> allowed t s e -> (exists k a, docs s0 CSuperadmins !! k = Some a) ->
  (exists k a, apply_event (docs s) e CSuperadmins !! k = Some a) \/
  exists t', holding t' ((t, e) :: evs (hist s)) = true.
Proof using Type.
  intros HI Hal H0. pose proof (inv_roster _ _ _ _ _ HI H0) as Hr.
  destruct (decide (event_coll e = CSuperadmins)) as [He|He].
  - destruct e as [c d|c k d d'|c k d|c]; cbn in He; subst c; cbn [apply_event allowed]; rewrite ?alter_coll_same.
    + left. exists (id_of CSuperadmins d), d. by rewrite lookup_insert_eq.
    + left. exists k, d'. by rewrite lookup_insert_eq.
    + right. exists t. cbn. unfold holding_step. cbn. by rewrite Nat.eqb_refl.
    + left. exact Hal.
  - rewrite apply_event_other by done. destruct Hr as [?|[t' Ht']]; [by left|right]. exists t'. cbn.
    fold (holding t' (evs (hist s))). rewrite Ht'. unfold holding_step. cbn.
    destruct (Nat.eqb t t'); [|done]. cbn. destruct e as [c d|c k d d'|c k d|c]; cbn in He; by destruct c.
Qed.

(** ** One event *)
Lemma event_ok t s e : Inv s -> allowed t s e ->
  Inv (step1 t s e) /\ forall t', t' <> t -> Rely t' s (step1 t s e).
Proof using Type.
  intros HI Hal. split; [|intros t' Ht'; by apply event_rely].
  split; cbn [docs hist step1 evs].
  - by apply event_wf.
  - by apply event_held.
  - by apply event_kept.
  - by apply event_stored.
  - by apply event_invites.
  - by apply event_approved.
  - by apply event_granted.
  - by apply event_roster.
  - cbn. by destruct HI.
Qed.

Lemma said_ok t s a r : Inv s -> backed sha256_hex mode genuine (docs s0) t a r (evs (hist s)) ->
  Inv (answered t a r s) /\ forall t', t' <> t -> Rely t' s (answered t a r s).
Proof using Type.
  intros [H1 H2 H3 H4 H5 H6 H7 H8 H9] Hb. split.
  - split; cbn [docs hist answered evs]; try done; [by destruct H1; split|by destruct H3; split].
  - intros t' Ht'. split; [|done]. exists [(t, Said a r)]. split; [done|]. by repeat constructor.
Qed.
End events.
