(* ===== verification/DirRules.v ===== *)
(** * DirRules: a rule per request and per operation, and the entry points

    [may] is what a request must meet; a program all of whose requests meet it wherever they happen
    is [tame] and keeps the invariant ([wp_tame]).  Operations that take or give back a handle, and
    those whose answers count, have rules of their own; [entry_safe] puts them together. *)

From S2P Require Import Prelude Text Names Prog People Mongo Directory Console Credentials DirWorld.
Local Open Scope string_scope.
Local Open Scope Z_scope.

(** ** Requests *)
Definition change_may (t : nat) (s : World) (c : coll) (d d' : doc c) : Prop :=
  tags c d' = tags c d /\ change_ok t s c d d'.

Definition may (t : nat) (s : World) {X} (e : coll_eff X) : Prop :=
  match e with
  | InsertOne c d => fresh_ok t s c d
  | UpdateOne c q u => forall d, q d = true -> change_may t s c d (u d)
  | FindOneAndUpdate c q u => forall d, q d = true -> change_may t s c d (u d)
  | UpsertOne c fresh u => fresh_ok t s c fresh /\ forall d, id_of c d = id_of c fresh -> change_may t s c d (u d)
  | DeleteOne c q => forall d, q d = true -> removal_ok t s c (id_of c d)
  | FindOneAndDelete c q => forall d, q d = true -> removal_ok t s c (id_of c d)
  | DeleteMany c q => c <> CHandles /\ c <> CUsers
  | _ => True
  end.

(** Whether a request can take an administrator out. *)
Definition sparing {X} (e : coll_eff X) : Prop :=
  match e with
  | DeleteOne c _ | FindOneAndDelete c _ | DeleteMany c _ => c <> CSuperadmins
  | _ => True
  end.

Section rules.
Context `{Casing}.
Variable sha256_hex : string -> string.
Variable mode : coll -> failing.
Variable genuine : string -> Claims -> Prop.
Variable s0 : World.
Abbreviation Inv := (Inv sha256_hex mode genuine s0).
Abbreviation csem := (csem mode genuine).
Abbreviation wp := (wp csem Inv Rely).

Lemma works_allowed t s {X} (e : coll_eff X) x es : Wf s -> may t s e -> works e (docs s) x es ->
  (exists ev, es = [ev] /\ allowed t s ev) \/
  (exists c l, c <> CHandles /\ c <> CUsers /\ NoDup (map fst l) /\ es = map (fun kd => Removed c kd.1 kd.2) l /\
     forall kd, kd ∈ l -> docs s c !! kd.1 = Some kd.2).
Proof using Type.
  intros HW Hmay Hw.
  assert (Hnone : es = [] -> (exists ev, es = [ev] /\ allowed t s ev) \/
    (exists c l, c <> CHandles /\ c <> CUsers /\ NoDup (map fst l) /\ es = map (fun kd => Removed c kd.1 kd.2) l /\
       forall kd, kd ∈ l -> docs s c !! kd.1 = Some kd.2)).
  { intros ->. right. exists CMeta, []. repeat split; try done; [constructor|by intros kd []%not_elem_of_nil]. }
  destruct e as [c d|c q|c q newest limit|c q u|c fresh u|c q|c q|c q|c q u|c q]; cbn [works may] in *.
  - destruct Hw as [(_ & Hf & ->)|(_ & (d' & Hd) & ->)]; left; eexists; (split; [done|]); cbn; eauto.
  - apply Hnone, Hw.
  - apply Hnone, Hw.
  - destruct Hw as [(k & d & Hk & Hq & _ & ->)|(_ & _ & ->)]; [|by apply Hnone].
    left. eexists. split; [done|]. destruct (Hmay d Hq). by repeat split.
  - destruct Hmay as [Hf Hc]. destruct Hw as [_ [(d & Hk & ->)|(Hk & ->)]]; left; eexists; (split; [done|]).
    + destruct (Hc d) as [? ?]; [by apply (wf_ids _ HW)|]. by repeat split.
    + done.
  - destruct Hw as [(k & d & Hk & Hq & _ & ->)|(_ & _ & ->)]; [|by apply Hnone].
    left. eexists. split; [done|]. split; [done|]. rewrite <- (wf_ids _ HW _ _ _ Hk). auto.
  - destruct Hw as (l & Hl & _ & ->). right. exists c, l. destruct Hmay. repeat split; try done.
    + rewrite Hl. apply selected_keys.
    + intros [k d] Hin. rewrite Hl in Hin. by apply elem_of_selected in Hin as [? _].
  - destruct Hw as [(k & d & Hk & Hq & _ & ->)|(_ & _ & ->)]; [|by apply Hnone].
    left. eexists. split; [done|]. split; [done|]. rewrite <- (wf_ids _ HW _ _ _ Hk). auto.
  - destruct Hw as [(k & d & Hk & Hq & _ & ->)|(_ & _ & ->)]; [|by apply Hnone].
    left. eexists. split; [done|]. destruct (Hmay d Hq). by repeat split.
  - destruct Hw as [_ ->]. destruct (Z.ltb_spec 0 (Z.of_nat (length (selected (docs s) q)))); [|by apply Hnone].
    left. eexists. split; [done|]. cbn. destruct (selected (docs s) q) as [|[k d] r] eqn:E; [done|].
    exists k, d. apply (selected_head (docs s) q k d r E).
Qed.
Lemma removed_all_ok t c l : c <> CHandles -> c <> CUsers -> NoDup (map fst l) -> forall s, Inv s ->
  (forall kd, kd ∈ l -> docs s c !! kd.1 = Some kd.2) ->
  Inv (did t (map (fun kd => Removed c kd.1 kd.2) l) s) /\
  forall t', t' <> t -> Rely t' s (did t (map (fun kd => Removed c kd.1 kd.2) l) s).
Proof using Type.
  intros HcH HcU. induction l as [|[k d] l IH]; intros Hnd s HI Hin; [by split|].
  cbn in Hnd. apply NoDup_cons in Hnd as [Hk Hnd]. cbn [map fst snd did foldl].
  assert (Hal : allowed t s (Removed c k d)).
  { split; [apply (Hin (k, d)); left|]. by destruct c. }
  destruct (event_ok sha256_hex mode genuine s0 t s _ HI Hal) as [HI1 HR1].
  destruct (IH Hnd (step1 t s (Removed c k d)) HI1) as [HI2 HR2].
  - intros [k' d'] Hk'. cbn [docs step1 apply_event fst snd]. rewrite alter_coll_same, lookup_delete_ne.
    + apply (Hin (k', d')). by right.
    + intros ->. apply Hk. apply list_elem_of_In, in_map_iff. exists (k', d'). split; [done|]. by apply list_elem_of_In.
  - split; [exact HI2|]. intros t' Ht'. etrans; [by apply HR1|by apply HR2].
Qed.

(** A request that meets [may] keeps everything. *)
Lemma request_ok t s {X} (e : coll_eff X) x es : Inv s -> may t s e -> msem mode e (docs s) x es ->
  Inv (did t es s) /\ forall t', t' <> t -> Rely t' s (did t es s).
Proof using Type.
  intros HI Hmay Hm.
  assert (Hw : forall y es, works e (docs s) y es -> Inv (did t es s) /\ forall t', t' <> t -> Rely t' s (did t es s)).
  { intros y es' Hw. destruct (works_allowed t s e y es' (inv_wf _ _ _ _ _ HI) Hmay Hw)
      as [(ev & -> & Hal)|(c & l & H1 & H2 & H3 & -> & H4)].
    - by apply event_ok.
    - by apply removed_all_ok. }
  destruct Hm as [Hw1|(msg & -> & _ & [->|(_ & y & Hw1)])]; [by eapply Hw|by split|by eapply Hw].
Qed.

(** ** Programs *)
Lemma wp_request t s {X} (e : coll_eff X) (Q : X -> World -> Prop) :
  (forall s1, Rely t s s1 -> Inv s1 -> may t s1 e /\ forall x es, msem mode e (docs s1) x es -> Q x (did t es s1)) ->
  wp t (dir (coll_op e)) s Q.
Proof using Type.
  intros Hq s1 x s2 HR HI He. destruct (Hq s1 HR HI) as [Hmay Hx]. destruct He as (es & Hm & ->).
  destruct (request_ok t s1 e x es HI Hmay Hm) as [HI' HR']. split; [done|]. split; [done|]. by apply Hx.
Qed.

Lemma wp_dir_bind {A B} t (p : DD A) (f : A -> DD B) s Q :
  wp t (dir p) s (fun a s' => wp t (dir (f a)) s' Q) -> wp t (dir (bind p f)) s Q.
Proof using Type.
  unfold dir. revert s. induction p as [a|X e k IH]; intros s; cbn; [done|].
  intros Hp s1 x s2 HR HI He. destruct (Hp s1 x s2 HR HI He) as (?&?&?). split; [done|]. split; [done|]. by apply IH.
Qed.

Lemma wp_dir_res {A B} t (p : DD (result A)) (f : A -> DD (result B)) s Q :
  wp t (dir p) s (fun r s' => match r with Ok a => wp t (dir (f a)) s' Q | Err e => Q (Err e) s' end) ->
  wp t (dir (bind_res p f)) s Q.
Proof using Type.
  intros Hp. apply wp_dir_bind. eapply wp_mono; [exact Hp|]. by intros [a|e] s'.
Qed.

Lemma wp_ask t s {A} (e : coll_eff (result A)) (Q : result A -> World -> Prop) :
  (forall s1, Rely t s s1 -> Inv s1 -> may t s1 e /\ forall x es, msem mode e (docs s1) x es -> Q (mongo x) (did t es s1)) ->
  wp t (dir (ask e)) s Q.
Proof using Type. intros Hq. apply wp_dir_bind, wp_request. exact Hq. Qed.

Lemma wp_clock t s (Q : Z -> World -> Prop) :
  (forall s1 z, Rely t s s1 -> Inv s1 -> Q z s1) -> wp t (dir now) s Q.
Proof using Type. intros Hq s1 x s2 HR HI He. cbn in He. subst s2. split; [done|]. split; [intros t' _; reflexivity|]. by apply Hq. Qed.

(** ** Programs whose every request is fine anywhere *)
Definition tame_request {X} (e : dir_eff X) : Prop :=
  match e with DColl e => sparing e /\ forall t s, may t s e | DNow => True end.

Fixpoint tame_dir {A} (p : DD A) : Prop :=
  match p with Ret _ => True | Vis X e k => tame_request e /\ forall x, tame_dir (k x) end.

Definition tame_effect {X} (e : console_eff X) : Prop :=
  match e with CDir e => tame_request e | CAnswer _ _ => False | _ => True end.

Fixpoint tame {A} (p : CC A) : Prop :=
  match p with Ret _ => True | Vis X e k => tame_effect e /\ forall x, tame (k x) end.

Lemma tame_dir_bind {A B} (p : DD A) (f : A -> DD B) : tame_dir p -> (forall a, tame_dir (f a)) -> tame_dir (bind p f).
Proof using Type. intros Hp Hf. induction p as [a|X e k IH]; cbn; [done|]. destruct Hp. split; auto. Qed.

Lemma tame_dir_res {A B} (p : DD (result A)) (f : A -> DD (result B)) :
  tame_dir p -> (forall a, tame_dir (f a)) -> tame_dir (bind_res p f).
Proof using Type. intros Hp Hf. apply tame_dir_bind; [done|]. by intros []. Qed.

Lemma tame_ask {A} (e : coll_eff (result A)) : sparing e -> (forall t s, may t s e) -> tame_dir (ask e).
Proof using Type. intros Hs He. split; [by split|]. done. Qed.

Lemma tame_bind {A B} (p : CC A) (f : A -> CC B) : tame p -> (forall a, tame (f a)) -> tame (bind p f).
Proof using Type. intros Hp Hf. induction p as [a|X e k IH]; cbn; [done|]. destruct Hp. split; auto. Qed.

Lemma tame_res {A B} (p : CC (result A)) (f : A -> CC (result B)) :
  tame p -> (forall a, tame (f a)) -> tame (bind_res p f).
Proof using Type. intros Hp Hf. apply tame_bind; [done|]. by intros []. Qed.

Lemma tame_reply {A} (p : CC (A + Response)) k : tame p -> (forall a, tame (k a)) -> tame (or_reply p k).
Proof using Type. intros Hp Hf. apply tame_bind; [done|]. by intros []. Qed.

Lemma tame_end {A B} (p : CC (A + Response)) (k : A -> CC (B + Response)) :
  tame p -> (forall a, tame (k a)) -> tame (or_end p k).
Proof using Type. intros Hp Hf. apply tame_bind; [done|]. by intros []. Qed.

Lemma tame_lift {A} (p : DD A) : tame_dir p -> tame (dir p).
Proof using Type. unfold dir. induction p as [a|X e k IH]; cbn; [done|]. intros [??]. split; auto. Qed.

Lemma wp_tame {A} t (p : CC A) s : tame p -> wp t p s (fun _ _ => True).
Proof using Type.
  revert s. induction p as [a|X e k IH]; cbn; [done|]. intros s [He Hk] s1 x s2 HR HI Hs.
  assert (Hsame : s2 = s1 -> Inv s2 /\ (forall t', t' <> t -> Rely t' s1 s2) /\ wp t (k x) s2 (fun _ _ => True)).
  { intros ->. split; [done|]. split; [done|]. auto. }
  destruct e; try (by apply Hsame); try (apply Hsame, Hs); try done.
  destruct e as [X e|]; [|by apply Hsame]. destruct Hs as (es & Hm & ->).
  destruct (request_ok t s1 e x es HI (proj2 He t s1) Hm) as [HI' HR']. auto.
Qed.

(** What has happened stays so. *)
Definition lasting (F : list (nat * event) -> Prop) : Prop := forall l te, F l -> F (te :: l).

Lemma evs_app l l' : evs (l ++ l') = (evs l ++ evs l')%list.
Proof using Type. induction l as [|[t [e|a r]] l IH]; cbn; by rewrite ?IH. Qed.

Lemma lasting_app F l l' : lasting F -> F l' -> F (l ++ l')%list.
Proof using Type. intros HF Hl. induction l; cbn; auto. Qed.

Lemma rely_lasting F t s s' : lasting F -> Rely t s s' -> F (evs (hist s)) -> F (evs (hist s')).
Proof using Type. intros HF [(l & -> & _) _]. rewrite evs_app. by apply lasting_app. Qed.

Lemma did_hist t es s : evs (hist (did t es s)) = (rev (map (fun e => (t, e)) es) ++ evs (hist s))%list.
Proof using Type.
  unfold did. revert s. induction es as [|e es IH]; intros s; cbn; [done|]. rewrite IH. cbn. by rewrite <- app_assoc.
Qed.

Lemma sem_lasting F t {X} (e : console_eff X) s x s' : lasting F -> csem t X e s x s' -> F (evs (hist s)) -> F (evs (hist s')).
Proof using Type.
  intros HF Hs HFs. destruct e; cbn in Hs; try (by subst s'); try (by destruct Hs; subst s').
  destruct e as [X e|]; [|by cbn in Hs; subst s']. destruct Hs as (es & _ & ->). rewrite did_hist. by apply lasting_app.
Qed.

Lemma wp_lasting {A} t (p : CC A) s (F : list (nat * event) -> Prop) :
  lasting F -> tame p -> F (evs (hist s)) -> wp t p s (fun _ s' => F (evs (hist s'))).
Proof using Type.
  intros HF Hp HFs. eapply wp_mono; [apply (wp_frame _ _ _ t p s (fun _ _ => True) (fun s => F (evs (hist s))))|].
  - intros a b HR. by apply (rely_lasting F t).
  - intros X e a x b. by apply sem_lasting.
  - by apply wp_tame.
  - exact HFs.
  - by intros a s' [_ ?].
Qed.
End rules.

(** ** The operations that are fine anywhere *)
Ltac head_of p := lazymatch p with ?f _ => head_of f | _ => p end.

(** One step towards [tame]: the request, the program's shape, or the operation's definition. *)
Ltac tame_step :=
  match goal with
  | |- forall _, _ => intros ?
  | |- tame (Ret _) => exact I
  | |- tame_dir (Ret _) => exact I
  | |- tame (trigger _) => split; [exact I|intros ?; exact I]
  | |- tame_dir now => split; [exact I|intros ?; exact I]
  | |- tame cnow => apply tame_lift
  | |- tame (dir _) => apply tame_lift
  | |- tame (or_reply _ _) => apply tame_reply
  | |- tame (or_end _ _) => apply tame_end
  | |- tame (bind_res _ _) => apply tame_res
  | |- tame (bind _ _) => apply tame_bind
  | |- tame_dir (bind_res _ _) => apply tame_dir_res
  | |- tame_dir (bind _ _) => apply tame_dir_bind
  | |- tame_dir (ask _) => apply tame_ask; [done|]; intros; cbn [may fresh_ok removal_ok]; first [exact I|by repeat split|idtac]
  | |- tame (match ?x with _ => _ end) => destruct x eqn:?
  | |- tame_dir (match ?x with _ => _ end) => destruct x eqn:?
  | |- tame _ => solve [auto 2 with tame nocore]
  | |- tame_dir _ => solve [auto 2 with tame nocore]
  | |- tame ?p => let h := head_of p in unfold h; cbv zeta
  | |- tame_dir ?p => let h := head_of p in unfold h; cbv zeta
  end.
Ltac tame := repeat tame_step.

Create HintDb tame discriminated.

Section operations.
Context `{Casing}.
Variable dollar : nat -> nat -> nat.

Lemma user_tame e : tame_dir (user e). Proof. tame. Qed.
#[local] Hint Resolve user_tame : tame.

Lemma upsert_user_tame e n : tame_dir (Directory.upsert_user e n).
Proof. tame. split; [done|]. intros d _. split; [done|]. cbn. split; [by right|by left]. Qed.

Lemma region_may t s region u : u_region u = "" -> change_may t s CUsers u (set_user_region region u).
Proof. intros Hr. split; [done|]. cbn. split; [by left|by left]. Qed.

Lemma bind_user_region_tame e region : tame_dir (bind_user_region e region).
Proof. tame. apply andb_true_iff in H0 as [_ Hr%String.eqb_eq]. by apply region_may. Qed.

Lemma bind_region_tame s region : tame_dir (bind_region s region).
Proof.
  tame; apply andb_true_iff in H0 as [_ Hr%String.eqb_eq]; [|by apply region_may].
  split; [done|]. split; [done|by left].
Qed.

(** A change of a team that leaves its region and keeps each member once. *)
Lemma members_may t s x f : (NoDup (map m_user (members x)) -> NoDup (map m_user (f (members x)))) ->
  change_may t s CTeams x (set_members f x).
Proof. intros Hf. split; [done|]. split; [exact Hf|by right]. Qed.

Lemma same_users f ms : (forall m, m_user (f m) = m_user m) -> map m_user (map f ms) = map m_user ms.
Proof. intros Hf. rewrite map_map. by apply map_ext. Qed.

Lemma set_role_at_users demoting e role ms : map m_user (set_role_at dollar demoting e role ms) = map m_user ms.
Proof. unfold set_role_at. destruct (index_of _ ms); [|done]. by apply alter_users. Qed.

Lemma any_named e ms : any (named e) ms = false -> e ∉ map m_user ms.
Proof.
  intros Ha He. apply list_elem_of_In, in_map_iff in He as (m & <- & Hm). apply list_elem_of_In in Hm.
  rewrite any_false in Ha. specialize (Ha m Hm). unfold named in Ha. by rewrite String.eqb_refl in Ha.
Qed.

Lemma add_member_tame s e role : tame_dir (add_member s e role).
Proof.
  tame. apply andb_true_iff in H0 as [_ Hn%negb_true_iff]. apply members_may. intros Hd.
  rewrite map_app. apply NoDup_app. split; [done|]. split; [|by apply NoDup_singleton].
  intros x Hx ->%list_elem_of_singleton. by apply (any_named _ _ Hn).
Qed.

#[local] Hint Resolve add_member_tame : tame.

Lemma set_role_tame s e role : tame_dir (Directory.set_role dollar s e role).
Proof. tame. apply members_may. by rewrite set_role_at_users. Qed.

Lemma set_member_state_tame s e state b : tame_dir (set_member_state s e state b).
Proof.
  tame. apply members_may. rewrite same_users; [done|]. intros m'. destruct (named _ m'); [|done]. by destruct state.
Qed.

Lemma remove_member_tame s e : tame_dir (Directory.remove_member s e).
Proof. tame. apply members_may. apply NoDup_map_filter. Qed.

Lemma update_team_tame s name description : tame_dir (Directory.update_team s name description).
Proof. tame. split; [done|]. split; [done|by right]. Qed.

Lemma update_profile_tame s p : tame_dir (update_profile s p).
Proof. tame. split; [done|]. split; [done|by right]. Qed.

Lemma sweep_expired_tame : tame_dir sweep_expired.
Proof. tame. Qed.

Lemma redeem_signin_tame id : tame_dir (redeem_signin id).
Proof. tame. Qed.

Lemma approve_cli_login_tame c tok e : tame_dir (approve_cli_login c tok e).
Proof. tame. apply andb_true_iff in H0 as [_ Hn]. split; [done|]. split; [by destruct (token d)|done]. Qed.

Lemma take_cli_login_tame p : tame_dir (take_cli_login p).
Proof. tame. Qed.

Lemma accept_invite_tame id e : tame_dir (Directory.accept_invite id e).
Proof. tame. Qed.

Lemma add_superadmin_tame u b : tame_dir (Directory.add_superadmin u b).
Proof. tame. Qed.

#[local] Hint Resolve add_superadmin_tame : tame.

Lemma ensure_superadmins_tame l n : tame_dir (ensure_superadmins l n).
Proof.
  revert n. induction l as [|e l IH]; intros n; [done|]. cbn [ensure_superadmins]. tame.
Qed.

Lemma migrate_rows_tame rows keys : tame_dir (migrate_rows rows keys).
Proof.
  revert keys. induction rows as [|c rows IH]; intros keys; [done|]. cbn [migrate_rows].
  tame.
Qed.

Lemma lowercase_rows_tame rows n : tame_dir (lowercase_rows rows n).
Proof. revert n. induction rows as [|c rows IH]; intros n; [done|]. cbn [lowercase_rows]. tame. Qed.

#[local] Hint Resolve migrate_rows_tame lowercase_rows_tame : tame.

Lemma migrate_keys_tame : tame_dir migrate_keys_to_people.
Proof. tame. Qed.

Lemma meta_may t s x (d : Meta) : meta_id d = meta_id x -> change_may t s CMeta d x.
Proof. intros Hd. split; [|done]. cbn. congruence. Qed.

Lemma lowercase_once_tame : tame_dir lowercase_signing_fingerprints_once.
Proof. tame. split; [done|]. intros d Hd. by apply meta_may. Qed.

Lemma mark_keys_migrated_tame : tame_dir mark_keys_migrated.
Proof. tame. split; [done|]. intros d Hd. by apply meta_may. Qed.
End operations.

#[export] Hint Resolve user_tame upsert_user_tame bind_user_region_tame bind_region_tame add_member_tame set_role_tame
  set_member_state_tame remove_member_tame update_team_tame update_profile_tame sweep_expired_tame
  redeem_signin_tame approve_cli_login_tame take_cli_login_tame accept_invite_tame add_superadmin_tame
  ensure_superadmins_tame migrate_keys_tame lowercase_once_tame mark_keys_migrated_tame : tame.

(** ** Handles: taken, and given back only by who may *)
Section handles.
Context `{Casing}.
Variable dollar : nat -> nat -> nat.
Variable sha256_hex : string -> string.
Variable mode : coll -> failing.
Variable genuine : string -> Claims -> Prop.
Variable s0 : World.
Abbreviation Inv := (Inv sha256_hex mode genuine s0).
Abbreviation csem := (csem mode genuine).
Abbreviation wp := (wp csem Inv Rely).
Abbreviation may_release t s h := (holder h (evs (hist s)) = Some t).

(** A person's row and a new team's: a write that fails there was not done. *)
Hypothesis people_clean : mode CUsers <> Torn.
Hypothesis teams_clean : mode CTeams <> Torn.

Lemma wp_reserve t s h kind b (Q : result bool -> World -> Prop) :
  (forall s1 x, (x = Ok true -> may_release t s1 h) -> Q x s1) -> wp t (dir (reserve h kind b)) s Q.
Proof using Type.
  intros HQ. apply wp_dir_bind, wp_clock. intros s1 z _ _. apply wp_ask. intros s2 _ HI. split; [done|].
  intros x es Hm. apply HQ. intros Hx.
  destruct Hm as [[(-> & _ & ->)|(-> & _)]|(msg & -> & _)]; try done.
  cbn. by rewrite String.eqb_refl.
Qed.

Lemma wp_release t s h (Q : result unit -> World -> Prop) :
  may_release t s h -> (forall x s1, Q x s1) -> wp t (dir (release h)) s Q.
Proof using Type.
  intros Hh HQ. apply wp_dir_res, wp_ask. intros s1 HR _. split.
  - intros d Hd. apply String.eqb_eq in Hd. cbn in *. rewrite Hd. by apply (rely_held _ _ _ HR).
  - intros x es _. by destruct (mongo x); apply HQ.
Qed.

Lemma wp_create t s sl name creator region : wp t (dir (create sl name creator region)) s (fun _ _ => True).
Proof using teams_clean.
  unfold create. destruct (check_handle sl); [|done]. case_match; [done|].
  apply wp_dir_res, wp_reserve. intros s1 x Hx. destruct x as [[]|]; [|done|done]. specialize (Hx eq_refl). cbn [negb].
  apply wp_dir_bind, wp_clock. intros s2 z HR _. apply (rely_held _ _ _ HR) in Hx.
  apply wp_dir_bind, wp_request. intros s3 HR3 HI. apply (rely_held _ _ _ HR3) in Hx.
  split; [split; [exact Hx|by apply NoDup_singleton]|]. intros x es Hm.
  assert (Hkeep : x <> Ok true -> may_release t (did t es s3) sl).
  { intros Hnt. destruct Hm as [[(-> & _)|(-> & _ & ->)]|(msg & _ & _ & [->|[? _]])]; done. }
  destruct x as [[]|e]; [done| |]; (apply wp_dir_bind, wp_release; [by apply Hkeep|done]).
Qed.

Lemma wp_claim_username t s e h : wp t (dir (Directory.claim_username e h)) s (fun _ _ => True).
Proof using people_clean.
  unfold Directory.claim_username. destruct (check_handle _); [|done].
  apply wp_dir_res. eapply wp_mono; [apply wp_tame, tame_lift, user_tame|]. intros r s1 _.
  destruct r as [[u|]|]; [|done|done]. destruct (username u); [done|].
  apply wp_dir_res, wp_reserve. intros s2 x Hx. destruct x as [[]|]; [|done|done]. specialize (Hx eq_refl). cbn [negb].
  apply wp_dir_bind, wp_request. intros s3 HR HI. apply (rely_held _ _ _ HR) in Hx. split.
  - intros d Hd. split; [done|]. split; [by right|]. right. apply andb_true_iff in Hd as [_ Hd].
    split; [by destruct (username d)|]. by exists (lower_trim h).
  - intros x es Hm.
    assert (Hkeep : x <> Ok true -> may_release t (did t es s3) (lower_trim h)).
    { intros Hnt. destruct Hm as [[(k & d & _ & _ & -> & _)|(_ & -> & ->)]|(msg & _ & _ & [->|[? _]])]; done. }
    destruct x as [[]|er]; [apply wp_tame, tame_lift, user_tame| |];
      (apply wp_dir_bind, wp_release; [by apply Hkeep|done]).
Qed.

Lemma wp_delete_team t s sl : wp t (dir (Directory.delete_team sl)) s (fun _ _ => True).
Proof using Type.
  unfold Directory.delete_team. apply wp_dir_res, wp_ask. intros s1 _ _. split; [done|]. intros x es _.
  destruct (mongo x); [|done]. case_match; [done|].
  apply wp_dir_res, wp_ask. intros s2 _ HI. split; [by intros ? _|]. intros y es2 Hm.
  assert (Hk : mongo y = Ok true -> may_release t (did t es2 s2) sl).
  { destruct Hm as [[(k & d & Hk & Hq & -> & ->)|(_ & -> & ->)]|(msg & -> & _)]; try done.
    intros _. apply String.eqb_eq in Hq. cbn in Hq. cbn.
    rewrite <- (wf_ids _ (inv_wf _ _ _ _ _ HI) _ _ _ Hk). cbn. by rewrite Hq, String.eqb_refl. }
  destruct (mongo y) as [[]|]; [|done|done]. apply wp_dir_res, wp_release; [by apply Hk|]. by intros [].
Qed.
End handles.
