(* ===== verification/DirSafe.v ===== *)
(** * DirSafe: what each answer stands on, the entry points, and that all of them keep the invariant *)

From S2P Require Import Prelude Text Names Prog People Mongo Directory Console Credentials DirWorld DirRules.
Local Open Scope string_scope.
Local Open Scope Z_scope.

(** A request, from its arrival to its answer. *)
Definition serve (a : asked) (p : CC Response) : CC unit :=
  let! _ := trigger CBegin in let! r := p in trigger (CAnswer a r).

(** Programs all of whose effects are of a kind: reads; anything but taking an administrator out. *)
Fixpoint solely (P : forall X, console_eff X -> Prop) {A} (p : CC A) : Prop :=
  match p with Ret _ => True | Vis X e k => P X e /\ forall x, solely P (k x) end.

Definition looks (X : Type) (e : console_eff X) : Prop :=
  match e with
  | CDir (DColl (FindOne _ _)) | CDir (DColl (FindMany _ _ _ _)) | CDir DNow => True
  | CDir _ | CBegin | CAnswer _ _ => False
  | _ => True
  end.

Definition spares (X : Type) (e : console_eff X) : Prop :=
  match e with CDir (DColl e) => sparing e | _ => True end.

Lemma solely_bind P {A B} (p : CC A) (f : A -> CC B) : solely P p -> (forall a, solely P (f a)) -> solely P (bind p f).
Proof. intros Hp Hf. induction p as [a|X e k IH]; cbn; [done|]. destruct Hp. split; auto. Qed.

Lemma tame_spares {A} (p : CC A) : tame p -> solely spares p.
Proof.
  induction p as [a|X e k IH]; cbn; [done|]. intros [He Hk]. split; [|auto]. destruct e; try done.
  destruct e; [apply He|done].
Qed.

(** One step towards [solely]. *)
Ltac solely_step :=
  match goal with
  | |- forall _, _ => intros ?
  | |- True => exact I
  | |- _ <> _ => discriminate
  | |- _ /\ _ => split
  | |- solely _ (bind _ _) => apply solely_bind
  | |- solely _ (match ?x with _ => _ end) => destruct x
  | |- solely _ _ => progress cbn
  | |- solely _ ?p => match p with context [match ?x with _ => _ end] => destruct x end
  | |- looks _ _ => progress cbn
  | |- spares _ _ => progress cbn
  | |- solely _ ?p => let h := head_of p in unfold h; cbv zeta
  end.
Ltac solely := repeat solely_step.

Section answers.
Context `{Casing}.
Variable sha256_hex : string -> string.
Variable mode : coll -> failing.
Variable genuine : string -> Claims -> Prop.
Variable s0 : World.
Abbreviation Inv := (Inv sha256_hex mode genuine s0).
Abbreviation csem := (csem mode genuine).
Abbreviation wp := (wp csem Inv Rely).
Abbreviation backed := (backed sha256_hex mode genuine (docs s0)).

Lemma holding_app t l l' : Forall (fun te => te.1 <> t) l -> holding t (l ++ l') = holding t l'.
Proof using Type.
  induction 1 as [|te l Ht _ IH]; [done|]. cbn. fold (holding t (l ++ l')). rewrite IH. unfold holding_step.
  destruct (Nat.eqb_spec te.1 t); [done|]. done.
Qed.

Lemma evs_others t l : Forall (fun te : nat * act => te.1 <> t) l -> Forall (fun te => te.1 <> t) (evs l).
Proof using Type. induction 1 as [|[t' [e|a r]] l Ht _ IH]; [constructor|by constructor|done]. Qed.

Lemma rely_holding t s s' : Rely t s s' -> holding t (evs (hist s')) = holding t (evs (hist s)).
Proof using Type. intros [(l & -> & Hl) _]. rewrite evs_app. apply holding_app. by apply evs_others. Qed.

Definition takes_out (e : event) : Prop := match e with Removed CSuperadmins _ _ => True | _ => False end.

Lemma holding_did t es s : Forall (fun e => ~ takes_out e) es -> holding t (evs (hist s)) = false ->
  holding t (evs (hist (did t es s))) = false.
Proof using Type.
  unfold did. revert s. induction es as [|e es IH]; intros s; [done|]. intros [He Hes]%Forall_cons Hs. cbn. apply IH; [done|].
  cbn. fold (holding t (evs (hist s))). rewrite Hs. unfold holding_step. cbn. rewrite Nat.eqb_refl. cbn.
  destruct e as [c d|c k d d'|c k d|c]; destruct c; cbn in *; try done; tauto.
Qed.

Lemma spared {X} (e : coll_eff X) w x es : sparing e -> msem mode e w x es -> Forall (fun e => ~ takes_out e) es.
Proof using Type.
  intros Hs Hm. assert (Hw : forall y, works e w y es -> Forall (fun e => ~ takes_out e) es).
  { intros y Hw. destruct e as [c d|c q|c q newest limit|c q u|c fresh u|c q|c q|c q|c q u|c q]; cbn [works sparing] in *.
    - destruct Hw as [(_ & _ & ->)|(_ & _ & ->)]; repeat constructor; auto.
    - by destruct Hw as [-> _].
    - by destruct Hw as [-> _].
    - destruct Hw as [(k & d & _ & _ & _ & ->)|(_ & _ & ->)]; repeat constructor; auto.
    - destruct Hw as [_ [(d & _ & ->)|(_ & ->)]]; repeat constructor; auto.
    - destruct Hw as [(k & d & _ & _ & _ & ->)|(_ & _ & ->)]; [apply Forall_singleton; destruct c; cbn; first [by intros []|intros _; exact (Hs eq_refl)]|constructor].
    - destruct Hw as (l & _ & _ & ->). apply Forall_map, Forall_forall. intros kd _. destruct c; cbn; first [by intros []|intros _; exact (Hs eq_refl)].
    - destruct Hw as [(k & d & _ & _ & _ & ->)|(_ & _ & ->)]; [apply Forall_singleton; destruct c; cbn; first [by intros []|intros _; exact (Hs eq_refl)]|constructor].
    - destruct Hw as [(k & d & _ & _ & _ & ->)|(_ & _ & ->)]; repeat constructor; auto.
    - destruct Hw as [_ ->]. case_match; repeat constructor; auto. }
  destruct Hm as [?|(msg & _ & _ & [->|(_ & y & ?)])]; [by eapply Hw|constructor|by eapply Hw].
Qed.

Lemma stored_cons c te l (d : doc c) : d ∈ stored (docs s0) c l -> d ∈ stored (docs s0) c (te :: l).
Proof using Type. unfold stored. rewrite !elem_of_app. cbn. rewrite elem_of_app. intros [?|?]; auto. Qed.

Lemma backed_lasting t a r : (forall u, a <> AskRevokeAdmin u) -> lasting (backed t a r).
Proof using Type.
  intros Ha l te. destruct a; destruct r; try done; try (by destruct (Ha user)).
  - intros (who & i & d & Hd & Hr). exists who, i, d. split; [by right|]. destruct Hr as (? & Hi & Hr).
    split; [done|]. split; [by apply stored_cons|done].
  - intros (d & Hd & Hr). exists d. split; [by right|done].
  - intros (k & old & new & Hd & Hr). exists k, old, new. split; [by right|done].
  - intros (d & Hp & Hd & Hg). exists d. split; [done|]. split; [done|].
    destruct Hg as [?|(t' & k & old & Hin & Hn)]; [by left|right]. exists t', k, old. split; [by right|done].
Qed.

Lemma backed_rely t a r s s' : Rely t s s' -> backed t a r (evs (hist s)) -> backed t a r (evs (hist s')).
Proof using Type.
  intros HR. assert (Ha : (exists u, a = AskRevokeAdmin u) \/ forall u, a <> AskRevokeAdmin u) by (destruct a; eauto; by right).
  destruct Ha as [[u ->]|Ha]; [|apply (rely_lasting _ t s s' (backed_lasting t a r Ha) HR)].
  cbn. intros Hh Hm. rewrite (rely_holding _ _ _ HR). auto.
Qed.

(** A finished task has not taken an administrator out without seeing another. *)
Definition settled (t : nat) (s : World) : Prop :=
  mode CSuperadmins = Reliable -> holding t (evs (hist s)) = false.

Lemma settled_rely t s s' : Rely t s s' -> settled t s -> settled t s'.
Proof using Type. intros HR Hs Hm. rewrite (rely_holding _ _ _ HR). auto. Qed.

(** Every task starts under a number of its own. *)
Lemma wp_begin {A} t s (p : CC A) (Q : A -> World -> Prop) :
  (forall s1, holding t (evs (hist s1)) = false -> wp t p s1 Q) -> wp t (let! _ := trigger CBegin in p) s Q.
Proof using Type.
  intros Hp s1 x s2 HR HI He. cbn in He. destruct He as [-> Hfresh]. split; [done|].
  split; [intros t' _; reflexivity|]. apply Hp.
  rewrite <- (app_nil_r (evs (hist s1))). rewrite holding_app; [done|]. by apply evs_others.
Qed.

Lemma wp_serve a p t s :
  (forall s1, holding t (evs (hist s1)) = false -> wp t p s1 (fun r s' => backed t a r (evs (hist s')) /\ settled t s')) ->
  wp t (serve a p) s (fun _ => settled t).
Proof using Type.
  intros Hp. apply wp_begin. intros s1 Hs1. apply wp_bind. eapply wp_mono; [by apply Hp|].
  intros r s3 [Hb Hset] s4 y s5 HR4 HI4 He. cbn in He. subst s5.
  destruct (said_ok sha256_hex mode genuine s0 t s4 a r HI4) as [HI5 HR5]; [by eapply backed_rely|].
  split; [exact HI5|]. split; [exact HR5|]. exact (settled_rely _ _ _ HR4 Hset).
Qed.

(** Whatever else happens, a program that takes no administrator out leaves its task settled. *)
Lemma wp_spares {A} t (p : CC A) s (Q : A -> World -> Prop) : solely spares p -> settled t s -> wp t p s Q ->
  wp t p s (fun a s' => Q a s' /\ settled t s').
Proof using Type.
  revert s. induction p as [a|X e k IH]; intros s; cbn; [done|]. intros [He Hk] Hs Hp s1 x s2 HR HI Hsem.
  destruct (Hp s1 x s2 HR HI Hsem) as (HI2 & HR2 & Hp2). split; [done|]. split; [done|]. apply IH; [done| |done].
  intros Hm. assert (Hs1 : holding t (evs (hist s1)) = false) by (rewrite (rely_holding _ _ _ HR); auto).
  destruct e; try (by cbn in Hsem; subst s2); try (by destruct Hsem; subst s2).
  destruct e as [X e|]; [|by cbn in Hsem; subst s2]. destruct Hsem as (es & Hw & ->).
  apply (holding_did t es s1); [|done]. by eapply spared.
Qed.

Lemma wp_serve_calm a p t s : solely spares p -> (forall s, wp t p s (fun r s' => backed t a r (evs (hist s')))) ->
  wp t (serve a p) s (fun _ => settled t).
Proof using Type. intros Hp Hw. apply wp_serve. intros s1 Hs. apply (wp_spares t p s1 _ Hp (fun _ => Hs) (Hw s1)). Qed.

Lemma wp_serve_other p t s : solely spares p -> (forall s, wp t p s (fun _ _ => True)) ->
  wp t (serve AskOther p) s (fun _ => settled t).
Proof using Type. intros Hp Hw. apply wp_serve_calm; [done|]. intros s1. eapply wp_mono; [apply Hw|done]. Qed.

(** ** Who asks *)
Lemma wp_caller api h t s (Q : string + Response -> World -> Prop) :
  (forall s1 u, proves genuine api h u -> Q (inl u) s1) -> (forall s1 n m, Q (inr (Reply n m)) s1) ->
  wp t (caller api h) s Q.
Proof using Type.
  intros Hq Hr. unfold caller, identify. destruct (bearer_token h) as [b|] eqn:Hb.
  - destruct (negb (jwt api)); [apply Hr|]. intros s1 c s2 HR HI He. cbn in He. destruct He as [-> Hg].
    split; [done|]. split; [intros t' _; reflexivity|]. cbn. destruct c as [c|]; [|apply Hr].
    destruct (String.eqb_spec (typ c) "session"); [|apply Hr]. cbn. apply Hq. unfold proves. rewrite Hb.
    exists c. by repeat split; try apply Hg.
  - cbn. unfold peer_only. destruct (negb (secret_eq _ _)) eqn:Hs; [apply Hr|].
    destruct (owner_header h) as [o|] eqn:Ho; [|apply Hr]. destruct (String.eqb _ _); [apply Hr|]. cbn. apply Hq.
    unfold proves. rewrite Hb. exists o. split; [done|]. split; [by apply negb_false_iff|done].
Qed.

Lemma wp_caller_db api h t s (Q : string + Response -> World -> Prop) :
  (forall s1 u, proves genuine api h u -> Q (inl u) s1) -> (forall s1 n m, Q (inr (Reply n m)) s1) ->
  wp t (caller_db api h) s Q.
Proof using Type.
  intros Hq Hr. apply wp_bind, wp_caller; [intros s1 u|apply Hr]. intros Hu. cbn.
  unfold directory. destruct (has_directory api); [by apply Hq|apply Hr].
Qed.

(** ** Invitations *)
Lemma wp_accept t s id u (Q : result AcceptInvite -> World -> Prop) :
  (forall r s1, (forall team, r = Ok (Joined team) -> exists i d,
      (t, Removed CInvites id d) ∈ evs (hist s1) /\ i_id d = id /\ i ∈ stored (docs s0) CInvites (evs (hist s1)) /\
      i_id i = id /\ eq_ignore_ascii_case (i_email i) (lower_trim u) = true /\ team = i_team i) -> Q r s1) ->
  wp t (dir (Directory.accept_invite id u)) s Q.
Proof using Type.
  intros HQ. unfold Directory.accept_invite. apply wp_dir_res. unfold invite.
  apply wp_dir_bind, wp_clock. intros s1 z _ _. apply wp_ask. intros s2 _ HI. split; [done|]. intros x es Hm.
  assert (Hi : forall i, mongo x = Ok (Some i) -> i ∈ stored (docs s0) CInvites (evs (hist (did t es s2))) /\ i_id i = id).
  { intros i. destruct Hm as [[-> [(k & d & Hk & Hq & ->)|(_ & ->)]]|(msg & -> & _)]; try done. intros [= <-].
    apply andb_true_iff in Hq as [Hq%String.eqb_eq _]. split; [|done]. by apply (inv_invites _ _ _ _ _ HI k). }
  destruct (mongo x) as [[i|]|]; [|by apply HQ|by apply HQ]. destruct (Hi i eq_refl) as [Hst Hid].
  destruct (negb _) eqn:Heq; [by apply HQ|]. apply negb_false_iff in Heq.
  apply wp_dir_res, wp_ask. intros s3 HR3 HI3. split; [by intros ? _|]. intros y es3 Hm3.
  apply (rely_lasting (fun l => i ∈ stored (docs s0) CInvites l) t _ s3) in Hst;
    [|intros l te; apply stored_cons|done].
  assert (Hsp : mongo y = Ok true -> exists d, (t, Removed CInvites id d) ∈ evs (hist (did t es3 s3)) /\ i_id d = id).
  { destruct Hm3 as [[(k & d & Hk & Hq & -> & ->)|(_ & -> & ->)]|(msg & -> & _)]; try done. intros _.
    apply String.eqb_eq in Hq. exists d. split; [|done].
    rewrite <- (wf_ids _ (inv_wf _ _ _ _ _ HI3) _ _ _ Hk), Hq. cbn. left. }
  assert (Hst3 : i ∈ stored (docs s0) CInvites (evs (hist (did t es3 s3)))).
  { rewrite did_hist. apply (lasting_app (fun l => i ∈ stored (docs s0) CInvites l)); [intros l te; apply stored_cons|done]. }
  destruct (mongo y) as [[]|]; [|by apply HQ|by apply HQ]. destruct (Hsp eq_refl) as (d & Hd & Hdi). cbn [negb].
  apply wp_dir_res. eapply wp_mono;
    [apply (wp_lasting _ _ _ _ t _ _ (fun l => (t, Removed CInvites id d) ∈ l /\ i ∈ stored (docs s0) CInvites l))|].
  - intros l te [? ?]. split; [by right|by apply stored_cons].
  - apply tame_lift, add_member_tame.
  - done.
  - intros r s4 [Hd4 Hi4]. destruct r as [[]|]; cbn; apply HQ; try done; intros team [= <-]; by exists i, d.
Qed.

Lemma spawn_tame api u : tame (spawn_keys_changed api u).
Proof using Type. tame. Qed.
Lemma reconcile_tame api u s : tame (reconcile_member api u s).
Proof using Type. tame. Qed.

Lemma wp_accept_handler api h tok t s :
  wp t (Console.accept_invite sha256_hex api h tok) s (fun r s' => backed t (AskAccept api h tok) r (evs (hist s'))).
Proof using Type.
  apply wp_bind, wp_caller_db; [|done]. intros s1 u Hu.
  apply wp_bind, wp_accept. intros r s2 Hr. destruct r as [[team| | |]|]; try done.
  destruct (Hr team eq_refl) as (i & d & Hrest).
  assert (Hb : backed t (AskAccept api h tok) (JoinedTeam team) (evs (hist s2))).
  { exists u, i, d. by destruct Hrest as (?&?&?&?&?&->). }
  pose proof (backed_lasting t (AskAccept api h tok) (JoinedTeam team) ltac:(done)) as Hlast.
  apply wp_bind. eapply wp_mono; [by apply (wp_lasting _ _ _ _ t _ _ _ Hlast (spawn_tame api u))|]. intros [] s3 Hb3.
  apply wp_bind. eapply wp_mono; [by apply (wp_lasting _ _ _ _ t _ _ _ Hlast (reconcile_tame api u team))|].
  intros [] s4 Hb4. exact Hb4.
Qed.
(** ** Sign-in links and CLI logins *)
Lemma wp_redeem_handler api h tok t s :
  wp t (redeem_signin_link sha256_hex api h tok) s (fun r s' => backed t (AskRedeem tok) r (evs (hist s'))).
Proof using Type.
  unfold redeem_signin_link, peer_db, peer_only, directory.
  destruct (negb _); [done|]. destruct (owner_header h) as [o|]; [|done]. destruct (String.eqb _ _); [done|].
  destruct (has_directory api); [|done]. cbn [or_reply bind].
  apply wp_bind, wp_dir_bind, wp_clock. intros s1 z _ _. apply wp_dir_res, wp_ask. intros s2 _ HI.
  split; [by intros ? _|]. intros x es Hm.
  assert (Hx : forall l, mongo x = Ok (Some l) ->
    (t, Removed CSignins (sha256_hex tok) l) ∈ evs (hist (did t es s2)) /\ si_id l = sha256_hex tok).
  { intros l. destruct Hm as [[(k & d & Hk & Hq & -> & ->)|(_ & -> & ->)]|(msg & -> & _)]; try done. intros [= <-].
    apply andb_true_iff in Hq as [Hq%String.eqb_eq _]. split; [|done].
    rewrite <- (wf_ids _ (inv_wf _ _ _ _ _ HI) _ _ _ Hk), Hq. cbn. left. }
  destruct (mongo x) as [[l|]|]; [|done|done]. destruct (Hx l eq_refl) as [? ?]. cbn. by exists l.
Qed.

Lemma wp_approve t s c tok e (Q : result bool -> World -> Prop) :
  (forall r s1, (r = Ok true -> exists k old new, (t, Changed CCliLogins k old new) ∈ evs (hist s1) /\ code old = c /\
     token old = None /\ is_some (token new) = true) -> Q r s1) ->
  wp t (dir (approve_cli_login c tok e)) s Q.
Proof using Type.
  intros HQ. apply wp_dir_bind, wp_clock. intros s1 z _ _. apply wp_dir_res, wp_ask. intros s2 _ HI.
  split.
  { intros d Hd. split; [done|]. apply andb_true_iff in Hd as [_ Hd]. split; [by destruct (token d)|done]. }
  intros x es Hm.
  assert (Hx : forall l, mongo x = Ok (Some l) -> (t, Changed CCliLogins c l (with_token tok e l)) ∈ evs (hist (did t es s2)) /\
    code l = c /\ token l = None).
  { intros l. destruct Hm as [[(k & d & Hk & Hq & -> & ->)|(_ & -> & ->)]|(msg & -> & _)]; try done. intros [= <-].
    unfold pending in Hq. apply andb_true_iff in Hq as [Hq Htok]. apply andb_true_iff in Hq as [Hq%String.eqb_eq _].
    split; [|split; [done|by destruct (token d)]].
    rewrite <- (wf_ids _ (inv_wf _ _ _ _ _ HI) _ _ _ Hk), Hq. cbn. left. }
  destruct (mongo x) as [[l|]|]; cbn; apply HQ; try done. intros _. destruct (Hx l eq_refl) as (?&?&?).
  by exists c, l, (with_token tok e l).
Qed.

Lemma tame_mint e n u : tame (mint_cli e n u).
Proof using Type. tame. Qed.

Lemma wp_identify api h t s (Q : Identity + Response -> World -> Prop) :
  (forall s1 u, Q (inl u) s1) -> (forall s1 n m, Q (inr (Reply n m)) s1) -> wp t (identify api h) s Q.
Proof using Type.
  intros Hq Hr. unfold identify. destruct (bearer_token h) as [b|].
  - destruct (negb (jwt api)); [apply Hr|]. intros s1 c s2 HR HI He. cbn in He. destruct He as [-> _].
    split; [done|]. split; [intros t' _; reflexivity|]. cbn. destruct c as [c|]; [|apply Hr].
    destruct (String.eqb _ _); [apply Hq|apply Hr].
  - cbn. unfold peer_only. destruct (negb _); [apply Hr|]. destruct (owner_header h); [|apply Hr].
    destruct (String.eqb _ _); [apply Hr|apply Hq].
Qed.

(** A step whose answer does not matter. *)
Lemma wp_skip {A} t (p : CC A) s (Q : A -> World -> Prop) : tame p -> (forall a s', Q a s') -> wp t p s Q.
Proof using Type. intros Hp HQ. eapply wp_mono; [by apply wp_tame|]. auto. Qed.

Lemma wp_approve_handler api h c t s :
  wp t (cli_approve api h c) s (fun r s' => backed t (AskApprove c) r (evs (hist s'))).
Proof using Type.
  apply wp_bind, wp_identify; [|done]. intros s1 who. destruct (id_username who) as [u|]; [|done].
  destruct (String.eqb _ _); [done|]. destruct (negb (jwt api)); [done|]. unfold directory.
  destruct (has_directory api); [|done].
  apply wp_bind, wp_skip; [tame|]. intros p s2. destruct p as [[p|]|]; [|done|done].
  apply wp_bind, wp_skip; [apply tame_mint|]. intros m s3. destruct m as [[tok [j e]]|]; [|done].
  apply wp_bind, wp_skip; [tame|]. intros z s4.
  apply wp_bind, wp_skip; [tame|]. intros r s5. destruct r as [[]|]; [|done|done].
  apply wp_bind, wp_approve. intros r s6 Hr.
  assert (Hno : wp t (let! _ := dir (forget_credential j) in Ret (Reply 409 "that code was already used")) s6
    (fun r s' => backed t (AskApprove c) r (evs (hist s')))).
  { apply wp_bind, wp_skip; [tame|done]. }
  destruct r as [[]|]; [|exact Hno|exact Hno]. exact (Hr eq_refl).
Qed.

Lemma wp_poll_handler api p t s :
  wp t (cli_token api p) s (fun r s' => backed t (AskPoll p) r (evs (hist s'))).
Proof using Type.
  unfold cli_token. destruct (String.eqb _ _); [done|]. unfold directory. destruct (has_directory api); [|done].
  apply wp_bind, wp_dir_bind, wp_clock. intros s1 z _ _. apply wp_dir_res, wp_ask. intros s2 _ HI.
  split; [by intros ? _|]. intros x es Hm.
  assert (Hx : forall l, mongo x = Ok (Some l) -> poll l = p /\
    (token l = None \/ granted (docs s0) (evs (hist (did t es s2))) l)).
  { intros l. destruct Hm as [[(k & d & Hk & Hq & -> & ->)|(_ & -> & ->)]|(msg & -> & _)]; try done. intros [= <-].
    unfold live in Hq. apply andb_true_iff in Hq as [Hq _]. apply andb_true_iff in Hq as [Hq%String.eqb_eq _].
    split; [done|]. destruct (inv_granted _ _ _ _ _ HI k d Hk) as [?|[?|(t' & k' & old & Hin & Hn)]]; [by left|by right; left|].
    right. right. exists t', k', old. split; [by right|done]. }
  destruct (mongo x) as [[l|]|]; [| |done].
  - destruct (Hx l eq_refl) as [? Hg]. cbn. destruct (token l) as [tok|] eqn:Ht; [|done]. cbn.
    destruct Hg; [congruence|]. by exists l.
  - apply wp_ask. intros s3 _ HI3. split; [done|]. intros y es3 Hm3.
    assert (Hy : forall l, mongo y = Ok (Some l) -> poll l = p /\
      (token l = None \/ granted (docs s0) (evs (hist (did t es3 s3))) l)).
    { intros l. destruct Hm3 as [[-> [(k & d & Hk & Hq & ->)|(_ & ->)]]|(msg & -> & _)]; try done. intros [= <-].
      unfold live in Hq. apply andb_true_iff in Hq as [Hq%String.eqb_eq _]. split; [done|].
      exact (inv_granted _ _ _ _ _ HI3 k d Hk). }
    destruct (mongo y) as [[l|]|]; [|done|done]. destruct (Hy l eq_refl) as [? Hg]. cbn.
    destruct (token l) as [tok|] eqn:Ht; [|done]. cbn. destruct Hg; [congruence|]. by exists l.
Qed.
End answers.

(** * The entry points of the directory and the console *)

Section revoking.
Context `{Casing}.
Variable sha256_hex : string -> string.
Variable mode : coll -> failing.
Variable genuine : string -> Claims -> Prop.
Variable s0 : World.
Abbreviation Inv := (Inv sha256_hex mode genuine s0).
Abbreviation csem := (csem mode genuine).
Abbreviation wp := (wp csem Inv Rely).
Abbreviation backed := (backed sha256_hex mode genuine (docs s0)).

(** Reading leaves the history as the others left it. *)
Lemma wp_reads {A} t (p : CC A) s : solely looks p ->
  wp t p s (fun _ s' => holding t (evs (hist s')) = holding t (evs (hist s))).
Proof using Type.
  intros Hp. enough (Hg : forall s1, holding t (evs (hist s1)) = holding t (evs (hist s)) ->
    wp t p s1 (fun _ s' => holding t (evs (hist s')) = holding t (evs (hist s)))) by by apply Hg.
  induction p as [a|X e k IH]; intros s1 Hs1; cbn; [done|]. destruct Hp as [He Hk]. intros s2 x s3 HR HI Hs.
  assert (Hsame : s3 = s2 -> Inv s3 /\ (forall t', t' <> t -> Rely t' s2 s3) /\
    wp t (k x) s3 (fun _ s' => holding t (evs (hist s')) = holding t (evs (hist s)))).
  { intros ->. split; [done|]. split; [done|]. apply IH; [done|]. by rewrite (rely_holding _ _ _ HR). }
  destruct e; try (by apply Hsame); try (by apply Hsame, Hs); try done.
  apply Hsame. destruct e as [X e|]; [|exact Hs]. destruct Hs as (es & Hm & ->).
  enough (Hes : es = []) by by subst es.
  destruct e; try done; by destruct Hm as [[-> _]|(msg & _ & _ & [->|(_ & y & -> & _)])].
Qed.

Lemma reads_require api h : solely looks (require_superadmin api h).
Proof using Type.
  assert (Hc : solely looks (caller_db api h)).
  { unfold caller_db, caller, identify, or_end, peer_only, verify. destruct (bearer_token h); cbn; solely. }
  apply solely_bind; [exact Hc|]. solely.
Qed.

(** Not settled when the roster's collection can fail. *)
Lemma remove_superadmin_any t s user : wp t (dir (Directory.remove_superadmin user)) s (fun _ _ => True).
Proof using Type.
  apply wp_dir_res, wp_ask. intros s1 _ _. split; [by intros ? _|]. intros x es _. destruct (mongo x) as [[row|]|]; try exact I.
  apply wp_dir_res, wp_ask. intros s2 _ _. split; [exact I|]. intros y es2 _. destruct (mongo y) as [n|]; try exact I.
  destruct (n =? 0); [|exact I]. apply wp_dir_res, wp_dir_bind, wp_request. intros s3 _ _. split; [exact I|].
  intros [[]|[]] es3 _; exact I.
Qed.

Lemma remove_superadmin_settled t s user : holding t (evs (hist s)) = false ->
  wp t (dir (Directory.remove_superadmin user)) s (fun _ => settled mode t).
Proof using Type.
  intros Hs. assert (Hm : mode CSuperadmins = Reliable \/ mode CSuperadmins <> Reliable) by (destruct (mode CSuperadmins); auto).
  destruct Hm as [Hm|Hm].
  2: { eapply wp_mono; [apply remove_superadmin_any|]. by intros a s' _ ?. }
  assert (Hw : forall X (e : coll_eff X) w x es, coll_of e = CSuperadmins -> msem mode e w x es -> works e w x es).
  { intros X e w x es He [?|(msg & _ & Hmode & _)]; [done|]. by rewrite He in Hmode. }
  unfold settled.
  apply wp_dir_res, wp_ask. intros s1 HR1 _. split; [by intros ? _|]. intros x es Hx.
  rewrite <- (rely_holding _ _ _ HR1) in Hs.
  apply Hw in Hx as [(k & d & _ & _ & -> & ->)|(_ & -> & ->)]; [|by cbn|done]. cbn [mongo].
  apply wp_dir_res, wp_ask. intros s2 HR2 _. split; [done|]. intros y es2 [-> ->]%Hw; [|done]. cbn [mongo].
  destruct (Z.eqb_spec (Z.of_nat (length (selected (docs s2) (c := CSuperadmins) (fun _ => true)))) 0) as [->|Hn].
  - apply wp_dir_res, wp_dir_bind, wp_request. intros s3 _ _. split; [done|]. intros z es3 Hz.
    apply Hw in Hz as [(-> & _ & ->)|(-> & _ & ->)]; [| |done]; cbn; unfold holding_step; cbn; by rewrite Nat.eqb_refl.
  - destruct (Z.ltb_spec 0 (Z.of_nat (length (selected (docs s2) (c := CSuperadmins) (fun _ => true))))); [|lia].
    cbn. intros _. unfold holding_step. cbn. by rewrite Nat.eqb_refl.
Qed.

Lemma wp_revoke_admin_handler api h user note t s : holding t (evs (hist s)) = false ->
  wp t (Console.remove_superadmin api h user note) s
    (fun r s' => backed t (AskRevokeAdmin user) r (evs (hist s')) /\ settled mode t s').
Proof using Type.
  intros Hs. change (fun r s' => backed t (AskRevokeAdmin user) r (evs (hist s')) /\ settled mode t s')
    with (fun (_ : Response) s' => settled mode t s' /\ settled mode t s').
  enough (Hw : wp t (Console.remove_superadmin api h user note) s (fun _ => settled mode t))
    by (eapply wp_mono; [exact Hw|by intros]).
  assert (Hset : forall s', holding t (evs (hist s')) = false -> settled mode t s') by by intros ? ? ?.
  apply wp_bind. eapply wp_mono; [apply wp_reads, reads_require|].
  intros [who|resp] s1 Hr1; [|apply Hset; by rewrite Hr1].
  apply wp_bind. destruct (require_note note) as [nt|rp]; cbn [wp]; [|apply Hset; by rewrite Hr1].
  case_match; [apply Hset; by rewrite Hr1|]. apply wp_bind. eapply wp_mono; [apply wp_reads; cbn; solely|].
  intros [admins|er] s2 Hr2; [|apply Hset; by rewrite Hr2, Hr1]. case_match; [apply Hset; by rewrite Hr2, Hr1|].
  apply wp_bind. eapply wp_mono; [apply wp_reads; cbn; solely|].
  intros [[]|resp] s3 Hr3; [|apply Hset; by rewrite Hr3, Hr2, Hr1].
  apply wp_bind. eapply wp_mono; [apply remove_superadmin_settled; by rewrite Hr3, Hr2, Hr1|].
  intros r s4 Hr4. exact Hr4.
Qed.
End revoking.

(** ** Handlers whose every request is fine anywhere *)
Section handlers.
Context `{Casing}.
Variable dollar : nat -> nat -> nat.
Variable sha256_hex : string -> string.
Variable ssh_fingerprint : string -> result string.
Variable gpg_key : string -> option (list string * option string).
Variable public_of_private : string -> option string.
Variable token_digest : string -> string.
Variable api : Api.

Lemma draw_code_tame n : tame (draw_code n).
Proof. induction n as [|n IH]; [exact I|]. cbn [draw_code]. tame; try exact IH. Qed.

Lemma write_audit_tame b a g r o : tame (write_audit b a g r o).
Proof. tame. Qed.
#[local] Hint Resolve draw_code_tame write_audit_tame : tame.

Lemma sweep_logins_tame b found done_ : tame (sweep_logins sha256_hex b found done_).
Proof. revert done_. induction found as [|c rest IH]; intros d; [exact I|]. cbn [sweep_logins]. tame; try apply IH. Qed.

Lemma members_keys_tame ms sets platform : tame (members_keys public_of_private ms sets platform).
Proof.
  revert sets platform. induction ms as [|m ms IH]; intros sets platform; [exact I|]. cbn [members_keys]. tame; try apply IH.
Qed.
#[local] Hint Resolve sweep_logins_tame members_keys_tame : tame.

(** The requests that only need to be let through. *)
Inductive plain : CC Response -> Prop :=
| plain_list_teams h : plain (list_teams api h)
| plain_get_team h s : plain (get_team api h s)
| plain_profile s : plain (team_profile api s)
| plain_update_team h s n d p : plain (Console.update_team api h s n d p)
| plain_create_invite h s e r : plain (Console.create_invite sha256_hex api h s e r)
| plain_revoke_invite h s id : plain (Console.revoke_invite api h s id)
| plain_preview_invite h tok : plain (preview_invite sha256_hex api h tok)
| plain_set_role h s e r : plain (Console.set_role dollar api h s e r)
| plain_remove_member h s e : plain (Console.remove_member api h s e)
| plain_pause h s e : plain (pause_member api h s e)
| plain_unpause h s e : plain (unpause_member api h s e)
| plain_upsert_user h e n : plain (Console.upsert_user api h e n)
| plain_create_signin h e : plain (create_signin_link sha256_hex api h e)
| plain_add_superadmin h u n : plain (Console.add_superadmin api h u n)
| plain_list_superadmins h : plain (list_superadmins api h)
| plain_create_token h o n : plain (create_token api token_digest h o n)
| plain_list_tokens h o : plain (list_tokens api h o)
| plain_revoke_token h id : plain (revoke_token api h id)
| plain_revoke_cli h id : plain (revoke_cli_token api h id)
| plain_add_key h o n k sg : plain (add_key api ssh_fingerprint gpg_key h o n k sg)
| plain_list_keys h k : plain (list_keys api h k)
| plain_remove_key h id : plain (remove_key api h id)
| plain_cli_code d : plain (cli_code api d)
| plain_pending_code h c : plain (cli_pending_code api h c)
| plain_list_cli h o : plain (list_cli_tokens api h o)
| plain_bench h d : plain (revoke_bench_logins sha256_hex api h d)
| plain_add_passkey h i k c t n : plain (Credentials.add_passkey api h i k c t n)
| plain_list_passkeys h : plain (list_passkeys api h)
| plain_remove_passkey h id : plain (remove_passkey api h id)
| plain_lookup_passkey h id : plain (lookup_passkey api h id)
| plain_passkey_used h id c : plain (passkey_used api h id c).

Lemma plain_tame p : plain p -> tame p.
Proof. destruct 1; tame. Qed.
End handlers.

(** ** The entry points *)
Section entries.
Context `{Casing}.
Variable dollar : nat -> nat -> nat.
Variable sha256_hex : string -> string.
Variable ssh_fingerprint : string -> result string.
Variable gpg_key : string -> option (list string * option string).
Variable public_of_private : string -> option string.
Variable token_digest : string -> string.

(** What runs in the background: the sweeps, the bootstrap of the roster, the migrations, the
    placing of people and teams that have no region. *)
Inductive job : CC unit -> Prop :=
| job_sweep : job (let! _ := dir sweep_expired in Ret ())
| job_roster emails : job (let! _ := dir (ensure_superadmins emails 0) in Ret ())
| job_keys : job (let! r := dir migrate_keys_to_people in
    match r with Ok _ => let! _ := dir mark_keys_migrated in Ret () | Err _ => Ret () end)
| job_fingerprints : job (let! _ := dir lowercase_signing_fingerprints_once in Ret ())
| job_place_user e region : job (let! _ := dir (bind_user_region e region) in Ret ())
| job_place_team s region : job (let! _ := dir (bind_region s region) in Ret ())
| job_authorized_keys owner : job (let! _ := authorized_keys_for public_of_private owner in Ret ())
| job_identity owner : job (let! _ := git_identity_for owner in Ret ()).

Lemma job_tame p : job p -> tame p.
Proof using Type. pose proof members_keys_tame. destruct 1; tame; auto. Qed.

Inductive entry (t : nat) : CC unit -> Prop :=
| entry_plain api p :
    plain dollar sha256_hex ssh_fingerprint gpg_key token_digest api p -> entry t (serve AskOther p)
| entry_create_team api h s n r : entry t (serve AskOther (create_team api h s n r))
| entry_claim_username api h n : entry t (serve AskOther (Console.claim_username api h n))
| entry_delete_team api h s : entry t (serve AskOther (Console.delete_team api h s))
| entry_accept api h tok : entry t (serve (AskAccept api h tok) (Console.accept_invite sha256_hex api h tok))
| entry_redeem api h tok : entry t (serve (AskRedeem tok) (redeem_signin_link sha256_hex api h tok))
| entry_approve api h c : entry t (serve (AskApprove c) (cli_approve api h c))
| entry_poll api p : entry t (serve (AskPoll p) (cli_token api p))
| entry_revoke_admin api h u n : entry t (serve (AskRevokeAdmin u) (Console.remove_superadmin api h u n))
| entry_job p : job p -> entry t (let! _ := trigger CBegin in p).

Variable mode : coll -> failing.
Variable genuine : string -> Claims -> Prop.
Variable s0 : World.
Abbreviation Inv := (Inv sha256_hex mode genuine s0).
Abbreviation csem := (csem mode genuine).
Abbreviation wp := (wp csem Inv Rely).

Hypothesis people_clean : mode CUsers <> Torn.
Hypothesis teams_clean : mode CTeams <> Torn.

Lemma wp_create_team api h s n r t s1 : wp t (create_team api h s n r) s1 (fun _ _ => True).
Proof using teams_clean.
  apply wp_bind, wp_skip; [tame|]. intros [u|resp] s2; [|exact I].
  cbv zeta. case_match; [exact I|]. case_match; [exact I|].
  apply wp_bind, wp_skip; [tame|]. intros [[]|] s3; try exact I.
  apply wp_bind. eapply wp_mono; [by apply wp_create|]. intros [[]|] s4 _; exact I.
Qed.

Lemma wp_claim_username_handler api h n t s : wp t (Console.claim_username api h n) s (fun _ _ => True).
Proof using people_clean.
  apply wp_bind, wp_skip; [tame|]. intros [u|resp] s2; [|exact I].
  apply wp_bind. eapply wp_mono; [by apply wp_claim_username|]. intros [[]|] s4 _; try exact I.
  apply wp_tame. tame.
Qed.

Lemma wp_delete_team_handler api h sl t s : wp t (Console.delete_team api h sl) s (fun _ _ => True).
Proof using Type.
  apply wp_bind, wp_skip; [tame|]. intros [[[u x] r]|resp] s2; [|exact I].
  apply wp_bind. eapply wp_mono; [by apply wp_delete_team|]. intros a s4 _; exact I.
Qed.

(** Every entry point, to its end. *)
Lemma entry_ends t p s : entry t p -> Inv s -> wp t p s (fun _ => settled mode t).
Proof using people_clean teams_clean.
  intros Hp _. destruct Hp as [api p Hp|api h sl n r|api h n|api h sl|api h tok|api h tok|api h c|api p|api h u n|p Hj].
  - apply wp_serve_other; [by eapply tame_spares, plain_tame|]. intros s'. by eapply wp_tame, plain_tame.
  - apply wp_serve_other; [unfold create_team, create; solely|]. intros s'. apply wp_create_team.
  - apply wp_serve_other; [unfold Console.claim_username, Directory.claim_username; solely|]. intros s'. apply wp_claim_username_handler.
  - apply wp_serve_other; [unfold Console.delete_team, Directory.delete_team; solely|]. intros s'. apply wp_delete_team_handler.
  - apply wp_serve_calm; [apply tame_spares; tame|]. intros s1. apply wp_accept_handler.
  - apply wp_serve_calm; [apply tame_spares; tame|]. intros s1. apply wp_redeem_handler.
  - apply wp_serve_calm; [apply tame_spares; tame|]. intros s1. apply wp_approve_handler.
  - apply wp_serve_calm; [apply tame_spares; tame|]. intros s1. apply wp_poll_handler.
  - apply wp_serve. intros s1 Hh. by apply wp_revoke_admin_handler.
  - apply wp_begin. intros s1 Hs. eapply wp_mono;
      [apply (wp_spares _ _ _ _ t p s1 (fun _ _ => True) (tame_spares p (job_tame p Hj)) (fun _ => Hs))|by intros ? ? [_ ?]].
    by apply wp_tame, job_tame.
Qed.

(** The invariant, wherever any interleaving of the entry points leads; and whoever has finished is
    settled. *)
Theorem reached_ok s l : Inv s0 -> rtc (pstep csem entry) (s0, []) (s, l) ->
  Inv s /\ forall t a, (t, Ret a) ∈ l -> settled mode t s.
Proof using people_clean teams_clean.
  intros HI. apply (reach_ends csem entry Inv Rely); [|by apply entry_ends|done].
  intros t a b. apply settled_rely.
Qed.

Corollary reached_inv s l : Inv s0 -> rtc (pstep csem entry) (s0, []) (s, l) -> Inv s.
Proof using people_clean teams_clean. intros HI Hr. by destruct (reached_ok s l HI Hr). Qed.

(** Only tasks that have started have done anything. *)
Lemma sem_hist t X (e : console_eff X) s x s' : csem t X e s x s' ->
  exists l, hist s' = (l ++ hist s)%list /\ Forall (fun ta => ta.1 = t) l.
Proof using Type.
  intros He. assert (Hsame : s' = s -> exists l, hist s' = (l ++ hist s)%list /\ Forall (fun ta => ta.1 = t) l).
  { intros ->. exists []. by split. }
  destruct e; try (by apply Hsame); try (apply Hsame, He).
  2: { cbn in He. subst s'. exists [(t, Said a r)]. split; [done|]. by repeat constructor. }
  destruct e as [X e|]; [|by apply Hsame]. destruct He as (es & _ & ->). clear Hsame.
  revert s. induction es as [|ev es IH]; intros s; [by exists []|].
  destruct (IH (step1 t s ev)) as (l & Hl & HF). exists (l ++ [(t, Did ev)])%list.
  change (did t (ev :: es) s) with (did t es (step1 t s ev)). rewrite Hl, <- app_assoc. split; [done|].
  apply Forall_app. split; [done|]. by repeat constructor.
Qed.

Lemma reached_tasks s l : hist s0 = [] -> rtc (pstep csem entry) (s0, []) (s, l) -> forall ta, ta ∈ hist s -> ta.1 ∈ l.*1.
Proof using Type.
  intros H0 Hr. refine (rtc_ind_r (fun c => forall ta, ta ∈ hist c.1 -> ta.1 ∈ c.2.*1) (s0, []) _ _ _ Hr); cbn [fst snd].
  - intros ta Hta. rewrite H0 in Hta. by apply elem_of_nil in Hta.
  - intros c c' _ Hs IH. destruct Hs as [s1 s2 l1 l2 t X e k x He|s1 l1 t p _ _]; cbn [fst snd] in *; intros ta Hta.
    + destruct (sem_hist _ _ _ _ _ _ He) as (new & Hn & HF). rewrite Hn in Hta. rewrite fmap_app, fmap_cons in *. cbn [fst] in *.
      apply elem_of_app in Hta as [Hta|Hta]; [|by apply IH].
      rewrite Forall_forall in HF. rewrite (HF ta Hta). apply elem_of_app. right. left.
    + rewrite fmap_cons. right. by apply IH.
Qed.
End entries.
