(* ===== verification/DirProps.v ===== *)
(** * DirProps: what the directory and the console promise in every interleaving

    The invariant of [DirWorld], read off: one holder for a handle, one admission per invitation, one
    session per link, one token per CLI code, regions and handles that stay, and a roster that is
    never empty once everything asked has been answered. *)

From S2P Require Import Prelude Text Names Prog People Mongo Directory Console Credentials DirWorld DirRules.
From S2P Require Import DirSafe.
Local Open Scope string_scope.
Local Open Scope Z_scope.

(** The library code a server of the console runs with. *)
Record Libs := mkLibs {
  l_dollar : nat -> nat -> nat;
  l_sha256 : string -> string;
  l_ssh : string -> result string;
  l_gpg : string -> option (list string * option string);
  l_public : string -> option string;
  l_digest : string -> string;
}.

Section props.
Context `{Casing}.
Variable L : Libs.
Variable mode : coll -> failing.
Variable genuine : string -> Claims -> Prop.
Variable s0 : World.

(** A history from a directory in order, with nothing done yet. *)
Definition reached (s : World) (l : list (nat * CC unit)) : Prop :=
  Wf s0 /\ hist s0 = [] /\
  rtc (pstep (csem mode genuine) (entry (l_dollar L) (l_sha256 L) (l_ssh L) (l_gpg L) (l_public L) (l_digest L)))
    (s0, []) (s, l).

Abbreviation sha := (l_sha256 L).
Abbreviation Inv := (Inv sha mode genuine s0).

Lemma Inv_start : Wf s0 -> hist s0 = [] -> Inv s0.
Proof using Type.
  intros HW H0. split; rewrite ?H0.
  - exact HW.
  - by intros h t.
  - split; [intros k u Hu; exists u; split; [done|split; [by right|by right]]|].
    intros k x Hx. left. exists x. split; [done|by right].
  - intros c P. unfold stored, removals. reflexivity.
  - intros k d Hd. unfold stored. cbn. apply list_elem_of_In, in_map_iff. exists (k, d). split; [done|].
    by apply list_elem_of_In, elem_of_map_to_list.
  - intros P. unfold approvals, stored. change (count (fun d => P (tags CCliLogins d) && is_none (token d)) (all_docs CCliLogins (docs s0)) <=
      count (fun d => P (tags CCliLogins d)) (all_docs CCliLogins (docs s0)))%nat.
    induction (all_docs CCliLogins (docs s0)) as [|d ds IH]; [done|]. rewrite !count_cons.
    destruct (P (tags CCliLogins d)), (is_none (token d)); cbn [andb]; lia.
  - intros k d Hd. right. left. apply list_elem_of_In, in_map_iff. exists (k, d). split; [done|].
    by apply list_elem_of_In, elem_of_map_to_list.
  - by left.
  - done.
Qed.

Hypothesis people_clean : mode CUsers <> Torn.
Hypothesis teams_clean : mode CTeams <> Torn.

Lemma reached_Inv s l : reached s l -> Inv s.
Proof using people_clean teams_clean.
  intros (HW & H0 & Hr). by eapply reached_inv; [..|exact Hr]; [| |apply Inv_start].
Qed.

(** Answers that still stand on what they stood on. *)
Definition durable (a : asked) : bool := match a with AskRevokeAdmin _ => false | _ => true end.

Lemma answer_backed s t a r : Inv s -> (t, Said a r) ∈ hist s -> durable a = true ->
  backed sha mode genuine (docs s0) t a r (evs (hist s)).
Proof using Type.
  intros HI Hin Hd. revert Hin. assert (Ha : forall u, a <> AskRevokeAdmin u) by (intros u ->; done). clear Hd.
  pose proof (inv_backed _ _ _ _ _ HI) as Hb. induction (hist s) as [|[t' x] l IH]; [by intros ?%elem_of_nil|].
  intros [Heq|Hin]%elem_of_cons.
  - injection Heq as <- <-. cbn. by destruct Hb.
  - destruct x as [e|a' r']; cbn in *.
    + apply (backed_lasting sha mode genuine s0 t a r Ha). by apply IH.
    + apply IH; [|done]. by destruct Hb.
Qed.

Lemma two_count {A B} (f : A -> list B) (P : B -> bool) l x y a b : x ∈ l -> y ∈ l -> x <> y ->
  a ∈ f x -> b ∈ f y -> P a = true -> P b = true -> (2 <= count P (concat (map f l)))%nat.
Proof using Type.
  intros Hx Hy Hn Ha Hb HPa HPb. induction l as [|z l IH]; [by apply elem_of_nil in Hx|].
  cbn [map concat]. rewrite count_app.
  assert (Hin : forall v c, v ∈ l -> c ∈ f v -> P c = true -> (1 <= count P (concat (map f l)))%nat).
  { intros v c Hv Hc HPc. apply (count_pos P c); [|done]. apply list_elem_of_In, in_concat. exists (f v).
    split; [apply in_map; by apply list_elem_of_In|by apply list_elem_of_In]. }
  apply elem_of_cons in Hx as [->|Hx]; apply elem_of_cons in Hy as [->|Hy]; [done| | |].
  - pose proof (count_pos P a (f z) Ha HPa). pose proof (Hin y b Hy Hb HPb). lia.
  - pose proof (count_pos P b (f z) Hb HPb). pose proof (Hin x a Hx Ha HPa). lia.
  - specialize (IH Hx Hy). lia.
Qed.

(** Taken out twice, so stored twice. *)
Lemma removed_twice s c t1 t2 k1 k2 d1 d2 (P : string * string -> bool) : Inv s -> t1 <> t2 ->
  (t1, Removed c k1 d1) ∈ evs (hist s) -> (t2, Removed c k2 d2) ∈ evs (hist s) ->
  P (tags c d1) = true -> P (tags c d2) = true ->
  (2 <= count (fun d => P (tags c d)) (stored (docs s0) c (evs (hist s))))%nat.
Proof using Type.
  intros HI Ht H1 H2 HP1 HP2. rewrite (inv_stored _ _ _ _ _ HI c P).
  enough (2 <= count (fun d => P (tags c d)) (removals c (evs (hist s))))%nat by lia.
  eapply (two_count (fun te => removed_of c te.2)); [exact H1|exact H2|congruence|..]; cbn [snd];
    [rewrite removed_of_same; by left|rewrite removed_of_same; by left|done|done].
Qed.
(** C25: In every interleaving of the console's requests and jobs in which no write to people's or
    teams' rows that was reported failed had been done, a handle has one holder: no two people carry
    the same one, no person carries a team's, and each that is carried is reserved, so nobody else can
    take it.  A write that was done and reported failed breaks it
    ([DirWitness.lost_answer_doubles_a_handle]). *)
Theorem handles_held_once s l : reached s l ->
  (forall k1 k2 u1 u2 h, users s !! k1 = Some u1 -> users s !! k2 = Some u2 ->
     username u1 = Some h -> username u2 = Some h -> k1 = k2) /\
  (forall k u h, users s !! k = Some u -> username u = Some h -> teams s !! h = None /\ is_Some (handles s !! h)) /\
  (forall h x, teams s !! h = Some x -> slug x = h /\ is_Some (handles s !! h)).
Proof using people_clean teams_clean.
  intros Hr. pose proof (inv_wf _ _ _ _ _ (reached_Inv s l Hr)) as HW. split; [apply (wf_person s HW)|]. split.
  - intros k u h Hu Hn. split; [by eapply (wf_apart s HW)|]. apply (wf_carried s HW). left. by exists k, u.
  - intros h x Hx. split; [exact (wf_ids s HW CTeams h x Hx)|]. apply (wf_carried s HW). right. by exists x.
Qed.

(** C33: An invitation admits once: if two requests with the same token were both told they joined,
    the invitation of that token was issued twice (tokens are random). *)
Theorem invitation_admits_once s l t1 t2 api1 api2 h1 h2 tok x1 x2 : reached s l -> t1 <> t2 ->
  (t1, Said (AskAccept api1 h1 tok) (JoinedTeam x1)) ∈ hist s ->
  (t2, Said (AskAccept api2 h2 tok) (JoinedTeam x2)) ∈ hist s ->
  (2 <= count (fun i => String.eqb (i_id i) (sha tok)) (stored (docs s0) CInvites (evs (hist s))))%nat.
Proof using people_clean teams_clean.
  intros Hr Ht H1 H2. pose proof (reached_Inv s l Hr) as HI.
  destruct (answer_backed s _ _ _ HI H1 eq_refl) as (w1 & i1 & d1 & Hd1 & Hi1 & _).
  destruct (answer_backed s _ _ _ HI H2 eq_refl) as (w2 & i2 & d2 & Hd2 & Hi2 & _).
  apply (removed_twice s CInvites t1 t2 _ _ d1 d2 (fun tg => String.eqb tg.1 (sha tok)) HI Ht Hd1 Hd2);
    by apply String.eqb_eq.
Qed.

(** Whoever an invitation admits proved the address it was sent to, and joined the team it names. *)
Theorem invitation_is_for_its_address s l t api h tok x : reached s l ->
  (t, Said (AskAccept api h tok) (JoinedTeam x)) ∈ hist s ->
  exists who i, proves genuine api h who /\ i ∈ stored (docs s0) CInvites (evs (hist s)) /\
    i_id i = sha tok /\ i_team i = x /\ eq_ignore_ascii_case (i_email i) (lower_trim who) = true.
Proof using people_clean teams_clean.
  intros Hr Ha. destruct (answer_backed s _ _ _ (reached_Inv s l Hr) Ha eq_refl)
    as (w & i & d & _ & _ & Hi & Hid & Hw & He & ->). by exists w, i.
Qed.

(** A sign-in link signs in once, and only the address it was sent to: an answer with an address
    took the link of that address away, and two answers to one token mean two links were stored
    under it. *)
Theorem signin_link_once s l t1 tok e1 : reached s l -> (t1, Said (AskRedeem tok) (Email e1)) ∈ hist s ->
  (exists d, (t1, Removed CSignins (sha tok) d) ∈ evs (hist s) /\ si_id d = sha tok /\ si_email d = e1) /\
  (forall t2 e2, t2 <> t1 -> (t2, Said (AskRedeem tok) (Email e2)) ∈ hist s ->
     (2 <= count (fun d => String.eqb (si_id d) (sha tok)) (stored (docs s0) CSignins (evs (hist s))))%nat).
Proof using people_clean teams_clean.
  intros Hr H1. pose proof (reached_Inv s l Hr) as HI.
  destruct (answer_backed s _ _ _ HI H1 eq_refl) as (d1 & Hd1 & Hi1 & He1). split; [by exists d1|].
  intros t2 e2 Ht H2. destruct (answer_backed s _ _ _ HI H2 eq_refl) as (d2 & Hd2 & Hi2 & _).
  apply (removed_twice s CSignins t1 t2 _ _ d1 d2 (fun tg => String.eqb tg.1 (sha tok)) HI (not_eq_sym Ht) Hd1 Hd2);
    by apply String.eqb_eq.
Qed.

(** A CLI code is approved once: two approvals of one code mean two logins were started under
    that code (codes are random). *)
Theorem cli_code_approved_once s l t1 t2 b1 b2 n1 n2 : reached s l -> t1 <> t2 ->
  to_uppercase (trim b1) = to_uppercase (trim b2) ->
  (t1, Said (AskApprove b1) (Status n1)) ∈ hist s -> (t2, Said (AskApprove b2) (Status n2)) ∈ hist s ->
  (2 <= count (fun d => String.eqb (code d) (to_uppercase (trim b1))) (stored (docs s0) CCliLogins (evs (hist s))))%nat.
Proof using people_clean teams_clean.
  intros Hr Ht Hb H1 H2. pose proof (reached_Inv s l Hr) as HI.
  destruct (answer_backed s _ _ _ HI H1 eq_refl) as (k1 & o1 & w1 & Hd1 & Hc1 & Ho1 & Hw1).
  destruct (answer_backed s _ _ _ HI H2 eq_refl) as (k2 & o2 & w2 & Hd2 & Hc2 & Ho2 & Hw2).
  pose proof (inv_approved _ _ _ _ _ HI (fun tg => String.eqb tg.1 (to_uppercase (trim b1)))) as Hap. cbn [tags fst] in Hap.
  refine (Nat.le_trans _ _ _ (Nat.le_trans _ _ _ _ (Nat.le_add_r _ _)) Hap).
  apply (two_count (fun te => approved_of te.2) _ _ _ _ o1 o2 Hd1 Hd2); cbn [snd approved_of]; try congruence.
  - rewrite Ho1, Hw1. by left.
  - rewrite Ho2, Hw2. by left.
  - by apply String.eqb_eq.
  - apply String.eqb_eq. congruence.
Qed.

(** A CLI token handed to a poller is the token of the login it polls for; unless that login was
    there at first, it got the token from one approval, when it had none. *)
Theorem polled_token_was_approved s l t p tok exp : reached s l ->
  (t, Said (AskPoll p) (CliTokenGiven tok exp)) ∈ hist s ->
  exists d, poll d = p /\ token d = Some tok /\
    (d ∈ all_docs CCliLogins (docs s0) \/
     exists t' k old, (t', Changed CCliLogins k old d) ∈ evs (hist s) /\ token old = None).
Proof using people_clean teams_clean.
  intros Hr Ha. destruct (answer_backed s _ _ _ (reached_Inv s l Hr) Ha eq_refl) as (d & Hp & Ht & Hg). by exists d.
Qed.

(** What a person or a team settled on stays: nobody's row goes, a handle once taken is never
    changed, nor a region once bound, and a team goes only when it is deleted. *)
Theorem handle_and_region_stay s l : reached s l ->
  (forall k u, users s0 !! k = Some u -> exists u', users s !! k = Some u' /\
     (username u = None \/ username u' = username u) /\ (u_region u = "" \/ u_region u' = u_region u)) /\
  (forall k x, teams s0 !! k = Some x ->
     (exists x', teams s !! k = Some x' /\ (t_region x = "" \/ t_region x' = t_region x)) \/
     exists t d, (t, Removed CTeams k d) ∈ evs (hist s)).
Proof using people_clean teams_clean.
  intros Hr. destruct (inv_kept _ _ _ _ _ (reached_Inv s l Hr)) as [Hu Ht]. by split.
Qed.

(** Administrators do not all go: whatever revocations ran against each other, once every request
    has ended the roster is not empty, if it was not at first and its collection does not fail. *)
Theorem roster_never_left_empty s l : reached s l -> mode CSuperadmins = Reliable ->
  (exists k a, docs s0 CSuperadmins !! k = Some a) ->
  (forall t p, (t, p) ∈ l -> exists a, p = Ret a) ->
  exists k a, docs s CSuperadmins !! k = Some a.
Proof using people_clean teams_clean.
  intros Hr Hm H0 Hdone. destruct Hr as (HW & Hh & Hr).
  destruct (reached_ok _ _ _ _ _ _ mode genuine s0 people_clean teams_clean s l (Inv_start HW Hh) Hr) as [HI Hset].
  destruct (inv_roster _ _ _ _ _ HI H0) as [?|[t Ht]]; [done|].
  assert (Hin : t ∈ l.*1).
  { assert (Hact : exists x, (t, x) ∈ evs (hist s)).
    { revert Ht. generalize (evs (hist s)) as es. induction es as [|[t' e] es IH]; [done|]. cbn. unfold holding_step at 1. cbn.
      fold (holding t es). destruct (Nat.eqb_spec t' t) as [->|]; cbn; intros Hx; [exists e; left|].
      destruct (IH Hx) as [x ?]. exists x. by right. }
    destruct Hact as [x Hx]. refine (reached_tasks _ _ _ _ _ _ mode genuine s0 s l Hh Hr (t, Did x) _).
    revert Hx. generalize (hist s) as hs. induction hs as [|[t' [e|a r]] hs IH]; cbn; [by intros ?%elem_of_nil| |].
    - intros [[= -> ->]|?]%elem_of_cons; [left|right; auto].
    - intros ?. right. auto. }
  apply list_elem_of_fmap in Hin as ([t' p] & -> & Hin). cbn in Ht. destruct (Hdone _ _ Hin) as [a ->].
  by rewrite (Hset _ _ Hin Hm) in Ht.
Qed.
End props.
