(* ===== verification/DirOwners.v ===== *)
(** * DirOwners: a team keeps an owner who can act

    Demoting, pausing and removing decide from a first read whether the write needs the guard that
    another active owner is left.  [OI] holds in every interleaving of everything that makes nobody
    an owner: then what a task saw not to be an owner does not become one ([OR]). *)

From S2P Require Import Prelude Text Names Prog People Mongo Directory DirWorld.
Local Open Scope string_scope.
Local Open Scope Z_scope.

Section owners.
Context `{Casing}.
Variable dollar : nat -> nat -> nat.
Variable mode : coll -> failing.

(** An address without ASCII capitals. *)
Definition settled_case (e : string) : Prop := map_chars ascii_lower e = e.

Definition has_owner (x : Team) : Prop := any active_owner (members x) = true.
Definition no_owner (e : string) (x : Team) : Prop := forall m, m ∈ members x -> m_user m = e -> active_owner m = false.
Definition orderly (x : Team) : Prop :=
  NoDup (map m_user (members x)) /\ forall m, m ∈ members x -> settled_case (m_user m).

Record OI (s : World) : Prop := {
  oi_ids : forall k x, teams s !! k = Some x -> slug x = k;
  oi_owner : forall k x, teams s !! k = Some x -> has_owner x;
  oi_orderly : forall k x, teams s !! k = Some x -> orderly x;
  oi_invites : forall k i, docs s CInvites !! k = Some i -> i_role i <> Owner;
}.

(** Teams stay, and nobody who is not an active owner of one becomes one. *)
Definition OR (t : nat) (s s' : World) : Prop :=
  forall k x, teams s !! k = Some x -> exists x', teams s' !! k = Some x' /\ forall e, no_owner e x -> no_owner e x'.

#[export] Instance OR_preorder t : PreOrder (OR t).
Proof.
  split; [intros s k x Hx; by exists x|]. intros a b c Hab Hbc k x Hx.
  destruct (Hab k x Hx) as (y & Hy & H1). destruct (Hbc k y Hy) as (z & Hz & H2). exists z. auto.
Qed.

(** ** Events *)
Definition keeps (x x' : Team) : Prop :=
  slug x' = slug x /\ (has_owner x -> has_owner x') /\ (orderly x -> orderly x') /\ forall e, no_owner e x -> no_owner e x'.

Definition fresh_doc (c : coll) : doc c -> Prop :=
  match c return doc c -> Prop with
  | CTeams => fun x => has_owner x /\ orderly x
  | CInvites => fun i => i_role i <> Owner
  | _ => fun _ => True
  end.

Definition safe_change (c : coll) : doc c -> doc c -> Prop :=
  match c return doc c -> doc c -> Prop with
  | CTeams => keeps
  | CInvites => fun _ _ => False
  | _ => fun _ _ => True
  end.

Definition safe_event (s : World) (e : event) : Prop :=
  match e with
  | Added c d => docs s c !! id_of c d = None /\ fresh_doc c d
  | Changed c k d d' => docs s c !! k = Some d /\ safe_change c d d'
  | Removed c _ _ => c <> CTeams
  | Met _ => True
  end.

Lemma teams_other t s e : (forall d, e <> Added CTeams d) -> (forall k d d', e <> Changed CTeams k d d') ->
  (forall k d, e <> Removed CTeams k d) -> teams (step1 t s e) = teams s.
Proof using Type.
  intros H1 H2 H3. unfold teams. cbn. destruct e as [c d|c k d d'|c k d|c]; cbn; try done;
    (destruct (decide (c = CTeams)) as [->|]; [|by rewrite alter_coll_other]); [by destruct (H1 d)|by destruct (H2 k d d')|by destruct (H3 k d)].
Qed.

Lemma event_teams t s e : OI s -> safe_event s e -> forall k x', teams (step1 t s e) !! k = Some x' ->
  (slug x' = k /\ has_owner x' /\ orderly x') \/ teams s !! k = Some x'.
Proof using Type.
  intros HI He k x'. unfold teams. cbn. destruct e as [c d|c k0 d d'|c k0 d|c]; cbn; [| | |by right];
    (destruct (decide (c = CTeams)) as [->|]; [|rewrite alter_coll_other by done; by right]); rewrite alter_coll_same.
  - destruct He as [_ [Ho Hd]]. intros [[<- <-]|[_ ?]]%lookup_insert_Some; [by left|by right].
  - destruct He as [Hk (Hs & Ho & Hd & _)]. intros [[<- <-]|[_ ?]]%lookup_insert_Some; [left|by right].
    split; [rewrite Hs; by apply (oi_ids s HI)|]. split; [apply Ho; by apply (oi_owner s HI k0)|apply Hd; by apply (oi_orderly s HI k0)].
  - by destruct He.
Qed.

Lemma safe_invites t s e : OI s -> safe_event s e -> forall k i, docs (step1 t s e) CInvites !! k = Some i -> i_role i <> Owner.
Proof using Type.
  intros HI He k i. pose proof (oi_invites s HI k i) as Hold. cbn.
  destruct e as [c d|c k0 d d'|c k0 d|c]; cbn; [| | |done];
    (destruct (decide (c = CInvites)) as [->|]; [|rewrite alter_coll_other by done; done]); rewrite alter_coll_same.
  - destruct He as [_ Hd]. intros [[_ <-]|[_ ?]]%lookup_insert_Some; auto.
  - by destruct He.
  - intros [_ ?]%lookup_delete_Some. auto.
Qed.

Lemma event_OR t t' s e : safe_event s e -> OR t' s (step1 t s e).
Proof using Type.
  intros He k x Hx. unfold teams in *. cbn. destruct e as [c d|c k0 d d'|c k0 d|c]; cbn; [| | |by exists x];
    (destruct (decide (c = CTeams)) as [->|]; [|rewrite alter_coll_other by done; by exists x]); rewrite alter_coll_same.
  - destruct He as [Hf _]. exists x. split; [|done]. rewrite lookup_insert_ne; [exact Hx|]. intros <-.
    apply eq_None_not_Some in Hf. apply Hf. exists x. exact Hx.
  - destruct He as [Hk (_ & _ & _ & Hn)]. destruct (decide (k0 = k)) as [->|].
    + exists d'. split; [by rewrite lookup_insert_eq|]. injection (eq_trans (eq_sym Hk) Hx) as ->. done.
    + exists x. by rewrite lookup_insert_ne.
  - by destruct He.
Qed.

Lemma event_OI t s e : OI s -> safe_event s e -> OI (step1 t s e).
Proof using Type.
  intros HI He. split; [intros k x Hx..|].
  - destruct (event_teams t s e HI He k x Hx) as [(? & ? & ?)|?]; [done|by apply (oi_ids s HI)].
  - destruct (event_teams t s e HI He k x Hx) as [(? & ? & ?)|?]; [done|by apply (oi_owner s HI k)].
  - destruct (event_teams t s e HI He k x Hx) as [(? & ? & ?)|?]; [done|by apply (oi_orderly s HI k)].
  - by apply (safe_invites t s e).
Qed.

(** ** Requests *)
Definition safe_request (s : World) {X} (e : coll_eff X) : Prop :=
  match e with
  | InsertOne c d => fresh_doc c d
  | UpdateOne c q u | FindOneAndUpdate c q u => forall k d, docs s c !! k = Some d -> q d = true -> safe_change c d (u d)
  | UpsertOne c _ _ => c <> CTeams /\ c <> CInvites
  | DeleteOne c _ | DeleteMany c _ | FindOneAndDelete c _ => c <> CTeams
  | _ => True
  end.

Lemma loose_doc c d : c <> CTeams -> c <> CInvites -> fresh_doc c d.
Proof using Type. by destruct c. Qed.
Lemma loose_change c d d' : c <> CTeams -> c <> CInvites -> safe_change c d d'.
Proof using Type. by destruct c. Qed.

Lemma works_safe s {X} (e : coll_eff X) x es : safe_request s e -> works e (docs s) x es ->
  (exists ev, es = [ev] /\ safe_event s ev) \/ Forall (fun ev => exists c k d, ev = Removed c k d /\ c <> CTeams) es.
Proof using Type.
  intros He Hw. destruct e as [c d|c q|c q newest limit|c q u|c fresh u|c q|c q|c q|c q u|c q]; cbn [works safe_request] in *.
  - destruct Hw as [(_ & Hf & ->)|(_ & _ & ->)]; left; eexists; (split; [done|]); [by split|done].
  - destruct Hw as [-> _]. by right.
  - destruct Hw as [-> _]. by right.
  - destruct Hw as [(k & d & Hk & Hq & _ & ->)|(_ & _ & ->)]; [|by right]. left. eexists. split; [done|]. split; [done|]. by eapply He.
  - destruct He as [H1 H2]. left. destruct Hw as [_ [(d & Hk & ->)|(Hk & ->)]]; eexists; (split; [done|]); (split; [done|]);
      [by apply loose_change|by apply loose_doc].
  - destruct Hw as [(k & d & Hk & Hq & _ & ->)|(_ & _ & ->)]; [|by right]. left. eexists. split; [done|]. exact He.
  - destruct Hw as (l & _ & _ & ->). right. apply Forall_map, Forall_forall. intros kd _. by exists c, kd.1, kd.2.
  - destruct Hw as [(k & d & Hk & Hq & _ & ->)|(_ & _ & ->)]; [|by right]. left. eexists. split; [done|]. exact He.
  - destruct Hw as [(k & d & Hk & Hq & _ & ->)|(_ & _ & ->)]; [|by right]. left. eexists. split; [done|]. split; [done|]. by eapply He.
  - destruct Hw as [_ ->]. case_match; [|by right]. left. by eexists.
Qed.

Lemma removed_safe t t' es s : Forall (fun ev => exists c k d, ev = Removed c k d /\ c <> CTeams) es -> OI s ->
  OI (did t es s) /\ OR t' s (did t es s).
Proof using Type.
  intros Hes. revert s. induction Hes as [|ev es (c & k & d & -> & Hc) _ IH]; intros s HI; [by split|].
  destruct (IH (step1 t s (Removed c k d)) (event_OI t s (Removed c k d) HI Hc)) as [HI' HR]. split; [exact HI'|].
  etrans; [by apply (event_OR t t' s (Removed c k d))|exact HR].
Qed.

Lemma request_safe t t' s {X} (e : coll_eff X) x es : OI s -> safe_request s e -> msem mode e (docs s) x es ->
  OI (did t es s) /\ OR t' s (did t es s).
Proof using Type.
  intros HI He Hm. assert (Hw : forall y, works e (docs s) y es -> OI (did t es s) /\ OR t' s (did t es s)).
  { intros y Hw. destruct (works_safe s e y es He Hw) as [(ev & -> & Hev)|Hes]; [|by apply removed_safe].
    split; [by apply event_OI|by apply event_OR]. }
  destruct Hm as [Hw1|(msg & _ & _ & [->|(_ & y & Hw1)])]; [by eapply Hw|by split|by eapply Hw].
Qed.

(** ** Programs *)
Abbreviation wp := (wp (dsem mode) OI OR).

Lemma owners_ask t s {A} (e : coll_eff (result A)) (Q : result A -> World -> Prop) :
  (forall s1, OR t s s1 -> OI s1 -> safe_request s1 e /\
     forall x es, msem mode e (docs s1) x es -> OR t s1 (did t es s1) -> OI (did t es s1) -> Q (mongo x) (did t es s1)) ->
  wp t (ask e) s Q.
Proof using Type.
  intros Hq s1 x s2 HR HI (es & Hm & ->). destruct (Hq s1 HR HI) as [He Hx].
  destruct (request_safe t t s1 e x es HI He Hm) as [HI' HR']. split; [done|].
  split; [intros t' _; by apply (request_safe t t' s1 e x es HI He Hm)|]. by apply Hx.
Qed.

Lemma owners_now t s (Q : Z -> World -> Prop) : (forall s1 z, OR t s s1 -> OI s1 -> Q z s1) -> wp t now s Q.
Proof using Type. intros Hq s1 x s2 HR HI He. cbn in He. subst s2. split; [done|]. split; [reflexivity|]. by apply Hq. Qed.

(** A team as it was read. *)
Definition seen (sl : string) (x : Team) (s : World) : Prop :=
  orderly x /\ exists x', teams s !! sl = Some x' /\ forall e, no_owner e x -> no_owner e x'.

Lemma seen_stable t s s' sl x : OR t s s' -> seen sl x s -> seen sl x s'.
Proof using Type.
  intros HR [Ho (y & Hy & H1)]. split; [done|]. destruct (HR sl y Hy) as (z & Hz & H2). exists z. auto.
Qed.

Lemma owners_get t s sl (Q : result (option Team) -> World -> Prop) :
  (forall r s1, OI s1 -> (forall x, r = Ok (Some x) -> seen sl x s1) -> Q r s1) -> wp t (get sl) s Q.
Proof using Type.
  intros HQ. apply owners_ask. intros s1 _ HI. split; [done|]. intros x es Hm _ HI'. apply HQ; [done|].
  destruct Hm as [[-> [(k & d & Hk & Hq & ->)|(_ & ->)]]|(msg & -> & _)]; try done. intros y [= <-].
  apply String.eqb_eq in Hq. pose proof (oi_ids s1 HI k d Hk) as Hid. cbn in Hq. rewrite Hid in Hq. subst k.
  split; [exact (oi_orderly s1 HI _ _ Hk)|]. by exists d.
Qed.

(** ** Changes of the members *)
Lemma keeps_same x x' : slug x' = slug x -> members x' = members x -> keeps x x'.
Proof using Type. intros Hs Hm. unfold keeps, has_owner, orderly, no_owner. by rewrite Hm. Qed.

(** A change that spares everyone but [e] and makes nobody an owner, when an owner but [e] is left. *)
Lemma keeps_touching e f x :
  (forall m, m ∈ members x -> m_user m <> e -> m ∈ f (members x)) ->
  (forall m', m' ∈ f (members x) -> m' ∈ members x \/ active_owner m' = false) ->
  (NoDup (map m_user (members x)) -> NoDup (map m_user (f (members x)))) ->
  (forall m', m' ∈ f (members x) -> m_user m' ∈ map m_user (members x)) ->
  any (other_owner e) (members x) = true -> keeps x (set_members f x).
Proof using Type.
  intros Hspare Hnew Hnd Hus Hoth. split; [done|]. split; [|split]; cbn.
  - intros _. apply any_spec in Hoth as (m & Hm & [Ho He]%andb_true_iff). apply any_spec. exists m. split; [|done].
    apply Hspare; [done|]. intros <-. unfold named in He. by rewrite String.eqb_refl in He.
  - intros [Hd Hs]. split; [by apply Hnd|]. cbn. intros m' Hm'. apply Hus in Hm'.
    apply list_elem_of_In, in_map_iff in Hm' as (m & <- & Hm). apply Hs. by apply list_elem_of_In.
  - intros e' Hno m' Hm' Hu. cbn in Hm'. destruct (Hnew m' Hm') as [?|?]; [by apply Hno|done].
Qed.

(** Either the guard holds, or it was not needed: in both cases an owner but [e] is there. *)
Lemma another_owner e x : has_owner x -> no_owner e x -> any (other_owner e) (members x) = true.
Proof using Type.
  intros (m & Hm & Ho)%any_spec Hno. apply any_spec. exists m. split; [done|]. unfold other_owner. rewrite Ho. cbn.
  apply negb_true_iff, String.eqb_neq. intros Hu. by rewrite (Hno m Hm Hu) in Ho.
Qed.

Lemma users_in (f : Member -> Member) ms m' : (forall m, m_user (f m) = m_user m) -> m' ∈ map f ms -> m_user m' ∈ map m_user ms.
Proof using Type.
  intros Hf (m & <- & Hm)%list_elem_of_In%in_map_iff. rewrite Hf. by apply list_elem_of_In, in_map.
Qed.

Lemma filter_keeps e x : any (other_owner e) (members x) = true ->
  keeps x (set_members (List.filter (fun m => negb (named e m))) x).
Proof using Type.
  intros Ho. apply (keeps_touching e); [..|exact Ho].
  - intros m Hm Hn. apply list_elem_of_In, filter_In. split; [by apply list_elem_of_In|].
    by apply negb_true_iff, String.eqb_neq.
  - intros m' [? _]%list_elem_of_In%filter_In. left. by apply list_elem_of_In.
  - apply NoDup_map_filter.
  - intros m' [? _]%list_elem_of_In%filter_In. by apply list_elem_of_In, in_map.
Qed.

Lemma pause_keeps e t b x : any (other_owner e) (members x) = true ->
  keeps x (set_members (map (fun m => if named e m then with_state Paused t b m else m)) x).
Proof using Type.
  intros Ho. assert (Hu : forall m, m_user (if named e m then with_state Paused t b m else m) = m_user m)
    by (intros m; by destruct (named e m)).
  apply (keeps_touching e); [..|exact Ho].
  - intros m Hm Hn. apply list_elem_of_In, in_map_iff. exists m. split; [|by apply list_elem_of_In].
    unfold named. by destruct (String.eqb_spec (m_user m) e).
  - intros m' (m & <- & Hm)%list_elem_of_In%in_map_iff. destruct (named e m); [right|left; by apply list_elem_of_In].
    unfold active_owner, is_active. cbn. by rewrite andb_false_r.
  - rewrite map_map. intros Hd. by rewrite (map_ext _ _ Hu).
  - intros m'. by apply (users_in _ _ _ Hu).
Qed.

Lemma alter_in (f : Member -> Member) (i : nat) (ms : list Member) m' : m' ∈ alter f i ms -> m' ∈ ms \/ exists m, ms !! i = Some m /\ m' = f m.
Proof using Type.
  intros (j & Hj)%list_elem_of_lookup. destruct (decide (i = j)) as [<-|Hn].
  - rewrite list_lookup_alter_eq in Hj. destruct (ms !! i) as [m|]; [|done]. injection Hj as <-. right. by exists m.
  - rewrite list_lookup_alter_ne in Hj by done. left. apply list_elem_of_lookup. by exists j.
Qed.

Lemma index_named e ms i : index_of (named e) ms = Some i -> exists m, ms !! i = Some m /\ m_user m = e.
Proof using Type.
  revert i. induction ms as [|m ms IH]; intros i; cbn; [done|]. destruct (named e m) eqn:Hn.
  - intros [= <-]. exists m. split; [done|]. by apply String.eqb_eq.
  - destruct (index_of (named e) ms) as [j|]; [|done]. intros [= <-]. by apply IH.
Qed.

(** [$] stands for the member the filter names, whatever member its [$elemMatch] matched. *)
Definition dollar_is_the_member : Prop := forall i j, dollar i j = i.

Lemma role_keeps demoting e role x : dollar_is_the_member -> role <> Owner -> any (other_owner e) (members x) = true ->
  keeps x (set_members (set_role_at dollar demoting e role) x).
Proof using Type.
  intros Hdollar Hr Ho. set (f := set_role_at dollar demoting e role).
  assert (Hf : f (members x) = members x \/ exists i m, members x !! i = Some m /\ m_user m = e /\ f (members x) = alter (with_role role) i (members x)).
  { unfold f, set_role_at. destruct (index_of (named e) (members x)) as [i|] eqn:Hi; [|by left].
    apply index_named in Hi as (m & Hm & Hu). right. exists i, m. split; [done|]. split; [done|].
    destruct (if demoting then _ else _); by rewrite ?Hdollar. }
  destruct Hf as [Hf|(i & m & Hi & Hu & Hf)]; [by apply keeps_same|].
  assert (Hus : map m_user (alter (with_role role) i (members x)) = map m_user (members x)) by by apply alter_users.
  apply (keeps_touching e); rewrite ?Hf, ?Hus; [| |done| |done].
  - intros m0 Hm0 Hn. apply list_elem_of_lookup in Hm0 as (j & Hj). apply list_elem_of_lookup. exists j.
    rewrite list_lookup_alter_ne; [done|]. intros <-. rewrite Hi in Hj. injection Hj as <-. done.
  - intros m' [?|(m0 & _ & ->)]%alter_in; [by left|right]. unfold active_owner, is_owner. cbn.
    by rewrite bool_decide_eq_false_2.
  - intros m' Hm'. rewrite <- Hus. by apply list_elem_of_In, in_map, list_elem_of_In.
Qed.

(** ** Operations *)

(** [to_lowercase] leaves no ASCII capital. *)
Hypothesis lower_settled : forall e, settled_case (to_lowercase e).

Lemma settled_named e m : settled_case e -> settled_case (m_user m) -> named_ci e m = named e m.
Proof using Type. unfold settled_case, named_ci, eq_ignore_ascii_case, named. by intros -> ->. Qed.

Lemma same_member ms m m' : NoDup (map m_user ms) -> m ∈ ms -> m' ∈ ms -> m_user m = m_user m' -> m = m'.
Proof using Type.
  intros Hnd Hm Hm' Hu. apply list_elem_of_lookup in Hm as (i & Hi), Hm' as (j & Hj).
  assert (i = j) as ->; [|rewrite Hi in Hj; by injection Hj].
  eapply (NoDup_lookup (map m_user ms) i j (m_user m)); [done|..]; change (map m_user ms) with (m_user <$> ms); rewrite list_lookup_fmap.
  - by rewrite Hi.
  - by rewrite Hj, Hu.
Qed.

(** Someone read as no owner, or as not active, is no active owner. *)
Lemma read_no_owner e x cur : settled_case e -> orderly x -> role_of x e = Some cur ->
  cur <> Owner \/ active_role_of x e = None -> no_owner e x.
Proof using Type.
  intros He [Hnd Hs] Hr Hcur m Hm Hu. unfold active_owner, is_owner, is_active. destruct Hcur as [Hcur|Hact].
  - unfold role_of in Hr. destruct (List.find (named_ci e) (members x)) as [m0|] eqn:Hf; [|done]. injection Hr as <-.
    apply find_some in Hf as [Hm0 Hn0]. apply list_elem_of_In in Hm0.
    rewrite (settled_named e m0 He (Hs _ Hm0)) in Hn0. apply String.eqb_eq in Hn0.
    rewrite (same_member (members x) m m0 Hnd Hm Hm0 (eq_trans Hu (eq_sym Hn0))).
    by rewrite bool_decide_eq_false_2.
  - unfold active_role_of in Hact. destruct (List.find _ (members x)) eqn:Hf; [done|].
    apply find_none with (x := m) in Hf; [|by apply list_elem_of_In].
    rewrite (settled_named e m He (Hs _ Hm)) in Hf. unfold named in Hf. rewrite Hu, String.eqb_refl in Hf. cbn in Hf.
    unfold is_active in Hf. by rewrite Hf, andb_false_r.
Qed.

(** What a guarded write needs, whichever way the guard was decided. *)
Lemma guarded_owner s sl e x d guard : OI s -> seen sl x s -> teams s !! sl = Some d ->
  (guard = false -> no_owner e x) -> negb guard || any (other_owner e) (members d) = true ->
  any (other_owner e) (members d) = true.
Proof using Type.
  intros HI [_ (d' & Hd' & Hn)] Hd Hg Hq. rewrite Hd in Hd'. injection Hd' as <-. destruct guard; [done|].
  apply another_owner; [by apply (oi_owner s HI sl)|auto].
Qed.

Lemma at_id s k d sl : OI s -> docs s CTeams !! k = Some d -> by_id (c := CTeams) sl d = true -> k = sl.
Proof using Type. intros HI Hd Hq%String.eqb_eq. rewrite <- Hq. symmetry. exact (oi_ids s HI k d Hd). Qed.

Lemma wp_set_role t s sl e role : dollar_is_the_member -> role <> Owner -> wp t (Directory.set_role dollar sl e role) s (fun _ _ => True).
Proof using lower_settled.
  intros Hdollar Hr. unfold Directory.set_role. apply wp_bind, owners_get. intros r s1 HI Hseen. destruct r as [[x|]|]; try exact I.
  specialize (Hseen x eq_refl). destruct (role_of x (lower_trim e)) as [cur|] eqn:Hcur; [|exact I]. cbv zeta.
  set (dem := bool_decide (cur = Owner) && negb (bool_decide (role = Owner)) && is_some (active_role_of x (lower_trim e))).
  destruct (dem && _); [exact I|]. apply wp_bind, owners_ask. intros s2 HR HI2. split; [|by intros y es _ _ _; destruct (mongo y)].
  apply (seen_stable _ _ _ _ _ HR) in Hseen. intros k d Hk [[Hid Hn]%andb_true_iff Hg]%andb_true_iff.
  apply role_keeps; [done..|]. rewrite (at_id s2 k d sl HI2 Hk Hid) in Hk.
  apply (guarded_owner s2 sl (lower_trim e) x d dem HI2 Hseen Hk); [|exact Hg].
  intros Hd. apply (read_no_owner _ _ cur); [apply lower_settled|apply Hseen|done|].
  unfold dem in Hd. rewrite (bool_decide_eq_false_2 (role = Owner) Hr) in Hd. cbn in Hd. rewrite andb_true_r in Hd.
  apply andb_false_iff in Hd as [Hd|Hd]; [left; by apply bool_decide_eq_false in Hd|right].
  by destruct (active_role_of x (lower_trim e)).
Qed.

Lemma wp_remove_member t s sl e : wp t (Directory.remove_member sl e) s (fun _ _ => True).
Proof using lower_settled.
  unfold Directory.remove_member. apply wp_bind, owners_get. intros r s1 HI Hseen. destruct r as [[x|]|]; try exact I.
  specialize (Hseen x eq_refl). destruct (role_of x (lower_trim e)) as [cur|] eqn:Hcur; [|exact I]. cbv zeta.
  set (risk := bool_decide (cur = Owner) && is_some (active_role_of x (lower_trim e))).
  destruct (risk && _); [exact I|]. apply wp_bind, owners_ask. intros s2 HR HI2. split; [|by intros y es _ _ _; destruct (mongo y)].
  apply (seen_stable _ _ _ _ _ HR) in Hseen. intros k d Hk [Hid Hg]%andb_true_iff.
  apply filter_keeps. rewrite (at_id s2 k d sl HI2 Hk Hid) in Hk.
  apply (guarded_owner s2 sl (lower_trim e) x d risk HI2 Hseen Hk); [|exact Hg].
  intros Hd. apply (read_no_owner _ _ cur); [apply lower_settled|apply Hseen|done|].
  apply andb_false_iff in Hd as [Hd|Hd]; [left; by apply bool_decide_eq_false in Hd|right].
  by destruct (active_role_of x (lower_trim e)).
Qed.

Lemma wp_pause t s sl e b : wp t (set_member_state sl e Paused b) s (fun _ _ => True).
Proof using lower_settled.
  unfold set_member_state. apply wp_bind, owners_get. intros r s1 HI Hseen. destruct r as [[x|]|]; try exact I.
  specialize (Hseen x eq_refl). destruct (List.find _ (members x)) as [cur|] eqn:Hcur; [|exact I].
  destruct (bool_decide _); [exact I|]. cbv zeta. rewrite (bool_decide_eq_true_2 (Paused = Paused) eq_refl). cbn [andb].
  destruct (active_owner cur && _); [exact I|]. apply wp_bind, owners_now. intros s2 z HR2 _.
  apply wp_bind, owners_ask. intros s3 HR3 HI3. split.
  - apply (seen_stable _ _ _ _ _ HR2), (seen_stable _ _ _ _ _ HR3) in Hseen.
    intros k d Hk [[Hid Hn]%andb_true_iff Hg]%andb_true_iff.
    apply pause_keeps. rewrite (at_id s3 k d sl HI3 Hk Hid) in Hk.
    apply (guarded_owner s3 sl (lower_trim e) x d (active_owner cur) HI3 Hseen Hk); [|exact Hg].
    intros Hd m Hm Hu. apply find_some in Hcur as [Hc Hnc%String.eqb_eq]. apply list_elem_of_In in Hc.
    destruct Hseen as [[Hnd _] _]. by rewrite (same_member (members x) m cur Hnd Hm Hc (eq_trans Hu (eq_sym Hnc))).
  - intros y es _ _ _. destruct (mongo y) as [[]|]; [exact I| |exact I].
    apply wp_bind, owners_get. intros r' s4 _ _. by destruct r' as [[]|].
Qed.

Lemma wp_user t s e (Q : result (option User) -> World -> Prop) : (forall r s1, OR t s s1 -> Q r s1) -> wp t (Directory.user e) s Q.
Proof using Type. intros HQ. apply owners_ask. intros s1 HR _. split; [done|]. intros x es _ HR' _. apply HQ. by etrans. Qed.

Lemma wp_add_member t s sl e role : role <> Owner -> wp t (add_member sl e role) s (fun _ _ => True).
Proof using lower_settled.
  intros Hr. unfold add_member. apply wp_bind, wp_user. intros r s1 _. destruct r as [u|]; [|exact I].
  destruct (is_none u); [exact I|]. apply wp_bind, owners_now. intros s2 z _ _. apply wp_bind, owners_ask. intros s3 _ HI3. split.
  - intros k d Hk [Hid Hn%negb_true_iff]%andb_true_iff. rewrite any_false in Hn. split; [done|]. split; [|split]; cbn.
    + intros (m & Hm & Ho)%any_spec. apply any_spec. exists m. split; [|done]. apply elem_of_app. by left.
    + intros [Hnd Hs]. split; cbn.
      * rewrite map_app. apply NoDup_app. split; [done|]. split; [|by apply NoDup_singleton].
        intros u' (m & <- & Hm)%list_elem_of_In%in_map_iff Hu%list_elem_of_singleton. apply list_elem_of_In in Hm.
        specialize (Hn m Hm). by apply String.eqb_neq in Hn.
      * intros m [Hm| ->%list_elem_of_singleton]%elem_of_app; [by apply Hs|apply lower_settled].
    + intros e' Hno m [Hm| ->%list_elem_of_singleton]%elem_of_app; [by apply Hno|]. intros _.
      unfold active_owner, is_owner. cbn. by rewrite bool_decide_eq_false_2.
  - intros y es _ _ _. destruct (mongo y) as [[]|]; [exact I| |exact I].
    apply wp_bind, owners_get. intros r' s4 _ _. by destruct r' as [[]|].
Qed.

Lemma wp_accept_invite t s id e : wp t (Directory.accept_invite id e) s (fun _ _ => True).
Proof using lower_settled.
  unfold Directory.accept_invite. apply wp_bind, wp_bind, owners_now. intros s1 z _ _. apply owners_ask. intros s2 _ HI.
  split; [exact I|]. intros x es Hm _ _.
  assert (Hrole : forall i, mongo x = Ok (Some i) -> i_role i <> Owner).
  { intros i. destruct Hm as [[-> [(k & d & Hk & Hq & ->)|(_ & ->)]]|(msg & -> & _)]; try done. intros [= <-].
    exact (oi_invites s2 HI k d Hk). }
  destruct (mongo x) as [[i|]|]; [|exact I|exact I]. specialize (Hrole i eq_refl). destruct (negb _); [exact I|].
  apply wp_bind, owners_ask. intros s3 _ _. split; [done|]. intros y es3 _ _ _. destruct (mongo y) as [[]|]; [|exact I|exact I].
  apply wp_bind. eapply wp_mono; [by apply wp_add_member|]. intros [[]|] s4 _; exact I.
Qed.

Lemma owners_create t s sl name creator region : settled_case creator -> wp t (create sl name creator region) s (fun _ _ => True).
Proof using Type.
  intros Hc. unfold create. destruct (check_handle sl); [|exact I]. destruct (String.eqb _ _); [exact I|].
  apply wp_bind, wp_bind, owners_now. intros s1 z _ _. apply owners_ask. intros s2 _ _. split; [exact I|]. intros x es _ _ _.
  assert (Hrel : forall A (a : A) s', wp t (let! _ := release sl in Ret a) s' (fun _ _ => True)).
  { intros A v s'. apply wp_bind, wp_bind, owners_ask. intros s4 _ _. split; [done|]. intros y es4 _ _ _. by destruct (mongo y). }
  destruct (mongo x) as [[]|]; [|exact I|exact I]. apply wp_bind, owners_now. intros s3 z' _ _.
  apply wp_bind. intros s4 y s5 HR HI (es4 & Hm & ->).
  assert (Hfresh : safe_request s4 (InsertOne CTeams (new_team sl (trim name) creator region z'))).
  { split; [done|]. split; [by apply NoDup_singleton|]. by intros m ->%list_elem_of_singleton. }
  destruct (request_safe t t s4 _ y es4 HI Hfresh Hm) as [HI' _]. split; [done|].
  split; [intros t' _; by apply (request_safe t t' s4 _ y es4 HI Hfresh Hm)|].
  destruct y as [[]|er]; [exact I|apply Hrel|apply Hrel].
Qed.

Lemma wp_edit t s sl (f : Team -> Team) : (forall x, slug (f x) = slug x) -> (forall x, members (f x) = members x) ->
  wp t (ask (UpdateOne CTeams (by_id (c := CTeams) sl) f)) s (fun _ _ => True).
Proof using Type. intros Hs Hm. apply owners_ask. intros s1 _ _. split; [|done]. intros k d _ _. by apply keeps_same. Qed.

(** Everything that makes nobody an owner: no promotion, no invitation as one, no unpausing, and no
    deletion, after which the handle may be another team's.  Demotions are among it only where [$]
    is the member the filter names: where it is the other owner, two of them leave none (see
    [DirWitness.two_demotions_leave_no_owner]). *)
Inductive unpromoting (t : nat) : DD unit -> Prop :=
| unp_create sl name creator region : settled_case creator -> unpromoting t (let! _ := create sl name creator region in Ret ())
| unp_add sl e role : role <> Owner -> unpromoting t (let! _ := add_member sl e role in Ret ())
| unp_role sl e role : dollar_is_the_member -> role <> Owner -> unpromoting t (let! _ := Directory.set_role dollar sl e role in Ret ())
| unp_pause sl e b : unpromoting t (let! _ := set_member_state sl e Paused b in Ret ())
| unp_remove sl e : unpromoting t (let! _ := Directory.remove_member sl e in Ret ())
| unp_invite i : i_role i <> Owner -> unpromoting t (let! _ := Directory.create_invite i in Ret ())
| unp_revoke sl id : unpromoting t (let! _ := Directory.revoke_invite sl id in Ret ())
| unp_accept id e : unpromoting t (let! _ := Directory.accept_invite id e in Ret ())
| unp_update sl n d : unpromoting t (let! _ := Directory.update_team sl n d in Ret ())
| unp_profile sl p : unpromoting t (let! _ := update_profile sl p in Ret ()).

Lemma unpromoting_safe t p s : unpromoting t p -> OI s -> wp t p s (fun _ _ => True).
Proof using lower_settled.
  intros Hp _. assert (Hend : forall A (p : DD A), wp t p s (fun _ _ => True) -> wp t (let! _ := p in Ret ()) s (fun _ _ => True)).
  { intros A q Hq. apply wp_bind. eapply wp_mono; [exact Hq|done]. }
  destruct Hp; apply Hend.
  - by apply owners_create.
  - by apply wp_add_member.
  - by apply wp_set_role.
  - apply wp_pause.
  - apply wp_remove_member.
  - apply wp_bind. intros s1 x s2 HR HI (es & Hm & ->).
    assert (Hf : safe_request s1 (InsertOne CInvites i)) by done.
    destruct (request_safe t t s1 _ x es HI Hf Hm) as [HI' _]. split; [done|].
    split; [intros t' _; by apply (request_safe t t' s1 _ x es HI Hf Hm)|]. by destruct x as [[]|[]].
  - apply owners_ask. intros s1 _ _. by split.
  - apply wp_accept_invite.
  - unfold Directory.update_team. destruct (String.eqb _ _); [exact I|]. by apply wp_edit.
  - by apply wp_edit.
Qed.

End owners.
