(* ===== verification/DirAlone.v ===== *)
(** * DirAlone: requests that nobody interferes with

    What the role table promises holds between a request's own first read and its write; here a
    request runs alone, and its every outcome is described: who may change whose role, who may take
    whom out, what a public profile shows, and whose keys open a team's shells. *)

From S2P Require Import Prelude Text Names Prog People Mongo Directory Console Credentials DirWorld DirOwners.
Local Open Scope string_scope.
Local Open Scope Z_scope.

Section alone.
Context `{Casing}.
Variable dollar : nat -> nat -> nat.
Variable mode : coll -> failing.
Variable genuine : string -> Claims -> Prop.
Variable me : nat.

(** Between two steps of [me] nothing happens. *)
Definition quiet (t : nat) (s s' : World) : Prop := t = me -> s = s'.

#[export] Instance quiet_preorder t : PreOrder (quiet t).
Proof. split; [by intros s|]. intros a b c Hab Hbc Ht. rewrite Hab by done. auto. Qed.

Abbreviation csem := (csem mode genuine).
Abbreviation alone p s Q := (wp csem (fun _ => True) quiet me p s Q).

(** A rule for programs on their own is a fact about their runs. *)
Lemma alone_runs {A} (p : CC A) s a s' (Q : A -> World -> Prop) : runs csem me p s a s' -> alone p s Q -> Q a s'.
Proof using Type. intros Hr Hp. by destruct (runs_wp csem (fun _ => True) quiet me p s a s' Q Hr I Hp). Qed.

Lemma alone_effect {X} (e : console_eff X) s (Q : X -> World -> Prop) :
  (forall x s', csem me X e s x s' -> Q x s') -> alone (trigger e) s Q.
Proof using Type.
  intros HQ s1 x s2 HR _ He. rewrite <- (HR eq_refl) in He. split; [done|]. split; [by intros t' Ht' ?|]. by apply HQ.
Qed.

(** A step that leaves the world alone. *)
Lemma alone_skip {X B} (e : console_eff X) (k : X -> CC B) s (Q : B -> World -> Prop) :
  (forall x s', csem me X e s x s' -> s' = s) -> (forall x, alone (k x) s Q) -> alone (bind (trigger e) k) s Q.
Proof using Type.
  intros Hs Hk. apply wp_bind, alone_effect. intros x s' He. by rewrite (Hs x s' He).
Qed.

Lemma alone_dir_bind {A B} (p : DD A) (f : A -> DD B) s Q :
  alone (dir p) s (fun a s' => alone (dir (f a)) s' Q) -> alone (dir (bind p f)) s Q.
Proof using Type.
  unfold dir. revert s. induction p as [a|X e k IH]; intros s; cbn; [done|].
  intros Hp s1 x s2 HR HI He. destruct (Hp s1 x s2 HR HI He) as (?&?&?). split; [done|]. split; [done|]. by apply IH.
Qed.

Lemma alone_ask {A} (e : coll_eff (result A)) s (Q : result A -> World -> Prop) :
  (forall x es, msem mode e (docs s) x es -> Q (mongo x) (did me es s)) -> alone (dir (ask e)) s Q.
Proof using Type.
  intros HQ. apply alone_dir_bind. apply alone_effect. intros x s' (es & Hm & ->). by apply HQ.
Qed.

Lemma alone_ask_res {A B} (e : coll_eff (result A)) (f : A -> DD (result B)) s (Q : result B -> World -> Prop) :
  (forall x es, msem mode e (docs s) x es ->
     match mongo x with Ok a => alone (dir (f a)) (did me es s) Q | Err er => Q (Err er) (did me es s) end) ->
  alone (dir (let!? a := ask e in f a)) s Q.
Proof using Type.
  intros HQ. apply alone_dir_bind, alone_ask. intros x es Hm. specialize (HQ x es Hm). by destruct (mongo x).
Qed.

(** Reads. *)
Lemma find_one_reads c (q : doc c -> bool) s x es : msem mode (FindOne c q) (docs s) x es -> es = [] /\
  forall d, mongo x = Ok (Some d) -> exists k, docs s c !! k = Some d /\ q d = true.
Proof using Type.
  intros [[-> [(k & d & Hk & Hq & ->)|(_ & ->)]]|(msg & -> & _ & [->|(_ & y & -> & _)])]; (split; [done|]); try done.
  intros d' [= <-]. by exists k.
Qed.

Lemma alone_find_one {B} c (q : doc c -> bool) (f : option (doc c) -> DD (result B)) s (Q : result B -> World -> Prop) :
  (forall er, Q (Err er) s) ->
  (forall o, (forall d, o = Some d -> exists k, docs s c !! k = Some d /\ q d = true) -> alone (dir (f o)) s Q) ->
  alone (dir (let!? a := ask (FindOne c q) in f a)) s Q.
Proof using Type.
  intros He HQ. apply alone_ask_res. intros x es Hm. destruct (find_one_reads c q s x es Hm) as [-> Hd]. cbn [did foldl].
  destruct (mongo x) as [o|er]; [|apply He]. apply HQ. intros d ->. by apply Hd.
Qed.

(** ** Who asks, and of which team *)
Definition keyed (s : World) : Prop := forall k x, teams s !! k = Some x -> slug x = k.

Lemma alone_get sl s (Q : result (option Team) -> World -> Prop) : keyed s ->
  (forall r, (forall x, r = Ok (Some x) -> teams s !! sl = Some x) -> Q r s) -> alone (dir (get sl)) s Q.
Proof using Type.
  intros Hs HQ. apply alone_ask. intros x es Hm. destruct (find_one_reads CTeams _ s x es Hm) as [-> Hd]. apply HQ.
  intros y Hy. destruct (Hd y Hy) as (k & Hk & Hq). apply String.eqb_eq in Hq. cbn in Hq.
  rewrite <- Hq. by rewrite (Hs k y Hk).
Qed.

Lemma alone_caller api h s (Q : string + Response -> World -> Prop) :
  (forall u, proves genuine api h u -> Q (inl u) s) -> (forall resp, Q (inr resp) s) -> alone (caller api h) s Q.
Proof using Type.
  intros Hq Hr. unfold caller, identify. destruct (bearer_token h) as [b|] eqn:Hb.
  - destruct (negb (jwt api)); [apply Hr|]. unfold verify. apply wp_bind, wp_bind, wp_bind, alone_effect.
    intros c s' [-> Hg]. cbn. destruct c as [c|]; [|apply Hr]. destruct (String.eqb_spec (typ c) "session"); [|apply Hr].
    apply Hq. unfold proves. rewrite Hb. exists c. split; [by apply Hg|done].
  - cbn. unfold peer_only. destruct (negb (secret_eq _ _)) eqn:Hs; [apply Hr|].
    destruct (owner_header h) as [o|] eqn:Ho; [|apply Hr]. destruct (String.eqb _ _); [apply Hr|]. cbn. apply Hq.
    unfold proves. rewrite Hb. exists o. split; [done|]. split; [by apply negb_false_iff|done].
Qed.

Lemma alone_caller_db api h s (Q : string + Response -> World -> Prop) :
  (forall u, proves genuine api h u -> Q (inl u) s) -> (forall resp, Q (inr resp) s) -> alone (caller_db api h) s Q.
Proof using Type.
  intros Hq Hr. apply wp_bind, alone_caller; [intros u Hu|apply Hr]. cbn. unfold directory.
  destruct (has_directory api); [by apply Hq|apply Hr].
Qed.

Lemma alone_team_for api h sl min s (Q : (string * Team * Role) + Response -> World -> Prop) : keyed s ->
  (forall u x r, proves genuine api h u -> teams s !! sl = Some x -> active_role_of x u = Some r ->
     is_some_and min (fun m => rank r <? rank m) = false -> Q (inl (u, x, r)) s) ->
  (forall resp, Q (inr resp) s) -> alone (team_for api h sl min) s Q.
Proof using Type.
  intros Hs Hq Hr. apply wp_bind, alone_caller_db; [intros u Hu|apply Hr].
  apply wp_bind, alone_get; [done|]. intros r Hget. destruct r as [[x|]|]; [|apply Hr|apply Hr].
  destruct (active_role_of x u) as [role|] eqn:Hrole; [|destruct (is_some _); apply Hr].
  destruct (is_some_and min _) eqn:Hmin; [apply Hr|]. apply Hq; auto.
Qed.

(** ** Roles *)
Hypothesis lower_settled : forall e, settled_case (to_lowercase e).

Lemma role_as_stored x e m : orderly x -> lower_trim e = e -> m ∈ members x -> m_user m = e -> role_of x e = Some (m_role m).
Proof using lower_settled.
  intros [Hnd Hs] He Hm Hu. unfold role_of. assert (Hse : settled_case e) by (rewrite <- He; apply lower_settled).
  destruct (List.find (named_ci e) (members x)) as [m0|] eqn:Hf; cbn.
  - apply find_some in Hf as [Hm0 Hn0]. apply list_elem_of_In in Hm0.
    rewrite (settled_named e m0 Hse (Hs _ Hm0)) in Hn0. apply String.eqb_eq in Hn0.
    by rewrite (same_member (members x) m m0 Hnd Hm Hm0 (eq_trans Hu (eq_sym Hn0))).
  - apply find_none with (x := m) in Hf; [|by apply list_elem_of_In].
    rewrite (settled_named e m Hse (Hs _ Hm)) in Hf. unfold named in Hf. by rewrite Hu, String.eqb_refl in Hf.
Qed.

Lemma teams_changed s t k x x' : docs s CTeams !! k = Some x ->
  teams (did t [Changed CTeams k x x'] s) = <[k := x']> (teams s).
Proof using Type. intros Hk. unfold teams. cbn. by rewrite alter_coll_same. Qed.

(** One update of the teams: nothing, or the one team it names. *)
Lemma update_effect sl q f s x es : keyed s -> msem mode (UpdateOne CTeams q f) (docs s) x es ->
  (forall d, q d = true -> slug d = sl) ->
  teams (did me es s) = teams s \/
  exists d, teams s !! sl = Some d /\ q d = true /\ teams (did me es s) = <[sl := f d]> (teams s).
Proof using Type.
  intros Hs Hm Hq. assert (Hw : forall y, works (UpdateOne CTeams q f) (docs s) y es -> teams (did me es s) = teams s \/
    exists d, teams s !! sl = Some d /\ q d = true /\ teams (did me es s) = <[sl := f d]> (teams s)).
  { intros y [(k & d & Hk & Hqd & _ & ->)|(_ & _ & ->)]; [right|by left].
    rewrite <- (Hq d Hqd). rewrite (Hs k d Hk). exists d. split; [exact Hk|]. split; [done|]. by apply teams_changed. }
  destruct Hm as [?|(msg & _ & _ & [->|(_ & y & ?)])]; [by eapply Hw|by left|by eapply Hw].
Qed.

(** Who may do this to [email]'s place in team [x]. *)
Definition may_touch (api : Api) (h : Headers) (x : Team) (email : string) (by_ : Role) : Prop :=
  exists who, proves genuine api h who /\ active_role_of x who = Some by_ /\
    forall m, m ∈ members x -> m_user m = email -> may_grant by_ (m_role m) = true.

(** The member named [e] with [role], everybody else as before. *)
Definition with_role_for (e : string) (role : Role) (ms : list Member) : list Member :=
  map (fun m => if named e m then with_role role m else m) ms.

Lemma unnamed_same e role ms : Forall (fun m => m_user m <> e) ms -> with_role_for e role ms = ms.
Proof using Type.
  unfold with_role_for, named. induction 1 as [|m ms Hm _ IH]; cbn; [done|]. rewrite IH.
  by destruct (String.eqb_spec (m_user m) e).
Qed.

(** Where [$] is the member named, or plays no part, the write is the one it reads as. *)
Lemma set_role_at_named demoting e role ms : NoDup (map m_user ms) -> dollar_is_the_member dollar \/ demoting = false ->
  set_role_at dollar demoting e role ms = with_role_for e role ms.
Proof using Type.
  intros Hnd Hd. assert (Hat : set_role_at dollar demoting e role ms =
    match index_of (named e) ms with Some i => alter (with_role role) i ms | None => ms end).
  { unfold set_role_at. destruct (index_of (named e) ms); [|done]. destruct Hd as [Hd| ->]; [|done].
    destruct (if demoting then _ else _); by rewrite ?Hd. }
  rewrite Hat. clear Hat. induction ms as [|m ms IH]; cbn; [done|]. apply NoDup_cons in Hnd as [Hm Hnd]. specialize (IH Hnd).
  destruct (named e m) eqn:Hn.
  - cbn. f_equal. apply String.eqb_eq in Hn. symmetry. apply unnamed_same, Forall_forall. intros m' Hm' Hu. apply Hm.
    rewrite Hn, <- Hu. by apply list_elem_of_In, in_map, list_elem_of_In.
  - destruct (index_of (named e) ms) as [i|]; cbn; f_equal; exact IH.
Qed.

(** Which member [$] is matters only to the write that demotes an owner. *)
Definition dollar_settled (x : Team) (e : string) (role : Role) : Prop :=
  dollar_is_the_member dollar \/ role = Owner \/ role_of x e <> Some Owner.

(** C27: A request to change a role, alone, changes nothing, or one team, in which exactly the member
    named gets the role asked for and everybody else stays as they were; then its sender proved to
    be an active member whose role may give both the new role and the one the member had.  The
    address is taken as stored, trimmed and lowercase (otherwise the member's role is not looked at:
    see the flaws), and, where an owner is demoted, [$] to be the member the filter names, which the
    comment in [set_member_state] denies. *)
Theorem role_change_is_entitled api h sl e role s r s' x : keyed s -> orderly x -> teams s !! sl = Some x ->
  lower_trim e = e -> dollar_settled x e role -> runs csem me (Console.set_role dollar api h sl e role) s r s' ->
  teams s' = teams s \/
  exists by_, may_touch api h x e by_ /\ may_grant by_ role = true /\ (exists m, m ∈ members x /\ m_user m = e) /\
    teams s' = <[sl := set_members (with_role_for e role) x]> (teams s).
Proof using lower_settled.
  intros Hs Ho Hx He Hdol Hr. set (F := fun s' => teams s' = teams s \/
    exists by_, may_touch api h x e by_ /\ may_grant by_ role = true /\ (exists m, m ∈ members x /\ m_user m = e) /\
    teams s' = <[sl := set_members (with_role_for e role) x]> (teams s)).
  refine (alone_runs _ s r s' (fun _ => F) Hr _).
  apply wp_bind, alone_team_for; [done| |by left]. intros u y by_ Hu Hy Hby _. rewrite Hx in Hy. injection Hy as <-.
  cbv zeta. destruct (may_grant by_ role && _) eqn:Hg; cbn [negb]; [|by left]. apply andb_true_iff in Hg as [Hg Ht].
  assert (Hmay : may_touch api h x e by_).
  { exists u. split; [done|]. split; [done|]. intros m Hm Hm'. by rewrite (role_as_stored x e m Ho He Hm Hm') in Ht. }
  apply wp_bind. unfold Directory.set_role. rewrite He. apply alone_dir_bind, alone_get; [done|].
  intros r' Hget. destruct r' as [[y|]|]; try (by left). specialize (Hget y eq_refl). rewrite Hx in Hget. injection Hget as <-.
  destruct (role_of x e) as [cur|] eqn:Hcur; [|by left]. cbv zeta.
  set (dem := bool_decide (cur = Owner) && negb (bool_decide (role = Owner)) && _).
  destruct (dem && (owner_count x =? 1)%nat); [by left|].
  apply alone_ask_res. intros v es Hm. apply (update_effect sl) in Hm; [|done|].
  - assert (Hend : F (did me es s)).
    { destruct Hm as [?|(d & Hd & Hq & Heq)]; [by left|right]. injection (eq_trans (eq_sym Hx) Hd) as <-.
      apply andb_true_iff in Hq as [[_ (m & Hm & Hn)%any_spec]%andb_true_iff _]. apply String.eqb_eq in Hn.
      exists by_. split; [done|]. split; [done|]. split; [by exists m|]. rewrite Heq. unfold set_members.
      rewrite set_role_at_named; [done|by destruct Ho|]. unfold dem.
      destruct Hdol as [?|[Hrole|Hno]]; [by left|right..].
      { by rewrite (bool_decide_eq_true_2 (role = Owner) Hrole), andb_false_r. }
      rewrite bool_decide_eq_false_2; [done|]. intros Howner. apply Hno. by rewrite Hcur, Howner. }
    destruct (mongo v) as [[]|]; exact Hend.
  - intros d [[Hd _]%andb_true_iff _]%andb_true_iff. by apply String.eqb_eq in Hd.
Qed.

(** Steps after which only the answer is left. *)
Fixpoint idle {A} (p : CC A) : Prop :=
  match p with
  | Ret _ => True
  | Vis X e k => match e with
                 | CDir (DColl (FindOne _ _)) | CDir (DColl (FindMany _ _ _ _)) | CDir DNow => True
                 | CDir _ | CAnswer _ _ => False
                 | _ => True
                 end /\ forall x, idle (k x)
  end.

Lemma alone_idle {A} (p : CC A) s (F : World -> Prop) : idle p -> F s -> alone p s (fun _ => F).
Proof using Type.
  intros Hp HF. revert s HF. induction p as [a|X e k IH]; intros s HF; cbn; [done|]. destruct Hp as [He Hk].
  intros s1 x s2 HR _ Hsem. rewrite <- (HR eq_refl) in Hsem. split; [done|]. split; [by intros t' Ht' ?|].
  assert (s2 = s) as ->; [|by apply IH].
  destruct e; try done; try (by destruct Hsem). destruct e as [X e|]; [|done]. destruct Hsem as (es & Hm & ->).
  destruct e; try done; by destruct Hm as [[-> _]|(msg & _ & _ & [->|(_ & y & -> & _)])].
Qed.

(** A request to remove a member changes nothing, or takes out of one team whoever has that
    address; then its sender proved to be that person, or an active member whose role may give the
    role the member had. *)
Theorem removal_is_entitled api h sl e s r s' x : keyed s -> orderly x -> teams s !! sl = Some x ->
  lower_trim e = e -> runs csem me (Console.remove_member api h sl e) s r s' ->
  teams s' = teams s \/
  (teams s' = <[sl := set_members (List.filter (fun m => negb (named e m))) x]> (teams s) /\
   exists by_, may_touch api h x e by_ \/
     exists who, proves genuine api h who /\ active_role_of x who = Some by_ /\ eq_ignore_ascii_case who e = true).
Proof using lower_settled.
  intros Hs Ho Hx He Hr.
  set (F := fun s' => teams s' = teams s \/
    (teams s' = <[sl := set_members (List.filter (fun m => negb (named e m))) x]> (teams s) /\
     exists by_, may_touch api h x e by_ \/
       exists who, proves genuine api h who /\ active_role_of x who = Some by_ /\ eq_ignore_ascii_case who e = true)).
  refine (alone_runs _ s r s' (fun _ => F) Hr _).
  apply wp_bind, alone_team_for; [done| |by left]. intros u y by_ Hu Hy Hby _. rewrite Hx in Hy. injection Hy as <-.
  cbv zeta. destruct (negb (eq_ignore_ascii_case u e) && _) eqn:Hg; [by left|].
  assert (Hmay : exists by_, may_touch api h x e by_ \/
     exists who, proves genuine api h who /\ active_role_of x who = Some by_ /\ eq_ignore_ascii_case who e = true).
  { exists by_. destruct (eq_ignore_ascii_case u e) eqn:Hl; [right; by exists u|left]. cbn in Hg. apply negb_false_iff in Hg.
    exists u. split; [done|]. split; [done|]. intros m Hm Hm'. by rewrite (role_as_stored x e m Ho He Hm Hm') in Hg. }
  apply wp_bind. unfold Directory.remove_member. rewrite He. apply alone_dir_bind, alone_get; [done|].
  intros r' Hget. destruct r' as [[y|]|]; try (by left). specialize (Hget y eq_refl). rewrite Hx in Hget. injection Hget as <-.
  destruct (role_of x e) as [cur|]; [|by left]. cbv zeta. destruct (_ && (owner_count x =? 1)%nat); [by left|].
  apply alone_ask_res. intros v es Hm. apply (update_effect sl) in Hm; [|done|].
  - assert (Hend : F (did me es s)).
    { destruct Hm as [?|(d & Hd & _ & Heq)]; [by left|right]. injection (eq_trans (eq_sym Hx) Hd) as <-. by split. }
    destruct (mongo v) as [[]|]; [|exact Hend|exact Hend]. apply alone_idle; [|exact Hend]. cbn. split; [done|].
    intros _. unfold spawn_keys_changed. by destruct (on_keys_changed api).
  - intros d [Hd _]%andb_true_iff. by apply String.eqb_eq in Hd.
Qed.

(** A team's profile, which anyone may read, shows public repositories only, pins only of those,
    and only when the team has made its profile public. *)
Theorem profile_shows_public_only api sl s d s' : keyed s -> runs csem me (team_profile api sl) s (ProfilePage d) s' ->
  Forall (fun r => pr_public r = true) (pd_repos d) /\
  Forall (fun p => exists r, r ∈ pd_repos d /\ pr_name r = p) (pd_pins d) /\
  exists x, teams s !! sl = Some x /\ public x = true /\ pd_pins d ⊆ pins x.
Proof using Type.
  intros Hs Hr. refine (alone_runs _ s (ProfilePage d) s' (fun r _ => forall d, r = ProfilePage d ->
    Forall (fun r => pr_public r = true) (pd_repos d) /\
    Forall (fun p => exists r, r ∈ pd_repos d /\ pr_name r = p) (pd_pins d) /\
    exists x, teams s !! sl = Some x /\ public x = true /\ pd_pins d ⊆ pins x) Hr _ d eq_refl).
  unfold team_profile, directory. destruct (has_directory api); [|done]. apply wp_bind, alone_get; [done|].
  intros [[x|]|] Hget; try done. specialize (Hget x eq_refl). destruct (public x) eqn:Hpub; cbn [negb]; [|done].
  apply wp_bind, alone_effect. intros repos s1 _. destruct repos as [repos|]; [|done]. cbn. intros d' [= <-]. cbn.
  split; [|split].
  - apply Forall_map, Forall_forall. intros rp [_ ?]%list_elem_of_In%filter_In. done.
  - apply Forall_forall. intros p [_ (rp & Hrp & Hn%String.eqb_eq)%any_spec]%list_elem_of_In%filter_In.
    exists (mkPublicRepo (r_name rp) (r_description rp) (r_public rp) (r_created_at rp)). split; [|done].
    apply list_elem_of_In, in_map_iff. exists rp. split; [done|]. by apply list_elem_of_In.
  - exists x. split; [done|]. split; [done|]. intros p [? _]%list_elem_of_In%filter_In. by apply list_elem_of_In.
Qed.
End alone.
