(* ===== verification/KeysProps.v ===== *)
(** * KeysProps: the keys that open a team's shells

    The rendered list is a function of the set of keys, in one order and each once, whatever order
    the database lists them in; and for a team it has the active members' keys, all of them and no
    others. *)

From Stdlib Require Import Sorting.Sorted.
From stdpp Require Import sorting.
From S2P Require Import Prelude Text Names Prog People Mongo Directory Console Credentials DirWorld DirOwners DirAlone.
Local Open Scope string_scope.
Local Open Scope Z_scope.

(** ** Lines in order *)
Lemma byte_z_inj c d : byte_z c = byte_z d -> c = d.
Proof.
  unfold byte_z. intros Hz. rewrite <- (Ascii.ascii_N_embedding c), <- (Ascii.ascii_N_embedding d). f_equal. lia.
Qed.

Abbreviation before := (fun a b => str_leb a b = true).

#[export] Instance before_trans : Transitive before.
Proof.
  intros a. induction a as [|x a IH]; intros [|y b] [|z c]; cbn; try done.
  destruct (Z.eqb_spec (byte_z x) (byte_z y)), (Z.eqb_spec (byte_z y) (byte_z z)), (Z.eqb_spec (byte_z x) (byte_z z));
    rewrite ?Z.ltb_lt; try lia. apply IH.
Qed.

#[export] Instance before_antisym : AntiSymm eq before.
Proof.
  intros a. induction a as [|x a IH]; intros [|y b]; cbn; try done.
  destruct (Z.eqb_spec (byte_z x) (byte_z y)) as [Hz|Hz], (Z.eqb_spec (byte_z y) (byte_z x)) as [Hz'|Hz']; rewrite ?Z.ltb_lt;
    try lia. intros H1 H2. apply byte_z_inj in Hz as ->. f_equal. by apply IH.
Qed.

Lemma before_total a b : str_leb a b = false -> str_leb b a = true.
Proof.
  revert b. induction a as [|x a IH]; intros [|y b]; cbn; try done.
  destruct (Z.eqb_spec (byte_z x) (byte_z y)) as [Hz|Hz], (Z.eqb_spec (byte_z y) (byte_z x)) as [Hz'|Hz']; try lia. apply IH.
Qed.

Lemma elem_of_insert x y l : x ∈ insert_line y l <-> x = y \/ x ∈ l.
Proof.
  induction l as [|z l IH]; cbn; [by rewrite list_elem_of_singleton, elem_of_nil; tauto|].
  destruct (str_leb y z); rewrite !elem_of_cons, ?IH; tauto.
Qed.

Lemma elem_of_sort x l : x ∈ sort_lines l <-> x ∈ l.
Proof. induction l as [|y l IH]; [done|]. cbn. by rewrite elem_of_insert, IH, elem_of_cons. Qed.

Lemma insert_sorted y l : StronglySorted before l -> StronglySorted before (insert_line y l).
Proof.
  induction 1 as [|z l Hl IH Hz]; cbn; [by repeat constructor|]. destruct (str_leb y z) eqn:Hyz.
  - constructor; [by constructor|]. constructor; [exact Hyz|]. eapply Forall_impl; [exact Hz|].
    intros v Hv. exact (before_trans y z v Hyz Hv).
  - constructor; [done|]. apply Forall_forall. intros v [->|Hv]%elem_of_insert; [by apply before_total|].
    rewrite Forall_forall in Hz. by apply Hz.
Qed.

Lemma sort_sorted l : StronglySorted before (sort_lines l).
Proof. induction l as [|y l IH]; cbn; [constructor|]. by apply insert_sorted. Qed.

Lemma dedup_cons2 y z l : dedup (y :: z :: l) = if String.eqb y z then dedup (z :: l) else y :: dedup (z :: l).
Proof. done. Qed.

Lemma elem_of_dedup x l : x ∈ dedup l <-> x ∈ l.
Proof.
  induction l as [|y [|z l] IH]; [done..|]. rewrite dedup_cons2.
  destruct (String.eqb_spec y z) as [->|]; rewrite ?elem_of_cons, IH, ?elem_of_cons; tauto.
Qed.

Lemma dedup_sorted l : StronglySorted before l -> StronglySorted before (dedup l) /\ NoDup (dedup l).
Proof.
  induction l as [|y [|z l] IH]; intros Hs; [split; constructor|split; [done|by apply NoDup_singleton]|].
  inversion Hs as [|? ? Hs' Hy]; subst. destruct (IH Hs') as [H1 H2]. rewrite dedup_cons2.
  destruct (String.eqb_spec y z) as [->|Hn]; [done|].
  assert (Hall : Forall (before y) (dedup (z :: l))).
  { apply Forall_forall. intros v Hv. rewrite Forall_forall in Hy. apply Hy. by apply elem_of_dedup. }
  split; [by constructor|]. constructor; [|done]. intros Hin. apply (proj1 (elem_of_dedup _ _)) in Hin. apply Hn. apply (anti_symm before).
  - rewrite Forall_forall in Hy. apply Hy. left.
  - apply elem_of_cons in Hin as [->|Hin]; [done|].
    inversion Hs' as [|? ? _ Hz]; subst. rewrite Forall_forall in Hz. by apply Hz.
Qed.

(** ** The union *)
(** A key's line, when it has one. *)
Definition key_lines (sets : list (list Credential)) : list string :=
  List.filter (fun m => negb (String.eqb m "")) (map (fun c => trim (material c)) (concat sets)).

Lemma elem_of_key_lines x sets : x ∈ key_lines sets <-> x <> "" /\ exists set c, set ∈ sets /\ c ∈ set /\ trim (material c) = x.
Proof.
  unfold key_lines. rewrite list_elem_of_In, filter_In, in_map_iff, negb_true_iff, String.eqb_neq. split.
  - intros [(c & Hc & Hin) Hx]. split; [done|]. apply in_concat in Hin as (set & Hset & Hin).
    exists set, c. by rewrite !list_elem_of_In.
  - intros [Hx (set & c & Hset & Hc & Hm)]. split; [|done]. exists c. split; [done|]. apply in_concat. exists set.
    by rewrite <- !list_elem_of_In.
Qed.

Lemma same_keys_same_lines l l' : (forall x, x ∈ l <-> x ∈ l') -> dedup (sort_lines l) = dedup (sort_lines l').
Proof.
  intros Hx. destruct (dedup_sorted _ (sort_sorted l)) as [S1 N1], (dedup_sorted _ (sort_sorted l')) as [S2 N2].
  apply (StronglySorted_unique before); [done|done|]. apply NoDup_Permutation; [done|done|]. intros x.
  by rewrite !elem_of_dedup, !elem_of_sort.
Qed.

(** The authorised keys are written in one way: every key with material has exactly one line, in
    byte order, and which lines there are depends on nothing but which keys there are, so the order
    and the limit-free listing of the database do not show. *)
Theorem authorized_keys_exact sets sets' :
  (exists l, authorized_keys_union sets = unlines l /\ StronglySorted before l /\ NoDup l /\
     forall x, x ∈ l <-> x <> "" /\ exists set c, set ∈ sets /\ c ∈ set /\ trim (material c) = x) /\
  ((forall x, x ∈ key_lines sets <-> x ∈ key_lines sets') -> authorized_keys_union sets = authorized_keys_union sets').
Proof.
  split.
  - exists (dedup (sort_lines (key_lines sets))). destruct (dedup_sorted _ (sort_sorted (key_lines sets))) as [S1 N1].
    split; [done|]. split; [done|]. split; [done|]. intros x. by rewrite elem_of_dedup, elem_of_sort, elem_of_key_lines.
  - intros Hx. unfold authorized_keys_union. fold (key_lines sets) (key_lines sets'). by rewrite (same_keys_same_lines _ _ Hx).
Qed.

(** ** The file *)

(** The lines of a text, carriage returns before their ends left off. *)
Definition pieces (x : string) : list string := map strip_cr (Text.split nl x).

Lemma pieces_unlines l : lines (unlines l) = concat (map pieces l).
Proof.
  assert (Hs : Text.split nl (unlines l) = (concat (map (Text.split nl) l) ++ [""])%list).
  { induction l as [|x l IH]; [done|]. cbn [unlines foldr]. change (newline +:+ ?r) with (String nl r).
    rewrite split_around. fold (unlines l). rewrite IH. cbn [map concat]. by rewrite <- app_assoc. }
  unfold lines. rewrite Hs, rev_app_distr. cbn [List.rev app]. rewrite rev_involutive, concat_map, map_map. reflexivity.
Qed.

Lemma rendered sets platform : exists l,
  render_authorized_keys (authorized_keys_union sets) platform = unlines l /\ StronglySorted before l /\ NoDup l /\
  forall x, x ∈ l <->
    (exists set c, set ∈ sets /\ c ∈ set /\ trim (material c) <> "" /\ x ∈ pieces (trim (material c))) \/
    (x <> "" /\ exists p, p ∈ platform /\ trim p = x).
Proof.
  eexists. split; [reflexivity|]. split; [apply dedup_sorted, sort_sorted|]. split; [apply dedup_sorted, sort_sorted|]. intros x.
  rewrite elem_of_dedup, elem_of_sort, elem_of_app. unfold authorized_keys_union. fold (key_lines sets). rewrite pieces_unlines. f_equiv.
  - rewrite list_elem_of_In, in_concat. split.
    + intros (l & (y & <- & Hy)%in_map_iff & Hx). apply list_elem_of_In in Hy, Hx. rewrite elem_of_dedup, elem_of_sort in Hy.
      apply elem_of_key_lines in Hy as (Hne & set & c & Hset & Hc & <-). by exists set, c.
    + intros (set & c & Hset & Hc & Hne & Hx). exists (pieces (trim (material c))). split; [|by apply list_elem_of_In].
      apply in_map, list_elem_of_In. rewrite elem_of_dedup, elem_of_sort. apply elem_of_key_lines. split; [done|]. by exists set, c.
  - rewrite list_elem_of_In, filter_In, in_map_iff, negb_true_iff, String.eqb_neq. split.
    + intros [(p & <- & Hp) Hne]. split; [done|]. exists p. by rewrite list_elem_of_In.
    + intros [Hne (p & Hp & <-)]. split; [|done]. exists p. by rewrite <- list_elem_of_In.
Qed.

(** ** Whose keys *)
Definition active_in (ms : list Member) (m : Member) : Prop := m ∈ ms /\ m_state m = Active.

Lemma active_in_snoc ms m0 m : active_in (ms ++ [m0]) m <-> active_in ms m \/ (m = m0 /\ m_state m0 = Active).
Proof. unfold active_in. rewrite elem_of_app, list_elem_of_singleton. naive_solver. Qed.

Section members.
Context `{Casing}.
Variable public_of_private : string -> option string.
Variable mode : coll -> failing.
Variable genuine : string -> Claims -> Prop.
Variable me : nat.
Abbreviation csem := (csem mode genuine).
Abbreviation alone p s Q := (wp csem (fun _ => True) (quiet me) me p s Q).

(** The private keys the platform has minted, by handle; asked for one, the store gives it or fails. *)
Variable user_key : string -> option string.

Definition ksem (t : nat) (X : Type) (e : console_eff X) (s : World) (x : X) (s' : World) : Prop :=
  csem t X e s x s' /\
  match e in console_eff X return X -> Prop with
  | CUserKey h => fun r => forall k, r = Ok k -> k = user_key h
  | _ => fun _ => True
  end x.
Abbreviation knowing p s Q := (wp ksem (fun _ => True) (quiet me) me p s Q).

Lemma alone_knowing {A} (p : CC A) s (Q : A -> World -> Prop) : alone p s Q -> knowing p s Q.
Proof using Type.
  revert s. induction p as [a|X e k IH]; intros s; cbn; [done|]. intros Hp s1 x s2 HR HI [He _].
  destruct (Hp s1 x s2 HR HI He) as (?&?&?). auto.
Qed.

Lemma knowing_key h s (Q : result (option string) -> World -> Prop) :
  (forall r, (forall k, r = Ok k -> k = user_key h) -> Q r s) -> knowing (trigger (CUserKey h)) s Q.
Proof using Type.
  intros HQ s1 x s2 HR _ [He Hk]. cbn in He. subst s2. split; [done|]. split; [by intros t' Ht' ?|]. rewrite <- (HR eq_refl).
  by apply HQ.
Qed.

(** What is read of the directory is what is there. *)
Lemma knowing_find c (q : doc c -> bool) s (Q : result (option (doc c)) -> World -> Prop) :
  (forall r, (forall d, r = Ok (Some d) -> exists k, docs s c !! k = Some d /\ q d = true) ->
     (r = Ok None -> none_selected (docs s) q) -> Q r s) -> knowing (dir (ask (FindOne c q))) s Q.
Proof using Type.
  intros HQ. apply alone_knowing, alone_ask. intros x es Hm.
  destruct Hm as [[-> [(k & d & Hk & Hq & ->)|(Hn & ->)]]|(msg & -> & _ & [->|(_ & y & -> & _)])]; apply HQ; try done.
  intros d' [= <-]. by exists k.
Qed.

(** The SSH keys registered for [e]. *)
Definition ssh_key (s : World) (e : string) (c : Credential) : Prop :=
  exists k, docs s CCredentials !! k = Some c /\ cr_kind c = SshKey /\ cr_owner c = e.
(** No more of them than a listing gives. *)
Definition listed (s : World) (m : Member) : Prop :=
  (length (selected (c := CCredentials) (docs s) (fun c => String.eqb (cr_owner c) (m_user m) && of_kind SshKey c)) <= LISTING_LIMIT)%nat.

Lemma knowing_credentials m s (Q : result (list Credential) -> World -> Prop) : listed s m ->
  (forall r, (forall l, r = Ok l -> forall c, c ∈ l <-> ssh_key s (m_user m) c) -> Q r s) ->
  knowing (dir (credentials_for (m_user m) SshKey)) s Q.
Proof using Type.
  intros Hfew HQ. apply alone_knowing, alone_ask. intros x es Hm.
  assert (Hes : es = []) by by destruct Hm as [[-> _]|(msg & _ & _ & [->|(_ & y & -> & _)])]. subst es. apply HQ.
  intros l Hl c. destruct Hm as [[_ (l' & -> & all & Hall & _ & ->)]|(msg & -> & _)]; [|done]. injection Hl as <-.
  assert (Hle : (length all <= LISTING_LIMIT)%nat).
  { pose proof (Permutation_length Hall) as Hlen. rewrite length_map in Hlen. etrans; [exact (Nat.eq_le_incl _ _ Hlen)|exact Hfew]. }
  rewrite (take_ge all) by exact Hle. rewrite Hall. unfold ssh_key.
  rewrite list_elem_of_In, in_map_iff. split.
  - intros ([k d] & <- & Hin). apply list_elem_of_In, elem_of_selected in Hin as [Hk [Ho%String.eqb_eq Hkind]%andb_true_iff].
    exists k. split; [done|]. by apply bool_decide_eq_true in Hkind.
  - intros (k & Hk & Hkind & Ho). exists (k, c). split; [done|]. apply list_elem_of_In, (elem_of_selected (c := CCredentials)). split; [done|].
    rewrite Ho, String.eqb_refl. by apply bool_decide_eq_true.
Qed.

(** The public half of the key minted for the handle of [e]. *)
Definition platform_key (s : World) (e p : string) : Prop :=
  exists u h private, users s !! lower_trim e = Some u /\ username u = Some h /\
    user_key h = Some private /\ public_of_private private = Some p.

(** The keys collected are those of the active members gone through. *)
Definition gathered (s : World) (ms : list Member) (sets : list (list Credential)) (platform : list string) : Prop :=
  (forall c, (exists set, set ∈ sets /\ c ∈ set) <-> exists m, active_in ms m /\ ssh_key s (m_user m) c) /\
  (forall p, p ∈ platform <-> exists m, active_in ms m /\ platform_key s (m_user m) p).

Lemma gathered_skip s ms m sets platform : m_state m <> Active -> gathered s ms sets platform ->
  gathered s (ms ++ [m]) sets platform.
Proof using Type.
  clear genuine mode. intros Hm [H1 H2]. split; [intros c; rewrite H1|intros p; rewrite H2]; setoid_rewrite active_in_snoc; naive_solver.
Qed.

Lemma gathered_snoc s ms m sets platform keys ps : m_state m = Active -> gathered s ms sets platform ->
  (forall c, c ∈ keys <-> ssh_key s (m_user m) c) -> (forall p, p ∈ ps <-> platform_key s (m_user m) p) ->
  gathered s (ms ++ [m]) (sets ++ [keys]) (platform ++ ps).
Proof using Type.
  clear genuine mode. intros Hm [H1 H2] Hk Hp. split.
  - intros c. setoid_rewrite active_in_snoc. setoid_rewrite elem_of_app. setoid_rewrite list_elem_of_singleton. specialize (H1 c).
    specialize (Hk c). naive_solver.
  - intros p. setoid_rewrite active_in_snoc. rewrite elem_of_app, H2, Hp. naive_solver.
Qed.

(** The directory's rows are under their own keys. *)
Definition rows_keyed (s : World) : Prop := forall c k d, docs s c !! k = Some d -> id_of c d = k.

Lemma knowing_members_keys s ms : rows_keyed s -> Forall (listed s) ms -> forall past sets platform, gathered s past sets platform ->
  knowing (members_keys public_of_private ms sets platform) s
    (fun r s' => s' = s /\ forall sets' platform', r = Ok (sets', platform') -> gathered s (past ++ ms) sets' platform').
Proof using Type.
  intros Hids. induction 1 as [|m ms Hm _ IH]; intros past sets platform Hg; cbn [members_keys].
  { split; [done|]. intros sets' platform' [= <- <-]. by rewrite app_nil_r. }
  replace (past ++ m :: ms)%list with ((past ++ [m]) ++ ms)%list by by rewrite <- app_assoc.
  destruct (negb (is_active m)) eqn:Ha.
  { apply IH, gathered_skip; [|done]. apply negb_true_iff in Ha. by apply bool_decide_eq_false in Ha. }
  apply negb_false_iff, bool_decide_eq_true in Ha.
  apply wp_bind, knowing_credentials; [done|]. intros [keys|er] Hkeys; [|done]. specialize (Hkeys keys eq_refl).
  apply wp_bind, knowing_find. intros r Hsome Hnone. destruct r as [u|er]; [|done].
  assert (Hu : @eq (option User) (users s !! lower_trim (m_user m)) u).
  { destruct u as [u|].
    - destruct (Hsome u eq_refl) as (k & Hk & Hq%String.eqb_eq). rewrite <- Hq. by rewrite (Hids CUsers k u Hk).
    - destruct (users s !! _) as [u|] eqn:E; [|done]. specialize (Hnone eq_refl _ _ E). unfold by_id in Hnone.
      by rewrite (Hids CUsers _ _ E), String.eqb_refl in Hnone. }
  clear Hsome Hnone. destruct (handle_of u) as [handle|] eqn:Hh.
  - apply wp_bind, knowing_key. intros [private|er] Hpr; [|done]. specialize (Hpr private eq_refl). subst private.
    destruct u as [u|]; [|done]. cbn in Hh. unfold public_of.
    assert (Hplat : forall p, platform_key s (m_user m) p <-> exists private, user_key handle = Some private /\ public_of_private private = Some p).
    { intros p. split; [intros (u' & h & private & Hu' & Hh' & Hk & Hp)|intros (private & Hk & Hp); by exists u, handle, private].
      assert (u' = u) as -> by congruence. exists private. split; [congruence|done]. }
    destruct (user_key handle) as [private|] eqn:Eu; [destruct (public_of_private private) as [public|] eqn:Ep|].
    + apply IH, gathered_snoc; [done..|]. intros p. rewrite Hplat, list_elem_of_singleton. naive_solver.
    + rewrite <- (app_nil_r platform). apply IH, gathered_snoc; [done..|]. intros p. rewrite Hplat, elem_of_nil. naive_solver.
    + rewrite <- (app_nil_r platform). apply IH, gathered_snoc; [done..|]. intros p. rewrite Hplat, elem_of_nil. naive_solver.
  - rewrite <- (app_nil_r platform). apply IH, gathered_snoc; [done..|]. intros p. rewrite elem_of_nil. split; [done|].
    intros (u' & h & private & Hu' & Hh' & _). rewrite Hu in Hu'. rewrite Hu' in Hh. cbn in Hh. congruence.
Qed.

(** C34: The file of keys rendered for a team has exactly these lines, in byte order and each once: the
    lines of every SSH key registered for an active member, and the public half of the platform key
    minted for each active member's handle.  A paused member's keys are not there, nobody else's are,
    and no active member's is missing (as long as none has more than the 500 a listing gives). *)
Theorem team_keys_are_active_members owner s x text s' : rows_keyed s -> teams s !! owner = Some x ->
  (forall k u, users s !! k = Some u -> has_username (lower_trim owner) u = false) -> Forall (listed s) (members x) ->
  runs ksem me (authorized_keys_for public_of_private owner) s (Ok text) s' ->
  exists l, text = unlines l /\ StronglySorted before l /\ NoDup l /\
    forall line, line ∈ l <-> exists m, m ∈ members x /\ m_state m = Active /\
      ((exists c, ssh_key s (m_user m) c /\ trim (material c) <> "" /\ line ∈ pieces (trim (material c))) \/
       (line <> "" /\ exists p, platform_key s (m_user m) p /\ trim p = line)).
Proof using Type.
  intros Hids Hx Hnobody Hfew Hr.
  assert (Hwp : knowing (authorized_keys_for public_of_private owner) s (fun r _ => forall text, r = Ok text ->
    exists sets platform, text = render_authorized_keys (authorized_keys_union sets) platform /\ gathered s (members x) sets platform)).
  2:{ destruct (runs_wp ksem (fun _ => True) (quiet me) me _ s _ s' _ Hr I Hwp) as [Hq _].
      destruct (Hq text eq_refl) as (sets & platform & -> & Hg1 & Hg2). destruct (rendered sets platform) as (l & -> & Hl1 & Hl2 & Hl).
      exists l. split_and!; [done..|]. intros line. rewrite Hl. unfold active_in in *. setoid_rewrite Hg2. naive_solver. }
  apply wp_bind, knowing_find. intros [[u|]|er] Hu _; [|..|done].
  { destruct (Hu u eq_refl) as (k & Hk & Hq). by rewrite (Hnobody k u Hk) in Hq. }
  apply wp_bind, knowing_find. intros [[team|]|er] Ht Hno; [| |done].
  - destruct (Ht team eq_refl) as (k & Hk & Hq%String.eqb_eq). rewrite (Hids CTeams k team Hk) in Hq. subst k.
    assert (team = x) as -> by (unfold teams in Hx; cbn [doc] in *; congruence). apply wp_bind.
    eapply wp_mono; [apply (knowing_members_keys s (members x) Hids Hfew [] [] [])|].
    + split; intros; rewrite ?elem_of_nil; unfold active_in; setoid_rewrite elem_of_nil; naive_solver.
    + intros [[sets platform]|er] s1 [-> Hg]; [|done]. intros text' [= <-]. exists sets, platform. split; [done|]. by apply Hg.
  - specialize (Hno eq_refl owner x Hx). unfold by_id in Hno. by rewrite (Hids CTeams _ _ Hx), String.eqb_refl in Hno.
Qed.
End members.
