(* ===== verification/DirWitness.v ===== *)
(** * DirWitness: the directory and the console run on a database in memory

    [drive] steps a pool of tasks by a schedule, losing answers where it says so; what it does is an
    interleaving of [pstep].  On it the statements of [DirProps], [DirOwners], [DirAlone] and
    [KeysProps] are applied, and the flaws are shown: runs in which the code does not do what its
    comments or its names say. *)

From Stdlib Require Import Sorting.Sorted.
From S2P Require Import Prelude Text Names Prog Sched People Mongo Directory Console Credentials DirWorld DirRules DirSafe DirProps DirOwners DirAlone KeysProps.
Local Open Scope string_scope.
Local Open Scope Z_scope.

(** ** A machine *)
Module Machine.

(** Case on ASCII alone. *)
Definition upper (c : ascii) : ascii := if in_range 97 122 c then ascii_of_nat (nat_of_ascii c - 32) else c.
#[export] Instance ascii_casing : Casing := {|
  to_lowercase := map_chars ascii_lower;
  to_uppercase := map_chars upper;
  lowercase_ascii := fun s _ => eq_refl;
|}.

Definition clock : Z := 1700000000000.

(** A token is its bearer's address behind [T:]; everyone called "x" has the handle "x". *)
Definition decode (tok : string) : option Claims :=
  match strip_prefix "T:" tok with
  | Some e => Some (mkClaims e e (Some "ann") "session" false None 0 9999999999)
  | None => None
  end.
Definition genuine (tok : string) (c : Claims) : Prop := decode tok = Some c.

Definition sha (s : string) : string := "sha:" +:+ s.
Definition libs_with (dollar : nat -> nat -> nat) : Libs :=
  mkLibs dollar sha (fun k => Ok k) (fun _ => None) (fun k => Some ("pub " +:+ k)) sha.
Definition libs : Libs := libs_with (fun i _ => i).

(** One effect; [lost] when it is done but its answer is not heard. *)
Definition mstep (lost : bool) (t : nat) {X} (e : console_eff X) (s : World) : option (X * World) :=
  match e in console_eff X return option (X * World) with
  | CDir e =>
    match e in dir_eff X return option (X * World) with
    | DColl e => let '(x, es) := exec_coll e (docs s) in Some (if lost then fail_with e "timeout" else x, did t es s)
    | DNow => Some (clock, s)
    end
  | CDecode tok => Some (decode tok, s)
  | CEncode c => Some (Ok ("cli:" +:+ sub c), s)
  | CRandom n => Some (if Nat.eqb n 16 then "r16-" +:+ display (Z.of_nat (length (hist s))) else "r32", s)
  | CRange _ => Some (0%nat, s)
  | CRegionCheck _ => Some (Ok true, s)
  | CActiveRegions => Some (Ok ["r1"], s)
  | CRepoListing o _ => Some (Ok [mkRepoOut "1" o "site" true "" "" 0; mkRepoOut "2" o "plans" false "" "" 0], s)
  | CKeysChanged _ => Some ((), s)
  | CMemberState _ _ => Some ((), s)
  | CForget _ _ => Some ((), s)
  | CAudit _ _ _ _ _ => Some (Ok (), s)
  | CCreateToken o => Some (Ok o, s)
  | CRevokeDigest _ => Some (Ok (), s)
  | CAddSshKey _ _ => Some (Ok (), s)
  | CRemoveSshKey _ => Some (Ok (), s)
  | CUserKey o => Some (Ok (Some o), s)
  | CBegin => if forallb (fun ta => negb (Nat.eqb ta.1 t)) (hist s) then Some ((), s) else None
  | CAnswer a r => Some ((), answered t a r s)
  end.

(** Answers are lost only where collections are torn. *)
Definition may_lose (mode : coll -> failing) (lost : bool) : Prop := lost = true -> forall c, mode c = Torn.

Lemma mstep_sem mode lost t X (e : console_eff X) s x s' : may_lose mode lost ->
  mstep lost t e s = Some (x, s') -> csem mode genuine t X e s x s'.
Proof.
  intros Hl He. destruct e; cbn in He |- *; try (by injection He as <- <-); try (injection He as <- <-; by split).
  - destruct e as [X e|]; cbn in He |- *; [|by injection He as <- <-].
    pose proof (exec_coll_works e (docs s)) as Hw. destruct (exec_coll e (docs s)) as [y es]. cbn in Hw.
    destruct lost; injection He as <- <-; exists es; (split; [|done]).
    + right. exists "timeout". split; [done|]. rewrite (Hl eq_refl). split; [done|]. right. split; [done|]. by exists y.
    + by left.
  - destruct (forallb _ _) eqn:Hf; [|done]. injection He as <- <-. split; [done|]. apply Forall_forall. intros ta Hta.
    rewrite forallb_forall in Hf. apply list_elem_of_In in Hta. specialize (Hf ta Hta). apply negb_true_iff in Hf.
    by apply Nat.eqb_neq.
Qed.

(** ** Schedules *)
Abbreviation drive := (Sched.drive (fun lost t X e s => @mstep lost t X e s)).
Abbreviation loses := odd_moves.

Lemma drive_reached mode entry sched ps s ps' s' : may_lose mode (loses sched) -> drive sched ps s = Some (ps', s') ->
  rtc (pstep (csem mode genuine) entry) (s, ps) (s', ps').
Proof.
  intros Hl. apply (drive_steps _ _ entry (may_lose mode)); [done| |done|intros H b _; exact (H eq_refl)].
  intros lost t X e s1 x s2 H. by apply mstep_sem.
Qed.
End Machine.

(** ** A small directory *)
Module Town.
Import Machine.

Definition api : Api := mkApi true true "k" true true true true.
Definition as_ (email : string) : Headers := mkHeaders None "k" (Some email).
Definition bearing (email : string) : Headers := mkHeaders (Some ("T:" +:+ email)) "" None.

Definition member (e : string) (r : Role) (st : MemberState) : Member := mkMember e r 0 st None None.
Definition acme : Team := mkTeam "acme" "Acme" "" true "" "" "" "" ["site"; "plans"] "r1" "ann@x" 0
  [member "ann@x" Owner Active; member "bob@x" Owner Active; member "cid@x" Admin Active; member "dan@x" Member_ Paused].

Definition key (owner id : string) : Credential := mkCredential id SshKey owner owner id ("ssh-ed25519 " +:+ id) [id] 0.

Definition start_docs : database := fun c =>
  match c return gmap string (doc c) with
  | CUsers => {["ann@x" := mkUser "ann@x" "Ann" (Some "ann") "r1" 0 0; "bob@x" := mkUser "bob@x" "Bob" None "" 0 0;
                "cid@x" := mkUser "cid@x" "Cid" None "" 0 0; "eve@x" := mkUser "eve@x" "Eve" None "" 0 0;
                "fay@x" := mkUser "fay@x" "Fay" None "" 0 0]}
  | CTeams => {["acme" := acme]}
  | CHandles => {["ann" := mkHandle "ann" User_ "ann@x" 0; "acme" := mkHandle "acme" Team_ "ann@x" 0]}
  | CSuperadmins => {["ann@x" := mkSuperAdmin "ann@x" 0 "bootstrap"; "bob@x" := mkSuperAdmin "bob@x" 0 "bootstrap"]}
  | CCredentials => {["k1" := key "cid@x" "k1"; "k2" := key "dan@x" "k2"]}
  | _ => ∅
  end.
Definition start : World := mkWorld start_docs [].

(** *** Checks of a whole directory *)
Definition every {A} (m : gmap string A) (f : string -> A -> bool) : bool := forallb (fun kd => f kd.1 kd.2) (map_to_list m).

Lemma every_spec {A} (m : gmap string A) f : every m f = true -> forall k d, m !! k = Some d -> f k d = true.
Proof.
  unfold every. rewrite forallb_forall. intros Hf k d Hk. apply (Hf (k, d)).
  by apply list_elem_of_In, elem_of_map_to_list.
Qed.

Definition ids_ok (c : coll) (s : World) : bool := every (docs s c) (fun k d => String.eqb (id_of c d) k).
Definition all_colls : list coll :=
  [CTeams; CUsers; CHandles; CInvites; CSignins; CCliLogins; CSuperadmins; CRepos; CCredentials; CPasskeys; CMeta].

Definition held (s : World) (h : string) : bool := is_some (handles s !! h).

Definition wf_check (s : World) : bool :=
  forallb (fun c => ids_ok c s) all_colls &&
  every (teams s) (fun k x => bool_decide (NoDup (map m_user (members x))) && held s k) &&
  every (users s) (fun k u => match username u with
    | None => true
    | Some h => held s h && is_none (teams s !! h) &&
                every (users s) (fun k' u' => implb (bool_decide (username u' = Some h)) (String.eqb k k'))
    end).


Lemma wf_sound s : wf_check s = true -> Wf s.
Proof.
  unfold wf_check. intros [[Hids Ht]%andb_true_iff Hu]%andb_true_iff. rewrite forallb_forall in Hids.
  pose proof (every_spec _ _ Ht) as Ht'. pose proof (every_spec _ _ Hu) as Hu'. cbn beta in Ht', Hu'.
  assert (Hheld : forall h, held s h = true -> is_Some (handles s !! h)).
  { unfold held. intros h. destruct (handles s !! h) as [d|]; [by exists d|done]. }
  split.
  - intros c k d Hk. assert (Hc : In c all_colls) by (destruct c; cbn; tauto).
    apply String.eqb_eq. exact (every_spec _ _ (Hids c Hc) k d Hk).
  - intros k x Hx. specialize (Ht' k x Hx). apply andb_true_iff in Ht' as [Hn _]. by apply bool_decide_eq_true in Hn.
  - intros h [(k & u & Hk & Hn)|[x Hx]]; apply Hheld.
    + specialize (Hu' k u Hk). rewrite Hn in Hu'. by apply andb_true_iff in Hu' as [[? _]%andb_true_iff _].
    + specialize (Ht' h x Hx). by apply andb_true_iff in Ht' as [_ ?].
  - intros k1 k2 u1 u2 h H1 H2 Hn1 Hn2. specialize (Hu' k1 u1 H1). rewrite Hn1 in Hu'.
    apply andb_true_iff in Hu' as [_ Hu2]. pose proof (every_spec _ _ Hu2 k2 u2 H2) as Hi. cbn in Hi.
    rewrite bool_decide_eq_true_2 in Hi by done. by apply String.eqb_eq in Hi.
  - intros k u h Hk Hn. specialize (Hu' k u Hk). rewrite Hn in Hu'. apply andb_true_iff in Hu' as [[_ Hu']%andb_true_iff _].
    by destruct (teams s !! h).
Qed.

Lemma start_wf : Wf start.
Proof. apply wf_sound. vm_compute. reflexivity. Qed.

(** *** Runs *)
Definition steady : coll -> failing := fun _ => Reliable.
Definition torn : coll -> failing := fun _ => Torn.

Definition outcome (sched : list move) (ps : list (nat * CC unit)) : World :=
  match drive sched ps start with Some (_, s) => s | None => start end.
Definition left_over (sched : list move) (ps : list (nat * CC unit)) : list (nat * CC unit) :=
  match drive sched ps start with Some (ps, _) => ps | None => ps end.

(** What was answered, in order. *)
Definition answers_of (s : World) : list (nat * Response) :=
  rev (omap (fun ta => match ta.2 with Said _ r => Some (ta.1, r) | _ => None end) (hist s)).

(** A day: two invitations under one token, two links, two logins under one code, and two handles. *)
Definition day : list (nat * CC unit) := [
  (1%nat, serve AskOther (Console.create_invite sha api (as_ "ann@x") "acme" "Eve@x" Admin));
  (2%nat, serve (AskAccept api (as_ "eve@x") "r32") (Console.accept_invite sha api (as_ "eve@x") "r32"));
  (3%nat, serve AskOther (Console.create_invite sha api (as_ "ann@x") "acme" "fay@x" Member_));
  (4%nat, serve (AskAccept api (as_ "fay@x") "r32") (Console.accept_invite sha api (as_ "fay@x") "r32"));
  (5%nat, serve AskOther (create_signin_link sha api (as_ "ann@x") "ann@x"));
  (6%nat, serve (AskRedeem "r32") (redeem_signin_link sha api (as_ "web") "r32"));
  (7%nat, serve AskOther (create_signin_link sha api (as_ "bob@x") "bob@x"));
  (8%nat, serve (AskRedeem "r32") (redeem_signin_link sha api (as_ "web") "r32"));
  (9%nat, serve AskOther (cli_code api "laptop"));
  (10%nat, serve (AskApprove "bbbb-bbbb") (cli_approve api (bearing "ann@x") "bbbb-bbbb"));
  (11%nat, serve (AskPoll "r16-18") (cli_token api "r16-18"));
  (12%nat, serve AskOther (cli_code api "laptop"));
  (13%nat, serve (AskApprove "BBBB-BBBB ") (cli_approve api (bearing "ann@x") "BBBB-BBBB "));
  (14%nat, serve AskOther (Console.claim_username api (as_ "bob@x") "bobby"));
  (15%nat, serve AskOther (create_team api (as_ "bob@x") "beta" "Beta" "r1"));
  (16%nat, serve (AskRevokeAdmin "bob@x") (Console.remove_superadmin api (as_ "ann@x") "bob@x" "moved on"))].
Definition day_sched : list move := map (fun n => Go n 60) (seq 1 16).

(** Every task of a pool is an entry point. *)
Definition all_entries (L : Libs) (ps : list (nat * CC unit)) : Prop := forall tp, tp ∈ ps ->
  entry (l_dollar L) (l_sha256 L) (l_ssh L) (l_gpg L) (l_public L) (l_digest L) tp.1 tp.2.

Lemma entries_nil L : all_entries L [].
Proof. by intros tp ?%elem_of_nil. Qed.

Lemma entries_cons L t p ps :
  entry (l_dollar L) (l_sha256 L) (l_ssh L) (l_gpg L) (l_public L) (l_digest L) t p ->
  all_entries L ps -> all_entries L ((t, p) :: ps).
Proof. intros Hp Hps tp [->|Htp]%elem_of_cons; [done|by apply Hps]. Qed.

(** By what is served, not by unfolding it. *)
Ltac entries := repeat (apply entries_cons; [lazymatch goal with
  | |- entry _ _ _ _ _ _ _ (serve _ (create_team _ _ _ _ _)) => apply entry_create_team
  | |- entry _ _ _ _ _ _ _ (serve _ (Console.claim_username _ _ _)) => apply entry_claim_username
  | |- entry _ _ _ _ _ _ _ (serve _ (Console.accept_invite _ _ _ _)) => apply entry_accept
  | |- entry _ _ _ _ _ _ _ (serve _ (redeem_signin_link _ _ _ _)) => apply entry_redeem
  | |- entry _ _ _ _ _ _ _ (serve _ (cli_approve _ _ _)) => apply entry_approve
  | |- entry _ _ _ _ _ _ _ (serve _ (cli_token _ _)) => apply entry_poll
  | |- entry _ _ _ _ _ _ _ (serve _ (Console.remove_superadmin _ _ _ _)) => apply entry_revoke_admin
  | |- entry _ _ _ _ _ _ _ (serve _ (Console.create_invite _ _ _ _ _ _)) => eapply entry_plain, plain_create_invite
  | |- entry _ _ _ _ _ _ _ (serve _ (create_signin_link _ _ _ _)) => eapply entry_plain, plain_create_signin
  | |- entry _ _ _ _ _ _ _ (serve _ (cli_code _ _)) => eapply entry_plain, plain_cli_code
  | |- entry _ _ _ _ _ _ _ (serve _ (Console.set_role _ _ _ _ _ _)) => eapply entry_plain, plain_set_role
  | |- entry _ _ _ _ _ _ _ (serve _ (Console.remove_member _ _ _ _)) => eapply entry_plain, plain_remove_member
  | |- entry _ _ _ _ _ _ _ (serve _ (Console.upsert_user _ _ _ _)) => eapply entry_plain, plain_upsert_user
  end|]); apply entries_nil.

Lemma outcome_reached L mode sched ps : NoDup ps.*1 -> all_entries L ps -> may_lose mode (loses sched) ->
  is_some (drive sched ps start) = true -> reached L mode genuine start (outcome sched ps) (left_over sched ps).
Proof.
  intros Hnd He Hl Hd. split; [apply start_wf|]. split; [done|]. unfold outcome, left_over.
  destruct (drive sched ps start) as [[ps' s']|] eqn:Hrun; [|done]. etrans; [by apply pool_starts|].
  exact (drive_reached _ _ sched ps start ps' s' Hl Hrun).
Qed.

Lemma day_entries : all_entries libs day.
Proof. unfold day. entries. Qed.

Lemma day_reached : reached libs steady genuine start (outcome day_sched day) (left_over day_sched day).
Proof. apply outcome_reached; [apply (bool_decide_unpack _); vm_compute; exact I|apply day_entries|done|vm_compute; reflexivity]. Qed.

(** An answer that was given, found by its place. *)
Lemma said_at s n t a r : nth_error (hist s) n = Some (t, Said a r) -> (t, Said a r) ∈ hist s.
Proof. intros Hn. apply list_elem_of_In. by eapply nth_error_In. Qed.

Fixpoint said_index (t : nat) (l : list (nat * act)) : nat :=
  match l with
  | [] => 0%nat
  | (t', Said _ _) :: l => if Nat.eqb t' t then 0%nat else S (said_index t l)
  | _ :: l => S (said_index t l)
  end.

Ltac said t := match goal with |- (_, _) ∈ hist ?s => apply (said_at s (said_index t (hist s))); vm_compute; reflexivity end.

(** ** The statements, applied *)
Abbreviation today := (outcome day_sched day).
Abbreviation rest := (left_over day_sched day).

Lemma clean_steady c : steady c <> Torn.
Proof. done. Qed.

Lemma handles_held_once_witness : reached libs steady genuine start today rest /\
  (username <$> users today !! "bob@x") = Some (Some "bobby") /\ is_some (teams today !! "beta") = true /\
  (forall k1 k2 u1 u2 h, users today !! k1 = Some u1 -> users today !! k2 = Some u2 ->
     username u1 = Some h -> username u2 = Some h -> k1 = k2).
Proof.
  split; [exact day_reached|]. split; [vm_compute; reflexivity|]. split; [vm_compute; reflexivity|].
  apply (handles_held_once libs steady genuine start (clean_steady CUsers) (clean_steady CTeams) today rest day_reached).
Defined.

Lemma invitation_admits_once_witness :
  (2 <= count (fun i => String.eqb (i_id i) (sha "r32")) (stored start_docs CInvites (evs (hist today))))%nat.
Proof.
  apply (invitation_admits_once libs steady genuine start (clean_steady CUsers) (clean_steady CTeams) today rest 2 4
    api api (as_ "eve@x") (as_ "fay@x") "r32" "acme" "acme" day_reached); [done|said 2%nat|said 4%nat].
Defined.

Lemma invitation_is_for_its_address_witness : exists who i, proves genuine api (as_ "eve@x") who /\
  i ∈ stored start_docs CInvites (evs (hist today)) /\ i_id i = sha "r32" /\ i_team i = "acme" /\
  eq_ignore_ascii_case (i_email i) (lower_trim who) = true.
Proof.
  apply (invitation_is_for_its_address libs steady genuine start (clean_steady CUsers) (clean_steady CTeams) today rest 2
    api (as_ "eve@x") "r32" "acme" day_reached). said 2%nat.
Defined.

Lemma signin_link_once_witness :
  (exists d, (6%nat, Removed CSignins (sha "r32") d) ∈ evs (hist today) /\ si_id d = sha "r32" /\ si_email d = "ann@x") /\
  (2 <= count (fun d => String.eqb (si_id d) (sha "r32")) (stored start_docs CSignins (evs (hist today))))%nat.
Proof.
  assert (H6 : (6%nat, Said (AskRedeem "r32") (Email "ann@x")) ∈ hist today) by said 6%nat.
  destruct (signin_link_once libs steady genuine start (clean_steady CUsers) (clean_steady CTeams) today rest 6 "r32" "ann@x"
    day_reached H6) as [Hd Ho]. split; [exact Hd|]. apply (Ho 8%nat "bob@x"); [done|said 8%nat].
Defined.

Lemma cli_code_approved_once_witness :
  (2 <= count (fun d => String.eqb (code d) "BBBB-BBBB") (stored start_docs CCliLogins (evs (hist today))))%nat.
Proof.
  apply (cli_code_approved_once libs steady genuine start (clean_steady CUsers) (clean_steady CTeams) today rest 10 13
    "bbbb-bbbb" "BBBB-BBBB " 204 204 day_reached); [done|vm_compute; reflexivity|said 10%nat|said 13%nat].
Defined.

Lemma polled_token_was_approved_witness : exists d, poll d = "r16-18" /\ token d = Some "cli:ann@x" /\
  (d ∈ all_docs CCliLogins start_docs \/
   exists t' k old, (t', Changed CCliLogins k old d) ∈ evs (hist today) /\ token old = None).
Proof.
  apply (polled_token_was_approved libs steady genuine start (clean_steady CUsers) (clean_steady CTeams) today rest 11
    "r16-18" "cli:ann@x" 1702592000000 day_reached). said 11%nat.
Defined.

Lemma handle_and_region_stay_witness : exists u', users today !! "ann@x" = Some u' /\
  (Some "ann" = None \/ username u' = Some "ann") /\ ("r1" = "" \/ u_region u' = "r1").
Proof.
  destruct (handle_and_region_stay libs steady genuine start (clean_steady CUsers) (clean_steady CTeams) today rest day_reached)
    as [Hu _]. exact (Hu "ann@x" (mkUser "ann@x" "Ann" (Some "ann") "r1" 0 0) eq_refl).
Defined.

Lemma roster_never_left_empty_witness : exists k a, docs today CSuperadmins !! k = Some a.
Proof.
  apply (roster_never_left_empty libs steady genuine start (clean_steady CUsers) (clean_steady CTeams) today rest day_reached
    eq_refl).
  - exists "ann@x", (mkSuperAdmin "ann@x" 0 "bootstrap"). reflexivity.
  - apply all_ended_spec. vm_compute. reflexivity.
Defined.

(** *** One request at a time *)
#[export] Instance console_exec : Exec console_eff World := fun X e s => mstep false 1 e s.

Lemma run_alone mode {A} (p : CC A) s a s' : run p s = Some (a, s') -> runs (csem mode genuine) 1%nat p s a s'.
Proof.
  revert s. induction p as [b|X e k IH]; intros s; cbn; [intros [= <- <-]; constructor|].
  destruct (exec X e s) as [[x s1]|] eqn:He; [|done]. intros Hr. econstructor; [|by apply IH].
  by apply (mstep_sem mode false).
Qed.

Definition after {E A} `{Exec E World} (p : prog E A) (s : World) : World := match run p s with Some (_, s') => s' | None => s end.
Definition said_by {E A} `{Exec E World} (p : prog E A) (s : World) : option A := match run p s with Some (a, _) => Some a | None => None end.

Lemma run_after mode {A} (p : CC A) s a : said_by p s = Some a -> runs (csem mode genuine) 1%nat p s a (after p s).
Proof.
  unfold said_by, after. destruct (run p s) as [[b s']|] eqn:Hr; [|done]. intros [= <-]. by apply run_alone.
Qed.

Lemma ascii_lower_twice : forall e, settled_case (to_lowercase e).
Proof.
  intros e. unfold settled_case. cbn. induction e as [|c e IH]; [done|]. cbn. rewrite IH. f_equal.
  destruct c as [[] [] [] [] [] [] [] []]; vm_compute; reflexivity.
Qed.

Definition orderly_check (x : Team) : bool :=
  bool_decide (NoDup (map m_user (members x))) && forallb (fun m => String.eqb (map_chars ascii_lower (m_user m)) (m_user m)) (members x).

Lemma orderly_sound x : orderly_check x = true -> orderly x.
Proof.
  intros [Hn Hs]%andb_true_iff. split; [by apply bool_decide_eq_true in Hn|]. intros m Hm. rewrite forallb_forall in Hs.
  apply String.eqb_eq, Hs. by apply list_elem_of_In.
Qed.

Lemma start_keyed : keyed start.
Proof. intros k x Hx. exact (wf_ids _ start_wf CTeams k x Hx). Qed.

Lemma acme_there : teams start !! "acme" = Some acme.
Proof. vm_compute. reflexivity. Qed.

Lemma acme_orderly : orderly acme.
Proof. apply orderly_sound. vm_compute. reflexivity. Qed.

(** An admin makes a member an admin. *)
Definition promote_dan : CC Response := Console.set_role (l_dollar libs) api (as_ "cid@x") "acme" "dan@x" Admin.

Lemma role_change_is_entitled_witness : teams (after promote_dan start) <> teams start /\
  exists by_, may_touch genuine api (as_ "cid@x") acme "dan@x" by_ /\ may_grant by_ Admin = true /\
    (exists m, m ∈ members acme /\ m_user m = "dan@x") /\
    teams (after promote_dan start) = <["acme" := set_members (with_role_for "dan@x" Admin) acme]> (teams start).
Proof.
  assert (Hch : teams (after promote_dan start) <> teams start).
  { intros Heq. apply (f_equal (fun m : gmap string Team => (fun x => map m_role (members x)) <$> m !! "acme")) in Heq.
    vm_compute in Heq. discriminate. }
  split; [exact Hch|].
  destruct (role_change_is_entitled (l_dollar libs) steady genuine 1 ascii_lower_twice api (as_ "cid@x") "acme" "dan@x" Admin
    start (Status 204) (after promote_dan start) acme start_keyed acme_orderly acme_there eq_refl
    (or_introl (fun i j => eq_refl)) (run_after steady promote_dan start (Status 204) ltac:(vm_compute; reflexivity))) as [Hs|Hd]; [destruct (Hch Hs)|exact Hd].
Defined.

(** A member leaves. *)
Definition cid_leaves : CC Response := Console.remove_member api (as_ "cid@x") "acme" "cid@x".

Lemma removal_is_entitled_witness : teams (after cid_leaves start) <> teams start /\
  (teams (after cid_leaves start) = <["acme" := set_members (List.filter (fun m => negb (named "cid@x" m))) acme]> (teams start) /\
   exists by_, may_touch genuine api (as_ "cid@x") acme "cid@x" by_ \/
     exists who, proves genuine api (as_ "cid@x") who /\ active_role_of acme who = Some by_ /\
       eq_ignore_ascii_case who "cid@x" = true).
Proof.
  assert (Hch : teams (after cid_leaves start) <> teams start).
  { intros Heq. apply (f_equal (fun m : gmap string Team => (fun x => length (members x)) <$> m !! "acme")) in Heq.
    vm_compute in Heq. discriminate. }
  split; [exact Hch|].
  destruct (removal_is_entitled steady genuine 1 ascii_lower_twice api (as_ "cid@x") "acme" "cid@x"
    start (Status 204) (after cid_leaves start) acme start_keyed acme_orderly acme_there eq_refl
    (run_after steady cid_leaves start (Status 204) ltac:(vm_compute; reflexivity))) as [Hs|Hd]; [destruct (Hch Hs)|exact Hd].
Defined.

(** Anyone looks at the team; its shells are opened. *)
Definition the_page : ProfileDoc :=
  mkProfileDoc "acme" "Acme" "" "" "" "" "" 4 ["site"] [mkPublicRepo "site" "" true 0].

Lemma profile_shows_public_only_witness : Forall (fun r => pr_public r = true) (pd_repos the_page) /\
  Forall (fun p => exists r, r ∈ pd_repos the_page /\ pr_name r = p) (pd_pins the_page) /\
  exists x, teams start !! "acme" = Some x /\ public x = true /\ pd_pins the_page ⊆ pins x.
Proof.
  apply (profile_shows_public_only steady genuine 1 api "acme" start the_page (after (team_profile api "acme") start) start_keyed).
  apply run_after. vm_compute. reflexivity.
Defined.

Definition acme_keys : string := unlines ["pub ann"; "ssh-ed25519 k1"].

(** The platform's key of a handle is the handle itself here. *)
Lemma run_knowing mode {A} (p : CC A) s a s' : run p s = Some (a, s') -> runs (ksem mode genuine Some) 1%nat p s a s'.
Proof.
  revert s. induction p as [b|X e k IH]; intros s; cbn; [intros [= <- <-]; constructor|].
  destruct (exec X e s) as [[x s1]|] eqn:He; [|done]. intros Hr. econstructor; [|by apply IH].
  split; [by apply (mstep_sem mode false)|]. destruct e; try done. cbn in He. injection He as <- <-. by intros k0 [= <-].
Qed.

(** Dan, who is paused, has a key: [k2]. *)
Lemma team_keys_are_active_members_witness : exists l, acme_keys = unlines l /\ StronglySorted before l /\ NoDup l /\
  forall line, line ∈ l <-> exists m, m ∈ members acme /\ m_state m = Active /\
    ((exists c, ssh_key start (m_user m) c /\ trim (material c) <> "" /\ line ∈ pieces (trim (material c))) \/
     (line <> "" /\ exists p, platform_key (l_public libs) Some start (m_user m) p /\ trim p = line)).
Proof.
  apply (team_keys_are_active_members (l_public libs) steady genuine 1 Some "acme" start acme acme_keys
    (after (authorized_keys_for (l_public libs) "acme") start)).
  - exact (wf_ids _ start_wf).
  - exact acme_there.
  - assert (He : every (users start) (fun _ u => negb (has_username (lower_trim "acme") u)) = true) by (vm_compute; reflexivity).
    intros k u Hu. pose proof (every_spec _ _ He k u Hu) as Hn. by apply negb_true_iff in Hn.
  - repeat constructor; apply Nat.leb_le; vm_compute; reflexivity.
  - apply run_knowing. unfold after. destruct (run _ start) as [[r s']|] eqn:Hr; [|vm_compute in Hr; discriminate].
    vm_compute in Hr. injection Hr as <- <-. reflexivity.
Defined.

Lemma authorized_keys_exact_witness : authorized_keys_union [[key "b" "k2"; key "a" "k1"]; [key "a" "k1"]] =
  authorized_keys_union [[key "a" "k1"]; [key "b" "k2"]].
Proof.
  apply (authorized_keys_exact [[key "b" "k2"; key "a" "k1"]; [key "a" "k1"]] [[key "a" "k1"]; [key "b" "k2"]]).
  intros x. change (key_lines [[key "b" "k2"; key "a" "k1"]; [key "a" "k1"]]) with ["ssh-ed25519 k2"; "ssh-ed25519 k1"; "ssh-ed25519 k1"].
  change (key_lines [[key "a" "k1"]; [key "b" "k2"]]) with ["ssh-ed25519 k1"; "ssh-ed25519 k2"].
  rewrite !elem_of_cons. tauto.
Defined.

(** *** The directory's operations, one after another *)
#[export] Instance dir_exec : Exec dir_eff World := fun X e s => mstep false 1 (CDir e) s.

Lemma run_dir mode {A} (p : DD A) s a : said_by p s = Some a -> runs (dsem mode) 1%nat p s a (after p s).
Proof.
  unfold said_by, after. destruct (run p s) as [[b s']|] eqn:Hr; [|done]. intros [= <-].
  revert s Hr. induction p as [c|X e k IH]; intros s; cbn [run]; [intros [= <- <-]; constructor|].
  destruct (exec X e s) as [[x s1]|] eqn:He; cbn [mbind option_bind]; [|done]. intros Hr. econstructor; [|by apply IH].
  assert (Hl : may_lose mode false) by (intros Hf; discriminate Hf). exact (mstep_sem mode false 1%nat X (CDir e) s x s1 Hl He).
Qed.

Lemma start_OI : OI start.
Proof.
  assert (Ho : every (teams start) (fun _ x => any active_owner (members x) && orderly_check x) = true) by (vm_compute; reflexivity).
  split.
  - exact start_keyed.
  - intros k x Hx. pose proof (every_spec _ _ Ho k x Hx) as Hb. by apply andb_true_iff in Hb as [? _].
  - intros k x Hx. pose proof (every_spec _ _ Ho k x Hx) as Hb. apply andb_true_iff in Hb as [_ ?]. by apply orderly_sound.
  - intros k i Hi. vm_compute in Hi. destruct k as [|[[] [] [] [] [] [] [] []] k]; discriminate.
Qed.

(** Ann steps down; Bob, now the only owner, is refused the same. *)
Definition step_down (e : string) : DD unit := let! _ := Directory.set_role (l_dollar libs) "acme" e Admin in Ret ().

End Town.

(** * Runs in which the console does not do what it says *)

Import Machine Town.
Local Open Scope string_scope.
Local Open Scope Z_scope.

Definition roles_of (s : World) (k : string) : list (string * Role) :=
  default [] ((fun x => map (fun m => (m_user m, m_role m)) (members x)) <$> teams s !! k).

(** ** An owner demoted by an admin *)
Definition as_stored : CC Response := Console.set_role (l_dollar libs) api (as_ "cid@x") "acme" "ann@x" Member_.
Definition trailing_space : CC Response := Console.set_role (l_dollar libs) api (as_ "cid@x") "acme" "ann@x " Member_.

(** An admin may not demote an owner; but the role that is compared is looked up under the address
    as given, and the one written under the address trimmed: with a space behind it, an admin does. *)
Theorem admin_demotes_an_owner :
  (exists s, runs (csem steady genuine) 1%nat as_stored start (Reply 403 "your role does not allow that change") s) /\
  exists s, runs (csem steady genuine) 1%nat trailing_space start (Status 204) s /\
    roles_of s "acme" = [("ann@x", Member_); ("bob@x", Owner); ("cid@x", Admin); ("dan@x", Member_)].
Proof.
  split; [exists (after as_stored start); apply run_after; vm_compute; reflexivity|]. exists (after trailing_space start).
  split; [apply run_after; vm_compute; reflexivity|vm_compute; reflexivity].
Qed.

(** ** The last owner taken out *)
Definition race : list (nat * CC unit) := [
  (1%nat, serve AskOther (Console.remove_member api (as_ "ann@x") "acme" "cid@x"));
  (2%nat, serve AskOther (Console.set_role (l_dollar libs) api (as_ "ann@x") "acme" "cid@x" Owner));
  (3%nat, serve AskOther (Console.remove_member api (as_ "ann@x") "acme" "ann@x"));
  (4%nat, serve AskOther (Console.remove_member api (as_ "bob@x") "acme" "bob@x"))].
Definition race_sched : list move := [Go 1 3; Go 2 60; Go 3 60; Go 4 60; Go 1 60].

(** [remove_member] decides from its read that an admin needs no guard.  Promoted before the write,
    they are the last owner when they go, and the team has none. *)
Theorem promotion_defeats_the_guard :
  reached libs steady genuine start (outcome race_sched race) (left_over race_sched race) /\
  answers_of (outcome race_sched race) = [(2%nat, Status 204); (3%nat, Status 204); (4%nat, Status 204); (1%nat, Status 204)] /\
  roles_of (outcome race_sched race) "acme" = [("dan@x", Member_)].
Proof.
  split; [|split; vm_compute; reflexivity].
  apply outcome_reached; [apply (bool_decide_unpack _); vm_compute; exact I|unfold race; entries|done|vm_compute; reflexivity].
Qed.

(** ** A token given twice *)
Definition polls : list (nat * CC unit) := [
  (1%nat, serve AskOther (cli_code api "laptop"));
  (2%nat, serve (AskPoll "r16-0") (cli_token api "r16-0"));
  (3%nat, serve (AskApprove "BBBB-BBBB") (cli_approve api (bearing "ann@x") "BBBB-BBBB"));
  (4%nat, serve (AskPoll "r16-0") (cli_token api "r16-0"))].
Definition polls_sched : list move := [Go 1 60; Go 2 3; Go 3 60; Go 2 60; Go 4 60].

(** A CLI token is to be handed out exactly once.  A poll that finds none to delete, and reads the
    login after an approval came in between, answers with the token and leaves it for the next. *)
Theorem token_handed_out_twice :
  reached libs steady genuine start (outcome polls_sched polls) (left_over polls_sched polls) /\
  drop 2 (answers_of (outcome polls_sched polls)) =
    [(2%nat, CliTokenGiven "cli:ann@x" 1702592000000); (4%nat, CliTokenGiven "cli:ann@x" 1702592000000)].
Proof.
  split; [|vm_compute; reflexivity].
  apply outcome_reached; [apply (bool_decide_unpack _); vm_compute; exact I|unfold polls; entries|done|vm_compute; reflexivity].
Qed.

(** ** A handle twice *)
Definition claims : list (nat * CC unit) := [
  (1%nat, serve AskOther (Console.claim_username api (as_ "eve@x") "skye"));
  (2%nat, serve AskOther (Console.claim_username api (as_ "fay@x") "skye"))].
Definition claims_sched : list move := [Go 1 4; Odd 1; Go 1 60; Go 2 60].

(** [claim_username] gives the handle back whenever its write failed.  A write that was done but
    whose answer was lost then leaves a handle two people have. *)
Theorem lost_answer_doubles_a_handle :
  reached libs torn genuine start (outcome claims_sched claims) (left_over claims_sched claims) /\
  username <$> users (outcome claims_sched claims) !! "eve@x" = Some (Some "skye") /\
  username <$> users (outcome claims_sched claims) !! "fay@x" = Some (Some "skye").
Proof.
  split; [|split; vm_compute; reflexivity].
  apply outcome_reached; [apply (bool_decide_unpack _); vm_compute; exact I|unfold claims; entries|done|vm_compute; reflexivity].
Qed.

(** ** Nobody left to administer *)
Definition coup : list (nat * CC unit) := [
  (1%nat, serve (AskRevokeAdmin "bob@x") (Console.remove_superadmin api (as_ "ann@x") "bob@x" "note"));
  (2%nat, serve (AskRevokeAdmin "ann@x") (Console.remove_superadmin api (as_ "bob@x") "ann@x" "note"))].
Definition coup_sched : list move := [Go 1 4; Go 2 4; Go 1 1; Go 2 1; Odd 1; Odd 2; Go 1 60; Go 2 60].

(** Two administrators revoke each other, and the counts that would put one back fail: both are
    answered with an error, and the roster is empty. *)
Theorem failed_counts_empty_the_roster :
  reached libs torn genuine start (outcome coup_sched coup) (left_over coup_sched coup) /\
  all_ended (left_over coup_sched coup) = true /\
  map_to_list (docs (outcome coup_sched coup) CSuperadmins) = [].
Proof.
  split; [|split; vm_compute; reflexivity].
  apply outcome_reached; [apply (bool_decide_unpack _); vm_compute; exact I|unfold coup; entries|done|vm_compute; reflexivity].
Qed.

(** ** An invitation spent for nothing *)
Definition early : list (nat * CC unit) := [
  (1%nat, serve AskOther (Console.create_invite sha api (as_ "ann@x") "acme" "gil@x" Member_));
  (2%nat, serve (AskAccept api (as_ "gil@x") "r32") (Console.accept_invite sha api (as_ "gil@x") "r32"));
  (3%nat, serve AskOther (Console.upsert_user api (as_ "gil@x") "gil@x" "Gil"));
  (4%nat, serve (AskAccept api (as_ "gil@x") "r32") (Console.accept_invite sha api (as_ "gil@x") "r32"))].

(** Accepted before one has an account, an invitation answers "sign in first"; it is spent all the
    same, and after signing in there is none. *)
Theorem sign_in_first_spends_the_invitation :
  reached libs steady genuine start (outcome (map (fun n => Go n 60) (seq 1 4)) early)
    (left_over (map (fun n => Go n 60) (seq 1 4)) early) /\
  last (take 2 (answers_of (outcome (map (fun n => Go n 60) (seq 1 4)) early))) = Some (2%nat, Reply 409 "sign in first") /\
  last (answers_of (outcome (map (fun n => Go n 60) (seq 1 4)) early)) = Some (4%nat, Reply 404 "no such invitation").
Proof.
  split; [|split; vm_compute; reflexivity].
  apply outcome_reached; [apply (bool_decide_unpack _); vm_compute; exact I|unfold early; entries|done|vm_compute; reflexivity].
Qed.

(** ** The owner next to the one named *)
Definition otherwise : Libs := libs_with (fun _ j => j).
Definition abdications : list (nat * CC unit) := [
  (1%nat, serve AskOther (Console.set_role (l_dollar otherwise) api (as_ "ann@x") "acme" "ann@x" Admin));
  (2%nat, serve AskOther (Console.set_role (l_dollar otherwise) api (as_ "bob@x") "acme" "bob@x" Admin))].
Definition abdications_sched : list move := [Go 1 3; Go 2 60; Go 1 60].

(** Two owners step down at once, where [$] is the member the guard's [$elemMatch] matched: each
    write finds the other an owner and demotes him, and the team has none. *)
Theorem two_demotions_leave_no_owner :
  reached otherwise steady genuine start (outcome abdications_sched abdications) (left_over abdications_sched abdications) /\
  answers_of (outcome abdications_sched abdications) = [(2%nat, Status 204); (1%nat, Status 204)] /\
  roles_of (outcome abdications_sched abdications) "acme" =
    [("ann@x", Admin); ("bob@x", Admin); ("cid@x", Admin); ("dan@x", Member_)].
Proof.
  split; [|split; vm_compute; reflexivity].
  apply outcome_reached; [apply (bool_decide_unpack _); vm_compute; exact I|unfold abdications; entries|done|vm_compute; reflexivity].
Qed.

(** Demoting Bob with [members.$.role] demotes Ann when [$] is the member the guard's [$elemMatch]
    matched, as [set_member_state]'s comment says it is. *)
Theorem positional_demotes_the_other :
  map m_role (set_role_at (fun _ j => j) true "bob@x" Admin (members acme)) = [Admin; Owner; Admin; Member_].
Proof. vm_compute. reflexivity. Qed.
