(* ===== verification/Pool.v ===== *)
(** * Pool: the databases a node keeps open, [crates/storage/src/pool]

    One SlateDB database per repository, opened on demand and kept until it is idle.  The pool's map
    names an [Entry] per repository, shared ([Arc]) by whoever works on it, with the database's handle
    in a cell that is filled once; handles are shared too, and how many hold one decides whether an
    idle database may be closed.  So the model has a heap: slots for entries, handles for databases,
    and a list of who holds what, from which [strong_count] is computed.

    A piece of code under one lock, or one atomic, is a [section]: a function on the state, which may
    have to wait ([None]).  What the runtime does ([tokio::spawn], a join with a deadline) and what
    SlateDB does are effects beside it. *)

From stdpp Require Import sorting.
From S2P Require Import Prelude Text Prog.
Local Open Scope string_scope.
Local Open Scope Z_scope.

(** ** The heap *)

(** SlateDB's reasons for a handle that is closed. *)
Inductive CloseReason := Clean | Fenced | Panic.

(** [tokio::sync::OnceCell]: while its initialiser runs, everybody else waits.  [by_] is the task
    that runs it, [sure] whether it has seen that the map names the slot. *)
Inductive cell := Empty | Opening (by_ : nat) (sure : bool) | Full (h : nat).
Inductive once := NotRun | Running (by_ : nat) | Ran.

Record Entry := mkEntry {
  db : cell;
  last_used : Z;
  last_flush : Z;
  releasing : bool;
  e_closed : once;
}.

(** A handle: the repository, the slot it was opened for, and why it is closed if it is. *)
Record Db := mkDb { d_repo : string; d_slot : nat; close_reason : option CloseReason }.
Definition live (d : Db) : bool := is_none (close_reason d).

(** Who holds a clone: a task, or a spawned job nobody has started. *)
Inductive holder := Task (t : nat) | Job (i : nat).

(** What it is for.  An entry: on the way to its handle ([Joining]), past its cell ([Joined]), kept
    in the map at the last look ([Settled]), to be closed ([Closing]).  A handle: just built
    ([Built]), not yet looked up again ([Pending]), in use ([Adopted]), picked by a sweep or a
    shutdown ([Picked]), out of the map and about to be closed ([Doomed]), to be flushed ([Due]). *)
Inductive entry_use := Joining | Joined | Settled | Closing.
Inductive db_use := Built | Pending | Adopted | Picked | Doomed | Due.
Inductive ref := RSlot (s : nat) (u : entry_use) | RDb (h : nat) (u : db_use).

Inductive job := Retire (picked : list (string * nat)) | CloseEntry (s : nat).

Record Pool := mkPool {
  entries : gmap string nat;
  idle_ttl_ms : Z;
  max_warm : nat;
  flush_every_ms : Z;
  hook : bool;
  retires : list nat;
  closed : bool;
  deleting : gset string;
}.

(** Who closed a database: a sweep, the shutdown, or [Entry::close]. *)
Inductive closer := BySweep | ByShutdown | ByEntry.

(** What happened: a database opened; closed, by whom, and whether it was open till then, and by how
    many requests used; a lease given back.  And what becomes of slots whose database is open when they
    leave the map other than to be closed: a retire that picked [h] took [s] out, which has another
    database; a failed open of [s] took its own slot out; a shutdown's [clear] took [s] out, which had
    [Collected] the handles [hs]. *)
Inductive event :=
| Opened (t : nat) (k : string) (h : nat)
| Shut (t : nat) (why : closer) (k : string) (h : nat) (was_live : bool) (users : nat)
| Gave (t : nat) (k : string)
| TookOut (t h s : nat)
| Abandoned (t s : nat)
| Collected (t : nat) (hs : list nat)
| Cleared (t s : nat).

(** The pool, its heap, the runtime's jobs, the object store's prefixes that are not empty, SlateDB's
    handles, and the history, newest first. *)
Record World := mkWorld {
  pool : Pool;
  slots : gmap nat (string * Entry);
  refs : list (holder * ref);
  jobs : list (nat * job);
  finished : list nat;
  fresh : nat;
  files : gset string;
  dbs : gmap nat Db;
  hist : list event;
}.

#[global] Instance CloseReason_eq_dec : EqDecision CloseReason. Proof. solve_decision. Defined.
#[global] Instance cell_eq_dec : EqDecision cell. Proof. solve_decision. Defined.
#[global] Instance once_eq_dec : EqDecision once. Proof. solve_decision. Defined.
#[global] Instance holder_eq_dec : EqDecision holder. Proof. solve_decision. Defined.
#[global] Instance entry_use_eq_dec : EqDecision entry_use. Proof. solve_decision. Defined.
#[global] Instance db_use_eq_dec : EqDecision db_use. Proof. solve_decision. Defined.
#[global] Instance ref_eq_dec : EqDecision ref. Proof. solve_decision. Defined.
#[global] Instance job_eq_dec : EqDecision job. Proof. solve_decision. Defined.
#[global] Instance closer_eq_dec : EqDecision closer. Proof. solve_decision. Defined.
#[global] Instance event_eq_dec : EqDecision event. Proof. solve_decision. Defined.

(** ** Updates *)
Definition on_pool (f : Pool -> Pool) (w : World) : World :=
  mkWorld (f (pool w)) (slots w) (refs w) (jobs w) (finished w) (fresh w) (files w) (dbs w) (hist w).
Definition on_slots (f : gmap nat (string * Entry) -> gmap nat (string * Entry)) (w : World) : World :=
  mkWorld (pool w) (f (slots w)) (refs w) (jobs w) (finished w) (fresh w) (files w) (dbs w) (hist w).
Definition on_refs (f : list (holder * ref) -> list (holder * ref)) (w : World) : World :=
  mkWorld (pool w) (slots w) (f (refs w)) (jobs w) (finished w) (fresh w) (files w) (dbs w) (hist w).
Definition on_jobs (f : list (nat * job) -> list (nat * job)) (w : World) : World :=
  mkWorld (pool w) (slots w) (refs w) (f (jobs w)) (finished w) (fresh w) (files w) (dbs w) (hist w).
Definition on_dbs (f : gmap nat Db -> gmap nat Db) (w : World) : World :=
  mkWorld (pool w) (slots w) (refs w) (jobs w) (finished w) (fresh w) (files w) (f (dbs w)) (hist w).
Definition on_files (f : gset string -> gset string) (w : World) : World :=
  mkWorld (pool w) (slots w) (refs w) (jobs w) (finished w) (fresh w) (f (files w)) (dbs w) (hist w).
Definition note (e : event) (w : World) : World :=
  mkWorld (pool w) (slots w) (refs w) (jobs w) (finished w) (fresh w) (files w) (dbs w) (e :: hist w).
(** A number no slot, handle or job has had. *)
Definition draw (w : World) : World :=
  mkWorld (pool w) (slots w) (refs w) (jobs w) (finished w) (S (fresh w)) (files w) (dbs w) (hist w).
Definition finish (i : nat) (w : World) : World :=
  mkWorld (pool w) (slots w) (refs w) (jobs w) (i :: finished w) (fresh w) (files w) (dbs w) (hist w).

Definition with_entries (m : gmap string nat) (p : Pool) : Pool :=
  mkPool m (idle_ttl_ms p) (max_warm p) (flush_every_ms p) (hook p) (retires p) (closed p) (deleting p).
Definition with_retires (l : list nat) (p : Pool) : Pool :=
  mkPool (entries p) (idle_ttl_ms p) (max_warm p) (flush_every_ms p) (hook p) l (closed p) (deleting p).
Definition with_closed (b : bool) (p : Pool) : Pool :=
  mkPool (entries p) (idle_ttl_ms p) (max_warm p) (flush_every_ms p) (hook p) (retires p) b (deleting p).
Definition with_deleting (d : gset string) (p : Pool) : Pool :=
  mkPool (entries p) (idle_ttl_ms p) (max_warm p) (flush_every_ms p) (hook p) (retires p) (closed p) d.

Definition with_db (c : cell) (e : Entry) : Entry := mkEntry c (last_used e) (last_flush e) (releasing e) (e_closed e).
Definition with_last_used (z : Z) (e : Entry) : Entry := mkEntry (db e) z (last_flush e) (releasing e) (e_closed e).
Definition with_last_flush (z : Z) (e : Entry) : Entry := mkEntry (db e) (last_used e) z (releasing e) (e_closed e).
Definition with_releasing (b : bool) (e : Entry) : Entry := mkEntry (db e) (last_used e) (last_flush e) b (e_closed e).
Definition with_e_closed (c : once) (e : Entry) : Entry := mkEntry (db e) (last_used e) (last_flush e) (releasing e) c.

(** One entry of the heap changed; the slot keeps its repository. *)
Definition on_entry (s : nat) (f : Entry -> Entry) : World -> World :=
  on_slots (alter (fun ke => (ke.1, f ke.2)) s).
Definition set_entries (f : gmap string nat -> gmap string nat) (w : World) : World :=
  on_pool (with_entries (f (entries (pool w)))) w.

Fixpoint remove_one (x : holder * ref) (l : list (holder * ref)) : list (holder * ref) :=
  match l with
  | [] => []
  | y :: l => if decide (x = y) then l else y :: remove_one x l
  end.
Definition hold (x : holder) (r : ref) : World -> World := on_refs (cons (x, r)).
Definition unhold (x : holder) (r : ref) : World -> World := on_refs (remove_one (x, r)).
(** The same clone, for another purpose or with another holder. *)
Definition rehold (x : holder) (r : ref) (y : holder) (r' : ref) (w : World) : World := hold y r' (unhold x r w).

(** ** Reading the heap *)
Definition entry_of (w : World) (s : nat) : option Entry := snd <$> slots w !! s.
Definition cell_of (w : World) (s : nat) : cell := default Empty (db <$> entry_of w s).
Definition repo_of (w : World) (s : nat) : option string := fst <$> slots w !! s.
Definition once_of (w : World) (s : nat) : once := default NotRun (e_closed <$> entry_of w s).
(** Whether the map names the slot. *)
Definition named (w : World) (s : nat) : bool :=
  match repo_of w s with Some k => bool_decide (entries (pool w) !! k = Some s) | None => false end.

Definition holds_slot (s : nat) (x : holder * ref) : bool :=
  match x.2 with RSlot s' _ => Nat.eqb s' s | RDb _ _ => false end.
Definition holds_db (h : nat) (x : holder * ref) : bool :=
  match x.2 with RDb h' _ => Nat.eqb h' h | RSlot _ _ => false end.

(** An entry lives while the map or anybody holds it; with it the clone in its cell. *)
Definition alive (w : World) (s : nat) : bool := named w s || any (holds_slot s) (refs w).
Definition in_cell (w : World) (h : nat) : bool :=
  match dbs w !! h with
  | Some d => bool_decide (cell_of w (d_slot d) = Full h) && alive w (d_slot d)
  | None => false
  end.
(** [Arc::strong_count]. *)
Definition strong_count (w : World) (h : nat) : nat :=
  (length (filter (fun x => holds_db h x = true) (refs w)) + (if in_cell w h then 1 else 0))%nat.

(** Requests that use a handle. *)
Definition uses (h : nat) (x : holder * ref) : bool := bool_decide (x.2 = RDb h Adopted).
Definition users (w : World) (h : nat) : nat := length (filter (fun x => uses h x = true) (refs w)).

(** ** Effects *)

(** What a section reads of the world: the time, and the order the map is iterated in. *)
Record Env := mkEnv { now : Z; order : list (string * nat) }.
Definition section (X : Type) : Type := nat -> Env -> World -> option (X * World).

Inductive Flushed := FlushOk | FlushFailed | FlushStalled.

Inductive pool_eff : Type -> Type :=
| Lock {X} (f : section X) : pool_eff X
(** [Db::builder(..).build()] for a slot. *)
| Build (k : string) (s : nat) : pool_eff (result nat)
(** [Db::status], [Db::close], [Db::flush_with_options] under a deadline; anything else with a handle. *)
| Status (h : nat) : pool_eff (option CloseReason)
| CloseDb (why : closer) (h : nat) : pool_eff (result unit)
| Flush (h : nat) : pool_eff Flushed
| Use (h : nat) : pool_eff (result unit)
(** The object store under a repository's prefix: one object listed, all deleted. *)
| ListPrefix (k : string) : pool_eff (result bool)
| DeleteFiles (k : string) : pool_eff (result unit)
(** [ReleaseHook::release]. *)
| Release (k : string) : pool_eff unit
(** [tokio::time::sleep]; [tokio::time::timeout] on a spawned task: whether it was done in time. *)
| Sleep (ms : Z) : pool_eff unit
| Join (i : nat) (ms : Z) : pool_eff bool
(** Another node opens the repository; a background task of a database panics. *)
| Elsewhere (k : string) : pool_eff unit
| Dies (h : nat) : pool_eff unit.

Definition PP : Type -> Type := prog pool_eff.
Definition lock {X} (f : section X) : PP X := trigger (Lock f).

Definition locked {X} (f : World -> X * World) : section X := fun _ _ w => Some (f w).
Definition locked_by {X} (f : nat -> World -> X * World) : section X := fun t _ w => Some (f t w).
Definition update (f : World -> World) : section unit := locked (fun w => ((), f w)).
Definition read {X} (f : World -> X) : section X := locked (fun w => (f w, w)).

Definition DRAIN : Z := 500.
Definition FLUSH_PATIENCE : Z := 30000.

Definition let_go (r : ref) : PP unit := lock (fun t _ w => Some ((), unhold (Task t) r w)).

(** ** Keys, and requests routed to nobody *)
Definition key (owner name : string) : string := owner +:+ "/" +:+ name.

(** [un] is the task-local [UNOWNED]: the key the request was routed [Missing] for. *)
Definition is_unowned (un : option string) (owner name : string) : bool :=
  match un with
  | Some k => bool_decide ((strip_prefix owner k ≫= strip_prefix "/") = Some name)
  | None => false
  end.

(** ** Closing an entry *)

Definition enter_close (s : nat) : section bool := fun t _ w =>
  match once_of w s with
  | NotRun => Some (true, on_entry s (with_e_closed (Running t)) w)
  | Running _ => None
  | Ran => Some (false, w)
  end.
(** [get_or_try_init] with an initialiser that fails. *)
Definition settled (s : nat) : section (option nat) := fun _ _ w =>
  match cell_of w s with Empty => Some (None, w) | Opening _ _ => None | Full h => Some (Some h, w) end.
Definition leave_close (s : nat) : section unit := update (on_entry s (with_e_closed Ran)).

(** [Entry::close]. *)
Definition Entry_close (s : nat) : PP unit :=
  let! go := lock (enter_close s) in
  if go then
    let! o := lock (settled s) in
    (match o with Some h => let! _ := trigger (CloseDb ByEntry h) in Ret () | None => Ret () end) ;;!
    lock (leave_close s)
  else Ret ().

(** [tokio::spawn]: the job takes what the task held for it. *)
Definition spawn_close (s : nat) : section nat := locked_by (fun t w =>
  (fresh w, rehold (Task t) (RSlot s Closing) (Job (fresh w)) (RSlot s Closing)
              (on_jobs (cons (fresh w, CloseEntry s)) (draw w)))).

Definition close_bounded (s : nat) : PP unit :=
  let! i := lock (spawn_close s) in
  let! _ := trigger (Join i FLUSH_PATIENCE) in Ret ().

(** ** Leaving the map *)

(** [HashMap::remove], by a caller that goes on to close the entry. *)
Definition remove_entry (k : string) : section (option nat) := locked_by (fun t w =>
  match entries (pool w) !! k with
  | Some s => (Some s, hold (Task t) (RSlot s Closing) (set_entries (delete k) w))
  | None => (None, w)
  end).

Definition evict (owner name : string) : PP unit :=
  let! e := lock (remove_entry (key owner name)) in
  match e with Some s => close_bounded s | None => Ret () end.

Definition evict_after_drain (owner name : string) : PP unit :=
  trigger (Sleep DRAIN) ;;! evict owner name.

Definition remove_if_same (k : string) (observed : nat) : section (option nat) := locked_by (fun t w =>
  match entries (pool w) !! k with
  | Some s =>
    if decide (cell_of w s = Full observed)
    then (Some s, hold (Task t) (RSlot s Closing) (set_entries (delete k) w))
    else (None, w)
  | None => (None, w)
  end).

Definition evict_if_same (owner name : string) (observed : nat) : PP unit :=
  let! e := lock (remove_if_same (key owner name) observed) in
  match e with Some s => close_bounded s | None => Ret () end.

Definition mark_deleting (k : string) : section unit :=
  update (fun w => on_pool (with_deleting ({[ k ]} ∪ deleting (pool w))) w).
Definition clear_deleting (k : string) : section unit :=
  update (fun w => on_pool (with_deleting (deleting (pool w) ∖ {[ k ]})) w).

(** [Pool::delete]. *)
Definition delete_repo (owner name : string) : PP (result unit) :=
  let k := key owner name in
  lock (mark_deleting k) ;;!
  let! e := lock (remove_entry k) in
  (match e with Some s => close_bounded s | None => Ret () end) ;;!
  let! deleted := trigger (DeleteFiles k) in
  lock (clear_deleting k) ;;!
  Ret deleted.

(** ** Picking and retiring *)

Definition used_at (w : World) (s : nat) : Z := default 0 (last_used <$> entry_of w s).
Definition flushed_at (w : World) (s : nat) : Z := default 0 (last_flush <$> entry_of w s).
Definition is_releasing (w : World) (s : nat) : bool := default false (releasing <$> entry_of w s).
(** [map.get(&key).and_then(|e| e.db.get())]. *)
Definition handle_at (w : World) (k : string) : option nat :=
  s ← entries (pool w) !! k; match cell_of w s with Full h => Some h | _ => None end.

(** Not picked before, and nobody but the pool holds its handle. *)
Definition eligible (w : World) (ks : string * nat) : bool :=
  negb (is_releasing w ks.2) &&
  match cell_of w ks.2 with Full h => Nat.eqb (strong_count w h) 1 | _ => true end.

Definition older (a b : Z * string) : Prop := a.1 <= b.1.
#[global] Instance older_dec a b : Decision (older a b). Proof. unfold older. apply _. Defined.

Fixpoint pick (w : World) (t : Z) (over i : nat) (idle : list (Z * string)) : list (string * nat) :=
  match idle with
  | [] => []
  | (last, k) :: idle =>
    if Nat.leb over i && (sat_sub t last <? idle_ttl_ms (pool w)) then pick w t over (S i) idle
    else match handle_at w k with
         | Some h => (k, h) :: pick w t over (S i) idle
         | None => pick w t over (S i) idle
         end
  end.

(** The candidates, oldest first. *)
Definition idle_of (w : World) (l : list (string * nat)) : list (Z * string) :=
  merge_sort older (map (fun ks => (used_at w ks.2, ks.1)) (filter (fun ks => eligible w ks = true) l)).
Definition picks (w : World) (v : Env) : list (string * nat) :=
  pick w (now v) (length (order v) - max_warm (pool w)) 0 (idle_of w (order v)).

Definition flag (k : string) (b : bool) (w : World) : World :=
  match entries (pool w) !! k with Some s => on_entry s (with_releasing b) w | None => w end.
Definition mark (t : nat) (w : World) (kh : string * nat) : World :=
  hold (Task t) (RDb kh.2 Picked) (flag kh.1 true w).

Definition evictable : section (list (string * nat)) := fun t v w =>
  Some (picks w v, foldl (mark t) w (picks w v)).

(** A slot leaves the map with an open database its remover will not close. *)
Definition forsake (e : event) (s : nat) (spare : option nat) (w : World) : World :=
  match cell_of w s with
  | Full h => if negb (bool_decide (spare = Some h)) && is_some_and (dbs w !! h) live then note e w else w
  | _ => w
  end.
Definition remove_key (k : string) (w : World) : World := set_entries (delete k) w.
Definition took_out (t : nat) (k : string) (h : nat) (w : World) : World :=
  match entries (pool w) !! k with Some s => forsake (TookOut t h s) s (Some h) w | None => w end.

(** The locked part of [close_all]'s loop: whether the handle may be closed. *)
Definition take_out (k : string) (h : nat) : section bool := locked_by (fun t w =>
  if Nat.ltb 2 (strong_count w h) then (false, flag k false w)
  else (true, rehold (Task t) (RDb h Picked) (Task t) (RDb h Doomed) (remove_key k (took_out t k h w)))).

(** The handles skipped for being in use. *)
Fixpoint close_all (picked : list (string * nat)) : PP (list (string * nat)) :=
  match picked with
  | [] => Ret []
  | (k, h) :: picked =>
    let! free := lock (take_out k h) in
    if free then
      let! _ := trigger (CloseDb BySweep h) in
      let_go (RDb h Doomed) ;;!
      close_all picked
    else
      let! skipped := close_all picked in
      Ret ((k, h) :: skipped)
  end.

Fixpoint drop_all (l : list (string * nat)) : PP unit :=
  match l with [] => Ret () | (_, h) :: l => let_go (RDb h Picked) ;;! drop_all l end.

Fixpoint release_all (ks : list string) : PP unit :=
  match ks with [] => Ret () | k :: ks => trigger (Release k) ;;! release_all ks end.

(** The task [retire] spawns. *)
Definition retire_job (picked : list (string * nat)) : PP unit :=
  trigger (Sleep DRAIN) ;;!
  let! skipped := close_all picked in
  release_all (filter (fun k => k ∉ skipped.*1) picked.*1) ;;!
  drop_all skipped.

Definition spawn_retire (picked : list (string * nat)) : section nat := locked_by (fun t w =>
  let i := fresh w in
  (i, foldl (fun w kh => rehold (Task t) (RDb kh.2 Picked) (Job i) (RDb kh.2 Picked) w)
        (on_jobs (cons (i, Retire picked)) (draw w)) picked)).
Definition track (i : nat) : section unit := update (fun w =>
  on_pool (with_retires (filter (fun j => j ∉ finished w) (retires (pool w)) ++ [i])%list) w).

Definition retire (picked : list (string * nat)) : PP unit :=
  match picked with
  | [] => Ret ()
  | _ =>
    let! hk := lock (read (fun w => hook (pool w))) in
    if hk then let! i := lock (spawn_retire picked) in lock (track i)
    else let! skipped := close_all picked in drop_all skipped
  end.

Definition sweep : PP unit := let! picked := lock evictable in retire picked.

Definition enforce_bound : PP unit :=
  let! over := lock (read (fun w => Nat.ltb (max_warm (pool w)) (size (entries (pool w))))) in
  if over then sweep else Ret ().

(** ** Opening *)

Definition new_entry (t : Z) : Entry := mkEntry Empty t t false NotRun.

Definition take_entry (k : string) : section nat := fun t v w =>
  match entries (pool w) !! k with
  | Some s => Some (s, hold (Task t) (RSlot s Joining) (on_entry s (with_last_used (now v)) w))
  | None =>
    Some (fresh w, hold (Task t) (RSlot (fresh w) Joining)
                     (set_entries (insert k (fresh w)) (on_slots (insert (fresh w) (k, new_entry (now v))) (draw w))))
  end.

(** [get_or_try_init]: the handle if the cell is full; the permit to fill it if it is empty. *)
Definition enter (s : nat) : section (option nat) := fun t _ w =>
  match cell_of w s with
  | Full h => Some (Some h, rehold (Task t) (RSlot s Joining) (Task t) (RSlot s Joined) w)
  | Empty => Some (None, on_entry s (with_db (Opening t false)) w)
  | Opening _ _ => None
  end.
Definition leave (s : nat) (r : result nat) : section unit := locked_by (fun t w =>
  match r with
  | Ok h => ((), unhold (Task t) (RDb h Built)
                   (rehold (Task t) (RSlot s Joining) (Task t) (RSlot s Joined) (on_entry s (with_db (Full h)) w)))
  | Err _ => ((), on_entry s (with_db Empty) w)
  end).

Definition names (w : World) (k : string) (s : nat) : bool := bool_decide (entries (pool w) !! k = Some s).

Definition is_deleting (k : string) : section bool := read (fun w => bool_decide (k ∈ deleting (pool w))).
Definition ours (k : string) (s : nat) : section bool := locked_by (fun t w =>
  if names w k s then (true, on_entry s (with_db (Opening t true)) w) else (false, w)).

Definition open (k : string) (s : nat) : PP (result nat) := trigger (Build k s).

(** What runs inside the cell's permit. *)
Definition permit (k : string) (s : nat) : PP (result nat) :=
  let! d := lock (is_deleting k) in
  if d then Ret (Err (EMsg (k +:+ ": repository is being deleted")))
  else let! o := lock (ours k s) in if o then open k s else Ret (Err EFenced).

Definition init (k : string) (s : nat) : PP (result nat) :=
  let! full := lock (enter s) in
  match full with
  | Some h => Ret (Ok h)
  | None => let! r := permit k s in lock (leave s r) ;;! Ret r
  end.

(** After a failed open, the slot goes if the map still names it. *)
Definition abandon (k : string) (s : nat) : section unit := locked_by (fun t w =>
  ((), if names w k s then remove_key k (forsake (Abandoned t s) s None w) else w)).

Definition clone (h : nat) : section unit := locked_by (fun t w => ((), hold (Task t) (RDb h Pending) w)).

Definition still_current (k : string) (s h : nat) : section bool := locked_by (fun t w =>
  if names w k s
  then (true, rehold (Task t) (RSlot s Joined) (Task t) (RSlot s Settled)
                (rehold (Task t) (RDb h Pending) (Task t) (RDb h Adopted) w))
  else (false, rehold (Task t) (RSlot s Joined) (Task t) (RSlot s Closing) w)).

Definition adopt (k : string) (s h : nat) : PP (result nat) :=
  let! current := lock (still_current k s h) in
  if current then Ret (Ok h)
  else
    let_go (RDb h Pending) ;;!
    Entry_close s ;;!
    Ret (Err EFenced).

Definition get_once (un : option string) (owner name : string) : PP (result nat) :=
  let! c := lock (read (fun w => closed (pool w))) in
  if c then Ret (Err (EMsg (key owner name +:+ ": pool is closed")))
  else if is_unowned un owner name then Ret (Err EUnowned)
  else
    let k := key owner name in
    let! s := lock (take_entry k) in
    let! r := init k s in
    match r with
    | Err e => lock (abandon k s) ;;! let_go (RSlot s Joining) ;;! Ret (Err e)
    | Ok h =>
      lock (clone h) ;;!
      let! r := adopt k s h in
      match r with
      | Err e => let_go (RSlot s Closing) ;;! Ret (Err e)
      | Ok h => enforce_bound ;;! let_go (RSlot s Settled) ;;! Ret (Ok h)
      end
    end.

Definition get (un : option string) (owner name : string) : PP (result nat) :=
  let!? h := get_once un owner name in
  let! r := trigger (Status h) in
  match r with
  | None => Ret (Ok h)
  | Some Fenced =>
    evict_if_same owner name h ;;!
    let_go (RDb h Adopted) ;;!
    Ret (Err EFenced)
  | Some _ =>
    evict_if_same owner name h ;;!
    let_go (RDb h Adopted) ;;!
    Ret (Err (EMsg (key owner name +:+ ": database was closed; retry")))
  end.

(** ** Shutdown, flushes, and what is asked without opening *)

Definition shut_pool : section (list nat) := locked (fun w =>
  (retires (pool w), on_pool (with_retires []) w)).

Fixpoint join_all (l : list nat) : PP unit :=
  match l with [] => Ret () | i :: l => let! _ := trigger (Join i (DRAIN * 3)) in join_all l end.

(** Every entry with a handle, flagged and picked. *)
Definition with_handles (w : World) (l : list (string * nat)) : list (string * nat) :=
  omap (fun ks => match cell_of w ks.2 with Full h => Some (ks.1, h) | _ => None end) l.
Definition pick_all : section (list (string * nat)) := fun t v w =>
  let all := with_handles w (order v) in Some (all, foldl (mark t) (note (Collected t all.*2) w) all).

Fixpoint close_skipped (l : list (string * nat)) : PP unit :=
  match l with
  | [] => Ret ()
  | (_, h) :: l => let! _ := trigger (CloseDb ByShutdown h) in let_go (RDb h Picked) ;;! close_skipped l
  end.

Definition clear : section unit := fun t v w =>
  Some ((), set_entries (fun _ => ∅) (foldl (fun w ks => forsake (Cleared t ks.2) ks.2 None w) w (order v))).

Definition close : PP unit :=
  lock (update (on_pool (with_closed true))) ;;!
  let! in_flight := lock shut_pool in
  join_all in_flight ;;!
  let! all := lock pick_all in
  let! hk := lock (read (fun w => hook (pool w))) in
  (if hk then trigger (Sleep DRAIN) else Ret ()) ;;!
  let! skipped := close_all all in
  close_skipped skipped ;;!
  let! hk := lock (read (fun w => hook (pool w))) in
  (if hk then release_all all.*1 else Ret ()) ;;!
  lock clear.

Definition stale (w : World) (t : Z) (ks : string * nat) : bool :=
  negb (is_releasing w ks.2) && (flush_every_ms (pool w) <=? sat_sub t (flushed_at w ks.2)).
Definition pick_stale : section (list (string * nat)) := fun t v w =>
  let due := with_handles w (filter (fun ks => stale w (now v) ks = true) (order v)) in
  Some (due, foldl (fun w kh => hold (Task t) (RDb kh.2 Due) w) w due).
Definition stamp (k : string) : section unit := fun _ v w =>
  Some ((), match entries (pool w) !! k with Some s => on_entry s (with_last_flush (now v)) w | None => w end).

Fixpoint flush_each (due : list (string * nat)) : PP unit :=
  match due with
  | [] => Ret ()
  | (k, h) :: due =>
    let! r := trigger (Flush h) in
    (match r with FlushOk => lock (stamp k) | FlushFailed | FlushStalled => Ret () end) ;;!
    let_go (RDb h Due) ;;!
    flush_each due
  end.

Definition flush_stale : PP unit := let! due := lock pick_stale in flush_each due.

(** One turn of [spawn_sweeper]'s loop. *)
Definition sweeper_turn : PP unit :=
  let! ttl := lock (read (fun w => idle_ttl_ms (pool w))) in
  trigger (Sleep (ttl / 4)) ;;! sweep ;;! flush_stale.

Definition exists_ (un : option string) (owner name : string) : PP (result bool) :=
  if is_unowned un owner name then Ret (Ok false)
  else
    let! warm := lock (read (fun w => is_some (entries (pool w) !! key owner name))) in
    if warm then Ret (Ok true) else trigger (ListPrefix (key owner name)).

Definition warm_repos : section (list string) := fun _ v w =>
  Some ((filter (fun ks => negb (is_releasing w ks.2) = true) (order v)).*1, w).
Definition warm_count : section nat := read (fun w => size (entries (pool w))).
Definition is_closed : section bool := read (fun w => closed (pool w)).

(** ** Who calls *)

(** A request: it gets the handle, uses it some times, and lets it go. *)
Fixpoint use_db (n : nat) (h : nat) : PP unit :=
  match n with 0%nat => Ret () | S n => let! _ := trigger (Use h) in use_db n h end.
Definition request (un : option string) (owner name : string) (n : nat) : PP unit :=
  let! r := get un owner name in
  match r with
  | Ok h => use_db n h ;;! let_go (RDb h Adopted)
  | Err _ => Ret ()
  end.

(** The runtime starts a spawned job. *)
Definition job_refs (j : job) : list ref :=
  match j with Retire picked => map (fun kh => RDb kh.2 Picked) picked | CloseEntry s => [RSlot s Closing] end.
Definition start_job (i : nat) : section (option job) := locked_by (fun t w =>
  match list_find (fun ij => ij.1 = i) (jobs w) with
  | Some (_, (_, j)) =>
    (Some j, foldl (fun w r => rehold (Job i) r (Task t) r w) (on_jobs (filter (fun ij => ij.1 <> i)) w) (job_refs j))
  | None => (None, w)
  end).
Definition run_job (i : nat) : PP unit :=
  let! j := lock (start_job i) in
  match j with
  | Some (Retire picked) => retire_job picked ;;! lock (update (finish i))
  | Some (CloseEntry s) => Entry_close s ;;! let_go (RSlot s Closing) ;;! lock (update (finish i))
  | None => Ret ()
  end.

Inductive entry : nat -> PP unit -> Prop :=
| entry_request t un o n k : entry t (request un o n k)
| entry_evict t o n : entry t (evict o n)
| entry_evict_after_drain t o n : entry t (evict_after_drain o n)
| entry_delete t o n : entry t (let! _ := delete_repo o n in Ret ())
| entry_sweeper t : entry t sweeper_turn
| entry_close t : entry t close
| entry_exists t un o n : entry t (let! _ := exists_ un o n in Ret ())
| entry_job t i : entry t (run_job i)
| entry_elsewhere t k : entry t (trigger (Elsewhere k))
| entry_dies t h : entry t (trigger (Dies h)).

(** ** What an effect does *)

Definition close_db (why : CloseReason) (d : Db) : Db :=
  mkDb (d_repo d) (d_slot d) (Some (default why (close_reason d))).
(** Another open of the repository fences every handle on it. *)
Definition fence (k : string) : World -> World :=
  on_dbs (fmap (fun d => if String.eqb (d_repo d) k then close_db Fenced d else d)).
Definition built (t : nat) (k : string) (s : nat) (w : World) : World :=
  hold (Task t) (RDb (fresh w) Built)
    (note (Opened t k (fresh w))
      (on_files (union {[ k ]}) (on_dbs (insert (fresh w) (mkDb k s None)) (draw (fence k w))))).
Definition shut (t : nat) (why : closer) (h : nat) (w : World) : World :=
  match dbs w !! h with
  | Some d => note (Shut t why (d_repo d) h (live d) (users w h)) (on_dbs (insert h (close_db Clean d)) w)
  | None => w
  end.
Definition good_env (v : Env) (w : World) : Prop := order v ≡ₚ map_to_list (entries (pool w)).

Definition psem (t : nat) X (e : pool_eff X) (w : World) : X -> World -> Prop :=
  match e in pool_eff X return X -> World -> Prop with
  | Lock f => fun x w' => exists v, good_env v w /\ f t v w = Some (x, w')
  | Build k s => fun x w' => (x = Ok (fresh w) /\ w' = built t k s w) \/ (exists e, x = Err e) /\ (w' = w \/ w' = fence k w)
  | Status h => fun x w' => w' = w /\ x = dbs w !! h ≫= close_reason
  | CloseDb why h => fun _ w' => w' = shut t why h w
  | Flush h => fun x w' => w' = w
  | Use h => fun x w' => w' = w
  | ListPrefix k => fun x w' => w' = w /\ (x = Ok (bool_decide (k ∈ files w)) \/ exists e, x = Err e)
  | DeleteFiles k => fun x w' =>
      (x = Ok () /\ w' = on_files (fun fs => fs ∖ {[ k ]}) w) \/ (exists e, x = Err e) /\ (w' = w \/ w' = on_files (fun fs => fs ∖ {[ k ]}) w)
  | Release k => fun _ w' => w' = note (Gave t k) w
  | Sleep _ => fun _ w' => w' = w
  | Join i _ => fun x w' => w' = w /\ (x = true -> i ∈ finished w)
  | Elsewhere k => fun _ w' => w' = on_files (union {[ k ]}) (fence k w)
  | Dies h => fun _ w' => w' = on_dbs (alter (close_db Panic) h) w
  end.
