(* ===== verification/PoolSafe.v ===== *)
(** * PoolSafe: the pool's invariant, and how pieces of code keep it

    [Inv] says what the map, the cells and whoever holds a clone know of each other; above all that
    an open database is named by the map or somebody is about to close it ([cared]).  [step_ok] is
    what a step owes the others: it undoes nothing they rely on ([grows]).  A step that changes only
    who holds what goes by [step_alike]. *)

From S2P Require Import Prelude Text Prog Pool.
Local Open Scope string_scope.
Local Open Scope Z_scope.

(** ** Holding *)

Definition mine (x : holder) (l : list (holder * ref)) : list ref := (filter (fun y => y.1 = x) l).*2.
Definition held (x : holder) (rs : list ref) : list (holder * ref) := map (fun r => (x, r)) rs.

Lemma mine_app x l l' : mine x (l ++ l') = (mine x l ++ mine x l')%list.
Proof. unfold mine. by rewrite filter_app, fmap_app. Qed.

Lemma mine_cons_eq x r l : mine x ((x, r) :: l) = r :: mine x l.
Proof. unfold mine. by rewrite filter_cons_True. Qed.

Lemma mine_cons_ne x y r l : x <> y -> mine x ((y, r) :: l) = mine x l.
Proof. intros Hn. unfold mine. rewrite filter_cons_False; [done|]. cbn. congruence. Qed.

Lemma mine_held x rs : mine x (held x rs) = rs.
Proof. induction rs as [|r rs IH]; [done|]. change (held x (r :: rs)) with ((x, r) :: held x rs). rewrite mine_cons_eq. by f_equal. Qed.

Lemma mine_held_other x y rs : x <> y -> mine x (held y rs) = [].
Proof. intros Hn. induction rs as [|r rs IH]; [done|]. change (held y (r :: rs)) with ((y, r) :: held y rs). by rewrite mine_cons_ne. Qed.

#[global] Instance mine_perm x : Proper ((≡ₚ) ==> (≡ₚ)) (mine x).
Proof. intros l l' H. unfold mine. by rewrite H. Qed.

Lemma mine_elem x l r : r ∈ mine x l <-> (x, r) ∈ l.
Proof.
  unfold mine. rewrite list_elem_of_fmap. split.
  - intros ([y r'] & -> & [Hy Hin]%list_elem_of_filter). cbn in *. by subst.
  - intros H. exists (x, r). split; [done|]. by apply list_elem_of_filter.
Qed.

Lemma held_elem x rs y r : (y, r) ∈ held x rs <-> y = x /\ r ∈ rs.
Proof. unfold held. rewrite list_elem_of_In, in_map_iff. setoid_rewrite <- list_elem_of_In. naive_solver. Qed.

Lemma remove_one_perm z l rest : l ≡ₚ z :: rest -> remove_one z l ≡ₚ rest.
Proof.
  revert rest. induction l as [|y l IH]; intros rest Hp; cbn; [by apply Permutation_nil_cons in Hp|].
  destruct (decide (z = y)) as [->|Hn]; [by apply (inj _) in Hp|].
  assert (z ∈ l) as Hz.
  { assert (z ∈ y :: l) as Hz by (rewrite Hp; left). by apply elem_of_cons in Hz as [->|]. }
  apply elem_of_Permutation in Hz as [l1 Hl1].
  rewrite (IH l1 Hl1). rewrite Hl1 in Hp. rewrite Permutation_swap in Hp. by apply (inj _) in Hp.
Qed.

(** What a holder has can be set apart. *)
Lemma mine_split x l A L : mine x l ≡ₚ A ++ L -> exists rest, l ≡ₚ held x A ++ rest /\ mine x rest ≡ₚ L.
Proof.
  revert L l. induction A as [|r A IH]; intros L l Hm; [by exists l|]. rewrite <- app_comm_cons in Hm.
  assert ((x, r) ∈ l) as Hin by (apply mine_elem; rewrite Hm; left).
  apply elem_of_Permutation in Hin as [l1 Hl1]. rewrite Hl1 in Hm.
  rewrite mine_cons_eq in Hm. apply (inj _) in Hm. destruct (IH L l1 Hm) as (rest & Hr & Hml).
  exists rest. by rewrite Hl1, Hr.
Qed.

Lemma unhold_swap x r l B rest : l ≡ₚ (x, r) :: rest -> B ++ remove_one (x, r) l ≡ₚ B ++ rest.
Proof. intros H. by rewrite (remove_one_perm _ _ _ H). Qed.

(** Three different holds are three. *)
Lemma count_distinct (p : holder * ref -> bool) (ds l : list (holder * ref)) : NoDup ds ->
  (forall z, z ∈ ds -> z ∈ l /\ p z = true) -> (length ds <= length (filter (fun z => p z = true) l))%nat.
Proof.
  intros Hnd Hall. apply submseteq_length, NoDup_submseteq; [done|]. intros z Hz.
  destruct (Hall z Hz) as [H1 H2]. by apply list_elem_of_filter.
Qed.

(** ** Facts no step undoes *)

(** How a slot with the open database [h] may have left the map other than to be closed: a retire of
    another handle removed it by key, its own open's failure seen late, or a shutdown that had not
    collected [h]. *)
Definition dropped (w : World) (s h : nat) : Prop := exists t,
  (exists h', TookOut t h' s ∈ hist w /\ h' <> h) \/ Abandoned t s ∈ hist w \/
  (Cleared t s ∈ hist w /\ exists hs, Collected t hs ∈ hist w /\ h ∉ hs).
(** Events that say nothing of closes and leases. *)
Definition aside (e : event) : Prop :=
  match e with TookOut _ _ _ | Abandoned _ _ | Collected _ _ | Cleared _ _ => True | _ => False end.
Definition barren (c : cell) : bool := match c with Empty | Opening _ false => true | _ => false end.

Record grows (w w' : World) : Prop := {
  g_fresh : (fresh w <= fresh w')%nat;
  g_repo : forall s k, repo_of w s = Some k -> repo_of w' s = Some k;
  g_full : forall s h, cell_of w s = Full h -> cell_of w' s = Full h;
  g_gone : forall s k, repo_of w s = Some k -> named w s = false -> named w' s = false;
  g_db : forall h d, dbs w !! h = Some d ->
    exists d', dbs w' !! h = Some d' /\ d_repo d' = d_repo d /\ d_slot d' = d_slot d /\ (live d' = true -> live d = true);
  g_ran : forall s, once_of w s = Ran -> once_of w' s = Ran;
  g_barren : forall s k, repo_of w s = Some k -> named w s = false -> barren (cell_of w s) = true -> barren (cell_of w' s) = true;
  g_hist : exists l, hist w' = (l ++ hist w)%list;
}.

#[global] Instance grows_pre : PreOrder grows.
Proof.
  split.
  - intros w. split; try done; [eauto|by exists []].
  - intros a b c [] []. split; [lia|eauto..| | | |].
    + intros h d Hd. destruct (g_db0 h d Hd) as (d1 & H1 & E1 & E2 & L1). destruct (g_db1 h d1 H1) as (d2 & H2 & E3 & E4 & L2).
      exists d2. split; [done|]. split; [congruence|]. split; [congruence|auto].
    + auto.
    + intros s k H1 H2 H3. eauto.
    + destruct g_hist0 as [l1 H1], g_hist1 as [l2 H2]. exists (l2 ++ l1)%list. by rewrite <- app_assoc, <- H1.
Qed.

(** What is a task's own. *)
Record own (t : nat) (w w' : World) : Prop := {
  o_refs : mine (Task t) (refs w') ≡ₚ mine (Task t) (refs w);
  o_opening : forall s b, cell_of w s = Opening t b -> cell_of w' s = Opening t b;
}.

#[global] Instance own_pre t : PreOrder (own t).
Proof.
  split; [by split|]. intros a b c [H1 H2] [H3 H4]. split; [by rewrite H3|auto].
Qed.

Definition R (t : nat) (w w' : World) : Prop := grows w w' /\ own t w w'.

#[global] Instance R_pre t : PreOrder (R t).
Proof. split; [split; reflexivity|]. intros a b c [] []. split; by etrans. Qed.

Lemma grows_hist w w' e : grows w w' -> e ∈ hist w -> e ∈ hist w'.
Proof. intros [] Ht. destruct g_hist0 as [l Hl]. rewrite Hl. apply elem_of_app. by right. Qed.
Lemma dropped_app w w' l s h : hist w' = (l ++ hist w)%list -> dropped w s h -> dropped w' s h.
Proof.
  intros Hl [t Ht]. assert (forall e, e ∈ hist w -> e ∈ hist w') as Hh by (intros e He; rewrite Hl; apply elem_of_app; by right). exists t.
  destruct Ht as [(h' & H1 & H2)|[H1|(H1 & hs & H2 & H3)]]; [left|right; left|right; right]; eauto 10.
Qed.
Lemma grows_dropped w w' s h : grows w w' -> dropped w s h -> dropped w' s h.
Proof. intros []. destruct g_hist0 as [l Hl]. by apply (dropped_app w w' l). Qed.

(** ** The invariant *)

Definition ref_ok (w : World) (x : holder) (r : ref) : Prop :=
  match r with
  | RSlot s u =>
    (exists k, repo_of w s = Some k) /\
    match u with
    | Joining => True
    | Joined | Settled => exists h, cell_of w s = Full h
    | Closing => named w s = false
    end
  | RDb h u =>
    exists d, dbs w !! h = Some d /\
    match u with
    | Built => exists t, x = Task t /\ cell_of w (d_slot d) = Opening t true
    | Doomed => cell_of w (d_slot d) = Full h /\ named w (d_slot d) = false
    | _ => cell_of w (d_slot d) = Full h
    end
  end.

(** Somebody holds what will close [h], in slot [s]. *)
Definition minded (w : World) (s h : nat) : Prop := exists x,
  (x, RSlot s Joined) ∈ refs w \/ ((x, RSlot s Closing) ∈ refs w /\ once_of w s <> Ran) \/ (x, RDb h Doomed) ∈ refs w.

Definition cared (w : World) (h : nat) (d : Db) : Prop :=
  (exists x, (x, RDb h Built) ∈ refs w) \/
  (cell_of w (d_slot d) = Full h /\ (named w (d_slot d) = true \/ dropped w (d_slot d) h \/ minded w (d_slot d) h)).

Definition picks_ok (w : World) (l : list (string * nat)) : Prop :=
  forall kh, kh ∈ l -> exists d, dbs w !! kh.2 = Some d /\ d_repo d = kh.1 /\ cell_of w (d_slot d) = Full kh.2.
Definition job_ok (w : World) (j : job) : Prop := match j with Retire l => picks_ok w l | CloseEntry _ => True end.

Record jobs_ok (w : World) : Prop := {
  j_nodup : NoDup (jobs w).*1;
  j_known : forall i j, (i, j) ∈ jobs w -> (i < fresh w)%nat /\ mine (Job i) (refs w) ≡ₚ job_refs j /\ job_ok w j;
  j_held : forall i r, (Job i, r) ∈ refs w -> i ∈ (jobs w).*1;
}.

(** Sweeps close no database in use, unless its slot was dropped. *)
Definition shut_ok (w : World) : Prop := forall t k h n, Shut t BySweep k h true n ∈ hist w ->
  n = 0%nat \/ exists d, dbs w !! h = Some d /\ dropped w (d_slot d) h.

(** A lease is given back by a task that has closed a database of the repository. *)
Fixpoint gave_ok (l : list event) : Prop :=
  match l with
  | [] => True
  | Gave t k :: l => (exists why h b n, Shut t why k h b n ∈ l) /\ gave_ok l
  | _ :: l => gave_ok l
  end.

Record Inv (w : World) : Prop := {
  i_map : forall k s, entries (pool w) !! k = Some s -> repo_of w s = Some k /\ once_of w s = NotRun;
  i_slot : forall s k, repo_of w s = Some k -> (s < fresh w)%nat;
  i_db : forall h d, dbs w !! h = Some d -> (h < fresh w)%nat /\ repo_of w (d_slot d) = Some (d_repo d);
  i_full : forall s h, cell_of w s = Full h -> exists d, dbs w !! h = Some d /\ d_slot d = s;
  i_ran : forall s, once_of w s = Ran -> named w s = false /\
    (barren (cell_of w s) = true \/ exists h d, cell_of w s = Full h /\ dbs w !! h = Some d /\ live d = false);
  i_refs : forall x r, (x, r) ∈ refs w -> ref_ok w x r;
  i_cared : forall h d, dbs w !! h = Some d -> live d = true -> cared w h d;
  i_spared : forall h d x y, dbs w !! h = Some d -> live d = true ->
    (x, RDb h Doomed) ∈ refs w -> (y, RDb h Adopted) ∈ refs w -> dropped w (d_slot d) h;
  i_jobs : jobs_ok w;
  i_shut : shut_ok w;
  i_gave : gave_ok (hist w);
}.

Definition step_ok (t : nat) (w w' : World) : Prop :=
  Inv w' /\ grows w w' /\ forall t', t' <> t -> own t' w w'.

(** ** Steps that only move clones about *)

Record alike (w w' : World) : Prop := {
  a_entries : entries (pool w') = entries (pool w);
  a_repo : forall s, repo_of w' s = repo_of w s;
  a_cell : forall s, cell_of w' s = cell_of w s;
  a_once : forall s, once_of w' s = once_of w s;
  a_dbs : dbs w' = dbs w;
  a_hist : hist w' = hist w;
  a_fresh : (fresh w <= fresh w')%nat;
}.

Lemma alike_named w w' s : alike w w' -> named w' s = named w s.
Proof. intros []. unfold named. by rewrite a_repo0, a_entries0. Qed.

Lemma alike_grows w w' : alike w w' -> grows w w'.
Proof.
  intros Ha. pose proof (fun s => alike_named w w' s Ha) as Hn. destruct Ha. split; try done.
  - intros s k. by rewrite a_repo0.
  - intros s h. by rewrite a_cell0.
  - intros s k _. by rewrite Hn.
  - intros h d. rewrite a_dbs0. eauto.
  - intros s. by rewrite a_once0.
  - intros s k _ _. by rewrite a_cell0.
  - by exists [].
Qed.

Lemma ref_ok_alike w w' x r : alike w w' -> ref_ok w x r -> ref_ok w' x r.
Proof.
  intros Ha. pose proof (fun s => alike_named w w' s Ha) as Hn. destruct Ha.
  destruct r as [s u|h u]; cbn; [rewrite a_repo0, a_cell0, Hn; done|]. rewrite a_dbs0.
  intros (d & Hd & H). exists d. split; [done|]. by rewrite a_cell0, Hn.
Qed.

Lemma ref_ok_grows w w' x r : grows w w' -> (forall t h d, x = Task t -> r = RDb h Built -> dbs w !! h = Some d -> cell_of w (d_slot d) = Opening t true -> cell_of w' (d_slot d) = Opening t true) ->
  ref_ok w x r -> ref_ok w' x r.
Proof.
  intros Hg Ho. destruct r as [s u|h u]; cbn.
  - intros [[k Hk] H]. split; [exists k; by apply (g_repo w w')|].
    destruct u; [done|destruct H as [h H]; exists h; by apply (g_full w w')..|by apply (g_gone w w' Hg s k)].
  - intros (d & Hd & H). destruct (g_db w w' Hg h d Hd) as (d' & Hd' & E1 & E2 & _). exists d'. split; [done|]. rewrite E2.
    destruct u; try by apply (g_full w w').
    + destruct H as (t & -> & H). exists t. split; [done|]. by apply (Ho t h d).
    + destruct H as [H1 H2]. split; [by apply (g_full w w')|]. destruct (repo_of w (d_slot d)) as [k|] eqn:Hk; [by apply (g_gone w w' Hg _ k)|].
      unfold cell_of, entry_of, repo_of in *. destruct (slots w !! d_slot d); done.
Qed.

Lemma picks_ok_grows w w' l : grows w w' -> picks_ok w l -> picks_ok w' l.
Proof.
  intros Hg H kh Hkh. destruct (H kh Hkh) as (d & Hd & E & Hc). destruct (g_db w w' Hg _ d Hd) as (d' & Hd' & E1 & E2 & _).
  exists d'. split; [done|]. split; [congruence|]. rewrite E2. by apply (g_full w w').
Qed.

Lemma job_ok_grows w w' j : grows w w' -> job_ok w j -> job_ok w' j.
Proof. destruct j; [apply picks_ok_grows|done]. Qed.

(** What may be let go of, when [B] is taken instead. *)
Definition spare (w : World) (B : list (holder * ref)) (r : ref) : Prop :=
  match r with
  | RSlot s Joined => named w s = true \/ (exists x, (x, RSlot s Joined) ∈ B) \/ exists x, (x, RSlot s Closing) ∈ B
  | RSlot s Closing => once_of w s = Ran \/ exists x, (x, RSlot s Closing) ∈ B
  | RDb h Doomed => forall d, dbs w !! h = Some d -> live d = false
  | RDb h Built => False
  | _ => True
  end.

(** Handles come into use only out of the map, and are doomed only out of it. *)
Definition orderly (w : World) (A B : list (holder * ref)) : Prop :=
  (forall x h, (x, RDb h Adopted) ∈ B -> (exists y, (y, RDb h Adopted) ∈ A) \/ forall d, dbs w !! h = Some d -> named w (d_slot d) = true) /\
  (forall x h, (x, RDb h Doomed) ∈ B -> exists y, (y, RDb h Doomed) ∈ A).

Definition by_task (t : nat) (l : list (holder * ref)) : Prop := forall x r, (x, r) ∈ l -> forall t', x = Task t' -> t' = t.

Lemma mine_by_task t t' l : by_task t l -> t' <> t -> mine (Task t') l = [].
Proof.
  intros H Hn. destruct (mine (Task t') l) as [|r m] eqn:E; [done|].
  assert ((Task t', r) ∈ l) as Hin by (apply mine_elem; rewrite E; left). by destruct (Hn (H _ _ Hin t' eq_refl)).
Qed.

Lemma own_swap t t' w w' A B rest : refs w ≡ₚ A ++ rest -> refs w' ≡ₚ B ++ rest -> by_task t A -> by_task t B -> t' <> t ->
  (forall s b, cell_of w s = Opening t' b -> cell_of w' s = Opening t' b) -> own t' w w'.
Proof.
  intros H1 H2 HA HB Hn Hc. split; [|done].
  by rewrite H1, H2, !mine_app, (mine_by_task t t' A), (mine_by_task t t' B).
Qed.

Section alike.
Variables (t : nat) (w w' : World) (A B rest : list (holder * ref)).
Hypothesis HI : Inv w.
Hypothesis Ha : alike w w'.
Hypothesis H1 : refs w ≡ₚ A ++ rest.
Hypothesis H2 : refs w' ≡ₚ B ++ rest.
Hypothesis HA : forall x r, (x, r) ∈ A -> spare w B r.

Lemma stays x r : (x, r) ∈ refs w -> (x, r) ∈ A \/ (x, r) ∈ refs w'.
Proof using H1 H2. rewrite H1, H2, !elem_of_app. tauto. Qed.

Lemma taken x r : (x, r) ∈ B -> (x, r) ∈ refs w'.
Proof using H2. rewrite H2, elem_of_app. tauto. Qed.

Lemma came x r : (x, r) ∈ refs w' -> (x, r) ∈ B \/ (x, r) ∈ refs w.
Proof using H1 H2. rewrite H1, H2, !elem_of_app. tauto. Qed.

Lemma minded_alike h d : dbs w !! h = Some d -> live d = true -> cell_of w (d_slot d) = Full h -> minded w (d_slot d) h ->
  named w (d_slot d) = true \/ minded w' (d_slot d) h.
Proof using HI Ha H1 H2 HA.
  intros Hd Hl Hf [x Hx].
  assert (once_of w (d_slot d) <> Ran) as Hr.
  { intros Hr. destruct (i_ran w HI _ Hr) as [_ [Hb|(h' & d' & Hf' & Hd' & Hl')]]; [by rewrite Hf in Hb|].
    rewrite Hf in Hf'. injection Hf' as <-. congruence. }
  assert (once_of w' (d_slot d) <> Ran) as Hr' by by rewrite (a_once w w' Ha).
  destruct Hx as [Hx|[[Hx _]|Hx]]; destruct (stays _ _ Hx) as [Hi|Hi];
    try (right; exists x; tauto); specialize (HA _ _ Hi); cbn in HA.
  - destruct HA as [Hn|[[y Hy]|[y Hy]]]; [by left|right; exists y; left; by apply taken|].
    right. exists y. right. left. split; [by apply taken|done].
  - destruct HA as [Hn|[y Hy]]; [done|]. right. exists y. right. left. split; [by apply taken|done].
  - rewrite (HA d Hd) in Hl. done.
Qed.

Lemma Inv_alike : (forall x r, (x, r) ∈ B -> ref_ok w x r) -> orderly w A B -> jobs_ok w' -> Inv w'.
Proof using HI Ha H1 H2 HA.
  intros HB [HO1 HO2] HJ. pose proof (fun s => alike_named w w' s Ha) as Hn. pose proof Ha as [Ee Er Ec Eo Ed Eh Ef].
  split; [..|done| |].
  - intros k s. rewrite Ee, Er, Eo. by apply (i_map w).
  - intros s k. rewrite Er. intros Hk. pose proof (i_slot w HI s k Hk). lia.
  - intros h d. rewrite Ed, Er. intros Hd. destruct (i_db w HI h d Hd). split; [lia|done].
  - intros s h. rewrite Ec, Ed. by apply (i_full w).
  - intros s. rewrite Eo, Ec, Hn, Ed. by apply (i_ran w).
  - intros x r Hin. apply (ref_ok_alike w w' x r Ha). destruct (came _ _ Hin); [auto|by apply (i_refs w)].
  - intros h d. rewrite Ed. intros Hd Hl. destruct (i_cared w HI h d Hd Hl) as [[x Hx]|[Hf Hc]].
    + left. exists x. destruct (stays _ _ Hx) as [Hi|Hi]; [destruct (HA _ _ Hi)|done].
    + right. rewrite Ec, Hn. split; [done|]. destruct Hc as [Hc|[Hc|Hc]]; [by left| |].
      * right. left. by apply (grows_dropped w w'); [apply alike_grows|].
      * destruct (minded_alike h d Hd Hl Hf Hc); [by left|right; by right].
  - intros h d x y. rewrite Ed. intros Hd Hl Hx Hy. apply (grows_dropped w w'); [by apply alike_grows|].
    assert (exists x', (x', RDb h Doomed) ∈ refs w) as [x' Hx'].
    { destruct (came _ _ Hx) as [Hb|Hb]; [|eauto]. destruct (HO2 _ _ Hb) as [x' Hx']. exists x'. rewrite H1, elem_of_app. by left. }
    destruct (came _ _ Hy) as [Hb|Hb]; [|by apply (i_spared w HI h d x' y)].
    destruct (HO1 _ _ Hb) as [[y' Hy']|Hm]; [apply (i_spared w HI h d x' y'); [done..|rewrite H1, elem_of_app; by left]|].
    destruct (i_refs w HI _ _ Hx') as (d' & Hd' & _ & Hu). rewrite Hd in Hd'. injection Hd' as <-. by rewrite (Hm d Hd) in Hu.
  - intros t' k h n. rewrite Eh. intros Hs. destruct (i_shut w HI _ _ _ _ Hs) as [|(d & Hd & Hp)]; [by left|right].
    exists d. rewrite Ed. split; [done|]. by apply (grows_dropped w w'); [apply alike_grows|].
  - rewrite Eh. apply (i_gave w HI).
Qed.

Lemma step_alike : by_task t A -> by_task t B -> (forall x r, (x, r) ∈ B -> ref_ok w x r) -> orderly w A B -> jobs_ok w' ->
  step_ok t w w'.
Proof using HI Ha H1 H2 HA.
  intros HtA HtB HB HO HJ. split; [by apply Inv_alike|]. split; [by apply alike_grows|].
  intros t' Hn. apply (own_swap t t' w w' A B rest); try done. intros s b. by rewrite (a_cell w w' Ha).
Qed.
End alike.

(** ** A task and what it holds itself *)

Definition has (t : nat) (L : list ref) (w : World) : Prop := mine (Task t) (refs w) ≡ₚ L.

Lemma has_R t L w w' : R t w w' -> has t L w -> has t L w'.
Proof. intros [_ [H _]] HL. unfold has. by rewrite H. Qed.

Lemma jobs_ok_tasks t w w' a b rest : Inv w -> grows w w' -> jobs w' = jobs w ->
  refs w ≡ₚ held (Task t) a ++ rest -> refs w' ≡ₚ held (Task t) b ++ rest -> jobs_ok w'.
Proof.
  intros HI Hg Hj H1 H2. destruct (i_jobs w HI) as [N1 K1 H3].
  assert (forall i, mine (Job i) (refs w') ≡ₚ mine (Job i) (refs w)) as Hm.
  { intros i. by rewrite H1, H2, !mine_app, !mine_held_other. }
  split; rewrite Hj; [done| |].
  - intros i j Hij. destruct (K1 i j Hij) as (Hf & Hmi & Ho). pose proof (g_fresh w w' Hg). split; [lia|].
    rewrite Hm. split; [done|]. by apply (job_ok_grows w).
  - intros i r Hir. apply (H3 i r), mine_elem. rewrite <- Hm. by apply mine_elem.
Qed.

Lemma by_task_held t rs : by_task t (held (Task t) rs).
Proof. intros x r [-> _]%held_elem t' [= ->]. done. Qed.

Lemma has_swap t w w' a b L rest : has t (a ++ L) w -> refs w ≡ₚ held (Task t) a ++ rest -> refs w' ≡ₚ held (Task t) b ++ rest ->
  has t (b ++ L) w'.
Proof.
  unfold has. intros HL H1 H2. rewrite H1, mine_app, mine_held in HL. apply (inj (app a)) in HL.
  by rewrite H2, mine_app, mine_held, HL.
Qed.

(** A task gives up [a] and takes [b]. *)
Lemma step_refs t w w' a b L : Inv w -> alike w w' -> jobs w' = jobs w -> has t (a ++ L) w ->
  (forall rest, refs w ≡ₚ held (Task t) a ++ rest -> refs w' ≡ₚ held (Task t) b ++ rest) ->
  (forall r, r ∈ a -> spare w (held (Task t) b) r) ->
  (forall r, r ∈ b -> ref_ok w (Task t) r) ->
  (forall h, RDb h Adopted ∈ b -> RDb h Adopted ∈ a \/ forall d, dbs w !! h = Some d -> named w (d_slot d) = true) ->
  (forall h, RDb h Doomed ∈ b -> RDb h Doomed ∈ a) ->
  step_ok t w w' /\ has t (b ++ L) w'.
Proof.
  intros HI Ha Hj HL Hw Hs Hb Had Hdo. destruct (mine_split _ _ _ _ HL) as (rest & H1 & _).
  pose proof (Hw rest H1) as H2. split; [|by apply (has_swap t w w' a b L rest)].
  apply (step_alike t w w' (held (Task t) a) (held (Task t) b) rest); try done.
  - intros x r [-> Hr]%held_elem. auto.
  - apply by_task_held.
  - apply by_task_held.
  - intros x r [-> Hr]%held_elem. auto.
  - split; intros x h [-> Hr]%held_elem.
    + destruct (Had h Hr); [left|by right]. exists (Task t). by apply held_elem.
    + exists (Task t). apply held_elem. auto.
  - apply (jobs_ok_tasks t w w' a b rest); try done. by apply alike_grows.
Qed.

Lemma rehold_perm w x r y r' rest : refs w ≡ₚ (x, r) :: rest -> refs (rehold x r y r' w) ≡ₚ (y, r') :: rest.
Proof. intros H. unfold rehold, hold, unhold. cbn. by rewrite (remove_one_perm _ _ _ H). Qed.

Lemma alike_refs f w : alike w (on_refs f w).
Proof. by split. Qed.

Lemma alike_rehold x r y r' w : alike w (rehold x r y r' w).
Proof. by split. Qed.

Lemma alike_trans a b c : alike a b -> alike b c -> alike a c.
Proof. intros [] []. split; try congruence; [..|lia]; intros s; congruence. Qed.

(** Reading members of short lists. *)
Ltac mem := repeat match goal with
  | H : _ ∈ _ :: _ |- _ => apply elem_of_cons in H as [H|H]
  | H : _ ∈ [] |- _ => by apply elem_of_nil in H
  end.

Lemma unhold_ok t r L w : Inv w -> has t (r :: L) w -> spare w [] r -> step_ok t w (unhold (Task t) r w) /\ has t L (unhold (Task t) r w).
Proof.
  intros HI HL Hs. apply (step_refs t w _ [r] [] L HI (alike_refs _ w) eq_refl HL).
  - intros rest H. apply (remove_one_perm _ _ _ H).
  - intros r' Hr. mem. by subst.
  - intros r' Hr. mem.
  - intros h Hr. mem.
  - intros h Hr. mem.
Qed.

Lemma hold_ok t r L w : Inv w -> has t L w -> ref_ok w (Task t) r ->
  (forall h, r <> RDb h Adopted /\ r <> RDb h Doomed) -> step_ok t w (hold (Task t) r w) /\ has t (r :: L) (hold (Task t) r w).
Proof.
  intros HI HL Hr Hn. apply (step_refs t w _ [] [r] L HI (alike_refs _ w) eq_refl HL).
  - intros rest H. cbn. by rewrite H.
  - intros r' Hr'. mem.
  - intros r' Hr'. mem. by subst.
  - intros h Hh. mem. by destruct (Hn h).
  - intros h Hh. mem. by destruct (Hn h).
Qed.

Lemma step_refl t w : Inv w -> step_ok t w w.
Proof. intros HI. split; [done|]. split; [reflexivity|]. intros t' _. reflexivity. Qed.

Lemma step_trans t a b c : step_ok t a b -> step_ok t b c -> step_ok t a c.
Proof.
  intros (_ & G1 & O1) (I2 & G2 & O2). split; [done|]. split; [by etrans|].
  intros t' Hn. etrans; [by apply O1|by apply O2].
Qed.

Lemma step_Inv t w w' : step_ok t w w' -> Inv w'. Proof. by intros (? & _). Qed.
Lemma step_grows t w w' : step_ok t w w' -> grows w w'. Proof. by intros (_ & ? & _). Qed.
#[export] Hint Resolve step_Inv step_grows : klo.

(** ** Steps inside one entry *)

Lemma entry_of_on w s f s' : entry_of (on_entry s f w) s' = if Nat.eqb s' s then f <$> entry_of w s' else entry_of w s'.
Proof.
  unfold entry_of, on_entry. cbn. destruct (Nat.eqb_spec s' s) as [->|Hn].
  - rewrite lookup_alter_eq. by destruct (slots w !! s).
  - by rewrite lookup_alter_ne.
Qed.

Lemma repo_of_on w s f s' : repo_of (on_entry s f w) s' = repo_of w s'.
Proof.
  unfold repo_of, on_entry. cbn. destruct (decide (s' = s)) as [->|Hn].
  - rewrite lookup_alter_eq. by destruct (slots w !! s) as [[k e]|].
  - by rewrite lookup_alter_ne.
Qed.

Lemma named_on w s f s' : named (on_entry s f w) s' = named w s'.
Proof. unfold named. by rewrite repo_of_on. Qed.

Lemma entry_of_repo w s : is_Some (entry_of w s) <-> is_Some (repo_of w s).
Proof. unfold entry_of, repo_of. rewrite !fmap_is_Some. done. Qed.

Lemma cell_of_on_ne w s f s' : s' <> s -> cell_of (on_entry s f w) s' = cell_of w s'.
Proof. intros Hn. unfold cell_of. rewrite entry_of_on. apply Nat.eqb_neq in Hn. by rewrite Hn. Qed.

Lemma once_of_on_ne w s f s' : s' <> s -> once_of (on_entry s f w) s' = once_of w s'.
Proof. intros Hn. unfold once_of. rewrite entry_of_on. apply Nat.eqb_neq in Hn. by rewrite Hn. Qed.

Lemma alike_on w s f : (forall e, db (f e) = db e) -> (forall e, e_closed (f e) = e_closed e) -> alike w (on_entry s f w).
Proof.
  intros Hd Hc. split; try done; [apply repo_of_on| |]; intros s'; unfold cell_of, once_of; rewrite entry_of_on;
    destruct (Nat.eqb s' s); [|done| |done]; destruct (entry_of w s'); cbn; by rewrite ?Hd, ?Hc.
Qed.

Lemma cell_set w s c k : repo_of w s = Some k -> cell_of (on_entry s (with_db c) w) s = c.
Proof.
  intros Hk. unfold cell_of. rewrite entry_of_on, Nat.eqb_refl. destruct (entry_of w s) eqn:E; [done|].
  assert (is_Some (entry_of w s)) as [e He] by (apply entry_of_repo; eauto). congruence.
Qed.

Lemma once_set w s c k : repo_of w s = Some k -> once_of (on_entry s (with_e_closed c) w) s = c.
Proof.
  intros Hk. unfold once_of. rewrite entry_of_on, Nat.eqb_refl. destruct (entry_of w s) eqn:E; [done|].
  assert (is_Some (entry_of w s)) as [e He] by (apply entry_of_repo; eauto). congruence.
Qed.

Lemma once_with_db w s c s' : once_of (on_entry s (with_db c) w) s' = once_of w s'.
Proof. unfold once_of. rewrite entry_of_on. destruct (Nat.eqb s' s); [|done]. by destruct (entry_of w s'). Qed.

Lemma cell_with_once w s c s' : cell_of (on_entry s (with_e_closed c) w) s' = cell_of w s'.
Proof. unfold cell_of. rewrite entry_of_on. destruct (Nat.eqb s' s); [|done]. by destruct (entry_of w s'). Qed.

Lemma jobs_ok_grows w w' : Inv w -> grows w w' -> jobs w' = jobs w -> refs w' = refs w -> jobs_ok w'.
Proof. intros HI Hg Hj Hr. by apply (jobs_ok_tasks 0 w w' [] [] (refs w)); try done; cbn; rewrite ?Hr. Qed.

Lemma shut_ok_grows w w' : Inv w -> grows w w' -> (forall t k h n, Shut t BySweep k h true n ∈ hist w' -> Shut t BySweep k h true n ∈ hist w) -> shut_ok w'.
Proof.
  intros HI Hg Hh t k h n Hin. destruct (i_shut w HI t k h n (Hh _ _ _ _ Hin)) as [|(d & Hd & Hp)]; [by left|right].
  destruct (g_db w w' Hg h d Hd) as (d' & Hd' & _ & E & _). exists d'. split; [done|]. rewrite E. by apply (grows_dropped w).
Qed.

(** [Entry::close] on its way. *)
Lemma step_once t w s c k : Inv w -> repo_of w s = Some k -> named w s = false -> c <> NotRun -> (once_of w s = Ran -> c = Ran) ->
  (c = Ran -> barren (cell_of w s) = true \/ exists h d, cell_of w s = Full h /\ dbs w !! h = Some d /\ live d = false) ->
  step_ok t w (on_entry s (with_e_closed c) w).
Proof.
  intros HI Hk Hn Hc Hr Hd. set (w' := on_entry s (with_e_closed c) w).
  assert (forall s', cell_of w' s' = cell_of w s') as Ec by apply cell_with_once.
  assert (forall s', repo_of w' s' = repo_of w s') as Er by apply repo_of_on.
  assert (forall s', named w' s' = named w s') as En by apply named_on.
  assert (once_of w' s = c) as Es by by apply (once_set w s c k).
  assert (forall s', s' <> s -> once_of w' s' = once_of w s') as Eo by (intros s'; apply once_of_on_ne).
  assert (grows w w') as Hg.
  { split; try done; [..|by exists []]; intros; rewrite ?Er, ?Ec, ?En; try done; [eauto|].
    destruct (decide (s0 = s)) as [->|]; [rewrite Es; auto|by rewrite Eo]. }
  split; [|split; [done|]; intros t' _; split; [done|]; intros s' b; by rewrite Ec].
  split.
  - intros k' s' He. change (entries (pool w') !! k') with (entries (pool w) !! k') in He. destruct (i_map w HI k' s' He) as [H1 H2].
    rewrite Er. split; [done|]. rewrite Eo; [done|]. intros ->. unfold named in Hn. rewrite H1 in Hn. by apply bool_decide_eq_false in Hn.
  - intros s' k'. rewrite Er. apply (i_slot w HI).
  - intros h d. rewrite Er. apply (i_db w HI).
  - intros s' h. rewrite Ec. apply (i_full w HI).
  - intros s' Hs. rewrite En, Ec. destruct (decide (s' = s)) as [->|Hne]; [|apply (i_ran w HI); by rewrite <- Eo].
    split; [done|]. apply Hd. by rewrite <- Es.
  - intros x r Hin. apply (ref_ok_grows w w'); [done|intros; by rewrite Ec|by apply (i_refs w HI)].
  - intros h d Hh Hl. destruct (i_cared w HI h d Hh Hl) as [Hb|[Hf Hx]]; [by left|]. right. rewrite Ec, En. split; [done|].
    destruct Hx as [Hx|[Hx|[x Hx]]]; [by left|by right; left|]. right. right. exists x.
    destruct Hx as [Hx|[[Hx Hnr]|Hx]]; [by left|right; left; split; [done|]|by right; right].
    destruct (decide (d_slot d = s)) as [E|]; [|by rewrite Eo]. rewrite E, Es. intros ->.
    destruct (Hd eq_refl) as [Hb|(h' & d' & Hf' & Hd' & Hl')]; [by rewrite <- E, Hf in Hb|].
    rewrite <- E, Hf in Hf'. injection Hf' as <-. change (dbs w') with (dbs w) in Hh. congruence.
  - intros h d x y. apply (i_spared w HI).
  - by apply (jobs_ok_grows w w').
  - by apply (shut_ok_grows w w').
  - apply (i_gave w HI).
Qed.

(** A cell that is not full, by the task that may fill it. *)
Lemma step_cell t w s c L k : Inv w -> repo_of w s = Some k -> has t L w -> (forall h, RDb h Built ∉ L) ->
  (cell_of w s = Empty \/ exists b, cell_of w s = Opening t b) ->
  (c = Empty \/ c = Opening t false \/ c = Opening t true /\ named w s = true) ->
  step_ok t w (on_entry s (with_db c) w).
Proof.
  intros HI Hk HL Hnb Hold Hnew. set (w' := on_entry s (with_db c) w).
  assert (forall s', once_of w' s' = once_of w s') as Eo by apply once_with_db.
  assert (forall s', repo_of w' s' = repo_of w s') as Er by apply repo_of_on.
  assert (forall s', named w' s' = named w s') as En by apply named_on.
  assert (cell_of w' s = c) as Es by by apply (cell_set w s c k).
  assert (forall s', s' <> s -> cell_of w' s' = cell_of w s') as Ec by (intros s'; apply cell_of_on_ne).
  assert (forall h, cell_of w s <> Full h) as Hnf by (intros h Hf; destruct Hold as [Ho|[b Ho]]; congruence).
  assert (named w s = false -> barren c = true) as Hbar by (intros Hf; destruct Hnew as [->|[->|[_ Hy]]]; [done|done|congruence]).
  assert (forall s' h, cell_of w s' = Full h -> cell_of w' s' = Full h) as Hfull
    by (intros s' h Hf; rewrite Ec; [done|]; intros ->; by destruct (Hnf h)).
  assert (grows w w') as Hg.
  { split; try done; [..|by exists []]; intros; rewrite ?Er, ?Eo, ?En; try done; [eauto|].
    destruct (decide (s0 = s)) as [->|]; [rewrite Es; auto|by rewrite Ec]. }
  split; [|split; [done|]; intros t' Hn; split; [done|]; intros s' b Hc; rewrite Ec; [done|]; intros ->;
    destruct Hold as [Ho|[b' Ho]]; congruence].
  split.
  - intros k' s' He. rewrite Er, Eo. by apply (i_map w HI).
  - intros s' k'. rewrite Er. apply (i_slot w HI).
  - intros h d. rewrite Er. apply (i_db w HI).
  - intros s' h Hf. destruct (decide (s' = s)) as [->|]; [|apply (i_full w HI); by rewrite <- Ec].
    rewrite Es in Hf. destruct Hnew as [->|[->|[-> _]]]; done.
  - intros s' Hs. rewrite Eo in Hs. destruct (i_ran w HI s' Hs) as [Hf Hd]. rewrite En. split; [done|].
    destruct (decide (s' = s)) as [->|]; [|by rewrite Ec]. left. rewrite Es. auto.
  - intros x r Hin. apply (ref_ok_grows w w'); [done| |by apply (i_refs w HI)]. intros t' h d -> -> Hh Ho.
    destruct (decide (d_slot d = s)) as [Eq|]; [exfalso|by rewrite Ec]. rewrite Eq in Ho.
    destruct Hold as [Hold|[b Hold]]; rewrite Hold in Ho; [done|]. injection Ho as -> _.
    apply (Hnb h). unfold has in HL. rewrite <- HL. by apply mine_elem.
  - intros h d Hh Hl. destruct (i_cared w HI h d Hh Hl) as [Hb|[Hf Hx]]; [by left|]. right. rewrite En. split; [by apply Hfull|].
    destruct Hx as [Hx|[Hx|[x Hx]]]; [by left|by right; left|]. right. right. exists x. by rewrite Eo.
  - intros h d x y. apply (i_spared w HI).
  - by apply (jobs_ok_grows w w').
  - by apply (shut_ok_grows w w').
  - apply (i_gave w HI).
Qed.

Lemma fill_refs t s h w rest : refs w ≡ₚ held (Task t) [RDb h Built; RSlot s Joining] ++ rest ->
  remove_one (Task t, RDb h Built) ((Task t, RSlot s Joined) :: remove_one (Task t, RSlot s Joining) (refs w)) ≡ₚ (Task t, RSlot s Joined) :: rest.
Proof.
  intros H1. apply remove_one_perm. rewrite (remove_one_perm (Task t, RSlot s Joining) _ ((Task t, RDb h Built) :: rest)).
  - apply Permutation_swap.
  - rewrite H1. apply Permutation_swap.
Qed.

(** The handle goes into the cell. *)
Lemma step_fill t s h d L w w' : Inv w -> w' = unhold (Task t) (RDb h Built) (rehold (Task t) (RSlot s Joining) (Task t) (RSlot s Joined) (on_entry s (with_db (Full h)) w)) ->
  has t (RDb h Built :: RSlot s Joining :: L) w -> (forall h, RDb h Built ∉ L) -> dbs w !! h = Some d -> d_slot d = s ->
  cell_of w s = Opening t true -> step_ok t w w' /\ has t (RSlot s Joined :: L) w'.
Proof.
  intros HI Hw' HL Hnb Hd Hs Ho. destruct (mine_split _ _ [RDb h Built; RSlot s Joining] L HL) as (rest & H1 & Hm).
  assert (refs w' ≡ₚ held (Task t) [RSlot s Joined] ++ rest) as H2 by (subst w'; by apply fill_refs).
  destruct (i_db w HI h d Hd) as [_ Hk]. rewrite Hs in Hk.
  assert (forall s', once_of w' s' = once_of w s') as Eo by (subst w'; intros; apply once_with_db).
  assert (forall s', repo_of w' s' = repo_of w s') as Er by (subst w'; intros; apply repo_of_on).
  assert (forall s', named w' s' = named w s') as En by (subst w'; intros; apply named_on).
  assert (cell_of w' s = Full h) as Es by (subst w'; by apply (cell_set w s (Full h) (d_repo d))).
  assert (forall s', s' <> s -> cell_of w' s' = cell_of w s') as Ec by (subst w'; intros s'; apply cell_of_on_ne).
  assert (dbs w' = dbs w) as Ed by by subst w'. assert (entries (pool w') = entries (pool w)) as Ee by by subst w'.
  assert (hist w' = hist w) as Eh by by subst w'. assert (fresh w' = fresh w) as Ef by by subst w'.
  assert (jobs w' = jobs w) as Ej by by subst w'. clear Hw'.
  assert (forall s' h', cell_of w s' = Full h' -> cell_of w' s' = Full h') as Hfull by (intros s' h' Hf; rewrite Ec; [done|congruence]).
  assert (forall s', once_of w s' = Ran -> s' <> s) as Hnr.
  { intros s' Hr ->. destruct (i_ran w HI s Hr) as [_ [Hb|(h' & d' & Hf & _)]]; [by rewrite Ho in Hb|congruence]. }
  assert (grows w w') as Hg.
  { split; [by rewrite Ef|intros s' k; by rewrite Er|done|intros s' k; by rewrite En|intros h' d'; rewrite Ed; eauto|intros s'; by rewrite Eo| |by exists []].
    intros s' k _ _ Hb. destruct (decide (s' = s)) as [->|]; [by rewrite Ho in Hb|by rewrite Ec]. }
  split; [|by apply (has_swap t w w' [RDb h Built; RSlot s Joining] [RSlot s Joined] L rest)].
  split; [|split; [done|]; intros t' Hn; apply (own_swap t t' w w' _ _ rest H1 H2); try apply by_task_held; try done; intros s' b Hc;
    rewrite Ec; [done|congruence]].
  split.
  - intros k s'. rewrite Ee, Er, Eo. apply (i_map w HI).
  - intros s' k. rewrite Er, Ef. apply (i_slot w HI).
  - intros h' d'. rewrite Ed, Er, Ef. apply (i_db w HI).
  - intros s' h' Hf. rewrite Ed. destruct (decide (s' = s)) as [->|]; [|apply (i_full w HI); by rewrite <- Ec].
    rewrite Es in Hf. injection Hf as <-. by exists d.
  - intros s'. rewrite Eo, En. intros Hr. rewrite Ec by by apply Hnr. rewrite Ed. by apply (i_ran w HI).
  - intros x r Hin. rewrite H2 in Hin. apply elem_of_app in Hin as [[-> Hin]%held_elem|Hin].
    + mem. subst. split; [exists (d_repo d); by rewrite Er|by exists h].
    + assert ((x, r) ∈ refs w) as Hin' by (rewrite H1; apply elem_of_app; by right).
      apply (ref_ok_grows w w'); [done| |by apply (i_refs w HI)]. intros t' h' d' -> -> Hd' Ho'.
      destruct (decide (d_slot d' = s)) as [Eq|]; [exfalso|by rewrite Ec]. rewrite Eq, Ho in Ho'. injection Ho' as ->.
      apply (Hnb h'). rewrite <- Hm. by apply mine_elem.
  - intros h' d'. rewrite Ed. intros Hd' Hl. destruct (i_cared w HI h' d' Hd' Hl) as [[x Hx]|[Hf Hc]].
    + pose proof (i_refs w HI _ _ Hx) as (d1 & Hd1 & t1 & -> & Ho1). rewrite Hd' in Hd1. injection Hd1 as <-.
      rewrite H1 in Hx. apply elem_of_app in Hx as [[_ Hx]%held_elem|Hx].
      * mem; [|done]. injection Hx as ->. rewrite Hd in Hd'. injection Hd' as <-. right. rewrite Hs. split; [done|]. right. right.
        exists (Task t). left. rewrite H2. left.
      * left. exists (Task t1). rewrite H2. apply elem_of_app. by right.
    + right. rewrite En. split; [by apply Hfull|]. destruct Hc as [Hc|[Hc|[x Hx]]]; [by left|right; left; by apply (grows_dropped w)|].
      right. right. exists x. rewrite Eo. assert (forall r, (x, r) ∈ refs w -> r <> RDb h Built -> r <> RSlot s Joining -> (x, r) ∈ refs w') as Hkeep.
      { intros r Hin Hn1 Hn2. rewrite H1 in Hin. rewrite H2. apply elem_of_app in Hin as [[_ Hin]%held_elem|Hin]; [by mem|apply elem_of_app; by right]. }
      destruct Hx as [Hx|[[Hx Hx']|Hx]]; [left|right; left; split; [|done]|right; right]; by apply Hkeep.
  - intros h' d' x y. rewrite Ed. intros Hd' Hl Hx Hy. apply (grows_dropped w w' _ _ Hg). apply (i_spared w HI h' d' x y); try done.
    all: rewrite H1; rewrite H2 in Hx, Hy; apply elem_of_app in Hx as [[_ Hx]%held_elem|Hx]; [by mem|];
      apply elem_of_app in Hy as [[_ Hy]%held_elem|Hy]; [by mem|]; apply elem_of_app; by right.
  - by apply (jobs_ok_tasks t w w' _ _ rest HI Hg Ej H1 H2).
  - apply (shut_ok_grows w w' HI Hg). intros t' k h' n. by rewrite Eh.
  - rewrite Eh. apply (i_gave w HI).
Qed.

(** ** Steps that take slots out of the map *)

Definition plain (r : ref) : Prop :=
  match r with RSlot _ (Joined | Closing) | RDb _ (Built | Doomed) => False | _ => True end.

Lemma named_entries w s k : entries (pool w) !! k = Some s -> repo_of w s = Some k -> named w s = true.
Proof. intros He Hk. unfold named. rewrite Hk. by apply bool_decide_eq_true. Qed.

Section remove.
Variables (t : nat) (w w' : World) (a b L : list ref) (rest : list (holder * ref)) (l : list event).
Hypothesis HI : Inv w.
Hypothesis HL : has t (a ++ L) w.
Hypothesis Es : slots w' = slots w.
Hypothesis Ed : dbs w' = dbs w.
Hypothesis Ej : jobs w' = jobs w.
Hypothesis Ef : fresh w' = fresh w.
Hypothesis Eh : hist w' = (l ++ hist w)%list.
Hypothesis Hl : forall e, e ∈ l -> aside e.
Hypothesis He : forall k s, entries (pool w') !! k = Some s -> entries (pool w) !! k = Some s.
Hypothesis H1 : refs w ≡ₚ held (Task t) a ++ rest.
Hypothesis H2 : refs w' ≡ₚ held (Task t) b ++ rest.
Hypothesis Ha : forall r, r ∈ a -> plain r.
Hypothesis Hb : forall r, r ∈ b -> ref_ok w' (Task t) r.
Hypothesis Had : forall h, RDb h Adopted ∉ b.
Hypothesis Hdo : forall h d y, RDb h Doomed ∈ b -> dbs w !! h = Some d -> live d = true -> (y, RDb h Adopted) ∈ refs w -> dropped w' (d_slot d) h.
Hypothesis Hgo : forall s h d, named w s = true -> named w' s = false -> cell_of w s = Full h -> dbs w !! h = Some d -> live d = true ->
  dropped w' s h \/ RSlot s Closing ∈ b \/ RDb h Doomed ∈ b.

Lemma remove_same : (forall s, repo_of w' s = repo_of w s) /\ (forall s, cell_of w' s = cell_of w s) /\ (forall s, once_of w' s = once_of w s).
Proof using Es. unfold repo_of, cell_of, once_of, entry_of. by rewrite Es. Qed.

Lemma remove_named s : named w s = false -> named w' s = false.
Proof using Es He.
  unfold named, repo_of. rewrite Es. destruct (fst <$> slots w !! s) as [k|]; [|done].
  rewrite !bool_decide_eq_false. eauto.
Qed.

Lemma remove_grows : grows w w'.
Proof using Es Ed Ef Eh He.
  destruct remove_same as (Er & Ec & Eo). split.
  - by rewrite Ef.
  - intros s k. by rewrite Er.
  - intros s h. by rewrite Ec.
  - intros s k _. apply remove_named.
  - intros h d. rewrite Ed. eauto.
  - intros s. by rewrite Eo.
  - intros s k _ _. by rewrite Ec.
  - by exists l.
Qed.

Lemma remove_cared h d : dbs w !! h = Some d -> live d = true -> cared w h d -> cared w' h d.
Proof using HI Es Ed Ef Eh He H1 H2 Ha Hgo.
  destruct remove_same as (Er & Ec & Eo). intros Hd Hlv Hc.
  assert (forall x r, (x, r) ∈ refs w -> ~ plain r -> (x, r) ∈ refs w') as Hkeep.
  { intros x r Hin Hn. rewrite H1 in Hin. rewrite H2. apply elem_of_app in Hin as [[_ Hin]%held_elem|Hin]; [by destruct (Hn (Ha _ Hin))|].
    apply elem_of_app. by right. }
  destruct Hc as [[x Hx]|[Hf Hc]]; [left; exists x; apply Hkeep; [done|by intros []]|].
  right. rewrite Ec. split; [done|]. destruct Hc as [Hc|[Hc|[x Hx]]].
  - destruct (named w' (d_slot d)) eqn:Hn'; [by left|right]. destruct (Hgo _ _ _ Hc Hn' Hf Hd Hlv) as [Hp|[Hp|Hp]]; [by left|right..];
      exists (Task t); rewrite Eo.
    + right. left. split; [rewrite H2; apply elem_of_app; left; by apply held_elem|].
      unfold named in Hc. destruct (repo_of w (d_slot d)) as [k|] eqn:Hk; [|done]. apply bool_decide_eq_true in Hc.
      destruct (i_map w HI k _ Hc) as [_ ->]. done.
    + right. right. rewrite H2. apply elem_of_app. left. by apply held_elem.
  - right. left. apply (grows_dropped w); [apply remove_grows|done].
  - right. right. exists x. rewrite Eo.
    destruct Hx as [Hx|[[Hx Hx']|Hx]]; [left|right; left; split; [|done]|right; right]; (apply Hkeep; [done|by intros []]).
Qed.

Lemma step_remove : step_ok t w w' /\ has t (b ++ L) w'.
Proof using All.
  pose proof remove_grows as Hg. destruct remove_same as (Er & Ec & Eo). split; [|by apply (has_swap t w w' a b L rest)].
  split; [|split; [done|]; intros t' Hn; apply (own_swap t t' w w' _ _ rest H1 H2); try apply by_task_held; try done; intros s b'; by rewrite Ec].
  split.
  - intros k s Hk. rewrite Er, Eo. by apply (i_map w HI), He.
  - intros s k. rewrite Er, Ef. apply (i_slot w HI).
  - intros h d. rewrite Ed, Er, Ef. apply (i_db w HI).
  - intros s h. rewrite Ec, Ed. apply (i_full w HI).
  - intros s. rewrite Eo, Ec, Ed. intros Hr. destruct (i_ran w HI s Hr) as [Hn Hx]. split; [by apply remove_named|done].
  - intros x r Hin. rewrite H2 in Hin. apply elem_of_app in Hin as [[-> Hin]%held_elem|Hin]; [by apply Hb|].
    apply (ref_ok_grows w w'); [done|intros; by rewrite Ec|]. apply (i_refs w HI). rewrite H1. apply elem_of_app. by right.
  - intros h d. rewrite Ed. intros Hd Hlv. by apply remove_cared, (i_cared w HI).
  - intros h d x y. rewrite Ed. intros Hd Hlv Hx Hy. rewrite H2 in Hx, Hy.
    apply elem_of_app in Hy as [[_ Hy]%held_elem|Hy]; [by destruct (Had h)|].
    assert ((y, RDb h Adopted) ∈ refs w) as Hy' by (rewrite H1; apply elem_of_app; by right).
    apply elem_of_app in Hx as [[_ Hx]%held_elem|Hx]; [by apply (Hdo h d y)|]. apply (grows_dropped w _ _ _ Hg).
    apply (i_spared w HI h d x y); try done. rewrite H1. apply elem_of_app. by right.
  - by apply (jobs_ok_tasks t w w' _ _ rest HI Hg Ej H1 H2).
  - apply (shut_ok_grows w w' HI Hg). intros t' k h n. rewrite Eh. intros [Hin|Hin]%elem_of_app; [|done].
    by destruct (Hl _ Hin).
  - rewrite Eh. clear - Hl HI. induction l as [|e l' IH]; [apply (i_gave w HI)|].
    assert (aside e) as He0 by (apply Hl; left). destruct e; try done; apply IH; intros e' He'; apply Hl; by right.
Qed.
End remove.
