(* ===== verification/PoolOps.v ===== *)
(** * PoolOps: a rule per operation of the pool, and the runs of all of them together

    Each operation is run by a task among any others: it ends holding what its rule says, having
    closed what it took out of the map.  [reached] is any interleaving of the entry points. *)

From stdpp Require Import sorting.
From S2P Require Import Prelude Text Prog Pool PoolSafe.
Local Open Scope string_scope.
Local Open Scope Z_scope.

(** * What each effect, section and function does to the invariant *)

(** ** Databases *)

Definition weaker (m m' : gmap nat Db) : Prop := forall h d', m' !! h = Some d' ->
  exists d, m !! h = Some d /\ d_repo d' = d_repo d /\ d_slot d' = d_slot d /\ (live d' = true -> live d = true).
Definition kept (m m' : gmap nat Db) : Prop := forall h d, m !! h = Some d ->
  exists d', m' !! h = Some d' /\ d_repo d' = d_repo d /\ d_slot d' = d_slot d /\ (live d' = true -> live d = true).

Section dbs.
Variables (t : nat) (w w' : World) (l : list event).
Hypothesis HI : Inv w.
Hypothesis Ep : pool w' = pool w.
Hypothesis Es : slots w' = slots w.
Hypothesis Er : refs w' = refs w.
Hypothesis Ej : jobs w' = jobs w.
Hypothesis Ef : fresh w' = fresh w.
Hypothesis Hk : kept (dbs w) (dbs w').
Hypothesis Hw : weaker (dbs w) (dbs w').
Hypothesis Eh : hist w' = (l ++ hist w)%list.
Hypothesis Hg : gave_ok (hist w').
Hypothesis Hs : forall t k h n, Shut t BySweep k h true n ∈ l -> n = 0%nat \/ exists d, dbs w' !! h = Some d /\ dropped w' (d_slot d) h.

Lemma dbs_same : (forall s, repo_of w' s = repo_of w s) /\ (forall s, cell_of w' s = cell_of w s) /\
  (forall s, once_of w' s = once_of w s) /\ (forall s, named w' s = named w s).
Proof using Ep Es. unfold named, repo_of, cell_of, once_of, entry_of. rewrite Es, Ep. done. Qed.

Lemma dbs_grows : grows w w'.
Proof using Ep Es Ef Hk Eh.
  destruct dbs_same as (Hr & Hc & Ho & Hn). split; try done.
  - by rewrite Ef.
  - intros s k. by rewrite Hr.
  - intros s h. by rewrite Hc.
  - intros s k _. by rewrite Hn.
  - intros s. by rewrite Ho.
  - intros s k _ _. by rewrite Hc.
  - by exists l.
Qed.

Lemma step_dbs : step_ok t w w'.
Proof using All.
  pose proof dbs_grows as Gr. destruct dbs_same as (Hr & Hc & Ho & Hn).
  split; [|split; [done|]; intros t' _; split; [by rewrite Er|intros s b; by rewrite Hc]]. split.
  - intros k s. rewrite Ep, Hr, Ho. apply (i_map w HI).
  - intros s k. rewrite Hr, Ef. apply (i_slot w HI).
  - intros h d' Hd'. destruct (Hw h d' Hd') as (d & Hd & E1 & E2 & _). rewrite Hr, Ef, E1, E2. by apply (i_db w HI).
  - intros s h. rewrite Hc. intros Hf. destruct (i_full w HI s h Hf) as (d & Hd & E). destruct (Hk h d Hd) as (d' & Hd' & _ & E2 & _).
    exists d'. split; [done|congruence].
  - intros s. rewrite Ho, Hn, Hc. intros Hrn. destruct (i_ran w HI s Hrn) as [H1 H2]. split; [done|].
    destruct H2 as [H2|(h & d & Hf & Hd & Hl)]; [by left|right]. destruct (Hk h d Hd) as (d' & Hd' & _ & _ & Hl'). exists h, d'.
    split; [done|]. split; [done|]. destruct (live d'); [|done]. by rewrite Hl' in Hl.
  - intros x r. rewrite Er. intros Hin. apply (ref_ok_grows w w'); [done|intros; by rewrite Hc|by apply (i_refs w HI)].
  - intros h d' Hd' Hl. destruct (Hw h d' Hd') as (d & Hd & E1 & E2 & Hl'). unfold cared, minded. rewrite Er, E2, Hc, Hn, Ho.
    destruct (i_cared w HI h d Hd (Hl' Hl)) as [Hb|[Hf Hx]]; [by left|right]. split; [done|].
    destruct Hx as [Hx|[Hx|Hx]]; [by left|right; left; by apply (grows_dropped w)|right; by right].
  - intros h d' x y Hd' Hl. destruct (Hw h d' Hd') as (d & Hd & E1 & E2 & Hl'). rewrite Er, E2. intros Hx Hy.
    apply (grows_dropped w _ _ _ Gr). by apply (i_spared w HI h d x y (Hd) (Hl' Hl)).
  - by apply (jobs_ok_grows w w').
  - intros t' k h n. rewrite Eh. intros [Hin|Hin]%elem_of_app; [by apply (Hs t' k)|].
    destruct (i_shut w HI t' k h n Hin) as [|(d & Hd & Hp)]; [by left|right]. destruct (Hk h d Hd) as (d' & Hd' & _ & E & _).
    exists d'. rewrite E. split; [done|]. by apply (grows_dropped w).
  - done.
Qed.
End dbs.

Lemma close_db_same why d : d_repo (close_db why d) = d_repo d /\ d_slot (close_db why d) = d_slot d /\ live (close_db why d) = false.
Proof. done. Qed.

Lemma step_note t e w : Inv w -> gave_ok (e :: hist w) -> (forall t k h n, e <> Shut t BySweep k h true n) -> step_ok t w (note e w).
Proof.
  intros HI Hg He. apply (step_dbs t w (note e w) [e]); try done.
  - intros h d Hd. by exists d.
  - intros h d Hd. by exists d.
  - intros t' k h n Hin. apply elem_of_cons in Hin as [Hin|Hin]; [by destruct (He t' k h n)|by apply elem_of_nil in Hin].
Qed.

Lemma step_map t w f : Inv w -> (forall d, d_repo (f d) = d_repo d /\ d_slot (f d) = d_slot d /\ (live (f d) = true -> live d = true)) ->
  step_ok t w (on_dbs (fmap f) w).
Proof.
  intros HI Hf. apply (step_dbs t w _ []); try done; cbn.
  - intros h d Hd. exists (f d). rewrite lookup_fmap, Hd. destruct (Hf d) as (? & ? & ?). done.
  - intros h d'. rewrite lookup_fmap. intros [d [Hd ->]]%fmap_Some. exists d. destruct (Hf d) as (? & ? & ?). done.
  - apply (i_gave w HI).
  - intros t' k h n Hin. by apply elem_of_nil in Hin.
Qed.

Lemma step_fence t k w : Inv w -> step_ok t w (fence k w).
Proof. intros HI. apply step_map; [done|]. intros d. by destruct (String.eqb (d_repo d) k). Qed.

Lemma step_files t f w : Inv w -> step_ok t w (on_files f w).
Proof.
  intros HI. apply (step_dbs t w _ []); try done; [intros h d Hd; by exists d..|apply (i_gave w HI)|].
  intros t' k h n Hin. by apply elem_of_nil in Hin.
Qed.

Lemma step_dies t h w : Inv w -> step_ok t w (on_dbs (alter (close_db Panic) h) w).
Proof.
  intros HI. apply (step_dbs t w _ []); try done; cbn.
  - intros h' d Hd. destruct (decide (h' = h)) as [->|].
    + rewrite lookup_alter_eq, Hd. by exists (close_db Panic d).
    + rewrite lookup_alter_ne by done. by exists d.
  - intros h' d'. destruct (decide (h' = h)) as [->|].
    + rewrite lookup_alter_eq. intros [d [Hd ->]]%fmap_Some. by exists d.
    + rewrite lookup_alter_ne by done. intros Hd. by exists d'.
  - apply (i_gave w HI).
  - intros t' k h' n Hin. by apply elem_of_nil in Hin.
Qed.

(** A close.  One of a sweep's finds no request on an open handle, unless its slot was dropped. *)
Lemma step_shut t why h w : Inv w ->
  (why = BySweep -> forall d, dbs w !! h = Some d -> live d = true -> users w h <> 0%nat -> dropped w (d_slot d) h) ->
  step_ok t w (shut t why h w).
Proof.
  intros HI Hwhy. unfold shut. destruct (dbs w !! h) as [d|] eqn:Hd; [|by apply step_refl].
  apply (step_dbs t w _ [Shut t why (d_repo d) h (live d) (users w h)]); try done; cbn.
  - intros h' d' Hd'. destruct (decide (h' = h)) as [->|].
    + rewrite lookup_insert_eq. rewrite Hd in Hd'. injection Hd' as <-. by exists (close_db Clean d).
    + rewrite lookup_insert_ne by done. by exists d'.
  - intros h' d'. destruct (decide (h' = h)) as [->|].
    + rewrite lookup_insert_eq. intros [= <-]. by exists d.
    + rewrite lookup_insert_ne by done. intros Hd'. by exists d'.
  - apply (i_gave w HI).
  - intros t' k h' n Hin. apply elem_of_cons in Hin as [Hin|Hin]; [|by apply elem_of_nil in Hin].
    injection Hin as -> <- -> -> Hl ->. destruct (decide (users w h = 0%nat)) as [|Hn]; [by left|right].
    exists (close_db Clean d). rewrite lookup_insert_eq. split; [done|]. eapply (dropped_app w _ [_]); [done|].
    by apply (Hwhy eq_refl d).
Qed.

Lemma shut_seen t why h w d : dbs w !! h = Some d ->
  (exists b n, Shut t why (d_repo d) h b n ∈ hist (shut t why h w)) /\
  exists d', dbs (shut t why h w) !! h = Some d' /\ d_slot d' = d_slot d /\ live d' = false.
Proof.
  intros Hd. unfold shut. rewrite Hd. split; [do 2 eexists; left|]. exists (close_db Clean d). cbn. by rewrite lookup_insert_eq.
Qed.

(** A database opened, for the slot whose permit the task has. *)
Lemma step_insert t w k s L : Inv w -> has t L w -> repo_of w s = Some k -> cell_of w s = Opening t true ->
  let w' := hold (Task t) (RDb (fresh w) Built) (note (Opened t k (fresh w)) (on_dbs (insert (fresh w) (mkDb k s None)) (draw w))) in
  step_ok t w w' /\ has t (RDb (fresh w) Built :: L) w'.
Proof.
  intros HI HL Hk Ho w'. assert (dbs w !! fresh w = None) as Hnew.
  { destruct (dbs w !! fresh w) as [d|] eqn:E; [|done]. destruct (i_db w HI _ _ E). lia. }
  assert (forall h d, dbs w !! h = Some d -> dbs w' !! h = Some d) as Hd.
  { intros h d Hd. cbn. rewrite lookup_insert_ne; [done|]. intros <-. congruence. }
  assert (grows w w') as Hg.
  { split; try done; [cbn; lia| |by exists [Opened t k (fresh w)]]. intros h d H. exists d. by rewrite (Hd h d H). }
  assert (has t (RDb (fresh w) Built :: L) w') as HL'.
  { apply (has_swap t w w' [] [RDb (fresh w) Built] L (refs w)); done. }
  split; [|done]. split; [|split; [done|]].
  2: { intros t' Hn. split; [|done]. change (refs w') with ((Task t, RDb (fresh w) Built) :: refs w). rewrite mine_cons_ne; [done|congruence]. }
  split.
  - apply (i_map w HI).
  - intros s' k' H. pose proof (i_slot w HI s' k' H). cbn. lia.
  - intros h d. cbn. destruct (decide (h = fresh w)) as [->|].
    + rewrite lookup_insert_eq. intros [= <-]. split; [lia|done].
    + rewrite lookup_insert_ne by done. intros H. destruct (i_db w HI h d H). split; [lia|done].
  - intros s' h Hf. destruct (i_full w HI s' h Hf) as (d & H & E). exists d. by rewrite (Hd h d H).
  - intros s' Hr. destruct (i_ran w HI s' Hr) as [H1 [H2|(h & d & H2 & H3 & H4)]]; [by split; [|left]|].
    split; [done|right]. exists h, d. by rewrite (Hd h d H3).
  - intros x r [Hin|Hin]%elem_of_cons.
    + injection Hin as -> ->. exists (mkDb k s None). cbn. rewrite lookup_insert_eq. split; [done|]. by exists t.
    + apply (ref_ok_grows w w'); [done|done|by apply (i_refs w HI)].
  - intros h d. cbn. destruct (decide (h = fresh w)) as [->|].
    + rewrite lookup_insert_eq. intros _ _. left. exists (Task t). left.
    + rewrite lookup_insert_ne by done. intros H Hl. destruct (i_cared w HI h d H Hl) as [[x Hx]|[Hf Hx]]; [left; exists x; by right|].
      right. split; [done|]. destruct Hx as [Hx|[Hx|[x Hx]]]; [by left|right; left; by apply (dropped_app w _ [Opened t k (fresh w)])|].
      right. right. exists x. destruct Hx as [Hx|[[Hx Hx']|Hx]]; [left|right; left; split; [|done]|right; right]; by right.
  - intros h d x y. cbn. intros H Hl [Hx|Hx]%elem_of_cons [Hy|Hy]%elem_of_cons; try done. assert (h <> fresh w) as Hne.
    { intros ->. destruct (i_refs w HI _ _ Hx) as (d' & H' & _). congruence. }
    rewrite lookup_insert_ne in H by done. eapply (dropped_app w _ [_]); [done|]. by apply (i_spared w HI h d x y).
  - apply (jobs_ok_tasks t w w' [] [RDb (fresh w) Built] (refs w)); done.
  - apply (shut_ok_grows w w' HI Hg). intros t' k' h n [Hin|Hin]%elem_of_cons; done.
  - apply (i_gave w HI).
Qed.

(** ** Entries *)

Lemma step_new t w k z L : Inv w -> has t L w -> entries (pool w) !! k = None ->
  let w' := hold (Task t) (RSlot (fresh w) Joining)
              (set_entries (insert k (fresh w)) (on_slots (insert (fresh w) (k, new_entry z)) (draw w))) in
  step_ok t w w' /\ has t (RSlot (fresh w) Joining :: L) w' /\ repo_of w' (fresh w) = Some k.
Proof.
  intros HI HL Hk w'. assert (repo_of w (fresh w) = None) as Hnew.
  { destruct (repo_of w (fresh w)) as [k'|] eqn:E; [|done]. pose proof (i_slot w HI _ _ E). lia. }
  assert (slots w !! fresh w = None) as Hnos by (unfold repo_of in Hnew; by destruct (slots w !! fresh w)).
  assert (forall s, s <> fresh w -> slots w' !! s = slots w !! s) as Es by (intros s Hs; cbn; by rewrite lookup_insert_ne).
  assert (repo_of w' (fresh w) = Some k) as Er0 by (unfold repo_of; cbn; by rewrite lookup_insert_eq).
  assert (forall s, s <> fresh w -> repo_of w' s = repo_of w s) as Er by (intros s Hs; unfold repo_of; by rewrite Es).
  assert (forall s, cell_of w' s = cell_of w s) as Ec.
  { intros s. unfold cell_of, entry_of. destruct (decide (s = fresh w)) as [->|]; [|by rewrite Es]. cbn. by rewrite lookup_insert_eq, Hnos. }
  assert (forall s, once_of w' s = once_of w s) as Eo.
  { intros s. unfold once_of, entry_of. destruct (decide (s = fresh w)) as [->|]; [|by rewrite Es]. cbn. by rewrite lookup_insert_eq, Hnos. }
  assert (forall s k, repo_of w s = Some k -> s <> fresh w) as Hold by (intros s k' H ->; congruence).
  assert (forall s k', repo_of w s = Some k' -> named w' s = named w s) as En.
  { intros s k' H. unfold named. rewrite Er, H by by apply (Hold s k'). apply bool_decide_ext. cbn.
    destruct (decide (k = k')) as [->|]; [|by rewrite lookup_insert_ne]. rewrite lookup_insert_eq, Hk.
    split; [intros [= <-]; by destruct (Hold _ _ H)|done]. }
  assert (grows w w') as Hg.
  { split; try done; [cbn; lia| | | | | | |by exists []].
    - intros s k' H. rewrite Er; [done|by apply (Hold s k')].
    - intros s h. by rewrite Ec.
    - intros s k' H. by rewrite (En s k').
    - intros h d. eauto.
    - intros s. by rewrite Eo.
    - intros s k' _ _. by rewrite Ec. }
  split; [|split; [apply (has_swap t w w' [] [RSlot (fresh w) Joining] L (refs w)); done|done]].
  split; [|split; [done|]; intros t' Hn; split; [|intros s b; by rewrite Ec];
    change (refs w') with ((Task t, RSlot (fresh w) Joining) :: refs w); rewrite mine_cons_ne; [done|congruence]].
  split.
  - intros k' s'. cbn. destruct (decide (k = k')) as [<-|].
    + rewrite lookup_insert_eq. intros [= <-]. split; [done|]. rewrite Eo. unfold once_of, entry_of. by rewrite Hnos.
    + rewrite lookup_insert_ne by done. intros H. destruct (i_map w HI k' s' H) as [H1 H2].
      rewrite Eo. split; [|done]. change (repo_of w' s' = Some k'). rewrite Er; [done|by apply (Hold s' k')].
  - intros s' k' H. cbn. destruct (decide (s' = fresh w)) as [->|]; [lia|]. change (repo_of w' s' = Some k') in H. rewrite Er in H by done.
    pose proof (i_slot w HI s' k' H). lia.
  - intros h d H. destruct (i_db w HI h d H) as [H1 H2]. split; [cbn; lia|]. rewrite Er; [done|by eapply Hold].
  - intros s h. rewrite Ec. apply (i_full w HI).
  - intros s. rewrite Eo, Ec. intros Hr. assert (exists k', repo_of w s = Some k') as [k' Hk'].
    { apply entry_of_repo. unfold once_of in Hr. by destruct (entry_of w s) as [e|]. }
    rewrite (En s k' Hk'). by apply (i_ran w HI).
  - intros x r [Hin|Hin]%elem_of_cons; [injection Hin as -> ->; split; [by exists k|done]|].
    apply (ref_ok_grows w w'); [done|intros; by rewrite Ec|by apply (i_refs w HI)].
  - intros h d Hd Hl. destruct (i_db w HI h d Hd) as [_ Hr]. destruct (i_cared w HI h d Hd Hl) as [[x Hx]|[Hf Hx]]; [left; exists x; by right|].
    right. rewrite Ec, (En _ _ Hr). split; [done|]. destruct Hx as [Hx|[Hx|[x Hx]]]; [by left|by right; left|].
    right. right. exists x. rewrite Eo. destruct Hx as [Hx|[[Hx Hx']|Hx]]; [left|right; left; split; [|done]|right; right]; by right.
  - intros h d x y Hd Hl [Hx|Hx]%elem_of_cons [Hy|Hy]%elem_of_cons; try done. by apply (i_spared w HI h d x y).
  - by apply (jobs_ok_tasks t w w' [] [RSlot (fresh w) Joining] (refs w)).
  - by apply (shut_ok_grows w w' HI Hg).
  - apply (i_gave w HI).
Qed.

(** ** What is picked *)

Definition P (l : list (string * nat)) : list ref := map (fun kh => RDb kh.2 Picked) l.

Lemma handle_at_spec w k h : handle_at w k = Some h <-> exists s, entries (pool w) !! k = Some s /\ cell_of w s = Full h.
Proof.
  unfold handle_at. split.
  - intros (s & Hs & Hc)%bind_Some. exists s. destruct (cell_of w s); naive_solver.
  - intros (s & -> & Hc). cbn. by rewrite Hc.
Qed.

Lemma handle_at_ok w k h : Inv w -> handle_at w k = Some h -> exists d, dbs w !! h = Some d /\ d_repo d = k /\ cell_of w (d_slot d) = Full h.
Proof.
  intros HI (s & Hs & Hc)%handle_at_spec. destruct (i_full w HI s h Hc) as (d & Hd & <-). exists d. split; [done|]. split; [|done].
  destruct (i_db w HI h d Hd) as [_ H1]. destruct (i_map w HI k _ Hs) as [H2 _]. congruence.
Qed.

Lemma pick_handles w t over idle i kh : kh ∈ pick w t over i idle -> handle_at w kh.1 = Some kh.2.
Proof.
  revert i. induction idle as [|[z k] idle IH]; intros i; cbn; [by intros Hin%elem_of_nil|].
  destruct (_ && _); [apply IH|]. destruct (handle_at w k) as [h|] eqn:Hh; [|apply IH].
  intros [->|Hin]%elem_of_cons; [done|by apply (IH (S i))].
Qed.

Lemma picks_picked w v : Inv w -> picks_ok w (picks w v).
Proof. intros HI [k h] Hin. apply (handle_at_ok w k h HI). by apply (pick_handles w (now v) _ _ _ (k, h)) in Hin. Qed.

Lemma with_handles_elem w l k h : (k, h) ∈ with_handles w l <-> exists s, (k, s) ∈ l /\ cell_of w s = Full h.
Proof.
  unfold with_handles. rewrite list_elem_of_omap. split.
  - intros ([k' s] & Hin & Hc). cbn in Hc. destruct (cell_of w s) eqn:E; try done. injection Hc as <- <-. eauto.
  - intros (s & Hin & Hc). exists (k, s). cbn. by rewrite Hc.
Qed.

Lemma with_handles_picked w v l : Inv w -> good_env v w -> l ⊆ order v -> picks_ok w (with_handles w l).
Proof.
  intros HI Hv Hl [k h] (s & Hin & Hc)%with_handles_elem. apply (handle_at_ok w k h HI), handle_at_spec. exists s. split; [|done].
  apply Hl in Hin. unfold good_env in Hv. rewrite Hv in Hin. by apply elem_of_map_to_list.
Qed.

Lemma alike_flag k b w : alike w (flag k b w).
Proof. unfold flag. destruct (entries (pool w) !! k); [by apply alike_on|by split]. Qed.

Lemma jobs_flag k b w : jobs (flag k b w) = jobs w.
Proof. unfold flag. by destruct (entries (pool w) !! k). Qed.

Lemma refs_flag k b w : refs (flag k b w) = refs w.
Proof. unfold flag. by destruct (entries (pool w) !! k). Qed.

Lemma step_flag t k b w : Inv w -> step_ok t w (flag k b w).
Proof.
  intros HI. apply (step_alike t w _ [] [] (refs w)); try done.
  - apply alike_flag.
  - cbn. by rewrite refs_flag.
  - by intros x r Hin%elem_of_nil.
  - by intros x r Hin%elem_of_nil.
  - by intros x r Hin%elem_of_nil.
  - by intros x r Hin%elem_of_nil.
  - split; by intros x h Hin%elem_of_nil.
  - apply (jobs_ok_grows w); [done|apply alike_grows, alike_flag|apply jobs_flag|apply refs_flag].
Qed.

Lemma has_flag t L k b w : has t L w -> has t L (flag k b w).
Proof. unfold has. by rewrite refs_flag. Qed.

Lemma ref_ok_pick w x h u : (exists d, dbs w !! h = Some d /\ cell_of w (d_slot d) = Full h) ->
  match u with Built | Doomed => False | _ => True end -> ref_ok w x (RDb h u).
Proof. intros (d & Hd & Hc) Hu. exists d. split; [done|]. by destruct u. Qed.

Lemma step_mark t w l L : Inv w -> has t L w -> picks_ok w l ->
  step_ok t w (foldl (mark t) w l) /\ has t (P l ++ L) (foldl (mark t) w l).
Proof.
  revert w L. induction l as [|[k h] l IH]; intros w L HI HL Hp; [by split; [apply step_refl|]|].
  pose proof (step_flag t k true w HI) as H1.
  destruct (hold_ok t (RDb h Picked) L (flag k true w)) as [H2 HL2]; [by apply (step_Inv t w)|by apply has_flag| |done|].
  { apply ref_ok_pick; [|done]. destruct (picks_ok_grows w _ _ (step_grows _ _ _ H1) Hp (k, h) ltac:(left)) as (d & Hd & _ & Hc). by exists d. }
  pose proof (step_trans _ _ _ _ H1 H2) as H3. cbn [foldl].
  destruct (IH (mark t w (k, h)) (RDb h Picked :: L)) as [H4 HL4].
  - by apply (step_Inv t w (mark t w (k, h))).
  - done.
  - apply (picks_ok_grows w); [by apply (step_grows t)|]. intros kh Hin. apply Hp. by right.
  - split; [by apply (step_trans _ _ _ _ H3)|]. unfold has in *. rewrite HL4. cbn. by rewrite Permutation_middle.
Qed.

(** ** Jobs *)

Lemma foldl_rehold x y rs w rest : refs w ≡ₚ held x rs ++ rest ->
  refs (foldl (fun w r => rehold x r y r w) w rs) ≡ₚ held y rs ++ rest.
Proof.
  revert w rest. induction rs as [|r rs IH]; intros w rest Hp; [done|]. cbn [foldl held map app] in *.
  rewrite (IH _ ((y, r) :: rest)); [by rewrite <- Permutation_middle|].
  rewrite (rehold_perm w x r y r _ Hp). by rewrite Permutation_middle.
Qed.

Lemma alike_foldl_rehold x y rs w : alike w (foldl (fun w r => rehold x r y r w) w rs) /\
  jobs (foldl (fun w r => rehold x r y r w) w rs) = jobs w /\ fresh (foldl (fun w r => rehold x r y r w) w rs) = fresh w.
Proof.
  revert w. induction rs as [|r rs IH]; intros w; [by split; [split|]|]. cbn [foldl].
  destruct (IH (rehold x r y r w)) as (Ha & Hj & Hf). split; [|done]. eapply alike_trans; [apply alike_rehold|done].
Qed.

Lemma foldl_picks x y (l : list (string * nat)) w :
  foldl (fun w kh => rehold x (RDb kh.2 Picked) y (RDb kh.2 Picked) w) w l = foldl (fun w r => rehold x r y r w) w (P l).
Proof. revert w. induction l as [|kh l IH]; intros w; [done|]. cbn. apply IH. Qed.

Definition handed (r : ref) : bool := match r with RSlot _ Closing | RDb _ Picked => true | _ => false end.

Lemma job_refs_handed j r : r ∈ job_refs j -> handed r = true.
Proof. destruct j as [l|s]; cbn; [intros ([k h] & -> & _)%list_elem_of_fmap; done|intros Hin; mem; by subst]. Qed.

Lemma ref_ok_handed w x y r : handed r = true -> ref_ok w x r -> ref_ok w y r.
Proof. by destruct r as [s []|h []]. Qed.

Lemma spare_handed w y rs r : handed r = true -> r ∈ rs -> spare w (held y rs) r.
Proof. destruct r as [s []|h []]; try done. intros _ Hin. right. exists y. by apply held_elem. Qed.

Lemma orderly_handed w A y rs : (forall r, r ∈ rs -> handed r = true) -> orderly w A (held y rs).
Proof. intros Hh. split; intros x h [_ Hin]%held_elem; by apply Hh in Hin. Qed.

Lemma by_job t i rs : by_task t (held (Job i) rs).
Proof. by intros x r [-> _]%held_elem t' Ht. Qed.

Lemma fresh_job w : Inv w -> (fresh w ∉ (jobs w).*1) /\ mine (Job (fresh w)) (refs w) = [].
Proof.
  intros HI. destruct (i_jobs w HI) as [_ Hk Hh]. assert (fresh w ∉ (jobs w).*1) as Hn.
  { intros ([i j] & Hi & Hij)%list_elem_of_fmap. destruct (Hk i j Hij) as [Hf _]. cbn in Hi. lia. }
  split; [done|]. destruct (mine _ _) as [|r m] eqn:E; [done|]. destruct Hn. apply (Hh (fresh w) r), mine_elem. rewrite E. left.
Qed.

(** A spawned job takes over what the task held for it. *)
Lemma step_spawn t w j L : Inv w -> has t (job_refs j ++ L) w -> job_ok w j ->
  let w1 := on_jobs (cons (fresh w, j)) (draw w) in
  let w' := foldl (fun w0 r => rehold (Task t) r (Job (fresh w)) r w0) w1 (job_refs j) in
  step_ok t w w' /\ has t L w'.
Proof.
  intros HI HL Hj w1 w'. destruct (mine_split _ _ _ _ HL) as (rest & H1 & Hm).
  assert (refs w' ≡ₚ held (Job (fresh w)) (job_refs j) ++ rest) as H2 by by apply foldl_rehold.
  destruct (alike_foldl_rehold (Task t) (Job (fresh w)) (job_refs j) w1) as (Ha1 & Hj1 & Hf1).
  assert (alike w w') as Ha by (apply (alike_trans w w1); [split; try done; cbn; lia|done]).
  destruct (fresh_job w HI) as [Hnew Hnone]. destruct (i_jobs w HI) as [Nd Hk Hh].
  assert (forall i, i <> fresh w -> mine (Job i) (refs w') ≡ₚ mine (Job i) (refs w)) as Hmj.
  { intros i Hn. rewrite H1, H2, !mine_app, !mine_held_other; [done|done|congruence]. }
  assert (mine (Job (fresh w)) (refs w') ≡ₚ job_refs j) as Hmine.
  { assert (mine (Job (fresh w)) rest ≡ₚ []) as Hr by (rewrite <- Hnone, H1, mine_app, mine_held_other; done).
    by rewrite H2, mine_app, mine_held, Hr, app_nil_r. }
  split; [|unfold has; by rewrite H2, mine_app, mine_held_other].
  apply (step_alike t w w' (held (Task t) (job_refs j)) (held (Job (fresh w)) (job_refs j)) rest HI Ha H1 H2).
  - intros x r [-> Hin]%held_elem. apply spare_handed; [by apply (job_refs_handed j)|done].
  - apply by_task_held.
  - apply by_job.
  - intros x r [-> Hin]%held_elem. apply (ref_ok_handed w (Task t)); [by apply (job_refs_handed j)|].
    apply (i_refs w HI). rewrite H1. apply elem_of_app. left. by apply held_elem.
  - apply orderly_handed. apply job_refs_handed.
  - split; change (jobs w') with (jobs (foldl (fun w0 r => rehold (Task t) r (Job (fresh w)) r w0) w1 (job_refs j))); rewrite Hj1; cbn.
    + by apply NoDup_cons.
    + intros i j' [[= -> ->]|Hin]%elem_of_cons.
      * change (fresh w') with (fresh (foldl (fun w0 r => rehold (Task t) r (Job (fresh w)) r w0) w1 (job_refs j))). rewrite Hf1. cbn.
        split; [lia|]. split; [done|]. by apply (job_ok_grows w w'); [apply alike_grows|].
      * destruct (Hk i j' Hin) as (Hf & Hmi & Ho). pose proof (a_fresh w w' Ha). split; [lia|]. rewrite Hmj by lia. split; [done|].
        by apply (job_ok_grows w w'); [apply alike_grows|].
    + intros i r Hin. destruct (decide (i = fresh w)) as [->|Hn]; [left|right]. apply (Hh i r), mine_elem. rewrite <- Hmj by done. by apply mine_elem.
Qed.

(** A task takes over a job. *)
Lemma step_start t w i j L : Inv w -> has t L w -> (i, j) ∈ jobs w ->
  let w1 := on_jobs (filter (fun ij => ij.1 <> i)) w in
  let w' := foldl (fun w0 r => rehold (Job i) r (Task t) r w0) w1 (job_refs j) in
  step_ok t w w' /\ has t (job_refs j ++ L) w' /\ job_ok w' j.
Proof.
  intros HI HL Hij w1 w'. destruct (i_jobs w HI) as [Nd Hk Hh]. destruct (Hk i j Hij) as (Hf & Hmi & Hj).
  destruct (mine_split (Job i) (refs w) (job_refs j) []) as (rest & H1 & Hm); [by rewrite app_nil_r|].
  assert (refs w' ≡ₚ held (Task t) (job_refs j) ++ rest) as H2 by by apply foldl_rehold.
  destruct (alike_foldl_rehold (Job i) (Task t) (job_refs j) w1) as (Ha1 & Hj1 & Hf1).
  assert (alike w w') as Ha by (apply (alike_trans w w1); [by split|done]).
  assert (forall i', i' <> i -> mine (Job i') (refs w') ≡ₚ mine (Job i') (refs w)) as Hmj.
  { intros i' Hn. rewrite H1, H2, !mine_app, !mine_held_other; [done|congruence|done]. }
  assert (jobs w' = filter (fun ij => ij.1 <> i) (jobs w)) as Ejobs by done.
  split; [|split; [|by apply (job_ok_grows w w'); [apply alike_grows|]]].
  2: { unfold has in *. rewrite H2, mine_app, mine_held. rewrite <- HL, H1, mine_app, mine_held_other by done. done. }
  apply (step_alike t w w' (held (Job i) (job_refs j)) (held (Task t) (job_refs j)) rest HI Ha H1 H2).
  - intros x r [-> Hin]%held_elem. apply spare_handed; [by apply (job_refs_handed j)|done].
  - apply by_job.
  - apply by_task_held.
  - intros x r [-> Hin]%held_elem. apply (ref_ok_handed w (Job i)); [by apply (job_refs_handed j)|].
    apply (i_refs w HI). rewrite H1. apply elem_of_app. left. by apply held_elem.
  - apply orderly_handed. apply job_refs_handed.
  - split; rewrite Ejobs.
    + clear - Nd. induction (jobs w) as [|[i' j'] l IH]; [done|]. cbn in Nd. apply NoDup_cons in Nd as [Hn Nd]. rewrite filter_cons.
      destruct (decide _); [|by apply IH]. cbn. apply NoDup_cons. split; [|by apply IH].
      intros ([i1 j1] & -> & [_ Hin]%list_elem_of_filter)%list_elem_of_fmap. apply Hn. by apply (list_elem_of_fmap_2 fst _ (_, _)).
    + intros i' j' [Hn Hin]%list_elem_of_filter. cbn in Hn. destruct (Hk i' j' Hin) as (Hf' & Hmi' & Ho).
      pose proof (a_fresh w w' Ha). split; [lia|]. rewrite Hmj by done. split; [done|]. by apply (job_ok_grows w w'); [apply alike_grows|].
    + intros i' r Hin. destruct (decide (i' = i)) as [->|Hn].
      * apply mine_elem in Hin. assert (mine (Job i) (refs w') ≡ₚ []) as He by (rewrite H2, mine_app, mine_held_other; done).
        rewrite He in Hin. by apply elem_of_nil in Hin.
      * assert (i' ∈ (jobs w).*1) as Hi by (apply (Hh i' r), mine_elem; rewrite <- Hmj by done; by apply mine_elem).
        apply list_elem_of_fmap in Hi as ([i1 j1] & -> & Hi). apply (list_elem_of_fmap_2 fst _ (i1, j1)). by apply list_elem_of_filter.
Qed.

(** ** Rules for effects *)

Abbreviation WP := (wp psem Inv R).

Lemma step_R t w w' : step_ok t w w' -> Inv w' /\ forall t', t' <> t -> R t' w w'.
Proof. intros (HI & Hg & Ho). split; [done|]. intros t' Hn. split; [done|by apply Ho]. Qed.

(** A section, or any effect: it keeps what others rely on, and then [Q]. *)
Lemma wp_step {X} t (e : pool_eff X) w (Q : X -> World -> Prop) :
  (forall w1 x w2, R t w w1 -> Inv w1 -> psem t X e w1 x w2 -> step_ok t w1 w2 /\ Q x w2) -> WP t (trigger e) w Q.
Proof.
  intros H. apply wp_trigger. intros w1 x w2 HR HI He. destruct (H w1 x w2 HR HI He) as [Hs HQ].
  destruct (step_R t w1 w2 Hs). done.
Qed.

Lemma wp_lock {X} t (f : section X) w (Q : X -> World -> Prop) :
  (forall w1 v x w2, R t w w1 -> Inv w1 -> good_env v w1 -> f t v w1 = Some (x, w2) -> step_ok t w1 w2 /\ Q x w2) -> WP t (lock f) w Q.
Proof. intros H. apply wp_step. intros w1 x w2 HR HI (v & Hv & Hf). by apply (H w1 v). Qed.

(** What a task may count on later: facts no step undoes, and what it holds. *)
Class Stable (t : nat) (F : World -> Prop) := stable : forall w w', R t w w' -> F w -> F w'.

#[export] Instance stable_has t L : Stable t (has t L).
Proof. intros w w'. apply has_R. Qed.
#[export] Instance stable_and t F G : Stable t F -> Stable t G -> Stable t (fun w => F w /\ G w).
Proof. intros HF HG w w' HR []. split; [by apply (HF w)|by apply (HG w)]. Qed.
#[export] Instance stable_grows t F : (forall w w', grows w w' -> F w -> F w') -> Stable t F | 10.
Proof. intros H w w' [Hg _]. by apply H. Qed.

Definition gone (s : nat) (w : World) : Prop := (exists k, repo_of w s = Some k) /\ named w s = false.
Definition full (s h : nat) (w : World) : Prop := cell_of w s = Full h.
Definition of_repo (k : string) (h : nat) (w : World) : Prop := exists d, dbs w !! h = Some d /\ d_repo d = k.
Definition dead (h : nat) (w : World) : Prop := exists d, dbs w !! h = Some d /\ live d = false.
Definition ran (s : nat) (w : World) : Prop := once_of w s = Ran.
Definition closed_by (t : nat) (k : string) (w : World) : Prop := exists why h b n, Shut t why k h b n ∈ hist w.

Lemma gone_grows s w w' : grows w w' -> gone s w -> gone s w'.
Proof. intros Hg [[k Hk] Hn]. split; [exists k; by apply (g_repo w)|by apply (g_gone w w' Hg s k)]. Qed.
Lemma dead_grows h w w' : grows w w' -> dead h w -> dead h w'.
Proof.
  intros Hg (d & Hd & Hl). destruct (g_db w w' Hg h d Hd) as (d' & Hd' & _ & _ & Hl'). exists d'. split; [done|].
  destruct (live d'); [|done]. by rewrite Hl' in Hl.
Qed.
Lemma ran_grows s w w' : grows w w' -> ran s w -> ran s w'.
Proof. intros Hg. apply (g_ran w w' Hg). Qed.
Lemma closed_by_grows t k w w' : grows w w' -> closed_by t k w -> closed_by t k w'.
Proof. intros Hg (why & h & b & n & H). exists why, h, b, n. by apply (grows_hist w). Qed.
Lemma of_repo_grows k h w w' : grows w w' -> of_repo k h w -> of_repo k h w'.
Proof. intros Hg (d & Hd & E). destruct (g_db w w' Hg h d Hd) as (d' & Hd' & E1 & _). exists d'. split; [done|congruence]. Qed.

(** An effect that leaves the world as it is. *)
Lemma wp_same {X} t (e : pool_eff X) w (Q : X -> World -> Prop) (F : World -> Prop) `{!Stable t F} : F w ->
  (forall w1 x w2, psem t X e w1 x w2 -> w2 = w1) -> (forall x w1, Inv w1 -> F w1 -> Q x w1) -> WP t (trigger e) w Q.
Proof.
  intros HF He HQ. apply wp_step. intros w1 x w2 HR HI Hs. rewrite (He _ _ _ Hs). split; [by apply step_refl|].
  apply HQ; [done|]. by apply (stable w).
Qed.

(** ** Rules for functions *)
Section rules.
Context (t : nat).

Lemma wp_let_go r L w (Q : unit -> World -> Prop) : has t (r :: L) w -> (forall w', grows w w' -> spare w' [] r) ->
  (forall w', grows w w' -> Inv w' -> has t L w' -> Q () w') -> WP t (let_go r) w Q.
Proof using Type.
  intros HL Hs HQ. apply wp_lock. intros w1 v x w2 HR HI _ [= <- <-]. pose proof (has_R _ _ _ _ HR HL) as HL1.
  destruct (unhold_ok t r L w1 HI HL1 (Hs w1 (proj1 HR))) as [H1 H2]. split; [done|]. apply HQ; [|by apply (step_Inv t w1)|done].
  etrans; [apply (proj1 HR)|by apply (step_grows t)].
Qed.

Lemma wp_sleep ms L w (Q : unit -> World -> Prop) : has t L w -> (forall w', grows w w' -> Inv w' -> has t L w' -> Q () w') ->
  WP t (trigger (Sleep ms)) w Q.
Proof using Type.
  intros HL HQ. apply wp_step. intros w1 x w2 HR HI ->. split; [by apply step_refl|]. destruct x.
  apply HQ; [apply (proj1 HR)|done|by apply (has_R t L w)].
Qed.

Lemma wp_join i ms L w (Q : bool -> World -> Prop) : has t L w -> (forall b w', grows w w' -> Inv w' -> has t L w' -> Q b w') ->
  WP t (trigger (Join i ms)) w Q.
Proof using Type.
  intros HL HQ. apply wp_step. intros w1 x w2 HR HI [-> _]. split; [by apply step_refl|].
  apply HQ; [apply (proj1 HR)|done|by apply (has_R t L w)].
Qed.

Lemma wp_look {X} (f : World -> X) L w (Q : X -> World -> Prop) : has t L w ->
  (forall w', grows w w' -> Inv w' -> has t L w' -> Q (f w') w') -> WP t (lock (read f)) w Q.
Proof using Type.
  intros HL HQ. apply wp_lock. intros w1 v x w2 HR HI _ [= <- <-]. split; [by apply step_refl|].
  apply HQ; [apply (proj1 HR)|done|by apply (has_R t L w)].
Qed.

(** A section whose step is known. *)
Lemma wp_section {X} (f : section X) L w (Q : X -> World -> Prop) : has t L w ->
  (forall w1 v x w2, grows w w1 -> Inv w1 -> has t L w1 -> good_env v w1 -> f t v w1 = Some (x, w2) ->
     step_ok t w1 w2 /\ (Inv w2 -> grows w w2 -> Q x w2)) -> WP t (lock f) w Q.
Proof using Type.
  intros HL H. apply wp_lock. intros w1 v x w2 HR HI Hv Hf.
  destruct (H w1 v x w2 (proj1 HR) HI (has_R _ _ _ _ HR HL) Hv Hf) as [Hs HQ]. split; [done|].
  apply HQ; [by apply (step_Inv t w1)|]. etrans; [apply (proj1 HR)|by apply (step_grows t)].
Qed.

Lemma has_same L w w' : refs w' = refs w -> has t L w -> has t L w'.
Proof using Type. unfold has. by intros ->. Qed.

Lemma used_by w h : users w h <> 0%nat -> exists y, (y, RDb h Adopted) ∈ refs w.
Proof using Type.
  unfold users. destruct (filter _ _) as [|[y r] l] eqn:E; [done|]. intros _. exists y.
  assert ((y, r) ∈ filter (fun x => uses h x = true) (refs w)) as Hy by (rewrite E; left).
  apply list_elem_of_filter in Hy as [Hu Hy]. unfold uses in Hu. apply bool_decide_eq_true in Hu. cbn in Hu. by subst.
Qed.

Lemma wp_close_db why h L w (Q : result unit -> World -> Prop) : has t L w -> (why = BySweep -> RDb h Doomed ∈ L) ->
  (exists d, dbs w !! h = Some d) ->
  (forall r w', grows w w' -> Inv w' -> has t L w' -> dead h w' -> (forall k, of_repo k h w -> closed_by t k w') -> Q r w') ->
  WP t (trigger (CloseDb why h)) w Q.
Proof using Type.
  intros HL Hd [d Hdb] HQ. apply wp_step. intros w1 x w2 [Hg Ho] HI ->. pose proof (has_R t L w w1 (conj Hg Ho) HL) as HL1.
  destruct (g_db w w1 Hg h d Hdb) as (d1 & Hd1 & E1 & _).
  assert (step_ok t w1 (shut t why h w1)) as Hs.
  { apply step_shut; [done|]. intros -> d' Hd' Hl Hu. destruct (used_by w1 h Hu) as [y Hy].
    apply (i_spared w1 HI h d' (Task t) y Hd' Hl); [|done]. apply mine_elem. unfold has in HL1. rewrite HL1. by apply Hd. }
  split; [done|]. destruct (shut_seen t why h w1 d1 Hd1) as [(b & n & Hh) (d2 & Hd2 & _ & Hl2)].
  apply HQ; [etrans; [done|by apply (step_grows t)]|by apply (step_Inv t w1)| |by exists d2|].
  - apply (has_same _ w1); [|done]. unfold shut. by destruct (dbs w1 !! h).
  - intros k (d' & Hd' & E). exists why, h, b, n. rewrite Hdb in Hd'. injection Hd' as <-. by rewrite <- E, <- E1.
Qed.

(** [Entry::close]: out of the map, and when it returns the slot's database is closed and stays so. *)
Lemma wp_enter_close s L w (Q : bool -> World -> Prop) : has t L w -> gone s w ->
  (forall w', grows w w' -> Inv w' -> has t L w' -> Q true w') ->
  (forall w', grows w w' -> Inv w' -> has t L w' -> ran s w' -> Q false w') -> WP t (lock (enter_close s)) w Q.
Proof using Type.
  intros HL Hs Ht Hf. apply (wp_section _ L); [done|]. intros w1 v x w2 Hg HI HL1 _ He. unfold enter_close in He.
  destruct (gone_grows s w w1 Hg Hs) as [[k Hk] Hn]. destruct (once_of w1 s) eqn:Ho; [|done|].
  - injection He as <- <-. split; [by apply (step_once t w1 s _ k); [..|rewrite Ho|]|]. intros HI2 Hg2. by apply Ht.
  - injection He as <- <-. split; [by apply step_refl|]. intros HI2 Hg2. by apply Hf.
Qed.

Lemma wp_settled s L w (Q : option nat -> World -> Prop) : has t L w -> gone s w ->
  (forall w', grows w w' -> Inv w' -> has t L w' -> barren (cell_of w' s) = true -> Q None w') ->
  (forall h w', grows w w' -> Inv w' -> has t L w' -> full s h w' -> Q (Some h) w') -> WP t (lock (settled s)) w Q.
Proof using Type.
  intros HL Hs Hn Hh. apply (wp_section _ L); [done|]. intros w1 v x w2 Hg HI HL1 _ He. unfold settled in He.
  destruct (cell_of w1 s) as [| |h] eqn:Hc; try done; injection He as <- <-; (split; [by apply step_refl|]); intros _ _.
  - apply Hn; [done..|by rewrite Hc].
  - by apply Hh.
Qed.

Lemma wp_leave_close s L w (Q : unit -> World -> Prop) : has t L w -> gone s w ->
  (barren (cell_of w s) = true \/ exists h, full s h w /\ dead h w) ->
  (forall w', grows w w' -> Inv w' -> has t L w' -> ran s w' -> Q () w') -> WP t (lock (leave_close s)) w Q.
Proof using Type.
  intros HL Hs Hd HQ. apply (wp_section _ L); [done|]. intros w1 v x w2 Hg HI HL1 _ [= <- <-].
  destruct (gone_grows s w w1 Hg Hs) as [[k Hk] Hn]. split.
  - apply (step_once t w1 s Ran k); try done. intros _. destruct Hd as [Hb|(h & Hf & Hdd)]; [left|right].
    + destruct Hs as [[k' Hk'] Hn']. by apply (g_barren w w1 Hg s k').
    + destruct (dead_grows h w w1 Hg Hdd) as (d & Hd & Hl). exists h, d. split; [|done]. by apply (g_full w w1).
  - intros HI2 Hg2. apply HQ; [done..|]. unfold ran. by apply (once_set w1 s Ran k).
Qed.

Lemma full_db s h w : Inv w -> full s h w -> exists d, dbs w !! h = Some d.
Proof using Type. intros HI Hf. destruct (i_full w HI s h Hf) as (d & Hd & _). by exists d. Qed.

Lemma wp_Entry_close s L w (Q : unit -> World -> Prop) : has t L w -> gone s w ->
  (forall w', grows w w' -> Inv w' -> has t L w' -> ran s w' -> Q () w') -> WP t (Entry_close s) w Q.
Proof using Type.
  intros HL Hs HQ. apply wp_bind, (wp_enter_close s L); [done..| |].
  - intros w1 Hg1 HI1 HL1. pose proof (gone_grows s w w1 Hg1 Hs) as Hs1.
    apply wp_bind, (wp_settled s L); [done..| |].
    + intros w2 Hg2 _ HL2 Hb. cbn [bind]. apply (wp_leave_close s L); [done|by apply (gone_grows s w1)|by left|].
      intros w3 Hg3 HI3 HL3 Hr. apply HQ; [by do 2 etrans|done..].
    + intros h w2 Hg2 HI2 HL2 Hf. cbn [bind]. apply wp_bind, (wp_close_db ByEntry h L); [done..|by apply (full_db s)|].
      intros r w3 Hg3 HI3 HL3 Hd _. assert (grows w1 w3) as Hg13 by by etrans.
      apply (wp_leave_close s L); [done|by apply (gone_grows s w1)|right; exists h; split; [by apply (g_full w2)|done]|].
      intros w4 Hg4 HI4 HL4 Hr. apply HQ; [by do 2 etrans|done..].
  - intros w1 Hg1 HI1 HL1 Hr. by apply HQ.
Qed.
End rules.

(** * A rule per operation, and the runs of all of them together *)

Section ops.
Context (t : nat).

(** ** Out of the map, and closed *)

Lemma wp_close_bounded s L w (Q : unit -> World -> Prop) : has t (RSlot s Closing :: L) w ->
  (forall w', grows w w' -> Inv w' -> has t L w' -> Q () w') -> WP t (close_bounded s) w Q.
Proof using Type.
  intros HL HQ. apply wp_bind, (wp_section t _ (RSlot s Closing :: L)); [done|]. intros w1 v i w2 Hg HI HL1 _ [= <- <-].
  destruct (step_spawn t w1 (CloseEntry s) L HI HL1 Logic.I) as [Hs HL2]. split; [done|]. intros HI2 Hg2.
  apply wp_bind, (wp_join t _ _ L); [done|]. intros b w3 Hg3 HI3 HL3. apply HQ; [by etrans|done..].
Qed.

(** One slot out of the map, its entry to be closed by this task. *)
Lemma step_take w k s L : Inv w -> has t L w -> entries (pool w) !! k = Some s ->
  let w' := hold (Task t) (RSlot s Closing) (set_entries (delete k) w) in step_ok t w w' /\ has t (RSlot s Closing :: L) w'.
Proof using Type.
  intros HI HL Hk w'. destruct (i_map w HI k s Hk) as [Hr _]. assert (named w' s = false) as Hn'.
  { unfold named. change (repo_of w' s) with (repo_of w s). rewrite Hr. apply bool_decide_eq_false. cbn. by rewrite lookup_delete_eq. }
  apply (step_remove t w w' [] [RSlot s Closing] L (refs w) []); try done.
  - by intros e He%elem_of_nil.
  - intros k' s' H. cbn in H. by apply lookup_delete_Some in H as [_ H].
  - by intros r H%elem_of_nil.
  - intros r H. mem. subst. split; [by exists k|done].
  - intros h H. by mem.
  - intros h d y H. by mem.
  - intros s' h d Hn Hn2 _ _ _. right. left. destruct (decide (s' = s)) as [->|Hd]; [left|]. exfalso.
    unfold named in Hn, Hn2. change (repo_of w' s') with (repo_of w s') in Hn2. destruct (repo_of w s') as [k'|] eqn:E; [|done].
    apply bool_decide_eq_true in Hn. apply bool_decide_eq_false in Hn2. apply Hn2. cbn. rewrite lookup_delete_ne; [done|].
    intros ->. congruence.
Qed.

Lemma wp_out (f : section (option nat)) k L w (Q : unit -> World -> Prop) : has t L w ->
  (forall w v x w', f t v w = Some (x, w') -> (x = None /\ w' = w) \/
     exists s, x = Some s /\ entries (pool w) !! k = Some s /\ w' = hold (Task t) (RSlot s Closing) (set_entries (delete k) w)) ->
  (forall w', grows w w' -> Inv w' -> has t L w' -> Q () w') ->
  WP t (let! e := lock f in match e with Some s => close_bounded s | None => Ret () end) w Q.
Proof using Type.
  intros HL Hf HQ. apply wp_bind, (wp_section t _ L); [done|]. intros w1 v x w2 Hg HI HL1 _ He.
  destruct (Hf w1 v x w2 He) as [[-> ->]|(s & -> & Hs & ->)].
  - split; [by apply step_refl|]. intros _ _. by apply HQ.
  - destruct (step_take w1 k s L HI HL1 Hs) as [H1 H2]. split; [done|]. intros HI2 Hg2.
    apply (wp_close_bounded s L); [done|]. intros w3 Hg3 HI3 HL3. apply HQ; [by etrans|done..].
Qed.

Lemma remove_entry_cases k w v x w' : remove_entry k t v w = Some (x, w') -> (x = None /\ w' = w) \/
  exists s, x = Some s /\ entries (pool w) !! k = Some s /\ w' = hold (Task t) (RSlot s Closing) (set_entries (delete k) w).
Proof using Type. unfold remove_entry, locked_by. destruct (entries (pool w) !! k); intros [= <- <-]; eauto. Qed.

Lemma remove_if_same_cases k h w v x w' : remove_if_same k h t v w = Some (x, w') -> (x = None /\ w' = w) \/
  exists s, x = Some s /\ entries (pool w) !! k = Some s /\ w' = hold (Task t) (RSlot s Closing) (set_entries (delete k) w).
Proof using Type.
  unfold remove_if_same, locked_by. destruct (entries (pool w) !! k); [destruct (decide _)|]; intros [= <- <-]; eauto.
Qed.

Lemma wp_evict o n L w (Q : unit -> World -> Prop) : has t L w ->
  (forall w', grows w w' -> Inv w' -> has t L w' -> Q () w') -> WP t (evict o n) w Q.
Proof using Type. intros HL HQ. apply (wp_out _ (key o n) L); [done|apply remove_entry_cases|done]. Qed.

Lemma wp_evict_if_same o n h L w (Q : unit -> World -> Prop) : has t L w ->
  (forall w', grows w w' -> Inv w' -> has t L w' -> Q () w') -> WP t (evict_if_same o n h) w Q.
Proof using Type. intros HL HQ. apply (wp_out _ (key o n) L); [done|apply remove_if_same_cases|done]. Qed.

(** A section that touches neither map, heap nor holders. *)
Lemma step_quiet w w' : Inv w -> alike w w' -> jobs w' = jobs w -> refs w' = refs w -> step_ok t w w'.
Proof using Type.
  intros HI Ha Hj Hr. apply (step_alike t w w' [] [] (refs w)); try done.
  - by rewrite Hr.
  - by intros x r H%elem_of_nil.
  - by intros x r H%elem_of_nil.
  - by intros x r H%elem_of_nil.
  - by intros x r H%elem_of_nil.
  - split; by intros x h H%elem_of_nil.
  - apply (jobs_ok_grows w); [done|by apply alike_grows|done..].
Qed.

Lemma wp_quiet (f : World -> World) L w (Q : unit -> World -> Prop) : has t L w ->
  (forall w, alike w (f w) /\ jobs (f w) = jobs w /\ refs (f w) = refs w) ->
  (forall w', grows w w' -> Inv w' -> has t L w' -> Q () w') -> WP t (lock (update f)) w Q.
Proof using Type.
  intros HL Hf HQ. apply (wp_section t _ L); [done|]. intros w1 v x w2 Hg HI HL1 _ [= <- <-].
  destruct (Hf w1) as (Ha & Hj & Hr). split; [by apply step_quiet|]. intros HI2 Hg2. apply HQ; [done..|by apply (has_same t _ w1)].
Qed.

Lemma alike_pool f w : entries (f (pool w)) = entries (pool w) -> alike w (on_pool f w).
Proof using Type. by split. Qed.

Lemma wp_delete_repo o n L w (Q : result unit -> World -> Prop) : has t L w ->
  (forall r w', grows w w' -> Inv w' -> has t L w' -> Q r w') -> WP t (delete_repo o n) w Q.
Proof using Type.
  intros HL HQ. apply wp_bind, (wp_quiet _ L); [done|by split; [apply alike_pool|]|]. intros w1 Hg1 HI1 HL1.
  apply wp_bind, (wp_section t _ L); [done|]. intros w2 v e w3 Hg2 HI2 HL2 _ He.
  assert (step_ok t w2 w3 /\ (match e with Some s => has t (RSlot s Closing :: L) w3 | None => has t L w3 end)) as [Hs HL3].
  { destruct (remove_entry_cases _ _ _ _ _ He) as [[-> ->]|(s & -> & Hk & ->)]; [by split; [apply step_refl|]|by apply (step_take _ (key o n))]. }
  split; [done|]. intros HI3 Hg3. apply wp_bind.
  assert (forall w4, grows w w4 -> Inv w4 -> has t L w4 -> WP t (let! deleted := trigger (DeleteFiles (key o n)) in
    lock (clear_deleting (key o n)) ;;! Ret deleted) w4 Q) as Hrest.
  { intros w4 Hg4 HI4 HL4. apply wp_bind, wp_step. intros w5 r w6 HR HI5 He5. pose proof (has_R _ _ _ _ HR HL4) as HL5.
    assert (step_ok t w5 w6 /\ has t L w6) as [Hs6 HL6].
    { destruct He5 as [[_ ->]|[_ [->| ->]]]; (split; [first [by apply step_refl|by apply step_files]|done]). }
    split; [done|]. apply wp_bind, (wp_quiet _ L); [done|by split; [apply alike_pool|]|]. intros w7 Hg7 HI7 HL7.
    apply HQ; [|done..]. etrans; [exact Hg4|]. etrans; [apply (proj1 HR)|]. etrans; [by apply (step_grows t)|done]. }
  destruct e as [s|].
  - apply (wp_close_bounded s L); [done|]. intros w4 Hg4 HI4 HL4. apply Hrest; [|done..]. by do 2 etrans.
  - apply Hrest; [by etrans|done..].
Qed.

(** ** Sweeps *)

Lemma named_map w s : named w s = true -> exists k, repo_of w s = Some k /\ entries (pool w) !! k = Some s.
Proof using Type.
  unfold named. destruct (repo_of w s) as [k|]; [|done]. intros H%bool_decide_eq_true. by exists k.
Qed.

(** A slot somebody holds lives, and so does one the map names. *)
Lemma in_cell_alive w h d : dbs w !! h = Some d -> cell_of w (d_slot d) = Full h ->
  (named w (d_slot d) = true \/ exists x u, (x, RSlot (d_slot d) u) ∈ refs w) -> in_cell w h = true.
Proof using Type.
  intros Hd Hc Ha. unfold in_cell. rewrite Hd, bool_decide_eq_true_2 by done. cbn. unfold alive. apply orb_true_iff.
  destruct Ha as [Ha|(x & u & Hx)]; [by left|right]. apply any_spec. exists (x, RSlot (d_slot d) u). split; [done|]. apply Nat.eqb_refl.
Qed.

Lemma count_holds w h (ds : list (holder * ref)) : NoDup ds -> (forall z, z ∈ ds -> z ∈ refs w /\ exists u, z.2 = RDb h u) ->
  (length ds + (if in_cell w h then 1 else 0) <= strong_count w h)%nat.
Proof using Type.
  intros Hn Hall. unfold strong_count. apply Nat.add_le_mono_r, count_distinct; [done|]. intros [y r] Hz.
  destruct (Hall _ Hz) as (H1 & u & H2). cbn in H2. subst. split; [done|]. apply Nat.eqb_refl.
Qed.

(** With no more than two holds, a picked handle is in no request's hands, unless its slot was dropped. *)
Lemma take_out_spares w h d y : Inv w -> (strong_count w h <= 2)%nat -> (Task t, RDb h Picked) ∈ refs w ->
  dbs w !! h = Some d -> live d = true -> (y, RDb h Adopted) ∈ refs w -> dropped w (d_slot d) h.
Proof using Type.
  intros HI Hc Hp Hd Hl Hy. destruct (i_refs w HI _ _ Hp) as (d' & Hd' & Hf). rewrite Hd in Hd'. injection Hd' as <-.
  destruct (in_cell w h) eqn:Hic.
  - pose proof (count_holds w h [(Task t, RDb h Picked); (y, RDb h Adopted)]) as Hn. rewrite Hic in Hn. cbn in Hn.
    assert (2 + 1 <= strong_count w h)%nat; [|lia]. apply Hn.
    + apply NoDup_cons. split; [intros H; by mem|]. apply NoDup_singleton.
    + intros z Hz. mem; subst; (split; [done|by eexists]).
  - destruct (i_cared w HI h d Hd Hl) as [[x Hx]|[_ [Hn|[Hn|[x Hx]]]]]; [| |done|].
    + destruct (i_refs w HI _ _ Hx) as (d' & Hd' & t' & _ & Ho). rewrite Hd in Hd'. injection Hd' as <-. congruence.
    + assert (in_cell w h = true) by (apply (in_cell_alive w h d); auto). congruence.
    + destruct Hx as [Hx|[[Hx _]|Hx]].
      1,2: assert (in_cell w h = true) by (apply (in_cell_alive w h d); eauto); congruence.
      pose proof (count_holds w h [(Task t, RDb h Picked); (y, RDb h Adopted); (x, RDb h Doomed)]) as Hn. rewrite Hic in Hn. cbn in Hn.
      assert (3 + 0 <= strong_count w h)%nat; [|lia]. apply Hn.
      * apply NoDup_cons. split; [intros H; by mem|]. apply NoDup_cons. split; [intros H; by mem|]. apply NoDup_singleton.
      * intros z Hz. mem; subst; (split; [done|by eexists]).
Qed.

Lemma forsake_same e s o w : pool (forsake e s o w) = pool w /\ slots (forsake e s o w) = slots w /\ refs (forsake e s o w) = refs w /\
  jobs (forsake e s o w) = jobs w /\ fresh (forsake e s o w) = fresh w /\ dbs (forsake e s o w) = dbs w /\
  (hist (forsake e s o w) = hist w \/ hist (forsake e s o w) = e :: hist w).
Proof using Type. unfold forsake. destruct (cell_of w s); try (repeat split; by left). destruct (_ && _); cbn; auto 10. Qed.

Lemma forsake_drops e s o h d w : cell_of w s = Full h -> dbs w !! h = Some d -> live d = true -> o <> Some h -> e ∈ hist (forsake e s o w).
Proof using Type.
  intros Hc Hd Hl Ho. unfold forsake. rewrite Hc, Hd, bool_decide_eq_false_2 by done. cbn. rewrite Hl. left.
Qed.

(** A key out of the map; [o] is the handle the task goes on to close itself, [f] what is noted otherwise. *)
Lemma remove_key_spec k f o w : Inv w -> (forall s, aside (f s)) ->
  let w' := remove_key k (match entries (pool w) !! k with Some s => forsake (f s) s o w | None => w end) in
  slots w' = slots w /\ refs w' = refs w /\ jobs w' = jobs w /\ fresh w' = fresh w /\ dbs w' = dbs w /\
  entries (pool w') = delete k (entries (pool w)) /\
  (exists l, hist w' = (l ++ hist w)%list /\ forall e, e ∈ l -> aside e) /\
  (forall s h d, named w s = true -> named w' s = false -> cell_of w s = Full h -> dbs w !! h = Some d -> live d = true ->
     o = Some h \/ o <> Some h /\ f s ∈ hist w').
Proof using Type.
  intros HI Hf w'. unfold w', remove_key. destruct (entries (pool w) !! k) as [s|] eqn:Hk.
  - destruct (forsake_same (f s) s o w) as (E1 & E2 & E3 & E4 & E5 & E6 & E7).
    change (slots (set_entries (delete k) (forsake (f s) s o w))) with (slots (forsake (f s) s o w)).
    change (refs (set_entries (delete k) (forsake (f s) s o w))) with (refs (forsake (f s) s o w)).
    change (jobs (set_entries (delete k) (forsake (f s) s o w))) with (jobs (forsake (f s) s o w)).
    change (fresh (set_entries (delete k) (forsake (f s) s o w))) with (fresh (forsake (f s) s o w)).
    change (dbs (set_entries (delete k) (forsake (f s) s o w))) with (dbs (forsake (f s) s o w)).
    change (hist (set_entries (delete k) (forsake (f s) s o w))) with (hist (forsake (f s) s o w)).
    rewrite E2, E3, E4, E5, E6. split_and!; try done.
    + cbn. by rewrite E1.
    + destruct E7 as [E7|E7]; rewrite E7; [by exists []; split; [|intros e H%elem_of_nil]|exists [f s]]. split; [done|].
      intros e H. mem. by subst.
    + intros s' h d Hn Hn' Hc Hd Hl. destruct (decide (o = Some h)) as [|Ho]; [by left|right; split; [done|]].
      assert (s' = s) as ->.
      { apply named_map in Hn as (k' & Hr & He). unfold named, repo_of in Hn'. cbn in Hn'. rewrite E2, E1 in Hn'.
        change (fst <$> slots w !! s') with (repo_of w s') in Hn'. rewrite Hr in Hn'. apply bool_decide_eq_false in Hn'.
        destruct (decide (k' = k)) as [->|]; [congruence|]. by rewrite lookup_delete_ne in Hn'. }
      by apply (forsake_drops _ s o h d).
  - split_and!; try done; [by exists []; split; [|intros e H%elem_of_nil]|]. intros s h d Hn Hn'.
    unfold named, repo_of in Hn, Hn'. cbn in Hn'. rewrite delete_id in Hn' by done. congruence.
Qed.

Lemma step_take_out k h L w v b w' : Inv w -> has t (RDb h Picked :: L) w -> of_repo k h w -> take_out k h t v w = Some (b, w') ->
  step_ok t w w' /\ has t (RDb h (if b then Doomed else Picked) :: L) w'.
Proof using Type.
  intros HI HL (d & Hd & Er). unfold take_out, locked_by. destruct (Nat.ltb_spec 2 (strong_count w h)) as [Hc|Hc]; intros [= <- <-].
  { split; [by apply step_flag|by apply has_flag]. }
  destruct (remove_key_spec k (TookOut t h) (Some h) w HI (fun _ => I)) as (E1 & E2 & E3 & E4 & E5 & E6 & (l & E7 & Hl) & Hgo).
  change (match entries (pool w) !! k with Some s => forsake (TookOut t h s) s (Some h) w | None => w end) with (took_out t k h w) in *.
  set (w1 := remove_key k (took_out t k h w)) in *. set (w' := rehold (Task t) (RDb h Picked) (Task t) (RDb h Doomed) w1).
  destruct (mine_split _ _ [RDb h Picked] L HL) as (rest & H1 & Hm).
  assert (refs w' ≡ₚ held (Task t) [RDb h Doomed] ++ rest) as H2 by (apply rehold_perm; by rewrite E2).
  assert ((Task t, RDb h Picked) ∈ refs w) as Hp by (rewrite H1; left).
  destruct (i_refs w HI _ _ Hp) as (d' & Hd' & Hf). rewrite Hd in Hd'. injection Hd' as <-.
  apply (step_remove t w w' [RDb h Picked] [RDb h Doomed] L rest l); try done.
  - intros k' s' H. change (entries (pool w')) with (entries (pool w1)) in H. rewrite E6 in H. by apply lookup_delete_Some in H as [_ H].
  - intros r H. mem. by subst.
  - intros r H. mem. subst r. exists d. change (dbs w') with (dbs w1). rewrite E5. split; [done|]. split.
    + unfold cell_of, entry_of. change (slots w') with (slots w1). by rewrite E1.
    + destruct (i_db w HI h d Hd) as [_ Hr]. unfold named, repo_of. change (slots w') with (slots w1). rewrite E1.
      change (fst <$> slots w !! d_slot d) with (repo_of w (d_slot d)). rewrite Hr. apply bool_decide_eq_false.
      change (entries (pool w')) with (entries (pool w1)). rewrite E6, Er. by rewrite lookup_delete_eq.
  - intros h' H. by mem.
  - intros h' d' y H Hd' Hlv Hy. mem. injection H as ->. apply (dropped_app w w' l); [done|]. by apply (take_out_spares w h d' y).
  - intros s' h' d' Hn Hn' Hcc Hd' Hlv. destruct (Hgo s' h' d' Hn Hn' Hcc Hd' Hlv) as [[= ->]|[Ho Hx]]; [right; right; left|]. left. exists t. left. exists h. split; [done|congruence].
Qed.

Lemma P_cons k h l : P ((k, h) :: l) = RDb h Picked :: P l.
Proof using Type. done. Qed.

Lemma picks_ok_cons w k h l : picks_ok w ((k, h) :: l) -> of_repo k h w /\ picks_ok w l.
Proof using Type.
  intros H. split; [|intros kh Hin; apply H; by right]. destruct (H (k, h) ltac:(left)) as (d & Hd & E & _). by exists d.
Qed.

(** Every handle picked is closed or skipped, and only what was skipped is still held. *)
Lemma wp_close_all l L w (Q : list (string * nat) -> World -> Prop) : Inv w -> has t (P l ++ L) w -> picks_ok w l ->
  (forall sk w', grows w w' -> Inv w' -> has t (P sk ++ L) w' -> picks_ok w' sk ->
     (forall kh, kh ∈ l -> kh ∈ sk \/ closed_by t kh.1 w' /\ dead kh.2 w') -> Q sk w') -> WP t (close_all l) w Q.
Proof using Type.
  revert L w Q. induction l as [|[k h] l IH]; intros L w Q HI HL Hp HQ.
  { cbn. apply HQ; [reflexivity|done..|]. by intros kh H%elem_of_nil. }
  destruct (picks_ok_cons _ _ _ _ Hp) as [Hr Hp']. cbn [close_all].
  apply wp_bind, (wp_section t _ (P ((k, h) :: l) ++ L)); [done|]. intros w1 v b w2 Hg HI1 HL1 _ He.
  destruct (step_take_out k h (P l ++ L) w1 v b w2 HI1 HL1 (of_repo_grows _ _ _ _ Hg Hr) He) as [Hs HL2].
  split; [done|]. intros HI2 Hg2. pose proof (of_repo_grows _ _ _ _ Hg2 Hr) as Hr2. pose proof (picks_ok_grows _ _ _ Hg2 Hp') as Hp2.
  destruct b.
  - apply wp_bind, (wp_close_db t BySweep h (RDb h Doomed :: P l ++ L)); [done|left|destruct Hr2 as (d & Hd & _); by exists d|].
    intros r w3 Hg3 HI3 HL3 Hdead Hcl. apply wp_bind, (wp_let_go t (RDb h Doomed) (P l ++ L)); [done| |].
    { intros w4 Hg4 d Hd. destruct (dead_grows h w3 w4 Hg4 Hdead) as (d' & Hd' & Hl). congruence. }
    intros w4 Hg4 HI4 HL4. assert (grows w2 w4) as Hg24 by by etrans. apply (IH L); [done|done|by apply (picks_ok_grows w2)|].
    intros sk w5 Hg5 HI5 HL5 Hp5 Hall. apply HQ; [by do 2 etrans|done..|].
    intros kh [->|Hin]%elem_of_cons; [right|by apply Hall]. assert (grows w3 w5) as Hg35 by by etrans.
    split; [by apply (closed_by_grows t k w3), Hcl|by apply (dead_grows h w3)].
  - apply wp_bind, (IH (RDb h Picked :: L)); [done| |done|].
    { unfold has in *. rewrite HL2. cbn. by rewrite Permutation_middle. }
    intros sk w3 Hg3 HI3 HL3 Hp3 Hall. apply HQ; [by etrans|done|..].
    + unfold has in *. rewrite HL3. cbn. by rewrite Permutation_middle.
    + intros kh [->|Hin]%elem_of_cons; [|by apply Hp3].
      apply (picks_ok_grows w w3 _ ltac:(by etrans) Hp). left.
    + intros kh [->|Hin]%elem_of_cons; [left; left|]. destruct (Hall kh Hin); [left; by right|by right].
Qed.

Lemma wp_drop_all l L w (Q : unit -> World -> Prop) : Inv w -> has t (P l ++ L) w ->
  (forall w', grows w w' -> Inv w' -> has t L w' -> Q () w') -> WP t (drop_all l) w Q.
Proof using Type.
  revert w Q. induction l as [|[k h] l IH]; intros w Q HI HL HQ; [by apply HQ|]. cbn [drop_all].
  apply wp_bind, (wp_let_go t (RDb h Picked) (P l ++ L)); [done..|]. intros w1 Hg1 HI1 HL1.
  apply IH; [done..|]. intros w2 Hg2 HI2 HL2. apply HQ; [by etrans|done..].
Qed.

Lemma wp_release_all ks L w (Q : unit -> World -> Prop) : Inv w -> has t L w -> (forall k, k ∈ ks -> closed_by t k w) ->
  (forall w', grows w w' -> Inv w' -> has t L w' -> Q () w') -> WP t (release_all ks) w Q.
Proof using Type.
  revert w Q. induction ks as [|k ks IH]; intros w Q HI HL Hk HQ; [by apply HQ|]. cbn [release_all].
  apply wp_bind, wp_step. intros w1 x w2 HR HI1 ->. pose proof (has_R _ _ _ _ HR HL) as HL1.
  assert (step_ok t w1 (note (Gave t k) w1)) as Hs.
  { apply step_note; [done| |done]. split; [|apply (i_gave w1 HI1)]. apply (closed_by_grows t k w w1 (proj1 HR)), Hk. left. }
  split; [done|]. assert (grows w (note (Gave t k) w1)) as Hg by (etrans; [apply (proj1 HR)|by apply (step_grows t)]).
  apply IH; [by apply (step_Inv t w1)|done| |].
  - intros k' Hk'. apply (closed_by_grows t k' w _ Hg), Hk. by right.
  - intros w3 Hg3 HI3 HL3. apply HQ; [by etrans|done..].
Qed.

Lemma wp_retire_job l L w (Q : unit -> World -> Prop) : has t (P l ++ L) w -> picks_ok w l ->
  (forall w', grows w w' -> Inv w' -> has t L w' -> Q () w') -> WP t (retire_job l) w Q.
Proof using Type.
  intros HL Hp HQ. apply wp_bind, (wp_sleep t _ (P l ++ L)); [done|]. intros w1 Hg1 HI1 HL1.
  apply wp_bind, (wp_close_all l L); [done|done|by apply (picks_ok_grows w)|]. intros sk w2 Hg2 HI2 HL2 Hp2 Hall.
  apply wp_bind, (wp_release_all _ (P sk ++ L)); [done|done| |].
  { intros k [Hn ([k' h] & -> & Hin)%list_elem_of_fmap]%list_elem_of_filter. destruct (Hall _ Hin) as [Hs|[Hc _]]; [|done].
    destruct Hn. apply list_elem_of_fmap. by exists (k', h). }
  intros w3 Hg3 HI3 HL3. apply (wp_drop_all sk L); [done|done|]. intros w4 Hg4 HI4 HL4. apply HQ; [|done..].
  etrans; [exact Hg1|]. etrans; [exact Hg2|]. by etrans.
Qed.

Lemma wp_retire l L w (Q : unit -> World -> Prop) : Inv w -> has t (P l ++ L) w -> picks_ok w l ->
  (forall w', grows w w' -> Inv w' -> has t L w' -> Q () w') -> WP t (retire l) w Q.
Proof using Type.
  intros HI HL Hp HQ. destruct l as [|kh l]; [by apply HQ|]. unfold retire. set (ks := kh :: l) in *.
  apply wp_bind, (wp_look t _ (P ks ++ L)); [done|]. intros w1 Hg1 HI1 HL1. pose proof (picks_ok_grows _ _ _ Hg1 Hp) as Hp1.
  destruct (hook (pool w1)).
  - apply wp_bind, (wp_section t _ (P ks ++ L)); [done|]. intros w2 v i w3 Hg2 HI2 HL2 _ He.
    unfold spawn_retire, locked_by in He. rewrite (foldl_picks (Task t) (Job (fresh w2))) in He. injection He as <- <-.
    destruct (step_spawn t w2 (Retire ks) L HI2 HL2 (picks_ok_grows _ _ _ Hg2 Hp1)) as [Hs HL3]. split; [done|]. intros HI3 Hg3.
    apply (wp_quiet _ L); [done|by split; [apply alike_pool|]|]. intros w4 Hg4 HI4 HL4. apply HQ; [by do 2 etrans|done..].
  - apply wp_bind, (wp_close_all ks L); [done..|]. intros sk w2 Hg2 HI2 HL2 _ _. apply (wp_drop_all sk L); [done..|].
    intros w3 Hg3 HI3 HL3. apply HQ; [by do 2 etrans|done..].
Qed.

Lemma wp_sweep L w (Q : unit -> World -> Prop) : has t L w ->
  (forall w', grows w w' -> Inv w' -> has t L w' -> Q () w') -> WP t sweep w Q.
Proof using Type.
  intros HL HQ. apply wp_bind, (wp_section t _ L); [done|]. intros w1 v l w2 Hg HI1 HL1 _ [= <- <-].
  pose proof (picks_picked w1 v HI1) as Hp. destruct (step_mark t w1 (picks w1 v) L HI1 HL1 Hp) as [Hs HL2].
  split; [done|]. intros HI2 Hg2. apply (wp_retire _ L); [done|done|apply (picks_ok_grows w1); [by apply (step_grows t)|done]|].
  intros w3 Hg3 HI3 HL3. apply HQ; [by etrans|done..].
Qed.

Lemma wp_enforce_bound L w (Q : unit -> World -> Prop) : has t L w ->
  (forall w', grows w w' -> Inv w' -> has t L w' -> Q () w') -> WP t enforce_bound w Q.
Proof using Type.
  intros HL HQ. apply wp_bind, (wp_look t _ L); [done|]. intros w1 Hg1 HI1 HL1. destruct (Nat.ltb _ _); [|by apply HQ].
  apply (wp_sweep L); [done|]. intros w2 Hg2 HI2 HL2. apply HQ; [by etrans|done..].
Qed.
End ops.

(** * Opening and adopting, step by step *)

Section get.
Context (t : nat).

Lemma step_take_entry k L w v s w' : Inv w -> has t L w -> take_entry k t v w = Some (s, w') ->
  step_ok t w w' /\ has t (RSlot s Joining :: L) w' /\ repo_of w' s = Some k.
Proof using Type.
  intros HI HL. unfold take_entry. destruct (entries (pool w) !! k) as [s0|] eqn:Hk; intros [= <- <-].
  - destruct (i_map w HI k s0 Hk) as [Hr _]. set (w1 := on_entry s0 (with_last_used (now v)) w).
    assert (alike w w1) as Ha by (by apply alike_on).
    destruct (step_refs t w (hold (Task t) (RSlot s0 Joining) w1) [] [RSlot s0 Joining] L) as [H1 H2]; try done.
    + apply (alike_trans w w1); [done|by split].
    + intros rest H. cbn. by rewrite H.
    + intros r H. by mem.
    + intros r H. mem. subst. split; [by exists k|done].
    + intros h H. by mem.
    + intros h H. by mem.
    + split; [done|]. split; [done|]. change (repo_of w1 s0 = Some k). by rewrite (a_repo w w1 Ha).
  - destruct (step_new t w k (now v) L HI HL Hk) as (H1 & H2 & H3). done.
Qed.

Lemma step_join s h L w : Inv w -> has t (RSlot s Joining :: L) w -> cell_of w s = Full h ->
  let w' := rehold (Task t) (RSlot s Joining) (Task t) (RSlot s Joined) w in step_ok t w w' /\ has t (RSlot s Joined :: L) w'.
Proof using Type.
  intros HI HL Hf w'. apply (step_refs t w w' [RSlot s Joining] [RSlot s Joined] L); try done.
  - intros rest H. by apply rehold_perm.
  - intros r H. mem. by subst.
  - intros r H. mem. subst. destruct (i_full w HI s h Hf) as (d & Hd & <-). destruct (i_db w HI h d Hd) as [_ Hr].
    split; [by eexists|by exists h].
  - intros h' H. by mem.
  - intros h' H. by mem.
Qed.

Lemma no_built_cons r L : (forall h, RDb h Built ∉ L) -> (forall h, r <> RDb h Built) -> forall h, RDb h Built ∉ r :: L.
Proof using Type. intros HL Hr h [H|H]%elem_of_cons; [by destruct (Hr h)|by destruct (HL h)]. Qed.

(** The permit given back, or the handle put in. *)
Lemma wp_leave s L r w (Q : unit -> World -> Prop) : (forall h, RDb h Built ∉ L) -> (exists k, repo_of w s = Some k) ->
  match r with
  | Ok h => has t (RDb h Built :: RSlot s Joining :: L) w /\ cell_of w s = Opening t true /\ exists d, dbs w !! h = Some d /\ d_slot d = s
  | Err _ => has t (RSlot s Joining :: L) w /\ exists b, cell_of w s = Opening t b
  end ->
  (forall w', grows w w' -> Inv w' ->
     match r with Ok h => has t (RSlot s Joined :: L) w' /\ full s h w' | Err _ => has t (RSlot s Joining :: L) w' end -> Q () w') ->
  WP t (lock (leave s r)) w Q.
Proof using Type.
  intros Hnb [k Hk] Hr HQ. apply wp_lock. intros w1 v x w2 HR HI _ He. unfold leave, locked_by in He.
  pose proof (g_repo w w1 (proj1 HR) s k Hk) as Hk1. destruct r as [h|e]; injection He as <- <-.
  - destruct Hr as (HL & Ho & d & Hd & Hs). pose proof (has_R _ _ _ _ HR HL) as HL1. pose proof (o_opening t w w1 (proj2 HR) _ _ Ho) as Ho1.
    destruct (g_db w w1 (proj1 HR) h d Hd) as (d1 & Hd1 & _ & Hs1 & _). rewrite Hs in Hs1.
    destruct (step_fill t s h d1 L w1 _ HI eq_refl HL1 Hnb Hd1 Hs1 Ho1) as [H1 H2]. split; [done|].
    apply HQ; [etrans; [apply (proj1 HR)|by apply (step_grows t)]|by apply (step_Inv t w1)|]. split; [done|].
    by apply (cell_set w1 s (Full h) k).
  - destruct Hr as (HL & b & Ho). pose proof (has_R _ _ _ _ HR HL) as HL1. pose proof (o_opening t w w1 (proj2 HR) _ _ Ho) as Ho1.
    assert (step_ok t w1 (on_entry s (with_db Empty) w1)) as H1.
    { apply (step_cell t w1 s Empty (RSlot s Joining :: L) k); [done..|by apply no_built_cons|right; by exists b|by left]. }
    split; [done|]. apply HQ; [etrans; [apply (proj1 HR)|by apply (step_grows t)]|by apply (step_Inv t w1)|by apply (has_same t _ w1)].
Qed.

Lemma step_built k s L w : Inv w -> has t L w -> repo_of w s = Some k -> cell_of w s = Opening t true ->
  step_ok t w (built t k s w) /\ has t (RDb (fresh w) Built :: L) (built t k s w) /\ cell_of (built t k s w) s = Opening t true /\
  exists d, dbs (built t k s w) !! fresh w = Some d /\ d_slot d = s.
Proof using Type.
  intros HI HL Hk Ho. pose proof (step_fence t k w HI) as H1.
  destruct (step_insert t (fence k w) k s L (step_Inv _ _ _ H1) HL Hk Ho) as [H2 HL2].
  match type of H2 with step_ok _ _ ?x => set (w2 := x) in * end. change (built t k s w) with (on_files (union {[ k ]}) w2).
  split; [apply (step_trans t _ (fence k w)); [done|]; apply (step_trans t _ w2); [done|]; apply step_files; by apply (step_Inv t (fence k w))|].
  split; [done|]. split; [done|]. exists (mkDb k s None). cbn. by rewrite lookup_insert_eq.
Qed.

(** While it has the permit: a handle built for the slot, which the map named, or an error. *)
Lemma wp_open_db k s L w (Q : result nat -> World -> Prop) : (forall h, RDb h Built ∉ L) -> has t (RSlot s Joining :: L) w ->
  repo_of w s = Some k -> cell_of w s = Opening t true ->
  (forall r w', grows w w' -> Inv w' ->
     match r with
     | Ok h => has t (RDb h Built :: RSlot s Joining :: L) w' /\ cell_of w' s = Opening t true /\ exists d, dbs w' !! h = Some d /\ d_slot d = s
     | Err _ => has t (RSlot s Joining :: L) w' /\ exists b, cell_of w' s = Opening t b
     end -> Q r w') -> WP t (open k s) w Q.
Proof using Type.
  intros Hnb HL Hk Ho HQ. apply wp_step. intros w1 r w2 HR HI He. pose proof (has_R _ _ _ _ HR HL) as HL1.
  pose proof (o_opening t w w1 (proj2 HR) _ _ Ho) as Ho1. pose proof (g_repo w w1 (proj1 HR) s k Hk) as Hk1.
  destruct He as [[-> ->]|[[e ->] He]].
  - destruct (step_built k s _ w1 HI HL1 Hk1 Ho1) as (H1 & H2 & H3 & H4). split; [done|].
    apply HQ; [etrans; [apply (proj1 HR)|by apply (step_grows t)]|by apply (step_Inv t w1)|done].
  - assert (step_ok t w1 w2 /\ has t (RSlot s Joining :: L) w2 /\ cell_of w2 s = Opening t true) as (H1 & H2 & H3).
    { destruct He as [->| ->]; [by split; [apply step_refl|]|by split; [apply step_fence|]]. }
    split; [done|]. apply HQ; [etrans; [apply (proj1 HR)|by apply (step_grows t)]|by apply (step_Inv t w1)|]. split; [done|by exists true].
Qed.

Lemma wp_permit k s L w (Q : result nat -> World -> Prop) : (forall h, RDb h Built ∉ L) -> has t (RSlot s Joining :: L) w ->
  repo_of w s = Some k -> cell_of w s = Opening t false ->
  (forall r w', grows w w' -> Inv w' ->
     match r with
     | Ok h => has t (RDb h Built :: RSlot s Joining :: L) w' /\ cell_of w' s = Opening t true /\ exists d, dbs w' !! h = Some d /\ d_slot d = s
     | Err _ => has t (RSlot s Joining :: L) w' /\ exists b, cell_of w' s = Opening t b
     end -> Q r w') -> WP t (permit k s) w Q.
Proof using Type.
  intros Hnb HL Hk Ho HQ. apply wp_bind, wp_lock. intros w1 v d w2 HR HI _ [= <- <-]. split; [by apply step_refl|].
  pose proof (has_R _ _ _ _ HR HL) as HL1. pose proof (o_opening t w w1 (proj2 HR) _ _ Ho) as Ho1.
  pose proof (g_repo w w1 (proj1 HR) s k Hk) as Hk1.
  destruct (bool_decide (k ∈ deleting (pool w1))); [apply HQ; [apply (proj1 HR)|done|split; [done|by exists false]]|].
  apply wp_bind, wp_lock. intros w2 v2 o w3 HR2 HI2 _ He. pose proof (has_R _ _ _ _ HR2 HL1) as HL2.
  pose proof (o_opening t w1 w2 (proj2 HR2) _ _ Ho1) as Ho2. pose proof (g_repo w1 w2 (proj1 HR2) s k Hk1) as Hk2.
  unfold ours, locked_by in He. destruct (names w2 k s) eqn:Hn; injection He as <- <-.
  - assert (step_ok t w2 (on_entry s (with_db (Opening t true)) w2)) as H3.
    { apply (step_cell t w2 s _ (RSlot s Joining :: L) k); [done..|by apply no_built_cons|right; by exists false|right; right].
      split; [done|]. apply (named_entries w2 s k); [|done]. by apply bool_decide_eq_true in Hn. }
    split; [done|]. apply (wp_open_db k s L); [done|by apply (has_same t _ w2)|by rewrite repo_of_on|by apply (cell_set w2 s _ k)|].
    intros r w4 Hg4 HI4 Hr. apply HQ; [|done..]. etrans; [apply (proj1 HR)|]. etrans; [apply (proj1 HR2)|].
    etrans; [by apply (step_grows t)|done].
  - split; [by apply step_refl|]. apply HQ; [etrans; [apply (proj1 HR)|apply (proj1 HR2)]|done|split; [done|by exists false]].
Qed.

Lemma wp_init k s L w (Q : result nat -> World -> Prop) : (forall h, RDb h Built ∉ L) -> has t (RSlot s Joining :: L) w ->
  repo_of w s = Some k ->
  (forall r w', grows w w' -> Inv w' ->
     match r with Ok h => has t (RSlot s Joined :: L) w' /\ full s h w' | Err _ => has t (RSlot s Joining :: L) w' end -> Q r w') ->
  WP t (init k s) w Q.
Proof using Type.
  intros Hnb HL Hk HQ. apply wp_bind, wp_lock. intros w1 v o w2 HR HI _ He. pose proof (has_R _ _ _ _ HR HL) as HL1.
  pose proof (g_repo w w1 (proj1 HR) s k Hk) as Hk1. unfold enter in He. destruct (cell_of w1 s) as [| |h] eqn:Hc; [|done|]; injection He as <- <-.
  - assert (step_ok t w1 (on_entry s (with_db (Opening t false)) w1)) as H2.
    { apply (step_cell t w1 s _ (RSlot s Joining :: L) k); [done..|by apply no_built_cons|by left|right; by left]. }
    set (w2 := on_entry s (with_db (Opening t false)) w1) in *. split; [done|].
    assert (grows w w2) as Hg2 by (etrans; [apply (proj1 HR)|by apply (step_grows t)]).
    apply wp_bind, (wp_permit k s L); [done|by apply (has_same t _ w1)|unfold w2; by rewrite repo_of_on|by apply (cell_set w1 s _ k)|].
    intros r w3 Hg3 HI3 Hr. apply wp_bind, (wp_leave s L); [done|exists k|done|].
    { apply (g_repo w w3 ltac:(by etrans) s k Hk). }
    intros w4 Hg4 HI4 Hr4. apply HQ; [by do 2 etrans|done..].
  - destruct (step_join s h L w1 HI HL1 Hc) as [H2 HL2]. split; [done|].
    apply HQ; [etrans; [apply (proj1 HR)|by apply (step_grows t)]|by apply (step_Inv t w1)|by split].
Qed.

(** ** Adopting *)

Lemma wp_abandon k s L w (Q : unit -> World -> Prop) : has t L w ->
  (forall w', grows w w' -> Inv w' -> has t L w' -> Q () w') -> WP t (lock (abandon k s)) w Q.
Proof using Type.
  intros HL HQ. apply (wp_section t _ L); [done|]. intros w1 v x w2 Hg HI HL1 _ [= <- <-].
  destruct (names w1 k s) eqn:En; [|split; [by apply step_refl|intros HI2 Hg2; by apply HQ]].
  set (w2 := remove_key k (forsake (Abandoned t s) s None w1)).
  assert (w2 = remove_key k (match entries (pool w1) !! k with Some s' => forsake (Abandoned t s) s' None w1 | None => w1 end)) as E0.
  { unfold names in En. apply bool_decide_eq_true in En. by rewrite En. }
  destruct (remove_key_spec k (fun _ => Abandoned t s) None w1 HI (fun _ => I)) as (E1 & E2 & E3 & E4 & E5 & E6 & (l & E7 & Hl) & Hgo).
  rewrite <- E0 in E1, E2, E3, E4, E5, E6, E7, Hgo.
  destruct (step_remove t w1 w2 [] [] L (refs w1) l) as [H1 H2]; try done.
  - intros k' s' H. rewrite E6 in H. by apply lookup_delete_Some in H as [_ H].
  - by rewrite E2.
  - intros r H. by mem.
  - intros r H. by mem.
  - intros h H. by mem.
  - intros h d y H. by mem.
  - intros s' h d Hn Hn' Hc Hd Hlv. left.
    assert (s' = s) as ->.
    { apply named_map in Hn as (k' & Hr & Hk'). unfold named, repo_of in Hn'. rewrite E1 in Hn'. change (fst <$> slots w1 !! s') with (repo_of w1 s') in Hn'.
      rewrite Hr in Hn'. apply bool_decide_eq_false in Hn'. rewrite E6 in Hn'. destruct (decide (k' = k)) as [->|]; [|by rewrite lookup_delete_ne in Hn'].
      unfold names in En. apply bool_decide_eq_true in En. congruence. }
    destruct (Hgo s h d Hn Hn' Hc Hd Hlv) as [|[_ Hx]]; [done|]. exists t. right. by left.
  - split; [done|]. intros HI2 Hg2. by apply HQ.
Qed.

Lemma wp_clone s h L w (Q : unit -> World -> Prop) : has t L w -> full s h w ->
  (forall w', grows w w' -> Inv w' -> has t (RDb h Pending :: L) w' -> Q () w') -> WP t (lock (clone h)) w Q.
Proof using Type.
  intros HL Hf HQ. apply (wp_section t _ L); [done|]. intros w1 v x w2 Hg HI HL1 _ [= <- <-].
  pose proof (g_full w w1 Hg s h Hf) as Hf1. destruct (i_full w1 HI s h Hf1) as (d & Hd & Es).
  destruct (hold_ok t (RDb h Pending) L w1 HI HL1) as [H1 H2]; [apply ref_ok_pick; [exists d; split; [done|by rewrite Es]|done]|done|].
  split; [done|]. intros HI2 Hg2. by apply HQ.
Qed.

Lemma step_current k s h L w v b w' : Inv w -> has t (RDb h Pending :: RSlot s Joined :: L) w -> full s h w -> repo_of w s = Some k ->
  still_current k s h t v w = Some (b, w') ->
  step_ok t w w' /\ if b then has t (RDb h Adopted :: RSlot s Settled :: L) w' else has t (RDb h Pending :: RSlot s Closing :: L) w' /\ gone s w'.
Proof using Type.
  intros HI HL Hf Hk. destruct (i_full w HI s h Hf) as (d & Hd & Es).
  unfold still_current, locked_by. destruct (names w k s) eqn:Hn; intros [= <- <-].
  - assert (named w s = true) as Hns by (apply (named_entries w s k); [by apply bool_decide_eq_true in Hn|done]).
    apply (step_refs t w _ [RDb h Pending; RSlot s Joined] [RDb h Adopted; RSlot s Settled] L); try done.
    + intros rest H. etrans; [|apply Permutation_swap]. apply rehold_perm. etrans; [|apply Permutation_swap]. by apply rehold_perm.
    + intros r H. mem; subst; cbn; [done|by left].
    + intros r H. mem; subst; [apply ref_ok_pick; [by exists d|done]|]. split; [by exists k|by exists h].
    + intros h' H. right. intros d' Hd'. mem; [|done]. injection H as ->. rewrite Hd in Hd'. injection Hd' as <-. by rewrite Es.
    + intros h' H. by mem.
  - assert (named w s = false) as Hns.
    { unfold named. rewrite Hk. exact Hn. }
    assert (has t (RSlot s Joined :: RDb h Pending :: L) w) as HL' by (unfold has; rewrite HL; apply Permutation_swap).
    destruct (step_refs t w (rehold (Task t) (RSlot s Joined) (Task t) (RSlot s Closing) w) [RSlot s Joined] [RSlot s Closing] (RDb h Pending :: L)) as [H1 H2]; try done.
    + intros rest H. by apply rehold_perm.
    + intros r H. mem. subst. right. right. exists (Task t). left.
    + intros r H. mem. subst. split; [by exists k|done].
    + intros h' H. by mem.
    + intros h' H. by mem.
    + split; [done|]. split; [unfold has; rewrite H2; apply Permutation_swap|]. split; [by exists k|done].
Qed.

(** [adopt] ends with the handle in use, or with the slot's database closed. *)
Lemma wp_adopt k s h L w (Q : result nat -> World -> Prop) : has t (RDb h Pending :: RSlot s Joined :: L) w -> full s h w -> repo_of w s = Some k ->
  (forall w', grows w w' -> Inv w' -> has t (RDb h Adopted :: RSlot s Settled :: L) w' -> Q (Ok h) w') ->
  (forall e w', grows w w' -> Inv w' -> has t (RSlot s Closing :: L) w' -> ran s w' -> Q (Err e) w') -> WP t (adopt k s h) w Q.
Proof using Type.
  intros HL Hf Hk Hok Herr. apply wp_bind, (wp_section t _ (RDb h Pending :: RSlot s Joined :: L)); [done|].
  intros w1 v b w2 Hg HI HL1 _ He.
  destruct (step_current k s h L w1 v b w2 HI HL1 (g_full w w1 Hg s h Hf) (g_repo w w1 Hg s k Hk) He) as [H1 H2].
  split; [done|]. intros HI2 Hg2. destruct b; [by apply Hok|]. destruct H2 as [HL2 Hgone].
  apply wp_bind, (wp_let_go t (RDb h Pending) (RSlot s Closing :: L)); [done..|]. intros w3 Hg3 HI3 HL3.
  apply wp_bind, (wp_Entry_close t s (RSlot s Closing :: L)); [done|by apply (gone_grows s w2)|].
  intros w4 Hg4 HI4 HL4 Hr. apply Herr; [by do 2 etrans|done..].
Qed.

Lemma wp_get_once un o n L w (Q : result nat -> World -> Prop) : (forall h, RDb h Built ∉ L) -> has t L w ->
  (forall r w', grows w w' -> Inv w' -> match r with Ok h => has t (RDb h Adopted :: L) w' | Err _ => has t L w' end -> Q r w') ->
  WP t (get_once un o n) w Q.
Proof using Type.
  intros Hnb HL HQ. apply wp_bind, (wp_look t _ L); [done|]. intros w1 Hg1 HI1 HL1.
  destruct (closed (pool w1)); [by apply HQ|]. destruct (is_unowned un o n); [by apply HQ|].
  apply wp_bind, (wp_section t _ L); [done|]. intros w2 v s w3 Hg2 HI2 HL2 _ He.
  destruct (step_take_entry (key o n) L w2 v s w3 HI2 HL2 He) as (H3 & HL3 & Hk3). split; [done|]. intros HI3 Hg3.
  apply wp_bind, (wp_init (key o n) s L); [done..|]. intros r w4 Hg4 HI4 Hr. assert (grows w w4) as Hg by by do 2 etrans.
  destruct r as [h|e].
  - destruct Hr as [HL4 Hf]. apply wp_bind, (wp_clone s h (RSlot s Joined :: L)); [done..|]. intros w5 Hg5 HI5 HL5.
    apply wp_bind, (wp_adopt (key o n) s h L); [done|by apply (g_full w4)|apply (g_repo w3 w5 ltac:(by etrans) s _ Hk3)| |].
    + intros w6 Hg6 HI6 HL6. apply wp_bind, (wp_enforce_bound t (RDb h Adopted :: RSlot s Settled :: L)); [done|]. intros w7 Hg7 HI7 HL7.
      apply wp_bind, (wp_let_go t (RSlot s Settled) (RDb h Adopted :: L)); [unfold has in *; rewrite HL7; apply Permutation_swap|done|].
      intros w8 Hg8 HI8 HL8. apply HQ; [|done..]. etrans; [exact Hg|]. etrans; [exact Hg5|]. by do 2 etrans.
    + intros e w6 Hg6 HI6 HL6 Hran. apply wp_bind, (wp_let_go t (RSlot s Closing) L); [done|intros w7 Hg7; left; by apply (ran_grows s w6)|].
      intros w7 Hg7 HI7 HL7. apply HQ; [|done..]. etrans; [exact Hg|]. by do 2 etrans.
  - apply wp_bind, (wp_abandon _ _ (RSlot s Joining :: L)); [done|]. intros w5 Hg5 HI5 HL5.
    apply wp_bind, (wp_let_go t (RSlot s Joining) L); [done..|]. intros w6 Hg6 HI6 HL6. apply HQ; [by do 2 etrans|done..].
Qed.

Lemma wp_unadopt h L w (Q : unit -> World -> Prop) : has t (RDb h Adopted :: L) w ->
  (forall w', grows w w' -> Inv w' -> has t L w' -> Q () w') -> WP t (let_go (RDb h Adopted)) w Q.
Proof using Type. intros HL HQ. by apply (wp_let_go t (RDb h Adopted) L). Qed.

Lemma wp_get_db un o n L w (Q : result nat -> World -> Prop) : (forall h, RDb h Built ∉ L) -> has t L w ->
  (forall r w', grows w w' -> Inv w' -> match r with Ok h => has t (RDb h Adopted :: L) w' | Err _ => has t L w' end -> Q r w') ->
  WP t (get un o n) w Q.
Proof using Type.
  intros Hnb HL HQ. apply wp_bind_res, (wp_get_once un o n L); [done..|]. intros [h|e] w1 Hg1 HI1 HL1; [|by apply HQ].
  apply wp_bind, wp_step. intros w2 r w3 HR HI2 [-> _]. split; [by apply step_refl|]. pose proof (has_R _ _ _ _ HR HL1) as HL2.
  assert (grows w w2) as Hg2 by (etrans; [done|apply (proj1 HR)]).
  assert (forall e, WP t (evict_if_same o n h ;;! let_go (RDb h Adopted) ;;! Ret (Err e)) w2 Q) as Hev.
  { intros e. apply wp_bind, (wp_evict_if_same t o n h (RDb h Adopted :: L)); [done|]. intros w4 Hg4 HI4 HL4.
    apply wp_bind, (wp_unadopt h L); [done|]. intros w5 Hg5 HI5 HL5. apply HQ; [by do 2 etrans|done..]. }
  destruct r as [[]|]; try apply Hev. by apply HQ.
Qed.

Lemma wp_pool_request un o n k w : has t [] w -> WP t (request un o n k) w (fun _ => has t []).
Proof using Type.
  intros HL. apply wp_bind, (wp_get_db un o n []); [intros h H; by mem|done|]. intros [h|e] w1 Hg1 HI1 HL1; [|done].
  apply wp_bind. assert (forall m w2, has t [RDb h Adopted] w2 -> WP t (use_db m h) w2 (fun _ => has t [RDb h Adopted])) as Huse.
  { induction m as [|m IH]; intros w2 HL2; [done|]. apply wp_bind, wp_step. intros w3 r w4 HR HI3 ->. split; [by apply step_refl|].
    apply IH. by apply (has_R t _ w2). }
  eapply wp_mono; [by apply Huse|]. intros [] w2 HL2. by apply (wp_unadopt h []).
Qed.
End get.
