(* ===== verification/PoolEntries.v ===== *)
(** * PoolEntries: shutdown, flushes, jobs, and every interleaving of the entry points *)

From S2P Require Import Prelude Text Prog Pool PoolSafe PoolOps.
Local Open Scope string_scope.
Local Open Scope Z_scope.

Section entries.
Context (t : nat).

(** ** Shutdown *)

Lemma wp_join_all ids L w (Q : unit -> World -> Prop) : Inv w -> has t L w ->
  (forall w', grows w w' -> Inv w' -> has t L w' -> Q () w') -> WP t (join_all ids) w Q.
Proof using Type.
  revert w Q. induction ids as [|i ids IH]; intros w Q HI HL HQ; [by apply HQ|].
  apply wp_bind, (wp_join t _ _ L); [done|]. intros b w1 Hg1 HI1 HL1. apply IH; [done..|].
  intros w2 Hg2 HI2 HL2. apply HQ; [by etrans|done..].
Qed.

Lemma wp_close_skipped l L w (Q : unit -> World -> Prop) : Inv w -> has t (P l ++ L) w -> picks_ok w l ->
  (forall w', grows w w' -> Inv w' -> has t L w' -> (forall kh, kh ∈ l -> closed_by t kh.1 w' /\ dead kh.2 w') -> Q () w') -> WP t (close_skipped l) w Q.
Proof using Type.
  revert w Q. induction l as [|[k h] l IH]; intros w Q HI HL Hp HQ; [apply HQ; [reflexivity|done..|by intros kh H%elem_of_nil]|].
  destruct (picks_ok_cons _ _ _ _ Hp) as [Hr Hp']. cbn [close_skipped].
  apply wp_bind, (wp_close_db t ByShutdown h (P ((k, h) :: l) ++ L)); [done|done|destruct Hr as (d & Hd & _); by exists d|].
  intros r w1 Hg1 HI1 HL1 Hdead Hcl. apply wp_bind, (wp_let_go t (RDb h Picked) (P l ++ L)); [done..|].
  intros w2 Hg2 HI2 HL2. apply IH; [done..|by apply (picks_ok_grows w); [etrans|]|].
  intros w3 Hg3 HI3 HL3 Hall. apply HQ; [by do 2 etrans|done..|]. intros kh [->|Hin]%elem_of_cons; [|by apply Hall].
  assert (grows w1 w3) as Hg13 by by etrans. split; [by apply (closed_by_grows t k w1), Hcl|by apply (dead_grows h w1)].
Qed.

Lemma foldl_forsake (l : list (string * nat)) w : let w' := foldl (fun w ks => forsake (Cleared t ks.2) ks.2 None w) w l in
  pool w' = pool w /\ slots w' = slots w /\ refs w' = refs w /\ jobs w' = jobs w /\ fresh w' = fresh w /\ dbs w' = dbs w /\
  (exists es, hist w' = (es ++ hist w)%list /\ forall e, e ∈ es -> aside e) /\
  (forall k s h d, (k, s) ∈ l -> cell_of w s = Full h -> dbs w !! h = Some d -> live d = true -> Cleared t s ∈ hist w').
Proof using Type.
  revert w. induction l as [|[k s] l IH]; intros w; cbn zeta.
  { split_and!; try done; [exists []; split; [done|by intros e H%elem_of_nil]|by intros k s h d H%elem_of_nil]. }
  cbn [foldl]. destruct (forsake_same (Cleared t s) s None w) as (E1 & E2 & E3 & E4 & E5 & E6 & E7).
  destruct (IH (forsake (Cleared t s) s None w)) as (F1 & F2 & F3 & F4 & F5 & F6 & (es & F7 & Hes) & F8). cbn [snd].
  split_and!; try congruence.
  - destruct E7 as [E7|E7]; rewrite E7 in F7; [by exists es|]. exists (es ++ [Cleared t s])%list. rewrite F7, <- app_assoc. split; [done|].
    intros e [He|He]%elem_of_app; [by apply Hes|]. mem. by subst.
  - intros k' s' h d [[= -> ->]|Hin]%elem_of_cons Hc Hd Hl.
    + rewrite F7. apply elem_of_app. right. by apply (forsake_drops _ s None h d w Hc Hd Hl).
    + apply (F8 k' s' h d); [done| |by rewrite E6|done]. unfold cell_of, entry_of in *. by rewrite E2.
Qed.

(** The end of a shutdown, which has closed all that it collected. *)
Lemma wp_clear hs L w (Q : unit -> World -> Prop) : has t L w -> Collected t hs ∈ hist w -> (forall h, h ∈ hs -> dead h w) ->
  (forall w', grows w w' -> Inv w' -> has t L w' -> Q () w') -> WP t (lock clear) w Q.
Proof using Type.
  intros HL Hcol Hdead HQ. apply (wp_section t _ L); [done|]. intros w1 v x w2 Hg HI HL1 Hv [= <- <-].
  destruct (foldl_forsake (order v) w1) as (E1 & E2 & E3 & E4 & E5 & E6 & (es & E7 & Hes) & E8).
  set (w3 := foldl (fun w ks => forsake (Cleared t ks.2) ks.2 None w) w1 (order v)) in *.
  destruct (step_remove t w1 (set_entries (fun _ => ∅) w3) [] [] L (refs w1) es) as [H1 H2]; try first [done|exact E2|exact E4|exact E5|exact E6|exact E7].
  - cbn. by rewrite E3.
  - intros r H. by mem.
  - intros r H. by mem.
  - intros h H. by mem.
  - intros h d y H. by mem.
  - intros s h d Hn _ Hc Hd Hl. left. exists t. right. right. split.
    + apply named_map in Hn as (k & _ & Hk). apply (E8 k s h d); [|done..]. unfold good_env in Hv. rewrite Hv. by apply elem_of_map_to_list.
    + exists hs. split.
      * cbn. rewrite E7. apply elem_of_app. right. by apply (grows_hist w).
      * intros Hh. destruct (dead_grows h w w1 Hg (Hdead h Hh)) as (d' & Hd' & Hl'). congruence.
  - split; [done|]. intros HI2 Hg2. by apply HQ.
Qed.

Lemma wp_shutdown w : has t [] w -> WP t close w (fun _ => has t []).
Proof using Type.
  intros HL. apply wp_bind, (wp_quiet t _ []); [done|by split; [apply alike_pool|]|]. intros w1 Hg1 HI1 HL1.
  apply wp_bind, (wp_section t _ []); [done|]. intros w2 v ids w3 Hg2 HI2 HL2 _ [= <- <-].
  split; [by apply step_quiet; [|apply alike_pool|..]|]. intros HI3 _. apply wp_bind, (wp_join_all _ []); [done..|]. intros w4 _ HI4 HL4.
  apply wp_bind, (wp_section t _ []); [done|]. intros w5 v5 all w6 _ HI5 HL5 Hv5 [= <- <-].
  assert (picks_ok w5 (with_handles w5 (order v5))) as Hp by (by apply (with_handles_picked w5 v5)).
  set (all := with_handles w5 (order v5)) in *.
  assert (step_ok t w5 (note (Collected t all.*2) w5)) as Hs5 by (apply step_note; [done|apply (i_gave w5 HI5)|done]).
  set (w5' := note (Collected t all.*2) w5) in *. assert (Inv w5') as HI5' by by apply (step_Inv t w5).
  destruct (step_mark t w5' all [] HI5' HL5 Hp) as [Hs6 HL6]. split; [by apply (step_trans t w5 w5')|]. intros HI6 _.
  set (w6 := foldl (mark t) w5' all) in *. assert (grows w5' w6) as Hg6 by by apply (step_grows t).
  assert (picks_ok w6 all) as Hp6 by by apply (picks_ok_grows w5').
  assert (Collected t all.*2 ∈ hist w6) as Hc6 by (apply (grows_hist w5'); [done|left]).
  apply wp_bind, (wp_look t _ (P all ++ [])); [done|]. intros w7 Hg7 HI7 HL7. pose proof (picks_ok_grows _ _ _ Hg7 Hp6) as Hp7.
  apply wp_bind.
  assert (forall w8, Inv w8 -> has t (P all ++ []) w8 -> picks_ok w8 all -> grows w6 w8 -> WP t (let! skipped := close_all all in
    close_skipped skipped ;;! let! hk := lock (read (fun w => hook (pool w))) in
    (if hk then release_all all.*1 else Ret ()) ;;! lock clear) w8 (fun _ => has t [])) as Hrest.
  { intros w8 HI8 HL8 Hp8 Hg8. apply wp_bind, (wp_close_all t all []); [done..|]. intros sk w9 Hg9 HI9 HL9 Hp9 Hall.
    apply wp_bind, (wp_close_skipped sk []); [done..|]. intros w10 Hg10 HI10 HL10 Hsk.
    assert (forall kh, kh ∈ all -> closed_by t kh.1 w10 /\ dead kh.2 w10) as Hd10.
    { intros kh Hk. destruct (Hall kh Hk) as [H|[H1 H2]]; [by apply Hsk|]. split; [by apply (closed_by_grows t _ w9)|by apply (dead_grows _ w9)]. }
    apply wp_bind, (wp_look t _ []); [done|]. intros w11 Hg11 HI11 HL11. apply wp_bind.
    assert (grows w6 w11) as Hg611 by (etrans; [done|]; by do 2 etrans).
    assert (forall w12, grows w11 w12 -> has t [] w12 -> WP t (lock clear) w12 (fun _ => has t [])) as Hend.
    { intros w12 Hg12 HL12. apply (wp_clear all.*2 []); [done|apply (grows_hist w6); [by etrans|done]| |done].
      intros h (kh & -> & Hk)%list_elem_of_fmap. apply (dead_grows _ w10); [by etrans|]. by apply Hd10. }
    destruct (hook (pool w11)); [|by apply Hend].
    apply (wp_release_all t _ []); [done..| |].
    - intros k (kh & -> & Hk)%list_elem_of_fmap. apply (closed_by_grows t _ w10); [done|]. by apply Hd10.
    - intros w12 Hg12 HI12 HL12. by apply Hend. }
  destruct (hook (pool w7)); [|by apply Hrest]. apply (wp_sleep t _ (P all ++ [])); [done|]. intros w8 Hg8 HI8 HL8.
  apply Hrest; [done..|by apply (picks_ok_grows w7)|by etrans].
Qed.

(** ** Flushes *)

Definition dues (l : list (string * nat)) : list ref := map (fun kh => RDb kh.2 Due) l.

Lemma step_due l L w : Inv w -> has t L w -> picks_ok w l ->
  let w' := foldl (fun w kh => hold (Task t) (RDb kh.2 Due) w) w l in step_ok t w w' /\ has t (dues l ++ L) w'.
Proof using Type.
  revert L w. induction l as [|[k h] l IH]; intros L w HI HL Hp; [by split; [apply step_refl|]|]. cbn [foldl snd].
  destruct (hold_ok t (RDb h Due) L w HI HL) as [H1 H2]; [|done|].
  { apply ref_ok_pick; [|done]. destruct (Hp (k, h) ltac:(left)) as (d & Hd & _ & Hc). by exists d. }
  destruct (IH (RDb h Due :: L) (hold (Task t) (RDb h Due) w)) as [H3 H4].
  - by apply (step_Inv t w).
  - done.
  - apply (picks_ok_grows w); [by apply (step_grows t)|]. intros kh Hin. apply Hp. by right.
  - split; [by apply (step_trans t w (hold (Task t) (RDb h Due) w))|]. unfold has in *. rewrite H4. cbn. by rewrite Permutation_middle.
Qed.

Lemma alike_stamp v k w : alike w (match entries (pool w) !! k with Some s => on_entry s (with_last_flush v) w | None => w end).
Proof using Type. destruct (entries (pool w) !! k); [by apply alike_on|by split]. Qed.

Lemma wp_flush_each l L w (Q : unit -> World -> Prop) : Inv w -> has t (dues l ++ L) w ->
  (forall w', grows w w' -> Inv w' -> has t L w' -> Q () w') -> WP t (flush_each l) w Q.
Proof using Type.
  revert w Q. induction l as [|[k h] l IH]; intros w Q HI HL HQ; [by apply HQ|]. cbn [flush_each].
  apply wp_bind, wp_step. intros w1 r w2 HR HI1 ->. split; [by apply step_refl|]. pose proof (has_R _ _ _ _ HR HL) as HL1.
  apply wp_bind. assert (forall w3, grows w1 w3 -> Inv w3 -> has t (dues ((k, h) :: l) ++ L) w3 ->
    WP t (let_go (RDb h Due) ;;! flush_each l) w3 Q) as Hrest.
  { intros w3 Hg3 HI3 HL3. apply wp_bind, (wp_let_go t (RDb h Due) (dues l ++ L)); [done..|]. intros w4 Hg4 HI4 HL4.
    apply IH; [done..|]. intros w5 Hg5 HI5 HL5. apply HQ; [|done..]. etrans; [apply (proj1 HR)|]. by do 2 etrans. }
  destruct r; [|by apply Hrest..]. apply (wp_section t _ (dues ((k, h) :: l) ++ L)); [done|].
  intros w3 v x w4 Hg3 HI3 HL3 _ [= <- <-]. assert (refs (match entries (pool w3) !! k with Some s => on_entry s (with_last_flush (now v)) w3 | None => w3 end) = refs w3 /\
    jobs (match entries (pool w3) !! k with Some s => on_entry s (with_last_flush (now v)) w3 | None => w3 end) = jobs w3) as [Er Ej]
    by by destruct (entries (pool w3) !! k).
  split; [apply step_quiet; [done|apply alike_stamp|exact Ej|exact Er]|]. intros HI4 Hg4. apply Hrest; [done..|by apply (has_same t _ w3)].
Qed.

Lemma wp_flush_stale L w (Q : unit -> World -> Prop) : has t L w ->
  (forall w', grows w w' -> Inv w' -> has t L w' -> Q () w') -> WP t flush_stale w Q.
Proof using Type.
  intros HL HQ. apply wp_bind, (wp_section t _ L); [done|]. intros w1 v l w2 Hg HI HL1 Hv [= <- <-].
  destruct (step_due (with_handles w1 (filter (fun ks => stale w1 (now v) ks = true) (order v))) L w1 HI HL1) as [H1 H2].
  { apply (with_handles_picked w1 v); [done|done|]. intros ks H. by apply list_elem_of_filter in H as [_ H]. }
  split; [done|]. intros HI2 Hg2. apply (wp_flush_each _ L); [done..|]. intros w3 Hg3 HI3 HL3. apply HQ; [by etrans|done..].
Qed.

Lemma wp_sweeper w : has t [] w -> WP t sweeper_turn w (fun _ => has t []).
Proof using Type.
  intros HL. apply wp_bind, (wp_look t _ []); [done|]. intros w1 _ HI1 HL1.
  apply wp_bind, (wp_sleep t _ []); [done|]. intros w2 _ HI2 HL2.
  apply wp_bind, (wp_sweep t []); [done|]. intros w3 _ HI3 HL3. by apply (wp_flush_stale []).
Qed.

(** ** Jobs *)

Lemma wp_run_job i w : has t [] w -> WP t (run_job i) w (fun _ => has t []).
Proof using Type.
  intros HL. apply wp_bind, (wp_section t _ []); [done|]. intros w1 v j w2 Hg HI HL1 _ He. unfold start_job, locked_by in He.
  destruct (list_find _ _) as [[n [i' j']]|] eqn:Hf; injection He as <- <-.
  - apply list_find_Some in Hf as (Hin & Hi & _). cbn in Hi. subst i'. apply list_elem_of_lookup_2 in Hin.
    destruct (step_start t w1 i j' [] HI HL1 Hin) as (H1 & H2 & H3). split; [done|]. intros HI2 Hg2.
    assert (forall w3, Inv w3 -> has t [] w3 -> WP t (lock (update (finish i))) w3 (fun _ => has t [])) as Hfin.
    { intros w3 HI3 HL3. by apply (wp_quiet t _ []). }
    destruct j' as [l|s]; cbn [job_refs] in H2.
    + apply wp_bind, (wp_retire_job t l []); [done|done|]. intros w3 _ HI3 HL3. by apply Hfin.
    + assert (gone s (foldl (fun w0 r => rehold (Job i) r (Task t) r w0) (on_jobs (filter (fun ij => ij.1 <> i)) w1) [RSlot s Closing])) as Hgn.
      { destruct (i_refs _ HI2 (Task t) (RSlot s Closing)) as [Hk Hn]; [|by split]. apply mine_elem. unfold has in H2. rewrite H2. left. }
      apply wp_bind, (wp_Entry_close t s [RSlot s Closing]); [done..|]. intros w3 Hg3 HI3 HL3 Hr.
      apply wp_bind, (wp_let_go t (RSlot s Closing) []); [done|intros w4 Hg4; left; by apply (ran_grows s w3)|].
      intros w4 _ HI4 HL4. by apply Hfin.
  - split; [by apply step_refl|]. intros _ _. done.
Qed.

End entries.

(** ** Every entry point *)

Lemma pool_entry_ends t p w : entry t p -> Inv w -> has t [] w -> WP t p w (fun _ => has t []).
Proof.
  intros He HI HL. destruct He as [t un o n k|t o n|t o n|t o n|t|t|t un o n|t i|t k|t h].
  - by apply wp_pool_request.
  - by apply (wp_evict t o n []).
  - apply wp_bind, (wp_sleep t _ []); [done|]. intros w1 _ HI1 HL1. by apply (wp_evict t o n []).
  - apply wp_bind, (wp_delete_repo t o n []); [done|]. by intros r w1 _ HI1 HL1.
  - by apply wp_sweeper.
  - by apply wp_shutdown.
  - unfold exists_. destruct (is_unowned un o n); [done|]. apply wp_bind, wp_bind, (wp_look t _ []); [done|]. intros w1 _ HI1 HL1.
    destruct (is_some _); [done|]. apply wp_step. intros w2 r w3 HR HI2 [-> _]. split; [by apply step_refl|]. by apply (has_R t [] w1).
  - by apply wp_run_job.
  - apply wp_step. intros w1 x w2 HR HI1 ->. split; [|exact (has_R t [] w w1 HR HL)].
    apply (step_trans t w1 (fence k w1)); [by apply step_fence|]. apply step_files. by apply (step_Inv t w1), step_fence.
  - apply wp_step. intros w1 x w2 HR HI1 ->. split; [by apply step_dies|exact (has_R t [] w w1 HR HL)].
Qed.

Definition reached (w0 w : World) (l : list (nat * PP unit)) : Prop := rtc (pstep psem entry) (w0, []) (w, l).

(** A pool just made: no databases, no entries, nobody holding anything. *)
Definition new_pool (ttl flush : Z) (max : nat) (hk : bool) (fs : gset string) : World :=
  mkWorld (mkPool ∅ ttl max flush hk [] false ∅) ∅ [] [] [] 0 fs ∅ [].

Lemma new_pool_Inv ttl flush max hk fs : Inv (new_pool ttl flush max hk fs).
Proof.
  split; cbn.
  - intros k s H. by rewrite lookup_empty in H.
  - intros s k H. unfold repo_of in H. cbn in H. by rewrite lookup_empty in H.
  - intros h d H. by rewrite lookup_empty in H.
  - intros s h H. unfold cell_of, entry_of in H. cbn in H. by rewrite lookup_empty in H.
  - intros s H. unfold once_of, entry_of in H. cbn in H. by rewrite lookup_empty in H.
  - intros x r H. by apply elem_of_nil in H.
  - intros h d H. by rewrite lookup_empty in H.
  - intros h d x y H. by rewrite lookup_empty in H.
  - split; cbn; [by constructor|intros i j H; by apply elem_of_nil in H|intros i r H; by apply elem_of_nil in H].
  - intros t k h n H. by apply elem_of_nil in H.
  - done.
Qed.

Lemma pool_reached_ok w0 w l : Inv w0 -> refs w0 = [] -> reached w0 w l ->
  Inv w /\ (forall t a, (t, Ret a) ∈ l -> has t [] w) /\ forall t, t ∉ l.*1 -> has t [] w.
Proof.
  intros HI H0 Hr. destruct (reach_from psem entry Inv R (fun t => has t []) (fun t => has t []) (fun t w w' => has_R t [] w w')
    (fun t w w' => has_R t [] w w') pool_entry_ends w0 w l HI) as (H1 & H2 & H3); [|done|by split_and!].
  intros t. unfold has. by rewrite H0.
Qed.
