(* ===== verification/PoolProps.v ===== *)
(** * PoolProps: what the pool promises

    In every interleaving of requests, evictions, deletes, sweeps, flushes, shutdowns, spawned jobs,
    other nodes' opens and panics: when all is quiet no open database is forgotten, a sweep closes
    nothing a request uses, and a lease goes back after its database was closed.  The first two are
    up to slots the map lost in three ways, each with an event of its own ([dropped]); [PoolWitness] shows
    how they come about.  And what a sweep picks is what it says. *)

From stdpp Require Import sorting.
From S2P Require Import Prelude Text Prog Pool PoolSafe PoolOps PoolEntries.
Local Open Scope string_scope.
Local Open Scope Z_scope.

(** Every task has ended and no job waits. *)
Definition quiet (w : World) (l : list (nat * PP unit)) : Prop := (forall t p, (t, p) ∈ l -> exists a, p = Ret a) /\ jobs w = [].

Lemma quiet_refs w l : Inv w -> (forall t a, (t, Ret a) ∈ l -> has t [] w) -> (forall t, t ∉ l.*1 -> has t [] w) -> quiet w l -> refs w = [].
Proof.
  intros HI Hd Hn [Hq Hj]. destruct (refs w) as [|[x r] rs] eqn:E; [done|]. exfalso.
  assert ((x, r) ∈ refs w) as Hin by (rewrite E; left). destruct x as [t|i].
  - assert (has t [] w) as Ht.
    { destruct (decide (t ∈ l.*1)) as [Ht|Ht]; [|by apply Hn]. apply list_elem_of_fmap in Ht as ([t' p] & -> & Hp).
      destruct (Hq t' p Hp) as [a ->]. by apply (Hd t' a). }
    apply mine_elem in Hin. unfold has in Ht. rewrite Ht in Hin. by apply elem_of_nil in Hin.
  - apply (j_held w (i_jobs w HI)) in Hin. rewrite Hj in Hin. by apply elem_of_nil in Hin.
Qed.

(** C6: When every task has ended, whatever evictions, deletes, failed opens, fences, sweeps and
    shutdowns ran against each other, nobody holds a clone, and an open database is in the cell of the
    entry the map has for its repository, where requests and sweeps find it.  Three things, and no
    others, can have taken that entry away: a retire that had picked an earlier database of the
    repository and removed this entry by key ([retire_forsakes_the_successor] is such a run); the
    clean-up of an open of this very entry that had failed before another one of it succeeded; and a
    shutdown that had not collected this database among those it closed ([shutdown_forgets_an_open]). *)
Theorem no_database_forgotten ttl flush max hk fs w l h d :
  reached (new_pool ttl flush max hk fs) w l -> quiet w l -> dbs w !! h = Some d -> live d = true ->
  refs w = [] /\ cell_of w (d_slot d) = Full h /\
  (entries (pool w) !! d_repo d = Some (d_slot d) \/
   exists t, (exists h', TookOut t h' (d_slot d) ∈ hist w /\ h' <> h) \/ Abandoned t (d_slot d) ∈ hist w \/
     (Cleared t (d_slot d) ∈ hist w /\ exists hs, Collected t hs ∈ hist w /\ h ∉ hs)).
Proof.
  intros Hr Hq Hd Hl. destruct (pool_reached_ok _ _ _ (new_pool_Inv ttl flush max hk fs) eq_refl Hr) as (HI & He & Hn).
  pose proof (quiet_refs w l HI He Hn Hq) as H0. split; [done|].
  destruct (i_cared w HI h d Hd Hl) as [[x Hx]|[Hf Hc]]; [rewrite H0 in Hx; by apply elem_of_nil in Hx|]. split; [done|].
  destruct Hc as [Hc|[Hc|[x Hx]]]; [left|by right|].
  - destruct (i_db w HI h d Hd) as [_ Hk]. unfold named in Hc. rewrite Hk in Hc. by apply bool_decide_eq_true in Hc.
  - rewrite H0 in Hx. destruct Hx as [Hx|[[Hx _]|Hx]]; by apply elem_of_nil in Hx.
Qed.

(** C7: A sweep, or a shutdown before its last resort, closes an open database only when no request has
    its handle in use, however long the drain and whatever came in meanwhile; unless the slot had left the
    map in one of the three ways [dropped] lists, with the database open. *)
Theorem sweep_spares_requests ttl flush max hk fs w l t k h n :
  reached (new_pool ttl flush max hk fs) w l -> Shut t BySweep k h true n ∈ hist w ->
  n = 0%nat \/ exists d, dbs w !! h = Some d /\ dropped w (d_slot d) h.
Proof.
  intros Hr Hs. destruct (pool_reached_ok _ _ _ (new_pool_Inv ttl flush max hk fs) eq_refl Hr) as (HI & _).
  exact (i_shut w HI t k h n Hs).
Qed.

Lemma gave_ok_app l1 l2 : gave_ok (l1 ++ l2) -> gave_ok l2.
Proof. induction l1 as [|e l1 IH]; [done|]. destruct e; cbn; auto. intros [_ H]. auto. Qed.

(** A lease goes back only from a task that has closed a database of the repository before: drain,
    close, then release. *)
Theorem lease_given_after_close ttl flush max hk fs w l l1 l2 t k :
  reached (new_pool ttl flush max hk fs) w l -> hist w = (l1 ++ Gave t k :: l2)%list ->
  exists why h b n, Shut t why k h b n ∈ l2.
Proof.
  intros Hr Hh. destruct (pool_reached_ok _ _ _ (new_pool_Inv ttl flush max hk fs) eq_refl Hr) as (HI & _).
  pose proof (i_gave w HI) as Hg. rewrite Hh in Hg. apply gave_ok_app in Hg. by destruct Hg.
Qed.

(** ** What a sweep picks *)

Definition strictly_older (w : World) (v : Env) (z : Z) : nat :=
  length (filter (fun ks => eligible w ks = true /\ used_at w ks.2 < z) (order v)).
Definition no_younger (w : World) (v : Env) (z : Z) : nat :=
  length (filter (fun ks => eligible w ks = true /\ used_at w ks.2 <= z) (order v)).

Lemma pick_elem w t over idle i k h : (k, h) ∈ pick w t over i idle <->
  exists n z, idle !! n = Some (z, k) /\ handle_at w k = Some h /\ (idle_ttl_ms (pool w) <= sat_sub t z \/ (i + n < over)%nat).
Proof.
  revert i. induction idle as [|[z k'] idle IH]; intros i; cbn [pick].
  { split; [by intros H%elem_of_nil|by intros (n & z & H & _)]. }
  assert ((k, h) ∈ pick w t over (S i) idle <-> exists n z', (((z, k') :: idle) !! S n : option (Z * string)) = Some (z', k) /\
    handle_at w k = Some h /\ (idle_ttl_ms (pool w) <= sat_sub t z' \/ (i + S n < over)%nat)) as HS.
  { rewrite IH. split; intros (n & z' & H1 & H2 & H3); exists n, z'; (split; [done|]); (split; [done|]); (destruct H3; [by left|right; lia]). }
  destruct (Nat.leb over i && (sat_sub t z <? idle_ttl_ms (pool w))) eqn:Hy.
  - rewrite HS. split; [intros (n & z' & H); by exists (S n), z'|]. intros ([|n] & z' & H1 & H2 & H3); [|by exists n, z'].
    cbn in H1. injection H1 as <- <-. bools. apply Nat.leb_le in H. lia.
  - assert (idle_ttl_ms (pool w) <= sat_sub t z \/ (i + 0 < over)%nat) as Hz.
    { apply andb_false_iff in Hy as [Hy|Hy]; [right; apply Nat.leb_gt in Hy; lia|left; by apply Z.ltb_ge in Hy]. }
    destruct (handle_at w k') as [h'|] eqn:Hh.
    + rewrite elem_of_cons, HS. split.
      * intros [[= -> ->]|(n & z' & H)]; [by exists 0%nat, z|by exists (S n), z'].
      * intros ([|n] & z' & H1 & H2 & H3); [left|right; by exists n, z']. cbn in H1. injection H1 as <- <-. congruence.
    + rewrite HS. split; [intros (n & z' & H); by exists (S n), z'|]. intros ([|n] & z' & H1 & H2 & H3); [|by exists n, z'].
      cbn in H1. injection H1 as <- <-. congruence.
Qed.

Lemma sorted_rank (l : list (Z * string)) n (z : Z) k : StronglySorted older l -> l !! n = Some (z, k) ->
  (length (filter (fun x => (x.1 < z)%Z) l) <= n < length (filter (fun x => (x.1 <= z)%Z) l))%nat.
Proof.
  intros Hs. revert n. induction Hs as [|x l Hs IH Hx]; intros [|n] Hn; cbn in Hn; try done.
  - injection Hn as ->. cbn in Hx. rewrite filter_cons_False, filter_cons_True by (cbn; lia). cbn. split; [|lia].
    assert (filter (fun x => x.1 < z) l = []) as ->; [|done]. clear - Hx. induction Hx as [|y l Hy Hx IH]; [done|].
    rewrite filter_cons_False; [done|]. unfold older in Hy. cbn in Hy. lia.
  - specialize (IH n Hn). assert (x.1 <= z) as Hz.
    { rewrite Forall_forall in Hx. apply (Hx (z, k)). by eapply list_elem_of_lookup_2. }
    rewrite (filter_cons_True (fun x => x.1 <= z)) by done. rewrite filter_cons.
    destruct (decide (x.1 < z)); cbn [length]; lia.
Qed.

Lemma older_total_trans : Transitive older /\ (forall x y, older x y \/ older y x).
Proof. unfold older. split; [intros x y z; lia|intros; lia]. Qed.

Lemma idle_perm w l : idle_of w l ≡ₚ map (fun ks => (used_at w ks.2, ks.1)) (filter (fun ks => eligible w ks = true) l).
Proof. apply merge_sort_Permutation. Qed.

Lemma idle_sorted w l : StronglySorted older (idle_of w l).
Proof. apply StronglySorted_merge_sort; [|intros x y]; apply older_total_trans. Qed.

Lemma idle_count (p : Z -> Prop) `{!forall z, Decision (p z)} w l :
  length (filter (fun x : Z * string => p x.1) (idle_of w l)) = length (filter (fun ks => eligible w ks = true /\ p (used_at w ks.2)) l).
Proof.
  rewrite (idle_perm w l). induction l as [|ks l IH]; [done|]. rewrite !filter_cons.
  destruct (decide (eligible w ks = true)) as [He|He].
  - cbn [map]. rewrite filter_cons. cbn [fst]. destruct (decide (p (used_at w ks.2))).
    + rewrite decide_True by done. cbn. by rewrite IH.
    + rewrite decide_False by tauto. done.
  - rewrite decide_False by tauto. done.
Qed.

Lemma idle_elem w l z k : (z, k) ∈ idle_of w l <-> exists s, (k, s) ∈ l /\ eligible w (k, s) = true /\ z = used_at w s.
Proof.
  rewrite idle_perm, list_elem_of_fmap. split.
  - intros ([k' s] & [= -> ->] & [He Hin]%list_elem_of_filter). by exists s.
  - intros (s & Hin & He & ->). exists (k, s). split; [done|]. by apply list_elem_of_filter.
Qed.

(** A sweep picks entries that were not picked before, whose handle only the pool holds: every one
    idle past the time allowed and, while the pool is over its bound, the least recently used, as
    many as it is over.  It picks no other, and each with its own handle. *)
Theorem evictable_exact w v k h : good_env v w ->
  let over := (size (entries (pool w)) - max_warm (pool w))%nat in
  ((k, h) ∈ picks w v -> exists s, entries (pool w) !! k = Some s /\ cell_of w s = Full h /\
     is_releasing w s = false /\ strong_count w h = 1%nat /\
     (idle_ttl_ms (pool w) <= sat_sub (now v) (used_at w s) \/ (strictly_older w v (used_at w s) < over)%nat)) /\
  (forall s, entries (pool w) !! k = Some s -> cell_of w s = Full h -> is_releasing w s = false -> strong_count w h = 1%nat ->
     idle_ttl_ms (pool w) <= sat_sub (now v) (used_at w s) \/ (no_younger w v (used_at w s) <= over)%nat -> (k, h) ∈ picks w v).
Proof.
  intros Hv over. assert (length (order v) - max_warm (pool w) = over)%nat as Hover.
  { unfold over. unfold good_env in Hv. rewrite Hv. by rewrite length_map_to_list. }
  unfold picks. rewrite Hover, pick_elem. split.
  - intros (n & z & Hn & Hh & Hz). pose proof (sorted_rank _ _ _ _ (idle_sorted w (order v)) Hn) as [Hrk _].
    apply list_elem_of_lookup_2, idle_elem in Hn as (s & Hin & He & ->). unfold good_env in Hv. rewrite Hv in Hin.
    apply elem_of_map_to_list in Hin. apply handle_at_spec in Hh as (s' & Hs' & Hc). assert (s' = s) as -> by congruence.
    exists s. unfold eligible in He. cbn in He. rewrite Hc in He. bools. apply Nat.eqb_eq in H0.
    split; [done|]. split; [done|]. split; [done|]. split; [done|]. destruct Hz as [Hz|Hz]; [by left|right].
    assert (strictly_older w v (used_at w s) = length (filter (fun x => x.1 < used_at w s) (idle_of w (order v)))) as ->; [|lia].
    symmetry. etrans; [|etrans; [apply (idle_count (fun y => y < used_at w s) w (order v))|]]; f_equal; by apply list_filter_iff.
  - intros s Hs Hc Hrel Hcount Hz. assert (eligible w (k, s) = true) as He.
    { unfold eligible. cbn. by rewrite Hrel, Hc, Hcount. }
    assert ((k, s) ∈ order v) as Hin by (unfold good_env in Hv; rewrite Hv; by apply elem_of_map_to_list).
    assert ((used_at w s, k) ∈ idle_of w (order v)) as Hi by (apply idle_elem; by exists s).
    apply list_elem_of_lookup_1 in Hi as [n Hn]. apply pick_elem. exists n, (used_at w s). split; [done|].
    split; [apply handle_at_spec; by exists s|]. destruct Hz as [Hz|Hz]; [by left|right].
    pose proof (sorted_rank _ _ _ _ (idle_sorted w (order v)) Hn) as [_ Hrk].
    assert (no_younger w v (used_at w s) = length (filter (fun x => x.1 <= used_at w s) (idle_of w (order v)))) as Eq; [|lia].
    symmetry. etrans; [|etrans; [apply (idle_count (fun y => y <= used_at w s) w (order v))|]]; f_equal; by apply list_filter_iff.
Qed.
