(* ===== verification/PoolWitness.v ===== *)
(** * PoolWitness: the pool, run by schedules

    A machine for the pool's effects, the statements of [PoolProps] applied to a run of it, and the
    runs in which the pool does not do what its comments say. *)

From S2P Require Import Prelude Text Prog Sched Pool PoolSafe PoolEntries PoolProps.
Local Open Scope string_scope.
Local Open Scope Z_scope.

Definition clock : Z := 1000.
Definition here (w : World) : Env := mkEnv clock (map_to_list (entries (pool w))).

(** One effect; [odd]: the open fails, or the deadline of a join passes. *)
Definition mstep (odd : bool) (t : nat) X (e : pool_eff X) (w : World) : option (X * World) :=
  match e in pool_eff X return option (X * World) with
  | Lock f => f t (here w) w
  | Build k s => if odd then Some (Err (EStore "open"), w) else Some (Ok (fresh w), built t k s w)
  | Status h => Some (dbs w !! h ≫= close_reason, w)
  | CloseDb why h => Some (Ok (), shut t why h w)
  | Flush h => Some (FlushOk, w)
  | Use h => Some (Ok (), w)
  | ListPrefix k => Some (Ok (bool_decide (k ∈ files w)), w)
  | DeleteFiles k => Some (Ok (), on_files (fun fs => fs ∖ {[ k ]}) w)
  | Release k => Some ((), note (Gave t k) w)
  | Sleep _ => Some ((), w)
  | Join i _ => if bool_decide (i ∈ finished w) then Some (true, w) else if odd then Some (false, w) else None
  | Elsewhere k => Some ((), on_files (union {[ k ]}) (fence k w))
  | Dies h => Some ((), on_dbs (alter (close_db Panic) h) w)
  end.

Lemma mstep_psem odd t X (e : pool_eff X) w x w' : True -> mstep odd t X e w = Some (x, w') -> psem t X e w x w'.
Proof.
  intros _ He. destruct e; cbn in He |- *; try (injection He as <- <-; by auto).
  - exists (here w). split; [unfold good_env; done|done].
  - destruct odd; injection He as <- <-; [right; split; [by eexists|by left]|by left].
  - destruct (bool_decide _) eqn:Hb; [|destruct odd; [|done]]; injection He as <- <-; split; try done.
    intros _. by apply bool_decide_eq_true in Hb.
Qed.

Abbreviation drive := (Sched.drive mstep).

Definition start : World := new_pool 0 0 8 true ∅.
Definition outcome (sched : list move) (ps : list (nat * PP unit)) : World :=
  match drive sched ps start with Some (_, w) => w | None => start end.
Definition left_over (sched : list move) (ps : list (nat * PP unit)) : list (nat * PP unit) :=
  match drive sched ps start with Some (ps, _) => ps | None => ps end.

Definition all_entries (ps : list (nat * PP unit)) : Prop := forall tp, tp ∈ ps -> entry tp.1 tp.2.
Lemma pool_entries_nil : all_entries []. Proof. by intros tp ?%elem_of_nil. Qed.
Lemma pool_entries_cons t p ps : entry t p -> all_entries ps -> all_entries ((t, p) :: ps).
Proof. intros Hp Hps tp [->|Htp]%elem_of_cons; [done|by apply Hps]. Qed.

Ltac entries := repeat (apply pool_entries_cons; [lazymatch goal with
  | |- entry _ (request _ _ _ _) => apply entry_request
  | |- entry _ (evict _ _) => apply entry_evict
  | |- entry _ sweeper_turn => apply entry_sweeper
  | |- entry _ close => apply entry_close
  | |- entry _ (run_job _) => apply entry_job
  | |- entry _ (bind (delete_repo _ _) _) => apply entry_delete
  end|]); apply pool_entries_nil.

Lemma pool_outcome_reached sched ps : NoDup ps.*1 -> all_entries ps -> is_some (drive sched ps start) = true ->
  reached start (outcome sched ps) (left_over sched ps).
Proof.
  intros Hnd He Hd. unfold reached, outcome, left_over. destruct (drive sched ps start) as [[ps' w']|] eqn:Hrun; [|done].
  etrans; [by apply (pool_starts psem entry ps start)|].
  exact (drive_steps mstep psem entry (fun _ => True) Logic.I mstep_psem sched ps start ps' w' Logic.I (fun _ _ => Logic.I) Hrun).
Qed.

Ltac reach := apply pool_outcome_reached; [apply (bool_decide_unpack _); vm_compute; exact Logic.I|entries|vm_compute; reflexivity].

Lemma quiet_check w ps : all_ended ps && is_none (head (jobs w)) = true -> quiet w ps.
Proof.
  intros [He Hj]%andb_true_iff. split; [by apply all_ended_spec|]. by destruct (jobs w).
Qed.

(** ** An ordinary day: opened, used, swept, opened again *)
Definition day : list (nat * PP unit) := [
  (1%nat, request None "ann" "site" 2); (2%nat, sweeper_turn); (3%nat, run_job 2); (4%nat, request None "ann" "site" 1)].
Definition day_sched : list move := [Go 1 60; Go 2 60; Go 3 60; Go 4 60].

Lemma evening_reached : reached start (outcome day_sched day) (left_over day_sched day).
Proof. unfold day. reach. Qed.

Lemma day_quiet : quiet (outcome day_sched day) (left_over day_sched day).
Proof. apply quiet_check. vm_compute. reflexivity. Qed.

Lemma day_hist : hist (outcome day_sched day) =
  [Opened 4 "ann/site" 4; Gave 3 "ann/site"; Shut 3 BySweep "ann/site" 1 true 0; Opened 1 "ann/site" 1].
Proof. vm_compute. reflexivity. Qed.

Abbreviation evening := (outcome day_sched day).

Lemma no_database_forgotten_witness : refs evening = [] /\ cell_of evening 3 = Full 4 /\
  (entries (pool evening) !! "ann/site" = Some 3%nat \/
   exists t, (exists h', TookOut t h' 3 ∈ hist evening /\ h' <> 4%nat) \/ Abandoned t 3 ∈ hist evening \/
     (Cleared t 3 ∈ hist evening /\ exists hs, Collected t hs ∈ hist evening /\ 4%nat ∉ hs)).
Proof.
  refine (no_database_forgotten 0 0 8 true ∅ evening (left_over day_sched day) 4 (mkDb "ann/site" 3 None) evening_reached day_quiet _ eq_refl).
  vm_compute. reflexivity.
Defined.

Lemma sweep_spares_requests_witness : 0%nat = 0%nat \/ exists d, dbs evening !! 1%nat = Some d /\ dropped evening (d_slot d) 1.
Proof.
  refine (sweep_spares_requests 0 0 8 true ∅ evening (left_over day_sched day) 3 "ann/site" 1 0 evening_reached _).
  rewrite day_hist. right. right. left.
Defined.

Lemma lease_given_after_close_witness : exists why h b n,
  Shut 3 why "ann/site" h b n ∈ [Shut 3 BySweep "ann/site" 1 true 0; Opened 1 "ann/site" 1].
Proof.
  exact (lease_given_after_close 0 0 8 true ∅ evening (left_over day_sched day) [Opened 4 "ann/site" 4] _ 3 "ann/site" evening_reached day_hist).
Defined.

Lemma evictable_exact_witness : ("ann/site", 4%nat) ∈ picks evening (here evening) /\ ("ann/site", 1%nat) ∉ picks evening (here evening).
Proof.
  split; [|vm_compute; by intros H%elem_of_cons; destruct H as [H|H%elem_of_nil]].
  destruct (evictable_exact evening (here evening) "ann/site" 4) as [_ H]; [unfold good_env; done|].
  apply (H 3%nat); [vm_compute; reflexivity..|left; vm_compute; discriminate].
Defined.

(** ** A lease given back under an open database

    [close_all] takes the entry out of the map before it closes the handle.  A request in between
    opens the repository again on this node, and the retire goes on to give its lease back. *)
Definition reopened : list (nat * PP unit) := [
  (1%nat, request None "ann" "site" 1); (2%nat, sweeper_turn); (3%nat, run_job 2); (4%nat, request None "ann" "site" 1)].
Definition reopened_sched : list move := [Go 1 60; Go 2 60; Go 3 3; Go 4 60; Go 3 60].

Theorem lease_given_under_an_open :
  let w := outcome reopened_sched reopened in
  reached start w (left_over reopened_sched reopened) /\ quiet w (left_over reopened_sched reopened) /\
  hist w = [Gave 3 "ann/site"; Shut 3 BySweep "ann/site" 1 false 0; Opened 4 "ann/site" 4; Opened 1 "ann/site" 1] /\
  entries (pool w) !! "ann/site" = Some 3%nat /\ live <$> dbs w !! 4%nat = Some true.
Proof.
  split; [unfold reopened; reach|]. split; [apply quiet_check; vm_compute; reflexivity|]. vm_compute. done.
Qed.

(** ** A healthy database forgotten

    [close_all] removes by key, not by the slot it picked.  Evicted and opened again during the drain,
    the repository's new entry is the one that goes: its database stays open with nothing to close it,
    and the lease it runs on is given back. *)
Definition replaced : list (nat * PP unit) := [
  (1%nat, request None "ann" "site" 1); (2%nat, sweeper_turn); (3%nat, run_job 2); (4%nat, evict "ann" "site");
  (5%nat, run_job 3); (6%nat, request None "ann" "site" 1)].
Definition replaced_sched : list move := [Go 1 60; Go 2 60; Go 3 2; Go 4 2; Go 5 60; Go 4 60; Go 6 60; Go 3 60].

Theorem retire_forsakes_the_successor :
  let w := outcome replaced_sched replaced in
  reached start w (left_over replaced_sched replaced) /\ quiet w (left_over replaced_sched replaced) /\
  hist w = [Gave 3 "ann/site"; Shut 3 BySweep "ann/site" 1 false 0; TookOut 3 1 4; Opened 6 "ann/site" 5;
            Shut 5 ByEntry "ann/site" 1 true 0; Opened 1 "ann/site" 1] /\
  entries (pool w) !! "ann/site" = None /\ live <$> dbs w !! 5%nat = Some true.
Proof.
  split; [unfold replaced; reach|]. split; [apply quiet_check; vm_compute; reflexivity|]. vm_compute. done.
Qed.

(** ** A failure seen late

    [get_once] drops its slot after a failed open if the map still names it, without looking whether
    another task has opened the database in that slot since. *)
Definition late_failure : list (nat * PP unit) := [(1%nat, request None "ann" "site" 1); (2%nat, request None "ann" "site" 1)].
Definition late_failure_sched : list move := [Go 1 5; Odd 1; Go 1 1; Go 2 60; Go 1 60].

Theorem late_failure_forgets :
  let w := outcome late_failure_sched late_failure in
  reached start w (left_over late_failure_sched late_failure) /\ quiet w (left_over late_failure_sched late_failure) /\
  hist w = [Abandoned 1 0; Opened 2 "ann/site" 1] /\ entries (pool w) !! "ann/site" = None /\ live <$> dbs w !! 1%nat = Some true.
Proof.
  split; [unfold late_failure; reach|]. split; [apply quiet_check; vm_compute; reflexivity|]. vm_compute. done.
Qed.

(** ** An open the shutdown forgets

    [close] leaves an entry whose open is in flight to the last [clear], as one "whose open never
    completed".  One that completes during the drain is cleared too, open. *)
Definition late_open : list (nat * PP unit) := [(1%nat, request None "ann" "site" 1); (2%nat, close)].
Definition late_open_sched : list move := [Go 1 5; Go 2 5; Go 1 60; Go 2 60].

Theorem shutdown_forgets_an_open :
  let w := outcome late_open_sched late_open in
  reached start w (left_over late_open_sched late_open) /\ quiet w (left_over late_open_sched late_open) /\
  closed (pool w) = true /\ entries (pool w) = ∅ /\ live <$> dbs w !! 1%nat = Some true.
Proof.
  split; [unfold late_open; reach|]. split; [apply quiet_check; vm_compute; reflexivity|]. vm_compute. done.
Qed.

(** ** A request fenced by its own node

    An eviction that lands in the middle of an open removes the slot and, at its deadline, moves on.
    The next request opens a slot of its own; then the first open, which had passed its checks, is
    done, and fences it. *)
Definition overtaken : list (nat * PP unit) := [
  (1%nat, request None "ann" "site" 1); (2%nat, evict "ann" "site"); (3%nat, request None "ann" "site" 1); (4%nat, run_job 1)].
Definition overtaken_sched : list move := [Go 1 5; Go 2 2; Odd 2; Go 3 60; Go 1 60; Go 4 60].

Theorem own_open_fences :
  let w := outcome overtaken_sched overtaken in
  reached start w (left_over overtaken_sched overtaken) /\ quiet w (left_over overtaken_sched overtaken) /\
  hist w = [Shut 1 ByEntry "ann/site" 4 true 0; Opened 1 "ann/site" 4; Opened 3 "ann/site" 3] /\
  entries (pool w) !! "ann/site" = Some 2%nat /\ cell_of w 2 = Full 3 /\ (dbs w !! 3%nat ≫= close_reason) = Some Fenced.
Proof.
  split; [unfold overtaken; reach|]. split; [apply quiet_check; vm_compute; reflexivity|]. vm_compute. done.
Qed.

(** ** Two deletes

    [deleting] is a set: the first of two deletes to end takes the mark away for both, and an open then
    runs while the other still deletes. *)
Definition twice : list (nat * PP unit) := [
  (1%nat, request None "ann" "site" 1); (2%nat, let! _ := delete_repo "ann" "site" in Ret ());
  (3%nat, let! _ := delete_repo "ann" "site" in Ret ()); (4%nat, run_job 2); (5%nat, request None "ann" "site" 1)].
Definition twice_sched : list move := [Go 1 60; Go 2 3; Go 3 2; Go 4 60; Go 2 60; Go 5 60; Go 3 60].

Theorem second_delete_unguarded :
  let w := outcome twice_sched twice in
  reached start w (left_over twice_sched twice) /\ quiet w (left_over twice_sched twice) /\
  (exists s h, entries (pool w) !! "ann/site" = Some s /\ cell_of w s = Full h /\ live <$> dbs w !! h = Some true) /\
  "ann/site" ∉ files w.
Proof.
  split; [unfold twice; reach|]. split; [apply quiet_check; vm_compute; reflexivity|].
  split; [exists 3%nat, 4%nat; vm_compute; done|]. apply (bool_decide_unpack _). vm_compute. exact Logic.I.
Qed.
