(* ===== verification/Cluster.v ===== *)
(** * Cluster: the objects of a region's cluster, and the requests made about them

    What the removal of a departed member's workspaces runs on: [Workspace] and [SpaceEnvironment]
    objects and two [Lease]s behind the Kubernetes API server, the directory's answers, clocks, and
    the term each controller believes it was elected under.  The API server is the environment's:
    [cluster_sem] says what its documentation says of a list, a merge patch, a forced server-side
    apply, a replace under a resourceVersion and a delete under preconditions, and that any of them
    may fail, or be done and not answered.  [hist] is what was asked and answered, newest first; no
    code reads it. *)

From S2P Require Import Prelude Text Names Prog.
Local Open Scope string_scope.
Local Open Scope Z_scope.

(** ** Objects, [crates/workspaces/src/crd] *)

Inductive kind := Workspace | SpaceEnvironment.
Inductive Access := Full | Paused.
Inductive DesiredState := Running | Stopped.

(** An entry of [metadata.managedFields]: who, and which annotations its [fieldsV1] lists. *)
Record ManagedFields := mkManaged { manager : option string; fields_v1 : option (gset string) }.

(** The API server gives every object a uid and a resourceVersion; revisions are numbered. *)
Record ObjectMeta := mkMeta {
  name : string;
  uid : nat;
  resource_version : nat;
  deletion_timestamp : option Z;
  annotations : gmap string string;
  managed_fields : list ManagedFields;
}.

(** What only a workspace has; [attached] is [crd::attached_environment]'s answer. *)
Record WorkspaceSpec := mkSpec {
  access : Access;
  desired_state : DesiredState;
  bench : bool;
  attached : option string;
}.

Record object := mkObject { metadata : ObjectMeta; owner : string; team : string; spec : option WorkspaceSpec }.

#[global] Instance kind_eq_dec : EqDecision kind. Proof. solve_decision. Defined.
#[global] Instance kind_countable : Countable kind.
Proof.
  refine (inj_countable' (fun k => match k with Workspace => true | SpaceEnvironment => false end)
    (fun b => if b : bool then Workspace else SpaceEnvironment) _). by intros [].
Defined.
#[global] Instance Access_eq_dec : EqDecision Access. Proof. solve_decision. Defined.
#[global] Instance DesiredState_eq_dec : EqDecision DesiredState. Proof. solve_decision. Defined.
#[global] Instance ManagedFields_eq_dec : EqDecision ManagedFields. Proof. solve_decision. Defined.
#[global] Instance ObjectMeta_eq_dec : EqDecision ObjectMeta. Proof. solve_decision. Defined.
#[global] Instance WorkspaceSpec_eq_dec : EqDecision WorkspaceSpec. Proof. solve_decision. Defined.
#[global] Instance object_eq_dec : EqDecision object. Proof. solve_decision. Defined.

Definition REMOVED_AT : string := "kloudlite.io/removed-at".
Definition DELETE_NOW : string := "kloudlite.io/delete-now".
(** RFC 3339; the controller deletes the object once this is past. *)
Definition DELETE_AFTER : string := "kloudlite.io/delete-after".
Definition MEMBERSHIP_FIELD_MANAGER : string := "kloudlite-membership".
Definition stamps : list string := [REMOVED_AT; DELETE_NOW; DELETE_AFTER].

(** [crd::is_bench]. *)
Definition is_bench (x : object) : bool := is_some_and (spec x) bench.

(** The annotation, only when [kloudlite-membership] owns it. *)
Definition lists (key : string) (f : ManagedFields) : bool :=
  is_some_and (fields_v1 f) (fun s => bool_decide (key ∈ s)).
Definition owned (key : string) (f : ManagedFields) : bool :=
  bool_decide (manager f = Some MEMBERSHIP_FIELD_MANAGER) && lists key f.
Definition system_annotation (m : ObjectMeta) (key : string) : option string :=
  if any (owned key) (managed_fields m) then annotations m !! key else None.

(** ** Leases, the [coordination.k8s.io/v1] kind; times in nanoseconds *)
Record LeaseSpec := mkLeaseSpec {
  holder_identity : option string;
  lease_duration_seconds : option Z;
  lease_transitions : option Z;
  renew_time : option Z;
  acquire_time : option Z;
}.
Record Lease := mkLease { lease_rv : nat; lease_spec : option LeaseSpec }.

Definition as_second (ns : Z) : Z := Z.quot ns 1000000000.
Definition as_millisecond (ns : Z) : Z := Z.quot ns 1000000.

(** Times on the wire, which are printed and parsed by libraries: chrono prints and parses in the
    api, jiff parses in the controller. *)
Class Rfc3339 := {
  to_rfc3339 : Z -> string;
  chrono_seconds : string -> option Z;
  jiff_seconds : string -> option Z;
  chrono_printed : forall ns, 0 <= ns < 2 ^ 64 -> chrono_seconds (to_rfc3339 ns) = Some (ns / 1000000000);
  jiff_printed : forall ns, 0 <= ns < 2 ^ 64 -> jiff_seconds (to_rfc3339 ns) = Some (ns / 1000000000);
}.

(** ** The directory's answers, [crates/workspaces/src/api/state.rs] *)
Inductive MemberState := Active | MPaused.
Inductive Judged := TeamGone | NotMember | Member (s : MemberState).
Inductive TeamRole := RMember | RAdmin | ROwner.
Inductive OwnerKind := Person | Team | Gone.

#[global] Instance MemberState_eq_dec : EqDecision MemberState. Proof. solve_decision. Defined.
#[global] Instance Judged_eq_dec : EqDecision Judged. Proof. solve_decision. Defined.
#[global] Instance TeamRole_eq_dec : EqDecision TeamRole. Proof. solve_decision. Defined.

Definition rank (r : TeamRole) : Z := match r with RMember => 0 | RAdmin => 1 | ROwner => 2 end.
(** Not in the team, in the directory's own words. *)
Definition away (j : Judged) : bool := match j with NotMember | TeamGone => true | Member _ => false end.

(** ** Requests *)

(** [kube::Result]: an answer, a status of the API server's, or no answer. *)
Inductive kube (A : Type) := KOk (a : A) | KApi (code : Z) (text : string) | KFail (text : string).
Arguments KOk {A} a.
Arguments KApi {A} code text.
Arguments KFail {A} text.

(** A listing: a kind whose CRD is not applied has no objects. *)
Definition items (r : kube (list object)) : option (list object) :=
  match r with KOk l => Some l | KApi 404 _ => Some [] | _ => None end.
Definition kube_text {A} (r : kube A) : string := match r with KOk _ => "" | KApi _ e | KFail e => e end.

(** The two merge patches: [spec.access] with or without [spec.desiredState], and the three stamps
    set to null. *)
Inductive patch := PSpec (a : Access) (d : option DesiredState) | PClear.

(** [KDropPolicy] is the delete of a workspace's attach policy in an environment's namespace,
    [KDropSecret] of a pair's tool-token Secret; neither is state here. *)
Inductive KE : Type -> Type :=
| KList (k : kind) : KE (kube (list object))
| KPatch (k : kind) (n : string) (p : patch) : KE (kube unit)
| KApply (k : kind) (n : string) (a : gmap string string) : KE (kube unit)
| KDelete (k : kind) (n : string) (uid rv : nat) : KE (kube unit)
| KDropPolicy (env ws : string) : KE (kube unit)
| KDropSecret (owner team : string) : KE (kube unit)
| KGetLease : KE (kube (option Lease))
| KReplaceLease (l : Lease) : KE (kube Lease)
| KCreateLease (s : LeaseSpec) : KE (kube Lease)
| KGetBeat : KE (kube (option Lease))
| KApplyBeat (s : LeaseSpec) : KE (kube unit)
| KSwitch : KE (kube (option (option bool)))
| DMembership (t u : string) : KE (Judged + string)
| DOwnerKind (s : string) : KE (OwnerKind + string)
| DSuperadmin (u : string) : KE (bool + string)
| DRole (u t : string) : KE (option TeamRole)
| Now : KE Z
| LoadEpoch : KE Z
| SwapEpoch (e : Z) : KE Z
| LoadDeletes : KE bool
| ForgetVerdict (t u : string) : KE unit
| Audit (who action target : string) : KE unit
| Others : KE unit.

Abbreviation kprog := (prog KE).

(** What happened.  A pair is (owner, team). *)
Inductive event :=
| Told (t : nat) (p : string * string) (j : Judged)
| Ranked (t : nat) (u te : string) (r : option TeamRole)
| Super (t : nat) (u : string) (b : bool)
| Clocked (t : nat) (ns : Z)
| Listed (t : nat) (k : kind) (l : list object)
| Marked (t : nat) (k : kind) (x : object) (a : gmap string string)
| Wrote (t : nat) (holder : option string) (term : option Z)
| Saw (t : nat) (l : option Lease)
| Loaded (t : nat) (e : Z)
| SawBeat (t : nat) (l : option Lease)
| Beat (t : nat) (s : LeaseSpec)
| Deleted (t : nat) (k : kind) (x : object).

#[global] Instance LeaseSpec_eq_dec : EqDecision LeaseSpec. Proof. solve_decision. Defined.
#[global] Instance Lease_eq_dec : EqDecision Lease. Proof. solve_decision. Defined.
#[global] Instance event_eq_dec : EqDecision event. Proof. solve_decision. Defined.

(** [home]: the owner and team an object of this name has. *)
Record World := mkWorld {
  objs : gmap (kind * string) object;
  revision : nat;
  lease : option Lease;
  beat : option Lease;
  epochs : gmap string Z;
  roster : string * string -> Judged;
  home : kind * string -> string * string;
  hist : list event;
}.

Definition actor (e : event) : nat :=
  match e with
  | Told t _ _ | Ranked t _ _ _ | Super t _ _ | Clocked t _ | Listed t _ _ | Marked t _ _ _
  | Wrote t _ _ | Saw t _ | Loaded t _ | SawBeat t _ | Beat t _ | Deleted t _ _ => t
  end.

Definition set_objs (m : gmap (kind * string) object) (w : World) : World :=
  mkWorld m (S (revision w)) (lease w) (beat w) (epochs w) (roster w) (home w) (hist w).
Definition set_lease (l : Lease) (w : World) : World :=
  mkWorld (objs w) (S (revision w)) (Some l) (beat w) (epochs w) (roster w) (home w) (hist w).
Definition set_beat (l : Lease) (w : World) : World :=
  mkWorld (objs w) (S (revision w)) (lease w) (Some l) (epochs w) (roster w) (home w) (hist w).
Definition set_epoch (p : string) (e : Z) (w : World) : World :=
  mkWorld (objs w) (revision w) (lease w) (beat w) (<[p := e]> (epochs w)) (roster w) (home w) (hist w).
Definition set_roster (r : string * string -> Judged) (w : World) : World :=
  mkWorld (objs w) (revision w) (lease w) (beat w) (epochs w) r (home w) (hist w).
Definition note (e : event) (w : World) : World :=
  mkWorld (objs w) (revision w) (lease w) (beat w) (epochs w) (roster w) (home w) (e :: hist w).
Definition epoch_of (w : World) (p : string) : Z := default 0 (epochs w !! p).

(** ** What a write does to an object *)
Definition with_meta (f : ObjectMeta -> ObjectMeta) (x : object) : object :=
  mkObject (f (metadata x)) (owner x) (team x) (spec x).
Definition revised (rv : nat) (x : object) : object :=
  with_meta (fun m => mkMeta (name m) (uid m) rv (deletion_timestamp m) (annotations m) (managed_fields m)) x.
Definition dying (at_ : Z) (x : object) : object :=
  with_meta (fun m => mkMeta (name m) (uid m) (resource_version m) (Some at_) (annotations m) (managed_fields m)) x.

(** Annotations nobody lists any more, of those [f] listed. *)
Definition disown (keys : gset string) (f : ManagedFields) : ManagedFields :=
  mkManaged (manager f) ((fun s => s ∖ keys) <$> fields_v1 f).
Definition from_membership (f : ManagedFields) : bool := bool_decide (manager f = Some MEMBERSHIP_FIELD_MANAGER).

(** A merge patch of nulls removes the annotations, and with them their owners. *)
Definition clear_meta (m : ObjectMeta) : ObjectMeta :=
  let keys := list_to_set stamps : gset string in
  mkMeta (name m) (uid m) (resource_version m) (deletion_timestamp m)
    (filter (fun kv => kv.1 ∉ keys) (annotations m)) (disown keys <$> managed_fields m).

(** A forced server-side apply: the manager owns exactly what the body has; what only it owned and
    the body has not is removed; others keep what was not changed under them. *)
Definition apply_meta (a : gmap string string) (m : ObjectMeta) : ObjectMeta :=
  let others := base.filter (fun f => from_membership f = false) (managed_fields m) in
  let changed : gset string := base.filter (fun k => annotations m !! k <> a !! k) (dom a) in
  let dropped (k : string) := a !! k = None /\ any (owned k) (managed_fields m) = true /\ any (lists k) others = false in
  mkMeta (name m) (uid m) (resource_version m) (deletion_timestamp m)
    (a ∪ base.filter (fun kv => ~ dropped kv.1) (annotations m))
    (mkManaged (Some MEMBERSHIP_FIELD_MANAGER) (Some (dom a)) :: (disown changed <$> others)).

Definition set_access (a : Access) (d : option DesiredState) (s : WorkspaceSpec) : WorkspaceSpec :=
  mkSpec a (default (desired_state s) d) (bench s) (attached s).
Definition patched (p : patch) (x : object) : object :=
  match p with
  | PSpec a d => mkObject (metadata x) (owner x) (team x) (set_access a d <$> spec x)
  | PClear => with_meta clear_meta x
  end.

(** ** The meaning of a request *)

(** A write that changes nothing leaves the revision. *)
Definition stored (k : kind) (x x' : object) (w : World) : World :=
  if decide (x' = x) then w else set_objs (<[(k, name (metadata x)) := revised (revision w) x']> (objs w)) w.

Definition patch_done (k : kind) (n : string) (p : patch) (w w' : World) : Prop :=
  exists x, objs w !! (k, n) = Some x /\ w' = stored k x (patched p x) w.
Definition apply_done (t : nat) (k : kind) (n : string) (a : gmap string string) (w w' : World) : Prop :=
  exists x, objs w !! (k, n) = Some x /\ w' = note (Marked t k x a) (stored k x (with_meta (apply_meta a) x) w).
(** Gone at once, or, where a finalizer holds it, marked to go. *)
Definition delete_done (t : nat) (k : kind) (n : string) (u rv : nat) (w w' : World) : Prop :=
  exists x, objs w !! (k, n) = Some x /\ uid (metadata x) = u /\ resource_version (metadata x) = rv /\
    (w' = note (Deleted t k x) (set_objs (delete (k, n) (objs w)) w) \/
     exists at_, w' = note (Deleted t k x) (stored k x (dying at_ x) w)).
Definition lease_done (t : nat) (s : option LeaseSpec) (w : World) (l : Lease) (w' : World) : Prop :=
  l = mkLease (revision w) s /\
  w' = note (Wrote t (s ≫= holder_identity) (s ≫= lease_transitions)) (set_lease l w).

(** Done and answered, refused and not done, or not answered. *)
Definition attempt {A} (done_ : A -> World -> Prop) (w : World) (r : kube A) (w' : World) : Prop :=
  match r with
  | KOk a => done_ a w'
  | KApi _ _ => w' = w
  | KFail _ => w' = w \/ exists a, done_ a w'
  end.

(** What everybody else may do: create, edit and delete objects, change who is in a team, restart a
    controller.  Nobody else writes as [kloudlite-membership], a name belongs to one owner and team
    (a workspace's is random, a space's made from both), and the two leases are written by their
    programs alone. *)
Definition edited (x y : object) : Prop :=
  uid (metadata y) = uid (metadata x) /\
  forall key v, system_annotation (metadata y) key = Some v -> system_annotation (metadata x) key = Some v.
Definition unmarked (y : object) : Prop := forall key, key ∈ stamps -> system_annotation (metadata y) key = None.
Record outside (w w' : World) : Prop := {
  o_hist : hist w' = hist w;
  o_lease : lease w' = lease w;
  o_beat : beat w' = beat w;
  o_revision : (revision w <= revision w')%nat;
  o_epochs : forall p, epoch_of w' p = epoch_of w p \/ epoch_of w' p = 0;
  o_home : home w' = home w;
  o_objs : forall k n y, objs w' !! (k, n) = Some y -> objs w !! (k, n) = Some y \/
    (name (metadata y) = n /\ (owner y, team y) = home w (k, n)) /\ (revision w <= resource_version (metadata y) < revision w')%nat /\
    (unmarked y \/ exists x, objs w !! (k, n) = Some x /\ edited x y);
}.

(** A clock is read after 1970 and before 2262. *)
Definition clock_ok (ns : Z) : Prop := 0 <= ns < 2 ^ 63.

Section sem.
(** The controller a task belongs to. *)
Variable pod : nat -> string.

Definition cluster_sem (t : nat) X (e : KE X) (w : World) : X -> World -> Prop :=
  match e in KE X return X -> World -> Prop with
  | KList k => fun r w' => match items r with
      | Some l => NoDup l /\ (forall x, x ∈ l <-> objs w !! (k, name (metadata x)) = Some x) /\ w' = note (Listed t k l) w
      | None => w' = w
      end
  | KPatch k n p => attempt (fun _ => patch_done k n p w) w
  | KApply k n a => attempt (fun _ => apply_done t k n a w) w
  | KDelete k n u rv => attempt (fun _ => delete_done t k n u rv w) w
  | KDropPolicy _ _ => fun _ w' => w' = w
  | KDropSecret _ _ => fun _ w' => w' = w
  | KGetLease => fun r w' => match r with KOk l => l = lease w /\ w' = note (Saw t l) w | _ => w' = w end
  | KReplaceLease l =>
      attempt (fun l' w' => (exists cur, lease w = Some cur /\ lease_rv cur = lease_rv l) /\ lease_done t (lease_spec l) w l' w') w
  | KCreateLease s => attempt (fun l' w' => lease w = None /\ lease_done t (Some s) w l' w') w
  | KGetBeat => fun r w' => match r with KOk l => l = beat w /\ w' = note (SawBeat t l) w | _ => w' = w end
  | KApplyBeat s => attempt (fun _ w' => w' = note (Beat t s) (set_beat (mkLease (revision w) (Some s)) w)) w
  | KSwitch => fun _ w' => w' = w
  | DMembership te u => fun r w' => match r with
      | inl j => j = roster w (u, te) /\ w' = note (Told t (u, te) j) w
      | inr _ => w' = w
      end
  | DOwnerKind _ => fun _ w' => w' = w
  | DSuperadmin u => fun r w' => match r with inl b => w' = note (Super t u b) w | inr _ => w' = w end
  | DRole u te => fun r w' => w' = note (Ranked t u te r) w
  | Now => fun ns w' => clock_ok ns /\ w' = note (Clocked t ns) w
  | LoadEpoch => fun z w' => z = epoch_of w (pod t) /\ w' = note (Loaded t z) w
  | SwapEpoch z => fun z0 w' => z0 = epoch_of w (pod t) /\ w' = set_epoch (pod t) z w
  | LoadDeletes => fun _ w' => w' = w
  | ForgetVerdict _ _ => fun _ w' => w' = w
  | Audit _ _ _ => fun _ w' => w' = w
  | Others => fun _ w' => outside w w'
  end.
End sem.

(** ** What stamps a write leaves *)

Lemma any_fmap_disown keys key l : any (owned key) (disown keys <$> l) = true ->
  any (owned key) l = true /\ key ∉ keys.
Proof.
  rewrite !any_spec. intros (f' & [f [-> Hf]]%list_elem_of_fmap & Ho). unfold owned, lists, disown in Ho. cbn in Ho. bools.
  destruct (fields_v1 f) as [s|] eqn:E; [|done]. cbn in *. bools. set_unfold. destruct H0 as [Hs Hk].
  split; [|done]. exists f. split; [done|]. unfold owned, lists. rewrite E. cbn. apply andb_true_iff.
  by split; apply bool_decide_eq_true.
Qed.

Lemma clear_unmarked m key : key ∈ stamps -> system_annotation (clear_meta m) key = None.
Proof.
  intros Hk. unfold system_annotation, clear_meta. cbn [managed_fields annotations].
  destruct (any _ _) eqn:Ha; [|done]. apply any_fmap_disown in Ha as [_ Hn]. destruct Hn. by apply elem_of_list_to_set.
Qed.

Lemma apply_stamps a m key : system_annotation (apply_meta a m) key = a !! key.
Proof.
  unfold system_annotation, apply_meta. cbn [managed_fields annotations].
  set (others := base.filter (fun f => from_membership f = false) (managed_fields m)).
  destruct (a !! key) as [v|] eqn:Ea.
  - replace (any _ _) with true; [by apply lookup_union_Some_l|]. symmetry. apply any_spec.
    eexists. split; [left|]. unfold owned, lists. cbn. rewrite bool_decide_eq_true_2 by done.
    rewrite bool_decide_eq_true_2; [done|]. by apply elem_of_dom_2 in Ea.
  - replace (any _ _) with false; [done|]. symmetry. apply any_false. intros f [->|Hf]%elem_of_cons.
    + unfold owned, lists. cbn. rewrite (bool_decide_eq_false_2 (key ∈ dom a)); [by rewrite andb_false_r|].
      by apply not_elem_of_dom.
    + apply list_elem_of_fmap in Hf as (f0 & -> & Hf0). apply list_elem_of_filter in Hf0 as [Hm _].
      unfold owned, disown. cbn. unfold from_membership in Hm. by rewrite Hm.
Qed.

