(* ===== verification/Controller.v ===== *)
(** * Controller: the cluster controller's election and its removal GC, [bins/controller/src]

    [lease.rs] (the term, kept in a Lease under the API server's compare-and-swap), one beat of
    [lib.rs]'s election, [space.rs]'s fence before a write, and [gc.rs]: the one thing that deletes
    a departed member's workspaces. *)

From S2P Require Import Prelude Text Names Prog Cluster.
Local Open Scope string_scope.
Local Open Scope Z_scope.

(** ** [lease.rs] *)

(** [TTL] in milliseconds. *)
Definition TTL : Z := 15 * 1000.

Record View := mkView { holder : string; transitions : Z; renewed_ms : Z }.
Inductive Step := Acquire (epoch : Z) | Renew (epoch : Z) | Wait.

#[global] Instance View_eq_dec : EqDecision View. Proof. solve_decision. Defined.
#[global] Instance Step_eq_dec : EqDecision Step. Proof. solve_decision. Defined.

Definition u32_max : Z := 2 ^ 32 - 1.
(** [saturating_add] on a [u32], and [as i32]. *)
Definition sat_add32 (a b : Z) : Z := Z.min u32_max (a + b).
Definition as_i32 (z : Z) : Z := (z + 2 ^ 31) mod 2 ^ 32 - 2 ^ 31.

Definition lease_decide (now_ms : Z) (me : string) (cur : option View) : Step :=
  match cur with
  | None => Acquire 1
  | Some c =>
    let live := now_ms <=? sat_add64 (renewed_ms c) TTL in
    match live, String.eqb (holder c) me with
    | true, true => Renew (transitions c)
    | true, false => Wait
    | false, _ => Acquire (sat_add32 (transitions c) 1)
    end
  end.

(** [lease::may_write]. *)
Definition term_matches (epoch : Z) (cur : option View) : bool :=
  is_some_and cur (fun c => transitions c =? epoch).

Definition view (l : Lease) : option View :=
  s ← lease_spec l;
  Some (mkView (default "" (holder_identity s)) (Z.max 0 (default 0 (lease_transitions s)))
    (default 0 ((fun t => Z.max 0 (as_millisecond t)) <$> renew_time s))).

(** [and_then(lease::view)]. *)
Definition view_of (cur : option Lease) : option View := cur ≫= view.

Definition term_spec (me : string) (step : Step) (epoch : Z) (cur : option Lease) (now : Z) : LeaseSpec :=
  mkLeaseSpec (Some me) (Some (TTL / 1000)) (Some (as_i32 epoch)) (Some now)
    (match step with
     | Acquire _ => Some now
     | _ => (cur ≫= lease_spec) ≫= acquire_time
     end).

(** A 409 is no error: somebody else won the round. *)
Definition won (r : kube Lease) : option Lease + string :=
  match r with
  | KOk l => inl (Some l)
  | KApi 409 _ => inl None
  | KApi _ e | KFail e => inr e
  end.

Definition write (me : string) (step : Step) (cur : option Lease) (now : Z) : kprog (option Lease + string) :=
  match step with
  | Wait => Ret (inl None)
  | Acquire epoch | Renew epoch =>
    let s := term_spec me step epoch cur now in
    match cur with
    | Some existing => let! r := trigger (KReplaceLease (mkLease (lease_rv existing) (Some s))) in Ret (won r)
    | None => let! r := trigger (KCreateLease s) in Ret (won r)
    end
  end.

Definition blanked (s : LeaseSpec) : LeaseSpec :=
  mkLeaseSpec (Some "") (lease_duration_seconds s) (lease_transitions s) None (acquire_time s).
Definition release (me : string) : kprog unit :=
  let! r := trigger KGetLease in
  match r with
  | KOk (Some cur) =>
    if is_some_and (view cur) (fun v => negb (String.eqb (holder v) me)) then Ret tt
    else trigger (KReplaceLease (mkLease (lease_rv cur) (blanked <$> lease_spec cur))) ;;! Ret tt
  | _ => Ret tt
  end.

(** ** [ctx.rs] and [lib.rs] *)
Definition promote (epoch : Z) : kprog unit := trigger (SwapEpoch epoch) ;;! Ret tt.
Definition demote : kprog unit := trigger (SwapEpoch 0) ;;! Ret tt.
Definition leading : kprog bool := let! e := trigger LoadEpoch in Ret (negb (e =? 0)).

Definition tick_once (me : string) : kprog unit :=
  let! r := trigger KGetLease in
  match r with
  | KOk cur =>
    let! now := trigger Now in
    let now_ms := Z.max 0 (as_millisecond now) in
    match lease_decide now_ms me (view_of cur) with
    | Wait => demote
    | step =>
      let! w := write me step cur now in
      match w with
      | inl (Some l) =>
        match view l with
        | Some v =>
          if String.eqb (holder v) me
          then if transitions v =? 0 then demote else promote (transitions v)
          else demote
        | None => demote
        end
      | inl None => demote
      | inr _ => demote
      end
    end
  | _ => demote
  end.

(** [run]'s way out. *)
Definition shut_down (me : string) : kprog unit := demote ;;! release me.

(** [Config::check], of the pod's name. *)
Definition check_holder (h : string) : bool := negb (String.eqb h "").

(** ** [space.rs]: the fence *)
Definition may_write : kprog bool :=
  let! l := leading in
  if negb l then Ret false
  else
    let! r := trigger KGetLease in
    match r with
    | KOk cur =>
      let! e := trigger LoadEpoch in
      if term_matches e (view_of cur) then Ret true else demote ;;! Ret false
    | _ => demote ;;! Ret false
    end.

(** ** [gc.rs] *)
Definition KEYS_RESYNC_SECS : Z := 300.
Definition GC_DELETE_SLACK_SECS : Z := KEYS_RESYNC_SECS + 60.
Definition DELETE_SLACK_SECS : Z := GC_DELETE_SLACK_SECS.

Record Due := mkDue { d_kind : kind; d_name : string; d_uid : nat; d_rv : nat; d_env : option string }.
#[global] Instance Due_eq_dec : EqDecision Due. Proof. solve_decision. Defined.

Section times.
Context `{!Rfc3339}.

Definition due (k : kind) (now : Z) (x : object) : option Due :=
  let m := metadata x in
  if is_some (deletion_timestamp m) then None
  else
    at_ ← system_annotation m DELETE_AFTER;
    secs ← jiff_seconds at_;
    if secs + DELETE_SLACK_SECS <=? now
    then Some (mkDue k (name m) (uid m) (resource_version m) (spec x ≫= attached))
    else None.

Definition list_of (k : kind) : kprog (list object + string) :=
  let! r := trigger (KList k) in
  Ret match items r with Some l => inl l | None => inr (kube_text r) end.

Definition beat_fresh (l : option Lease) (now : Z) : bool :=
  let max := 2 * KEYS_RESYNC_SECS in
  is_some_and ((l ≫= lease_spec) ≫= renew_time) (fun t => now - as_second t <=? max).

Definition beat_alive (now : Z) : kprog bool :=
  let! r := trigger KGetBeat in
  Ret match r with KOk l => beat_fresh l now | _ => false end.

(** Benches first, then the rest, then the space choices. *)
Definition todo_of (now : Z) (workspaces spaces : list object) : list Due :=
  (omap (due Workspace now) (base.filter (fun x => is_bench x = true) workspaces) ++
   omap (due Workspace now) (base.filter (fun x => is_bench x = false) workspaces) ++
   omap (due SpaceEnvironment now) spaces)%list.

Definition delete_one (d : Due) : kprog unit :=
  let! r := trigger (KDelete (d_kind d) (d_name d) (d_uid d) (d_rv d)) in
  match r with
  | KOk _ =>
    match d_env d with
    | Some env => trigger (KDropPolicy env (d_name d)) ;;! Ret tt
    | None => Ret tt
    end
  | _ => Ret tt
  end.

(** With the switch off every due object is only logged. *)
Fixpoint delete_due (on : bool) (todo : list Due) : kprog unit :=
  match todo with
  | [] => Ret tt
  | d :: todo =>
    if negb on then delete_due on todo
    else
      let! ok := may_write in
      if negb ok then Ret tt else delete_one d ;;! delete_due on todo
  end.

Definition pass (now : Z) : kprog unit :=
  let! ws := list_of Workspace in
  match ws with
  | inr _ => Ret tt
  | inl workspaces =>
    let! ss := list_of SpaceEnvironment in
    match ss with
    | inr _ => Ret tt
    | inl spaces =>
      let todo := todo_of now workspaces spaces in
      let! on := trigger LoadDeletes in
      let! alive := (if on && negb (bool_decide (todo = [])) then beat_alive now else Ret true) in
      if negb alive then Ret tt else delete_due on todo
    end
  end.

(** One turn of [run]'s loop. *)
Definition gc_tick : kprog unit :=
  let! l := leading in
  if l then let! now := trigger Now in pass (as_second now) else Ret tt.
End times.
