(* ===== verification/Removal.v ===== *)
(** * Removal: who has left a team, [crates/workspaces/src/api/membership/mod.rs], [removals.rs]

    The api's side of a removal, which deletes nothing: the beat that judges every (owner, team) pair
    and stamps the objects of those who left ([reconcile]), the heartbeat it renews after a fully
    judged pass ([keys/mod.rs]), an admin's delete-now, and the listing of what is pending. *)

From stdpp Require Import sorting.
From S2P Require Import Prelude Text Names Prog Cluster Controller.
Local Open Scope string_scope.
Local Open Scope Z_scope.

Definition MEMBER_REMOVAL_GRACE : Z := 7 * 24 * 3600.

Inductive Verdict := Keep | Pause | Unpause | Stamp | Clear | VDue.
#[global] Instance Verdict_eq_dec : EqDecision Verdict. Proof. solve_decision. Defined.

(** The decision for one pair; [None] is a directory that could not be read. *)
Definition verdict (judged : option Judged) (stamped_at : option Z) (delete_now : bool) (now : Z) (currently_paused : bool) : Verdict :=
  let marked := is_some stamped_at || delete_now in
  match judged with
  | None => Keep
  | Some (Member st) =>
    if marked then Clear
    else match st, currently_paused with
         | Active, true => Unpause
         | MPaused, false => Pause
         | _, _ => Keep
         end
  | Some _ =>
    if delete_now then VDue
    else match stamped_at with
         | None => Stamp
         | Some t => if MEMBER_REMOVAL_GRACE <=? Z.max i64_min (Z.min i64_max (now - t)) then VDue else Keep
         end
  end.

Record Objects := mkObjects { workspaces : list object; spaces : list object }.

Definition norm (x : string) : string := map_chars ascii_lower (trim x).

(** A personal pair is never a candidate. *)
Definition team_pair (owner team : string) : bool :=
  let team := norm team in negb (String.eqb team "") && negb (String.eqb team (norm owner)).

Definition pair_of (x : object) : string * string := (norm (owner x), norm (team x)).
Definition candidate (x : object) : bool := team_pair (owner x) (team x).

(** [BTreeSet]: in order, each once. *)
Definition pair_le (p q : string * string) : Prop :=
  String.ltb p.1 q.1 = true \/ (p.1 = q.1 /\ (String.ltb p.2 q.2 = true \/ p.2 = q.2)).
#[global] Instance pair_le_dec p q : Decision (pair_le p q).
Proof. unfold pair_le. apply _. Defined.
Definition btree_set (l : list (string * string)) : list (string * string) := merge_sort pair_le (remove_dups l).

Definition pairs (o : Objects) : list (string * string) :=
  btree_set (pair_of <$> base.filter (fun x => candidate x = true) (workspaces o ++ spaces o)%list).

Definition mine (p : string * string) (x : object) : bool := bool_decide (pair_of x = p).
Definition of_pair (p : string * string) (l : list object) : list object := base.filter (fun x => mine p x = true) l.

Definition metas_of (o : Objects) (p : string * string) : list ObjectMeta :=
  (metadata <$> of_pair p (workspaces o) ++ of_pair p (spaces o))%list.

(** [Iterator::max]. *)
Fixpoint max_of (l : list Z) : option Z :=
  match l with
  | [] => None
  | z :: l => Some (match max_of l with Some m => Z.max z m | None => z end)
  end.

(** The kinds' names, in the text of an error. *)
Definition kind_name (k : kind) : string := match k with Workspace => "Workspace" | SpaceEnvironment => "SpaceEnvironment" end.

(** Which of the two is wired into this node. *)
Record ApiState := mkApi { has_kube : bool; has_directory : bool }.

Section removal.
Context `{!Rfc3339}.

(** [chrono::DateTime::from_timestamp(t, 0)], printed. *)
Definition printed (secs : Z) : string := to_rfc3339 (secs * 1000000000).
(** [Utc::now().timestamp()]. *)
Definition seconds (ns : Z) : Z := ns / 1000000000.

(** Latest wins, and an unparsable or foreign stamp is no stamp. *)
Definition stamp_of (m : ObjectMeta) : option Z := system_annotation m REMOVED_AT ≫= chrono_seconds.
Definition latest_stamp (metas : list ObjectMeta) : option Z := max_of (omap stamp_of metas).

Definition listed (k : kind) : kprog (list object + string) :=
  let! r := trigger (KList k) in
  Ret match items r with Some l => inl l | None => inr (kind_name k +:+ ": " +:+ kube_text r) end.

Definition list_all : kprog (Objects + string) :=
  let! ws := listed Workspace in
  match ws with
  | inr e => Ret (inr e)
  | inl ws =>
    let! ss := listed SpaceEnvironment in
    Ret match ss with inl ss => inl (mkObjects ws ss) | inr e => inr e end
  end.

(** [true] only when the write landed. *)
Definition landed {A} (r : kube A) : bool := match r with KOk _ => true | _ => false end.
Definition write (k : kind) (n : string) (p : patch) : kprog bool :=
  let! r := trigger (KPatch k n p) in Ret (landed r).
(** The stamp by server-side apply. *)
Definition stamp (k : kind) (n : string) (a : gmap string string) : kprog bool :=
  let! r := trigger (KApply k n a) in Ret (landed r).

Definition name_any (x : object) : string := name (metadata x).
Definition access_of (x : object) : option Access := access <$> spec x.
Definition is_full (x : object) : bool := bool_decide (access_of x = Some Full).
(** [access != Full]. *)
Definition not_full (x : object) : bool := negb (is_full x).
(** [access != Paused || desired_state != Stopped]. *)
Definition unsettled (x : object) : bool :=
  negb (bool_decide (access_of x = Some Paused) && bool_decide (desired_state <$> spec x = Some Stopped)).

(** A loop of writes, and which of them landed. *)
Definition each {A} (f : A -> kprog bool) (l : list A) : kprog (list bool) := traverse f l.
Definition some_ok (l : list bool) : bool := existsb id l.
(** The objects whose write landed. *)
Definition bench_among (l : list object) (oks : list bool) : bool := existsb (fun xo => is_bench xo.1 && xo.2) (combine l oks).

Definition drop_tool_secret (p : string * string) : kprog unit := trigger (KDropSecret p.1 p.2) ;;! Ret tt.

Definition pause (ws : list object) (p : string * string) : kprog unit :=
  let todo := base.filter (fun x => unsettled x = true) ws in
  let! oks := each (fun x => write Workspace (name_any x) (PSpec Paused (Some Stopped))) todo in
  if bench_among todo oks then drop_tool_secret p else Ret tt.

Definition has_stamp (x : object) : bool :=
  existsb (fun k => is_some (annotations (metadata x) !! k)) stamps.
Definition unmarked_yet (x : object) : bool := is_none (system_annotation (metadata x) DELETE_AFTER).

Definition set_full (x : object) : kprog bool := write Workspace (name_any x) (PSpec Full None).
Definition clear (k : kind) (x : object) : kprog bool := write k (name_any x) PClear.

Definition slashed (p : string * string) : string := p.2 +:+ "/" +:+ p.1.

(** [removed-at] and [delete-after], and [delete-now] beside them. *)
Definition stamp_body (at_ after : string) (delete_now : bool) : gmap string string :=
  let v := <[REMOVED_AT := at_]> (<[DELETE_AFTER := after]> ∅) in
  if delete_now then <[DELETE_NOW := "true"]> v else v.

Definition keep_away (ws : list object) (p : string * string) : kprog unit :=
  let full := base.filter (fun x => is_full x = true) ws in
  let! oks := each (fun x => write Workspace (name_any x) (PSpec Paused None)) full in
  if bench_among full oks then drop_tool_secret p else Ret tt.

Definition clear_pair (judged : Judged) (ws ss : list object) (p : string * string) : kprog unit :=
  each set_full (base.filter (fun x => not_full x && bool_decide (judged = Member Active) = true) ws) ;;!
  let! o1 := each (clear Workspace) (base.filter (fun x => has_stamp x = true) ws) in
  let! o2 := each (clear SpaceEnvironment) (base.filter (fun x => has_stamp x = true) ss) in
  (if some_ok (o1 ++ o2)%list then trigger (Audit "system:membership" "member.removed.cleared" (slashed p)) else Ret tt) ;;!
  if bool_decide (judged = Member MPaused) then pause ws p else Ret tt.

Definition stamp_pair (ws ss : list object) (p : string * string) (now : Z) : kprog unit :=
  let v := stamp_body (printed now) (printed (now + MEMBER_REMOVAL_GRACE)) false in
  let! o1 := each (fun x =>
    let! ok := stamp Workspace (name_any x) v in
    write Workspace (name_any x) (PSpec Paused None) ;;! Ret ok) ws in
  let! o2 := each (fun x => stamp SpaceEnvironment (name_any x) v) ss in
  if negb (some_ok (o1 ++ o2)%list) then Ret tt
  else trigger (Audit "system:membership" "member.removed.judged" (slashed p)).

Definition mark_due (ws ss : list object) (stamped_at : option Z) (delete_now : bool) (now : Z) : kprog unit :=
  match stamped_at with
  | None => Ret tt
  | Some t =>
    let after := if delete_now then now else t + MEMBER_REMOVAL_GRACE in
    let v := stamp_body (printed t) (printed after) delete_now in
    each (fun x => stamp Workspace (name_any x) v) (base.filter (fun x => unmarked_yet x = true) ws) ;;!
    each (fun x => stamp SpaceEnvironment (name_any x) v) (base.filter (fun x => unmarked_yet x = true) ss) ;;!
    Ret tt
  end.

(** [Err] only for an unreadable directory, which writes nothing. *)
Definition judge (o : Objects) (p : string * string) : kprog (unit + string) :=
  let metas := metas_of o p in
  let ws := of_pair p (workspaces o) in
  let ss := of_pair p (spaces o) in
  let stamped_at := latest_stamp metas in
  let delete_now := is_some stamped_at && any (fun m => is_some (system_annotation m DELETE_NOW)) metas in
  let full := base.filter (fun x => is_full x = true) ws in
  let paused := negb (bool_decide (ws = [])) && bool_decide (full = []) in
  let! answer := trigger (DMembership p.2 p.1) in
  let! ns := trigger Now in
  let now := seconds ns in
  match answer with
  | inr e => Ret (inr e)
  | inl judged =>
    (match verdict (Some judged) stamped_at delete_now now paused with
     | Keep =>
       if away judged then keep_away ws p
       else if bool_decide (judged = Member MPaused) then pause ws p else Ret tt
     | Pause => if bool_decide (judged = Member MPaused) then pause ws p else Ret tt
     | Unpause => each set_full (base.filter (fun x => not_full x = true) ws) ;;! Ret tt
     | Clear => clear_pair judged ws ss p
     | Stamp => stamp_pair ws ss p now
     | VDue => mark_due ws ss stamped_at delete_now now
     end) ;;! Ret (inl tt)
  end.

Fixpoint judge_all (o : Objects) (ps : list (string * string)) (failed : nat) (last : string) : kprog (nat * string) :=
  match ps with
  | [] => Ret (failed, last)
  | p :: ps =>
    let! r := judge o p in
    match r with
    | inl _ => judge_all o ps failed last
    | inr e => judge_all o ps (S failed) e
    end
  end.

(** [Ok] only when every pair was judged. *)
Definition reconcile (s : ApiState) : kprog (unit + string) :=
  if negb (has_kube s && has_directory s) then Ret (inr "no kube client or directory")
  else
    let! r := list_all in
    match r with
    | inr e => Ret (inr e)
    | inl o =>
      let! fl := judge_all o (pairs o) 0 "" in
      let '(failed, last) := fl in
      Ret (if (failed =? 0)%nat then inl tt else inr (display (Z.of_nat failed) +:+ " pairs unjudged: " +:+ last))
    end.

Definition reconcile_pair (s : ApiState) (owner team : string) : kprog unit :=
  trigger (ForgetVerdict (norm team) (norm owner)) ;;!
  if negb (has_kube s && has_directory s) then Ret tt
  else if negb (team_pair owner team) then Ret tt
  else
    let! r := list_all in
    match r with
    | inl o => judge o (norm owner, norm team) ;;! Ret tt
    | inr _ => Ret tt
    end.

(** ** [keys/mod.rs]: the heartbeat *)
Definition beat_lease (now : Z) : LeaseSpec := mkLeaseSpec (Some "kloudlite-api") None None (Some now) None.
Definition renew_beat (s : ApiState) : kprog unit :=
  if negb (has_kube s) then Ret tt
  else let! now := trigger Now in trigger (KApplyBeat (beat_lease now)) ;;! Ret tt.
Definition membership_beat (s : ApiState) : kprog unit :=
  let! r := reconcile s in
  match r with inl _ => renew_beat s | inr _ => Ret tt end.

(** ** [removals.rs] *)
Record Caller := mkCaller { c_name : string; c_superadmin : bool }.
Record Confirm := mkConfirm { c_person : string; c_team : string }.

(** A refusal's status and text, or the answer to an accepted delete-now. *)
Inductive response := Refused (status : Z) (text : string) | Accepted (deletes_enabled : bool).

Definition may_manage (s : ApiState) (c : Caller) (team : string) : kprog (option response) :=
  if negb (has_directory s) then Ret (Some (Refused 503 "team lookup not configured"))
  else
    let by_role :=
      let! r := trigger (DRole (c_name c) (norm team)) in
      Ret match r with
          | Some r => if rank RAdmin <=? rank r then None else Some (Refused 403 "only a team admin can do this")
          | None => Some (Refused 404 "")
          end in
    if c_superadmin c then
      let! r := trigger (DSuperadmin (c_name c)) in
      match r with
      | inl true => Ret None
      | inl false => by_role
      | inr _ => Ret (Some (Refused 503 "superadmin could not be checked"))
      end
    else by_role.

Definition deletes_enabled : kprog bool :=
  let! r := trigger KSwitch in
  Ret match r with KOk (Some (Some b)) => b | _ => false end.

(** The body must repeat [removed-at], or the apply drops it. *)
Definition now_body (ns : Z) (x : object) : option (gmap string string) :=
  (fun at_ => stamp_body at_ (to_rfc3339 ns) true) <$> system_annotation (metadata x) REMOVED_AT.
Definition mark_now (k : kind) (ns : Z) (x : object) : kprog bool :=
  match now_body ns x with
  | Some a => stamp k (name_any x) a
  | None => Ret false
  end.

(** The marking half of [delete_now], once the directory has said the person is away. *)
Definition mark_pair_now (s : ApiState) (c : Caller) (p : string * string) : kprog response :=
  reconcile_pair s p.1 p.2 ;;!
  let! r := list_all in
  match r with
  | inr e => Ret (Refused 503 e)
  | inl o =>
    let! ns := trigger Now in
    let! m1 := each (mark_now Workspace ns) (of_pair p (workspaces o)) in
    let! m2 := each (mark_now SpaceEnvironment ns) (of_pair p (spaces o)) in
    if negb (some_ok (m1 ++ m2)%list) then Ret (Refused 409 "not pending removal")
    else
      trigger (Audit (c_name c) "member.removed.delete_now" (slashed p)) ;;!
      let! b := deletes_enabled in Ret (Accepted b)
  end.

Definition delete_now (s : ApiState) (c : Caller) (team owner : string) (body : Confirm) : kprog response :=
  if negb (team_pair owner team) || negb (String.eqb (norm (c_person body)) (norm owner)) ||
     negb (String.eqb (norm (c_team body)) (norm team))
  then Ret (Refused 400 "confirm by naming the person and the team exactly")
  else
    let! refused := may_manage s c team in
    match refused with
    | Some r => Ret r
    | None =>
      if negb (has_kube s && has_directory s) then Ret (Refused 503 "")
      else
        let p := (norm owner, norm team) in
        let! answer := trigger (DMembership p.2 p.1) in
        match answer with
        | inl (Member _) => Ret (Refused 409 "still a member of the team")
        | inr _ =>
          let! k := trigger (DOwnerKind p.1) in
          Ret match k with
              | inl Person | inr _ => Refused 503 "team membership could not be checked"
              | inl _ => Refused 400 ("name the person by their handle; " +:+ p.1 +:+ " is not one")
              end
        | inl _ =>
          mark_pair_now s c p
        end
    end.

(** What is pending, as the beat would act on it: owner, team, removed at, deleted at. *)
Record Removal := mkRemoval { r_owner : string; r_team : string; removed_at : string; delete_at : string }.
Definition removals (o : Objects) : list Removal :=
  omap (fun p =>
    t ← latest_stamp (metas_of o p);
    Some (mkRemoval p.1 p.2 (printed t) (printed (t + MEMBER_REMOVAL_GRACE)))) (pairs o).

(** [all] and [team_removals], past the authentication: owners and dates of one team's rows. *)
Definition all_removals (s : ApiState) : kprog (list Removal + response) :=
  if negb (has_kube s) then Ret (inr (Refused 503 ""))
  else
    let! r := list_all in
    Ret match r with inl o => inl (removals o) | inr e => inr (Refused 503 e) end.
Definition team_removals (s : ApiState) (c : Caller) (team : string) : kprog (list (string * string) + response) :=
  let! refused := may_manage s c team in
  match refused with
  | Some r => Ret (inr r)
  | None =>
    let! rows := all_removals s in
    Ret match rows with
        | inl rows => inl ((fun r => (r_owner r, delete_at r)) <$> base.filter (fun r => r_team r = norm team) rows)
        | inr r => inr r
        end
  end.
End removal.
