(* ===== verification/ClusterInv.v ===== *)
(** * ClusterInv: what holds of the cluster in every state

    Stamps: every mark [kloudlite-membership] owns on an object goes back to an answer of the
    directory's that the person is not in the team, taken before the time the mark names; a mark for
    now goes back to an administrator's delete-now besides.  Deletions and beats: what was read
    before each.  Terms: which controllers have written which.  Then a rule per request. *)

From S2P Require Import Prelude Text Names Prog Cluster Controller Removal.
Local Open Scope string_scope.
Local Open Scope Z_scope.

(** ** What the history shows *)
Section facts.
Context `{!Rfc3339}.
Implicit Types (h : list event) (p : string * string).

(** The directory said the person is away, and the clock was read [ns] after it. *)
Definition away_at p (ns : Z) h : Prop := exists t j h1 h2, h = (h1 ++ Clocked t ns :: h2)%list /\
  Told t p j ∈ h2 /\ away j = true /\ clock_ok ns.

(** A team's administrator, or a superadmin by the roster, asked for the pair's data to go now, and
    the directory said that the person is away. *)
Definition entitled t (te : string) h : Prop :=
  (exists u r, Ranked t u te (Some r) ∈ h /\ rank RAdmin <= rank r) \/ exists u, Super t u true ∈ h.
Definition ordered p h : Prop := exists t j, Told t p j ∈ h /\ away j = true /\ entitled t p.2 h.

(** What a mark may say. *)
Definition removed_ok p (v : string) h : Prop := exists ns, away_at p ns h /\ v = printed (seconds ns).
Definition after_ok p (v : string) h : Prop :=
  (exists ns, away_at p ns h /\ v = printed (seconds ns + MEMBER_REMOVAL_GRACE)) \/
  ordered p h /\ exists ns, away_at p ns h /\ (v = to_rfc3339 ns \/ v = printed (seconds ns)).

Record marks_ok h (x : object) : Prop := {
  m_removed : forall v, system_annotation (metadata x) REMOVED_AT = Some v -> removed_ok (pair_of x) v h;
  m_now : forall v, system_annotation (metadata x) DELETE_NOW = Some v -> ordered (pair_of x) h;
  m_after : forall v, system_annotation (metadata x) DELETE_AFTER = Some v -> after_ok (pair_of x) v h;
  m_team : forall key v, key ∈ stamps -> system_annotation (metadata x) key = Some v -> candidate x = true;
}.

(** A beat that judged every pair it found. *)
Definition beat_ok t (s : LeaseSpec) h : Prop := exists ns l1 l2, renew_time s = Some ns /\ Clocked t ns ∈ h /\
  Listed t Workspace l1 ∈ h /\ Listed t SpaceEnvironment l2 ∈ h /\
  forall p, p ∈ pairs (mkObjects l1 l2) -> exists j, Told t p j ∈ h.

(** Before a deletion: the mark was due by the pass's clock, a beat was fresh by it, and the lease
    named the term the controller held. *)
Definition due_ok t (x : object) ns h : Prop := Clocked t ns ∈ h /\ deletion_timestamp (metadata x) = None /\
  exists v d, system_annotation (metadata x) DELETE_AFTER = Some v /\ jiff_seconds v = Some d /\
    d + DELETE_SLACK_SECS <= as_second ns.
Definition alive_ok t ns h : Prop := exists l, SawBeat t l ∈ h /\ beat_fresh l (as_second ns) = true /\
  exists t' s h1 h2, h = (h1 ++ Beat t' s :: h2)%list /\ (l ≫= lease_spec) = Some s.
Definition fenced_ok t h : Prop := exists cur e, Saw t cur ∈ h /\ Loaded t e ∈ h /\ term_matches e (view_of cur) = true.
Definition deletion_ok t (k : kind) (x : object) h : Prop :=
  exists ns, due_ok t x ns h /\ alive_ok t ns h /\ fenced_ok t h /\ marks_ok h x.

(** All of these stay true. *)
Lemma away_at_app p ns l h : away_at p ns h -> away_at p ns (l ++ h).
Proof. intros (t & j & h1 & h2 & -> & ?). exists t, j, (l ++ h1)%list, h2. by rewrite <- app_assoc. Qed.

Lemma entitled_app t te l h : entitled t te h -> entitled t te (l ++ h).
Proof.
  intros [(u & r & ? & ?)|(u & ?)]; [left; exists u, r|right; exists u]; rewrite !elem_of_app; auto.
Qed.

Lemma ordered_app p l h : ordered p h -> ordered p (l ++ h).
Proof.
  intros (t & j & ? & ? & ?). exists t, j. split; [apply elem_of_app; by right|]. split; [done|]. by apply entitled_app.
Qed.

Lemma removed_ok_app p v l h : removed_ok p v h -> removed_ok p v (l ++ h).
Proof. intros (ns & ? & ->). exists ns. split; [by apply away_at_app|done]. Qed.

Lemma after_ok_app p v l h : after_ok p v h -> after_ok p v (l ++ h).
Proof.
  intros [(ns & ? & ->)|(? & ns & ? & Hv)]; [left; exists ns|right; split; [by apply ordered_app|exists ns]];
    (split; [by apply away_at_app|done]).
Qed.

Lemma marks_ok_app l h x : marks_ok h x -> marks_ok (l ++ h) x.
Proof.
  intros [H1 H2 H3 H4]. split; [|..|done]; intros v Hv.
  - by apply removed_ok_app, H1.
  - by eapply ordered_app, H2.
  - by apply after_ok_app, H3.
Qed.

Lemma beat_ok_app t s l h : beat_ok t s h -> beat_ok t s (l ++ h).
Proof.
  intros (ns & l1 & l2 & Hr & Hc & H1 & H2 & Hp). exists ns, l1, l2. rewrite !elem_of_app.
  split; [done|]. split; [by right|]. split; [by right|]. split; [by right|].
  intros p Hin. destruct (Hp p Hin) as [j Hj]. exists j. rewrite elem_of_app. by right.
Qed.

Lemma marks_unmarked h x : unmarked x -> marks_ok h x.
Proof.
  intros Hu. split; try (intros v Hv; rewrite (Hu _) in Hv; [done|]; unfold stamps; set_solver).
  intros key v Hk Hv. by rewrite (Hu _ Hk) in Hv.
Qed.

Lemma marks_edited h x y : owner y = owner x -> team y = team x -> edited x y -> marks_ok h x -> marks_ok h y.
Proof.
  intros Ho Ht (_ & He) [H1 H2 H3 H4].
  assert (pair_of y = pair_of x) as Ep by (unfold pair_of; by rewrite Ho, Ht).
  split; rewrite ?Ep; intros; [eapply H1|eapply H2|eapply H3|]; eauto.
  unfold candidate. rewrite Ho, Ht. eapply H4; eauto.
Qed.
End facts.

(** ** Terms *)

Definition cur_term (w : World) : Z := default 0 (transitions <$> view_of (lease w)).
Definition cur_holder (w : World) : string := default "" (holder <$> view_of (lease w)).

(** A term as a view shows it. *)
Definition shown (o : option Z) : Z := Z.max 0 (default 0 o).
Definition wrote (h : list event) (p : string) (e : Z) : Prop := exists t o, Wrote t (Some p) o ∈ h /\ shown o = e.

(** The last term an [i32] can count on from. *)
Definition term_max : Z := 2 ^ 31 - 1.
Definition counted (h : list event) : Prop := forall t p o, Wrote t p o ∈ h -> shown o < term_max.

Record Terms (w : World) : Prop := {
  t_max : cur_term w < term_max;
  t_le : forall p e, wrote (hist w) p e -> e <= cur_term w;
  t_cur : forall p, wrote (hist w) p (cur_term w) -> 0 < cur_term w -> cur_holder w = "" \/ p = cur_holder w \/ p = "";
  t_one : forall p q e, wrote (hist w) p e -> wrote (hist w) q e -> 0 < e -> p = q \/ p = "" \/ q = "";
}.

Record Held (w : World) : Prop := {
  h_epoch : forall p, epoch_of w p <> 0 -> wrote (hist w) p (epoch_of w p);
  h_pods : forall p, epoch_of w p <> 0 -> p <> "";
}.

(** ** The invariant *)
Section inv.
Context `{!Rfc3339}.

Record Inv (w : World) : Prop := {
  i_obj : forall k n x, objs w !! (k, n) = Some x ->
    (name (metadata x) = n /\ (owner x, team x) = home w (k, n)) /\ (resource_version (metadata x) < revision w)%nat /\ marks_ok (hist w) x;
  i_lease : forall l, lease w = Some l -> (lease_rv l < revision w)%nat;
  i_beat : forall l s, beat w = Some l -> lease_spec l = Some s -> exists t, Beat t s ∈ hist w;
  i_deleted : forall h1 t k x h2, hist w = (h1 ++ Deleted t k x :: h2)%list -> deletion_ok t k x h2;
  i_beats : forall h1 t s h2, hist w = (h1 ++ Beat t s :: h2)%list -> beat_ok t s h2;
  i_held : Held w;
  i_terms : counted (hist w) -> Terms w;
}.

(** What a task may rely on while others work. *)
Record rely (t : nat) (w w' : World) : Prop := {
  r_hist : exists l, hist w' = (l ++ hist w)%list;
  r_revision : (revision w <= revision w')%nat;
  r_home : home w' = home w;
  r_objs : forall k n y, objs w' !! (k, n) = Some y ->
    objs w !! (k, n) = Some y \/ (revision w <= resource_version (metadata y))%nat;
  r_lease : lease w' = lease w \/ exists l, lease w' = Some l /\ (revision w <= lease_rv l)%nat;
}.

#[global] Instance rely_preorder t : PreOrder (rely t).
Proof.
  split.
  - intros w. split; eauto; by exists [].
  - intros a b c [[l1 H1] H2 Hh H3 H4] [[l2 G1] G2 Gh G3 G4]. split.
    + exists (l2 ++ l1)%list. by rewrite G1, H1, app_assoc.
    + lia.
    + congruence.
    + intros k n y Hy. destruct (G3 k n y Hy) as [Hb|]; [|right; lia]. by apply H3.
    + destruct G4 as [->|(l & -> & ?)]; [done|]. right. exists l. split; [done|lia].
Qed.

(** One step: the invariant holds again, and nobody's reliance is hurt. *)
Definition step_ok (w w' : World) : Prop := Inv w' /\ forall t, rely t w w'.

Lemma wrote_cons h e p z : (forall t q o, e <> Wrote t q o) -> wrote (e :: h) p z -> wrote h p z.
Proof.
  intros He (t & o & [Hin|Hin]%elem_of_cons & Hs); [by destruct (He t (Some p) o)|]. by exists t, o.
Qed.

Lemma wrote_app l h p z : wrote h p z -> wrote (l ++ h) p z.
Proof. intros (t & o & ? & ?). exists t, o. rewrite elem_of_app. auto. Qed.

Lemma counted_app l h : counted (l ++ h) -> counted h.
Proof. intros Hc t p o Hin. apply (Hc t p o). rewrite elem_of_app. auto. Qed.

(** The terms part, where neither the lease nor an epoch moves. *)
Lemma terms_note w w' l : lease w' = lease w -> hist w' = (l ++ hist w)%list ->
  (forall t q o, Wrote t q o ∉ l) -> (counted (hist w) -> Terms w) -> counted (hist w') -> Terms w'.
Proof.
  intros El Eh Hl HT Hc. rewrite Eh in Hc. specialize (HT (counted_app _ _ Hc)).
  assert (forall p z, wrote (hist w') p z -> wrote (hist w) p z) as Hw.
  { intros p z (t & o & Hin & Hs). rewrite Eh in Hin. apply elem_of_app in Hin as [Hin|Hin]; [by destruct (Hl _ _ _ Hin)|].
    by exists t, o. }
  destruct HT as [H1 H2 H3 H4]. split; unfold cur_term, cur_holder in *; rewrite ?El; eauto.
Qed.

Lemma held_note w w' l : (forall p, epoch_of w' p = epoch_of w p \/ epoch_of w' p = 0) -> hist w' = (l ++ hist w)%list -> Held w -> Held w'.
Proof.
  intros He Eh [H1 H2]. split; intros p Hp; destruct (He p) as [E|E]; try done; rewrite E in *; auto.
  rewrite Eh. by apply wrote_app, H1.
Qed.

(** An event is a deletion or a beat, and then it is as it should be, or it is neither. *)
Definition event_ok (e : event) (h : list event) : Prop :=
  match e with
  | Deleted t k x => deletion_ok t k x h
  | Beat t s => beat_ok t s h
  | _ => True
  end.

Lemma hist_ok w e h : Inv w -> h = hist w -> event_ok e h ->
  (forall h1 t k x h2, e :: h = (h1 ++ Deleted t k x :: h2)%list -> deletion_ok t k x h2) /\
  (forall h1 t s h2, e :: h = (h1 ++ Beat t s :: h2)%list -> beat_ok t s h2).
Proof.
  intros HI -> He. split; intros [|e' h1] t; intros; simplify_eq/=; try exact He.
  - by eapply (i_deleted w HI).
  - by eapply (i_beats w HI).
Qed.

(** Something heard or said, and nothing else. *)
Lemma inv_note w e : Inv w -> event_ok e (hist w) -> (forall t q o, e <> Wrote t q o) -> step_ok w (note e w).
Proof.
  intros HI He Hw. destruct (hist_ok w e _ HI eq_refl He) as [Hd Hb]. split; [split|].
  - intros k n x Hx. destruct (i_obj w HI k n x Hx) as (? & ? & ?). split; [done|]. split; [done|]. by apply (marks_ok_app [e]).
  - apply (i_lease w HI).
  - intros l s Hl Hs. destruct (i_beat w HI l s Hl Hs) as [t ?]. exists t. by right.
  - exact Hd.
  - exact Hb.
  - apply (held_note w _ [e]); [by left|done|apply (i_held w HI)].
  - apply (terms_note w _ [e]); try done; [|apply (i_terms w HI)].
    intros t q o Hin%list_elem_of_singleton. by apply (Hw t q o).
  - intros t. split; [by exists [e]|done|done|by left|by left].
Qed.

(** Objects written, under a new revision. *)
Definition fresh_objs (w : World) (m : gmap (kind * string) object) : Prop := forall k n y, m !! (k, n) = Some y ->
  objs w !! (k, n) = Some y \/
  (name (metadata y) = n /\ (owner y, team y) = home w (k, n)) /\ resource_version (metadata y) = revision w /\ marks_ok (hist w) y.

Lemma step_objs w m : Inv w -> fresh_objs w m -> step_ok w (set_objs m w).
Proof.
  intros HI Hm. split; [split|].
  - intros k n y Hy. destruct (Hm k n y Hy) as [Hx|(? & -> & ?)]; cbn; [|split; [done|]; split; [lia|done]].
    destruct (i_obj w HI k n y Hx) as (? & ? & ?). split; [done|]. split; [lia|done].
  - intros l Hl. cbn. specialize (i_lease w HI l Hl). lia.
  - apply (i_beat w HI).
  - apply (i_deleted w HI).
  - apply (i_beats w HI).
  - apply (held_note w _ []); [by left|done|apply (i_held w HI)].
  - apply (terms_note w _ []); [done..| |apply (i_terms w HI)]. intros t q o. set_solver.
  - intros t. split; [by exists []|cbn; lia|done| |by left].
    intros k n y Hy. destruct (Hm k n y Hy) as [|(_ & -> & _)]; [by left|by right].
Qed.

Lemma fresh_insert w k x y : Inv w -> objs w !! (k, name (metadata x)) = Some x ->
  name (metadata y) = name (metadata x) -> (owner y, team y) = (owner x, team x) -> marks_ok (hist w) y ->
  fresh_objs w (<[(k, name (metadata x)) := revised (revision w) y]> (objs w)).
Proof.
  intros HI Hx Hn Ho Hy k' n' z [[E <-]|[_ ?]]%lookup_insert_Some; [|by left].
  injection E as -> <-. right. destruct (i_obj w HI _ _ _ Hx) as ([_ Hh] & _).
  split; [split; [done|cbn; congruence]|]. split; [done|]. by destruct y, Hy; split.
Qed.

Lemma step_stored w k x y : Inv w -> objs w !! (k, name (metadata x)) = Some x ->
  name (metadata y) = name (metadata x) -> (owner y, team y) = (owner x, team x) -> marks_ok (hist w) y -> step_ok w (stored k x y w).
Proof.
  intros HI Hx Hn Ho Hy. unfold stored. case_decide; [split; [done|intros t; reflexivity]|].
  apply step_objs; [done|]. by apply fresh_insert.
Qed.

Lemma inv_step_trans w w1 w2 : step_ok w w1 -> (Inv w1 -> step_ok w1 w2) -> step_ok w w2.
Proof.
  intros [HI Hr] H2. destruct (H2 HI) as [HI2 Hr2]. split; [done|]. intros t. etrans; [apply Hr|apply Hr2].
Qed.

Lemma step_delete w k n : Inv w -> step_ok w (set_objs (delete (k, n) (objs w)) w).
Proof. intros HI. apply step_objs; [done|]. intros k' n' y [_ Hy]%lookup_delete_Some. by left. Qed.

Lemma step_outside w w' : Inv w -> outside w w' -> step_ok w w'.
Proof.
  intros HI [Eh El Eb Hr He Hh Ho]. split; [split|].
  - intros k n y Hy. rewrite Eh. destruct (Ho k n y Hy) as [Hx|(Hn & Hv & Hm)].
    + destruct (i_obj w HI k n y Hx) as (? & ? & ?). rewrite Hh. split; [done|]. split; [lia|done].
    + rewrite Hh. split; [done|]. split; [lia|]. destruct Hm as [Hu|(x & Hx & Hed)]; [by apply marks_unmarked|].
      destruct (i_obj w HI k n x Hx) as ([_ Hx'] & _ & ?). destruct Hn as [_ Hy']. rewrite <- Hx' in Hy'. injection Hy' as ? ?.
      by eapply marks_edited.
  - intros l. rewrite El. intros Hl. specialize (i_lease w HI l Hl). lia.
  - intros l s. rewrite Eb, Eh. apply (i_beat w HI).
  - rewrite Eh. apply (i_deleted w HI).
  - rewrite Eh. apply (i_beats w HI).
  - apply (held_note w _ []); [done|done|apply (i_held w HI)].
  - apply (terms_note w _ []); [done|done| |apply (i_terms w HI)]. intros t q o. set_solver.
  - intros t. split; [by exists []|done|done| |by left].
    intros k n y Hy. destruct (Ho k n y Hy) as [|(_ & ? & _)]; [by left|right; lia].
Qed.

(** The heartbeat. *)
Lemma step_beat w t s : Inv w -> beat_ok t s (hist w) -> step_ok w (note (Beat t s) (set_beat (mkLease (revision w) (Some s)) w)).
Proof.
  intros HI Hs. destruct (hist_ok w (Beat t s) _ HI eq_refl Hs) as [Hd Hb]. split; [split|].
  - intros k n x Hx. destruct (i_obj w HI k n x Hx) as (? & ? & ?). cbn. split; [done|]. split; [lia|]. by apply (marks_ok_app [Beat t s]).
  - intros l Hl. cbn. specialize (i_lease w HI l Hl). lia.
  - intros l s' [= <-] [= <-]. exists t. by left.
  - exact Hd.
  - exact Hb.
  - apply (held_note w _ [Beat t s]); [by left|done|apply (i_held w HI)].
  - apply (terms_note w _ [Beat t s]); try done; [|apply (i_terms w HI)]. intros t' q o Hin%list_elem_of_singleton. done.
  - intros t'. split; [by exists [Beat t s]|cbn; lia|done|by left|by left].
Qed.

Lemma step_epoch w p e : Inv w -> (e = 0 \/ p <> "" /\ wrote (hist w) p e) -> step_ok w (set_epoch p e w).
Proof.
  intros HI He. split; [split|]; try apply HI.
  - assert (forall q, epoch_of (set_epoch p e w) q = if decide (q = p) then e else epoch_of w q) as Hq.
    { intros q. unfold epoch_of. cbn. case_decide as Eq; [subst q; by rewrite lookup_insert_eq|by rewrite lookup_insert_ne]. }
    destruct (i_held w HI) as [H1 H2]. split; intros q; rewrite Hq; case_decide as Eq; subst; auto; intros Hn;
      destruct He as [Ez|[Hne Hwr]]; done.
  - apply (terms_note w _ []); [done|done| |apply (i_terms w HI)]. intros t q o. set_solver.
  - intros t. split; [by exists []|done|done|by left|by left].
Qed.
(** A term written: the next one, or the same one by its holder or by nobody. *)
Definition hold (s : option LeaseSpec) : string := default "" (s ≫= holder_identity).
Definition term_of (s : option LeaseSpec) : Z := shown (s ≫= lease_transitions).
Definition term_step (w : World) (s : option LeaseSpec) : Prop :=
  term_of s = cur_term w + 1 \/ term_of s = cur_term w /\ (hold s = "" \/ hold s = cur_holder w).

Lemma wrote_write t s h p e : wrote (Wrote t (s ≫= holder_identity) (s ≫= lease_transitions) :: h) p e ->
  (p = hold s /\ e = term_of s) \/ wrote h p e.
Proof.
  intros (t' & o & [[= -> Hp ->]|Hin]%elem_of_cons & <-); [left|right; by exists t', o].
  unfold hold, term_of. by rewrite <- Hp.
Qed.

Lemma lease_written w t s : let w' := note (Wrote t (s ≫= holder_identity) (s ≫= lease_transitions)) (set_lease (mkLease (revision w) s) w) in
  cur_term w' = term_of s /\ cur_holder w' = hold s.
Proof.
  unfold cur_term, cur_holder, view_of, view, term_of, shown, hold. cbn. by destruct s.
Qed.

Lemma terms_write w t s : Terms w -> term_step w s ->
  counted (Wrote t (s ≫= holder_identity) (s ≫= lease_transitions) :: hist w) ->
  Terms (note (Wrote t (s ≫= holder_identity) (s ≫= lease_transitions)) (set_lease (mkLease (revision w) s) w)).
Proof.
  intros [H1 H2 H3 H4] Hs Hc. destruct (lease_written w t s) as [Et Eh].
  assert (forall q, wrote (hist w) q (term_of s) -> 0 < term_of s -> hold s = "" \/ q = hold s \/ q = "") as Hold.
  { intros q Hq H0. destruct Hs as [E|[E Hh]].
    - specialize (H2 _ _ Hq). lia.
    - rewrite E in *. destruct (H3 q Hq H0) as [Ec|[->| ->]]; destruct Hh as [->| ->]; auto. }
  split; rewrite ?Et, ?Eh; cbn [hist note].
  - apply (Hc t (s ≫= holder_identity)). by left.
  - intros p e [[_ ->]|Hw]%wrote_write; [lia|]. specialize (H2 _ _ Hw). destruct Hs as [|[? _]]; lia.
  - intros p [[-> _]|Hw]%wrote_write H0; [by right; left|]. by apply Hold.
  - intros p q e [[-> ->]|Hp]%wrote_write [[-> E]|Hq]%wrote_write H0.
    + by left.
    + destruct (Hold q Hq H0) as [|[|]]; auto.
    + subst e. destruct (Hold p Hp H0) as [|[|]]; auto.
    + eauto.
Qed.

Lemma step_lease w t s : Inv w -> (Terms w -> term_step w s) ->
  step_ok w (note (Wrote t (s ≫= holder_identity) (s ≫= lease_transitions)) (set_lease (mkLease (revision w) s) w)).
Proof.
  intros HI Hs. set (e := Wrote t _ _). destruct (hist_ok w e _ HI eq_refl Logic.I) as [Hd Hb]. split; [split|].
  - intros k n x Hx. destruct (i_obj w HI k n x Hx) as (? & ? & ?). cbn. split; [done|]. split; [lia|]. by apply (marks_ok_app [e]).
  - intros l [= <-]. cbn. lia.
  - intros l s' Hl Hl'. destruct (i_beat w HI l s' Hl Hl') as [t' ?]. exists t'. by right.
  - exact Hd.
  - exact Hb.
  - apply (held_note w _ [e]); [by left|done|apply (i_held w HI)].
  - intros Hc. assert (Terms w) as HT by (apply (i_terms w HI), (counted_app [e]), Hc). apply terms_write; auto.
  - intros t'. split; [by exists [e]|cbn; lia|done|by left|]. right. eexists. split; [done|]. cbn. lia.
Qed.
End inv.
