(* ===== verification/RemovalRules.v ===== *)
(** * RemovalRules: a rule per request and per function of the controller and the api

    Each holds for a task among any others: the invariant is kept, and what the task has read stays
    so.  The last part has the entry points. *)

From stdpp Require Import sorting.
From S2P Require Import Prelude Text Names Prog Cluster Controller Removal ClusterInv.
Local Open Scope string_scope.
Local Open Scope Z_scope.

Section rules.
Context `{!Rfc3339}.
Variable pod : nat -> string.
Abbreviation wpc := (wp (cluster_sem pod) Inv rely).
Implicit Types (w : World) (p : string * string).

(** ** What a task has read stays so *)

(** A listed object: whoever has its name and its revision is the object itself. *)
Record seen w (k : kind) (x : object) : Prop := {
  s_rv : (resource_version (metadata x) < revision w)%nat;
  s_home : (owner x, team x) = home w (k, name (metadata x));
  s_same : forall y, objs w !! (k, name (metadata x)) = Some y -> resource_version (metadata y) = resource_version (metadata x) -> y = x;
  s_marks : marks_ok (hist w) x;
}.

Lemma hist_rely t w w' e : rely t w w' -> e ∈ hist w -> e ∈ hist w'.
Proof using Type. intros [[l ->] _ _ _ _] He. apply elem_of_app. by right. Qed.

Lemma away_rely t w w' p ns : rely t w w' -> away_at p ns (hist w) -> away_at p ns (hist w').
Proof using Type. intros [[l ->] _ _ _ _]. apply away_at_app. Qed.

Lemma seen_rely t w w' k x : rely t w w' -> seen w k x -> seen w' k x.
Proof using Type.
  intros [[l Hl] Hr Hh Ho _] [H1 H2 H3 H4]. split.
  - lia.
  - by rewrite Hh.
  - intros y Hy Ev. destruct (Ho _ _ _ Hy) as [Hy'|]; [by apply H3|lia].
  - rewrite Hl. by apply marks_ok_app.
Qed.

Lemma seen_all_rely t w w' k l : rely t w w' -> Forall (seen w k) l -> Forall (seen w' k) l.
Proof using Type. intros Hr Hf. eapply Forall_impl; [exact Hf|]. intros x. by apply (seen_rely t w). Qed.

(** ** Requests *)
Lemma wp_one t X (e : KE X) w Q :
  (forall w1 x w2, rely t w w1 -> Inv w1 -> cluster_sem pod t X e w1 x w2 ->
     step_ok w1 w2 /\ (rely t w1 w2 -> rely t w w2 -> Inv w2 -> Q x w2)) ->
  wpc t (trigger e) w Q.
Proof using Type.
  intros H0. apply wp_trigger. intros w1 x w2 Hr HI He. destruct (H0 w1 x w2 Hr HI He) as [[HI2 Hr2] HQ].
  split; [done|]. split; [intros t' _; apply Hr2|]. apply HQ; [apply Hr2| |done]. etrans; [done|apply Hr2].
Qed.

(** Requests that change nothing here. *)
Definition quiet {X} (e : KE X) : Prop := forall t w x w', cluster_sem pod t X e w x w' -> w' = w.
Lemma cluster_wp_quiet t X (e : KE X) w Q : quiet e -> (forall x w', rely t w w' -> Inv w' -> Q x w') -> wpc t (trigger e) w Q.
Proof using Type.
  intros Hq HQ. apply wp_one. intros w1 x w2 Hr HI He. rewrite (Hq _ _ _ _ He). split; [|intros; by apply HQ].
  split; [done|intros; reflexivity].
Qed.

Lemma wp_list t k w Q :
  (forall r w', rely t w w' -> Inv w' ->
     (forall l, items r = Some l -> Forall (seen w' k) l /\ Listed t k l ∈ hist w') -> Q r w') ->
  wpc t (trigger (KList k)) w Q.
Proof using Type.
  intros HQ. apply wp_one. intros w1 r w2 Hr HI He. cbn in He. destruct (items r) as [l|] eqn:El.
  - destruct He as (Hnd & Hl & ->). split; [by apply inv_note|]. intros Hr1 Hr2 HI2. apply HQ; [done..|].
    intros l' Hl'. rewrite El in Hl'. injection Hl' as <-. split; [|by left].
    apply Forall_forall. intros x Hx%Hl. destruct (i_obj w1 HI _ _ _ Hx) as ([_ ?] & ? & ?).
    apply (seen_rely t w1); [done|]. split; [done|done| |done]. intros y Hy _. by simplify_eq.
  - subst w2. split; [split; [done|intros; reflexivity]|]. intros _ Hr2 HI2. apply HQ; [done..|]. intros l'. by rewrite El.
Qed.

Lemma wp_listing t k (f : string -> string) w Q :
  (forall l w', rely t w w' -> Inv w' -> Forall (seen w' k) l -> Listed t k l ∈ hist w' -> Q (inl l) w') ->
  (forall e w', rely t w w' -> Inv w' -> Q (inr e) w') ->
  wpc t (let! r := trigger (KList k) in Ret match items r with Some l => inl l | None => inr (f (kube_text r)) end) w Q.
Proof using Type.
  intros H1 H2. apply wp_bind, wp_list. intros r w' Hr HI Hl. cbn. destruct (items r) as [l|]; [|by apply H2].
  destruct (Hl l eq_refl). by apply H1.
Qed.

Lemma wp_listed t k w Q :
  (forall l w', rely t w w' -> Inv w' -> Forall (seen w' k) l -> Listed t k l ∈ hist w' -> Q (inl l) w') ->
  (forall e w', rely t w w' -> Inv w' -> Q (inr e) w') ->
  wpc t (listed k) w Q.
Proof using Type. exact (wp_listing t k (fun e => kind_name k +:+ ": " +:+ e) w Q). Qed.

Lemma wp_list_of t k w Q :
  (forall l w', rely t w w' -> Inv w' -> Forall (seen w' k) l -> Listed t k l ∈ hist w' -> Q (inl l) w') ->
  (forall e w', rely t w w' -> Inv w' -> Q (inr e) w') ->
  wpc t (list_of k) w Q.
Proof using Type. exact (wp_listing t k id w Q). Qed.

(** A write of an object: done or not, the invariant holds. *)
Lemma wp_attempt t {A} (e : KE (kube A)) done_ w Q :
  (forall w1 r w2, cluster_sem pod t _ e w1 r w2 -> attempt (done_ w1) w1 r w2) ->
  (forall w1 a w2, rely t w w1 -> Inv w1 -> done_ w1 a w2 -> step_ok w1 w2) ->
  (forall r w1 w2, rely t w w1 -> rely t w1 w2 -> Inv w2 -> (forall a, r = KOk a -> done_ w1 a w2) -> Q r w2) ->
  wpc t (trigger e) w Q.
Proof using Type.
  intros Hs Hd HQ. apply wp_one. intros w1 r w2 Hr HI He%Hs.
  assert (step_ok w1 w2) as Hok.
  { assert (step_ok w1 w1) by (split; [done|intros; reflexivity]).
    destruct r as [a| |]; cbn in He; [by eapply Hd|by subst|]. destruct He as [->|[a He]]; [done|by eapply Hd]. }
  split; [done|]. intros Hr1 _ HI2. apply (HQ r w1); [done..|]. intros a ->. exact He.
Qed.

Lemma step_seen w1 k x (f : object -> object) :
  Inv w1 -> seen w1 k x -> (forall y, name (metadata (f y)) = name (metadata y) /\ (owner (f y), team (f y)) = (owner y, team y)) ->
  (forall y, (owner y, team y) = (owner x, team x) -> marks_ok (hist w1) y -> marks_ok (hist w1) (f y)) ->
  forall y, objs w1 !! (k, name (metadata x)) = Some y -> step_ok w1 (stored k y (f y) w1) /\ (owner y, team y) = (owner x, team x).
Proof using Type.
  intros HI Hx Hf Hm y Hy. destruct (i_obj w1 HI _ _ _ Hy) as ([Hn Hh] & _ & Hmk). destruct (Hf y) as [Hfn Hfo].
  assert ((owner y, team y) = (owner x, team x)) as Eo by (rewrite Hh; symmetry; apply Hx).
  split; [|done]. rewrite <- Hn in Hy. apply step_stored; auto.
Qed.

Lemma wp_patch t k x pa w Q : seen w k x -> (forall r w', rely t w w' -> Inv w' -> Q r w') ->
  wpc t (trigger (KPatch k (name (metadata x)) pa)) w Q.
Proof using Type.
  intros Hx HQ. eapply (wp_attempt t _ (fun w1 _ => patch_done k (name (metadata x)) pa w1)); [by intros| |].
  - intros w1 _ w2 Hr HI (y & Hy & ->). eapply (step_seen w1 k x (patched pa)); [done|by eapply seen_rely| | |done].
    + intros z. by destruct pa.
    + intros z _ Hz. destruct pa as [a d|].
      * by destruct Hz; split.
      * by apply marks_unmarked; intros key Hk; apply clear_unmarked.
  - intros r w1 w2 Hr Hr2 HI2 _. apply HQ; [by etrans|done].
Qed.

(** What a stamp's body must say for an object of a pair. *)
Definition body_ok p (a : gmap string string) (h : list event) : Prop :=
  (forall v, a !! REMOVED_AT = Some v -> removed_ok p v h) /\ (forall v, a !! DELETE_NOW = Some v -> ordered p h) /\
  (forall v, a !! DELETE_AFTER = Some v -> after_ok p v h).

Lemma body_rely t w w' p a : rely t w w' -> body_ok p a (hist w) -> body_ok p a (hist w').
Proof using Type.
  intros [[l ->] _ _ _ _] (H1 & H2 & H3).
  split; [|split]; intros v Hv; [by apply removed_ok_app, H1|by eapply ordered_app, H2|by apply after_ok_app, H3].
Qed.

Lemma wp_apply t k x a w Q : seen w k x -> candidate x = true -> body_ok (pair_of x) a (hist w) ->
  (forall r w', rely t w w' -> Inv w' -> Q r w') ->
  wpc t (trigger (KApply k (name (metadata x)) a)) w Q.
Proof using Type.
  intros Hx Hc Hb HQ. eapply (wp_attempt t _ (fun w1 _ => apply_done t k (name (metadata x)) a w1)); [by intros| |].
  - intros w1 _ w2 Hr HI (y & Hy & ->).
    destruct (step_seen w1 k x (with_meta (apply_meta a)) HI ltac:(by eapply seen_rely) ltac:(done)) with (y := y) as [Hs _]; [|done|].
    + intros z Eo _. injection Eo as Eo Et. destruct (body_rely t w w1 _ _ Hr Hb) as (H1 & H2 & H3).
      assert (pair_of (with_meta (apply_meta a) z) = pair_of x) as Ep by (unfold pair_of; cbn; by rewrite Eo, Et).
      split; rewrite ?Ep; cbn [metadata with_meta]; intros v; rewrite ?apply_stamps; [apply H1|apply H2|apply H3|].
      intros _ _ _. unfold candidate. cbn. by rewrite Eo, Et.
    + eapply inv_step_trans; [exact Hs|]. intros HI2. by apply inv_note.
  - intros r w1 w2 Hr Hr2 HI2 _. apply HQ; [by etrans|done].
Qed.
(** *** Clocks and the directory *)
Lemma cluster_wp_now t w Q :
  (forall ns w', rely t w w' -> Inv w' -> clock_ok ns -> Clocked t ns ∈ hist w' ->
     (forall p j, Told t p j ∈ hist w -> away j = true -> away_at p ns (hist w')) -> Q ns w') ->
  wpc t (trigger Now) w Q.
Proof using Type.
  intros HQ. apply wp_one. intros w1 ns w2 Hr HI [Hns ->]. split; [by apply inv_note|]. intros _ Hr2 HI2.
  apply HQ; [done|done|done|by left|]. intros p j Hp Hj. exists t, j, [], (hist w1). split; [done|]. split; [|done].
  by eapply hist_rely.
Qed.

Lemma wp_told t te u w Q :
  (forall j w', rely t w w' -> Inv w' -> Told t (u, te) j ∈ hist w' -> Q (inl j) w') ->
  (forall e w', rely t w w' -> Inv w' -> Q (inr e) w') ->
  wpc t (trigger (DMembership te u)) w Q.
Proof using Type.
  intros H1 H2. apply wp_one. intros w1 [j|e] w2 Hr HI He; cbn in He.
  - destruct He as [_ ->]. split; [by apply inv_note|]. intros _ Hr2 HI2. apply H1; [done|done|by left].
  - subst w2. split; [split; [done|intros; reflexivity]|]. intros _ Hr2 HI2. by apply H2.
Qed.

Lemma wp_super t u w Q :
  (forall b w', rely t w w' -> Inv w' -> Super t u b ∈ hist w' -> Q (inl b) w') ->
  (forall e w', rely t w w' -> Inv w' -> Q (inr e) w') ->
  wpc t (trigger (DSuperadmin u)) w Q.
Proof using Type.
  intros H1 H2. apply wp_one. intros w1 [b|e] w2 Hr HI He; cbn in He; subst w2.
  - split; [by apply inv_note|]. intros _ Hr2 HI2. apply H1; [done|done|by left].
  - split; [split; [done|intros; reflexivity]|]. intros _ Hr2 HI2. by apply H2.
Qed.

Lemma wp_role t u te w Q :
  (forall r w', rely t w w' -> Inv w' -> Ranked t u te r ∈ hist w' -> Q r w') -> wpc t (trigger (DRole u te)) w Q.
Proof using Type.
  intros HQ. apply wp_one. intros w1 r w2 Hr HI He; cbn in He; subst w2.
  split; [by apply inv_note|]. intros _ Hr2 HI2. apply HQ; [done|done|by left].
Qed.

(** ** Programs that promise no more than to keep the invariant *)
Definition calm {A} t (p : kprog A) w : Prop := forall Q, (forall a w', rely t w w' -> Inv w' -> Q a w') -> wpc t p w Q.

Lemma calm_ret {A} t (a : A) w : Inv w -> calm t (Ret a) w.
Proof using Type. intros HI Q HQ. apply HQ; [reflexivity|done]. Qed.

Lemma calm_bind {A B} t (p : kprog A) (f : A -> kprog B) w :
  calm t p w -> (forall a w', rely t w w' -> Inv w' -> calm t (f a) w') -> calm t (bind p f) w.
Proof using Type.
  intros Hp Hf Q HQ. apply wp_bind, Hp. intros a w' Hr HI. apply Hf; [done..|]. intros b w'' Hr' HI'. apply HQ; [by etrans|done].
Qed.

Lemma calm_quiet t X (e : KE X) w : quiet e -> calm t (trigger e) w.
Proof using Type. intros He Q HQ. by apply cluster_wp_quiet. Qed.

Lemma calm_note t X (e : KE X) w : (forall w1 x w2, cluster_sem pod t X e w1 x w2 -> w2 = w1 \/ exists ev, w2 = note ev w1 /\
  event_ok ev (hist w1) /\ forall t q o, ev <> Wrote t q o) -> calm t (trigger e) w.
Proof using Type.
  intros He Q HQ. apply wp_one. intros w1 x w2 Hr HI Hx. split; [|intros; by apply HQ].
  destruct (He _ _ _ Hx) as [->|(ev & -> & ? & ?)]; [split; [done|intros; reflexivity]|by apply inv_note].
Qed.

(** A loop whose turns each need a fact that lasts. *)
Lemma calm_each {A B} t (P : A -> World -> Prop) (f : A -> kprog B) l w :
  (forall x w w', rely t w w' -> P x w -> P x w') -> (forall x w', P x w' -> Inv w' -> calm t (f x) w') ->
  Inv w -> Forall (fun x => P x w) l -> calm t (traverse f l) w.
Proof using Type.
  intros HP Hf. revert w. induction l as [|x l IH]; intros w HI Hl; cbn; [by apply calm_ret|].
  apply Forall_cons in Hl as [Hx Hl]. apply calm_bind; [by apply Hf|]. intros b w' Hr HI'.
  apply calm_bind; [apply IH; [done|]|intros; by apply calm_ret]. eapply Forall_impl; [exact Hl|]. intros y. by apply HP.
Qed.
(** ** Judging *)

(** What was listed. *)
Definition both w (o : Objects) : Prop := Forall (seen w Workspace) (workspaces o) /\ Forall (seen w SpaceEnvironment) (spaces o).
Lemma both_rely t w w' o : rely t w w' -> both w o -> both w' o.
Proof using Type. intros Hr [? ?]. split; by eapply seen_all_rely. Qed.

Definition team_ok p : bool := negb (String.eqb p.2 "") && negb (String.eqb p.2 p.1).
Lemma candidate_pair x : candidate x = team_ok (pair_of x).
Proof using Type. done. Qed.

Lemma of_pair_in p l x : x ∈ of_pair p l <-> pair_of x = p /\ x ∈ l.
Proof using Type. unfold of_pair, mine. rewrite list_elem_of_filter, bool_decide_eq_true. done. Qed.

Lemma pairs_in o p : p ∈ pairs o <-> exists x, x ∈ (workspaces o ++ spaces o)%list /\ candidate x = true /\ pair_of x = p.
Proof using Type.
  unfold pairs, btree_set. rewrite (merge_sort_Permutation pair_le), elem_of_remove_dups, list_elem_of_fmap.
  setoid_rewrite list_elem_of_filter. naive_solver.
Qed.

Lemma pairs_team o p : p ∈ pairs o -> team_ok p = true.
Proof using Type. intros (x & _ & Hc & <-)%pairs_in. exact Hc. Qed.

(** An object of the pair, as its stamps are about to be written. *)
Definition stampable p (k : kind) (x : object) w : Prop := seen w k x /\ pair_of x = p.
Lemma stampable_rely t p k x w w' : rely t w w' -> stampable p k x w -> stampable p k x w'.
Proof using Type. intros Hr [? ?]. split; [by eapply seen_rely|done]. Qed.

Lemma of_pair_all p k l w (f : object -> Prop) `{!forall x, Decision (f x)} : Forall (seen w k) l ->
  Forall (fun x => stampable p k x w) (base.filter f (of_pair p l)).
Proof using Type.
  rewrite !Forall_forall. intros Hl x [_ [Hp Hx]%of_pair_in]%list_elem_of_filter. split; auto.
Qed.
Lemma of_pair_seen p k l w : Forall (seen w k) l -> Forall (fun x => stampable p k x w) (of_pair p l).
Proof using Type. rewrite !Forall_forall. intros Hl x [Hp Hx]%of_pair_in. split; auto. Qed.

Lemma calm_write t p k x pa w : stampable p k x w -> calm t (write k (name_any x) pa) w.
Proof using Type.
  intros [Hx _]. unfold write. apply calm_bind; [|intros; by apply calm_ret].
  intros Q HQ. unfold name_any. by apply wp_patch.
Qed.

Lemma calm_stamp t p k x a w : stampable p k x w -> team_ok p = true -> body_ok p a (hist w) -> calm t (stamp k (name_any x) a) w.
Proof using Type.
  intros [Hx Ep] Ht Ha. unfold stamp. apply calm_bind; [|intros; by apply calm_ret].
  intros Q HQ. unfold name_any. apply wp_apply; rewrite ?candidate_pair, ?Ep; done.
Qed.

Lemma calm_each_stamp t p k l a w : Inv w -> team_ok p = true -> body_ok p a (hist w) ->
  Forall (fun x => stampable p k x w) l -> calm t (each (fun x => stamp k (name_any x) a) l) w.
Proof using Type.
  intros HI Ht Ha Hl. apply (calm_each t (fun x w => stampable p k x w /\ body_ok p a (hist w))); [| |done|].
  - intros x w1 w2 Hr [? ?]. split; [by eapply stampable_rely|by eapply body_rely].
  - intros x w1 [? ?] _. by eapply calm_stamp.
  - eapply Forall_impl; [exact Hl|]. auto.
Qed.

Lemma calm_each_write t p k l pa w : Inv w -> Forall (fun x => stampable p k x w) l ->
  calm t (each (fun x => write k (name_any x) pa) l) w.
Proof using Type.
  intros HI Hl. apply (calm_each t (stampable p k)); [|by intros; eapply calm_write|done|done].
  intros x w1 w2. apply stampable_rely.
Qed.

Lemma quiet_audit a b c : quiet (Audit a b c). Proof using Type. by intros t w x w'. Qed.
Lemma quiet_secret a b : quiet (KDropSecret a b). Proof using Type. by intros t w x w'. Qed.

Lemma calm_if {A} t (b : bool) (p q : kprog A) w : calm t p w -> calm t q w -> calm t (if b then p else q) w.
Proof using Type. by destruct b. Qed.

Lemma calm_drop t p w : Inv w -> calm t (drop_tool_secret p) w.
Proof using Type. intros HI. apply calm_bind; [apply calm_quiet, quiet_secret|intros; by apply calm_ret]. Qed.

Lemma calm_pause t p l w : Inv w -> Forall (seen w Workspace) l -> calm t (pause (of_pair p l) p) w.
Proof using Type.
  intros HI Hl. unfold pause. apply calm_bind.
  - eapply calm_each_write; [done|by apply of_pair_all].
  - intros oks w' Hr HI'. apply calm_if; [by apply calm_drop|by apply calm_ret].
Qed.

Lemma calm_keep_away t p l w : Inv w -> Forall (seen w Workspace) l -> calm t (keep_away (of_pair p l) p) w.
Proof using Type.
  intros HI Hl. unfold keep_away. apply calm_bind.
  - eapply calm_each_write; [done|by apply of_pair_all].
  - intros oks w' Hr HI'. apply calm_if; [by apply calm_drop|by apply calm_ret].
Qed.

Lemma calm_clear t j o p w : Inv w -> both w o -> calm t (clear_pair j (of_pair p (workspaces o)) (of_pair p (spaces o)) p) w.
Proof using Type.
  intros HI Ho. unfold clear_pair, set_full, clear. apply calm_bind; [eapply calm_each_write; [done|apply of_pair_all, Ho]|].
  intros _ w1 Hr1 HI1. assert (both w1 o) as Ho1 by by eapply both_rely.
  apply calm_bind; [eapply calm_each_write; [done|apply of_pair_all, Ho1]|]. intros o1 w2 Hr2 HI2.
  assert (both w2 o) as Ho2 by by eapply both_rely.
  apply calm_bind; [eapply calm_each_write; [done|apply of_pair_all, Ho2]|]. intros o2 w3 Hr3 HI3.
  apply calm_bind; [apply calm_if; [apply calm_quiet, quiet_audit|by apply calm_ret]|]. intros _ w4 Hr4 HI4.
  apply calm_if; [apply calm_pause; [done|]|by apply calm_ret]. by do 2 (eapply seen_all_rely; [done|]); apply Ho2.
Qed.
(** *** Stamps *)
Lemma seconds_range ns : clock_ok ns -> 0 <= seconds ns * 1000000000 <= ns.
Proof using Type. unfold clock_ok, seconds. pose proof (Z.mul_div_le ns 1000000000). pose proof (Z.div_pos ns 1000000000). lia. Qed.

Lemma printed_read z : 0 <= z * 1000000000 < 2 ^ 64 -> chrono_seconds (printed z) = Some z /\ jiff_seconds (printed z) = Some z.
Proof using Type. intros Hz. unfold printed. rewrite chrono_printed, jiff_printed by done. by rewrite Z.div_mul. Qed.

Lemma max_of_in l z : max_of l = Some z -> z ∈ l.
Proof using Type.
  revert z. induction l as [|y l IH]; intros z; cbn; [done|]. intros [= <-].
  destruct (max_of l) as [m|]; [|by left]. destruct (Z.max_spec y m) as [[_ ->]|[_ ->]]; [right; by apply IH|by left].
Qed.

Lemma metas_in o p m : m ∈ metas_of o p <-> exists x, x ∈ (workspaces o ++ spaces o)%list /\ pair_of x = p /\ m = metadata x.
Proof using Type.
  unfold metas_of. rewrite list_elem_of_fmap. setoid_rewrite elem_of_app. setoid_rewrite of_pair_in. naive_solver.
Qed.

Lemma both_in w o x : both w o -> x ∈ (workspaces o ++ spaces o)%list -> marks_ok (hist w) x.
Proof using Type. intros [H1 H2] [Hx|Hx]%elem_of_app; rewrite Forall_forall in H1, H2; [by apply (H1 x)|by apply (H2 x)]. Qed.

(** The latest stamp that counts is a time the pair was found away at. *)
Lemma latest_ok w o p z : both w o -> latest_stamp (metas_of o p) = Some z ->
  exists ns, away_at p ns (hist w) /\ z = seconds ns.
Proof using Type.
  intros Ho (m & Hm & Hin)%max_of_in%list_elem_of_omap. apply metas_in in Hm as (x & Hx & <- & ->).
  unfold stamp_of in Hin. apply bind_Some in Hin as (v & Hv & Hz).
  destruct (m_removed _ _ (both_in w o x Ho Hx) v Hv) as (ns & Ha & ->). exists ns. split; [done|].
  assert (clock_ok ns) as Hc by by destruct Ha as (? & ? & ? & ? & ? & ? & ? & ?).
  pose proof (seconds_range ns Hc). unfold clock_ok in Hc. destruct (printed_read (seconds ns)) as [Hp _]; [lia|]. congruence.
Qed.

Lemma now_ordered w o p : both w o -> any (fun m => is_some (system_annotation m DELETE_NOW)) (metas_of o p) = true -> ordered p (hist w).
Proof using Type.
  intros Ho (m & Hm & Hs)%any_spec. apply metas_in in Hm as (x & Hx & <- & ->).
  destruct (system_annotation (metadata x) DELETE_NOW) as [v|] eqn:E; [|done]. by eapply m_now; [apply (both_in w o)|].
Qed.

Lemma body_lookup at_ after b key v : stamp_body at_ after b !! key = Some v ->
  (key = REMOVED_AT /\ v = at_) \/ (key = DELETE_AFTER /\ v = after) \/ (b = true /\ key = DELETE_NOW).
Proof using Type.
  unfold stamp_body. destruct b; rewrite !lookup_insert_Some, ?lookup_empty; naive_solver.
Qed.

Lemma body_intro p at_ after b h : removed_ok p at_ h -> after_ok p after h -> (b = true -> ordered p h) ->
  body_ok p (stamp_body at_ after b) h.
Proof using Type.
  intros H1 H2 H3. split; [|split]; intros v Hv%body_lookup; destruct Hv as [[E ->]|[[E ->]|[-> E]]]; try discriminate; auto.
Qed.

Lemma calm_stamp_pair t o p ns w : Inv w -> both w o -> team_ok p = true -> away_at p ns (hist w) ->
  calm t (stamp_pair (of_pair p (workspaces o)) (of_pair p (spaces o)) p (seconds ns)) w.
Proof using Type.
  intros HI Ho Ht Ha. unfold stamp_pair. set (v := stamp_body _ _ _).
  assert (body_ok p v (hist w)) as Hv by (apply body_intro; [by exists ns|left; by exists ns|done]).
  apply calm_bind.
  - apply (calm_each t (fun x w => stampable p Workspace x w /\ body_ok p v (hist w))); [| |done|].
    + intros x w1 w2 Hr [? ?]. split; [by eapply stampable_rely|by eapply body_rely].
    + intros x w1 [Hx Hb] HI1. apply calm_bind; [by eapply calm_stamp|]. intros ok w2 Hr2 HI2.
      apply calm_bind; [by eapply calm_write, stampable_rely|intros; by apply calm_ret].
    + eapply Forall_impl; [apply of_pair_seen, Ho|]. auto.
  - intros o1 w1 Hr1 HI1. apply calm_bind.
    + eapply calm_each_stamp; [done|done|by eapply body_rely|]. apply of_pair_seen. eapply seen_all_rely; [done|apply Ho].
    + intros o2 w2 Hr2 HI2. apply calm_if; [by apply calm_ret|apply calm_quiet, quiet_audit].
Qed.

Lemma calm_mark_due t o p ns st b w : Inv w -> both w o -> team_ok p = true -> away_at p ns (hist w) ->
  latest_stamp (metas_of o p) = st -> (b = true -> ordered p (hist w)) ->
  calm t (mark_due (of_pair p (workspaces o)) (of_pair p (spaces o)) st b (seconds ns)) w.
Proof using Type.
  intros HI Ho Ht Ha Hst Hb. unfold mark_due. destruct st as [z|]; [|by apply calm_ret].
  destruct (latest_ok w o p z Ho Hst) as (ns0 & Ha0 & ->). set (v := stamp_body _ _ _).
  assert (body_ok p v (hist w)) as Hv.
  { apply body_intro; [by exists ns0| |done]. destruct b; [|left; by exists ns0].
    right. split; [by apply Hb|]. exists ns. auto. }
  apply calm_bind; [eapply calm_each_stamp; [done|done|done|apply of_pair_all, Ho]|]. intros _ w1 Hr1 HI1.
  apply calm_bind; [|intros; by apply calm_ret]. eapply calm_each_stamp; [done|done|by eapply body_rely|].
  apply of_pair_all. eapply seen_all_rely; [done|apply Ho].
Qed.
(** *** One pair, every pair, the beat *)
Lemma verdict_away j st b now q : verdict (Some j) st b now q = Stamp \/ verdict (Some j) st b now q = VDue -> away j = true.
Proof using Type. destruct j as [| |s]; cbn; [done|done|]. destruct (_ || _), s, q; cbn; naive_solver. Qed.

Lemma wp_judge t o p w Q : Inv w -> both w o -> team_ok p = true ->
  (forall r w', rely t w w' -> Inv w' -> (r = inl tt -> exists j, Told t p j ∈ hist w') -> Q r w') ->
  wpc t (judge o p) w Q.
Proof using Type.
  intros HI Ho Ht HQ. destruct p as [ow te]. unfold judge. cbn [fst snd].
  set (p := (ow, te)) in *. set (st := latest_stamp _). set (b := is_some st && _).
  set (paused := negb _ && _). apply wp_bind, wp_told; cbn beta iota.
  - intros j w1 Hr1 HI1 Hj. apply wp_bind, cluster_wp_now. intros ns w2 Hr2 HI2 Hns Hcl Haway. apply wp_bind.
    assert (rely t w w2) as Hr by by etrans. assert (both w2 o) as Ho2 by by eapply both_rely.
    match goal with |- wp _ _ _ t ?q _ _ => assert (calm t q w2) as Hcalm end.
    { pose proof (verdict_away j st b (seconds ns) paused) as Haw.
      destruct (verdict (Some j) st b (seconds ns) paused).
      - apply calm_if; [apply calm_keep_away; [done|apply Ho2]|]. apply calm_if; [apply calm_pause; [done|apply Ho2]|by apply calm_ret].
      - apply calm_if; [apply calm_pause; [done|apply Ho2]|by apply calm_ret].
      - apply calm_bind; [|intros; by apply calm_ret]. eapply calm_each_write; [done|apply of_pair_all, Ho2].
      - apply calm_stamp_pair; [done..|]. apply (Haway p j); auto.
      - by apply calm_clear.
      - apply calm_mark_due; [done..|apply (Haway p j); auto|done|]. intros [_ Hb]%andb_true_iff. by eapply now_ordered. }
    apply Hcalm. intros _ w3 Hr3 HI3. cbn. apply HQ; [by etrans|done|]. intros _. exists j.
    eapply hist_rely; [exact Hr3|]. by eapply hist_rely; [exact Hr2|].
  - intros e w1 Hr1 HI1. apply wp_bind, cluster_wp_now. intros ns w2 Hr2 HI2 _ _ _. cbn. apply HQ; [by etrans|done|done].
Qed.

Lemma wp_judge_all t o ps failed last w Q : Inv w -> both w o -> (forall p, p ∈ ps -> team_ok p = true) ->
  (forall n e w', rely t w w' -> Inv w' -> (n = 0%nat -> failed = 0%nat /\ forall p, p ∈ ps -> exists j, Told t p j ∈ hist w') -> Q (n, e) w') ->
  wpc t (judge_all o ps failed last) w Q.
Proof using Type.
  revert failed last w Q. induction ps as [|p ps IH]; intros failed last w Q HI Ho Ht HQ; cbn [judge_all].
  - cbn. apply HQ; [reflexivity|done|]. intros ->. split; [done|]. intros p. set_solver.
  - apply wp_bind. apply wp_judge; [done|done|apply Ht; by left|]. intros [[]|e] w1 Hr1 HI1 H1.
    + apply IH; [done|by eapply both_rely|intros; apply Ht; by right|]. intros n e w2 Hr2 HI2 H2.
      apply HQ; [by etrans|done|]. intros Hn. destruct (H2 Hn) as [Hf Hall]. split; [done|].
      intros q [->|Hq]%elem_of_cons; [|by apply Hall]. destruct (H1 eq_refl) as [j Hj]. exists j. by eapply hist_rely.
    + apply IH; [done|by eapply both_rely|intros; apply Ht; by right|]. intros n e' w2 Hr2 HI2 H2.
      apply HQ; [by etrans|done|]. intros Hn. by destruct (H2 Hn).
Qed.

Lemma wp_list_all t w Q :
  (forall o w', rely t w w' -> Inv w' -> both w' o -> Listed t Workspace (workspaces o) ∈ hist w' ->
     Listed t SpaceEnvironment (spaces o) ∈ hist w' -> Q (inl o) w') ->
  (forall e w', rely t w w' -> Inv w' -> Q (inr e) w') ->
  wpc t list_all w Q.
Proof using Type.
  intros H1 H2. unfold list_all. apply wp_bind, wp_listed; [|intros e w1 Hr1 HI1; by apply H2].
  intros l1 w1 Hr1 HI1 Hs1 Hl1. apply wp_bind, wp_listed.
  - intros l2 w2 Hr2 HI2 Hs2 Hl2. cbn. apply H1; cbn; [by etrans|done| |by eapply hist_rely|done].
    split; [by eapply seen_all_rely|done].
  - intros e w2 Hr2 HI2. cbn. apply H2; [by etrans|done].
Qed.

Lemma calm_reconcile_pair t s o te w : Inv w -> calm t (reconcile_pair s o te) w.
Proof using Type.
  intros HI. unfold reconcile_pair. apply calm_bind; [by apply calm_quiet; intros ? ? ? ?|]. intros _ w1 Hr1 HI1.
  apply calm_if; [by apply calm_ret|]. destruct (team_pair o te) eqn:Et; cbn [negb]; [|by apply calm_ret].
  intros Q HQ. apply wp_bind, wp_list_all; [|intros e w2 Hr2 HI2; cbn; by apply HQ].
  intros ob w2 Hr2 HI2 Hb _ _. apply wp_bind, wp_judge; [done|done|exact Et|].
  intros r w3 Hr3 HI3 _. cbn. apply HQ; [by etrans|done].
Qed.

Lemma calm_beat t s w : Inv w -> calm t (membership_beat s) w.
Proof using Type.
  intros HI Q HQ. unfold membership_beat, reconcile. apply wp_bind. destruct (_ && _); cbn [negb].
  2:{ cbn. apply HQ; [reflexivity|done]. }
  apply wp_bind, wp_list_all; [|intros e w1 Hr1 HI1; cbn; by apply HQ].
  intros o w1 Hr1 HI1 Hb Hl1 Hl2. apply wp_bind, wp_judge_all; [done|done|apply pairs_team|].
  intros n e w2 Hr2 HI2 Hall. cbn. destruct (n =? 0)%nat eqn:En; [|cbn; apply HQ; [by etrans|done]].
  apply Nat.eqb_eq in En. destruct (Hall En) as [_ Hold]. unfold renew_beat. destruct (has_kube s); cbn [negb]; [|cbn; apply HQ; [by etrans|done]].
  apply wp_bind, cluster_wp_now. intros ns w3 Hr3 HI3 _ Hns _. apply wp_bind.
  apply (wp_attempt t _ (fun w1 _ w2 => w2 = note (Beat t (beat_lease ns)) (set_beat (mkLease (revision w1) (Some (beat_lease ns))) w1))); [by intros| |].
  - intros w4 _ w5 Hr4 HI4 ->. apply step_beat; [done|]. exists ns, (workspaces o), (spaces o). split; [done|].
    assert (forall ev, ev ∈ hist w2 -> ev ∈ hist w4) as Hm by (intros ev Hev; eapply hist_rely; [exact Hr4|]; by eapply hist_rely; [exact Hr3|]).
    split; [by eapply hist_rely|]. split; [by apply Hm; eapply hist_rely|]. split; [by apply Hm; eapply hist_rely|].
    intros p Hp. destruct o as [l1 l2]. destruct (Hold p Hp) as [j Hj]. exists j. by apply Hm.
  - intros r w4 w5 Hr4 Hr5 HI5 _. cbn. apply HQ; [|done]. etrans; [exact Hr1|]. etrans; [exact Hr2|]. etrans; [exact Hr3|]. by etrans.
Qed.
(** ** Delete now *)
Lemma entitled_rely t w w' t' te : rely t w w' -> entitled t' te (hist w) -> entitled t' te (hist w').
Proof using Type. intros [[l ->] _ _ _ _]. apply entitled_app. Qed.

Lemma ordered_rely t w w' p : rely t w w' -> ordered p (hist w) -> ordered p (hist w').
Proof using Type. intros [[l ->] _ _ _ _]. apply ordered_app. Qed.

Lemma wp_by_role t c te w Q :
  (forall r w', rely t w w' -> Inv w' -> (r = None -> entitled t te (hist w')) -> Q r w') ->
  wpc t (let! r := trigger (DRole c te) in
         Ret match r with
             | Some r => if rank RAdmin <=? rank r then None else Some (Refused 403 "only a team admin can do this")
             | None => Some (Refused 404 "")
             end) w Q.
Proof using Type.
  intros HQ. apply wp_bind, wp_role. intros r w1 Hr1 HI1 Hrk.
  destruct r as [r|]; [|by apply HQ]. destruct (rank RAdmin <=? rank r) eqn:E; [|by apply HQ].
  apply HQ; [done..|]. intros _. left. bools. by exists c, r.
Qed.

Lemma wp_may_manage t s c te w Q : Inv w ->
  (forall r w', rely t w w' -> Inv w' -> (r = None -> entitled t (norm te) (hist w')) -> Q r w') ->
  wpc t (may_manage s c te) w Q.
Proof using Type.
  intros HI HQ. unfold may_manage. destruct (has_directory s); cbn [negb]; [|cbn; by apply HQ; [reflexivity|done|]].
  destruct (c_superadmin c); [|by apply wp_by_role]. apply wp_bind, wp_super.
  - intros [|] w1 Hr1 HI1 Hs.
    + cbn. apply HQ; [done..|]. intros _. right. by exists (c_name c).
    + apply wp_by_role. intros r w2 Hr2 HI2 He. apply HQ; [by etrans|done..].
  - intros e w1 Hr1 HI1. cbn. by apply HQ.
Qed.

Lemma calm_mark_now t p k l ns w : Inv w -> team_ok p = true -> Forall (fun x => stampable p k x w) l ->
  ordered p (hist w) -> away_at p ns (hist w) -> calm t (each (mark_now k ns) l) w.
Proof using Type.
  intros HI Ht Hl Hor Haw.
  apply (calm_each t (fun x w => stampable p k x w /\ ordered p (hist w) /\ away_at p ns (hist w))); [| |done|].
  - intros x w1 w2 Hr (? & ? & ?). split; [by eapply stampable_rely|]. split; [by eapply ordered_rely|by eapply away_rely].
  - intros x w1 (Hx & Ho & Ha) HI1. unfold mark_now, now_body. destruct (system_annotation (metadata x) REMOVED_AT) as [v|] eqn:Ev; [|by apply calm_ret]. cbn [option_fmap option_map fmap].
    eapply calm_stamp; [exact Hx|done|]. destruct Hx as [Hx Hp]. apply body_intro; [| |done].
    + rewrite <- Hp. by eapply m_removed; [apply Hx|].
    + right. split; [done|]. exists ns. auto.
  - eapply Forall_impl; [exact Hl|]. auto.
Qed.

Lemma calm_mark_pair_now t s c p j w : Inv w -> team_ok p = true -> Told t p j ∈ hist w -> away j = true ->
  entitled t p.2 (hist w) -> calm t (mark_pair_now s c p) w.
Proof using Type.
  intros HI Ht Hj Haw Hen. assert (ordered p (hist w)) as Hor by (exists t, j; auto).
  unfold mark_pair_now. apply calm_bind; [by apply calm_reconcile_pair|]. intros _ w1 Hr1 HI1 Q HQ.
  apply wp_bind, wp_list_all; [|intros e w2 Hr2 HI2; by apply HQ].
  intros o w2 Hr2 HI2 Hb _ _. apply wp_bind, cluster_wp_now. intros ns w3 Hr3 HI3 _ _ Haway.
  assert (rely t w w2) as Hr02 by by etrans. assert (rely t w w3) as Hr03 by by etrans.
  match goal with |- wp _ _ _ t ?q _ _ => assert (calm t q w3) as Hc end.
  { assert (both w3 o) as Hb3 by exact (both_rely _ _ _ _ Hr3 Hb).
    assert (away_at p ns (hist w3)) as Ha by (apply (Haway p j); [exact (hist_rely _ _ _ _ Hr02 Hj)|done]).
    apply calm_bind; [apply (calm_mark_now t p); [done|done|apply of_pair_seen, Hb3|exact (ordered_rely _ _ _ _ Hr03 Hor)|done]|].
    intros m1 w4 Hr4 HI4. apply calm_bind.
    - apply (calm_mark_now t p); [done|done| |exact (ordered_rely _ _ _ _ Hr4 (ordered_rely _ _ _ _ Hr03 Hor))|exact (away_rely _ _ _ _ _ Hr4 Ha)].
      apply of_pair_seen. eapply seen_all_rely; [done|apply Hb3].
    - intros m2 w5 Hr5 HI5. apply calm_if; [by apply calm_ret|]. apply calm_bind; [apply calm_quiet, quiet_audit|]. intros _ w6 Hr6 HI6.
      apply calm_bind; [|intros; by apply calm_ret]. unfold deletes_enabled. apply calm_bind; [|intros; by apply calm_ret].
      by apply calm_quiet; intros ? ? ? ?. }
  apply Hc. intros a w4 Hr4 HI4. apply HQ; [|done]. etrans; [exact Hr2|]. by etrans.
Qed.

Lemma calm_delete_now t s c te ow body w : Inv w -> calm t (delete_now s c te ow body) w.
Proof using Type.
  intros HI. unfold delete_now. destruct (team_pair ow te) eqn:Et; cbn [negb orb]; [|by apply calm_ret].
  apply calm_if; [by apply calm_ret|]. intros Q HQ. apply wp_bind, wp_may_manage; [done|].
  intros [r|] w1 Hr1 HI1 Hen; [by apply HQ|]. specialize (Hen eq_refl).
  destruct (has_kube s && has_directory s); cbn [negb]; [|by apply HQ]. set (p := (norm ow, norm te)). cbn zeta.
  assert (forall q w2, rely t w1 w2 -> calm t q w2 -> wpc t q w2 Q) as Hend.
  { intros q w2 Hr2 Hc. apply Hc. intros a w3 Hr3 HI3. apply HQ; [|done]. etrans; [exact Hr1|]. by etrans. }
  apply wp_bind, wp_told.
  - intros j w2 Hr2 HI2 Hj. assert (away j = true -> calm t (mark_pair_now s c p) w2) as Hm.
    { intros Ha. apply (calm_mark_pair_now _ _ _ _ j); [done|exact Et|done|done|by eapply entitled_rely]. }
    destruct j; apply Hend; auto. by apply calm_ret.
  - intros e w2 Hr2 HI2. apply Hend; [done|]. apply calm_bind; [by apply calm_quiet; intros ? ? ? ?|intros; by apply calm_ret].
Qed.
End rules.
