(* ===== verification/ControllerRules.v ===== *)
(** * ControllerRules: a rule per function of the controller, and the entry points

    The election writes the next term or its own again; the GC deletes only what it found due, under
    a fresh beat, after a read of the lease that named its term. *)

From S2P Require Import Prelude Text Names Prog Cluster Controller Removal ClusterInv RemovalRules.
Local Open Scope string_scope.
Local Open Scope Z_scope.

(** ** What one step of the election writes *)
Lemma as_i32_small z : 0 <= z < 2 ^ 31 -> as_i32 z = z.
Proof. intros Hz. unfold as_i32. rewrite Z.mod_small; lia. Qed.

Lemma cur_term_nonneg w : 0 <= cur_term w.
Proof. unfold cur_term, view_of. destruct (lease w) as [l|]; cbn; [|done]. unfold view. destruct (lease_spec l); cbn; lia. Qed.

Lemma decided_term w n me step e cur now : lease_decide n me (view_of (lease w)) = step -> step = Acquire e \/ step = Renew e ->
  Terms w -> term_step w (Some (term_spec me step e cur now)).
Proof.
  intros Hd He HT. pose proof (t_max w HT) as Hm. pose proof (cur_term_nonneg w) as H0. unfold term_max in Hm.
  unfold term_step, term_of, hold, shown. cbn.
  destruct (view_of (lease w)) as [c|] eqn:Ev; cbn in Hd.
  - assert (cur_term w = transitions c /\ cur_holder w = holder c) as [Et Eh] by (unfold cur_term, cur_holder; by rewrite Ev).
    rewrite Et in *. destruct (n <=? _) eqn:El; [destruct (String.eqb_spec (holder c) me) as [Em|]|].
    + subst step. destruct He as [|[= <-]]; [done|]. rewrite as_i32_small by lia. right. split; [lia|right; congruence].
    + subst step. by destruct He.
    + subst step. destruct He as [[= <-]|]; [|done]. left. unfold sat_add32, u32_max. rewrite Z.min_r by lia. rewrite as_i32_small; lia.
  - assert (cur_term w = 0) as Et by (unfold cur_term; by rewrite Ev). subst step. destruct He as [[= <-]|]; [|done].
    left. rewrite Et. by vm_compute.
Qed.

Lemma blanked_step w l : lease w = Some l -> term_step w (blanked <$> lease_spec l).
Proof.
  intros El. right. unfold cur_term, view_of. rewrite El. unfold term_of, shown, hold, view. cbn.
  destruct (lease_spec l); cbn; auto.
Qed.

Section rules.
Context `{!Rfc3339}.
Variable pod : nat -> string.
Hypothesis pods : forall t, check_holder (pod t) = true.
Abbreviation wpc := (wp (cluster_sem pod) Inv rely).
Abbreviation calm := (calm pod).
Implicit Types (w : World).

(** ** Terms *)

(** A lease as read: whoever has its revision is it. *)
Definition read_at w (l : Lease) : Prop := (lease_rv l < revision w)%nat /\
  forall l', lease w = Some l' -> lease_rv l' = lease_rv l -> l' = l.
Lemma read_at_rely t w w' l : rely t w w' -> read_at w l -> read_at w' l.
Proof using Type.
  intros [_ Hr _ _ Hl] [H1 H2]. split; [lia|]. intros l' Hl' Ev.
  destruct Hl as [El|(l2 & El & ?)]; rewrite El in Hl'; [by apply H2|]. simplify_eq. lia.
Qed.

Lemma wp_getlease t w Q :
  (forall r w', rely t w w' -> Inv w' -> (forall l, r = KOk l -> Saw t l ∈ hist w' /\ forall l', l = Some l' -> read_at w' l') -> Q r w') ->
  wpc t (trigger KGetLease) w Q.
Proof using Type.
  intros HQ. apply wp_one. intros w1 r w2 Hr HI He. cbn in He. destruct r as [l|c e|e]; [|subst w2..].
  2,3: split; [split; [done|intros; reflexivity]|]; intros _ Hr2 HI2; apply HQ; [done..|]; intros l [=].
  destruct He as [-> ->]. split; [by apply inv_note|]. intros _ Hr2 HI2. apply HQ; [done..|]. intros l [= <-].
  split; [by left|]. intros l' El. split; [cbn; by apply (i_lease w1 HI)|]. intros l2 El2 _. cbn in El2. congruence.
Qed.

Lemma cluster_wp_load t w Q : (forall e w', rely t w w' -> Inv w' -> Loaded t e ∈ hist w' -> Q e w') -> wpc t (trigger LoadEpoch) w Q.
Proof using Type.
  intros HQ. apply wp_one. intros w1 e w2 Hr HI [_ ->]. split; [by apply inv_note|]. intros _ Hr2 HI2. apply HQ; [done|done|by left].
Qed.

Lemma calm_swap t e w : (forall w', rely t w w' -> e = 0 \/ wrote (hist w') (pod t) e) -> calm t (trigger (SwapEpoch e) ;;! Ret tt) w.
Proof using pods.
  intros He. apply calm_bind; [|intros; by apply calm_ret]. intros Q HQ. apply wp_one. intros w1 x w2 Hr HI [_ ->].
  split; [|intros; by apply HQ]. apply step_epoch; [done|]. destruct (He w1 Hr) as [->|Hw]; [by left|right]. split; [|done].
  specialize (pods t). unfold check_holder in pods. bools. by apply String.eqb_neq.
Qed.

Lemma calm_demote t w : calm t demote w.
Proof using pods. apply calm_swap. auto. Qed.

Lemma wp_put_lease t (e : KE (kube Lease)) s (pre : World -> Prop) w Q :
  (forall w1 r w2, cluster_sem pod t _ e w1 r w2 -> attempt (fun l' w' => pre w1 /\ lease_done t s w1 l' w') w1 r w2) ->
  (forall w1, rely t w w1 -> pre w1 -> Terms w1 -> term_step w1 s) ->
  (forall r w', rely t w w' -> Inv w' -> (forall l, r = KOk l -> lease_spec l = s /\
     forall p, s ≫= holder_identity = Some p -> wrote (hist w') p (term_of s)) -> Q r w') ->
  wpc t (trigger e) w Q.
Proof using Type.
  intros Hs Hstep HQ. apply (wp_attempt pod t e (fun w1 l' w' => pre w1 /\ lease_done t s w1 l' w')); [done| |].
  - intros w1 l w2 Hr HI (Hpre & -> & ->). apply step_lease; [done|]. by apply Hstep.
  - intros r w1 w2 Hr Hr2 HI2 Hl. apply HQ; [by etrans|done|]. intros l ->. destruct (Hl l eq_refl) as (_ & -> & ->). split; [done|].
    intros p Hp. exists t, (s ≫= lease_transitions). rewrite Hp. split; [by left|done].
Qed.

(** One round of the election. *)
Lemma wp_write t me step cur now n w Q : Inv w -> lease_decide n me (view_of cur) = step ->
  (forall l, cur = Some l -> read_at w l) ->
  (forall r w', rely t w w' -> Inv w' -> (forall l, r = inl (Some l) -> forall v, view l = Some v -> holder v = me -> wrote (hist w') me (transitions v)) -> Q r w') ->
  wpc t (Controller.write me step cur now) w Q.
Proof using Type.
  intros HI Hd Hcur HQ. unfold Controller.write.
  assert (forall e, step = Acquire e \/ step = Renew e -> wpc t
    match cur with
    | Some existing => let! r := trigger (KReplaceLease (mkLease (lease_rv existing) (Some (term_spec me step e cur now)))) in Ret (won r)
    | None => let! r := trigger (KCreateLease (term_spec me step e cur now)) in Ret (won r)
    end w Q) as Hput.
  { intros e He. set (s := Some (term_spec me step e cur now)).
    assert (forall (r : kube Lease) w', rely t w w' -> Inv w' -> (forall l, r = KOk l -> lease_spec l = s /\
      forall p, s ≫= holder_identity = Some p -> wrote (hist w') p (term_of s)) -> Q (won r) w') as Hend.
    { intros r w' Hr HI' Hl. apply HQ; [done..|]. intros l Hw v Hv Hh.
      assert (r = KOk l) as -> by (unfold won in Hw; repeat case_match; congruence).
      destruct (Hl l eq_refl) as [El Hp]. unfold view in Hv. rewrite El in Hv. cbn in Hv. injection Hv as <-. cbn in *. by apply Hp. }
    destruct cur as [l|]; apply wp_bind.
    - apply (wp_put_lease t _ s (fun w1 => exists cur, lease w1 = Some cur /\ lease_rv cur = lease_rv l)); [by intros| |exact Hend].
      intros w1 Hr1 (cur & Hc & Ev) HT. eapply decided_term; [|exact He|done].
      assert (read_at w1 l) as [_ Hs] by (by eapply read_at_rely, Hcur). rewrite Hc, (Hs _ Hc Ev). exact Hd.
    - apply (wp_put_lease t _ s (fun w1 => lease w1 = None)); [by intros| |exact Hend].
      intros w1 Hr1 Hc HT. eapply decided_term; [|exact He|done]. by rewrite Hc. }
  destruct step as [e|e|]; [apply Hput; by left|apply Hput; by right|]. apply HQ; [reflexivity|done|done].
Qed.

Lemma calm_tick t w : Inv w -> calm t (tick_once (pod t)) w.
Proof using pods.
  intros HI Q HQ. unfold tick_once. apply wp_bind, wp_getlease. intros r w1 Hr1 HI1 Hl.
  destruct r as [cur|c e|e]; [|by apply (calm_demote t w1); intros; apply HQ; [by etrans|]..].
  destruct (Hl cur eq_refl) as [_ Hcur]. clear Hl.
  apply wp_bind, cluster_wp_now. intros now w2 Hr2 HI2 _ _ _. cbn zeta. assert (rely t w w2) as Hr by by etrans.
  assert (forall q w3, rely t w2 w3 -> calm t q w3 -> wpc t q w3 Q) as Hend.
  { intros q w3 Hr3 Hc. apply Hc. intros a w4 Hr4 HI4. apply HQ; [|done]. etrans; [exact Hr|]. by etrans. }
  set (n := Z.max 0 _). destruct (lease_decide n (pod t) (view_of cur)) as [e|e|] eqn:Ed; [| |apply Hend; [done|apply calm_demote]].
  all: apply wp_bind; eapply wp_write; [done|exact Ed|intros l ->; eapply read_at_rely; [exact Hr2|by apply Hcur]|].
  all: intros [[l|]|e'] w3 Hr3 HI3 Hw; [|by apply Hend; [done|apply calm_demote]..].
  all: destruct (view l) as [v|] eqn:Ev; [|by apply Hend; [done|apply calm_demote]].
  all: destruct (String.eqb_spec (holder v) (pod t)) as [Eh|]; [|by apply Hend; [done|apply calm_demote]].
  all: destruct (transitions v =? 0); [by apply Hend; [done|apply calm_demote]|].
  all: apply Hend; [done|]; apply calm_swap; intros w4 [[l4 ->] _ _ _ _]; right; apply wrote_app; by eapply Hw.
Qed.

Lemma calm_release t w : Inv w -> calm t (release (pod t)) w.
Proof using Type.
  intros HI Q HQ. unfold release. apply wp_bind, wp_getlease. intros r w1 Hr1 HI1 Hl.
  destruct r as [[cur|]|c e|e]; [|by apply HQ..]. destruct (is_some_and _ _); [by apply HQ|].
  destruct (Hl _ eq_refl) as [_ Hc]. specialize (Hc cur eq_refl). apply wp_bind.
  apply (wp_put_lease t _ (blanked <$> lease_spec cur) (fun w1 => exists c, lease w1 = Some c /\ lease_rv c = lease_rv cur)); [by intros| |].
  - intros w2 Hr2 (c & El & Ev) _. destruct (read_at_rely _ _ _ _ Hr2 Hc) as [_ Hs]. rewrite (Hs c El Ev) in El. by apply blanked_step.
  - intros r w2 Hr2 HI2 _. apply HQ; [by etrans|done].
Qed.

Lemma calm_shut_down t w : Inv w -> calm t (shut_down (pod t)) w.
Proof using pods. intros HI. unfold shut_down. apply calm_bind; [apply calm_demote|]. intros. by apply calm_release. Qed.
(** ** The GC *)
Lemma hist_stored k x y w : hist (stored k x y w) = hist w.
Proof using Type. unfold stored. by case_decide. Qed.

Lemma due_rely t w w' t' x ns : rely t w w' -> due_ok t' x ns (hist w) -> due_ok t' x ns (hist w').
Proof using Type. intros Hr (H1 & H2). split; [by eapply hist_rely|done]. Qed.
Lemma alive_rely t w w' t' ns : rely t w w' -> alive_ok t' ns (hist w) -> alive_ok t' ns (hist w').
Proof using Type.
  intros [[m ->] _ _ _ _] (l & H1 & H2 & t2 & s & h1 & h2 & E & H3). exists l. rewrite elem_of_app. split; [by right|].
  split; [done|]. exists t2, s, (m ++ h1)%list, h2. by rewrite E, <- app_assoc.
Qed.
Lemma fenced_rely t w w' t' : rely t w w' -> fenced_ok t' (hist w) -> fenced_ok t' (hist w').
Proof using Type. intros Hr (cur & e & H1 & H2 & H3). exists cur, e. split; [by eapply hist_rely|]. split; [by eapply hist_rely|done]. Qed.

Lemma wp_may_write t w Q : Inv w ->
  (forall b w', rely t w w' -> Inv w' -> (b = true -> fenced_ok t (hist w')) -> Q b w') -> wpc t may_write w Q.
Proof using pods.
  intros HI HQ. unfold may_write, leading. apply wp_bind, wp_bind, cluster_wp_load. intros e w1 Hr1 HI1 _. cbn [wp].
  destruct (e =? 0); cbn [negb]; [by apply HQ|].
  assert (forall w2, rely t w w2 -> wpc t (demote ;;! Ret false) w2 Q) as Hend.
  { intros w2 Hr2. apply wp_bind, calm_demote. intros _ w3 Hr3 HI3. apply HQ; [by etrans|done|done]. }
  apply wp_bind, wp_getlease. intros r w2 Hr2 HI2 Hl. assert (rely t w w2) as Hr by by etrans.
  destruct r as [cur|c m|m]; [|by apply Hend..]. destruct (Hl cur eq_refl) as [Hs _].
  apply wp_bind, cluster_wp_load. intros e2 w3 Hr3 HI3 Hld. assert (rely t w w3) as Hr' by (etrans; [exact Hr|done]).
  destruct (term_matches e2 (view_of cur)) eqn:Em; [|by apply Hend].
  apply HQ; [done|done|]. intros _. exists cur, e2. split; [exact (hist_rely _ _ _ _ Hr3 Hs)|done].
Qed.

(** What the pass holds of an object it is to delete. *)
Definition doomed t ns (d : Due) w : Prop := exists x, seen w (d_kind d) x /\ due_ok t x ns (hist w) /\
  d_name d = name (metadata x) /\ d_uid d = uid (metadata x) /\ d_rv d = resource_version (metadata x).
Lemma doomed_rely t ns d w w' : rely t w w' -> doomed t ns d w -> doomed t ns d w'.
Proof using Type. intros Hr (x & H1 & H2 & H3). exists x. split; [by eapply seen_rely|]. split; [by eapply due_rely|done]. Qed.

Lemma due_spec k now x d : due k now x = Some d ->
  d_kind d = k /\ d_name d = name (metadata x) /\ d_uid d = uid (metadata x) /\ d_rv d = resource_version (metadata x) /\
  deletion_timestamp (metadata x) = None /\ exists v z, system_annotation (metadata x) DELETE_AFTER = Some v /\
    jiff_seconds v = Some z /\ z + DELETE_SLACK_SECS <= now.
Proof using Type.
  unfold due. destruct (deletion_timestamp (metadata x)); [done|]. cbn [is_some]. intros (v & Hv & (z & Hz & Hd)%bind_Some)%bind_Some.
  destruct (_ <=? now) eqn:El; [|done]. injection Hd as <-. bools. split_and!; try done. by exists v, z.
Qed.

Lemma todo_doomed t ns l1 l2 w d : Clocked t ns ∈ hist w -> Forall (seen w Workspace) l1 -> Forall (seen w SpaceEnvironment) l2 ->
  d ∈ todo_of (as_second ns) l1 l2 -> doomed t ns d w.
Proof using Type.
  intros Hc H1 H2 Hd.
  assert (exists k x, seen w k x /\ due k (as_second ns) x = Some d) as (k & x & Hx & He).
  { rewrite Forall_forall in H1, H2. unfold todo_of in Hd. rewrite !elem_of_app, !list_elem_of_omap in Hd.
    setoid_rewrite list_elem_of_filter in Hd. destruct Hd as [(x & [_ ?] & ?)|[(x & [_ ?] & ?)|(x & ? & ?)]]; eauto. }
  destruct (due_spec _ _ _ _ He) as (<- & ? & ? & ? & ? & v & z & ? & ? & ?). exists x. split; [done|]. split; [|done].
  split; [done|]. split; [done|]. by exists v, z.
Qed.

Lemma calm_delete_one t ns d w : Inv w -> doomed t ns d w -> alive_ok t ns (hist w) -> fenced_ok t (hist w) -> calm t (delete_one d) w.
Proof using Type.
  intros HI (x & Hx & Hdue & Hn & Hu & Hv) Hal Hfe. unfold delete_one. apply calm_bind.
  - intros Q HQ. rewrite Hn, Hu, Hv. set (k := d_kind d) in *.
    apply (wp_attempt pod t _ (fun w1 _ => delete_done t k (name (metadata x)) (uid (metadata x)) (resource_version (metadata x)) w1)); [by intros| |].
    + intros w1 _ w2 Hr HI1 (y & Hy & _ & Ev & Hw2). destruct (seen_rely _ _ _ _ _ Hr Hx) as [_ _ Hsame _].
      assert (y = x) as -> by by apply Hsame. clear Ev Hsame.
      assert (deletion_ok t k x (hist w1)) as Hok.
      { exists ns. split; [by eapply due_rely|]. split; [by eapply alive_rely|]. split; [by eapply fenced_rely|]. by eapply s_marks, seen_rely. }
      destruct Hw2 as [->|[z ->]]; (eapply inv_step_trans; [|intros HI2; apply inv_note; [done|cbn [event_ok]; rewrite ?hist_stored; exact Hok|done]]).
      * by apply step_delete.
      * destruct (i_obj w1 HI1 _ _ _ Hy) as (_ & _ & [? ? ? ?]). apply step_stored; [done..|by split].
    + intros r w1 w2 Hr Hr2 HI2 _. apply HQ; [by etrans|done].
  - intros r w1 Hr HI1. destruct r; [|by apply calm_ret..]. destruct (d_env d); [|by apply calm_ret].
    apply calm_bind; [by apply calm_quiet; intros ? ? ? ?|intros; by apply calm_ret].
Qed.

Lemma calm_delete_due t ns on todo w : Inv w -> Forall (fun d => doomed t ns d w) todo -> (on = true -> todo <> [] -> alive_ok t ns (hist w)) ->
  calm t (delete_due on todo) w.
Proof using pods.
  revert w. induction todo as [|d todo IH]; intros w HI Hd Hal; cbn [delete_due]; [by apply calm_ret|].
  apply Forall_cons in Hd as [Hd Hds]. destruct on; cbn [negb]; [|by apply IH].
  specialize (Hal eq_refl ltac:(done)). intros Q HQ. apply wp_bind, wp_may_write; [done|]. intros b w1 Hr1 HI1 Hf.
  destruct b; cbn [negb]; [|by apply HQ].
  assert (calm t (delete_one d ;;! delete_due true todo) w1) as Hc.
  { apply calm_bind; [eapply calm_delete_one; [done|by eapply doomed_rely|by eapply alive_rely|auto]|].
    intros _ w2 Hr2 HI2. assert (rely t w w2) as Hr by by etrans. apply IH; [done| |].
    - eapply Forall_impl; [exact Hds|]. intros d'. by apply doomed_rely.
    - intros _ _. by eapply alive_rely. }
  apply Hc. intros a w2 Hr2 HI2. apply HQ; [by etrans|done].
Qed.

Lemma wp_beat_alive t ns w Q : Inv w ->
  (forall b w', rely t w w' -> Inv w' -> (b = true -> alive_ok t ns (hist w')) -> Q b w') -> wpc t (beat_alive (as_second ns)) w Q.
Proof using Type.
  intros HI HQ. unfold beat_alive. apply wp_bind, wp_one. intros w1 r w2 Hr HI1 He. cbn in He.
  destruct r as [l|c e|e]; [|subst w2; split; [split; [done|intros; reflexivity]|]; intros _ Hr2 HI2; by apply HQ..].
  destruct He as [-> ->]. split; [by apply inv_note|]. intros Hr1 Hr2 HI2. apply HQ; [done..|]. intros Hf.
  exists (beat w1). split; [by left|]. split; [done|]. unfold beat_fresh in Hf.
  destruct (beat w1) as [l|] eqn:Eb; [|done]. cbn in *. destruct (lease_spec l) as [s|] eqn:Es; [|done].
  destruct (i_beat w1 HI1 l s Eb Es) as [t' [h1 [h2 Hh]]%list_elem_of_split]. exists t', s, (SawBeat t (Some l) :: h1)%list, h2. by rewrite Hh.
Qed.

Lemma calm_gc_tick t w : Inv w -> calm t gc_tick w.
Proof using pods.
  intros HI Q HQ. unfold gc_tick, leading, pass. apply wp_bind, wp_bind, cluster_wp_load. intros e w1 Hr1 HI1 _. cbn [wp].
  destruct (negb _); [|by apply HQ]. apply wp_bind, cluster_wp_now. intros ns w2 Hr2 HI2 _ Hcl _. assert (rely t w w2) as Hr02 by by etrans.
  apply wp_bind, wp_list_of; [|intros m w3 Hr3 HI3; apply HQ; [by etrans|done]]. intros l1 w3 Hr3 HI3 Hs1 _.
  assert (rely t w w3) as Hr03 by (etrans; [exact Hr02|done]).
  apply wp_bind, wp_list_of; [|intros m w4 Hr4 HI4; apply HQ; [by etrans|done]]. intros l2 w4 Hr4 HI4 Hs2 _. cbn zeta.
  apply wp_bind, cluster_wp_quiet; [by intros ? ? ? ?|]. intros on w5 Hr5 HI5.
  assert (rely t w3 w5) as Hr35 by by etrans. assert (rely t w w5) as Hr05 by (etrans; [exact Hr03|done]).
  assert (Forall (fun d => doomed t ns d w5) (todo_of (as_second ns) l1 l2)) as Hd.
  { apply Forall_forall. intros d. apply todo_doomed.
    - exact (hist_rely _ _ _ _ Hr35 (hist_rely _ _ _ _ Hr3 Hcl)).
    - exact (seen_all_rely _ _ _ _ _ Hr35 Hs1).
    - exact (seen_all_rely _ _ _ _ _ Hr5 Hs2). }
  set (todo := todo_of _ _ _) in *. apply wp_bind. destruct on; cbn [andb].
  - destruct (decide (todo = [])) as [E|E]; [rewrite bool_decide_eq_true_2 by done|rewrite bool_decide_eq_false_2 by done]; cbn [negb].
    + rewrite E. by apply HQ.
    + apply wp_beat_alive; [done|]. intros b w6 Hr6 HI6 Hb. assert (rely t w w6) as Hr06 by (etrans; [exact Hr05|done]).
      destruct b; [|by apply HQ]. apply (calm_delete_due t ns).
      * done.
      * eapply Forall_impl; [exact Hd|]. intros d'. by apply doomed_rely.
      * intros _ _. by apply Hb.
      * intros a w7 Hr7 HI7. apply HQ; [by etrans|done].
  - apply (calm_delete_due t ns); [done|done|done|]. intros a w6 Hr6 HI6. apply HQ; [by etrans|done].
Qed.

(** ** The programs of the region *)
Inductive entry (t : nat) : kprog unit -> Prop :=
| e_tick : entry t (tick_once (pod t))
| e_stop : entry t (shut_down (pod t))
| e_gc : entry t gc_tick
| e_beat s : entry t (membership_beat s)
| e_pair s o te : entry t (reconcile_pair s o te)
| e_now s c te o body : entry t (delete_now s c te o body ;;! Ret tt)
| e_others : entry t (trigger Others).

Lemma cluster_entry_safe t p w : entry t p -> Inv w -> wpc t p w (fun _ _ => True).
Proof using pods.
  intros He HI. assert (calm t p w) as Hc.
  { destruct He.
    - by apply calm_tick.
    - by apply calm_shut_down.
    - by apply calm_gc_tick.
    - by apply calm_beat.
    - by apply calm_reconcile_pair.
    - apply calm_bind; [by apply calm_delete_now|intros; by apply calm_ret].
    - intros Q HQ. apply wp_one. intros w1 x w2 Hr HI1 Ho. split; [by apply step_outside|]. intros _ ? ?. by apply HQ. }
  by apply Hc.
Qed.

(** A region to start from: nothing stamped, no beat yet, no controller elected. *)
Record fresh_region w : Prop := {
  f_objs : forall k n x, objs w !! (k, n) = Some x ->
    (name (metadata x) = n /\ (owner x, team x) = home w (k, n)) /\ (resource_version (metadata x) < revision w)%nat /\ unmarked x;
  f_lease : forall l, lease w = Some l -> (lease_rv l < revision w)%nat;
  f_term : cur_term w < term_max;
  f_beat : beat w = None;
  f_epochs : forall p, epoch_of w p = 0;
  f_hist : hist w = [];
}.

Lemma region_holds w : fresh_region w -> Inv w.
Proof using Type.
  intros [H1 H2 H3 H4 H5 H6]. split.
  - intros k n x Hx. destruct (H1 k n x Hx) as (? & ? & ?). split; [done|]. split; [done|]. by apply marks_unmarked.
  - done.
  - intros l s. by rewrite H4.
  - intros h1 t k x h2. rewrite H6. by destruct h1.
  - intros h1 t s h2. rewrite H6. by destruct h1.
  - split; intros p; by rewrite H5.
  - intros _. assert (forall p e, ~ wrote (hist w) p e) as Hw.
    { intros p e (t & o & Hin & _). rewrite H6 in Hin. by apply elem_of_nil in Hin. }
    split; [done|by intros p e ?%Hw..| |]; [intros p Hp; by apply Hw in Hp|intros p q e Hp; by apply Hw in Hp].
Qed.

Abbreviation steps := (rtc (pstep (cluster_sem pod) entry)).
Lemma region_inv w w' ps : fresh_region w -> steps (w, []) (w', ps) -> Inv w'.
Proof using pods.
  intros Hf. apply (reach_invariant (cluster_sem pod) entry Inv rely); [|by apply region_holds]. intros t p s. apply cluster_entry_safe.
Qed.
End rules.
