(* ===== verification/RemovalProps.v ===== *)
(** * RemovalProps: what a deletion rests on, and one holder to a term

    In every interleaving of any number of controllers and api replicas, of admins and of whoever else
    edits objects and teams, with requests that fail or are done and not answered. *)

From S2P Require Import Prelude Text Names Prog Cluster Controller Removal ClusterInv RemovalRules ControllerRules.
Local Open Scope string_scope.
Local Open Scope Z_scope.

Section props.
Context `{!Rfc3339}.
Variable pod : nat -> string.
Hypothesis pods : forall t, check_holder (pod t) = true.
Abbreviation steps := (rtc (pstep (cluster_sem pod) (entry pod))).
Variables (w w' : World) (ps : list (task (E := KE) (T := nat))).
Hypothesis Hw : fresh_region w.
Hypothesis Hsteps : steps (w, []) (w', ps).

(** The mark of a deleted object is a time [away_at] names, or an admin's order. *)
Lemma after_parsed p v d h : after_ok p v h -> jiff_seconds v = Some d ->
  (exists ns, away_at p ns h /\ d = seconds ns + MEMBER_REMOVAL_GRACE) \/ ordered p h /\ exists ns, away_at p ns h /\ d = seconds ns.
Proof using Type.
  intros Ha Hd. assert (forall ns, away_at p ns h -> 0 <= ns < 2 ^ 63 /\ 0 <= seconds ns * 1000000000 <= ns) as Hns.
  { intros ns (? & ? & ? & ? & ? & ? & ? & Hc). split; [exact Hc|by apply seconds_range]. }
  destruct Ha as [(ns & Ha & ->)|(Ho & ns & Ha & Hv)]; destruct (Hns ns Ha) as [Hc Hs].
  - left. exists ns. split; [done|]. destruct (printed_read (seconds ns + MEMBER_REMOVAL_GRACE)) as [_ Hp]; [unfold MEMBER_REMOVAL_GRACE; lia|]. congruence.
  - right. split; [done|]. exists ns. split; [done|]. destruct Hv as [->| ->].
    + rewrite jiff_printed in Hd by lia. unfold seconds. congruence.
    + destruct (printed_read (seconds ns)) as [_ Hp]; [lia|]. congruence.
Qed.

(** C8: the GC deletes nobody's data who was not found to have left: a deleted object belongs to a
    (person, team) pair, was not already going, and was due by the pass's clock, past the slack; and
    before that the directory had said that the person is not in the team, or that the team is gone, a
    full grace before the due time, or else at the due time with an order to delete now from an admin
    of the team or a superadmin. *)
Theorem deleted_was_away h1 t k x h2 : hist w' = (h1 ++ Deleted t k x :: h2)%list ->
  candidate x = true /\ deletion_timestamp (metadata x) = None /\
  exists ns d, Clocked t ns ∈ h2 /\ d + DELETE_SLACK_SECS <= as_second ns /\
    ((exists ns0, away_at (pair_of x) ns0 h2 /\ d = seconds ns0 + MEMBER_REMOVAL_GRACE) \/
     (ordered (pair_of x) h2 /\ exists ns0, away_at (pair_of x) ns0 h2 /\ d = seconds ns0)).
Proof using pods Hw Hsteps.
  intros Hh. pose proof (region_inv pod pods w w' ps Hw Hsteps) as HI.
  destruct (i_deleted w' HI h1 t k x h2 Hh) as (ns & (Hc & Hdt & v & d & Hv & Hd & Hle) & _ & _ & Hm).
  split; [|split; [done|]].
  - eapply m_team; [exact Hm| |exact Hv]. unfold stamps. set_solver.
  - exists ns, d. split; [done|]. split; [done|]. apply (after_parsed _ v); [|done]. by eapply m_after.
Qed.

(** C10: the GC deletes only while re-adds are being cleared: before every deletion some api replica
    had judged, with an answer of the directory's for each, every pair of its listing of both kinds,
    no more than two beats before the pass's clock. *)
Theorem deleted_under_beat h1 t k x h2 : hist w' = (h1 ++ Deleted t k x :: h2)%list ->
  exists ns t' ns' l1 l2, Clocked t ns ∈ h2 /\ Clocked t' ns' ∈ h2 /\
    as_second ns - as_second ns' <= 2 * KEYS_RESYNC_SECS /\
    Listed t' Workspace l1 ∈ h2 /\ Listed t' SpaceEnvironment l2 ∈ h2 /\
    forall p, p ∈ pairs (mkObjects l1 l2) -> exists j, Told t' p j ∈ h2.
Proof using pods Hw Hsteps.
  intros Hh. pose proof (region_inv pod pods w w' ps Hw Hsteps) as HI.
  destruct (i_deleted w' HI h1 t k x h2 Hh) as (ns & (Hc & _) & (l & _ & Hf & t' & s & g1 & g2 & Eg & Hs) & _ & _).
  assert (beat_ok t' s g2) as (ns' & l1 & l2 & Hr & Hc' & H1 & H2 & Hp).
  { apply (i_beats w' HI (h1 ++ Deleted t k x :: g1)). by rewrite Hh, Eg, <- app_assoc. }
  unfold beat_fresh in Hf. rewrite Hs in Hf. cbn in Hf. rewrite Hr in Hf. cbn in Hf. bools.
  assert (forall e, e ∈ g2 -> e ∈ h2) as Hm by (intros e He; rewrite Eg, elem_of_app, elem_of_cons; auto).
  exists ns, t', ns', l1, l2. split; [done|]. split; [auto|]. split; [done|]. split; [auto|]. split; [auto|].
  intros p Hp'. destruct (Hp p Hp') as [j Hj]. exists j. auto.
Qed.

(** C9: a term has one holder: as long as the count of terms fits the Lease's field, no two controllers
    believe themselves elected under the same one, and what a controller believes was written to the
    lease under its own name. *)
Theorem term_has_one_holder t1 t2 : counted (hist w') -> epoch_of w' (pod t1) <> 0 -> epoch_of w' (pod t1) = epoch_of w' (pod t2) ->
  pod t1 = pod t2 /\ wrote (hist w') (pod t1) (epoch_of w' (pod t1)).
Proof using pods Hw Hsteps.
  intros Hc H0 He. pose proof (region_inv pod pods w w' ps Hw Hsteps) as HI. destruct (i_held w' HI) as [Hw1 Hp1].
  split; [|by apply Hw1].
  pose proof (Hw1 _ H0) as W1. pose proof (Hw1 (pod t2) ltac:(congruence)) as W2. rewrite <- He in W2.
  assert (0 < epoch_of w' (pod t1)) as Hpos.
  { destruct W1 as (? & o & _ & Hs). unfold shown in Hs. lia. }
  destruct (t_one w' (i_terms w' HI Hc) _ _ _ W1 W2 Hpos) as [|[E|E]]; [done|..]; exfalso.
  - by apply (Hp1 _ H0).
  - apply (Hp1 (pod t2)); [congruence|done].
Qed.

(** A deletion is made under a term: before it the lease was read, and named the term its
    controller had. *)
Theorem deleted_under_term h1 t k x h2 : hist w' = (h1 ++ Deleted t k x :: h2)%list ->
  exists cur e, Saw t cur ∈ h2 /\ Loaded t e ∈ h2 /\ term_matches e (view_of cur) = true.
Proof using pods Hw Hsteps.
  intros Hh. pose proof (region_inv pod pods w w' ps Hw Hsteps) as HI.
  by destruct (i_deleted w' HI h1 t k x h2 Hh) as (ns & _ & _ & Hf & _).
Qed.
End props.
