(* ===== verification/RemovalAlone.v ===== *)
(** * RemovalAlone: a beat and a pass of the GC, with nobody else about

    Loops over pairs, over listings and over stamps, each turn a request by name, come to one function
    of each object ([settle]), and that function to a table ([ruled]) in words of its own; and the GC
    takes exactly what is due. *)

From stdpp Require Import sorting.
From S2P Require Import Prelude Text Names Prog Cluster Controller Removal ClusterInv RemovalRules ControllerRules.
Local Open Scope string_scope.
Local Open Scope Z_scope.

(** * A region whose requests are answered *)

Section machine.
(** Each task's pod and clock, what the others do when it is their turn, and whether deletes are on. *)
Variable pod : nat -> string.
Variable clk : nat -> Z.
Variable others : nat -> World -> World.
Variable on : bool.

Definition all_of (k : kind) (w : World) : list object :=
  remove_dups (base.filter (fun x => objs w !! (k, name (metadata x)) = Some x) (snd <$> map_to_list (objs w))).

Definition on_object {A} (k : kind) (n : string) (w : World) (f : object -> kube A * World) : kube A * World :=
  match objs w !! (k, n) with Some x => f x | None => (KApi 404 "not found", w) end.
Definition put_lease (t : nat) (s : option LeaseSpec) (w : World) : kube Lease * World :=
  let l := mkLease (revision w) s in
  (KOk l, note (Wrote t (s ≫= holder_identity) (s ≫= lease_transitions)) (set_lease l w)).

(** One request; [odd]: it is not answered, and not done. *)
Definition mstep (odd : bool) (t : nat) X (e : KE X) (w : World) : option (X * World) :=
  match e in KE X return option (X * World) with
  | KList k => Some (if odd then (KFail "timeout", w) else let l := all_of k w in (KOk l, note (Listed t k l) w))
  | KPatch k n p => Some (if odd then (KFail "timeout", w) else on_object k n w (fun x => (KOk (), stored k x (patched p x) w)))
  | KApply k n a => Some (if odd then (KFail "timeout", w) else
      on_object k n w (fun x => (KOk (), note (Marked t k x a) (stored k x (with_meta (apply_meta a) x) w))))
  | KDelete k n u rv => Some (if odd then (KFail "timeout", w) else on_object k n w (fun x =>
      if bool_decide (uid (metadata x) = u /\ resource_version (metadata x) = rv)
      then (KOk (), note (Deleted t k x) (set_objs (delete (k, n) (objs w)) w)) else (KApi 409 "conflict", w)))
  | KDropPolicy _ _ => Some (KOk (), w)
  | KDropSecret _ _ => Some (KOk (), w)
  | KGetLease => Some (if odd then (KFail "timeout", w) else (KOk (lease w), note (Saw t (lease w)) w))
  | KReplaceLease l => Some (match lease w with
      | Some cur => if (lease_rv cur =? lease_rv l)%nat then put_lease t (lease_spec l) w else (KApi 409 "conflict", w)
      | None => (KApi 404 "not found", w)
      end)
  | KCreateLease s => Some (match lease w with None => put_lease t (Some s) w | Some _ => (KApi 409 "exists", w) end)
  | KGetBeat => Some (if odd then (KFail "timeout", w) else (KOk (beat w), note (SawBeat t (beat w)) w))
  | KApplyBeat s => Some (KOk (), note (Beat t s) (set_beat (mkLease (revision w) (Some s)) w))
  | KSwitch => Some (KOk (Some (Some on)), w)
  | DMembership te u => Some (if odd then (inr "unreadable", w) else let j := roster w (u, te) in (inl j, note (Told t (u, te) j) w))
  | DOwnerKind _ => Some (inl Person, w)
  | DSuperadmin u => Some (inl false, note (Super t u false) w)
  | DRole u te => Some (Some RAdmin, note (Ranked t u te (Some RAdmin)) w)
  | Now => Some (clk t, note (Clocked t (clk t)) w)
  | LoadEpoch => let e := epoch_of w (pod t) in Some (e, note (Loaded t e) w)
  | SwapEpoch e => Some (epoch_of w (pod t), set_epoch (pod t) e w)
  | LoadDeletes => Some (on, w)
  | ForgetVerdict _ _ => Some ((), w)
  | Audit _ _ _ => Some ((), w)
  | Others => Some ((), others t w)
  end.

Hypothesis clk_ok : forall t, clock_ok (clk t).
Hypothesis others_ok : forall t w, outside w (others t w).

Lemma all_of_spec k w x : x ∈ all_of k w <-> objs w !! (k, name (metadata x)) = Some x.
Proof using Type.
  unfold all_of. rewrite elem_of_remove_dups, list_elem_of_filter, list_elem_of_fmap. split; [by intros [? _]|].
  intros Hx. split; [done|]. exists ((k, name (metadata x)), x). split; [done|]. by apply elem_of_map_to_list.
Qed.

Lemma attempt_object {A} k n w (f : object -> kube A * World) (done_ : A -> World -> Prop) r w' :
  on_object k n w f = (r, w') ->
  (forall x, objs w !! (k, n) = Some x -> f x = (r, w') -> attempt done_ w r w') -> attempt done_ w r w'.
Proof using Type. unfold on_object. destruct (objs w !! (k, n)) as [x|]; [by eauto|]. by intros [= <- <-] _. Qed.

Lemma rstep_sem odd t X (e : KE X) w x w' : True -> mstep odd t X e w = Some (x, w') -> cluster_sem pod t X e w x w'.
Proof using clk_ok others_ok.
  intros _ He. destruct e; cbn [mstep] in He; try (injection He as <- <-; done);
    try (destruct odd; [injection He as <- <-; (done || by left)|]).
  - injection He as <- <-. split; [apply NoDup_remove_dups|]. split; [|done]. intros x. apply all_of_spec.
  - injection He as He. eapply attempt_object; [exact He|]. intros y Hy [= <- <-]. by exists y.
  - injection He as He. eapply attempt_object; [exact He|]. intros y Hy [= <- <-]. by exists y.
  - injection He as He. eapply attempt_object; [exact He|]. cbn beta. intros y Hy. case_bool_decide as Hd; intros [= <- <-]; [|done].
    destruct Hd. exists y. split_and!; auto.
  - by injection He as <- <-.
  - destruct (lease w) as [cur|] eqn:El; [destruct (lease_rv cur =? lease_rv l)%nat eqn:Ev|]; injection He as <- <-; [|done..].
    split; [|done]. exists cur. split; [done|]. by apply Nat.eqb_eq.
  - destruct (lease w) as [cur|] eqn:El; injection He as <- <-; done.
  - by injection He as <- <-.
  - by injection He as <- <-.
  - injection He as <- <-. apply others_ok.
Qed.
End machine.

(** * RemovalAlone: a beat and a pass of the GC, with nobody else about *)

(** ** Objects up to their revision *)
Definition content (x : object) : object := revised 0 x.

(** A change that neither reads nor writes the revision, nor the name. *)
Record blind (h : object -> object) : Prop := {
  bl_revised : forall r x, h (revised r x) = revised r (h x);
  bl_name : forall x, name (metadata (h x)) = name (metadata x);
}.

Lemma blind_id : blind (fun x => x). Proof. by split. Qed.
Lemma blind_comp h g : blind h -> blind g -> blind (fun x => g (h x)).
Proof. intros [H1 H2] [G1 G2]. split; intros; [by rewrite H1, G1|by rewrite G2]. Qed.
Lemma blind_patched p : blind (patched p). Proof. by destruct p; split. Qed.
Lemma blind_apply a : blind (with_meta (apply_meta a)). Proof. by split. Qed.
Lemma blind_if (b : object -> bool) h : (forall r x, b (revised r x) = b x) -> blind h -> blind (fun x => if b x then h x else x).
Proof. intros Hb [H1 H2]. split; intros; [rewrite Hb|]; destruct (b x); auto. Qed.

Lemma content_revised r x : content (revised r x) = content x. Proof. done. Qed.
Lemma blind_content h x : blind h -> content (h x) = h (content x).
Proof. intros Hh. unfold content. by rewrite (bl_revised h Hh). Qed.
Lemma blind_cong h x y : blind h -> content x = content y -> content (h x) = content (h y).
Proof. intros Hh E. by rewrite !blind_content, E. Qed.

(** A state whose objects became [g] of what they were, and whose leases and teams are what they were. *)
Record becomes (w w' : World) (g : kind -> object -> object) : Prop := {
  b_some : forall k n x, objs w !! (k, n) = Some x -> exists y, objs w' !! (k, n) = Some y /\ content y = content (g k x);
  b_none : forall k n, objs w !! (k, n) = None -> objs w' !! (k, n) = None;
  b_roster : roster w' = roster w;
  b_lease : lease w' = lease w;
  b_epochs : epochs w' = epochs w;
}.

Lemma becomes_refl w : becomes w w (fun _ x => x).
Proof. split; eauto. Qed.

Lemma becomes_trans w1 w2 w3 g1 g2 : (forall k, blind (g2 k)) -> becomes w1 w2 g1 -> becomes w2 w3 g2 ->
  becomes w1 w3 (fun k x => g2 k (g1 k x)).
Proof.
  intros Hb [H1 H2 H3 H4 H5] [G1 G2 G3 G4 G5]. split; try congruence; [|by eauto].
  intros k n x Hx. destruct (H1 k n x Hx) as (y & Hy & Ey). destruct (G1 k n y Hy) as (z & Hz & Ez).
  exists z. split; [done|]. rewrite Ez. by apply blind_cong.
Qed.

Lemma becomes_ext w w' g g' : (forall k n x, objs w !! (k, n) = Some x -> content (g k x) = content (g' k x)) ->
  becomes w w' g -> becomes w w' g'.
Proof.
  intros He [H1 H2 H3 H4 H5]. split; try done. intros k n x Hx. destruct (H1 k n x Hx) as (y & ? & E).
  exists y. split; [done|]. by rewrite E, (He k n).
Qed.

(** Every object under its own name, and a space has no workspace's part. *)
Definition tidy (w : World) : Prop := forall k n x, objs w !! (k, n) = Some x ->
  name (metadata x) = n /\ (k = SpaceEnvironment -> spec x = None).

Lemma revised_content x y : content y = content x -> exists r, y = revised r x.
Proof.
  destruct x as [[? ? ? ? ? ?] ? ? ?], y as [[? ? rv ? ? ?] ? ? ?]. cbn. intros [= -> -> -> -> -> -> -> ->]. by exists rv.
Qed.

Lemma content_name x y : content y = content x -> name (metadata y) = name (metadata x).
Proof. intros [r ->]%revised_content. done. Qed.
Lemma content_spec x y : content y = content x -> spec y = spec x.
Proof. intros [r ->]%revised_content. done. Qed.

Lemma tidy_becomes w w' g : tidy w -> becomes w w' g -> (forall k, blind (g k)) ->
  (forall x, spec x = None -> spec (g SpaceEnvironment x) = None) -> tidy w'.
Proof.
  intros Ht Hb Hg Hs k n y Hy. destruct (objs w !! (k, n)) as [x|] eqn:Ex.
  - destruct (b_some _ _ _ Hb k n x Ex) as (y' & Hy' & Ec). assert (y' = y) as -> by congruence. destruct (Ht k n x Ex) as [Hn Hk]. split.
    + by rewrite (content_name _ _ Ec), (bl_name _ (Hg k)).
    + intros ->. rewrite (content_spec _ _ Ec). auto.
  - by rewrite (b_none _ _ _ Hb k n Ex) in Hy.
Qed.

(** Something else about the state. *)
Lemma becomes_note w w' g e : becomes w w' g -> becomes w (note e w') g.
Proof. intros [? ? ? ? ?]. by split. Qed.
Lemma becomes_stored w k x h : tidy w -> objs w !! (k, name (metadata x)) = Some x -> blind h ->
  becomes w (stored k x (h x) w) (fun k' z => if decide (k' = k /\ name (metadata z) = name (metadata x)) then h z else z).
Proof.
  intros Ht Hx Hh. unfold stored. case_decide as Eh; split; try done; cbn.
  - intros k' n z Hz. exists z. split; [done|]. case_decide as Hd; [|done]. destruct Hd as [-> En].
    destruct (Ht _ _ _ Hz) as [En' _]. assert (z = x) as -> by (rewrite <- En', En in Hz; congruence). by rewrite Eh.
  - intros k' n z Hz. destruct (Ht _ _ _ Hz) as [En _]. case_decide as Hd.
    + destruct Hd as [-> En2]. assert (n = name (metadata x)) as -> by congruence.
      assert (z = x) as -> by congruence. eexists. split; [by rewrite lookup_insert_eq|done].
    + exists z. split; [|done]. rewrite lookup_insert_ne; [done|]. intros [= -> E2]. apply Hd. by rewrite En, E2.
  - intros k' n Hn. rewrite lookup_insert_ne; [done|]. intros [= -> E]. subst. congruence.
Qed.

(** ** Loops *)
Definition at_name (k0 : kind) (n0 : string) (h : object -> object) (k : kind) (x : object) : object :=
  if decide (k = k0 /\ name (metadata x) = n0) then h x else x.
Definition at_names (k0 : kind) (ns : list string) (h : object -> object) (k : kind) (x : object) : object :=
  if decide (k = k0 /\ name (metadata x) ∈ ns) then h x else x.
Definition names (l : list object) : list string := name_any <$> l.

(** Spaces stay spaces. *)
Definition spaceless (h : object -> object) : Prop := forall x, spec x = None -> spec (h x) = None.
Lemma spaceless_patched p : spaceless (patched p). Proof. intros x Hx. destruct p; cbn; by rewrite Hx. Qed.
Lemma spaceless_apply a : spaceless (with_meta (apply_meta a)). Proof. by intros x. Qed.

Lemma blind_at k0 ns h k : blind h -> blind (at_names k0 ns h k).
Proof. intros [H1 H2]. unfold at_names. split; intros; cbn; case_decide; auto. Qed.
Lemma spaceless_at k0 ns h k : spaceless h -> spaceless (at_names k0 ns h k).
Proof. intros Hh x Hx. unfold at_names. case_decide; auto. Qed.

Section alone.
Context `{!Rfc3339}.
Variables (me : string) (ns : Z) (on : bool).
#[local] Instance region_exec : Exec KE World := fun X e w => mstep (fun _ => me) (fun _ => ns) (fun _ w => w) on false 0 X e w.

(** One turn of a loop. *)
Definition turn (f : object -> kprog bool) (k : kind) (h : object -> object) (x : object) : Prop := forall w y,
  tidy w -> objs w !! (k, name_any x) = Some y ->
  exists b w', run (f x) w = Some (b, w') /\ becomes w w' (at_name k (name_any x) h).

Lemma run_each (f : object -> kprog bool) k h l w : blind h -> spaceless h -> tidy w -> NoDup (names l) ->
  (forall x, x ∈ l -> is_Some (objs w !! (k, name_any x))) -> (forall x, x ∈ l -> turn f k h x) ->
  exists bs w', run (each f l) w = Some (bs, w') /\ becomes w w' (at_names k (names l) h).
Proof using Type.
  intros Hh Hs. unfold each. revert w. induction l as [|x l IH]; intros w Ht Hnd Hl Hf.
  - exists [], w. split; [done|]. eapply becomes_ext; [|apply becomes_refl]. intros k' n z _. unfold at_names, names.
    case_decide as Hd; [|done]. destruct Hd as [_ Hd]. by apply elem_of_nil in Hd.
  - destruct (Hl x ltac:(left)) as [y Hy]. destruct (Hf x ltac:(left) w y Ht Hy) as (b & w1 & Hr1 & Hb1).
    unfold names in Hnd. rewrite fmap_cons in Hnd. apply NoDup_cons in Hnd as [Hx Hnd].
    assert (tidy w1) as Ht1.
    { eapply tidy_becomes; [done|exact Hb1| |]; unfold at_name; [|intros z Hz; case_decide; auto].
      intros k'. destruct Hh as [H1 H2]. split; intros; cbn; case_decide; auto. }
    destruct (IH w1 Ht1 Hnd) as (bs & w2 & Hr2 & Hb2).
    { intros z Hz. destruct (Hl z ltac:(by right)) as [z' Hz']. destruct (b_some _ _ _ Hb1 _ _ _ Hz') as (z2 & ? & _). by exists z2. }
    { intros z Hz. apply Hf. by right. }
    exists (b :: bs), w2. split.
    + cbn [traverse]. rewrite run_bind, Hr1. cbn. rewrite run_bind, Hr2. done.
    + eapply becomes_ext; [|eapply becomes_trans; [|exact Hb1|exact Hb2]; intros k'; by apply blind_at].
      intros k' n z _. unfold at_name, at_names, names. rewrite fmap_cons. f_equal.
      destruct (decide (k' = k /\ name (metadata z) = name_any x)) as [[-> En]|Hn].
      * rewrite (bl_name h Hh), En. rewrite decide_False by (by intros [_ ?]). rewrite decide_True; [done|]. split; [done|left].
      * destruct (decide (k' = k /\ name (metadata z) ∈ name_any <$> l)) as [[-> Hd]|Hd].
        -- rewrite decide_True; [done|]. split; [done|by right].
        -- rewrite decide_False; [done|]. intros [-> [E|Hin]%elem_of_cons]; [by apply Hn|by apply Hd].
Qed.
(** *** Turns *)
Lemma becomes_at w k x y h : tidy w -> objs w !! (k, name_any x) = Some y -> blind h ->
  becomes w (stored k y (h y) w) (at_name k (name_any x) h).
Proof using Type.
  intros Ht Hy Hh. destruct (Ht _ _ _ Hy) as [En _]. rewrite <- En in Hy. pose proof (becomes_stored w k y h Ht Hy Hh) as Hb.
  unfold at_name. rewrite <- En. exact Hb.
Qed.

Lemma turn_write k pa x : turn (fun x => write k (name_any x) pa) k (patched pa) x.
Proof using Type.
  intros w y Ht Hy. exists true, (stored k y (patched pa y) w). split; [|by apply becomes_at, blind_patched].
  unfold write. rewrite run_bind. cbn. unfold exec, region_exec, mstep, on_object. rewrite Hy. done.
Qed.

Lemma turn_stamp k a x : turn (fun x => stamp k (name_any x) a) k (with_meta (apply_meta a)) x.
Proof using Type.
  intros w y Ht Hy. eexists true, _. split.
  - unfold stamp. rewrite run_bind. cbn. unfold exec, region_exec, mstep, on_object. rewrite Hy. done.
  - by apply becomes_note, becomes_at, blind_apply.
Qed.

Lemma tidy_at w w' k n h : tidy w -> blind h -> spaceless h -> becomes w w' (at_name k n h) -> tidy w'.
Proof using Type.
  intros Ht Hh Hs Hb. eapply tidy_becomes; [done|exact Hb| |]; unfold at_name; [|intros z Hz; case_decide; auto].
  intros k'. destruct Hh as [H1 H2]. split; intros; cbn; case_decide; auto.
Qed.

Lemma turn_stamp_pause a x :
  turn (fun x => let! ok := stamp Workspace (name_any x) a in write Workspace (name_any x) (PSpec Paused None) ;;! Ret ok)
    Workspace (fun x => patched (PSpec Paused None) (with_meta (apply_meta a) x)) x.
Proof using Type.
  intros w y Ht Hy. destruct (turn_stamp Workspace a x w y Ht Hy) as (b & w1 & Hr1 & Hb1).
  assert (tidy w1) as Ht1 by (eapply tidy_at; [exact Ht|apply blind_apply|apply spaceless_apply|exact Hb1]).
  destruct (b_some _ _ _ Hb1 _ _ _ Hy) as (y1 & Hy1 & _).
  destruct (turn_write Workspace (PSpec Paused None) x w1 y1 Ht1 Hy1) as (b2 & w2 & Hr2 & Hb2).
  exists b, w2. split; [by rewrite run_bind, Hr1; cbn [mbind option_bind]; rewrite run_bind, Hr2|].
  eapply becomes_ext; [|eapply becomes_trans; [|exact Hb1|exact Hb2]].
  - intros k n z _. unfold at_name. by destruct (decide (k = Workspace /\ name (metadata z) = name_any x)) as [Hd|Hd];
      [rewrite decide_True by exact Hd|rewrite decide_False by exact Hd].
  - intros k. unfold at_name. split; intros; cbn; case_decide; done.
Qed.

(** ** One pair *)

(** A listing of a kind, as far as a pair goes: its objects of the pair are those there are. *)
Record mirrors w (k : kind) p (l : list object) : Prop := {
  mi_nodup : NoDup (names l);
  mi_there : forall x, x ∈ l -> pair_of x = p -> exists y, objs w !! (k, name_any x) = Some y /\ content y = content x;
  mi_all : forall n y, objs w !! (k, n) = Some y -> pair_of y = p -> exists x, x ∈ l /\ content y = content x;
}.

(** A test that does not look at the revision. *)
Definition sees (b : object -> bool) : Prop := forall r x, b (revised r x) = b x.
Lemma sees_content b x y : sees b -> content x = content y -> b x = b y.
Proof using Type. intros Hb [r ->]%revised_content. apply Hb. Qed.
Lemma pair_content x y : content x = content y -> pair_of x = pair_of y.
Proof using Type. by intros [r ->]%revised_content. Qed.

Lemma names_in n l : n ∈ names l <-> exists x, x ∈ l /\ name_any x = n.
Proof using Type. unfold names. rewrite list_elem_of_fmap. naive_solver. Qed.

Lemma mirrored w k p l b n y : tidy w -> mirrors w k p l -> sees b -> objs w !! (k, n) = Some y ->
  (name (metadata y) ∈ names (base.filter (fun x => b x = true) (of_pair p l)) <-> pair_of y = p /\ b y = true).
Proof using Type.
  intros Ht Hm Hb Hy. destruct (Ht _ _ _ Hy) as [En _]. rewrite names_in. setoid_rewrite list_elem_of_filter. setoid_rewrite of_pair_in. split.
  - intros (x & [Hbx [Hp Hx]] & Hn). destruct (mi_there _ _ _ _ Hm x Hx Hp) as (y' & Hy' & Ec).
    assert (y' = y) as -> by (rewrite Hn, En in Hy'; congruence). by rewrite (pair_content _ _ Ec), (sees_content b _ _ Hb Ec).
  - intros [Hp Hby]. destruct (mi_all _ _ _ _ Hm n y Hy Hp) as (x & Hx & Ec). exists x.
    split; [|symmetry; exact (content_name _ _ Ec)]. rewrite <- (sees_content b _ _ Hb Ec), <- (pair_content _ _ Ec). auto.
Qed.

Lemma filter_everything (l : list object) : base.filter (fun _ => true = true) l = l.
Proof using Type. induction l as [|x l IH]; [done|]. by rewrite filter_cons_True, IH. Qed.

Lemma mirrored_all w k p l n y : tidy w -> mirrors w k p l -> objs w !! (k, n) = Some y ->
  (name (metadata y) ∈ names (of_pair p l) <-> pair_of y = p).
Proof using Type.
  intros Ht Hm Hy. pose proof (mirrored w k p l (fun _ => true) n y Ht Hm ltac:(done) Hy) as Hf.
  rewrite filter_everything in Hf. rewrite Hf. naive_solver.
Qed.

Lemma names_nodup_filter (b : object -> bool) l : NoDup (names l) -> NoDup (names (base.filter (fun x => b x = true) l)).
Proof using Type.
  unfold names. induction l as [|x l IH]; [done|]. rewrite fmap_cons, filter_cons. intros [Hx Hn]%NoDup_cons.
  case_decide; [|by apply IH]. rewrite fmap_cons. apply NoDup_cons. split; [|by apply IH].
  intros (y & Ey & [_ Hy]%list_elem_of_filter)%list_elem_of_fmap. apply Hx. rewrite Ey. by apply list_elem_of_fmap_2.
Qed.

Lemma names_nodup_pair p l (b : object -> bool) : NoDup (names l) -> NoDup (names (base.filter (fun x => b x = true) (of_pair p l))).
Proof using Type. intros. by apply names_nodup_filter, names_nodup_filter. Qed.
Lemma at_mirrored w k p l b n x h z : tidy w -> mirrors w k p l -> sees b -> objs w !! (k, n) = Some x ->
  name (metadata z) = name (metadata x) ->
  at_names k (names (base.filter (fun x => b x = true) (of_pair p l))) h k z = if decide (pair_of x = p /\ b x = true) then h z else z.
Proof using Type.
  intros Ht Hm Hb Hx En. unfold at_names. rewrite En. pose proof (mirrored w k p l b n x Ht Hm Hb Hx) as Hiff.
  destruct (decide (pair_of x = p /\ b x = true)) as [Hd|Hd]; [rewrite decide_True|rewrite decide_False]; [done|split; [done|by apply Hiff]|done|].
  intros [_ Hin]. by apply Hd, Hiff.
Qed.

Lemma at_other k0 k ns' h z : k <> k0 -> at_names k0 ns' h k z = z.
Proof using Type. intros Hk. unfold at_names. by rewrite decide_False by (by intros [? _]). Qed.

(** A loop over some of a pair's objects, after other loops. *)
Lemma loop f k h b p l w0 w1 g0 : mirrors w0 k p l -> becomes w0 w1 g0 -> tidy w1 -> blind h -> spaceless h -> (forall x, turn f k h x) ->
  exists bs w2, run (each f (base.filter (fun x => b x = true) (of_pair p l))) w1 = Some (bs, w2) /\
    becomes w1 w2 (at_names k (names (base.filter (fun x => b x = true) (of_pair p l))) h) /\ tidy w2.
Proof using Type.
  intros Hm Hb Ht Hh Hs Hf. destruct (run_each f k h (base.filter (fun x => b x = true) (of_pair p l)) w1) as (bs & w2 & Hr & Hb2); try done.
  - apply names_nodup_pair, Hm.
  - intros x [_ [Hp Hx]%of_pair_in]%list_elem_of_filter. destruct (mi_there _ _ _ _ Hm x Hx Hp) as (y & Hy & _).
    destruct (b_some _ _ _ Hb _ _ _ Hy) as (z & Hz & _). by exists z.
  - exists bs, w2. split; [done|]. split; [done|]. eapply tidy_becomes; [exact Ht|exact Hb2| |].
    + intros k'. by apply blind_at.
    + by apply spaceless_at.
Qed.

(** Only the pair's objects change, each by [g]. *)
Definition settles w w' p (g : object -> object) : Prop := becomes w w' (fun _ x => if decide (pair_of x = p) then g x else x).

Section pair.
Variables (w : World) (p : string * string) (o : Objects).
Hypothesis Ht : tidy w.
Hypothesis Hmw : mirrors w Workspace p (workspaces o).
Hypothesis Hms : mirrors w SpaceEnvironment p (spaces o).
Abbreviation ws := (of_pair p (workspaces o)).
Abbreviation ss := (of_pair p (spaces o)).

Lemma patched_space a d x : spec x = None -> patched (PSpec a d) x = x.
Proof using Type. destruct x as [m ow te [s|]]; [done|done]. Qed.

(** One loop of access patches over the pair's workspaces. *)
Lemma access_loop a d b : sees b -> exists bs w',
  run (each (fun x => write Workspace (name_any x) (PSpec a d)) (base.filter (fun x => b x = true) ws)) w = Some (bs, w') /\ tidy w' /\
  settles w w' p (fun x => if b x then patched (PSpec a d) x else x).
Proof using Hmw Hms Ht.
  intros Hb. destruct (loop (fun x => write Workspace (name_any x) (PSpec a d)) Workspace (patched (PSpec a d)) b p (workspaces o) w w _
    Hmw (becomes_refl w) Ht (blind_patched _) (spaceless_patched _) (turn_write Workspace _)) as (bs & w' & Hr & Hbe & Ht').
  exists bs, w'. split; [done|]. split; [done|]. eapply becomes_ext; [|exact Hbe]. intros k n x Hx. destruct k.
  - rewrite (at_mirrored w _ _ _ b n x) by done. repeat case_decide; destruct (b x); naive_solver.
  - rewrite at_other by done. destruct (Ht _ _ _ Hx) as [_ Hsp]. rewrite patched_space by auto. by case_decide; destruct (b x).
Qed.

Lemma run_drop (b : bool) w1 : run (if b then drop_tool_secret p else Ret tt) w1 = Some (tt, w1).
Proof using Type. by destruct b. Qed.

Lemma sees_unsettled : sees unsettled. Proof using Type. by intros r x. Qed.
Lemma sees_full : sees is_full. Proof using Type. by intros r x. Qed.
Lemma sees_not_full : sees not_full. Proof using Type. by intros r x. Qed.
Lemma sees_has_stamp : sees has_stamp. Proof using Type. by intros r x. Qed.
Lemma sees_unmarked : sees unmarked_yet. Proof using Type. by intros r x. Qed.

Definition paused_object (x : object) : object := if unsettled x then patched (PSpec Paused (Some Stopped)) x else x.

Lemma run_pause : exists w', run (pause ws p) w = Some (tt, w') /\ tidy w' /\ settles w w' p paused_object.
Proof using Hmw Hms Ht.
  destruct (access_loop Paused (Some Stopped) unsettled sees_unsettled) as (bs & w' & Hr & Ht' & Hs). exists w'. split; [|done].
  unfold pause. rewrite run_bind, Hr. cbn [mbind option_bind]. apply run_drop.
Qed.

Lemma run_keep_away : exists w', run (keep_away ws p) w = Some (tt, w') /\ tidy w' /\
  settles w w' p (fun x => if is_full x then patched (PSpec Paused None) x else x).
Proof using Hmw Hms Ht.
  destruct (access_loop Paused None is_full sees_full) as (bs & w' & Hr & Ht' & Hs). exists w'. split; [|done].
  unfold keep_away. rewrite run_bind, Hr. cbn [mbind option_bind]. apply run_drop.
Qed.
Lemma run_stamp_pair now : exists w', run (stamp_pair ws ss p now) w = Some (tt, w') /\ tidy w' /\
  settles w w' p (fun x => patched (PSpec Paused None)
    (with_meta (apply_meta (stamp_body (printed now) (printed (now + MEMBER_REMOVAL_GRACE)) false)) x)).
Proof using Hmw Hms Ht.
  unfold stamp_pair. set (v := stamp_body _ _ _).
  destruct (loop _ Workspace _ (fun _ => true) p (workspaces o) w w _ Hmw (becomes_refl w) Ht
    (blind_comp _ _ (blind_apply v) (blind_patched (PSpec Paused None))) (fun x Hx => spaceless_patched (PSpec Paused None) _ (spaceless_apply v x Hx))
    (turn_stamp_pause v)) as (o1 & w1 & Hr1 & Hb1 & Ht1).
  destruct (loop (fun x => stamp SpaceEnvironment (name_any x) v) SpaceEnvironment _ (fun _ => true) p (spaces o) w w1 _ Hms Hb1 Ht1
    (blind_apply v) (spaceless_apply v) (turn_stamp SpaceEnvironment v)) as (o2 & w2 & Hr2 & Hb2 & Ht2).
  rewrite filter_everything in Hr1, Hr2. exists w2. split; [|split; [done|]].
  - rewrite run_bind, Hr1. cbn [mbind option_bind]. rewrite run_bind, Hr2. cbn [mbind option_bind]. by destruct (negb _).
  - eapply becomes_ext; [|eapply becomes_trans; [intros k; apply blind_at, blind_apply|exact Hb1|exact Hb2]].
    intros k n x Hx. destruct (Ht _ _ _ Hx) as [_ Hsp]. destruct k.
    + rewrite at_other by done. rewrite (at_mirrored w _ _ _ (fun _ => true) n x) by done. repeat case_decide; naive_solver.
    + rewrite (at_other Workspace) by done. rewrite (at_mirrored w _ _ _ (fun _ => true) n x) by done.
      rewrite patched_space by (apply spaceless_apply; auto). repeat case_decide; naive_solver.
Qed.

Lemma run_mark_due t dn now : exists w', run (mark_due ws ss (Some t) dn now) w = Some (tt, w') /\ tidy w' /\
  settles w w' p (fun x => if unmarked_yet x then
    with_meta (apply_meta (stamp_body (printed t) (printed (if dn then now else t + MEMBER_REMOVAL_GRACE)) dn)) x else x).
Proof using Hmw Hms Ht.
  unfold mark_due. set (v := stamp_body _ _ _).
  destruct (loop (fun x => stamp Workspace (name_any x) v) Workspace _ unmarked_yet p (workspaces o) w w _ Hmw (becomes_refl w) Ht
    (blind_apply v) (spaceless_apply v) (turn_stamp Workspace v)) as (o1 & w1 & Hr1 & Hb1 & Ht1).
  destruct (loop (fun x => stamp SpaceEnvironment (name_any x) v) SpaceEnvironment _ unmarked_yet p (spaces o) w w1 _ Hms Hb1 Ht1
    (blind_apply v) (spaceless_apply v) (turn_stamp SpaceEnvironment v)) as (o2 & w2 & Hr2 & Hb2 & Ht2).
  exists w2. split; [|split; [done|]].
  - rewrite run_bind, Hr1. cbn [mbind option_bind]. rewrite run_bind, Hr2. done.
  - eapply becomes_ext; [|eapply becomes_trans; [intros k; apply blind_at, blind_apply|exact Hb1|exact Hb2]].
    intros k n x Hx. destruct k.
    + rewrite at_other by done. rewrite (at_mirrored w _ _ _ unmarked_yet n x) by done. repeat case_decide; destruct (unmarked_yet x); naive_solver.
    + rewrite (at_other Workspace) by done. rewrite (at_mirrored w _ _ _ unmarked_yet n x) by done.
      repeat case_decide; destruct (unmarked_yet x); naive_solver.
Qed.

(** A member again: the stamps go, and access is what the membership says. *)
Definition readmitted (j : Judged) (x : object) : object :=
  let x1 := if has_stamp x then patched PClear x else x in
  if bool_decide (j = Member Active) then (if not_full x then patched (PSpec Full None) x1 else x1)
  else if bool_decide (j = Member MPaused) then (if unsettled x then patched (PSpec Paused (Some Stopped)) x1 else x1) else x1.

Lemma clear_commutes a d x : patched PClear (patched (PSpec a d) x) = patched (PSpec a d) (patched PClear x).
Proof using Type. done. Qed.
Lemma name_patched pa x : name (metadata (patched pa x)) = name (metadata x).
Proof using Type. by destruct pa. Qed.

Lemma run_audit (b : bool) a c d w1 : run (if b then trigger (Audit a c d) else Ret tt) w1 = Some (tt, w1).
Proof using Type. by destruct b. Qed.

(** The three loops every clear makes. *)
Lemma run_clear_loops j : let b := fun x => not_full x && bool_decide (j = Member Active) in exists w',
  (forall (k : kprog unit), exists o1 o2, run (each set_full (base.filter (fun x => b x = true) ws) ;;!
     let! o1 := each (clear Workspace) (base.filter (fun x => has_stamp x = true) ws) in
     let! o2 := each (clear SpaceEnvironment) (base.filter (fun x => has_stamp x = true) ss) in
     (if some_ok (o1 ++ o2)%list then trigger (Audit "system:membership" "member.removed.cleared" (slashed p)) else Ret tt) ;;! k) w =
     run ((if some_ok (o1 ++ o2)%list then trigger (Audit "system:membership" "member.removed.cleared" (slashed p)) else Ret tt) ;;! k) w') /\
  tidy w' /\ settles w w' p (fun x => let x1 := if has_stamp x then patched PClear x else x in if b x then patched (PSpec Full None) x1 else x1).
Proof using Hmw Hms Ht.
  intros b. assert (sees b) as Hsb by (intros r x; done).
  destruct (loop set_full Workspace _ b p (workspaces o) w w _ Hmw (becomes_refl w) Ht
    (blind_patched _) (spaceless_patched _) (turn_write Workspace (PSpec Full None))) as (o0 & w1 & Hr1 & Hb1 & Ht1).
  destruct (loop (clear Workspace) Workspace _ has_stamp p (workspaces o) w w1 _ Hmw Hb1 Ht1
    (blind_patched _) (spaceless_patched _) (turn_write Workspace PClear)) as (o1 & w2 & Hr2 & Hb2 & Ht2).
  assert (becomes w w2 (fun k x => at_names Workspace (names (base.filter (fun x => has_stamp x = true) ws)) (patched PClear) k
    (at_names Workspace (names (base.filter (fun x => b x = true) ws)) (patched (PSpec Full None)) k x))) as Hb12
    by (eapply becomes_trans; [intros k; apply blind_at, blind_patched|exact Hb1|exact Hb2]).
  destruct (loop (clear SpaceEnvironment) SpaceEnvironment _ has_stamp p (spaces o) w w2 _ Hms Hb12 Ht2
    (blind_patched _) (spaceless_patched _) (turn_write SpaceEnvironment PClear)) as (o2 & w3 & Hr3 & Hb3 & Ht3).
  exists w3. split; [|split; [done|]].
  - intros k. exists o1, o2. rewrite run_bind, Hr1. cbn [mbind option_bind]. rewrite run_bind, Hr2. cbn [mbind option_bind].
    rewrite run_bind, Hr3. done.
  - eapply becomes_ext; [|eapply becomes_trans; [intros k; apply blind_at, blind_patched|exact Hb12|exact Hb3]].
    intros k n x Hx. destruct (Ht _ _ _ Hx) as [_ Hsp]. destruct k.
    + rewrite at_other by done. rewrite (at_mirrored w _ _ _ b n x) by done.
      rewrite (at_mirrored w _ _ _ has_stamp n x) by (done || by case_decide).
      repeat case_decide; destruct (has_stamp x), (b x); naive_solver.
    + rewrite !(at_other Workspace) by done. rewrite (at_mirrored w _ _ _ _ n x) by done.
      assert (spec (patched PClear x) = None) by (apply (spaceless_patched PClear); auto).
      repeat case_decide; destruct (has_stamp x), (b x); rewrite ?patched_space by auto; naive_solver.
Qed.

Lemma run_clear j : exists w', run (clear_pair j ws ss p) w = Some (tt, w') /\ tidy w' /\ settles w w' p (readmitted j).
Proof using Hmw Hms Ht.
  unfold clear_pair. destruct (run_clear_loops j) as (w1 & Hrun & Ht1 & Hs1).
  destruct (Hrun (if bool_decide (j = Member MPaused) then pause ws p else Ret tt)) as (o1 & o2 & ->). clear Hrun.
  rewrite run_bind, run_audit. cbn [mbind option_bind]. destruct (decide (j = Member MPaused)) as [->|Hj].
  - rewrite bool_decide_eq_true_2 by done. unfold pause.
    destruct (loop (fun x => write Workspace (name_any x) (PSpec Paused (Some Stopped))) Workspace _ unsettled p (workspaces o) w w1 _ Hmw Hs1 Ht1
      (blind_patched _) (spaceless_patched _) (turn_write Workspace _)) as (oks & w2 & Hr2 & Hb2 & Ht2).
    exists w2. rewrite run_bind, Hr2. cbn [mbind option_bind]. split; [apply run_drop|]. split; [done|].
    eapply becomes_ext; [|eapply becomes_trans; [intros k; apply blind_at, blind_patched|exact Hs1|exact Hb2]].
    intros k n x Hx. destruct (Ht _ _ _ Hx) as [_ Hsp]. unfold readmitted. rewrite andb_false_r. cbn beta iota zeta.
    destruct k.
    + rewrite (at_mirrored w _ _ _ _ n x) by (done || (cbn beta zeta; repeat case_match; by rewrite ?name_patched)).
      repeat case_decide; destruct (has_stamp x), (unsettled x); naive_solver.
    + rewrite at_other by done. assert (spec (patched PClear x) = None) by (apply (spaceless_patched PClear); auto).
      repeat case_decide; destruct (has_stamp x), (unsettled x); rewrite ?patched_space by auto; naive_solver.
  - rewrite (bool_decide_eq_false_2 (j = Member MPaused)) by done. exists w1. split; [done|]. split; [done|].
    eapply becomes_ext; [|exact Hs1]. intros k n x Hx. unfold readmitted. rewrite (bool_decide_eq_false_2 (j = Member MPaused)) by done.
    destruct (decide (pair_of x = p)); [|done]. cbn beta zeta. by destruct (bool_decide (j = Member Active)), (not_full x).
Qed.
End pair.

(** ** What a beat makes of an object *)
Definition stamped_of (o : Objects) p : option Z := latest_stamp (metas_of o p).
Definition ordered_of (o : Objects) p : bool :=
  is_some (stamped_of o p) && any (fun m => is_some (system_annotation m DELETE_NOW)) (metas_of o p).
Definition paused_of (o : Objects) p : bool :=
  negb (bool_decide (of_pair p (workspaces o) = [])) && bool_decide (base.filter (fun x => is_full x = true) (of_pair p (workspaces o)) = []).

(** The reference: the answer about its pair, the pair's stamps as listed, the clock; one object. *)
Definition settle (o : Objects) (j : Judged) (now : Z) (x : object) : object :=
  let p := pair_of x in
  match verdict (Some j) (stamped_of o p) (ordered_of o p) now (paused_of o p) with
  | Keep => if away j then (if is_full x then patched (PSpec Paused None) x else x)
            else if bool_decide (j = Member MPaused) then paused_object x else x
  | Pause => if bool_decide (j = Member MPaused) then paused_object x else x
  | Unpause => if not_full x then patched (PSpec Full None) x else x
  | Stamp => patched (PSpec Paused None)
      (with_meta (apply_meta (stamp_body (printed now) (printed (now + MEMBER_REMOVAL_GRACE)) false)) x)
  | Clear => readmitted j x
  | VDue =>
      match stamped_of o p with
      | Some t =>
        if unmarked_yet x then
          let after := if ordered_of o p then now else t + MEMBER_REMOVAL_GRACE in
          with_meta (apply_meta (stamp_body (printed t) (printed after) (ordered_of o p))) x
        else x
      | None => x
      end
  end.

Lemma readmitted_patch j x : exists ps, readmitted j x = foldr patched x ps.
Proof using Type.
  unfold readmitted. destruct (bool_decide (j = Member Active)), (bool_decide (j = Member MPaused)), (has_stamp x), (not_full x), (unsettled x);
    first [by exists [] | by exists [PClear] | by exists [PSpec Full None] | by exists [PSpec Full None; PClear]
          | by exists [PSpec Paused (Some Stopped)] | by exists [PSpec Paused (Some Stopped); PClear]].
Qed.

Lemma settle_pair o j now x : pair_of (settle o j now x) = pair_of x.
Proof using Type.
  unfold settle, paused_object. destruct (readmitted_patch j x) as [ps ->].
  assert (pair_of (foldr patched x ps) = pair_of x) as Hf by (induction ps as [|[|] ps IH]; done).
  by repeat case_match.
Qed.

Lemma settle_blind o j now : blind (settle o j now).
Proof using Type.
  split.
  - intros r x. unfold settle, readmitted, paused_object. change (pair_of (revised r x)) with (pair_of x).
    rewrite ?sees_full, ?sees_unsettled, ?sees_not_full, ?sees_has_stamp, ?sees_unmarked.
    by repeat case_match.
  - intros x. unfold settle, paused_object. destruct (readmitted_patch j x) as [ps ->].
    assert (name (metadata (foldr patched x ps)) = name (metadata x)) as Hf by (induction ps as [|[|] ps IH]; done).
    by repeat case_match.
Qed.

Lemma mirrors_note w k p l e : mirrors w k p l -> mirrors (note e w) k p l.
Proof using Type. intros [? ? ?]. by split. Qed.

Lemma settles_mirrors w w' k p q g l : settles w w' p g -> (forall x, pair_of (g x) = pair_of x) -> p <> q ->
  mirrors w k q l -> mirrors w' k q l.
Proof using Type.
  intros Hs Hg Hpq [H1 H2 H3]. split; [done|..].
  - intros x Hx Hp. destruct (H2 x Hx Hp) as (y & Hy & Ec). destruct (b_some _ _ _ Hs _ _ _ Hy) as (z & Hz & Ez).
    exists z. split; [done|]. rewrite decide_False in Ez; [congruence|]. rewrite (pair_content _ _ Ec). congruence.
  - intros n z Hz Hp. destruct (objs w !! (k, n)) as [y|] eqn:Ey; [|by rewrite (b_none _ _ _ Hs _ _ Ey) in Hz].
    destruct (b_some _ _ _ Hs _ _ _ Ey) as (z' & Hz' & Ez). assert (z' = z) as -> by congruence.
    destruct (decide (pair_of y = p)) as [E|E].
    + pose proof (pair_content _ _ Ez) as Epz. rewrite Hg in Epz. congruence.
    + assert (pair_of y = q) as Hq by (rewrite <- (pair_content _ _ Ez); done).
      destruct (H3 n y Ey Hq) as (x & Hx & Ec). exists x. split; [done|congruence].
Qed.

Lemma settles_ext w w' p g g' : (forall x, pair_of x = p -> g x = g' x) -> settles w w' p g -> settles w w' p g'.
Proof using Type. intros He. apply becomes_ext. intros k n x _. case_decide; [by rewrite He|done]. Qed.

Lemma run_judge o p w : tidy w -> mirrors w Workspace p (workspaces o) -> mirrors w SpaceEnvironment p (spaces o) ->
  exists w', run (judge o p) w = Some (inl tt, w') /\ tidy w' /\ settles w w' p (settle o (roster w p) (seconds ns)).
Proof using Type.
  intros Ht Hmw Hms. unfold judge. fold (stamped_of o p). fold (ordered_of o p). fold (paused_of o p).
  set (w1 := note (Clocked 0 ns) (note (Told 0 (p.1, p.2) (roster w (p.1, p.2))) w)).
  rewrite run_bind. cbn [run trigger exec region_exec mstep mbind option_bind]. rewrite run_bind.
  cbn [run trigger exec region_exec mstep mbind option_bind]. fold w1. destruct p as [ow te]. cbn [fst snd] in *. set (p := (ow, te)) in *.
  assert (tidy w1) as Ht1 by exact Ht.
  assert (mirrors w1 Workspace p (workspaces o)) as Hw1 by by apply mirrors_note, mirrors_note.
  assert (mirrors w1 SpaceEnvironment p (spaces o)) as Hs1 by by apply mirrors_note, mirrors_note.
  assert (forall q g, (exists w2, run q w1 = Some (tt, w2) /\ tidy w2 /\ settles w1 w2 p g) ->
    (forall x, pair_of x = p -> g x = settle o (roster w p) (seconds ns) x) ->
    exists w', run (q ;;! Ret (inl tt)) w1 = Some (inl tt : unit + string, w') /\ tidy w' /\ settles w w' p (settle o (roster w p) (seconds ns))) as Hend.
  { intros q g (w2 & Hr & Ht2 & Hs) Hg. exists w2. rewrite run_bind, Hr. split; [done|]. split; [done|].
    eapply settles_ext; [exact Hg|]. destruct Hs as [? ? ? ? ?]. by split. }
  assert (exists w2, run (Ret tt) w1 = Some (tt, w2) /\ tidy w2 /\ settles w1 w2 p (fun x => x)) as Hnone.
  { exists w1. split; [done|]. split; [done|]. eapply becomes_ext; [|apply becomes_refl]. intros. by case_decide. }
  set (j := roster w p) in *. set (now := seconds ns) in *.
  destruct (verdict (Some j) (stamped_of o p) (ordered_of o p) now (paused_of o p)) eqn:Ev.
  - destruct (away j) eqn:Ea; [|destruct (bool_decide (j = Member MPaused)) eqn:Em].
    + eapply Hend; [by apply (run_keep_away w1 p o)|]. intros x Hx. unfold settle. by rewrite Hx, Ev, Ea.
    + eapply Hend; [by apply (run_pause w1 p o)|]. intros x Hx. unfold settle. by rewrite Hx, Ev, Ea, Em.
    + eapply Hend; [exact Hnone|]. intros x Hx. unfold settle. by rewrite Hx, Ev, Ea, Em.
  - destruct (bool_decide (j = Member MPaused)) eqn:Em.
    + eapply Hend; [by apply (run_pause w1 p o)|]. intros x Hx. unfold settle. by rewrite Hx, Ev, Em.
    + eapply Hend; [exact Hnone|]. intros x Hx. unfold settle. by rewrite Hx, Ev, Em.
  - eapply Hend; [|intros x Hx; unfold settle; rewrite Hx, Ev; reflexivity].
    destruct (access_loop w1 p o Ht1 Hw1 Hs1 Full None not_full sees_not_full) as (bs & w2 & Hr & ? & ?).
    exists w2. split; [|done]. change (each set_full) with (each (fun x => write Workspace (name_any x) (PSpec Full None))).
    by rewrite run_bind, Hr.
  - eapply Hend; [by apply (run_stamp_pair w1 p o)|]. intros x Hx. unfold settle. by rewrite Hx, Ev.
  - eapply Hend; [by apply (run_clear w1 p o)|]. intros x Hx. unfold settle. by rewrite Hx, Ev.
  - destruct (stamped_of o p) as [t|] eqn:Est.
    + eapply Hend; [by apply (run_mark_due w1 p o)|]. intros x Hx. unfold settle. rewrite Hx, Est, Ev. done.
    + eapply Hend; [exact Hnone|]. intros x Hx. unfold settle. by rewrite Hx, Est, Ev.
Qed.

(** ** The beat *)
Definition listing (w : World) : Objects := mkObjects (all_of Workspace w) (all_of SpaceEnvironment w).

Lemma listing_mirrors w k p : tidy w -> mirrors w k p (all_of k w).
Proof using Type.
  intros Ht. split.
  - unfold names. apply NoDup_fmap_2_strong; [|apply NoDup_remove_dups].
    intros x y Hx%all_of_spec Hy%all_of_spec En. unfold name_any in En. rewrite En in Hx. congruence.
  - intros x Hx%all_of_spec _. by exists x.
  - intros n y Hy _. exists y. split; [|done]. apply all_of_spec. by destruct (Ht _ _ _ Hy) as [-> _].
Qed.

Lemma listing_pairs w k n x : tidy w -> objs w !! (k, n) = Some x -> (pair_of x ∈ pairs (listing w) <-> candidate x = true).
Proof using Type.
  intros Ht Hx. split; [apply pairs_team|]. intros Hc. apply pairs_in. exists x. split; [|done].
  destruct (Ht _ _ _ Hx) as [En _]. rewrite <- En in Hx. apply elem_of_app. cbn. destruct k; [left|right]; by apply all_of_spec.
Qed.

Lemma pairs_nodup o : NoDup (pairs o).
Proof using Type. unfold pairs, btree_set. rewrite (merge_sort_Permutation pair_le). apply NoDup_remove_dups. Qed.

Lemma run_judge_all o r ps w : NoDup ps -> tidy w -> roster w = r ->
  (forall p, p ∈ ps -> mirrors w Workspace p (workspaces o) /\ mirrors w SpaceEnvironment p (spaces o)) ->
  exists w', run (judge_all o ps 0 "") w = Some ((0%nat, ""), w') /\ tidy w' /\
    becomes w w' (fun _ x => if decide (pair_of x ∈ ps) then settle o (r (pair_of x)) (seconds ns) x else x).
Proof using Type.
  revert w. induction ps as [|p ps IH]; intros w Hnd Ht Hr Hm; cbn [judge_all].
  - exists w. split; [done|]. split; [done|]. eapply becomes_ext; [|apply becomes_refl]. intros k n x _.
    by rewrite decide_False by (by intros ?%elem_of_nil).
  - apply NoDup_cons in Hnd as [Hp Hnd]. destruct (Hm p ltac:(left)) as [Hm1 Hm2].
    destruct (run_judge o p w Ht Hm1 Hm2) as (w1 & Hr1 & Ht1 & Hs1). rewrite Hr in Hs1.
    destruct (IH w1 Hnd Ht1) as (w2 & Hr2 & Ht2 & Hs2).
    + by rewrite (b_roster _ _ _ Hs1).
    + intros q Hq. destruct (Hm q ltac:(by right)) as [Hq1 Hq2]. assert (p <> q) as Hne by congruence.
      split; eapply settles_mirrors; [exact Hs1|intros; apply settle_pair|done|done|exact Hs1|intros; apply settle_pair|done|done].
    + exists w2. split; [by rewrite run_bind, Hr1; cbn [mbind option_bind]; rewrite Hr2|]. split; [done|].
      eapply becomes_ext; [|eapply becomes_trans; [|exact Hs1|exact Hs2]].
      * intros k n x _. cbn beta. destruct (decide (pair_of x = p)) as [E|E].
        -- rewrite settle_pair, E, decide_False by done. rewrite decide_True by left. done.
        -- destruct (decide (pair_of x ∈ ps)) as [E2|E2]; [by rewrite decide_True by (by right)|].
           rewrite decide_False; [done|]. by intros [|]%elem_of_cons.
      * intros k. split.
        -- intros rv x. change (pair_of (revised rv x)) with (pair_of x). case_decide; [|done]. apply settle_blind.
        -- intros x. case_decide; [|done]. apply settle_blind.
Qed.

Lemma run_listed k w : run (listed k) w = Some (inl (all_of k w), note (Listed 0 k (all_of k w)) w).
Proof using Type. done. Qed.

Lemma run_list_all w : run list_all w =
  Some (inl (listing w), note (Listed 0 SpaceEnvironment (all_of SpaceEnvironment w)) (note (Listed 0 Workspace (all_of Workspace w)) w)).
Proof using Type. unfold list_all. rewrite run_bind, run_listed. cbn [mbind option_bind]. by rewrite run_bind, run_listed. Qed.

Definition wired : ApiState := mkApi true true.

Lemma beat_settled w : tidy w -> exists w', run (membership_beat wired) w = Some (tt, w') /\
  becomes w w' (fun _ x => if candidate x then settle (listing w) (roster w (pair_of x)) (seconds ns) x else x) /\
  ((beat w' ≫= lease_spec) ≫= renew_time) = Some ns.
Proof using Type.
  intros Ht. set (w1 := note (Listed 0 SpaceEnvironment (all_of SpaceEnvironment w)) (note (Listed 0 Workspace (all_of Workspace w)) w)).
  destruct (run_judge_all (listing w) (roster w) (pairs (listing w)) w1) as (w2 & Hr2 & Ht2 & Hb2).
  - apply pairs_nodup.
  - exact Ht.
  - done.
  - intros p _. split; apply mirrors_note, mirrors_note; by apply listing_mirrors.
  - exists (note (Beat 0 (beat_lease ns)) (set_beat (mkLease (revision w2) (Some (beat_lease ns))) (note (Clocked 0 ns) w2))).
    split; [|split].
    + assert (run (reconcile wired) w = Some (inl tt, w2)) as Hrec.
      { unfold reconcile. cbn [has_kube has_directory wired andb negb]. rewrite run_bind, run_list_all. cbn [mbind option_bind].
        rewrite run_bind. fold w1. by rewrite Hr2. }
      unfold membership_beat. by rewrite run_bind, Hrec.
    + assert (becomes w w2 (fun _ x => if candidate x then settle (listing w) (roster w (pair_of x)) (seconds ns) x else x)) as Hb.
      { destruct Hb2 as [H1 H2 H3 H4 H5]. split; try done. intros k n x Hx. destruct (H1 k n x Hx) as (y & Hy & Ey). exists y. split; [done|].
        rewrite Ey. pose proof (listing_pairs w k n x Ht Hx) as Hp. destruct (candidate x); [rewrite decide_True by (by apply Hp)|rewrite decide_False]; [done..|].
        intros Hin%Hp. done. }
      destruct Hb as [? ? ? ? ?]. by split.
    + done.
Qed.

(** *** The table a beat goes by, in its own words *)

(** The objects there are of a pair. *)
Definition has w p (k : kind) (x : object) : Prop := exists n, objs w !! (k, n) = Some x /\ pair_of x = p.
Definition removed_at (x : object) : option Z := system_annotation (metadata x) REMOVED_AT ≫= chrono_seconds.
(** Since when the pair has been marked: the latest readable mark of an object of it, if there is one. *)
Inductive since w p : option Z -> Prop :=
| since_never : (forall k x, has w p k x -> removed_at x = None) -> since w p None
| since_at k x t : has w p k x -> removed_at x = Some t ->
    (forall k' x' t', has w p k' x' -> removed_at x' = Some t' -> t' <= t) -> since w p (Some t).
(** An admin asked for the deletion at once. *)
Definition asked w p : Prop := exists k x, has w p k x /\ system_annotation (metadata x) DELETE_NOW <> None.
(** The pair has workspaces and all are paused. *)
Definition asleep w p : Prop :=
  (exists x, has w p Workspace x) /\ forall x, has w p Workspace x -> access <$> spec x <> Some Full.

Definition opened (x : object) : object :=
  mkObject (metadata x) (owner x) (team x) ((fun s => mkSpec Full (desired_state s) (bench s) (attached s)) <$> spec x).
Definition shut (x : object) : object :=
  mkObject (metadata x) (owner x) (team x) ((fun s => mkSpec Paused (desired_state s) (bench s) (attached s)) <$> spec x).
Definition at_rest (x : object) : object :=
  mkObject (metadata x) (owner x) (team x) ((fun s => mkSpec Paused Stopped (bench s) (attached s)) <$> spec x).
Definition annotated (a : gmap string string) (x : object) : object := with_meta (apply_meta a) x.
Definition cleared (x : object) : object :=
  match annotations (metadata x) !! REMOVED_AT, annotations (metadata x) !! DELETE_NOW, annotations (metadata x) !! DELETE_AFTER with
  | None, None, None => x
  | _, _, _ => with_meta clear_meta x
  end.
Definition at_time (secs : Z) : string := to_rfc3339 (secs * 1000000000).
Definition week : Z := 7 * 24 * 3600.

(** What becomes of an object at [now]: whether its owner is in the team, since when the pair is marked,
    whether its deletion was asked for, whether all its workspaces are paused. *)
Inductive ruled (asked asleep : Prop) (now : Z) (x : object) : Judged -> option Z -> object -> Prop :=
| R_member : ~ asleep -> ruled asked asleep now x (Member Active) None x
| R_unpaused : asleep -> ruled asked asleep now x (Member Active) None (opened x)
| R_paused : ruled asked asleep now x (Member MPaused) None (at_rest x)
| R_back t : ruled asked asleep now x (Member Active) (Some t) (opened (cleared x))
| R_back_paused t : ruled asked asleep now x (Member MPaused) (Some t) (at_rest (cleared x))
| R_left j : away j = true -> ruled asked asleep now x j None
    (shut (annotated {[REMOVED_AT := at_time now; DELETE_AFTER := at_time (now + week)]} x))
| R_waiting j t : away j = true -> ~ asked -> now - t < week -> ruled asked asleep now x j (Some t) (shut x)
| R_dated j t : away j = true -> asked \/ week <= now - t -> system_annotation (metadata x) DELETE_AFTER <> None ->
    ruled asked asleep now x j (Some t) x
| R_due j t : away j = true -> ~ asked -> week <= now - t -> system_annotation (metadata x) DELETE_AFTER = None ->
    ruled asked asleep now x j (Some t) (annotated {[REMOVED_AT := at_time t; DELETE_AFTER := at_time (t + week)]} x)
| R_asked j t : away j = true -> asked -> system_annotation (metadata x) DELETE_AFTER = None -> ruled asked asleep now x j (Some t)
    (annotated {[DELETE_NOW := "true"; REMOVED_AT := at_time t; DELETE_AFTER := at_time now]} x).

Definition personal (x : object) : Prop := (pair_of x).2 = "" \/ (pair_of x).2 = (pair_of x).1.
(** What a beat makes of an object, the revision apart. *)
Definition judged_to w (now : Z) (x z : object) : Prop :=
  (personal x /\ z = x) \/
  (~ personal x /\ exists st, since w (pair_of x) st /\
     ruled (asked w (pair_of x)) (asleep w (pair_of x)) now x (roster w (pair_of x)) st z).

Lemma has_listed w p m : tidy w -> m ∈ metas_of (listing w) p <-> exists k x, has w p k x /\ m = metadata x.
Proof using Type.
  intros Ht. rewrite metas_in. split.
  - intros (x & Hx & Hp & ->). apply elem_of_app in Hx as [Hx%all_of_spec|Hx%all_of_spec]; eexists _, x; (split; [by eexists|done]).
  - intros (k & x & (n & Hx & Hp) & ->). exists x. split; [|done]. destruct (Ht _ _ _ Hx) as [En _]. rewrite <- En in Hx.
    apply elem_of_app. destruct k; [left|right]; by apply all_of_spec.
Qed.

Lemma max_of_most l t : max_of l = Some t -> forall y, y ∈ l -> y <= t.
Proof using Type.
  revert t. induction l as [|z l IH]; [done|]. cbn. intros t [= <-] y [->|Hy]%elem_of_cons; [destruct (max_of l); lia|].
  destruct (max_of l) as [m|] eqn:E; [specialize (IH m eq_refl y Hy); lia|]. by destruct l; [apply elem_of_nil in Hy|].
Qed.

Lemma since_listed w p : tidy w -> since w p (stamped_of (listing w) p).
Proof using Type.
  intros Ht. unfold stamped_of, latest_stamp. destruct (max_of _) as [t|] eqn:E.
  - pose proof (max_of_in _ _ E) as (m & Hm & Hs)%list_elem_of_omap. apply has_listed in Hm as (k & x & Hx & ->); [|done].
    apply (since_at w p k x t Hx Hs). intros k' x' t' Hx' Hs'. apply (max_of_most _ _ E). apply list_elem_of_omap.
    exists (metadata x'). split; [|done]. apply has_listed; [done|]. by exists k', x'.
  - apply since_never. intros k x Hx. change (removed_at x) with (stamp_of (metadata x)).
    destruct (stamp_of (metadata x)) as [t|] eqn:Es; [|done].
    assert (t ∈ omap stamp_of (metas_of (listing w) p)) as Hin.
    { apply list_elem_of_omap. exists (metadata x). split; [|done]. apply has_listed; [done|]. by exists k, x. }
    destruct (omap _ _); [by apply elem_of_nil in Hin|done].
Qed.

Lemma asked_listed w p : tidy w -> any (fun m => is_some (system_annotation m DELETE_NOW)) (metas_of (listing w) p) = true <-> asked w p.
Proof using Type.
  intros Ht. rewrite any_spec. unfold asked. setoid_rewrite has_listed; [|done]. split.
  - intros (m & (k & x & Hx & ->) & Hm). exists k, x. split; [done|]. intros E. by rewrite E in Hm.
  - intros (k & x & Hx & Hm). exists (metadata x). split; [by exists k, x|]. by destruct (system_annotation (metadata x) DELETE_NOW).
Qed.

Lemma asleep_listed w p : tidy w -> paused_of (listing w) p = true <-> asleep w p.
Proof using Type.
  intros Ht. assert (Hin : forall x, x ∈ of_pair p (all_of Workspace w) <-> has w p Workspace x).
  { intros x. rewrite of_pair_in, all_of_spec. split; [intros [? ?]; by eexists|]. intros (n & Hx & Hp). split; [done|].
    by destruct (Ht _ _ _ Hx) as [-> _]. }
  unfold paused_of, asleep. cbn [workspaces listing]. setoid_rewrite <- Hin. generalize (of_pair p (all_of Workspace w)). intros l.
  rewrite andb_true_iff, negb_true_iff, bool_decide_eq_false, bool_decide_eq_true. f_equiv.
  - split; [destruct l as [|x l]; [done|intros _; exists x; left]|intros (x & Hx) ->; by apply elem_of_nil in Hx].
  - split.
    + intros E x Hx Hf. assert (x ∈ base.filter (fun x => is_full x = true) l) as Hx' by
        (apply list_elem_of_filter; split; [by apply bool_decide_eq_true|done]). rewrite E in Hx'. by apply elem_of_nil in Hx'.
    + intros Hl. destruct (base.filter _ l) as [|x l'] eqn:E; [done|].
      assert (x ∈ base.filter (fun x => is_full x = true) l) as Hx by (rewrite E; left). apply list_elem_of_filter in Hx as [Hf Hx].
      apply bool_decide_eq_true in Hf. by destruct (Hl x Hx).
Qed.

(** The tests of the loops leave out only what is as it should be. *)
Lemma opened_unless_full x : (if not_full x then patched (PSpec Full None) x else x) = opened x.
Proof using Type. destruct x as [m ow te [[[] d b a]|]]; done. Qed.
Lemma shut_if_full x : (if is_full x then patched (PSpec Paused None) x else x) = shut x.
Proof using Type. destruct x as [m ow te [[[] d b a]|]]; done. Qed.
Lemma at_rest_unless_settled x : (if unsettled x then patched (PSpec Paused (Some Stopped)) x else x) = at_rest x.
Proof using Type. destruct x as [m ow te [[[] [] b a]|]]; done. Qed.
Lemma cleared_if_stamped x : (if has_stamp x then patched PClear x else x) = cleared x.
Proof using Type.
  unfold has_stamp, cleared, stamps. cbn [existsb].
  by destruct (annotations (metadata x) !! REMOVED_AT), (annotations (metadata x) !! DELETE_NOW), (annotations (metadata x) !! DELETE_AFTER).
Qed.

Lemma readmitted_is j x : readmitted j x = match j with Member Active => opened (cleared x) | Member MPaused => at_rest (cleared x) | _ => cleared x end.
Proof using Type.
  assert (Hs : spec (cleared x) = spec x) by (unfold cleared; repeat case_match; done).
  assert (Hn : not_full (cleared x) = not_full x) by (unfold not_full, is_full, access_of; by rewrite Hs).
  assert (Hu : unsettled (cleared x) = unsettled x) by (unfold unsettled, access_of; by rewrite Hs).
  unfold readmitted. rewrite cleared_if_stamped, <- Hn, <- Hu. rewrite opened_unless_full, at_rest_unless_settled. by destruct j as [| |[]].
Qed.

Lemma overdue now t : (MEMBER_REMOVAL_GRACE <=? Z.max i64_min (Z.min i64_max (now - t))) = true <-> week <= now - t.
Proof using Type. rewrite Z.leb_le. unfold MEMBER_REMOVAL_GRACE, week, i64_min, i64_max. lia. Qed.

Lemma unmarked_is x : unmarked_yet x = true <-> system_annotation (metadata x) DELETE_AFTER = None.
Proof using Type. unfold unmarked_yet. by destruct (system_annotation _ _). Qed.

(** The reference the loops were brought to is the table. *)
Lemma settle_ruled w now x : tidy w -> let p := pair_of x in
  ruled (asked w p) (asleep w p) now x (roster w p) (stamped_of (listing w) p) (settle (listing w) (roster w p) now x).
Proof using Type.
  intros Ht p. pose proof (asked_listed w p Ht) as Hask. pose proof (asleep_listed w p Ht) as Hsl.
  unfold settle, ordered_of. fold p. generalize dependent (roster w p). intros j.
  destruct (stamped_of (listing w) p) as [t|]; cbn [is_some andb].
  - set (b := any _ _) in *. clearbody b. destruct j as [| |[]]; cbn [verdict is_some orb away].
    3,4: rewrite readmitted_is; constructor.
    all: destruct b.
    all: try (assert (asked w p) as Ha by (by apply Hask)); try (assert (~ asked w p) as Ha by (intros Ha; by apply Hask in Ha)).
    all: cbn [is_some orb]; try (destruct (MEMBER_REMOVAL_GRACE <=? _) eqn:E;
      [apply overdue in E|assert (~ week <= now - t) as E' by (intros E'; apply overdue in E'; congruence)]); cbn [away].
    all: try (rewrite shut_if_full; apply R_waiting; [done|done|lia]).
    all: destruct (unmarked_yet x) eqn:Eu; [apply unmarked_is in Eu|
      assert (system_annotation (metadata x) DELETE_AFTER <> None) as Eu' by (intros Eu'; apply unmarked_is in Eu'; congruence)].
    all: try (apply R_dated; [done|by (left + right)|done]).
    all: first [by apply R_asked | by apply R_due].
  - destruct j as [| |[]]; cbn [verdict is_some orb away].
    1,2: by apply R_left.
    + destruct (paused_of (listing w) p).
      * rewrite opened_unless_full. apply R_unpaused. by apply Hsl.
      * rewrite bool_decide_eq_false_2 by done. apply R_member. intros Hs%Hsl. done.
    + destruct (paused_of (listing w) p); rewrite bool_decide_eq_true_2 by done; unfold paused_object; rewrite at_rest_unless_settled; constructor.
Qed.

(** C31: A beat with nobody else about judges every pair by one table ([ruled]).  A member's objects are
    left alone, and opened if all the pair's workspaces were paused; a paused member's rest; somebody
    back loses the marks and gets what their membership says; somebody who left is shut out and marked
    with a week's grace, stays shut out until then, and is then dated, or at once where an admin
    asked.  Nothing else about the region changes: no object of a personal space, none appears or goes,
    the roster and the lease stay; and the beat ends by renewing its heartbeat. *)
Theorem beat_settles w : tidy w -> exists w', run (membership_beat wired) w = Some (tt, w') /\
  (forall k n, objs w !! (k, n) = None -> objs w' !! (k, n) = None) /\
  (forall k n x, objs w !! (k, n) = Some x -> exists y z, objs w' !! (k, n) = Some y /\
     judged_to w (ns / 1000000000) x z /\ content y = content z) /\
  roster w' = roster w /\ lease w' = lease w /\
  ((beat w' ≫= lease_spec) ≫= renew_time) = Some ns.
Proof using Type.
  intros Ht. destruct (beat_settled w Ht) as (w' & Hr & Hb & Hbeat). exists w'. split; [done|]. split; [apply Hb|]. split; [|split_and!; [apply Hb..|done]].
  intros k n x Hx. destruct (b_some _ _ _ Hb k n x Hx) as (y & Hy & Ec). eexists y, _. split; [done|]. split; [|exact Ec].
  rewrite candidate_pair. unfold team_ok. destruct (String.eqb_spec (pair_of x).2 ""); [by left; split; [left|]|].
  destruct (String.eqb_spec (pair_of x).2 (pair_of x).1); [by left; split; [right|]|]. right. split; [by intros [?|?]|].
  exists (stamped_of (listing w) (pair_of x)). split; [by apply since_listed|]. by apply settle_ruled.
Qed.

(** ** The GC *)

(** The controller leads, and the lease says so. *)
Definition leads w (e : Z) : Prop := e <> 0 /\ epoch_of w me = e /\ term_matches e (view_of (lease w)) = true.

Lemma run_load_epoch w : run (trigger LoadEpoch) w = Some (epoch_of w me, note (Loaded 0 (epoch_of w me)) w).
Proof using Type. done. Qed.
Lemma run_leading w e : leads w e -> run leading w = Some (true, note (Loaded 0 e) w).
Proof using Type.
  intros (He & <- & _). unfold leading. rewrite run_bind, run_load_epoch. cbn [mbind option_bind run]. by rewrite (proj2 (Z.eqb_neq _ _) He).
Qed.
Lemma run_getlease w : run (trigger KGetLease) w = Some (KOk (lease w), note (Saw 0 (lease w)) w).
Proof using Type. done. Qed.
Lemma run_clock w : run (trigger Now) w = Some (ns, note (Clocked 0 ns) w).
Proof using Type. done. Qed.
Lemma run_list_of k w : run (list_of k) w = Some (inl (all_of k w), note (Listed 0 k (all_of k w)) w).
Proof using Type. done. Qed.
Lemma run_deletes w : run (trigger LoadDeletes) w = Some (on, w).
Proof using Type. done. Qed.
Lemma run_beat_alive now w : run (beat_alive now) w = Some (beat_fresh (beat w) now, note (SawBeat 0 (beat w)) w).
Proof using Type. done. Qed.

Lemma run_may_write w e : leads w e ->
  run may_write w = Some (true, note (Loaded 0 e) (note (Saw 0 (lease w)) (note (Loaded 0 e) w))).
Proof using Type.
  intros Hl. unfold may_write. rewrite run_bind, (run_leading w e Hl). cbn [mbind option_bind negb].
  rewrite run_bind, run_getlease. cbn [mbind option_bind]. rewrite run_bind, run_load_epoch. cbn [mbind option_bind].
  destruct Hl as (He & <- & Hm). set (w1 := note _ w). change (lease w1) with (lease w).
  change (epoch_of (note _ w1) me) with (epoch_of w me). by rewrite Hm.
Qed.

Definition key_of (d : Due) : kind * string := (d_kind d, d_name d).
Definition current w (d : Due) : Prop := forall x, objs w !! key_of d = Some x -> uid (metadata x) = d_uid d /\ resource_version (metadata x) = d_rv d.

Lemma run_delete_one w d : current w d -> exists w', run (delete_one d) w = Some (tt, w') /\
  objs w' = delete (key_of d) (objs w) /\ lease w' = lease w /\ epochs w' = epochs w.
Proof using Type.
  intros Hc. unfold delete_one. rewrite run_bind. cbn [run trigger exec region_exec mstep mbind option_bind]. unfold on_object.
  change (d_kind d, d_name d) with (key_of d). destruct (objs w !! key_of d) as [x|] eqn:Ex.
  - rewrite bool_decide_eq_true_2 by (by apply Hc). eexists. split; [by destruct (d_env d)|done].
  - exists w. split; [done|]. by rewrite delete_id.
Qed.

Lemma run_delete_due todo w e : leads w e -> (forall d, d ∈ todo -> current w d) -> exists w', run (delete_due true todo) w = Some (tt, w') /\
  forall k n, objs w' !! (k, n) = if decide ((k, n) ∈ key_of <$> todo) then None else objs w !! (k, n).
Proof using Type.
  revert w. induction todo as [|d todo IH]; intros w Hl Hc; cbn [delete_due negb].
  - exists w. split; [done|]. intros k n. by rewrite decide_False by (by intros ?%elem_of_nil).
  - rewrite run_bind, (run_may_write w e Hl). cbn [mbind option_bind negb]. set (w1 := note _ _).
    destruct (run_delete_one w1 d) as (w2 & Hr2 & Eo & El & Ee); [exact (Hc d ltac:(left))|]. rewrite run_bind, Hr2. cbn [mbind option_bind].
    destruct (IH w2) as (w3 & Hr3 & Ho3).
    + destruct Hl as (? & ? & ?). split; [done|]. rewrite El. split; [|done]. unfold epoch_of. rewrite Ee. done.
    + intros d' Hd' x. rewrite Eo, lookup_delete_Some. intros [_ Hx]. apply (Hc d' ltac:(by right) x Hx).
    + exists w3. split; [done|]. intros k n. rewrite Ho3, Eo, fmap_cons. destruct (decide ((k, n) ∈ key_of <$> todo)) as [Hin|Hin].
      * rewrite decide_True; [done|by right].
      * destruct (decide ((k, n) = key_of d)) as [E|E].
        -- rewrite decide_True by (rewrite E; left). by rewrite E, lookup_delete_eq.
        -- rewrite decide_False by (by intros [|]%elem_of_cons). by rewrite lookup_delete_ne.
Qed.

Lemma todo_in w now d : d ∈ todo_of now (all_of Workspace w) (all_of SpaceEnvironment w) <->
  exists k x, objs w !! (k, name (metadata x)) = Some x /\ due k now x = Some d.
Proof using Type.
  unfold todo_of. rewrite !elem_of_app, !list_elem_of_omap. setoid_rewrite list_elem_of_filter. setoid_rewrite all_of_spec. split.
  - naive_solver.
  - intros ([] & x & Hx & Hd); [destruct (is_bench x) eqn:E; [left|right; left]|right; right]; exists x; auto.
Qed.

Definition still_due w k n : bool := is_some_and (objs w !! (k, n)) (fun x => is_some (due k (as_second ns) x)).

Lemma gc_took w e : tidy w -> on = true -> leads w e -> beat_fresh (beat w) (as_second ns) = true ->
  exists w', run gc_tick w = Some (tt, w') /\
    forall k n, objs w' !! (k, n) = if still_due w k n then None else objs w !! (k, n).
Proof using Type.
  intros Ht Hon Hl Hf. unfold gc_tick. rewrite run_bind, (run_leading w e Hl). cbn [mbind option_bind].
  rewrite run_bind, run_clock. cbn [mbind option_bind]. unfold pass. set (w1 := note _ _).
  rewrite run_bind, run_list_of. cbn [mbind option_bind]. rewrite run_bind, run_list_of. cbn [mbind option_bind]. cbn zeta.
  set (w2 := note _ (note _ w1)). rewrite run_bind, run_deletes. cbn [mbind option_bind].
  change (all_of Workspace w1) with (all_of Workspace w). change (all_of SpaceEnvironment _) with (all_of SpaceEnvironment w).
  set (now := as_second ns). set (todo := todo_of now (all_of Workspace w) (all_of SpaceEnvironment w)).
  assert (forall d, d ∈ todo -> current w2 d) as Hcur.
  { intros d (k & x & Hx & Hd)%todo_in y Hy. destruct (due_spec _ _ _ _ Hd) as (Ek & En & -> & -> & _).
    unfold key_of in Hy. rewrite Ek, En in Hy. change (objs w2) with (objs w) in Hy. replace y with x by congruence. done. }
  assert (forall k n, still_due w k n = true <-> (k, n) ∈ key_of <$> todo) as Hdue.
  { intros k n. rewrite list_elem_of_fmap. unfold still_due. split.
    - destruct (objs w !! (k, n)) as [x|] eqn:Ex; [|done]. cbn [is_some_and]. fold now. destruct (due k now x) as [d|] eqn:Ed; [|done]. intros _. exists d.
      destruct (due_spec _ _ _ _ Ed) as (Ek & En & _). destruct (Ht _ _ _ Ex) as [Enx _]. split; [unfold key_of; congruence|].
      apply todo_in. exists k, x. by rewrite Enx.
    - intros (d & Ekey & (k' & x & Hx & Hd)%todo_in). destruct (due_spec _ _ _ _ Hd) as (Ek & En & _). unfold key_of in Ekey.
      rewrite Ek, En in Ekey. injection Ekey as -> ->. rewrite Hx. cbn [is_some_and]. fold now. by rewrite Hd. }
  assert (forall w3, objs w3 = objs w -> leads w3 e -> exists w', run (delete_due true todo) w3 = Some (tt, w') /\
    forall k n, objs w' !! (k, n) = if still_due w k n then None else objs w !! (k, n)) as Hrun.
  { intros w3 Eo Hl3. destruct (run_delete_due todo w3 e) as (w' & Hr & Ho); [exact Hl3| |].
    - intros d Hd x Hx. rewrite Eo in Hx. by apply (Hcur d Hd).
    - exists w'. split; [done|]. intros k n. rewrite Ho, Eo.
      destruct (still_due w k n) eqn:Es; [rewrite decide_True by (by apply Hdue)|rewrite decide_False]; [done..|].
      intros Hin%Hdue. congruence. }
  rewrite Hon. cbn [andb]. destruct (decide (todo = [])) as [E|E].
  - rewrite bool_decide_eq_true_2 by done. cbn [negb]. rewrite run_bind. cbn [run mbind option_bind negb]. by apply Hrun.
  - rewrite bool_decide_eq_false_2 by done. cbn [negb]. rewrite run_bind, run_beat_alive. cbn [mbind option_bind].
    change (beat w2) with (beat w). unfold now. rewrite Hf. cbn [negb]. by apply Hrun.
Qed.

(** C32: with deletes on, a pass of the leader's GC under a fresh beat, with nobody else about, deletes
    exactly the objects that are due: marked by the membership manager with a time past the slack,
    and not already going.  Every other object stays as it is. *)
Theorem gc_takes_what_is_due w e : tidy w -> on = true -> leads w e -> beat_fresh (beat w) (as_second ns) = true ->
  exists w', run gc_tick w = Some (tt, w') /\
    forall k n, objs w' !! (k, n) = if still_due w k n then None else objs w !! (k, n).
Proof using Type. exact (gc_took w e). Qed.
End alone.

(** ** A removal from end to end *)
Section end_to_end.
Context `{!Rfc3339}.
Implicit Types (w : World) (p : string * string).

(** A program alone, on controller [me], with the clock at [ns]. *)
Definition alone {A} (me : string) (ns : Z) (on : bool) (q : kprog A) (w : World) : option (A * World) :=
  @run KE World A (region_exec me ns on) q w.

Lemma settle_tidy w w' j ns : tidy w ->
  becomes w w' (fun _ x => if candidate x then settle (listing w) (j (pair_of x)) ns x else x) -> tidy w'.
Proof using Type.
  intros Ht Hb. eapply tidy_becomes; [exact Ht|exact Hb|..]; cbn beta.
  - intros _. split; [intros r x; change (candidate (revised r x)) with (candidate x); change (pair_of (revised r x)) with (pair_of x)|intros x];
      (destruct (candidate x); [apply settle_blind|done]).
  - intros x Hx. destruct (candidate x); [|done]. unfold settle, paused_object. destruct (readmitted_patch (j (pair_of x)) x) as [ps ->].
    assert (spec (foldr patched x ps) = None) as Hf by (induction ps as [|q ps IH]; [done|by apply spaceless_patched]).
    repeat case_match; try done; by apply spaceless_patched.
Qed.

Lemma max_of_const l z : (forall y, y ∈ l -> y = z) -> l <> [] -> max_of l = Some z.
Proof using Type.
  induction l as [|y l IH]; [done|]. intros Hall _. cbn. rewrite (Hall y) by left. destruct l as [|y' l]; [done|].
  rewrite IH; [by rewrite Z.max_id|intros; apply Hall; by right|done].
Qed.

(** Every object of the pair has one stamp. *)
Lemma stamped_const w p z : tidy w -> (exists k n x, objs w !! (k, n) = Some x /\ pair_of x = p) ->
  (forall k n x, objs w !! (k, n) = Some x -> pair_of x = p -> stamp_of (metadata x) = Some z) -> stamped_of (listing w) p = Some z.
Proof using Type.
  intros Ht (k & n & x & Hx & Hp) Hall. unfold stamped_of, latest_stamp.
  assert (forall y k, y ∈ all_of k w -> pair_of y = p -> stamp_of (metadata y) = Some z) as Hl by (intros y k' Hy%all_of_spec; by eapply Hall).
  assert (forall m, m ∈ metas_of (listing w) p -> stamp_of m = Some z) as Hm.
  { intros m (y & Hy & Hpy & ->)%metas_in. apply elem_of_app in Hy as [Hy|Hy]; [exact (Hl y Workspace Hy Hpy)|exact (Hl y SpaceEnvironment Hy Hpy)]. }
  apply max_of_const.
  - intros y (m & Hy & Hs)%list_elem_of_omap. rewrite (Hm m Hy) in Hs. congruence.
  - assert (metadata x ∈ metas_of (listing w) p) as Hin.
    { apply metas_in. exists x. split; [|done]. destruct (Ht _ _ _ Hx) as [En _]. rewrite <- En in Hx. apply elem_of_app.
      destruct k; [left|right]; by apply all_of_spec. }
    intros E. assert (z ∈ omap stamp_of (metas_of (listing w) p)) as Hz by (apply list_elem_of_omap; eauto). rewrite E in Hz. by apply elem_of_nil in Hz.
Qed.

(** The first beat that finds the person away marks every object of the pair. *)
Lemma settle_stamps o j now x : away j = true -> stamped_of o (pair_of x) = None ->
  metadata (settle o j now x) = apply_meta (stamp_body (printed now) (printed (now + MEMBER_REMOVAL_GRACE)) false) (metadata x).
Proof using Type.
  intros Ha Hs. unfold settle, ordered_of. rewrite Hs. cbn [is_some andb]. by destruct j.
Qed.

(** Later ones leave the marks. *)
Lemma settle_keeps o j now x z : away j = true -> stamped_of o (pair_of x) = Some z -> unmarked_yet x = false ->
  metadata (settle o j now x) = metadata x.
Proof using Type.
  intros Ha Hs Hu. unfold settle, verdict. rewrite Hs, Hu. destruct j; [| |done]; cbv beta iota zeta;
    (destruct (ordered_of o (pair_of x)); [done|]); (destruct (MEMBER_REMOVAL_GRACE <=? _); [done|]); by destruct (is_full x).
Qed.

(** The stamps of the beat that finds a departure, at [ns]. *)
Definition departure (ns : Z) : gmap string string :=
  stamp_body (printed (seconds ns)) (printed (seconds ns + MEMBER_REMOVAL_GRACE)) false.

(** That beat puts them on every object of the pair, and changes nothing else of the metadata. *)
Lemma first_beat w w1 p ns : tidy w -> away (roster w p) = true -> team_ok p = true -> stamped_of (listing w) p = None ->
  becomes w w1 (fun _ x => if candidate x then settle (listing w) (roster w (pair_of x)) (seconds ns) x else x) ->
  (forall k n x, objs w !! (k, n) = Some x -> pair_of x = p ->
    exists y r, objs w1 !! (k, n) = Some y /\ pair_of y = p /\ metadata y = metadata (revised r (with_meta (apply_meta (departure ns)) x))) /\
  (forall k n y, objs w1 !! (k, n) = Some y -> pair_of y = p -> forall key, system_annotation (metadata y) key = departure ns !! key).
Proof using Type.
  intros Ht Haw Hteam Hst Hb.
  assert (forall k n x, objs w !! (k, n) = Some x -> pair_of x = p -> exists y r, objs w1 !! (k, n) = Some y /\ pair_of y = p /\
    metadata y = metadata (revised r (with_meta (apply_meta (departure ns)) x))) as H1.
  { intros k n x Hx Hp. destruct (b_some _ _ _ Hb _ _ _ Hx) as (y & Hy & Ey).
    replace (candidate x) with true in Ey by (symmetry; rewrite candidate_pair, Hp; done).
    pose proof (pair_content _ _ Ey) as Epair. rewrite settle_pair in Epair.
    apply revised_content in Ey as [r ->]. eexists _, r. split; [done|]. split; [congruence|]. cbn. by rewrite settle_stamps by (rewrite Hp; done). }
  split; [done|]. intros k n y Hy Hp key. destruct (objs w !! (k, n)) as [x|] eqn:Ex; [|by rewrite (b_none _ _ _ Hb _ _ Ex) in Hy].
  assert (pair_of x = p) as Hpx.
  { destruct (b_some _ _ _ Hb _ _ _ Ex) as (y' & Hy' & Ey). assert (y' = y) as -> by congruence.
    rewrite <- Hp, (pair_content _ _ Ey). destruct (candidate x); [by rewrite settle_pair|done]. }
  destruct (H1 k n x Ex Hpx) as (y' & r & Hy' & _ & Em). assert (y' = y) as -> by congruence. rewrite Em. cbn. apply apply_stamps.
Qed.

(** A later beat leaves them as they are. *)
Lemma later_beat w w' p ns now k n y : tidy w -> clock_ok ns -> away (roster w p) = true -> team_ok p = true ->
  (forall k n y, objs w !! (k, n) = Some y -> pair_of y = p -> forall key, system_annotation (metadata y) key = departure ns !! key) ->
  becomes w w' (fun _ x => if candidate x then settle (listing w) (roster w (pair_of x)) now x else x) ->
  objs w !! (k, n) = Some y -> pair_of y = p -> exists z, objs w' !! (k, n) = Some z /\ metadata z = metadata (revised (resource_version (metadata z)) y).
Proof using Type.
  intros Ht Hc Haw Hteam Hsys Hb Hy Hp. pose proof (seconds_range ns Hc) as Hs. unfold clock_ok in Hc.
  assert (stamped_of (listing w) p = Some (seconds ns)) as Hst.
  { apply stamped_const; [done|by exists k, n, y|]. intros k' n' y' Hy' Hp'. unfold stamp_of. rewrite (Hsys _ _ _ Hy' Hp').
    change (departure ns !! REMOVED_AT) with (Some (printed (seconds ns))). cbn. apply printed_read. lia. }
  destruct (b_some _ _ _ Hb _ _ _ Hy) as (z & Hz & Ez). exists z. split; [done|].
  replace (candidate y) with true in Ez by (symmetry; rewrite candidate_pair, Hp; done).
  apply revised_content in Ez as [r ->]. cbn. rewrite (settle_keeps _ _ _ _ (seconds ns)); [done|..].
  - by rewrite Hp.
  - by rewrite Hp.
  - unfold unmarked_yet. rewrite (Hsys _ _ _ Hy Hp). done.
Qed.

(** What is marked so is due a grace and the slack after that beat. *)
Lemma departure_due k x ns now : clock_ok ns -> deletion_timestamp (metadata x) = None ->
  (forall key, system_annotation (metadata x) key = departure ns !! key) ->
  is_some (due k now x) = (seconds ns + MEMBER_REMOVAL_GRACE + DELETE_SLACK_SECS <=? now).
Proof using Type.
  intros Hc Hdt Hsys. pose proof (seconds_range ns Hc) as Hs. unfold clock_ok in Hc. unfold due. rewrite Hdt, Hsys.
  change (departure ns !! DELETE_AFTER) with (Some (printed (seconds ns + MEMBER_REMOVAL_GRACE))). cbn [is_some mbind option_bind].
  destruct (printed_read (seconds ns + MEMBER_REMOVAL_GRACE)) as [_ Hj]; [unfold MEMBER_REMOVAL_GRACE; lia|]. rewrite Hj.
  cbn [mbind option_bind]. by destruct (_ <=? _).
Qed.

(** C28: a person who has left has their data deleted, and not before its time: with nobody else about,
    the beat that finds the pair away and unstamped, a later beat, and a pass of the leader's GC no
    more than two beats after it and past the grace and the slack, with deletes on, leave no object of
    the pair that was not going already; and a pass before that time takes none of them. *)
Theorem departed_goes me w p e ns1 ns2 ns3 : tidy w -> clock_ok ns1 -> away (roster w p) = true -> team_ok p = true ->
  stamped_of (listing w) p = None -> leads me w e -> as_second ns3 - as_second ns2 <= 2 * KEYS_RESYNC_SECS ->
  exists w1 w2 w3, alone me ns1 true (membership_beat wired) w = Some (tt, w1) /\
    alone me ns2 true (membership_beat wired) w1 = Some (tt, w2) /\ alone me ns3 true gc_tick w2 = Some (tt, w3) /\
    forall k n x, objs w !! (k, n) = Some x -> pair_of x = p -> deletion_timestamp (metadata x) = None ->
      (objs w3 !! (k, n) = None <-> seconds ns1 + MEMBER_REMOVAL_GRACE + DELETE_SLACK_SECS <= as_second ns3).
Proof using Type.
  intros Ht Hc1 Haw Hteam Hst Hl Hfresh.
  destruct (beat_settled me ns1 true w Ht) as (w1 & Hr1 & Hb1 & _).
  assert (tidy w1) as Ht1 by by eapply settle_tidy.
  destruct (beat_settled me ns2 true w1 Ht1) as (w2 & Hr2 & Hb2 & Hbeat).
  assert (tidy w2) as Ht2 by by eapply settle_tidy.
  assert (leads me w2 e) as Hl2.
  { destruct Hl as (? & ? & ?). unfold leads, epoch_of.
    rewrite (b_lease _ _ _ Hb2), (b_lease _ _ _ Hb1), (b_epochs _ _ _ Hb2), (b_epochs _ _ _ Hb1). done. }
  assert (beat_fresh (beat w2) (as_second ns3) = true) as Hf by (unfold beat_fresh; rewrite Hbeat; cbn; by apply Z.leb_le).
  destruct (gc_took me ns3 true w2 e Ht2 eq_refl Hl2 Hf) as (w3 & Hr3 & Ho3).
  exists w1, w2, w3. split; [done|]. split; [done|]. split; [done|]. intros k n x Hx Hp Hdt.
  destruct (first_beat w w1 p ns1 Ht Haw Hteam Hst Hb1) as [H1 Hsys].
  destruct (H1 k n x Hx Hp) as (y & r & Hy & Hpy & Em).
  destruct (later_beat w1 w2 p ns1 (seconds ns2) k n y) as (z & Hz & Emz); try done.
  { by rewrite (b_roster _ _ _ Hb1). }
  rewrite Ho3. unfold still_due. rewrite Hz. cbn [is_some_and].
  rewrite (departure_due k z ns1); [|done|by rewrite Emz; cbn; rewrite Em|].
  - destruct (_ <=? _) eqn:El; bools; split; try done. lia.
  - intros key. rewrite Emz. change (system_annotation _ key) with (system_annotation (metadata y) key). by apply (Hsys k n).
Qed.
End end_to_end.
