(* ===== verification/RemovalWitness.v ===== *)
(** * RemovalWitness: the region, run by schedules

    A printer of times, and runs of the machine: an ordinary removal, and those in which the code does
    not do what its comments say. *)

From S2P Require Import Prelude Text Names Prog Sched Cluster Controller Removal ClusterInv RemovalRules ControllerRules RemovalProps RemovalAlone.
Local Open Scope string_scope.
Local Open Scope Z_scope.

(** Times printed as their nanoseconds. *)
Definition nanos (s : string) : option Z := (fun ns => ns / 1000000000) <$> ok_parse (parse_u64 s).
Lemma nanos_display ns : 0 <= ns < 2 ^ 64 -> nanos (display ns) = Some (ns / 1000000000).
Proof. intros Hns. unfold nanos. rewrite parse_u64_display by (unfold u64, u64_max; lia). done. Qed.
#[export] Instance decimal_times : Rfc3339 := {|
  to_rfc3339 := display; chrono_seconds := nanos; jiff_seconds := nanos;
  chrono_printed := nanos_display; jiff_printed := nanos_display |}.

(** ** A removal: bob has left acme; stamped, a week later still away, and deleted *)
Definition at_ (secs : Z) : Z := secs * 1000000000.
Definition left_at : Z := 1000000.
Definition due_at : Z := left_at + MEMBER_REMOVAL_GRACE.
Definition clocks (t : nat) : Z :=
  match t with
  | 1%nat | 2%nat => at_ left_at
  | 3%nat => at_ (due_at + 1)
  | 5%nat => at_ (due_at + 360)
  | 6%nat => at_ (due_at + 301)
  | _ => 0
  end.
Definition pods (t : nat) : string := "ctl-a".
Definition back (t : nat) (w : World) : World := set_roster (fun _ => Member Active) w.

Lemma clocks_ok t : clock_ok (clocks t).
Proof. unfold clock_ok. do 7 (destruct t as [|t]; [vm_compute; by intuition|]). vm_compute. by intuition. Qed.
Lemma pods_ok t : check_holder (pods t) = true. Proof. done. Qed.
Lemma back_ok t w : outside w (back t w).
Proof. split; try done; [by left|]. intros k n y Hy. by left. Qed.

Definition desk : object :=
  mkObject (mkMeta "ws-1" 1 1 None ∅ []) "Bob" "acme" (Some (mkSpec Full Running false (Some "env-7"))).
Definition choice : object := mkObject (mkMeta "wt-bob-acme" 2 2 None ∅ []) "bob" "acme" None.
Definition region : World :=
  mkWorld (<[(Workspace, "ws-1") := desk]> (<[(SpaceEnvironment, "wt-bob-acme") := choice]> ∅)) 3 None None ∅
    (fun p => if String.eqb p.1 "bob" then NotMember else Member Active)
    (fun kn => if decide (kn.1 = Workspace) then ("Bob", "acme") else ("bob", "acme")) [].

Lemma region_fresh : fresh_region region.
Proof.
  split; try done.
  intros k n x. cbn. rewrite !lookup_insert_Some, lookup_empty.
  intros [[[= <- <-] <-]|[_ [[[= <- <-] <-]|[_ [=]]]]]; (split; [done|]; split; [cbn; lia|by intros key]).
Qed.

Definition api : ApiState := mkApi true true.
Abbreviation drive := (Sched.drive (mstep pods clocks back true)).
Definition outcome (sched : list move) (ps : list (nat * kprog unit)) : World :=
  match drive sched ps region with Some (_, w) => w | None => region end.
Definition left_over (sched : list move) (ps : list (nat * kprog unit)) : list (nat * kprog unit) :=
  match drive sched ps region with Some (ps, _) => ps | None => ps end.
Abbreviation steps := (rtc (pstep (cluster_sem pods) (entry pods))).

Lemma region_reached sched ps : NoDup ps.*1 -> (forall tp, tp ∈ ps -> entry pods tp.1 tp.2) ->
  is_some (drive sched ps region) = true -> steps (region, []) (outcome sched ps, left_over sched ps).
Proof.
  intros Hnd He Hd. unfold outcome, left_over. destruct (drive sched ps region) as [[ps' w']|] eqn:Hrun; [|done].
  etrans; [by apply (pool_starts (cluster_sem pods) (entry pods) ps region)|].
  exact (drive_steps (mstep pods clocks back true) (cluster_sem pods) (entry pods) (fun _ => True) Logic.I
    (rstep_sem pods clocks back true clocks_ok back_ok) sched ps region ps' w' Logic.I (fun _ _ => Logic.I) Hrun).
Qed.

Definition tasks : list (nat * kprog unit) := [
  (1%nat, tick_once "ctl-a"); (2%nat, membership_beat api); (3%nat, membership_beat api); (4%nat, trigger Others); (5%nat, gc_tick);
  (6%nat, membership_beat api)].
Lemma tasks_entries tp : tp ∈ tasks -> entry pods tp.1 tp.2.
Proof.
  unfold tasks. rewrite !elem_of_cons, elem_of_nil. intros [->|[->|[->|[->|[->|[->|[]]]]]]].
  - exact (e_tick pods 1).
  - exact (e_beat pods 2 api).
  - exact (e_beat pods 3 api).
  - exact (e_others pods 4).
  - exact (e_gc pods 5).
  - exact (e_beat pods 6 api).
Qed.

Lemma tasks_reached sched : is_some (drive sched tasks region) = true ->
  steps (region, []) (outcome sched tasks, left_over sched tasks).
Proof. apply region_reached; [apply (bool_decide_unpack _); vm_compute; exact Logic.I|apply tasks_entries]. Qed.

Definition week : list move := [Go 1 10; Go 2 30; Go 3 30; Go 5 30].
Abbreviation after_week := (outcome week tasks).
Definition week_hist : list event := Eval vm_compute in hist after_week.
Definition gone_choice : object := Eval vm_compute in
  match week_hist with Deleted _ _ x :: _ => x | _ => choice end.

Lemma week_reached : steps (region, []) (after_week, left_over week tasks).
Proof. apply tasks_reached. vm_compute. reflexivity. Qed.
Lemma week_ends : hist after_week = Deleted 5 SpaceEnvironment gone_choice :: drop 1 week_hist.
Proof. vm_compute. reflexivity. Qed.

Lemma deleted_was_away_witness : candidate gone_choice = true /\ deletion_timestamp (metadata gone_choice) = None /\
  exists ns d, Clocked 5 ns ∈ drop 1 week_hist /\ d + DELETE_SLACK_SECS <= as_second ns /\
    ((exists ns0, away_at (pair_of gone_choice) ns0 (drop 1 week_hist) /\ d = seconds ns0 + MEMBER_REMOVAL_GRACE) \/
     (ordered (pair_of gone_choice) (drop 1 week_hist) /\ exists ns0, away_at (pair_of gone_choice) ns0 (drop 1 week_hist) /\ d = seconds ns0)).
Proof. exact (deleted_was_away pods pods_ok region after_week _ region_fresh week_reached [] 5 SpaceEnvironment gone_choice _ week_ends). Defined.

Lemma deleted_under_beat_witness : exists ns t' ns' l1 l2, Clocked 5 ns ∈ drop 1 week_hist /\ Clocked t' ns' ∈ drop 1 week_hist /\
    as_second ns - as_second ns' <= 2 * KEYS_RESYNC_SECS /\
    Listed t' Workspace l1 ∈ drop 1 week_hist /\ Listed t' SpaceEnvironment l2 ∈ drop 1 week_hist /\
    forall p, p ∈ pairs (mkObjects l1 l2) -> exists j, Told t' p j ∈ drop 1 week_hist.
Proof. exact (deleted_under_beat pods pods_ok region after_week _ region_fresh week_reached [] 5 SpaceEnvironment gone_choice _ week_ends). Defined.

Definition counts (e : event) : bool := match e with Wrote _ _ o => shown o <? term_max | _ => true end.
Lemma counted_check h : forallb counts h = true -> counted h.
Proof.
  intros Hf t q o Hin. rewrite forallb_forall in Hf. specialize (Hf _ (proj1 (list_elem_of_In _ _) Hin)). cbn in Hf. by apply Z.ltb_lt.
Qed.

Lemma term_has_one_holder_witness : "ctl-a" = "ctl-a" /\ wrote (hist after_week) "ctl-a" (epoch_of after_week "ctl-a").
Proof.
  refine (term_has_one_holder pods pods_ok region after_week _ region_fresh week_reached 1 5 _ _ eq_refl).
  - apply counted_check. vm_compute. reflexivity.
  - vm_compute. discriminate.
Defined.

(** *** Alone *)
Lemma region_tidy : tidy region.
Proof.
  intros k n x. cbn. rewrite !lookup_insert_Some, lookup_empty.
  intros [[[= <- <-] <-]|[_ [[[= <- <-] <-]|[_ [=]]]]]; by split.
Qed.

Lemma beat_settles_witness : exists w', @run KE World unit (region_exec "ctl-a" (at_ left_at) true) (membership_beat wired) region = Some (tt, w') /\
  (forall k n, objs region !! (k, n) = None -> objs w' !! (k, n) = None) /\
  (forall k n x, objs region !! (k, n) = Some x -> exists y z, objs w' !! (k, n) = Some y /\
     judged_to region (at_ left_at / 1000000000) x z /\ content y = content z) /\
  roster w' = roster region /\ lease w' = lease region /\
  ((beat w' ≫= lease_spec) ≫= renew_time) = Some (at_ left_at).
Proof. exact (beat_settles "ctl-a" (at_ left_at) true region region_tidy). Defined.

(** A region whose controller has been elected. *)
Definition led : World := mkWorld (objs region) 4 (Some (mkLease 3 (Some (mkLeaseSpec (Some "ctl-a") None (Some 1) None None)))) None
  {["ctl-a" := 1]} (roster region) (home region) [].
Lemma led_leads : leads "ctl-a" led 1. Proof. by split. Qed.

Lemma departed_goes_witness : exists w1 w2 w3,
  alone "ctl-a" (at_ left_at) true (membership_beat wired) led = Some (tt, w1) /\
  alone "ctl-a" (at_ (due_at + 1)) true (membership_beat wired) w1 = Some (tt, w2) /\
  alone "ctl-a" (at_ (due_at + 360)) true gc_tick w2 = Some (tt, w3) /\
  forall k n x, objs led !! (k, n) = Some x -> pair_of x = ("bob", "acme") -> deletion_timestamp (metadata x) = None ->
    (objs w3 !! (k, n) = None <-> seconds (at_ left_at) + MEMBER_REMOVAL_GRACE + DELETE_SLACK_SECS <= as_second (at_ (due_at + 360))).
Proof.
  refine (departed_goes "ctl-a" led ("bob", "acme") 1 _ _ _ region_tidy _ eq_refl eq_refl _ led_leads _).
  - vm_compute. by split.
  - vm_compute. reflexivity.
  - vm_compute. discriminate.
Defined.

(** Marked and past the slack. *)
Definition marked : World := mkWorld (objs (outcome [Go 1 10; Go 2 30; Go 3 30] tasks)) 20 (lease led)
  (beat (outcome [Go 1 10; Go 2 30; Go 3 30] tasks)) (epochs led) (roster region) (home region) [].
Lemma marked_tidy : tidy marked.
Proof.
  assert (map_Forall (fun kn x => name (metadata x) = kn.2 /\ (kn.1 = SpaceEnvironment -> spec x = None)) (objs marked)) as Hf.
  { apply map_Forall_to_list. vm_compute. repeat constructor; intros; discriminate. }
  intros k n x Hx. exact (Hf _ _ Hx).
Qed.

Lemma gc_takes_what_is_due_witness : exists w', @run KE World unit (region_exec "ctl-a" (at_ (due_at + 360)) true) gc_tick marked = Some (tt, w') /\
  forall k n, objs w' !! (k, n) = if still_due (at_ (due_at + 360)) marked k n then None else objs marked !! (k, n).
Proof.
  refine (gc_takes_what_is_due "ctl-a" (at_ (due_at + 360)) true marked 1 marked_tidy eq_refl _ _).
  - by split.
  - vm_compute. reflexivity.
Defined.

(** ** Where it errs *)

Definition lost_desk (w : World) : Prop := exists h1 x h2, hist w = (h1 ++ Deleted 5 Workspace x :: h2)%list /\ pair_of x = ("bob", "acme").
Definition is_desk (e : event) : bool := match e with Deleted 5 Workspace x => bool_decide (pair_of x = ("bob", "acme")) | _ => false end.
Lemma lost_desk_check w : existsb is_desk (hist w) = true -> lost_desk w.
Proof.
  intros (e & Hin & He)%existsb_exists. apply list_elem_of_In in Hin. apply list_elem_of_split in Hin as (h1 & h2 & Eh).
  destruct e; try done. cbn in He. do 6 (destruct t as [|t]; try done). destruct k; [|done]. apply bool_decide_eq_true in He. by exists h1, x, h2.
Qed.

(** A person back in the team loses the workspace all the same, with no request failing: the slack
    is counted from the date of the mark, and a beat that came just after that date, before the
    person's return, is fresh enough for the pass. *)
Definition return_late : list move := [Go 1 10; Go 2 30; Go 3 30; Go 4 1].
Theorem returned_member_loses_workspace : exists w1 ps1 w2 ps2,
  steps (region, []) (w1, ps1) /\ roster w1 ("bob", "acme") = Member Active /\ is_Some (objs w1 !! (Workspace, "ws-1")) /\
  ~ lost_desk w1 /\ steps (region, []) (w2, ps2) /\ roster w2 ("bob", "acme") = Member Active /\ lost_desk w2.
Proof.
  exists (outcome return_late tasks), (left_over return_late tasks), (outcome (return_late ++ [Go 5 30]) tasks), (left_over (return_late ++ [Go 5 30]) tasks).
  split; [apply tasks_reached; vm_compute; reflexivity|]. split; [vm_compute; reflexivity|].
  split; [vm_compute; by eexists|]. split.
  - intros (h1 & x & h2 & Eh & _). assert (Deleted 5 Workspace x ∈ hist (outcome return_late tasks)) as Hin.
    { rewrite Eh. apply elem_of_app. right. left. }
    assert (forallb (fun e => match e with Deleted _ _ _ => false | _ => true end) (hist (outcome return_late tasks)) = true) as Hf by (vm_compute; reflexivity).
    rewrite forallb_forall in Hf. by specialize (Hf _ (proj1 (list_elem_of_In _ _) Hin)).
  - split; [apply tasks_reached; vm_compute; reflexivity|]. split; [vm_compute; reflexivity|]. apply lost_desk_check. vm_compute. reflexivity.
Qed.

(** A beat whose clears fail counts as one that judged: the heartbeat is renewed though the stamps
    of a member are still there, and the pass deletes. *)
Definition clear_fails : list move := [Go 1 10; Go 2 30; Go 4 1; Go 6 5; Odd 6; Odd 6; Go 6 30; Go 5 30].
Theorem failed_clear_is_a_beat : exists w ps h1 h2, steps (region, []) (w, ps) /\
  hist w = (h1 ++ Beat 6 (beat_lease (clocks 6)) :: h2)%list /\ Told 6 ("bob", "acme") (Member Active) ∈ h2 /\ lost_desk w.
Proof.
  exists (outcome clear_fails tasks), (left_over clear_fails tasks).
  assert (exists h1 h2, hist (outcome clear_fails tasks) = (h1 ++ Beat 6 (beat_lease (clocks 6)) :: h2)%list /\ Told 6 ("bob", "acme") (Member Active) ∈ h2)
    as (h1 & h2 & Eh & Ht).
  { exists (take 13 (hist (outcome clear_fails tasks))), (drop 14 (hist (outcome clear_fails tasks))). split; [vm_compute; reflexivity|].
    apply (bool_decide_unpack _). vm_compute. exact Logic.I. }
  exists h1, h2. split; [apply tasks_reached; vm_compute; reflexivity|]. split; [done|]. split; [done|].
  apply lost_desk_check. vm_compute. reflexivity.
Qed.

(** A lease in our own name at term 0 is renewed at term 0 for good: no controller leads.  The comment
    beside the refusal says that the next tick advances it. *)
Theorem zero_term_is_kept me ns on w ms : view_of (lease w) = Some (mkView me 0 ms) ->
  Z.max 0 (as_millisecond ns) <= sat_add64 ms TTL ->
  exists w', alone me ns on (tick_once me) w = Some (tt, w') /\ epoch_of w' me = 0 /\
    view_of (lease w') = Some (mkView me 0 (Z.max 0 (as_millisecond ns))).
Proof.
  intros Hv Hlive. destruct (lease w) as [l|] eqn:El; [|done]. unfold alone, tick_once.
  assert (lease_decide (Z.max 0 (as_millisecond ns)) me (view_of (Some l)) = Renew 0) as Hd.
  { rewrite Hv. cbn [lease_decide holder transitions renewed_ms]. rewrite (proj2 (Z.leb_le _ _) Hlive), String.eqb_refl. done. }
  set (l' := mkLease (revision w) (Some (term_spec me (Renew 0) 0 (Some l) ns))).
  set (w1 := note (Clocked 0 ns) (note (Saw 0 (Some l)) w)).
  exists (set_epoch me 0 (note (Wrote 0 (Some me) (Some 0)) (set_lease l' w1))).
  split; [|split; [unfold epoch_of; cbn; by rewrite lookup_insert_eq|done]].
  rewrite run_bind, run_getlease, El. cbn [mbind option_bind]. rewrite run_bind, run_clock. cbn [mbind option_bind]. fold w1. cbn zeta.
  rewrite Hd. rewrite run_bind. unfold Controller.write. rewrite run_bind. cbn [run trigger exec region_exec mstep mbind option_bind].
  change (lease w1) with (lease w). rewrite El. cbn [lease_rv]. rewrite Nat.eqb_refl. cbn [run won mbind option_bind put_lease fst snd].
  unfold put_lease. change (mkLease (revision w1) _) with l'.
  assert (view l' = Some (mkView me 0 (Z.max 0 (as_millisecond ns)))) as -> by done. cbn [holder transitions]. rewrite String.eqb_refl. done.
Qed.
