(* ===== verification/Patch.v ===== *)
(** * Patch: the file tools of the workspace's tool server, [crates/ide/src]

    Unified diffs parsed and placed ([tools/patch.rs]), exact replacements ([tools/files.rs]'s
    [edit]), and the confinement every path goes through ([paths.rs]), as programs over a file system
    that may refuse any write. *)

From S2P Require Import Prelude Text Prog.
Local Open Scope string_scope.
Local Open Scope Z_scope.

Inductive ToolError := Unknown (m : string) | Invalid (m : string) | Denied (m : string) | Failed (m : string).

(** ** [patch.rs]: the diff *)

(** How far from its stated line a hunk may land. *)
Definition FUZZ_LINES : nat := 200.

Record Hunk := mkHunk { old_start : Z; hlines : list (ascii * string) }.
Record FilePatch := mkFile { old : option string; new : option string; hunks : list Hunk }.

Definition tab : ascii := "009"%char.
Definition NUL : ascii := "000"%char.

(** The path of a [---] or [+++] line; [/dev/null] is none. *)
Definition strip_prefix (p : string) : option string :=
  let p := trim (default p (head (Text.split tab p))) in
  if String.eqb p "/dev/null" then None
  else Some (match Text.strip_prefix "a/" p with
             | Some r => r
             | None => default p (Text.strip_prefix "b/" p)
             end).

(** A start and a count, out of a hunk's header [l]. *)
Definition range (l : string) (r : option string) (sign : ascii) : Z * Z + ToolError :=
  let r := trim_start_char sign (default "" r) in
  let '(start, count) := default (r, "1") (split_once "," r) in
  let bad := inr (Invalid ("patch: bad hunk header `" +:+ l +:+ "`")) in
  match ok_parse (parse_u64 start), ok_parse (parse_u64 count) with
  | Some a, Some b => inl (a, b)
  | _, _ => bad
  end.

(** A line that ends without a newline carries a NUL. *)
Definition unended (acc : list (ascii * string)) : list (ascii * string) :=
  match acc with
  | (k, s) :: acc => (k, s +:+ String NUL "") :: acc
  | [] => []
  end.

(** The lines of a hunk, as many as its header counts, last first; and what follows. *)
Fixpoint take_hunk (old_count new_count : Z) (ls : list string) (seen_old seen_new : Z) (acc : list (ascii * string)) :
    list (ascii * string) * list string :=
  match ls with
  | [] => (acc, [])
  | n :: rest =>
    if (old_count <=? seen_old) && (new_count <=? seen_new) && negb (starts_with "\" n) then (acc, ls)
    else
      match n with
      | String " " s => take_hunk old_count new_count rest (seen_old + 1) (seen_new + 1) ((" "%char, s) :: acc)
      | String "-" s => take_hunk old_count new_count rest (seen_old + 1) seen_new (("-"%char, s) :: acc)
      | String "+" s => take_hunk old_count new_count rest seen_old (seen_new + 1) (("+"%char, s) :: acc)
      | String "\" _ => take_hunk old_count new_count rest seen_old seen_new (unended acc)
      | EmptyString => take_hunk old_count new_count rest (seen_old + 1) (seen_new + 1) ((" "%char, "") :: acc)
      | _ => (acc, ls)
      end
  end.

Definition add_hunk (h : Hunk) (f : FilePatch) : FilePatch := mkFile (old f) (new f) (hunks f ++ [h]).

(** One turn of [parse] per unit of fuel: each takes a line.  [files] is last first. *)
Fixpoint parse_lines (fuel : nat) (ls : list string) (files : list FilePatch) : list FilePatch + ToolError :=
  match fuel, ls with
  | _, [] => inl (List.rev files)
  | O, _ => inl (List.rev files)
  | S fuel, l :: rest =>
    match Text.strip_prefix "--- " l with
    | Some o =>
      match rest with
      | n :: rest =>
        match Text.strip_prefix "+++ " n with
        | Some nw => parse_lines fuel rest (mkFile (strip_prefix o) (strip_prefix nw) [] :: files)
        | None => inr (Invalid "patch: `---` without `+++`")
        end
      | [] => inr (Invalid "patch: `---` without `+++`")
      end
    | None =>
      match Text.strip_prefix "@@ " l with
      | Some h =>
        match files with
        | [] => inr (Invalid "patch: a hunk before any file header")
        | file :: files =>
          let ranges := Text.split " " h in
          match range l (ranges !! 0%nat) "-" with
          | inr e => inr e
          | inl (start, old_count) =>
            match range l (ranges !! 1%nat) "+" with
            | inr e => inr e
            | inl (_, new_count) =>
              let '(hl, rest) := take_hunk old_count new_count rest 0 0 [] in
              parse_lines fuel rest (add_hunk (mkHunk start (List.rev hl)) file :: files)
            end
          end
        end
      | None => parse_lines fuel rest files
      end
    end
  end.

Definition parse (diff : string) : list FilePatch + ToolError :=
  let ls := lines diff in
  match parse_lines (List.length ls) ls [] with
  | inl [] => inr (Invalid "patch: no `---`/`+++` file header")
  | r => r
  end.

(** Text as lines plus whether it ended with a newline. *)
Definition split (text : string) : list string * bool :=
  let nl_ := ends_with (String nl "") text in
  let v := Text.split nl text in
  ((if nl_ then removelast v else v), nl_).

Definition matches_at (doc : list string) (at_ : Z) (expect : list string) : bool :=
  if at_ + Z.of_nat (List.length expect) <=? Z.of_nat (List.length doc)
  then bool_decide (take (List.length expect) (drop (Z.to_nat at_) doc) = expect)
  else false.

(** [trim_end_matches] of the mark. *)
Fixpoint unmarked (s : string) : string :=
  match s with
  | EmptyString => EmptyString
  | String c r =>
    match unmarked r with
    | EmptyString => if Ascii.eqb c NUL then EmptyString else String c EmptyString
    | r => String c r
    end
  end.

Definition side (drop_ : ascii) (h : Hunk) : list string :=
  unmarked <$> (base.filter (fun kl => kl.1 <> drop_) (hlines h)).*2.
(** The lines a hunk expects, and those it puts there. *)
Definition expect (h : Hunk) : list string := side "+" h.
Definition replacement (h : Hunk) : list string := side "-" h.

(** [as isize] and its arithmetic, which wrap. *)
Definition as_isize (z : Z) : Z := (z + 2 ^ 63) mod 2 ^ 64 - 2 ^ 63.

(** At the stated line, else the nearest place within reach, upwards first. *)
Fixpoint search (n : nat) (doc : list string) (stated : Z) (e : list string) (d : Z) : option Z :=
  match n with
  | O => None
  | S n =>
    if (d <=? stated) && matches_at doc (stated - d) e then Some (stated - d)
    else if matches_at doc (stated + d) e then Some (stated + d)
    else search n doc stated e (d + 1)
  end.
Definition place (doc : list string) (stated : Z) (e : list string) : option Z :=
  if matches_at doc stated e then Some stated else search FUZZ_LINES doc stated e 1.

(** [splice]. *)
Definition splice (doc : list string) (at_ : nat) (n : nat) (put : list string) : list string :=
  (take at_ doc ++ put ++ drop (at_ + n) doc)%list.

Fixpoint apply_hunks (hi : Z) (hs : list Hunk) (doc : list string) (trailing_nl : bool) (offset : Z) (name : string) :
    list string * bool + ToolError :=
  match hs with
  | [] => inl (doc, trailing_nl)
  | h :: hs =>
    let stated := Z.max 0 (as_isize (Z.max 1 (old_start h) - 1 + offset)) in
    let e := expect h in
    match place doc stated e with
    | None => inr (Failed ("patch: hunk " +:+ display (hi + 1) +:+ " of " +:+ name +:+ " does not apply at line " +:+ display (old_start h)))
    | Some at_ =>
      let put := replacement h in
      let n := List.length e in
      let trailing_nl :=
        match last (base.filter (fun kl => kl.1 <> "-"%char) (hlines h)) with
        | Some (_, l) =>
          if Z.of_nat (List.length doc) <=? at_ + Z.of_nat n then negb (ends_with (String NUL "") l) else trailing_nl
        | None => trailing_nl
        end in
      apply_hunks (hi + 1) hs (splice doc (Z.to_nat at_) n put) trailing_nl
        (as_isize (offset + Z.of_nat (List.length put) - Z.of_nat n)) name
    end
  end.
Definition apply_file (doc : list string) (trailing_nl : bool) (fp : FilePatch) (name : string) : list string * bool + ToolError :=
  apply_hunks 0 (hunks fp) doc trailing_nl 0 name.

(** Lines back to text. *)
Definition render (out : list string * bool) : string :=
  let text := String.concat (String nl "") out.1 in
  if out.2 && negb (bool_decide (out.1 = [])) then text +:+ String nl "" else text.

(** ** [paths.rs]: confinement *)

(** An absolute path, by its components. *)
Definition path : Type := list string.

Record TreeCtx := mkTree { root : path; is_main : bool }.

Definition TREES_DIR : string := ".agents".
Definition RELATIVE_ONLY : string := "paths are relative to your working directory".

Inductive FE : Type -> Type :=
| Exists (p : path) : FE bool
| Canonicalize (p : path) : FE (option path)
| ReadToString (p : path) : FE (string + string)
| CreateDirAll (p : path) : FE (unit + string)
| Suffix : FE string
| WriteFile (p : path) (bytes : string) : FE (unit + string)
| Rename (a b : path) : FE (unit + string)
| RemoveFile (p : path) : FE (unit + string).

Abbreviation fprog := (prog FE).

(** [Path::components], but for a leading slash. *)
Definition components (s : string) : list string :=
  base.filter (fun c => negb (String.eqb c "") && negb (String.eqb c ".") = true) (Text.split "/" s).
Definition is_absolute (s : string) : bool := starts_with "/" s.

(** [Path::strip_prefix]. *)
Fixpoint under (pre p : path) : option path :=
  match pre, p with
  | [], _ => Some p
  | a :: pre, b :: p => if String.eqb a b then under pre p else None
  | _ :: _, [] => None
  end.

Definition display_path (p : path) : string := "/" +:+ String.concat "/" p.

Definition lexical (t : TreeCtx) (rel : list string) : path :=
  fold_left (fun p c => if String.eqb c ".." then removelast p else (p ++ [c])%list) rel (root t).

(** What exists, canonically, and the rest behind it. *)
Definition found (rp tail_ : list string) : fprog path :=
  let! c := trigger (Canonicalize (List.rev rp)) in Ret (default (List.rev rp) c ++ tail_)%list.
(** From the whole path up to what exists; [rp] is the path last component first. *)
Fixpoint climb (rp tail_ : list string) : fprog path :=
  let! e := trigger (Exists (List.rev rp)) in
  if (e : bool) then found rp tail_
  else match rp with
       | [] => found [] tail_
       | name :: rp => climb rp (name :: tail_)
       end.
Definition resolve_existing_prefix (p : path) : fprog path := climb (List.rev p) [].

Definition confine (t : TreeCtx) (given : string) : fprog (path + ToolError) :=
  match (if is_absolute given then under (root t) (components given) else Some (components given)) with
  | None => Ret (inr (Invalid RELATIVE_ONLY))
  | Some rel =>
    let! resolved := resolve_existing_prefix (lexical t rel) in
    let! c := trigger (Canonicalize (root t)) in
    match under (default (root t) c) resolved with
    | None => Ret (inr (Denied ("EACCES " +:+ given +:+ ": outside your working directory")))
    | Some rest =>
      if is_main t && bool_decide (head rest = Some TREES_DIR)
      then Ret (inr (Denied ("EACCES " +:+ given +:+ ": that is another session's working directory")))
      else Ret (inl resolved)
    end
  end.

(** [trees::relative]. *)
Definition relative (t : TreeCtx) (p : path) : string :=
  match under (root t) p with
  | Some [] => "."
  | Some rest => String.concat "/" rest
  | None => default "" (last p)
  end.

(** ** [files.rs]: writing *)
Definition MAX_BYTES : Z := Z.shiftl 10 20.

Definition io (e : string) (p : path) : ToolError := Failed (display_path p +:+ ": " +:+ e).

(** A file's name, split where its extension starts. *)
Definition stem_ext (name : string) : string * string :=
  match rsplit_once "." name with
  | Some (stem, ext) => if String.eqb stem "" then (name, "") else (stem, ext)
  | None => (name, "")
  end.
(** [with_extension] of the old extension and the temporary's. *)
Definition tmp_path (p : path) (n : string) : path :=
  match last p with
  | None => p
  | Some name =>
    let '(stem, ext) := stem_ext name in
    (removelast p ++ [stem +:+ "." +:+ ext +:+ ".kl-ide-tmp-" +:+ n])%list
  end.

Definition atomic_write (p : path) (bytes : string) : fprog (unit + ToolError) :=
  let! n := trigger Suffix in
  let tmp := tmp_path p n in
  let! r := trigger (WriteFile tmp bytes) in
  match r with
  | inr e => Ret (inr (io e tmp))
  | inl _ =>
    let! r := trigger (Rename tmp p) in
    match r with
    | inl _ => Ret (inl tt)
    | inr e => trigger (RemoveFile tmp) ;;! Ret (inr (io e p))
    end
  end.

(** ** [patch.rs]: the tool *)
Record Staged := mkStaged { s_path : path; s_content : option string; s_before : option string }.

Definition required (key : string) (a : option string) : string + ToolError :=
  match a with Some s => inl s | None => inr (Invalid ("`" +:+ key +:+ "` (string) is required")) end.

Definition ok_of {A} (r : A + string) : option A := match r with inl a => Some a | inr _ => None end.

(** One file of the diff, up to what it should hold. *)
Definition stage (t : TreeCtx) (cwd : path) (fp : FilePatch) : fprog (Staged * string + ToolError) :=
  match (match new fp with Some n => Some n | None => old fp end) with
  | None => Ret (inr (Invalid "patch: a file header with /dev/null on both sides"))
  | Some target =>
    let rel := relative t cwd in
    let joined := if String.eqb rel "." then target else rel +:+ "/" +:+ target in
    let! c := confine t joined in
    match c with
    | inr e => Ret (inr e)
    | inl p =>
      let! doc := (match old fp with
                   | None => Ret (inl ([], true))
                   | Some _ =>
                     let! r := trigger (ReadToString p) in
                     Ret match r with
                         | inl text => inl (split text)
                         | inr e => inr (Failed (relative t p +:+ ": " +:+ e))
                         end
                   end) in
      match doc with
      | inr e => Ret (inr e)
      | inl (doc, nl_) =>
        let! before := trigger (ReadToString p) in
        Ret match apply_file doc nl_ fp target with
            | inr e => inr e
            | inl out =>
              inl (mkStaged p (match new fp with None => None | Some _ => Some (render out) end) (ok_of before), target)
            end
      end
    end
  end.

Fixpoint stage_all (t : TreeCtx) (cwd : path) (files : list FilePatch) (staged : list Staged) (touched : list string) :
    fprog (list Staged * list string + ToolError) :=
  match files with
  | [] => Ret (inl (staged, touched))
  | fp :: files =>
    let! r := stage t cwd fp in
    match r with
    | inr e => Ret (inr e)
    | inl (s, name) => stage_all t cwd files (staged ++ [s]) (touched ++ [name])
    end
  end.

(** What a staged entry asks for, on disk. *)
Definition put (t : TreeCtx) (s : Staged) : fprog (unit + ToolError) :=
  let p := s_path s in
  match s_content s with
  | Some c =>
    if bool_decide (p = []) then atomic_write p c
    else
      let! r := trigger (CreateDirAll (removelast p)) in
      match r with
      | inl _ => atomic_write p c
      | inr e => Ret (inr (Failed (relative t (removelast p) +:+ ": " +:+ e)))
      end
  | None =>
    let! r := trigger (RemoveFile p) in
    Ret match r with inl _ => inl tt | inr e => inr (Failed (relative t p +:+ ": " +:+ e)) end
  end.

(** The recorded text back, or no file at all. *)
Definition restore (written : list (path * option string)) : fprog unit :=
  traverse (fun w =>
    match w.2 with
    | Some text => atomic_write w.1 text ;;! Ret tt
    | None => trigger (RemoveFile w.1) ;;! Ret tt
    end) written ;;! Ret tt.

Fixpoint commit (t : TreeCtx) (staged : list Staged) (written : list (path * option string)) : fprog (unit + ToolError) :=
  match staged with
  | [] => Ret (inl tt)
  | s :: staged =>
    let! r := put t s in
    match r with
    | inr e => restore written ;;! Ret (inr e)
    | inl _ => commit t staged (written ++ [(s_path s, s_before s)])
    end
  end.

Definition patch (t : TreeCtx) (diff cwd : option string) : fprog (string * list string + ToolError) :=
  match required "diff" diff with
  | inr e => Ret (inr e)
  | inl diff =>
    if MAX_BYTES <? str_len diff
    then Ret (inr (Failed (display (str_len diff) +:+ " bytes, over the " +:+ display MAX_BYTES +:+ " byte limit")))
    else
      let! c := confine t (default "." cwd) in
      match c with
      | inr e => Ret (inr e)
      | inl cwd =>
        match parse diff with
        | inr e => Ret (inr e)
        | inl files =>
          let! st := stage_all t cwd files [] [] in
          match st with
          | inr e => Ret (inr e)
          | inl (staged, touched) =>
            let! r := commit t staged [] in
            Ret match r with inr e => inr e | inl _ => inl (relative t cwd, touched) end
          end
        end
      end
  end.

(** ** [files.rs]: [edit] *)

(** [matches(old).count()] and [replace(old, new)] for an [old] that is not empty: what matches is
    skipped, so matches do not overlap. *)
Fixpoint swap (old new : string) (skip : nat) (s : string) : Z * string :=
  match s with
  | EmptyString => (0, "")
  | String c r =>
    match skip with
    | S k => swap old new k r
    | O =>
      if starts_with old s
      then let '(n, t) := swap old new (String.length old - 1) r in (n + 1, new +:+ t)
      else let '(n, t) := swap old new 0 r in (n, String c t)
    end
  end.
(** An empty [old] is found before every character and at the end. *)
Fixpoint weave (new s : string) : Z * string :=
  match s with
  | EmptyString => (1, new)
  | String c r =>
    let '(n, t) := weave new r in
    if cont_byte c then (n, String c t) else (n + 1, new +:+ String c t)
  end.
Definition replaced (old new text : string) : Z * string :=
  if String.eqb old "" then weave new text else swap old new 0 text.

Record Edit := mkEdit { e_old : option string; e_new : option string; replace_all : bool }.
Record FileEdits := mkEdits { f_path : option string; f_edits : option (list Edit) }.

(** [label] names the file where there are several. *)
Fixpoint apply_edits (label : string -> string) (rel : string) (i : Z) (es : list Edit) (text : string) : string + ToolError :=
  match es with
  | [] => inl text
  | e :: es =>
    match e_old e, e_new e with
    | None, _ => inr (Invalid (label ("edit " +:+ display i +:+ ": `old` (string) is required")))
    | _, None => inr (Invalid (label ("edit " +:+ display i +:+ ": `new` (string) is required")))
    | Some old, Some new =>
      let '(n, text') := replaced old new text in
      if n =? 0 then inr (Failed (label ("edit " +:+ display i +:+ ": `old` not found in " +:+ rel)))
      else if (n =? 1) || replace_all e then apply_edits label rel (i + 1) es text'
      else inr (Failed (label ("edit " +:+ display i +:+ ": `old` matches " +:+ display n +:+ " places in " +:+ rel +:+
        "; add context or set replace_all")))
    end
  end.

Definition stage_edit (t : TreeCtx) (label : string -> string) (f : FileEdits) : fprog (Staged + ToolError) :=
  match f_path f with
  | None => Ret (inr (Invalid (label "`path` (string) is required")))
  | Some given =>
    let! c := confine t given in
    match c with
    | inr e => Ret (inr e)
    | inl p =>
      match f_edits f with
      | None => Ret (inr (Invalid (label "`edits` (array of {old, new, replace_all?}) is required")))
      | Some es =>
        let! r := trigger (ReadToString p) in
        Ret match r with
            | inr e => inr (io e p)
            | inl before =>
              match apply_edits label (relative t p) 0 es before with
              | inr e => inr e
              | inl text => inl (mkStaged p (Some text) (Some before))
              end
            end
      end
    end
  end.

Fixpoint stage_edits (t : TreeCtx) (several : bool) (fi : Z) (fs : list FileEdits) (staged : list Staged) : fprog (list Staged + ToolError) :=
  match fs with
  | [] => Ret (inl staged)
  | f :: fs =>
    let label m := if several then "file " +:+ display fi +:+ ": " +:+ m else m in
    let! r := stage_edit t label f in
    match r with
    | inr e => Ret (inr e)
    | inl s => stage_edits t several (fi + 1) fs (staged ++ [s])
    end
  end.

(** [edit] writes what it read, so no directory is made. *)
Fixpoint commit_edits (staged : list Staged) (written : list (path * option string)) : fprog (unit + ToolError) :=
  match staged with
  | [] => Ret (inl tt)
  | s :: staged =>
    let! r := atomic_write (s_path s) (default "" (s_content s)) in
    match r with
    | inr e => restore written ;;! Ret (inr e)
    | inl _ => commit_edits staged (written ++ [(s_path s, s_before s)])
    end
  end.

(** [{path, edits}] for one file, [{files}] for several: the paths written. *)
Definition edit (t : TreeCtx) (files : option (list FileEdits)) (own : FileEdits) : fprog (list string + ToolError) :=
  match (match files with
         | Some fs => if negb (bool_decide (fs = [])) && (List.length fs <=? 50)%nat then inl fs else inr (Invalid "`files`: 1..=50 entries")
         | None => inl [own]
         end) with
  | inr e => Ret (inr e)
  | inl fs =>
    let! st := stage_edits t (1 <? List.length fs)%nat 0 fs [] in
    match st with
    | inr e => Ret (inr e)
    | inl staged =>
      let! r := commit_edits staged [] in
      Ret match r with inr e => inr e | inl _ => inl ((fun s => relative t (s_path s)) <$> staged) end
    end
  end.

(** ** [files.rs]: [write] *)
Definition write (t : TreeCtx) (given content : option string) : fprog (string + ToolError) :=
  match required "path" given with
  | inr e => Ret (inr e)
  | inl given =>
    let! c := confine t given in
    match c with
    | inr e => Ret (inr e)
    | inl p =>
      match required "content" content with
      | inr e => Ret (inr e)
      | inl content =>
        if MAX_BYTES <? str_len content
        then Ret (inr (Failed (display (str_len content) +:+ " bytes, over the " +:+ display MAX_BYTES +:+ " byte write limit")))
        else
          trigger (Exists p) ;;!
          let! made := (if bool_decide (p = []) then Ret (inl tt) else trigger (CreateDirAll (removelast p))) in
          match made with
          | inr e => Ret (inr (io e (removelast p)))
          | inl _ =>
            let! r := atomic_write p content in
            Ret match r with inr e => inr e | inl _ => inl (relative t p) end
          end
      end
    end
  end.
