(* ===== verification/PatchProps.v ===== *)
(** * PatchProps: a diff turns one text into the other, and a failed patch leaves no trace

    The reference is a printer of unified diffs and the relation [Diff] of a list of hunks to the two
    texts it was made from; then the file tools run on a file system in which one write may fail. *)

From S2P Require Import Prelude Text Prog Sched Patch.
Local Open Scope string_scope.
Local Open Scope Z_scope.

(** ** Strings *)
Lemma concat_cons sep x l : l <> [] -> String.concat sep (x :: l) = x +:+ sep +:+ String.concat sep l.
Proof. by destruct l. Qed.

Lemma concat_split c s : String.concat (String c "") (Text.split c s) = s.
Proof.
  induction s as [|x s IH]; [done|]. cbn [Text.split]. destruct (Ascii.eqb x c) eqn:E.
  - apply Ascii.eqb_eq in E as ->. rewrite concat_cons by apply split_not_nil. by rewrite IH.
  - destruct (Text.split c s) as [|y l] eqn:El; [by apply split_not_nil in El|]. destruct l as [|z l].
    + cbn in *. by rewrite IH.
    + rewrite concat_cons in IH |- * by done. change (String x y +:+ String c "" +:+ String.concat (String c "") (z :: l)) with
        (String x (y +:+ String c "" +:+ String.concat (String c "") (z :: l))). by rewrite IH.
Qed.

Lemma ascii_list_app a b : list_ascii_of_string (a +:+ b) = (list_ascii_of_string a ++ list_ascii_of_string b)%list.
Proof. induction a as [|c a IH]; [done|]. cbn. by rewrite IH. Qed.
Lemma string_of_app a b : string_of_list_ascii (a ++ b) = string_of_list_ascii a +:+ string_of_list_ascii b.
Proof. induction a as [|c a IH]; [done|]. cbn. by rewrite IH. Qed.
Lemma rev_twice s : string_rev (string_rev s) = s.
Proof. unfold string_rev. by rewrite list_ascii_of_string_of_list_ascii, rev_involutive, string_of_list_ascii_of_string. Qed.
Lemma rev_snoc s c : string_rev (s +:+ String c "") = String c (string_rev s).
Proof. unfold string_rev. rewrite ascii_list_app. cbn. by rewrite rev_app_distr. Qed.

Lemma ends_snoc c s : ends_with (String c "") (s +:+ String c "") = true.
Proof.
  unfold ends_with, strip_suffix. rewrite rev_snoc. change (string_rev (String c "")) with (String c ""). cbn. by rewrite Ascii.eqb_refl.
Qed.

Lemma ends_inv c s : ends_with (String c "") s = true -> exists r, s = r +:+ String c "".
Proof.
  unfold ends_with, strip_suffix. change (string_rev (String c "")) with (String c "").
  destruct (string_rev s) as [|d r] eqn:E; [done|]. cbn. destruct (Ascii.eqb c d) eqn:Ec; [|done]. apply Ascii.eqb_eq in Ec as <-. intros _.
  exists (string_rev r). rewrite <- (rev_twice s), E. unfold string_rev. cbn. by rewrite string_of_app.
Qed.

Lemma ends_none c s : contains_char c s = false -> ends_with (String c "") s = false.
Proof.
  intros Hn. destruct (ends_with _ s) eqn:E; [|done]. apply ends_inv in E as [r ->].
  rewrite contains_char_app in Hn. cbn in Hn. rewrite Ascii.eqb_refl, orb_true_r in Hn. done.
Qed.

Lemma trim_start_none c s : contains_char c s = false -> trim_start_char c s = s.
Proof. destruct s as [|d s]; [done|]. cbn. intros [Hd _]%orb_false_iff. by rewrite Hd. Qed.

Lemma unmarked_none s : contains_char NUL s = false -> unmarked s = s.
Proof.
  induction s as [|c s IH]; [done|]. cbn [unmarked contains_char]. intros [Hc Hs]%orb_false_iff. rewrite Ascii.eqb_sym, (IH Hs), Hc. by destruct s.
Qed.
Lemma unmarked_mark s : contains_char NUL s = false -> unmarked (s +:+ String NUL "") = s.
Proof.
  induction s as [|c s IH]; [done|]. cbn [unmarked contains_char String.append]. intros [Hc Hs]%orb_false_iff.
  rewrite (IH Hs), Ascii.eqb_sym, Hc. by destruct s.
Qed.

(** Text back from its lines. *)
Lemma render_split s : render (split s) = s.
Proof.
  unfold render, split. cbn [fst snd]. destruct (ends_with (String nl "") s) eqn:E; cbn [andb].
  - apply ends_inv in E as [r ->]. rewrite split_around. cbn [Text.split]. rewrite removelast_last.
    rewrite bool_decide_eq_false_2 by apply split_not_nil. cbn [negb]. by rewrite concat_split.
  - apply concat_split.
Qed.

(** ** The lines of a text *)
Definition plain (s : string) : Prop := contains_char nl s = false /\ contains_char NUL s = false /\ contains_char CR s = false.

(** ** Printing a diff *)
Definition NO_NEWLINE : string := "\ No newline at end of file".

Definition out_line (kl : ascii * string) : list string :=
  if ends_with (String NUL "") kl.2 then [String kl.1 (unmarked kl.2); NO_NEWLINE] else [String kl.1 kl.2].

Definition count (l : list string) : Z := Z.of_nat (List.length l).
(** A hunk, and where it starts in the new text. *)
Definition print_hunk (sh : Z * Hunk) : list string :=
  ("@@ -" +:+ display (old_start sh.2) +:+ "," +:+ display (count (expect sh.2)) +:+ " +" +:+ display sh.1 +:+ "," +:+
     display (count (replacement sh.2)) +:+ " @@") :: concat (out_line <$> hlines sh.2).

Definition print_side (pre : string) (o : option string) : string := match o with Some n => pre +:+ n | None => "/dev/null" end.
Record Printed := mkPrinted { p_old : option string; p_new : option string; p_hunks : list (Z * Hunk) }.
Definition file_of (f : Printed) : FilePatch := mkFile (p_old f) (p_new f) (p_hunks f).*2.
Definition print_file (f : Printed) : list string :=
  ("--- " +:+ print_side "a/" (p_old f)) :: ("+++ " +:+ print_side "b/" (p_new f)) :: concat (print_hunk <$> p_hunks f).
Definition print (fs : list Printed) : string := unlines (concat (print_file <$> fs)).

(** What can be printed: a name without white space around it, lines without the bytes the format
    uses, numbers of 64 bits. *)
Definition named (n : string) : Prop :=
  plain n /\ contains_char tab n = false /\ trim ("a/" +:+ n) = "a/" +:+ n /\ trim ("b/" +:+ n) = "b/" +:+ n.
Definition good_line (kl : ascii * string) : Prop :=
  (kl.1 = " "%char \/ kl.1 = "-"%char \/ kl.1 = "+"%char) /\ exists s, plain s /\ (kl.2 = s \/ kl.2 = s +:+ String NUL "").
Definition good_hunk (sh : Z * Hunk) : Prop :=
  u64 sh.1 /\ u64 (old_start sh.2) /\ Forall good_line (hlines sh.2) /\ Z.of_nat (List.length (hlines sh.2)) <= u64_max.
Definition good_file (f : Printed) : Prop :=
  (forall n, p_old f = Some n -> named n) /\ (forall n, p_new f = Some n -> named n) /\ Forall good_hunk (p_hunks f).

(** ** Reading it back *)
Definition olds (ls : list (ascii * string)) : Z := count (base.filter (fun kl => kl.1 <> "+"%char) ls).*2.
Definition news (ls : list (ascii * string)) : Z := count (base.filter (fun kl => kl.1 <> "-"%char) ls).*2.
Definition calm_head (ls : list string) : Prop := match ls with [] => True | l :: _ => starts_with "\" l = false end.

Lemma olds_cons kl ls : olds (kl :: ls) = (if decide (kl.1 <> "+"%char) then 1 else 0) + olds ls.
Proof. unfold olds, count. rewrite filter_cons. destruct (decide _); cbn; lia. Qed.
Lemma news_cons kl ls : news (kl :: ls) = (if decide (kl.1 <> "-"%char) then 1 else 0) + news ls.
Proof. unfold news, count. rewrite filter_cons. destruct (decide _); cbn; lia. Qed.
Lemma olds_nonneg ls : 0 <= olds ls. Proof. unfold olds, count. lia. Qed.
Lemma news_nonneg ls : 0 <= news ls. Proof. unfold news, count. lia. Qed.
Lemma count_expect h : count (expect h) = olds (hlines h).
Proof. unfold expect, side, olds, count. by rewrite !length_fmap. Qed.
Lemma count_replacement h : count (replacement h) = news (hlines h).
Proof. unfold replacement, side, news, count. by rewrite !length_fmap. Qed.

(** One line, with the note that it has no newline where it carries the mark. *)
Lemma take_line oc nc kl rest so sn acc : good_line kl -> (so < oc \/ sn < nc) ->
  take_hunk oc nc (out_line kl ++ rest) so sn acc =
  take_hunk oc nc rest (so + (if decide (kl.1 <> "+"%char) then 1 else 0)) (sn + (if decide (kl.1 <> "-"%char) then 1 else 0)) (kl :: acc).
Proof.
  intros (Hk & s & (_ & Hn & _) & Hs) Hlt. destruct kl as [k t]. cbn [fst snd] in *.
  assert (forall r a, take_hunk oc nc (String k r :: a ++ rest) so sn acc =
    take_hunk oc nc (a ++ rest) (so + (if decide (k <> "+"%char) then 1 else 0)) (sn + (if decide (k <> "-"%char) then 1 else 0)) ((k, r) :: acc)) as Hone.
  { intros r a. cbn [take_hunk app]. replace ((oc <=? so) && (nc <=? sn)) with false by (symmetry; apply andb_false_iff; rewrite !Z.leb_gt; lia).
    destruct Hk as [-> | [-> | ->]]; cbn [andb]; repeat (rewrite decide_True by done || rewrite decide_False by tauto); by rewrite ?Z.add_0_r. }
  unfold out_line. cbn [fst snd]. destruct Hs as [->| ->].
  - rewrite ends_none by done. apply (Hone s []).
  - rewrite ends_snoc, unmarked_mark by done. pose proof (Hone s [NO_NEWLINE]) as E. cbn [app] in E |- *. rewrite E. cbn [take_hunk].
    change (starts_with "\" NO_NEWLINE) with true. rewrite andb_false_r. done.
Qed.

Lemma take_printed oc nc ls rest : calm_head rest -> forall so sn acc, Forall good_line ls -> so + olds ls = oc -> sn + news ls = nc ->
  take_hunk oc nc (concat (out_line <$> ls) ++ rest) so sn acc = (List.rev ls ++ acc, rest)%list.
Proof.
  intros Hr. induction ls as [|kl ls IH]; intros so sn acc Hg Ho Hn.
  - cbn in *. unfold olds, news, count in *. cbn in *. destruct rest as [|l rest]; [done|]. cbn in Hr |- *.
    rewrite !(proj2 (Z.leb_le _ _)) by lia. by rewrite Hr.
  - inversion Hg as [|? ? Hg1 Hg2]; subst. rewrite olds_cons, news_cons in *. pose proof (olds_nonneg ls). pose proof (news_nonneg ls).
    cbn [fmap list_fmap concat]. rewrite <- app_assoc, take_line; [|done|].
    + rewrite IH; [|done|lia|lia]. cbn. by rewrite <- app_assoc.
    + destruct Hg1 as [[-> | [-> | ->]] _]; [left|left|right]; rewrite decide_True by done; lia.
Qed.

Lemma range_printed l a b sign : u64 a -> u64 b -> digit sign = None -> sign <> ","%char ->
  range l (Some (String sign (display a +:+ "," +:+ display b))) sign = inl (a, b).
Proof.
  intros Ha Hb Hs Hc. unfold range. cbn [from_option id trim_start_char]. rewrite Ascii.eqb_refl.
  rewrite trim_start_none.
  - change ("," +:+ display b) with (String "," (display b)). rewrite split_once_app by (by apply display_no_char). cbn [from_option id].
    by rewrite !parse_u64_display.
  - rewrite contains_char_app, (display_no_char sign a Hs). cbn [contains_char String.append orb]. rewrite (display_no_char sign b Hs).
    destruct (Ascii.eqb sign ",") eqn:E; [|done]. by apply Ascii.eqb_eq in E.
Qed.

Lemma take_shorter oc nc ls : forall so sn acc, (List.length (take_hunk oc nc ls so sn acc).2 <= List.length ls)%nat.
Proof.
  induction ls as [|l ls IH]; intros so sn acc; [done|]. cbn [take_hunk]. destruct (_ && _ && _); [done|].
  repeat case_match; cbn; first [lia | etransitivity; [apply IH|lia]].
Qed.

(** A unit of fuel for each line is enough. *)
Lemma parse_fuel n : forall m ls files, (List.length ls <= n)%nat -> (List.length ls <= m)%nat -> parse_lines n ls files = parse_lines m ls files.
Proof.
  induction n as [|n IH]; intros m ls files Hn Hm; (destruct ls as [|l ls]; [by destruct m|]); cbn in Hn, Hm; [lia|].
  destruct m as [|m]; [lia|]. cbn [parse_lines]. destruct (Text.strip_prefix "--- " l).
  - destruct ls as [|l2 ls]; [done|]. destruct (Text.strip_prefix "+++ " l2); [|done]. cbn in Hn, Hm. apply IH; lia.
  - destruct (Text.strip_prefix "@@ " l); [|apply IH; lia]. destruct files as [|f files]; [done|]. cbn zeta.
    destruct (range l _ "-") as [[a b]|e]; [|done]. destruct (range l _ "+") as [[c d]|e]; [|done].
    pose proof (take_shorter b d ls 0 0 []) as Hs. destruct (take_hunk b d ls 0 0 []) as [hl rest]. cbn in Hs. apply IH; lia.
Qed.

Definition parsed (ls : list string) (files : list FilePatch) := parse_lines (List.length ls) ls files.

Lemma parse_hunk sh rest f fs : good_hunk sh -> calm_head rest ->
  parsed (print_hunk sh ++ rest) (f :: fs) = parsed rest (add_hunk sh.2 f :: fs).
Proof.
  destruct sh as [ns h]. intros (Hns & Hs & Hg & Hlen) Hr. cbn [fst snd] in *.
  assert (u64 (olds (hlines h)) /\ u64 (news (hlines h))) as [Ho Hn].
  { unfold u64, olds, news, count. rewrite !length_fmap.
    pose proof (length_filter (fun kl : ascii * string => kl.1 <> "+"%char) (hlines h)).
    pose proof (length_filter (fun kl : ascii * string => kl.1 <> "-"%char) (hlines h)). lia. }
  unfold parsed, print_hunk. cbn [fst snd]. rewrite count_expect, count_replacement. set (ls := (concat (out_line <$> hlines h) ++ rest)%list).
  cbn [app List.length parse_lines]. set (l := "@@ -" +:+ _).
  assert (Text.strip_prefix "--- " l = None) as -> by done.
  set (r1 := display (old_start h) +:+ "," +:+ display (olds (hlines h))). set (r2 := display ns +:+ "," +:+ display (news (hlines h))).
  assert (Text.strip_prefix "@@ " l = Some (String "-" r1 +:+ String " " (String "+" r2 +:+ String " " "@@"))) as ->.
  { unfold l, r1, r2. cbn. f_equal. f_equal. by rewrite !append_assoc. }
  cbn zeta. rewrite !split_around. assert (forall k r, contains_char " " (String k r) = false -> Text.split " " (String k r) = [String k r]) as Hsp by (intros; by apply split_no).
  assert (forall z, contains_char " " (display z) = false) as Hd by (intros; by apply display_no_char).
  rewrite !Hsp by (unfold r1, r2; cbn [contains_char]; rewrite !contains_char_app, !Hd; done).
  cbn [app lookup list_lookup]. unfold r1, r2. rewrite !range_printed by done.
  unfold ls. rewrite (take_printed _ _ _ _ Hr) by (done || lia). rewrite app_nil_r, rev_involutive.
  replace (mkHunk (old_start h) (hlines h)) with h by (by destruct h). apply parse_fuel; [|done].
  rewrite length_app. lia.
Qed.

Lemma calm_hunks hs rest : calm_head rest -> calm_head (concat (print_hunk <$> hs) ++ rest).
Proof. by destruct hs. Qed.
Lemma calm_files fs : calm_head (concat (print_file <$> fs)).
Proof. by destruct fs. Qed.

Lemma parse_hunks hs rest : calm_head rest -> forall f fs, Forall good_hunk hs ->
  parsed (concat (print_hunk <$> hs) ++ rest) (f :: fs) = parsed rest (mkFile (old f) (new f) (hunks f ++ hs.*2) :: fs).
Proof.
  intros Hr. induction hs as [|h hs IH]; intros f fs Hg.
  - cbn. rewrite app_nil_r. by destruct f.
  - inversion Hg; subst. cbn [fmap list_fmap concat]. rewrite <- app_assoc, parse_hunk by (done || by apply calm_hunks).
    rewrite IH by done. cbn. by rewrite <- app_assoc.
Qed.

Lemma side_read pre o : pre = "a/" \/ pre = "b/" -> (forall n, o = Some n -> named n) -> strip_prefix (print_side pre o) = o.
Proof.
  intros Hpre Hn. destruct o as [n|]; [|done]. destruct (Hn n eq_refl) as (_ & Ht & Ha & Hb). unfold strip_prefix, print_side.
  assert (contains_char tab (pre +:+ n) = false) as Hc by (rewrite contains_char_app, Ht; by destruct Hpre as [->| ->]).
  rewrite (split_no _ _ Hc). cbn [head from_option id]. destruct Hpre as [->| ->]; cbn [print_side]; [rewrite Ha|rewrite Hb]; done.
Qed.

Lemma parse_header fuel a b rest files :
  parse_lines (S fuel) (("--- " +:+ a) :: ("+++ " +:+ b) :: rest) files = parse_lines fuel rest (mkFile (strip_prefix a) (strip_prefix b) [] :: files).
Proof. done. Qed.

Lemma parse_files fs acc : Forall good_file fs -> parsed (concat (print_file <$> fs)) acc = inl (List.rev acc ++ (file_of <$> fs))%list.
Proof.
  revert acc. induction fs as [|f fs IH]; intros acc Hg.
  - unfold parsed. cbn. by rewrite app_nil_r.
  - inversion Hg as [|? ? (Ho & Hn & Hh) Hg2]; subst. cbn [fmap list_fmap concat]. unfold parsed.
    change (print_file f) with (("--- " +:+ print_side "a/" (p_old f)) :: ("+++ " +:+ print_side "b/" (p_new f)) :: concat (print_hunk <$> p_hunks f)).
    cbn [app List.length]. rewrite parse_header.
    rewrite (side_read "a/" (p_old f)), (side_read "b/" (p_new f)) by auto.
    rewrite (parse_fuel _ (List.length (concat (print_hunk <$> p_hunks f) ++ concat (print_file <$> fs))%list)) by (cbn; lia).
    fold (parsed (concat (print_hunk <$> p_hunks f) ++ concat (print_file <$> fs))%list (mkFile (p_old f) (p_new f) [] :: acc)).
    rewrite parse_hunks by (done || apply calm_files). rewrite IH by done. cbn. rewrite <- app_assoc. done.
Qed.

(** Every line of a printed diff is one line of it. *)
Lemma printed_lines fs l : Forall good_file fs -> l ∈ concat (print_file <$> fs) -> contains_char nl l = false /\ contains_char CR l = false.
Proof.
  intros Hg Hl. rewrite list_elem_of_In in Hl. apply in_concat in Hl as (x & Hx & Hl). rewrite <- list_elem_of_In in Hx.
  apply list_elem_of_fmap in Hx as (f & -> & Hf). rewrite Forall_forall in Hg. destruct (Hg f Hf) as (Ho & Hn & Hh).
  assert (forall c z, digit c = None -> contains_char c (display z) = false) as Hd by apply display_no_char.
  destruct Hl as [<-|[<-|Hl]].
  - destruct (p_old f) as [n|] eqn:E; [|done]. destruct (Ho n eq_refl) as ((H1 & _ & H2) & _). unfold print_side. by rewrite !contains_char_app, H1, H2.
  - destruct (p_new f) as [n|] eqn:E; [|done]. destruct (Hn n eq_refl) as ((H1 & _ & H2) & _). unfold print_side. by rewrite !contains_char_app, H1, H2.
  - apply in_concat in Hl as (x & Hx & Hl). rewrite <- list_elem_of_In in Hx. apply list_elem_of_fmap in Hx as (h & -> & Hin).
    rewrite Forall_forall in Hh. destruct (Hh h Hin) as (_ & _ & Hgl & _). destruct Hl as [<-|Hl].
    + rewrite !contains_char_app, !Hd by done. done.
    + apply in_concat in Hl as (x & Hx & Hl). rewrite <- list_elem_of_In in Hx. apply list_elem_of_fmap in Hx as (kl & -> & Hk).
      rewrite Forall_forall in Hgl. destruct (Hgl kl Hk) as (Hc & s & (H1 & H0 & H2) & Hs). unfold out_line in Hl.
      assert (l = String kl.1 s \/ l = NO_NEWLINE) as [->| ->]; [| |done].
      { destruct Hs as [E|E]; rewrite E in Hl; [rewrite ends_none in Hl by done|rewrite ends_snoc, unmarked_mark in Hl by done]; cbn in Hl; intuition. }
      cbn [contains_char]. rewrite H1, H2. by destruct Hc as [-> | [-> | ->]].
Qed.

Lemma parse_print fs : Forall good_file fs -> fs <> [] -> parse (print fs) = inl (file_of <$> fs).
Proof.
  intros Hg Hne. unfold parse, print. rewrite lines_unlines by (intros l Hl; by apply (printed_lines fs)).
  fold (parsed (concat (print_file <$> fs)) []). rewrite parse_files by done. cbn. by destruct fs.
Qed.

(** ** What a diff says *)

(** The line of the old text a hunk starts at, in the format's own words: a hunk that expects
    nothing names the line before it. *)
Definition line_of (h : Hunk) : Z := if decide (expect h = []) then old_start h + 1 else old_start h.
(** Nothing is put between two lines without showing one of them. *)
Definition shown (h : Hunk) : Prop := expect h <> [] \/ old_start h = 0.
(** The new text's last line has no newline. *)
Definition ends_bare (h : Hunk) : bool :=
  is_some_and (last (base.filter (fun kl => kl.1 <> "-"%char) (hlines h))) (fun kl => ends_with (String NUL "") kl.2).

(** The hunks between line [n] of a text and its end, the text from there, and what it becomes: lines
    and whether the last has a newline.  What is between two hunks is kept; a hunk that reaches the
    end says how the new text ends in the last line it puts there, or takes whole lines away and puts
    none. *)
Inductive Diff : Z -> list Hunk -> list string * bool -> list string * bool -> Prop :=
| D_same n d : Diff n [] d d
| D_hunk n keep h hs d b d' b' : line_of h = n + count keep -> shown h -> d <> [] ->
    Diff (n + count keep + count (expect h)) hs (d, b) (d', b') ->
    Diff n (h :: hs) ((keep ++ expect h ++ d)%list, b) ((keep ++ replacement h ++ d')%list, b')
| D_last n keep h b : line_of h = n + count keep -> shown h -> replacement h <> [] ->
    Diff n [h] ((keep ++ expect h)%list, b) ((keep ++ replacement h)%list, negb (ends_bare h))
| D_cut n keep h : line_of h = n + count keep -> shown h -> replacement h = [] ->
    Diff n [h] ((keep ++ expect h)%list, true) (keep, true).

Lemma as_isize_id z : i64_min <= z <= i64_max -> as_isize z = z.
Proof. unfold as_isize, i64_min, i64_max. intros H. rewrite Z.mod_small by lia. lia. Qed.

Lemma matches_here pre e post : matches_at (pre ++ e ++ post)%list (count pre) e = true.
Proof.
  unfold matches_at, count. rewrite !length_app, (proj2 (Z.leb_le _ _)) by lia. rewrite Nat2Z.id, drop_app_length, take_app_length.
  by apply bool_decide_eq_true.
Qed.

Lemma splice_here pre e post put_ : splice (pre ++ e ++ post)%list (List.length pre) (List.length e) put_ = (pre ++ put_ ++ post)%list.
Proof. unfold splice. rewrite take_app_length. by rewrite <- drop_drop, drop_app_length, drop_app_length. Qed.

(** One hunk, at the line it states. *)
Lemma hunk_lands pre h post hi hs b offset name : Z.max 1 (old_start h) - 1 + offset = count pre -> count pre <= i64_max ->
  exists b1, apply_hunks hi (h :: hs) (pre ++ expect h ++ post)%list b offset name =
    apply_hunks (hi + 1) hs (pre ++ replacement h ++ post)%list b1 (as_isize (offset + count (replacement h) - count (expect h))) name /\
    (post <> [] -> b1 = b) /\ (post = [] -> replacement h <> [] -> b1 = negb (ends_bare h)) /\ (replacement h = [] -> b1 = b).
Proof.
  intros Hat Hmax. cbn [apply_hunks]. cbn zeta. rewrite as_isize_id by (unfold i64_min, count in *; lia). rewrite Hat, Z.max_r by (unfold count; lia).
  unfold place. rewrite matches_here. eexists.
  assert (Z.to_nat (count pre) = List.length pre) as -> by (unfold count; lia). rewrite splice_here. split; [reflexivity|]. split_and!.
  - intros Hp. destruct (last _) as [[k l]|]; [|done]. rewrite (proj2 (Z.leb_gt _ _)); [done|].
    unfold count. rewrite !length_app. destruct post; [done|]. cbn. lia.
  - intros -> Hr. unfold ends_bare. destruct (last _) as [[k l]|] eqn:E.
    + rewrite (proj2 (Z.leb_le _ _)); [done|]. unfold count. rewrite !length_app. cbn. lia.
    + apply last_None in E. destruct Hr. unfold replacement, side. by rewrite E.
  - intros Hr. destruct (last _) as [[k l]|] eqn:E; [|done]. unfold replacement, side in Hr.
    destruct (base.filter _ (hlines h)); [done|discriminate Hr].
Qed.

Lemma shown_line n keep h : 1 <= n -> line_of h = n + count keep -> shown h -> Z.max 1 (old_start h) = n + count keep.
Proof. unfold line_of, shown, count. intros Hn Hl Hs. destruct (decide _) as [E|E]; [|lia]. destruct Hs as [Hs|Hs]; [done|lia]. Qed.

Lemma apply_diff n hs db db' : Diff n hs db db' -> forall pre hi offset name, 1 <= n -> n - 1 + offset = count pre ->
  count (pre ++ db'.1)%list <= i64_max -> n - 1 + count db.1 <= i64_max ->
  apply_hunks hi hs (pre ++ db.1)%list db.2 offset name = inl ((pre ++ db'.1)%list, db'.2).
Proof.
  induction 1 as [n d|n keep h hs d b d' b' Hl Hs Hd H IH|n keep h b Hl Hs Hr|n keep h Hl Hs Hr]; intros pre hi offset name Hn Hat Hm Hm2; cbn [fst snd] in *.
  - done.
  - pose proof (shown_line n keep h Hn Hl Hs) as Ho.
    destruct (hunk_lands (pre ++ keep)%list h d hi hs b offset name) as (b1 & Hrun & Hb1 & _).
    { unfold count in *. rewrite length_app. lia. }
    { unfold count in *. rewrite !length_app in *. lia. }
    rewrite app_assoc, Hrun, (Hb1 Hd). specialize (IH ((pre ++ keep) ++ replacement h)%list (hi + 1)). rewrite !app_assoc. apply IH.
    + unfold count. lia.
    + unfold count in *. rewrite !length_app in *. rewrite as_isize_id by (unfold i64_min, i64_max in *; lia). lia.
    + unfold count in *. rewrite !length_app in *. lia.
    + unfold count in *. rewrite !length_app in *. lia.
  - pose proof (shown_line n keep h Hn Hl Hs) as Ho.
    destruct (hunk_lands (pre ++ keep)%list h [] hi [] b offset name) as (b1 & Hrun & _ & Hb1 & _).
    { unfold count in *. rewrite length_app. lia. }
    { unfold count in *. rewrite !length_app in *. lia. }
    rewrite !app_nil_r in Hrun. rewrite app_assoc, Hrun, Hb1 by done. cbn [apply_hunks]. by rewrite app_assoc.
  - pose proof (shown_line n keep h Hn Hl Hs) as Ho.
    destruct (hunk_lands (pre ++ keep)%list h [] hi [] true offset name) as (b1 & Hrun & _ & _ & Hb1).
    { unfold count in *. rewrite length_app. lia. }
    { unfold count in *. rewrite !length_app in *. lia. }
    rewrite Hr, !app_nil_r in Hrun. rewrite app_assoc, Hrun, Hb1 by done. reflexivity.
Qed.

(** What [stage] makes of a text that is there. *)
Definition patched (fp : FilePatch) (text name : string) : string + ToolError :=
  match apply_file (split text).1 (split text).2 fp name with inl out => inl (render out) | inr e => inr e end.

Lemma split_short s : count (split s).1 <= Z.of_nat (String.length s) + 1.
Proof.
  assert (forall r, (List.length (Text.split nl r) <= S (String.length r))%nat) as H.
  { induction r as [|c r IH]; [cbn; lia|]. cbn [Text.split String.length]. destruct (Ascii.eqb c nl); [cbn; lia|].
    destruct (Text.split nl r); cbn in *; lia. }
  unfold count, split. cbn [fst]. destruct (ends_with _ s); [|specialize (H s); lia].
  assert (forall l : list string, (List.length (removelast l) <= List.length l)%nat) as Hr by (induction l as [|a [|b l] IHl]; cbn in *; lia).
  specialize (Hr (Text.split nl s)). specialize (H s). lia.
Qed.

Lemma render_long d : count d.1 <= Z.of_nat (String.length (render d)) + 1.
Proof.
  assert (forall a b : string, String.length (a +:+ b) = (String.length a + String.length b)%nat) as Happ.
  { intros a b. induction a; cbn; congruence. }
  assert (forall l, (List.length l <= S (String.length (String.concat (String nl "") l)))%nat) as H.
  { induction l as [|x [|y l] IH]; [cbn; lia|cbn; lia|]. rewrite concat_cons by done. rewrite !Happ. cbn [List.length String.length] in *. lia. }
  specialize (H d.1). unfold count, render. destruct (_ && _); rewrite ?Happ; cbn; lia.
Qed.


(** ** A file system in which operations may fail *)

(** [faults]: how many more will. *)
Record FS := mkFS { files : gmap path string; faults : nat }.

Definition fails (w : FS) (m : gmap path string) (w' : FS) : Prop := exists k, faults w = S k /\ w' = mkFS m k.

Definition fs_sem X (e : FE X) (w : FS) : X -> FS -> Prop :=
  match e in FE X return X -> FS -> Prop with
  | Exists _ => fun _ w' => w' = w
  | Canonicalize _ => fun _ w' => w' = w
  | Suffix => fun _ w' => w' = w
  | ReadToString p => fun r w' => w' = w /\
      match files w !! p with
      | Some s => if utf8_valid s then r = inl s else exists e, r = inr e
      | None => exists e, r = inr e
      end
  | CreateDirAll _ => fun r w' => match r with inl _ => w' = w | inr _ => fails w (files w) w' end
  | WriteFile p b => fun r w' =>
      match r with
      | inl _ => w' = mkFS (<[p := b]> (files w)) (faults w)
      | inr _ => fails w (files w) w' \/ exists junk, fails w (<[p := junk]> (files w)) w'
      end
  | Rename a b => fun r w' =>
      match r with
      | inl _ => exists s, files w !! a = Some s /\ w' = mkFS (<[b := s]> (delete a (files w))) (faults w)
      | inr _ => files w !! a = None /\ w' = mkFS (files w) (pred (faults w)) \/ fails w (files w) w'
      end
  | RemoveFile p => fun r w' =>
      match r with
      | inl _ => is_Some (files w !! p) /\ w' = mkFS (delete p (files w)) (faults w)
      | inr _ => files w !! p = None /\ w' = mkFS (files w) (pred (faults w)) \/ fails w (files w) w'
      end
  end.

Abbreviation all_ends := (ends fs_sem).

(** A temporary is nobody's file. *)
Definition seen (p : path) : bool := match last p with Some name => negb (contains_str ".kl-ide-tmp-" name) | None => false end.
Definition agree (m m' : gmap path string) : Prop := forall p, seen p = true -> m !! p = m' !! p.

Lemma agree_refl m : agree m m. Proof. done. Qed.
Lemma agree_trans a b c : agree a b -> agree b c -> agree a c.
Proof. intros H1 H2 p Hp. by rewrite H1, H2. Qed.
Lemma agree_unseen m p b : seen p = false -> agree (<[p := b]> m) m.
Proof. intros Hp q Hq. rewrite lookup_insert_ne; [done|]. intros ->. congruence. Qed.

Lemma contains_here a p b : contains_str p (a +:+ p +:+ b) = true.
Proof.
  induction a as [|c a IH]; cbn [String.append].
  - destruct (p +:+ b) as [|x r] eqn:E; cbn [contains_str].
    + destruct p; [done|discriminate].
    + unfold starts_with. rewrite <- E, strip_prefix_app. done.
  - cbn [contains_str]. by rewrite IH, orb_true_r.
Qed.

Lemma tmp_unseen p n : seen (tmp_path p n) = false.
Proof.
  unfold tmp_path. destruct (last p) as [name|] eqn:E; [|unfold seen; by rewrite E].
  destruct (stem_ext name) as [stem ext]. unfold seen. rewrite last_snoc. apply negb_false_iff.
  replace (stem +:+ "." +:+ ext +:+ ".kl-ide-tmp-" +:+ n) with ((stem +:+ "." +:+ ext) +:+ ".kl-ide-tmp-" +:+ n) by (by rewrite !append_assoc).
  apply contains_here.
Qed.

(** What a path holds once [b] is put there; [None] is no file. *)
Definition set_to (p : path) (b : option string) (m : gmap path string) : gmap path string := partial_alter (fun _ => b) p m.
Lemma set_to_lookup p b m q : set_to p b m !! q = if decide (q = p) then b else m !! q.
Proof. unfold set_to. destruct (decide (q = p)) as [->|Hne]; [apply lookup_partial_alter_eq|by apply lookup_partial_alter_ne]. Qed.
Lemma set_to_agree p b m m' : agree m m' -> agree (set_to p b m) (set_to p b m').
Proof. intros H q Hq. rewrite !set_to_lookup. by destruct (decide _); [|apply H]. Qed.

(** Done, or failed, at the cost of a fault, with nothing to show for it. *)
Definition wrote (p : path) (b : string) (w : FS) (r : unit + ToolError) (w' : FS) : Prop :=
  match r with
  | inl _ => agree (files w') (set_to p (Some b) (files w)) /\ faults w' = faults w
  | inr _ => agree (files w') (files w) /\ (faults w' < faults w)%nat
  end.
(** A removal of what is not there is a failure too. *)
Definition tried (p : path) (b : option string) (w : FS) (r : unit + ToolError) (w' : FS) : Prop :=
  match r with
  | inl _ => agree (files w') (set_to p b (files w)) /\ faults w' = faults w
  | inr _ => agree (files w') (files w) /\ (faults w' <= pred (faults w))%nat
  end.

Lemma atomic_write_ends p b w : all_ends (atomic_write p b) w (wrote p b w).
Proof.
  unfold atomic_write. cbn. intros n w1 ->. pose proof (tmp_unseen p n) as Ht. set (tmp := tmp_path p n) in *.
  intros [[]|e] w1 Hw; cbn.
  - subst w1. cbn. intros [[]|e] w2 Hr; cbn.
    + destruct Hr as (s & Hs & ->). rewrite lookup_insert_eq in Hs. injection Hs as <-. cbn. split; [|done].
      intros q Hq. assert (q <> tmp) by congruence. rewrite set_to_lookup. destruct (decide (q = p)) as [->|Hqp]; [by rewrite lookup_insert_eq|].
      by rewrite lookup_insert_ne, lookup_delete_ne, lookup_insert_ne.
    + destruct Hr as [[Hn _]|(k & Hk & ->)]; [by rewrite lookup_insert_eq in Hn|]. cbn in *.
      intros [[]|e2] w3 Hd; cbn; cbn in Hd.
      * destruct Hd as [_ ->]. cbn. split; [|lia]. intros q Hq. assert (q <> tmp) by congruence. by rewrite lookup_delete_ne, lookup_insert_ne.
      * destruct Hd as [[Hd _]|(k2 & Hk2 & ->)]; [by rewrite lookup_insert_eq in Hd|]. cbn in *. split; [by apply agree_unseen|lia].
  - destruct Hw as [(k & Hk & ->)|(junk & k & Hk & ->)]; cbn; (split; [|lia]); [done|by apply agree_unseen].
Qed.

Lemma remove_ends p w : all_ends (trigger (RemoveFile p)) w (fun r w' =>
  match r with
  | inl _ => agree (files w') (set_to p None (files w)) /\ faults w' = faults w
  | inr _ => files w' = files w /\ (faults w' <= pred (faults w))%nat /\ (faults w = O -> files w !! p = None)
  end).
Proof.
  cbn. intros [[]|e] w' H.
  - destruct H as [_ ->]. cbn. split; [|done]. intros q _. rewrite set_to_lookup. destruct (decide (q = p)) as [->|]; [apply lookup_delete_eq|by apply lookup_delete_ne].
  - destruct H as [[H ->]|(k & Hk & ->)]; cbn; [done|]. split; [done|]. split; lia.
Qed.

Lemma put_ends t s w : all_ends (put t s) w (tried (s_path s) (s_content s) w).
Proof.
  assert (forall c w, all_ends (atomic_write (s_path s) c) w (tried (s_path s) (Some c) w)) as Hw.
  { intros c w0. eapply ends_mono; [apply atomic_write_ends|]. intros [u|e] w1 [H1 H2]; (split; [done|lia]). }
  unfold put. destruct (s_content s) as [c|].
  - destruct (bool_decide _); [apply Hw|]. cbn. intros [[]|e] w1 H; cbn.
    + subst. apply Hw.
    + destruct H as (k & Hk & ->). cbn. split; [done|lia].
  - eapply ends_seq; [apply remove_ends|]. intros [[]|e] w1 H; cbn; [done|]. destruct H as (-> & H & _). by split.
Qed.

(** Entries taken one after the other. *)
Definition put_all (l : list (path * option string)) (m : gmap path string) : gmap path string :=
  fold_left (fun m pb => set_to pb.1 pb.2 m) l m.
Lemma put_all_agree l : forall m m', agree m m' -> agree (put_all l m) (put_all l m').
Proof. induction l as [|pb l IH]; intros m m' H; [done|]. cbn. apply IH. by apply set_to_agree. Qed.

(** With no fault left everything is put back. *)
Lemma restore_ends written : forall w, faults w = O -> all_ends (restore written) w (fun _ w' => agree (files w') (put_all written (files w))).
Proof.
  intros w Hw. unfold restore. eapply ends_seq with (Q1 := fun _ w' => faults w' = O /\ agree (files w') (put_all written (files w))); [|by intros a s' [_ H]].
  revert w Hw. induction written as [|[p b] l IH]; intros w Hw; [done|]. cbn [traverse].
  eapply ends_seq with (Q1 := fun _ w' => faults w' = O /\ agree (files w') (set_to p b (files w))).
  - cbn [fst snd]. destruct b as [c|].
    + eapply ends_seq; [apply atomic_write_ends|]. intros [u|e] w1 [H1 H2]; [|lia]. cbn. split; [lia|done].
    + eapply ends_seq; [apply remove_ends|]. intros [u|e] w1 H; cbn.
      * destruct H as [H1 H2]. split; [lia|done].
      * destruct H as (-> & H1 & H2). split; [lia|]. intros q _. rewrite set_to_lookup. by destruct (decide (q = p)) as [->|]; [apply H2|].
  - intros u w1 [H0 Ha]. apply ends_bind. eapply ends_mono; [apply IH; exact H0|]. cbn. intros r w2 [H2 Hb]. split; [done|].
    eapply agree_trans; [exact Hb|]. by apply put_all_agree.
Qed.

(** ** All or nothing *)
Definition wants (l : list Staged) : list (path * option string) := (fun s => (s_path s, s_content s)) <$> l.
Definition befores (l : list Staged) : list (path * option string) := (fun s => (s_path s, s_before s)) <$> l.

Lemma put_all_app l l' m : put_all (l ++ l') m = put_all l' (put_all l m).
Proof. apply fold_left_app. Qed.

(** Where every entry says what was there, putting them back undoes whatever was put on the same paths. *)
Lemma put_back m0 l : (forall pb, pb ∈ l -> pb.2 = m0 !! pb.1) -> forall m, (forall p, seen p = true -> p ∉ l.*1 -> m !! p = m0 !! p) -> agree (put_all l m) m0.
Proof.
  induction l as [|[p b] l IH]; intros Hl m Hm.
  - intros q Hq. apply Hm; [done|]. apply not_elem_of_nil.
  - change (agree (put_all l (set_to p b m)) m0). apply IH; [intros pb Hpb; apply Hl; by right|]. intros q Hq Hn. rewrite set_to_lookup. destruct (decide (q = p)) as [->|Hne].
    + apply (Hl (p, b)). left.
    + apply Hm; [done|]. cbn. by intros [|]%elem_of_cons.
Qed.

Lemma put_all_other l m p : p ∉ l.*1 -> put_all l m !! p = m !! p.
Proof.
  revert m. induction l as [|[q b] l IH]; intros m Hp; [done|]. change (put_all l (set_to q b m) !! p = m !! p). cbn in Hp. rewrite IH by (intros ?; apply Hp; by right).
  rewrite set_to_lookup, decide_False; [done|]. intros ->. apply Hp. left.
Qed.

Definition outcome (m0 : gmap path string) (l : list Staged) (r : unit + ToolError) (w' : FS) : Prop :=
  match r with
  | inl _ => agree (files w') (put_all (wants l) m0)
  | inr _ => agree (files w') m0
  end.

(** With [done_] written and the rest to come, whichever write fails. *)
Lemma undone m0 done_ w : (forall s, s ∈ done_ -> s_before s = m0 !! s_path s) -> agree (files w) (put_all (wants done_) m0) ->
  faults w = O -> all_ends (restore (befores done_)) w (fun _ w' => agree (files w') m0).
Proof.
  intros Hb Ha H0. eapply ends_mono; [by apply restore_ends|]. cbn. intros _ w' H. eapply agree_trans; [exact H|]. apply put_back.
  - intros pb (s & -> & Hs)%list_elem_of_fmap. cbn. by apply Hb.
  - intros p Hp Hn. rewrite Ha by done. apply put_all_other. contradict Hn. revert Hn. unfold wants, befores. rewrite <- !list_fmap_compose. done.
Qed.

Lemma commit_ends t m0 rest : forall done_ w, (forall s, s ∈ (done_ ++ rest)%list -> s_before s = m0 !! s_path s) ->
  agree (files w) (put_all (wants done_) m0) -> (faults w <= 1)%nat ->
  all_ends (commit t rest (befores done_)) w (outcome m0 (done_ ++ rest)).
Proof.
  induction rest as [|s rest IH]; intros done_ w Hb Ha Hf; cbn [commit].
  - cbn. by rewrite app_nil_r.
  - eapply ends_seq; [apply put_ends|]. intros [u|e] w1 [H1 H2].
    + specialize (IH (done_ ++ [s])%list w1). unfold befores in *. rewrite fmap_app in IH. rewrite <- app_assoc in IH. apply IH; [done| |lia].
      unfold wants. rewrite fmap_app, put_all_app. eapply agree_trans; [exact H1|]. cbn. by apply set_to_agree.
    + eapply ends_seq; [apply (undone m0)|by intros a w2 H].
      * intros s' Hs'. apply Hb. apply elem_of_app. by left.
      * by eapply agree_trans.
      * lia.
Qed.

Lemma commit_edits_ends m0 rest : forall done_ w, (forall s, s ∈ (done_ ++ rest)%list -> s_before s = m0 !! s_path s /\ is_Some (s_content s)) ->
  agree (files w) (put_all (wants done_) m0) -> (faults w <= 1)%nat ->
  all_ends (commit_edits rest (befores done_)) w (outcome m0 (done_ ++ rest)).
Proof.
  induction rest as [|s rest IH]; intros done_ w Hb Ha Hf; cbn [commit_edits].
  - cbn. by rewrite app_nil_r.
  - destruct (Hb s) as [_ [c Hc]]; [apply elem_of_app; right; left|]. rewrite Hc. cbn [from_option id].
    eapply ends_seq; [apply atomic_write_ends|]. intros [u|e] w1 [H1 H2].
    + specialize (IH (done_ ++ [s])%list w1). unfold befores in *. rewrite fmap_app in IH. rewrite <- app_assoc in IH. apply IH; [done| |lia].
      unfold wants. rewrite fmap_app, put_all_app. eapply agree_trans; [exact H1|]. cbn. rewrite Hc. by apply set_to_agree.
    + eapply ends_seq; [apply (undone m0)|by intros a w2 H].
      * intros s' Hs'. apply Hb. apply elem_of_app. by left.
      * by eapply agree_trans.
      * lia.
Qed.

(** ** The tools *)

(** Nothing is written before everything is known. *)
Lemma confine_ends t given w : all_ends (confine t given) w (fun _ w' => w' = w).
Proof.
  assert (forall rp tail_ w, all_ends (climb rp tail_) w (fun _ w' => w' = w)) as Hc.
  { induction rp as [|n rp IH]; intros tail_ w0; cbn; intros [] w1 ->; cbn; try (intros ? ? ->; done). apply IH. }
  unfold confine. destruct (if is_absolute given then _ else _) as [rel|]; [|done].
  eapply ends_seq; [apply Hc|]. intros p w1 ->. cbn. intros c w1 ->. destruct (under _ p); [|done]. by destruct (_ && _).
Qed.

(** Every file holds text. *)
Definition texts (w : FS) : Prop := forall p s, files w !! p = Some s -> utf8_valid s = true.

Lemma read_ends p w : texts w -> all_ends (trigger (ReadToString p)) w (fun r w' => w' = w /\ ok_of r = files w !! p).
Proof.
  intros Ht. cbn. intros r w' [-> H]. split; [done|]. destruct (files w !! p) as [s|] eqn:E.
  - rewrite (Ht _ _ E) in H. by subst.
  - by destruct H as [e ->].
Qed.

(** What a file of the diff makes of the tree. *)
Definition makes (m : gmap path string) (fp : FilePatch) (s : Staged) (name : string) : Prop :=
  s_before s = m !! s_path s /\ exists before out,
    (match old fp with None => before = ([], true) | Some _ => exists text, m !! s_path s = Some text /\ before = split text end) /\
    apply_file before.1 before.2 fp name = inl out /\
    s_content s = match new fp with None => None | Some _ => Some (render out) end.

Lemma stage_ends t cwd fp w : texts w -> all_ends (stage t cwd fp) w (fun r w' => w' = w /\
  forall s name, r = inl (s, name) -> makes (files w) fp s name).
Proof.
  intros Ht. unfold stage. destruct (match new fp with Some n => Some n | None => old fp end) as [target|]; [|by cbn].
  eapply ends_seq; [apply confine_ends|]. intros [p|e] w1 ->; [|by cbn].
  eapply ends_seq with (Q1 := fun r w' => w' = w /\ forall d b, r = inl (d, b) ->
    match old fp with None => (d, b) = ([], true) | Some _ => exists text, files w !! p = Some text /\ (d, b) = split text end).
  { destruct (old fp) as [o|]; [|cbn; split; [done|]; intros d b [= <- <-]; done].
    eapply ends_seq; [by apply read_ends|]. intros r w1 [-> Hr]. cbn. split; [done|]. destruct r as [text|e]; [|done].
    intros d b E. exists text. cbn in Hr. split; [done|]. congruence. }
  intros [[d b]|e] w1 [-> Hd]; [|by cbn]. eapply ends_seq; [by apply read_ends|]. intros before w1 [-> Hbef]. cbn. split; [done|].
  intros s name. destruct (apply_file d b fp target) as [out|e] eqn:Ea; [|done]. intros [= <- <-]. split; [exact Hbef|].
  exists (d, b), out. split; [by apply Hd|]. done.
Qed.

Lemma stage_all_ends t cwd m fps : forall staged touched w, texts w -> files w = m -> all_ends (stage_all t cwd fps staged touched) w (fun r w' => w' = w /\
  forall st names, r = inl (st, names) -> exists st' names', st = (staged ++ st')%list /\ names = (touched ++ names')%list /\
    Forall2 (fun fp sn => makes m fp sn.1 sn.2) fps (zip st' names') /\ List.length st' = List.length names').
Proof.
  induction fps as [|fp fps IH]; intros staged touched w Ht Hm; cbn [stage_all].
  - cbn. split; [done|]. intros st names [= <- <-]. exists [], []. rewrite !app_nil_r. split; [done|]. split; [done|]. split; [constructor|done].
  - eapply ends_seq; [by apply stage_ends|]. intros [[s name]|e] w1 [-> Hs]; [|by cbn].
    eapply ends_mono; [by apply IH|]. cbn. intros r w' [-> Hr]. split; [done|]. intros st names E. destruct (Hr st names E) as (st' & ns & -> & -> & HF & Hl).
    exists (s :: st'), (name :: ns). rewrite <- !app_assoc. split; [done|]. split; [done|]. cbn. split; [|lia]. constructor; [|done].
    rewrite <- Hm. by apply (Hs s name).
Qed.

(** C30: A patch is all or nothing on a disk whose files are all UTF-8 text and where at most one
    operation fails: whichever single write, rename, removal or directory it is, an answer that is an
    error leaves every file as it was, and one that is not leaves at each path what the last entry for
    it makes of the file that was there, its hunks all applied, and every other file as it was.  A file
    that is not text may be lost ([PatchWitness.restore_deletes_what_is_not_text]). *)
Theorem patch_all_or_nothing t diff cwd w : texts w -> (faults w <= 1)%nat ->
  all_ends (patch t diff cwd) w (fun r w' =>
    match r with
    | inr _ => agree (files w') (files w)
    | inl (_, touched) => exists d fps staged, diff = Some d /\ parse d = inl fps /\
        Forall2 (fun fp sn => makes (files w) fp sn.1 sn.2) fps (zip staged touched) /\ List.length staged = List.length touched /\
        agree (files w') (put_all (wants staged) (files w))
    end).
Proof.
  intros Ht Hf. unfold patch. destruct diff as [d|]; [|by cbn]. cbn [required]. destruct (MAX_BYTES <? str_len d); [by cbn|].
  eapply ends_seq; [apply confine_ends|]. intros [c|e] w1 ->; [|by cbn]. destruct (parse d) as [fps|e] eqn:Ep; [|by cbn].
  eapply ends_seq; [by apply (stage_all_ends t c (files w) fps [] [])|]. intros [[st names]|e] w1 [-> Hst]; [|by cbn].
  destruct (Hst st names eq_refl) as (st' & ns & -> & -> & HF & Hl). cbn [app].
  eapply ends_seq; [apply (commit_ends t (files w) st' [] w)|].
  - intros s [i Hi]%list_elem_of_lookup_1. assert (is_Some (ns !! i)) as [n Hn].
    { apply lookup_lt_is_Some_2. rewrite <- Hl. by apply lookup_lt_Some in Hi. }
    destruct (Forall2_lookup_r _ _ _ i (s, n) HF) as (fp & _ & Hmk); [|apply Hmk].
    apply lookup_zip_Some. done.
  - apply agree_refl.
  - done.
  - intros [u|e] w1 H; cbn in *; [|done]. by exists d, fps, st'.
Qed.

Lemma stage_edits_ends t several m fs : forall fi staged w, texts w -> files w = m -> all_ends (stage_edits t several fi fs staged) w (fun r w' => w' = w /\
  forall st, r = inl st -> exists st', st = (staged ++ st')%list /\ Forall2 (fun f s => s_before s = m !! s_path s /\
    exists es before after label rel, f_edits f = Some es /\ m !! s_path s = Some before /\ apply_edits label rel 0 es before = inl after /\
      s_content s = Some after) fs st').
Proof.
  induction fs as [|f fs IH]; intros fi staged w Ht Hm; cbn [stage_edits].
  - cbn. split; [done|]. intros st [= <-]. exists []. by rewrite app_nil_r.
  - cbn zeta. set (label := fun x : string => _). eapply ends_seq with (Q1 := fun r w' => w' = w /\ forall s, r = inl s -> s_before s = m !! s_path s /\
      exists es before after label rel, f_edits f = Some es /\ m !! s_path s = Some before /\ apply_edits label rel 0 es before = inl after /\
        s_content s = Some after).
    + unfold stage_edit. destruct (f_path f) as [given|]; [|by cbn]. eapply ends_seq; [apply confine_ends|]. intros [p|e] w1 ->; [|by cbn].
      destruct (f_edits f) as [es|]; [|by cbn]. eapply ends_seq; [by apply read_ends|]. intros r w1 [-> Hr]. cbn. split; [done|].
      destruct r as [before|e]; [|done]. cbn in Hr. rewrite Hm in Hr. destruct (apply_edits label (relative t p) 0 es before) as [text|e] eqn:E; [|done].
      intros s [= <-]. cbn. split; [done|]. by exists es, before, text, label, (relative t p).
    + intros [s|e] w1 [-> Hs]; [|by cbn]. eapply ends_mono; [by apply IH|]. cbn. intros r w' [-> Hr]. split; [done|].
      intros st E. destruct (Hr st E) as (st' & -> & HF). exists (s :: st'). rewrite <- app_assoc. split; [done|]. constructor; [by apply Hs|done].
Qed.

(** [edit] is all or nothing in the same sense. *)
Theorem edit_all_or_nothing t files_ own w : texts w -> (faults w <= 1)%nat ->
  all_ends (edit t files_ own) w (fun r w' =>
    match r with
    | inr _ => agree (files w') (files w)
    | inl _ => exists staged, agree (files w') (put_all (wants staged) (files w)) /\
        Forall2 (fun f s => exists es before after label rel, f_edits f = Some es /\ files w !! s_path s = Some before /\
          apply_edits label rel 0 es before = inl after /\ s_content s = Some after) (default [own] files_) staged
    end).
Proof.
  intros Ht Hf. unfold edit.
  set (chosen := match files_ with Some fs => _ | None => _ end).
  assert (forall fs, chosen = inl fs -> fs = default [own] files_) as Hch by (unfold chosen; destruct files_; [destruct (_ && _)|]; by intros ? [= ->]).
  destruct chosen as [fs|e]; [|by cbn]. rewrite <- (Hch fs eq_refl).
  eapply ends_seq; [by apply (stage_edits_ends t _ (files w) fs 0 [])|]. intros [st|e] w1 [-> Hst]; [|by cbn].
  destruct (Hst st eq_refl) as (st' & -> & HF). cbn [app].
  eapply ends_seq; [apply (commit_edits_ends (files w) st' [] w)|].
  - intros s [i Hi]%list_elem_of_lookup_1. destruct (Forall2_lookup_r _ _ _ i s HF Hi) as (f & _ & Hb & es & before & after & l & r & _ & _ & _ & Hc).
    rewrite Hc. by split.
  - apply agree_refl.
  - done.
  - intros [u|e] w1 H; cbn in *; [|done]. exists st'. split; [done|]. eapply Forall2_impl; [exact HF|]. by intros f s [_ H'].
Qed.
