(* ===== verification/PatchWitness.v ===== *)
(** * PatchWitness: diffs applied to files in memory, and what the tools get wrong

    A machine whose writes fail by a plan; what it does is one of the endings [PatchProps] speaks of. *)

From S2P Require Import Prelude Text Prog Sched Patch PatchProps.
Local Open Scope string_scope.
Local Open Scope Z_scope.

(** ** Texts *)
Definition text_of (ls : list string) : string := unlines ls.
Definition here : string := text_of ["one"; "two"; "three"; "four"].
Definition there : string := "zero" +:+ String nl "" +:+ "one" +:+ String nl "" +:+ "TWO" +:+ String nl "" +:+ "three" +:+ String nl "" +:+ "four".

Definition h1 : Hunk := mkHunk 0 [("+"%char, "zero")].
Definition h2 : Hunk := mkHunk 2 [("-"%char, "two"); ("+"%char, "TWO"); (" "%char, "three")].
Definition h3 : Hunk := mkHunk 4 [("-"%char, "four"); ("+"%char, "four" +:+ String NUL "")].
Definition sample : Printed := mkPrinted (Some "a.txt") (Some "a.txt") [(1, h1); (3, h2); (5, h3)].

Lemma sample_diff : Diff 1 (hunks (file_of sample)) (split here) (split there).
Proof.
  change (split here) with (([] ++ [] ++ ["one"; "two"; "three"; "four"])%list, true).
  change (split there) with (([] ++ ["zero"] ++ ["one"; "TWO"; "three"; "four"])%list, false).
  apply D_hunk; [done|by right|done|]. cbn.
  change ["one"; "two"; "three"; "four"] with (["one"] ++ ["two"; "three"] ++ ["four"])%list.
  change ["one"; "TWO"; "three"; "four"] with (["one"] ++ ["TWO"; "three"] ++ ["four"])%list.
  apply (D_hunk 1 ["one"] h2); [done|by left|done|]. cbn.
  apply (D_last 4 [] h3 true); [done|by left|done].
Qed.

Lemma plain_check s : contains_char nl s || contains_char NUL s || contains_char CR s = false -> plain s.
Proof. intros [[H1 H2]%orb_false_iff H3]%orb_false_iff. done. Qed.

Lemma good_plain k s : (k = " "%char \/ k = "-"%char \/ k = "+"%char) -> plain s -> good_line (k, s).
Proof. intros Hk Hs. split; [done|]. exists s. auto. Qed.
Lemma good_marked k s : (k = " "%char \/ k = "-"%char \/ k = "+"%char) -> plain s -> good_line (k, s +:+ String NUL "").
Proof. intros Hk Hs. split; [done|]. exists s. auto. Qed.

Lemma sample_good : Forall good_file [sample].
Proof.
  assert (named "a.txt") as Hn by done.
  constructor; [|done]. split; [by intros n [= <-]|]. split; [by intros n [= <-]|].
  constructor; [|constructor; [|constructor; [|done]]]; (split; [done|split; [done|split; [|done]]]).
  - constructor; [apply good_plain; [tauto|done]|done].
  - constructor; [apply good_plain; [tauto|done]|]. constructor; [apply good_plain; [tauto|done]|]. constructor; [apply good_plain; [tauto|done]|done].
  - constructor; [apply good_plain; [tauto|done]|]. constructor; [apply (good_marked _ "four"); [tauto|done]|done].
Qed.


(** ** Files *)

(** [plan]: whether each write, rename, removal or directory, in order, fails. *)
Definition machine : Type := FS * list bool.
Definition turn {X} (w : FS) (plan : list bool) (bad good : option (X * FS)) : option (X * machine) :=
  let '(now, plan) := match plan with [] => (false, []) | b :: plan => (b, plan) end in
  '(x, w) ← (if now : bool then bad else good); Some (x, (w, plan)).
(** One fault spent. *)
Definition spent (w : FS) : option FS := match faults w with O => None | S k => Some (mkFS (files w) k) end.
Definition refused (w : FS) : option ((unit + string) * FS) := option_map (fun w => (inr "EIO", w)) (spent w).

#[global] Instance machine_exec : Exec FE machine := fun X e s =>
  let '(w, plan) := s in
  match e in FE X return option (X * machine) with
  | Exists p => Some (bool_decide (List.length p <= 1)%nat || is_some (files w !! p), s)
  | Canonicalize p => Some (Some p, s)
  | Suffix => Some ("7", s)
  | ReadToString p =>
      Some (match files w !! p with
            | Some t => if utf8_valid t then inl t else inr "stream did not contain valid UTF-8"
            | None => inr "No such file or directory (os error 2)"
            end, s)
  | CreateDirAll _ => turn w plan (refused w) (Some (inl tt, w))
  | WriteFile p b => turn w plan (refused w) (Some (inl tt, mkFS (<[p := b]> (files w)) (faults w)))
  | Rename a b => turn w plan (refused w) (t ← files w !! a; Some (inl tt, mkFS (<[b := t]> (delete a (files w))) (faults w)))
  | RemoveFile p => turn w plan (refused w)
      (Some (match files w !! p with Some _ => (inl tt, mkFS (delete p (files w)) (faults w)) | None => (inr "ENOENT", mkFS (files w) (pred (faults w))) end))
  end.

Lemma turn_is {X} (w : FS) plan (bad good : option (X * FS)) x w' plan' : turn w plan bad good = Some (x, (w', plan')) ->
  bad = Some (x, w') \/ good = Some (x, w').
Proof.
  unfold turn. destruct plan as [|[] plan]; cbn; (destruct bad as [[? ?]|] || idtac); (destruct good as [[? ?]|] || idtac); cbn; intros [= <- <- <-]; auto.
Qed.
Lemma refused_is w x w' : refused w = Some (x, w') -> (exists e, x = inr e) /\ fails w (files w) w'.
Proof. unfold refused, spent, fails. destruct (faults w) as [|k]; [done|]. intros [= <- <-]. split; [by eexists|by exists k]. Qed.

Lemma machine_sem X (e : FE X) w plan x w' plan' : exec X e (w, plan) = Some (x, (w', plan')) -> fs_sem X e w x w'.
Proof.
  destruct e; cbn -[turn refused]; intros H; try (by injection H as <- <- <-).
  - injection H as <- <- <-. split; [done|]. destruct (files w !! p) as [t|]; [destruct (utf8_valid t); [done|by eexists]|by eexists].
  - apply turn_is in H as [[[e ->] H]%refused_is|[= <- <-]]; done.
  - apply turn_is in H as [[[e ->] H]%refused_is|[= <- <-]]; [by left|done].
  - apply turn_is in H as [[[e ->] H]%refused_is|H]; [by right|]. destruct (files w !! a) as [t|] eqn:E; [|done]. cbn in H. injection H as <- <-. by exists t.
  - apply turn_is in H as [[[e ->] H]%refused_is|H]; [by right|]. destruct (files w !! p) as [t|] eqn:E; injection H as <- <-; [split; [by eexists|done]|by left].
Qed.

Lemma machine_runs {A} (p : fprog A) : forall w plan a w' plan', run p (w, plan) = Some (a, (w', plan')) -> runs (fun _ => fs_sem) tt p w a w'.
Proof.
  induction p as [a|X e k IH]; intros w plan b w' plan' H.
  - injection H as <- <- <-. constructor.
  - cbn [run] in H. destruct (exec X e (w, plan)) as [[x [w1 plan1]]|] eqn:E; [|discriminate H]. cbn [mbind option_bind] in H.
    econstructor; [by eapply machine_sem|by eapply IH].
Qed.

Definition ws : TreeCtx := mkTree ["home"; "ws"] true.
Definition at_ (n : string) : path := ["home"; "ws"; n].
Definition tree (l : list (string * string)) (n : nat) : FS := mkFS (list_to_map ((fun nb => (at_ nb.1, nb.2)) <$> l)) n.

(** What the tools answer, and what is there afterwards. *)
Definition look (r : option ((string * list string + ToolError) * machine)) (ns : list string) :
    option ((string * list string + ToolError) * list (option string)) :=
  '(a, (w, _)) ← r; Some (a, (fun n => files w !! at_ n) <$> ns).

Definition replace_line (name old_ new_ : string) : Printed :=
  mkPrinted (Some name) (Some name) [(1, mkHunk 1 [("-"%char, old_); ("+"%char, new_)])].
Definition create_file (name line : string) : Printed := mkPrinted None (Some name) [(1, mkHunk 0 [("+"%char, line)])].

Lemma texts_check l n : forallb (fun nb => utf8_valid nb.2) l = true -> texts (tree l n).
Proof.
  intros H p s Hp. cbn in Hp. apply elem_of_list_to_map_2 in Hp. apply list_elem_of_fmap in Hp as ([m b] & [= -> ->] & Hin).
  rewrite forallb_forall in H. apply (H (m, b)). by apply list_elem_of_In.
Qed.

(** Both files are changed; with the second rename refused neither is. *)
Definition two : string := print [replace_line "a" "1" "X"; replace_line "b" "2" "Y"].
Definition before2 : list (string * string) := [("a", text_of ["1"]); ("b", text_of ["2"])].
Lemma two_done : look (run (patch ws (Some two) None) (tree before2 0, [])) ["a"; "b"] =
  Some (inl (".", ["a"; "b"]), [Some (text_of ["X"]); Some (text_of ["Y"])]).
Proof. vm_compute. reflexivity. Qed.
Lemma two_undone : look (run (patch ws (Some two) None) (tree before2 1, [false; false; false; false; false; true])) ["a"; "b"] =
  Some (inr (Failed "/home/ws/b: EIO"), [Some (text_of ["1"]); Some (text_of ["2"])]).
Proof. vm_compute. reflexivity. Qed.

Lemma patch_all_or_nothing_witness : texts (tree before2 1) /\
  all_ends (patch ws (Some two) None) (tree before2 1) (fun r w' =>
    match r with
    | inr _ => agree (files w') (files (tree before2 1))
    | inl (_, touched) => exists d fps staged, Some two = Some d /\ parse d = inl fps /\
        Forall2 (fun fp sn => makes (files (tree before2 1)) fp sn.1 sn.2) fps (zip staged touched) /\ List.length staged = List.length touched /\
        agree (files w') (put_all (wants staged) (files (tree before2 1)))
    end).
Proof.
  assert (texts (tree before2 1)) as Ht by (apply texts_check; reflexivity).
  split; [exact Ht|]. apply (patch_all_or_nothing ws (Some two) None (tree before2 1) Ht). cbn. lia.
Defined.

(** ** What goes wrong *)

(** A hunk that only adds, with no line around it, goes in one line too high: the format's
    [-2,0] is after line two. *)
Definition between : Printed := mkPrinted (Some "a") (Some "a") [(3, mkHunk 2 [("+"%char, "x")])].
Theorem insertion_lands_a_line_early : good_file between /\
  line_of (mkHunk 2 [("+"%char, "x")]) = 3 /\
  (parse (print [between]) = inl [file_of between] /\
   patched (file_of between) (text_of ["one"; "two"; "three"]) "a" = inl (text_of ["one"; "x"; "two"; "three"])).
Proof.
  split; [|split; [done|split; [vm_compute; reflexivity|vm_compute; reflexivity]]].
  split; [by intros n [= <-]|]. split; [by intros n [= <-]|]. constructor; [|done]. split; [done|]. split; [done|]. split; [|done].
  constructor; [apply good_plain; [tauto|done]|done].
Qed.

(** The last line had no newline and goes; the one before it keeps its own, which the code takes
    away: whether the text ends in a newline is asked of the new side's last line only. *)
Definition beheaded : Printed :=
  mkPrinted (Some "a") (Some "a") [(1, mkHunk 2 [("-"%char, "two" +:+ String NUL "")])].
Theorem unterminated_end_taken_away : good_file beheaded /\
  parse (print [beheaded]) = inl [file_of beheaded] /\
  patched (file_of beheaded) ("one" +:+ String nl "two") "a" = inl "one".
Proof.
  split; [|split; vm_compute; reflexivity].
  split; [by intros n [= <-]|]. split; [by intros n [= <-]|]. constructor; [|done]. split; [done|]. split; [done|]. split; [|done].
  constructor; [apply (good_marked _ "two"); [tauto|done]|done].
Qed.

(** A file with carriage returns cannot be patched: the diff's lines lose theirs, the file's do not. *)
Definition cr (s : string) : string := s +:+ String CR "".
Definition crlf_diff : string := unlines ["--- a/a"; "+++ b/a"; "@@ -1 +1 @@"; cr "-one"; cr "+ONE"].
Definition crlf_file : FilePatch := mkFile (Some "a") (Some "a") [mkHunk 1 [("-"%char, "one"); ("+"%char, "ONE")]].
Theorem crlf_never_applies : parse crlf_diff = inl [crlf_file] /\
  patched crlf_file (text_of [cr "one"]) "a" = inr (Failed "patch: hunk 1 of a does not apply at line 1").
Proof. split; vm_compute; reflexivity. Qed.

(** Of two entries for one file the first is lost, though both are answered as made. *)
Definition twice : string := print [replace_line "a" "1" "X"; mkPrinted (Some "a") (Some "a") [(2, mkHunk 2 [("-"%char, "2"); ("+"%char, "Y")])]].
Theorem second_entry_overwrites_the_first : exists w', runs (fun _ => fs_sem) tt (patch ws (Some twice) None) (tree [("a", text_of ["1"; "2"])] 0)
    (inl (".", ["a"; "a"])) w' /\ files w' !! at_ "a" = Some (text_of ["1"; "Y"]).
Proof.
  destruct (run (patch ws (Some twice) None) (tree [("a", text_of ["1"; "2"])] 0, [])) as [[r [w' plan']]|] eqn:E; [|vm_compute in E; discriminate].
  pose proof (machine_runs _ _ _ _ _ _ E) as Hr. exists w'. vm_compute in E. injection E as <- <- <-. split; [exact Hr|reflexivity].
Qed.

(** A file that is not text counts as one that was not there: putting things back deletes it. *)
Definition blob : string := String "255"%char "".
Definition over : string := print [create_file "blob" "x"; replace_line "b" "2" "Y"].
Theorem restore_deletes_what_is_not_text : exists e w', runs (fun _ => fs_sem) tt (patch ws (Some over) None) (tree [("blob", blob); ("b", text_of ["2"])] 1)
    (inr e) w' /\ files w' !! at_ "blob" = None /\ files w' !! at_ "b" = Some (text_of ["2"]).
Proof.
  destruct (run (patch ws (Some over) None) (tree [("blob", blob); ("b", text_of ["2"])] 1, [false; false; false; false; true])) as [[r [w' plan']]|] eqn:E;
    [|vm_compute in E; discriminate].
  pose proof (machine_runs _ _ _ _ _ _ E) as Hr. vm_compute in E. injection E as <- <- <-. eexists _, _. split; [exact Hr|]. split; reflexivity.
Qed.
