(* ===== verification/Merge.v ===== *)
(** * Merge: merges and trial merges by the git binary, [crates/pulls/src/merge_worker.rs]

    A job is a sequence of git commands against a bare cache of the repository's branches, ended by a
    push under a lease; the worker's events ([bins/worker/src/main.rs]) claim a job from the owner,
    run it and report.  Git is the environment's: a command answers a status and two texts, or could
    not be run (or took longer than a command or a job may). *)

From stdpp Require Import sorting.
From S2P Require Import Prelude Text Names Prog Pulls.
Local Open Scope string_scope.
Local Open Scope Z_scope.

(** ** Text of the standard library *)

(** [String::from_utf8_lossy]: each invalid sequence becomes one replacement character. *)
Definition REPLACEMENT : string := String "239" (String "191" (String "189" "")).
(** The second byte a three- or four-byte character's first one admits. *)
Definition second (c c1 : ascii) : bool :=
  if byte_z c =? 0xE0 then in_range 0xA0 0xBF c1
  else if byte_z c =? 0xED then in_range 0x80 0x9F c1
  else if byte_z c =? 0xF0 then in_range 0x90 0xBF c1
  else if byte_z c =? 0xF4 then in_range 0x80 0x8F c1
  else (in_range 0xE1 0xEF c || in_range 0xF1 0xF3 c) && cont_byte c1.
Fixpoint lossy (s : string) : string :=
  match s with
  | EmptyString => EmptyString
  | String c s1 =>
    if byte_z c <? 0x80 then String c (lossy s1)
    else match s1 with
    | EmptyString => REPLACEMENT
    | String c1 s2 =>
      if in_range 0xC2 0xDF c then
        if cont_byte c1 then String c (String c1 (lossy s2)) else REPLACEMENT +:+ lossy s1
      else if negb (second c c1) then REPLACEMENT +:+ lossy s1
      else match s2 with
      | EmptyString => REPLACEMENT
      | String c2 s3 =>
        if negb (cont_byte c2) then REPLACEMENT +:+ lossy s2
        else if in_range 0xE0 0xEF c then String c (String c1 (String c2 (lossy s3)))
        else match s3 with
        | EmptyString => REPLACEMENT
        | String c3 s4 =>
          if cont_byte c3 then String c (String c1 (String c2 (String c3 (lossy s4)))) else REPLACEMENT +:+ lossy s3
        end
      end
    end
  end.

(** [trim_end_matches] of a character. *)
Definition trim_end_char (c : ascii) (s : string) : string := string_rev (trim_start_char c (string_rev s)).

Definition blank (s : string) : bool := String.eqb (trim s) "".

(** The text before the character at [n], where there is one: [char_indices().nth(n)]. *)
Fixpoint cut (n : nat) (s : string) : option string :=
  match s with
  | EmptyString => None
  | String c r =>
    if cont_byte c then String c <$> cut n r
    else match n with O => Some "" | S n => String c <$> cut n r end
  end.

(** ** Commands *)
Inductive rev := RefCommit (branch : string) | RefTree (branch : string) | TreeOf (id : string).
Definition heads (b : string) : string := "refs/heads/" +:+ b.
Definition show_rev (r : rev) : string :=
  match r with
  | RefCommit b => heads b +:+ "^{commit}"
  | RefTree b => heads b +:+ "^{tree}"
  | TreeOf id => id +:+ "^{tree}"
  end.

Inductive cmd :=
| InitBare
| Fetch (url : string) (specs : list string)
| RevParse (rs : list rev)
| RevParseHead
| IsAncestor (a b : string)
| MergeTree (a b : string)
| LogWho (id : string)
| LogIdent
| CommitTree (tree : string) (parents : list string) (message name mail when_ : string)
| WorktreeAdd (wt id : string)
| Rebase (base name mail : string)
| RebaseAbort
| WorktreeRemove (wt : string)
| WorktreePrune
| Push (branch lease url new_tip : string).

Definition MIRROR : string := "+refs/heads/*:refs/heads/*".

Definition argv (c : cmd) : list string :=
  match c with
  | InitBare => ["init"; "--bare"; "-q"]
  | Fetch url specs => (["fetch"; "--quiet"; "--prune"; "--force"; url] ++ specs)%list
  | RevParse rs => "rev-parse" :: (show_rev <$> rs)
  | RevParseHead => ["rev-parse"; "HEAD"]
  | IsAncestor a b => ["merge-base"; "--is-ancestor"; a; b]
  | MergeTree a b => ["merge-tree"; "--write-tree"; "--messages"; "-z"; a; b]
  | LogWho id => ["log"; "-1"; "--format=%an%n%ae%n%at"; id]
  | LogIdent => ["log"; "-1"; "--format=%an%n%ae"; "HEAD"]
  | CommitTree tree ps message _ _ _ => (["commit-tree"; tree] ++ concat ((fun p => ["-p"; p]) <$> ps) ++ ["-m"; message])%list
  | WorktreeAdd wt id => ["worktree"; "add"; "--detach"; "-f"; wt; id]
  | Rebase base _ _ => ["-c"; "commit.gpgsign=false"; "rebase"; "--committer-date-is-author-date"; base]
  | RebaseAbort => ["rebase"; "--abort"]
  | WorktreeRemove wt => ["worktree"; "remove"; "--force"; wt]
  | WorktreePrune => ["worktree"; "prune"]
  | Push b lease url new => ["push"; "--quiet"; "--force-with-lease=" +:+ heads b +:+ ":" +:+ lease; url; new +:+ ":" +:+ heads b]
  end.

(** [code] is [None] when a signal ended it. *)
Record output := mkOut { code : option Z; stdout : string; stderr : string }.
Definition success (o : output) : bool := bool_decide (code o = Some 0).

(** A cache's directory, when it was last used, its size. *)
Record Cache := mkCache { c_dir : string; c_used : option Z; c_size : Z }.

(** [Local] and [Networked] are [out] of a command; [inr] is its error. *)
Inductive GE : Type -> Type :=
| GitVersion : GE bool
| HeadExists (dir : string) : GE bool
| MkDir (dir : string) : GE (unit + string)
| StampUsed (dir : string) : GE unit
| Local (dir : string) (c : cmd) : GE (output + string)
| Networked (dir secret owner : string) (c : cmd) : GE (output + string)
| Pid : GE string
| RemoveTree (dir : string) : GE bool
| ReadCaches (root : string) : GE (option (list Cache))
| SinceUse (used : Z) : GE Z
| Lock (key : string) : GE unit
| Unlock (key : string) : GE unit
| PostCheck (owner name : string) (number : Z) : GE (option (list Deep) + string)
| PostClaim (owner name : string) (number : Z) (by_ : string) : GE (option Job + string)
| PostOutcome (owner name : string) (number : Z) (by_ : string) (o : Outcome) : GE (unit + string)
| PostMergeability (owner name : string) (number : Z) (v : Verdict) : GE (unit + string).

Abbreviation gprog := (prog GE).

Definition refused (why : string) : Outcome := mkOutcome ORefused (Some why) None.
Definition conflicts (why : string) : Outcome := mkOutcome OConflicts (Some why) None.

Definition NO_GIT : string := "this worker has no git binary installed; a merge cannot be performed".

Definition cache_of (cache owner name : string) : string := cache +:+ "/merge/" +:+ owner +:+ "/" +:+ name +:+ ".git".

(** ** Running git *)

(** A line that may go to a person: a networked command's can echo the URL and the secret. *)
Definition speakable (l : string) : bool :=
  negb (contains_str "extraHeader" l) && negb (contains_str "Authorization" l) && negb (contains_str "://" l).
Definition stderr_tail (o : output) : string :=
  trim (default "git refused it and said nothing"
    (last (base.filter (fun l => speakable l && negb (blank l) = true) (lines (lossy (stderr o)))))).

Definition must (dir : string) (c : cmd) : gprog (string + string) :=
  let! o := trigger (Local dir c) in
  Ret match o with
      | inr e => inr e
      | inl o =>
        if success o then inl (trim (lossy (stdout o)))
        else inr ("git " +:+ String.concat " " (argv c) +:+ ": " +:+ stderr_tail o)
      end.

Definition refspec (b : string) : string := "+" +:+ heads b +:+ ":" +:+ heads b.

Definition fetch (dir url secret owner : string) (branches : list string) : gprog (unit + string) :=
  let! o := trigger (Networked dir secret owner (Fetch url (refspec <$> branches))) in
  match o with
  | inr e => Ret (inr e)
  | inl o =>
    if success o then Ret (inl tt)
    else
      let! o := trigger (Networked dir secret owner (Fetch url [MIRROR])) in
      Ret match o with
          | inr e => inr e
          | inl o => if success o then inl tt else inr ("fetching " +:+ url +:+ ": " +:+ stderr_tail o)
          end
  end.

Definition init_cache (dir : string) : gprog (unit + string) :=
  let! there := trigger (HeadExists dir) in
  if (there : bool) then Ret (inl tt)
  else
    let! made := trigger (MkDir dir) in
    match made with
    | inr e => Ret (inr (dir +:+ ": " +:+ e))
    | inl _ =>
      let! o := trigger (Local dir InitBare) in
      Ret match o with
          | inr e => inr e
          | inl o => if success o then inl tt else inr ("git init --bare: " +:+ stderr_tail o)
          end
    end.

(** [sync_branches], whose answer is the cache's directory and the repository's url. *)
Definition sync_branches (cache upstream secret owner name : string) (branches : list string) : gprog ((string * string) + string) :=
  let dir := cache_of cache owner name in
  let! r := init_cache dir in
  match r with
  | inr e => Ret (inr e)
  | inl _ =>
    trigger (StampUsed dir) ;;!
    let url := trim_end_char "/" upstream +:+ "/" +:+ owner +:+ "/" +:+ name +:+ ".git" in
    let! r := fetch dir url secret owner branches in
    Ret match r with inr e => inr e | inl _ => inl (dir, url) end
  end.
Definition sync (cache upstream secret : string) (j : Job) : gprog ((string * string) + string) :=
  sync_branches cache upstream secret (w_owner j) (w_name j) [w_base j; w_head j].

(** ** Conflicts *)
Definition tab : ascii := "009"%char.
Definition NUL : ascii := "000"%char.

(** The path of a record [<mode> <object> <stage>\t<path>]. *)
Definition record_path (rec : string) : option string :=
  match split_once tab (lossy rec) with
  | None => None
  | Some (meta, path) =>
    match split " " meta with
    | [_; _; stage] => if String.eqb stage "1" || String.eqb stage "2" || String.eqb stage "3" then Some path else None
    | _ => None
    end
  end.
Fixpoint paths_of (recs out : list string) : list string :=
  match recs with
  | [] => out
  | rec :: recs =>
    if String.eqb rec "" then out
    else paths_of recs
      (match record_path rec with
       | Some p => if bool_decide (p ∈ out) then out else (out ++ [p])%list
       | None => out
       end)
  end.
Definition conflicted_paths (stdout : string) : list string := paths_of (drop 1 (split NUL stdout)) [].

Definition SHOWN : nat := 2.
Definition PATH_CAP : nat := 120.
Definition conflict_detail (paths : list string) : string :=
  if bool_decide (paths = []) then "the branches conflict"
  else
    let shown := (fun p => match cut PATH_CAP p with Some a => a +:+ "…" | None => p end) <$> take SHOWN paths in
    let head := String.concat ", " shown in
    match (List.length paths - SHOWN)%nat with
    | O => "conflicts in: " +:+ head
    | n => "conflicts in: " +:+ head +:+ " (+" +:+ display (Z.of_nat n) +:+ " more)"
    end.

(** The three-way merge: a tree, or an outcome. *)
Definition tree_merge (dir a b : string) : gprog ((string + Outcome) + string) :=
  let! o := trigger (Local dir (MergeTree a b)) in
  Ret match o with
      | inr e => inr e
      | inl o =>
        if success o then inl (inl (trim (lossy (default "" (hd_error (split NUL (stdout o)))))))
        else if negb (bool_decide (code o = Some 1)) then inr ("merge-tree: " +:+ stderr_tail o)
        else inl (inr (conflicts (conflict_detail (conflicted_paths (stdout o)))))
      end.

(** ** A job *)
Definition or_else (o : option string) (d : string) : string :=
  match o with Some s => if String.eqb s "" then d else s | None => d end.

Definition commit_tree (dir tree : string) (parents : list string) (head_ message : string) : gprog (string + string) :=
  let! who := must dir (LogWho head_) in
  match who with
  | inr e => Ret (inr e)
  | inl who =>
    let ls := lines who in
    let name := or_else (ls !! 0%nat) "kloudlite" in
    let mail := or_else (ls !! 1%nat) "noreply@kloudlite.io" in
    let at_ := or_else (ls !! 2%nat) "0" in
    let! o := trigger (Local dir (CommitTree tree parents message name mail (at_ +:+ " +0000"))) in
    Ret match o with
        | inr e => inr e
        | inl o => if success o then inl (trim (lossy (stdout o))) else inr ("commit-tree: " +:+ stderr_tail o)
        end
  end.

(** The replay, inside its worktree. *)
Definition replay (wt base : string) : gprog ((string + Outcome) + string) :=
  let! ident := must wt LogIdent in
  match ident with
  | inr e => Ret (inr e)
  | inl ident =>
    let '(name, mail) := default ("kloudlite", "noreply@invalid") (split_once nl ident) in
    let! o := trigger (Local wt (Rebase base name mail)) in
    match o with
    | inr e => Ret (inr e)
    | inl o =>
      if negb (success o) then
        trigger (Local wt RebaseAbort) ;;!
        Ret (inl (inr (conflicts ("rebase stopped: " +:+ stderr_tail o))))
      else
        let! t := must wt RevParseHead in
        Ret match t with inr e => inr e | inl t => inl (inl t) end
    end
  end.
Definition rebase (dir base head_ : string) : gprog ((string + Outcome) + string) :=
  let! pid := trigger Pid in
  let wt := default dir (strip_suffix ".git" dir) +:+ ".wt." +:+ pid in
  trigger (RemoveTree wt) ;;!
  let! o := trigger (Local dir (WorktreeAdd wt head_)) in
  match o with
  | inr e => Ret (inr e)
  | inl o =>
    if negb (success o) then Ret (inr ("worktree add: " +:+ stderr_tail o))
    else
      let! done_ := replay wt base in
      trigger (Local dir (WorktreeRemove wt)) ;;!
      trigger (RemoveTree wt) ;;!
      trigger (Local dir WorktreePrune) ;;!
      Ret done_
  end.

(** After a refused push: the base's new tip, where what the job asked for is provably in it. *)
Definition landed_anyway (dir url secret : string) (j : Job) (head_oid : string) : gprog (option string) :=
  let! f := (if String.eqb url "" then Ret (inl tt) else fetch dir url secret (w_owner j) [w_base j; w_head j]) in
  match f with
  | inr _ => Ret None
  | inl _ =>
    let! base := must dir (RevParse [RefCommit (w_base j)]) in
    match base with
    | inr _ => Ret None
    | inl base =>
      if String.eqb (w_strategy j) "squash" then
        let! base_tree := must dir (RevParse [TreeOf base]) in
        match base_tree with
        | inr _ => Ret None
        | inl base_tree =>
          let! t := tree_merge dir base head_oid in
          Ret match t with inl (inl t) => if String.eqb t base_tree then Some base else None | _ => None end
        end
      else
        let! o := trigger (Local dir (IsAncestor head_oid base)) in
        Ret match o with inl o => if success o then Some base else None | inr _ => None end
    end
  end.

Definition merged (detail : option string) (tip : string) : Outcome := mkOutcome OMerged detail (Some tip).
Definition already : option string := Some "already merged".

(** The commit a strategy makes of the two tips, or how the job ends without one. *)
Definition combine (dir : string) (j : Job) (base_oid head_oid base_tree : string) : gprog ((string + Outcome) + string) :=
  let s := w_strategy j in
  if String.eqb s "fast-forward" then
    let! o := trigger (Local dir (IsAncestor base_oid head_oid)) in
    Ret match o with
        | inr e => inr e
        | inl o => if success o then inl (inl head_oid)
                   else inl (inr (refused "not a fast-forward — use merge or squash, or rebase and push again"))
        end
  else if String.eqb s "merge" || String.eqb s "squash" then
    let! t := tree_merge dir base_oid head_oid in
    match t with
    | inr e => Ret (inr e)
    | inl (inr o) => Ret (inl (inr o))
    | inl (inl tree) =>
      if String.eqb tree base_tree then Ret (inl (inr (merged already base_oid)))
      else
        let parents := if String.eqb s "squash" then [base_oid] else [base_oid; head_oid] in
        let! c := commit_tree dir tree parents head_oid (w_title j +:+ " (#" +:+ display_i (w_number j) +:+ ")") in
        Ret match c with inr e => inr e | inl c => inl (inl c) end
    end
  else if String.eqb s "rebase" then rebase dir base_oid head_oid
  else Ret (inl (inr (refused "strategy must be fast-forward, squash, merge or rebase"))).

Definition push (dir url secret : string) (j : Job) (base_oid head_oid new_tip : string) : gprog (Outcome + string) :=
  let! o := trigger (Networked dir secret (w_owner j) (Push (w_base j) base_oid url new_tip)) in
  match o with
  | inr e => Ret (inr e)
  | inl o =>
    if success o then Ret (inl (merged None new_tip))
    else
      let! l := landed_anyway dir url secret j head_oid in
      Ret (inl match l with Some base => merged already base | None => refused (stderr_tail o) end)
  end.

(** [run_inner]. *)
Definition run (j : Job) (cache upstream secret : string) : gprog (Outcome + string) :=
  let! there := trigger GitVersion in
  if negb there then Ret (inl (refused NO_GIT))
  else
    let! s := sync cache upstream secret j in
    match s with
    | inr e => Ret (inr e)
    | inl (dir, url) =>
      let! o := trigger (Local dir (RevParse [RefCommit (w_base j); RefCommit (w_head j); RefTree (w_base j)])) in
      match o with
      | inr e => Ret (inr e)
      | inl o =>
        if negb (success o) then Ret (inl (refused "one of the branches is gone"))
        else
          match trim <$> lines (lossy (stdout o)) with
          | [base_oid; head_oid; base_tree] =>
            let! o := trigger (Local dir (IsAncestor head_oid base_oid)) in
            match o with
            | inr e => Ret (inr e)
            | inl o =>
              if success o then Ret (inl (merged already base_oid))
              else
                let! c := combine dir j base_oid head_oid base_tree in
                match c with
                | inr e => Ret (inr e)
                | inl (inr o) => Ret (inl o)
                | inl (inl new_tip) => push dir url secret j base_oid head_oid new_tip
                end
            end
          | _ => Ret (inr "rev-parse did not answer three ids")
          end
      end
    end.

(** ** The trial merge *)
Definition unknown (why : string) : Verdict := mkVerdict Unknown (Some why) false "" "".

Definition check_local (j : Job) (cache : string) : gprog (Verdict + string) :=
  let! there := trigger GitVersion in
  if negb there then Ret (inl (unknown NO_GIT))
  else
    let dir := cache_of cache (w_owner j) (w_name j) in
    let! tips := trigger (Local dir (RevParse [RefCommit (w_base j); RefCommit (w_head j)])) in
    match tips with
    | inr e => Ret (inr e)
    | inl tips =>
      if negb (success tips) then Ret (inl (unknown "one of the branches is gone"))
      else
        let ls := lines (lossy (stdout tips)) in
        let base_oid := trim (default "" (ls !! 0%nat)) in
        let head_oid := trim (default "" (ls !! 1%nat)) in
        let! t := tree_merge dir (heads (w_base j)) (heads (w_head j)) in
        Ret (inl match t with
                 | inl (inl _) =>
                   mkVerdict Clean (Some ("this can be merged into " +:+ w_base j +:+ ", but not fast-forwarded")) false base_oid head_oid
                 | inl (inr o) => mkVerdict Dirty (o_detail o) false base_oid head_oid
                 | inr e => mkVerdict Unknown (Some e) false base_oid head_oid
                 end)
    end.

Definition check (j : Job) (cache upstream secret : string) : gprog (Verdict + string) :=
  let! there := trigger GitVersion in
  if negb there then Ret (inl (unknown NO_GIT))
  else
    let! s := sync cache upstream secret j in
    match s with
    | inr e => Ret (inr e)
    | inl _ => check_local j cache
    end.

(** ** Pruning the caches *)

(** Delete what nothing has touched in [age], as [prune]'s first loop; what is kept, and how many went. *)
Fixpoint drop_stale (age : Z) (cs kept : list Cache) (gone : Z) : gprog (list Cache * Z) :=
  match cs with
  | [] => Ret (kept, gone)
  | c :: cs =>
    let! fresh := (match c_used c with
                   | None => Ret false
                   | Some t => let! since := trigger (SinceUse t) in Ret (since <=? age)
                   end) in
    if (fresh : bool) then drop_stale age cs (kept ++ [c]) gone
    else
      let! ok := trigger (RemoveTree (c_dir c)) in
      drop_stale age cs kept (if (ok : bool) then gone + 1 else gone)
  end.
Definition older (a b : Cache) : Prop := default 0 (c_used a) <= default 0 (c_used b).
#[global] Instance older_dec a b : Decision (older a b). Proof. unfold older. apply _. Defined.

(** Then the least recently used, until the rest fits. *)
Fixpoint shrink (budget : Z) (kept : list Cache) (total gone : Z) : gprog Z :=
  match kept with
  | [] => Ret gone
  | c :: kept =>
    if total <=? budget then Ret gone
    else
      let! ok := trigger (RemoveTree (c_dir c)) in
      if (ok : bool) then shrink budget kept (total - c_size c) (gone + 1) else shrink budget kept total gone
  end.
Definition sizes (cs : list Cache) : Z := foldr (fun c n => c_size c + n) 0 cs.

Definition prune (cache : string) (age budget : Z) : gprog Z :=
  let! cs := trigger (ReadCaches (cache +:+ "/merge")) in
  match cs with
  | None => Ret 0
  | Some cs =>
    let! kg := drop_stale age cs [] 0 in
    let kept := merge_sort older kg.1 in
    shrink budget kept (sizes kept) kg.2
  end.

(** ** The worker, [bins/worker/src/main.rs] *)
Record Worker := mkWorker { w_me : string; w_cache : string; w_upstream : string; w_secret : string }.

Definition targets_whole_repo (e : Event) : bool :=
  (ev_number e =? 0) && match ev_kind e with HeadMoved => true | _ => false end.

Definition event_repo (repo : string) : option (string * string) :=
  '(owner, name) ← split_once "/" repo;
  if valid_segment owner && valid_segment name then Some (owner, name) else None.

Definition merge_one (w : Worker) (owner name : string) (number : Z) : gprog unit :=
  let! claimed := trigger (PostClaim owner name number (w_me w)) in
  match claimed with
  | inl (Some j) =>
    let! done_ := run j (w_cache w) (w_upstream w) (w_secret w) in
    match done_ with
    | inl o => trigger (PostOutcome owner name number (w_me w) o) ;;! Ret tt
    | inr _ => Ret tt
    end
  | _ => Ret tt
  end.

Definition check_one (w : Worker) (owner name : string) (d : Deep) : gprog unit :=
  let! v := check_local (mkJob owner name (d_number d) "" (d_base d) (d_head d) "" "") (w_cache w) in
  match v with
  | inl v => trigger (PostMergeability owner name (d_number d) v) ;;! Ret tt
  | inr _ => Ret tt
  end.

(** Every branch of the fan-out, once. *)
Definition branches_of (deep : list Deep) : list string :=
  fold_left (fun bs b => if bool_decide (b ∈ bs) then bs else (bs ++ [b])%list) (concat ((fun d => [d_base d; d_head d]) <$> deep)) [].

Definition check_all (w : Worker) (owner name : string) (number : Z) : gprog unit :=
  let! deep := trigger (PostCheck owner name number) in
  match deep with
  | inr _ => Ret tt
  | inl deep =>
    let deep := default [] deep in
    (if bool_decide (deep = []) then Ret tt
     else sync_branches (w_cache w) (w_upstream w) (w_secret w) owner name (branches_of deep) ;;! Ret tt) ;;!
    traverse (check_one w owner name) deep ;;! Ret tt
  end.

(** One delivered event, under the repository's lock. *)
Definition handle_event (w : Worker) (e : Event) : gprog unit :=
  match event_repo (ev_repo e) with
  | None => Ret tt
  | Some (owner, name) =>
    let key := "merge/" +:+ owner +:+ "/" +:+ name in
    trigger (Lock key) ;;!
    match ev_kind e with
    | MergeRequested => merge_one w owner name (ev_number e)
    | _ => check_all w owner name (if targets_whole_repo e then 0 else ev_number e)
    end ;;!
    trigger (Unlock key)
  end.
