(* ===== verification/MergeProps.v ===== *)
(** * MergeProps: what a merge reports and what it pushes

    Git's answers are any its documentation allows ([git_sem]): a command may fail, be killed, or do its
    work without being heard, and between any two of them others push to the fleet.  The commits there
    can be, their parents and trees, what two tips merge to and what a rebase makes of them are [Git]. *)

From S2P Require Import Prelude Text Names Prog Sched Pulls Merge.
Local Open Scope string_scope.
Local Open Scope Z_scope.

(** ** Ids *)
Definition hex (c : ascii) : bool := in_range 48 57 c || in_range 97 102 c.
Fixpoint all_hex (s : string) : bool := match s with EmptyString => true | String c r => hex c && all_hex r end.
Definition is_id (s : string) : Prop := s <> "" /\ all_hex s = true.

Lemma hex_low c : hex c = true -> 48 <= byte_z c <= 102.
Proof. unfold hex, in_range. intros H. bools. destruct H as [H|H]; bools; lia. Qed.
Lemma hex_no_ws c : hex c = true -> ws1 c = false.
Proof. intros H%hex_low. unfold ws1, in_range. rewrite orb_false_iff, andb_false_iff, !Z.leb_gt, Z.eqb_neq. lia. Qed.
Lemma hex_all_ws c r : hex c = true -> all_ws (String c r) = false.
Proof.
  intros H. pose proof (hex_low c H) as Hl. cbn [all_ws]. rewrite (hex_no_ws c H).
  destruct r as [|d r]; [done|]. replace (ws2 c d) with false by (unfold ws2; rewrite (proj2 (Z.eqb_neq _ _)) by lia; done).
  destruct r as [|e r]; [done|]. replace (ws3 c d e) with false; [done|]. unfold ws3.
  by rewrite !(proj2 (Z.eqb_neq (byte_z c) _)) by lia.
Qed.
Lemma trim_start_hex c r : hex c = true -> trim_start (String c r) = String c r.
Proof.
  intros H. pose proof (hex_low c H) as Hl. cbn [trim_start]. rewrite (hex_no_ws c H).
  destruct r as [|d r]; [done|]. replace (ws2 c d) with false by (unfold ws2; rewrite (proj2 (Z.eqb_neq _ _)) by lia; done).
  destruct r as [|e r]; [done|]. replace (ws3 c d e) with false; [done|]. unfold ws3.
  by rewrite !(proj2 (Z.eqb_neq (byte_z c) _)) by lia.
Qed.
Lemma trim_end_hex s t : all_hex s = true -> trim_end t = "" -> trim_end (s +:+ t) = s.
Proof.
  induction s as [|c s IH]; intros H Ht; [exact Ht|]. cbn in H. bools. cbn [String.append trim_end].
  rewrite hex_all_ws by done. by rewrite IH.
Qed.
Lemma trim_id s t : is_id s -> trim_end t = "" -> trim (s +:+ t) = s.
Proof.
  intros [Hne H] Ht. destruct s as [|c s]; [done|]. unfold trim. cbn [String.append]. cbn in H. bools.
  rewrite trim_start_hex by done. apply (trim_end_hex (String c s)); [cbn; by rewrite H, H0|done].
Qed.
Lemma trim_id_alone s : is_id s -> trim s = s.
Proof. intros H. rewrite <- (append_nil_r s) at 1. by apply trim_id. Qed.
Lemma lossy_hex s t : all_hex s = true -> lossy (s +:+ t) = s +:+ lossy t.
Proof.
  induction s as [|c s IH]; intros H; [done|]. cbn in H. bools. pose proof (hex_low c H). cbn [String.append lossy].
  rewrite (proj2 (Z.ltb_lt _ _)) by lia. by rewrite IH.
Qed.
Lemma hex_no_char c s : hex c = false -> all_hex s = true -> contains_char c s = false.
Proof.
  intros Hc. induction s as [|d s IH]; intros H; [done|]. cbn in H. bools. cbn [contains_char]. rewrite IH by done. rewrite orb_false_r.
  destruct (Ascii.eqb c d) eqn:E; [|done]. apply Ascii.eqb_eq in E as ->. congruence.
Qed.

Lemma lossy_unlines ids : Forall is_id ids -> lossy (unlines ids) = unlines ids.
Proof.
  induction 1 as [|s ids [_ Hs] _ IH]; [done|]. cbn [unlines foldr]. rewrite lossy_hex by done. cbn [lossy].
  change (byte_z nl <? 0x80) with true. cbn iota. fold (unlines ids). by rewrite IH.
Qed.
Lemma lines_ids ids : Forall is_id ids -> lines (lossy (unlines ids)) = ids.
Proof.
  intros H. rewrite lossy_unlines by done. apply lines_unlines. intros l Hl. rewrite Forall_forall in H.
  destruct (H l Hl) as [_ Hx]. by split; apply hex_no_char.
Qed.
Lemma read_ids ids : Forall is_id ids -> trim <$> lines (lossy (unlines ids)) = ids.
Proof. intros H. rewrite lines_ids by done. induction H as [|s ids Hs _ IH]; [done|]. cbn. by rewrite trim_id_alone, IH. Qed.
Lemma read_id s : is_id s -> trim (lossy (unlines [s])) = s.
Proof. intros H. rewrite lossy_unlines by by constructor. by apply trim_id. Qed.
Lemma read_tree s rest : is_id s -> trim (lossy (default "" (hd_error (split NUL (s +:+ String NUL rest))))) = s.
Proof.
  intros H. rewrite split_app by (apply hex_no_char; [done|apply H]). cbn [hd_error from_option id].
  destruct H as [H1 H2]. rewrite <- (append_nil_r s) at 1. rewrite lossy_hex by done. by apply trim_id.
Qed.

(** ** Git *)

(** Commits are what they are made of; [merges] is a tree, or what is printed of the conflicts. *)
Class Git := {
  anc : string -> string -> Prop;
  tree_of : string -> string;
  merges : string -> string -> string + list string;
  who : string -> string;
  commit_of : string -> list string -> string -> string -> string -> string -> string;
  rebased : string -> string -> string;
  anc_preorder : PreOrder anc;
  anc_parent : forall t ps m n e w p, p ∈ ps -> anc p (commit_of t ps m n e w);
  anc_rebased : forall b h, anc b (rebased b h);
  tree_commit : forall t ps m n e w, tree_of (commit_of t ps m n e w) = t;
}.
#[export] Existing Instance anc_preorder.

Section world.
Context {G : Git}.

(** The fleet's branches, the cache's, the commit a worktree has checked out, every value a branch of
    the fleet has had, and what this worker has moved: a branch, from, to. *)
Record MW := mkMW {
  fleet : gmap string string;
  refs : gmap string string;
  wt_head : option string;
  past : list (string * string);
  moves : list (string * string * string);
}.

(** What others do meanwhile. *)
Record drift (w w' : MW) : Prop := {
  d_refs : refs w' = refs w;
  d_head : wt_head w' = wt_head w;
  d_moves : moves w' = moves w;
  d_past : forall x, x ∈ past w -> x ∈ past w';
  d_fleet : forall b t, fleet w' !! b = Some t -> (b, t) ∈ past w';
}.

Definition set_head (h : option string) (w : MW) : MW := mkMW (fleet w) (refs w) h (past w) (moves w).
Definition set_refs (r : gmap string string) (w : MW) : MW := mkMW (fleet w) r (wt_head w) (past w) (moves w).
Definition land (b old new : string) (w : MW) : MW :=
  mkMW (<[b := new]> (fleet w)) (refs w) (wt_head w) ((b, new) :: past w) ((b, old, new) :: moves w).

(** What a name means in the cache. *)
Definition resolve (w : MW) (s : string) : option string :=
  match strip_prefix "refs/heads/" s with Some b => refs w !! b | None => Some s end.
Definition rev_id (w : MW) (r : rev) : option string :=
  match r with
  | RefCommit b => refs w !! b
  | RefTree b => tree_of <$> refs w !! b
  | TreeOf id => Some (tree_of id)
  end.

(** What a command that ran may have answered and done. *)
Definition git_act (c : cmd) (o : output) (w w' : MW) : Prop :=
  match c with
  | RevParse rs => w' = w /\ (success o = true -> exists ids, Forall is_id ids /\ Forall2 (fun r i => rev_id w r = Some i) rs ids /\ stdout o = unlines ids)
  | RevParseHead => w' = w /\ (success o = true -> exists h, is_id h /\ wt_head w = Some h /\ stdout o = unlines [h])
  | IsAncestor a b => w' = w /\ (success o = true -> anc a b) /\ (code o = Some 1 -> ~ anc a b)
  | MergeTree a b => w' = w /\
      (success o = true -> exists ia ib t rest, resolve w a = Some ia /\ resolve w b = Some ib /\ merges ia ib = inl t /\ is_id t /\
        stdout o = t +:+ String NUL rest) /\
      (code o = Some 1 -> exists ia ib ps, resolve w a = Some ia /\ resolve w b = Some ib /\ merges ia ib = inr ps /\ conflicted_paths (stdout o) = ps)
  | LogWho id => w' = w /\ (success o = true -> stdout o = who id)
  | CommitTree t ps m n e at_ => w' = w /\ (success o = true -> is_id (commit_of t ps m n e at_) /\ stdout o = unlines [commit_of t ps m n e at_])
  | WorktreeAdd _ id => exists h, w' = set_head h w /\ (success o = true -> h = Some id)
  | Rebase base _ _ => exists h, w' = set_head h w /\ (success o = true -> exists h0, wt_head w = Some h0 /\ h = Some (rebased base h0))
  | Fetch _ specs => exists r, w' = set_refs r w /\ (success o = true ->
      if decide (specs = [MIRROR]) then r = fleet w
      else forall bs, specs = refspec <$> bs -> forall b, b ∈ bs -> r !! b = fleet w !! b)
  | Push b lease _ new =>
      (w' = w /\ (success o = true -> fleet w !! b = Some new)) \/ (fleet w !! b = Some lease /\ w' = land b lease new w)
  | LogIdent => w' = w
  | InitBare | RebaseAbort | WorktreeRemove _ | WorktreePrune => exists h, w' = set_head h w
  end.
(** Killed, it may have done anything it might have done. *)
Definition cut_short (c : cmd) (w w' : MW) : Prop := exists o, success o = false /\ code o <> Some 1 /\ git_act c o w w'.

Definition git_sem X (e : GE X) (w : MW) (x : X) (w' : MW) : Prop :=
  exists w1, drift w w1 /\
  match e in GE X return X -> Prop with
  | Local _ c | Networked _ _ _ c => fun r => match r with inl o => git_act c o w1 w' | inr _ => cut_short c w1 w' end
  | _ => fun _ => w' = w1
  end x.

Abbreviation all_ends := (ends git_sem).

(** The commit of a tree: whose it is and what it says come from the head and the job alone. *)
Definition commit_for (j : Job) (tree : string) (ps : list string) (h : string) : string :=
  let ls := lines (trim (lossy (who h))) in
  commit_of tree ps (w_title j +:+ " (#" +:+ display_i (w_number j) +:+ ")")
    (or_else (ls !! 0%nat) "kloudlite") (or_else (ls !! 1%nat) "noreply@kloudlite.io") (or_else (ls !! 2%nat) "0" +:+ " +0000").
(** What a strategy makes of the two tips. *)
Definition made (j : Job) (b h t : string) : Prop :=
  (w_strategy j = "fast-forward" /\ t = h /\ anc b h) \/
  (w_strategy j = "rebase" /\ t = rebased b h) \/
  (exists tree, merges b h = inl tree /\
    ((w_strategy j = "merge" /\ t = commit_for j tree [b; h] h) \/ (w_strategy j = "squash" /\ t = commit_for j tree [b] h))).
Lemma made_anc j b h t : made j b h t -> anc b t.
Proof.
  intros [(_ & -> & Ha) | [[_ ->] | (tree & _ & [[_ ->] | [_ ->]])]];
    [done|apply anc_rebased|apply anc_parent; set_solver|apply anc_parent; set_solver].
Qed.
Lemma made_unique j b h t t' : made j b h t -> made j b h t' -> t = t'.
Proof.
  intros [(E & -> & _) | [[E ->] | (tr & Hm & [[E ->] | [E ->]])]] [(E' & -> & _) | [[E' ->] | (tr' & Hm' & [[E' ->] | [E' ->]])]];
    congruence.
Qed.

(** What a job asked for is in [t]: the head itself, all it changes, or what the strategy makes of it. *)
Definition holds (j : Job) (h t : string) : Prop :=
  anc h t \/ merges t h = inl (tree_of t) \/ exists b, made j b h t.

(** [w'] comes after [w] with no push of ours in between; [kept] when the cache's branches are the same. *)
Record after (w w' : MW) : Prop := {
  a_moves : moves w' = moves w;
  a_past : forall x, x ∈ past w -> x ∈ past w';
}.
#[local] Instance after_pre : PreOrder after.
Proof. split; [by split|]. intros a b c [H1 H2] [H3 H4]. split; [congruence|auto]. Qed.
Definition kept (w w' : MW) : Prop := after w w' /\ refs w' = refs w.
#[local] Instance kept_pre : PreOrder kept.
Proof. split; [by split|]. intros a b c [H1 H2] [H3 H4]. split; [by transitivity b|congruence]. Qed.
Lemma drift_kept w w' : drift w w' -> kept w w'. Proof. intros []. by repeat split. Qed.

(** The cache's branches are among what the fleet's have been. *)
Definition seen (bs : list string) (w : MW) : Prop := forall b t, b ∈ bs -> refs w !! b = Some t -> (b, t) ∈ past w.
Lemma seen_kept bs w w' : kept w w' -> seen bs w -> seen bs w'.
Proof. intros [[_ Hp] Hr] H b t Hb. rewrite Hr. intros Ht. by apply Hp, H. Qed.

Definition pushes (c : cmd) : bool := match c with Push _ _ _ _ => true | _ => false end.
Definition fetches (c : cmd) : bool := match c with Fetch _ _ => true | _ => false end.
Lemma act_after c o w w' : pushes c = false -> git_act c o w w' -> after w w'.
Proof.
  intros Hc Ha. destruct c; try discriminate Hc; cbn in Ha;
    repeat match goal with
    | H1 : _ /\ _ |- _ => destruct H1
    | H1 : exists _, _ |- _ => destruct H1
    end; subst; by split.
Qed.
Lemma act_kept c o w w' : pushes c = false -> fetches c = false -> git_act c o w w' -> kept w w'.
Proof.
  intros Hc Hf Ha. split; [by eapply act_after|]. destruct c; try discriminate Hc; try discriminate Hf; cbn in Ha;
    repeat match goal with
    | H1 : _ /\ _ |- _ => destruct H1
    | H1 : exists _, _ |- _ => destruct H1
    end; by subst.
Qed.

(** ** Each command *)
Lemma quiet_ends {X} (e : GE X) w : match e with Local _ _ | Networked _ _ _ _ => False | _ => True end ->
  all_ends (trigger e) w (fun _ w' => kept w w').
Proof. destruct e; try done; intros _ x w' (w1 & Hd & ->); by apply drift_kept. Qed.
Lemma local_ends dir c w : pushes c = false -> fetches c = false -> all_ends (trigger (Local dir c)) w (fun r w' =>
  kept w w' /\ forall o, r = inl o -> exists w1, drift w w1 /\ git_act c o w1 w').
Proof.
  intros Hc Hf r w' (w1 & Hd & H). destruct r as [o|e]; cbn in H.
  - split; [transitivity w1; [by apply drift_kept|by eapply act_kept]|]. intros o' [= <-]. by exists w1.
  - destruct H as (o & _ & _ & H). split; [transitivity w1; [by apply drift_kept|by eapply act_kept]|done].
Qed.
Lemma must_ends dir c w : pushes c = false -> fetches c = false -> all_ends (must dir c) w (fun r w' =>
  kept w w' /\ forall s, r = inl s -> exists o w1, drift w w1 /\ git_act c o w1 w' /\ success o = true /\ s = trim (lossy (stdout o))).
Proof.
  intros Hc Hf. eapply ends_seq; [by apply local_ends|]. intros r w1 [Hk Ha]. cbn. split; [done|]. intros s.
  destruct r as [o|e]; [|done]. destruct (success o) eqn:E; [|done]. intros [= <-]. destruct (Ha o eq_refl) as (w2 & Hd & H). eauto 10.
Qed.
Lemma fetch_once dir s ow url specs w : all_ends (trigger (Networked dir s ow (Merge.Fetch url specs))) w (fun r w' =>
  after w w' /\ forall o, r = inl o -> success o = true ->
    if decide (specs = [MIRROR]) then forall bs, seen bs w' else forall bs, specs = refspec <$> bs -> seen bs w').
Proof.
  intros r w' (w1 & Hd & H). pose proof (drift_kept _ _ Hd) as [Hk _]. destruct r as [o|e]; cbn in H.
  - destruct H as (r & -> & H). split; [transitivity w1; [done|by split]|]. intros o' [= <-] Ho. specialize (H Ho).
    case_decide; [subst r; intros bs b t _; apply Hd|]. intros bs Hbs b t Hb. cbn. rewrite (H bs Hbs b Hb). apply Hd.
  - destruct H as (o & Ho & _ & r & -> & _). split; [transitivity w1; [done|by split]|done].
Qed.
Lemma fetch_ends dir url s ow bs w : all_ends (Merge.fetch dir url s ow bs) w (fun r w' => after w w' /\ (r = inl tt -> seen bs w')).
Proof.
  eapply ends_seq; [apply fetch_once|]. intros [o|e] w1 [Ha H1]; [|by split].
  destruct (success o) eqn:Eo.
  - split; [done|]. intros _. specialize (H1 o eq_refl Eo). case_decide; auto.
  - eapply ends_seq; [apply fetch_once|]. intros [o2|e] w2 [Ha2 H2]; (split; [by transitivity w1|]); [|done].
    destruct (success o2) eqn:Eo2; [|done]. intros _. specialize (H2 o2 eq_refl Eo2). case_decide; [auto|done].
Qed.
Lemma init_ends dir w : all_ends (init_cache dir) w (fun _ w' => kept w w').
Proof.
  eapply ends_seq; [by apply quiet_ends|]. intros [] w1 H1; [done|].
  eapply ends_seq; [by apply quiet_ends|]. intros [?|e] w2 H2; cbn [ends]; [|by transitivity w1].
  eapply ends_seq; [by apply local_ends|]. intros r w3 [H3 _]; cbn [ends]. transitivity w2; [by transitivity w1|done].
Qed.
Lemma sync_ends cache up s j w : all_ends (sync cache up s j) w (fun r w' => after w w' /\ (forall x, r = inl x -> seen [w_base j; w_head j] w')).
Proof.
  eapply ends_seq; [apply init_ends|]. intros [?|e] w1 [H1 _]; [|by split].
  eapply ends_seq; [by apply quiet_ends|]. intros _ w2 [H2 _].
  eapply ends_seq; [apply fetch_ends|]. intros r w3 [H3 Hs]. split; [transitivity w2; [by transitivity w1|done]|].
  destruct r as [[]|e]; [|done]. intros x _. by apply Hs.
Qed.

(** ** The steps of a job *)
Ltac chain := cbn beta in *; repeat first [eassumption | etransitivity; [eassumption|]].
Lemma resolve_id w s : is_id s -> resolve w s = Some s.
Proof.
  intros [Hne Hx]. unfold resolve. destruct (strip_prefix "refs/heads/" s) as [b|] eqn:E; [|done].
  apply strip_prefix_some in E as ->. by cbn in Hx.
Qed.
Lemma tree_merge_ends dir a b w : all_ends (tree_merge dir a b) w (fun r w' => kept w w' /\
  forall x, r = inl x -> exists w1 ia ib, kept w w1 /\ resolve w1 a = Some ia /\ resolve w1 b = Some ib /\
    match x with inl t => merges ia ib = inl t /\ is_id t
               | inr o => exists ps, merges ia ib = inr ps /\ o = conflicts (conflict_detail ps) end).
Proof.
  eapply ends_seq; [by apply local_ends|]. intros [o|e] w1 [Hk H]; cbn [ends]; split; [done| |done|done]. intros x.
  destruct (H o eq_refl) as (w2 & Hd%drift_kept & -> & Hs & Hc). destruct (success o) eqn:Eo; cbn iota.
  - intros [= <-]. destruct (Hs eq_refl) as (ia & ib & t & rest & H1 & H2 & H3 & H4 & ->). rewrite read_tree by done. by exists w2, ia, ib.
  - case_bool_decide as Ec; cbn [negb]; [|done]. intros [= <-]. destruct (Hc Ec) as (ia & ib & ps & H1 & H2 & H3 & ->).
    exists w2, ia, ib. eauto 10.
Qed.
Lemma commit_tree_ends dir j tree ps h w :
  all_ends (commit_tree dir tree ps h (w_title j +:+ " (#" +:+ display_i (w_number j) +:+ ")")) w (fun r w' =>
    kept w w' /\ forall t, r = inl t -> t = commit_for j tree ps h).
Proof.
  eapply ends_seq; [by apply must_ends|]. intros [ww|e] w1 [H1 Hw]; [|by split]. cbn zeta.
  destruct (Hw ww eq_refl) as (o & w2 & _ & [_ Hs] & Eo & ->). rewrite (Hs Eo). clear Hw Hs Eo.
  eapply ends_seq; [by apply local_ends|]. intros [o2|e] w3 [H3 Ho]; cbn [ends]; (split; [by transitivity w1|]); [|done].
  destruct (success o2) eqn:Eo; [|done]. intros t [= <-]. destruct (Ho o2 eq_refl) as (w4 & _ & _ & Hs). destruct (Hs Eo) as [Hi ->].
  by rewrite read_id by done.
Qed.

(** What a rebase that failed, for whatever reason, is reported as. *)
Definition stopped (o : Outcome) : Prop :=
  exists out, success out = false /\ o = conflicts ("rebase stopped: " +:+ stderr_tail out).
Lemma replay_ends wt base h w : wt_head w = Some h -> all_ends (replay wt base) w (fun r w' => kept w w' /\
  forall x, r = inl x -> match x with inl t => t = rebased base h | inr o => stopped o end).
Proof.
  intros Hh. eapply ends_seq; [by apply must_ends|]. intros [ident|e] w1 [H1 Hi]; [|by split].
  destruct (Hi ident eq_refl) as (oi & wi & Hdi & -> & _ & _). rewrite <- (d_head _ _ Hdi) in Hh. clear Hi Hdi.
  destruct (default _ _) as [name mail]. eapply ends_seq; [by apply local_ends|]. intros [o|e] w2 [H2 Ho].
  2:{ cbn [ends]. split; [by transitivity wi|done]. }
  assert (Hk : kept w w2) by by transitivity wi.
  destruct (success o) eqn:Eo; cbn [negb].
  - destruct (Ho o eq_refl) as (w3 & Hd3 & h' & Hw2 & Hr). destruct (Hr Eo) as (h0 & Hh0 & Hh'). subst h'.
    rewrite (d_head _ _ Hd3) in Hh0. simplify_eq.
    eapply ends_seq; [by apply must_ends|]. intros [t|e] w4 [H4 Ht]; cbn [ends]; (split; [chain|]); [|done].
    intros x [= <-]. destruct (Ht t eq_refl) as (o4 & w5 & Hd5 & (-> & Hs) & Eo4 & ->).
    destruct (Hs Eo4) as (h2 & Hi2 & Hh2 & ->). rewrite (d_head _ _ Hd5) in Hh2. cbn in Hh2. simplify_eq. by apply read_id.
  - eapply ends_seq; [by apply local_ends|]. intros r w3 [H3 _]. cbn [ends]. split; [chain|]. intros x [= <-]. by exists o.
Qed.
Lemma rebase_ends dir base h w : all_ends (rebase dir base h) w (fun r w' => kept w w' /\
  forall x, r = inl x -> match x with inl t => t = rebased base h | inr o => stopped o end).
Proof.
  eapply ends_seq; [by apply quiet_ends|]. intros pid w1 H1. cbn zeta.
  eapply ends_seq; [by apply quiet_ends|]. intros ? w2 H2.
  eapply ends_seq; [by apply local_ends|]. intros [o|e] w3 [H3 Ho].
  2:{ cbn [ends]. split; [chain|done]. }
  destruct (success o) eqn:Eo; cbn [negb]. 2:{ cbn [ends]. split; [chain|done]. }
  destruct (Ho o eq_refl) as (w4 & Hd & h' & Hw3 & Hs). specialize (Hs Eo) as ->.
  eapply ends_seq; [apply (replay_ends _ _ h); by subst|]. intros r w5 [H5 Hr].
  eapply ends_seq; [by apply local_ends|]. intros ? w6 [H6 _].
  eapply ends_seq; [by apply quiet_ends|]. intros ? w7 H7.
  eapply ends_seq; [by apply local_ends|]. intros ? w8 [H8 _]. cbn [ends]. split; [|done]. chain.
Qed.

(** The refusals that come before any push. *)
Definition declined (j : Job) (o : Outcome) : Prop :=
  o = refused NO_GIT \/ o = refused "one of the branches is gone" \/
  (w_strategy j = "fast-forward" /\ o = refused "not a fast-forward — use merge or squash, or rebase and push again") \/
  ((w_strategy j ∉ ["fast-forward"; "squash"; "merge"; "rebase"]) /\
   o = refused "strategy must be fast-forward, squash, merge or rebase").
(** A commit of a job, or how it ends without one. *)
Definition combined (j : Job) (b h : string) (x : string + Outcome) : Prop :=
  match x with
  | inl t => made j b h t
  | inr o =>
    declined j o \/ (w_strategy j = "rebase" /\ stopped o) \/
    (w_strategy j ∈ ["merge"; "squash"] /\ exists ps, merges b h = inr ps /\ o = conflicts (conflict_detail ps)) \/
    (o = merged already b /\ merges b h = inl (tree_of b))
  end.
Lemma combine_ends dir j b h w : is_id b -> is_id h -> all_ends (combine dir j b h (tree_of b)) w (fun r w' => kept w w' /\
  forall x, r = inl x -> combined j b h x).
Proof.
  intros Hb Hh. unfold combine. set (s := w_strategy j). destruct (String.eqb_spec s "fast-forward") as [E1|E1].
  { eapply ends_seq; [by apply local_ends|]. intros [o|e] w1 [H1 Ho]; cbn [ends]; split; [done| |done|done].
    destruct (success o) eqn:Eo; intros x [= <-]; [|left; do 2 right; by left]. destruct (Ho o eq_refl) as (w2 & _ & _ & Ha & _). left. auto. }
  destruct (String.eqb s "merge" || String.eqb s "squash") eqn:E2.
  { eapply ends_seq; [apply tree_merge_ends|]. intros [[tree|o]|e] w1 [H1 Ht]; [| |by split].
    - destruct (Ht _ eq_refl) as (w2 & ia & ib & _ & Ha & Hb' & Hm & _).
      rewrite resolve_id in Ha, Hb' by done. simplify_eq.
      destruct (String.eqb_spec tree (tree_of ia)) as [->|Hne].
      { cbn [ends]. split; [done|]. intros x [= <-]. by do 3 right. }
      eapply ends_seq; [apply commit_tree_ends|]. intros [c|e] w3 [H3 Hc]; cbn [ends]; (split; [chain|]); [|done].
      intros x [= <-]. rewrite (Hc c eq_refl). right. right. exists tree. split; [done|].
      destruct (String.eqb_spec s "squash") as [E3|E3]; [by right|]. left. split; [|done]. rewrite orb_false_r in E2. by apply String.eqb_eq in E2.
    - cbn [ends]. split; [done|]. destruct (Ht _ eq_refl) as (w2 & ia & ib & _ & Ha & Hb' & ps & Hm & ->). intros x [= <-].
      rewrite resolve_id in Ha, Hb' by done. simplify_eq. right. right. left. split; [|by exists ps].
      apply orb_true_iff in E2 as [E3%String.eqb_eq | E3%String.eqb_eq]; unfold s in E3; rewrite E3; [left|right; left]. }
  destruct (String.eqb_spec s "rebase") as [E3|E3].
  { eapply ends_mono; [apply rebase_ends|]. cbn. intros r w1 [H1 Hr]. split; [done|]. intros [t|o] ->; specialize (Hr _ eq_refl); cbn in Hr.
    - right. left. auto.
    - right. by left. }
  cbn [ends]. split; [done|]. intros x [= <-]. left. do 3 right. split; [|done].
  apply orb_false_iff in E2 as [?%String.eqb_neq ?%String.eqb_neq].
  rewrite !not_elem_of_cons. by split_and!; try apply not_elem_of_nil.
Qed.

Lemma must_rev dir r w : all_ends (must dir (RevParse [r])) w (fun x w' => kept w w' /\ forall i, x = inl i -> is_id i /\ rev_id w' r = Some i).
Proof.
  eapply ends_mono; [by apply must_ends|]. cbn. intros x w1 [H1 Hx]. split; [done|]. intros i ->.
  destruct (Hx i eq_refl) as (o & w2 & _ & [-> Hs] & Eo & ->). destruct (Hs Eo) as (ids & Hi & Hr & ->).
  inversion Hr as [|? i ? ? Hr1 Hr2]; subst. inversion Hr2; subst. inversion Hi as [|? ? Hi1 _]; subst. rewrite (read_id i Hi1). by split.
Qed.
Lemma landed_anyway_ends dir url s j h w : is_id h -> seen [w_base j; w_head j] w ->
  all_ends (landed_anyway dir url s j h) w (fun r w' => after w w' /\
    forall t, r = Some t -> (w_base j, t) ∈ past w' /\ (anc h t \/ merges t h = inl (tree_of t))).
Proof.
  intros Hh Hw. eapply (ends_seq _ _ _ _ (fun r w' => after w w' /\ (r = inl tt -> seen [w_base j; w_head j] w'))).
  { destruct (String.eqb url ""); [by repeat split|]. apply fetch_ends. }
  intros [[]|e] w1 [H1 Hs]; [|by split]. specialize (Hs eq_refl).
  eapply ends_seq; [apply must_rev|]. intros [t|e] w2 [[H2 H2r] Ht]; [|by split; [chain|]].
  destruct (Ht t eq_refl) as [Hi Hr]. cbn in Hr.
  assert (Hp : forall w3, after w2 w3 -> (w_base j, t) ∈ past w3).
  { intros w3 H3. apply H3. apply (seen_kept _ w1 w2 (conj H2 H2r) Hs); [set_solver|done]. }
  assert (Ha : after w w2) by chain.
  destruct (String.eqb (w_strategy j) "squash").
  - eapply ends_seq; [apply must_rev|]. intros [bt|e] w3 [[H3 _] Hbt]; [|by split; [chain|]].
    destruct (Hbt _ eq_refl) as [_ Hbt1]. cbn in Hbt1. simplify_eq.
    eapply ends_seq; [apply tree_merge_ends|]. intros x w4 [[H4 _] Hx]; cbn [ends]. split; [chain|]. intros t' Hx1.
    destruct x as [[tr|o]|e]; try discriminate Hx1. destruct (String.eqb_spec tr (tree_of t)) as [->|]; [|done]. simplify_eq.
    split; [by apply Hp; chain|]. destruct (Hx _ eq_refl) as (w5 & ia & ib & _ & Hx1 & Hx2 & Hx3 & _).
    rewrite resolve_id in Hx1, Hx2 by done. simplify_eq. by right.
  - eapply ends_seq; [by apply local_ends|]. intros o w3 [[H3 _] Ho]; cbn [ends]. split; [chain|]. intros t' Ht'.
    destruct o as [o|]; [|done]. destruct (success o) eqn:Eo; [|done]. simplify_eq. split; [by apply Hp|].
    destruct (Ho o eq_refl) as (w4 & _ & _ & Hanc & _). left. by apply Hanc.
Qed.

(** At most one push of ours, of what the strategy makes of a tip each branch has had. *)
Definition moved (j : Job) (w w' : MW) : Prop :=
  moves w' = moves w \/ exists b h t, moves w' = (w_base j, b, t) :: moves w /\
    made j b h t /\ (w_base j, b) ∈ past w' /\ (w_head j, h) ∈ past w'.
(** What an outcome says, and what it says of the fleet. *)
Definition truthful (j : Job) (w : MW) (o : Outcome) (w' : MW) : Prop :=
  match o_state o with
  | OMerged => exists t h, new_tip o = Some t /\ (w_base j, t) ∈ past w' /\ (w_head j, h) ∈ past w' /\ holds j h t
  | OConflicts => new_tip o = None /\ moves w' = moves w /\
      ((w_strategy j = "rebase" /\ stopped o) \/
       w_strategy j ∈ ["merge"; "squash"] /\ exists b h ps, (w_base j, b) ∈ past w' /\ (w_head j, h) ∈ past w' /\
         merges b h = inr ps /\ o_detail o = Some (conflict_detail ps))
  | ORefused => new_tip o = None /\
      ((declined j o /\ moves w' = moves w) \/ exists out, success out = false /\ o = refused (stderr_tail out) /\ moved j w w')
  end.
Lemma moved_after j w w1 w2 : moved j w w1 -> after w1 w2 -> moved j w w2.
Proof. intros [E|(b & h & t & E & H1 & H2 & H3)] [Hm Hp]; [left; congruence|]. right. exists b, h, t. split; [congruence|auto]. Qed.
Lemma moved_since j w w1 w2 : after w w1 -> moved j w1 w2 -> moved j w w2.
Proof. intros [Hm _] [E|(b & h & t & E & H)]; [left; congruence|]. right. exists b, h, t. split; [congruence|auto]. Qed.
Lemma after_moved j w w' : after w w' -> moved j w w'.
Proof. intros [E _]. by left. Qed.


Definition pushed (j : Job) (b h : string) (w w' : MW) : Prop :=
  after w w' \/ exists t, moves w' = (w_base j, b, t) :: moves w /\ made j b h t /\
    (w_base j, t) ∈ past w' /\ forall x, x ∈ past w -> x ∈ past w'.
Lemma push_effect dir s ow j b h url t w : made j b h t ->
  all_ends (trigger (Networked dir s ow (Merge.Push (w_base j) b url t))) w (fun r w' => pushed j b h w w' /\ refs w' = refs w /\
    forall o, r = inl o -> success o = true -> (w_base j, t) ∈ past w').
Proof.
  intros Hm r w' (w1 & Hd & H). pose proof (drift_kept _ _ Hd) as [Hk _].
  assert (Ha : forall o, git_act (Merge.Push (w_base j) b url t) o w1 w' ->
    pushed j b h w w' /\ refs w' = refs w /\ (success o = true -> (w_base j, t) ∈ past w')).
  { rewrite <- (d_refs _ _ Hd). intros o [[-> Hs]|[_ ->]]; [split_and!; [by left|done|]; intros Ho; by apply (d_fleet _ _ Hd), Hs|]. split_and!; [|done|intros _; cbn; set_solver].
    right. exists t. cbn. rewrite (d_moves _ _ Hd). split_and!; [done|done|set_solver|]. intros x Hx. apply list_elem_of_further, Hk, Hx. }
  destruct r as [o|e]; cbn in H.
  - destruct (Ha o H) as (H1 & H2 & H3). split_and!; [done..|]. by intros o' [= <-].
  - destruct H as (o & _ & _ & H). destruct (Ha o H) as (H1 & H2 & _). by split_and!.
Qed.
Lemma pushed_after j b h w w1 w2 : pushed j b h w w1 -> after w1 w2 -> pushed j b h w w2.
Proof.
  intros [H|(t & E & Hm & Ht & Hp)] Ha; [left; chain|]. right. exists t. destruct Ha as [Em Hq]. rewrite Em. split_and!; auto.
Qed.
Lemma pushed_moved j b h w w1 w2 : after w w1 -> (w_base j, b) ∈ past w1 -> (w_head j, h) ∈ past w1 ->
  pushed j b h w1 w2 -> moved j w w2.
Proof.
  intros [Em _] Hb Hh [[E _]|(t & E & Hm & _ & Hp)]; [left; congruence|]. right. exists b, h, t. rewrite E, Em. split_and!; auto.
Qed.
Lemma pushed_past j b h w w1 x : pushed j b h w w1 -> x ∈ past w -> x ∈ past w1.
Proof. intros [[_ H]|(t & _ & _ & _ & H)]; auto. Qed.

Lemma push_ends dir url s j b h t w w0 : is_id h -> after w0 w -> seen [w_base j; w_head j] w ->
  (w_base j, b) ∈ past w -> (w_head j, h) ∈ past w -> made j b h t ->
  all_ends (push dir url s j b h t) w (fun r w' => moved j w0 w' /\ forall o, r = inl o -> truthful j w0 o w').
Proof.
  intros Hi H0 Hw Hb Hh Hm. eapply ends_seq; [by apply push_effect|]. intros [o|e] w1 (H1 & Hr & Ho); [|cbn [ends]; split; [by eapply pushed_moved|done]].
  destruct (success o) eqn:Eo.
  - cbn [ends]. split; [by eapply pushed_moved|]. intros o' [= <-]. exists t, h. cbn. split_and!; [done|by eapply Ho| |].
    + by eapply pushed_past.
    + right. right. by exists b.
  - eapply ends_seq; [apply landed_anyway_ends; [done|]|].
    { intros b' t' Hb'. rewrite Hr. intros Ht'. eapply pushed_past; [exact H1|]. by apply Hw. }
    intros l w2 [H2 Hl]. cbn [ends]. assert (Hmv : moved j w0 w2) by (eapply pushed_moved; [done..|]; by eapply pushed_after).
    split; [done|]. intros o' [= <-]. destruct l as [base|]; [|split; [done|right; by exists o]]. destruct (Hl base eq_refl) as [Hbase Hin].
    exists base, h. cbn. split_and!; [done|done| |]; [|destruct Hin; [by left|right; by left]].
    apply H2. by eapply pushed_past.
Qed.

Lemma run_ends j cache up s w : all_ends (Merge.run j cache up s) w (fun r w' =>
  moved j w w' /\ forall o, r = inl o -> truthful j w o w').
Proof.
  eapply ends_seq; [by apply quiet_ends|]. intros there w1 [H1 _]. destruct there; cbn [negb].
  2:{ cbn [ends]. split; [by apply after_moved|]. intros o [= <-]. split; [done|]. left. split; [by left|apply H1]. }
  eapply ends_seq; [apply sync_ends|]. intros [[dir url]|e] w2 [H2 Hs].
  2:{ cbn [ends]. split; [apply after_moved; chain|done]. }
  specialize (Hs _ eq_refl).
  eapply ends_seq; [by apply local_ends|]. intros [o|e] w3 [H3 Ho].
  2:{ cbn [ends]. split; [apply after_moved; destruct H3; chain|done]. }
  pose proof (seen_kept _ _ _ H3 Hs) as Hs3. destruct H3 as [H3 _].
  destruct (success o) eqn:Eo; cbn [negb].
  2:{ cbn [ends]. assert (Hw3 : after w w3) by chain. split; [by apply after_moved|]. intros o' [= <-]. split; [done|]. left.
      split; [by right; left|apply Hw3]. }
  destruct (Ho o eq_refl) as (w4 & _ & -> & Hids). destruct (Hids Eo) as (ids & Hi & Hf & Eout). rewrite Eout, read_ids by done.
  inversion Hf as [|? b ? ids1 Hb Hf1]; subst. inversion Hf1 as [|? h ? ids2 Hh Hf2]; subst. inversion Hf2 as [|? tr ? ids3 Htr Hf3]; subst.
  inversion Hf3; subst. cbn in Hb, Hh, Htr. rewrite Hb in Htr. cbn in Htr. simplify_eq.
  inversion Hi as [|? ? Hib Hi1]; subst. inversion Hi1 as [|? ? Hih _]; subst.
  assert (Hpb : (w_base j, b) ∈ past w4) by (apply Hs3; [set_solver|done]).
  assert (Hph : (w_head j, h) ∈ past w4) by (apply Hs3; [set_solver|done]).
  clear Hs. eapply ends_seq; [by apply local_ends|]. intros [oa|e] w5 [H5 Ha].
  2:{ cbn [ends]. split; [apply after_moved; destruct H5; chain|done]. }
  pose proof (seen_kept _ _ _ H5 Hs3) as Hs5. destruct H5 as [H5 _]. assert (Hw5 : after w w5) by chain.
  destruct (success oa) eqn:Eoa.
  { cbn [ends]. split; [by apply after_moved|]. intros o' [= <-]. exists b, h. destruct (Ha oa eq_refl) as (w6 & _ & _ & Hanc & _).
    split_and!; [done|by apply H5|by apply H5|left; by apply Hanc]. }
  eapply ends_seq; [by apply combine_ends|]. intros [[t|oc]|e] w6 [H6 Hc].
  - pose proof (seen_kept _ _ _ H6 Hs5) as Hs6; destruct H6 as [H6 _].
    apply push_ends; [done|chain|done|by apply H6, H5|by apply H6, H5|by apply (Hc (inl t))].
  - specialize (Hc _ eq_refl). destruct H6 as [H6 _]. assert (Hw6 : after w w6) by chain. cbn [ends].
    split; [by apply after_moved|]. intros o' [= <-]. pose proof (a_moves _ _ Hw6) as Em.
    assert (Hpb6 : (w_base j, b) ∈ past w6) by (by apply H6, H5). assert (Hph6 : (w_head j, h) ∈ past w6) by (by apply H6, H5).
    destruct Hc as [Hc | [[Hs' (out & Hout & ->)] | [(Hs' & ps & Hmg & ->) | [-> Hmg]]]].
    + assert (o_state oc = ORefused /\ new_tip oc = None) as [E1 E2] by (by destruct Hc as [-> | [-> | [[_ ->] | [_ ->]]]]).
      unfold truthful. rewrite E1. split; [done|]. by left.
    + split_and!; [done..|]. left. split; [done|]. by exists out.
    + split_and!; [done..|]. right. split; [done|]. by exists b, h, ps.
    + exists b, h. cbn. split_and!; [done..|right; by left].
  - cbn [ends]. split; [apply after_moved; destruct H6; chain|done].
Qed.

(** ** What is claimed of the code *)

(** C20: A job pushes at most once, onto the base branch and nothing else; what it pushes is the commit
    its strategy makes of a tip the base has had and one the head has had, it moves the base from
    exactly that tip (so nobody's commit is buried: the lease), the old tip is an ancestor of the new
    one, and the new one is the only commit any retry from the same tips could push. *)
Theorem push_is_the_strategys j cache upstream secret w :
  ends git_sem (Merge.run j cache upstream secret) w (fun _ w' =>
    moves w' = moves w \/
    exists b h t, moves w' = (w_base j, b, t) :: moves w /\ (w_base j, b) ∈ past w' /\ (w_head j, h) ∈ past w' /\
      made j b h t /\ anc b t /\ forall t', made j b h t' -> t' = t).
Proof.
  eapply ends_mono; [apply run_ends|]. intros r w' [[E|(b & h & t & E & Hm & Hb & Hh)] _]; [by left|].
  right. exists b, h, t. split_and!; [done..|by eapply made_anc|]. intros t' Ht'. by eapply made_unique.
Qed.


Lemma resolve_heads w b : resolve w (heads b) = refs w !! b.
Proof. unfold resolve, heads. by rewrite strip_prefix_app. Qed.
(** C40: The trial merge moves nothing and reads the cache alone; its verdict is git's of the very tips
    it names, so a clean one means merging them gives a tree and a dirty one names their conflicts. *)
Theorem verdict_is_the_merge j cache w :
  ends git_sem (check_local j cache) w (fun r w' => kept w w' /\ forall v, r = inl v ->
    match v_state v with
    | Unknown => True
    | vs => refs w !! w_base j = Some (v_base_oid v) /\ refs w !! w_head j = Some (v_head_oid v) /\
        match merges (v_base_oid v) (v_head_oid v) with
        | inl _ => vs = Clean
        | inr ps => vs = Dirty /\ v_detail v = Some (conflict_detail ps)
        end
    end).
Proof.
  eapply ends_seq; [by apply quiet_ends|]. intros there w1 H1. destruct there; cbn [negb]; [|cbn [ends]; split; [done|]; by intros v [= <-]].
  cbn zeta. eapply ends_seq; [by apply local_ends|]. intros [o|e] w2 [H2 Ho]; [|cbn [ends]; split; [chain|done]].
  destruct (success o) eqn:Eo; cbn [negb]; [|cbn [ends]; split; [chain|]; by intros v [= <-]].
  destruct (Ho o eq_refl) as (w3 & Hd & -> & Hids). destruct (Hids Eo) as (ids & Hi & Hf & ->). rewrite lines_ids by done.
  inversion Hf as [|? b ? ids1 Hb Hf1]; subst. inversion Hf1 as [|? h ? ids2 Hh Hf2]; subst. inversion Hf2; subst. cbn in Hb, Hh.
  inversion Hi as [|? ? Hib Hi1]; subst. inversion Hi1 as [|? ? Hih _]; subst. cbn [lookup list_lookup default from_option id].
  rewrite !trim_id_alone by done.
  eapply ends_seq; [apply tree_merge_ends|]. intros x w4 [H4 Hx]. cbn [ends]. split; [chain|]. intros v [= <-].
  assert (Hr : refs w = refs w3) by (destruct H1, H2; congruence). rewrite Hr.
  destruct x as [x|e]; [|done]. destruct (Hx _ eq_refl) as (w5 & ia & ib & [_ H5] & Ha & Hb2 & Hmm).
  rewrite resolve_heads in Ha, Hb2. rewrite H5 in Ha, Hb2. simplify_eq. destruct x as [t|oc]; cbn.
  - destruct Hmm as [-> _]. done.
  - destruct Hmm as (ps & -> & ->). done.
Qed.
End world.

(** * A git in memory *)

(** Its commits spell their tree and their parents out, so a commit contains its ancestors; two trees
    merge to both of them, or conflict where the second is one that does. *)
Definition zeros (n : nat) : string := Nat.iter n (String "0") "".
Definition toy_commit (t : string) (ps : list string) : string := zeros (String.length t) +:+ String "1" (t +:+ String.concat "" ps).
Fixpoint toy_tree (n : nat) (id : string) : string :=
  match id with
  | EmptyString => ""
  | String c r => if Ascii.eqb c "1" then substring 0 n r else toy_tree (S n) r
  end.
Definition tree_at (id : string) : string := toy_tree 0 id.
Definition toy_merge (a b : string) : string + list string :=
  let ta := tree_at a in let tb := tree_at b in
  if contains_str "dead" tb && negb (contains_str tb ta) then inr ["f.txt"; "g.txt"]
  else inl (if contains_str tb ta then ta else ta +:+ tb).

Lemma substring_app a b : substring 0 (String.length a) (a +:+ b) = a.
Proof. induction a as [|c a IH]; [by destruct b|]. cbn. by rewrite IH. Qed.
Lemma toy_tree_commit t ps : tree_at (toy_commit t ps) = t.
Proof.
  unfold tree_at, toy_commit. assert (forall n m r, toy_tree m (zeros n +:+ String "1" r) = substring 0 (m + n) r) as ->.
  { induction n as [|n IH]; intros m r; [by rewrite Nat.add_0_r|]. cbn. rewrite IH. f_equal. lia. }
  apply substring_app.
Qed.
Lemma contains_parts p s : contains_str p s = true <-> exists a b, s = a +:+ p +:+ b.
Proof.
  split.
  - induction s as [|c s IH]; cbn [contains_str]; intros [H|H]%orb_true_iff.
    + unfold starts_with in H. destruct (strip_prefix p "") as [r|] eqn:E; [|done]. apply strip_prefix_some in E. exists "", r. exact E.
    + done.
    + unfold starts_with in H. destruct (strip_prefix p (String c s)) as [r|] eqn:E; [|done]. apply strip_prefix_some in E. exists "", r. exact E.
    + destruct (IH H) as (a & b & ->). by exists (String c a), b.
  - intros (a & b & ->). induction a as [|c a IH]; [|cbn [String.append contains_str]; by rewrite IH, orb_true_r].
    change ("" +:+ p +:+ b) with (p +:+ b). destruct (p +:+ b) eqn:E; cbn [contains_str]; rewrite <- E; unfold starts_with; by rewrite strip_prefix_app.
Qed.
Lemma concat_contains p ps : p ∈ ps -> contains_str p (String.concat "" ps) = true.
Proof.
  intros H. apply contains_parts. induction H as [q ps|q r ps H (a & b & IH)].
  - exists "". destruct ps as [|r ps]; cbn; [exists ""; by rewrite append_nil_r|by eexists].
  - destruct ps as [|r' ps]; [by apply not_elem_of_nil in H|]. exists (r +:+ a), b.
    change (String.concat "" (r :: r' :: ps)) with (r +:+ String.concat "" (r' :: ps)). by rewrite IH, append_assoc.
Qed.
Lemma toy_parent t ps p : p ∈ ps -> contains_str p (toy_commit t ps) = true.
Proof.
  intros H. apply contains_parts. unfold toy_commit. apply concat_contains, contains_parts in H as (a & b & ->).
  exists (zeros (String.length t) +:+ String "1" (t +:+ a)), b. rewrite !append_assoc. cbn. by rewrite append_assoc.
Qed.
#[global] Program Instance toy : Git := {|
  anc a b := contains_str a b = true;
  tree_of := tree_at;
  merges := toy_merge;
  who _ := unlines ["Ada"; "ada@example.com"; "1700000000"];
  commit_of t ps _ _ _ _ := toy_commit t ps;
  rebased b h := toy_commit (tree_at b +:+ tree_at h) [b];
|}.
Next Obligation.
  split.
  - intros a. apply contains_parts. exists "", "". by rewrite append_nil_r.
  - intros a b c (x & y & ->)%contains_parts (u & v & ->)%contains_parts. apply contains_parts. exists (u +:+ x), (y +:+ v). by rewrite !append_assoc.
Qed.
Next Obligation. intros. by apply toy_parent. Qed.
Next Obligation. intros. apply toy_parent. by left. Qed.
Next Obligation. intros. apply toy_tree_commit. Qed.

(** What a command meets: nothing unusual; it is done and cannot say so; it fails; another pushed just before. *)
Inductive luck := Fine | Deaf | Fails | Others (b t : string).
Definition Box : Type := MW * list luck.
Definition id_ok (s : string) : bool := negb (String.eqb s "") && all_hex s.
Lemma id_ok_is s : id_ok s = true -> is_id s.
Proof. intros [H1%negb_true_iff H2]%andb_true_iff. split; [|done]. by apply String.eqb_neq. Qed.

Definition yes (text : string) (w : MW) : output * MW := (mkOut (Some 0) text "", w).
Definition lost (w : MW) : output * MW := (mkOut (Some 128) "" (unlines ["fatal: the remote end hung up"]), w).
Definition no (text : string) (w : MW) : output * MW := (mkOut (Some 1) text (unlines ["stale info"]), w).
Definition printed (ps : list string) : string :=
  "0" +:+ String NUL (String.concat "" ((fun p => "100644 0a 1" +:+ String tab (p +:+ String NUL "")) <$> ps) +:+ String NUL "").
Definition answer (c : cmd) (w : MW) : output * MW :=
  match c with
  | RevParse rs => match mapM (rev_id w) rs with Some ids => if forallb id_ok ids then yes (unlines ids) w else lost w | None => lost w end
  | RevParseHead => match wt_head w with Some h => if id_ok h then yes (unlines [h]) w else lost w | None => lost w end
  | IsAncestor a b => if contains_str a b then yes "" w else no "" w
  | MergeTree a b =>
    match resolve w a, resolve w b with
    | Some ia, Some ib =>
      match toy_merge ia ib with
      | inl t => if id_ok t then yes (t +:+ String NUL "") w else lost w
      | inr ps => if bool_decide (conflicted_paths (printed ps) = ps) then no (printed ps) w else lost w
      end
    | _, _ => lost w
    end
  | LogWho id => yes (who id) w
  | CommitTree t ps m n e at_ => if id_ok (toy_commit t ps) then yes (unlines [toy_commit t ps]) w else lost w
  | WorktreeAdd _ id => yes "" (set_head (Some id) w)
  | Rebase base _ _ => match wt_head w with Some h => yes "" (set_head (Some (rebased base h)) w) | None => lost w end
  | Merge.Fetch _ _ => yes "" (set_refs (fleet w) w)
  | Merge.Push b lease _ new =>
    if bool_decide (fleet w !! b = Some new) then yes "" w
    else if bool_decide (fleet w !! b = Some lease) then yes "" (land b lease new w) else no "" w
  | LogIdent => yes (unlines ["Ada"; "ada@example.com"]) w
  | InitBare | RebaseAbort | WorktreeRemove _ | WorktreePrune => yes "" w
  end.
Definition others (b t : string) (w : MW) : MW := mkMW (<[b := t]> (fleet w)) (refs w) (wt_head w) ((b, t) :: past w) (moves w).
Definition perform (c : cmd) (s : Box) : output * Box :=
  let '(w, l) := s in
  match l with
  | [] => let '(o, w') := answer c w in (o, (w', []))
  | Fine :: l => let '(o, w') := answer c w in (o, (w', l))
  | Deaf :: l => (fst (lost w), ((answer c w).2, l))
  | Fails :: l => (fst (lost w), (w, l))
  | Others b t :: l => let '(o, w') := answer c (others b t w) in (o, (w', l))
  end.
#[global] Instance git_box : Exec GE Box := fun X e s =>
  match e in GE X return option (X * Box) with
  | GitVersion => Some (true, s)
  | HeadExists _ => Some (true, s)
  | MkDir _ => Some (inl tt, s)
  | StampUsed _ => Some (tt, s)
  | Local _ c | Networked _ _ _ c => let '(o, s') := perform c s in Some (inl o, s')
  | Pid => Some ("7", s)
  | RemoveTree _ => Some (true, s)
  | ReadCaches _ => Some (None, s)
  | SinceUse _ => Some (0, s)
  | Lock _ => Some (tt, s)
  | Unlock _ => Some (tt, s)
  | PostCheck _ _ _ => Some (inl None, s)
  | PostClaim _ _ _ _ => Some (inl None, s)
  | PostOutcome _ _ _ _ _ => Some (inl tt, s)
  | PostMergeability _ _ _ _ => Some (inl tt, s)
  end.

Definition kept_past (w : MW) : Prop := forall b t, fleet w !! b = Some t -> (b, t) ∈ past w.
Lemma drift_none w : kept_past w -> drift w w. Proof. by split. Qed.
Lemma drift_others w b t : kept_past w -> drift w (others b t w).
Proof.
  intros H. split; cbn; try done; [set_solver|]. intros b' t'. rewrite lookup_insert_Some. intros [[-> ->]|[_ Ht]]; [set_solver|].
  apply list_elem_of_further. by apply H.
Qed.

Lemma mapM_ids w rs ids : mapM (rev_id w) rs = Some ids -> Forall2 (fun r i => rev_id w r = Some i) rs ids.
Proof. intros H. by apply mapM_Some in H. Qed.
Lemma lost_act c w : git_act c (lost w).1 w w.
Proof. destruct c; cbn; try (split; done); try (exists (wt_head w); by destruct w); [exists (refs w); by destruct w|by left]. Qed.
Lemma deaf_act c o w w' : git_act c o w w' -> git_act c (lost w).1 w w'.
Proof.
  destruct c; cbn; first [done | intros (h & -> & _); exists h; by split | intros [-> _]; by split | intros [[-> _]|H]; [by left|by right]].
Qed.
Lemma answer_act c w o w' : answer c w = (o, w') -> git_act c o w w' /\ (kept_past w -> kept_past w').
Proof.
  assert (forall w, kept_past w -> kept_past (set_head (wt_head w) w)) as Hself by done.
  intros Ha. destruct c; cbn in Ha.
  - injection Ha as <- <-. split; [|done]. exists (wt_head w). by destruct w.
  - injection Ha as <- <-. split; [|done]. exists (fleet w). split; [done|]. intros _. by case_decide.
  - destruct (mapM _ _) as [ids|] eqn:E; [|injection Ha as <- <-; split; [apply lost_act|done]].
    destruct (forallb id_ok ids) eqn:Ei; injection Ha as <- <-; (split; [|done]); [|apply lost_act].
    split; [done|]. intros _. exists ids. split_and!; [|by apply mapM_ids|done].
    apply Forall_forall. intros i Hi. apply id_ok_is. rewrite forallb_forall in Ei. apply Ei. by apply list_elem_of_In.
  - destruct (wt_head w) as [h|] eqn:E; [|injection Ha as <- <-; split; [by apply (lost_act RevParseHead)|done]].
    destruct (id_ok h) eqn:Ei; injection Ha as <- <-; (split; [|done]); [|by apply (lost_act RevParseHead)].
    split; [done|]. intros _. exists h. split_and!; [by apply id_ok_is|done|done].
  - destruct (contains_str a b) eqn:E; injection Ha as <- <-; (split; [|done]); (split; [done|]); split; try done. intros _. congruence.
  - destruct (resolve w a) as [ia|] eqn:Ea; [|injection Ha as <- <-; split; [by apply (lost_act (MergeTree a b))|done]].
    destruct (resolve w b) as [ib|] eqn:Eb; [|injection Ha as <- <-; split; [by apply (lost_act (MergeTree a b))|done]].
    destruct (toy_merge ia ib) as [t|ps] eqn:E.
    + destruct (id_ok t) eqn:Ei; injection Ha as <- <-; (split; [|done]); [|by apply (lost_act (MergeTree a b))].
      split; [done|]. split; [|done]. intros _. exists ia, ib, t, "". split_and!; [done..|by apply id_ok_is|done].
    + case_bool_decide as Ep; injection Ha as <- <-; (split; [|done]); [|by apply (lost_act (MergeTree a b))].
      split; [done|]. split; [done|]. intros _. by exists ia, ib, ps.
  - by injection Ha as <- <-.
  - by injection Ha as <- <-.
  - destruct (id_ok _) eqn:Ei; injection Ha as <- <-; (split; [|done]); [|by split].
    split; [done|]. intros _. split; [by apply id_ok_is|done].
  - injection Ha as <- <-. split; [|done]. by exists (Some id).
  - destruct (wt_head w) as [h|] eqn:E; injection Ha as <- <-; (split; [|done]); [|by apply (lost_act (Rebase base name mail))].
    eexists. split; [done|]. intros _. by exists h.
  - injection Ha as <- <-. split; [|done]. exists (wt_head w). by destruct w.
  - injection Ha as <- <-. split; [|done]. exists (wt_head w). by destruct w.
  - injection Ha as <- <-. split; [|done]. exists (wt_head w). by destruct w.
  - case_bool_decide as E1; [injection Ha as <- <-; split; [by left|done]|].
    case_bool_decide as E2; injection Ha as <- <-.
    + split; [by right|]. intros H b t. cbn. rewrite lookup_insert_Some. intros [[-> ->]|[_ Ht]]; [set_solver|].
      apply list_elem_of_further. by apply H.
    + split; [by left|done].
Qed.
Lemma box_step {X} (e : GE X) (s s' : Box) x : kept_past s.1 -> exec X e s = Some (x, s') -> git_sem X e s.1 x s'.1 /\ kept_past s'.1.
Proof.
  intros Hk He. assert (Hq : forall w, kept_past w -> (exists w1, drift w w1 /\ w = w1)) by (intros w H; exists w; split; [by apply drift_none|done]).
  assert (Hc : forall c o s', perform c s = (o, s') -> (exists w1, drift s.1 w1 /\ git_act c o w1 s'.1) /\ kept_past s'.1).
  { clear He. destruct s as [w l]. cbn in Hk. intros c o s1. unfold perform. cbn [fst].
    destruct l as [|[| | |b t] l].
    - destruct (answer c w) as [o1 w1] eqn:E. intros [= <- <-]. apply answer_act in E as [H1 H2]. split; [|by apply H2]. exists w. by split; [apply drift_none|].
    - destruct (answer c w) as [o1 w1] eqn:E. intros [= <- <-]. apply answer_act in E as [H1 H2]. split; [|by apply H2]. exists w. by split; [apply drift_none|].
    - destruct (answer c w) as [o1 w1] eqn:E. intros [= <- <-]. apply answer_act in E as [H1 H2]. cbn. split; [|by apply H2]. exists w.
      split; [by apply drift_none|by eapply deaf_act].
    - intros [= <- <-]. split; [|done]. exists w. split; [by apply drift_none|apply lost_act].
    - destruct (answer c (others b t w)) as [o1 w1] eqn:E. intros [= <- <-]. apply answer_act in E as [H1 H2]. pose proof (drift_others w b t Hk) as Hd.
      split; [by exists (others b t w)|]. apply H2. intros b' t'. apply (d_fleet _ _ Hd). }
  destruct e; cbn in He; try (injection He as <- <-; split; [exists s.1; split; [by apply drift_none|done]|done]).
  - destruct (perform c s) as [o s1] eqn:E. injection He as <- <-. destruct (Hc _ _ _ E) as [H1 H2]. by split.
  - destruct (perform c s) as [o s1] eqn:E. injection He as <- <-. destruct (Hc _ _ _ E) as [H1 H2]. by split.
Qed.
(** What the machine does is one of the endings the theorems speak of. *)
Lemma box_ends {A} (p : gprog A) s x s' Q : kept_past s.1 -> Prog.run p s = Some (x, s') -> ends git_sem p s.1 Q -> Q x s'.1.
Proof.
  revert s. induction p as [a|X e k IH]; intros s Hk Hr Hq; cbn in Hr, Hq.
  - by injection Hr as <- <-.
  - destruct (exec X e s) as [[y s1]|] eqn:E; [|done]. destruct (box_step e s s1 y Hk E) as [H1 H2]. by apply (IH y s1); [..|apply Hq].
Qed.

(** ** Runs *)
Definition root : string := toy_commit "a" [].
Definition topic : string := toy_commit "ab" [root].
Definition elsewhere : string := toy_commit "ac" [root].
Definition job (strategy : string) : Job := mkJob "acme" "web" 7 strategy "main" "topic" "Add b" "ada".
Definition start (main head_ : string) : MW :=
  let f := <["topic" := head_]> {["main" := main]} in mkMW f ∅ None [("main", main); ("topic", head_)] [].
Definition go (strategy : string) (w : MW) (l : list luck) : option ((Outcome + string) * Box) :=
  Prog.run (Merge.run (job strategy) "/cache" "http://fleet" "s") (w, l).
Definition came (r : option ((Outcome + string) * Box)) : option ((Outcome + string) * list (string * string * string)) :=
  '(x, (w, _)) ← r; Some (x, moves w).
Lemma kept_start a b : kept_past (start a b).
Proof. intros x t. unfold start; cbn. rewrite lookup_insert_Some, lookup_singleton_Some. intros [[<- <-]|[_ [<- <-]]]; set_solver. Qed.

Definition both : string := toy_commit "acab" [elsewhere; topic].
Lemma merges_run : came (go "merge" (start elsewhere topic) []) = Some (inl (merged None both), [("main", elsewhere, both)]).
Proof. by vm_compute. Qed.
Lemma squashes_run : came (go "squash" (start elsewhere topic) []) =
  Some (inl (merged None (toy_commit "acab" [elsewhere])), [("main", elsewhere, toy_commit "acab" [elsewhere])]).
Proof. by vm_compute. Qed.
Lemma rebases_run : came (go "rebase" (start elsewhere topic) []) =
  Some (inl (merged None (rebased elsewhere topic)), [("main", elsewhere, rebased elsewhere topic)]).
Proof. by vm_compute. Qed.
Lemma conflicts_run : came (go "merge" (start elsewhere (toy_commit "dead" [root])) []) =
  Some (inl (conflicts "conflicts in: f.txt, g.txt"), []).
Proof. by vm_compute. Qed.
(** The base moves while a merge is made: the lease refuses it, and says so. *)
Lemma outrun_run : came (go "merge" (start elsewhere topic) [Fine; Fine; Fine; Fine; Fine; Fine; Others "main" (toy_commit "ad" [elsewhere])]) =
  Some (inl (refused "stale info"), []).
Proof. by vm_compute. Qed.
(** The push is done and its answer lost, and the fleet is heard again: merged. *)
Lemma unheard_run : came (go "merge" (start elsewhere topic) [Fine; Fine; Fine; Fine; Fine; Fine; Deaf]) =
  Some (inl (merged already both), [("main", elsewhere, both)]).
Proof. by vm_compute. Qed.

(** The answer and the moves of a run, and where it ended. *)
Lemma came_from r x m : came r = Some (x, m) -> exists w l, r = Some (x, (w, l)) /\ moves w = m.
Proof. destruct r as [[y [w l]]|]; [|done]. intros [= -> <-]. by exists w, l. Qed.

Lemma push_is_the_strategys_witness :
  exists w' l, go "merge" (start elsewhere topic) [] = Some (inl (merged None both), (w', l)) /\
    exists b h t, moves w' = [("main", b, t)] /\ ("main", b) ∈ past w' /\ ("topic", h) ∈ past w' /\
      made (job "merge") b h t /\ anc b t /\ forall t', made (job "merge") b h t' -> t' = t.
Proof.
  destruct (came_from _ _ _ merges_run) as (w' & l & Hgo & Hm). exists w', l. split; [exact Hgo|].
  destruct (box_ends _ (start elsewhere topic, []) _ _ _ (kept_start _ _) Hgo (push_is_the_strategys (job "merge") "/cache" "http://fleet" "s" (start elsewhere topic)))
    as [E|H]; [cbn in E; congruence|exact H].
Defined.
Definition synced : MW := set_refs (fleet (start elsewhere topic)) (start elsewhere topic).
Lemma checks_run : exists v s', Prog.run (check_local (job "") "/cache") (synced, []) = Some (inl v, s') /\ v_state v = Clean.
Proof. do 2 eexists. split; [by vm_compute|done]. Qed.
Lemma verdict_is_the_merge_witness :
  exists v s', Prog.run (check_local (job "") "/cache") (synced, []) = Some (inl v, s') /\ v_state v = Clean /\
    refs synced !! "main" = Some (v_base_oid v) /\ refs synced !! "topic" = Some (v_head_oid v) /\
    exists t, merges (v_base_oid v) (v_head_oid v) = inl t.
Proof.
  destruct checks_run as (v & s' & Hgo & Hv). exists v, s'. split; [exact Hgo|]. split; [exact Hv|].
  destruct (box_ends _ (synced, []) _ _ _ (kept_start elsewhere topic) Hgo (verdict_is_the_merge (job "") "/cache" synced)) as [_ H].
  specialize (H _ eq_refl). rewrite Hv in H. destruct H as (H1 & H2 & H3). split_and!; [exact H1|exact H2|].
  destruct (merges _ _) as [t|ps]; [by exists t|by destruct H3].
Defined.

(** ** What does not go as it is documented *)

(** The push is done and its answer lost, and the fleet cannot be reached: the job is recorded as
    refused, though the base has moved to its merge. *)
Theorem landed_and_recorded_refused :
  came (go "merge" (start elsewhere topic) [Fine; Fine; Fine; Fine; Fine; Fine; Deaf; Fails; Fails]) =
    Some (inl (refused "fatal: the remote end hung up"), [("main", elsewhere, both)]).
Proof. by vm_compute. Qed.

(** Another worker's rebase of the same job has landed and the base has moved on: a merge that raced
    so is found in the base, a rebase is not, and is recorded as refused. *)
Definition raced (strategy : string) (before : nat) (done_ : string) : option ((Outcome + string) * list (string * string * string)) :=
  came (go strategy (start elsewhere topic) (repeat Fine before ++ [Others "main" (toy_commit "acaba" [done_])])).
Theorem raced_rebase_is_refused :
  made (job "rebase") elsewhere topic (rebased elsewhere topic) /\
  raced "rebase" 9 (rebased elsewhere topic) = Some (inl (refused "stale info"), []) /\
  raced "merge" 6 both = Some (inl (merged already (toy_commit "acaba" [both])), []).
Proof. split_and!; [right; left; done|by vm_compute..]. Qed.

(** A rebase that could not be run (no disk, say) is reported as one that conflicts. *)
Theorem failed_rebase_is_a_conflict :
  came (go "rebase" (start elsewhere topic) [Fine; Fine; Fine; Fine; Fine; Fails]) =
    Some (inl (conflicts "rebase stopped: fatal: the remote end hung up"), []).
Proof. by vm_compute. Qed.

(** The ancestry question could not be answered (its exit status is neither yes nor no): the job is
    refused as no fast-forward, which it is. *)
Theorem unanswered_is_no_fast_forward :
  anc root topic /\
  came (go "fast-forward" (start root topic) [Fine; Fine; Fine; Fails]) =
    Some (inl (refused "not a fast-forward — use merge or squash, or rebase and push again"), []).
Proof. split; by vm_compute. Qed.
